(* ===== verification/_CoqProject ===== *)
-Q . S2P
Prelude.v
GoStd.v
GoUrl.v
Nar.v
CacheInfo.v
CircuitBreaker.v
LocalLock.v
FS.v
LocalStore.v
ChunkStore.v
Staging.v
Download.v
Coordination.v
RedisLock.v
Redlock.v
Tx.v
BuildTrace.v
LRU.v
NarInfoDB.v
NarInfoCache.v
NarServe.v
NarStore.v
Fsck.v
Upstream.v
Conn.v
Migrate.v
Database.v
Config.v
SecretKey.v
CDC.v
S3.v
S3Chunk.v
Server.v
Bulk.v
Startup.v
