(* ===== verification/Prelude.v ===== *)
(** * A verification development for ncps, the Nix cache proxy server

    ncps answers Nix clients for a binary cache: it serves narinfos (metadata of a
    store path) and NARs (its archive) from its own stores, fetches what it lacks from
    upstream caches, accepts uploads, evicts what is old, and can keep NARs as
    deduplicated chunks.  Several replicas may share one database, one storage and one
    Redis.  The development models the parts that decide what is stored, served and
    deleted, as the Go code under [src/] has them, and proves what they promise.

    ** The parts of the program and where they are

    - [Prelude]: results ([result]: a Go value and error), effects ([eff]: a function on
      a state, whose state survives an error), weakest preconditions ([wp]) over states
      with faults, lemmas on strings and on counting in maps.  [GoStd]: the functions of
      [strings], [path/filepath], [strconv] and [net/url] the sources call; [GoUrl]:
      [url.Parse] and [String].
    - [Nar]: hashes, compression types, NAR URLs and sharded paths ([pkg/nar],
      [pkg/narinfo], [pkg/helper]).  [CacheInfo]: the nix-cache-info document
      ([pkg/nixcacheinfo]) and human-readable sizes.
    - [FS]: the file system the stores run on.  [LocalStore]: NARs, staging parts and
      legacy narinfos in files ([pkg/storage/local]).  [ChunkStore]: chunks in files
      ([pkg/storage/chunk/local.go]).  [S3], [S3Chunk]: the same stores in a bucket
      ([pkg/storage/s3], [pkg/storage/chunk/s3.go]).
    - [CircuitBreaker] ([pkg/circuitbreaker]), [LocalLock] (the in-process lockers of
      [pkg/lock/local]), [RedisLock] (the read-write locker of [pkg/lock/redis]),
      [Redlock] (its exclusive locker, and the goroutine that keeps a lock,
      [pkg/lock/refresher.go]).
    - [Coordination]: who downloads an asset and who waits ([coordinateDownload],
      [pollForDownloadOrTakeOver] of [pkg/cache/cache.go]).  [Staging]: handing an
      unfinished download to other replicas as part-objects
      ([pkg/cache/inflight_staging*.go]).  [Download]: the temporary file of a download
      and the clients that stream it while it grows.  [CDC]: chunking a NAR, recording its chunks,
      streaming it while it is chunked ([storeNarWithCDCFromReader],
      [streamCompleteChunks], [streamProgressiveChunks], [pkg/chunker]).
    - [Tx]: transactions and their retries ([WithTransaction],
      [withEntTransactionRetry]).  [NarInfoDB]: the tables of narinfos and the closures
      run in transactions on them ([storeInDatabase], [populateNarInfoFromDatabase],
      the closure of [purgeNarInfo], the repairs).  [NarInfoCache]: the handlers
      [GetNarInfo], [PutNarInfo], [DeleteNarInfo], [MigrateNarInfo], [purgeNarInfo] and
      what they call.  [Upstream]: the client of an upstream cache
      ([pkg/cache/upstream]), the health checker ([pkg/cache/healthcheck]) and the choice
      of an upstream.  [BuildTrace]: signed build traces ([pkg/cache/build_trace.go]).
      [NarServe]: [GetNar], its sources (whole files, chunks, a download's file) and the
      content negotiation of the handler [getNar].
      [NarStore]: [PutNar], [pullNarIntoStore], [DeleteNar], the migrations between whole
      files and chunks and the periodic jobs.  [LRU]: eviction and pinned closures ([runLRU],
      [GetPinnedClosureHashes]).  [Fsck]: the command that checks the tables against the
      stores and repairs them ([pkg/ncps/fsck.go], [fsck_chunked_residue.go]); it works on
      [NarInfoCache]'s world with the columns and the table of chunks only it uses.
    - [Conn]: statements outside transactions.  [Database]: from a database's URL to what
      its driver is opened with ([pkg/database/database.go]).  [Migrate]: adopting and
      creating the schema ([pkg/database/migrate]).  [Config]: the stored settings and the chunking
      parameters across boots ([pkg/config], [createCache] of [pkg/ncps/serve.go]).
      [SecretKey]: the signing key across boots ([setupSecretKey]).
    - [Server]: the routes, the token middleware and every handler
      ([pkg/server/server.go]), over the class [CacheOps] of what they ask of the cache,
      which [NarInfoCache], [NarServe] and [NarStore] implement ([Server.modelled]).
      [Bulk]: the commands that migrate all narinfos or NARs ([pkg/ncps/migrate_*.go]),
      over [NarInfoCache]'s and [NarStore]'s migrations of one.  [Startup]: from the flags
      to the running server ([pkg/ncps/serve.go]), by the operations of [RedisLock],
      [Redlock], [Config], [SecretKey], [Upstream], [Staging] and [Server].

    A file's definitions carry the names of the code.  State a struct or the database
    keeps is a record; an error is a constructor or the sentinel it wraps.

    ** How effects, faults and concurrency are modelled

    Sequential code is a term of [eff] over a state that pairs what the code works on
    with a script of what befalls its operations: a system call, a statement or a
    store's method may fail before its effect or after it, a transaction may be rolled
    back, a reply may be lost.  Theorems quantify over the script, so they hold whatever
    fails; the calm script is the empty one.  [wp b m Q w] says that [m], started in
    world [w] with an arbitrary script ([b = true]) or a calm one, ends in [Q].  Code
    that runs concurrently ([LocalLock], [RedisLock], [Redlock], [Coordination],
    [Staging], [Download], [CDC], the probes of [Upstream])
    is a step relation or a list of events over a shared state, one shared access to a
    step, and its theorems are invariants of all interleavings.  Transactions are
    atomic against other clients, who may act between the attempts of one.  The loops
    run until their condition fails or as often as the code bounds them; where a
    function takes fuel it is the number of rows, parts or attempts the loop can see,
    and the theorems say that it is enough.  Machine integers are [Z] with their wraps
    written out ([parse_size], the signed columns of unsigned sizes, sums of sizes).

    What the sources only call is a class or an argument, with the laws its
    documentation states where a theorem needs them: [PartStore], [Locker], [Redis],
    [ChunkStorage], [GooseProvider], [GoNix] (hashes and signatures that print and
    parse), [Signing], [Codec] (the compressors, with their round trips), [Chunker]
    (FastCDC and its digest: the chunks make up the stream, digests differ), [Hashing],
    zstd with its round trip, [NarInfoLib], [Json], [SecretKey] and [KeyLib] (go-nix's
    parsers and keys, [encoding/json]), [S3Client] (what MinIO's client makes of a body),
    [Redsync] (a mutex over a majority of the nodes each locker found), [Libs] (chi's matching of paths).  Each
    class with laws has an instance the witnesses run on.

    ** What the theorems show

    - The stores: the local store and the bucket are maps from NAR names to contents,
      writes are atomic under any failure, deletions stay inside the store; a chunk read
      back is the chunk put.
    - URLs and records: printing and parsing NAR URLs round-trips; a database's socket URL
      reaches the socket with its credentials; a narinfo read back is
      the one stored; the tables keep their invariant under every transaction.
    - Upstreams: a narinfo an upstream is believed about came whole, for its own path,
      and signed where a key is configured; it counts as gone upstream only when every
      healthy upstream said so; the choice among upstreams ends and is one that has the
      file.
    - The server: without its token or its permission a request reaches no operation of
      the cache; the URL in a served narinfo leads to that narinfo's NAR; a build trace is
      served signed; the key that signs is the one first stored; a server that starts
      is configured consistently.
    - Narinfos: an unknown narinfo is pulled through; a failing migration deletes no
      legacy narinfo before the database has it, or had a row with a URL for its hash; a
      request for a narinfo whose URL parses loses nothing of it; the internal signal
      for a missing NAR stays internal.
    - NARs: a request answered in full gets the NAR asked for, encoded as announced, when
      what it reads is as its name says; a NAR that is there survives every sequence of
      uploads, downloads, migrations and jobs among any faults, and is served to the next
      undisturbed request, as long as the operations stay within [NarStore.op_ok]: no
      deletion or purge of that very NAR, no pull that breaks off while it is chunked, no
      clean-up without a chunk store or over rows of several queries.  Here one
      operation runs at a time, over worlds where the files and chunks hold what their
      names say ([NarServe.sound], [NarStore.tidy]).
    - Consistency checks: whatever fails, a NAR stored as its row says survives a run with
      all its records, unless another file's name leads to its path or a narinfo of its
      has an empty hash ([Fsck.sane]); reading in pages finds every row
      once; the loop that reclaims chunks ends; a dry run changes stamps only.
    - Locks and downloads: mutual exclusion of the in-process locks; one writer across
      replicas while the clocks and leases hold and the lockers keep their tokens, in
      Redis too where the lockers' sets of nodes share a majority; at most one download of
      an asset at a time as long as no request that waits for storage is abandoned.
    - Streams: what a reader of a growing temporary file, of staged parts or of chunks is
      given is a prefix of the NAR, and all of it when it is told so, unless the request
      was canceled (chunks) or writers use parts of different sizes (staging); a
      finished download reaches every reader once it is stored or its chunking over; storing
      a NAR in chunks completes, whenever the flush timer fires.
    - Bulk migrations: whatever fails, turning all NARs into chunks keeps each NAR whose
      rows have one query; a run that turns all chunks into files without an error counts
      every row but those its workers found the context done for, and leaves no chunked
      row when there are none of these nor skips; any error else purges.
    - Eviction: what the traversal of pins returns survives, and the files only its rows
      name, the least recently used goes first, nothing
      is left dangling.  Schema and settings: an adoption interrupted anywhere ends in
      the adopted schema; chunk sizes never change under stored chunks.
    - Where the code does not do what it means to, a theorem exhibits it: a narinfo mixed
      from two uploads, stale narinfos that never heal, purges and evictions that delete
      live files after a retry, pins that protect only roots, streams cut or corrupted
      after a failed download, compressed bytes served or kept as the plain NAR, repairs
      and drains that delete what was uploaded, locks released by a former holder or granted twice over
      disjoint sets of nodes, NARs lost to rows that share their file, empty
      answers to upstream time-outs, upstream keys that check nothing.  Those without a
      claim number stay in the files.

    ** Not modelled

    The definition of the flags; SQL and its drivers, and the generated entity code (the
    tables have the columns, keys and cascades of [ent/schema]); chi's matching of paths
    and panics other than URL printing's; logs, traces and metrics; what time does to back-offs and polling intervals other than the
    leases of locks.  A consistency run and the bulk commands are alone on their tables
    and stores, the bulk commands' workers run one after another (in any order), and
    their progress reports are left out.  Requests to one replica are composed one at a
    time in [NarStore]; the interleavings modelled are those of downloads, streams,
    chunking, locks and probes named above. *)
From Stdlib Require Ascii.
From stdpp Require Export base tactics strings list gmap sets pretty.

Export Stdlib.Strings.Ascii (ascii(..)).
Export (notations) Stdlib.Strings.Ascii.
Bind Scope char_scope with ascii.

(** ** Results: Go's pair of a value and an error *)

(** A Go call [(v, err)] is [Ok v] when [err == nil] and [Err e] otherwise. *)
Inductive result (E A : Type) : Type :=
  | Ok (a : A)
  | Err (e : E).
Arguments Ok {E A} a.
Arguments Err {E A} e.

#[global] Instance result_eq_dec {E A} `{!EqDecision E, !EqDecision A} :
  EqDecision (result E A).
Proof. solve_decision. Defined.

#[global] Instance result_ret {E} : MRet (result E) := λ A a, Ok a.
#[global] Instance result_bind {E} : MBind (result E) := λ A B f r,
  match r with Ok a => f a | Err e => Err e end.
#[global] Instance result_fmap {E} : FMap (result E) := λ A B f r,
  match r with Ok a => Ok (f a) | Err e => Err e end.

Definition is_ok {E A} (r : result E A) : bool :=
  match r with Ok _ => true | Err _ => false end.

Definition map_err {E F A} (f : E → F) (r : result E A) : result F A :=
  match r with Ok a => Ok a | Err e => Err (f e) end.

Definition of_option {E A} (e : E) (o : option A) : result E A :=
  match o with Some a => Ok a | None => Err e end.

Lemma bind_Ok_inv {E A B} (f : A → result E B) (r : result E A) (b : B) :
  r ≫= f = Ok b ↔ ∃ a, r = Ok a ∧ f a = Ok b.
Proof.
  destruct r as [a'|e]; simpl; split.
  - eauto.
  - by intros (a & [= ->] & ?).
  - done.
  - by intros (a & ? & ?).
Qed.

Lemma bind_Err_inv {E A B} (f : A → result E B) (r : result E A) (e : E) :
  r ≫= f = Err e ↔ r = Err e ∨ ∃ a, r = Ok a ∧ f a = Err e.
Proof.
  destruct r as [a'|e']; simpl; split.
  - eauto.
  - by intros [? | (a & [= ->] & ?)].
  - by intros [= ->]; left.
  - by intros [[= ->] | (a & ? & ?)].
Qed.

Lemma map_err_Ok {E F A} (f : E → F) (r : result E A) a :
  map_err f r = Ok a ↔ r = Ok a.
Proof. destruct r; simpl; split; congruence. Qed.

(** ** Effects: a Go function on a state that returns a value or an error *)

(** The state after an error is kept: Go does not roll anything back. *)
Definition eff (S E A : Type) : Type := S → result E A * S.

Section eff.
Context {S E : Type}.

#[global] Instance eff_ret : MRet (eff S E) := λ A a s, (Ok a, s).
#[global] Instance eff_bind : MBind (eff S E) := λ A B k m s,
  match m s with (Ok a, s') => k a s' | (Err e, s') => (Err e, s') end.

(** [return ..., err] *)
Definition throw {A} (e : E) : eff S E A := λ s, (Err e, s).

(** [v, err := m()] with the error inspected by the caller. *)
Definition try {E' A} (m : eff S E A) : eff S E' (result E A) :=
  λ s, let '(r, s') := m s in (Ok r, s').

(** [if err := m(); err != nil { return f(err) }] *)
Definition wrap {E' A} (f : E → E') (m : eff S E A) : eff S E' A :=
  λ s, let '(r, s') := m s in (map_err f r, s').

(** A pure computation. *)
Definition lift {A} (r : result E A) : eff S E A := λ s, (r, s).

Definition get : eff S E S := λ s, (Ok s, s).
End eff.

(** ** Programs whose steps may fail: weakest preconditions *)

(** A state [S] has a visible part [W] and a script of faults to come;
    [calm false s]: the script of [s] holds none. *)
Class Faulty (S W : Type) := {
  view : S → W;
  calm : bool → S → Prop;
}.

(** [wp b m Q w]: from the visible state [w], whatever the faults ([b = true]) or
    without faults ([b = false]), [m] ends with a result and a visible state that
    satisfy [Q]. *)
Definition wp {S W} `{Faulty S W} {E A} (b : bool) (m : eff S E A) (Q : result E A → W → Prop) (w : W) : Prop :=
  ∀ s, view s = w → calm b s → calm b (m s).2 ∧ Q (m s).1 (view (m s).2).

Section wp.
Context {S W : Type} `{Faulty S W} {b : bool}.
Implicit Types w : W.

Lemma wp_mono {E A} (m : eff S E A) (Q Q' : result E A → W → Prop) w :
  wp b m Q w → (∀ r w', Q r w' → Q' r w') → wp b m Q' w.
Proof. intros Hm HQ s Hs Hq. destruct (Hm s Hs Hq). auto. Qed.

Lemma wp_ret {E A} (a : A) (Q : result E A → W → Prop) w : Q (Ok a) w → wp b (mret a) Q w.
Proof. by intros HQ s <- Hq. Qed.

Lemma wp_throw {E A} (e : E) (Q : result E A → W → Prop) w : Q (Err e) w → wp b (throw e) Q w.
Proof. by intros HQ s <- Hq. Qed.

Lemma wp_lift {E A} (r : result E A) (Q : result E A → W → Prop) w : Q r w → wp b (lift r) Q w.
Proof. by intros HQ s <- Hq. Qed.

Lemma wp_bind {E A B} (m : eff S E A) (k : A → eff S E B) (Q : result E B → W → Prop) w :
  wp b m (λ r w', match r with Ok a => wp b (k a) Q w' | Err e => Q (Err e) w' end) w →
  wp b (m ≫= k) Q w.
Proof.
  intros Hm s Hs Hq. destruct (Hm s Hs Hq) as [Hq' HQ]. unfold mbind, eff_bind.
  destruct (m s) as [[a|e] s']; simpl in *; [|done]. by apply HQ.
Qed.

Lemma wp_try {E E' A} (m : eff S E A) (Q : result E' (result E A) → W → Prop) w :
  wp b m (λ r w', Q (Ok r) w') w → wp b (try m) Q w.
Proof.
  intros Hm s Hs Hq. destruct (Hm s Hs Hq) as [Hq' HQ]. unfold try. by destruct (m s) as [r s'].
Qed.

Lemma wp_wrap {E E' A} (f : E → E') (m : eff S E A) (Q : result E' A → W → Prop) w :
  wp b m (λ r w', Q (map_err f r) w') w → wp b (wrap f m) Q w.
Proof.
  intros Hm s Hs Hq. destruct (Hm s Hs Hq) as [Hq' HQ]. unfold wrap. by destruct (m s) as [r s'].
Qed.

(** [wrap] followed by a continuation is [try] with the error passed on. *)
Lemma wp_wrap_try {E E' A B} (f : E → E') (m : eff S E A) (k : A → eff S E' B) Q w :
  wp b (r ← try m; match r with Ok a => k a | Err e => throw (f e) end) Q w →
  wp b (wrap f m ≫= k) Q w.
Proof.
  intros Hm s Hs Hq. specialize (Hm s Hs Hq). unfold mbind, eff_bind, try, wrap in *.
  by destruct (m s) as [[a|e] s'].
Qed.
End wp.

(** ** Tactics *)

(** Split every guard and match of the goal or a hypothesis, and discard the
    branches that contradict an equation. *)
Ltac guards :=
  repeat (case_match || case_decide); simplify_eq/=; try done.

(** Invert a successful monadic computation into its successful steps. *)
Ltac inv_ok :=
  repeat match goal with
  | H : _ ≫= _ = Ok _ |- _ => apply bind_Ok_inv in H; destruct H as (? & ? & ?)
  | H : map_err _ _ = Ok _ |- _ => apply map_err_Ok in H
  end; simplify_eq/=.

(** Boolean connectives of a model's guards to propositions. *)
Ltac bool_props :=
  repeat match goal with
  | H : _ && _ = true |- _ => apply andb_true_iff in H; destruct H
  | H : _ || _ = false |- _ => apply orb_false_iff in H; destruct H
  | H : negb _ = true |- _ => apply negb_true_iff in H
  | H : negb _ = false |- _ => apply negb_false_iff in H
  | H : bool_decide _ = true |- _ => apply bool_decide_eq_true in H
  | H : bool_decide _ = false |- _ => apply bool_decide_eq_false in H
  | H : Is_true _ |- _ => apply Is_true_eq_true in H
  end.

(** ** Strings: Go strings are byte sequences, i.e. Rocq [string]s *)

Fixpoint str_forall (P : ascii → bool) (s : string) : bool :=
  match s with
  | EmptyString => true
  | String a s => P a && str_forall P s
  end.

Definition str_mem (c : ascii) (s : string) : bool :=
  negb (str_forall (λ a, negb (bool_decide (a = c))) s).

Lemma str_app_nil_l s : "" +:+ s = s.
Proof. done. Qed.

Lemma str_app_cons a s t : String a s +:+ t = String a (s +:+ t).
Proof. done. Qed.

Lemma str_app_nil_r s : s +:+ "" = s.
Proof. induction s as [|a s IH]; [done|]. by rewrite str_app_cons, IH. Qed.

Lemma str_app_assoc s t u : (s +:+ t) +:+ u = s +:+ t +:+ u.
Proof. induction s as [|a s IH]; [done|]. by rewrite !str_app_cons, IH. Qed.

Lemma str_length_app s t :
  String.length (s +:+ t) = String.length s + String.length t.
Proof. induction s as [|a s IH]; [done|]. rewrite str_app_cons. simpl. by rewrite IH. Qed.

Lemma str_forall_app P s t :
  str_forall P (s +:+ t) = str_forall P s && str_forall P t.
Proof.
  induction s as [|a s IH]; [done|].
  rewrite str_app_cons. simpl. by rewrite IH, andb_assoc.
Qed.

Lemma str_forall_weaken (P Q : ascii → bool) s :
  (∀ a, P a = true → Q a = true) → str_forall P s = true → str_forall Q s = true.
Proof.
  intros HPQ. induction s as [|a s IH]; [done|]. simpl. intros ?.
  bool_props. by rewrite HPQ, IH.
Qed.

Lemma str_mem_app c s t : str_mem c (s +:+ t) = str_mem c s || str_mem c t.
Proof. unfold str_mem. by rewrite str_forall_app, negb_andb. Qed.

Lemma str_mem_cons c a s : str_mem c (String a s) = bool_decide (a = c) || str_mem c s.
Proof. unfold str_mem. simpl. by rewrite negb_andb, negb_involutive. Qed.

Lemma str_mem_of_forall P c s :
  str_forall P s = true → P c = false → str_mem c s = false.
Proof.
  intros Hs Hc. unfold str_mem. apply negb_false_iff.
  revert Hs. apply str_forall_weaken. intros a Ha.
  apply negb_true_iff, bool_decide_eq_false. congruence.
Qed.

Lemma str_app_inj_len s1 t1 s2 t2 :
  String.length s1 = String.length s2 →
  s1 +:+ t1 = s2 +:+ t2 → s1 = s2 ∧ t1 = t2.
Proof.
  revert s2. induction s1 as [|a s1 IH]; intros [|b s2] Hl Heq; try discriminate Hl.
  - done.
  - rewrite !str_app_cons in Heq. injection Heq as -> Heq. injection Hl as Hl.
    destruct (IH _ Hl Heq) as [-> ->]. done.
Qed.

(** [s[:n]] and [s[n:]] for [n ≤ len(s)]. *)
Fixpoint str_take (n : nat) (s : string) : string :=
  match n, s with
  | S n, String a s => String a (str_take n s)
  | _, _ => ""
  end.

Fixpoint str_drop (n : nat) (s : string) : string :=
  match n, s with
  | S n, String _ s => str_drop n s
  | _, _ => s
  end.

Lemma str_take_drop n s : str_take n s +:+ str_drop n s = s.
Proof.
  revert s. induction n as [|n IH]; intros [|a s]; try done.
  simpl. by rewrite str_app_cons, IH.
Qed.

Lemma str_take_app s t : str_take (String.length s) (s +:+ t) = s.
Proof. induction s as [|a s IH]; [by destruct t|]. rewrite str_app_cons. simpl. by rewrite IH. Qed.

Lemma str_drop_app s t : str_drop (String.length s) (s +:+ t) = t.
Proof. induction s as [|a s IH]; [by destruct t|]. rewrite str_app_cons. simpl. by rewrite IH. Qed.

Lemma str_length_take n s :
  n ≤ String.length s → String.length (str_take n s) = n.
Proof.
  revert s. induction n as [|n IH]; intros [|a s] Hn; simpl in *; try lia.
  rewrite IH; lia.
Qed.

Lemma str_length_drop n s : String.length (str_drop n s) = String.length s - n.
Proof. revert s. induction n as [|n IH]; intros [|a s]; simpl; auto. Qed.

Lemma str_drop_drop n m s : str_drop m (str_drop n s) = str_drop (n + m) s.
Proof. revert s. induction n as [|n IH]; intros [|a s]; simpl; auto. by destruct m. Qed.

Lemma str_take_add n m s : str_take (n + m) s = str_take n s +:+ str_take m (str_drop n s).
Proof.
  revert s. induction n as [|n IH]; intros [|a s]; simpl; try done.
  - by destruct m.
  - by rewrite str_app_cons, IH.
Qed.

Lemma str_take_all n s : String.length s ≤ n → str_take n s = s.
Proof.
  revert s. induction n as [|n IH]; intros [|a s] Hl; simpl in *; try (done || lia).
  f_equal. apply IH. lia.
Qed.

Lemma str_take_prefix n s : ∃ t, s = str_take n s +:+ t.
Proof. exists (str_drop n s). by rewrite str_take_drop. Qed.

Lemma str_take_empty n s : str_take n s = "" → n = 0 ∨ s = "".
Proof. destruct n, s; simpl; auto. done. Qed.

Lemma str_app_inj_tail s1 s2 t : s1 +:+ t = s2 +:+ t → s1 = s2.
Proof.
  intros Heq. assert (String.length s1 = String.length s2) as Hl.
  { apply (f_equal String.length) in Heq. rewrite !str_length_app in Heq. lia. }
  by apply str_app_inj_len in Heq as [? _].
Qed.

Create Rewrite HintDb str.
#[export] Hint Rewrite str_app_nil_l str_app_nil_r str_app_cons str_app_assoc
  str_length_app str_forall_app str_mem_app str_mem_cons : str.

(** ** Lists *)

Lemma filter_all {A} (P : A → Prop) `{!∀ x, Decision (P x)} (l : list A) : Forall P l → filter P l = l.
Proof. induction 1 as [|x l Hx _ IH]; [done|]. by rewrite filter_cons_True, IH. Qed.

Lemma filter_none {A} (P : A → Prop) `{!∀ x, Decision (P x)} (l : list A) : Forall (λ x, ¬ P x) l → filter P l = [].
Proof. induction 1 as [|x l Hx _ IH]; [done|]. by rewrite filter_cons_False, IH. Qed.

(** ** Counting the entries of a map that satisfy a predicate *)

Section mcount.
Context {K V : Type} `{Countable K} (P : V → Prop) `{!∀ v, Decision (P v)}.
Implicit Types m : gmap K V.

Definition b2n (b : bool) : nat := if b then 1 else 0.

Definition mcount m : nat := size (filter (λ kv, P kv.2) m).

Lemma mcount_empty : mcount ∅ = 0.
Proof. done. Qed.

Lemma mcount_insert_new m k v :
  m !! k = None → mcount (<[k := v]> m) = b2n (bool_decide (P v)) + mcount m.
Proof.
  intros Hk. unfold mcount. case_bool_decide as Hv; simpl.
  - rewrite map_filter_insert_True by done. rewrite map_size_insert_None; [done|].
    apply map_lookup_filter_None. by left.
  - rewrite map_filter_insert_False by done. by rewrite delete_id.
Qed.

Lemma mcount_delete m k v :
  m !! k = Some v → mcount m = b2n (bool_decide (P v)) + mcount (delete k m).
Proof.
  intros Hk. rewrite <- (insert_id m k v) at 1 by done.
  rewrite <- insert_delete_eq. apply mcount_insert_new, lookup_delete_eq.
Qed.

Lemma mcount_update m k v w :
  m !! k = Some v →
  mcount (<[k := w]> m) = b2n (bool_decide (P w)) + mcount (delete k m).
Proof.
  intros Hk. rewrite <- insert_delete_eq. apply mcount_insert_new, lookup_delete_eq.
Qed.

Lemma mcount_pos m k v : m !! k = Some v → P v → 0 < mcount m.
Proof. intros Hk Hv. rewrite (mcount_delete _ _ _ Hk), bool_decide_true by done. simpl. lia. Qed.

Lemma mcount_two m k1 k2 v1 v2 :
  k1 ≠ k2 → m !! k1 = Some v1 → m !! k2 = Some v2 → P v1 → P v2 → 2 ≤ mcount m.
Proof.
  intros Hne H1 H2 HP1 HP2. rewrite (mcount_delete _ _ _ H1), bool_decide_true by done.
  assert (0 < mcount (delete k1 m)); [|simpl; lia].
  apply (mcount_pos _ k2 v2); [|done]. by rewrite lookup_delete_ne.
Qed.

Lemma mcount_insert_same m k v w :
  m !! k = Some v → (P v ↔ P w) → mcount (<[k := w]> m) = mcount m.
Proof.
  intros Hk Hvw. rewrite (mcount_update _ _ _ _ Hk), (mcount_delete _ _ _ Hk).
  by rewrite (bool_decide_ext _ _ Hvw).
Qed.

Lemma mcount_delete_not m k : (∀ v, m !! k = Some v → ¬ P v) → mcount (delete k m) = mcount m.
Proof.
  intros Hk. destruct (m !! k) as [v|] eqn:E; [|by rewrite delete_id].
  rewrite (mcount_delete _ _ _ E), bool_decide_false; eauto.
Qed.

Lemma mcount_insert_not m k w :
  (∀ v, m !! k = Some v → ¬ P v) → ¬ P w → mcount (<[k := w]> m) = mcount m.
Proof.
  intros Hk Hw. rewrite <- insert_delete_eq, mcount_insert_new by apply lookup_delete_eq.
  rewrite bool_decide_false by done. by apply mcount_delete_not.
Qed.

Lemma mcount_none m : (∀ k v, m !! k = Some v → ¬ P v) → mcount m = 0.
Proof.
  intros Hno. unfold mcount. apply map_size_empty_iff, map_empty. intros k.
  apply map_lookup_filter_None. right. intros v. apply Hno.
Qed.

Lemma mcount_zero m : mcount m = 0 → ∀ k v, m !! k = Some v → ¬ P v.
Proof. intros Hz k v Hk Hv. pose proof (mcount_pos m k v Hk Hv). lia. Qed.
End mcount.

Lemma mcount_mono {K V} `{Countable K} (P Q : V → Prop)
    `{!∀ v, Decision (P v), !∀ v, Decision (Q v)} (m : gmap K V) :
  (∀ v, P v → Q v) → mcount P m ≤ mcount Q m.
Proof.
  intros HPQ. induction m as [|k v m Hk IH] using map_ind; [done|].
  rewrite !mcount_insert_new by done. repeat case_bool_decide; simpl; try lia. naive_solver.
Qed.
