(* ===== verification/GoStd.v ===== *)
(** * The Go standard library, as far as ncps uses it

    Executable models of the functions of Go's [strings], [path/filepath],
    [strconv] and [net/url] packages that the modelled sources call, with the
    lemmas the components share.  A Go string is a byte sequence, i.e. a Rocq
    [string].  Nothing here is code of the repository. *)
From stdpp Require Import sorting.
From S2P Require Import Prelude.

(** ** [strings] *)

(** [strip_prefix p s] is [s] without its prefix [p], when it has it. *)
Fixpoint strip_prefix (p s : string) : option string :=
  match p, s with
  | EmptyString, _ => Some s
  | String a p, String b s => if bool_decide (a = b) then strip_prefix p s else None
  | String _ _, EmptyString => None
  end.

(** [strings.HasPrefix] *)
Definition has_prefix (p s : string) : bool :=
  match strip_prefix p s with Some _ => true | None => false end.

(** [strings.Cut]: around the first occurrence of [sep]. *)
Fixpoint cut (sep s : string) : option (string * string) :=
  match strip_prefix sep s with
  | Some r => Some ("", r)
  | None =>
      match s with
      | EmptyString => None
      | String a s => prod_map (String a) id <$> cut sep s
      end
  end.

(** [strings.Contains] *)
Definition contains (s sep : string) : bool :=
  match cut sep s with Some _ => true | None => false end.

(** Cut around the first occurrence of a byte; the Go code reads
    [before, after, _ := strings.Cut(s, "c")], whose [before] is all of [s]
    when there is none. *)
Fixpoint cut_char (c : ascii) (s : string) : string * string * bool :=
  match s with
  | EmptyString => ("", "", false)
  | String a s' =>
      if bool_decide (a = c) then ("", s', true)
      else let '(b, r, f) := cut_char c s' in (String a b, r, f)
  end.

(** [s[strings.LastIndex(s, "c")+1:]] *)
Fixpoint after_last (c : ascii) (s : string) : string :=
  match s with
  | EmptyString => ""
  | String a s' =>
      if str_mem c s' then after_last c s'
      else if bool_decide (a = c) then s' else s
  end.

(** [strings.TrimSuffix] *)
Fixpoint trim_suffix (suf s : string) : string :=
  if bool_decide (s = suf) then "" else
  match s with
  | EmptyString => ""
  | String a s' => String a (trim_suffix suf s')
  end.

(** [strings.Split] on a single byte. *)
Fixpoint split_on (c : ascii) (s : string) : list string :=
  match s with
  | EmptyString => [""]
  | String a s' =>
      if bool_decide (a = c) then "" :: split_on c s'
      else match split_on c s' with
           | [] => [String a ""]
           | p :: ps => String a p :: ps
           end
  end.

(** [strings.Join] with a one-byte separator. *)
Fixpoint join_with (c : ascii) (ps : list string) : string :=
  match ps with
  | [] => ""
  | [p] => p
  | p :: ps => p +:+ String c (join_with c ps)
  end.

Lemma strip_prefix_app p s : strip_prefix p (p +:+ s) = Some s.
Proof.
  induction p as [|a p IH]; [by destruct s|].
  rewrite str_app_cons. simpl. by rewrite bool_decide_true.
Qed.

Lemma strip_prefix_Some p s r : strip_prefix p s = Some r → s = p +:+ r.
Proof.
  revert s. induction p as [|a p IH]; intros s; simpl.
  - by intros [= ->].
  - destruct s as [|b s]; [done|].
    case_bool_decide; [|done]. subst. intros H. by rewrite (IH _ H).
Qed.

Lemma has_prefix_app p s : has_prefix p (p +:+ s) = true.
Proof. unfold has_prefix. by rewrite strip_prefix_app. Qed.

Lemma has_prefix_true p s : has_prefix p s = true ↔ ∃ r, s = p +:+ r.
Proof.
  split.
  - unfold has_prefix. destruct (strip_prefix p s) eqn:E; [|done].
    apply strip_prefix_Some in E. eauto.
  - intros [r ->]. apply has_prefix_app.
Qed.

Lemma cut_Some sep s a b : cut sep s = Some (a, b) → s = a +:+ sep +:+ b.
Proof.
  revert a. induction s as [|c s IH]; intros a; simpl.
  - destruct (strip_prefix sep "") eqn:E; [|done].
    apply strip_prefix_Some in E. intros [= <- <-].
    by rewrite str_app_nil_l.
  - destruct (strip_prefix sep (String c s)) eqn:E.
    + apply strip_prefix_Some in E. intros [= <- <-]. done.
    + destruct (cut sep s) as [[x y]|] eqn:E'; [|done]. intros [= <- <-].
      simpl. rewrite str_app_cons. by rewrite (IH x).
Qed.

(** The first byte of the separator does not occur before the cut. *)
Lemma cut_app c sep a b :
  str_mem c a = false → cut (String c sep) (a +:+ String c sep +:+ b) = Some (a, b).
Proof.
  induction a as [|d a IH]; intros Hm.
  - rewrite str_app_nil_l.
    destruct (String c sep +:+ b) as [|x y] eqn:E; [done|].
    cbn [cut]. by rewrite <- E, strip_prefix_app.
  - rewrite str_mem_cons in Hm. apply orb_false_iff in Hm as [Hd Hm].
    apply bool_decide_eq_false in Hd.
    rewrite str_app_cons. cbn [cut strip_prefix].
    rewrite bool_decide_false by congruence. by rewrite (IH Hm).
Qed.

Lemma cut_char_app c a b :
  str_mem c a = false → cut_char c (a +:+ String c b) = (a, b, true).
Proof.
  induction a as [|d a IH]; intros Hm.
  - simpl. by rewrite bool_decide_true.
  - rewrite str_mem_cons in Hm. apply orb_false_iff in Hm as [Hd Hm].
    rewrite str_app_cons. simpl. by rewrite Hd, (IH Hm).
Qed.

Lemma cut_char_none c s : str_mem c s = false → cut_char c s = (s, "", false).
Proof.
  induction s as [|d s IH]; [done|]. rewrite str_mem_cons. intros Hm.
  apply orb_false_iff in Hm as [Hd Hm]. simpl. by rewrite Hd, (IH Hm).
Qed.

Lemma cut_char_before c s a b f : cut_char c s = (a, b, f) → str_mem c a = false.
Proof.
  revert a. induction s as [|d s IH]; intros a; simpl; [by intros [= <- _ _]|].
  case_bool_decide as Hd; [by intros [= <- _ _]|].
  destruct (cut_char c s) as [[x y] z]. intros [= <- <- <-].
  rewrite str_mem_cons, (IH x) by done. by rewrite bool_decide_false.
Qed.

Lemma after_last_none c s : str_mem c s = false → after_last c s = s.
Proof.
  destruct s as [|d s]; [done|]. rewrite str_mem_cons. intros Hm.
  apply orb_false_iff in Hm as [Hd Hm]. simpl. by rewrite Hm, Hd.
Qed.

Lemma after_last_app c a b : str_mem c b = false → after_last c (a +:+ String c b) = b.
Proof.
  intros Hb. induction a as [|d a IH].
  - simpl. by rewrite Hb, bool_decide_true.
  - rewrite str_app_cons. simpl. rewrite str_mem_app, str_mem_cons.
    rewrite bool_decide_true by done. rewrite orb_true_r. done.
Qed.

Lemma split_on_none c s : str_mem c s = false → split_on c s = [s].
Proof.
  induction s as [|d s IH]; [done|]. rewrite str_mem_cons. intros Hm.
  apply orb_false_iff in Hm as [Hd Hm]. simpl. by rewrite Hd, (IH Hm).
Qed.

Lemma split_on_app c a b :
  str_mem c a = false → split_on c (a +:+ String c b) = a :: split_on c b.
Proof.
  induction a as [|d a IH]; intros Hm.
  - simpl. by rewrite bool_decide_true.
  - rewrite str_mem_cons in Hm. apply orb_false_iff in Hm as [Hd Hm].
    rewrite str_app_cons. simpl. by rewrite Hd, (IH Hm).
Qed.

Lemma split_on_join c ps :
  ps ≠ [] → Forall (λ p, str_mem c p = false) ps → split_on c (join_with c ps) = ps.
Proof.
  intros Hne Hps. induction Hps as [|p ps Hp Hps IH]; [done|].
  destruct ps as [|q ps].
  - by apply split_on_none.
  - change (join_with c (p :: q :: ps)) with (p +:+ String c (join_with c (q :: ps))).
    rewrite split_on_app by done. by rewrite IH.
Qed.

(** ** [path/filepath] (Unix) *)

Fixpoint trim_right (c : ascii) (s : string) : string :=
  match s with
  | EmptyString => ""
  | String a s' =>
      let t := trim_right c s' in
      if bool_decide (t = "") && bool_decide (a = c) then "" else String a t
  end.

(** [filepath.Base] *)
Definition base (p : string) : string :=
  if bool_decide (p = "") then "." else
  let b := after_last "/" (trim_right "/" p) in
  if bool_decide (b = "") then "/" else b.

(** [filepath.Ext]: the suffix of the last element from its last dot. *)
Definition ext (p : string) : string :=
  let b := after_last "/" p in
  if str_mem "." b then String "." (after_last "." b) else "".

(** One element of [filepath.Clean]'s scan; the elements kept so far are in
    reverse order. *)
Definition clean_step (rooted : bool) (acc : list string) (c : string) : list string :=
  if bool_decide (c = "" ∨ c = ".") then acc
  else if bool_decide (c = "..") then
    match acc with
    | [] => if rooted then [] else [".."]
    | d :: acc' => if bool_decide (d = "..") then c :: acc else acc'
    end
  else c :: acc.

(** [filepath.Clean] *)
Definition clean (p : string) : string :=
  let rooted := has_prefix "/" p in
  let out := join_with "/" (reverse (foldl (clean_step rooted) [] (split_on "/" p))) in
  if rooted then String "/" out else if bool_decide (out = "") then "." else out.

(** [filepath.Join] *)
Fixpoint join (elems : list string) : string :=
  match elems with
  | [] => ""
  | e :: es => if bool_decide (e = "") then join es else clean (join_with "/" elems)
  end.

(** An absolute, cleaned path is kept as its elements, innermost first, so
    that [filepath.Dir] is [tail] and a path below [d] has [d] as a suffix. *)
Abbreviation path := (list string).

(** [filepath.Join(p, rel)] on an absolute [p]. *)
Definition join_path (p : path) (rel : string) : path :=
  foldl (clean_step true) p (split_on "/" rel).

(** [filepath.Dir] *)
Definition dir (p : path) : path := tail p.

(** A plain path element: [Clean] keeps it. *)
Definition plain (c : string) : bool :=
  negb (bool_decide (c = "")) && negb (bool_decide (c = ".")) &&
  negb (bool_decide (c = "..")) && negb (str_mem "/" c).

Lemma clean_step_plain r acc c : plain c = true → clean_step r acc c = c :: acc.
Proof.
  unfold plain, clean_step. intros ?. bool_props.
  rewrite bool_decide_false by (intros [?|?]; done). by rewrite bool_decide_false.
Qed.

Lemma plain_no_slash c : plain c = true → str_mem "/" c = false.
Proof. unfold plain. intros ?. by bool_props. Qed.

Lemma join_path_plain p c : plain c = true → join_path p c = c :: p.
Proof.
  intros Hc. unfold join_path. rewrite split_on_none by by apply plain_no_slash.
  simpl. by apply clean_step_plain.
Qed.

Lemma foldl_clean_plain r acc cs :
  forallb plain cs = true → foldl (clean_step r) acc cs = reverse cs ++ acc.
Proof.
  revert acc. induction cs as [|c cs IH]; intros acc; simpl; [done|].
  intros ?. bool_props. rewrite clean_step_plain by done.
  rewrite IH by done. by rewrite reverse_cons, <- app_assoc.
Qed.

Lemma forallb_plain_no_slash cs :
  forallb plain cs = true → Forall (λ c, str_mem "/" c = false) cs.
Proof.
  induction cs as [|c cs IH]; simpl; [by constructor|]. intros ?. bool_props.
  constructor; [by apply plain_no_slash | by apply IH].
Qed.

Lemma join_path_comps p cs :
  cs ≠ [] → forallb plain cs = true → join_path p (join_with "/" cs) = reverse cs ++ p.
Proof.
  intros Hne Hcs. unfold join_path.
  rewrite split_on_join by auto using forallb_plain_no_slash.
  by apply foldl_clean_plain.
Qed.

Lemma join_with_no_lead c cs :
  cs ≠ [] → Forall (λ p, p ≠ "") cs → Forall (λ p, str_mem c p = false) cs →
  has_prefix (String c "") (join_with c cs) = false ∧ join_with c cs ≠ "".
Proof.
  intros Hne Hne' Hc. destruct cs as [|p cs]; [done|].
  inversion_clear Hne' as [|?? Hp ?]. inversion_clear Hc as [|?? Hp' ?].
  destruct p as [|a p]; [done|]. rewrite str_mem_cons in Hp'.
  apply orb_false_iff in Hp' as [Ha _]. apply bool_decide_eq_false in Ha.
  destruct cs; simpl; rewrite ?str_app_cons; unfold has_prefix; simpl;
    rewrite bool_decide_false by congruence; done.
Qed.

(** [Join] of plain elements is their concatenation. *)
Lemma join_plain cs :
  cs ≠ [] → forallb plain cs = true → join cs = join_with "/" cs.
Proof.
  intros Hne Hcs. pose proof (forallb_plain_no_slash _ Hcs) as Hns.
  assert (Forall (λ p, p ≠ "") cs) as Hne'.
  { clear -Hcs. induction cs as [|c cs IH]; simpl in *; [by constructor|].
    bool_props. constructor; [|by apply IH]. unfold plain in *. by bool_props. }
  destruct (join_with_no_lead "/" cs Hne Hne' Hns) as [Hl He].
  assert (join cs = clean (join_with "/" cs)) as ->.
  { destruct cs as [|c cs]; [done|]. inversion_clear Hne'. cbn [join].
    by rewrite bool_decide_false. }
  unfold clean. rewrite Hl, split_on_join by done.
  rewrite foldl_clean_plain, app_nil_r, reverse_involutive by done.
  by rewrite bool_decide_false.
Qed.

(** ** [strconv.ParseUint(s, 10, 64)] *)

Inductive num_error := ErrSyntax | ErrRange.

#[global] Instance num_error_eq_dec : EqDecision num_error.
Proof. solve_decision. Defined.

Definition max_uint64 : Z := 2 ^ 64 - 1.

Definition digit_val (c : ascii) : option Z :=
  let n := Z.of_nat (Ascii.nat_of_ascii c) in
  if (48 <=? n)%Z && (n <=? 57)%Z then Some (n - 48)%Z else None.

(** The loop of [ParseUint]: a bad byte is a syntax error where it is met, an
    overflow a range error where it happens. *)
Fixpoint parse_digits (acc : Z) (s : string) : result num_error Z :=
  match s with
  | EmptyString => Ok acc
  | String c s =>
      match digit_val c with
      | None => Err ErrSyntax
      | Some d =>
          if (max_uint64 <? acc * 10 + d)%Z then Err ErrRange
          else parse_digits (acc * 10 + d) s
      end
  end.

Definition parse_uint (s : string) : result num_error Z :=
  if bool_decide (s = "") then Err ErrSyntax else parse_digits 0 s.

Lemma digit_val_range c d : digit_val c = Some d → (0 ≤ d ≤ 9)%Z.
Proof. unfold digit_val. case_match eqn:E; [|done]. intros [= <-]. bool_props. lia. Qed.

Lemma parse_digits_range acc s n :
  (0 ≤ acc ≤ max_uint64)%Z → parse_digits acc s = Ok n → (acc ≤ n ≤ max_uint64)%Z.
Proof.
  revert acc. induction s as [|c s IH]; intros acc Hacc; simpl.
  - intros [= <-]. lia.
  - destruct (digit_val c) as [d|] eqn:Hd; [|done].
    apply digit_val_range in Hd. destruct (_ <? _)%Z eqn:E; [done|].
    intros Hn. apply IH in Hn; lia.
Qed.

Lemma parse_uint_range s n : parse_uint s = Ok n → (0 ≤ n ≤ max_uint64)%Z.
Proof.
  unfold parse_uint. case_bool_decide; [done|].
  intros Hn%parse_digits_range; [lia | unfold max_uint64; lia].
Qed.

(** Reading back what [strconv.FormatUint] prints. *)
Fixpoint digits_val (acc : Z) (s : string) : option Z :=
  match s with
  | EmptyString => Some acc
  | String c s => d ← digit_val c; digits_val (acc * 10 + d) s
  end.

Lemma digits_val_mono acc s n : (0 ≤ acc)%Z → digits_val acc s = Some n → (acc ≤ n)%Z.
Proof.
  revert acc. induction s as [|c s IH]; intros acc Hacc; simpl.
  - intros [= <-]. lia.
  - destruct (digit_val c) as [d|] eqn:Hd; [|done]. apply digit_val_range in Hd.
    simpl. intros Hn. apply IH in Hn; lia.
Qed.

Lemma parse_digits_val acc s n :
  (0 ≤ acc)%Z → digits_val acc s = Some n → (n ≤ max_uint64)%Z →
  parse_digits acc s = Ok n.
Proof.
  revert acc. induction s as [|c s IH]; intros acc Hacc Hn Hmax; simpl in *.
  - congruence.
  - destruct (digit_val c) as [d|] eqn:Hd; [|done]. apply digit_val_range in Hd.
    simpl in Hn. pose proof (digits_val_mono (acc * 10 + d) s n ltac:(lia) Hn).
    rewrite (proj2 (Z.ltb_ge _ _)) by lia. apply IH; [lia | done..].
Qed.

(** Decimal printing of an unsigned integer. *)
Definition format_uint (n : N) : string := pretty n.

Lemma digit_val_pretty_char n :
  (n < 10)%N → digit_val (pretty_N_char n) = Some (Z.of_N n).
Proof.
  intros Hn.
  assert (n = 0 ∨ n = 1 ∨ n = 2 ∨ n = 3 ∨ n = 4 ∨ n = 5 ∨ n = 6 ∨ n = 7 ∨ n = 8 ∨ n = 9)%N
    as Hc by lia.
  by repeat destruct Hc as [-> | Hc]; subst.
Qed.

Lemma digits_val_pretty_go n s acc :
  ∀ m, digits_val (Z.of_N n) s = Some m →
  ∃ z, pretty_N_go n s = z ∧ (acc = 0%Z → digits_val acc z = Some m).
Proof.
  revert s. induction (N.lt_wf_0 n) as [n _ IH]; intros s m Hs.
  destruct (decide (n = 0)%N) as [->|Hn].
  - rewrite pretty_N_go_0. exists s. split; [done|]. by intros ->.
  - rewrite pretty_N_go_step by lia.
    apply IH; [apply N.div_lt; lia|].
    pose proof (N.mod_lt n 10 ltac:(done)). simpl.
    rewrite digit_val_pretty_char by done. simpl.
    rewrite <- Hs. f_equal. pose proof (N.div_mod n 10 ltac:(done)).
    rewrite N2Z.inj_div, N2Z.inj_mod. simpl.
    pose proof (Z.div_mod (Z.of_N n) 10 ltac:(done)). lia.
Qed.

Lemma parse_uint_format n :
  (Z.of_N n ≤ max_uint64)%Z → parse_uint (format_uint n) = Ok (Z.of_N n).
Proof.
  intros Hn. unfold parse_uint, format_uint. destruct (decide (n = 0)%N) as [->|Hn0].
  - by vm_compute.
  - destruct (digits_val_pretty_go n "" 0 (Z.of_N n) eq_refl) as (z & Hz & Hv).
    specialize (Hv eq_refl).
    assert (pretty n = z) as ->.
    { rewrite <- Hz. unfold pretty, pretty_N. by rewrite decide_False. }
    rewrite bool_decide_false.
    + apply parse_digits_val; done || lia.
    + intros ->. injection Hv. lia.
Qed.

(** ** [net/url]: query strings *)

Abbreviation values := (gmap string (list string)).

Inductive url_error := ErrEscape | ErrSemicolon | ErrTooManyParams.

#[global] Instance url_error_eq_dec : EqDecision url_error.
Proof. solve_decision. Defined.

Definition in_range (lo hi c : ascii) : bool :=
  let n := Ascii.nat_of_ascii in (n lo <=? n c) && (n c <=? n hi).

Definition is_alnum (c : ascii) : bool :=
  in_range "a" "z" c || in_range "A" "Z" c || in_range "0" "9" c.

(** [shouldEscape(c, encodeQueryComponent)] *)
Definition should_escape (c : ascii) : bool :=
  negb (is_alnum c || bool_decide (c = "-"%char) || bool_decide (c = "_"%char) ||
        bool_decide (c = "."%char) || bool_decide (c = "~"%char)).

Definition upper_hex (n : nat) : ascii :=
  default "0"%char (String.get n "0123456789ABCDEF").

Definition unhex (c : ascii) : option nat :=
  let n := Ascii.nat_of_ascii c in
  if in_range "0" "9" c then Some (n - 48)
  else if in_range "a" "f" c then Some (n - 87)
  else if in_range "A" "F" c then Some (n - 55)
  else None.

Definition escape_byte (c : ascii) : string :=
  if bool_decide (c = " "%char) then "+"
  else if should_escape c then
    let n := Ascii.nat_of_ascii c in
    String "%" (String (upper_hex (n / 16)) (String (upper_hex (n mod 16)) ""))
  else String c "".

(** [url.QueryEscape] *)
Fixpoint query_escape (s : string) : string :=
  match s with
  | EmptyString => ""
  | String c s => escape_byte c +:+ query_escape s
  end.

(** [url.QueryUnescape] *)
Fixpoint query_unescape (s : string) : result url_error string :=
  match s with
  | EmptyString => Ok ""
  | String c s' =>
      if bool_decide (c = "%"%char) then
        match s' with
        | String a (String b r) =>
            match unhex a, unhex b with
            | Some x, Some y =>
                String (Ascii.ascii_of_nat (16 * x + y)) <$> query_unescape r
            | _, _ => Err ErrEscape
            end
        | _ => Err ErrEscape
        end
      else if bool_decide (c = "+"%char) then String " " <$> query_unescape s'
      else String c <$> query_unescape s'
  end.

Definition add_value (m : values) (kv : string * string) : values :=
  <[kv.1 := default [] (m !! kv.1) ++ [kv.2]]> m.

(** One round of [parseQuery]'s loop. *)
Definition parse_pair (m : values) (piece : string) : result url_error values :=
  if str_mem ";" piece then Err ErrSemicolon
  else if bool_decide (piece = "") then Ok m
  else
    let '(k, v, _) := cut_char "=" piece in
    k ← query_unescape k;
    v ← query_unescape v;
    Ok (add_value m (k, v)).

Fixpoint parse_pairs (m : values) (pieces : list string) : result url_error values :=
  match pieces with
  | [] => Ok m
  | p :: ps => m ← parse_pair m p; parse_pairs m ps
  end.

(** [url.ParseQuery]; its callers drop the map when there is an error. *)
Definition parse_query (q : string) : result url_error values :=
  let pieces := split_on "&" q in
  if (N.of_nat (length pieces) <=? 10000)%N then parse_pairs ∅ pieces
  else Err ErrTooManyParams.

(** The parameters of a query in the order [Encode] writes them. *)
Definition sorted_keys (m : values) : list string :=
  merge_sort String.le (map_to_list m).*1.

Definition params_of (m : values) (ks : list string) : list (string * string) :=
  k ← ks; pair k <$> default [] (m !! k).

Definition encode_pair (kv : string * string) : string :=
  query_escape kv.1 +:+ String "=" (query_escape kv.2).

(** [url.Values.Encode] *)
Definition encode (m : values) : string :=
  join_with "&" (encode_pair <$> params_of m (sorted_keys m)).

(** Every byte survives escaping. *)
Lemma escape_byte_cases c r :
  (query_unescape (escape_byte c +:+ r) = String c <$> query_unescape r) ∧
  (str_mem "&" (escape_byte c) = false) ∧ (str_mem "=" (escape_byte c) = false) ∧
  (str_mem ";" (escape_byte c) = false).
Proof. by destruct c as [[] [] [] [] [] [] [] []]. Qed.

Lemma query_unescape_escape s : query_unescape (query_escape s) = Ok s.
Proof.
  induction s as [|c s IH]; [done|]. simpl.
  by rewrite (proj1 (escape_byte_cases c _)), IH.
Qed.

Lemma query_escape_clean s c :
  c ∈ ["&"; "="; ";"]%char → str_mem c (query_escape s) = false.
Proof.
  intros Hc. induction s as [|a s IH]; [done|]. simpl.
  rewrite str_mem_app, IH, orb_false_r.
  destruct (escape_byte_cases a "") as (_ & ? & ? & ?).
  by repeat (apply elem_of_cons in Hc as [-> | Hc]); [..|apply elem_of_nil in Hc].
Qed.

Lemma encode_pair_no_amp kv : str_mem "&" (encode_pair kv) = false.
Proof.
  unfold encode_pair. rewrite str_mem_app, str_mem_cons.
  rewrite !query_escape_clean by set_solver. done.
Qed.

Lemma parse_pair_encode m kv : parse_pair m (encode_pair kv) = Ok (add_value m kv).
Proof.
  destruct kv as [k v]. unfold parse_pair, encode_pair. simpl.
  rewrite str_mem_app, str_mem_cons, !query_escape_clean by set_solver.
  rewrite (bool_decide_false (_ +:+ _ = "")) by by destruct (query_escape k).
  simpl. rewrite cut_char_app by (apply query_escape_clean; set_solver).
  by rewrite !query_unescape_escape.
Qed.

Lemma parse_pairs_encode m kvs :
  parse_pairs m (encode_pair <$> kvs) = Ok (foldl add_value m kvs).
Proof.
  revert m. induction kvs as [|kv kvs IH]; intros m; [done|].
  cbn [parse_pairs fmap list_fmap]. rewrite parse_pair_encode. apply IH.
Qed.

Lemma add_values_one (m : values) k vs vs0 :
  m !! k = Some vs0 → foldl add_value m (pair k <$> vs) = <[k := vs0 ++ vs]> m.
Proof.
  revert m vs0. induction vs as [|v vs IH]; intros m vs0 Hk; simpl.
  - by rewrite app_nil_r, insert_id.
  - unfold add_value at 2. simpl. rewrite Hk. simpl.
    rewrite (IH _ (vs0 ++ [v])) by apply lookup_insert_eq.
    by rewrite insert_insert_eq, <- app_assoc.
Qed.

Lemma add_values_new (m : values) k vs :
  m !! k = None → vs ≠ [] → foldl add_value m (pair k <$> vs) = <[k := vs]> m.
Proof.
  intros Hk Hvs. destruct vs as [|v vs]; [done|]. simpl.
  unfold add_value at 2. simpl. rewrite Hk. simpl.
  rewrite (add_values_one _ _ _ [v]) by apply lookup_insert_eq.
  by rewrite insert_insert_eq.
Qed.

(** Adding the parameters of the keys [ks] of [m] back. *)
Lemma add_values_params (m acc : values) ks :
  NoDup ks → (∀ k, k ∈ ks → acc !! k = None) →
  (∀ k, k ∈ ks → ∃ vs, m !! k = Some vs ∧ vs ≠ []) →
  ∀ k, foldl add_value acc (params_of m ks) !! k =
       if decide (k ∈ ks) then m !! k else acc !! k.
Proof.
  revert acc. induction ks as [|k0 ks IH]; intros acc Hnd Hacc Hm k.
  - simpl. by destruct (decide (k ∈ [])) as [Hin%elem_of_nil|].
  - apply NoDup_cons in Hnd as [Hk0 Hnd].
    destruct (Hm k0) as (vs & Hvs & Hne); [by left|].
    unfold params_of. cbn [mbind list_bind]. rewrite foldl_app, Hvs. simpl.
    rewrite add_values_new by (try done; apply Hacc; by left).
    change (list_bind _ _ _ ks) with (params_of m ks). rewrite IH; [|done|..].
    + destruct (decide (k = k0)) as [->|Hk].
      * rewrite decide_False by done. rewrite lookup_insert_eq.
        by rewrite decide_True by by left.
      * rewrite lookup_insert_ne by done. apply decide_ext.
        rewrite elem_of_cons. naive_solver.
    + intros k' Hk'. rewrite lookup_insert_ne by by intros ->.
      apply Hacc. by right.
    + intros k' Hk'. apply Hm. by right.
Qed.

(** A query that [ParseQuery] can have produced: no key without a value, and no
    more parameters than it accepts. *)
Definition wf_values (m : values) : Prop :=
  (∀ k vs, m !! k = Some vs → vs ≠ []) ∧
  (N.of_nat (length (params_of m (sorted_keys m))) ≤ 10000)%N.

Lemma sorted_keys_NoDup m : NoDup (sorted_keys m).
Proof. unfold sorted_keys. rewrite merge_sort_Permutation. apply NoDup_fst_map_to_list. Qed.

Lemma elem_of_sorted_keys m k : k ∈ sorted_keys m ↔ is_Some (m !! k).
Proof.
  unfold sorted_keys. rewrite merge_sort_Permutation, list_elem_of_fmap. split.
  - intros ([k' vs] & -> & Hin%elem_of_map_to_list). eauto.
  - intros [vs Hvs%elem_of_map_to_list]. by exists (k, vs).
Qed.

Lemma parse_query_empty : parse_query "" = Ok ∅.
Proof. done. Qed.

Lemma foldl_params_id m :
  (∀ k vs, m !! k = Some vs → vs ≠ []) →
  foldl add_value ∅ (params_of m (sorted_keys m)) = m.
Proof.
  intros Hne. apply map_eq. intros k. rewrite add_values_params.
  - case_decide as Hin; [done|]. rewrite lookup_empty.
    destruct (m !! k) eqn:E; [|done]. destruct Hin. apply elem_of_sorted_keys. eauto.
  - apply sorted_keys_NoDup.
  - intros. apply lookup_empty.
  - intros k' [vs Hvs]%elem_of_sorted_keys. eauto.
Qed.

(** [ParseQuery] inverts [Encode]. *)
Lemma parse_query_encode m : wf_values m → parse_query (encode m) = Ok m.
Proof.
  intros [Hne Hlen]. pose proof (foldl_params_id m Hne) as Hid.
  unfold encode, parse_query.
  destruct (params_of m (sorted_keys m)) as [|kv kvs] eqn:E.
  - simpl in Hid. rewrite <- Hid. done.
  - rewrite split_on_join; [|done|].
    + rewrite length_fmap, (proj2 (N.leb_le _ _)) by done.
      by rewrite parse_pairs_encode, Hid.
    + apply Forall_fmap, Forall_true. intros. apply encode_pair_no_amp.
Qed.

Lemma encode_no_question m c :
  c ∈ ["?"; "#"; "/"]%char → str_mem c (encode m) = false.
Proof.
  intros Hc. unfold encode.
  assert (∀ s, str_mem c (query_escape s) = false) as Hesc.
  { intros s. induction s as [|a s IH]; [done|]. simpl. rewrite str_mem_app, IH, orb_false_r.
    assert (c ≠ "&"%char ∧ c ≠ "="%char) as _ by set_solver.
    repeat (apply elem_of_cons in Hc as [-> | Hc]); [..|by apply elem_of_nil in Hc];
      by destruct a as [[] [] [] [] [] [] [] []]. }
  assert (c ≠ "&"%char ∧ c ≠ "="%char) as [Ha He] by set_solver.
  induction (params_of _ _) as [|[k v] kvs IH]; [done|].
  assert (str_mem c (encode_pair (k, v)) = false) as Hp.
  { unfold encode_pair. rewrite str_mem_app, str_mem_cons, !Hesc.
    by rewrite bool_decide_false. }
  destruct kvs as [|kv' kvs]; [done|].
  change (encode_pair <$> (k, v) :: kv' :: kvs)
    with (encode_pair (k, v) :: (encode_pair <$> kv' :: kvs)).
  cbn [fmap list_fmap join_with] in *.
  rewrite str_mem_app, str_mem_cons, Hp, IH, bool_decide_false; done.
Qed.

(** *** [ParseQuery] only builds queries that [Encode] can print back *)

Definition total (m : values) : nat := map_fold (λ _ vs n, length vs + n) 0 m.

Lemma total_insert_None (m : values) k vs :
  m !! k = None → total (<[k := vs]> m) = length vs + total m.
Proof. intros Hk. unfold total. rewrite map_fold_insert_L; [done | lia | done]. Qed.

Lemma total_add_value m kv : total (add_value m kv) = S (total m).
Proof.
  unfold add_value. rewrite <- insert_delete_eq, total_insert_None by apply lookup_delete_eq.
  rewrite length_app. simpl. destruct (m !! kv.1) as [vs|] eqn:E; simpl.
  - assert (total m = length vs + total (delete kv.1 m)) as ->; [|lia].
    rewrite <- (total_insert_None _ kv.1) by apply lookup_delete_eq.
    by rewrite insert_delete_eq, insert_id.
  - by rewrite delete_id.
Qed.

Lemma length_params_of m : length (params_of m (sorted_keys m)) = total m.
Proof.
  assert (∀ ks, length (params_of m ks) = sum_list ((λ k, length (default [] (m !! k))) <$> ks)) as Hks.
  { intros ks. unfold params_of. induction ks as [|k ks IH]; [done|].
    cbn [mbind list_bind fmap list_fmap sum_list].
    by rewrite length_app, length_fmap, <- IH. }
  rewrite Hks. unfold sorted_keys. clear Hks.
  assert (∀ ks ks' (f : string → nat), ks ≡ₚ ks' →
    sum_list (f <$> ks) = sum_list (f <$> ks')) as Hperm.
  { intros ks ks' f Hp. induction Hp; csimpl in *; lia. }
  rewrite (Hperm _ _ _ (merge_sort_Permutation _ _)). clear Hperm.
  enough (∀ m', (∀ k vs, m !! k = Some vs → m' !! k = Some vs) →
    sum_list ((λ k, length (default [] (m' !! k))) <$> (map_to_list m).*1) = total m)
    as Hgen by by apply Hgen.
  induction m as [|k vs m Hk IH] using map_ind; intros m' Hm'; [done|].
  rewrite total_insert_None, map_to_list_insert by done. simpl.
  rewrite (Hm' k vs) by apply lookup_insert_eq. simpl. f_equal. apply IH.
  intros k' vs' Hk'. apply Hm'. rewrite lookup_insert_ne; [done|]. congruence.
Qed.

Lemma parse_pair_inv m m' p :
  parse_pair m p = Ok m' → m' = m ∨ ∃ kv, m' = add_value m kv.
Proof.
  unfold parse_pair. destruct (str_mem ";" p); [done|].
  case_bool_decide; [intros [= ->]; by left|].
  destruct (cut_char "=" p) as [[k v] f]. intros Hp. inv_ok. right. eauto.
Qed.

Lemma parse_pairs_inv m m' ps :
  parse_pairs m ps = Ok m' → (∀ k vs, m !! k = Some vs → vs ≠ []) →
  (∀ k vs, m' !! k = Some vs → vs ≠ []) ∧ total m' ≤ length ps + total m.
Proof.
  revert m. induction ps as [|p ps IH]; intros m; simpl.
  - by intros [= ->].
  - intros Hp Hm. inv_ok. destruct (parse_pair_inv _ _ _ H) as [->|[kv ->]].
    + destruct (IH _ H0 Hm). split; [done|lia].
    + destruct (IH _ H0) as [? Ht].
      * intros k vs. unfold add_value. destruct (decide (kv.1 = k)) as [->|Hk].
        -- rewrite lookup_insert_eq. intros [= <-]. by destruct (default _ _).
        -- rewrite lookup_insert_ne by done. apply Hm.
      * rewrite total_add_value in Ht. split; [done|lia].
Qed.

Lemma parse_query_wf q m : parse_query q = Ok m → wf_values m.
Proof.
  unfold parse_query. destruct (_ <=? 10000)%N eqn:Hlen; [|done].
  intros [Hne Ht]%parse_pairs_inv; [|done]. apply N.leb_le in Hlen.
  split; [done|]. rewrite length_params_of. change (total ∅) with 0 in Ht. lia.
Qed.

Lemma parse_query_encode_parse q m : parse_query q = Ok m → parse_query (encode m) = Ok m.
Proof. intros Hq. by eapply parse_query_encode, parse_query_wf. Qed.

Lemma encode_empty_iff m : wf_values m → encode m = "" ↔ m = ∅.
Proof.
  intros Hwf. split; [|by intros ->].
  intros He. pose proof (parse_query_encode m Hwf) as Hp. rewrite He in Hp.
  injection Hp as Hp. congruence.
Qed.

(** [base] of a path whose last element is plain. *)
Lemma trim_right_id c s a : a ≠ c → trim_right c (s +:+ String a "") = s +:+ String a "".
Proof.
  intros Ha. induction s as [|b s IH].
  - rewrite str_app_nil_l. simpl. by rewrite (bool_decide_false (a = c)).
  - rewrite str_app_cons. simpl. rewrite IH.
    rewrite bool_decide_false by by destruct s. done.
Qed.

Lemma base_app p f : f ≠ "" → str_mem "/" f = false → base (p +:+ String "/" f) = f.
Proof.
  intros Hf Hs. unfold base. rewrite bool_decide_false by by destruct p.
  assert (∃ g a, f = g +:+ String a "" ∧ a ≠ "/"%char) as (g & a & -> & Ha).
  { clear p. revert Hs. induction f as [|b f IH]; [done|]. rewrite str_mem_cons.
    intros Hs. apply orb_false_iff in Hs as [Hb Hs]. apply bool_decide_eq_false in Hb.
    destruct f as [|b' f].
    - by exists "", b.
    - destruct IH as (g & a & Hg & Ha); [done..|]. exists (String b g), a.
      by rewrite Hg. }
  rewrite <- str_app_cons, <- str_app_assoc, trim_right_id, str_app_assoc by done.
  rewrite str_app_cons, after_last_app by done. by rewrite bool_decide_false.
Qed.

(** A name without slashes is its own [base]. *)
Lemma base_plain f : f ≠ "" → str_mem "/" f = false → base f = f.
Proof.
  intros Hf Hs. rewrite <- (base_app "" f) at 2 by done. rewrite str_app_nil_l. unfold base.
  rewrite bool_decide_false by done. change (bool_decide (String "/" f = "")) with false.
  assert (trim_right "/" (String "/" f) = String "/" (trim_right "/" f)) as ->.
  { simpl. rewrite bool_decide_false; [done|]. destruct f as [|b f]; [done|]. rewrite str_mem_cons in Hs.
    apply orb_false_iff in Hs as [Hb _]. apply bool_decide_eq_false in Hb. simpl. rewrite (bool_decide_false (b = "/"%char)) by done.
    by rewrite andb_false_r. }
  assert (str_mem "/" (trim_right "/" f) = false) as Ht.
  { clear Hf. induction f as [|b f IH]; [done|]. rewrite str_mem_cons in Hs. apply orb_false_iff in Hs as [Hb Hs]. simpl.
    destruct (_ && _); [done|]. rewrite str_mem_cons, Hb. by apply IH. }
  change (String "/" (trim_right "/" f)) with ("" +:+ String "/" (trim_right "/" f)).
  by rewrite (after_last_none "/" (trim_right "/" f)), after_last_app by done.
Qed.

Lemma digits_no_char c s m acc :
  digits_val acc s = Some m → digit_val c = None → str_mem c s = false.
Proof.
  revert acc. induction s as [|a s IH]; intros acc; [done|]. simpl.
  destruct (digit_val a) as [d|] eqn:Hd; [|done]. simpl. intros Hs Hc.
  rewrite str_mem_cons, (IH _ Hs Hc). rewrite bool_decide_false; [done|congruence].
Qed.

Lemma format_uint_value n : digits_val 0 (format_uint n) = Some (Z.of_N n).
Proof.
  unfold format_uint. destruct (decide (n = 0)%N) as [->|Hn]; [done|].
  destruct (digits_val_pretty_go n "" 0 (Z.of_N n) eq_refl) as (z & Hz & Hv).
  rewrite <- (Hv eq_refl), <- Hz.
  unfold pretty, pretty_N. by rewrite decide_False.
Qed.

Lemma format_uint_no c n : digit_val c = None → str_mem c (format_uint n) = false.
Proof. intros Hc. eapply digits_no_char; [apply format_uint_value|done]. Qed.
