(* ===== verification/GoUrl.v ===== *)
(** * [net/url]: parsing a URL

    [url.Parse] with the parts it calls, as the flags and the host names of the program
    use it, [String], and the accessors.  An IPv6 address in brackets is taken as it is. *)
From S2P Require Import Prelude GoStd.

(** The [url.URL] of a parsed text; [User]: the name, and the password if there is one. *)
Record go_url := mkGoUrl {
  Scheme : string;
  Opaque : string;
  User : option (string * option string);
  Host : string;
  UrlPath : string;
  RawPath : string;
  OmitHost : bool;
  ForceQuery : bool;
  RawQuery : string;
  Fragment : string;
  RawFragment : string;
}.

Inductive parse_err :=
  | ErrControl
  | ErrNoScheme
  | ErrFirstSegment
  | ErrUserinfo
  | ErrPort
  | ErrBracket
  | ErrHostByte
  | ErrUnescape.

Fixpoint all_bytes (P : ascii → bool) (s : string) : bool :=
  match s with EmptyString => true | String c s => P c && all_bytes P s end.

Definition byte_in (set : string) (c : ascii) : bool := str_mem c set.
Definition letter (c : ascii) : bool := in_range "a" "z" c || in_range "A" "Z" c.
Definition digit (c : ascii) : bool := in_range "0" "9" c.
Definition control (c : ascii) : bool :=
  let n := Ascii.nat_of_ascii c in (n <? 32)%nat || (n =? 127)%nat.
Definition to_lower (c : ascii) : ascii :=
  if in_range "A" "Z" c then Ascii.ascii_of_nat (Ascii.nat_of_ascii c + 32) else c.
Fixpoint lower_string (s : string) : string :=
  match s with EmptyString => "" | String c s => String (to_lower c) (lower_string s) end.

(** The text before and after the last [c], if there is one. *)
Fixpoint cut_last (c : ascii) (s : string) : option (string * string) :=
  match s with
  | EmptyString => None
  | String a s' =>
      match cut_last c s' with
      | Some (b, r) => Some (String a b, r)
      | None => if bool_decide (a = c) then Some ("", s') else None
      end
  end.

(** ** Escapes *)

(** [unescape] where [+] stands for itself; [ok x]: whether the escape of a byte is
    accepted, [plain c]: whether a byte may stand as it is. *)
Fixpoint unescape (ok : nat → bool) (plain : ascii → bool) (s : string) : result parse_err string :=
  match s with
  | EmptyString => Ok ""
  | String c s' =>
      if bool_decide (c = "%"%char) then
        match s' with
        | String a (String b r) =>
            match unhex a, unhex b with
            | Some x, Some y =>
                if ok (16 * x + y) then String (Ascii.ascii_of_nat (16 * x + y)) <$> unescape ok plain r else Err ErrUnescape
            | _, _ => Err ErrUnescape
            end
        | _ => Err ErrUnescape
        end
      else if plain c then String c <$> unescape ok plain s' else Err ErrHostByte
  end.

Definition any_byte {A} (_ : A) : bool := true.
(** In a host: of the ASCII bytes, only [%] may be escaped. *)
Definition host_escape (x : nat) : bool := (x =? 37)%nat || (128 <=? x)%nat.
Definition host_plain (c : ascii) : bool :=
  is_alnum c || byte_in "-_.~!$&'()*+,;=:[]<>" c || bool_decide (c = Ascii.ascii_of_nat 34).
Definition host_byte (c : ascii) : bool := host_plain c || (128 <=? Ascii.nat_of_ascii c)%nat.

(** [escape], but of a query's component; [plain c]: whether the byte stands as it is. *)
Definition percent (c : ascii) : string :=
  let n := Ascii.nat_of_ascii c in String "%" (String (upper_hex (n / 16)) (String (upper_hex (n mod 16)) "")).
Fixpoint escape (plain : ascii → bool) (s : string) : string :=
  match s with
  | EmptyString => ""
  | String c s => (if plain c then String c "" else percent c) +:+ escape plain s
  end.

Definition path_byte (c : ascii) : bool := is_alnum c || byte_in "-_.~$&+,/:;=@" c.
Definition fragment_byte (c : ascii) : bool := is_alnum c || byte_in "-_.~$&+,/:;=?@!()*" c.
Definition password_byte (c : ascii) : bool := is_alnum c || byte_in "-_.~$&+,;=" c.
Definition path_escape : string → string := escape path_byte.

(** ** The parts *)

(** [getScheme] *)
Fixpoint get_scheme (read rest : string) : result parse_err (string * string) :=
  match rest with
  | EmptyString => Ok ("", read)
  | String c rest =>
      let first := bool_decide (read = "") in
      if letter c then get_scheme (read +:+ String c "") rest
      else if digit c || byte_in "+-." c then
        if first then Ok ("", String c rest) else get_scheme (read +:+ String c "") rest
      else if bool_decide (c = ":"%char) then
        if first then Err ErrNoScheme else Ok (read, rest)
      else Ok ("", read +:+ String c rest)
  end.

(** [validOptionalPort] *)
Definition valid_port (port : string) : bool :=
  match port with
  | EmptyString => true
  | String c port => bool_decide (c = ":"%char) && all_bytes digit port
  end.

(** [parseHost] *)
Definition parse_host (host : string) : result parse_err string :=
  if str_mem "[" host then
    match cut_last "]" host with
    | None => Err ErrBracket
    | Some (_, port) => if valid_port port then unescape host_escape host_byte host else Err ErrPort
    end
  else
    match cut_last ":" host with
    | Some (before, port) =>
        if all_bytes digit port && negb (str_mem ":" before) then unescape host_escape host_byte host else Err ErrPort
    | None => unescape host_escape host_byte host
    end.

(** [validUserinfo] *)
Definition user_byte (c : ascii) : bool := is_alnum c || byte_in "-._:~!$&'()*+,;=%@" c.

Definition parse_user (userinfo : string) : result parse_err (string * option string) :=
  if negb (all_bytes user_byte userinfo) then Err ErrUserinfo else
  let '(name, password, colon) := cut_char ":" userinfo in
  name ← unescape any_byte any_byte name;
  if colon : bool then password ← unescape any_byte any_byte password; Ok (name, Some password)
  else Ok (name, None).

(** [parseAuthority] *)
Definition parse_authority (authority : string) : result parse_err (option (string * option string) * string) :=
  match cut_last "@" authority with
  | None => host ← parse_host authority; Ok (None, host)
  | Some (userinfo, host) => host ← parse_host host; user ← parse_user userinfo; Ok (Some user, host)
  end.

(** [setPath] *)
Definition with_path (scheme : string) (user : option (string * option string)) (host p : string) (omit force : bool)
    (query : string) : result parse_err go_url :=
  path ← unescape any_byte any_byte p;
  Ok (mkGoUrl scheme "" user host path (if bool_decide (path_escape path = p) then "" else p) omit force query "" "").

(** [parse(rawURL, false)] *)
Definition parse_no_fragment (raw : string) : result parse_err go_url :=
  if negb (all_bytes (λ c, negb (control c)) raw) then Err ErrControl else
  if bool_decide (raw = "*") then Ok (mkGoUrl "" "" None "" "*" "" false false "" "" "") else
  '(scheme, rest) ← get_scheme "" raw;
  let scheme := lower_string scheme in
  let '(rest, query, mark) := cut_char "?" rest in
  let force := mark && bool_decide (query = "") in
  if negb (has_prefix "/" rest) && negb (bool_decide (scheme = ""))
  then Ok (mkGoUrl scheme rest None "" "" "" false force query "" "") else
  if negb (has_prefix "/" rest) && str_mem ":" (cut_char "/" rest).1.1 then Err ErrFirstSegment else
  let omit := negb (bool_decide (scheme = "")) && has_prefix "/" rest in
  match strip_prefix "//" rest with
  | Some authority =>
      if bool_decide (scheme = "") && has_prefix "/" authority then with_path scheme None "" rest omit force query else
      let '(authority, p, slash) := cut_char "/" authority in
      '(user, host) ← parse_authority authority;
      with_path scheme user host (if slash : bool then String "/" p else "") false force query
  | None => with_path scheme None "" rest omit force query
  end.

(** [url.Parse] *)
Definition Parse (raw : string) : result parse_err go_url :=
  let '(raw, frag, _) := cut_char "#" raw in
  u ← parse_no_fragment raw;
  fragment ← unescape any_byte any_byte frag;
  Ok (mkGoUrl (Scheme u) (Opaque u) (User u) (Host u) (UrlPath u) (RawPath u) (OmitHost u) (ForceQuery u) (RawQuery u)
    fragment (if bool_decide (escape fragment_byte fragment = frag) then "" else frag)).

(** ** Accessors *)

(** [Hostname], with [splitHostPort]: without the port, then without brackets. *)
Definition Hostname (u : go_url) : string :=
  let host := match cut_last ":" (Host u) with
    | Some (before, port) => if all_bytes digit port then before else Host u
    | None => Host u
    end in
  match strip_prefix "[" host, cut_last "]" host with
  | Some inside, Some (_, EmptyString) => str_take (String.length inside - 1) inside
  | _, _ => host
  end.

(** [validEncoded] *)
Definition valid_encoded (plain : ascii → bool) (s : string) : bool := all_bytes (λ c, byte_in "!$&'()*+,;=:@[]%" c || plain c) s.

(** The text as it was given, if it stands for the decoded one, or else its escape. *)
Definition escaped (plain : ascii → bool) (raw decoded : string) : string :=
  if negb (bool_decide (raw = "")) && valid_encoded plain raw &&
     match unescape any_byte any_byte raw with Ok p => bool_decide (p = decoded) | Err _ => false end
  then raw else escape plain decoded.

Definition EscapedPath (u : go_url) : string :=
  let e := escaped path_byte (RawPath u) (UrlPath u) in
  if bool_decide (UrlPath u = "*") && negb (bool_decide (e = RawPath u)) then "*" else e.

Definition EscapedFragment (u : go_url) : string := escaped fragment_byte (RawFragment u) (Fragment u).

(** [url.URL.Query]: malformed pairs are dropped. *)
Definition add_pair (m : values) (piece : string) : values :=
  match parse_pair m piece with Ok m => m | Err _ => m end.
Definition query_values (u : go_url) : values :=
  let pieces := split_on "&" (RawQuery u) in
  if (N.of_nat (length pieces) <=? 10000)%N then foldl add_pair ∅ pieces else ∅.

Definition user_string (user : string * option string) : string :=
  escape password_byte user.1 +:+ match user.2 with Some password => ":" +:+ escape password_byte password | None => "" end.

(** The authority that [String] prints. *)
Definition authority_string (u : go_url) : string :=
  if bool_decide (Scheme u = "") && bool_decide (Host u = "") && bool_decide (User u = None) then "" else
  if OmitHost u && bool_decide (Host u = "") && bool_decide (User u = None) then "" else
  (if bool_decide (Host u = "") && bool_decide (UrlPath u = "") && bool_decide (User u = None) then "" else "//") +:+
  match User u with Some user => user_string user +:+ "@" | None => "" end +:+
  escape host_plain (Host u).

(** [url.URL.String] *)
Definition url_string (u : go_url) : string :=
  let start := if bool_decide (Scheme u = "") then "" else Scheme u +:+ ":" in
  let hier :=
    if negb (bool_decide (Opaque u = "")) then start +:+ Opaque u else
    let path := EscapedPath u in
    let before := start +:+ authority_string u +:+
      (if negb (bool_decide (path = "")) && negb (has_prefix "/" path) && negb (bool_decide (Host u = "")) then "/" else "") in
    before +:+ (if bool_decide (before = "") && str_mem ":" (cut_char "/" path).1.1 then "./" else "") +:+ path in
  hier +:+ (if ForceQuery u || negb (bool_decide (RawQuery u = "")) then "?" +:+ RawQuery u else "") +:+
  (if bool_decide (Fragment u = "") then "" else "#" +:+ EscapedFragment u).

(** ** Lemmas *)

Lemma all_bytes_app P s t : all_bytes P (s +:+ t) = all_bytes P s && all_bytes P t.
Proof. induction s as [|c s IH]; [done|]. simpl. by rewrite IH, andb_assoc. Qed.

Definition not_control (c : ascii) : bool := negb (control c).

Lemma percent_spec c r :
  (unescape any_byte any_byte (percent c +:+ r) = String c <$> unescape any_byte any_byte r) ∧
  all_bytes (λ c, not_control c && negb (byte_in "#?/:" c)) (percent c) = true.
Proof. by destruct c as [[] [] [] [] [] [] [] []]. Qed.

(** Decoding inverts every escape that escapes [%]. *)
Lemma unescape_escape plain s : plain "%"%char = false → unescape any_byte any_byte (escape plain s) = Ok s.
Proof.
  intros Hp. induction s as [|c s IH]; [done|]. simpl. destruct (plain c) eqn:Hc.
  - change (String c "" +:+ escape plain s) with (String c (escape plain s)). cbn [unescape].
    rewrite bool_decide_eq_false_2 by (intros ->; congruence). cbn [any_byte]. by rewrite IH.
  - rewrite (proj1 (percent_spec c _)). by rewrite IH.
Qed.

Lemma escape_bytes P plain s :
  (∀ c, plain c = true → P c = true) → (∀ c, not_control c && negb (byte_in "#?/:" c) = true → P c = true) →
  all_bytes P (escape plain s) = true.
Proof.
  intros H1 H2. induction s as [|c s IH]; [done|]. simpl. rewrite all_bytes_app, IH, andb_true_r.
  destruct (plain c) eqn:Hc; [simpl; by rewrite H1|].
  destruct (percent_spec c "") as [_ Hp]. revert Hp. generalize (percent c). intros t.
  induction t as [|a t IHt]; [done|]. cbn [all_bytes]. rewrite !andb_true_iff. intros [[Ha Hb] Ht]. split; [|by apply IHt].
  apply H2. by rewrite Ha, Hb.
Qed.

Lemma all_bytes_no P c s : all_bytes P s = true → P c = false → str_mem c s = false.
Proof.
  intros Hs Hc. induction s as [|a s IH]; [done|]. simpl in Hs. apply andb_true_iff in Hs as [Ha Hs].
  rewrite str_mem_cons, IH by done. rewrite bool_decide_eq_false_2; [done|]. intros ->. congruence.
Qed.

Lemma all_bytes_query P m :
  P "&"%char = true → P "="%char = true → (∀ s, all_bytes P (query_escape s) = true) → all_bytes P (encode m) = true.
Proof.
  intros Ha He Hq. unfold encode. induction (params_of m (sorted_keys m)) as [|[k v] kvs IH]; [done|].
  assert (all_bytes P (encode_pair (k, v)) = true) as Hp.
  { unfold encode_pair. simpl. rewrite all_bytes_app. simpl. by rewrite !Hq, He. }
  destruct kvs as [|kv' kvs]; [done|]. cbn [fmap list_fmap join_with] in *.
  rewrite all_bytes_app. simpl. by rewrite Hp, Ha, IH.
Qed.

Lemma encode_bytes m : all_bytes (λ c, not_control c && negb (byte_in "#?" c)) (encode m) = true.
Proof.
  apply all_bytes_query; [done..|]. induction s as [|c s IH]; [done|]. simpl. rewrite all_bytes_app, IH, andb_true_r.
  by destruct c as [[] [] [] [] [] [] [] []].
Qed.

(** A URL's query, parsed and changed in one key, can be printed and parsed again. *)
Lemma add_pair_wf m p : (∀ k vs, m !! k = Some vs → vs ≠ []) →
  (∀ k vs, add_pair m p !! k = Some vs → vs ≠ []) ∧ total (add_pair m p) <= Datatypes.S (total m).
Proof.
  intros Hm. unfold add_pair. destruct (parse_pair m p) as [m'|] eqn:Hp; [|split; [done|lia]].
  apply parse_pair_inv in Hp as [->|[kv ->]]; [split; [done|lia]|]. split; [|by rewrite total_add_value].
  intros k vs. unfold add_value. intros [[<- <-]|[_ Hk]]%lookup_insert_Some; [|by eapply Hm].
  by destruct (default [] _).
Qed.

Lemma total_insert_le (m : values) k v : total (<[k := [v]]> m) <= Datatypes.S (total m).
Proof.
  rewrite <- insert_delete_eq, total_insert_None by apply lookup_delete_eq. simpl.
  destruct (m !! k) as [vs|] eqn:Hk; [|by rewrite delete_id].
  rewrite <- (insert_delete_id m k vs Hk) at 2. rewrite total_insert_None by apply lookup_delete_eq. lia.
Qed.

Lemma query_values_set u k v :
  (N.of_nat (length (split_on "&" (RawQuery u))) < 10000)%N → wf_values (<[k := [v]]> (query_values u)).
Proof.
  intros Hlen. unfold query_values. rewrite (proj2 (N.leb_le _ _)) by lia.
  assert (∀ ps m, (∀ k vs, m !! k = Some vs → vs ≠ []) →
    (∀ k vs, foldl add_pair m ps !! k = Some vs → vs ≠ []) ∧ total (foldl add_pair m ps) <= length ps + total m) as Hf.
  { induction ps as [|p ps IH]; intros m Hm; simpl; [done|]. destruct (add_pair_wf m p Hm) as [H1 H2].
    destruct (IH _ H1) as [H3 H4]. split; [done|lia]. }
  destruct (Hf (split_on "&" (RawQuery u)) ∅) as [Hne Ht]; [by intros k' vs; rewrite lookup_empty|]. split.
  - intros k' vs [[<- <-]|[_ Hk]]%lookup_insert_Some; [done|by eapply Hne].
  - rewrite length_params_of. change (total ∅) with 0 in Ht. pose proof (total_insert_le (foldl add_pair ∅ (split_on "&" (RawQuery u))) k v). lia.
Qed.
