(* ===== verification/Nar.v ===== *)
(** * Package [pkg/nar], [pkg/narinfo] and the path helpers of [pkg/helper]

    Store hashes, compression types, NAR URLs and the sharded file paths under
    which both are stored.  A compression type is the Go string it is. *)
From S2P Require Import Prelude GoStd.

Inductive nar_error :=
  | ErrInvalidURL
  | ErrInvalidHash
  | ErrUnknownFileExtension
  | ErrQuery (e : url_error)
  | ErrInputTooShort
  | PanicUnknownCompression (ct : string).

#[global] Instance nar_error_eq_dec : EqDecision nar_error.
Proof. solve_decision. Defined.

(** ** Hashes *)

(** One character of the class [[0-9a-df-np-sv-z]]. *)
Definition nix32_char (c : ascii) : bool :=
  in_range "0" "9" c || in_range "a" "d" c || in_range "f" "n" c ||
  in_range "p" "s" c || in_range "v" "z" c.

Definition hex_char (c : ascii) : bool := in_range "0" "9" c || in_range "a" "f" c.

(** [narinfo.HashPattern], anchored. *)
Definition narinfo_hash_match (s : string) : bool :=
  bool_decide (String.length s = 32) && str_forall nix32_char s.

Definition NarinfoValidateHash (hash : string) : result nar_error unit :=
  if narinfo_hash_match hash then Ok () else Err ErrInvalidHash.

(** [NormalizedHashPattern], anchored. *)
Definition normalized_match (s : string) : bool :=
  (bool_decide (String.length s = 52) && str_forall nix32_char s) ||
  (bool_decide (String.length s = 64) && str_forall hex_char s).

Definition is_sep (c : ascii) : bool := bool_decide (c = "-"%char) || bool_decide (c = "_"%char).

(** The optional group [(narinfo.HashPattern[-_])] at the start of [s]. *)
Definition split_prefix (s : string) : option (string * string) :=
  let p := str_take 32 s in
  match str_drop 32 s with
  | String c r =>
      if narinfo_hash_match p && is_sep c then Some (p +:+ String c "", r) else None
  | EmptyString => None
  end.

(** [HashPattern], anchored. *)
Definition hash_match (s : string) : bool :=
  normalized_match s ||
  match split_prefix s with Some (_, r) => normalized_match r | None => false end.

Definition ValidateHash (hash : string) : result nar_error unit :=
  if hash_match hash then Ok () else Err ErrInvalidHash.

Definition newline : ascii := Ascii.ascii_of_nat 10.

(** [(.+)] followed by the end of the text. *)
Definition dot_plus (s : string) : bool :=
  negb (bool_decide (s = "")) && negb (str_mem newline s).

(** [HashPatternLenient], anchored: the submatch 2 of its leftmost-first match. *)
Definition lenient_submatch (s : string) : option string :=
  match split_prefix s with
  | Some (_, r) => if dot_plus r then Some r else if dot_plus s then Some s else None
  | None => if dot_plus s then Some s else None
  end.

(** ** Compression types *)

Definition CompressionTypeNone := "none".
Definition CompressionTypeBzip2 := "bzip2".
Definition CompressionTypeZstd := "zstd".
Definition CompressionTypeLzip := "lzip".
Definition CompressionTypeLz4 := "lz4".
Definition CompressionTypeBr := "br".
Definition CompressionTypeXz := "xz".

Definition CompressionTypeFromExtension (ext : string) : result nar_error string :=
  if bool_decide (ext = "" ∨ ext = "none") then Ok CompressionTypeNone
  else if bool_decide (ext = "bz2") then Ok CompressionTypeBzip2
  else if bool_decide (ext = "zst") then Ok CompressionTypeZstd
  else if bool_decide (ext = "lzip") then Ok CompressionTypeLzip
  else if bool_decide (ext = "lz4") then Ok CompressionTypeLz4
  else if bool_decide (ext = "br") then Ok CompressionTypeBr
  else if bool_decide (ext = "xz") then Ok CompressionTypeXz
  else Err ErrUnknownFileExtension.

Definition ToFileExtension (ct : string) : result nar_error string :=
  if bool_decide (ct = "" ∨ ct = CompressionTypeNone) then Ok ""
  else if bool_decide (ct = CompressionTypeBzip2) then Ok "bz2"
  else if bool_decide (ct = CompressionTypeZstd) then Ok "zst"
  else if bool_decide (ct = CompressionTypeLzip) then Ok "lzip"
  else if bool_decide (ct = CompressionTypeLz4) then Ok "lz4"
  else if bool_decide (ct = CompressionTypeBr) then Ok "br"
  else if bool_decide (ct = CompressionTypeXz) then Ok "xz"
  else Err (PanicUnknownCompression ct).

(** ** File paths *)

Definition FilePathWithSharding (fn : string) : result nar_error string :=
  if String.length fn <? 3 then Err ErrInputTooShort
  else Ok (join [str_take 1 fn; str_take 2 fn; fn]).

Definition NarinfoFilePath (hash : string) : result nar_error string :=
  if String.length hash <? 3 then Err ErrInputTooShort
  else _ ← NarinfoValidateHash hash; FilePathWithSharding (hash +:+ ".narinfo").

Definition NarFilePath (hash compression : string) : result nar_error string :=
  if String.length hash <? 3 then Err ErrInputTooShort
  else
    _ ← ValidateHash hash;
    let fn := hash +:+ ".nar" in
    let fn := if bool_decide (compression = "") then fn else fn +:+ "." +:+ compression in
    FilePathWithSharding fn.

Definition NarInfoURLPath (hash : string) : string := "/" +:+ hash +:+ ".narinfo".

(** ** NAR URLs *)

Record URL := mkURL {
  Hash : string;
  Compression : string;
  Query : values;
  TransparentZstd : bool;
  opaquePath : string;
}.

#[global] Instance URL_eq_dec : EqDecision URL.
Proof. solve_decision. Defined.

Definition parseURLParts (u : string) :
    result nar_error (string * string * string * values) :=
  if bool_decide (u = "") then Err ErrInvalidURL else
  let '(pathPart, rawQuery, _) := cut_char "?" u in
  let filename := base pathPart in
  if bool_decide (filename = "" ∨ filename = ".") then Err ErrInvalidURL else
  match cut ".nar" filename with
  | None => Err ErrInvalidURL
  | Some (hash, afterNar) =>
      if bool_decide (hash = "") then Err ErrInvalidURL else
      compression ← (if bool_decide (afterNar = "") then Ok ""
                     else if has_prefix "." afterNar then Ok (str_drop 1 afterNar)
                     else Err ErrInvalidURL);
      ct ← CompressionTypeFromExtension compression;
      query ← map_err ErrQuery (parse_query rawQuery);
      Ok (pathPart, hash, ct, query)
  end.

Definition ParseURL (u : string) : result nar_error URL :=
  '(_, hash, ct, query) ← parseURLParts u;
  _ ← ValidateHash hash;
  Ok (mkURL hash ct query false "").

Definition parseOpaqueNoNarURL (u : string) : option (string * values) :=
  let '(pathPart, rawQuery, _) := cut_char "?" u in
  if bool_decide (pathPart = "") || negb (str_mem "/" pathPart) then None else
  let filename := after_last "/" pathPart in
  if bool_decide (filename = "" ∨ filename = ".") || contains filename ".nar" then None else
  match parse_query rawQuery with
  | Ok query => Some (pathPart, query)
  | Err _ => None
  end.

Definition ParseUpstreamURL (u fallbackHash : string) : result nar_error URL :=
  match parseURLParts u with
  | Err err =>
      match parseOpaqueNoNarURL u with
      | Some (op, oq) =>
          if bool_decide (err = ErrInvalidURL) then
            _ ← ValidateHash fallbackHash;
            Ok (mkURL fallbackHash CompressionTypeNone oq false op)
          else Err err
      | None => Err err
      end
  | Ok (pathPart, hash, ct, query) =>
      if is_ok (ValidateHash hash) then Ok (mkURL hash ct query false "") else
      _ ← ValidateHash fallbackHash;
      Ok (mkURL fallbackHash ct query false pathPart)
  end.

Definition IsOpaque (u : URL) : bool := negb (bool_decide (opaquePath u = "")).

Definition WithOpaquePath (u : URL) (p : string) : URL :=
  mkURL (Hash u) (Compression u) (Query u) (TransparentZstd u) p.

Definition OpaqueUpstreamRef (u : URL) : string :=
  if bool_decide (opaquePath u = "") then "" else
  let q := encode (Query u) in
  if bool_decide (q = "") then opaquePath u else opaquePath u +:+ "?" +:+ q.

Definition WithOpaqueUpstreamRef (u : URL) (ref : string) : URL :=
  let '(p, rawQuery, hasQuery) := cut_char "?" ref in
  let u := WithOpaquePath u p in
  if hasQuery then
    match parse_query rawQuery with
    | Ok q => mkURL (Hash u) (Compression u) q (TransparentZstd u) (opaquePath u)
    | Err _ => u
    end
  else u.

Definition pathWithCompression (u : URL) : result nar_error string :=
  if bool_decide (opaquePath u ≠ "") then Ok (opaquePath u) else
  let p := "nar/" +:+ Hash u +:+ ".nar" in
  e ← ToFileExtension (Compression u);
  Ok (if bool_decide (e = "") then p else p +:+ "." +:+ e).

(** [URL.String] *)
Definition URLString (u : URL) : result nar_error string :=
  p ← pathWithCompression u;
  let q := encode (Query u) in
  Ok (if bool_decide (q = "") then p else p +:+ "?" +:+ q).

Definition ToFilePath (u : URL) : result nar_error string :=
  e ← ToFileExtension (Compression u);
  NarFilePath (Hash u) e.

Definition Normalize (u : URL) : result nar_error URL :=
  match lenient_submatch (Hash u) with
  | None => Err ErrInvalidHash
  | Some actualHash =>
      if normalized_match actualHash
      then Ok (mkURL actualHash (Compression u) (Query u) false "")
      else Err ErrInvalidHash
  end.

(** ** Lemmas *)

(** The characters a valid NAR hash is made of. *)
Definition hash_char (c : ascii) : bool := nix32_char c || hex_char c || is_sep c.

Lemma normalized_chars s : normalized_match s = true → str_forall hash_char s = true.
Proof.
  unfold normalized_match. intros [H|H]%orb_true_iff; bool_props.
  - revert H0. apply str_forall_weaken. intros a Ha. unfold hash_char. by rewrite Ha.
  - revert H0. apply str_forall_weaken. intros a Ha. unfold hash_char.
    by rewrite Ha, orb_true_r.
Qed.

Lemma normalized_length s : normalized_match s = true → 52 ≤ String.length s.
Proof. unfold normalized_match. intros [H|H]%orb_true_iff; bool_props; lia. Qed.

Lemma narinfo_hash_inv h :
  narinfo_hash_match h = true → String.length h = 32 ∧ str_forall nix32_char h = true.
Proof. unfold narinfo_hash_match. intros Hm. by bool_props. Qed.

Lemma split_prefix_Some s p r :
  split_prefix s = Some (p, r) →
  s = p +:+ r ∧ String.length p = 33 ∧
  ∃ h c, p = h +:+ String c "" ∧ narinfo_hash_match h = true ∧ is_sep c = true.
Proof.
  unfold split_prefix. pose proof (str_take_drop 32 s) as Hs.
  destruct (str_drop 32 s) as [|c r'] eqn:Hd; [done|].
  generalize dependent (str_take 32 s). intros t Hs.
  destruct (_ && _) eqn:Hm; [|done]. intros [= <- <-].
  apply andb_true_iff in Hm as [Hh Hc].
  split; [by rewrite str_app_assoc|]. split; [|eauto].
  rewrite str_length_app, (proj1 (narinfo_hash_inv _ Hh)). done.
Qed.

Lemma split_prefix_app h c r :
  narinfo_hash_match h = true → is_sep c = true →
  split_prefix (h +:+ String c r) = Some (h +:+ String c "", r).
Proof.
  intros Hh Hc. destruct (narinfo_hash_inv _ Hh) as [Hl _].
  pose proof (str_take_app h (String c r)) as Ht. rewrite Hl in Ht.
  pose proof (str_drop_app h (String c r)) as Hd. rewrite Hl in Hd.
  unfold split_prefix. by rewrite Ht, Hd, Hh, Hc.
Qed.

(** A normalized hash has no separator, hence no prefix. *)
Lemma normalized_no_prefix s : normalized_match s = true → split_prefix s = None.
Proof.
  intros Hn. destruct (split_prefix s) as [[p r]|] eqn:E; [|done].
  apply split_prefix_Some in E as (-> & _ & h & c & -> & _ & Hc).
  exfalso. unfold normalized_match in Hn. apply orb_true_iff in Hn as [Hn|Hn]; bool_props;
    rewrite str_app_assoc, str_forall_app, str_app_cons in H0; simpl in H0; bool_props;
    unfold is_sep in Hc; apply orb_true_iff in Hc as [Hc|Hc]; bool_props; by subst.
Qed.

Lemma normalized_dot_plus s : normalized_match s = true → dot_plus s = true.
Proof.
  intros Hn. unfold dot_plus. rewrite bool_decide_false.
  - rewrite (str_mem_of_forall hash_char) by (by apply normalized_chars || done). done.
  - intros ->. discriminate Hn.
Qed.

Lemma hash_match_cases s :
  hash_match s = true ↔
  (normalized_match s = true ∧ split_prefix s = None) ∨
  ∃ p r, split_prefix s = Some (p, r) ∧ normalized_match r = true.
Proof.
  unfold hash_match. rewrite orb_true_iff. split.
  - intros [Hn|Hp].
    + left. eauto using normalized_no_prefix.
    + right. destruct (split_prefix s) as [[p r]|]; [|done]. eauto.
  - intros [[Hn _]|(p & r & -> & Hr)]; eauto.
Qed.

Lemma hash_match_chars s : hash_match s = true → str_forall hash_char s = true.
Proof.
  intros [[Hn _]|(p & r & Hp & Hr)]%hash_match_cases.
  - by apply normalized_chars.
  - apply split_prefix_Some in Hp as (-> & _ & h & c & -> & Hh & Hc).
    rewrite !str_forall_app. apply normalized_chars in Hr. rewrite Hr.
    apply narinfo_hash_inv in Hh as [_ Hh].
    rewrite (str_forall_weaken nix32_char hash_char h); [|..|done]; simpl.
    + unfold hash_char. by rewrite Hc, !orb_true_r.
    + intros a Ha. unfold hash_char. by rewrite Ha.
Qed.

Lemma hash_match_length s : hash_match s = true → 52 ≤ String.length s.
Proof.
  intros [[Hn _]|(p & r & Hp & Hr)]%hash_match_cases.
  - by apply normalized_length.
  - apply split_prefix_Some in Hp as (-> & Hl & _). apply normalized_length in Hr.
    rewrite str_length_app. lia.
Qed.

Lemma hash_no c s : hash_match s = true → hash_char c = false → str_mem c s = false.
Proof. intros Hs Hc. eapply str_mem_of_forall; [by apply hash_match_chars | done]. Qed.

Lemma ValidateHash_Ok h x : ValidateHash h = Ok x ↔ hash_match h = true.
Proof. unfold ValidateHash. destruct x, (hash_match h); done. Qed.

Lemma ValidateHash_is_ok h : is_ok (ValidateHash h) = hash_match h.
Proof. unfold ValidateHash. by destruct (hash_match h). Qed.

(** The compression types with a file extension, and their extensions. *)
Lemma extension_inv e ct :
  CompressionTypeFromExtension e = Ok ct →
  ∃ e', ToFileExtension ct = Ok e' ∧ CompressionTypeFromExtension e' = Ok ct ∧
        str_forall is_alnum e' = true.
Proof.
  unfold CompressionTypeFromExtension. intros He.
  repeat (case_bool_decide; [injection He as <-; eexists; repeat split; reflexivity|]).
  done.
Qed.

Definition extension_table : list (string * string) :=
  [("bzip2", "bz2"); ("zstd", "zst"); ("lzip", "lzip"); ("lz4", "lz4"); ("br", "br");
   ("xz", "xz")].

Lemma ToFileExtension_cases ct e :
  ToFileExtension ct = Ok e →
  (e = "" ∧ (ct = "" ∨ ct = "none")) ∨ (ct, e) ∈ extension_table.
Proof.
  unfold ToFileExtension, extension_table. intros He.
  case_bool_decide; [left; injection He as <-; done|right].
  repeat (case_bool_decide;
    [injection He as <-; subst; refine (bool_decide_eq_true_1 _ _); reflexivity|]).
  done.
Qed.

Lemma ToFileExtension_inj ct1 ct2 e :
  ToFileExtension ct1 = Ok e → ToFileExtension ct2 = Ok e →
  ct1 = ct2 ∨ (ct1 ∈ [""; "none"] ∧ ct2 ∈ [""; "none"]).
Proof.
  intros H1%ToFileExtension_cases H2%ToFileExtension_cases.
  unfold extension_table in *. rewrite !elem_of_cons, !elem_of_nil in *.
  naive_solver.
Qed.

(** The file name of a NAR: [hash.nar[.ext]]. *)
Definition nar_filename (h e : string) : string :=
  h +:+ ".nar" +:+ (if bool_decide (e = "") then "" else "." +:+ e).

Lemma alnum_no_special e c :
  str_forall is_alnum e = true → is_alnum c = false → str_mem c e = false.
Proof. intros He Hc. by eapply str_mem_of_forall. Qed.

Lemma nar_filename_no c h e :
  hash_match h = true → str_forall is_alnum e = true → c ∈ ["/"; "?"]%char →
  str_mem c (nar_filename h e) = false.
Proof.
  intros Hh He Hc. unfold nar_filename. rewrite !str_mem_app.
  assert (hash_char c = false ∧ is_alnum c = false ∧ str_mem c ".nar" = false ∧
          str_mem c "." = false) as (? & ? & -> & Hd).
  { by repeat (apply elem_of_cons in Hc as [-> | Hc]); [..|apply elem_of_nil in Hc]. }
  rewrite hash_no by done. case_bool_decide; [done|].
  by rewrite str_mem_app, Hd, alnum_no_special.
Qed.

Lemma nar_filename_nonempty h e : nar_filename h e ≠ "".
Proof. unfold nar_filename. by destruct h. Qed.

Lemma parse_filename (p h e ct rq : string) (hasq : bool) (q : values) :
  hash_match h = true → str_forall is_alnum e = true →
  CompressionTypeFromExtension e = Ok ct → parse_query rq = Ok q →
  str_mem "?" p = false → (hasq = false → rq = "") →
  parseURLParts (p +:+ "/" +:+ nar_filename h e +:+
    (if hasq then "?" +:+ rq else "")) =
  Ok (p +:+ "/" +:+ nar_filename h e, h, ct, q).
Proof.
  intros Hh He Hct Hq Hp Hrq. unfold parseURLParts.
  rewrite bool_decide_false by by destruct p.
  set (f := nar_filename h e) in *.
  assert (str_mem "?" (p +:+ "/" +:+ f) = false) as Hpf.
  { rewrite !str_mem_app, Hp. unfold f. rewrite nar_filename_no; [done..|set_solver]. }
  assert (cut_char "?" (p +:+ "/" +:+ f +:+ (if hasq then "?" +:+ rq else "")) =
          (p +:+ "/" +:+ f, rq, hasq)) as ->.
  { rewrite <- !str_app_assoc. destruct hasq.
    - change ("?" +:+ rq) with (String "?" rq).
      by rewrite cut_char_app by by rewrite str_app_assoc.
    - rewrite str_app_nil_r, Hrq by done. apply cut_char_none.
      by rewrite str_app_assoc. }
  rewrite str_app_cons, str_app_nil_l.
  rewrite base_app by (apply nar_filename_nonempty || (apply nar_filename_no; [done..|set_solver])).
  assert (str_mem "." h = false) as Hdot by by apply hash_no.
  rewrite bool_decide_false.
  2: { intros [Hf|Hf]; [by apply nar_filename_nonempty in Hf|].
       apply hash_match_length in Hh. unfold f, nar_filename in Hf.
       apply (f_equal String.length) in Hf. rewrite str_length_app in Hf. simpl in Hf. lia. }
  unfold f at 1, nar_filename. rewrite cut_app by done.
  rewrite (bool_decide_false (h = ""))
    by (intros ->; apply hash_match_length in Hh; simpl in Hh; lia).
  destruct (decide (e = "")) as [Hee|Hee].
  - rewrite (bool_decide_true (e = "")) by done. simpl.
    rewrite Hee in Hct. injection Hct as <-. by rewrite Hq.
  - rewrite (bool_decide_false (e = "")) by done.
    rewrite bool_decide_false by done. rewrite has_prefix_app. simpl.
    rewrite str_app_nil_l, Hct. simpl. by rewrite Hq.
Qed.

(** The name of a NAR's file parses as the NAR's URL. *)
Lemma ParseURL_filename h e ct :
  hash_match h = true → str_forall is_alnum e = true → CompressionTypeFromExtension e = Ok ct →
  ParseURL (nar_filename h e) = Ok (mkURL h ct ∅ false "").
Proof.
  intros Hh He Hct. pose proof (nar_filename_nonempty h e) as Hne.
  assert (str_mem "/" (nar_filename h e) = false) as Hslash by (apply nar_filename_no; [done..|set_solver]).
  assert (str_mem "?" (nar_filename h e) = false) as Hquery by (apply nar_filename_no; [done..|set_solver]).
  assert (str_mem "." h = false) as Hdot by by apply hash_no.
  unfold ParseURL, parseURLParts. rewrite bool_decide_false by done. rewrite cut_char_none by done. rewrite base_plain by done.
  rewrite bool_decide_false.
  2: { intros [Hf|Hf]; [by apply nar_filename_nonempty in Hf|].
       apply hash_match_length in Hh. unfold nar_filename in Hf.
       apply (f_equal String.length) in Hf. rewrite str_length_app in Hf. simpl in Hf. lia. }
  unfold nar_filename. rewrite cut_app by done.
  rewrite (bool_decide_false (h = ""))
    by (intros ->; apply hash_match_length in Hh; simpl in Hh; lia).
  rewrite parse_query_empty. unfold ValidateHash.
  destruct (decide (e = "")) as [->|Hee].
  - simpl. injection Hct as <-. simpl. by rewrite Hh.
  - rewrite (bool_decide_false (e = "")) by done. rewrite bool_decide_false by done. rewrite has_prefix_app. simpl.
    rewrite str_app_nil_l, Hct. simpl. by rewrite Hh.
Qed.

(** What [String] prints for a valid URL parses as that URL. *)
Lemma URLString_parse h e ct q :
  hash_match h = true → CompressionTypeFromExtension e = Ok ct → wf_values q →
  ∃ s, URLString (mkURL h ct q false "") = Ok s ∧ ParseURL s = Ok (mkURL h ct q false "").
Proof.
  intros Hh Hct Hq. destruct (extension_inv _ _ Hct) as (e' & He & He' & Hal).
  exists ("nar" +:+ "/" +:+ nar_filename h e' +:+
    (if negb (bool_decide (encode q = "")) then "?" +:+ encode q else "")).
  split.
  - unfold URLString, pathWithCompression. simpl. rewrite He. simpl. f_equal.
    unfold nar_filename.
    destruct (bool_decide (e' = "")), (bool_decide (encode q = "")); simpl;
      by rewrite ?str_app_cons, ?str_app_nil_l, ?str_app_assoc, ?str_app_nil_r.
  - unfold ParseURL. erewrite parse_filename; try done.
    + simpl. unfold ValidateHash. by rewrite Hh.
    + by apply parse_query_encode.
    + intros Hb. by bool_props.
Qed.

(** What [ParseURL] accepts is printed and parsed again. *)
Lemma ParseURL_print (s : string) (u : URL) : ParseURL s = Ok u → ∃ s', URLString u = Ok s' ∧ ParseURL s' = Ok u.
Proof.
  intros Hp. unfold ParseURL in Hp. apply bind_Ok_inv in Hp as ([[[p h] ct] q] & Hp & Hv).
  apply bind_Ok_inv in Hv as ([] & Hh & [= <-]). apply ValidateHash_Ok in Hh.
  unfold parseURLParts in Hp.
  destruct (cut_char "?" s) as [[pp rq] f] in Hp. case_bool_decide; [done|].
  case_bool_decide; [done|]. destruct (cut ".nar" _) as [[h' an]|]; [|done].
  case_bool_decide; [done|]. apply bind_Ok_inv in Hp as (c & _ & Hp).
  apply bind_Ok_inv in Hp as (ct' & Hct & Hp). apply bind_Ok_inv in Hp as (q' & Hq & [= -> -> -> ->]).
  apply map_err_Ok in Hq. eapply URLString_parse; [done..|by eapply parse_query_wf].
Qed.

(** *** Theorems *)

(** C35. Printing a URL that [ParseURL] accepted and parsing the text again gives
    the same URL: [String] and [ParseURL] round-trip, whatever the directory of
    the original, the query string included. *)
Theorem parse_url_string_roundtrip (s : string) (u : URL) :
  ParseURL s = Ok u →
  ∃ s', URLString u = Ok s' ∧ ParseURL s' = Ok u.
Proof. apply ParseURL_print. Qed.

(** The hash without its optional narinfo prefix. *)
Lemma lenient_submatch_valid s :
  match lenient_submatch s with
  | Some r => normalized_match r = hash_match s
  | None => hash_match s = false
  end.
Proof.
  unfold lenient_submatch, hash_match.
  destruct (split_prefix s) as [[p r]|] eqn:E.
  - assert (normalized_match s = false) as ->.
    { destruct (normalized_match s) eqn:Hn; [|done].
      apply normalized_no_prefix in Hn. congruence. }
    simpl. destruct (dot_plus r) eqn:Hr; [done|].
    assert (normalized_match r = false) as ->.
    { destruct (normalized_match r) eqn:Hn; [|done].
      apply normalized_dot_plus in Hn. congruence. }
    destruct (dot_plus s); [|done].
    destruct (normalized_match s) eqn:Hn; [|done].
    apply normalized_no_prefix in Hn. congruence.
  - rewrite orb_false_r. destruct (dot_plus s) eqn:Hs; [done|].
    destruct (normalized_match s) eqn:Hn; [|done].
    apply normalized_dot_plus in Hn. congruence.
Qed.

Lemma lenient_submatch_normalized h :
  normalized_match h = true → lenient_submatch h = Some h.
Proof.
  intros Hh. unfold lenient_submatch.
  by rewrite normalized_no_prefix, normalized_dot_plus.
Qed.

Lemma Normalize_ok u : is_ok (Normalize u) = hash_match (Hash u).
Proof.
  unfold Normalize. pose proof (lenient_submatch_valid (Hash u)) as Hs.
  destruct (lenient_submatch _) as [r|]; [|done].
  rewrite <- Hs. by destruct (normalized_match r).
Qed.

Lemma Normalize_inv u v :
  Normalize u = Ok v →
  v = mkURL (Hash v) (Compression u) (Query u) false "" ∧
  normalized_match (Hash v) = true ∧ lenient_submatch (Hash u) = Some (Hash v).
Proof.
  unfold Normalize. destruct (lenient_submatch _) as [r|]; [|done].
  destruct (normalized_match r) eqn:Hr; [|done]. by intros [= <-].
Qed.

(** [Normalize] succeeds exactly on the hashes [ValidateHash] accepts, its
    result carries a bare 52- or 64-character hash with the compression and the
    query kept, it strips a narinfo prefix whatever the separator, and applying
    it again changes nothing. *)
Theorem normalize_spec (u : URL) :
  is_ok (Normalize u) = is_ok (ValidateHash (Hash u)) ∧
  (∀ v, Normalize u = Ok v →
    normalized_match (Hash v) = true ∧ Compression v = Compression u ∧
    Query v = Query u ∧ opaquePath v = "" ∧ Normalize v = Ok v) ∧
  (∀ p c h, narinfo_hash_match p = true → is_sep c = true → normalized_match h = true →
    Hash u = p +:+ String c h →
    Normalize u = Ok (mkURL h (Compression u) (Query u) false "")).
Proof.
  split; [by rewrite Normalize_ok, ValidateHash_is_ok|]. split.
  - intros v Hv. destruct (Normalize_inv _ _ Hv) as (Heq & Hn & _).
    rewrite Heq. simpl. repeat split; [done|].
    unfold Normalize. simpl. by rewrite lenient_submatch_normalized, Hn.
  - intros p c h Hp Hc Hh Hu. unfold Normalize, lenient_submatch.
    rewrite Hu, split_prefix_app by done. by rewrite normalized_dot_plus, Hh.
Qed.

(** *** File paths *)

Lemma hash_char_plain1 c r :
  hash_char c = true → str_mem "/" r = false → plain (String c r) = true.
Proof.
  intros Hc Hr. unfold plain. rewrite str_mem_cons, Hr.
  assert (c ≠ "."%char ∧ c ≠ "/"%char) as [? ?] by (split; intros ->; done).
  by rewrite !bool_decide_false by congruence.
Qed.

(** Sharding a file name that starts with three hash characters. *)
Lemma sharding_spec h r :
  3 ≤ String.length h → str_forall hash_char h = true → str_mem "/" r = false →
  let fn := h +:+ r in
  let comps := [str_take 1 fn; str_take 2 fn; fn] in
  FilePathWithSharding fn = Ok (join_with "/" comps) ∧ forallb plain comps = true.
Proof.
  intros Hl Hh Hr. assert (str_mem "/" h = false) as Hhs.
  { by eapply str_mem_of_forall. }
  destruct h as [|a [|b [|c h]]]; simpl in Hl; try lia.
  simpl in Hh. bool_props. rewrite !str_mem_cons in Hhs.
  apply orb_false_iff in Hhs as [Ha Hhs]. apply orb_false_iff in Hhs as [Hb Hhs].
  rewrite !str_app_cons. intros fn comps.
  assert (forallb plain comps = true) as Hp.
  { unfold comps, fn. cbn [forallb str_take].
    rewrite !hash_char_plain1; rewrite ?str_mem_cons, ?str_mem_app, ?Hb, ?Hr, ?orb_false_r; done. }
  split; [|done]. unfold FilePathWithSharding.
  rewrite (proj2 (Nat.ltb_ge _ _)) by (unfold fn; simpl; lia).
  f_equal. by apply join_plain.
Qed.

Lemma NarFilePath_Ok h e :
  hash_match h = true → str_forall is_alnum e = true →
  NarFilePath h e = FilePathWithSharding (nar_filename h e).
Proof.
  intros Hh He. unfold NarFilePath. pose proof (hash_match_length _ Hh).
  rewrite (proj2 (Nat.ltb_ge _ _)) by lia. unfold ValidateHash. rewrite Hh. simpl.
  unfold nar_filename. case_bool_decide; by rewrite ?str_app_assoc, ?str_app_nil_r.
Qed.

Lemma ext_alnum ct e : ToFileExtension ct = Ok e → str_forall is_alnum e = true.
Proof.
  intros [[-> _]|He]%ToFileExtension_cases; [done|].
  unfold extension_table in He. rewrite !elem_of_cons, elem_of_nil in He.
  naive_solver.
Qed.

Definition nar_comps (h e : string) : list string :=
  [str_take 1 h; str_take 2 h; nar_filename h e].

Lemma NarFilePath_comps h e :
  hash_match h = true → str_forall is_alnum e = true →
  NarFilePath h e = Ok (join_with "/" (nar_comps h e)) ∧
  forallb plain (nar_comps h e) = true.
Proof.
  intros Hh He. rewrite NarFilePath_Ok by done.
  pose proof (hash_match_length _ Hh) as Hl. pose proof (hash_match_chars _ Hh) as Hc.
  assert (str_mem "/" (nar_filename h e) = false) as Hs.
  { apply nar_filename_no; [done..|set_solver]. }
  unfold nar_filename at 1 in Hs. rewrite str_mem_app in Hs.
  apply orb_false_iff in Hs as [_ Hs].
  destruct (sharding_spec h _ ltac:(lia) Hc Hs) as [HF HP].
  unfold nar_filename, nar_comps in *. rewrite HF.
  destruct h as [|a [|b h]]; simpl in Hl; try lia. by rewrite !str_app_cons in *.
Qed.

Lemma nar_filename_inj h1 e1 h2 e2 :
  hash_match h1 = true → hash_match h2 = true →
  nar_filename h1 e1 = nar_filename h2 e2 → h1 = h2 ∧ e1 = e2.
Proof.
  intros H1 H2 Heq. apply (f_equal (cut ".nar")) in Heq. unfold nar_filename in Heq.
  rewrite !cut_app in Heq by by apply hash_no. injection Heq as -> He. split; [done|].
  destruct (decide (e1 = "")) as [->|]; destruct (decide (e2 = "")) as [->|]; simpl in He.
  - done.
  - by rewrite bool_decide_false in He.
  - by rewrite bool_decide_false in He.
  - rewrite !bool_decide_false in He by done. by injection He.
Qed.

(** A successful [ToFilePath]: a valid hash and three plain path elements. *)
Lemma ToFilePath_inv u p :
  ToFilePath u = Ok p →
  ∃ e, ToFileExtension (Compression u) = Ok e ∧ hash_match (Hash u) = true ∧
    p = join_with "/" (nar_comps (Hash u) e) ∧ forallb plain (nar_comps (Hash u) e) = true.
Proof.
  intros Hu. unfold ToFilePath in Hu. apply bind_Ok_inv in Hu as (e & He & Hp).
  assert (hash_match (Hash u) = true) as Hh.
  { unfold NarFilePath in Hp. case_match; [done|].
    apply bind_Ok_inv in Hp as (? & ?%ValidateHash_Ok & _). done. }
  destruct (NarFilePath_comps (Hash u) e Hh (ext_alnum _ _ He)) as [HF HP].
  exists e. rewrite HF in Hp. by injection Hp as <-.
Qed.

(** Two NAR URLs are stored under the same file path only if their hashes
    and file extensions agree, and the path is always [h/hh/hash.nar[.ext]] with
    every element a plain name: no hash can escape the store directory. *)
Theorem to_file_path_injective (u1 u2 : URL) (p : string) :
  ToFilePath u1 = Ok p → ToFilePath u2 = Ok p →
  Hash u1 = Hash u2 ∧ ToFileExtension (Compression u1) = ToFileExtension (Compression u2) ∧
  ∃ e, p = join_with "/" (nar_comps (Hash u1) e) ∧
       forallb plain (nar_comps (Hash u1) e) = true.
Proof.
  intros H1 H2. destruct (ToFilePath_inv _ _ H1) as (e1 & He1 & Hh1 & Hp1 & Hpl1).
  destruct (ToFilePath_inv _ _ H2) as (e2 & He2 & Hh2 & Hp2 & Hpl2).
  assert (nar_comps (Hash u1) e1 = nar_comps (Hash u2) e2) as Hc.
  { rewrite <- (split_on_join "/" (nar_comps (Hash u1) e1)),
      <- (split_on_join "/" (nar_comps (Hash u2) e2)) by auto using forallb_plain_no_slash.
    congruence. }
  injection Hc as _ _ [Hh ->]%nar_filename_inj; [|done..].
  split; [done|]. split; [congruence|]. eauto.
Qed.

(** *** Opaque upstream URLs *)

Lemma parseURLParts_inv u p h ct q :
  parseURLParts u = Ok (p, h, ct, q) →
  str_mem "?" p = false ∧ p = (cut_char "?" u).1.1 ∧ wf_values q ∧ u ≠ "".
Proof.
  unfold parseURLParts. destruct (cut_char "?" u) as [[pp rq] f] eqn:Hc.
  apply cut_char_before in Hc. intros Hp. case_bool_decide; [done|].
  case_bool_decide; [done|]. destruct (cut ".nar" _) as [[h' an]|]; [|done].
  case_bool_decide; [done|]. apply bind_Ok_inv in Hp as (c & _ & Hp).
  apply bind_Ok_inv in Hp as (ct' & Hct & Hp).
  apply bind_Ok_inv in Hp as (q' & Hq & [= -> -> -> ->]).
  apply map_err_Ok, parse_query_wf in Hq. done.
Qed.

Lemma parseOpaqueNoNarURL_inv u p q :
  parseOpaqueNoNarURL u = Some (p, q) →
  str_mem "?" p = false ∧ p = (cut_char "?" u).1.1 ∧ wf_values q ∧ p ≠ "".
Proof.
  unfold parseOpaqueNoNarURL. destruct (cut_char "?" u) as [[pp rq] f] eqn:Hc.
  apply cut_char_before in Hc. case_bool_decide; [done|]. simpl.
  destruct (negb _); [done|]. destruct (_ || _); [done|].
  destruct (parse_query rq) eqn:Hq; [|done]. intros [= -> ->].
  apply parse_query_wf in Hq. done.
Qed.

(** The cases of a successful [ParseUpstreamURL]. *)
Lemma ParseUpstreamURL_inv u fb v :
  ParseUpstreamURL u fb = Ok v →
  hash_match (Hash v) = true ∧ wf_values (Query v) ∧ TransparentZstd v = false ∧
  (opaquePath v ≠ "" →
     Hash v = fb ∧ str_mem "?" (opaquePath v) = false ∧
     opaquePath v = (cut_char "?" u).1.1).
Proof.
  unfold ParseUpstreamURL.
  destruct (parseURLParts u) as [[[[p h] ct] q]|e] eqn:Hp.
  - destruct (parseURLParts_inv _ _ _ _ _ Hp) as (Hq & Hcut & Hwf & _).
    rewrite ValidateHash_is_ok. destruct (hash_match h) eqn:Hh.
    + by intros [= <-].
    + intros (x & Hx%ValidateHash_Ok & [= <-])%bind_Ok_inv. done.
  - destruct (parseOpaqueNoNarURL u) as [[op oq]|] eqn:Ho; [|done].
    destruct (parseOpaqueNoNarURL_inv _ _ _ Ho) as (Hq & Hcut & Hwf & _).
    case_bool_decide; [|done].
    intros (x & Hx%ValidateHash_Ok & [= <-])%bind_Ok_inv. done.
Qed.

Lemma parseURLParts_compression u p h ct q :
  parseURLParts u = Ok (p, h, ct, q) → ∃ e, CompressionTypeFromExtension e = Ok ct.
Proof.
  unfold parseURLParts. destruct (cut_char "?" u) as [[pp rq] f]. intros Hp. case_bool_decide; [done|].
  case_bool_decide; [done|]. destruct (cut ".nar" _) as [[h' an]|]; [|done].
  case_bool_decide; [done|]. apply bind_Ok_inv in Hp as (c & _ & Hp).
  apply bind_Ok_inv in Hp as (ct' & Hct & Hp). apply bind_Ok_inv in Hp as (q' & _ & [= _ _ <- _]). eauto.
Qed.

Lemma ParseUpstreamURL_extension u fb v :
  ParseUpstreamURL u fb = Ok v → ∃ e, CompressionTypeFromExtension e = Ok (Compression v).
Proof.
  unfold ParseUpstreamURL. destruct (parseURLParts u) as [[[[p h] ct] q]|e] eqn:Hp.
  - apply parseURLParts_compression in Hp. case_match; [by intros [= <-]|]. by intros (x & _ & [= <-])%bind_Ok_inv.
  - case_match; [|done]. case_match. case_bool_decide; [|done]. intros (x & _ & [= <-])%bind_Ok_inv. by exists "".
Qed.

Lemma ParseUpstreamURL_compression u fb v :
  ParseUpstreamURL u fb = Ok v → is_ok (ToFileExtension (Compression v)) = true.
Proof. intros [e He]%ParseUpstreamURL_extension. by apply extension_inv in He as (e' & -> & _). Qed.

(** [ParseUpstreamURL] of a text that is not opaque is [ParseURL]. *)
Lemma ParseUpstreamURL_plain u fb v : ParseUpstreamURL u fb = Ok v → IsOpaque v = false → ParseURL u = Ok v.
Proof.
  intros Hv Ho. unfold IsOpaque in Ho. apply negb_false_iff, bool_decide_eq_true in Ho. revert Hv.
  unfold ParseUpstreamURL, ParseURL. destruct (parseURLParts u) as [[[[p h] ct] q]|e] eqn:Hp.
  - rewrite ValidateHash_is_ok. destruct (hash_match h) eqn:Hh.
    + intros [= <-]. simpl. unfold ValidateHash. by rewrite Hh.
    + intros (x & _ & [= <-])%bind_Ok_inv. simpl in Ho. subst p. unfold parseURLParts in Hp.
      destruct (cut_char "?" u) as [[pp rq] f]. case_bool_decide; [done|]. case_bool_decide as Hb; [done|].
      destruct (cut ".nar" _) as [[h' an]|]; [|done].
      case_bool_decide; [done|]. apply bind_Ok_inv in Hp as (c & _ & Hp).
      apply bind_Ok_inv in Hp as (ct' & Hct & Hp). apply bind_Ok_inv in Hp as (q' & _ & [= -> _ _ _]).
      exfalso. apply Hb. right. reflexivity.
  - destruct (parseOpaqueNoNarURL u) as [[op oq]|] eqn:Hop; [|done]. case_bool_decide; [|done].
    intros (x & _ & [= <-])%bind_Ok_inv. simpl in Ho. apply parseOpaqueNoNarURL_inv in Hop as (_ & _ & _ & Hne). done.
Qed.

Lemma ParseURL_upstream u fb v : ParseURL u = Ok v → ParseUpstreamURL u fb = Ok v.
Proof.
  unfold ParseURL, ParseUpstreamURL. intros Hv.
  apply bind_Ok_inv in Hv as ([[[p h] ct] q] & -> & Hv).
  apply bind_Ok_inv in Hv as (x & Hh%ValidateHash_Ok & [= <-]).
  by rewrite ValidateHash_is_ok, Hh.
Qed.

Lemma opaque_ref_restore v h ct :
  opaquePath v ≠ "" → str_mem "?" (opaquePath v) = false → wf_values (Query v) →
  WithOpaqueUpstreamRef (mkURL h ct ∅ false "") (OpaqueUpstreamRef v) =
  mkURL h ct (Query v) false (opaquePath v).
Proof.
  intros Hne Hq Hwf. unfold OpaqueUpstreamRef, WithOpaqueUpstreamRef.
  rewrite bool_decide_false by done. case_bool_decide as He.
  - rewrite cut_char_none by done.
    apply encode_empty_iff in He; [|done]. by rewrite He.
  - change ("?" +:+ encode (Query v)) with (String "?" (encode (Query v))).
    rewrite cut_char_app by done. by rewrite parse_query_encode.
Qed.

(** A URL taken from an upstream narinfo always gets a valid storage hash;
    a hash-named URL is parsed exactly as [ParseURL] parses it; an opaque one is
    keyed by the fallback hash, keeps the path of the original text verbatim for
    the upstream request, and the reference that is persisted for it restores
    the path and the query on a URL rebuilt from its storage key. *)
Theorem parse_upstream_url_spec (u fb : string) :
  (∀ v, ParseURL u = Ok v → ParseUpstreamURL u fb = Ok v) ∧
  (∀ v, ParseUpstreamURL u fb = Ok v → is_ok (ValidateHash (Hash v)) = true) ∧
  (∀ v, ParseUpstreamURL u fb = Ok v → IsOpaque v = true →
     Hash v = fb ∧ pathWithCompression v = Ok (cut_char "?" u).1.1 ∧
     WithOpaqueUpstreamRef (mkURL fb (Compression v) ∅ false "") (OpaqueUpstreamRef v) = v).
Proof.
  split; [by apply ParseURL_upstream|]. split.
  - intros v (Hh & _)%ParseUpstreamURL_inv. by rewrite ValidateHash_is_ok.
  - intros v (Hh & Hwf & Ht & Ho)%ParseUpstreamURL_inv Hop.
    unfold IsOpaque in Hop. bool_props.
    destruct (Ho Hop) as (Hfb & Hq & Hcut). split; [done|]. split.
    + unfold pathWithCompression. rewrite bool_decide_true by done. by rewrite Hcut.
    + rewrite opaque_ref_restore by done. destruct v. simpl in *. by subst.
Qed.

(** *** Witnesses *)

Definition sample_hash : string := "1s8p1kgdms8rmxkq24q51wc7zpn0aqcwgzvc473v9cii7z2qyxq0".
Definition sample_query : values := <["a" := ["x/y"]]> {["b" := ["2"]]}.
Definition no_query : values := ∅.
Definition sample_sig : values := {["sig" := ["q"]]}.
Definition sample_prefix : string := "n5glp21rsz314qssw9fbvfswgy3kc68f".

Lemma parse_url_string_roundtrip_witness :
  ∃ u s', ParseURL ("cache/nar/" +:+ sample_hash +:+ ".nar.xz?b=2&a=x%2Fy") = Ok u ∧
    Hash u = sample_hash ∧ URLString u = Ok s' ∧ ParseURL s' = Ok u.
Proof.
  destruct (parse_url_string_roundtrip
    ("cache/nar/" +:+ sample_hash +:+ ".nar.xz?b=2&a=x%2Fy")
    (mkURL sample_hash "xz" sample_query false "")
    ltac:(vm_compute; reflexivity)) as (s' & Hs & Hp).
  exists (mkURL sample_hash "xz" sample_query false ""), s'.
  split; [vm_compute; reflexivity|]. split; [reflexivity|]. split; [exact Hs | exact Hp].
Defined.

Lemma normalize_spec_witness :
  Normalize (mkURL (sample_prefix +:+ String "-" sample_hash) "xz" ∅ false "") =
  Ok (mkURL sample_hash "xz" no_query false "").
Proof.
  destruct (normalize_spec (mkURL (sample_prefix +:+ String "-" sample_hash) "xz" ∅ false ""))
    as (_ & _ & Hstrip).
  apply (Hstrip sample_prefix "-"%char sample_hash); vm_compute; reflexivity.
Defined.

Lemma to_file_path_injective_witness :
  ToFilePath (mkURL sample_hash "xz" no_query false "") =
    Ok ("1/1s/" +:+ sample_hash +:+ ".nar.xz") ∧
  ToFileExtension "xz" = ToFileExtension "xz".
Proof.
  destruct (to_file_path_injective
    (mkURL sample_hash "xz" no_query false "") (mkURL sample_hash "xz" no_query true "nar/x")
    ("1/1s/" +:+ sample_hash +:+ ".nar.xz")
    ltac:(vm_compute; reflexivity) ltac:(vm_compute; reflexivity)) as (_ & Hext & _).
  split; [vm_compute; reflexivity | exact Hext].
Defined.

Lemma parse_upstream_url_spec_witness :
  ∃ v, ParseUpstreamURL "nar/6ba7b810-9dad-11d1.nar.zst?sig=q" sample_hash = Ok v ∧
    IsOpaque v = true ∧ Hash v = sample_hash ∧
    pathWithCompression v = Ok "nar/6ba7b810-9dad-11d1.nar.zst".
Proof.
  destruct (parse_upstream_url_spec "nar/6ba7b810-9dad-11d1.nar.zst?sig=q" sample_hash)
    as (_ & _ & Ho).
  destruct (Ho (mkURL sample_hash "zstd" sample_sig false
                  "nar/6ba7b810-9dad-11d1.nar.zst")
    ltac:(vm_compute; reflexivity) ltac:(vm_compute; reflexivity)) as (Hh & Hp & _).
  eexists. split; [vm_compute; reflexivity|]. split; [reflexivity|].
  split; [exact Hh | exact Hp].
Defined.
