(* ===== verification/CacheInfo.v ===== *)
(** * Packages [pkg/nixcacheinfo] and the size parser of [pkg/helper]

    The [nix-cache-info] document: what the server publishes and what a client
    of an upstream cache parses; and the parser of human-readable sizes. *)
From S2P Require Import Prelude GoStd.

(** ** [nixcacheinfo] *)

Inductive info_error :=
  | ErrSplitOnceFoundNoSeparators
  | ErrSplitOnceFoundMultipleSeparators
  | ErrUint (e : num_error)
  | ErrUnknownKey (k : string)
  | ErrTooLong.

#[global] Instance info_error_eq_dec : EqDecision info_error.
Proof. solve_decision. Defined.

Record NixCacheInfo := mkInfo {
  StoreDir : string;
  WantMassQuery : Z;
  Priority : Z;
}.

#[global] Instance NixCacheInfo_eq_dec : EqDecision NixCacheInfo.
Proof. solve_decision. Defined.

(** [splitOnce]: the second search starts one byte after the first match. *)
Definition splitOnce (s sep : string) : result info_error (string * string) :=
  match cut sep s with
  | None => Err ErrSplitOnceFoundNoSeparators
  | Some (a, b) =>
      if contains (str_drop (String.length a + 1) s) sep
      then Err ErrSplitOnceFoundMultipleSeparators
      else Ok (a, b)
  end.

(** [bufio.Scanner] with [ScanLines] (standard library): the lines in order, a
    trailing carriage return dropped, no token for the empty text after the last
    newline; a line of [bufio.MaxScanTokenSize] bytes or more stops the scan. *)
Definition max_scan_token : N := 65536.

Definition newline : ascii := Ascii.ascii_of_nat 10.
Definition carriage_return : ascii := Ascii.ascii_of_nat 13.

Fixpoint drop_cr (s : string) : string :=
  match s with
  | EmptyString => ""
  | String a EmptyString => if bool_decide (a = carriage_return) then "" else s
  | String a s' => String a (drop_cr s')
  end.

Definition raw_lines (s : string) : list string :=
  let ps := split_on newline s in
  if bool_decide (last ps = Some "") then removelast ps else ps.

(** The loop body of [Parse]. *)
Definition parse_line (nci : NixCacheInfo) (line : string) : result info_error NixCacheInfo :=
  if bool_decide (line = "") then Ok nci else
  '(k, v) ← splitOnce line ": ";
  if bool_decide (k = "StoreDir") then Ok (mkInfo v (WantMassQuery nci) (Priority nci))
  else if bool_decide (k = "WantMassQuery") then
    n ← map_err ErrUint (parse_uint v); Ok (mkInfo (StoreDir nci) n (Priority nci))
  else if bool_decide (k = "Priority") then
    n ← map_err ErrUint (parse_uint v); Ok (mkInfo (StoreDir nci) (WantMassQuery nci) n)
  else Err (ErrUnknownKey k).

Fixpoint parse_lines (nci : NixCacheInfo) (ls : list string) : result info_error NixCacheInfo :=
  match ls with
  | [] => Ok nci
  | l :: ls =>
      if (max_scan_token <=? N.of_nat (String.length l))%N then Err ErrTooLong
      else nci ← parse_line nci (drop_cr l); parse_lines nci ls
  end.

(** [Parse]; on an error its callers drop the partly filled value. *)
Definition Parse (s : string) : result info_error NixCacheInfo :=
  parse_lines (mkInfo "" 0 0) (raw_lines s).

(** What [pkg/server] answers on [/nix-cache-info]. *)
Definition nixCacheInfo : string :=
  "StoreDir: /nix/store" +:+ String newline ("WantMassQuery: 1" +:+ String newline
  "Priority: 10").

(** The document of the format for given fields. *)
Definition render (nci : NixCacheInfo) : string :=
  "StoreDir: " +:+ StoreDir nci +:+ String newline
  ("WantMassQuery: " +:+ format_uint (Z.to_N (WantMassQuery nci)) +:+ String newline
  ("Priority: " +:+ format_uint (Z.to_N (Priority nci)))).

(** ** [helper.ParseSize] *)

Inductive size_error := ErrInvalidSizeSuffix | ErrSizeNumber (e : num_error).

#[global] Instance size_error_eq_dec : EqDecision size_error.
Proof. solve_decision. Defined.

(** Multiplication of [uint64]s. *)
Definition mul64 (a b : Z) : Z := ((a * b) mod 2 ^ 64)%Z.

Definition last_byte (s : string) : string := str_drop (String.length s - 1) s.

Definition ascii_upper (c : ascii) : ascii :=
  if in_range "a" "z" c then Ascii.ascii_of_nat (Ascii.nat_of_ascii c - 32) else c.

Fixpoint to_upper (s : string) : string :=
  match s with EmptyString => "" | String a s => String (ascii_upper a) (to_upper s) end.

Definition ParseSize (str : string) : result size_error Z :=
  if String.length str <? 2 then Err ErrInvalidSizeSuffix else
  num ← map_err ErrSizeNumber (parse_uint (str_take (String.length str - 1) str));
  let suffix := to_upper (last_byte str) in
  if bool_decide (suffix = "B") then Ok num
  else if bool_decide (suffix = "K") then Ok (mul64 num 1024)
  else if bool_decide (suffix = "M") then Ok (mul64 (mul64 num 1024) 1024)
  else if bool_decide (suffix = "G") then Ok (mul64 (mul64 (mul64 num 1024) 1024) 1024)
  else if bool_decide (suffix = "T") then
    Ok (mul64 (mul64 (mul64 (mul64 num 1024) 1024) 1024) 1024)
  else Err ErrInvalidSizeSuffix.

(** ** Lemmas *)

Lemma drop_cr_id s : str_mem carriage_return s = false → drop_cr s = s.
Proof.
  induction s as [|a s IH]; [done|]. rewrite str_mem_cons. intros Hm.
  apply orb_false_iff in Hm as [Ha Hm]. destruct s as [|b s].
  - simpl. by rewrite Ha.
  - change (drop_cr (String a (String b s))) with (String a (drop_cr (String b s))).
    by rewrite IH.
Qed.

Lemma cut_char_cut c s : is_Some (cut (String c "") s) ↔ str_mem c s = true.
Proof.
  induction s as [|a s IH]; [split; [by intros []|done]|].
  rewrite str_mem_cons. cbn [cut strip_prefix]. rewrite orb_true_iff.
  destruct (decide (c = a)) as [->|Hne].
  - rewrite !bool_decide_true by done. simpl. split; [by left | eauto].
  - rewrite !bool_decide_false by congruence. rewrite fmap_is_Some, IH.
    split; [by right | by intros [|]].
Qed.

(** No occurrence of a two-byte separator without its first byte. *)
Lemma contains_no_first c sep s : str_mem c s = false → contains s (String c sep) = false.
Proof.
  unfold contains. induction s as [|a s IH]; [done|]. rewrite str_mem_cons. intros Hm.
  apply orb_false_iff in Hm as [Ha Hm]. apply bool_decide_eq_false in Ha.
  cbn [cut strip_prefix]. rewrite bool_decide_false by congruence.
  specialize (IH Hm). by destruct (cut (String c sep) s).
Qed.

(** A key line whose value has no second separator splits at the first one. *)
Lemma splitOnce_line k v :
  str_mem ":" k = false → contains v ": " = false →
  splitOnce (k +:+ ": " +:+ v) ": " = Ok (k, v).
Proof.
  intros Hk Hv. unfold splitOnce. rewrite cut_app by done.
  assert (str_drop (String.length k + 1) (k +:+ ": " +:+ v) = " " +:+ v) as ->.
  { clear. induction k as [|a k IH]; [done|]. rewrite str_app_cons. exact IH. }
  assert (contains (" " +:+ v) ": " = contains v ": ") as ->; [|by rewrite Hv].
  unfold contains. rewrite str_app_cons, str_app_nil_l. cbn [cut strip_prefix].
  rewrite bool_decide_false by done. by destruct (cut ": " v).
Qed.

(** ** Theorems *)

Definition lines_fit (nci : NixCacheInfo) : Prop :=
  Forall (λ l, (N.of_nat (String.length l) < max_scan_token)%N) (raw_lines (render nci)).

Lemma raw_lines_render nci :
  str_mem newline (StoreDir nci) = false →
  raw_lines (render nci) =
  ["StoreDir: " +:+ StoreDir nci;
   "WantMassQuery: " +:+ format_uint (Z.to_N (WantMassQuery nci));
   "Priority: " +:+ format_uint (Z.to_N (Priority nci))].
Proof.
  intros Hs. unfold raw_lines, render.
  rewrite <- str_app_assoc.
  rewrite split_on_app by (rewrite str_mem_app, Hs; done).
  rewrite <- str_app_assoc, split_on_app by (rewrite str_mem_app, format_uint_no; done).
  rewrite split_on_none by (rewrite str_mem_app, format_uint_no; done).
  by rewrite bool_decide_false.
Qed.

Lemma parse_line_store nci v :
  contains v ": " = false →
  parse_line nci ("StoreDir: " +:+ v) = Ok (mkInfo v (WantMassQuery nci) (Priority nci)).
Proof.
  intros Hv. unfold parse_line. rewrite bool_decide_false by done.
  change ("StoreDir: " +:+ v) with ("StoreDir" +:+ ": " +:+ v).
  by rewrite splitOnce_line.
Qed.

Lemma parse_line_num nci n :
  (0 ≤ n ≤ max_uint64)%Z →
  parse_line nci ("WantMassQuery: " +:+ format_uint (Z.to_N n)) =
    Ok (mkInfo (StoreDir nci) n (Priority nci)) ∧
  parse_line nci ("Priority: " +:+ format_uint (Z.to_N n)) =
    Ok (mkInfo (StoreDir nci) (WantMassQuery nci) n).
Proof.
  intros Hn. pose proof (parse_uint_format (Z.to_N n) ltac:(lia)) as Hp.
  rewrite Z2N.id in Hp by lia.
  assert (contains (format_uint (Z.to_N n)) ": " = false) as Hc.
  { by apply contains_no_first, format_uint_no. }
  split; unfold parse_line; rewrite bool_decide_false by done.
  - change ("WantMassQuery: " +:+ ?x) with ("WantMassQuery" +:+ ": " +:+ x).
    rewrite splitOnce_line by done. simpl. by rewrite Hp.
  - change ("Priority: " +:+ ?x) with ("Priority" +:+ ": " +:+ x).
    rewrite splitOnce_line by done. simpl. by rewrite Hp.
Qed.

(** A [nix-cache-info] document written from its fields parses back to them,
    whatever the store directory (no line break, no second [": "]) and for every
    64-bit priority and mass-query value; the document the server publishes is
    one of these, with store directory /nix/store and priority 10. *)
Theorem parse_render (nci : NixCacheInfo) :
  str_mem newline (StoreDir nci) = false →
  str_mem carriage_return (StoreDir nci) = false →
  contains (StoreDir nci) ": " = false →
  (0 ≤ WantMassQuery nci ≤ max_uint64)%Z → (0 ≤ Priority nci ≤ max_uint64)%Z →
  lines_fit nci →
  Parse (render nci) = Ok nci ∧ render (mkInfo "/nix/store" 1 10) = nixCacheInfo.
Proof.
  intros Hnl Hcr Hc Hw Hp Hfit. split; [|by vm_compute].
  unfold lines_fit in Hfit. unfold Parse. rewrite raw_lines_render in * by done.
  rewrite !Forall_cons, Forall_nil in Hfit. destruct Hfit as (H1 & H2 & H3 & _).
  unfold parse_lines. rewrite !(proj2 (N.leb_gt _ _)) by done.
  rewrite !drop_cr_id by (rewrite str_mem_app, ?Hcr, ?format_uint_no; done).
  rewrite parse_line_store by done. simpl.
  rewrite (proj1 (parse_line_num _ _ Hw)). simpl.
  rewrite (proj2 (parse_line_num _ _ Hp)). by destruct nci.
Qed.

Lemma parse_render_witness :
  Parse nixCacheInfo = Ok (mkInfo "/nix/store" 1 10).
Proof.
  destruct (parse_render (mkInfo "/nix/store" 1 10)) as [Hp Hr].
  1-3: reflexivity.
  1-2: unfold max_uint64; simpl; lia.
  { apply (bool_decide_unpack _). vm_compute. exact I. }
  rewrite Hr in Hp. exact Hp.
Defined.

(** *** Sizes *)

(** The factor a suffix stands for. *)
Definition suffix_factor (c : ascii) : option Z :=
  let s := to_upper (String c "") in
  if bool_decide (s = "B") then Some 1%Z
  else if bool_decide (s = "K") then Some (2 ^ 10)%Z
  else if bool_decide (s = "M") then Some (2 ^ 20)%Z
  else if bool_decide (s = "G") then Some (2 ^ 30)%Z
  else if bool_decide (s = "T") then Some (2 ^ 40)%Z
  else None.

Lemma mul64_mod a b : (mul64 (a mod 2 ^ 64) b = (a * b) mod 2 ^ 64)%Z.
Proof. unfold mul64. by rewrite Z.mul_mod_idemp_l. Qed.

Lemma mul64_step n k b : (mul64 ((n * k) mod 2 ^ 64) b = (n * (k * b)) mod 2 ^ 64)%Z.
Proof. rewrite mul64_mod. f_equal. lia. Qed.

Lemma ParseSize_snoc num c :
  num ≠ "" →
  ParseSize (num +:+ String c "") =
  (n ← map_err ErrSizeNumber (parse_uint num);
   match suffix_factor c with
   | Some f => Ok ((n * f) mod 2 ^ 64)%Z
   | None => Err ErrInvalidSizeSuffix
   end).
Proof.
  intros Hne. unfold ParseSize, last_byte.
  assert (String.length (num +:+ String c "") = String.length num + 1) as ->
    by (rewrite str_length_app; simpl; lia).
  rewrite (proj2 (Nat.ltb_ge _ _)) by (destruct num; [done|simpl; lia]).
  rewrite Nat.add_sub, str_take_app, str_drop_app.
  unfold suffix_factor. generalize (to_upper (String c "")). intros s.
  destruct (parse_uint num) as [n|] eqn:Hn; [|done]. simpl.
  pose proof (parse_uint_range _ _ Hn) as Hr. unfold max_uint64 in Hr.
  assert (n = n mod 2 ^ 64)%Z as Hmod by (rewrite Z.mod_small; lia).
  assert (∀ k, mul64 n k = (n * k) mod 2 ^ 64)%Z as Hm by done.
  repeat (case_bool_decide; [f_equal; rewrite ?Hm, ?mul64_step;
    first [by rewrite Z.mul_1_r | f_equal; lia]|]).
  done.
Qed.

(** C37. A size is its number times the factor of its suffix, computed modulo
    2^64: the result is exact whenever the product fits in 64 bits, any other
    suffix is an error, and a number that is not a 64-bit decimal is an error. *)
Theorem parse_size_spec (num : string) (c : ascii) (v : Z) :
  num ≠ "" →
  ParseSize (num +:+ String c "") = Ok v ↔
  ∃ n f, parse_uint num = Ok n ∧ suffix_factor c = Some f ∧
         v = ((n * f) mod 2 ^ 64)%Z ∧ ((n * f < 2 ^ 64)%Z → v = (n * f)%Z).
Proof.
  intros Hne. rewrite ParseSize_snoc by done. split.
  - intros Hv. inv_ok. destruct (suffix_factor c) as [f|] eqn:Hf; [|done].
    injection H0 as <-. eexists _, f. split; [done|]. split; [done|]. split; [done|].
    intros Hlt. pose proof (parse_uint_range _ _ H).
    assert (0 ≤ f)%Z.
    { revert Hf. unfold suffix_factor. repeat (case_bool_decide; [intros [= <-]; lia|]). done. }
    apply Z.mod_small. nia.
  - intros (n & f & -> & -> & -> & _). done.
Qed.

Lemma parse_size_spec_witness : ParseSize "10k" = Ok 10240%Z.
Proof.
  apply (proj2 (parse_size_spec "10" "k" 10240 ltac:(discriminate))).
  exists 10%Z, 1024%Z. repeat split; vm_compute; reflexivity.
Defined.

(** The product wraps silently: a size of 2^64 bytes written in terabytes is
    accepted, without an error, as the size zero. *)
Theorem parse_size_wraps : ParseSize "16777216T" = Ok 0%Z.
Proof. vm_compute. reflexivity. Qed.
