(* ===== verification/CircuitBreaker.v ===== *)
(** * Package [pkg/circuitbreaker]

    A breaker is its four fields; each method takes the reading of [timeNow] it
    makes.  Times are nanoseconds since the epoch, [None] is Go's zero time (a
    clock reading is never the zero time). *)
From S2P Require Import Prelude.

Inductive State := StateClosed | StateOpen | StateHalfOpen.

#[global] Instance State_eq_dec : EqDecision State.
Proof. solve_decision. Defined.

Record CircuitBreaker := mkCB {
  failureCount : Z;
  threshold : Z;
  timeout : Z;
  openedAt : option Z;
}.

#[global] Instance CircuitBreaker_eq_dec : EqDecision CircuitBreaker.
Proof. solve_decision. Defined.

Definition DefaultThreshold : Z := 5.
Definition DefaultTimeout : Z := 60 * 10 ^ 9.

Definition New (threshold timeout : Z) : CircuitBreaker :=
  let threshold := if (threshold <=? 0)%Z then DefaultThreshold else threshold in
  let timeout := if (timeout <=? 0)%Z then DefaultTimeout else timeout in
  mkCB 0 threshold timeout None.

Definition RecordFailure (now : Z) (cb : CircuitBreaker) : CircuitBreaker :=
  let n := (failureCount cb + 1)%Z in
  mkCB n (threshold cb) (timeout cb)
    (if (threshold cb <=? n)%Z then Some now else openedAt cb).

Definition RecordSuccess (cb : CircuitBreaker) : CircuitBreaker :=
  mkCB 0 (threshold cb) (timeout cb) None.

Definition AllowRequest (now : Z) (cb : CircuitBreaker) : bool * CircuitBreaker :=
  match openedAt cb with
  | None => (true, cb)
  | Some t =>
      if (timeout cb <=? now - t)%Z
      then (true, mkCB (failureCount cb) (threshold cb) (timeout cb) (Some now))
      else (false, cb)
  end.

(** [CircuitBreaker.State] *)
Definition CurrentState (now : Z) (cb : CircuitBreaker) : State :=
  match openedAt cb with
  | None => StateClosed
  | Some t => if (timeout cb <=? now - t)%Z then StateHalfOpen else StateOpen
  end.

Definition IsOpen (now : Z) (cb : CircuitBreaker) : bool :=
  negb (bool_decide (CurrentState now cb = StateClosed)).

Definition ForceOpen (now : Z) (cb : CircuitBreaker) : CircuitBreaker :=
  mkCB (threshold cb) (threshold cb) (timeout cb) (Some now).

(** ** Calls in sequence *)

Inductive call := CFailure (now : Z) | CSuccess | CAllow (now : Z) | CForceOpen (now : Z).

Definition step (cb : CircuitBreaker) (c : call) : CircuitBreaker :=
  match c with
  | CFailure now => RecordFailure now cb
  | CSuccess => RecordSuccess cb
  | CAllow now => (AllowRequest now cb).2
  | CForceOpen now => ForceOpen now cb
  end.

Definition run (cb : CircuitBreaker) (cs : list call) : CircuitBreaker := foldl step cb cs.

(** The number of [RecordFailure] calls since the last [RecordSuccess], where a
    [ForceOpen] counts as reaching the threshold. *)
Definition count_step (thr n : Z) (c : call) : Z :=
  match c with
  | CFailure _ => n + 1
  | CSuccess => 0
  | CAllow _ => n
  | CForceOpen _ => thr
  end.

(** The invariant: positive parameters, and the breaker is closed exactly while
    the failure count is below the threshold. *)
Definition cb_inv (cb : CircuitBreaker) : Prop :=
  (0 < threshold cb)%Z ∧ (0 < timeout cb)%Z ∧ (0 ≤ failureCount cb)%Z ∧
  (openedAt cb = None ↔ (failureCount cb < threshold cb)%Z).

Lemma New_inv thr tmo : cb_inv (New thr tmo).
Proof.
  unfold New, cb_inv, DefaultThreshold, DefaultTimeout. simpl.
  destruct (Z.leb_spec thr 0), (Z.leb_spec tmo 0); repeat split; done || lia.
Qed.

Lemma breaker_step_inv cb c : cb_inv cb → cb_inv (step cb c).
Proof.
  intros (Hthr & Htmo & Hn & Hiff). unfold cb_inv. destruct c as [now| |now|now]; simpl.
  - split; [done|]. split; [done|]. split; [lia|].
    destruct (Z.leb_spec (threshold cb) (failureCount cb + 1)); [|rewrite Hiff; lia].
    split; [done|lia].
  - split; [done|]. split; [done|]. split; [lia|]. done.
  - unfold AllowRequest. destruct (openedAt cb) as [t|] eqn:Ht; simpl; [|by rewrite ?Ht].
    destruct (_ <=? _)%Z; simpl; [|by rewrite ?Ht].
    split; [done|]. split; [done|]. split; [lia|].
    split; [done|]. intros Hlt%Hiff. congruence.
  - split; [done|]. split; [done|]. split; [lia|]. split; [done|lia].
Qed.

Lemma run_inv cb cs : cb_inv cb → cb_inv (run cb cs).
Proof. revert cb. induction cs as [|c cs IH]; intros cb Hcb; [done|]. by apply IH, breaker_step_inv. Qed.

Lemma run_params cb cs :
  threshold (run cb cs) = threshold cb ∧ timeout (run cb cs) = timeout cb.
Proof.
  revert cb. induction cs as [|c cs IH]; intros cb; [done|]. simpl.
  destruct (IH (step cb c)) as [-> ->]. destruct c; try done. simpl.
  unfold AllowRequest. destruct (openedAt cb); [|done]. by destruct (_ <=? _)%Z.
Qed.

Lemma run_count cb cs :
  failureCount (run cb cs) = foldl (count_step (threshold cb)) (failureCount cb) cs.
Proof.
  revert cb. induction cs as [|c cs IH]; intros cb; [done|]. simpl. rewrite IH.
  destruct (run_params cb [c]) as [Ht _]. simpl in Ht. rewrite Ht. f_equal.
  destruct c; try done. simpl. unfold AllowRequest.
  destruct (openedAt cb); [|done]. by destruct (_ <=? _)%Z.
Qed.

(** After any sequence of calls on a new breaker, it is closed exactly when
    fewer than [threshold] failures were recorded since the last success, and a
    request is admitted exactly when the reported state is not open. *)
Theorem breaker_run_spec (thr tmo now : Z) (cs : list call) :
  let cb := run (New thr tmo) cs in
  (CurrentState now cb = StateClosed ↔
     (foldl (count_step (threshold (New thr tmo))) 0 cs < threshold (New thr tmo))%Z) ∧
  ((AllowRequest now cb).1 = true ↔ CurrentState now cb ≠ StateOpen) ∧
  IsOpen now cb = negb (bool_decide (openedAt cb = None)).
Proof.
  intros cb. pose proof (run_inv _ cs (New_inv thr tmo)) as (_ & _ & _ & Hiff).
  fold cb in Hiff. unfold cb in Hiff at 2 3. rewrite run_count in Hiff.
  rewrite (proj1 (run_params _ _)) in Hiff. simpl failureCount in Hiff.
  unfold IsOpen, CurrentState, AllowRequest.
  destruct (openedAt cb) as [t|] eqn:Ht.
  - destruct (timeout cb <=? now - t)%Z; simpl; (split; [|split]); try done;
      (split; [done|]); intros Hlt; apply Hiff in Hlt; done.
  - simpl. split; [by rewrite <- Hiff|]. done.
Qed.

(** No thundering herd: once the breaker is open, among the requests asked
    at nondecreasing times before the next timeout has elapsed, none is admitted
    after one that was; a further request is admitted only [timeout] later. *)
Theorem breaker_single_probe (cb : CircuitBreaker) (now : Z) (later : list Z) :
  openedAt cb ≠ None → (AllowRequest now cb).1 = true →
  Forall (λ t, t < now + timeout cb)%Z later →
  let cb' := (AllowRequest now cb).2 in
  Forall (λ t, (AllowRequest t (run cb' (CAllow <$> later))).1 = false) later ∧
  run cb' (CAllow <$> later) = cb' ∧
  (AllowRequest (now + timeout cb) cb').1 = true.
Proof.
  intros Hopen Hallow Hlater. unfold AllowRequest in Hallow.
  destruct (openedAt cb) as [t0|] eqn:Ht0; [|done].
  destruct (timeout cb <=? now - t0)%Z eqn:Hd; [|done]. intros cb'.
  assert (cb' = mkCB (failureCount cb) (threshold cb) (timeout cb) (Some now)) as Hcb'.
  { unfold cb', AllowRequest. by rewrite Ht0, Hd. }
  assert (∀ t, (t < now + timeout cb)%Z → AllowRequest t cb' = (false, cb')) as Hdeny.
  { intros t Ht. rewrite Hcb'. unfold AllowRequest. simpl.
    destruct (Z.leb_spec (timeout cb) (t - now)); [lia|done]. }
  assert (run cb' (CAllow <$> later) = cb') as Hrun.
  { induction Hlater as [|t ts Ht Hts IH]; [done|]. simpl. by rewrite Hdeny. }
  split; [|split; [done|]].
  - rewrite Hrun. eapply Forall_impl; [done|]. intros t Ht. simpl in Ht. by rewrite Hdeny.
  - rewrite Hcb'. unfold AllowRequest. simpl.
    destruct (Z.leb_spec (timeout cb) (now + timeout cb - now)); [done|lia].
Qed.
