(* ===== verification/LocalLock.v ===== *)
(** * Package [pkg/lock/local]: the keyed in-process lockers

    [Locker] and [RWLocker] are the same reference-counted map of mutexes, over
    [sync.Mutex] and [sync.RWMutex].  The code is modelled once over an interface
    of mutexes ([Mutex]), with the two instances below.  The map holds pointers:
    a goroutine keeps the pointer [getLock] gave it while another one may delete
    the key, so the heap of [keyLock]s and the map of pointers are separate. *)
From S2P Require Import Prelude.

(** ** Mutexes (standard library) *)

(** A mutex's operations; [None] is "blocks" for the acquiring ones and the
    runtime's fatal error for the releasing ones.  [view m] counts its writers
    and its readers. *)
Class Mutex (M : Type) := {
  m_zero : M;
  m_lock : M → option M;
  m_unlock : M → option M;
  m_rlock : M → option M;
  m_runlock : M → option M;
  view : M → nat * nat;
}.

Class MutexLaws (M : Type) `{Mutex M} := {
  view_zero : view m_zero = (0, 0);
  view_shape m : view m = (1, 0) ∨ ∃ r, view m = (0, r);
  m_lock_view m m' : m_lock m = Some m' → view m = (0, 0) ∧ view m' = (1, 0);
  m_lock_free m : view m = (0, 0) → is_Some (m_lock m);
  m_unlock_view m : view m = (1, 0) → ∃ m', m_unlock m = Some m' ∧ view m' = (0, 0);
  m_rlock_view m m' : m_rlock m = Some m' →
    ∃ r, view m = (0, r) ∧ view m' = (0, S r);
  m_runlock_view m r : view m = (0, S r) → ∃ m', m_runlock m = Some m' ∧ view m' = (0, r);
}.

(** [sync.Mutex]: locked or not; it has no reader methods. *)
#[export] Instance sync_mutex : Mutex bool := {
  m_zero := false;
  m_lock m := if m then None else Some true;
  m_unlock m := if m then Some false else None;
  m_rlock m := None;
  m_runlock m := None;
  view m := (if m then 1 else 0, 0);
}.

#[export] Instance sync_mutex_laws : MutexLaws bool.
Proof.
  split; simpl.
  - done.
  - intros []; eauto.
  - intros [] m' Hm; [done|]. by injection Hm as <-.
  - by intros []; [|eauto].
  - intros []; [|done]. eauto.
  - done.
  - by intros [].
Qed.

(** [sync.RWMutex]: free, held by a writer, or by some readers. *)
Inductive rwmutex := RWFree | RWWriter | RWReaders (n : nat).

#[export] Instance sync_rwmutex : Mutex rwmutex := {
  m_zero := RWFree;
  m_lock m := match m with RWFree => Some RWWriter | _ => None end;
  m_unlock m := match m with RWWriter => Some RWFree | _ => None end;
  m_rlock m :=
    match m with
    | RWFree => Some (RWReaders 0)
    | RWWriter => None
    | RWReaders n => Some (RWReaders (S n))
    end;
  m_runlock m :=
    match m with
    | RWReaders 0 => Some RWFree
    | RWReaders (S n) => Some (RWReaders n)
    | _ => None
    end;
  view m := match m with RWFree => (0, 0) | RWWriter => (1, 0) | RWReaders n => (0, S n) end;
}.

#[export] Instance sync_rwmutex_laws : MutexLaws rwmutex.
Proof.
  split; simpl.
  - done.
  - intros [| |n]; eauto.
  - intros [| |n] m' Hm; try done. by injection Hm as <-.
  - by intros [| |n]; [eauto|..].
  - by intros [| |n]; [|eauto|].
  - intros [| |n] m' Hm; try done; injection Hm as <-; eauto.
  - intros [| |[|n]] r Hv; simplify_eq/=; eauto.
Qed.

(** ** The keyed locker *)

Inductive lock_error := ErrUnlockUnknownKey (k : string) | ErrRUnlockUnknownKey (k : string) | FatalUnlock.

#[global] Instance lock_error_eq_dec : EqDecision lock_error.
Proof. solve_decision. Defined.

Record keyLock (M : Type) := mkKL { mutex : M; refCount : Z; startTime : option Z }.
Arguments mkKL {M}.
Arguments mutex {M}.
Arguments refCount {M}.
Arguments startTime {M}.

(** The locker: the map from keys to pointers, the [keyLock]s the pointers point
    to, and the next fresh pointer. *)
Record Locker (M : Type) := mkLocker {
  lockers : gmap string nat;
  heap : gmap nat (keyLock M);
  next : nat;
}.
Arguments mkLocker {M}.
Arguments lockers {M}.
Arguments heap {M}.
Arguments next {M}.

Section ops.
Context {M : Type} `{Mutex M}.
Implicit Types (l : Locker M) (kl : keyLock M).

Definition NewLocker : Locker M := mkLocker ∅ ∅ 0.

Definition store (p : nat) kl l : Locker M :=
  mkLocker (lockers l) (<[p := kl]> (heap l)) (next l).

(** [getLock]: find or create the entry, and count a reference. *)
Definition getLock (key : string) l : nat * Locker M :=
  let '(p, kl, l) :=
    match lockers l !! key ≫= λ p, pair p <$> heap l !! p with
    | Some (p, kl) => (p, kl, l)
    | None =>
        let p := next l in
        let kl := mkKL m_zero 0 None in
        (p, kl, mkLocker (<[key := p]> (lockers l)) (<[p := kl]> (heap l)) (S p))
    end in
  (p, store p (mkKL (mutex kl) (refCount kl + 1) (startTime kl)) l).

(** [releaseLock] / [release]. *)
Definition releaseLock (key : string) l : Locker M :=
  match lockers l !! key ≫= λ p, pair p <$> heap l !! p with
  | Some (p, kl) =>
      let kl := mkKL (mutex kl) (refCount kl - 1) (startTime kl) in
      let l := store p kl l in
      if bool_decide (refCount kl = 0%Z)
      then mkLocker (delete key (lockers l)) (heap l) (next l) else l
  | None => l
  end.

(** [kl.Lock()] / [kl.TryLock()] on the pointer, and [kl.startTime = now]. *)
Definition acquire (now : Z) (p : nat) l : option (Locker M) :=
  kl ← heap l !! p;
  m ← m_lock (mutex kl);
  Some (store p (mkKL m (refCount kl) (Some now)) l).

(** [kl.RLock()] on the pointer. *)
Definition racquire (p : nat) l : option (Locker M) :=
  kl ← heap l !! p;
  m ← m_rlock (mutex kl);
  Some (store p (mkKL m (refCount kl) (startTime kl)) l).

(** [Lock] run without interleaving; [None] when it would block. *)
Definition Lock (now : Z) (key : string) l : option (Locker M) :=
  let '(p, l) := getLock key l in acquire now p l.

Definition RLock (key : string) l : option (Locker M) :=
  let '(p, l) := getLock key l in racquire p l.

Definition TryLock (now : Z) (key : string) l : bool * Locker M :=
  let '(p, l) := getLock key l in
  match acquire now p l with
  | Some l => (true, l)
  | None => (false, releaseLock key l)
  end.

(** [Unlock], entirely under the locker's own mutex. *)
Definition Unlock (key : string) l : result lock_error (Locker M) :=
  match lockers l !! key ≫= λ p, pair p <$> heap l !! p with
  | None => Err (ErrUnlockUnknownKey key)
  | Some (p, kl) =>
      match m_unlock (mutex kl) with
      | None => Err FatalUnlock
      | Some m => Ok (releaseLock key (store p (mkKL m (refCount kl) None) l))
      end
  end.

Definition RUnlock (key : string) l : result lock_error (Locker M) :=
  match lockers l !! key ≫= λ p, pair p <$> heap l !! p with
  | None => Err (ErrRUnlockUnknownKey key)
  | Some (p, kl) =>
      match m_runlock (mutex kl) with
      | None => Err FatalUnlock
      | Some m => Ok (releaseLock key (store p (mkKL m (refCount kl) (startTime kl)) l))
      end
  end.

(** [Extend] does nothing. *)
Definition Extend (key : string) l : result lock_error (Locker M) := Ok l.
End ops.

(** The read-write locker is the same code over [sync.RWMutex]. *)
Definition NewRWLocker : Locker rwmutex := NewLocker.
Definition RW_getLock : string → Locker rwmutex → nat * Locker rwmutex := getLock.
Definition RW_release : string → Locker rwmutex → Locker rwmutex := releaseLock.
Definition RW_Lock : Z → string → Locker rwmutex → option (Locker rwmutex) := Lock.
Definition RW_Unlock : string → Locker rwmutex → result lock_error (Locker rwmutex) := Unlock.
Definition RW_TryLock : Z → string → Locker rwmutex → bool * Locker rwmutex := TryLock.
Definition RW_RLock : string → Locker rwmutex → option (Locker rwmutex) := RLock.
Definition RW_RUnlock : string → Locker rwmutex → result lock_error (Locker rwmutex) := RUnlock.

(** ** Interleaved goroutines *)

(** A call in progress: past [getLock] and blocked on the mutex ([Wait]), past
    the failed [TryLock] and about to release ([Rel]), or returned with the lock
    ([Hold]).  The mode says whether it is the write or the read lock; a waiting
    call keeps the pointer it got.  Each acquisition has an identifier. *)
Inductive mode := W | R.

#[global] Instance mode_eq_dec : EqDecision mode.
Proof. solve_decision. Defined.

Inductive pc :=
  | Wait (key : string) (p : nat) (m : mode)
  | Try (key : string) (p : nat)
  | Rel (key : string)
  | Hold (key : string) (m : mode).

#[global] Instance pc_eq_dec : EqDecision pc.
Proof. solve_decision. Defined.

Definition pc_key (c : pc) : string :=
  match c with Wait k _ _ | Try k _ | Rel k | Hold k _ => k end.

Record config (M : Type) := mkConfig { sys : Locker M; calls : gmap nat pc }.
Arguments mkConfig {M}.
Arguments sys {M}.
Arguments calls {M}.

(** One atomic step of one call: the critical sections of the locker's mutex and
    the operations of the key's own mutex. *)
Inductive step {M : Type} `{Mutex M} : config M → config M → Prop :=
  | step_lock l cs t k m p l' :
      cs !! t = None → getLock k l = (p, l') →
      step (mkConfig l cs) (mkConfig l' (<[t := Wait k p m]> cs))
  | step_acquire l cs t k p now l' :
      cs !! t = Some (Wait k p W) → acquire now p l = Some l' →
      step (mkConfig l cs) (mkConfig l' (<[t := Hold k W]> cs))
  | step_racquire l cs t k p l' :
      cs !! t = Some (Wait k p R) → racquire p l = Some l' →
      step (mkConfig l cs) (mkConfig l' (<[t := Hold k R]> cs))
  | step_try l cs t k p l' :
      cs !! t = None → getLock k l = (p, l') →
      step (mkConfig l cs) (mkConfig l' (<[t := Try k p]> cs))
  | step_try_ok l cs t k p now l' :
      cs !! t = Some (Try k p) → acquire now p l = Some l' →
      step (mkConfig l cs) (mkConfig l' (<[t := Hold k W]> cs))
  | step_try_fail l cs t k p now :
      cs !! t = Some (Try k p) → acquire now p l = None →
      step (mkConfig l cs) (mkConfig l (<[t := Rel k]> cs))
  | step_release l cs t k :
      cs !! t = Some (Rel k) →
      step (mkConfig l cs) (mkConfig (releaseLock k l) (delete t cs))
  | step_unlock l cs t k l' :
      cs !! t = Some (Hold k W) → Unlock k l = Ok l' →
      step (mkConfig l cs) (mkConfig l' (delete t cs))
  | step_runlock l cs t k l' :
      cs !! t = Some (Hold k R) → RUnlock k l = Ok l' →
      step (mkConfig l cs) (mkConfig l' (delete t cs)).

Definition reachable {M} `{Mutex M} (c : config M) : Prop :=
  rtc step (mkConfig NewLocker ∅) c.

(** ** Lemmas: the entry of a key *)

Section entry.
Context {M : Type} `{Mutex M}.
Implicit Types (l : Locker M) (kl : keyLock M).

Definition entry (k : string) l : option (nat * keyLock M) :=
  lockers l !! k ≫= λ p, pair p <$> heap l !! p.

Record wf l : Prop := {
  wf_ptr k p : lockers l !! k = Some p → p < next l ∧ is_Some (heap l !! p);
  wf_inj k1 k2 p : lockers l !! k1 = Some p → lockers l !! k2 = Some p → k1 = k2;
}.

Lemma wf_new : wf NewLocker.
Proof. split; simpl; intros *; by rewrite lookup_empty. Qed.

Lemma entry_Some k l p kl :
  entry k l = Some (p, kl) ↔ lockers l !! k = Some p ∧ heap l !! p = Some kl.
Proof.
  unfold entry. rewrite bind_Some. split.
  - intros (q & Hk & Hp). apply fmap_Some in Hp as (kl' & Hp & [= -> ->]). done.
  - intros [Hk Hp]. exists p. by rewrite Hp.
Qed.

Lemma entry_None k l : wf l → entry k l = None → lockers l !! k = None.
Proof.
  intros Hwf He. destruct (lockers l !! k) as [p|] eqn:Hk; [|done].
  destruct (wf_ptr _ Hwf _ _ Hk) as [_ [kl Hp]].
  unfold entry in He. rewrite Hk in He. simpl in He. by rewrite Hp in He.
Qed.

Lemma store_spec k l p kl kl' :
  wf l → entry k l = Some (p, kl) →
  wf (store p kl' l) ∧ entry k (store p kl' l) = Some (p, kl') ∧
  ∀ k', k' ≠ k → entry k' (store p kl' l) = entry k' l.
Proof.
  intros Hwf [Hk Hp]%entry_Some. split; [split|split].
  - intros k' p' Hk'. destruct (wf_ptr _ Hwf _ _ Hk') as [? ?]. split; [done|].
    simpl. destruct (decide (p = p')) as [->|]; [by rewrite lookup_insert_eq|].
    by rewrite lookup_insert_ne.
  - intros k1 k2 p'. simpl. apply (wf_inj _ Hwf).
  - apply entry_Some. simpl. by rewrite lookup_insert_eq.
  - intros k' Hne. unfold entry. simpl.
    destruct (lockers l !! k') as [p'|] eqn:Hk'; [|done]. simpl.
    rewrite lookup_insert_ne; [done|]. intros ->. by destruct Hne; eapply wf_inj.
Qed.

Lemma alloc_spec k l kl :
  wf l → entry k l = None →
  let l' := mkLocker (<[k := next l]> (lockers l)) (<[next l := kl]> (heap l)) (S (next l)) in
  wf l' ∧ entry k l' = Some (next l, kl) ∧ ∀ k', k' ≠ k → entry k' l' = entry k' l.
Proof.
  intros Hwf He l'.
  assert (∀ k' p', lockers l' !! k' = Some p' →
    (k' = k ∧ p' = next l) ∨ (lockers l !! k' = Some p' ∧ k' ≠ k ∧ p' < next l)) as Hinv.
  { intros k' p' Hk'. simpl in Hk'. apply lookup_insert_Some in Hk' as [[-> <-]|[Hne Hk']].
    - by left.
    - right. destruct (wf_ptr _ Hwf _ _ Hk'). auto. }
  split; [split|split].
  - intros k' p' Hk'. simpl. destruct (Hinv _ _ Hk') as [[-> ->]|(Hk & _ & Hlt)].
    + rewrite lookup_insert_eq. eauto.
    + rewrite lookup_insert_ne by lia. split; [lia|]. by apply (wf_ptr _ Hwf k').
  - intros k1 k2 p' H1%Hinv H2%Hinv.
    destruct H1 as [[-> ->]|(H1 & _ & ?)], H2 as [[-> ?]|(H2 & _ & ?)]; try (done || lia).
    by apply (wf_inj _ Hwf _ _ p').
  - apply entry_Some. simpl. by rewrite !lookup_insert_eq.
  - intros k' Hne. unfold entry. simpl. rewrite lookup_insert_ne by done.
    destruct (lockers l !! k') as [p'|] eqn:Hk'; [|done]. simpl.
    destruct (wf_ptr _ Hwf _ _ Hk'). rewrite lookup_insert_ne by lia. done.
Qed.

Lemma getLock_spec k l p l' :
  wf l → getLock k l = (p, l') →
  let kl0 := default (mkKL m_zero 0 None) (snd <$> entry k l) in
  wf l' ∧ entry k l' = Some (p, mkKL (mutex kl0) (refCount kl0 + 1) (startTime kl0)) ∧
  (∀ k', k' ≠ k → entry k' l' = entry k' l) ∧
  (∀ q kl, entry k l = Some (q, kl) → p = q).
Proof.
  intros Hwf. unfold getLock. change (lockers l !! k ≫= _) with (entry k l).
  destruct (entry k l) as [[q kl]|] eqn:He; simpl; intros [= <- <-].
  - destruct (store_spec k l q kl (mkKL (mutex kl) (refCount kl + 1) (startTime kl)) Hwf He)
      as (? & ? & ?). split_and!; try done. by intros ?? [= ->].
  - destruct (alloc_spec k l (mkKL m_zero 0 None) Hwf He) as (Hwf' & He' & Ho).
    destruct (store_spec k _ _ _ (mkKL m_zero (0 + 1) None) Hwf' He') as (? & ? & Ho').
    split_and!; try done. intros k' Hne. by rewrite Ho', Ho.
Qed.

Lemma releaseLock_spec k l p kl :
  wf l → entry k l = Some (p, kl) →
  wf (releaseLock k l) ∧ (∀ k', k' ≠ k → entry k' (releaseLock k l) = entry k' l) ∧
  entry k (releaseLock k l) =
    if bool_decide (refCount kl - 1 = 0)%Z then None
    else Some (p, mkKL (mutex kl) (refCount kl - 1) (startTime kl)).
Proof.
  intros Hwf He. unfold releaseLock. change (lockers l !! k ≫= _) with (entry k l).
  rewrite He. simpl.
  destruct (store_spec k l p kl (mkKL (mutex kl) (refCount kl - 1) (startTime kl)) Hwf He)
    as (Hwf' & He' & Ho).
  case_bool_decide; [|done]. split; [split|split].
  - intros k' p' Hk'. simpl in Hk'. apply lookup_delete_Some in Hk' as [_ Hk'].
    by apply (wf_ptr _ Hwf' k').
  - intros k1 k2 p' H1 H2. simpl in *. apply lookup_delete_Some in H1 as [_ H1].
    apply lookup_delete_Some in H2 as [_ H2]. by apply (wf_inj _ Hwf _ _ p').
  - intros k' Hne. rewrite <- Ho by done. unfold entry. simpl.
    by rewrite lookup_delete_ne.
  - unfold entry. simpl. by rewrite lookup_delete_eq.
Qed.

(** The operations on the key's own mutex, on an entry that is in the map. *)
Lemma acquire_entry now k l p kl :
  entry k l = Some (p, kl) →
  acquire now p l =
    m ← m_lock (mutex kl); Some (store p (mkKL m (refCount kl) (Some now)) l).
Proof. intros [_ Hp]%entry_Some. unfold acquire. by rewrite Hp. Qed.

Lemma racquire_entry k l p kl :
  entry k l = Some (p, kl) →
  racquire p l =
    m ← m_rlock (mutex kl); Some (store p (mkKL m (refCount kl) (startTime kl)) l).
Proof. intros [_ Hp]%entry_Some. unfold racquire. by rewrite Hp. Qed.
End entry.

(** ** The invariant *)

Definition nrefs (k : string) (cs : gmap nat pc) : nat := mcount (λ c, pc_key c = k) cs.
Definition nhold (k : string) (m : mode) (cs : gmap nat pc) : nat := mcount (λ c, c = Hold k m) cs.

(** The pointer a call waits on. *)
Definition pc_ptr (c : pc) : option nat :=
  match c with Wait _ p _ | Try _ p => Some p | _ => None end.

Section invariant.
Context {M : Type} `{MutexLaws M}.
Implicit Types (l : Locker M) (cs : gmap nat pc).

(** The reference count of a key in the map is the number of its calls in
    progress, and its mutex is held by exactly the calls that returned with it;
    a key without calls is not in the map. *)
Definition key_ok (k : string) l cs : Prop :=
  match entry k l with
  | Some (p, kl) =>
      refCount kl = Z.of_nat (nrefs k cs) ∧ 0 < nrefs k cs ∧
      view (mutex kl) = (nhold k W cs, nhold k R cs)
  | None => nrefs k cs = 0
  end.

Definition ptrs_ok l cs : Prop :=
  ∀ t c p, cs !! t = Some c → pc_ptr c = Some p → ∃ kl, entry (pc_key c) l = Some (p, kl).

Definition inv (c : config M) : Prop :=
  wf (sys c) ∧ (∀ k, key_ok k (sys c) (calls c)) ∧ ptrs_ok (sys c) (calls c).

Lemma nhold_le k m cs : nhold k m cs ≤ nrefs k cs.
Proof. apply mcount_mono. by intros c ->. Qed.

(** A change at [t] between calls on the key [k] is invisible to other keys. *)
Lemma counts_other t k k' cs cs' :
  (∀ c, cs !! t = Some c → pc_key c = k) → (∀ c, cs' !! t = Some c → pc_key c = k) →
  delete t cs' = delete t cs → k' ≠ k →
  nrefs k' cs' = nrefs k' cs ∧ ∀ m, nhold k' m cs' = nhold k' m cs.
Proof.
  intros Hc Hc' Hdel Hne. unfold nrefs, nhold. split; [|intros m].
  - rewrite <- (mcount_delete_not _ cs t), <- (mcount_delete_not _ cs' t), Hdel; [done|..].
    + intros c Ht. by rewrite (Hc' _ Ht).
    + intros c Ht. by rewrite (Hc _ Ht).
  - rewrite <- (mcount_delete_not _ cs t), <- (mcount_delete_not _ cs' t), Hdel; [done|..].
    + intros c Ht ->. by apply Hc' in Ht.
    + intros c Ht ->. by apply Hc in Ht.
Qed.

(** The frame: a step at [t] on [k] that keeps the other entries and
    re-establishes [k]'s own facts keeps the invariant. *)
Lemma inv_frame t k l l' cs cs' :
  inv (mkConfig l cs) → wf l' →
  (∀ k', k' ≠ k → entry k' l' = entry k' l) →
  (∀ c, cs !! t = Some c → pc_key c = k) → (∀ c, cs' !! t = Some c → pc_key c = k) →
  delete t cs' = delete t cs →
  key_ok k l' cs' →
  (∀ p kl, entry k l = Some (p, kl) → 0 < nrefs k (delete t cs) →
     ∃ kl', entry k l' = Some (p, kl')) →
  (∀ c p, cs' !! t = Some c → pc_ptr c = Some p → ∃ kl, entry k l' = Some (p, kl)) →
  inv (mkConfig l' cs').
Proof.
  intros (Hwf & Hkeys & Hptrs) Hwf' Ho Hc Hc' Hdel Hk Hp Hpt. split; [done|]. split.
  - intros k'. destruct (decide (k' = k)) as [->|Hne]; [done|].
    destruct (counts_other t k k' cs cs' Hc Hc' Hdel Hne) as [Hr Hh].
    specialize (Hkeys k'). unfold key_ok in *. simpl in *.
    by rewrite Ho, Hr, !Hh by done.
  - intros t' c p Ht' Hcp. simpl in *. destruct (decide (t' = t)) as [->|Hne].
    { destruct (Hpt c p Ht' Hcp) as [kl Hkl]. rewrite (Hc' _ Ht'). eauto. }
    assert (delete t cs !! t' = Some c) as Hd.
    { rewrite <- Hdel. by rewrite lookup_delete_ne. }
    assert (cs !! t' = Some c) as Ht by by rewrite lookup_delete_ne in Hd.
    destruct (Hptrs t' c p Ht Hcp) as [kl Hkl]. simpl in Hkl.
    destruct (decide (pc_key c = k)) as [Hck|Hck]; [|rewrite Ho by done; eauto].
    rewrite Hck in *. eapply Hp; [done|]. by eapply mcount_pos.
Qed.

Definition is_hold (c : pc) : bool := match c with Hold _ _ => true | _ => false end.

Lemma nrefs_new k cs t c :
  cs !! t = None → pc_key c = k → nrefs k (<[t := c]> cs) = S (nrefs k cs).
Proof. intros Ht Hc. unfold nrefs. by rewrite mcount_insert_new, bool_decide_true. Qed.

Lemma nrefs_upd k cs t c c' :
  cs !! t = Some c → pc_key c = k → pc_key c' = k → nrefs k (<[t := c']> cs) = nrefs k cs.
Proof. intros Ht Hc Hc'. eapply mcount_insert_same; [done|]. by rewrite Hc, Hc'. Qed.

Lemma nrefs_del k cs t c :
  cs !! t = Some c → pc_key c = k → nrefs k cs = S (nrefs k (delete t cs)).
Proof. intros Ht Hc. unfold nrefs. by rewrite (mcount_delete _ _ _ _ Ht), bool_decide_true. Qed.

Lemma nhold_nonhold k m cs t c :
  (∀ c, cs !! t = Some c → is_hold c = false) → is_hold c = false →
  nhold k m (<[t := c]> cs) = nhold k m cs.
Proof.
  intros Hc Hc'. apply mcount_insert_not.
  - intros c' Ht ->. by apply Hc in Ht.
  - by intros ->.
Qed.

Lemma nhold_del_nonhold k m cs t c :
  cs !! t = Some c → is_hold c = false → nhold k m (delete t cs) = nhold k m cs.
Proof. intros Ht Hc. apply mcount_delete_not. rewrite Ht. by intros ? [= <-] ->. Qed.

Lemma nhold_acquire k m m' cs t c :
  cs !! t = Some c → is_hold c = false →
  nhold k m' (<[t := Hold k m]> cs) = b2n (bool_decide (m' = m)) + nhold k m' cs.
Proof.
  intros Ht Hc. unfold nhold. rewrite (mcount_update _ _ _ _ _ Ht).
  rewrite (mcount_delete _ _ _ _ Ht), (bool_decide_false (c = _)) by by intros ->.
  simpl. f_equal. f_equal. apply bool_decide_ext. split; congruence.
Qed.

Lemma nhold_del_hold k m m' cs t :
  cs !! t = Some (Hold k m) →
  nhold k m' cs = b2n (bool_decide (m' = m)) + nhold k m' (delete t cs).
Proof.
  intros Ht. unfold nhold. rewrite (mcount_delete _ _ _ _ Ht). f_equal. f_equal.
  apply bool_decide_ext. split; congruence.
Qed.

(** What the invariant says of a key that has a call in progress. *)
Lemma key_ok_live k l cs t c :
  key_ok k l cs → cs !! t = Some c → pc_key c = k →
  ∃ p kl, entry k l = Some (p, kl) ∧ refCount kl = Z.of_nat (nrefs k cs) ∧
    0 < nrefs k cs ∧ view (mutex kl) = (nhold k W cs, nhold k R cs).
Proof.
  intros Hk Ht Hc. unfold key_ok in Hk. pose proof (nrefs_del k cs t c Ht Hc).
  destruct (entry k l) as [[p kl]|]; [|lia]. destruct Hk as (? & ? & ?). eauto 10.
Qed.

(** [getLock] followed by a call in state [c] that waits on its pointer. *)
Lemma inv_getLock l cs t k p l' c :
  inv (mkConfig l cs) → cs !! t = None → getLock k l = (p, l') →
  pc_key c = k → is_hold c = false → pc_ptr c = Some p →
  inv (mkConfig l' (<[t := c]> cs)).
Proof.
  intros Hinv Ht Hget Hc Hh Hp. pose proof Hinv as (Hwf & Hkeys & _). simpl in *.
  destruct (getLock_spec _ _ _ _ Hwf Hget) as (Hwf' & He & Ho & Hq).
  eapply (inv_frame t k l); try done.
  - by rewrite Ht.
  - rewrite lookup_insert_eq. by intros ? [= <-].
  - by rewrite delete_insert_eq.
  - specialize (Hkeys k). unfold key_ok in *. rewrite He.
    rewrite (nrefs_new k) by done.
    rewrite !nhold_nonhold by (by rewrite ?Ht). simpl.
    destruct (entry k l) as [[q kl]|]; simpl.
    + destruct Hkeys as (-> & ? & ->). split; [lia|]. split; [lia|done].
    + rewrite Hkeys. pose proof (nhold_le k W cs). pose proof (nhold_le k R cs).
      split; [lia|]. split; [lia|]. rewrite view_zero. f_equal; lia.
  - intros q kl Hkl _. rewrite <- (Hq _ _ Hkl). eauto.
  - rewrite lookup_insert_eq. intros c' p' [= <-]. rewrite Hp. intros [= <-]. eauto.
Qed.

(** Acquiring the key's mutex in mode [m]. *)
Lemma inv_acquire l cs t k p c kl kl' m :
  inv (mkConfig l cs) → cs !! t = Some c → pc_key c = k → is_hold c = false →
  entry k l = Some (p, kl) → refCount kl' = refCount kl →
  (view (mutex kl') =
    (b2n (bool_decide (W = m)) + (view (mutex kl)).1,
     b2n (bool_decide (R = m)) + (view (mutex kl)).2)) →
  inv (mkConfig (store p kl' l) (<[t := Hold k m]> cs)).
Proof.
  intros Hinv Ht Hc Hh He Hrc Hv. pose proof Hinv as (Hwf & Hkeys & _). simpl in *.
  destruct (store_spec k l p kl kl' Hwf He) as (Hwf' & He' & Ho).
  eapply (inv_frame t k l); try done.
  - rewrite Ht. by intros ? [= <-].
  - rewrite lookup_insert_eq. by intros ? [= <-].
  - by rewrite delete_insert_eq.
  - specialize (Hkeys k). unfold key_ok in *. rewrite He in Hkeys. rewrite He'.
    destruct Hkeys as (Hr & Hpos & Hview).
    rewrite (nrefs_upd k _ _ _ _ Ht) by done. split; [congruence|]. split; [done|].
    rewrite !(nhold_acquire _ _ _ _ _ _ Ht Hh). by rewrite Hv, Hview.
  - intros q kl0 Hkl _. rewrite He in Hkl. injection Hkl as <- <-. eauto.
  - rewrite lookup_insert_eq. by intros c' p' [= <-].
Qed.

(** Releasing a reference after storing [kl'] in the entry. *)
Lemma inv_release l cs t k p c kl kl' :
  inv (mkConfig l cs) → cs !! t = Some c → pc_key c = k →
  entry k l = Some (p, kl) → refCount kl' = refCount kl →
  view (mutex kl') = (nhold k W (delete t cs), nhold k R (delete t cs)) →
  inv (mkConfig (releaseLock k (store p kl' l)) (delete t cs)).
Proof.
  intros Hinv Ht Hc He Hrc Hv. pose proof Hinv as (Hwf & Hkeys & _). simpl in *.
  destruct (store_spec k l p kl kl' Hwf He) as (Hwf' & He' & Ho).
  destruct (releaseLock_spec k _ p kl' Hwf' He') as (Hwf2 & Ho2 & He2).
  specialize (Hkeys k). unfold key_ok in Hkeys. rewrite He in Hkeys.
  destruct Hkeys as (Hr & Hpos & Hview).
  pose proof (nrefs_del k cs t c Ht Hc) as Hn.
  assert (bool_decide (refCount kl' - 1 = 0)%Z = bool_decide (nrefs k (delete t cs) = 0)) as Hz.
  { apply bool_decide_ext. lia. }
  rewrite Hz in He2. clear Hz. eapply (inv_frame t k l); try done.
  - intros k' Hne. by rewrite Ho2, Ho.
  - rewrite Ht. by intros ? [= <-].
  - by rewrite lookup_delete_eq.
  - by rewrite delete_delete_eq.
  - unfold key_ok. rewrite He2. destruct (decide (nrefs k (delete t cs) = 0)) as [Hn0|Hn0].
    + by rewrite bool_decide_true.
    + rewrite bool_decide_false by done. simpl. split; [lia|]. split; [lia|exact Hv].
  - intros q kl0 Hkl Hlive. rewrite He in Hkl. injection Hkl as <- <-.
    rewrite He2, bool_decide_false by lia. eauto.
  - by rewrite lookup_delete_eq.
Qed.

(** A call that changes its own program counter only. *)
Lemma inv_pc l cs t c c' :
  inv (mkConfig l cs) → cs !! t = Some c → pc_key c' = pc_key c →
  is_hold c = false → is_hold c' = false → pc_ptr c' = None →
  inv (mkConfig l (<[t := c']> cs)).
Proof.
  intros Hinv Ht Hc Hh Hh' Hp. pose proof Hinv as (Hwf & Hkeys & _). simpl in *.
  eapply (inv_frame t (pc_key c) l); try done.
  - rewrite Ht. by intros ? [= <-].
  - rewrite lookup_insert_eq. by intros ? [= <-].
  - by rewrite delete_insert_eq.
  - specialize (Hkeys (pc_key c)). unfold key_ok in *.
    rewrite (nrefs_upd _ _ _ _ c' Ht) by done.
    rewrite !nhold_nonhold; try done; rewrite Ht; by intros ? [= <-].
  - eauto.
  - rewrite lookup_insert_eq. intros c0 p [= <-]. by rewrite Hp.
Qed.

(** The entry a waiting call, or a holder, works on. *)
Lemma inv_ptr l cs t c p :
  inv (mkConfig l cs) → cs !! t = Some c → pc_ptr c = Some p →
  ∃ kl, entry (pc_key c) l = Some (p, kl).
Proof. intros (_ & _ & Hp) Ht Hc. by apply (Hp t c p). Qed.

Lemma inv_hold l cs t k m :
  inv (mkConfig l cs) → cs !! t = Some (Hold k m) →
  ∃ p kl, entry k l = Some (p, kl) ∧
    view (mutex kl) =
      (b2n (bool_decide (W = m)) + nhold k W (delete t cs),
       b2n (bool_decide (R = m)) + nhold k R (delete t cs)).
Proof.
  intros (_ & Hk & _) Ht. specialize (Hk k). simpl in Hk.
  destruct (key_ok_live _ _ _ _ _ Hk Ht eq_refl) as (p & kl & He & _ & _ & Hv).
  exists p, kl. split; [done|]. by rewrite Hv, <- !(nhold_del_hold _ _ _ _ _ Ht).
Qed.

Lemma acquire_inv l cs t k p c now l' :
  inv (mkConfig l cs) → cs !! t = Some c → pc_key c = k → is_hold c = false →
  pc_ptr c = Some p → acquire now p l = Some l' →
  inv (mkConfig l' (<[t := Hold k W]> cs)).
Proof.
  intros Hinv Ht <- Hh Hp Ha. destruct (inv_ptr _ _ _ _ _ Hinv Ht Hp) as [kl He].
  rewrite (acquire_entry _ _ _ _ _ He) in Ha.
  apply bind_Some in Ha as (m & Hm & [= <-]). apply m_lock_view in Hm as [Hv0 Hv1].
  eapply inv_acquire; try done. simpl. by rewrite Hv1, Hv0.
Qed.

Lemma racquire_inv l cs t k p l' :
  inv (mkConfig l cs) → cs !! t = Some (Wait k p R) → racquire p l = Some l' →
  inv (mkConfig l' (<[t := Hold k R]> cs)).
Proof.
  intros Hinv Ht Ha. destruct (inv_ptr _ _ _ _ p Hinv Ht eq_refl) as [kl He]. simpl in He.
  rewrite (racquire_entry _ _ _ _ He) in Ha.
  apply bind_Some in Ha as (m & Hm & [= <-]). apply m_rlock_view in Hm as (r & Hv0 & Hv1).
  eapply inv_acquire; try done. simpl. by rewrite Hv1, Hv0.
Qed.

(** A holder's release succeeds: the key is in the map and its mutex is held in
    the holder's mode. *)
Lemma Unlock_hold l cs t k :
  inv (mkConfig l cs) → cs !! t = Some (Hold k W) →
  ∃ l', Unlock k l = Ok l' ∧ inv (mkConfig l' (delete t cs)).
Proof.
  intros Hinv Ht. destruct (inv_hold _ _ _ _ _ Hinv Ht) as (p & kl & He & Hv).
  unfold Unlock. change (lockers l !! k ≫= _) with (entry k l). rewrite He. simpl in Hv.
  pose proof (view_shape (mutex kl)) as Hshape.
  destruct (m_unlock_view (mutex kl)) as (m & Hm & Hvm).
  { destruct Hshape as [->|[r Hr]]; congruence. }
  rewrite Hm. eexists. split; [done|]. eapply (inv_release _ _ t k p _ kl); try done. simpl.
  destruct Hshape as [Hs|[r Hs]]; rewrite Hv in Hs; injection Hs; intros; [|lia].
  rewrite Hvm. f_equal; lia.
Qed.

Lemma RUnlock_hold l cs t k :
  inv (mkConfig l cs) → cs !! t = Some (Hold k R) →
  ∃ l', RUnlock k l = Ok l' ∧ inv (mkConfig l' (delete t cs)).
Proof.
  intros Hinv Ht. destruct (inv_hold _ _ _ _ _ Hinv Ht) as (p & kl & He & Hv).
  unfold RUnlock. change (lockers l !! k ≫= _) with (entry k l). rewrite He. simpl in Hv.
  assert (nhold k W (delete t cs) = 0) as Hw.
  { destruct (view_shape (mutex kl)) as [Hs|[r Hs]]; rewrite Hv in Hs; injection Hs; lia. }
  rewrite Hw in Hv. destruct (m_runlock_view (mutex kl) _ Hv) as (m & Hm & Hvm).
  rewrite Hm. eexists. split; [done|].
  eapply (inv_release _ _ t k p _ kl); try done. simpl. by rewrite Hw.
Qed.

Lemma step_inv c c' : step c c' → inv c → inv c'.
Proof.
  destruct 1 as [l cs t k m p l' Ht Hg|l cs t k p now l' Ht Ha|l cs t k p l' Ht Ha
    |l cs t k p l' Ht Hg|l cs t k p now l' Ht Ha|l cs t k p now Ht Ha|l cs t k Ht
    |l cs t k l' Ht Hu|l cs t k l' Ht Hu]; intros Hinv.
  - by eapply inv_getLock.
  - by eapply acquire_inv.
  - by eapply racquire_inv.
  - by eapply inv_getLock.
  - by eapply acquire_inv.
  - by eapply inv_pc.
  - destruct (key_ok_live k l cs t (Rel k)) as (p & kl & He & _ & _ & Hv); try done.
    { apply Hinv. }
    pose proof Hinv as (Hwf & _). simpl in Hwf.
    replace l with (store p kl l) at 1
      by (destruct l; unfold store; f_equal; apply entry_Some in He as [_ He]; simpl in *;
          by apply insert_id).
    eapply inv_release; try done. rewrite Hv. symmetry.
    f_equal; eapply nhold_del_nonhold; done.
  - destruct (Unlock_hold _ _ _ _ Hinv Ht) as (l2 & Hu2 & Hinv'). congruence.
  - destruct (RUnlock_hold _ _ _ _ Hinv Ht) as (l2 & Hu2 & Hinv'). congruence.
Qed.

Lemma inv_init : inv (mkConfig NewLocker ∅).
Proof.
  split; [apply wf_new|]. split; simpl.
  - intros k. unfold key_ok, entry. simpl. rewrite lookup_empty. apply mcount_empty.
  - intros t c p. by rewrite lookup_empty.
Qed.

Lemma reachable_inv c : reachable c → inv c.
Proof.
  intros Hr. eapply (rtc_ind_r inv); [apply inv_init| |exact Hr].
  intros c1 c2 _ Hs Hi. by eapply step_inv.
Qed.
End invariant.

(** ** The properties *)

Section properties.
Context {M : Type} `{MutexLaws M}.

(** Mutual exclusion: at every point of every interleaving of the calls of
    any number of goroutines, while one call holds a key's write lock no other
    call holds that key in any mode (for [Locker] as for [RWLocker]). *)
Theorem lock_mutual_exclusion (c : config M) (t t' : nat) (k : string) (m : mode)
    (Hr : reachable c) (Ht : calls c !! t = Some (Hold k W))
    (Ht' : calls c !! t' = Some (Hold k m)) :
  t = t'.
Proof.
  destruct (decide (t = t')) as [|Hne]; [done|]. destruct c as [l cs]. simpl in *.
  destruct (inv_hold _ _ _ _ _ (reachable_inv _ Hr) Ht) as (p & kl & _ & Hv).
  assert (0 < nhold k m (delete t cs)) as Hpos.
  { eapply mcount_pos; [by rewrite lookup_delete_ne, Ht'|done]. }
  simpl in Hv. pose proof (view_shape (mutex kl)) as [Hs|[r Hs]];
    rewrite Hv in Hs; injection Hs; destruct m; lia.
Qed.

(** A holder can always release, whatever the other goroutines did since:
    its [Unlock] or [RUnlock] finds the key and succeeds, without the unknown-key
    error and without the runtime's fatal "unlock of unlocked mutex". *)
Theorem holder_releases (c : config M) (t : nat) (k : string) (m : mode)
    (Hr : reachable c) (Ht : calls c !! t = Some (Hold k m)) :
  is_ok (match m with W => Unlock k (sys c) | R => RUnlock k (sys c) end) = true.
Proof.
  destruct c as [l cs]. simpl in *. pose proof (reachable_inv _ Hr) as Hinv.
  destruct m.
  - by destruct (Unlock_hold _ _ _ _ Hinv Ht) as (l' & -> & _).
  - by destruct (RUnlock_hold _ _ _ _ Hinv Ht) as (l' & -> & _).
Qed.

(** The map leaks nothing and forgets nothing: at every point a key is in
    the locker's map exactly when some call on it is in progress (waiting,
    trying or holding), with a reference count equal to the number of those
    calls; so once every call is over the map is empty. *)
Theorem locker_no_leak (c : config M) (Hr : reachable c) :
  (∀ k, is_Some (lockers (sys c) !! k) ↔ ∃ t pc, calls c !! t = Some pc ∧ pc_key pc = k) ∧
  (∀ k p kl, lockers (sys c) !! k = Some p → heap (sys c) !! p = Some kl →
     refCount kl = Z.of_nat (mcount (λ pc, pc_key pc = k) (calls c))) ∧
  (calls c = ∅ → lockers (sys c) = ∅).
Proof.
  destruct c as [l cs]. pose proof (reachable_inv _ Hr) as (Hwf & Hk & _). simpl in *.
  assert (∀ k, is_Some (lockers l !! k) ↔ ∃ t pc, cs !! t = Some pc ∧ pc_key pc = k) as Hiff.
  { intros k. specialize (Hk k). unfold key_ok in Hk. split.
    - intros [p Hp]. destruct (wf_ptr _ Hwf _ _ Hp) as [_ [kl Hkl]].
      assert (entry k l = Some (p, kl)) as He by by apply entry_Some.
      rewrite He in Hk. destruct Hk as (_ & Hpos & _).
      destruct (decide (map_Forall (λ _ c, pc_key c ≠ k) cs)) as [Hall|Hex].
      + unfold nrefs in Hpos. rewrite mcount_none in Hpos; [lia|done].
      + apply map_not_Forall in Hex as (t & c & Ht & Hc); [|apply _].
        exists t, c. split; [done|]. by apply dec_stable.
    - intros (t & c & Ht & Hc). pose proof (nrefs_del k cs t c Ht Hc).
      destruct (entry k l) as [[p kl]|] eqn:He; [|lia].
      apply entry_Some in He as [-> _]. eauto. }
  split; [done|]. split.
  - intros k p kl Hp Hkl. specialize (Hk k). unfold key_ok in Hk.
    assert (entry k l = Some (p, kl)) as He by by apply entry_Some.
    rewrite He in Hk. apply Hk.
  - intros ->. apply map_empty. intros k. apply eq_None_not_Some. intros Hs.
    apply Hiff in Hs as (t & c & Ht & _). by rewrite lookup_empty in Ht.
Qed.

(** [TryLock] without interleaving: from a reachable state it takes the lock
    exactly when no call holds the key, and when it fails every key is in the
    map, and with the same content, exactly as before. *)
Theorem TryLock_spec (c : config M) (now : Z) (k : string) (Hr : reachable c) :
  let '(ok, l') := TryLock now k (sys c) in
  (ok = true ↔ ∀ t m, calls c !! t ≠ Some (Hold k m)) ∧
  (ok = false → ∀ k', entry k' l' = entry k' (sys c)).
Proof.
  destruct c as [l cs]. pose proof (reachable_inv _ Hr) as (Hwf & Hk & _). simpl in *.
  specialize (Hk k). unfold TryLock. destruct (getLock k l) as [p l1] eqn:Hg.
  destruct (getLock_spec _ _ _ _ Hwf Hg) as (Hwf1 & He1 & Ho1 & Hq).
  set (kl0 := default (mkKL m_zero 0 None) _) in *. rewrite (acquire_entry _ _ _ _ _ He1). simpl.
  assert (view (mutex kl0) = (nhold k W cs, nhold k R cs)) as Hv.
  { unfold key_ok in Hk. subst kl0. destruct (entry k l) as [[q kl]|]; simpl; [apply Hk|].
    pose proof (nhold_le k W cs). pose proof (nhold_le k R cs).
    rewrite view_zero. f_equal; lia. }
  destruct (m_lock (mutex kl0)) as [m|] eqn:Hm; simpl.
  - split; [|done]. split; [|done]. intros _ t m' Ht. apply m_lock_view in Hm as [Hz _].
    pose proof (mcount_pos (λ c, c = Hold k m') cs t _ Ht eq_refl) as Hpos.
    fold (nhold k m' cs) in Hpos. rewrite Hv in Hz. injection Hz. destruct m'; lia.
  - split.
    + split; [done|]. intros Hno. assert (∀ m, nhold k m cs = 0) as Hz.
      { intros m. apply mcount_none. intros t c Ht ->. by destruct (Hno t m). }
      rewrite !Hz in Hv. destruct (m_lock_free _ Hv). congruence.
    + intros _ k'. destruct (releaseLock_spec _ _ _ _ Hwf1 He1) as (_ & Ho2 & He2).
      destruct (decide (k' = k)) as [->|Hne]; [|by rewrite Ho2, Ho1].
      rewrite He2. simpl. subst kl0. unfold key_ok in Hk.
      destruct (entry k l) as [[q kl]|] eqn:He; simpl in *.
      * destruct Hk as (Hrc & Hpos & _). rewrite bool_decide_false by lia.
        rewrite (Hq _ _ eq_refl). destruct kl. simpl. repeat f_equal. lia.
      * exfalso. destruct (m_lock_free (m_zero (M := M)) view_zero). congruence.
Qed.
End properties.

(** Two readers of one key hold it together, a third call waits for the write
    lock and gets it after both released. *)
Definition rw_calls : list (config rwmutex → config rwmutex) :=
  let new t m c :=
    let '(p, l) := getLock "k" (sys c) in mkConfig l (<[t := Wait "k" p m]> (calls c)) in
  let upd t s (f : Locker rwmutex → option (Locker rwmutex)) c :=
    mkConfig (default (sys c) (f (sys c))) (<[t := s]> (calls c)) in
  let rel t (f : Locker rwmutex → result lock_error (Locker rwmutex)) c :=
    mkConfig (match f (sys c) with Ok l => l | Err _ => sys c end) (delete t (calls c)) in
  [ new 1 R; new 2 R; upd 1 (Hold "k" R) (racquire 0); new 3 W;
    upd 2 (Hold "k" R) (racquire 0); rel 1 (RUnlock "k"); rel 2 (RUnlock "k");
    upd 3 (Hold "k" W) (acquire 7 0) ].

Definition rw_after (n : nat) : config rwmutex :=
  foldl (λ c f, f c) (mkConfig NewLocker ∅) (take n rw_calls).

Lemma rw_after_S n f : rw_calls !! n = Some f → rw_after (S n) = f (rw_after n).
Proof. intros Hf. unfold rw_after. rewrite (take_S_r _ _ _ Hf), foldl_app. done. Qed.

Lemma rw_after_reachable n : n ≤ 8 → reachable (rw_after n).
Proof.
  assert (∀ n, n < 8 → step (rw_after n) (rw_after (S n))) as Hs.
  { intros i Hi.
    destruct i as [|[|[|[|[|[|[|[|i]]]]]]]]; [erewrite rw_after_S by reflexivity..|lia].
    - by eapply step_lock.
    - by eapply step_lock.
    - by eapply (step_racquire _ _ 1).
    - by eapply step_lock.
    - by eapply (step_racquire _ _ 2).
    - by eapply (step_runlock _ _ 1).
    - by eapply (step_runlock _ _ 2).
    - by eapply (step_acquire _ _ 3). }
  induction n as [|n IH]; intros Hn; [apply rtc_refl|].
  eapply rtc_r; [apply IH; lia|]. apply Hs. lia.
Qed.

Lemma lock_mutual_exclusion_witness :
  reachable (rw_after 8) ∧ ∀ t m, calls (rw_after 8) !! t = Some (Hold "k" m) → 3 = t.
Proof.
  assert (reachable (rw_after 8)) as Hr by by apply rw_after_reachable.
  split; [exact Hr|]. intros t m Ht.
  by apply (lock_mutual_exclusion (rw_after 8) 3 t "k" m Hr).
Defined.

Lemma holder_releases_witness :
  reachable (rw_after 5) ∧ is_ok (RUnlock "k" (sys (rw_after 5))) = true.
Proof.
  assert (reachable (rw_after 5)) as Hr by (apply rw_after_reachable; lia).
  split; [exact Hr|]. by apply (holder_releases (rw_after 5) 2 "k" R Hr).
Defined.

Lemma locker_no_leak_witness :
  reachable (rw_after 5) ∧ is_Some (lockers (sys (rw_after 5)) !! "k") ∧
  calls (rw_after 5) !! 3 = Some (Wait "k" 0 W).
Proof.
  assert (reachable (rw_after 5)) as Hr by (apply rw_after_reachable; lia).
  split; [exact Hr|]. split; [|done].
  apply (proj1 (locker_no_leak (rw_after 5) Hr)). by exists 3, (Wait "k" 0 W).
Defined.
