(* ===== verification/FS.v ===== *)
(** * The file system the stores work on (package [os])

    A tree of files and directories with the POSIX behaviour of the calls the
    code makes.  Every system call first consults a script of faults, so that a
    theorem holds whatever calls fail, and a script of random numbers for
    [os.CreateTemp]. *)
From stdpp Require Import sorting.
From S2P Require Import Prelude GoStd.

Inductive fs_err := ENOENT | EEXIST | ENOTDIR | EISDIR | ENOTEMPTY | EACCES | EIO | ErrPatternHasSeparator.

#[global] Instance fs_err_eq_dec : EqDecision fs_err.
Proof. solve_decision. Defined.

Inductive node := Dir | File (mode : N) (data : string).

#[global] Instance node_eq_dec : EqDecision node.
Proof. solve_decision. Defined.

(** What a failing call did before it failed: the bytes a write put in the file,
    and what a recursive removal left behind. *)
Record fault := mkFault { written : nat; kept : path → bool }.

Record disk := mkDisk {
  nodes : gmap path node;
  faults : list (option fault);
  rands : list nat;
}.

Notation tree := (gmap path node).

(** [os.IsNotExist] and [os.IsExist] *)
Definition IsNotExist (e : fs_err) : bool := bool_decide (e = ENOENT).
Definition IsExist (e : fs_err) : bool := bool_decide (e = EEXIST ∨ e = ENOTEMPTY).

Definition is_dir (n : node) : bool := match n with Dir => true | File _ _ => false end.

(** Path resolution; the root is always a directory. *)
Fixpoint resolve (p : path) (t : tree) : result fs_err node :=
  match p with
  | [] => Ok Dir
  | _ :: q =>
      match resolve q t with
      | Ok Dir => of_option ENOENT (t !! p)
      | Ok (File _ _) => Err ENOTDIR
      | Err e => Err e
      end
  end.

Lemma resolve_cons c q t :
  resolve (c :: q) t =
    match resolve q t with
    | Ok Dir => of_option ENOENT (t !! (c :: q))
    | Ok (File _ _) => Err ENOTDIR
    | Err e => Err e
    end.
Proof. done. Qed.

Lemma resolve_nil t : resolve [] t = Ok Dir.
Proof. done. Qed.

Arguments resolve : simpl never.

(** A system call: it fails without an effect when the script says so. *)
Definition syscall {A} (f : tree → result fs_err (A * tree)) : eff disk fs_err A := λ d,
  match faults d with
  | Some _ :: fs => (Err EIO, mkDisk (nodes d) fs (rands d))
  | fs =>
      match f (nodes d) with
      | Ok (a, t) => (Ok a, mkDisk t (tail fs) (rands d))
      | Err e => (Err e, mkDisk (nodes d) (tail fs) (rands d))
      end
  end.

(** A call whose failure may leave a part of its work done. *)
Definition partial_syscall {A} (f : tree → result fs_err (A * tree)) (part : fault → tree → tree) :
    eff disk fs_err A := λ d,
  match faults d with
  | Some x :: fs =>
      (Err EIO, mkDisk (if is_ok (f (nodes d)) then part x (nodes d) else nodes d) fs (rands d))
  | _ => syscall f d
  end.

(** [os.Stat] *)
Definition stat (p : path) : eff disk fs_err node :=
  syscall (λ t, n ← resolve p t; mret (n, t)).

(** [os.Open] for reading: the handle is the node. *)
Definition open : path → eff disk fs_err node := stat.

(** [os.ReadFile] *)
Definition read_file (p : path) : eff disk fs_err string :=
  syscall (λ t, n ← resolve p t;
    match n with Dir => Err EISDIR | File _ s => Ok (s, t) end).

(** [os.Mkdir] *)
Definition mkdir (p : path) : eff disk fs_err unit :=
  syscall (λ t,
    match resolve p t, resolve (dir p) t with
    | Ok _, _ => Err EEXIST
    | Err ENOENT, Ok Dir => Ok ((), <[p := Dir]> t)
    | Err e, _ => Err e
    end).

(** [os.MkdirAll] *)
Fixpoint mkdir_all (p : path) : eff disk fs_err unit :=
  r ← try (stat p);
  match r with
  | Ok Dir => mret ()
  | Ok (File _ _) => throw ENOTDIR
  | Err _ =>
      match p with [] => mret () | _ :: q => mkdir_all q end;;
      r ← try (mkdir p);
      match r with
      | Ok _ => mret ()
      | Err e =>
          r ← try (stat p);
          match r with Ok Dir => mret () | _ => throw e end
      end
  end.

(** [os.OpenFile] with [O_CREATE|O_EXCL|O_WRONLY]: creates an empty file. *)
Definition create_excl (p : path) (mode : N) : eff disk fs_err unit :=
  syscall (λ t,
    match resolve p t, resolve (dir p) t with
    | Ok _, _ => Err EEXIST
    | Err ENOENT, Ok Dir => Ok ((), <[p := File mode ""]> t)
    | Err e, _ => Err e
    end).

(** A write to a file this program created and has open; [n] bytes may be
    written before a failure. *)
Definition append_file (p : path) (s : string) (t : tree) : tree :=
  match t !! p with Some (File m old) => <[p := File m (old +:+ s)]> t | _ => t end.

Definition write (p : path) (s : string) : eff disk fs_err unit :=
  partial_syscall (λ t, Ok ((), append_file p s t))
    (λ x t, append_file p (str_take (written x) s) t).

(** [Close] and [Sync] of an open file. *)
Definition close (p : path) : eff disk fs_err unit := syscall (λ t, Ok ((), t)).
Definition sync (p : path) : eff disk fs_err unit := syscall (λ t, Ok ((), t)).

(** [os.Chmod] *)
Definition chmod (p : path) (mode : N) : eff disk fs_err unit :=
  syscall (λ t, n ← resolve p t;
    Ok ((), match n with Dir => t | File _ s => <[p := File mode s]> t end)).

(** No entry of the tree is in the directory. *)
Definition dir_empty (p : path) (t : tree) : bool :=
  bool_decide (map_Forall (λ q (_ : node), q = [] ∨ dir q ≠ p) t).

(** [os.Remove] *)
Definition remove (p : path) : eff disk fs_err unit :=
  syscall (λ t, n ← resolve p t;
    match n with
    | File _ _ => Ok ((), delete p t)
    | Dir => if bool_decide (p = []) || negb (dir_empty p t) then Err ENOTEMPTY
             else Ok ((), delete p t)
    end).

(** [os.RemoveAll]: everything below [p]; a failing one leaves some entries and
    the directories above them. *)
Definition below (p q : path) : bool := bool_decide (p `suffix_of` q).

Definition prune (p : path) (keep : path → bool) (t : tree) : tree :=
  filter (λ qn, negb (below p qn.1) = true ∨
    ¬ map_Forall (λ q (_ : node), (below qn.1 q && keep q) = false) t) t.

Definition remove_all (p : path) : eff disk fs_err unit :=
  partial_syscall (λ t,
    match resolve p t with
    | Ok _ => Ok ((), prune p (λ _, false) t)
    | Err ENOENT => Ok ((), t)
    | Err e => Err e
    end) (λ x t, prune p (kept x) t).

(** [os.Rename] of a file. *)
Definition rename (p q : path) : eff disk fs_err unit :=
  syscall (λ t, n ← resolve p t;
    match resolve q t, resolve (dir q) t with
    | Ok Dir, _ => Err EEXIST
    | Ok (File _ _), _ => Ok ((), <[q := n]> (delete p t))
    | Err ENOENT, Ok Dir => Ok ((), <[q := n]> (delete p t))
    | Err e, _ => Err e
    end).

(** [os.Link] of a file: the files of these stores are never changed after they
    are linked, so the link is a copy. *)
Definition link (p q : path) : eff disk fs_err unit :=
  syscall (λ t, n ← resolve p t;
    match resolve q t, resolve (dir q) t with
    | Ok _, _ => Err EEXIST
    | Err ENOENT, Ok Dir => Ok ((), <[q := n]> t)
    | Err e, _ => Err e
    end).

(** [os.CreateTemp(d, prefix + "*" + suffix)]: random names until one is free,
    10,000 attempts at most. *)
Definition next_rand : eff disk fs_err nat := λ d,
  (Ok (hd 0 (rands d)), mkDisk (nodes d) (faults d) (tail (rands d))).

Fixpoint create_temp_try (fuel : nat) (d : path) (prefix suffix : string) : eff disk fs_err path :=
  n ← next_rand;
  let p := (prefix +:+ pretty n +:+ suffix) :: d in
  r ← try (create_excl p 384);
  match r, fuel with
  | Ok _, _ => mret p
  | Err e, S fuel => if IsExist e then create_temp_try fuel d prefix suffix else throw e
  | Err e, 0 => throw e
  end.

Definition create_temp (d : path) (prefix suffix : string) : eff disk fs_err path :=
  if str_mem "/" (prefix +:+ suffix) then throw ErrPatternHasSeparator
  else create_temp_try (Z.to_nat 9999) d prefix suffix.

(** [os.WriteFile]: creates or truncates, writes, closes; an existing file must
    be writable by its owner. *)
Definition open_trunc (p : path) (mode : N) : eff disk fs_err unit :=
  syscall (λ t,
    match resolve p t, resolve (dir p) t with
    | Ok Dir, _ => Err EISDIR
    | Ok (File m _), _ =>
        if N.testbit m 7 then Ok ((), <[p := File m ""]> t) else Err EACCES
    | Err ENOENT, Ok Dir => Ok ((), <[p := File mode ""]> t)
    | Err e, _ => Err e
    end).

Definition write_file (p : path) (s : string) (mode : N) : eff disk fs_err unit :=
  open_trunc p mode;;
  r ← try (write p s);
  c ← try (close p);
  lift (match r with Ok _ => c | Err e => Err e end).

(** An [io.Reader]: the bytes it yields, and the error it ends with, if any. *)
Record Reader := mkReader { bytes : string; fails : bool }.

Inductive copy_err := CopyRead | CopyWrite (e : fs_err).

(** [io.Copy(f, body)] *)
Definition copy (p : path) (body : Reader) : eff disk copy_err Z :=
  wrap CopyWrite (write p (bytes body));;
  if fails body then throw CopyRead else mret (Z.of_nat (String.length (bytes body))).

(** The files below a directory, in the order of [filepath.Walk]: entries of a
    directory by name. *)
Fixpoint comps_le (p q : list string) : bool :=
  match p, q with
  | [], _ => true
  | _ :: _, [] => false
  | a :: p, b :: q => if bool_decide (a = b) then comps_le p q else String.leb a b
  end.

Definition walk_le (x y : path * node) : Prop := comps_le (reverse x.1) (reverse y.1) = true.

#[global] Instance walk_le_dec : RelDecision walk_le.
Proof. intros x y. unfold walk_le. apply _. Defined.

(** What [filepath.Walk] delivers before it ends, and whether it ended on an I/O
    error. *)
Definition walk_files (root : path) (t : tree) : list (path * node) :=
  merge_sort walk_le
    (map_to_list (filter (λ qn, below root qn.1 = true ∧ is_dir qn.2 = false) t)).

Definition walk {E} (root : path) : eff disk E (list (path * node) * option fs_err) := λ d,
  let files := walk_files root (nodes d) in
  match faults d, resolve root (nodes d) with
  | Some x :: fs, _ => (Ok (take (written x) files, Some EIO), mkDisk (nodes d) fs (rands d))
  | fs, Ok _ => (Ok (files, None), mkDisk (nodes d) (tail fs) (rands d))
  | fs, Err e => (Ok ([], Some e), mkDisk (nodes d) (tail fs) (rands d))
  end.

(** ** Reasoning: weakest preconditions *)

(** The visible state of a disk is its tree: the theorems hold whatever the random
    numbers are. *)
Definition quiet (b : bool) (d : disk) : Prop := b = false → Forall (.= None) (faults d).

#[global] Instance disk_faulty : Faulty disk tree := { view := nodes; calm := quiet }.

(** A weakest precondition at work on a disk. *)
Lemma wp_run {E A} (b : bool) (m : eff disk E A) (Q : result E A → tree → Prop) (d : disk) :
  wp b m Q (nodes d) → quiet b d → quiet b (m d).2 ∧ Q (m d).1 (nodes (m d).2).
Proof. intros Hm Hq. by apply Hm. Qed.

Section wp.
Context {b : bool}.
Implicit Types t : tree.

Lemma wp_syscall {A} (f : tree → result fs_err (A * tree)) Q t :
  (b = true → Q (Err EIO) t) →
  match f t with Ok (a, t') => Q (Ok a) t' | Err e => Q (Err e) t end →
  wp b (syscall f) Q t.
Proof.
  intros Hf HQ d <- Hq. unfold syscall, quiet in *. destruct d as [t [|[x|] fs] rs]; simpl in *.
  - destruct (f t) as [[a t']|e]; simpl; split; eauto.
  - split.
    + intros Hb. by apply Forall_cons in Hq as [_ ?].
    + apply Hf. destruct b; [done|]. specialize (Hq eq_refl). by inversion Hq.
  - assert (b = false → Forall (.= None) fs) as Hfs.
    { intros Hb. by apply Forall_cons in Hq as [_ ?]. }
    destruct (f t) as [[a t']|e]; simpl; split; eauto.
Qed.

Lemma wp_partial {A} (f : tree → result fs_err (A * tree)) part Q t :
  (b = true → Q (Err EIO) t) → (b = true → ∀ x, Q (Err EIO) (part x t)) →
  match f t with Ok (a, t') => Q (Ok a) t' | Err e => Q (Err e) t end →
  wp b (partial_syscall f part) Q t.
Proof.
  intros Hf Hp HQ d <- Hq. pose proof (wp_syscall f Q (nodes d) Hf HQ d eq_refl Hq) as Hs.
  unfold partial_syscall, quiet in *. destruct d as [t [|[x|] fs] rs]; simpl in *; try done.
  split; [by destruct (Hs)|]. destruct b.
  - destruct (is_ok (f t)); auto.
  - specialize (Hq eq_refl). by inversion Hq.
Qed.

Lemma wp_next_rand (Q : result fs_err nat → tree → Prop) t :
  (∀ n, Q (Ok n) t) → wp b next_rand Q t.
Proof. intros HQ d <- Hq. by split; simpl. Qed.
End wp.

(** ** Well-formed trees *)

(** Every entry's parent is a directory; the root has no entry. *)
Record wf (t : tree) : Prop := {
  wf_root : t !! [] = None;
  wf_parent c q n : t !! (c :: q) = Some n → q = [] ∨ t !! q = Some Dir;
}.

Lemma wf_empty : wf ∅.
Proof. split; intros *; by rewrite lookup_empty. Qed.

Lemma resolve_Some t p n : wf t → t !! p = Some n → resolve p t = Ok n.
Proof.
  intros Hwf. revert n. induction p as [|c q IH]; intros n Hn.
  - by rewrite (wf_root _ Hwf) in Hn.
  - rewrite resolve_cons. destruct (wf_parent _ Hwf _ _ _ Hn) as [->|Hq].
    + by rewrite resolve_nil, Hn.
    + rewrite (IH _ Hq). by rewrite Hn.
Qed.

Lemma resolve_Ok t p n : resolve p t = Ok n → (p = [] ∧ n = Dir) ∨ t !! p = Some n.
Proof.
  destruct p as [|c q]; rewrite ?resolve_cons, ?resolve_nil.
  - intros [= <-]. by left.
  - destruct (resolve q t) as [[|? ?]|?]; try done. destruct (t !! (c :: q)) eqn:E; [|done].
    simpl. intros [= <-]. by right.
Qed.

Lemma resolve_Err t p e : wf t → resolve p t = Err e → t !! p = None.
Proof.
  intros Hwf He. destruct (t !! p) eqn:E; [|done]. by rewrite (resolve_Some t p n) in He.
Qed.

Lemma resolve_Dir t p : wf t → resolve p t = Ok Dir ↔ p = [] ∨ t !! p = Some Dir.
Proof.
  intros Hwf. split.
  - intros [[-> _]|?]%resolve_Ok; auto.
  - intros [->|Hp]; [done|]. by apply resolve_Some.
Qed.

Lemma resolve_File t p m s : wf t → resolve p t = Ok (File m s) ↔ t !! p = Some (File m s).
Proof.
  intros Hwf. split; [|by apply resolve_Some]. by intros [[-> [=]]|?]%resolve_Ok.
Qed.

Lemma cons_neq {A} (x : A) (l : list A) : l ≠ x :: l.
Proof. intros Hl. apply (f_equal length) in Hl. simpl in Hl. lia. Qed.

(** A missing entry below a directory. *)
Lemma resolve_missing t c q :
  wf t → resolve q t = Ok Dir → t !! (c :: q) = None → resolve (c :: q) t = Err ENOENT.
Proof. intros Hwf Hq Hc. rewrite resolve_cons. by rewrite Hq, Hc. Qed.

Lemma resolve_errors t p e : resolve p t = Err e → e = ENOENT ∨ e = ENOTDIR.
Proof.
  induction p as [|c q IH]; rewrite ?resolve_cons, ?resolve_nil; [done|].
  destruct (resolve q t) as [[|]|e']; [|intros [= <-]; auto|auto].
  destruct (t !! (c :: q)); simpl; [done|]. intros [= <-]. auto.
Qed.

(** Nothing but directories on the way: a failed resolution is "not found". *)
Lemma resolve_no_files t p e :
  (∀ q m s, q `suffix_of` p → q ≠ p → t !! q ≠ Some (File m s)) →
  resolve p t = Err e → e = ENOENT.
Proof.
  revert e. induction p as [|c q IH]; intros e Hno; rewrite ?resolve_cons, ?resolve_nil; [done|].
  destruct (resolve q t) as [[|m s]|e'] eqn:Hq.
  - destruct (t !! (c :: q)); simpl; congruence.
  - apply resolve_Ok in Hq as [[-> [=]]|Hq]. exfalso. eapply (Hno q); [|apply cons_neq|exact Hq].
    by apply suffix_cons_r.
  - intros [= <-]. apply IH; [|done]. intros q' m s Hsuf Hne Hq'. eapply (Hno q'); [|  |exact Hq'].
    + by apply suffix_cons_r.
    + intros ->. apply suffix_length in Hsuf. simpl in Hsuf. lia.
Qed.

Lemma wf_insert_dir t p :
  wf t → p ≠ [] → resolve (dir p) t = Ok Dir → (t !! p = None ∨ t !! p = Some Dir) →
  wf (<[p := Dir]> t).
Proof.
  intros Hwf Hp Hd Hn. split.
  - rewrite lookup_insert_ne by done. apply Hwf.
  - intros c q n Hc. destruct (decide (q = p)) as [->|Hq].
    { right. apply lookup_insert_eq. }
    rewrite lookup_insert_ne by done. apply lookup_insert_Some in Hc as [[-> _]|[_ Hc]].
    + by apply resolve_Dir in Hd.
    + by eapply wf_parent.
Qed.

Lemma wf_insert_file t p m s :
  wf t → p ≠ [] → resolve (dir p) t = Ok Dir → t !! p ≠ Some Dir → wf (<[p := File m s]> t).
Proof.
  intros Hwf Hp Hd Hn. split.
  - rewrite lookup_insert_ne by done. apply Hwf.
  - intros c q n Hc. apply lookup_insert_Some in Hc as [[-> _]|[_ Hc]].
    + apply resolve_Dir in Hd as [?|Hd]; [by left|right|done].
      rewrite lookup_insert_ne; [done|]. simpl. apply not_eq_sym, cons_neq.
    + destruct (wf_parent _ Hwf _ _ _ Hc) as [?|Hq]; [by left|right].
      rewrite lookup_insert_ne; [done|]. by intros ->.
Qed.

Lemma wf_delete t p :
  wf t → (∀ c, t !! (c :: p) = None) → wf (delete p t).
Proof.
  intros Hwf Hno. split.
  - rewrite lookup_delete_None. right. apply Hwf.
  - intros c q n [_ Hc]%lookup_delete_Some.
    destruct (wf_parent _ Hwf _ _ _ Hc) as [?|Hq]; [by left|right].
    rewrite lookup_delete_ne; [done|]. intros ->. by rewrite Hno in Hc.
Qed.

Lemma wf_no_children t p m s c : wf t → t !! p = Some (File m s) → t !! (c :: p) = None.
Proof.
  intros Hwf Hp. destruct (t !! (c :: p)) eqn:E; [|done].
  destruct (wf_parent _ Hwf _ _ _ E) as [->|?]; [by rewrite (wf_root _ Hwf) in Hp|congruence].
Qed.

Lemma dir_empty_spec t p : wf t → dir_empty p t = true ↔ ∀ c, t !! (c :: p) = None.
Proof.
  intros Hwf. unfold dir_empty. rewrite bool_decide_eq_true. split.
  - intros Hall c. destruct (t !! (c :: p)) eqn:E; [|done].
    by destruct (Hall _ _ E) as [[=]|?].
  - intros Hno q n Hq. destruct q as [|c q]; [by left|right]. simpl. intros ->. by rewrite Hno in Hq.
Qed.

(** ** What each call does *)

Definition file_at (p : path) (t : tree) : option string :=
  match t !! p with Some (File _ s) => Some s | _ => None end.

(** No file on the way to the directory [d]. *)
Definition clear (d : path) (t : tree) : Prop := ∀ q, q `suffix_of` d → file_at q t = None.

Lemma resolve_clear p t e : clear (dir p) t → resolve p t = Err e → e = ENOENT.
Proof.
  intros Hc. destruct p as [|c d]; [done|]. rewrite resolve_cons. simpl dir in Hc.
  assert (∀ e', resolve d t = Err e' → e' = ENOENT) as Hd.
  { intros e'. apply resolve_no_files. intros q m s Hq _ Hf. specialize (Hc q Hq).
    unfold file_at in Hc. by rewrite Hf in Hc. }
  destruct (resolve d t) as [[|m s]|e'] eqn:He.
  - destruct (t !! _); simpl; congruence.
  - apply resolve_Ok in He as [[_ [=]]|He]. specialize (Hc d ltac:(done)).
    unfold file_at in Hc. by rewrite He in Hc.
  - intros [= <-]. by apply Hd.
Qed.

(** [t'] is [t] with some directories on the way to [p] added. *)
Definition grow (p : path) (t t' : tree) : Prop :=
  ∀ q, t' !! q = t !! q ∨ (t !! q = None ∧ t' !! q = Some Dir ∧ q `suffix_of` p).

Lemma grow_refl p t : grow p t t.
Proof. by left. Qed.

Lemma grow_trans p t1 t2 t3 : grow p t1 t2 → grow p t2 t3 → grow p t1 t3.
Proof.
  intros H1 H2 q. specialize (H1 q). destruct (H2 q) as [->|(Hn & -> & ?)]; [done|].
  rewrite Hn in H1. right. split; [|done]. by destruct H1 as [<-|(? & [=] & _)].
Qed.

Lemma grow_weaken p c t t' : grow p t t' → grow (c :: p) t t'.
Proof. intros Hg q. destruct (Hg q) as [?|(? & ? & ?)]; [by left|right]. eauto using suffix_cons_r. Qed.

Lemma grow_file p t t' q : grow p t t' → file_at q t' = file_at q t.
Proof. intros Hg. unfold file_at. destruct (Hg q) as [->|(-> & -> & _)]; done. Qed.

Lemma grow_Some p t t' q n : grow p t t' → t !! q = Some n → t' !! q = Some n.
Proof. intros Hg Hq. destruct (Hg q) as [->|(? & _)]; congruence. Qed.

Section ops.
Context {b : bool}.
Implicit Types t : tree.

Lemma wp_stat p Q t : (b = true → Q (Err EIO) t) → Q (resolve p t) t → wp b (stat p) Q t.
Proof.
  intros Hf HQ. apply wp_syscall; [done|]. by destruct (resolve p t) eqn:E; simpl.
Qed.

Lemma wp_mkdir p t :
  wf t → p ≠ [] →
  wp b (mkdir p) (λ r t', wf t' ∧ grow p t t' ∧
    match r with
    | Ok _ => resolve p t' = Ok Dir
    | Err e => t' = t ∧ (b = false → resolve (dir p) t = Ok Dir → ∃ n, resolve p t = Ok n)
    end) t.
Proof.
  intros Hwf Hp. apply wp_syscall.
  - intros ->. split; [done|]. split; [apply grow_refl|done].
  - destruct p as [|c q]; [done|]. simpl dir.
    destruct (resolve (c :: q) t) as [n|e] eqn:He; [by eauto 6 using grow_refl|].
    destruct (resolve q t) as [[|m s]|e'] eqn:Hq.
    + rewrite resolve_cons, Hq in He. destruct (t !! (c :: q)) eqn:E; [done|].
      injection He as <-. cbn beta iota.
      assert (wf (<[c :: q := Dir]> t)) as Hwf' by (apply wf_insert_dir; simpl; auto).
      split; [done|]. split.
      * intros q'. destruct (decide (q' = c :: q)) as [->|]; [|by rewrite lookup_insert_ne; auto].
        right. by rewrite lookup_insert_eq.
      * apply resolve_Some; [done|]. apply lookup_insert_eq.
    + by destruct e; (split; [done|]; split; [apply grow_refl|]; split; [done|]).
    + by destruct e; (split; [done|]; split; [apply grow_refl|]; split; [done|]).
Qed.

Lemma wp_mkdir_all p t :
  wf t →
  wp b (mkdir_all p) (λ r t', wf t' ∧ grow p t t' ∧
    (is_ok r = true → resolve p t' = Ok Dir) ∧
    (b = false → clear p t → is_ok r = true)) t.
Proof.
  revert t. induction p as [|c q IH]; intros t Hwf.
  { cbn [mkdir_all]. apply wp_bind, wp_try, wp_stat.
    - intros Hb. apply wp_bind, wp_ret, wp_bind, wp_try.
      apply wp_syscall; [|simpl]; intros; apply wp_bind, wp_try, wp_stat; intros;
        first [apply wp_ret|apply wp_throw]; (split; [done|]; split; [apply grow_refl|]; split; [done|]);
        by rewrite Hb.
    - apply wp_ret. by eauto using grow_refl. }
  assert (∀ r0 : result fs_err node, (∀ n, r0 ≠ Ok n) →
    (b = false → r0 = resolve (c :: q) t) →
    wp b (match r0 with
      | Ok Dir => mret ()
      | Ok (File _ _) => throw ENOTDIR
      | Err _ =>
          mkdir_all q;;
          r ← try (mkdir (c :: q));
          match r with
          | Ok _ => mret ()
          | Err e => r ← try (stat (c :: q)); match r with Ok Dir => mret () | _ => throw e end
          end
      end) (λ r t', wf t' ∧ grow (c :: q) t t' ∧
        (is_ok r = true → resolve (c :: q) t' = Ok Dir) ∧
        (b = false → clear (c :: q) t → is_ok r = true)) t)
    as Hgo.
  { intros [n|e0] Hr0 Hb0; [by destruct (Hr0 n)|]. apply wp_bind.
    eapply wp_mono; [by apply IH|]. simpl. intros [[]|e] t1 (Hwf1 & Hg1 & Hd1 & Hn1); simpl in *.
    2:{ split; [done|]. split; [by apply grow_weaken|]. split; [done|].
        intros Hb Hno. apply Hn1; [done|]. intros q' Hq'. by apply Hno, suffix_cons_r. }
    specialize (Hd1 eq_refl). apply wp_bind, wp_try.
    eapply wp_mono; [by apply wp_mkdir|]. simpl. intros [[]|e] t2 (Hwf2 & Hg2 & Hr2).
    { apply wp_ret. split; [done|]. split; [|done].
      eapply grow_trans; [by apply grow_weaken|done]. }
    destruct Hr2 as [-> Hr2]. assert (grow (c :: q) t t1) as Hg by by apply grow_weaken.
    apply wp_bind, wp_try, wp_stat.
    { intros Hb. apply wp_throw. split; [done|]. split; [done|]. split; [done|]. by rewrite Hb. }
    destruct (resolve (c :: q) t1) as [[|m s]|e'] eqn:He;
      [apply wp_ret; by auto|apply wp_throw..]; (split; [done|]; split; [done|]; split; [done|]).
    - intros Hb Hno. exfalso. apply resolve_File in He; [|done].
      specialize (Hno (c :: q) ltac:(done)). rewrite <- (grow_file _ _ _ _ Hg) in Hno.
      unfold file_at in Hno. by rewrite He in Hno.
    - intros Hb _. destruct (Hr2 Hb Hd1) as [n Hn]. congruence. }
  cbn [mkdir_all]. apply wp_bind, wp_try, wp_stat.
  - intros Hb. apply (Hgo (Err EIO)); [done|]. by rewrite Hb.
  - destruct (resolve (c :: q) t) as [[|m s]|e] eqn:He.
    + apply wp_ret. by eauto using grow_refl.
    + apply wp_throw. split; [done|]. split; [apply grow_refl|]. split; [done|].
      intros _ Hno. apply resolve_File in He; [|done]. specialize (Hno (c :: q) ltac:(done)).
      unfold file_at in Hno. by rewrite He in Hno.
    + by apply (Hgo (Err e)).
Qed.

Lemma wp_create_excl p mode t :
  wf t → p ≠ [] →
  wp b (create_excl p mode) (λ r t',
    match r with
    | Ok _ => t !! p = None ∧ resolve (dir p) t = Ok Dir ∧ t' = <[p := File mode ""]> t
    | Err e => t' = t ∧ (b = false → resolve (dir p) t = Ok Dir → e = EEXIST)
    end) t.
Proof.
  intros Hwf Hp. apply wp_syscall.
  - intros Hb. split; [done|]. by rewrite Hb.
  - destruct (resolve p t) as [n|e] eqn:He; [done|].
    pose proof (resolve_Err _ _ _ Hwf He). destruct p as [|c q]; [done|]. simpl dir in *.
    rewrite resolve_cons in He. destruct (resolve q t) as [[|m s]|e'].
    + destruct (t !! (c :: q)); [done|]. by injection He as <-.
    + by destruct e.
    + by destruct e.
Qed.

(** A fresh file in [d], or nothing. *)
Lemma wp_create_temp d prefix suffix t :
  wf t →
  wp b (create_temp d prefix suffix) (λ r t',
    match r with
    | Ok p => ∃ n : nat, p = (prefix +:+ pretty n +:+ suffix) :: d ∧ t !! p = None ∧
        resolve d t = Ok Dir ∧ t' = <[p := File 384 ""]> t
    | Err e => t' = t ∧ (b = false → resolve d t = Ok Dir →
        str_mem "/" (prefix +:+ suffix) = false → e = EEXIST)
    end) t.
Proof.
  intros Hwf. unfold create_temp. destruct (str_mem "/" _); [by apply wp_throw|].
  generalize (Z.to_nat 9999). intros fuel.
  induction fuel as [|fuel IH]; cbn [create_temp_try];
    apply wp_bind, wp_next_rand; intros n; apply wp_bind, wp_try;
    (eapply wp_mono; [by apply wp_create_excl|]); intros [[]|e] t'; simpl.
  - intros (? & ? & ->). apply wp_ret. eauto.
  - intros [-> ?]. apply wp_throw. auto.
  - intros (? & ? & ->). apply wp_ret. eauto.
  - intros [-> ?]. destruct (IsExist e); [done|]. apply wp_throw. auto.
Qed.

(** A write to an open file: a prefix of the data, all of it on success. *)
Lemma wp_write p x m s t :
  t !! p = Some (File m s) →
  wp b (write p x) (λ r t', ∃ s', t' = <[p := File m s']> t ∧
    (r = Ok () → s' = s +:+ x) ∧ (b = false → r = Ok ())) t.
Proof.
  intros Hp. apply wp_partial.
  - intros Hb. exists s. rewrite insert_id by done. split_and!; [done..|by rewrite Hb].
  - intros Hb y. unfold append_file. rewrite Hp. eexists. split_and!; [done..|by rewrite Hb].
  - unfold append_file. rewrite Hp. by eexists.
Qed.

(** [io.Copy] to an open file. *)
Lemma wp_copy p body m s t :
  t !! p = Some (File m s) →
  wp b (copy p body) (λ r t', ∃ s', t' = <[p := File m s']> t ∧
    (∀ n, r = Ok n → s' = s +:+ bytes body ∧ n = Z.of_nat (String.length (bytes body)) ∧
       fails body = false) ∧
    (b = false →
       r = if fails body then Err CopyRead else Ok (Z.of_nat (String.length (bytes body))))) t.
Proof.
  intros Hp. unfold copy. apply wp_bind, wp_wrap. eapply wp_mono; [by apply wp_write|].
  intros [[]|e] t' (s' & -> & Hok & Hq); simpl.
  - specialize (Hok eq_refl). destruct (fails body); [apply wp_throw|apply wp_ret];
      exists s'; split_and!; try done. by intros n [= <-].
  - exists s'. split_and!; [done..|]. intros Hb. by specialize (Hq Hb).
Qed.

Lemma wp_close p Q t :
  (b = true → Q (Err EIO) t) → Q (Ok ()) t → wp b (close p) Q t.
Proof. intros Hf HQ. by apply wp_syscall. Qed.

Lemma wp_sync p Q t :
  (b = true → Q (Err EIO) t) → Q (Ok ()) t → wp b (sync p) Q t.
Proof. intros Hf HQ. by apply wp_syscall. Qed.

(** [os.Chmod] keeps the content. *)
Lemma wp_chmod p mode m s t :
  wf t → t !! p = Some (File m s) →
  wp b (chmod p mode) (λ r t', wf t' ∧ (∃ m', t' = <[p := File m' s]> t) ∧
    (b = false → r = Ok ())) t.
Proof.
  intros Hwf Hp. apply wp_syscall.
  - intros Hb. split_and!; [done| |by rewrite Hb]. exists m. by rewrite insert_id.
  - rewrite (resolve_Some _ _ _ Hwf Hp). simpl. split_and!; [|by eauto|done].
    assert (p ≠ []) as Hne by (intros ->; by rewrite (wf_root _ Hwf) in Hp).
    apply wf_insert_file; [done..| |by rewrite Hp].
    destruct p as [|c q]; [done|]. apply resolve_Dir; [done|]. by eapply wf_parent.
Qed.

(** [os.Remove]: one entry, with nothing below it, or nothing. *)
Lemma wp_remove p t :
  wf t →
  wp b (remove p) (λ r t', wf t' ∧
    match r with
    | Ok _ => t' = delete p t ∧
        ∃ n, t !! p = Some n ∧ (n = Dir → ∀ c, t !! (c :: p) = None)
    | Err e => t' = t ∧ (e = ENOENT → t !! p = None) ∧
        (b = false → ∀ m s, t !! p ≠ Some (File m s)) ∧
        (b = false → t !! p = None → p ≠ [] → clear (dir p) t → e = ENOENT)
    end) t.
Proof.
  intros Hwf. apply wp_syscall.
  - intros Hb. rewrite Hb. by split_and!.
  - destruct (resolve p t) as [n|e] eqn:He; simpl.
    2:{ pose proof (resolve_Err _ _ _ Hwf He) as Hn. split_and!; try done.
        - intros _ m s. by rewrite Hn.
        - intros _ _ _ Hc. by eapply resolve_clear. }
    apply resolve_Ok in He as [[-> ->]|He].
    + rewrite bool_decide_true by done. simpl. split_and!; try done.
      intros _ m s. by rewrite (wf_root _ Hwf).
    + destruct n as [|m s].
      * destruct (bool_decide (p = []) || negb (dir_empty p t)) eqn:Hc; simpl.
        -- split_and!; try done; intros; congruence.
        -- bool_props. assert (∀ c, t !! (c :: p) = None) as Hno by by apply dir_empty_spec.
           split; [by apply wf_delete|]. eauto.
      * split; [apply wf_delete; [done|]; intros c; by eapply wf_no_children|].
        split; [done|]. by exists (File m s).
Qed.

(** [os.Rename] of a file over nothing or over a file. *)
Lemma wp_rename p q m s t :
  wf t → t !! p = Some (File m s) → p ≠ q → q ≠ [] →
  wp b (rename p q) (λ r t', wf t' ∧
    match r with
    | Ok _ => t' = <[q := File m s]> (delete p t) ∧ resolve (dir q) t = Ok Dir ∧ t !! q ≠ Some Dir
    | Err e => t' = t ∧ (b = false → resolve (dir q) t = Ok Dir → t !! q = Some Dir)
    end) t.
Proof.
  intros Hwf Hp Hpq Hq. apply wp_syscall.
  - intros Hb. rewrite Hb. by split_and!.
  - rewrite (resolve_Some _ _ _ Hwf Hp). simpl.
    assert (∀ e, resolve (dir q) t = Ok Dir → resolve q t = Err e → e = ENOENT) as Henoent.
    { intros e Hd He. destruct q as [|c q]; [done|]. simpl dir in Hd.
      rewrite resolve_cons, Hd in He. destruct (t !! (c :: q)); [done|]. by injection He as <-. }
    assert (resolve (dir q) t = Ok Dir → t !! q ≠ Some Dir → wf (<[q := File m s]> (delete p t))) as Hwf'.
    { intros Hd Hnd. assert (wf (delete p t)) as Hwfd.
      { apply wf_delete; [done|]. intros c. by eapply wf_no_children. }
      apply wf_insert_file; [done..| |by rewrite lookup_delete_ne].
      apply resolve_Dir; [done|]. apply resolve_Dir in Hd as [?|Hd]; [by left|right|done].
      rewrite lookup_delete_ne; [done|]. intros ->. congruence. }
    destruct (resolve q t) as [[|m' s']|e] eqn:He.
    + apply resolve_Dir in He as [?|He]; [done|by split_and!|done].
    + apply resolve_File in He; [|done].
      assert (resolve (dir q) t = Ok Dir) as Hd.
      { destruct q as [|c q]; [done|]. apply resolve_Dir; [done|]. by eapply wf_parent. }
      assert (t !! q ≠ Some Dir) by congruence. split_and!; auto.
    + assert (t !! q ≠ Some Dir) by by rewrite (resolve_Err _ _ _ Hwf He).
      destruct (resolve (dir q) t) as [[|]|] eqn:Hd.
      * rewrite (Henoent _ eq_refl eq_refl). split_and!; auto.
      * destruct e; by split_and!.
      * destruct e; by split_and!.
Qed.

Lemma below_spec p q : below p q = true ↔ p `suffix_of` q.
Proof. apply bool_decide_eq_true. Qed.

Lemma below_false p q : below p q = false ↔ ¬ p `suffix_of` q.
Proof. apply bool_decide_eq_false. Qed.

Lemma prune_outside p keep t q : below p q = false → prune p keep t !! q = t !! q.
Proof.
  intros Hb. unfold prune. rewrite map_lookup_filter. destruct (t !! q); [|done]. simpl.
  rewrite option_guard_True; [done|]. left. by rewrite Hb.
Qed.

Lemma prune_sub p keep t q n : prune p keep t !! q = Some n → t !! q = Some n.
Proof. unfold prune. intros [? _]%map_lookup_filter_Some. done. Qed.

Lemma prune_all p t q : below p q = true → prune p (λ _, false) t !! q = None.
Proof.
  intros Hb. unfold prune. apply map_lookup_filter_None. right. intros n _ [Hn|Hn]; simpl in *.
  - by rewrite Hb in Hn.
  - apply Hn. intros ? ? _. apply andb_false_r.
Qed.

Lemma wf_prune p keep t : wf t → wf (prune p keep t).
Proof.
  intros Hwf. split.
  - destruct (prune p keep t !! []) eqn:E; [|done]. apply prune_sub in E.
    by rewrite (wf_root _ Hwf) in E.
  - intros c q n Hc. pose proof (prune_sub _ _ _ _ _ Hc) as Ht.
    destruct (wf_parent _ Hwf _ _ _ Ht) as [?|Hq]; [by left|right].
    apply map_lookup_filter_Some. split; [done|]. simpl.
    apply map_lookup_filter_Some in Hc as [_ [Hb|Hk]]; simpl in *.
    + left. apply negb_true_iff, below_false. apply negb_true_iff, below_false in Hb.
      intros Hs. apply Hb. by apply suffix_cons_r.
    + right. intros Hall. apply Hk. intros q' n' Hq'. specialize (Hall q' n' Hq'). simpl in Hall.
      apply andb_false_iff in Hall as [Hall| ->]; [|apply andb_false_r].
      apply andb_false_iff. left. apply below_false in Hall. apply below_false.
      intros Hs. apply Hall. etrans; [|exact Hs]. by apply suffix_cons_r.
Qed.

(** A missing directory has nothing below it. *)
Lemma nothing_below t p q : wf t → p ≠ [] → t !! p = None → p `suffix_of` q → t !! q = None.
Proof.
  intros Hwf Hp Hn [k ->]. induction k as [|c k IH]; [done|].
  destruct (t !! ((c :: k) ++ p)) eqn:E; [|done].
  change ((c :: k) ++ p) with (c :: (k ++ p)) in E.
  destruct (wf_parent _ Hwf _ _ _ E) as [Hnil|Hd]; [|congruence].
  apply app_nil in Hnil as [_ ?]. congruence.
Qed.

Lemma wp_remove_all p t :
  wf t → p ≠ [] →
  wp b (remove_all p) (λ r t', wf t' ∧
    (∀ q, below p q = false → t' !! q = t !! q) ∧
    (∀ q n, t' !! q = Some n → t !! q = Some n) ∧
    (r = Ok () → ∀ q, below p q = true → t' !! q = None) ∧
    (b = false → clear (dir p) t → r = Ok ())) t.
Proof.
  intros Hwf Hp. apply wp_partial.
  - intros Hb. rewrite Hb. by split_and!.
  - intros Hb x. rewrite Hb. split_and!; try done; eauto using wf_prune, prune_outside, prune_sub.
  - destruct (resolve p t) as [n|e] eqn:He.
    + split_and!; eauto using wf_prune, prune_outside, prune_sub, prune_all.
    + destruct (decide (e = ENOENT)) as [->|Hne].
      * split_and!; try done. intros _ q Hq%below_spec.
        eapply nothing_below; eauto using resolve_Err.
      * destruct e; try done; split_and!; try done; intros _ Hc; exfalso; apply Hne;
          by eapply resolve_clear.
Qed.

(** [os.Link] of a file. *)
Lemma wp_link p q m s t :
  wf t → t !! p = Some (File m s) → q ≠ [] →
  wp b (link p q) (λ r t', wf t' ∧
    match r with
    | Ok _ => t' = <[q := File m s]> t ∧ resolve (dir q) t = Ok Dir ∧ t !! q = None
    | Err e => t' = t ∧ (IsExist e = true → is_Some (t !! q)) ∧
        (b = false → resolve (dir q) t = Ok Dir → is_Some (t !! q) ∧ e = EEXIST)
    end) t.
Proof.
  intros Hwf Hp Hq. apply wp_syscall.
  - intros Hb. rewrite Hb. by split_and!.
  - rewrite (resolve_Some _ _ _ Hwf Hp). simpl. destruct (resolve q t) as [n|e] eqn:He.
    + apply resolve_Ok in He as [[? _]|He]; [done|]. split_and!; eauto.
    + pose proof (resolve_Err _ _ _ Hwf He) as Hn. pose proof (resolve_errors _ _ _ He) as Hr.
      destruct (resolve (dir q) t) as [[|]|] eqn:Hd.
      * assert (e = ENOENT) as ->.
        { destruct q as [|c q]; [done|]. simpl dir in Hd. rewrite resolve_cons, Hd in He.
          destruct (t !! (c :: q)); [done|]. by injection He as <-. }
        split_and!; auto. apply wf_insert_file; try done. by rewrite Hn.
      * destruct Hr as [-> | ->]; by split_and!.
      * destruct Hr as [-> | ->]; by split_and!.
Qed.
End ops.
