(* ===== verification/LocalStore.v ===== *)
(** * Package [pkg/storage/local]: the store on the local file system

    Every method of [Store] on the file system of [FS]; then the promise of the
    [storage.NarStore] interface as a map from NAR names to contents, and the
    theorem that the methods implement it. *)
From S2P Require Import Prelude GoStd Nar FS.

Definition fileMode : N := 256.

Inductive store_err :=
  | ErrNotFound
  | ErrAlreadyExists
  | ErrInvalidArgument
  | ErrNar (e : nar_error)
  | ErrIO (e : fs_err)
  | ErrBody
  | ErrParse
  | ErrCallback (e : string)
  | ErrPathMustBeAbsolute
  | ErrPathMustExist
  | ErrPathMustBeADirectory
  | ErrPathMustBeWritable
  | PanicNilFileInfo.

#[global] Instance store_err_eq_dec : EqDecision store_err.
Proof. solve_decision. Defined.

Definition copy_error (e : copy_err) : store_err :=
  match e with CopyRead => ErrBody | CopyWrite e => ErrIO e end.

Notation io := (eff disk store_err).

Record Store := mkStore { root : path }.

(** ** Paths *)

Definition configPath (s : Store) : path := join_path (root s) "config".
Definition secretKeyPath (s : Store) : path := join_path (configPath s) "cache.key".
Definition storePath (s : Store) : path := join_path (root s) "store".
Definition storeNarInfoPath (s : Store) : path := join_path (storePath s) "narinfo".
Definition storeNarPath (s : Store) : path := join_path (storePath s) "nar".
Definition storeTMPPath (s : Store) : path := join_path (storePath s) "tmp".
Definition storeStagingPath (s : Store) : path := join_path (storePath s) "staging".

Arguments storeNarPath : simpl never.
Arguments storeTMPPath : simpl never.
Arguments storeStagingPath : simpl never.
Arguments storeNarInfoPath : simpl never.

Definition stagingPartDir (s : Store) (hash : string) : path := join_path (storeStagingPath s) hash.

(** [fmt.Sprintf("%0nd", i)] for a width at least that of the number. *)
Fixpoint zeros (n : nat) : string := match n with 0 => "" | S n => String "0" (zeros n) end.

Definition zero_pad (width : nat) (i : Z) : string :=
  let digits := pretty (Z.to_N (Z.abs i)) in
  if (i <? 0)%Z then "-" +:+ zeros (width - 1 - String.length digits) +:+ digits
  else zeros (width - String.length digits) +:+ digits.

Definition stagingPartPath (s : Store) (hash : string) (index : Z) : path :=
  join_path (stagingPartDir s hash) (zero_pad 20 index +:+ ".part").

(** ** Creation *)

Definition isWritable (p : path) : io bool :=
  r ← try (create_temp p "write_test" "");
  match r with
  | Err _ => mret false
  | Ok tmp => _ ← try (close tmp); _ ← try (remove tmp); mret true
  end.

(** [info] is nil after an error other than "does not exist". *)
Definition validatePath (p : string) : io unit :=
  if negb (has_prefix "/" p) then throw ErrPathMustBeAbsolute else
  r ← try (stat (join_path [] p));
  match r with
  | Err e => if IsNotExist e then throw ErrPathMustExist else throw PanicNilFileInfo
  | Ok (File _ _) => throw ErrPathMustBeADirectory
  | Ok Dir =>
      w ← isWritable (join_path [] p);
      if (w : bool) then mret () else throw ErrPathMustBeWritable
  end.

Definition EnsureDirWritable (d : path) : io unit :=
  tmp ← wrap ErrIO (create_temp d "boot_test" "");
  r ← try (close tmp);
  _ ← try (remove tmp);
  lift (map_err ErrIO r).

Definition setupDirs (s : Store) : io unit :=
  wrap ErrIO (mkdir_all (storePath s));;
  wrap ErrIO (mkdir_all (storeNarPath s));;
  wrap ErrIO (mkdir_all (storeTMPPath s));;
  EnsureDirWritable (storeTMPPath s).

Definition New (p : string) : io Store :=
  validatePath p;;
  let s := mkStore (join_path [] p) in
  setupDirs s;;
  mret s.

(** ** Removing the empty directories above a deleted file *)

(** [filepath.Rel(cat, cur)] starts with [".."] *)
Definition rel_dotdot (cat cur : path) : bool :=
  if below cat cur
  then match reverse (take (length cur - length cat) cur) with
       | [] => false
       | c :: _ => has_prefix ".." c
       end
  else true.

Fixpoint remove_up (cur cat : path) : io unit :=
  if rel_dotdot cat cur then mret () else
  r ← try (remove cur);
  match r with
  | Err _ => mret ()
  | Ok _ =>
      if bool_decide (cur = cat) then mret () else
      match cur with [] => mret () | _ :: up => remove_up up cat end
  end.

Definition removeEmptyParentDirs (filePath cat : path) : io unit := remove_up (dir filePath) cat.

(** ** NARs *)

(** The path of a NAR: normalized hash, then [ToFilePath]. *)
Definition narPath (s : Store) (u : URL) : result store_err path :=
  v ← map_err ErrNar (Normalize u);
  tfp ← map_err ErrNar (ToFilePath v);
  mret (join_path (storeNarPath s) tfp).

Definition StatNar (s : Store) (u : URL) : io bool :=
  p ← lift (narPath s u);
  r ← try (stat p);
  match r with
  | Ok _ => mret true
  | Err e => if IsNotExist e then mret false else throw (ErrIO e)
  end.

Definition HasNar (s : Store) (u : URL) : io bool :=
  r ← try (StatNar s u);
  mret (match r with Ok present => present | Err _ => false end).

(** The size is the file system's business for a directory. *)
Definition node_size (n : node) : option Z :=
  match n with File _ s => Some (Z.of_nat (String.length s)) | Dir => None end.

Definition GetNar (s : Store) (u : URL) : io (option Z * node) :=
  p ← lift (narPath s u);
  r ← try (stat p);
  match r with
  | Err e => if IsNotExist e then throw ErrNotFound else throw (ErrIO e)
  | Ok info =>
      nf ← wrap ErrIO (open p);
      mret (node_size info, nf)
  end.

(** The pattern's part after the asterisk. *)
Definition nar_suffix (u : URL) : string :=
  if bool_decide (Compression u = "") then ".nar" else ".nar" +:+ "." +:+ Compression u.

Definition PutNar (s : Store) (u : URL) (body : Reader) : io Z :=
  p ← lift (narPath s u);
  r ← try (stat p);
  match r with
  | Ok _ => throw ErrAlreadyExists
  | Err _ =>
      wrap ErrIO (mkdir_all (dir p));;
      f ← wrap ErrIO (create_temp (storeTMPPath s) (Hash u +:+ "-") (nar_suffix u));
      c ← try (copy f body);
      match c with
      | Err e => _ ← try (close f); _ ← try (remove f); throw (copy_error e)
      | Ok written =>
          r ← try (close f);
          match r with
          | Err e => throw (ErrIO e)
          | Ok _ =>
              r ← try (rename f p);
              match r with
              | Err e => throw (ErrIO e)
              | Ok _ => wrap ErrIO (chmod p fileMode);; mret written
              end
          end
      end
  end.

Definition DeleteNar (s : Store) (u : URL) : io unit :=
  p ← lift (narPath s u);
  r ← try (remove p);
  match r with
  | Err e => if IsNotExist e then throw ErrNotFound else throw (ErrIO e)
  | Ok _ => removeEmptyParentDirs p (storeNarPath s)
  end.

(** A walk's callback folds over an accumulator; it stops at its first error. *)
Fixpoint walk_fold {A B} (fn : A → B → result store_err A) (a : A) (l : list B) : result store_err A :=
  match l with [] => Ok a | x :: l => a' ← fn a x; walk_fold fn a' l end.

Definition walk_with {A} (r : path) (fn : A → path → result store_err A) (a : A) : io A :=
  st ← try (stat r);
  match st with
  | Err ENOENT => mret a
  | _ =>
      '(files, e) ← walk r;
      a ← lift (walk_fold fn a (fst <$> files));
      match e with Some e => throw (ErrIO e) | None => mret a end
  end.

Definition last_elem (p : path) : string := hd "/" p.

Definition WalkNars {A} (s : Store) (fn : A → URL → result store_err A) (a : A) : io A :=
  walk_with (storeNarPath s) (λ a p,
    match ParseURL (last_elem p) with Err _ => Ok a | Ok u => fn a u end) a.

(** ** Staging parts *)

Definition PutStagingPart (s : Store) (hash : string) (index : Z) (body : Reader) : io Z :=
  if (index <? 0)%Z then throw ErrInvalidArgument else
  let p := stagingPartPath s hash index in
  wrap ErrIO (mkdir_all (dir p));;
  f ← wrap ErrIO (create_temp (storeTMPPath s) (hash +:+ "-") ".part");
  c ← try (copy f body);
  match c with
  | Err e => _ ← try (close f); _ ← try (remove f); throw (copy_error e)
  | Ok written =>
      r ← try (close f);
      match r with
      | Err e => _ ← try (remove f); throw (ErrIO e)
      | Ok _ =>
          r ← try (rename f p);
          match r with
          | Err e => _ ← try (remove f); throw (ErrIO e)
          | Ok _ => wrap ErrIO (chmod p fileMode);; mret written
          end
      end
  end.

Definition GetStagingPart (s : Store) (hash : string) (index : Z) : io node :=
  r ← try (open (stagingPartPath s hash index));
  match r with
  | Ok f => mret f
  | Err e => if IsNotExist e then throw ErrNotFound else throw (ErrIO e)
  end.

Definition DeleteStagingParts (s : Store) (hash : string) : io unit :=
  wrap ErrIO (remove_all (stagingPartDir s hash)).

(** ** Narinfos and the secret key: their formats belong to the go-nix library *)

Section formats.
Context {NarInfo SecretKey : Type}.
Context (narinfo_parse : string → option NarInfo) (narinfo_string : NarInfo → string).
Context (key_load : string → option SecretKey) (key_string : SecretKey → string).

Definition narInfoPath (s : Store) (hash : string) : result store_err path :=
  nifP ← map_err ErrNar (NarinfoFilePath hash);
  mret (join_path (storeNarInfoPath s) nifP).

Definition HasNarInfo (s : Store) (hash : string) : io bool :=
  match narInfoPath s hash with
  | Err _ => mret false
  | Ok p => r ← try (stat p); mret (is_ok r)
  end.

Definition GetNarInfo (s : Store) (hash : string) : io NarInfo :=
  p ← lift (narInfoPath s hash);
  r ← try (open p);
  match r with
  | Err e => if IsNotExist e then throw ErrNotFound else throw (ErrIO e)
  | Ok _ =>
      text ← wrap ErrIO (read_file p);
      lift (of_option ErrParse (narinfo_parse text))
  end.

Definition PutNarInfo (s : Store) (hash : string) (ni : NarInfo) : io unit :=
  p ← lift (narInfoPath s hash);
  wrap ErrIO (mkdir_all (storeNarInfoPath s));;
  wrap ErrIO (mkdir_all (dir p));;
  r ← try (create_excl p fileMode);
  match r with
  | Err e => if IsExist e then throw ErrAlreadyExists else throw (ErrIO e)
  | Ok _ =>
      w ← try (write p (narinfo_string ni));
      _ ← try (close p);
      lift (map_err ErrIO w)
  end.

Definition DeleteNarInfo (s : Store) (hash : string) : io unit :=
  p ← lift (narInfoPath s hash);
  r ← try (remove p);
  match r with
  | Err e => if IsNotExist e then throw ErrNotFound else throw (ErrIO e)
  | Ok _ => removeEmptyParentDirs p (storeNarInfoPath s)
  end.

Definition WalkNarInfos {A} (s : Store) (fn : A → string → result store_err A) (a : A) : io A :=
  walk_with (storeNarInfoPath s) (λ a p,
    if bool_decide (ext (last_elem p) = ".narinfo")
    then fn a (trim_suffix ".narinfo" (last_elem p)) else Ok a) a.

Definition HasNarinfoDir (s : Store) : io bool :=
  r ← try (stat (storeNarInfoPath s));
  match r with
  | Ok _ => mret true
  | Err e => if IsNotExist e then mret false else throw (ErrIO e)
  end.

Definition GetSecretKey (s : Store) : io SecretKey :=
  r ← try (stat (secretKeyPath s));
  match r with
  | Err ENOENT => throw ErrNotFound
  | _ =>
      skc ← wrap ErrIO (read_file (secretKeyPath s));
      lift (of_option ErrParse (key_load skc))
  end.

Definition PutSecretKey (s : Store) (sk : SecretKey) : io unit :=
  wrap ErrIO (mkdir_all (configPath s));;
  r ← try (stat (secretKeyPath s));
  match r with
  | Ok _ => throw ErrAlreadyExists
  | Err _ => wrap ErrIO (write_file (secretKeyPath s) (key_string sk) fileMode)
  end.

Definition DeleteSecretKey (s : Store) : io unit :=
  r ← try (stat (secretKeyPath s));
  match r with
  | Err ENOENT => throw ErrNotFound
  | _ =>
      wrap ErrIO (remove (secretKeyPath s));;
      removeEmptyParentDirs (secretKeyPath s) (configPath s)
  end.
End formats.

(** ** Lemmas: paths *)

Section paths.
Context (s : Store).

Lemma storeNarPath_eq : storeNarPath s = "nar" :: "store" :: root s.
Proof. unfold storeNarPath, storePath. by rewrite !join_path_plain. Qed.

Lemma storeTMPPath_eq : storeTMPPath s = "tmp" :: "store" :: root s.
Proof. unfold storeTMPPath, storePath. by rewrite !join_path_plain. Qed.

Lemma storeStagingPath_eq : storeStagingPath s = "staging" :: "store" :: root s.
Proof. unfold storeStagingPath, storePath. by rewrite !join_path_plain. Qed.

Lemma Normalize_valid u v : Normalize u = Ok v → hash_match (Hash v) = true.
Proof.
  intros (_ & Hn & _)%Normalize_inv. unfold hash_match. by rewrite Hn.
Qed.

(** A NAR's key: its hash without prefix and its file extension. *)
Definition nar_key (u : URL) : result store_err (string * string) :=
  v ← map_err ErrNar (Normalize u);
  e ← map_err ErrNar (ToFileExtension (Compression v));
  mret (Hash v, e).

Definition valid_key (k : string * string) : bool :=
  hash_match k.1 && str_forall is_alnum k.2.

Definition key_path (k : string * string) : path :=
  nar_filename k.1 k.2 :: str_take 2 k.1 :: str_take 1 k.1 :: storeNarPath s.

Lemma nar_key_valid u k : nar_key u = Ok k → valid_key k = true.
Proof.
  unfold nar_key. intros Hk. apply bind_Ok_inv in Hk as (v & Hv%map_err_Ok & Hk).
  apply bind_Ok_inv in Hk as (e & He%map_err_Ok & [= <-]). unfold valid_key. simpl.
  rewrite (ext_alnum _ _ He), andb_true_r. by apply Normalize_valid in Hv.
Qed.

Lemma narPath_key u : narPath s u = key_path <$> nar_key u.
Proof.
  unfold narPath, nar_key. destruct (Normalize u) as [v|e] eqn:Hv; [|done]. simpl.
  unfold ToFilePath. destruct (ToFileExtension (Compression v)) as [e|e] eqn:He; [|done]. simpl.
  apply Normalize_valid in Hv as Hh. apply ext_alnum in He.
  destruct (NarFilePath_comps _ _ Hh He) as [-> Hp]. cbn [map_err].
  change (Ok (join_path (storeNarPath s) (join_with "/" (nar_comps (Hash v) e))) =@{result store_err path}
    Ok (key_path (Hash v, e))).
  by rewrite join_path_comps.
Qed.

Lemma narPath_Ok u k : nar_key u = Ok k → narPath s u = Ok (key_path k).
Proof. intros Hk. by rewrite narPath_key, Hk. Qed.

Lemma key_path_inj k1 k2 :
  valid_key k1 = true → valid_key k2 = true → key_path k1 = key_path k2 → k1 = k2.
Proof.
  unfold valid_key. destruct k1 as [h1 e1], k2 as [h2 e2]. simpl. intros ? ? [= Hn _ _].
  bool_props. by apply nar_filename_inj in Hn as [-> ->].
Qed.

Lemma key_path_length k : length (key_path k) = 5 + length (root s).
Proof. unfold key_path. by rewrite storeNarPath_eq. Qed.

Lemma key_path_nonempty k : key_path k ≠ [].
Proof. done. Qed.

(** The directories above a NAR, and those of the store's other parts. *)
Lemma above_key_length k q :
  q `suffix_of` dir (key_path k) → length q < 5 + length (root s).
Proof.
  intros Hq%suffix_length. unfold key_path, dir in Hq. simpl in Hq.
  lia.
Qed.

Lemma suffix_same_length {A} (l1 l2 l : list A) :
  l1 `suffix_of` l → l2 `suffix_of` l → length l1 = length l2 → l1 = l2.
Proof.
  intros [k1 ->] [k2 Heq] Hl. apply app_inj_2 in Heq; [by destruct Heq|done].
Qed.

(** Nothing in the temporary directory is on the way to a NAR. *)
Lemma not_tmp_below_nar k q : q `suffix_of` key_path k → dir q ≠ storeTMPPath s.
Proof.
  intros Hq Heq. assert (storeTMPPath s `suffix_of` key_path k) as Ht.
  { rewrite <- Heq. etrans; [|exact Hq]. destruct q; [done|]. by apply suffix_cons_r. }
  assert (storeNarPath s `suffix_of` key_path k) as Hn by (by do 3 apply suffix_cons_r).
  pose proof (suffix_same_length _ _ _ Ht Hn) as Heq'.
  rewrite storeNarPath_eq, storeTMPPath_eq in Heq'. by specialize (Heq' eq_refl).
Qed.

Lemma tmp_ne_key k n : n :: storeTMPPath s ≠ key_path k.
Proof. intros Heq. apply (not_tmp_below_nar k (n :: storeTMPPath s)); [by rewrite Heq|done]. Qed.

Lemma tmp_not_above k : ¬ storeTMPPath s `suffix_of` key_path k.
Proof.
  intros Ht. assert (storeNarPath s `suffix_of` key_path k) as Hn by (by do 3 apply suffix_cons_r).
  pose proof (suffix_same_length _ _ _ Ht Hn) as Heq'.
  rewrite storeNarPath_eq, storeTMPPath_eq in Heq'. by specialize (Heq' eq_refl).
Qed.

(** The temporary file's pattern has no separator. *)
Lemma nar_pattern u k :
  nar_key u = Ok k → str_mem "/" ((Hash u +:+ "-") +:+ nar_suffix u) = false.
Proof.
  unfold nar_key. intros Hk. apply bind_Ok_inv in Hk as (v & Hv%map_err_Ok & Hk).
  apply bind_Ok_inv in Hk as (e & He%map_err_Ok & _).
  assert (hash_match (Hash u) = true) as Hh by by rewrite <- Normalize_ok, Hv.
  assert (Compression v = Compression u) as Hc by (apply Normalize_inv in Hv as [-> _]; done).
  rewrite Hc in He. rewrite !str_mem_app, (hash_no "/" _ Hh) by done. simpl.
  unfold nar_suffix. case_bool_decide; [done|]. rewrite !str_mem_app.
  apply ToFileExtension_cases in He as [[_ [-> | ->]]|He]; [done..|].
  unfold extension_table in He.
  repeat (apply elem_of_cons in He as [[= -> _]|He]; [done|]). by apply elem_of_nil in He.
Qed.
End paths.

(** ** Lemmas: the path of a staging part *)

Lemma zeros_no_slash n : str_mem "/" (zeros n) = false.
Proof. by induction n. Qed.

Lemma pretty_N_no_slash (n : N) : str_mem "/" (pretty n) = false.
Proof. by apply format_uint_no. Qed.

Lemma part_name_plain i : plain (zero_pad 20 i +:+ ".part") = true.
Proof.
  assert (∀ s, str_mem "/" s = false → plain (s +:+ ".part") = true) as Hp.
  { intros s Hs. unfold plain. rewrite str_mem_app, Hs. simpl.
    rewrite !bool_decide_false; [done|..]; intros Heq;
      apply (f_equal String.length) in Heq; rewrite str_length_app in Heq; simpl in Heq; lia. }
  apply Hp. unfold zero_pad. case_match; rewrite !str_mem_app, zeros_no_slash, pretty_N_no_slash; done.
Qed.

Lemma zeros_value n s : digits_val 0 (zeros n +:+ s) = digits_val 0 s.
Proof. induction n as [|n IH]; [done|]. cbn [zeros]. rewrite str_app_cons. exact IH. Qed.

Lemma zero_pad_inj w i j : (0 ≤ i)%Z → (0 ≤ j)%Z → zero_pad w i = zero_pad w j → i = j.
Proof.
  intros Hi Hj. unfold zero_pad. rewrite !(proj2 (Z.ltb_ge _ _)) by done.
  intros Heq. apply (f_equal (digits_val 0)) in Heq. rewrite !zeros_value in Heq.
  change (pretty ?n) with (format_uint n) in Heq. rewrite !format_uint_value in Heq.
  injection Heq. lia.
Qed.

Lemma part_path_eq s hash i :
  plain hash = true →
  stagingPartPath s hash i = (zero_pad 20 i +:+ ".part") :: hash :: storeStagingPath s.
Proof.
  intros Hh. unfold stagingPartPath, stagingPartDir.
  by rewrite (join_path_plain _ hash), join_path_plain by eauto using part_name_plain.
Qed.

(** ** Lemmas: storing through a temporary file *)

(** What a write through a temporary file in [tmp] can leave: the directories on
    the way to [p], and then nothing more, or a leftover temporary file, or the
    whole content at [p] — never a part of it. *)
Inductive put_outcome (tmp p : path) (data : string) (t : tree) : bool → tree → Prop :=
  | put_nothing t0 : wf t0 → grow (dir p) t t0 → put_outcome tmp p data t false t0
  | put_leftover t0 n s m :
      wf t0 → grow (dir p) t t0 → t0 !! (n :: tmp) = None → wf (<[n :: tmp := File m s]> t0) →
      put_outcome tmp p data t false (<[n :: tmp := File m s]> t0)
  | put_stored t0 m :
      wf t0 → grow (dir p) t t0 → wf (<[p := File m data]> t0) →
      put_outcome tmp p data t true (<[p := File m data]> t0).

Lemma put_outcome_wf tmp p data t st t' : put_outcome tmp p data t st t' → wf t'.
Proof. by destruct 1. Qed.

Lemma put_outcome_file tmp p data t st t' q :
  put_outcome tmp p data t st t' → dir q ≠ tmp → q ≠ p → file_at q t' = file_at q t.
Proof.
  intros Ho Hq Hqp. destruct Ho as [t0 _ Hg|t0 n s m _ Hg _|t0 m _ Hg _].
  - by eapply grow_file.
  - rewrite <- (grow_file _ _ _ q Hg). unfold file_at. rewrite lookup_insert_ne; [done|].
    by intros <-.
  - rewrite <- (grow_file _ _ _ q Hg). unfold file_at. by rewrite lookup_insert_ne.
Qed.

Lemma put_outcome_dir tmp p data t st t' q :
  put_outcome tmp p data t st t' → dir q ≠ tmp → q ≠ p → t' !! q = Some Dir →
  t !! q = Some Dir ∨ q `suffix_of` dir p.
Proof.
  intros Ho Hq Hqp. destruct Ho as [t0 _ Hg|t0 n s m _ Hg _|t0 m _ Hg _].
  - destruct (Hg q) as [->|(? & ? & ?)]; auto.
  - rewrite lookup_insert_ne by (by intros <-). destruct (Hg q) as [->|(? & ? & ?)]; auto.
  - rewrite lookup_insert_ne by done. destruct (Hg q) as [->|(? & ? & ?)]; auto.
Qed.

Lemma put_outcome_Dir tmp p data t st t' q :
  put_outcome tmp p data t st t' → dir q ≠ tmp → q ≠ p → t !! q = Some Dir → t' !! q = Some Dir.
Proof.
  intros Ho Hq Hqp Hd. destruct Ho as [t0 _ Hg|t0 n s m _ Hg _|t0 m _ Hg _].
  - by eapply grow_Some.
  - rewrite lookup_insert_ne by (by intros <-). by eapply grow_Some.
  - rewrite lookup_insert_ne by done. by eapply grow_Some.
Qed.

Lemma put_outcome_at tmp p data t st t' :
  put_outcome tmp p data t st t' → dir p ≠ tmp →
  file_at p t' = if st then Some data else file_at p t.
Proof.
  intros Ho Hp. destruct Ho as [t0 _ Hg|t0 n s m _ Hg _|t0 m _ Hg _].
  - by eapply grow_file.
  - rewrite <- (grow_file _ _ _ p Hg). unfold file_at. rewrite lookup_insert_ne; [done|].
    by intros <-.
  - unfold file_at. by rewrite lookup_insert_eq.
Qed.

Lemma put_outcome_absent tmp p data t t' :
  put_outcome tmp p data t false t' → p ≠ [] → dir p ≠ tmp → t !! p = None → t' !! p = None.
Proof.
  intros Ho Hne Hp Hn. assert (∀ t0, grow (dir p) t t0 → t0 !! p = None) as Hg0.
  { intros t0 Hg. destruct (Hg p) as [->|(_ & _ & Hs)]; [done|].
    destruct p; [done|]. apply suffix_length in Hs. simpl in Hs. lia. }
  inversion Ho as [t0 _ Hg|t0 n s m _ Hg _|]; subst; [by apply Hg0|].
  rewrite lookup_insert_ne; [by apply Hg0|]. intros <-. by destruct Hp.
Qed.

(** The result a write through a temporary file gives without faults. *)
Definition quiet_put (body : Reader) (st : bool) (r : result store_err Z) : Prop :=
  (if fails body then r = Err ErrBody ∧ st = false
   else r = Ok (Z.of_nat (String.length (bytes body))) ∧ st = true) ∨
  (r = Err (ErrIO EEXIST) ∧ st = false).

Definition put_post (b : bool) (tmp p : path) (t : tree) (body : Reader)
    (r : result store_err Z) (t' : tree) : Prop :=
  ∃ st, put_outcome tmp p (bytes body) t st t' ∧
    (st = true → fails body = false) ∧ r ≠ Err ErrAlreadyExists ∧
    (∀ n, r = Ok n → st = true ∧ n = Z.of_nat (String.length (bytes body))) ∧
    (b = false → resolve tmp t = Ok Dir → t !! p = None →
       clear (dir p) t → quiet_put body st r).

Section put.
Context {b : bool}.
Implicit Types t : tree.

(** The tail shared by [PutNar] and [PutStagingPart]: from the open temporary
    file with its whole content to the final name; [cl] is what a failed
    [close] or [rename] does. *)
Lemma wp_finish tmp p n body t t0 (cl : fs_err → io Z) m :
  wf t0 → grow (dir p) t t0 → p ≠ [] → p ≠ n :: tmp → fails body = false →
  t0 !! (n :: tmp) = None → wf (<[n :: tmp := File m (bytes body)]> t0) →
  resolve (dir p) t0 = Ok Dir →
  let ok := Z.of_nat (String.length (bytes body)) in
  let f := n :: tmp in
  (∀ e t1, t1 = <[f := File m (bytes body)]> t0 →
     wp b (cl e) (λ r t', is_ok r = false ∧ r ≠ Err ErrAlreadyExists ∧ (t' = t1 ∨ t' = t0)) t1) →
  wp b (r ← try (close f);
        match r with
        | Err e => cl e
        | Ok _ =>
            r ← try (rename f p);
            match r with
            | Err e => cl e
            | Ok _ => wrap ErrIO (chmod p fileMode);; mret ok
            end
        end) (put_post b tmp p t body) (<[f := File m (bytes body)]> t0).
Proof.
  intros Hwf Hg Hp Hpf Hb Hf Hwff Hdp ok f Hcl.
  assert (∀ e, (b = false → resolve tmp t = Ok Dir → t !! p = None → False) →
    wp b (cl e) (put_post b tmp p t body) (<[f := File m (bytes body)]> t0)) as Hfail.
  { intros e Hno. eapply wp_mono; [by apply Hcl|]. intros r t' (Hr & Hne & Ht').
    exists false. split; [|split; [done|split; [done|split]]].
    - destruct Ht' as [-> | ->]; [by apply put_leftover|by apply put_nothing].
    - by intros n' ->.
    - intros. by destruct Hno. }
  apply wp_bind, wp_try, wp_close.
  { intros Hbt. apply Hfail. by rewrite Hbt. }
  apply wp_bind, wp_try. eapply wp_mono.
  { apply (wp_rename f p m (bytes body)); [done|by rewrite lookup_insert_eq|by apply not_eq_sym|done]. }
  intros [[]|e] t1 (Hwf1 & Hr1).
  - destruct Hr1 as (-> & _ & _). rewrite delete_insert_id in * by done.
    apply wp_bind, wp_wrap.
    eapply wp_mono; [eapply wp_chmod; [done|by rewrite lookup_insert_eq]|].
    intros r2 t2 (Hwf2 & [m' ->] & Hq2). rewrite insert_insert_eq in *.
    assert (put_outcome tmp p (bytes body) t true (<[p := File m' (bytes body)]> t0)) as Ho.
    { by apply put_stored. }
    destruct r2 as [[]|e2]; simpl.
    + apply wp_ret. exists true. split_and!; [done..| |].
      * by intros ? [= <-].
      * intros _ _ _ _. left. by rewrite Hb.
    + exists true. split_and!; [done..|]. intros Hbf. by specialize (Hq2 Hbf).
  - destruct Hr1 as (-> & Hq). apply Hfail. intros Hbf Htmp Hpn. specialize (Hq Hbf).
    rewrite lookup_insert_ne in Hq by (by apply not_eq_sym).
    assert (resolve (dir p) (<[f := File m (bytes body)]> t0) = Ok Dir) as Hd.
    { apply resolve_Dir; [done|]. apply resolve_Dir in Hdp as [?|Hdp]; [by left|right|done].
      rewrite lookup_insert_ne; [done|]. intros Heq. subst f. congruence. }
    specialize (Hq Hd). destruct (Hg p) as [Hgp|(_ & _ & Hs)]; [congruence|].
    destruct p as [|c p]; [done|]. apply suffix_length in Hs. simpl in Hs. lia.
Qed.

(** The head they share, for any continuation [K] of a complete copy. *)
Lemma wp_put tmp p pre suf body t (K : path → Z → io Z) :
  wf t → p ≠ [] → dir p ≠ tmp → str_mem "/" (pre +:+ suf) = false →
  (∀ n m t0, wf t0 → grow (dir p) t t0 → p ≠ n :: tmp → fails body = false →
     t0 !! (n :: tmp) = None → wf (<[n :: tmp := File m (bytes body)]> t0) →
     resolve (dir p) t0 = Ok Dir →
     wp b (K (n :: tmp) (Z.of_nat (String.length (bytes body)))) (put_post b tmp p t body)
       (<[n :: tmp := File m (bytes body)]> t0)) →
  wp b (wrap ErrIO (mkdir_all (dir p));;
        f ← wrap ErrIO (create_temp tmp pre suf);
        c ← try (copy f body);
        match c with
        | Err e => _ ← try (close f); _ ← try (remove f); throw (copy_error e)
        | Ok written => K f written
        end) (put_post b tmp p t body) t.
Proof.
  intros Hwf Hp Hpt Hslash HK. apply wp_bind, wp_wrap.
  eapply wp_mono; [by apply wp_mkdir_all|]. intros r t0 (Hwf0 & Hg & Hok & Hq).
  assert (∀ e, e ≠ ErrAlreadyExists → (b = false → resolve tmp t = Ok Dir →
    clear (dir p) t → e = ErrIO EEXIST) →
    put_post b tmp p t body (Err e) t0) as Hnothing.
  { intros e Hne He. exists false. split_and!; [by apply put_nothing|done|congruence|done|].
    intros Hb Htmp _ Hno. right. by rewrite He. }
  destruct r as [[]|e]; cbn [map_err].
  2:{ apply Hnothing; [done|]. intros Hb _ Hno. by specialize (Hq Hb Hno). }
  specialize (Hok eq_refl). apply wp_bind, wp_wrap.
  eapply wp_mono; [by apply wp_create_temp|]. intros [f|e] t1; cbn [map_err].
  2:{ intros [-> He]. apply Hnothing; [done|]. intros Hb Htmp _. f_equal. apply He; [done| |done].
      apply resolve_Dir; [done|]. apply resolve_Dir in Htmp as [?|Htmp]; [by left|right|done].
      by eapply grow_Some. }
  intros (n & -> & Hf & Htmp & ->). set (f := _ :: tmp) in *.
  assert (∀ s m, wf (<[f := File m s]> t0)) as Hwff.
  { intros s m. apply wf_insert_file; [done..|]. by rewrite Hf. }
  assert (p ≠ f) as Hpf by (intros ->; by destruct Hpt).
  apply wp_bind, wp_try. eapply wp_mono; [apply (wp_copy f body 384 ""); by rewrite lookup_insert_eq|].
  intros c t1 (s & -> & Hc & Hqc). rewrite insert_insert_eq. destruct c as [written|e].
  - destruct (Hc _ eq_refl) as (-> & -> & Hfb). by apply HK.
  - assert (∀ t1, t1 = <[f := File 384 s]> t0 ∨ t1 = t0 →
      put_post b tmp p t body (Err (copy_error e)) t1) as Hleft.
    { intros t1 Ht1. exists false.
      split; [destruct Ht1 as [-> | ->]; [by apply put_leftover|by apply put_nothing]|].
      split_and!; [done|by destruct e|done|]. intros Hb _ _ _. left.
      specialize (Hqc Hb). destruct (fails body); [|done]. by injection Hqc as ->. }
    apply wp_bind, wp_try, wp_close; intros;
      (apply wp_bind, wp_try; eapply wp_mono; [by apply wp_remove|];
       intros [[]|e'] t1 [_ Hr]; apply wp_throw, Hleft; destruct Hr as [-> _];
       [right; by rewrite delete_insert_id | by left]).
Qed.

Lemma wp_local_PutNar s u body t k :
  wf t → nar_key u = Ok k →
  wp b (PutNar s u body) (λ r t',
    (r = Err ErrAlreadyExists ∧ t' = t ∧ is_Some (t !! key_path s k)) ∨
    (put_post b (storeTMPPath s) (key_path s k) t body r t' ∧
     (b = false → t !! key_path s k = None))) t.
Proof.
  intros Hwf Hk. unfold PutNar. apply wp_bind, wp_lift. rewrite (narPath_Ok s u k Hk).
  pose proof (nar_pattern u k Hk) as Hpat. pose proof (tmp_ne_key s k) as Htmp.
  assert (dir (key_path s k) ≠ storeTMPPath s) as Hdir.
  { by apply (not_tmp_below_nar s k (key_path s k)). }
  set (p := key_path s k) in *.
  assert (∀ e, (b = false → t !! p = None) →
    wp b (match (Err e : result fs_err node) with
      | Ok _ => throw ErrAlreadyExists
      | Err _ =>
          wrap ErrIO (mkdir_all (dir p));;
          f ← wrap ErrIO (create_temp (storeTMPPath s) (Hash u +:+ "-") (nar_suffix u));
          c ← try (copy f body);
          match c with
          | Err e => _ ← try (close f); _ ← try (remove f); throw (copy_error e)
          | Ok written =>
              r ← try (close f);
              match r with
              | Err e => throw (ErrIO e)
              | Ok _ =>
                  r ← try (rename f p);
                  match r with
                  | Err e => throw (ErrIO e)
                  | Ok _ => wrap ErrIO (chmod p fileMode);; mret written
                  end
              end
          end
      end) (λ r t', (r = Err ErrAlreadyExists ∧ t' = t ∧ is_Some (t !! p)) ∨
        (put_post b (storeTMPPath s) p t body r t' ∧ (b = false → t !! p = None))) t) as Hgo.
  { intros e Hn. eapply wp_mono; [apply (wp_put (storeTMPPath s) p); try done|by right; split].
    intros n m t0 Hwf0 Hg Hpn Hb Hf Hwff Hd. apply wp_finish; try done.
    intros e' t1 Ht1. apply wp_throw. auto. }
  apply wp_bind, wp_try, wp_stat.
  - intros Hb. apply (Hgo EIO). by rewrite Hb.
  - destruct (resolve p t) as [n|e] eqn:He.
    + apply wp_throw. left. split; [done|]. split; [done|].
      apply resolve_Ok in He as [[? _]|He]; [done|by eauto].
    + apply (Hgo e). intros _. by eapply resolve_Err.
Qed.

Lemma wp_PutStagingPart s hash index body t :
  wf t → (0 ≤ index)%Z → plain hash = true →
  wp b (PutStagingPart s hash index body)
    (put_post b (storeTMPPath s) (stagingPartPath s hash index) t body) t.
Proof.
  intros Hwf Hi Hh. unfold PutStagingPart. rewrite (proj2 (Z.ltb_ge _ _)) by done.
  rewrite part_path_eq by done. apply (wp_put (storeTMPPath s)); try done.
  - unfold plain in Hh. bool_props. rewrite !str_mem_app. by destruct (str_mem "/" hash).
  - intros n m t0 Hwf0 Hg Hpn Hb Hf Hwff Hd. apply wp_finish; try done.
    intros e t1 ->. apply wp_bind, wp_try. eapply wp_mono; [by apply wp_remove|].
    intros [[]|e'] t1 [_ Hr]; apply wp_throw; destruct Hr as [-> _]; split_and!; auto.
    right. by rewrite delete_insert_id.
Qed.
End put.

(** ** Lemmas: deleting *)

(** [t'] is [t] with some directories at or below [cat] removed. *)
Definition shrink (cat : path) (t t' : tree) : Prop :=
  ∀ q, t' !! q = t !! q ∨ (t !! q = Some Dir ∧ t' !! q = None ∧ cat `suffix_of` q).

Lemma shrink_refl cat t : shrink cat t t.
Proof. by left. Qed.

Lemma shrink_file cat t t' q : shrink cat t t' → file_at q t' = file_at q t.
Proof. intros Hs. unfold file_at. destruct (Hs q) as [->|(-> & -> & _)]; done. Qed.

Lemma rel_inside cat cur : rel_dotdot cat cur = false → cat `suffix_of` cur.
Proof.
  unfold rel_dotdot. destruct (below cat cur) eqn:Hb; [|done]. by apply below_spec in Hb.
Qed.

Section delete.
Context {b : bool}.
Implicit Types t : tree.

Lemma wp_remove_up cur cat t :
  wf t → resolve cur t = Ok Dir →
  wp b (remove_up cur cat) (λ r t', r = Ok () ∧ wf t' ∧ shrink cat t t') t.
Proof.
  revert t. induction cur as [|c up IH]; intros t Hwf Hd; cbn [remove_up].
  - destruct (rel_dotdot cat []); [apply wp_ret; by auto using shrink_refl|].
    apply wp_bind, wp_try. eapply wp_mono; [by apply wp_remove|].
    intros [[]|e] t' [Hwf' Hr]; [|destruct Hr as [-> _]; apply wp_ret; by auto using shrink_refl].
    destruct Hr as (_ & n & Hn & _). by rewrite (wf_root _ Hwf) in Hn.
  - destruct (rel_dotdot cat (c :: up)) eqn:Hrel; [apply wp_ret; by auto using shrink_refl|].
    apply rel_inside in Hrel.
    apply wp_bind, wp_try. eapply wp_mono; [by apply wp_remove|].
    intros [[]|e] t' [Hwf' Hr]; [|destruct Hr as [-> _]; apply wp_ret; by auto using shrink_refl].
    destruct Hr as (-> & n & Hn & Hno). apply resolve_Dir in Hd as [?|Hd]; [done| |done].
    assert (shrink cat t (delete (c :: up) t)) as Hs.
    { intros q. destruct (decide (q = c :: up)) as [->|]; [|by rewrite lookup_delete_ne; auto].
      right. by rewrite lookup_delete_eq. }
    case_bool_decide; [by apply wp_ret|].
    assert (resolve up (delete (c :: up) t) = Ok Dir) as Hup.
    { apply resolve_Dir; [done|]. destruct (wf_parent _ Hwf _ _ _ Hd) as [?|?]; [by left|right].
      rewrite lookup_delete_ne; [done|]. intros Heq. by apply (cons_neq c up). }
    eapply wp_mono; [by apply IH|]. intros r t' (-> & Hwf2 & Hs2). split_and!; [done..|].
    intros q. destruct (Hs2 q) as [->|(Hq & -> & ?)]; [done|].
    destruct (Hs q) as [Heq|(_ & Heq & _)]; [|congruence]. right. split; [congruence|done].
Qed.

(** Deleting a NAR removes its file, and only empty directories of the NAR tree. *)
Lemma wp_local_DeleteNar s u t k :
  wf t → nar_key u = Ok k →
  wp b (DeleteNar s u) (λ r t', wf t' ∧
    let p := key_path s k in
    match r with
    | Ok _ => (∃ n, t !! p = Some n) ∧ shrink (storeNarPath s) (delete p t) t'
    | Err e => t' = t ∧ (e = ErrNotFound → t !! p = None) ∧
        (b = false → file_at p t = None)
    end ∧ (b = false → t !! p = None → clear (dir p) t →
      r = Err ErrNotFound)) t.
Proof.
  intros Hwf Hk. unfold DeleteNar. apply wp_bind, wp_lift. rewrite (narPath_Ok s u k Hk).
  pose proof (key_path_nonempty s k) as Hne. set (p := key_path s k) in *. clearbody p.
  apply wp_bind, wp_try. eapply wp_mono; [by apply wp_remove|].
  intros [[]|e] t' [Hwf' Hr].
  - destruct Hr as (-> & n & Hn & Hno). unfold removeEmptyParentDirs.
    assert (resolve (dir p) (delete p t) = Ok Dir) as Hd.
    { apply resolve_Dir; [done|]. destruct p as [|c q]; [done|].
      destruct (wf_parent _ Hwf _ _ _ Hn) as [?|?]; [by left|right].
      rewrite lookup_delete_ne; [done|]. apply not_eq_sym, cons_neq. }
    eapply wp_mono; [by apply wp_remove_up|]. intros r t' (-> & Hwf2 & Hs).
    split; [done|]. split; [by eauto|]. intros _ Hp. congruence.
  - destruct Hr as (-> & Hnf & Hfile & Hno). destruct (IsNotExist e) eqn:He; apply wp_throw.
    + apply bool_decide_eq_true in He. split; [done|]. split_and!; [by auto..| |done].
      intros _. unfold file_at. by rewrite Hnf.
    + split; [done|]. split_and!; [done..| |].
      * intros Hb. unfold file_at. destruct (t !! p) as [[|m x]|] eqn:Hp; try done.
        by destruct (Hfile Hb m x).
      * intros Hb Hp Hc. apply bool_decide_eq_false in He. by destruct He; apply Hno.
Qed.
End delete.

(** ** The promise of [storage.NarStore] *)

(** A store is a map from NAR keys to contents. *)
Abbreviation nars := (gmap (string * string) string).

Inductive nar_op :=
  | OStat (u : URL)
  | OGet (u : URL)
  | OPut (u : URL) (body : Reader)
  | ODelete (u : URL).

Inductive nar_res :=
  | RStat (r : result store_err bool)
  | RGet (r : result store_err (option Z * option string))
  | RPut (r : result store_err Z)
  | RDelete (r : result store_err unit).

Definition size_of (c : string) : Z := Z.of_nat (String.length c).

(** What each operation may answer, and the map after it.  A put may also fail
    to find a free temporary name; it then changes nothing. *)
Inductive nar_spec (m : nars) : nar_op → nar_res → nars → Prop :=
  | spec_stat u k : nar_key u = Ok k →
      nar_spec m (OStat u) (RStat (Ok (bool_decide (is_Some (m !! k))))) m
  | spec_stat_invalid u e : nar_key u = Err e → nar_spec m (OStat u) (RStat (Err e)) m
  | spec_get u k c : nar_key u = Ok k → m !! k = Some c →
      nar_spec m (OGet u) (RGet (Ok (Some (size_of c), Some c))) m
  | spec_get_missing u k : nar_key u = Ok k → m !! k = None →
      nar_spec m (OGet u) (RGet (Err ErrNotFound)) m
  | spec_get_invalid u e : nar_key u = Err e → nar_spec m (OGet u) (RGet (Err e)) m
  | spec_put u k body : nar_key u = Ok k → m !! k = None → fails body = false →
      nar_spec m (OPut u body) (RPut (Ok (size_of (bytes body)))) (<[k := bytes body]> m)
  | spec_put_exists u k body : nar_key u = Ok k → is_Some (m !! k) →
      nar_spec m (OPut u body) (RPut (Err ErrAlreadyExists)) m
  | spec_put_body u k body : nar_key u = Ok k → m !! k = None → fails body = true →
      nar_spec m (OPut u body) (RPut (Err ErrBody)) m
  | spec_put_names u k body : nar_key u = Ok k → m !! k = None →
      nar_spec m (OPut u body) (RPut (Err (ErrIO EEXIST))) m
  | spec_put_invalid u e body : nar_key u = Err e → nar_spec m (OPut u body) (RPut (Err e)) m
  | spec_delete u k : nar_key u = Ok k → is_Some (m !! k) →
      nar_spec m (ODelete u) (RDelete (Ok ())) (delete k m)
  | spec_delete_missing u k : nar_key u = Ok k → m !! k = None →
      nar_spec m (ODelete u) (RDelete (Err ErrNotFound)) m
  | spec_delete_invalid u e : nar_key u = Err e → nar_spec m (ODelete u) (RDelete (Err e)) m.

Inductive nar_specs : nars → list nar_op → list nar_res → nars → Prop :=
  | specs_nil m : nar_specs m [] [] m
  | specs_cons m o r m' os rs m'' :
      nar_spec m o r m' → nar_specs m' os rs m'' → nar_specs m (o :: os) (r :: rs) m''.

Definition node_data (n : node) : option string :=
  match n with File _ c => Some c | Dir => None end.

Definition get_view (r : option Z * node) : option Z * option string := (r.1, node_data r.2).

Definition run_op (s : Store) (o : nar_op) (d : disk) : nar_res * disk :=
  match o with
  | OStat u => let '(r, d) := StatNar s u d in (RStat r, d)
  | OGet u => let '(r, d) := GetNar s u d in (RGet (get_view <$> r), d)
  | OPut u body => let '(r, d) := PutNar s u body d in (RPut r, d)
  | ODelete u => let '(r, d) := DeleteNar s u d in (RDelete r, d)
  end.

Fixpoint run_ops (s : Store) (os : list nar_op) (d : disk) : list nar_res * disk :=
  match os with
  | [] => ([], d)
  | o :: os =>
      let '(r, d) := run_op s o d in
      let '(rs, d) := run_ops s os d in (r :: rs, d)
  end.

(** The trees the store keeps: the temporary directory exists and the NAR tree
    has directories where it needs them. *)
Record layout (s : Store) (t : tree) : Prop := {
  lay_wf : wf t;
  lay_tmp : resolve (storeTMPPath s) t = Ok Dir;
  lay_clear k : valid_key k = true → clear (dir (key_path s k)) t;
  lay_file k : valid_key k = true → t !! key_path s k ≠ Some Dir;
}.

Definition holds (s : Store) (m : nars) (t : tree) : Prop :=
  ∀ k, valid_key k = true → m !! k = file_at (key_path s k) t.

Section refinement.
Context (s : Store).
Implicit Types (t : tree) (m : nars).

Lemma layout_node t k :
  layout s t → valid_key k = true →
  t !! key_path s k =
    match file_at (key_path s k) t with Some c => t !! key_path s k | None => None end.
Proof.
  intros Hl Hk. pose proof (lay_file _ _ Hl k Hk). unfold file_at.
  by destruct (t !! _) as [[|]|].
Qed.

Lemma layout_resolve t k :
  layout s t → valid_key k = true →
  match file_at (key_path s k) t with
  | Some c => ∃ md, resolve (key_path s k) t = Ok (File md c)
  | None => resolve (key_path s k) t = Err ENOENT
  end.
Proof.
  intros Hl Hk. pose proof (lay_file _ _ Hl k Hk) as Hf. pose proof (lay_clear _ _ Hl k Hk) as Hc.
  unfold file_at. destruct (t !! key_path s k) as [[|md c]|] eqn:Hp; [done|..].
  - exists md. by apply resolve_Some; [apply Hl|].
  - destruct (resolve _ _) as [n|e] eqn:He.
    + apply resolve_Ok in He as [[? _]|He]; [by destruct (key_path_nonempty s k)|congruence].
    + f_equal. by eapply resolve_clear.
Qed.

Lemma key_above k k' q : q `suffix_of` dir (key_path s k') → q ≠ key_path s k.
Proof.
  intros Hq%above_key_length ->. rewrite (key_path_length s) in Hq. lia.
Qed.

Lemma above_suffix k q : q `suffix_of` dir (key_path s k) → q `suffix_of` key_path s k.
Proof. intros Hq. by apply suffix_cons_r. Qed.

Lemma tmp_facts k :
  dir (storeTMPPath s) ≠ storeTMPPath s ∧ storeTMPPath s ≠ key_path s k ∧
  ¬ storeNarPath s `suffix_of` storeTMPPath s.
Proof.
  rewrite storeTMPPath_eq, storeNarPath_eq. split_and!.
  - apply cons_neq.
  - intros Heq. apply (f_equal length) in Heq. rewrite key_path_length in Heq. simpl in Heq. lia.
  - intros Hs. by specialize (suffix_same_length _ _ _ Hs (reflexivity _) eq_refl).
Qed.

Lemma put_outcome_layout t k data st t' :
  layout s t → valid_key k = true →
  put_outcome (storeTMPPath s) (key_path s k) data t st t' → layout s t'.
Proof.
  intros Hl Hk Ho. pose proof (put_outcome_wf _ _ _ _ _ _ Ho) as Hwf'.
  destruct (tmp_facts k) as (Ht1 & Ht2 & _). split; [done|..].
  - apply resolve_Dir; [done|]. destruct Hl as [Hwf Htmp _ _].
    apply resolve_Dir in Htmp as [?|Htmp]; [by left|right|done].
    by eapply put_outcome_Dir.
  - intros k' Hk' q Hq. rewrite (put_outcome_file _ _ _ _ _ _ _ Ho).
    + by apply (lay_clear _ _ Hl k').
    + by apply (not_tmp_below_nar s k'), above_suffix.
    + by eapply key_above.
  - intros k' Hk' Hd. destruct (decide (key_path s k' = key_path s k)) as [Heq|Hne].
    + rewrite Heq in Hd. pose proof (put_outcome_at _ _ _ _ _ _ Ho) as Hat.
      pose proof (put_outcome_absent (storeTMPPath s) (key_path s k) data t t') as Habs.
      assert (dir (key_path s k) ≠ storeTMPPath s) as Hdir.
      { by apply (not_tmp_below_nar s k). }
      specialize (Hat Hdir). unfold file_at in Hat. rewrite Hd in Hat. destruct st; [done|].
      pose proof (layout_node t k Hl Hk) as Hnode. unfold file_at in Hnode.
      destruct (t !! key_path s k) as [[|]|] eqn:Hp; try done.
      by specialize (Habs Ho (key_path_nonempty _ _) Hdir eq_refl); rewrite Habs in Hd.
    + destruct (put_outcome_dir _ _ _ _ _ _ (key_path s k') Ho) as [Hd'|Hs]; try done.
      * by apply (not_tmp_below_nar s k').
      * by apply (lay_file _ _ Hl k').
      * by eapply key_above.
Qed.

Lemma put_outcome_holds m t k data st t' :
  holds s m t → valid_key k = true →
  put_outcome (storeTMPPath s) (key_path s k) data t st t' →
  holds s (if st then <[k := data]> m else m) t'.
Proof.
  intros Hm Hk Ho k' Hk'. destruct (decide (k' = k)) as [->|Hne].
  - rewrite (put_outcome_at _ _ _ _ _ _ Ho) by (by apply (not_tmp_below_nar s k)).
    destruct st; [by rewrite lookup_insert_eq|]. by apply Hm.
  - rewrite (put_outcome_file _ _ _ _ _ _ (key_path s k') Ho).
    + destruct st; [rewrite lookup_insert_ne by done|]; by apply Hm.
    + by apply (not_tmp_below_nar s k').
    + intros Heq. apply Hne. by eapply key_path_inj.
Qed.

Lemma delete_layout m t k t' :
  layout s t → holds s m t → valid_key k = true → wf t' →
  shrink (storeNarPath s) (delete (key_path s k) t) t' →
  layout s t' ∧ holds s (delete k m) t'.
Proof.
  intros Hl Hm Hk Hwf' Hs. destruct (tmp_facts k) as (Ht1 & Ht2 & Ht3).
  assert (∀ q, file_at q t' = file_at q (delete (key_path s k) t)) as Hf.
  { intros q. by eapply shrink_file. }
  assert (∀ q, q ≠ key_path s k → file_at q (delete (key_path s k) t) = file_at q t) as Hfd.
  { intros q Hq. unfold file_at. by rewrite lookup_delete_ne by done. }
  split; [split; [done|..]|].
  - apply resolve_Dir; [done|]. destruct Hl as [Hwf Htmp _ _].
    apply resolve_Dir in Htmp as [?|Htmp]; [by left|right|done].
    destruct (Hs (storeTMPPath s)) as [->|(_ & _ & ?)]; [|done].
    by rewrite lookup_delete_ne.
  - intros k' Hk' q Hq. rewrite Hf, Hfd by by eapply key_above.
    by apply (lay_clear _ _ Hl k').
  - intros k' Hk' Hd. destruct (Hs (key_path s k')) as [Heq|(_ & Heq & _)]; [|congruence].
    rewrite Hd in Heq. symmetry in Heq. apply lookup_delete_Some in Heq as [_ Heq].
    by apply (lay_file _ _ Hl k').
  - intros k' Hk'. rewrite Hf. destruct (decide (k' = k)) as [->|Hne].
    + unfold file_at. by rewrite !lookup_delete_eq.
    + rewrite lookup_delete_ne, Hfd by (try done; intros Heq; apply Hne; by eapply key_path_inj).
      by apply Hm.
Qed.

Lemma wp_StatNar b u t k :
  wf t → nar_key u = Ok k →
  wp b (StatNar s u) (λ r t', t' = t ∧
    (∀ present, r = Ok present → present = bool_decide (is_Some (t !! key_path s k))) ∧
    (b = false → layout s t → r = Ok (bool_decide (is_Some (file_at (key_path s k) t))))) t.
Proof.
  intros Hwf Hk. pose proof (nar_key_valid _ _ Hk) as Hv. unfold StatNar.
  apply wp_bind, wp_lift. rewrite (narPath_Ok s u k Hk).
  apply wp_bind, wp_try, wp_stat.
  - intros Hb. apply wp_throw. split_and!; [done..|]. by rewrite Hb.
  - destruct (resolve (key_path s k) t) as [n|e] eqn:He.
    + apply wp_ret. pose proof He as He'. apply resolve_Ok in He as [[? _]|He].
      { by destruct (key_path_nonempty s k). }
      split_and!; [done|intros ? [= <-]; rewrite He; by rewrite bool_decide_true by eauto|].
      intros _ Hl. pose proof (layout_resolve t k Hl Hv) as Hr.
      destruct (file_at _ t); [by rewrite bool_decide_true by eauto|congruence].
    + pose proof (resolve_Err _ _ _ Hwf He) as Hn. destruct (IsNotExist e) eqn:Hne.
      * apply wp_ret. split_and!; [done|intros ? [= <-]; by rewrite Hn|].
        intros _ _. unfold file_at. by rewrite Hn.
      * apply wp_throw. split_and!; [done..|]. intros _ Hl.
        pose proof (layout_resolve t k Hl Hv) as Hr. unfold file_at in Hr. rewrite Hn, He in Hr.
        injection Hr as ->. done.
Qed.

Lemma wp_local_GetNar b u t k :
  wf t → nar_key u = Ok k →
  wp b (GetNar s u) (λ r t', t' = t ∧
    (∀ v, r = Ok v → is_Some (t !! key_path s k) ∧
       get_view v = (size_of <$> file_at (key_path s k) t, file_at (key_path s k) t)) ∧
    (r = Err ErrNotFound → t !! key_path s k = None) ∧
    (b = false → layout s t →
       get_view <$> r = match file_at (key_path s k) t with
                        | Some c => Ok (Some (size_of c), Some c)
                        | None => Err ErrNotFound
                        end)) t.
Proof.
  intros Hwf Hk. pose proof (nar_key_valid _ _ Hk) as Hv. unfold GetNar.
  apply wp_bind, wp_lift. rewrite (narPath_Ok s u k Hk).
  apply wp_bind, wp_try, wp_stat.
  - intros Hb. apply wp_throw. split_and!; [done..|]. by rewrite Hb.
  - destruct (resolve (key_path s k) t) as [n|e] eqn:He.
    + apply wp_bind, wp_wrap, wp_stat.
      { intros Hb. simpl. split_and!; [done..|]. by rewrite Hb. }
      rewrite He. apply wp_ret. pose proof He as He'. apply resolve_Ok in He as [[? _]|He].
      { by destruct (key_path_nonempty s k). }
      assert (get_view (node_size n, n) = (size_of <$> file_at (key_path s k) t, file_at (key_path s k) t)) as Hview.
      { unfold file_at. rewrite He. by destruct n. }
      split_and!; [done|intros ? [= <-]; eauto|done|].
      intros _ Hl. pose proof (layout_resolve t k Hl Hv) as Hr.
      change (Ok (E := store_err) (get_view (node_size n, n)) =
        match file_at (key_path s k) t with
        | Some c => Ok (Some (size_of c), Some c) | None => Err ErrNotFound end).
      rewrite Hview. destruct (file_at _ t); [done|congruence].
    + pose proof (resolve_Err _ _ _ Hwf He) as Hn. destruct (IsNotExist e) eqn:Hne.
      * apply wp_throw. split_and!; try done. intros _ _. unfold file_at. by rewrite Hn.
      * apply wp_throw. split_and!; try done. intros _ Hl.
        pose proof (layout_resolve t k Hl Hv) as Hr. unfold file_at in Hr. rewrite Hn, He in Hr.
        by injection Hr as ->.
Qed.

(** One operation implements its specification. *)
Lemma run_op_spec m o d r d' :
  quiet false d → layout s (nodes d) → holds s m (nodes d) → run_op s o d = (r, d') →
  ∃ m', nar_spec m o r m' ∧ quiet false d' ∧ layout s (nodes d') ∧ holds s m' (nodes d').
Proof.
  intros Hq Hl Hm. pose proof (lay_wf _ _ Hl) as Hwf.
  assert (∀ u e, nar_key u = Err e → narPath s u = Err e) as Herr.
  { intros u e He. by rewrite narPath_key, He. }
  destruct o as [u|u|u body|u]; simpl;
    (destruct (nar_key u) as [k|e] eqn:Hk;
     [pose proof (nar_key_valid _ _ Hk) as Hv; pose proof (Hm k Hv) as Hmk
     |specialize (Herr _ _ Hk); unfold StatNar, GetNar, PutNar, DeleteNar; rewrite Herr;
      intros [= <- <-]; exists m; split; [by econstructor|done]]).
  - destruct (wp_run _ _ _ d (wp_StatNar false u _ k Hwf Hk) Hq) as (Hq' & Hn & _ & Hr).
    specialize (Hr eq_refl Hl). destruct (StatNar s u d) as [r0 d0]. simpl in *. subst r0.
    intros [= <- <-]. exists m. rewrite Hn. split; [|done]. rewrite <- Hmk. by constructor.
  - destruct (wp_run _ _ _ d (wp_local_GetNar false u _ k Hwf Hk) Hq) as (Hq' & Hn & _ & _ & Hr).
    specialize (Hr eq_refl Hl). destruct (GetNar s u d) as [r0 d0]. cbn [fst snd] in *.
    intros [= <- <-]. exists m. rewrite Hn. split; [|done]. rewrite Hr.
    destruct (file_at _ _); by econstructor.
  - destruct (wp_run _ _ _ d (wp_local_PutNar s u body _ k Hwf Hk) Hq) as (Hq' & Hpost).
    destruct (PutNar s u body d) as [r0 d0]. cbn [fst snd] in *. intros [= <- <-].
    destruct Hpost as [(-> & Hn & Hex)|[(st & Ho & _ & _ & _ & Hquiet) Habs]].
    + exists m. rewrite Hn. split; [|done]. eapply spec_put_exists; [done|].
      rewrite Hmk. pose proof (layout_node _ k Hl Hv) as Hnode.
      destruct (file_at _ _); [by eauto|]. rewrite Hnode in Hex. by destruct Hex.
    + specialize (Habs eq_refl). exists (if st then <[k := bytes body]> m else m).
      split; [|split; [done|]; split; [by eapply put_outcome_layout|by eapply put_outcome_holds]].
      assert (m !! k = None) as Hnone by (rewrite Hmk; unfold file_at; by rewrite Habs).
      destruct (Hquiet eq_refl (lay_tmp _ _ Hl) Habs (lay_clear _ _ Hl k Hv)) as [Hres|[-> ->]];
        [|by econstructor].
      destruct (fails body) eqn:Hb; destruct Hres as [-> ->]; by econstructor.
  - destruct (wp_run _ _ _ d (wp_local_DeleteNar s u _ k Hwf Hk) Hq) as (Hq' & Hwf' & Hres & Hmiss).
    destruct (DeleteNar s u d) as [r0 d0]. cbn [fst snd] in *. intros [= <- <-].
    pose proof (layout_node _ k Hl Hv) as Hnode. destruct r0 as [[]|e].
    + destruct Hres as ([n Hn] & Hs). exists (delete k m). split; [|split; [done|]; by eapply delete_layout].
      eapply spec_delete; [done|]. rewrite Hmk. rewrite Hn in Hnode.
      destruct (file_at _ _); [by eauto|done].
    + destruct Hres as (Hn & _ & Hno). specialize (Hno eq_refl). rewrite Hno in Hnode.
      assert (e = ErrNotFound) as ->.
      { specialize (Hmiss eq_refl Hnode (lay_clear _ _ Hl k Hv)). by injection Hmiss. }
      exists m. rewrite Hn. split; [|done]. eapply spec_delete_missing; [done|]. by rewrite Hmk.
Qed.
End refinement.

(** ** A new store *)

Lemma wp_remove_new tmp t :
  wf t → tmp ≠ [] → resolve (dir tmp) t = Ok Dir → t !! tmp = None →
  wp false (remove tmp) (λ _ t', t' = t) (<[tmp := File 384 ""]> t).
Proof.
  intros Hwf Hne Hd Hn. assert (wf (<[tmp := File 384 ""]> t)) as Hwf'.
  { apply wf_insert_file; [done..|]. by rewrite Hn. }
  eapply wp_mono; [by apply wp_remove|]. intros [[]|e] t' [_ Hr].
  - destruct Hr as [-> _]. by rewrite delete_insert_id.
  - destruct Hr as (_ & _ & Hf & _). exfalso. eapply Hf; [done|apply lookup_insert_eq].
Qed.

(** Without faults the writability probes leave nothing behind. *)
Lemma wp_isWritable d t : wf t → wp false (isWritable d) (λ r t', t' = t ∧ is_ok r = true) t.
Proof.
  intros Hwf. unfold isWritable. apply wp_bind, wp_try.
  eapply wp_mono; [by apply wp_create_temp|].
  intros [tmp|e] t'; [|intros [-> _]; by apply wp_ret].
  intros (n & -> & Hn & Hd & ->). apply wp_bind, wp_try, wp_close; [done|].
  apply wp_bind, wp_try. eapply wp_mono; [by apply wp_remove_new|].
  intros r t' ->. by apply wp_ret.
Qed.

Lemma wp_EnsureDirWritable d t :
  wf t → wp false (EnsureDirWritable d) (λ r t', t' = t) t.
Proof.
  intros Hwf. unfold EnsureDirWritable. apply wp_bind, wp_wrap.
  eapply wp_mono; [by apply wp_create_temp|].
  intros [tmp|e] t'; [|by intros [-> _]]. cbn [map_err].
  intros (n & -> & Hn & Hd & ->). apply wp_bind, wp_try, wp_close; [done|].
  apply wp_bind, wp_try. eapply wp_mono; [by apply wp_remove_new|].
  intros r t' ->. by apply wp_lift.
Qed.

Lemma wp_setupDirs s t :
  wf t →
  wp false (setupDirs s) (λ r t', r = Ok () → wf t' ∧ resolve (storeTMPPath s) t' = Ok Dir ∧
    ∃ t1 t2, grow (storePath s) t t1 ∧ grow (storeNarPath s) t1 t2 ∧ grow (storeTMPPath s) t2 t') t.
Proof.
  intros Hwf. unfold setupDirs.
  apply wp_bind, wp_wrap. eapply wp_mono; [by apply wp_mkdir_all|].
  intros [[]|e] t1 (Hwf1 & Hg1 & _ & _); [|done].
  apply wp_bind, wp_wrap. eapply wp_mono; [by apply wp_mkdir_all|].
  intros [[]|e] t2 (Hwf2 & Hg2 & _ & _); [|done].
  apply wp_bind, wp_wrap. eapply wp_mono; [by apply wp_mkdir_all|].
  intros [[]|e] t3 (Hwf3 & Hg3 & Hd3 & _); [|done].
  eapply wp_mono; [by apply wp_EnsureDirWritable|]. intros r t' -> _. specialize (Hd3 eq_refl). eauto 10.
Qed.

Lemma suffix_of_cons {A} (q d : list A) c : q `suffix_of` c :: d → q = c :: d ∨ q `suffix_of` d.
Proof.
  intros [[|x k] Heq]; simpl in Heq; [by left|right]. injection Heq as _ ->. by exists k.
Qed.

Lemma suffix_shorter {A} (l1 l2 l : list A) :
  l1 `suffix_of` l → l2 `suffix_of` l → length l1 ≤ length l2 → l1 `suffix_of` l2.
Proof.
  induction l as [|c l IH]; intros H1 H2 Hl.
  - apply suffix_nil_inv in H1 as ->. apply suffix_nil.
  - apply suffix_of_cons in H2 as [->|H2]; [done|].
    apply suffix_of_cons in H1 as [->|H1]; [|by apply IH].
    apply suffix_length in H2. simpl in *. lia.
Qed.

Lemma resolve_Dir_clear d t : wf t → resolve d t = Ok Dir → clear d t.
Proof.
  intros Hwf. induction d as [|c d IH]; intros Hd q Hq.
  - apply suffix_nil_inv in Hq as ->. unfold file_at. by rewrite (wf_root _ Hwf).
  - apply resolve_Dir in Hd as [?|Hd]; [done| |done].
    apply suffix_of_cons in Hq as [->|Hq]; [unfold file_at; by rewrite Hd|].
    apply IH; [|done]. apply resolve_Dir; [done|]. by eapply wf_parent.
Qed.

(** A store made in a directory with no [store] entry is empty and laid out. *)
Lemma New_layout p s d d' :
  quiet false d → wf (nodes d) → New p d = (Ok s, d') →
  (∀ q, storePath s `suffix_of` q → nodes d !! q = None) →
  quiet false d' ∧ layout s (nodes d') ∧ holds s ∅ (nodes d').
Proof.
  intros Hq Hwf Hnew Hno.
  assert (wp false (New p) (λ r t', ∀ s, r = Ok s → s = mkStore (join_path [] p) ∧ wf t' ∧
    resolve (storeTMPPath s) t' = Ok Dir ∧ ∃ t1 t2, grow (storePath s) (nodes d) t1 ∧
    grow (storeNarPath s) t1 t2 ∧ grow (storeTMPPath s) t2 t') (nodes d)) as Hwp.
  { unfold New. apply wp_bind. eapply (wp_mono _ (λ r t', t' = nodes d)).
    { unfold validatePath. destruct (negb _); [by apply wp_throw|].
      apply wp_bind, wp_try, wp_stat; [done|].
      destruct (resolve _ _) as [[|]|e]; [|by apply wp_throw|destruct (IsNotExist e); by apply wp_throw].
      apply wp_bind. eapply wp_mono; [by apply wp_isWritable|].
      intros [[]|e] t' [-> _]; [by apply wp_ret|by apply wp_throw|done]. }
    intros [[]|e] t' ->; [|done]. apply wp_bind.
    eapply wp_mono; [by apply wp_setupDirs|]. intros [[]|e] t1 Ht1; [|done].
    apply wp_ret. intros s' [= <-]. split; [done|]. by apply Ht1. }
  destruct (wp_run _ _ _ d Hwp Hq) as [Hq' Hpost]. rewrite Hnew in *. cbn [fst snd] in *.
  destruct (Hpost s eq_refl) as (Hs & Hwf' & Htmp & t1 & t2 & Hg1 & Hg2 & Hg3). split; [done|].
  assert (∀ q, file_at q (nodes d') = file_at q (nodes d)) as Hf.
  { intros q. by rewrite (grow_file _ _ _ _ Hg3), (grow_file _ _ _ _ Hg2), (grow_file _ _ _ _ Hg1). }
  assert (∀ k, storePath s `suffix_of` key_path s k) as Habove.
  { intros k. unfold key_path. rewrite storeNarPath_eq. unfold storePath. rewrite join_path_plain by done.
    by do 4 apply suffix_cons_r. }
  assert (∀ q, storePath s `suffix_of` q → file_at q (nodes d') = None) as Hnone.
  { intros q Hsq. rewrite Hf. unfold file_at. by rewrite Hno. }
  assert (clear (storePath s) (nodes d')) as Hclear.
  { intros q Hsq. apply (resolve_Dir_clear (storeTMPPath s)); [done..|].
    rewrite storeTMPPath_eq. unfold storePath in Hsq. rewrite join_path_plain in Hsq by done.
    by apply suffix_cons_r. }
  split; [split; [done|done|..]|].
  - intros k Hk q Hqk.
    destruct (decide (length q ≤ length (storePath s))) as [Hle|Hgt].
    + apply Hclear. apply (suffix_shorter _ _ (key_path s k)); [by apply above_suffix|done|done].
    + apply Hnone. apply (suffix_shorter _ _ (key_path s k)); [done|by apply above_suffix|lia].
  - intros k Hk Hd.
    assert (∀ c t t', grow c t t' → length c < length (key_path s k) →
      t' !! key_path s k = Some Dir → t !! key_path s k = Some Dir) as Hback.
    { intros c t t' Hg Hlen. destruct (Hg (key_path s k)) as [->|(_ & _ & Hs')]; [done|].
      apply suffix_length in Hs'. lia. }
    rewrite (key_path_length s) in Hback.
    apply (Hback _ _ _ Hg3) in Hd; [|rewrite storeTMPPath_eq; simpl; lia].
    apply (Hback _ _ _ Hg2) in Hd; [|rewrite storeNarPath_eq; simpl; lia].
    apply (Hback _ _ _ Hg1) in Hd; [|unfold storePath; rewrite join_path_plain by done; simpl; lia].
    by rewrite Hno in Hd.
  - intros k Hk. by rewrite lookup_empty, Hnone.
Qed.

(** ** The properties *)

(** C5. The local store implements [storage.NarStore]: run on a file system
    without I/O errors, any sequence of [StatNar], [GetNar], [PutNar] and
    [DeleteNar] gives the results of a map from NAR keys (the hash without its
    narinfo prefix, and the file extension) to contents: a put stores the body's
    bytes under an absent key and nothing when the body fails, a present key is
    "already exists", get and stat see the last put, delete forgets it. *)
Theorem nar_store_refines (s : Store) (ops : list nar_op) (m : nars) (d : disk) :
  quiet false d → layout s (nodes d) → holds s m (nodes d) →
  ∃ m', nar_specs m ops (run_ops s ops d).1 m' ∧
    layout s (nodes (run_ops s ops d).2) ∧ holds s m' (nodes (run_ops s ops d).2).
Proof.
  revert m d. induction ops as [|o ops IH]; intros m d Hq Hl Hm; simpl.
  - exists m. split; [by constructor|done].
  - destruct (run_op s o d) as [r d1] eqn:Ho.
    destruct (run_op_spec s m o d r d1 Hq Hl Hm Ho) as (m1 & Hspec & Hq1 & Hl1 & Hm1).
    destruct (IH m1 d1 Hq1 Hl1 Hm1) as (m2 & Hspecs & Hl2 & Hm2).
    destruct (run_ops s ops d1) as [rs d2]. simpl in *. exists m2.
    split; [by econstructor|done].
Qed.

(** C7. [PutNar] is atomic under faults: whatever system calls fail and whatever
    they left behind, the file at the NAR's path has its old content or the
    body's whole content, no file outside the temporary directory changes, [Ok n]
    means that all [n] bytes of the body are stored, and "already exists" that
    nothing was done. *)
Theorem put_nar_atomic (s : Store) (u : URL) (body : Reader) (d : disk) (p : path) :
  wf (nodes d) → narPath s u = Ok p →
  let '(r, d') := PutNar s u body d in
  (file_at p (nodes d') = file_at p (nodes d) ∨
   (file_at p (nodes d') = Some (bytes body) ∧ fails body = false)) ∧
  (∀ q, q ≠ p → dir q ≠ storeTMPPath s → file_at q (nodes d') = file_at q (nodes d)) ∧
  (∀ n, r = Ok n → file_at p (nodes d') = Some (bytes body) ∧ n = size_of (bytes body)) ∧
  (r = Err ErrAlreadyExists → nodes d' = nodes d) ∧ wf (nodes d').
Proof.
  intros Hwf Hp. rewrite narPath_key in Hp. destruct (nar_key u) as [k|e] eqn:Hk; [|done].
  injection Hp as <-.
  destruct (wp_run _ _ _ d (wp_local_PutNar (b := true) s u body _ k Hwf Hk) ltac:(done)) as (_ & Hpost).
  destruct (PutNar s u body d) as [r d']. cbn [fst snd] in *.
  destruct Hpost as [(-> & -> & _)|[(st & Ho & Hb & Hne & Hok & _) _]].
  - split_and!; [by left|done..].
  - assert (dir (key_path s k) ≠ storeTMPPath s) as Hdir by by apply (not_tmp_below_nar s k).
    pose proof (put_outcome_at _ _ _ _ _ _ Ho Hdir) as Hat. split_and!.
    + rewrite Hat. destruct st; [right; auto|by left].
    + intros q Hq Hqt. by eapply put_outcome_file.
    + intros n Hn. destruct (Hok n Hn) as [-> ->]. done.
    + done.
    + by eapply put_outcome_wf.
Qed.

(** The contract of [StatNar] under faults: [true] means that the NAR is
    there, [false] that it is not, and a failing file system is reported as an
    error, never as an absence; [GetNar] says "not found" only of an absent NAR.
    Neither changes the file system. *)
Theorem stat_nar_contract (s : Store) (u : URL) (d : disk) (p : path) :
  wf (nodes d) → narPath s u = Ok p →
  (∀ present, (StatNar s u d).1 = Ok present → present = bool_decide (is_Some (nodes d !! p))) ∧
  ((GetNar s u d).1 = Err ErrNotFound → nodes d !! p = None) ∧
  nodes (StatNar s u d).2 = nodes d ∧ nodes (GetNar s u d).2 = nodes d.
Proof.
  intros Hwf Hp. rewrite narPath_key in Hp. destruct (nar_key u) as [k|e] eqn:Hk; [|done].
  injection Hp as <-.
  destruct (wp_run _ _ _ d (wp_StatNar s true u _ k Hwf Hk) ltac:(done)) as (_ & Hn1 & Hs & _).
  destruct (wp_run _ _ _ d (wp_local_GetNar s true u _ k Hwf Hk) ltac:(done)) as (_ & Hn2 & _ & Hg & _).
  done.
Qed.

(** [DeleteNar] under faults removes at most the NAR's own file and, of the
    directories, only empty ones inside the store's NAR tree: every other file
    and every directory outside that tree stays, and every file still has its
    directories. *)
Theorem delete_nar_confined (s : Store) (u : URL) (d : disk) (p : path) :
  wf (nodes d) → narPath s u = Ok p →
  let '(r, d') := DeleteNar s u d in
  wf (nodes d') ∧
  (∀ q, q ≠ p → file_at q (nodes d') = file_at q (nodes d)) ∧
  (∀ q, ¬ storeNarPath s `suffix_of` q → nodes d' !! q = nodes d !! q) ∧
  (r = Ok () → nodes d' !! p = None) ∧ (is_ok r = false → nodes d' = nodes d).
Proof.
  intros Hwf Hp. rewrite narPath_key in Hp. destruct (nar_key u) as [k|e] eqn:Hk; [|done].
  injection Hp as <-.
  destruct (wp_run _ _ _ d (wp_local_DeleteNar (b := true) s u _ k Hwf Hk) ltac:(done)) as (_ & Hwf' & Hpost & _).
  destruct (DeleteNar s u d) as [r d']. cbn [fst snd] in *. split; [done|].
  destruct r as [[]|e]; [|destruct Hpost as (-> & _); by split_and!].
  destruct Hpost as ([n Hn] & Hs). split_and!; [..|done].
  - intros q Hq. rewrite (shrink_file _ _ _ _ Hs). unfold file_at. by rewrite lookup_delete_ne.
  - intros q Hq. destruct (Hs q) as [->|(_ & _ & ?)]; [|done]. rewrite lookup_delete_ne; [done|].
    intros <-. apply Hq. by do 3 apply suffix_cons_r.
  - intros _. destruct (Hs (key_path s k)) as [->|(_ & -> & _)]; [|done]. apply lookup_delete_eq.
Qed.

(** ** Staging parts *)

Lemma part_path_inj s h1 i1 h2 i2 :
  plain h1 = true → plain h2 = true → (0 ≤ i1)%Z → (0 ≤ i2)%Z →
  stagingPartPath s h1 i1 = stagingPartPath s h2 i2 → h1 = h2 ∧ i1 = i2.
Proof.
  intros H1 H2 Hi1 Hi2. rewrite !part_path_eq by done. intros [= Hn ->]. split; [done|].
  eapply zero_pad_inj; [done..|]. by eapply str_app_inj_tail.
Qed.

Lemma part_dir s h i :
  plain h = true → dir (stagingPartPath s h i) = stagingPartDir s h ∧
  dir (stagingPartPath s h i) ≠ storeTMPPath s ∧ length (stagingPartPath s h i) = 4 + length (root s).
Proof.
  intros Hh. rewrite part_path_eq by done. unfold stagingPartDir.
  rewrite join_path_plain, storeStagingPath_eq by done. done.
Qed.

(** The parts of a NAR in the store. *)
Definition part_at (s : Store) (hash : string) (i : Z) (t : tree) : option string :=
  file_at (stagingPartPath s hash i) t.

(** What [PutStagingPart] does, under faults. *)
Lemma put_part_facts (s : Store) (hash : string) (index : Z) (body : Reader) (d : disk) :
  wf (nodes d) → plain hash = true →
  let '(r, d') := PutStagingPart s hash index body d in
  wf (nodes d') ∧
  (part_at s hash index (nodes d') = part_at s hash index (nodes d) ∨
   (part_at s hash index (nodes d') = Some (bytes body) ∧ fails body = false)) ∧
  (∀ h i, plain h = true → (0 ≤ i)%Z → (h, i) ≠ (hash, index) →
     part_at s h i (nodes d') = part_at s h i (nodes d)) ∧
  (∀ k, valid_key k = true → file_at (key_path s k) (nodes d') = file_at (key_path s k) (nodes d)) ∧
  (∀ n, r = Ok n → part_at s hash index (nodes d') = Some (bytes body) ∧ n = size_of (bytes body)) ∧
  ((index < 0)%Z → r = Err ErrInvalidArgument ∧ d' = d).
Proof.
  intros Hwf Hh. destruct (decide (index < 0)%Z) as [Hi|Hi].
  { unfold PutStagingPart. rewrite (proj2 (Z.ltb_lt _ _)) by done. split_and!; try done; by left. }
  destruct (wp_run _ _ _ d (wp_PutStagingPart (b := true) s hash index body _ Hwf ltac:(lia) Hh) ltac:(done))
    as (_ & st & Ho & Hb & Hne & Hok & _).
  destruct (PutStagingPart s hash index body d) as [r d']. cbn [fst snd] in *.
  destruct (part_dir s hash index Hh) as (_ & Htmp & _).
  pose proof (put_outcome_at _ _ _ _ _ _ Ho Htmp) as Hat. unfold part_at.
  split_and!; [by eapply put_outcome_wf|..|done].
  - rewrite Hat. destruct st; [right; auto|by left].
  - intros h i Hp Hi' Hne'. eapply put_outcome_file; [exact Ho|by apply part_dir|].
    intros Heq. apply part_path_inj in Heq as [-> ->]; [done|done|done|done|lia].
  - intros k Hk. eapply put_outcome_file; [exact Ho|by apply (not_tmp_below_nar s k)|].
    intros Heq. apply (f_equal length) in Heq. rewrite (key_path_length s) in Heq.
    destruct (part_dir s hash index Hh) as (_ & _ & Hl). lia.
  - intros n Hn. destruct (Hok n Hn) as [-> ->]. done.
Qed.

(** A staging part is written atomically and alone, under faults too: after
    [PutStagingPart] the part holds its old content or the whole body, every
    other part of every NAR and every stored NAR is unchanged, [Ok n] means that
    all [n] bytes are durable, and a negative index is refused. *)
Theorem put_part_atomic (s : Store) (hash : string) (index : Z) (body : Reader) (d : disk) :
  wf (nodes d) → plain hash = true →
  let '(r, d') := PutStagingPart s hash index body d in
  wf (nodes d') ∧
  (part_at s hash index (nodes d') = part_at s hash index (nodes d) ∨
   (part_at s hash index (nodes d') = Some (bytes body) ∧ fails body = false)) ∧
  (∀ h i, plain h = true → (0 ≤ i)%Z → (h, i) ≠ (hash, index) →
     part_at s h i (nodes d') = part_at s h i (nodes d)) ∧
  (∀ k, valid_key k = true → file_at (key_path s k) (nodes d') = file_at (key_path s k) (nodes d)) ∧
  (∀ n, r = Ok n → part_at s hash index (nodes d') = Some (bytes body) ∧ n = size_of (bytes body)) ∧
  ((index < 0)%Z → r = Err ErrInvalidArgument ∧ d' = d).
Proof. apply put_part_facts. Qed.

(** What [DeleteStagingParts] does, under faults. *)
Lemma delete_parts_facts (s : Store) (hash : string) (d : disk) :
  wf (nodes d) → plain hash = true →
  let '(r, d') := DeleteStagingParts s hash d in
  wf (nodes d') ∧
  (r = Ok () → ∀ i, part_at s hash i (nodes d') = None) ∧
  (∀ i x, part_at s hash i (nodes d') = Some x → part_at s hash i (nodes d) = Some x) ∧
  (∀ q, ¬ stagingPartDir s hash `suffix_of` q → nodes d' !! q = nodes d !! q) ∧
  (∀ h i, plain h = true → h ≠ hash → part_at s h i (nodes d') = part_at s h i (nodes d)).
Proof.
  intros Hwf Hh. assert (stagingPartDir s hash ≠ []) as Hne.
  { unfold stagingPartDir. by rewrite join_path_plain. }
  assert (∀ h i, plain h = true → below (stagingPartDir s hash) (stagingPartPath s h i) = bool_decide (h = hash)) as Hbelow.
  { intros h i Hp. rewrite part_path_eq by done. unfold stagingPartDir.
    rewrite join_path_plain by done. apply bool_decide_ext. split; [|intros ->; by apply suffix_cons_r].
    intros Hs. apply suffix_of_cons in Hs as [Hs|Hs].
    - apply (f_equal length) in Hs. simpl in Hs. lia.
    - pose proof (suffix_same_length _ _ _ Hs (reflexivity (h :: storeStagingPath s)) eq_refl) as Heq.
      by injection Heq. }
  destruct (wp_run _ _ _ d (wp_remove_all (b := true) _ _ Hwf Hne) ltac:(done))
    as (_ & Hwf' & Hout & Hsub & Hall & _).
  unfold DeleteStagingParts, wrap.
  destruct (remove_all (stagingPartDir s hash) d) as [r d']. cbn [fst snd] in *.
  split_and!; [done|..].
  - destruct r as [[]|]; [|done]. intros _ i. unfold part_at, file_at. rewrite Hall; [done..|].
    by rewrite Hbelow, bool_decide_true.
  - intros i x. unfold part_at, file_at. destruct (nodes d' !! _) as [[|m c]|] eqn:Hc; try done.
    by rewrite (Hsub _ _ Hc).
  - intros q Hq. by apply Hout, below_false.
  - intros h i Hp Hne'. unfold part_at, file_at. rewrite Hout; [done|].
    by rewrite Hbelow, bool_decide_false.
Qed.

(** [DeleteStagingParts] under faults: success leaves no part of that NAR,
    and whatever happens nothing outside the NAR's own part directory changes. *)
Theorem delete_parts_spec (s : Store) (hash : string) (d : disk) :
  wf (nodes d) → plain hash = true →
  let '(r, d') := DeleteStagingParts s hash d in
  wf (nodes d') ∧
  (r = Ok () → ∀ i, part_at s hash i (nodes d') = None) ∧
  (∀ i x, part_at s hash i (nodes d') = Some x → part_at s hash i (nodes d) = Some x) ∧
  (∀ q, ¬ stagingPartDir s hash `suffix_of` q → nodes d' !! q = nodes d !! q) ∧
  (∀ h i, plain h = true → h ≠ hash → part_at s h i (nodes d') = part_at s h i (nodes d)).
Proof. apply delete_parts_facts. Qed.

Lemma get_part_facts (s : Store) (hash : string) (index : Z) (d : disk) :
  wf (nodes d) → plain hash = true →
  let '(r, d') := GetStagingPart s hash index d in
  nodes d' = nodes d ∧
  (∀ m c, r = Ok (File m c) → part_at s hash index (nodes d) = Some c) ∧
  (r = Err ErrNotFound → part_at s hash index (nodes d) = None).
Proof.
  intros Hwf Hh. set (p := stagingPartPath s hash index).
  assert (wp true (GetStagingPart s hash index) (λ r t', t' = nodes d ∧
    (∀ m c, r = Ok (File m c) → file_at p (nodes d) = Some c) ∧
    (r = Err ErrNotFound → file_at p (nodes d) = None)) (nodes d)) as Hwp.
  { unfold GetStagingPart. fold p. apply wp_bind, wp_try, wp_stat; [intros _; by apply wp_throw|].
    destruct (resolve p (nodes d)) as [n|e] eqn:He.
    - apply wp_ret. split_and!; [done| |done]. intros m c [= ->].
      apply resolve_File in He; [|done]. unfold file_at. by rewrite He.
    - apply resolve_Err in He as Hn; [|done].
      destruct (IsNotExist e); apply wp_throw; split_and!; try done.
      intros _. unfold file_at. by rewrite Hn. }
  destruct (wp_run _ _ _ d Hwp ltac:(done)) as (_ & Hp).
  by destruct (GetStagingPart s hash index d) as [r d'].
Qed.

(** ** Narinfos are not stored atomically *)

(** A format of narinfos for the examples: the text ends with a newline. *)
Definition sample_parse (t : string) : option string :=
  if bool_decide (last_elem [str_drop (String.length t - 1) t] = String newline "") then Some t else None.

Definition sample_tree : tree := {[["s"] := Dir]}.
Definition sample_disk : disk := mkDisk sample_tree [] [].
Definition sample_store : Store := mkStore ["s"].
Definition sample_new : disk := (New "/s" sample_disk).2.
Definition sample_url : URL := mkURL sample_hash "xz" no_query false "".
Definition sample_body : Reader := mkReader "some nar bytes" false.
Definition sample_narinfo : string := "StorePath: /nix/store/x" +:+ String newline "".

(** The disk of a new store on which the [n]-th system call from now fails,
    after it wrote five bytes. *)
Definition failing_at (n : nat) : disk :=
  mkDisk (nodes sample_new) (replicate n None ++ [Some (mkFault 5 (λ _, false))]) [].

(** [PutNarInfo] is not atomic: a write that fails half way returns an error
    but leaves the truncated narinfo under its final name; [HasNarInfo] then says
    it is there, [GetNarInfo] cannot parse it, and every later [PutNarInfo] of
    the whole narinfo is refused as "already exists". *)
Theorem put_narinfo_not_atomic :
  let put := PutNarInfo id sample_store sample_prefix sample_narinfo in
  let d1 := (put (failing_at 9)).2 in
  (put (failing_at 9)).1 = Err (ErrIO EIO) ∧
  (HasNarInfo sample_store sample_prefix d1).1 = Ok true ∧
  (GetNarInfo sample_parse sample_store sample_prefix d1).1 = Err ErrParse ∧
  (put d1).1 = Err ErrAlreadyExists.
Proof. vm_compute. done. Qed.

(** ** Witnesses *)

Lemma sample_wf : wf sample_tree.
Proof.
  split; [done|]. intros c q n Hc. unfold sample_tree in *.
  apply lookup_singleton_Some in Hc as [[= <- <-] _]. by left.
Qed.

Lemma sample_layout : quiet false sample_new ∧ layout sample_store (nodes sample_new) ∧
  holds sample_store ∅ (nodes sample_new).
Proof.
  apply (New_layout "/s" sample_store sample_disk sample_new).
  - by intros _.
  - apply sample_wf.
  - reflexivity.
  - intros q Hq. apply lookup_singleton_None. intros <-.
    apply suffix_length in Hq. simpl in Hq. lia.
Qed.

Definition sample_ops : list nar_op :=
  [OStat sample_url; OPut sample_url sample_body; OGet sample_url; OPut sample_url sample_body;
   ODelete sample_url; OGet sample_url].

Lemma nar_store_refines_witness :
  (run_ops sample_store sample_ops sample_new).1 =
    [RStat (Ok false); RPut (Ok 14%Z); RGet (Ok (Some 14%Z, Some "some nar bytes"));
     RPut (Err ErrAlreadyExists); RDelete (Ok ()); RGet (Err ErrNotFound)] ∧
  ∃ m', nar_specs ∅ sample_ops (run_ops sample_store sample_ops sample_new).1 m'.
Proof.
  split; [vm_compute; reflexivity|]. destruct sample_layout as (Hq & Hl & Hm).
  destruct (nar_store_refines sample_store sample_ops ∅ sample_new Hq Hl Hm) as (m' & Hs & _).
  exists m'. exact Hs.
Defined.

Definition sample_path : path := key_path sample_store (sample_hash, "xz").

Lemma put_nar_atomic_witness :
  narPath sample_store sample_url = Ok sample_path ∧ wf (nodes (failing_at 9)) ∧
  (file_at sample_path (nodes (PutNar sample_store sample_url sample_body (failing_at 9)).2) =
     file_at sample_path (nodes (failing_at 9)) ∨
   file_at sample_path (nodes (PutNar sample_store sample_url sample_body (failing_at 9)).2) =
     Some (bytes sample_body)).
Proof.
  assert (wf (nodes (failing_at 9))) as Hwf by apply sample_layout.
  split; [reflexivity|]. split; [exact Hwf|].
  pose proof (put_nar_atomic sample_store sample_url sample_body (failing_at 9) sample_path
    Hwf eq_refl) as Hp.
  destruct (PutNar sample_store sample_url sample_body (failing_at 9)) as [r d'].
  destruct Hp as [[Hp|[Hp _]] _]; [left|right]; exact Hp.
Defined.

Lemma stat_nar_contract_witness :
  narPath sample_store sample_url = Ok sample_path ∧
  ((StatNar sample_store sample_url sample_new).1 = Ok false → nodes sample_new !! sample_path = None).
Proof.
  split; [reflexivity|]. intros Hs.
  assert (wf (nodes sample_new)) as Hwf by apply sample_layout.
  destruct (stat_nar_contract sample_store sample_url sample_new sample_path Hwf eq_refl) as (Hc & _).
  specialize (Hc false Hs). symmetry in Hc. apply bool_decide_eq_false in Hc.
  by apply eq_None_not_Some.
Defined.

Lemma delete_nar_confined_witness :
  wf (nodes (DeleteNar sample_store sample_url sample_new).2).
Proof.
  assert (wf (nodes sample_new)) as Hwf by apply sample_layout.
  pose proof (delete_nar_confined sample_store sample_url sample_new sample_path Hwf eq_refl) as Hd.
  destruct (DeleteNar sample_store sample_url sample_new) as [r d']. apply Hd.
Defined.

Lemma put_part_atomic_witness :
  (PutStagingPart sample_store sample_hash 3 sample_body sample_new).1 = Ok 14%Z ∧
  part_at sample_store sample_hash 3
    (nodes (PutStagingPart sample_store sample_hash 3 sample_body sample_new).2) =
    Some "some nar bytes".
Proof.
  assert (wf (nodes sample_new)) as Hwf by apply sample_layout.
  assert ((PutStagingPart sample_store sample_hash 3 sample_body sample_new).1 = Ok 14%Z) as Hr
    by reflexivity.
  pose proof (put_part_atomic sample_store sample_hash 3 sample_body sample_new Hwf eq_refl) as Hp.
  destruct (PutStagingPart sample_store sample_hash 3 sample_body sample_new) as [r d'].
  split; [exact Hr|]. destruct Hp as (_ & _ & _ & _ & Hok & _). by apply (Hok 14%Z).
Defined.

Lemma delete_parts_spec_witness :
  part_at sample_store sample_hash 3
    (nodes (DeleteStagingParts sample_store sample_hash sample_new).2) = None.
Proof.
  assert (wf (nodes sample_new)) as Hwf by apply sample_layout.
  assert ((DeleteStagingParts sample_store sample_hash sample_new).1 = Ok ()) as Hr by reflexivity.
  pose proof (delete_parts_spec sample_store sample_hash sample_new Hwf eq_refl) as Hd.
  destruct (DeleteStagingParts sample_store sample_hash sample_new) as [r d'].
  destruct Hd as (_ & Hok & _). apply Hok. exact Hr.
Defined.
