(* ===== verification/ChunkStore.v ===== *)
(** * Package [pkg/storage/chunk]: the chunk store on the local file system

    Chunks are stored compressed with zstd under their hash, through a temporary
    file in the chunk's own directory that is linked to its final name. *)
From S2P Require Import Prelude GoStd Nar FS LocalStore.

Inductive chunk_err := CNotFound | CNar (e : nar_error) | CIO (e : fs_err) | CDecode.

#[global] Instance chunk_err_eq_dec : EqDecision chunk_err.
Proof. solve_decision. Defined.

Notation cio := (eff disk chunk_err).

(** The store is given by its base directory. *)
Definition storeDir (baseDir : path) : path := join_path baseDir "chunk".

Arguments storeDir : simpl never.

Definition chunkPath (baseDir : path) (hash : string) : result chunk_err path :=
  fp ← map_err CNar (FilePathWithSharding hash);
  mret (join_path (storeDir baseDir) fp).

Definition NewLocalStore (baseDir : path) : cio path :=
  wrap CIO (mkdir_all (storeDir baseDir));;
  mret baseDir.

Definition HasChunk (baseDir : path) (hash : string) : cio bool :=
  p ← lift (chunkPath baseDir hash);
  r ← try (stat p);
  match r with
  | Ok _ => mret true
  | Err e => if IsNotExist e then mret false else throw (CIO e)
  end.

Definition GetRawChunk (baseDir : path) (hash : string) : cio node :=
  p ← lift (chunkPath baseDir hash);
  r ← try (open p);
  match r with
  | Ok f => mret f
  | Err e => if IsNotExist e then throw CNotFound else throw (CIO e)
  end.

Fixpoint remove_until (d stop : path) : cio unit :=
  if bool_decide (d = stop) then mret () else
  r ← try (remove d);
  match r with
  | Err _ => mret ()
  | Ok _ => match d with [] => mret () | _ :: up => remove_until up stop end
  end.

Definition DeleteChunk (baseDir : path) (hash : string) : cio unit :=
  p ← lift (chunkPath baseDir hash);
  r ← try (remove p);
  match r with
  | Err e => if IsNotExist e then remove_until (dir p) (storeDir baseDir) else throw (CIO e)
  | Ok _ => remove_until (dir p) (storeDir baseDir)
  end.

(** A walk's callback folds over an accumulator, as in [LocalStore]. *)
Fixpoint fold_hashes {A} (fn : A → string → result chunk_err A) (a : A) (l : list path) :
    result chunk_err A :=
  match l with [] => Ok a | x :: l => a' ← fn a (last_elem x); fold_hashes fn a' l end.

Definition WalkChunks {A} (baseDir : path) (fn : A → string → result chunk_err A) (a : A) : cio A :=
  st ← try (stat (storeDir baseDir));
  match st with
  | Err ENOENT => mret a
  | _ =>
      '(files, e) ← walk (storeDir baseDir);
      a ← lift (fold_hashes fn a (fst <$> files));
      match e with Some e => throw (CIO e) | None => mret a end
  end.

Section codec.
(** The zstd codec (klauspost/compress, through [pkg/zstd]'s pools). *)
Context (compress : string → string) (decompress : string → option string).

(** A chunk read to its end through the decompressor. *)
Definition GetChunk (baseDir : path) (hash : string) : cio string :=
  p ← lift (chunkPath baseDir hash);
  r ← try (open p);
  match r with
  | Err e => if IsNotExist e then throw CNotFound else throw (CIO e)
  | Ok Dir => throw (CIO EISDIR)
  | Ok (File _ c) => lift (of_option CDecode (decompress c))
  end.

(** From the open temporary file on: write, sync, close, stat and link. *)
Definition put_temp (tmp p : path) (data : string) : cio (bool * Z) :=
  w ← try (write tmp (compress data));
  w ← match w with Ok _ => try (sync tmp) | Err e => mret (Err e) end;
  c ← try (close tmp);
  match w, c with
  | Err e, _ | Ok _, Err e => throw (CIO e)
  | Ok _, Ok _ =>
      fi ← wrap CIO (stat tmp);
      let compressedSize := default 0%Z (node_size fi) in
      l ← try (link tmp p);
      match l with
      | Ok _ => mret (true, compressedSize)
      | Err e => if IsExist e then mret (false, compressedSize) else throw (CIO e)
      end
  end.

Definition PutChunk (baseDir : path) (hash : string) (data : string) : cio (bool * Z) :=
  p ← lift (chunkPath baseDir hash);
  wrap CIO (mkdir_all (dir p));;
  tmp ← wrap CIO (create_temp (dir p) "chunk-" "");
  r ← try (put_temp tmp p data);
  _ ← try (remove tmp);
  lift r.
End codec.

(** ** Lemmas *)

(** The hashes chunks are named by: hexadecimal. *)
Definition valid_chunk (hash : string) : bool :=
  (3 <=? String.length hash)%nat && str_forall hex_char hash.

Definition chunk_path (baseDir : path) (hash : string) : path :=
  hash :: str_take 2 hash :: str_take 1 hash :: storeDir baseDir.

(** The names of the temporary files. *)
Definition temp_name (s : string) : bool := has_prefix "chunk-" s.

Lemma valid_chunk_path baseDir hash :
  valid_chunk hash = true → chunkPath baseDir hash = Ok (chunk_path baseDir hash).
Proof.
  unfold valid_chunk. intros Hv. bool_props. apply Nat.leb_le in H.
  assert (str_forall hash_char hash = true) as Hc.
  { eapply str_forall_weaken; [|done]. intros c Hc. unfold hash_char. rewrite Hc. by rewrite orb_true_r. }
  destruct (sharding_spec hash "" H Hc eq_refl) as [HF HP]. rewrite str_app_nil_r in *.
  unfold chunkPath. rewrite HF. cbn [map_err].
  change (Ok (E := chunk_err) (join_path (storeDir baseDir)
    (join_with "/" [str_take 1 hash; str_take 2 hash; hash])) = Ok (chunk_path baseDir hash)).
  by rewrite join_path_comps.
Qed.

Lemma valid_chunk_temp hash : valid_chunk hash = true → temp_name hash = false.
Proof.
  unfold valid_chunk, temp_name. intros Hv. bool_props.
  destruct (has_prefix "chunk-" hash) eqn:Hp; [|done].
  apply has_prefix_true in Hp as [r ->]. by rewrite !str_app_cons in *.
Qed.

Lemma chunk_temp_ne baseDir hash n d :
  valid_chunk hash = true → ("chunk-" +:+ pretty (n : nat) +:+ "") :: d ≠ chunk_path baseDir hash.
Proof.
  intros Hv%valid_chunk_temp Heq. injection Heq as Heq _ . subst hash.
  unfold temp_name in Hv. by rewrite has_prefix_app in Hv.
Qed.

Section lemmas.
Context {b : bool} (compress : string → string).
Implicit Types t : tree.

(** What [PutChunk] can leave: directories, perhaps its temporary file (whole
    or not), and the chunk if it was new. *)
Inductive chunk_outcome (p : path) (data : string) (t : tree) : bool → tree → Prop :=
  | chunk_not_put t0 : wf t0 → grow (dir p) t t0 → chunk_outcome p data t false t0
  | chunk_put t0 m :
      wf t0 → grow (dir p) t t0 → t !! p = None → wf (<[p := File m data]> t0) →
      chunk_outcome p data t true (<[p := File m data]> t0)
  | chunk_leftover st t1 n s m :
      chunk_outcome p data t st t1 → n :: dir p ≠ p → temp_name n = true →
      t1 !! (n :: dir p) = None → wf (<[n :: dir p := File m s]> t1) →
      chunk_outcome p data t st (<[n :: dir p := File m s]> t1).

Lemma chunk_outcome_wf p data t st t' : chunk_outcome p data t st t' → wf t'.
Proof. by destruct 1. Qed.

Lemma chunk_outcome_file p data t st t' q :
  chunk_outcome p data t st t' → q ≠ p → temp_name (last_elem q) = false →
  file_at q t' = file_at q t.
Proof.
  induction 1 as [t0 _ Hg|t0 m _ Hg _|st t1 n s m _ IH Hne Hn _ _]; intros Hq Ht.
  - by eapply grow_file.
  - rewrite <- (grow_file _ _ _ q Hg). unfold file_at. by rewrite lookup_insert_ne.
  - rewrite <- IH by done. unfold file_at. rewrite lookup_insert_ne; [done|].
    intros <-. simpl in Ht. congruence.
Qed.

Lemma chunk_outcome_at p data t st t' :
  chunk_outcome p data t st t' →
  file_at p t' = (if st then Some data else file_at p t) ∧ (st = true → t !! p = None).
Proof.
  induction 1 as [t0 _ Hg|t0 m _ Hg Hp|st t1 n s m _ [IH IH'] Hne Hn _ _].
  - split; [by eapply grow_file|done].
  - split; [|done]. unfold file_at. by rewrite lookup_insert_eq.
  - split; [|done]. rewrite <- IH. unfold file_at. by rewrite lookup_insert_ne.
Qed.

Definition put_temp_post (tmp p : path) (data : string) (t0 : tree)
    (r : result chunk_err (bool * Z)) (t' : tree) : Prop :=
  ∃ s, (t' = <[tmp := File 384 s]> t0 ∧
          (∀ v, r = Ok v → v = (false, Z.of_nat (String.length (compress data))) ∧ is_Some (t0 !! p)) ∧
          (b = false → is_Some (t0 !! p) ∧ is_ok r = true)) ∨
       (t' = <[p := File 384 (compress data)]> (<[tmp := File 384 s]> t0) ∧ wf t' ∧
        t0 !! p = None ∧ r = Ok (true, Z.of_nat (String.length (compress data)))).

Lemma put_temp_fail tmp p data t0 s e :
  (b = false → False) → put_temp_post tmp p data t0 (Err e) (<[tmp := File 384 s]> t0).
Proof. intros Hb. exists s. left. split_and!; [done..|]. intros. by destruct Hb. Qed.

Lemma wp_put_temp tmp p data t0 :
  wf t0 → t0 !! tmp = None → (∀ s, wf (<[tmp := File 384 s]> t0)) → p ≠ [] → tmp ≠ p →
  resolve (dir p) t0 = Ok Dir → dir p ≠ tmp →
  wp b (put_temp compress tmp p data) (put_temp_post tmp p data t0) (<[tmp := File 384 ""]> t0).
Proof.
  intros Hwf Htmp Hwft Hp Hne Hd Hdt. unfold put_temp.
  apply wp_bind, wp_try. eapply wp_mono; [apply (wp_write tmp _ 384 ""); apply lookup_insert_eq|].
  intros w t1 (s & -> & Hok & Hq). rewrite insert_insert_eq.
  apply wp_bind. destruct w as [[]|e].
  2:{ assert (b = false → False) as Hb by (intros Hb; by specialize (Hq Hb)).
      apply wp_ret, wp_bind, wp_try, wp_close; intros; apply wp_throw; by apply put_temp_fail. }
  specialize (Hok eq_refl). rewrite str_app_nil_l in Hok. subst s.
  set (t1 := <[tmp := _]> t0).
  assert (∀ w, (b = false → w = Ok ()) → wp b (c ← try (close tmp);
    match w, c with
    | Err e, _ | Ok _, Err e => throw (CIO e)
    | Ok _, Ok _ =>
        fi ← wrap CIO (stat tmp);
        let compressedSize := default 0%Z (node_size fi) in
        l ← try (link tmp p);
        match l with
        | Ok _ => mret (true, compressedSize)
        | Err e => if IsExist e then mret (false, compressedSize) else throw (CIO e)
        end
    end) (put_temp_post tmp p data t0) t1) as Hgo.
  { intros w Hw. apply wp_bind, wp_try, wp_close.
    { intros Hb. destruct w; apply wp_throw, put_temp_fail; by rewrite Hb. }
    destruct w as [[]|e]; [|apply wp_throw, put_temp_fail; intros Hb; by specialize (Hw Hb)].
    apply wp_bind, wp_wrap, wp_stat; [intros Hb; apply put_temp_fail; by rewrite Hb|].
    rewrite (resolve_Some t1 tmp (File 384 (compress data))) by (apply Hwft || apply lookup_insert_eq).
    cbn [map_err]. apply wp_bind, wp_try.
    eapply wp_mono; [apply (wp_link tmp p 384 (compress data)); [apply Hwft|apply lookup_insert_eq|done]|].
    intros [[]|e] t2 (Hwf2 & Hr).
    - destruct Hr as (-> & _ & Hpn). apply wp_ret. exists (compress data). right.
      split_and!; [done..| |done]. unfold t1 in Hpn. by rewrite lookup_insert_ne in Hpn.
    - destruct Hr as (-> & Hex & Hq'). unfold t1 in Hex, Hq'. rewrite lookup_insert_ne in Hex, Hq' by done.
      destruct (IsExist e) eqn:He; [apply wp_ret|apply wp_throw]; exists (compress data); left;
        (split; [done|]; split).
      + intros v [= <-]. auto.
      + auto.
      + done.
      + intros Hb. exfalso. destruct (Hq' Hb) as [_ ->]; [|done].
        apply resolve_Dir; [done|]. apply resolve_Dir in Hd as [?|Hd]; [by left|right|done].
        by rewrite lookup_insert_ne. }
  apply wp_try, wp_sync; [intros Hb; apply (Hgo (Err EIO)); by rewrite Hb|by apply (Hgo (Ok ()))].
Qed.

Lemma wp_PutChunk baseDir hash data t :
  wf t → valid_chunk hash = true →
  let p := chunk_path baseDir hash in
  wp b (PutChunk compress baseDir hash data) (λ r t', ∃ st,
    chunk_outcome p (compress data) t st t' ∧
    (∀ v, r = Ok v → v = (st, Z.of_nat (String.length (compress data))) ∧
       (st = false → is_Some (t !! p)))) t.
Proof.
  intros Hwf Hv p. unfold PutChunk. apply wp_bind, wp_lift. rewrite (valid_chunk_path _ _ Hv). fold p.
  assert (p ≠ []) as Hp by done.
  apply wp_bind, wp_wrap. eapply wp_mono; [by apply wp_mkdir_all|].
  intros [[]|e] t0 (Hwf0 & Hg & Hd & _); [|exists false; split; [by constructor|done]].
  specialize (Hd eq_refl). cbn [map_err]. apply wp_bind, wp_wrap.
  eapply wp_mono; [by apply wp_create_temp|].
  intros [tmp|e] t1; [|intros [-> _]; exists false; split; [by constructor|done]].
  intros (n & -> & Hn & _ & ->). cbn [map_err].
  assert (("chunk-" +:+ pretty n +:+ "") :: dir p ≠ p) as Hne by by apply chunk_temp_ne.
  assert (temp_name ("chunk-" +:+ pretty n +:+ "") = true) as Hname.
  { unfold temp_name. apply has_prefix_true. by eexists. }
  set (name := "chunk-" +:+ pretty n +:+ "") in *. clearbody name.
  assert (∀ s, wf (<[name :: dir p := File 384 s]> t0)) as Hwft.
  { intros s. apply wf_insert_file; [done..|]. by rewrite Hn. }
  assert (t0 !! p = t !! p) as Hpp.
  { destruct (Hg p) as [?|(_ & _ & Hs)]; [done|]. apply suffix_length in Hs. simpl in Hs. lia. }
  apply wp_bind, wp_try. eapply wp_mono; [apply wp_put_temp; try done; apply cons_neq|].
  intros r t1 (s & Hr). apply wp_bind, wp_try.
  destruct Hr as [(-> & Hok & _)|(-> & Hwf1 & Hpn & ->)];
    (eapply wp_mono; [by apply wp_remove|]); intros rr t2 [Hwf2 Hr]; apply wp_lift.
  - exists false. split.
    + assert (chunk_outcome p (compress data) t false t0) by by constructor.
      destruct rr; destruct Hr as [-> _]; [by rewrite delete_insert_id|by apply chunk_leftover].
    + intros v Hrv. destruct (Hok v Hrv) as [-> Hs]. split; [done|]. by rewrite <- Hpp.
  - exists true. split; [|by intros v [= <-]].
    assert (wf (<[p := File 384 (compress data)]> t0)) as Hwfp by by apply wf_insert_file; rewrite ?Hpn.
    assert (chunk_outcome p (compress data) t true (<[p := File 384 (compress data)]> t0)).
    { constructor; [done..| |done]. by rewrite <- Hpp. }
    rewrite insert_insert_ne in * by done.
    assert (<[p := File 384 (compress data)]> t0 !! (name :: dir p) = None) as Hn'.
    { by rewrite lookup_insert_ne. }
    destruct rr; destruct Hr as [-> _]; [by rewrite delete_insert_id|by apply chunk_leftover].
Qed.
End lemmas.

Section delete.
Context {b : bool}.
Implicit Types t : tree.

Lemma wp_remove_until cur stop t :
  wf t → file_at cur t = None → stop `suffix_of` cur →
  wp b (remove_until cur stop) (λ r t', r = Ok () ∧ wf t' ∧ shrink stop t t') t.
Proof.
  revert t. induction cur as [|c up IH]; intros t Hwf Hd Hs; cbn [remove_until].
  - apply suffix_nil_inv in Hs as ->. rewrite bool_decide_true by done.
    apply wp_ret. by auto using shrink_refl.
  - case_bool_decide as Hst; [apply wp_ret; by auto using shrink_refl|].
    apply suffix_of_cons in Hs as [?|Hs]; [by destruct Hst|].
    apply wp_bind, wp_try. eapply wp_mono; [by apply wp_remove|].
    intros [[]|e] t' [Hwf' Hr]; [|destruct Hr as [-> _]; apply wp_ret; by auto using shrink_refl].
    destruct Hr as (-> & n & Hn & Hno). unfold file_at in Hd. rewrite Hn in Hd.
    destruct n as [|? ?]; [|done].
    assert (file_at up (delete (c :: up) t) = None) as Hup.
    { unfold file_at. rewrite lookup_delete_ne by apply not_eq_sym, cons_neq.
      destruct (wf_parent _ Hwf _ _ _ Hn) as [->| ->]; [by rewrite (wf_root _ Hwf)|done]. }
    eapply wp_mono; [by apply IH|]. intros r t' (-> & Hwf2 & Hs2). split_and!; [done..|].
    intros q. destruct (Hs2 q) as [->|(Hq & -> & ?)].
    + destruct (decide (q = c :: up)) as [->|]; [|by rewrite lookup_delete_ne; auto].
      right. rewrite lookup_delete_eq. split_and!; [done..|]. by apply suffix_cons_r.
    + right. apply lookup_delete_Some in Hq as [_ Hq]. done.
Qed.

Lemma wp_DeleteChunk baseDir hash t :
  wf t → valid_chunk hash = true →
  let p := chunk_path baseDir hash in
  t !! p ≠ Some Dir → clear (dir p) t →
  wp b (DeleteChunk baseDir hash) (λ r t', wf t' ∧
    (∀ q, q ≠ p → file_at q t' = file_at q t) ∧
    (∀ q, ¬ storeDir baseDir `suffix_of` q → t' !! q = t !! q) ∧
    (r = Ok () → t' !! p = None) ∧ (b = false → r = Ok ())) t.
Proof.
  intros Hwf Hv p Hnd Hc. unfold DeleteChunk. apply wp_bind, wp_lift.
  rewrite (valid_chunk_path _ _ Hv). fold p.
  assert (storeDir baseDir `suffix_of` dir p) as Hsd by by do 2 apply suffix_cons_r.
  apply wp_bind, wp_try. eapply wp_mono; [by apply wp_remove|].
  intros [[]|e] t' [Hwf' Hr].
  - destruct Hr as (-> & n & Hn & _).
    assert (file_at (dir p) (delete p t) = None) as Hd.
    { unfold file_at. rewrite lookup_delete_ne by apply not_eq_sym, cons_neq. by apply Hc. }
    eapply wp_mono; [by apply wp_remove_until|]. intros r t' (-> & Hwf2 & Hs). split_and!; try done.
    + intros q Hq. rewrite (shrink_file _ _ _ _ Hs). unfold file_at. by rewrite lookup_delete_ne.
    + intros q Hq. destruct (Hs q) as [->|(_ & _ & ?)]; [|done].
      rewrite lookup_delete_ne; [done|]. intros <-. apply Hq. by apply suffix_cons_r.
    + intros _. destruct (Hs p) as [->|(_ & -> & _)]; [apply lookup_delete_eq|done].
  - destruct Hr as (-> & Hnf & Hfile & Hmiss). destruct (IsNotExist e) eqn:He.
    + apply bool_decide_eq_true in He. specialize (Hnf He).
      eapply wp_mono; [apply wp_remove_until; [done|by apply Hc|done]|].
      intros r t' (-> & Hwf2 & Hs). split_and!; try done.
      * intros q Hq. by eapply shrink_file.
      * intros q Hq. by destruct (Hs q) as [->|(_ & _ & ?)].
      * intros _. by destruct (Hs p) as [->|(_ & -> & _)].
    + apply wp_throw. split_and!; try done. intros Hb. exfalso.
      destruct (t !! p) as [[|m s]|] eqn:Hp; [done|by destruct (Hfile Hb m s)|].
      apply bool_decide_eq_false in He. by destruct He; apply Hmiss.
Qed.
End delete.

(** ** The properties *)

Section properties.
Context (compress : string → string) (decompress : string → option string).

(** [PutChunk] is atomic under faults: the chunk's file keeps its content or,
    if it was absent, appears with the whole compressed data; no other file but
    the store's own temporary ones changes; [(true, n)] means that this call
    created it and [(false, n)] that it existed, [n] being the compressed size. *)
Theorem put_chunk_atomic (baseDir : path) (hash data : string) (d : disk) :
  wf (nodes d) → valid_chunk hash = true →
  let p := chunk_path baseDir hash in
  let '(r, d') := PutChunk compress baseDir hash data d in
  wf (nodes d') ∧
  (file_at p (nodes d') = file_at p (nodes d) ∨
   (nodes d !! p = None ∧ file_at p (nodes d') = Some (compress data))) ∧
  (∀ q, q ≠ p → temp_name (last_elem q) = false → file_at q (nodes d') = file_at q (nodes d)) ∧
  (∀ new n, r = Ok (new, n) → n = size_of (compress data) ∧
     if new then nodes d !! p = None ∧ file_at p (nodes d') = Some (compress data)
     else is_Some (nodes d !! p) ∧ file_at p (nodes d') = file_at p (nodes d)).
Proof.
  intros Hwf Hv p.
  destruct (wp_run _ _ _ d (wp_PutChunk (b := true) compress baseDir hash data _ Hwf Hv) ltac:(done))
    as (_ & st & Ho & Hok). fold p in Ho, Hok.
  destruct (PutChunk compress baseDir hash data d) as [r d']. cbn [fst snd] in *.
  destruct (chunk_outcome_at _ _ _ _ _ Ho) as [Hat Hst]. split_and!.
  - by eapply chunk_outcome_wf.
  - destruct st; auto.
  - intros q Hq Ht. by eapply chunk_outcome_file.
  - intros new n Hr. destruct (Hok _ Hr) as [[= <- ->] Hex]. split; [done|].
    destruct new; auto.
Qed.

(** A stored chunk reads back: if the codec decompresses what it compressed,
    then after a [PutChunk] that created the chunk, a [GetChunk] that returns
    anything returns the data, [HasChunk] cannot say it is missing, and without
    I/O errors both succeed. *)
Theorem get_put_chunk (baseDir : path) (hash data : string) (d d' : disk) (n : Z)
    (codec : ∀ x, decompress (compress x) = Some x) :
  wf (nodes d) → valid_chunk hash = true →
  PutChunk compress baseDir hash data d = (Ok (true, n), d') →
  (∀ x, (GetChunk decompress baseDir hash d').1 = Ok x → x = data) ∧
  (HasChunk baseDir hash d').1 ≠ Ok false ∧
  (quiet false d' → (GetChunk decompress baseDir hash d').1 = Ok data ∧
     (HasChunk baseDir hash d').1 = Ok true).
Proof.
  intros Hwf Hv Hput.
  destruct (wp_run _ _ _ d (wp_PutChunk (b := true) compress baseDir hash data _ Hwf Hv) ltac:(done))
    as (_ & st & Ho & Hok). rewrite Hput in *. cbn [fst snd] in *.
  destruct (Hok _ eq_refl) as [[= <- _] _]. pose proof (chunk_outcome_wf _ _ _ _ _ Ho) as Hwf'.
  apply chunk_outcome_at in Ho as [Hat _]. set (p := chunk_path baseDir hash) in *.
  assert (∃ m, nodes d' !! p = Some (File m (compress data))) as [m Hp].
  { unfold file_at in Hat. destruct (nodes d' !! p) as [[|m c]|]; try done.
    injection Hat as <-. by eexists. }
  assert (∀ b, wp b (GetChunk decompress baseDir hash) (λ r t',
    (∀ x, r = Ok x → x = data) ∧ (b = false → r = Ok data)) (nodes d')) as Hget.
  { intros b. unfold GetChunk. apply wp_bind, wp_lift. rewrite (valid_chunk_path _ _ Hv). fold p.
    apply wp_bind, wp_try, wp_stat.
    - intros Hb. apply wp_throw. by rewrite Hb.
    - rewrite (resolve_Some _ _ _ Hwf' Hp). apply wp_lift. rewrite codec. simpl.
      split; [by intros x [= <-]|done]. }
  assert (∀ b, wp b (HasChunk baseDir hash) (λ r t',
    r ≠ Ok false ∧ (b = false → r = Ok true)) (nodes d')) as Hhas.
  { intros b. unfold HasChunk. apply wp_bind, wp_lift. rewrite (valid_chunk_path _ _ Hv). fold p.
    apply wp_bind, wp_try, wp_stat.
    - intros Hb. apply wp_throw. by rewrite Hb.
    - rewrite (resolve_Some _ _ _ Hwf' Hp). by apply wp_ret. }
  split_and!.
  - by apply (Hget true d' eq_refl ltac:(done)).
  - by apply (Hhas true d' eq_refl ltac:(done)).
  - intros Hq. split; [by apply (Hget false d' eq_refl Hq)|by apply (Hhas false d' eq_refl Hq)].
Qed.

(** [DeleteChunk] under faults removes at most the chunk's own file and empty
    directories of the chunk tree; success means that the chunk is gone, and
    deleting an absent chunk succeeds. *)
Theorem delete_chunk_confined (baseDir : path) (hash : string) (d : disk) :
  let p := chunk_path baseDir hash in
  wf (nodes d) → valid_chunk hash = true → nodes d !! p ≠ Some Dir → clear (dir p) (nodes d) →
  let '(r, d') := DeleteChunk baseDir hash d in
  wf (nodes d') ∧ (∀ q, q ≠ p → file_at q (nodes d') = file_at q (nodes d)) ∧
  (∀ q, ¬ storeDir baseDir `suffix_of` q → nodes d' !! q = nodes d !! q) ∧
  (r = Ok () → nodes d' !! p = None) ∧ (quiet false d → r = Ok ()).
Proof.
  intros p Hwf Hv Hnd Hc.
  destruct (wp_run _ _ _ d (wp_DeleteChunk (b := true) baseDir hash _ Hwf Hv Hnd Hc) ltac:(done))
    as (_ & Hwf' & Hf & Ho & Hok & _).
  assert (quiet false d → (DeleteChunk baseDir hash d).1 = Ok ()) as Hq.
  { intros Hq. by apply (wp_run _ _ _ d (wp_DeleteChunk (b := false) baseDir hash _ Hwf Hv Hnd Hc) Hq). }
  by destruct (DeleteChunk baseDir hash d) as [r d'].
Qed.
End properties.

(** ** A leftover temporary file is an undeletable chunk *)

Definition chunk_base : path := ["c"].
Definition chunk_disk (fs : list (option fault)) : disk := mkDisk {[["c"] := Dir]} fs [].
Definition sample_chunk : string := "abcdef0123456789".

Definition list_chunks : disk → result chunk_err (list string) * disk :=
  WalkChunks chunk_base (λ l h, Ok (l ++ [h])) [].

(** When [PutChunk] cannot remove its temporary file (or the process dies
    first), [WalkChunks] reports the file's name as a chunk hash; deleting the
    chunk of that name succeeds without removing the file, so it is reported
    again for ever. *)
Theorem leftover_temp_listed :
  let d1 := (PutChunk id chunk_base sample_chunk "data" (chunk_disk (replicate 13 None ++ [Some (mkFault 0 (λ _, false))]))).2 in
  (list_chunks d1).1 = Ok [sample_chunk; "chunk-0"] ∧
  (DeleteChunk chunk_base "chunk-0" d1).1 = Ok () ∧
  (list_chunks (DeleteChunk chunk_base "chunk-0" d1).2).1 = Ok [sample_chunk; "chunk-0"].
Proof. vm_compute. done. Qed.

(** ** Witnesses *)

Definition chunk_new : disk := chunk_disk [].

Lemma chunk_new_wf : wf (nodes chunk_new).
Proof.
  split; [done|]. intros c q n Hc. simpl in Hc.
  apply lookup_singleton_Some in Hc as [[= <- <-] _]. by left.
Qed.

Lemma put_chunk_atomic_witness :
  (PutChunk id chunk_base sample_chunk "data" chunk_new).1 = Ok (true, 4%Z) ∧
  wf (nodes (PutChunk id chunk_base sample_chunk "data" chunk_new).2).
Proof.
  split; [reflexivity|].
  pose proof (put_chunk_atomic id chunk_base sample_chunk "data" chunk_new chunk_new_wf eq_refl) as Hp.
  destruct (PutChunk id chunk_base sample_chunk "data" chunk_new) as [r d']. apply Hp.
Defined.

Lemma get_put_chunk_witness :
  (GetChunk Some chunk_base sample_chunk (PutChunk id chunk_base sample_chunk "data" chunk_new).2).1 =
    Ok "data".
Proof.
  destruct (get_put_chunk id Some chunk_base sample_chunk "data" chunk_new
    (PutChunk id chunk_base sample_chunk "data" chunk_new).2 4%Z (λ x, eq_refl)
    chunk_new_wf eq_refl) as (_ & _ & Hq); [reflexivity|]. apply Hq. intros _. vm_compute. constructor.
Defined.

Lemma delete_chunk_confined_witness :
  (DeleteChunk chunk_base sample_chunk chunk_new).1 = Ok () ∧
  wf (nodes (DeleteChunk chunk_base sample_chunk chunk_new).2).
Proof.
  pose proof (delete_chunk_confined chunk_base sample_chunk chunk_new) as Hd.
  assert (clear (dir (chunk_path chunk_base sample_chunk)) (nodes chunk_new)) as Hc.
  { intros q _. unfold file_at. simpl. destruct ({[["c"] := Dir]} !! q) as [n|] eqn:Hn; [|done].
    by apply lookup_singleton_Some in Hn as [_ <-]. }
  specialize (Hd chunk_new_wf eq_refl ltac:(vm_compute; congruence) Hc).
  destruct (DeleteChunk chunk_base sample_chunk chunk_new) as [r d'].
  destruct Hd as (Hw & _ & _ & _ & Hq). split; [apply Hq; intros _; constructor|exact Hw].
Defined.
