(* ===== verification/Staging.v ===== *)
(** * In-flight NAR staging ([pkg/cache/inflight_staging*.go])

    While one replica downloads a NAR, it can publish what it has so far as
    numbered part-objects in shared storage, with a row of [staging_state] that
    counts them; readers on other replicas tail the parts.  The operations are
    written against an interface of part stores ([PartStore]), which the local
    store implements below; then the processes are interleaved step by step. *)
From S2P Require Import Prelude GoStd Nar FS LocalStore.

(** ** The interface of part stores *)

Class PartStore := {
  pst : Type;
  part : pst → string → Z → option string;
  put_part : string → Z → string → pst → result store_err Z * pst;
  get_part : string → Z → pst → result store_err string * pst;
  delete_parts : string → pst → result store_err unit * pst;
}.

(** What [storage.NarStore] promises of its staging methods.  [pst_ok] is the
    store's own invariant and [pst_hash] its names. *)
Class PartStoreLaws (P : PartStore) := {
  pst_ok : pst → Prop;
  pst_hash : string → Prop;
  put_part_law h i data s :
    pst_ok s → pst_hash h → (0 ≤ i)%Z →
    let '(r, s') := put_part h i data s in
    pst_ok s' ∧
    (part s' h i = part s h i ∨ part s' h i = Some data) ∧
    (∀ h' i', pst_hash h' → (0 ≤ i')%Z → (h', i') ≠ (h, i) → part s' h' i' = part s h' i') ∧
    (∀ n, r = Ok n → part s' h i = Some data);
  get_part_law h i s :
    pst_ok s → pst_hash h →
    let '(r, s') := get_part h i s in
    pst_ok s' ∧ (∀ h' i', part s' h' i' = part s h' i') ∧
    (∀ x, r = Ok x → part s h i = Some x) ∧ (r = Err ErrNotFound → part s h i = None);
  delete_parts_law h s :
    pst_ok s → pst_hash h →
    let '(r, s') := delete_parts h s in
    pst_ok s' ∧
    (∀ i x, part s' h i = Some x → part s h i = Some x) ∧
    (∀ h' i', pst_hash h' → h' ≠ h → part s' h' i' = part s h' i') ∧
    (r = Ok () → ∀ i, part s' h i = None);
}.

(** ** The rows of [staging_state] *)

Record StagingState := mkStaging {
  requested_at : option Z;
  parts_available : Z;
  compression : string;
  status : string;
  created_at : Z;
  updated_at : option Z;
}.

Definition stagingStatusRequested : string := "requested".
Definition stagingStatusStaging : string := "staging".
Definition stagingStatusComplete : string := "complete".

Inductive stg_err :=
  | SDb
  | SStore (e : store_err)
  | SStateMissing
  | SReadTemp
  | SCanceled
  | SNoTempFile
  | SOpen (e : fs_err)
  | SStall
  | SReset
  | SEOF.

#[global] Instance stg_err_eq_dec : EqDecision stg_err.
Proof. solve_decision. Defined.

(** [isNoneCompression] and [compressedRequestNeedsUpstreamFallback] *)
Definition isNoneCompression (ct : string) : bool :=
  bool_decide (ct = CompressionTypeNone ∨ ct = "").

Definition compressedRequestNeedsUpstreamFallback (requested available : string) : bool :=
  negb (isNoneCompression requested) && negb (bool_decide (requested = available)).

Definition defaultInflightStagingPartSize : Z := Z.shiftl 8 20.

(** [SetInflightStaging]'s state, and its accessors. *)
Record config := mkConfig {
  inflightStagingFlag : bool;
  inflightStagingRetention : Z;
  inflightStagingPartSize : Z;
  lockerIsDistributed : bool;
  downloadLockTTL : Z;
  downloadPollTimeout : Z;
}.

Definition SetInflightStaging (enabled : bool) (retention partSize : Z) (distributed : bool)
    (c : config) : config :=
  mkConfig enabled (if (retention <? 0)%Z then 0%Z else retention)
    (if (partSize <=? 0)%Z then Z.shiftl 8 20 else partSize) distributed
    (downloadLockTTL c) (downloadPollTimeout c).

Definition InflightStagingEnabled (c : config) : bool :=
  inflightStagingFlag c && lockerIsDistributed c.

Definition shouldCoordinateInflight (compression : string) (c : config) : bool :=
  if negb (bool_decide (compression = CompressionTypeNone)) then true
  else InflightStagingEnabled c.

Definition stagingOrphanAge (c : config) : Z :=
  let bound := downloadLockTTL c in
  let bound := if (bound <? downloadPollTimeout c)%Z then downloadPollTimeout c else bound in
  (bound + inflightStagingRetention c)%Z.

Section staging.
Context {P : PartStore}.

(** The shared state: the part store, the rows, the faults of the coming
    queries, and the clock. *)
Record World := mkWorld {
  store : pst;
  rows : gmap string StagingState;
  db : list bool;
  clock : Z;
}.

Notation sio := (eff World stg_err).

(** A statement of the database; it fails when the script says so. *)
Definition query {A} (f : Z → gmap string StagingState → A * gmap string StagingState) : sio A := λ w,
  match db w with
  | true :: q => (Err SDb, mkWorld (store w) (rows w) q (clock w))
  | q => let '(a, rs) := f (clock w) (rows w) in (Ok a, mkWorld (store w) rs (tail q) (clock w))
  end.

(** A call of the part store. *)
Definition with_store {A} (f : pst → result store_err A * pst) : eff World store_err A := λ w,
  let '(r, s) := f (store w) in (r, mkWorld s (rows w) (db w) (clock w)).

(** [UPDATE ... WHERE hash = ?], with the number of rows it changed. *)
Definition update (hash : string) (f : Z → StagingState → StagingState) : sio nat :=
  query (λ now rs,
    match rs !! hash with
    | Some st => (1, <[hash := f now st]> rs)
    | None => (0, rs)
    end).

Definition markStagingRequested (hash : string) : sio unit :=
  query (λ now rs,
    match rs !! hash with
    | Some _ => ((), rs)
    | None => ((), <[hash := mkStaging (Some now) 0 "" stagingStatusRequested now None]> rs)
    end).

Definition getStagingState (hash : string) : sio (option StagingState) :=
  query (λ now rs, (rs !! hash, rs)).

Definition advanceStagingParts (hash : string) (partsAvailable : Z) (compression : string) : sio unit :=
  n ← update hash (λ now st,
    mkStaging (requested_at st) partsAvailable compression stagingStatusStaging (created_at st) (Some now));
  if bool_decide (n = 0) then throw SStateMissing else mret ().

Definition markStagingComplete (hash : string) : sio unit :=
  n ← update hash (λ now st,
    mkStaging (requested_at st) (parts_available st) (compression st) stagingStatusComplete
      (created_at st) (Some now));
  if bool_decide (n = 0) then throw SStateMissing else mret ().

Definition resetStagingState (hash : string) : sio unit :=
  _ ← update hash (λ now st,
    mkStaging (requested_at st) 0 (compression st) stagingStatusRequested (created_at st) (updated_at st));
  mret ().

Definition deleteStagingState (hash : string) : sio unit :=
  query (λ now rs, ((), delete hash rs)).

(** [stagingRequested] *)
Definition stagingRequested (hash : string) : sio bool :=
  r ← try (getStagingState hash);
  mret (match r with
        | Ok (Some st) => bool_decide (status st = stagingStatusRequested)
        | _ => false
        end).

(** [stagingServeReady], with the compression the parts hold. *)
Definition stagingServeReady (hash : string) : sio (option string) :=
  r ← try (getStagingState hash);
  mret (match r with
        | Ok (Some st) => if (parts_available st <=? 0)%Z then None else Some (compression st)
        | _ => None
        end).

(** ** Cleaning *)

Definition reclaimStaging (hash : string) : sio unit :=
  wrap SStore (with_store (delete_parts hash));;
  deleteStagingState hash.

Definition resetStagingForTakeover (hash : string) : sio unit :=
  wrap SStore (with_store (delete_parts hash));;
  resetStagingState hash.

(** [sweepStagingGC]: the rows in the order the query returns them. *)
Definition due (now retention orphanAge : Z) (st : StagingState) : bool :=
  let ref := default (created_at st) (updated_at st) in
  let stale := (now - ref)%Z in
  if bool_decide (status st = stagingStatusComplete) then (retention <? stale)%Z
  else (orphanAge <? stale)%Z.

Fixpoint sweep_rows (now retention orphanAge : Z) (l : list (string * StagingState)) (reclaimed : Z) :
    sio Z :=
  match l with
  | [] => mret reclaimed
  | (hash, st) :: l =>
      if negb (due now retention orphanAge st) then sweep_rows now retention orphanAge l reclaimed else
      r ← try (reclaimStaging hash);
      match r with
      | Err _ => sweep_rows now retention orphanAge l reclaimed
      | Ok _ => sweep_rows now retention orphanAge l (reclaimed + 1)%Z
      end
  end.

Definition sweepStagingGC (retention orphanAge : Z) : sio Z :=
  l ← query (λ now rs, (map_to_list rs, rs));
  w ← get;
  sweep_rows (clock w) retention orphanAge l 0.

(** [runStagingGC], without its logging. *)
Definition runStagingGC (c : config) : sio unit :=
  if negb (InflightStagingEnabled c) then mret () else
  _ ← try (sweepStagingGC (inflightStagingRetention c) (stagingOrphanAge c));
  mret ().

(** ** The producer *)

(** The producer tails the temporary file: the bytes still to come and whether
    the download then ends in an error.  It is between a read and a put, between
    the put and the row's update, or past both with the read's error. *)
Inductive read_end := ReadMore | ReadEOF | ReadFailed.

Inductive prod_phase :=
  | PRead
  | PAdvance (next : read_end)
  | PEnd (next : read_end).

Record producer := mkProd {
  p_rest : string;
  p_fails : bool;
  p_size : nat;
  p_comp : string;
  p_index : Z;
  p_phase : prod_phase;
}.

(** [io.ReadFull(reader, buf)]: the bytes read, and how the reading went. *)
Definition read_full (p : producer) : string * read_end :=
  (str_take (p_size p) (p_rest p),
   if (p_size p <=? String.length (p_rest p))%nat then ReadMore
   else if p_fails p then ReadFailed else ReadEOF).

(** One step of the loop of [produceStagingParts]; [None] when it has returned. *)
Definition producer_step (hash : string) (p : producer) : sio (option producer) :=
  match p_phase p with
  | PRead =>
      let '(data, next) := read_full p in
      if bool_decide (data = "") then
        mret (Some (mkProd (p_rest p) (p_fails p) (p_size p) (p_comp p) (p_index p) (PEnd next)))
      else
        wrap SStore (with_store (put_part hash (p_index p) data));;
        mret (Some (mkProd (str_drop (p_size p) (p_rest p)) (p_fails p) (p_size p) (p_comp p)
          (p_index p + 1) (PAdvance next)))
  | PAdvance next =>
      advanceStagingParts hash (p_index p) (p_comp p);;
      mret (Some (mkProd (p_rest p) (p_fails p) (p_size p) (p_comp p) (p_index p) (PEnd next)))
  | PEnd ReadEOF => markStagingComplete hash;; mret None
  | PEnd ReadFailed => throw SReadTemp
  | PEnd ReadMore =>
      mret (Some (mkProd (p_rest p) (p_fails p) (p_size p) (p_comp p) (p_index p) PRead))
  end.

Fixpoint produce_loop (fuel : nat) (hash : string) (p : producer) : sio unit :=
  match fuel with
  | 0 => mret ()
  | S fuel =>
      r ← producer_step hash p;
      match r with None => mret () | Some p => produce_loop fuel hash p end
  end.

(** The size of the buffer: the configured size, or the default one. *)
Definition part_size (c : config) : nat :=
  Z.to_nat (if (inflightStagingPartSize c <=? 0)%Z then defaultInflightStagingPartSize
            else inflightStagingPartSize c).

(** The loop of [produceStagingParts] on a temporary file that yields [body];
    three steps per part and two at the end are enough. *)
Definition produce_from (c : config) (hash comp : string) (body : Reader) : sio unit :=
  produce_loop (3 * String.length (bytes body) + 5) hash
    (mkProd (bytes body) (fails body) (part_size c) comp 0 PRead).

(** What [produceStagingParts] finds in the download's state once it has
    started ([None]: the context was cancelled first), and the outcome of opening
    the temporary file: what reading it yields. *)
Record download := mkDownload {
  assetPath : string;
  tempFileCompression : string;
  downloadError : option stg_err;
  open_temp : result fs_err Reader;
}.

Definition produceStagingParts (c : config) (hash : string) (started : option download) : sio unit :=
  match started with
  | None => throw SCanceled
  | Some ds =>
      match downloadError ds with
      | Some e => throw e
      | None =>
          if bool_decide (assetPath ds = "") then throw SNoTempFile else
          match open_temp ds with
          | Err ENOENT => mret ()
          | Err e => throw (SOpen e)
          | Ok body => produce_from c hash (tempFileCompression ds) body
          end
      end
  end.

(** [waitForStagingRequest]: what the [select] of each round receives; the
    context is cancelled when there is nothing more. *)
Inductive wake := WTick | WDone | WCancel.

Fixpoint wait_loop (hash : string) (ws : list wake) : sio bool :=
  match ws with
  | [] | WCancel :: _ => mret false
  | WDone :: _ => stagingRequested hash
  | WTick :: ws =>
      r ← stagingRequested hash;
      if r : bool then mret true else wait_loop hash ws
  end.

Definition waitForStagingRequest (hash : string) (ws : list wake) : sio bool :=
  r ← stagingRequested hash;
  if r : bool then mret true else wait_loop hash ws.

(** [stageInflightNar]: whether it schedules the reclaim of the parts. *)
Definition stageInflightNar (c : config) (hash : string) (ws : list wake) (started : option download) :
    sio bool :=
  if negb (InflightStagingEnabled c) then mret false else
  r ← waitForStagingRequest hash ws;
  if negb r then mret false else
  x ← try (produceStagingParts c hash started);
  mret (is_ok x).

(** [scheduleStagingReclaim]: after the grace, unless [Close] comes first. *)
Definition scheduleStagingReclaim (hash : string) (closed_first : bool) : sio unit :=
  if closed_first then mret () else
  _ ← try (reclaimStaging hash);
  mret ().

(** ** The reader *)

(** A [stagingPartReader]: waiting for its next part, about to open it, or ended
    with an error ([SEOF] is the clean end). *)
Inductive reader_phase := RPoll | RGet | REnd (e : stg_err).

Record reader := mkReaderState {
  r_index : Z;
  r_out : string;
  r_phase : reader_phase;
}.

(** One iteration of the loop of [openPart], in two steps, with the part's bytes
    drained by [Read]. *)
Definition reader_step (hash : string) (r : reader) : eff World Empty_set reader :=
  match r_phase r with
  | RPoll =>
      st ← try (getStagingState hash);
      mret (match st with
        | Err e => mkReaderState (r_index r) (r_out r) (REnd e)
        | Ok None => mkReaderState (r_index r) (r_out r) (REnd SReset)
        | Ok (Some st) =>
            if (r_index r <? parts_available st)%Z
            then mkReaderState (r_index r) (r_out r) RGet
            else if bool_decide (status st = stagingStatusComplete)
            then mkReaderState (r_index r) (r_out r) (REnd SEOF)
            else r
        end)
  | RGet =>
      x ← try (with_store (get_part hash (r_index r)));
      mret (match x with
        | Ok data => mkReaderState (r_index r + 1) (r_out r +:+ data) RPoll
        | Err ErrNotFound => mkReaderState (r_index r) (r_out r) RPoll
        | Err e => mkReaderState (r_index r) (r_out r) (REnd (SStore e))
        end)
  | REnd _ => mret r
  end.

Definition newStagingPartReader : reader := mkReaderState 0 "" RPoll.

(** Reading to the end with nothing else going on; the per-part bound is in
    polls. *)
Fixpoint read_all (fuel : nat) (hash : string) (r : reader) : eff World Empty_set reader :=
  match fuel with
  | 0 => mret r
  | S fuel => r ← reader_step hash r; read_all fuel hash r
  end.

(** ** Serving *)

(** [serveNarFromStaging]: the served compression, and whether the parts go
    through the decompressor. *)
Definition serveNarFromStaging (narURL_compression staged requested : string) :
    result store_err (string * bool) :=
  if compressedRequestNeedsUpstreamFallback requested staged then Err ErrNotFound
  else if negb (isNoneCompression staged) && isNoneCompression narURL_compression
  then Ok (CompressionTypeNone, true)
  else Ok (staged, false).
End staging.

(** ** The local store is a part store *)

#[export] Instance local_parts (s : LocalStore.Store) : PartStore := {
  pst := disk;
  part d h i := part_at s h i (nodes d);
  put_part h i data := PutStagingPart s h i (mkReader data false);
  get_part h i d :=
    match GetStagingPart s h i d with
    | (Ok (File _ c), d) => (Ok c, d)
    | (Ok Dir, d) => (Err (ErrIO EISDIR), d)
    | (Err e, d) => (Err e, d)
    end;
  delete_parts h := DeleteStagingParts s h;
}.

#[export] Instance local_parts_laws (s : LocalStore.Store) : PartStoreLaws (local_parts s).
Proof.
  refine {| pst_ok := λ d : @pst (local_parts s), wf (nodes d); pst_hash := λ h, plain h = true |}; simpl.
  - intros h i data d Hok Hh Hi.
    pose proof (put_part_facts s h i (mkReader data false) d Hok Hh) as Hp.
    destruct (PutStagingPart s h i (mkReader data false) d) as [r d'].
    destruct Hp as (Hwf & Hpart & Ho & _ & Hr & _). split_and!; [done| |done|].
    + by destruct Hpart as [?|[? _]]; auto.
    + intros n Hn. by apply (Hr n).
  - intros h i d Hok Hh. pose proof (get_part_facts s h i d Hok Hh) as Hg.
    destruct (GetStagingPart s h i d) as [[[|m c]|e] d']; destruct Hg as (Hn & Hf & Hm); rewrite Hn;
      split_and!; try done.
    + intros x [= <-]. by eapply Hf.
    + intros Hr. apply Hm. congruence.
  - intros h d Hok Hh. pose proof (delete_parts_facts s h d Hok Hh) as Hd.
    destruct (DeleteStagingParts s h d) as [r d'].
    destruct Hd as (Hwf & Hr & Hsub & _ & Ho). split_and!; [done|done| |done]. intros h' i' Hh' Hne. by apply Ho.
Defined.

(** ** The processes, interleaved *)

(** A cleaner is [reclaimStaging] or [resetStagingForTakeover], before its part
    deletion or before its row statement. *)
Inductive cleaner := CReclaimParts | CReclaimRow | CResetParts | CResetRow.

#[global] Instance cleaner_eq_dec : EqDecision cleaner.
Proof. solve_decision. Defined.

Section interleaving.
Context {P : PartStore}.

Record sys := mkSys {
  world : World;
  producers : gmap nat producer;
  readers : gmap nat reader;
  cleaners : gmap nat cleaner;
}.

Definition cleaner_step (hash : string) (c : cleaner) : eff World stg_err (option cleaner) :=
  match c with
  | CReclaimParts => wrap SStore (with_store (delete_parts hash));; mret (Some CReclaimRow)
  | CReclaimRow => deleteStagingState hash;; mret None
  | CResetParts => wrap SStore (with_store (delete_parts hash));; mret (Some CResetRow)
  | CResetRow => resetStagingState hash;; mret None
  end.

(** The scheduler's choices.  A producer starts on a temporary file once it saw
    a request; processes may stop at any time ([EvKill], [EvCleanKill]); a read
    may end with any error but the clean end ([EvReadFail]: stall, cancellation,
    a failing transfer). *)
Inductive event :=
  | EvTick (now : Z)
  | EvRequest
  | EvStart (t : nat) (p : producer)
  | EvProduce (t : nat)
  | EvKill (t : nat)
  | EvClean (t : nat) (c : cleaner)
  | EvCleanStep (t : nat)
  | EvCleanKill (t : nat)
  | EvOpen (t : nat)
  | EvRead (t : nat)
  | EvReadFail (t : nat) (e : stg_err).

Definition idle {A} (m : gmap nat A) : bool := bool_decide (size m = 0).

(** With [fenced], only one process writes at a time, as the download lock means
    to ensure: a producer starts when no producer or cleaner runs, and a cleaner
    when no producer runs. *)
Definition apply_event (fenced : bool) (hash : string) (e : event) (s : sys) : option sys :=
  let w := world s in
  match e with
  | EvTick now =>
      Some (mkSys (mkWorld (store w) (rows w) (db w) now) (producers s) (readers s) (cleaners s))
  | EvRequest =>
      let '(_, w) := markStagingRequested hash w in
      Some (mkSys w (producers s) (readers s) (cleaners s))
  | EvStart t p =>
      let '(r, w) := stagingRequested hash w in
      if bool_decide (r = Ok true) && bool_decide (producers s !! t = None :> option producer)
         && (negb fenced || (idle (producers s) && idle (cleaners s)))
      then Some (mkSys w (<[t := p]> (producers s)) (readers s) (cleaners s)) else None
  | EvProduce t =>
      p ← producers s !! t;
      Some (match producer_step hash p w with
        | (Ok (Some p), w) => mkSys w (<[t := p]> (producers s)) (readers s) (cleaners s)
        | (_, w) => mkSys w (delete t (producers s)) (readers s) (cleaners s)
        end)
  | EvKill t => Some (mkSys w (delete t (producers s)) (readers s) (cleaners s))
  | EvClean t c =>
      if bool_decide (c = CReclaimParts ∨ c = CResetParts) && (negb fenced || idle (producers s))
      then Some (mkSys w (producers s) (readers s) (<[t := c]> (cleaners s))) else None
  | EvCleanStep t =>
      c ← cleaners s !! t;
      Some (match cleaner_step hash c w with
        | (Ok (Some c), w) => mkSys w (producers s) (readers s) (<[t := c]> (cleaners s))
        | (_, w) => mkSys w (producers s) (readers s) (delete t (cleaners s))
        end)
  | EvCleanKill t => Some (mkSys w (producers s) (readers s) (delete t (cleaners s)))
  | EvOpen t => Some (mkSys w (producers s) (<[t := newStagingPartReader]> (readers s)) (cleaners s))
  | EvRead t =>
      r ← readers s !! t;
      match reader_step hash r w with
      | (Ok r, w) => Some (mkSys w (producers s) (<[t := r]> (readers s)) (cleaners s))
      | (Err _, _) => None
      end
  | EvReadFail t e =>
      r ← readers s !! t;
      if bool_decide (e = SEOF) then None else
      Some (mkSys w (producers s) (<[t := mkReaderState (r_index r) (r_out r) (REnd e)]> (readers s))
        (cleaners s))
  end.

Fixpoint run_events (fenced : bool) (hash : string) (es : list event) (s : sys) : option sys :=
  match es with
  | [] => Some s
  | e :: es => s' ← apply_event fenced hash e s; run_events fenced hash es s'
  end.

(** Nothing staged and nobody at work; the store, the faults of the queries and
    the other rows are arbitrary. *)
Definition start (w : World) : sys := mkSys w ∅ ∅ ∅.
End interleaving.

(** ** The invariant of fenced staging *)

Section invariant.
Context {P : PartStore} {L : PartStoreLaws P}.

(** The NAR's bytes, the size of a part, and the hash. *)
Context (content : string) (sz : nat) (hash : string).
Context (sz_pos : 0 < sz) (hash_ok : pst_hash hash).

Definition chunk (k : nat) : string := str_take sz (str_drop (k * sz) content).

Definition covers (k : nat) : Prop := String.length content ≤ k * sz.

(** Every part in the store is the chunk of its index. *)
Definition parts_inv (s : pst) : Prop :=
  pst_ok s ∧ ∀ k d, part s hash (Z.of_nat k) = Some d → d = chunk k.

Definition row_inv (o : option StagingState) : Prop :=
  ∀ st, o = Some st → ∃ k, parts_available st = Z.of_nat k ∧
    (status st = stagingStatusRequested → k = 0) ∧
    (status st = stagingStatusComplete → covers k).

Definition producer_inv (o : option StagingState) (p : producer) : Prop :=
  p_size p = sz ∧ p_fails p = false ∧ ∃ st k, o = Some st ∧ p_index p = Z.of_nat k ∧
    p_rest p = str_drop (k * sz) content ∧
    match p_phase p with
    | PRead | PEnd ReadMore => parts_available st = Z.of_nat k
    | PEnd ReadEOF => parts_available st = Z.of_nat k ∧ covers k
    | PAdvance ReadMore => True
    | PAdvance ReadEOF => covers k
    | _ => False
    end.

Definition reader_inv (r : reader) : Prop :=
  ∃ k, r_index r = Z.of_nat k ∧ r_out r = str_take (k * sz) content ∧
    (r_phase r = REnd SEOF → covers k).

Record sys_inv (s : sys) : Prop := {
  inv_parts : parts_inv (store (world s));
  inv_row : row_inv (rows (world s) !! hash);
  inv_prod t p : producers s !! t = Some p → producer_inv (rows (world s) !! hash) p;
  inv_one t t' : is_Some (producers s !! t) → is_Some (producers s !! t') → t = t';
  inv_fence : producers s = ∅ ∨ cleaners s = ∅;
  inv_read t r : readers s !! t = Some r → reader_inv r;
}.

(** *** Effects of the statements *)

Lemma query_cases {A} (f : Z → gmap string StagingState → A * gmap string StagingState) (w : World) :
  (∃ w', query f w = (Err SDb, w') ∧ store w' = store w ∧ rows w' = rows w) ∨
  (∃ w', query f w = (Ok (f (clock w) (rows w)).1, w') ∧ store w' = store w ∧
     rows w' = (f (clock w) (rows w)).2).
Proof.
  unfold query. destruct w as [s rs [|[] q] now]; simpl.
  - right. destruct (f now rs). by eexists.
  - left. by eexists.
  - right. destruct (f now rs). by eexists.
Qed.

(** A statement that keeps the row, or fails. *)
Lemma get_cases (w : World) :
  ∃ w' r, getStagingState hash w = (r, w') ∧ store w' = store w ∧ rows w' = rows w ∧
    (r = Err SDb ∨ r = Ok (rows w !! hash)).
Proof.
  unfold getStagingState. destruct (query_cases (λ now rs, (rs !! hash, rs)) w)
    as [(w' & -> & ? & ?)|(w' & -> & ? & ?)]; eauto 10.
Qed.

Lemma update_cases (f : Z → StagingState → StagingState) (w : World) :
  ∃ w' r, update hash f w = (r, w') ∧ store w' = store w ∧
    ((r = Err SDb ∧ rows w' = rows w) ∨
     (r = Ok 0 ∧ rows w !! hash = None ∧ rows w' = rows w) ∨
     (∃ st, r = Ok 1 ∧ rows w !! hash = Some st ∧ rows w' = <[hash := f (clock w) st]> (rows w))).
Proof.
  unfold update. match goal with |- context [query ?g] => destruct (query_cases g w)
    as [(w' & -> & ? & ?)|(w' & -> & ? & Hr)] end; [eauto 10|].
  exists w'. eexists. split; [done|]. split; [done|]. right.
  destruct (rows w !! hash) as [st|] eqn:Hst; simpl in *; [right; eauto|by left].
Qed.

Lemma advance_cases n c (w : World) :
  ∃ w' r, advanceStagingParts hash n c w = (r, w') ∧ store w' = store w ∧
    ((is_ok r = false ∧ rows w' = rows w) ∨
     (∃ st st', r = Ok () ∧ rows w !! hash = Some st ∧ rows w' = <[hash := st']> (rows w) ∧
        parts_available st' = n ∧ status st' = stagingStatusStaging)).
Proof.
  unfold advanceStagingParts, mbind, eff_bind.
  match goal with |- context [update hash ?g] => destruct (update_cases g w)
    as (w' & r & -> & Hs & [[-> Hr]|[(-> & _ & Hr)|(st & -> & Hst & Hr)]]) end; eauto 10.
  all: exists w', (Ok ()); split; [done|]; split; [done|]; right; eauto 10.
Qed.

Lemma complete_cases (w : World) :
  ∃ w' r, markStagingComplete hash w = (r, w') ∧ store w' = store w ∧
    ((is_ok r = false ∧ rows w' = rows w) ∨
     (∃ st st', r = Ok () ∧ rows w !! hash = Some st ∧ rows w' = <[hash := st']> (rows w) ∧
        parts_available st' = parts_available st ∧ status st' = stagingStatusComplete)).
Proof.
  unfold markStagingComplete, mbind, eff_bind.
  match goal with |- context [update hash ?g] => destruct (update_cases g w)
    as (w' & r & -> & Hs & [[-> Hr]|[(-> & _ & Hr)|(st & -> & Hst & Hr)]]) end; eauto 10.
  all: exists w', (Ok ()); split; [done|]; split; [done|]; right; eauto 10.
Qed.

Lemma reset_cases (w : World) :
  ∃ w' r, resetStagingState hash w = (r, w') ∧ store w' = store w ∧
    (rows w' = rows w ∨
     (∃ st', rows w' = <[hash := st']> (rows w) ∧ parts_available st' = 0%Z ∧
        status st' = stagingStatusRequested)).
Proof.
  unfold resetStagingState, mbind, eff_bind.
  match goal with |- context [update hash ?g] => destruct (update_cases g w)
    as (w' & r & -> & Hs & [[-> Hr]|[(-> & _ & Hr)|(st & -> & Hst & Hr)]]) end; eauto 10.
  all: exists w', (Ok ()); split; [done|]; split; [done|]; right; eauto 10.
Qed.

(** *** Each event preserves the invariant *)

Lemma covers_take k : covers k → str_take (k * sz) content = content.
Proof. intros Hc. by apply str_take_all. Qed.

Lemma chunk_next k : str_take (k * sz) content +:+ chunk k = str_take (S k * sz) content.
Proof. unfold chunk. rewrite <- str_take_add. f_equal. lia. Qed.

Lemma rest_next k : str_drop sz (str_drop (k * sz) content) = str_drop (S k * sz) content.
Proof. rewrite str_drop_drop. f_equal. lia. Qed.

(** The row under a live producer. *)
Lemma producer_row o p : producer_inv o p → ∃ st, o = Some st.
Proof. intros (_ & _ & st & k & -> & _). by exists st. Qed.

Lemma producer_step_inv (w : World) p :
  parts_inv (store w) → row_inv (rows w !! hash) → producer_inv (rows w !! hash) p →
  let '(r, w') := producer_step hash p w in
  parts_inv (store w') ∧ row_inv (rows w' !! hash) ∧
  (∀ p', r = Ok (Some p') → producer_inv (rows w' !! hash) p').
Proof.
  intros Hp Hr (Hsz & Hf & st & k & Hst & Hi & Hrest & Hph).
  destruct p as [rest fl psz comp idx ph]. simpl in *. subst psz fl idx rest.
  unfold producer_step. simpl. destruct ph as [|nx|nx].
  - (* a read, and a put *)
    unfold read_full. simpl. set (data := str_take sz (str_drop (k * sz) content)).
    case_bool_decide as Hd.
    + simpl. split_and!; [done..|]. intros p' [= <-].
      assert (covers k) as Hc.
      { unfold covers. destruct (str_take_empty _ _ Hd) as [?|He]; [lia|].
        apply (f_equal String.length) in He. rewrite str_length_drop in He. simpl in He. lia. }
      assert ((sz <=? String.length (str_drop (k * sz) content))%nat = false) as ->.
      { apply Nat.leb_gt. rewrite str_length_drop. unfold covers in Hc. lia. }
      split; [done|]. split; [done|]. exists st, k. split_and!; done.
    + unfold mbind, eff_bind, wrap, with_store. destruct Hp as [Hok Hparts].
      pose proof (put_part_law hash (Z.of_nat k) data (store w) Hok hash_ok ltac:(lia)) as Hput.
      destruct (put_part hash (Z.of_nat k) data (store w)) as [r s'].
      destruct Hput as (Hok' & Hat & Hoth & _).
      assert (parts_inv s') as Hp'.
      { split; [done|]. intros k' d Hd'. destruct (decide (k' = k)) as [->|Hne].
        - destruct Hat as [Hat|Hat]; rewrite Hat in Hd'; [by apply Hparts|]. by injection Hd' as <-.
        - apply Hparts. rewrite <- Hoth; [done|done|lia|]. intros [= Hk]. lia. }
      destruct r as [n|e]; simpl; [|done]. split_and!; [done..|]. intros p' [= <-].
      split; [done|]. split; [done|]. exists st, (S k). simpl. rewrite rest_next.
      split_and!; [done|lia|done|].
      destruct (_ <=? _)%nat eqn:Hle; [done|]. apply Nat.leb_gt in Hle.
      rewrite str_length_drop in Hle. unfold covers. lia.
  - (* the row's update *)
    unfold mbind, eff_bind.
    destruct (advance_cases (Z.of_nat k) comp w) as (w' & r & -> & Hs & [[Hno Hrows]|Hyes]).
    { destruct r; [done|]. rewrite Hs, Hrows. done. }
    destruct Hyes as (st0 & st' & -> & Hst0 & Hrows & Hn & Hstat).
    simpl. rewrite Hs, Hrows, lookup_insert_eq. split_and!; [done|..].
    + intros st1 [= <-]. exists k. split_and!; [done| |]; rewrite Hstat; done.
    + intros p' [= <-]. split; [done|]. split; [done|]. exists st', k. split_and!; try done.
      by destruct nx.
  - destruct nx; simpl.
    + split_and!; [done..|]. intros p' [= <-]. split; [done|]. split; [done|]. by exists st, k.
    + unfold mbind, eff_bind.
      destruct (complete_cases w) as (w' & r & -> & Hs & [[Hno Hrows]|Hyes]).
      { destruct r; [done|]. rewrite Hs, Hrows. done. }
      destruct Hyes as (st0 & st' & -> & Hst0 & Hrows & Hn & Hstat).
      simpl. rewrite Hs, Hrows, lookup_insert_eq. split_and!; [done|..|done].
      intros st1 [= <-]. assert (st0 = st) as -> by congruence. destruct Hph as [Hpa Hc].
      exists k. split_and!; [congruence| |done]. by rewrite Hstat.
    + done.
Qed.

Lemma reader_step_inv (w : World) r :
  parts_inv (store w) → row_inv (rows w !! hash) → reader_inv r →
  let '(r', w') := reader_step hash r w in
  parts_inv (store w') ∧ rows w' = rows w ∧ (∀ r1, r' = Ok r1 → reader_inv r1).
Proof.
  intros Hp Hr (k & Hi & Ho & He). destruct r as [idx out ph]. simpl in *. subst idx out.
  unfold reader_step. simpl. destruct ph as [| |e].
  - unfold mbind, eff_bind, try. destruct (get_cases w) as (w' & x & -> & Hs & Hrows & Hx).
    simpl. rewrite Hs. split_and!; [done..|]. intros r1 [= <-].
    destruct Hx as [-> | ->]; [by exists k|]. destruct (rows w !! hash) as [st|] eqn:Hst; [|by exists k].
    destruct (Z.of_nat k <? parts_available st)%Z eqn:Hlt; [by exists k|]. apply Z.ltb_ge in Hlt.
    case_bool_decide as Hc; [|by exists k]. exists k. split_and!; [done..|]. intros _.
    destruct (Hr st eq_refl) as (k' & Hk' & _ & Hcov). specialize (Hcov Hc).
    unfold covers in *. nia.
  - unfold mbind, eff_bind, try, with_store. destruct Hp as [Hok Hparts].
    pose proof (get_part_law hash (Z.of_nat k) (store w) Hok hash_ok) as Hg.
    destruct (get_part hash (Z.of_nat k) (store w)) as [x s'].
    destruct Hg as (Hok' & Hsame & Hx & _). simpl. split_and!; [|done|].
    + split; [done|]. intros k' d. rewrite Hsame. apply Hparts.
    + intros r1 [= <-]. destruct x as [d|e]; [|destruct e; by exists k].
      specialize (Hx d eq_refl). apply Hparts in Hx as ->. exists (S k). simpl.
      rewrite chunk_next. split_and!; [lia|done..].
  - simpl. split_and!; [done..|]. intros r1 [= <-]. by exists k.
Qed.

Lemma cleaner_step_inv (w : World) c :
  parts_inv (store w) → row_inv (rows w !! hash) →
  let '(r, w') := cleaner_step hash c w in
  parts_inv (store w') ∧ row_inv (rows w' !! hash).
Proof.
  intros Hp Hr.
  assert (parts_inv (delete_parts hash (store w)).2) as Hdel.
  { destruct Hp as [Hok Hparts]. pose proof (delete_parts_law hash (store w) Hok hash_ok) as Hd.
    destruct (delete_parts hash (store w)) as [r s']. destruct Hd as (Hok' & Hsub & _ & _).
    split; [done|]. simpl. intros k d Hk. apply Hparts. by apply Hsub. }
  assert (row_inv (rows w !! hash) → row_inv None) as Hnone by by intros _ st.
  destruct c; simpl; unfold mbind, eff_bind, wrap, with_store.
  - destruct (delete_parts hash (store w)) as [[[]|e] s']; done.
  - unfold deleteStagingState.
    match goal with |- context [query ?g] => destruct (query_cases g w)
      as [(w' & -> & Hs & Hw)|(w' & -> & Hs & Hw)] end; simpl; rewrite Hs, Hw; [done|].
    simpl. rewrite lookup_delete_eq. auto.
  - destruct (delete_parts hash (store w)) as [[[]|e] s']; done.
  - destruct (reset_cases w) as (w' & r & -> & Hs & Hrows).
    assert (row_inv (rows w' !! hash)) as Hr'.
    { destruct Hrows as [->|(st' & -> & Hn & Hstat)]; [done|].
      rewrite lookup_insert_eq. intros st1 [= <-]. exists 0. by rewrite Hstat. }
    destruct r; simpl; by rewrite Hs.
Qed.

(** The producers that may start: from the beginning of a temporary file that
    ends up holding the whole NAR, with the common part size. *)
Definition whole_producer (p : producer) : Prop :=
  p_rest p = content ∧ p_fails p = false ∧ p_size p = sz ∧ p_index p = 0%Z ∧ p_phase p = PRead.

Definition whole_event (e : event) : Prop :=
  match e with EvStart _ p => whole_producer p | _ => True end.

Lemma idle_empty {A} (m : gmap nat A) : idle m = true → m = ∅.
Proof. intros Hi. apply bool_decide_eq_true in Hi. by apply map_size_empty_iff. Qed.

Lemma requested_cases (w : World) :
  ∃ w' r, stagingRequested hash w = (Ok r, w') ∧ store w' = store w ∧ rows w' = rows w ∧
    (r = true → ∃ st, rows w !! hash = Some st ∧ status st = stagingStatusRequested).
Proof.
  unfold stagingRequested, mbind, eff_bind, try.
  destruct (get_cases w) as (w' & x & -> & Hs & Hrows & Hx). simpl. eexists _, _.
  split; [done|]. split_and!; [done..|]. destruct Hx as [-> | ->]; [done|].
  destruct (rows w !! hash) as [st|]; [|done]. intros Hr. apply bool_decide_eq_true in Hr. eauto.
Qed.

Lemma mark_cases (w : World) :
  ∃ w' r, markStagingRequested hash w = (r, w') ∧ store w' = store w ∧
    (rows w' !! hash = rows w !! hash ∨
     (rows w !! hash = None ∧ ∃ st, rows w' !! hash = Some st ∧ parts_available st = 0%Z ∧
        status st = stagingStatusRequested)).
Proof.
  unfold markStagingRequested.
  match goal with |- context [query ?g] => destruct (query_cases g w)
    as [(w' & -> & Hs & Hw)|(w' & -> & Hs & Hw)] end; eexists w', _; (split; [done|]; split; [done|]).
  - left. by rewrite Hw.
  - rewrite Hw. destruct (rows w !! hash) as [st|] eqn:Hst; simpl; [by left|right].
    rewrite lookup_insert_eq. split; [done|]. by eexists.
Qed.

Lemma apply_event_inv e s s' :
  whole_event e → apply_event true hash e s = Some s' → sys_inv s → sys_inv s'.
Proof.
  intros Hwh He [Hp Hr Hpr Hone Hf Hrd]. destruct s as [w ps rs cs]. simpl in *.
  destruct e as [now| |t p|t|t|t c|t|t|t|t|t e]; cbn [apply_event world producers readers cleaners] in He.
  - injection He as <-. by split.
  - destruct (mark_cases w) as (w' & r & Hm & Hs & Hrow). rewrite Hm in He. injection He as <-.
    destruct Hrow as [Hrow|(Hnone & st & Hrow & Hz & Hst)].
    + by split; simpl; rewrite ?Hs, ?Hrow.
    + split; simpl; rewrite ?Hs, ?Hrow; try done.
      * intros st1 [= <-]. exists 0. by rewrite Hst.
      * intros t p Ht. apply Hpr, producer_row in Ht as [? Ht]. congruence.
  - destruct (requested_cases w) as (w' & r & Hq & Hs & Hrows & Hreq). rewrite Hq in He.
    destruct (bool_decide (Ok r = Ok true)) eqn:Hrt; [|done]. bool_props. injection Hrt as ->.
    destruct (Hreq eq_refl) as (st & Hst & Hstat). simpl in He.
    destruct (bool_decide (ps !! t = None)); [|done]. simpl in He.
    destruct (idle ps) eqn:Hps; [|done]. destruct (idle cs) eqn:Hcs; [|done]. simpl in He.
    injection He as <-. apply idle_empty in Hps, Hcs. subst ps cs.
    split; simpl; rewrite ?Hs, ?Hrows; [done|done| | |by right|done].
    + intros t' p' [[<- <-]|[_ Hl]]%lookup_insert_Some; [|by rewrite lookup_empty in Hl].
      destruct Hwh as (H1 & H2 & H3 & H4 & H5). split; [done|]. split; [done|]. exists st, 0.
      rewrite H1, H4, H5. split_and!; [done|done|by destruct content|].
      destruct (Hr st Hst) as (k & Hk & Hk0 & _). by rewrite Hk, Hk0.
    + intros t1 t2. rewrite !lookup_insert_is_Some', !lookup_empty.
      intros [->|H1] [->|H2]; [done|by destruct H2|by destruct H1|by destruct H1].
  - destruct (ps !! t) as [p|] eqn:Ht; [|done]. cbn in He. injection He as <-.
    pose proof (producer_step_inv w p Hp Hr (Hpr t p Ht)) as Hst.
    destruct (producer_step hash p w) as [r w']. destruct Hst as (Hp' & Hr' & Hpi).
    assert (∀ t', t' ≠ t → ps !! t' = None) as Hno.
    { intros t' Hne. destruct (ps !! t') eqn:Ht'; [|done]. exfalso. apply Hne.
      apply Hone; by eexists. }
    assert (cs = ∅) as ->. { destruct Hf as [->|]; [by rewrite lookup_empty in Ht|done]. }
    assert (∀ s', store s' = store w' → rows s' = rows w' →
      sys_inv (mkSys w' (delete t ps) rs ∅)) as Hdel.
    { intros _ _ _. split; simpl; [done|done| | |by right|done].
      - intros t' p' [Hne Ht']%lookup_delete_Some. by rewrite Hno in Ht'.
      - intros t1 t2 [x H1] _. apply lookup_delete_Some in H1. destruct H1 as [Hne H1].
        by rewrite Hno in H1. }
    destruct r as [[p'|]|e]; [|by apply (Hdel w')..].
    split; simpl; [done|done| | |by right|done].
    + intros t' p1 [[<- <-]|[Hne Ht']]%lookup_insert_Some; [by apply Hpi|].
      rewrite Hno in Ht' by done. done.
    + intros t1 t2. rewrite !lookup_insert_is_Some'. intros [->|H1] [->|H2]; try done.
      * apply Hone; [by eexists|done].
      * apply Hone; [done|by eexists].
      * by apply Hone.
  - injection He as <-. split; simpl; [done|done| | | |done].
    + intros t' p' [_ Ht']%lookup_delete_Some. by eapply Hpr.
    + intros t1 t2 [x1 H1] [x2 H2]. apply lookup_delete_Some in H1, H2.
      apply Hone; eexists; [apply H1|apply H2].
    + destruct Hf as [->|]; [left; apply delete_empty|by right].
  - destruct (bool_decide _); [|done]. simpl in He. destruct (idle ps) eqn:Hps; [|done].
    injection He as <-. apply idle_empty in Hps. subst ps. by split; simpl; auto.
  - destruct (cs !! t) as [c|] eqn:Hc; [|done]. cbn in He. injection He as <-.
    pose proof (cleaner_step_inv w c Hp Hr) as Hst.
    assert (ps = ∅) as ->. { destruct Hf as [| ->]; [done|by rewrite lookup_empty in Hc]. }
    destruct (cleaner_step hash c w) as [r w']. destruct Hst as (Hp' & Hr').
    destruct r as [[c'|]|e]; split; simpl; auto; intros t' p'; by rewrite lookup_empty.
  - injection He as <-. split; simpl; try done.
    destruct Hf as [| ->]; [by left|right; apply delete_empty].
  - injection He as <-. split; simpl; try done.
    intros t' r [[<- <-]|[_ Ht']]%lookup_insert_Some; [|by eapply Hrd]. by exists 0.
  - destruct (rs !! t) as [r|] eqn:Ht; [|done]. cbn in He.
    pose proof (reader_step_inv w r Hp Hr (Hrd t r Ht)) as Hst.
    destruct (reader_step hash r w) as [[r'|[]] w']. destruct Hst as (Hp' & Hrows & Hri).
    injection He as <-. split; simpl; rewrite ?Hrows; try done.
    intros t' r1 [[<- <-]|[_ Ht']]%lookup_insert_Some; [by apply Hri|by eapply Hrd].
  - destruct (rs !! t) as [r|] eqn:Ht; [|done]. cbn in He.
    destruct (bool_decide (e = SEOF)) eqn:Hes; [done|]. injection He as <-. bool_props.
    split; simpl; try done.
    intros t' r1 [[<- <-]|[_ Ht']]%lookup_insert_Some; [|by eapply Hrd].
    destruct (Hrd t r Ht) as (k & Hk & Ho & _). exists k. split_and!; [done..|]. by intros [= ?].
Qed.

Lemma run_events_inv es s s' :
  Forall whole_event es → run_events true hash es s = Some s' → sys_inv s → sys_inv s'.
Proof.
  intros Hall. revert s. induction Hall as [|e es He _ IH]; intros s Hrun Hs; simpl in *.
  - by injection Hrun as <-.
  - apply bind_Some in Hrun as (s1 & Hs1 & Hrun). eapply IH; [done|]. by eapply apply_event_inv.
Qed.

Lemma start_inv (w : World) :
  pst_ok (store w) → (∀ i, part (store w) hash i = None) → rows w !! hash = None →
  sys_inv (start w).
Proof.
  intros Hok Hno Hrow. split; simpl.
  - split; [done|]. intros k d. by rewrite Hno.
  - rewrite Hrow. by intros st.
  - intros t p. by rewrite lookup_empty.
  - intros t t' [? Ht]. by rewrite lookup_empty in Ht.
  - by left.
  - intros t r. by rewrite lookup_empty.
Qed.
End invariant.

(** ** The properties *)

(** C10. Cross-replica readers never get a truncated or a wrong NAR, whatever the
    interleaving: from a state where nothing is staged under the hash, let any number
    of producers start one after the other on the whole NAR, die, be taken over (parts
    deleted and row reset) or be reclaimed, with statements of the database and calls
    of the store failing at will and readers opening and failing at any time.  As long
    as no two producers, and no cleaner and producer, run together (what the download
    lock is for), no download fails in the middle of a part, and all producers, on
    every replica, cut parts of one size, every reader has read a prefix of the NAR,
    and one that sees the clean end of file has read all of it.  With parts of two
    sizes, or a download that fails, it need not ([lost_lock_truncates_reader],
    [failed_download_corrupts_reader]). *)
Theorem staging_reader_safe {P : PartStore} {L : PartStoreLaws P}
    (content hash : string) (sz : nat) (w : World) (es : list event) (s : sys) (t : nat) (r : reader) :
  0 < sz → pst_hash hash → pst_ok (store w) →
  (∀ i, part (store w) hash i = None) → rows w !! hash = None →
  Forall (whole_event content sz) es → run_events true hash es (start w) = Some s →
  readers s !! t = Some r →
  (∃ rest, content = r_out r +:+ rest) ∧ (r_phase r = REnd SEOF → r_out r = content).
Proof.
  intros Hsz Hh Hok Hno Hrow Hall Hrun Hr.
  assert (sys_inv content sz hash s) as Hinv.
  { eapply run_events_inv; eauto using start_inv. }
  destruct (inv_read _ _ _ _ Hinv t r Hr) as (k & _ & Ho & He). rewrite Ho. split.
  - apply str_take_prefix.
  - intros Hend. by apply covers_take, He.
Qed.



(** ** Staging to the end, then reading *)

Section roundtrip.
Context {P : PartStore} {L : PartStoreLaws P}.
Context (content : string) (sz : nat) (hash : string) (comp : string).
Context (sz_pos : 0 < sz) (hash_ok : pst_hash hash).

Abbreviation chunk := (chunk content sz).
Abbreviation covers := (covers content sz).

(** The first [k] parts are in the store. *)
Definition staged (k : Z) (s : pst) : Prop :=
  ∀ j, (Z.of_nat j < k)%Z → part s hash (Z.of_nat j) = Some (chunk j).

(** The steps a producer still makes. *)
Definition todo (p : producer) : nat :=
  match p_phase p with
  | PRead => 3 * String.length (p_rest p) + 2
  | PAdvance _ => 3 * String.length (p_rest p) + 4
  | PEnd ReadMore => 3 * String.length (p_rest p) + 3
  | PEnd _ => 1
  end.

Lemma producer_step_todo (w w' : World) p p' :
  0 < p_size p → producer_step hash p w = (Ok (Some p'), w') → todo p' < todo p.
Proof.
  unfold producer_step, todo. destruct p as [rest fl psz c idx ph]. simpl. intros Hsz.
  destruct ph as [|nx|nx]; simpl.
  - unfold read_full. simpl. case_bool_decide as Hd.
    + intros [= <- <-]. simpl. destruct (str_take_empty _ _ Hd) as [?| ->]; [lia|]. simpl.
      destruct psz; [lia|]. simpl. destruct fl; lia.
    + unfold mbind, eff_bind, wrap, with_store.
      destruct (put_part _ _ _ _) as [[n|e] s']; simpl; [|done].
      intros [= <- <-]. simpl. rewrite str_length_drop.
      assert (rest ≠ "") by (intros ->; by destruct psz). destruct rest; simpl in *; [done|lia].
  - unfold mbind, eff_bind. destruct (advanceStagingParts _ _ _ w) as [[[]|e] w1]; simpl; [|done].
    intros [= <- <-]. simpl. destruct nx; lia.
  - destruct nx; simpl.
    + intros [= <- <-]. simpl. lia.
    + unfold mbind, eff_bind. by destruct (markStagingComplete _ w) as [[[]|e] w1].
    + done.
Qed.

(** The staged parts and the compression of the row, along the loop. *)
Definition row_comp (p : producer) (o : option StagingState) : Prop :=
  ∀ st, o = Some st → (0 < parts_available st)%Z → compression st = p_comp p.

Lemma producer_step_staged (w : World) p :
  parts_inv content sz hash (store w) → row_inv content sz (rows w !! hash) →
  producer_inv content sz (rows w !! hash) p → staged (p_index p) (store w) →
  row_comp p (rows w !! hash) →
  let '(r, w') := producer_step hash p w in
  match r with
  | Ok (Some p') => staged (p_index p') (store w') ∧ row_comp p' (rows w' !! hash) ∧
      p_comp p' = p_comp p
  | Ok None => staged (p_index p) (store w') ∧ ∃ st, rows w' !! hash = Some st ∧
      status st = stagingStatusComplete ∧ parts_available st = p_index p ∧
      (0 < parts_available st → compression st = p_comp p)%Z
  | Err _ => True
  end.
Proof.
  intros Hp Hr (Hsz & Hf & st & k & Hst & Hi & Hrest & Hph) Hs Hc.
  destruct p as [rest fl psz c idx ph]. simpl in *. subst psz fl idx rest.
  unfold producer_step. simpl. destruct ph as [|nx|nx].
  - unfold read_full. simpl. set (data := str_take sz _). case_bool_decide as Hd; [done|].
    unfold mbind, eff_bind, wrap, with_store. destruct Hp as [Hok Hparts].
    pose proof (put_part_law hash (Z.of_nat k) data (store w) Hok hash_ok ltac:(lia)) as Hput.
    destruct (put_part hash (Z.of_nat k) data (store w)) as [[n|e] s']; simpl; [|done].
    destruct Hput as (_ & _ & Hoth & Hn). split_and!; [|done|done].
    intros j Hj. destruct (decide (j = k)) as [->|Hne]; [by eapply Hn|].
    rewrite Hoth; [apply Hs; lia|done|lia|]. intros [= ?]. lia.
  - unfold mbind, eff_bind, advanceStagingParts, mbind, eff_bind.
    match goal with |- context [update hash ?g] => destruct (update_cases hash g w)
      as (w' & r & -> & Hsw & [[-> Hrw]|[(-> & _ & Hrw)|(st0 & -> & Hst0 & Hrw)]]) end; simpl; try done.
    rewrite Hsw, Hrw, lookup_insert_eq. split_and!; [done| |done]. by intros st1 [= <-].
  - destruct nx; simpl; [done| |done].
    unfold mbind, eff_bind, markStagingComplete, mbind, eff_bind.
    match goal with |- context [update hash ?g] => destruct (update_cases hash g w)
      as (w' & r & -> & Hsw & [[-> Hrw]|[(-> & _ & Hrw)|(st0 & -> & Hst0 & Hrw)]]) end; simpl; try done.
    rewrite Hsw, Hrw, lookup_insert_eq. split; [done|]. eexists. split; [done|]. simpl.
    assert (st0 = st) as -> by congruence. split_and!; [done|apply Hph|]. by apply Hc.
Qed.

Lemma produce_loop_spec fuel (w : World) p :
  todo p < fuel →
  parts_inv content sz hash (store w) → row_inv content sz (rows w !! hash) →
  producer_inv content sz (rows w !! hash) p → staged (p_index p) (store w) →
  row_comp p (rows w !! hash) →
  let '(r, w') := produce_loop fuel hash p w in
  parts_inv content sz hash (store w') ∧
  (r = Ok () → ∃ st, rows w' !! hash = Some st ∧ status st = stagingStatusComplete ∧
     (∃ k, parts_available st = Z.of_nat k ∧ covers k) ∧ staged (parts_available st) (store w') ∧
     (0 < parts_available st → compression st = p_comp p)%Z).
Proof.
  revert w p. induction fuel as [|fuel IH]; intros w p Hfuel Hp Hr Hpi Hs Hc; [lia|].
  cbn [produce_loop]. unfold mbind, eff_bind.
  pose proof (producer_step_inv content sz hash sz_pos hash_ok w p Hp Hr Hpi) as Hinv.
  pose proof (producer_step_staged w p Hp Hr Hpi Hs Hc) as Hstg.
  pose proof (λ p' w', producer_step_todo w w' p p') as Htodo.
  destruct (producer_step hash p w) as [[[p'|]|e] w1].
  - destruct Hinv as (Hp1 & Hr1 & Hpi1). destruct Hstg as (Hs1 & Hc1 & Hcomp).
    specialize (Htodo p' w1 ltac:(destruct Hpi as (-> & _); done) eq_refl).
    specialize (IH w1 p' ltac:(lia) Hp1 Hr1 (Hpi1 p' eq_refl) Hs1 Hc1).
    destruct (produce_loop fuel hash p' w1) as [r w']. by rewrite <- Hcomp.
  - destruct Hinv as (Hp1 & Hr1 & _). split; [done|]. intros _.
    destruct Hstg as (Hs1 & st & Hst & Hstat & Hpa & Hcomp). exists st.
    destruct (Hr1 st Hst) as (k & Hk & _ & Hcov). rewrite Hpa. split_and!; eauto.
    + exists k. split; [congruence|auto].
    + by rewrite <- Hpa.
  - destruct Hinv as (Hp1 & _ & _). by split.
Qed.

(** Reading complete staging with a reliable store. *)
Lemma read_all_complete k n (w : World) st r :
  (∀ i s x, part s hash i = Some x → (get_part hash i s).1 = Ok x) →
  db w = [] → pst_ok (store w) →
  rows w !! hash = Some st → status st = stagingStatusComplete →
  parts_available st = Z.of_nat k → covers k → staged (parts_available st) (store w) →
  n ≤ k → r = mkReaderState (Z.of_nat n) (str_take (n * sz) content) RPoll →
  (read_all (2 * (k - n) + 1) hash r w).1 = Ok (mkReaderState (Z.of_nat k) content (REnd SEOF)).
Proof.
  intros Hget Hdb Hok Hst Hstat Hk Hcov Hs Hn ->.
  assert (∃ m, m = k - n) as [m Hm] by eauto. revert n w Hdb Hok Hst Hs Hn Hm.
  induction m as [|m IH]; intros n w Hdb Hok Hst Hs Hn Hm.
  - assert (n = k) as -> by lia. replace (k - k) with 0 by lia. simpl.
    unfold mbind, eff_bind, reader_step, mbind, eff_bind, try, getStagingState, query. simpl.
    rewrite Hdb. simpl. rewrite Hst, Hk, (proj2 (Z.ltb_ge _ _)) by lia.
    rewrite bool_decide_true by done. simpl. by rewrite covers_take.
  - replace (2 * (k - n) + 1) with (S (S (2 * (k - S n) + 1))) by lia.
    cbn [read_all]. unfold mbind at 1, eff_bind at 1.
    assert (reader_step hash (mkReaderState (Z.of_nat n) (str_take (n * sz) content) RPoll) w =
      (Ok (mkReaderState (Z.of_nat n) (str_take (n * sz) content) RGet), w)) as ->.
    { unfold reader_step, mbind, eff_bind, try, getStagingState, query. simpl. rewrite Hdb. simpl.
      rewrite Hst, Hk, (proj2 (Z.ltb_lt _ _)) by lia. destruct w; simpl in *. by rewrite Hdb. }
    unfold mbind at 1, eff_bind at 1.
    specialize (Hs n ltac:(lia)) as Hpn. pose proof (Hget _ _ _ Hpn) as Hg.
    pose proof (get_part_law hash (Z.of_nat n) (store w) Hok hash_ok) as Hlaw.
    unfold reader_step at 1, mbind, eff_bind, try, with_store. simpl.
    destruct (get_part hash (Z.of_nat n) (store w)) as [x s']. simpl in Hg. subst x.
    destruct Hlaw as (Hok' & Hsame & _). simpl.
    rewrite chunk_next by exact sz_pos. replace (Z.of_nat n + 1)%Z with (Z.of_nat (S n)) by lia.
    apply IH; try done; [|lia..]. intros j Hj. simpl. rewrite Hsame. by apply Hs.
Qed.
End roundtrip.

(** Staging to the end and reading it back: when [produceStagingParts]
    returns without an error, which needs a download that did not fail, the row
    is complete and counts exactly the parts that hold the NAR, in the recorded
    compression; a reader of these parts, with a store that answers and no
    database errors, reads the whole NAR and then the clean end of file. *)
Theorem produce_then_read {P : PartStore} {L : PartStoreLaws P}
    (c : config) (hash path comp content : string) (w w' : World) :
  (0 < inflightStagingPartSize c)%Z → pst_hash hash → pst_ok (store w) →
  (∀ i, part (store w) hash i = None) →
  (∃ st, rows w !! hash = Some st ∧ parts_available st = 0%Z ∧ status st = stagingStatusRequested) →
  path ≠ "" →
  produceStagingParts c hash (Some (mkDownload path comp None (Ok (mkReader content false)))) w =
    (Ok (), w') →
  ∃ st n, rows w' !! hash = Some st ∧ status st = stagingStatusComplete ∧
    parts_available st = Z.of_nat n ∧ (content ≠ "" → compression st = comp) ∧
    ((∀ i s x, part s hash i = Some x → (get_part hash i s).1 = Ok x) → db w' = [] →
     (read_all (2 * n + 1) hash newStagingPartReader w').1 =
       Ok (mkReaderState (Z.of_nat n) content (REnd SEOF))).
Proof.
  intros Hps Hh Hok Hno (st0 & Hst0 & Hz & Hstat0) Hpath Hrun. unfold produceStagingParts in Hrun.
  cbn [downloadError assetPath open_temp tempFileCompression] in Hrun.
  rewrite bool_decide_false in Hrun by done. unfold produce_from in Hrun.
  assert (0 < part_size c) as Hsz.
  { unfold part_size. rewrite (proj2 (Z.leb_gt _ _)) by lia. lia. }
  set (p := mkProd _ _ _ _ _ _) in Hrun.
  pose proof (produce_loop_spec content (part_size c) hash Hsz Hh
    (3 * String.length content + 5) w p) as Hspec.
  cbn [bytes fails] in Hrun. rewrite Hrun in Hspec.
  destruct Hspec as [[Hok' _] Hspec].
  - unfold todo, p. simpl. lia.
  - split; [done|]. intros k d. by rewrite Hno.
  - rewrite Hst0. intros st1 [= <-]. exists 0. rewrite Hz, Hstat0. done.
  - split; [done|]. split; [done|]. exists st0, 0. rewrite Hst0. by destruct content.
  - intros j Hj. unfold p in Hj. simpl in Hj. lia.
  - rewrite Hst0. intros st1 [= <-]. lia.
  - destruct (Hspec eq_refl) as (st & Hst & Hstat & (n & Hn & Hcov) & Hs & Hcomp).
    exists st, n. split_and!; [done..| |].
    + intros Hne. apply Hcomp. rewrite Hn. unfold covers in Hcov.
      destruct content; [done|]. simpl in Hcov. destruct n; [lia|]. lia.
    + intros Hget Hdb. replace (2 * n + 1) with (2 * (n - 0) + 1) by lia.
      eapply (read_all_complete content (part_size c)); try done. lia.
Qed.

(** ** Activation *)

Section activation.
Context {P : PartStore}.

Lemma stagingRequested_idle (hash : string) (w : World) :
  (∀ st, rows w !! hash = Some st → status st ≠ stagingStatusRequested) →
  ∃ w', stagingRequested hash w = (Ok false, w') ∧ store w' = store w ∧ rows w' = rows w.
Proof.
  intros Hno. unfold stagingRequested, mbind, eff_bind, try, getStagingState, query.
  assert ((match rows w !! hash with
           | Some st => bool_decide (status st = stagingStatusRequested)
           | None => false
           end) = false) as Hf.
  { destruct (rows w !! hash) as [st|]; [|done]. by apply bool_decide_false, Hno. }
  destruct (db w) as [|[] q]; simpl; rewrite ?Hf; eexists; (split; [done|by split]).
Qed.

Lemma wait_loop_idle (hash : string) ws (w : World) :
  (∀ st, rows w !! hash = Some st → status st ≠ stagingStatusRequested) →
  ∃ w', wait_loop hash ws w = (Ok false, w') ∧ store w' = store w ∧ rows w' = rows w.
Proof.
  revert w. induction ws as [|[| |] ws IH]; intros w Hno; simpl; [by exists w| |by apply stagingRequested_idle|by exists w].
  destruct (stagingRequested_idle hash w Hno) as (w1 & Hr & Hs & Hw).
  unfold mbind, eff_bind. rewrite Hr.
  destruct (IH w1) as (w2 & -> & Hs2 & Hw2); [by rewrite Hw|]. exists w2. by rewrite Hs2, Hw2.
Qed.
End activation.

(** Nothing is staged without a fresh request: unless the row's status is
    "requested", so also when an earlier staging left it "staging" or
    "complete", the holder's [stageInflightNar] ends without having touched the
    store or a row, for every schedule of its polls and every database fault. *)
Theorem stage_inflight_idle {P : PartStore} (c : config) (hash : string) (ws : list wake)
    (started : option download) (w : World) :
  (∀ st, rows w !! hash = Some st → status st ≠ stagingStatusRequested) →
  ∃ w', stageInflightNar c hash ws started w = (Ok false, w') ∧
    store w' = store w ∧ rows w' = rows w.
Proof.
  intros Hno. unfold stageInflightNar. destruct (InflightStagingEnabled c); simpl; [|by exists w].
  unfold waitForStagingRequest, mbind, eff_bind.
  destruct (stagingRequested_idle hash w Hno) as (w1 & -> & Hs & Hw).
  destruct (wait_loop_idle hash ws w1) as (w2 & -> & Hs2 & Hw2); [by rewrite Hw|].
  simpl. exists w2. by rewrite Hs2, Hw2.
Qed.

(** ** The garbage collector *)

Section sweep.
Context {P : PartStore} {L : PartStoreLaws P}.

Lemma reclaim_spec (hash : string) (w : World) :
  pst_ok (store w) → pst_hash hash →
  let '(r, w') := reclaimStaging hash w in
  pst_ok (store w') ∧
  (∀ h, h ≠ hash → rows w' !! h = rows w !! h) ∧
  (∀ h i, pst_hash h → h ≠ hash → part (store w') h i = part (store w) h i) ∧
  (rows w' !! hash = rows w !! hash ∨ rows w' !! hash = None ∧ ∀ i, part (store w') hash i = None) ∧
  (r = Ok () → rows w' !! hash = None).
Proof.
  intros Hok Hh. unfold reclaimStaging, mbind, eff_bind, wrap, with_store.
  pose proof (delete_parts_law hash (store w) Hok Hh) as Hd.
  destruct (delete_parts hash (store w)) as [[[]|e] s'];
    destruct Hd as (Hok' & _ & Ho & Hall); simpl; [|split_and!; auto; done].
  unfold deleteStagingState.
  match goal with |- context [query ?g ?w0] => destruct (query_cases g w0)
    as [(w' & -> & Hs & Hw)|(w' & -> & Hs & Hw)] end; simpl in *; rewrite Hs, Hw.
  - split_and!; auto. done.
  - split_and!; [done| |auto| |by rewrite lookup_delete_eq].
    + intros h Hne. by rewrite lookup_delete_ne.
    + right. rewrite lookup_delete_eq. auto.
Qed.

Lemma sweep_rows_spec now retention orphanAge l n (w : World) :
  pst_ok (store w) → Forall (λ x, pst_hash x.1) l →
  let '(r, w') := sweep_rows now retention orphanAge l n w in
  pst_ok (store w') ∧
  (∀ h, pst_hash h → (∀ st, (h, st) ∈ l → due now retention orphanAge st = false) →
     rows w' !! h = rows w !! h ∧ ∀ i, part (store w') h i = part (store w) h i) ∧
  (∀ h, rows w' !! h = rows w !! h ∨ rows w' !! h = None ∧ ∃ st, (h, st) ∈ l ∧
     due now retention orphanAge st = true).
Proof.
  revert n w. induction l as [|[hash st] l IH]; intros n w Hok Hall; simpl; [by auto|].
  inversion_clear Hall as [|?? Hh Hall']. simpl in Hh.
  destruct (due now retention orphanAge st) eqn:Hdue; simpl.
  2:{ specialize (IH n w Hok Hall'). destruct (sweep_rows _ _ _ l n w) as [r w'].
      destruct IH as (? & Hk & Hc). split_and!; [done|..].
      - intros h Hh' Hno. apply Hk; [done|]. intros st' Hin. apply Hno. by right.
      - intros h. destruct (Hc h) as [?|(? & st' & ? & ?)]; [by left|right].
        split; [done|]. exists st'. split; [by right|done]. }
  unfold mbind, eff_bind, try.
  pose proof (reclaim_spec hash w Hok Hh) as Hrec.
  destruct (reclaimStaging hash w) as [r1 w1]. destruct Hrec as (Hok1 & Hro & Hpo & Hat & _).
  assert (∀ n', let '(r, w') := sweep_rows now retention orphanAge l n' w1 in
    pst_ok (store w') ∧
    (∀ h, pst_hash h → (∀ st', (h, st') ∈ (hash, st) :: l → due now retention orphanAge st' = false) →
       rows w' !! h = rows w !! h ∧ ∀ i, part (store w') h i = part (store w) h i) ∧
    (∀ h, rows w' !! h = rows w !! h ∨ rows w' !! h = None ∧ ∃ st', (h, st') ∈ (hash, st) :: l ∧
       due now retention orphanAge st' = true)) as Hgo.
  { intros n'. specialize (IH n' w1 Hok1 Hall'). destruct (sweep_rows _ _ _ l n' w1) as [r w'].
    destruct IH as (? & Hk & Hc). split_and!; [done|..].
    - intros h Hh' Hno. assert (h ≠ hash) as Hne.
      { intros ->. specialize (Hno st ltac:(by left)). congruence. }
      destruct (Hk h Hh') as [-> Hp]; [intros st' Hin; apply Hno; by right|].
      split; [by apply Hro|]. intros i. rewrite Hp. by apply Hpo.
    - intros h. destruct (Hc h) as [->|(? & st' & ? & ?)].
      + destruct (decide (h = hash)) as [->|Hne]; [|left; by apply Hro].
        destruct Hat as [->|[-> _]]; [by left|right]. split; [done|]. exists st. split; [by left|done].
      + right. split; [done|]. exists st'. split; [by right|done]. }
  destruct r1; apply Hgo.
Qed.
End sweep.

(** The garbage collector reclaims only what is due: a row is removed by
    [sweepStagingGC] only if it is complete and older than the retention or not
    complete and older than the orphan age; every other row and every part of
    another NAR is untouched, whatever fails. *)
Theorem sweep_reclaims_due {P : PartStore} {L : PartStoreLaws P}
    (retention orphanAge : Z) (w : World) :
  pst_ok (store w) → (∀ h st, rows w !! h = Some st → pst_hash h) →
  let '(r, w') := sweepStagingGC retention orphanAge w in
  (∀ h st, rows w !! h = Some st → due (clock w) retention orphanAge st = false →
     rows w' !! h = Some st ∧ ∀ i, part (store w') h i = part (store w) h i) ∧
  (∀ h, rows w' !! h = rows w !! h ∨ rows w' !! h = None ∧ ∃ st, rows w !! h = Some st ∧
     due (clock w) retention orphanAge st = true).
Proof.
  intros Hok Hh. unfold sweepStagingGC, mbind, eff_bind, query, get.
  assert (∀ q, let '(r, w') := sweep_rows (clock w) retention orphanAge (map_to_list (rows w)) 0
      (mkWorld (store w) (rows w) q (clock w)) in
    (∀ h st, rows w !! h = Some st → due (clock w) retention orphanAge st = false →
       rows w' !! h = Some st ∧ ∀ i, part (store w') h i = part (store w) h i) ∧
    (∀ h, rows w' !! h = rows w !! h ∨ rows w' !! h = None ∧ ∃ st, rows w !! h = Some st ∧
       due (clock w) retention orphanAge st = true)) as Hgo.
  { intros q. pose proof (sweep_rows_spec (clock w) retention orphanAge (map_to_list (rows w)) 0
      (mkWorld (store w) (rows w) q (clock w)) Hok) as Hs.
    destruct (sweep_rows _ _ _ _ _ _) as [r w']. destruct Hs as (_ & Hk & Hc).
    { apply Forall_forall. intros [h st] Hin. apply elem_of_map_to_list in Hin. by eapply Hh. }
    split.
    - intros h st Hst Hdue. destruct (Hk h) as [Hr Hp]; [by eapply Hh| |by rewrite Hr].
      intros st' Hin. apply elem_of_map_to_list in Hin. congruence.
    - intros h. destruct (Hc h) as [?|(? & st & Hin & ?)]; [by left|right].
      split; [done|]. exists st. by apply elem_of_map_to_list in Hin. }
  destruct w as [s rs [|[] q] now]; simpl in *; [apply Hgo| |apply Hgo].
  split; [done|]. by left.
Qed.

(** A takeover does not refresh the row it re-arms: [resetStagingForTakeover]
    leaves [updated_at] as the dead holder left it, so a row stale enough for the
    orphan sweep is still due after the reset, and a sweep before the new
    holder's first part removes the waiters' request. *)
Theorem takeover_leaves_row_due {P : PartStore} (hash : string) (retention orphanAge : Z)
    (w : World) (st : StagingState) :
  db w = [] → rows w !! hash = Some st → is_ok (delete_parts hash (store w)).1 = true →
  (orphanAge < clock w - default (created_at st) (updated_at st))%Z →
  let w' := (resetStagingForTakeover hash w).2 in
  ∃ st', rows w' !! hash = Some st' ∧ status st' = stagingStatusRequested ∧
    clock w' = clock w ∧ due (clock w') retention orphanAge st' = true.
Proof.
  intros Hdb Hst Hdel Hstale. unfold resetStagingForTakeover, mbind, eff_bind, wrap, with_store.
  destruct (delete_parts hash (store w)) as [[[]|e] s']; [|done]. simpl.
  unfold resetStagingState, mbind, eff_bind, update, query. simpl. rewrite Hdb. simpl.
  rewrite Hst. simpl. eexists. rewrite lookup_insert_eq. split; [done|]. split; [done|].
  split; [done|]. unfold due. simpl. by apply Z.ltb_lt.
Qed.

(** A served NAR carries the right label: staging is served only when the
    bytes sent are in the advertised compression; a request for a compressed NAR
    is answered with exactly that compression or not at all, and a request for
    an uncompressed one is never refused. *)
Theorem serve_staging_label (url staged requested : string) :
  match serveNarFromStaging url staged requested with
  | Err e => e = ErrNotFound ∧ isNoneCompression requested = false ∧ requested ≠ staged
  | Ok (label, decompressed) =>
      (isNoneCompression requested = false → requested = staged) ∧
      (if decompressed then label = CompressionTypeNone ∧ isNoneCompression url = true
       else label = staged) ∧
      (url = requested → isNoneCompression requested = false → label = requested) ∧
      (url = requested → isNoneCompression requested = true → isNoneCompression label = true)
  end.
Proof.
  unfold serveNarFromStaging, compressedRequestNeedsUpstreamFallback.
  destruct (isNoneCompression requested) eqn:Hr; simpl.
  - destruct (isNoneCompression staged) eqn:Hs; simpl; [split_and!; congruence|].
    destruct (isNoneCompression url) eqn:Hu; simpl; split_and!; try congruence; done.
  - case_bool_decide as Heq; simpl; [|done]. subst staged. rewrite Hr. simpl.
    destruct (isNoneCompression url) eqn:Hu; simpl; split_and!; try congruence.
Qed.

(** ** Traces on the local store *)

Section traces.

Definition w0 : @World (local_parts sample_store) :=
  @mkWorld (local_parts sample_store) sample_new ∅ [] 0.

Definition whole (c : string) (sz : nat) : producer := mkProd c false sz "xz" 0 PRead.

(** One producer stages eight bytes in parts of three while a reader follows. *)
Definition trace_ok : list event :=
  [EvRequest; EvStart 0 (whole "abcdefgh" 3); EvOpen 1] ++ replicate 2 (EvRead 1) ++
  replicate 5 (EvProduce 0) ++ replicate 4 (EvRead 1) ++ replicate 4 (EvProduce 0) ++
  replicate 4 (EvRead 1).

(** A download fails after five bytes; another replica takes over and stages the
    whole NAR again. *)
Definition trace_failed : list event :=
  [EvRequest; EvStart 0 (mkProd "abcde" true 3 "xz" 0 PRead); EvOpen 1] ++
  replicate 6 (EvProduce 0) ++ replicate 4 (EvRead 1) ++
  [EvClean 0 CResetParts; EvCleanStep 0; EvCleanStep 0; EvStart 2 (whole "abcdefgh" 3)] ++
  replicate 9 (EvProduce 2) ++ replicate 3 (EvRead 1).

(** A holder that lost its lock is taken over just before it marks its staging
    complete. *)
Definition trace_lost : list event :=
  [EvRequest; EvStart 0 (whole "abcdefgh" 3); EvOpen 1] ++ replicate 8 (EvProduce 0) ++
  replicate 2 (EvRead 1) ++ [EvClean 0 CResetParts; EvCleanStep 0; EvCleanStep 0] ++
  [EvProduce 0; EvRead 1].

(** A takeover by a replica configured with another part size. *)
Definition trace_size : list event :=
  [EvRequest; EvStart 0 (whole "abcdefgh" 3); EvOpen 1] ++ replicate 3 (EvProduce 0) ++
  replicate 2 (EvRead 1) ++
  [EvKill 0; EvClean 0 CResetParts; EvCleanStep 0; EvCleanStep 0; EvStart 2 (whole "abcdefgh" 4)] ++
  replicate 8 (EvProduce 2) ++ replicate 3 (EvRead 1).

Definition final_reader (fenced : bool) (es : list event) : option reader :=
  s ← run_events fenced sample_hash es (start w0); readers s !! 1.

End traces.

(** A download that fails in the middle of a part still publishes the part:
    [produceStagingParts] puts the bytes it read and counts them before it looks
    at the read's error.  A reader that consumed the short part goes on, after
    the takeover, with the next part of the new staging: it skips the bytes in
    between and ends with a clean end of file, although everything was properly
    serialized by the download lock. *)
Theorem failed_download_corrupts_reader :
  final_reader true trace_failed = Some (mkReaderState 3 "abcdegh" (REnd SEOF)).
Proof. vm_compute. done. Qed.

(** The clean end of file rests on the download lock and on one part size:
    when a holder lost its lock without noticing (the refresher only logs a
    failed extension) its [markStagingComplete] completes the row that the
    takeover has just reset to zero parts, and a reader ends cleanly after three
    bytes of eight; and when the replica that takes over has another part size,
    a reader skips a byte. *)
Theorem lost_lock_truncates_reader :
  final_reader false trace_lost = Some (mkReaderState 1 "abc" (REnd SEOF)) ∧
  final_reader true trace_size = Some (mkReaderState 2 "abcefgh" (REnd SEOF)).
Proof. vm_compute. done. Qed.

(** ** Witnesses *)

Lemma sample_new_wf : wf (nodes sample_new).
Proof. apply sample_layout. Qed.

Lemma sample_new_no_parts i : part_at sample_store sample_hash i (nodes sample_new) = None.
Proof.
  unfold part_at. rewrite part_path_eq by reflexivity.
  destruct (file_at _ (nodes sample_new)) as [c|] eqn:Hf; [|done]. exfalso.
  assert (map_Forall (λ (_ : path) n, is_dir n = true) (nodes sample_new)) as Hall.
  { apply (bool_decide_eq_true_1 _). vm_compute. reflexivity. }
  unfold file_at in Hf. destruct (nodes sample_new !! _) as [[|m x]|] eqn:Hn; [done| |done].
  specialize (Hall _ _ Hn). simpl in Hall. congruence.
Qed.

Lemma trace_ok_whole : Forall (whole_event "abcdefgh" 3) trace_ok.
Proof. unfold trace_ok. simpl. repeat constructor. Qed.

Lemma staging_reader_safe_witness :
  final_reader true trace_ok = Some (mkReaderState 3 "abcdefgh" (REnd SEOF)) ∧
  ∃ s, run_events true sample_hash trace_ok (start w0) = Some s ∧
    ∀ r, readers s !! 1 = Some r → r_phase r = REnd SEOF → r_out r = "abcdefgh".
Proof.
  assert (final_reader true trace_ok = Some (mkReaderState 3 "abcdefgh" (REnd SEOF))) as Hf.
  { vm_compute. reflexivity. }
  split; [exact Hf|]. unfold final_reader in Hf. apply bind_Some in Hf as (s & Hrun & _).
  exists s. split; [exact Hrun|]. intros r Hr.
  apply (staging_reader_safe (L := local_parts_laws sample_store)
    "abcdefgh" sample_hash 3 w0 trace_ok s 1 r); [lia|exact eq_refl|exact sample_new_wf| |reflexivity| |
    exact Hrun|exact Hr].
  - apply sample_new_no_parts.
  - apply trace_ok_whole.
Defined.

Definition sample_config : config := mkConfig true 60 3 true 300 30.

Definition sample_download : download :=
  mkDownload "/tmp/nar" "xz" None (Ok (mkReader "abcdefgh" false)).

Definition w_requested : @World (local_parts sample_store) :=
  (markStagingRequested sample_hash w0).2.

Lemma produce_then_read_witness :
  let '(r, w') := produceStagingParts sample_config sample_hash (Some sample_download) w_requested in
  r = Ok () ∧ ∃ st, rows w' !! sample_hash = Some st ∧ status st = "complete".
Proof.
  destruct (produceStagingParts sample_config sample_hash (Some sample_download) w_requested)
    as [r w'] eqn:Hrun.
  assert (r = Ok ()) as ->.
  { change r with ((r, w').1). rewrite <- Hrun. vm_compute. reflexivity. }
  split; [reflexivity|].
  destruct (produce_then_read (L := local_parts_laws sample_store) sample_config sample_hash
    "/tmp/nar" "xz" "abcdefgh" w_requested w') as (st & n & Hst & Hstat & _).
  - reflexivity.
  - exact eq_refl.
  - exact sample_new_wf.
  - apply sample_new_no_parts.
  - eexists. split; [vm_compute; reflexivity|]. split; reflexivity.
  - done.
  - exact Hrun.
  - exists st. split; [exact Hst|exact Hstat].
Defined.

Definition w_stale : @World (local_parts sample_store) :=
  @mkWorld (local_parts sample_store) sample_new
    {[sample_hash := mkStaging (Some 0%Z) 2 "xz" stagingStatusStaging 0 (Some 10%Z)]} [] 1000.

Lemma sweep_reclaims_due_witness :
  (sweepStagingGC 60 400 w_stale).1 = Ok 1%Z ∧
  (rows (sweepStagingGC 60 400 w_stale).2 !! sample_hash =
     rows w_stale !! sample_hash ∨
   rows (sweepStagingGC 60 400 w_stale).2 !! sample_hash = None).
Proof.
  split; [vm_compute; reflexivity|].
  pose proof (sweep_reclaims_due (L := local_parts_laws sample_store) 60 400 w_stale) as Hs.
  specialize (Hs sample_new_wf).
  assert (∀ h st, rows w_stale !! h = Some st → plain h = true) as Hh.
  { intros h st Hst. unfold w_stale in Hst. cbn [rows] in Hst.
    apply lookup_singleton_Some in Hst as [<- _]. reflexivity. }
  specialize (Hs Hh). destruct (sweepStagingGC 60 400 w_stale) as [r w'].
  destruct Hs as [_ Hs]. destruct (Hs sample_hash) as [?|[? _]]; [left|right]; done.
Defined.

Lemma stage_inflight_idle_witness :
  ∃ w', stageInflightNar sample_config sample_hash [WTick; WDone] (Some sample_download) w_stale =
    (Ok false, w') ∧ rows w' = rows w_stale.
Proof.
  destruct (stage_inflight_idle (P := local_parts sample_store) sample_config sample_hash
    [WTick; WDone] (Some sample_download) w_stale) as (w' & Hr & _ & Hw).
  - intros st Hst. unfold w_stale in Hst. cbn [rows] in Hst.
    apply lookup_singleton_Some in Hst as [_ <-]. done.
  - exists w'. split; [exact Hr|exact Hw].
Defined.

Lemma takeover_leaves_row_due_witness :
  let w' := (resetStagingForTakeover sample_hash w_stale).2 in
  ∃ st', rows w' !! sample_hash = Some st' ∧ due (clock w') 60 400 st' = true.
Proof.
  destruct (takeover_leaves_row_due (P := local_parts sample_store) sample_hash 60 400 w_stale
    (mkStaging (Some 0%Z) 2 "xz" stagingStatusStaging 0 (Some 10%Z)))
    as (st' & Hst & _ & _ & Hdue); try reflexivity.
  exists st'. split; [exact Hst|exact Hdue].
Defined.
