(* ===== verification/Download.v ===== *)
(** * The temporary file of a download and its readers ([pkg/cache/cache.go])

    [pullNarIntoStore] writes a NAR to a temporary file while the clients of
    [GetNar], and the chunker under eager CDC, read it; a last goroutine removes the
    file.  They share a [downloadState]: a mutex, a condition variable, channels
    that close and wait groups.  A step here is what a goroutine does under the
    mutex, a read or write of the file, or an operation on a channel or group. *)
From S2P Require Import Prelude.

(** ** The download's state *)

(** [downloadState]; a channel is whether it is closed, a wait group its count. *)
Record downloadState := mkDs {
  bytesWritten : nat;
  finalSize : nat;
  downloadError : bool;
  start : bool;
  stored : bool;
  done : bool;
  closed : bool;
  wg : nat;
  cdcWg : nat;
  cleanupWg : nat;
}.

Definition newDownloadState : downloadState := mkDs 0 0 false false false false false 0 0 0.

Definition setError (d : downloadState) : downloadState :=
  mkDs (bytesWritten d) (finalSize d) true (start d) (stored d) (done d) (closed d) (wg d) (cdcWg d) (cleanupWg d).
Definition count_bytes (n : nat) (d : downloadState) : downloadState :=
  mkDs (bytesWritten d + n) (finalSize d) (downloadError d) (start d) (stored d) (done d) (closed d) (wg d) (cdcWg d) (cleanupWg d).
Definition set_final (d : downloadState) : downloadState :=
  mkDs (bytesWritten d) (bytesWritten d) (downloadError d) (start d) (stored d) (done d) (closed d) (wg d) (cdcWg d) (cleanupWg d).
Definition close_start (d : downloadState) : downloadState :=
  mkDs (bytesWritten d) (finalSize d) (downloadError d) true (stored d) (done d) (closed d) (wg d) (cdcWg d) (cleanupWg d).
Definition close_stored (d : downloadState) : downloadState :=
  mkDs (bytesWritten d) (finalSize d) (downloadError d) (start d) true (done d) (closed d) (wg d) (cdcWg d) (cleanupWg d).
Definition close_done (d : downloadState) : downloadState :=
  mkDs (bytesWritten d) (finalSize d) (downloadError d) (start d) (stored d) true (closed d) (wg d) (cdcWg d) (cleanupWg d).
Definition set_closed (d : downloadState) : downloadState :=
  mkDs (bytesWritten d) (finalSize d) (downloadError d) (start d) (stored d) (done d) true (wg d) (cdcWg d) (cleanupWg d).
Definition set_groups (w c k : nat) (d : downloadState) : downloadState :=
  mkDs (bytesWritten d) (finalSize d) (downloadError d) (start d) (stored d) (done d) (closed d) w c k.

(** ** The goroutines *)

(** Which way [pullNarIntoStore] takes: the temporary file is stored when it is
    complete, chunked when it is complete, or chunked while it is written. *)
Inductive way := WStore | WChunkAfter | WChunkWhile.

Definition way_of (cdcEnabled compressedNar hasNarInfo lazyChunkingDisabled : bool) : way :=
  if cdcEnabled && compressedNar && hasNarInfo && lazyChunkingDisabled then WChunkWhile
  else if cdcEnabled && lazyChunkingDisabled then WChunkAfter
  else WStore.

(** Where [pullNarIntoStore] is: fetching, creating the file, reading the body,
    counting what it wrote, telling the readers, ending the loop, storing the file,
    in its deferred function, returned. *)
Inductive puller := PFetch | PCreate | PCopy | PCount (n : nat) | PTell | PLast | PStore | PDefer | PReturned.

(** The chunker: not started, opening the file, about to read (what it has got), in
    [cond.Wait], woken, done ([None]: it failed), past its first deferred functions,
    gone. *)
Inductive chunker := CNone | COpen | CRead (got : string) | CParked (got : string) | CWoken (got : string)
  | CEnd (got : option string) | CLeave | CGone.

(** The goroutine that removes the file. *)
Inductive remover := KNone | KPull | KChunker | KReaders | KGone.

(** A client of [GetNar]: about to join, waiting for the start, about to test
    whether there are bytes, in [cond.Wait], woken, copying, waiting until the file
    is stored; then served from the store, refused, or its stream closed. *)
Inductive phase := RJoin | RStart | RLoop | RParked | RWoken | RCopy (n : nat) (isDownloadComplete : bool) | RAwait
  | RStorage | RRefused | REnd.

(** [r_canceled]: the client's context is canceled; [r_watcher]: its watcher is
    still to broadcast. *)
Record reader := mkReader {
  r_phase : phase;
  r_sent : string;
  r_open : bool;
  r_canceled : bool;
  r_watcher : bool;
}.

Definition new_reader : reader := mkReader RJoin "" false false true.
Definition goto (p : phase) (r : reader) : reader := mkReader p (r_sent r) (r_open r) (r_canceled r) (r_watcher r).

(** [source]: what the upstream has yet to send; [asset]: the file's bytes, [exists_]
    whether it has its name; [job]: the download is registered in [upstreamJobs]. *)
Record sys := mkSys {
  source : string;
  asset : string;
  exists_ : bool;
  job : bool;
  ds : downloadState;
  pull : puller;
  chunk : chunker;
  remove : remover;
  readers : gmap nat reader;
}.

Definition begin (body : string) : sys :=
  mkSys body "" false true (set_groups 0 0 1 newDownloadState) PFetch CNone KNone ∅.

Definition set_ds (d : downloadState) (s : sys) : sys :=
  mkSys (source s) (asset s) (exists_ s) (job s) d (pull s) (chunk s) (remove s) (readers s).
Definition set_pull (p : puller) (s : sys) : sys :=
  mkSys (source s) (asset s) (exists_ s) (job s) (ds s) p (chunk s) (remove s) (readers s).
Definition set_chunk (c : chunker) (s : sys) : sys :=
  mkSys (source s) (asset s) (exists_ s) (job s) (ds s) (pull s) c (remove s) (readers s).
Definition set_remove (k : remover) (s : sys) : sys :=
  mkSys (source s) (asset s) (exists_ s) (job s) (ds s) (pull s) (chunk s) k (readers s).
Definition set_file (t : string) (e : bool) (s : sys) : sys :=
  mkSys (source s) t e (job s) (ds s) (pull s) (chunk s) (remove s) (readers s).
Definition set_source (t : string) (s : sys) : sys :=
  mkSys t (asset s) (exists_ s) (job s) (ds s) (pull s) (chunk s) (remove s) (readers s).
Definition set_job (b : bool) (s : sys) : sys :=
  mkSys (source s) (asset s) (exists_ s) b (ds s) (pull s) (chunk s) (remove s) (readers s).
Definition set_readers (m : gmap nat reader) (s : sys) : sys :=
  mkSys (source s) (asset s) (exists_ s) (job s) (ds s) (pull s) (chunk s) (remove s) m.
Definition set_reader (t : nat) (r : reader) (s : sys) : sys := set_readers (<[t := r]> (readers s)) s.

(** [cond.Broadcast] *)
Definition wake (r : reader) : reader := match r_phase r with RParked => goto RWoken r | _ => r end.
Definition wake_chunker (c : chunker) : chunker := match c with CParked got => CWoken got | _ => c end.
Definition broadcast (s : sys) : sys := set_chunk (wake_chunker (chunk s)) (set_readers (wake <$> readers s) s).

(** ** The download *)

Section steps.
Context (w : way).

(** What a fetch, a file operation or a read meets: [GChunk n k]: [n] bytes are
    read and [k] of them are written, fewer when writing fails; [GEof]: the end. *)
Inductive got := GOk | GFail | GChunk (n k : nat) | GEof.

Definition fail_pull (s : sys) : sys := set_pull PDefer (set_ds (setError (ds s)) s).

(** The chunker was started: it will remove the job. *)
Definition keepJobAlive (s : sys) : bool := match chunk s with CNone => false | _ => true end.

Definition spawn_chunker (s : sys) : sys :=
  set_chunk COpen (set_ds (set_groups (S (wg (ds s))) (S (cdcWg (ds s))) (cleanupWg (ds s)) (ds s)) s).

Definition after_copy (s : sys) : sys :=
  match w with
  | WStore => set_pull PStore s
  | WChunkAfter => set_pull PDefer (spawn_chunker s)
  | WChunkWhile => set_pull PDefer s
  end.

Definition buffer : nat := Z.to_nat (32 * 1024).

Definition pull_step (g : got) (s : sys) : option sys :=
  match pull s, g with
  | PFetch, GOk => Some (set_remove KPull (set_pull PCreate s))
  | PFetch, GFail | PCreate, GFail | PCopy, GFail => Some (fail_pull s)
  | PCreate, GOk =>
      let s := set_pull PCopy (set_ds (close_start (ds s)) (set_file "" true s)) in
      Some (match w with WChunkWhile => spawn_chunker s | _ => s end)
  | PCopy, GChunk n k =>
      if negb ((0 <? n)%nat && (n <=? buffer)%nat && (n <=? String.length (source s))%nat && (k <=? n)%nat) then None else
      let s' := set_source (str_drop n (source s)) (set_file (asset s +:+ str_take k (source s)) (exists_ s) s) in
      Some (if (k =? n)%nat then set_pull (PCount n) s' else fail_pull s')
  | PCount n, GOk => Some (set_pull PTell (set_ds (count_bytes n (ds s)) s))
  | PTell, GOk => Some (set_pull PCopy (broadcast s))
  | PCopy, GEof =>
      if bool_decide (source s = "") then Some (set_pull PLast (set_ds (set_final (ds s)) s)) else None
  | PLast, GOk => Some (after_copy (broadcast s))
  | PStore, GOk => Some (set_pull PDefer (set_ds (close_stored (ds s)) s))
  | PStore, GFail => Some (fail_pull s)
  | PDefer, GOk =>
      let s := if keepJobAlive s then set_ds (close_start (ds s)) s
               else set_job false (set_ds (close_done (close_start (ds s))) s) in
      let s := broadcast s in
      Some (set_pull PReturned (set_ds (set_groups (wg (ds s)) (cdcWg (ds s)) (pred (cleanupWg (ds s))) (ds s)) s))
  | _, _ => None
  end.

(** ** The chunker *)

(** [fileAvailableReader.Read]: the next state of a reader at an offset, [None] when
    it waits; the error, the end, or what is there, up to the size of its buffer. *)
Inductive available := AWait | AError | AEof | ABytes (n : nat).

Definition fileAvailable (offset : nat) (d : downloadState) : available :=
  if (bytesWritten d <=? offset)%nat && (finalSize d =? 0)%nat && negb (downloadError d) then AWait
  else if downloadError d then AError
  else if negb (finalSize d =? 0)%nat && (finalSize d <=? offset)%nat then AEof
  else ABytes (bytesWritten d - offset).

(** What the chunker meets: it goes on, its record is ready, it gives up ([true]:
    leaving an error in the download's state). *)
Inductive chunk_event := CGo (toRead : nat) | CReady | CGiveUp (report : bool).

Definition end_chunker (report : bool) (got : option string) (s : sys) : sys :=
  set_chunk (CEnd got) (if report then set_ds (setError (ds s)) s else s).

Definition read_step (toRead : nat) (got : string) (s : sys) : sys :=
  match fileAvailable (String.length got) (ds s) with
  | AWait => set_chunk (CParked got) s
  | AError => end_chunker true None s
  | AEof => end_chunker false (Some got) s
  | ABytes n => set_chunk (CRead (got +:+ str_take (Nat.min toRead n) (str_drop (String.length got) (asset s)))) s
  end.

(** Chunking after the download reads the whole file. *)
Definition chunk_step (e : chunk_event) (s : sys) : option sys :=
  match chunk s, e with
  | COpen, CGo _ => if exists_ s then Some (set_chunk (CRead "") s) else Some (end_chunker true None s)
  | COpen, CGiveUp b | CRead _, CGiveUp b => Some (end_chunker b None s)
  | CRead _, CReady => Some (set_ds (close_stored (ds s)) s)
  | CRead got, CGo toRead =>
      Some (match w with WChunkWhile => read_step toRead got s | _ => end_chunker false (Some (asset s)) s end)
  | CWoken got, CGo toRead => Some (read_step toRead got s)
  | CEnd _, CGo _ =>
      Some (set_chunk CLeave (set_ds (set_groups (pred (wg (ds s))) (pred (cdcWg (ds s))) (cleanupWg (ds s)) (ds s)) s))
  | CLeave, CGo _ => Some (broadcast (set_chunk CGone (set_job false (set_ds (close_done (ds s)) s))))
  | _, _ => None
  end.

(** ** The removal *)

Definition remove_step (s : sys) : option sys :=
  match remove s with
  | KPull => if (cleanupWg (ds s) =? 0)%nat then Some (set_remove KChunker s) else None
  | KChunker =>
      if (cdcWg (ds s) =? 0)%nat then Some (set_remove KReaders (set_ds (set_closed (ds s)) s)) else None
  | KReaders => if (wg (ds s) =? 0)%nat then Some (set_remove KGone (set_file (asset s) false s)) else None
  | KNone | KGone => None
  end.

(** ** The clients *)

Definition leave (t : nat) (p : phase) (r : reader) (s : sys) : sys :=
  set_reader t (goto p r) (set_ds (set_groups (pred (wg (ds s))) (cdcWg (ds s)) (cleanupWg (ds s)) (ds s)) s).

(** The bytes between what was sent and what is counted; the file is opened once. *)
Definition look (t : nat) (r : reader) (s : sys) : sys :=
  let sent := String.length (r_sent r) in
  if (bytesWritten (ds s) <=? sent)%nat && (finalSize (ds s) =? 0)%nat then set_reader t (goto RParked r) s
  else if negb (r_open r) && negb (exists_ s) then leave t REnd r s
  else set_reader t (mkReader (RCopy (bytesWritten (ds s) - sent) (negb (finalSize (ds s) =? 0)%nat))
         (r_sent r) true (r_canceled r) (r_watcher r)) s.

(** [aside]: the store has the NAR, or the file's compression does not suit the
    request; [gone]: the goroutine notices that the client is. *)
Definition reader_step (t : nat) (aside gone : bool) (r : reader) (s : sys) : option sys :=
  match r_phase r with
  | RJoin =>
      if closed (ds s) || aside then Some (set_reader t (goto RStorage r) s)
      else Some (set_reader t (goto RStart r)
             (set_ds (set_groups (S (wg (ds s))) (cdcWg (ds s)) (cleanupWg (ds s)) (ds s)) s))
  | RStart =>
      if r_canceled r && gone then Some (leave t RRefused r s)
      else if negb (start (ds s)) then None
      else if downloadError (ds s) || aside then Some (leave t RRefused r s)
      else Some (set_reader t (goto RLoop r) s)
  | RLoop => Some (look t r s)
  | RParked => None
  | RWoken => if downloadError (ds s) || r_canceled r then Some (leave t REnd r s) else Some (look t r s)
  | RCopy n isDownloadComplete =>
      if r_canceled r && gone then Some (leave t REnd r s) else
      let sent := r_sent r +:+ str_take n (str_drop (String.length (r_sent r)) (asset s)) in
      let r := mkReader RLoop sent (r_open r) (r_canceled r) (r_watcher r) in
      Some (set_reader t (if isDownloadComplete && (finalSize (ds s) <=? String.length sent)%nat then goto RAwait r else r) s)
  | RAwait => if stored (ds s) || done (ds s) || r_canceled r then Some (leave t REnd r s) else None
  | RStorage | RRefused | REnd => None
  end.

(** The goroutine that streams to the client is running. *)
Definition streaming (p : phase) : bool :=
  match p with RLoop | RParked | RWoken | RCopy _ _ | RAwait => true | _ => false end.

Inductive event :=
  | EPull (g : got)
  | EChunk (e : chunk_event)
  | ERemove
  | EJoin (t : nat)
  | EReader (t : nat) (aside gone : bool)
  | ECancel (t : nat)
  | EWatch (t : nat).

Definition apply_event (e : event) (s : sys) : option sys :=
  match e with
  | EPull g => pull_step g s
  | EChunk e => chunk_step e s
  | ERemove => remove_step s
  | EJoin t => match readers s !! t with None => Some (set_reader t new_reader s) | Some _ => None end
  | EReader t aside gone => r ← readers s !! t; reader_step t aside gone r s
  | ECancel t => r ← readers s !! t; Some (set_reader t (mkReader (r_phase r) (r_sent r) (r_open r) true (r_watcher r)) s)
  | EWatch t =>
      r ← readers s !! t;
      if r_canceled r && r_watcher r && streaming (r_phase r) then
        Some (broadcast (set_reader t (mkReader (r_phase r) (r_sent r) (r_open r) true false) s))
      else None
  end.

Fixpoint run_events (es : list event) (s : sys) : option sys :=
  match es with [] => Some s | e :: es => s ← apply_event e s; run_events es s end.
End steps.

(** ** The invariant *)

Definition str_prefix (a b : string) : Prop := ∃ t, b = a +:+ t.

Lemma str_prefix_refl a : str_prefix a a.
Proof. exists "". by rewrite str_app_nil_r. Qed.

Lemma str_prefix_app a b t : str_prefix a b → str_prefix a (b +:+ t).
Proof. intros [u ->]. exists (u +:+ t). by rewrite str_app_assoc. Qed.

Lemma str_prefix_trans a b c : str_prefix a b → str_prefix b c → str_prefix a c.
Proof. intros Hab [t ->]. by apply str_prefix_app. Qed.

Lemma str_prefix_length a b : str_prefix a b → String.length a ≤ String.length b.
Proof. intros [t ->]. rewrite str_length_app. lia. Qed.

Lemma str_prefix_whole a b : str_prefix a b → String.length b ≤ String.length a → a = b.
Proof.
  intros [t ->]. rewrite str_length_app. intros Hl. destruct t; [by rewrite str_app_nil_r|]. simpl in Hl. lia.
Qed.

(** The next bytes of a file after a prefix of it. *)
Lemma str_prefix_next a b n :
  str_prefix a b →
  str_prefix (a +:+ str_take n (str_drop (String.length a) b)) b ∧
  (String.length a + n ≤ String.length b →
     String.length (a +:+ str_take n (str_drop (String.length a) b)) = String.length a + n).
Proof.
  intros [t ->]. rewrite str_drop_app. split.
  - exists (str_drop n t). by rewrite str_app_assoc, str_take_drop.
  - rewrite !str_length_app. intros Hn. rewrite str_length_take; lia.
Qed.

Lemma mcount_fmap {V} (P : V → Prop) `{!∀ v, Decision (P v)} (f : V → V) (m : gmap nat V) :
  (∀ v, P (f v) ↔ P v) → mcount P (f <$> m) = mcount P m.
Proof.
  intros Hf. induction m as [|k v m Hk IH] using map_ind; [by rewrite fmap_empty|].
  rewrite fmap_insert, !mcount_insert_new by (by rewrite ?lookup_fmap, ?Hk). rewrite IH. f_equal.
  by rewrite (bool_decide_ext _ _ (Hf v)).
Qed.

(** Who is counted in [wg]. *)
Definition registered (r : reader) : bool := streaming (r_phase r) || match r_phase r with RStart => true | _ => false end.

Definition busy (c : chunker) : bool :=
  match c with COpen | CRead _ | CParked _ | CWoken _ | CEnd _ => true | _ => false end.

Notation clients := (mcount (λ r, registered r = true)).

Section invariant.
Context (w : way) (body : string).

(** How far the copy is. *)
Definition copied (p : puller) (d : downloadState) (asset source : string) : Prop :=
  match p with
  | PFetch | PCreate => asset = "" ∧ source = body ∧ bytesWritten d = 0 ∧ finalSize d = 0
  | PCopy | PTell => body = asset +:+ source ∧ bytesWritten d = String.length asset ∧ finalSize d = 0
  | PCount n => body = asset +:+ source ∧ bytesWritten d + n = String.length asset ∧ finalSize d = 0
  | PLast | PStore => asset = body ∧ bytesWritten d = String.length body ∧ finalSize d = String.length body
  | PDefer | PReturned =>
      str_prefix asset body ∧ bytesWritten d ≤ String.length asset ∧
      (downloadError d = false ∨ finalSize d ≠ 0 →
         asset = body ∧ bytesWritten d = String.length body ∧ finalSize d = String.length body)
  end.

Lemma copied_facts p d a s :
  copied p d a s →
  str_prefix a body ∧ bytesWritten d ≤ String.length a ∧
  (finalSize d ≠ 0 → a = body ∧ bytesWritten d = String.length body ∧ finalSize d = String.length body).
Proof.
  destruct p; simpl; intros; destruct_and?; subst; split_and!; auto using str_prefix_refl with lia; try lia;
    try (by eexists); naive_solver lia.
Qed.

(** The chunker's part. *)
Definition chunking_ok (c : chunker) (d : downloadState) (asset : string) : Prop :=
  match c with
  | CRead got | CParked got | CWoken got => str_prefix got asset ∧ String.length got ≤ bytesWritten d
  | CEnd (Some got) => got = body
  | _ => True
  end.

(** A client's part. *)
Definition reader_ok (d : downloadState) (asset : string) (e : bool) (r : reader) : Prop :=
  str_prefix (r_sent r) asset ∧ String.length (r_sent r) ≤ bytesWritten d ∧
  (streaming (r_phase r) = true → e = true) ∧
  match r_phase r with
  | RCopy n complete =>
      String.length (r_sent r) + n ≤ bytesWritten d ∧
      (complete = true → finalSize d ≠ 0 ∧ String.length (r_sent r) + n = finalSize d)
  | RAwait => finalSize d ≠ 0 ∧ String.length (r_sent r) = finalSize d
  | REnd => r_sent r = body ∨ downloadError d = true ∨ r_canceled r = true
  | _ => True
  end.

(** When the file is there. *)
Definition file_ok (s : sys) : Prop :=
  match pull s with
  | PFetch | PCreate => start (ds s) = false ∧ exists_ s = false
  | PCopy | PCount _ | PTell | PLast | PStore => exists_ s = true
  | PDefer | PReturned => downloadError (ds s) = false → exists_ s = true ∨ remove s = KGone
  end.

Definition removal_ok (s : sys) : Prop :=
  match remove s with
  | KNone | KPull => closed (ds s) = false
  | KChunker => closed (ds s) = false ∧ pull s = PReturned
  | KReaders => closed (ds s) = true ∧ pull s = PReturned ∧ busy (chunk s) = false
  | KGone => closed (ds s) = true ∧ pull s = PReturned ∧ wg (ds s) = 0
  end.

Record inv (s : sys) : Prop := {
  inv_copied : copied (pull s) (ds s) (asset s) (source s);
  inv_file : file_ok s;
  inv_removal : removal_ok s;
  inv_wg : wg (ds s) = clients (readers s) + b2n (busy (chunk s));
  inv_cdcWg : cdcWg (ds s) = b2n (busy (chunk s));
  inv_cleanupWg : cleanupWg (ds s) = match pull s with PReturned => 0 | _ => 1 end;
  inv_way : chunk s ≠ CNone → w = WChunkWhile ∧ pull s ≠ PFetch ∧ pull s ≠ PCreate ∨
    asset s = body ∧ (pull s = PDefer ∨ pull s = PReturned);
  inv_chunking : chunking_ok (chunk s) (ds s) (asset s);
  inv_readers t r : readers s !! t = Some r → reader_ok (ds s) (asset s) (exists_ s) r;
}.

(** What a client has done stays right while the download goes on. *)
Lemma reader_ok_mono d d' a a' e e' r :
  reader_ok d a e r → str_prefix a a' → bytesWritten d ≤ bytesWritten d' →
  (finalSize d ≠ 0 → finalSize d' = finalSize d) → (downloadError d = true → downloadError d' = true) →
  (registered r = true → e = true → e' = true) → reader_ok d' a' e' r.
Proof.
  intros (Hp & Hl & He & Hr) Ha Hb Hf Hd Hx. unfold reader_ok. split_and!.
  - by eapply str_prefix_trans.
  - lia.
  - intros Hs. apply Hx; [|by apply He]. unfold registered. by rewrite Hs.
  - destruct (r_phase r); naive_solver lia.
Qed.

Lemma readers_mono s s' t r :
  inv s → readers s' !! t = Some r → readers s !! t = Some r → str_prefix (asset s) (asset s') →
  bytesWritten (ds s) ≤ bytesWritten (ds s') → (finalSize (ds s) ≠ 0 → finalSize (ds s') = finalSize (ds s)) →
  (downloadError (ds s) = true → downloadError (ds s') = true) →
  (exists_ s = true → exists_ s' = true) → reader_ok (ds s') (asset s') (exists_ s') r.
Proof. intros Hi _ Hr ?????. eapply reader_ok_mono; [by eapply inv_readers|..]; auto. Qed.

Lemma chunking_mono c d d' a a' :
  chunking_ok c d a → str_prefix a a' → bytesWritten d ≤ bytesWritten d' → chunking_ok c d' a'.
Proof.
  intros Hc Ha Hb. destruct c as [| |g|g|g|[g|]| |]; simpl in *; try done;
    (destruct Hc; split; [by eapply str_prefix_trans|lia]).
Qed.

(** Waking changes nothing of it. *)
Lemma inv_broadcast s : inv s → inv (broadcast s).
Proof.
  intros Hi. pose proof Hi as []. unfold broadcast, set_chunk, set_readers.
  assert (busy (wake_chunker (chunk s)) = busy (chunk s)) as Hb by by destruct (chunk s).
  split; simpl; rewrite ?Hb; try done.
  - unfold removal_ok in *. simpl. by rewrite Hb.
  - rewrite mcount_fmap; [done|]. intros r. unfold registered, wake. by destruct (r_phase r) eqn:Hp; simpl; rewrite ?Hp.
  - intros Hc. apply inv_way0. by destruct (chunk s).
  - by destruct (chunk s).
  - intros t r Hr. rewrite lookup_fmap in Hr. apply fmap_Some in Hr as (r0 & Hr0 & ->).
    specialize (inv_readers0 t r0 Hr0). unfold wake. destruct (r_phase r0) eqn:Hp; [done..| |done|done|done|done|done|done].
    unfold reader_ok in *. rewrite Hp in *. simpl in *. naive_solver.
Qed.

Ltac spread Hi :=
  pose proof Hi as [Hcopied Hfile Hremoval Hwg HcdcWg HcleanupWg Hway Hchunking Hreaders];
  unfold file_ok, removal_ok in *.

Lemma inv_begin : inv (begin body).
Proof. split; simpl; try done; by rewrite ?lookup_empty. Qed.

(** A step that leaves the clients alone. *)
Ltac keep_readers := intros ?t ?r ?Hr; eapply reader_ok_mono; [eauto|try apply str_prefix_refl|simpl..]; auto with lia.

Lemma inv_fail_pull s :
  inv s → pull s ≠ PDefer → pull s ≠ PReturned → inv (fail_pull s).
Proof.
  intros Hi H1 H2. spread Hi. pose proof (copied_facts _ _ _ _ Hcopied) as (Hp & Hl & Hf).
  unfold fail_pull, set_pull, set_ds. split; simpl; try done.
  - split_and!; [done|done|]. intros [?|?]; [done|]. by apply Hf.
  - by destruct (remove s), (pull s); naive_solver.
  - rewrite HcleanupWg. by destruct (pull s).
  - naive_solver.
  - keep_readers.
Qed.

Lemma inv_spawn s :
  inv s → chunk s = CNone → w = WChunkWhile ∧ pull s = PCopy ∨ asset s = body ∧ pull s = PDefer → inv (spawn_chunker s).
Proof.
  intros Hi Hc Hw. spread Hi. rewrite Hc in *. unfold spawn_chunker, set_chunk, set_ds, set_groups. split; simpl; try done.
  - unfold removal_ok. simpl. destruct Hw as [[_ Hw]|[_ Hw]]; rewrite Hw in *; destruct (remove s); naive_solver.
  - simpl in *. lia.
  - simpl in *. lia.
  - intros _. destruct Hw as [[? ->]|[? ->]]; [by left|by auto].
Qed.

(** The steps of the download. *)
Lemma parts_mono s d a e :
  inv s → str_prefix (asset s) a → bytesWritten (ds s) ≤ bytesWritten d →
  (finalSize (ds s) ≠ 0 → finalSize d = finalSize (ds s)) → (downloadError (ds s) = true → downloadError d = true) →
  (exists_ s = true → e = true) →
  chunking_ok (chunk s) d a ∧ ∀ t r, readers s !! t = Some r → reader_ok d a e r.
Proof.
  intros Hi Ha Hb Hf Hd He. split.
  - by eapply chunking_mono; [apply Hi|..].
  - intros t r Hr. eapply reader_ok_mono; [by apply (inv_readers _ Hi t)|auto..].
Qed.

Lemma inv_create s :
  inv s → pull s = PCreate →
  inv (set_pull PCopy (set_ds (close_start (ds s)) (set_file "" true s))).
Proof.
  intros Hi Hp. spread Hi. rewrite Hp in *. destruct Hcopied as (Ha & <- & Hb & Hf).
  destruct (parts_mono s (close_start (ds s)) "" true Hi) as [Hch Hrs]; simpl; auto.
  { rewrite Ha. apply str_prefix_refl. }
  split; simpl; try done.
  - unfold removal_ok. simpl. destruct (remove s); naive_solver.
  - intros Hc. destruct (Hway Hc) as [(? & _ & ?)|[_ [?|?]]]; done.
Qed.

Lemma inv_write n k s :
  inv s → pull s = PCopy → 0 < n → n ≤ String.length (source s) → k ≤ n →
  inv (let s' := set_source (str_drop n (source s)) (set_file (asset s +:+ str_take k (source s)) (exists_ s) s) in
       if (k =? n)%nat then set_pull (PCount n) s' else fail_pull s').
Proof.
  intros Hi Hp Hn Hl Hk. spread Hi. rewrite Hp in *. destruct Hcopied as (Hbody & Hb & Hf).
  assert (∀ d, bytesWritten d = bytesWritten (ds s) → finalSize d = finalSize (ds s) → (downloadError (ds s) = true → downloadError d = true) →
    chunking_ok (chunk s) d (asset s +:+ str_take k (source s)) ∧
    ∀ t r, readers s !! t = Some r → reader_ok d (asset s +:+ str_take k (source s)) (exists_ s) r) as Hparts.
  { intros d Hd1 Hd2 Hd3. apply parts_mono; try congruence; auto with lia. apply str_prefix_app, str_prefix_refl. }
  assert (¬ (chunk s ≠ CNone ∧ w ≠ WChunkWhile)) as Hw.
  { intros [Hc Hw]. destruct (Hway Hc) as [[? _]|[_ [?|?]]]; congruence. }
  cbv zeta. destruct (Nat.eqb_spec k n) as [->|Hne].
  - destruct (Hparts (ds s)) as [? ?]; [done..|]. split; simpl; try done.
    + rewrite <- (str_take_drop n (source s)) in Hbody. rewrite str_app_assoc. split_and!; [done| |done].
      rewrite str_length_app, str_length_take by done. lia.
    + unfold removal_ok. simpl. destruct (remove s); naive_solver.
    + intros Hc. left. split_and!; [|done..]. destruct w; naive_solver.
  - destruct (Hparts (setError (ds s))) as [? ?]; [done..|]. split; simpl; try done.
    + split_and!; [|rewrite str_length_app; lia|naive_solver congruence].
      exists (str_drop k (source s)). by rewrite str_app_assoc, str_take_drop.
    + unfold removal_ok. simpl. destruct (remove s); naive_solver.
    + intros Hc. left. split_and!; [|done..]. destruct w; naive_solver.
Qed.

(** A step of the copy that only changes the download's state. *)
Lemma inv_advance p d s :
  inv s → copied p d (asset s) (source s) →
  closed d = closed (ds s) → wg d = wg (ds s) → cdcWg d = cdcWg (ds s) → cleanupWg d = cleanupWg (ds s) →
  bytesWritten (ds s) ≤ bytesWritten d → (finalSize (ds s) ≠ 0 → finalSize d = finalSize (ds s)) →
  downloadError d = downloadError (ds s) →
  match pull s with PCopy | PCount _ | PTell | PLast | PStore => True | _ => False end →
  match p with PCopy | PCount _ | PTell | PLast | PStore | PDefer => True | _ => False end →
  (w = WChunkWhile ∨ chunk s = CNone) →
  inv (set_pull p (set_ds d s)).
Proof.
  intros Hi Hc Hcl Hw1 Hw2 Hw3 Hb Hf He Hp Hp' Hch. spread Hi.
  destruct (parts_mono s d (asset s) (exists_ s) Hi) as [? ?]; auto using str_prefix_refl; [congruence|].
  split; unfold removal_ok, file_ok; simpl; rewrite ?Hcl, ?Hw1, ?Hw2, ?Hw3, ?He; try done.
  - by destruct (pull s), p; auto.
  - destruct (remove s), (pull s); naive_solver.
  - by destruct (pull s), p.
  - intros Hne. destruct Hch; [|done]. by left; split_and!; [|destruct p..].
Qed.

Lemma inv_return s :
  inv s → pull s = PDefer →
  inv (let s := if keepJobAlive s then set_ds (close_start (ds s)) s
                else set_job false (set_ds (close_done (close_start (ds s))) s) in
       let s := broadcast s in
       set_pull PReturned (set_ds (set_groups (wg (ds s)) (cdcWg (ds s)) (pred (cleanupWg (ds s))) (ds s)) s)).
Proof.
  intros Hi Hp. set (s1 := if keepJobAlive s then _ else _).
  assert (∀ d b, d = close_start (ds s) ∨ d = close_done (close_start (ds s)) →
    inv (set_job b (set_ds d s))) as Hone.
  { intros d b Hd. spread Hi. rewrite Hp in *.
    destruct (parts_mono s d (asset s) (exists_ s) Hi) as [? ?]; auto using str_prefix_refl; try by destruct Hd; subst.
    split; unfold removal_ok, file_ok; simpl; rewrite ?Hp; try done; by destruct Hd; subst. }
  assert (inv s1 ∧ pull s1 = PDefer) as [Hi1 Hp1].
  { unfold s1. destruct (keepJobAlive s); (split; [|done]); [|by apply Hone; auto].
    specialize (Hone (close_start (ds s)) (job s)). by destruct s; apply Hone; auto. }
  clearbody s1. apply inv_broadcast in Hi1. change (pull (broadcast s1) = PDefer) in Hp1.
  cbv zeta. set (s2 := broadcast s1) in *. clearbody s2. clear Hone Hi Hp. spread Hi1. rewrite Hp1 in *.
  destruct (parts_mono s2 (set_groups (wg (ds s2)) (cdcWg (ds s2)) (pred (cleanupWg (ds s2))) (ds s2)) (asset s2) (exists_ s2) Hi1)
    as [? ?]; auto using str_prefix_refl.
  split; unfold removal_ok, file_ok; simpl; try done.
  - destruct (remove s2); naive_solver.
  - by rewrite HcleanupWg.
  - intros Hc. destruct (Hway Hc) as [[? _]|[? _]]; [by left|by right; auto].
Qed.

Lemma inv_pull g s s' : inv s → pull_step w g s = Some s' → inv s'.
Proof.
  intros Hi Hs. unfold pull_step in Hs. destruct (pull s) as [| | |m| | | | |] eqn:Hp, g as [| |n k|]; try discriminate Hs.
  all: try (injection Hs as <-; apply inv_fail_pull; congruence).
  all: assert (∀ c, pull s = c → c ≠ PDefer → w = WChunkWhile ∨ chunk s = CNone) as Hch
    by (intros c <- Hc; destruct (chunk s) eqn:E; [by right|..]; left;
        (destruct (inv_way _ Hi) as [[? _]|[_ [?|?]]]; congruence)).
  all: pose proof (inv_copied _ Hi) as Hcp; rewrite Hp in Hcp.
  - injection Hs as <-. spread Hi. rewrite Hp in *. split; simpl; try done. 
    all: try (unfold removal_ok; simpl; destruct (remove s); naive_solver).
  - injection Hs as <-. pose proof (inv_create s Hi Hp) as Hc.
    assert (chunk s = CNone) as Hn.
    { destruct (chunk s) eqn:E; [done|..]; (destruct (inv_way _ Hi) as [(? & _ & ?)|[_ [?|?]]]; congruence). }
    assert (w = WChunkWhile → inv (spawn_chunker (set_pull PCopy (set_ds (close_start (ds s)) (set_file "" true s))))) as Hsp.
    { intros Hw. apply inv_spawn; auto. }
    destruct w; auto.
  - destruct (_ && _) eqn:Hg in Hs; [|done]. injection Hs as <-. bool_props.
    apply (inv_write n k s Hi Hp); first [by apply Nat.ltb_lt|by apply Nat.leb_le].
  - case_bool_decide as He; [|done]. injection Hs as <-. simpl in Hcp. rewrite He, str_app_nil_r in Hcp.
    destruct Hcp as (Ha & Hb & Hf). apply inv_advance; simpl; rewrite ?Hp; try done; [|by eapply Hch].
    split_and!; congruence.
  - injection Hs as <-. simpl in Hcp. apply inv_advance; simpl; rewrite ?Hp; try done; [lia|by eapply Hch].
  - injection Hs as <-. apply inv_broadcast in Hi.
    apply (inv_advance PCopy (ds s) _ Hi); simpl; rewrite ?Hp; try done.
    destruct (Hch _ Hp); [done|by left|]. right. by destruct (chunk s).
  - injection Hs as <-. pose proof Hcp as (Ha & Hb & Hf). apply inv_broadcast in Hi.
    assert (w = WChunkWhile ∨ chunk (broadcast s) = CNone) as Hch'.
    { destruct (Hch _ Hp); [done|by left|]. right. simpl. by destruct (chunk s). }
    change (pull (broadcast s) = PLast) in Hp.
    assert (inv (set_pull PStore (broadcast s)) ∧ inv (set_pull PDefer (broadcast s))) as [Hst Hde].
    { split; [apply (inv_advance PStore (ds s) (broadcast s))|apply (inv_advance PDefer (ds s) (broadcast s))];
        simpl in *; rewrite ?Hp; try done.
      split_and!; [rewrite Ha; apply str_prefix_refl|rewrite Ha; lia|done]. }
    unfold after_copy. destruct w eqn:Hw; [done| |done].
    apply (inv_spawn (set_pull PDefer (broadcast s)) Hde); [by destruct Hch'|]. by right.
  - injection Hs as <-. apply inv_advance; simpl; rewrite ?Hp; try done; [|by eapply Hch].
    destruct Hcp as (-> & ? & ?). split_and!; [apply str_prefix_refl|lia|done].
  - injection Hs as <-. by apply inv_return.
Qed.

Lemma inv_remove s s' : inv s → remove_step s = Some s' → inv s'.
Proof.
  intros Hi Hs. spread Hi. unfold remove_step in Hs. destruct (remove s) eqn:Hk; try done.
  - destruct (Nat.eqb_spec (cleanupWg (ds s)) 0) as [Hz|]; [|done]. injection Hs as <-.
    assert (pull s = PReturned) as Hp by (destruct (pull s); [lia..|done]).
    split; unfold removal_ok, file_ok; simpl; try done. rewrite Hp in *. naive_solver.
  - destruct (Nat.eqb_spec (cdcWg (ds s)) 0) as [Hz|]; [|done]. injection Hs as <-. destruct Hremoval as [Hcl Hp].
    assert (busy (chunk s) = false) as Hb by (destruct (busy (chunk s)); [by rewrite HcdcWg in Hz|done]).
    destruct (parts_mono s (set_closed (ds s)) (asset s) (exists_ s) Hi) as [? ?]; auto using str_prefix_refl.
    split; unfold removal_ok, file_ok; simpl; try done. rewrite Hp in *. naive_solver.
  - destruct (Nat.eqb_spec (wg (ds s)) 0) as [Hz|]; [|done]. injection Hs as <-. destruct Hremoval as (Hcl & Hp & Hb).
    split; unfold removal_ok, file_ok; simpl; rewrite ?Hp in *; auto.
    intros t r Hr. eapply reader_ok_mono; [by apply (Hreaders t)|apply str_prefix_refl|auto..].
    intros Hreg. exfalso. assert (clients (readers s) = 0) as Hc by lia. by apply (mcount_zero _ _ Hc t r Hr).
Qed.

(** A step of the chunker while it is counted. *)
Lemma inv_chunker c d s :
  inv s → busy (chunk s) = true → busy c = true →
  d = ds s ∨ d = setError (ds s) ∨ d = close_stored (ds s) → chunking_ok c d (asset s) → inv (set_chunk c (set_ds d s)).
Proof.
  intros Hi Hb Hc Hd Hok. spread Hi.
  destruct (parts_mono s d (asset s) (exists_ s) Hi) as [_ ?];
    auto using str_prefix_refl; try (by destruct Hd as [->|[->| ->]]).
  rewrite Hb in *. split; unfold removal_ok, file_ok; simpl; rewrite ?Hc; try done.
  - destruct Hd as [->|[->| ->]]; [done| |done]. destruct (pull s); naive_solver.
  - destruct Hd as [->|[->| ->]]; [done| |done]. by destruct (pull s).
  - destruct Hd as [->|[->| ->]]; by destruct (remove s).
  - by destruct Hd as [->|[->| ->]].
  - by destruct Hd as [->|[->| ->]].
  - by destruct Hd as [->|[->| ->]].
  - intros _. apply Hway. by intros Hn; rewrite Hn in Hb.
Qed.

Lemma inv_end_chunker report got s :
  inv s → busy (chunk s) = true → (∀ g, got = Some g → g = body) → inv (end_chunker report got s).
Proof.
  intros Hi Hb Hg. unfold end_chunker. replace (if report then _ else _) with (set_ds (if report then setError (ds s) else ds s) s)
    by (by destruct report, s).
  apply inv_chunker; [done..|destruct report; auto|]. simpl. destruct got; auto.
Qed.

Lemma inv_read_step n got s :
  inv s → busy (chunk s) = true → str_prefix got (asset s) → String.length got ≤ bytesWritten (ds s) → inv (read_step n got s).
Proof.
  intros Hi Hb Hp Hl. pose proof (copied_facts _ _ _ _ (inv_copied _ Hi)) as (Hpre & Hlen & Hfin).
  unfold read_step, fileAvailable. destruct (_ && negb (downloadError _)).
  { apply (inv_chunker (CParked got) (ds s)); auto. by split. }
  destruct (downloadError (ds s)); [by apply inv_end_chunker|].
  destruct (_ && _) eqn:He.
  - bool_props. apply Nat.eqb_neq in H. apply Nat.leb_le in H0. destruct (Hfin H) as (Ha & Hb' & Hf).
    apply inv_end_chunker; [done..|]. intros g [= <-]. apply str_prefix_whole; [by rewrite <- Ha|lia].
  - apply (inv_chunker (CRead _) (ds s)); auto.
    destruct (str_prefix_next got (asset s) (Nat.min n (bytesWritten (ds s) - String.length got)) Hp) as [Hpn Hln].
    split; [done|]. rewrite Hln; lia.
Qed.

Lemma inv_chunk e s s' : inv s → chunk_step w e s = Some s' → inv s'.
Proof.
  intros Hi Hs. pose proof (inv_chunking _ Hi) as Hch. unfold chunk_step in Hs.
  destruct (chunk s) as [| |got|got|got|got| |] eqn:Hc, e as [n| |b]; try discriminate Hs.
  - destruct (exists_ s) eqn:He; injection Hs as <-.
    + apply (inv_chunker (CRead "") (ds s)); auto; [by rewrite Hc|].
      split; [by exists (asset s)|simpl; lia].
    + apply inv_end_chunker; [done|by rewrite Hc|done].
  - injection Hs as <-. apply inv_end_chunker; [done|by rewrite Hc|done].
  - injection Hs as <-. destruct Hch. assert (busy (chunk s) = true) as Hb by by rewrite Hc.
    assert (w ≠ WChunkWhile → inv (end_chunker false (Some (asset s)) s)) as He.
    { intros Hw. apply inv_end_chunker; [done..|]. intros g [= <-]. destruct (inv_way _ Hi) as [[? _]|[? _]]; congruence. }
    destruct w eqn:Hw; [by apply He|by apply He|]. by apply inv_read_step.
  - injection Hs as <-. replace (set_ds (close_stored (ds s)) s) with (set_chunk (CRead got) (set_ds (close_stored (ds s)) s))
      by by destruct s; simpl in *; subst. apply inv_chunker; auto. by rewrite Hc.
  - injection Hs as <-. apply inv_end_chunker; [done|by rewrite Hc|done].
  - injection Hs as <-. destruct Hch. apply inv_read_step; auto. by rewrite Hc.
  - injection Hs as <-. spread Hi. rewrite Hc in *. simpl in *.
    destruct (parts_mono s (set_groups (pred (wg (ds s))) (pred (cdcWg (ds s))) (cleanupWg (ds s)) (ds s)) (asset s) (exists_ s) Hi)
      as [_ ?]; auto using str_prefix_refl.
    split; unfold removal_ok, file_ok; simpl; try done; [|lia|lia|by intros _; apply Hway].
    destruct (remove s); try done; destruct_and?; done || (split_and!; [done..|lia]).
  - injection Hs as <-. apply inv_broadcast. spread Hi. rewrite Hc in *. simpl in *.
    destruct (parts_mono s (close_done (ds s)) (asset s) (exists_ s) Hi) as [_ ?]; auto using str_prefix_refl.
    split; unfold removal_ok, file_ok; simpl; try done. intros _. by apply Hway.
Qed.

(** Adding, removing and moving one client. *)
Lemma inv_reader t r r' g s :
  inv s → readers s !! t = Some r → reader_ok (ds s) (asset s) (exists_ s) r' →
  g + b2n (registered r) = wg (ds s) + b2n (registered r') →
  (remove s = KGone → registered r' = true → registered r = true) →
  inv (set_reader t r' (set_ds (set_groups g (cdcWg (ds s)) (cleanupWg (ds s)) (ds s)) s)).
Proof.
  intros Hi Hr Hok Hg Hk. spread Hi.
  destruct (parts_mono s (set_groups g (cdcWg (ds s)) (cleanupWg (ds s)) (ds s)) (asset s) (exists_ s) Hi) as [? Hrs];
    auto using str_prefix_refl.
  assert (g = clients (<[t := r']> (readers s)) + b2n (busy (chunk s))) as Hg'.
  { rewrite (mcount_update _ _ _ _ r' Hr). rewrite (mcount_delete _ _ _ _ Hr) in Hwg.
    destruct (registered r), (registered r'); simpl in *; rewrite ?bool_decide_true, ?bool_decide_false in * by done; simpl in *; lia. }
  split; unfold removal_ok, file_ok; simpl; try done.
  - destruct (remove s) eqn:E; try done. destruct Hremoval as (? & ? & Hz). split_and!; [done..|].
    assert (registered r = false) as Hrf.
    { destruct (registered r) eqn:Er; [|done]. exfalso. assert (clients (readers s) = 0) as Hc0 by lia.
      by apply (mcount_zero _ _ Hc0 t r Hr). }
    destruct (registered r') eqn:Er'; [by rewrite Hk in Hrf|]. rewrite Hrf in Hg. simpl in Hg. lia.
  - intros t' r0 Hr0. destruct (decide (t' = t)) as [->|]; [rewrite lookup_insert_eq in Hr0; by simplify_eq|].
    rewrite lookup_insert_ne in Hr0 by done. by eapply Hrs.
Qed.

Lemma inv_leave t p r s :
  inv s → readers s !! t = Some r → registered r = true → registered (goto p r) = false →
  reader_ok (ds s) (asset s) (exists_ s) (goto p r) → inv (leave t p r s).
Proof.
  intros Hi Hr Hreg Hreg' Hok. pose proof (inv_wg _ Hi) as Hw. rewrite (mcount_delete _ _ _ _ Hr) in Hw.
  rewrite bool_decide_true in Hw by done. unfold leave. eapply inv_reader; [done..| |].
  - rewrite Hreg, Hreg'. simpl in *. lia.
  - by rewrite Hreg'.
Qed.

(** A client's move that keeps it counted, or not. *)
Lemma inv_move t r r' s :
  inv s → readers s !! t = Some r → registered r = registered r' → reader_ok (ds s) (asset s) (exists_ s) r' →
  inv (set_reader t r' s).
Proof.
  intros Hi Hr Hreg Hok. pose proof (inv_reader t r r' (wg (ds s)) s Hi Hr Hok) as Hinv.
  replace s with (set_ds (set_groups (wg (ds s)) (cdcWg (ds s)) (cleanupWg (ds s)) (ds s)) s) by by destruct s as [? ? ? ? []].
  apply Hinv; rewrite Hreg; [lia|done].
Qed.

Lemma inv_join t s : inv s → readers s !! t = None → inv (set_reader t new_reader s).
Proof.
  intros Hi Hr. spread Hi. split; unfold removal_ok, file_ok; simpl; try done.
  - by rewrite mcount_insert_new.
  - intros t' r' Hr'. apply lookup_insert_Some in Hr' as [[_ <-]|[_ ?]]; [|by eapply Hreaders].
    split_and!; simpl; [by exists (asset s)|lia|done|done].
Qed.

Lemma inv_look t r s :
  inv s → readers s !! t = Some r → streaming (r_phase r) = true → inv (look t r s).
Proof.
  intros Hi Hr Hst. pose proof (inv_readers _ Hi t r Hr) as (Hp & Hl & He & _).
  pose proof (copied_facts _ _ _ _ (inv_copied _ Hi)) as (_ & _ & Hfin).
  assert (registered r = true) as Hreg by (unfold registered; by rewrite Hst).
  unfold look. destruct (_ && (finalSize _ =? 0)%nat) eqn:Hw.
  - eapply inv_move; [done|done|by rewrite Hreg|]. unfold reader_ok; simpl; split_and!; auto.
  - rewrite (He Hst), andb_false_r. eapply inv_move; [done|done|done|].
    unfold reader_ok; simpl; split_and!; auto; [lia|]. intros Hc. bool_props. apply Nat.eqb_neq in Hc.
    destruct (Hfin Hc) as (Ha & Hb & Hf). split; [done|lia].
Qed.

Lemma inv_reader_step t a g r s s' :
  inv s → readers s !! t = Some r → reader_step t a g r s = Some s' → inv s'.
Proof.
  intros Hi Hr Hs. pose proof (inv_readers _ Hi t r Hr) as (Hp & Hl & He & Hph).
  assert (r_phase r = RStart ∨ streaming (r_phase r) = true → registered r = true) as Hreg.
  { intros [Hs'|Hs']; unfold registered; rewrite Hs'; [by rewrite orb_true_r|done]. }
  unfold reader_step in Hs. destruct (r_phase r) as [| | | | |n c| | | |] eqn:Hphase; try discriminate Hs.
  - destruct (_ || a) eqn:Hcl; injection Hs as <-.
    + eapply inv_move; [done..|unfold registered; by rewrite Hphase|]. by unfold reader_ok; simpl; split_and!.
    + bool_props. eapply inv_reader; [done..|by unfold reader_ok; simpl; split_and!| |].
      * unfold registered. rewrite Hphase. simpl. lia.
      * intros Hk _. pose proof (inv_removal _ Hi) as Hrem. unfold removal_ok in Hrem. rewrite Hk in Hrem. naive_solver congruence.
  - destruct (r_canceled r && g); [|destruct (negb (start (ds s))) eqn:Hst; [done|]; destruct (_ || a) eqn:Hd]; injection Hs as <-.
    + apply inv_leave; [done|done|by apply Hreg; left|done|]. by unfold reader_ok; simpl; split_and!.
    + apply inv_leave; [done|done|by apply Hreg; left|done|]. by unfold reader_ok; simpl; split_and!.
    + bool_props. eapply inv_move; [done|done|unfold registered; by rewrite Hphase|].
      unfold reader_ok; simpl; split_and!; auto. intros _. pose proof (inv_file _ Hi) as Hf. unfold file_ok in Hf.
      assert (remove s ≠ KGone) as Hk.
      { intros Hk. pose proof (inv_removal _ Hi) as Hrem. unfold removal_ok in Hrem. rewrite Hk in Hrem.
        destruct Hrem as (_ & _ & Hz). pose proof (inv_wg _ Hi) as Hw. assert (clients (readers s) = 0) as Hc0 by lia.
        apply (mcount_zero _ _ Hc0 t r Hr). apply Hreg. by left. }
      destruct (pull s); naive_solver congruence.
  - injection Hs as <-. apply inv_look; [done..|by rewrite Hphase].
  - destruct (_ || _) eqn:Hd; injection Hs as <-; [|by apply inv_look; [..|rewrite Hphase]].
    apply inv_leave; [done|done|by apply Hreg; right|done|]. unfold reader_ok; simpl; split_and!; auto.
    apply orb_true_iff in Hd as [?|?]; auto.
  - destruct (r_canceled r && g) eqn:Hg.
    { injection Hs as <-. bool_props. apply inv_leave; [done|done|by apply Hreg; right|done|].
      unfold reader_ok; simpl; split_and!; auto. }
    injection Hs as <-. destruct Hph as [Hn Hc]. pose proof (copied_facts _ _ _ _ (inv_copied _ Hi)) as (_ & Hba & _).
    destruct (str_prefix_next (r_sent r) (asset s) n Hp) as [Hpn Hln]. specialize (Hln ltac:(lia)).
    set (sent := r_sent r +:+ _) in *. destruct (c && _) eqn:Hcond.
    + bool_props. apply Nat.leb_le in H0. destruct (Hc H) as [Hf Hlf].
      eapply inv_move; [done|done|by rewrite Hreg by by right|]. unfold reader_ok. simpl. split_and!; auto; lia.
    + eapply inv_move; [done|done|by rewrite Hreg by by right|]. unfold reader_ok. simpl. split_and!; auto. lia.
  - destruct (_ || _) eqn:Hd; [|done]. injection Hs as <-.
    apply inv_leave; [done|done|by apply Hreg; right|done|]. unfold reader_ok; simpl; split_and!; auto.
    left. destruct Hph as [Hf Hlen]. pose proof (copied_facts _ _ _ _ (inv_copied _ Hi)) as (_ & _ & Hfin).
    destruct (Hfin Hf) as (Ha & _ & Hfs). apply str_prefix_whole; [by rewrite <- Ha|lia].
Qed.

Lemma download_inv e s s' : inv s → apply_event w e s = Some s' → inv s'.
Proof.
  intros Hi Hs. destruct e as [g|e| |t|t a g|t|t]; simpl in Hs.
  - by eapply inv_pull.
  - by eapply inv_chunk.
  - by eapply inv_remove.
  - destruct (readers s !! t) eqn:Hr; [done|]. injection Hs as <-. by apply inv_join.
  - destruct (readers s !! t) as [r|] eqn:Hr; [|done]. by eapply inv_reader_step.
  - destruct (readers s !! t) as [r|] eqn:Hr; [|done]. injection Hs as <-. eapply inv_move; [done..|].
    destruct (inv_readers _ Hi t r Hr) as (? & ? & ? & Hph). unfold reader_ok. simpl. split_and!; auto.
    destruct (r_phase r); naive_solver.
  - destruct (readers s !! t) as [r|] eqn:Hr; [|done]. simpl in Hs. destruct (_ && streaming _) eqn:Hc; [|done].
    injection Hs as <-. apply inv_broadcast. eapply inv_move; [done..|]. bool_props.
    destruct (inv_readers _ Hi t r Hr) as (? & ? & ? & Hph). unfold reader_ok. simpl. split_and!; auto.
    destruct (r_phase r); naive_solver.
Qed.

Lemma downloads_inv es s s' : inv s → run_events w es s = Some s' → inv s'.
Proof.
  revert s. induction es as [|e es IH]; intros s Hi Hs; simpl in Hs; [by simplify_eq|].
  destruct (apply_event w e s) as [s1|] eqn:He; [|done]. eapply IH; [by eapply download_inv|done].
Qed.

Lemma inv_reachable es s : run_events w es (begin body) = Some s → inv s.
Proof. apply downloads_inv, inv_begin. Qed.
End invariant.

(** ** Once the download has returned *)

Section finished.
Context (w : way) (body : string).

(** Nobody waits for bytes once all are there and told. *)
Definition parked_ok (s : sys) : Prop :=
  ∀ t r, readers s !! t = Some r → r_phase r = RParked → finalSize (ds s) = 0 ∨ pull s = PLast.

Lemma parked_broadcast s t r : readers (broadcast s) !! t = Some r → r_phase r ≠ RParked.
Proof.
  simpl. rewrite lookup_fmap. intros (r0 & _ & ->)%fmap_Some. unfold wake. destruct (r_phase r0) eqn:Hp; simpl; congruence.
Qed.

Lemma parked_set_reader t r s s' :
  parked_ok s → readers s' = <[t := r]> (readers s) → finalSize (ds s') = finalSize (ds s) → pull s' = pull s →
  (r_phase r = RParked → finalSize (ds s) = 0 ∨ pull s = PLast) → parked_ok s'.
Proof.
  intros Hs Hr Hf Hp Hpk t' r' Hr'. rewrite Hf, Hp. rewrite Hr in Hr'.
  apply lookup_insert_Some in Hr' as [[_ <-]|[_ ?]]; [done|by eapply Hs].
Qed.

Lemma parked_pull g s s' : inv w body s → parked_ok s → pull_step w g s = Some s' → parked_ok s'.
Proof.
  intros Hi Hs He. pose proof (inv_copied _ _ _ Hi) as Hcp. unfold pull_step in He.
  destruct (pull s) eqn:Hp, g; try discriminate He; simpl in Hcp.
  all: repeat match type of He with (if ?c then _ else _) = _ => destruct c eqn:?; try discriminate He end.
  all: injection He as <-; intros t r Hr Hpk.
  all: try (exfalso; by eapply parked_broadcast).
  all: try (simpl in *; destruct_and?; by auto).
  all: try (destruct (Hs t r Hr Hpk); simpl; [by auto|congruence]).
  - destruct w; left; simpl; apply Hcp.
  - destruct (_ =? _); left; simpl; apply Hcp.
  - unfold after_copy, spawn_chunker in Hr. exfalso. apply (parked_broadcast s t r); [by destruct w|done].
  - exfalso. match type of Hr with context [broadcast ?x] => exact (parked_broadcast x t r Hr Hpk) end.
Qed.

Lemma parked_chunk e s s' : parked_ok s → chunk_step w e s = Some s' → parked_ok s'.
Proof.
  intros Hs He. assert (∀ b g, parked_ok (end_chunker b g s)) as Hend by (intros [] g t r; apply Hs).
  assert (∀ n g, parked_ok (read_step n g s)) as Hread.
  { intros n g. unfold read_step. destruct (fileAvailable _ _); auto; intros t r; apply Hs. }
  unfold chunk_step in He. destruct (chunk s), e; try discriminate He.
  all: repeat match type of He with (if ?c then _ else _) = _ => destruct c eqn:?; try discriminate He end.
  all: injection He as <-; auto; try (intros t r; apply Hs).
  - by destruct w.
  - intros t r Hr Hpk. exfalso. by eapply parked_broadcast.
Qed.

Lemma parked_look t r s : parked_ok s → parked_ok (look t r s).
Proof.
  intros Hs. unfold look. destruct (_ && (finalSize _ =? 0)%nat) eqn:Hw; [|destruct (negb (r_open r) && _)].
  - bool_props. apply Nat.eqb_eq in H0. eapply parked_set_reader; eauto.
  - unfold leave. by eapply parked_set_reader.
  - by eapply parked_set_reader.
Qed.

Lemma parked_event e s s' : inv w body s → parked_ok s → apply_event w e s = Some s' → parked_ok s'.
Proof.
  intros Hi Hs He. destruct e as [g|e| |t|t a g|t|t]; simpl in He.
  - by eapply parked_pull.
  - by eapply parked_chunk.
  - unfold remove_step in He. destruct (remove s); try discriminate He.
    all: destruct (_ =? _); try discriminate He; injection He as <-; intros t r; apply Hs.
  - destruct (readers s !! t); [done|]. injection He as <-. by eapply parked_set_reader.
  - destruct (readers s !! t) as [r|] eqn:Hr; [|done]. simpl in He. unfold reader_step, leave in He.
    destruct (r_phase r) eqn:Hp; try discriminate He.
    all: repeat match type of He with (if ?c then _ else _) = _ => destruct c eqn:?; try discriminate He end.
    all: injection He as <-; try by apply parked_look.
    all: eapply parked_set_reader; try done; try (by intros ?; destruct_or?).
    by destruct (isDownloadComplete && _).
  - destruct (readers s !! t) as [r|] eqn:Hr; [|done]. injection He as <-.
    eapply parked_set_reader; try done. simpl. by eapply Hs.
  - destruct (readers s !! t) as [r|] eqn:Hr; [|done]. simpl in He. destruct (_ && streaming _); [|done]. injection He as <-.
    intros t' r' Hr' Hpk. exfalso. by eapply parked_broadcast.
Qed.

Lemma parked_reachable es s : run_events w es (begin body) = Some s → parked_ok s.
Proof.
  assert (∀ s0, inv w body s0 → parked_ok s0 → run_events w es s0 = Some s → parked_ok s) as Hgen.
  { induction es as [|e es IH]; intros s0 Hi Hs Hr; simpl in Hr; [by simplify_eq|].
    destruct (apply_event w e s0) as [s1|] eqn:He; [|done].
    eapply IH; [by eapply download_inv|by eapply parked_event|done]. }
  apply Hgen; [apply inv_begin|]. intros t r Hr. simpl in Hr. by rewrite lookup_empty in Hr.
Qed.

(** A chunker that is not there, or gone, chunks nothing. *)
Definition chunking_over (c : chunker) : Prop := c = CNone ∨ c = CGone.

(** Who returns last closes [done]. *)
Definition over_ok (s : sys) : Prop :=
  (pull s = PReturned → chunk s = CNone → done (ds s) = true) ∧ (chunk s = CGone → done (ds s) = true).

Lemma over_same s s' : pull s' = pull s → chunk s' = chunk s → done (ds s') = done (ds s) → over_ok s → over_ok s'.
Proof. intros Hp Hc Hd. unfold over_ok. by rewrite Hp, Hc, Hd. Qed.

Lemma over_event e s s' : over_ok s → apply_event w e s = Some s' → over_ok s'.
Proof.
  intros Hs He. destruct e as [g|e| |t|t a g|t|t]; simpl in He.
  - unfold pull_step, fail_pull, after_copy, spawn_chunker, broadcast, keepJobAlive, over_ok in *. destruct (pull s), g; try discriminate He.
    all: repeat case_match; simplify_eq; simpl in *; destruct Hs; split; intros; try done; try (destruct (chunk s); simpl in *; naive_solver).
  - unfold chunk_step, read_step, end_chunker, broadcast, over_ok in *. destruct Hs as [H1 H2].
    destruct (chunk s) as [| |got|got|got|got| |] eqn:Hc, e; try discriminate He.
    all: repeat match type of He with context [match ?c with _ => _ end] => destruct c; try discriminate He end.
    all: injection He as <-; simpl; rewrite ?Hc; split; intros; (done || congruence || auto).
  - unfold remove_step in He. destruct (remove s); try discriminate He.
    all: destruct (_ =? _); try discriminate He; injection He as <-; by eapply over_same.
  - destruct (readers s !! t); [done|]. injection He as <-. by eapply over_same.
  - destruct (readers s !! t) as [r|]; [|done]. simpl in He. unfold reader_step, leave, look in He.
    destruct (r_phase r); try discriminate He.
    all: repeat match type of He with context [if ?c then _ else _] => destruct c; try discriminate He end.
    all: injection He as <-; by eapply over_same.
  - destruct (readers s !! t) as [r|]; [|done]. injection He as <-. by eapply over_same.
  - destruct (readers s !! t) as [r|]; [|done]. simpl in He. destruct (_ && streaming _); [|done]. injection He as <-.
    unfold over_ok, broadcast in *. simpl. destruct (chunk s); naive_solver.
Qed.

Lemma over_reachable es s : run_events w es (begin body) = Some s → over_ok s.
Proof.
  assert (∀ s0, over_ok s0 → run_events w es s0 = Some s → over_ok s) as Hgen.
  { induction es as [|e es IH]; intros s0 Hs Hr; simpl in Hr; [by simplify_eq|].
    destruct (apply_event w e s0) as [s1|] eqn:He; [|done]. eapply IH; [by eapply over_event|done]. }
  by apply Hgen.
Qed.

Lemma over_settled es s :
  run_events w es (begin body) = Some s → pull s = PReturned → stored (ds s) = true ∨ chunking_over (chunk s) → stored (ds s) || done (ds s) = true.
Proof.
  intros Hr Hp Ho. destruct (over_reachable es s Hr) as [H1 H2]. apply orb_true_iff. destruct Ho as [|[|]]; auto.
Qed.

(** The download has returned with all of a body that is not empty, and told so. *)
Definition all_there (s : sys) : Prop :=
  pull s = PReturned ∧ finalSize (ds s) ≠ 0 ∧ stored (ds s) || done (ds s) = true.

(** The steps a client has yet to take. *)
Definition todo (p : phase) : nat :=
  match p with RLoop | RWoken => 3 | RCopy _ false => 4 | RCopy _ true => 2 | RAwait => 1 | _ => 0 end.

Definition own (t : nat) (e : event) : nat := match e with EReader t' _ _ => b2n (bool_decide (t' = t)) | _ => 0 end.
Definition steps (t : nat) (es : list event) : nat := sum_list_with (own t) es.

(** What others' steps, and the client's cancellation, leave alone. *)
Definition same_phase (t : nat) (r : reader) (s : sys) : Prop :=
  ∃ r', readers s !! t = Some r' ∧ r_phase r' = r_phase r ∧ (r_canceled r = true → r_canceled r' = true).

Lemma same_phase_refl t r s : readers s !! t = Some r → same_phase t r s.
Proof. by exists r. Qed.

Lemma same_phase_broadcast t r s : r_phase r ≠ RParked → same_phase t r s → same_phase t r (broadcast s).
Proof.
  intros Hne (r' & Hr' & Hp & Hc). exists (wake r'). simpl. rewrite lookup_fmap, Hr'. split; [done|].
  unfold wake. destruct (r_phase r') eqn:E; simpl; rewrite ?E; try done; congruence.
Qed.

Lemma same_phase_other t t' r r' s : t' ≠ t → readers s !! t = Some r → same_phase t r (set_reader t' r' s).
Proof. intros Hne Hr. exists r. simpl. by rewrite lookup_insert_ne. Qed.

(** What the chunker's steps leave alone. *)
Definition benign (t : nat) (r : reader) (s s' : sys) : Prop :=
  same_phase t r s' ∧ pull s' = pull s ∧ finalSize (ds s') = finalSize (ds s) ∧
  (stored (ds s) = true → stored (ds s') = true) ∧ (done (ds s) = true → done (ds s') = true) ∧
  (downloadError (ds s) = true → downloadError (ds s') = true).

Lemma chunk_others e t r s s' :
  r_phase r ≠ RParked → readers s !! t = Some r → chunk_step w e s = Some s' → benign t r s s'.
Proof.
  intros Hne Hr He. pose proof (same_phase_refl t r s Hr) as Hsame.
  assert (∀ b g, benign t r s (end_chunker b g s)) as Hend by (by intros [] g; unfold benign; split_and!).
  assert (∀ n g, benign t r s (read_step n g s)) as Hread.
  { intros n g. unfold read_step. destruct (fileAvailable _ _); auto; unfold benign; by split_and!. }
  unfold chunk_step in He. destruct (chunk s), e; try discriminate He.
  all: repeat match type of He with (if ?c then _ else _) = _ => destruct c eqn:?; try discriminate He end.
  all: injection He as <-; auto; try (unfold benign; by split_and!).
  - by destruct w.
  - split; [by apply same_phase_broadcast|]. by split_and!.
Qed.

Lemma others_step e t r s s' :
  all_there s → r_phase r ≠ RParked → readers s !! t = Some r → own t e = 0 → apply_event w e s = Some s' →
  same_phase t r s' ∧ all_there s' ∧ (downloadError (ds s) = true → downloadError (ds s') = true).
Proof.
  intros (Hp & Hf & Hsd) Hne Hr Ho He. pose proof (same_phase_refl t r s Hr) as Hsame. unfold all_there.
  destruct e as [g|e| |t'|t' a g|t'|t']; simpl in He.
  - unfold pull_step in He. by rewrite Hp in He.
  - destruct (chunk_others e t r s s' Hne Hr He) as (? & -> & -> & Hs1 & Hs2 & ?). split_and!; try done.
    apply orb_true_iff in Hsd. apply orb_true_iff. naive_solver.
  - unfold remove_step in He. destruct (remove s); try discriminate He.
    all: destruct (_ =? _); try discriminate He; by injection He as <-.
  - destruct (readers s !! t') eqn:Hr'; [done|]. injection He as <-. split_and!; try done.
    apply same_phase_other; congruence.
  - simpl in Ho. case_bool_decide as Htt; [done|]. destruct (readers s !! t') as [r'|] eqn:Hr'; [|done]. simpl in He.
    unfold reader_step, look, leave in He. destruct (r_phase r') eqn:E; try discriminate He.
    all: repeat match type of He with (if ?c then _ else _) = _ => destruct c eqn:?; try discriminate He end.
    all: injection He as <-; repeat case_match; split_and!; try done; by apply same_phase_other.
  - destruct (readers s !! t') as [r'|] eqn:Hr'; [|done]. injection He as <-. split_and!; try done.
    destruct (decide (t' = t)) as [->|]; [|by apply same_phase_other]. rewrite Hr in Hr'. simplify_eq.
    eexists. simpl. rewrite lookup_insert_eq. by split_and!.
  - destruct (readers s !! t') as [r'|] eqn:Hr'; [|done]. simpl in He. destruct (_ && streaming _) eqn:Hc; [|done].
    injection He as <-. split_and!; try done. apply same_phase_broadcast; [done|].
    destruct (decide (t' = t)) as [->|]; [|by apply same_phase_other]. rewrite Hr in Hr'. simplify_eq.
    eexists. simpl. rewrite lookup_insert_eq. by split_and!.
Qed.
Lemma error_stays e s s' : apply_event w e s = Some s' → downloadError (ds s) = true → downloadError (ds s') = true.
Proof.
  intros He Hd. destruct e as [g|e| |t|t a g|t|t]; simpl in He.
  - unfold pull_step in He. destruct (pull s), g; try discriminate He.
    all: repeat match type of He with (if ?c then _ else _) = _ => destruct c eqn:?; try discriminate He end.
    all: injection He as <-; unfold after_copy; repeat case_match; done.
  - unfold chunk_step, read_step, end_chunker in He. destruct (chunk s), e; try discriminate He.
    all: repeat match type of He with (if ?c then _ else _) = _ => destruct c eqn:?; try discriminate He end.
    all: injection He as <-; repeat case_match; done.
  - unfold remove_step in He. destruct (remove s); try discriminate He.
    all: destruct (_ =? _); try discriminate He; by injection He as <-.
  - destruct (readers s !! t); [done|]. by injection He as <-.
  - destruct (readers s !! t) as [r|]; [|done]. simpl in He. unfold reader_step, look, leave in He.
    destruct (r_phase r); try discriminate He.
    all: repeat match type of He with (if ?c then _ else _) = _ => destruct c eqn:?; try discriminate He end.
    all: injection He as <-; repeat case_match; done.
  - destruct (readers s !! t); [|done]. by injection He as <-.
  - destruct (readers s !! t) as [r|]; [|done]. simpl in He. destruct (_ && _); [|done]. by injection He as <-.
Qed.

Lemma error_stays_run es s s' : run_events w es s = Some s' → downloadError (ds s') = false → downloadError (ds s) = false.
Proof.
  intros Hr Hd. destruct (downloadError (ds s)) eqn:He; [|done]. rewrite <- Hd. symmetry.
  revert s Hr He. induction es as [|e es IH]; intros s Hr He; simpl in Hr; [by simplify_eq|].
  destruct (apply_event w e s) as [s1|] eqn:He1; [|done]. eapply IH; [done|]. by eapply error_stays.
Qed.

Definition live (p : phase) : Prop := streaming p = true ∨ p = REnd.

(** A step of the client's goroutine. *)
Lemma own_step t a g r s s' :
  all_there s → inv w body s → r_phase r ≠ RParked → live (r_phase r) → downloadError (ds s) = false →
  readers s !! t = Some r → apply_event w (EReader t a g) s = Some s' →
  all_there s' ∧ ∃ r', readers s' !! t = Some r' ∧ live (r_phase r') ∧ r_canceled r' = r_canceled r ∧
    (r_canceled r = false → S (todo (r_phase r')) ≤ todo (r_phase r)).
Proof.
  intros Hall Hi Hne Hlive Herr Hr He. pose proof Hall as (Hp & Hf & Hsd). pose proof (inv_readers _ _ _ Hi t r Hr) as (_ & _ & Hex & Hph).
  simpl in He. rewrite Hr in He. simpl in He.
  assert (streaming (r_phase r) = true) as Hst by (destruct Hlive as [|E]; [done|unfold reader_step in He; by rewrite E in He]).
  assert (∀ r', all_there (set_reader t r' s)) as Hset by done.
  assert (∀ p, all_there (leave t p r s)) as Hleave by done.
  assert (∀ r' s1, readers (set_reader t r' s1) !! t = Some r') as Hlk by (intros; apply lookup_insert_eq).
  assert (look t r s = set_reader t (mkReader (RCopy (bytesWritten (ds s) - String.length (r_sent r)) true)
            (r_sent r) true (r_canceled r) (r_watcher r)) s) as Hlook.
  { unfold look. rewrite (Hex Hst), andb_false_r. apply Nat.eqb_neq in Hf. by rewrite Hf, andb_false_r. }
  unfold reader_step in He. rewrite Hlook, Herr in He. destruct (r_phase r) as [| | | | |n c| | | |] eqn:E; try done; simpl in He.
  - injection He as <-. split; [done|]. eexists. split; [apply Hlk|]. split_and!; [by left|done|simpl; lia].
  - destruct (r_canceled r) eqn:Hc; injection He as <-; (split; [done|]); eexists; (split; [apply Hlk|]).
    + split_and!; [by right|done|done].
    + split_and!; [by left|done|simpl; lia].
  - destruct (r_canceled r && g) eqn:Hcg.
    { injection He as <-. bool_props. split; [done|]. eexists. split; [apply Hlk|]. split_and!; [by right|done|congruence]. }
    injection He as <-. split; [done|]. eexists. split; [apply Hlk|].
    destruct Hph as [Hn Hc]. pose proof (copied_facts _ _ _ _ _ (inv_copied _ _ _ Hi)) as (_ & Hba & _).
    destruct (inv_readers _ _ _ Hi t r Hr) as (Hpre & _).
    destruct (str_prefix_next (r_sent r) (asset s) n Hpre) as [_ Hln]. specialize (Hln ltac:(lia)).
    destruct c; simpl.
    + destruct (Hc eq_refl) as [_ Hlf]. rewrite Hln, Hlf, Nat.leb_refl. simpl. split_and!; [by left|done|lia].
    + split_and!; [by left|done|lia].
  - destruct (_ || r_canceled r); [|done]. injection He as <-. split; [done|]. eexists. split; [apply Hlk|].
    split_and!; [by right|done|simpl; lia].
Qed.

Lemma finish_run t es s s' r :
  all_there s → inv w body s → parked_ok s → live (r_phase r) → readers s !! t = Some r →
  run_events w es s = Some s' → downloadError (ds s') = false →
  ∃ r', readers s' !! t = Some r' ∧ live (r_phase r') ∧ all_there s' ∧ (r_canceled r = true → r_canceled r' = true) ∧
    (r_canceled r' = false → steps t es + todo (r_phase r') ≤ todo (r_phase r)).
Proof.
  revert s r. induction es as [|e es IH]; intros s r Hall Hi Hpk Hl Hr Hrun Herr.
  { simpl in *. simplify_eq. by exists r. }
  pose proof (error_stays_run _ _ _ Hrun Herr) as Herr0. simpl in Hrun.
  destruct (apply_event w e s) as [s1|] eqn:He; [|done].
  assert (r_phase r ≠ RParked) as Hne.
  { intros E. destruct Hall as (Hp & Hf & _). destruct (Hpk t r Hr E); congruence. }
  pose proof (download_inv w body e s s1 Hi He) as Hi1. pose proof (parked_event e s s1 Hi Hpk He) as Hpk1.
  destruct (own t e) as [|k] eqn:Ho.
  - destruct (others_step e t r s s1 Hall Hne Hr Ho He) as ((r1 & Hr1 & Hp1 & Hc1) & Hall1 & _).
    destruct (IH s1 r1 Hall1 Hi1 Hpk1) as (r' & Hr' & Hl' & Hall' & Hc' & Ht'); [by rewrite Hp1|done..|].
    exists r'. split_and!; auto. intros Hc. unfold steps. simpl. rewrite Ho, <- Hp1. by apply Ht'.
  - destruct e as [ | | | |t' a g| | ]; try done. simpl in Ho. case_bool_decide; [|done]. subst t'.
    destruct (own_step t a g r s s1 Hall Hi Hne Hl Herr0 Hr He) as (Hall1 & r1 & Hr1 & Hl1 & Hc1 & Ht1).
    destruct (IH s1 r1 Hall1 Hi1 Hpk1 Hl1 Hr1 Hrun Herr) as (r' & Hr' & Hl' & Hall' & Hc' & Ht').
    exists r'. split_and!; auto; [by rewrite <- Hc1|]. intros Hc. unfold steps. simpl. rewrite bool_decide_true by done.
    specialize (Ht' Hc). assert (r_canceled r = false) as Hcr.
    { destruct (r_canceled r); [|done]. rewrite Hc' in Hc; done. }
    specialize (Ht1 Hcr). unfold steps in Ht'. simpl. lia.
Qed.

Lemma finish_next t s r :
  all_there s → inv w body s → parked_ok s → readers s !! t = Some r → streaming (r_phase r) = true →
  is_Some (apply_event w (EReader t false false) s).
Proof.
  intros (Hp & Hf & Hsd) Hi Hpk Hr Hst. simpl. rewrite Hr. simpl. unfold reader_step.
  destruct (r_phase r) eqn:E; try done.
  - destruct (Hpk t r Hr E); congruence.
  - destruct (downloadError _ || _); eauto.
  - rewrite andb_false_r. eauto.
  - rewrite Hsd. eauto.
Qed.
End finished.
(** A sample: two clients and the chunker follow a download of two reads. *)
Definition pulls (l : list got) : list event := EPull <$> l.
Definition reads (t n : nat) : list event := replicate n (EReader t false false).
Definition fetched : list event := pulls [GOk; GOk] ++ [EJoin 0] ++ reads 0 2.
Definition one_read (n : nat) : list event := pulls [GChunk n n; GOk; GOk].
Definition trace_ok : list event :=
  fetched ++ [EJoin 1; EChunk (CGo 1)] ++ reads 1 2 ++ reads 1 1 ++ one_read 2 ++ reads 0 2 ++ one_read 1 ++
  [EChunk CReady; EChunk (CGo 8); EChunk (CGo 8)] ++
  pulls [GEof; GOk; GOk] ++ [EChunk (CGo 8)] ++ reads 1 3 ++ [ERemove].

(** C12. What a client is sent, and what the chunker reads, is the upstream's body:
    at any moment a client has a prefix of it, and its goroutine never finds the
    file gone; a stream that has ended has the whole body, unless the download or
    the client failed; a chunker that has come to the end has the whole body. *)
Theorem temp_file_streams (w : way) (body : string) (es : list event) (s : sys) :
  run_events w es (begin body) = Some s →
  (∀ t r, readers s !! t = Some r →
     str_prefix (r_sent r) body ∧ (streaming (r_phase r) = true → exists_ s = true) ∧
     (r_phase r = REnd → r_sent r = body ∨ downloadError (ds s) = true ∨ r_canceled r = true)) ∧
  (∀ got, chunk s = CEnd (Some got) → got = body).
Proof.
  intros Hi%(inv_reachable w body). destruct (copied_facts _ _ _ _ _ (inv_copied _ _ _ Hi)) as (Hp & _ & _). split.
  - intros t r Hr. destruct (inv_readers _ _ _ Hi t r Hr) as (Hs & _ & He & Hph). split_and!; [by eapply str_prefix_trans|done|].
    intros HE. by rewrite HE in Hph.
  - intros got Hg. pose proof (inv_chunking _ _ _ Hi) as Hc. by rewrite Hg in Hc.
Qed.

Lemma temp_file_streams_witness :
  ∃ s, run_events WChunkWhile trace_ok (begin "nar") = Some s ∧
    (r_sent <$> readers s !! 0) = Some "na" ∧ (r_sent <$> readers s !! 1) = Some "nar" ∧ chunk s = CEnd (Some "nar") ∧
    ((∀ t r, readers s !! t = Some r →
       str_prefix (r_sent r) "nar" ∧ (streaming (r_phase r) = true → exists_ s = true) ∧
       (r_phase r = REnd → r_sent r = "nar" ∨ downloadError (ds s) = true ∨ r_canceled r = true)) ∧
     (∀ got, chunk s = CEnd (Some got) → got = "nar")).
Proof.
  eexists. refine (conj _ (conj _ (conj _ (conj _ (temp_file_streams WChunkWhile "nar" trace_ok _ _)))));
    vm_compute; reflexivity.
Defined.

(** C13. A download that has returned without error, with a body that is not empty, and
    whose NAR is in the store or recorded for chunking ([stored]), or whose chunker, if it
    has one, is gone ([chunking_over]: none is started without chunking), keeps no client
    waiting: whatever else happens, a client that stays ends after at most four more steps
    of its goroutine, none of which blocks, and has the whole body.  While a chunker runs
    that has not recorded the NAR yet, a client that has sent everything does wait for
    it. *)
Theorem finished_download_streams (w : way) (body : string) (es es' : list event) (s s' : sys) (t : nat) (r : reader) :
  run_events w es (begin body) = Some s → pull s = PReturned → body ≠ "" → stored (ds s) = true ∨ chunking_over (chunk s) →
  readers s !! t = Some r → streaming (r_phase r) = true →
  run_events w es' s = Some s' → downloadError (ds s') = false →
  ∃ r', readers s' !! t = Some r' ∧ (r_canceled r' = false →
    steps t es' ≤ 4 ∧
    (r_phase r' = REnd ∧ r_sent r' = body ∨
     streaming (r_phase r') = true ∧ is_Some (apply_event w (EReader t false false) s'))).
Proof.
  intros Hrun Hp Hb Ho Hr Hst Hrun' Herr. pose proof (over_settled _ _ _ _ Hrun Hp Ho) as Hsd. pose proof (inv_reachable _ _ _ _ Hrun) as Hi.
  pose proof (parked_reachable _ _ _ _ Hrun) as Hpk.
  pose proof (inv_copied _ _ _ Hi) as Hcp. rewrite Hp in Hcp. destruct Hcp as (_ & _ & Hcp).
  destruct Hcp as (_ & _ & Hf); [left; by eapply error_stays_run|].
  assert (finalSize (ds s) ≠ 0) as Hf0 by (rewrite Hf; by destruct body).
  destruct (finish_run w body t es' s s' r) as (r' & Hr' & Hl' & Hall' & _ & Ht'); auto; [by split_and!|by left|].
  exists r'. split; [done|]. intros Hc. specialize (Ht' Hc). split; [destruct (r_phase r) as [| | | | |? []| | | |]; simpl in *; lia|].
  pose proof (downloads_inv _ _ _ _ _ Hi Hrun') as Hi'. destruct Hl' as [Hs'|HE].
  - right. split; [done|]. apply (finish_next w body t s' r'); auto.
    assert (run_events w (es ++ es') (begin body) = Some s') as Happ.
    { clear -Hrun Hrun'. revert Hrun. generalize (begin body). induction es as [|e es IH]; intros s0 Hrun; simpl in *; [by simplify_eq|].
      destruct (apply_event w e s0); [by apply IH|done]. }
    by eapply parked_reachable.
  - left. split; [done|]. destruct (inv_readers _ _ _ Hi' t r' Hr') as (_ & _ & _ & Hph). rewrite HE in Hph. naive_solver congruence.
Qed.

Definition trace_done : list event :=
  fetched ++ one_read 3 ++ pulls [GEof; GOk; GOk; GOk] ++ [EJoin 1].

Lemma finished_download_streams_witness :
  ∃ s s' r r', run_events WStore trace_done (begin "nar") = Some s ∧ readers s !! 0 = Some r ∧
    run_events WStore (reads 0 2 ++ [EReader 1 false false; ERemove; ERemove; ECancel 1] ++ reads 0 1) s = Some s' ∧
    (readers s' !! 0 = Some r' ∧ (r_canceled r' = false →
      steps 0 (reads 0 2 ++ [EReader 1 false false; ERemove; ERemove; ECancel 1] ++ reads 0 1) ≤ 4 ∧
      (r_phase r' = REnd ∧ r_sent r' = "nar" ∨
       streaming (r_phase r') = true ∧ is_Some (apply_event WStore (EReader 0 false false) s')))).
Proof.
  destruct (run_events WStore trace_done (begin "nar")) as [s|] eqn:Hs; [|vm_compute in Hs; discriminate Hs].
  destruct (readers s !! 0) as [r|] eqn:Hr; [|vm_compute in Hs; injection Hs as <-; vm_compute in Hr; discriminate Hr].
  set (es' := reads 0 2 ++ _ ++ _).
  destruct (run_events WStore es' s) as [s'|] eqn:Hs'; [|vm_compute in Hs; injection Hs as <-; vm_compute in Hs'; discriminate Hs'].
  destruct (finished_download_streams WStore "nar" trace_done es' s s' 0 r Hs) as (r' & Hr' & Hc).
  all: try (vm_compute in Hs; injection Hs as <-; vm_compute in Hr; injection Hr as <-; vm_compute in Hs'; injection Hs' as <-;
    vm_compute; (reflexivity || discriminate || (left; reflexivity))).
  exists s, s', r, r'. split_and!; [reflexivity|exact Hr|exact Hs'|exact Hr'|exact Hc].
Defined.

(** ** Downloads that fail, and empty ones *)

(** A client in [cond.Wait] after the last broadcast. *)
Definition stranded (s : sys) : Prop :=
  pull s = PReturned ∧ chunk s = CNone ∧ (∃ r, readers s !! 0 = Some r ∧ r_phase r = RParked) ∧
  (∀ t r, readers s !! t = Some r → r_canceled r = false).

Lemma stranded_event e s s' : (∀ t, e ≠ ECancel t) → stranded s → apply_event WStore e s = Some s' → stranded s'.
Proof.
  intros Hno (Hp & Hc & (r & Hr & Hrp) & Hnc) He. destruct e as [g|e| |t|t a g|t|t]; simpl in He.
  - unfold pull_step in He. by rewrite Hp in He.
  - unfold chunk_step in He. by rewrite Hc in He.
  - unfold remove_step in He. destruct (remove s); try discriminate He.
    all: destruct (_ =? _); try discriminate He; injection He as <-; (split_and!; [exact Hp|exact Hc|by exists r|exact Hnc]).
  - destruct (readers s !! t) eqn:Hr'; [done|]. injection He as <-. split_and!; [exact Hp|exact Hc| |].
    + exists r. simpl. rewrite lookup_insert_ne by congruence. done.
    + intros t' r' Hr1. simpl in Hr1. apply lookup_insert_Some in Hr1 as [[_ <-]|[_ ?]]; [done|by eapply Hnc].
  - destruct (readers s !! t) as [r1|] eqn:Hr1; [|done]. simpl in He.
    assert (∃ r2, readers s' = <[t := r2]> (readers s) ∧ r_canceled r2 = r_canceled r1 ∧ pull s' = pull s ∧ chunk s' = chunk s ∧
      r_phase r1 ≠ RParked) as (r2 & Hrs & Hc2 & Hp2 & Hch2 & Hne).
    { unfold reader_step, look, leave in He. destruct (r_phase r1) eqn:E; try discriminate He.
      all: repeat match type of He with (if ?c then _ else _) = _ => destruct c eqn:?; try discriminate He end.
      all: injection He as <-; repeat case_match; eexists; split_and!; done. }
    split_and!; [congruence|congruence| |].
    + exists r. rewrite Hrs, lookup_insert_ne; [done|]. intros ->. congruence.
    + intros t' r' Hr'. rewrite Hrs in Hr'. apply lookup_insert_Some in Hr' as [[_ <-]|[_ ?]]; [|by eapply Hnc].
      rewrite Hc2. by eapply Hnc.
  - by destruct (Hno t).
  - destruct (readers s !! t) as [r1|] eqn:Hr1; [|done]. simpl in He. by rewrite (Hnc t r1 Hr1) in He.
Qed.

Lemma stranded_run es s s' :
  (∀ t, ECancel t ∉ es) → stranded s → run_events WStore es s = Some s' → stranded s'.
Proof.
  revert s. induction es as [|e es IH]; intros s Hno Hs Hr; simpl in Hr; [by simplify_eq|].
  destruct (apply_event WStore e s) as [s1|] eqn:He; [|done].
  apply (IH s1); [|eapply stranded_event; [|done..]|done].
  - intros t Hin. apply (Hno t). by right.
  - intros t ->. apply (Hno t). by left.
Qed.

Definition trace_lost : list event :=
  fetched ++ one_read 1 ++ reads 0 1 ++ pulls [GFail; GOk] ++ reads 0 2.
Definition trace_cut : list event :=
  fetched ++ one_read 1 ++ reads 0 3 ++ pulls [GFail; GOk] ++ reads 0 1.

(** A download that fails midway: a client busy with the last bytes misses the
    only broadcast, since the loop tests for an error only after it has waited, and
    then waits for ever, the temporary file with it, unless a client of the download
    goes away; a client that was waiting has its stream ended as if it were whole,
    after part of the body. *)
Theorem failed_download_strands_client :
  (∃ s, run_events WStore trace_lost (begin "nar") = Some s ∧ pull s = PReturned ∧ downloadError (ds s) = true ∧
     ∀ es s', (∀ t, ECancel t ∉ es) → run_events WStore es s = Some s' →
       (∃ r, readers s' !! 0 = Some r ∧ r_phase r = RParked) ∧ exists_ s' = true) ∧
  ∃ s r, run_events WStore trace_cut (begin "nar") = Some s ∧ readers s !! 0 = Some r ∧
    r_phase r = REnd ∧ r_sent r = "n" ∧ r_canceled r = false.
Proof.
  split.
  - eexists. split; [vm_compute; reflexivity|]. split_and!; [done..|]. intros es s' Hno Hr.
    set (s := mkSys _ _ _ _ _ _ _ _ _) in Hr. assert (stranded s) as Hs.
    { assert (bool_decide (map_Forall (λ _ r, r_canceled r = false) (readers s)) = true) as Hnc by by vm_compute.
      apply bool_decide_eq_true in Hnc. split_and!; [done..|by eexists|exact Hnc]. }
    pose proof (stranded_run _ _ _ Hno Hs Hr) as (_ & _ & (r & Hr' & Hp) & _). split; [by exists r|].
    assert (inv WStore "nar" s) as Hi by (apply (inv_reachable WStore "nar" trace_lost); by vm_compute).
    apply (downloads_inv _ _ _ _ _ Hi) in Hr. destruct (inv_readers _ _ _ Hr 0 r Hr') as (_ & _ & He & _).
    apply He. by rewrite Hp.
  - eexists _, _. split; [vm_compute; reflexivity|]. by split_and!.
Qed.

(** The chunker waits for bytes that never come. *)
Definition wedged (s : sys) : Prop :=
  pull s = PReturned ∧ (chunk s = CParked "" ∨ chunk s = CWoken "") ∧ job s = true ∧ done (ds s) = false ∧
  (∀ t r, readers s !! t = Some r → r_phase r = REnd → r_canceled r = true).

Lemma wedged_event e s s' :
  inv WChunkWhile "" s → downloadError (ds s) = false → wedged s → apply_event WChunkWhile e s = Some s' →
  wedged s' ∧ downloadError (ds s') = false.
Proof.
  intros Hi Herr (Hp & Hc & Hj & Hd & Hend) He.
  assert (bytesWritten (ds s) = 0 ∧ finalSize (ds s) = 0) as [Hb Hf].
  { pose proof (inv_copied _ _ _ Hi) as Hcp. rewrite Hp in Hcp. destruct Hcp as (_ & _ & Hcp). naive_solver. }
  assert (∀ s1, (∀ t r, readers s1 !! t = Some r → r_phase r = REnd → r_canceled r = true) →
    ∀ t r, readers (broadcast s1) !! t = Some r → r_phase r = REnd → r_canceled r = true) as Hbc.
  { intros s1 H1 t r. simpl. rewrite lookup_fmap. intros (r0 & Hr0 & ->)%fmap_Some. unfold wake.
    destruct (r_phase r0) eqn:E; simpl; rewrite ?E; try done. intros _. by eapply H1. }
  destruct e as [g|e| |t|t a g|t|t]; simpl in He.
  - unfold pull_step in He. by rewrite Hp in He.
  - unfold chunk_step, read_step, fileAvailable in He. simpl in He. rewrite Hb, Hf, Herr in He. simpl in He.
    destruct Hc as [Hc|Hc]; rewrite Hc in He; [by destruct e|]. destruct e; try discriminate He. injection He as <-.
    split; [|done]. unfold wedged. simpl. by split_and!; auto.
  - unfold remove_step in He. destruct (remove s); try discriminate He.
    all: destruct (_ =? _); try discriminate He; injection He as <-; (split; [split_and!|]); done.
  - destruct (readers s !! t) eqn:Hr; [done|]. injection He as <-. split; [|done]. split_and!; try done.
    intros t' r' Hr'. simpl in Hr'. apply lookup_insert_Some in Hr' as [[_ <-]|[_ ?]]; [done|by eapply Hend].
  - destruct (readers s !! t) as [r|] eqn:Hr; [|done]. simpl in He.
    destruct (inv_readers _ _ _ Hi t r Hr) as (_ & Hl & Hex & Hph).
    assert (∃ r2, readers s' = <[t := r2]> (readers s) ∧ (r_phase r2 = REnd → r_canceled r2 = true) ∧ pull s' = pull s ∧
      chunk s' = chunk s ∧ job s' = job s ∧ done (ds s') = done (ds s) ∧ downloadError (ds s') = false)
      as (r2 & Hrs & Hc2 & Hp2 & Hch2 & Hj2 & Hd2 & He2).
    { unfold reader_step, look, leave in He. rewrite Hb, Hf, Herr in He. destruct (r_phase r) as [| | | | |n c| | | |] eqn:E; try discriminate He; simpl in He.
      all: repeat match type of He with (if ?c then _ else _) = _ => destruct c eqn:?; try discriminate He end.
      all: injection He as <-; repeat case_match; eexists; split_and!; try done; simpl; intros _; bool_props; try done.
      all: naive_solver. }
    split; [|done]. unfold wedged. rewrite Hp2, Hch2, Hj2, Hd2. split_and!; try done.
    intros t' r' Hr'. rewrite Hrs in Hr'. apply lookup_insert_Some in Hr' as [[_ <-]|[_ ?]]; [done|by eapply Hend].
  - destruct (readers s !! t) as [r|] eqn:Hr; [|done]. injection He as <-. split; [|done]. split_and!; try done.
    intros t' r' Hr'. simpl in Hr'. apply lookup_insert_Some in Hr' as [[_ <-]|[_ ?]]; [done|by eapply Hend].
  - destruct (readers s !! t) as [r|] eqn:Hr; [|done]. simpl in He. destruct (_ && streaming _) eqn:Hcs; [|done].
    injection He as <-. split; [|done]. split_and!; try done.
    { simpl. destruct Hc as [->| ->]; auto. }
    apply Hbc. intros t' r' Hr'. simpl in Hr'. apply lookup_insert_Some in Hr' as [[_ <-]|[_ ?]]; [done|by eapply Hend].
Qed.

Lemma wedged_run es s s' :
  inv WChunkWhile "" s → downloadError (ds s) = false → wedged s → run_events WChunkWhile es s = Some s' → wedged s'.
Proof.
  revert s. induction es as [|e es IH]; intros s Hi Herr Hs Hr; simpl in Hr; [by simplify_eq|].
  destruct (apply_event WChunkWhile e s) as [s1|] eqn:He; [|done].
  destruct (wedged_event e s s1 Hi Herr Hs He) as [Hs1 Herr1]. apply (IH s1); auto. by eapply download_inv.
Qed.

Definition trace_empty : list event :=
  pulls [GOk; GOk] ++ [EChunk (CGo 1); EChunk CReady; EChunk (CGo 1)] ++ pulls [GEof; GOk; GOk] ++ [EChunk (CGo 1)].

(** An empty body is told apart from an unfinished one by its size, which is 0 in
    both cases: chunking while downloading, the chunker waits for ever for more, its
    download stays registered, so that every later request for the NAR joins it, and
    no client's stream ends before the client goes away. *)
Theorem empty_download_wedges :
  ∃ s, run_events WChunkWhile trace_empty (begin "") = Some s ∧ pull s = PReturned ∧ downloadError (ds s) = false ∧
    ∀ es s', run_events WChunkWhile es s = Some s' →
      job s' = true ∧ done (ds s') = false ∧
      ∀ t r, readers s' !! t = Some r → r_phase r = REnd → r_canceled r = true.
Proof.
  eexists. split; [vm_compute; reflexivity|]. split_and!; [done..|]. intros es s' Hr.
  set (s := mkSys _ _ _ _ _ _ _ _ _) in Hr. assert (wedged s) as Hs.
  { split_and!; [done|by left|done..|]. intros t r Hr'. change ((∅ : gmap nat reader) !! t = Some r) in Hr'. by rewrite lookup_empty in Hr'. }
  assert (inv WChunkWhile "" s) as Hi by (apply (inv_reachable WChunkWhile "" trace_empty); by vm_compute).
  destruct (wedged_run es s s' Hi eq_refl Hs Hr) as (_ & _ & ? & ? & ?). done.
Qed.
