(* ===== verification/Coordination.v ===== *)
(** * Coordinating downloads ([coordinateDownload], [pollForDownloadOrTakeOver])

    Callers on several replicas want the same asset.  A caller joins its
    replica's running download or takes the distributed lock; when the lock is
    held it polls for the asset, for the lock and for in-flight staging.  The
    locker is an interface ([Locker]); what a download does is up to its job,
    seen through the channels of its [downloadState]. *)
From S2P Require Import Prelude GoStd Nar FS LocalStore Staging.

(** ** The interface of distributed lockers *)

Class Locker := {
  lk : Type;
  lk_Lock : nat → string → lk → bool * lk;
  lk_TryLock : nat → string → lk → result unit bool * lk;
  lk_Unlock : nat → string → lk → bool * lk;
}.

(** What [lock.Locker] promises to replica [r]: a lock that was taken was free,
    a failed attempt changes nothing, and unlocking concerns the own lock only
    and may fail. *)
Class LockerLaws (L : Locker) := {
  holder : lk → string → option nat;
  Lock_law r k s :
    let '(b, s') := lk_Lock r k s in
    (∀ k', k' ≠ k → holder s' k' = holder s k') ∧
    (if b : bool then holder s k = None ∧ holder s' k = Some r else holder s' k = holder s k);
  TryLock_law r k s :
    let '(b, s') := lk_TryLock r k s in
    (∀ k', k' ≠ k → holder s' k' = holder s k') ∧
    (if decide (b = Ok true) then holder s k = None ∧ holder s' k = Some r
     else holder s' k = holder s k);
  Unlock_law r k s :
    let '(_, s') := lk_Unlock r k s in
    (∀ k', k' ≠ k → holder s' k' = holder s k') ∧
    (holder s' k = holder s k ∨ holder s k = Some r ∧ holder s' k = None);
}.

(** ** The polling loop *)

(** How a call ends: with the local download it joined or started, with a
    completed state of its own, with a directive to serve from staging, or with
    an error. *)
Inductive coord_err := CtxErr | GaveUp.

Inductive outcome :=
  | OJob (d : nat)
  | OCompleted
  | OStaging (compression : string)
  | OError (e : coord_err).

#[global] Instance outcome_eq_dec : EqDecision outcome.
Proof. intros [d| |c|e] [d'| |c'|e']; try (right; discriminate); try (left; reflexivity).
  - destruct (decide (d = d')); [left|right]; congruence.
  - destruct (decide (c = c')); [left|right]; congruence.
  - destruct e, e'; (left; reflexivity) || (right; discriminate).
Defined.

Definition maxStagingWaitTicks : nat := 15.

(** The parts of one tick: the asset is finished (A), the lock is free (B),
    staging is ready (C), the asset is servable (D). *)
Inductive poll := PollTry (servable : bool) | PollEnd (o : outcome).

Definition poll_check (asset : bool * bool) : poll :=
  let '(servable, finished) := asset in if finished : bool then PollEnd OCompleted else PollTry servable.

(** After the lock was not acquired: [Ok o] ends the loop, [Err n] goes on with
    the count of staging waits. *)
Definition poll_serve (stagingActive : bool) (stagingWaitTicks : nat) (servable : bool)
    (ready : option string) : result nat outcome :=
  match (if stagingActive then ready else None) with
  | Some info => Ok (OStaging info)
  | None =>
      if negb servable then Err stagingWaitTicks
      else if stagingActive && (stagingWaitTicks <? maxStagingWaitTicks)%nat
      then Err (S stagingWaitTicks)
      else Ok OCompleted
  end.

(** The deadline: the caller's cancellation, or the give-up. *)
Definition poll_deadline (canceled : bool) : outcome := OError (if canceled then CtxErr else GaveUp).

(** The whole loop on the answers of its ticks; [None] is the take-over. *)
Record tick := mkTick {
  t_asset : bool * bool;
  t_lock : result unit bool;
  t_ready : option string;
}.

Fixpoint poll_loop (stagingActive : bool) (stagingWaitTicks : nat) (ticks : list tick) (canceled : bool) :
    option outcome :=
  match ticks with
  | [] => Some (poll_deadline canceled)
  | t :: ticks =>
      match poll_check (t_asset t) with
      | PollEnd o => Some o
      | PollTry servable =>
          match t_lock t with
          | Ok true => None
          | _ =>
              match poll_serve stagingActive stagingWaitTicks servable (t_ready t) with
              | Ok o => Some o
              | Err n => poll_loop stagingActive n ticks canceled
              end
          end
      end
  end.

(** ** Callers and downloads *)

(** What distinguishes the calls: [prePullNar]'s lets the caller go once the
    download has started, [prePullNarInfo]'s waits for the stored asset. *)
Record call := mkCall {
  replica : nat;
  lockKey : string;
  hash : string;
  waitForStorage : bool;
  allowStaging : bool;
}.

(** Where a call is in [coordinateDownload]; the last two are
    [isRemoteDownloadInProgress]. *)
Inductive pc :=
  | PStart
  | PJoin (d : nat)
  | PLock
  | PMark
  | PPoll (stagingActive : bool) (stagingWaitTicks : nat)
  | PTry (stagingActive : bool) (stagingWaitTicks : nat) (servable : bool)
  | PServe (stagingActive : bool) (stagingWaitTicks : nat) (servable : bool)
  | PLocked (tookOver : bool)
  | PCheck
  | PUnlockReturn
  | PJob
  | PWait (d : nat)
  | PRelease (d : nat)
  | PBackground (d : nat)
  | PReturned (o : outcome)
  | QTry
  | QUnlock
  | QReturned (inProgress : bool).

Record caller := mkCaller { c_call : call; c_pc : pc }.

(** A [downloadState]: which of its channels are closed. *)
Record downloadState := mkDownloadState {
  ds_replica : nat;
  ds_key : string;
  ds_wait : bool;
  ds_start : bool;
  ds_stored : bool;
  ds_done : bool;
}.

Section coordination.
Context {P : PartStore} {L : Locker}.
Context (enabled : bool).

(** The system: the locker, the staging world, what [checkAsset] sees of each
    key, the replicas' [upstreamJobs], the downloads and the calls. *)
Record sys := mkSys {
  locker : lk;
  staging : @World P;
  asset : gmap string (bool * bool);
  upstreamJobs : gmap (nat * string) nat;
  downloads : gmap nat downloadState;
  callers : gmap nat caller;
}.

Definition checkAsset (k : string) (s : sys) : bool * bool := default (false, false) (asset s !! k).

Definition set_locker (l : lk) (s : sys) : sys :=
  mkSys l (staging s) (asset s) (upstreamJobs s) (downloads s) (callers s).
Definition set_staging (w : World) (s : sys) : sys :=
  mkSys (locker s) w (asset s) (upstreamJobs s) (downloads s) (callers s).
Definition set_pc (t : nat) (c : call) (p : pc) (s : sys) : sys :=
  mkSys (locker s) (staging s) (asset s) (upstreamJobs s) (downloads s)
    (<[t := mkCaller c p]> (callers s)).

(** What lets a waiting caller go on. *)
Inductive wake := WGo | WTick | WDeadline | WCanceled.

(** The channel a caller waits for. *)
Definition completion (c : call) (ds : downloadState) : bool :=
  if waitForStorage c then ds_stored ds else ds_start ds.

(** [startJob] and the registration of its download. *)
Definition start_download (d : nat) (c : call) (s : sys) : sys :=
  mkSys (locker s) (staging s) (asset s) (<[(replica c, lockKey c) := d]> (upstreamJobs s))
    (<[d := mkDownloadState (replica c) (lockKey c) (waitForStorage c) false false false]> (downloads s))
    (callers s).

(** One step of [pollForDownloadOrTakeOver]. *)
Definition poll_step (t : nat) (c : call) (p : pc) (wk : wake) (s : sys) : option sys :=
  let goto p s := Some (set_pc t c p s) in
  match p, wk with
  | PMark, WGo =>
      if allowStaging c && enabled then
        let '(r, w) := markStagingRequested (hash c) (staging s) in
        goto (PPoll (is_ok r) 0) (set_staging w s)
      else goto (PPoll false 0) s
  | PPoll a n, WTick =>
      match poll_check (checkAsset (lockKey c) s) with
      | PollEnd o => goto (PReturned o) s
      | PollTry servable => goto (PTry a n servable) s
      end
  | PPoll a n, WDeadline => goto (PReturned (poll_deadline false)) s
  | PPoll a n, WCanceled => goto (PReturned (poll_deadline true)) s
  | PTry a n servable, WGo =>
      let '(r, l) := lk_TryLock (replica c) (lockKey c) (locker s) in
      goto (if decide (r = Ok true) then PLocked true else PServe a n servable) (set_locker l s)
  | PServe a n servable, WGo =>
      let '(r, w) := if a : bool then stagingServeReady (hash c) (staging s) else (Ok None, staging s) in
      let ready := match r with Ok ready => ready | Err _ => None end in
      goto (match poll_serve a n servable ready with Ok o => PReturned o | Err n => PPoll a n end)
        (set_staging w s)
  | _, _ => None
  end.

(** The owner of the lock waits for its download and releases the lock: at once
    when the call waits for the store, and otherwise, with the call already
    returned, in the background once the download is done. *)
Definition release_step (t : nat) (c : call) (p : pc) (wk : wake) (s : sys) : option sys :=
  let goto p s := Some (set_pc t c p s) in
  match p, wk with
  | PWait d, WGo =>
      ds ← downloads s !! d;
      if completion c ds || ds_done ds
      then goto (if waitForStorage c then PRelease d else PBackground d) s else None
  | PWait d, WCanceled => goto (if waitForStorage c then PRelease d else PBackground d) s
  | PRelease d, WGo =>
      let '(_, l) := lk_Unlock (replica c) (lockKey c) (locker s) in
      goto (PReturned (OJob d)) (set_locker l s)
  | PBackground d, WGo =>
      ds ← downloads s !! d;
      if ds_done ds then
        let '(_, l) := lk_Unlock (replica c) (lockKey c) (locker s) in
        goto (PReturned (OJob d)) (set_locker l s)
      else None
  | _, _ => None
  end.

(** [isRemoteDownloadInProgress] *)
Definition probe_step (t : nat) (c : call) (p : pc) (wk : wake) (s : sys) : option sys :=
  let goto p s := Some (set_pc t c p s) in
  match p, wk with
  | QTry, WGo =>
      let '(r, l) := lk_TryLock (replica c) (lockKey c) (locker s) in
      goto (match r with
            | Err _ => QReturned false
            | Ok false => QReturned true
            | Ok true => QUnlock
            end) (set_locker l s)
  | QUnlock, WGo =>
      let '(_, l) := lk_Unlock (replica c) (lockKey c) (locker s) in
      goto (QReturned false) (set_locker l s)
  | _, _ => None
  end.

(** One step of [coordinateDownload]. *)
Definition caller_step (t : nat) (c : call) (p : pc) (wk : wake) (s : sys) : option sys :=
  let goto p s := Some (set_pc t c p s) in
  match p, wk with
  | PStart, WGo =>
      match upstreamJobs s !! (replica c, lockKey c) with
      | Some d => goto (PJoin d) s
      | None => goto PLock s
      end
  | PJoin d, WGo =>
      ds ← downloads s !! d;
      if completion c ds || ds_done ds then goto (PReturned (OJob d)) s else None
  | PJoin d, WCanceled => goto (PReturned (OJob d)) s
  | PLock, WGo =>
      let '(b, l) := lk_Lock (replica c) (lockKey c) (locker s) in
      goto (if b : bool then PLocked false else PMark) (set_locker l s)
  | PMark, _ | PPoll _ _, _ | PTry _ _ _, _ | PServe _ _ _, _ => poll_step t c p wk s
  | PLocked tookOver, WGo =>
      if tookOver && allowStaging c && enabled then
        let '(_, w) := resetStagingForTakeover (hash c) (staging s) in
        goto PCheck (set_staging w s)
      else goto PCheck s
  | PCheck, WGo => goto (if (checkAsset (lockKey c) s).1 then PUnlockReturn else PJob) s
  | PUnlockReturn, WGo =>
      let '(_, l) := lk_Unlock (replica c) (lockKey c) (locker s) in
      goto (PReturned OCompleted) (set_locker l s)
  | PJob, WGo =>
      match upstreamJobs s !! (replica c, lockKey c) with
      | Some d => goto (PWait d) s
      | None =>
          let d := fresh (dom (downloads s)) in
          goto (PWait d) (start_download d c s)
      end
  | PWait _, _ | PRelease _, _ | PBackground _, _ => release_step t c p wk s
  | QTry, _ | QUnlock, _ => probe_step t c p wk s
  | _, _ => None
  end.

(** What a job does to its download: it closes the channels, and it removes
    itself from its replica's jobs. *)
Inductive job_event := JStart | JStored | JRemove | JDone.

Definition job_step (d : nat) (e : job_event) (ds : downloadState) (s : sys) : sys :=
  let set ds := mkSys (locker s) (staging s) (asset s) (upstreamJobs s) (<[d := ds]> (downloads s)) (callers s) in
  let '(mkDownloadState r k w st so dn) := ds in
  match e with
  | JStart => set (mkDownloadState r k w true so dn)
  | JStored => set (mkDownloadState r k w st true dn)
  | JRemove =>
      mkSys (locker s) (staging s) (asset s) (delete (r, k) (upstreamJobs s)) (downloads s) (callers s)
  | JDone => set (mkDownloadState r k w st so true)
  end.

(** The scheduler's choices; the asset and the staging world may change in any
    way between the steps. *)
Inductive event :=
  | ECall (t : nat) (c : call)
  | EProbe (t : nat) (c : call)
  | EStep (t : nat) (wk : wake)
  | EJob (d : nat) (e : job_event)
  | EAsset (k : string) (a : bool * bool)
  | EStaging (w : @World P).

Definition apply_event (e : event) (s : sys) : option sys :=
  match e with
  | ECall t c =>
      match callers s !! t with None => Some (set_pc t c PStart s) | Some _ => None end
  | EProbe t c =>
      match callers s !! t with None => Some (set_pc t c QTry s) | Some _ => None end
  | EStep t wk =>
      c ← callers s !! t; caller_step t (c_call c) (c_pc c) wk s
  | EJob d e => ds ← downloads s !! d; Some (job_step d e ds s)
  | EAsset k a =>
      Some (mkSys (locker s) (staging s) (<[k := a]> (asset s)) (upstreamJobs s) (downloads s) (callers s))
  | EStaging w => Some (set_staging w s)
  end.

Fixpoint run_events (es : list event) (s : sys) : option sys :=
  match es with
  | [] => Some s
  | e :: es => s' ← apply_event e s; run_events es s'
  end.

Definition start (l : lk) (w : World) : sys := mkSys l w ∅ ∅ ∅ ∅.

(** A download still has work to do that nobody may repeat: the asset is not
    stored, or, for a call that does not wait for the store, not finished. *)
Definition active (ds : downloadState) : bool :=
  negb (ds_done ds) && negb (ds_wait ds && ds_stored ds).

(** The client of a call that waits for the store goes away while the call
    waits for its own download. *)
Definition abandons (s : sys) (e : event) : bool :=
  match e with
  | EStep t WCanceled =>
      match callers s !! t with
      | Some (mkCaller c (PWait _)) => waitForStorage c
      | _ => false
      end
  | _ => false
  end.

Fixpoint abandoned (es : list event) (s : sys) : bool :=
  match es with
  | [] => false
  | e :: es => abandons s e ||
      match apply_event e s with Some s' => abandoned es s' | None => false end
  end.
End coordination.

(** ** At most one active download *)

Section safety.
Context {P : PartStore} {L : Locker} {LL : LockerLaws L}.
Context (enabled : bool).

(** The states of a call that owns the lock of its key. *)
Definition owns (p : pc) : bool :=
  match p with
  | PLocked _ | PCheck | PUnlockReturn | PJob | PWait _ | PRelease _ | PBackground _ | QUnlock => true
  | _ => false
  end.

Definition waits (p : pc) (d : nat) : Prop := p = PWait d ∨ p = PBackground d.

(** Who owns a key's lock is one call, which holds it; an active download has
    its owner waiting for it. *)
Record inv (s : sys) : Prop := {
  inv_holder t c p : callers s !! t = Some (mkCaller c p) → owns p = true →
    holder (locker s) (lockKey c) = Some (replica c);
  inv_unique t1 t2 c1 c2 p1 p2 :
    callers s !! t1 = Some (mkCaller c1 p1) → callers s !! t2 = Some (mkCaller c2 p2) →
    owns p1 = true → owns p2 = true → lockKey c1 = lockKey c2 → t1 = t2;
  inv_active d ds : downloads s !! d = Some ds → active ds = true →
    ∃ t c p, callers s !! t = Some (mkCaller c p) ∧ waits p d ∧
      lockKey c = ds_key ds ∧ waitForStorage c = ds_wait ds;
}.

Lemma waits_owns p d : waits p d → owns p = true.
Proof. by intros [-> | ->]. Qed.

Lemma inv_single s d1 d2 ds1 ds2 :
  inv s → downloads s !! d1 = Some ds1 → downloads s !! d2 = Some ds2 →
  active ds1 = true → active ds2 = true → ds_key ds1 = ds_key ds2 → d1 = d2.
Proof.
  intros I H1 H2 A1 A2 Hk.
  destruct (inv_active s I d1 ds1 H1 A1) as (t1 & c1 & p1 & Ht1 & Hw1 & Hk1 & _).
  destruct (inv_active s I d2 ds2 H2 A2) as (t2 & c2 & p2 & Ht2 & Hw2 & Hk2 & _).
  assert (t1 = t2) as <-.
  { eapply (inv_unique s I t1 t2); eauto using waits_owns. congruence. }
  rewrite Ht1 in Ht2. injection Ht2 as <- <-. by destruct Hw1 as [-> | ->], Hw2 as [[=] | [=]].
Qed.

(** A call moves on, with its lock operation. *)
Lemma inv_set_pc s t c p p' l w aa jobs :
  inv s → callers s !! t = Some (mkCaller c p) →
  (∀ k, k ≠ lockKey c → holder l k = holder (locker s) k) →
  (if owns p' then holder l (lockKey c) = Some (replica c) ∧
      (owns p = true ∨ holder (locker s) (lockKey c) = None)
   else owns p = true ∨ holder l (lockKey c) = holder (locker s) (lockKey c)) →
  (∀ d ds, downloads s !! d = Some ds → active ds = true → waits p d →
     waitForStorage c = ds_wait ds → waits p' d) →
  inv (mkSys l w aa jobs (downloads s) (<[t := mkCaller c p']> (callers s))).
Proof.
  intros I Ht Hoth Hp Hw.
  assert (∀ t' c' q, t ≠ t' → callers s !! t' = Some (mkCaller c' q) → owns q = true →
    lockKey c' = lockKey c → owns p = true ∨ holder (locker s) (lockKey c) = None → False) as Hno.
  { intros t' c' q Hne Ht' Hq Hk [Hop|Hn]; [by eapply Hne, (inv_unique s I t t')|].
    rewrite <- Hk, (inv_holder s I t' c' q Ht' Hq) in Hn. done. }
  split; simpl.
  - intros t' c' q Ht' Hq. destruct (decide (t = t')) as [<-|Hne].
    + rewrite lookup_insert_eq in Ht'. injection Ht' as <- <-. rewrite Hq in Hp. apply Hp.
    + rewrite lookup_insert_ne in Ht' by done.
      destruct (decide (lockKey c' = lockKey c)) as [Hk|Hk];
        [|rewrite Hoth by done; by eapply inv_holder].
      destruct (owns p') eqn:Hop; [exfalso; eapply Hno; eauto; tauto|].
      destruct Hp as [Hp|Hp]; [exfalso; eapply Hno; eauto|].
      rewrite Hk, Hp, <- Hk. by eapply inv_holder.
  - intros t1 t2 c1 c2 p1 p2 H1 H2 O1 O2 Hk.
    destruct (decide (t = t1)) as [<-|N1], (decide (t = t2)) as [<-|N2]; [done| | |].
    + rewrite lookup_insert_eq in H1. injection H1 as <- <-. rewrite O1 in Hp.
      rewrite lookup_insert_ne in H2 by done. exfalso. eapply (Hno t2); eauto; tauto.
    + rewrite lookup_insert_eq in H2. injection H2 as <- <-. rewrite O2 in Hp.
      rewrite lookup_insert_ne in H1 by done. exfalso. eapply (Hno t1); eauto; tauto.
    + rewrite lookup_insert_ne in H1, H2 by done. by eapply (inv_unique s I t1 t2).
  - intros d ds Hd Ha. destruct (inv_active s I d ds Hd Ha) as (t' & c' & q & Ht' & Hq & Hk & Hwt).
    destruct (decide (t = t')) as [<-|Hne].
    + rewrite Ht in Ht'. injection Ht' as <- <-. exists t, c, p'. rewrite lookup_insert_eq.
      split_and!; eauto.
    + exists t', c', q. by rewrite lookup_insert_ne.
Qed.

Lemma inv_new_call s t c p : inv s → callers s !! t = None → owns p = false → inv (set_pc t c p s).
Proof.
  intros I Ht Hp. split; simpl.
  - intros t' c' q Ht' Hq. destruct (decide (t = t')) as [<-|Hne].
    + rewrite lookup_insert_eq in Ht'. congruence.
    + rewrite lookup_insert_ne in Ht' by done. by eapply inv_holder.
  - intros t1 t2 c1 c2 p1 p2 H1 H2 O1 O2 Hk.
    destruct (decide (t = t1)) as [<-|N1]; [rewrite lookup_insert_eq in H1; congruence|].
    destruct (decide (t = t2)) as [<-|N2]; [rewrite lookup_insert_eq in H2; congruence|].
    rewrite lookup_insert_ne in H1, H2 by done. by eapply (inv_unique s I t1 t2).
  - intros d ds Hd Ha. destruct (inv_active s I d ds Hd Ha) as (t' & c' & q & Ht' & H).
    exists t', c', q. rewrite lookup_insert_ne by congruence. done.
Qed.

(** A new download has its owner waiting. *)
Lemma inv_add_download s t c d :
  inv s → callers s !! t = Some (mkCaller c (PWait d)) → inv (start_download d c s).
Proof.
  intros I Ht. split; simpl; [apply (inv_holder s I)|apply (inv_unique s I)|].
  intros d' ds Hd Ha. destruct (decide (d = d')) as [<-|Hne].
  - rewrite lookup_insert_eq in Hd. injection Hd as <-. exists t, c, (PWait d). by split_and!; [|left|..].
  - rewrite lookup_insert_ne in Hd by done. by apply (inv_active s I).
Qed.

(** A job's own steps only make its download less active. *)
Lemma inv_job s d e ds : inv s → downloads s !! d = Some ds → inv (job_step d e ds s).
Proof.
  intros I Hd. destruct ds as [r k w st so dn] eqn:Hds.
  assert (∀ ds', ds_key ds' = k → ds_wait ds' = w → (active ds' = true → active ds = true) →
    inv (mkSys (locker s) (staging s) (asset s) (upstreamJobs s) (<[d := ds']> (downloads s)) (callers s)))
    as Hset.
  { intros ds' Hk Hw Ha. split; simpl; [apply (inv_holder s I)|apply (inv_unique s I)|].
    intros d' x Hx Hax. destruct (decide (d = d')) as [<-|Hne].
    - rewrite lookup_insert_eq in Hx. injection Hx as <-. rewrite Hk, Hw.
      apply (inv_active s I d _ Hd). subst ds. by apply Ha.
    - rewrite lookup_insert_ne in Hx by done. by apply (inv_active s I). }
  subst ds. destruct e; simpl; [apply Hset; done| |by split; simpl; apply I|].
  - apply Hset; try done. unfold active. simpl. destruct dn, w, so; done.
  - apply Hset; done.
Qed.

Ltac go_on := first
  [ done | by intros ? ? ? ? [[=] | [=]] | by left | by right | tauto
  | by intros; repeat case_decide; simplify_eq ].

Lemma inv_caller_step s t c p wk s' :
  inv s → callers s !! t = Some (mkCaller c p) →
  (wk = WCanceled → ∀ d, p = PWait d → waitForStorage c = false) →
  caller_step enabled t c p wk s = Some s' → inv s'.
Proof.
  intros I Ht Hab. pose proof (inv_holder s I t c p Ht) as Hh.
  (* moving on without a lock operation *)
  assert (∀ p' w, (if owns p' then owns p = true else True) →
    (∀ d ds, downloads s !! d = Some ds → active ds = true → waits p d →
      waitForStorage c = ds_wait ds → waits p' d) → inv (set_pc t c p' (set_staging w s))) as Hmove.
  { intros p' w Hown Hw. eapply (inv_set_pc s t); [done|done|done| |done].
    destruct (owns p'); [|by right]. split; [by apply Hh|by left]. }
  assert (∀ p', (if owns p' then owns p = true else True) →
    (∀ d ds, downloads s !! d = Some ds → active ds = true → waits p d →
      waitForStorage c = ds_wait ds → waits p' d) → inv (set_pc t c p' s)) as Hmove0.
  { intros p' Hown Hw. specialize (Hmove p' (staging s) Hown Hw). by destruct s. }
  (* releasing the lock *)
  assert (∀ p', owns p = true → owns p' = false →
    (∀ d ds, downloads s !! d = Some ds → active ds = true → waits p d →
      waitForStorage c = ds_wait ds → waits p' d) →
    inv (set_pc t c p' (set_locker (lk_Unlock (replica c) (lockKey c) (locker s)).2 s))) as Hrel.
  { intros p' Hp Hp' Hw. pose proof (Unlock_law (replica c) (lockKey c) (locker s)) as Hlaw.
    destruct (lk_Unlock _ _ _) as [b l]. destruct Hlaw as [Ho _].
    eapply (inv_set_pc s t); [done|done|exact Ho| |done]. rewrite Hp'. by left. }
  assert (∀ p' p'', owns p = false → owns p' = true → owns p'' = false →
    let '(r, l) := lk_TryLock (replica c) (lockKey c) (locker s) in
    inv (set_pc t c (if decide (r = Ok true) then p' else p'') (set_locker l s))) as Htry.
  { intros p' p'' Hp Hp' Hp''. pose proof (TryLock_law (replica c) (lockKey c) (locker s)) as Hlaw.
    destruct (lk_TryLock _ _ _) as [r l]. destruct Hlaw as [Ho Hlaw].
    eapply (inv_set_pc s t); [done|done|exact Ho| |].
    - destruct (decide (r = Ok true)); [rewrite Hp'|rewrite Hp''; by right].
      destruct Hlaw. split; [done|by right].
    - intros d ds _ _ Hw. apply waits_owns in Hw. congruence. }
  assert (∀ d, downloads s !! d = None → p = PJob → inv (set_pc t c (PWait d) (start_download d c s))) as Hnew.
  { intros d Hd ->. pose proof (Hmove0 (PWait d) eq_refl) as Hm.
    apply (inv_add_download (set_pc t c (PWait d) s) t c d); [|apply lookup_insert_eq].
    apply Hm. intros ? ? ? ? [[=] | [=]]. }
  destruct p, wk; cbn [caller_step poll_step release_step probe_step]; try done; intros Hstep.
  - destruct (upstreamJobs s !! _); injection Hstep as <-; apply Hmove0; go_on.
  - apply bind_Some in Hstep as (ds & Hd & Hstep). destruct (_ || _); [|done].
    injection Hstep as <-. apply Hmove0; go_on.
  - injection Hstep as <-. apply Hmove0; go_on.
  - pose proof (Lock_law (replica c) (lockKey c) (locker s)) as Hlaw.
    destruct (lk_Lock _ _ _) as [b l]. destruct Hlaw as [Ho Hlaw]. injection Hstep as <-.
    eapply (inv_set_pc s t); [done|done|exact Ho| |go_on]. destruct b; simpl; [|by right].
    destruct Hlaw. split; [done|by right].
  - destruct (_ && _); [destruct (markStagingRequested _ _)|]; injection Hstep as <-;
      [apply Hmove|apply Hmove0]; go_on.
  - destruct (poll_check _); injection Hstep as <-; apply Hmove0; go_on.
  - injection Hstep as <-. apply Hmove0; go_on.
  - injection Hstep as <-. apply Hmove0; go_on.
  - specialize (Htry (PLocked true) (PServe stagingActive stagingWaitTicks servable) eq_refl eq_refl eq_refl).
    destruct (lk_TryLock _ _ _) as [r l]. by injection Hstep as <-.
  - destruct (if stagingActive then _ else _) as [r w]. injection Hstep as <-.
    destruct (poll_serve _ _ _ _); apply Hmove; go_on.
  - destruct (_ && _ && _); [destruct (resetStagingForTakeover _ _)|]; injection Hstep as <-;
      [apply Hmove|apply Hmove0]; go_on.
  - destruct ((checkAsset _ s).1); injection Hstep as <-; apply Hmove0; go_on.
  - specialize (Hrel (PReturned OCompleted) eq_refl eq_refl).
    destruct (lk_Unlock _ _ _) as [b l]. injection Hstep as <-. apply Hrel; go_on.
  - destruct (upstreamJobs s !! _) as [d|]; injection Hstep as <-; [apply Hmove0; go_on|].
    apply Hnew; [|done]. apply not_elem_of_dom, is_fresh.
  - apply bind_Some in Hstep as (ds & Hd & Hstep). destruct (_ || _) eqn:Hc; [|done].
    injection Hstep as <-. apply Hmove0; [by destruct (waitForStorage c)|].
    intros d' ds' Hd' Ha [[= <-] | [=]] Hw. assert (ds' = ds) as -> by congruence.
    unfold completion, active in *. rewrite <- Hw in Ha. destruct (waitForStorage c); [|by right].
    by destruct (ds_stored ds), (ds_done ds).
  - injection Hstep as <-. rewrite (Hab eq_refl d eq_refl). apply Hmove0; [done|].
    intros d' ds' _ _ [[= <-] | [=]] _. by right.
  - specialize (Hrel (PReturned (OJob d)) eq_refl eq_refl).
    destruct (lk_Unlock _ _ _) as [b l]. injection Hstep as <-. apply Hrel; go_on.
  - apply bind_Some in Hstep as (ds & Hd & Hstep). destruct (ds_done ds) eqn:Hc; [|done].
    specialize (Hrel (PReturned (OJob d)) eq_refl eq_refl).
    destruct (lk_Unlock _ _ _) as [b l]. injection Hstep as <-. apply Hrel.
    intros d' ds' Hd' Ha [[=] | [= <-]] _. assert (ds' = ds) as -> by congruence.
    unfold active in Ha. by rewrite Hc in Ha.
  - pose proof (TryLock_law (replica c) (lockKey c) (locker s)) as Hlaw.
    destruct (lk_TryLock _ _ _) as [r l]. destruct Hlaw as [Ho Hlaw]. injection Hstep as <-.
    eapply (inv_set_pc s t); [done|done|exact Ho| |go_on].
    destruct r as [[|]|]; simpl in *; [|by right..]. destruct Hlaw. split; [done|by right].
  - specialize (Hrel (QReturned false) eq_refl eq_refl).
    destruct (lk_Unlock _ _ _) as [b l]. injection Hstep as <-. apply Hrel; go_on.
Qed.

Lemma inv_event s e s' : inv s → abandons s e = false → apply_event enabled e s = Some s' → inv s'.
Proof.
  intros I Hab. destruct e as [t c|t c|t wk|d e|k a|w]; simpl.
  - destruct (callers s !! t) eqn:Ht; [done|]. intros [= <-]. by apply inv_new_call.
  - destruct (callers s !! t) eqn:Ht; [done|]. intros [= <-]. by apply inv_new_call.
  - intros ([c p] & Ht & Hs)%bind_Some. eapply inv_caller_step; [done|done| |exact Hs].
    intros -> d ->. simpl in Hab. by rewrite Ht in Hab.
  - intros (ds & Hd & [= <-])%bind_Some. by apply inv_job.
  - intros [= <-]. split; simpl; apply I.
  - intros [= <-]. split; simpl; apply I.
Qed.

Lemma inv_events es s s' :
  inv s → abandoned enabled es s = false → run_events enabled es s = Some s' → inv s'.
Proof.
  revert s. induction es as [|e es IH]; simpl; intros s I Hab Hrun; [by simplify_eq|].
  apply bind_Some in Hrun as (s1 & Hs1 & Hrun). apply orb_false_iff in Hab as [Ha Hab].
  rewrite Hs1 in Hab. apply (IH s1); [by eapply inv_event|done..].
Qed.

Lemma inv_start l w : inv (start l w).
Proof. split; simpl; intros *; rewrite ?lookup_empty; done. Qed.
End safety.

(** C11. One download at a time, on all replicas together: with an exclusive locker whose
    locks do not expire under their holder, however the calls, the jobs, the assets and
    the staging interleave, two active downloads of one key are the same download, and
    some replica holds the key's lock.  Calls may be cancelled at any time, with one
    exception: no client leaves while its call, one with [waitForStorage], waits for its
    own download.  That one releases the lock while the download runs on
    ([abandoned_narinfo_downloads_twice]). *)
Theorem single_active_download {P : PartStore} {L : Locker} {LL : LockerLaws L}
    (enabled : bool) (l : lk) (w : World) (es : list event) (s : sys) :
  abandoned enabled es (start l w) = false →
  run_events enabled es (start l w) = Some s →
  ∀ d1 ds1, downloads s !! d1 = Some ds1 → active ds1 = true →
    (∀ d2 ds2, downloads s !! d2 = Some ds2 → active ds2 = true → ds_key ds1 = ds_key ds2 → d1 = d2) ∧
    ∃ r, holder (locker s) (ds_key ds1) = Some r.
Proof.
  intros Hab Hrun d1 ds1 H1 A1. pose proof (inv_events enabled es _ s (inv_start l w) Hab Hrun) as I.
  split; [intros; eapply inv_single; eauto|].
  destruct (inv_active s I d1 ds1 H1 A1) as (t & c & p & Ht & Hp & <- & _).
  exists (replica c). eapply inv_holder; eauto using waits_owns.
Qed.

(** ** The polling loop's outcomes *)

(** A tick that finds nothing: the asset is not finished, the lock is not
    acquired, and no staging is ready. *)
Definition idle_tick (stagingActive : bool) (t : tick) : Prop :=
  (t_asset t).2 = false ∧ t_lock t ≠ Ok true ∧ (stagingActive = true → t_ready t = None).

Definition servables (ts : list tick) : nat := length (filter (λ t, (t_asset t).1 = true) ts).

(** Ticks that let the loop go on: the first [n] servable ones only while
    staging is awaited, and at most [maxStagingWaitTicks] of them. *)
Definition waited (stagingActive : bool) (n : nat) (ts : list tick) : Prop :=
  Forall (idle_tick stagingActive) ts ∧
  (if stagingActive then n + servables ts ≤ max n maxStagingWaitTicks else servables ts = 0).

Lemma waited_nil a n : waited a n [].
Proof. split; [done|]. change (servables []) with 0. destruct a; lia. Qed.

Lemma waited_cons a n t ts :
  idle_tick a t → (if (t_asset t).1 then a = true ∧ n < maxStagingWaitTicks else True) →
  waited a (if (t_asset t).1 then S n else n) ts → waited a n (t :: ts).
Proof.
  intros Ht Hn [Hall Hc]. split; [by constructor|]. unfold servables in *.
  rewrite filter_cons. destruct ((t_asset t).1) eqn:Hs.
  - destruct Hn as [-> Hn]. rewrite decide_True by done. unfold maxStagingWaitTicks in *. cbn [length] in *. lia.
  - rewrite decide_False by done. done.
Qed.

(** Where the loop stopped, and why. *)
Definition stopped (a : bool) (n : nat) (ts : list tick) (why : nat → tick → Prop) : Prop :=
  ∃ pre t post, ts = pre ++ t :: post ∧ waited a n pre ∧ why (n + servables pre) t.

Lemma stopped_here a n t ts (why : nat → tick → Prop) : why n t → stopped a n (t :: ts) why.
Proof.
  intros H. exists [], t, ts. split_and!; [done|apply waited_nil|]. unfold servables. simpl.
  by rewrite Nat.add_0_r.
Qed.

Lemma stopped_later a n t ts (why : nat → tick → Prop) :
  idle_tick a t → (if (t_asset t).1 then a = true ∧ n < maxStagingWaitTicks else True) →
  stopped a (if (t_asset t).1 then S n else n) ts why → stopped a n (t :: ts) why.
Proof.
  intros Ht Hn (pre & t' & post & -> & Hw & H). exists (t :: pre), t', post.
  split_and!; [done|by apply waited_cons|]. unfold servables in *. rewrite filter_cons.
  destruct ((t_asset t).1) eqn:Hs.
  - rewrite decide_True by done. simpl in *. by rewrite <- Nat.add_succ_comm.
  - by rewrite decide_False.
Qed.

Definition poll_reason (a canceled : bool) (n : nat) (ts : list tick) (o : option outcome) : Prop :=
  match o with
  | None => stopped a n ts (λ _ t, (t_asset t).2 = false ∧ t_lock t = Ok true)
  | Some (OStaging c) => a = true ∧
      stopped a n ts (λ _ t, (t_asset t).2 = false ∧ t_lock t ≠ Ok true ∧ t_ready t = Some c)
  | Some OCompleted => stopped a n ts (λ k t, (t_asset t).2 = true ∨
      idle_tick a t ∧ (t_asset t).1 = true ∧ (a = true → maxStagingWaitTicks ≤ k))
  | Some (OError e) => e = (if canceled then CtxErr else GaveUp) ∧ waited a n ts
  | Some (OJob _) => False
  end.

Lemma poll_reason_later a canceled n t ts o :
  idle_tick a t → (if (t_asset t).1 then a = true ∧ n < maxStagingWaitTicks else True) →
  poll_reason a canceled (if (t_asset t).1 then S n else n) ts o → poll_reason a canceled n (t :: ts) o.
Proof.
  intros Ht Hn. destruct o as [[d| |c|e]|]; simpl.
  - done.
  - by apply stopped_later.
  - intros [-> H]. split; [done|by apply stopped_later].
  - intros [-> H]. split; [done|by apply waited_cons].
  - by apply stopped_later.
Qed.

Lemma poll_loop_reason a n ticks canceled :
  poll_reason a canceled n ticks (poll_loop a n ticks canceled).
Proof.
  revert n. induction ticks as [|t ticks IH]; intros n; simpl; [split; [done|apply waited_nil]|].
  unfold poll_check. destruct (t_asset t) as [servable fin] eqn:Has. destruct fin.
  { apply stopped_here. left. by rewrite Has. }
  destruct (decide (t_lock t = Ok true)) as [Hl|Hl].
  { rewrite Hl. apply stopped_here. by rewrite Has. }
  assert (poll_reason a canceled n (t :: ticks)
    match poll_serve a n servable (t_ready t) with
    | Ok o => Some o
    | Err n => poll_loop a n ticks canceled
    end) as Hgo.
  { destruct (if a then t_ready t else None) as [c|] eqn:Hr.
    - destruct a; [|done]. unfold poll_serve. rewrite Hr. split; [done|].
      apply stopped_here. by rewrite Has.
    - assert (idle_tick a t) as Hidle.
      { split_and!; [by rewrite Has|done|]. by intros ->. }
      unfold poll_serve. rewrite Hr. destruct servable; simpl.
      + destruct (a && _) eqn:Hc.
        * apply andb_true_iff in Hc as [-> Hlt%Nat.ltb_lt].
          apply poll_reason_later; rewrite ?Has; simpl; auto.
        * apply stopped_here. right. split_and!; [done|by rewrite Has|]. intros ->.
          simpl in Hc. by apply Nat.ltb_ge.
      + apply poll_reason_later; rewrite ?Has; simpl; auto. }
  destruct (t_lock t) as [[|]|]; done.
Qed.

(** The outcome of polling has its reason at the tick where it stopped, in
    the order finished asset, free lock, staging, servable asset: the caller
    takes over only with the lock and no finished asset; it is served from
    staging only while the lock is held; it is served progressively from a
    servable asset only without staging or after 15 ticks of waiting for it, so
    it never waits for staging longer than that; and it ends with an error only
    when every tick until the deadline found nothing, a cache miss unless the
    caller itself was cancelled. *)
Theorem poll_loop_outcome (stagingActive canceled : bool) (ticks : list tick) :
  match poll_loop stagingActive 0 ticks canceled with
  | None => stopped stagingActive 0 ticks (λ _ t, (t_asset t).2 = false ∧ t_lock t = Ok true)
  | Some (OStaging c) => stagingActive = true ∧ stopped stagingActive 0 ticks
      (λ _ t, (t_asset t).2 = false ∧ t_lock t ≠ Ok true ∧ t_ready t = Some c)
  | Some OCompleted => stopped stagingActive 0 ticks (λ k t, (t_asset t).2 = true ∨
      idle_tick stagingActive t ∧ (t_asset t).1 = true ∧
      (stagingActive = true → maxStagingWaitTicks ≤ k))
  | Some (OError e) => e = (if canceled then CtxErr else GaveUp) ∧ waited stagingActive 0 ticks
  | Some (OJob _) => False
  end.
Proof. exact (poll_loop_reason stagingActive 0 ticks canceled). Qed.

(** ** Traces with a concrete locker *)

(** A locker that remembers the replica. *)
#[local] Instance map_locker : Locker := {
  lk := gmap string nat;
  lk_Lock r k s := if s !! k then (false, s) else (true, <[k := r]> s);
  lk_TryLock r k s := if s !! k then (Ok false, s) else (Ok true, <[k := r]> s);
  lk_Unlock r k s := if decide (s !! k = Some r) then (true, delete k s) else (false, s);
}.

#[local] Instance map_locker_laws : LockerLaws map_locker.
Proof.
  refine {| holder := λ (s : @lk map_locker) k, (s : gmap string nat) !! k |}; simpl.
  - intros r k s. destruct (s !! k) eqn:Hk; [done|].
    split; [intros; by rewrite lookup_insert_ne|]. by rewrite lookup_insert_eq.
  - intros r k s. destruct (s !! k) eqn:Hk; simpl.
    + done.
    + split; [intros; by rewrite lookup_insert_ne|]. by rewrite lookup_insert_eq.
  - intros r k s. destruct (decide _) as [Hk|Hk]; [|by auto].
    split; [intros; by rewrite lookup_delete_ne|]. right. by rewrite lookup_delete_eq.
Defined.

Definition nar_call (r : nat) : call := mkCall r "download:nar:h" "h" false true.
Definition narinfo_call (r : nat) : call := mkCall r "download:narinfo:h" "h" true false.

(** A call that reaches its own download, and the jobs' downloads. *)
Definition go (t n : nat) : list (@event (local_parts sample_store)) := replicate n (EStep t WGo).

Definition run_from_start (es : list event) : option sys :=
  run_events (P := local_parts sample_store) (L := map_locker) true es (start ∅ w0).

Definition active_downloads (s : @sys (local_parts sample_store) map_locker) : list (nat * string) :=
  (λ x, (ds_replica x.2, ds_key x.2)) <$> filter (λ x, active x.2 = true) (map_to_list (downloads s)).

(** A cross-pod waiter: the second replica polls, and takes over once the first
    one has finished without the asset. *)
Definition trace_take_over : list event :=
  ECall 0 (nar_call 0) :: go 0 5 ++ [ECall 1 (nar_call 1)] ++ go 1 3 ++
  [EJob 0 JStart; EStep 0 WGo; EJob 0 JRemove; EJob 0 JDone; EStep 0 WGo; EStep 1 WTick] ++ go 1 4.

(** The client of the first replica's narinfo call leaves. *)
Definition trace_abandoned : list event :=
  ECall 0 (narinfo_call 0) :: go 0 5 ++ [EStep 0 WCanceled] ++ go 0 1 ++
  [ECall 1 (narinfo_call 1)] ++ go 1 5.

Lemma single_active_download_witness :
  ∃ s, run_from_start trace_take_over = Some s ∧ active_downloads s = [(1, "download:nar:h")] ∧
    ∀ d ds, downloads s !! d = Some ds → active ds = true →
      ∃ r, holder (LockerLaws := map_locker_laws) (locker s) (ds_key ds) = Some r.
Proof.
  destruct (run_from_start trace_take_over) as [s|] eqn:Hrun.
  - exists s. split; [reflexivity|]. split.
    + assert (option_map active_downloads (run_from_start trace_take_over) =
        Some [(1, "download:nar:h")]) as Ha by (vm_compute; reflexivity).
      rewrite Hrun in Ha. by injection Ha.
    + intros d ds Hd Ha.
      apply (single_active_download (LL := map_locker_laws) true ∅ w0 trace_take_over s) with (d1 := d);
        [vm_compute; reflexivity|exact Hrun|exact Hd|exact Ha].
  - assert (option_map (λ _, ()) (run_from_start trace_take_over) = Some ()) as Ha
      by (vm_compute; reflexivity). by rewrite Hrun in Ha.
Defined.

(** A client that leaves breaks the coordination of narinfo downloads:
    [prePullNarInfo] coordinates with the request's own context, so when the
    client goes away the call stops waiting and releases the lock while its
    download still runs; another replica then takes the lock and downloads the
    same narinfo at the same time. *)
Theorem abandoned_narinfo_downloads_twice :
  active_downloads <$> run_from_start trace_abandoned =
    Some [(1, "download:narinfo:h"); (0, "download:narinfo:h")].
Proof. vm_compute. reflexivity. Qed.
