(* ===== verification/RedisLock.v ===== *)
(** * Package [pkg/lock/redis]: the read-write locker

    Several [RWLocker]s (one per replica) share one Redis.  Redis is an
    interface; every command may be lost, or its reply may be.  Calls on the
    lockers run step by step, a step holding at most one command.  Times are in
    milliseconds; what a reader writes into the hash of readers, an RFC 3339
    text, is the second it denotes ([None] for a text that does not parse). *)
From S2P Require Import Prelude GoStd CircuitBreaker.

(** ** The interface of Redis *)

Class Redis := {
  rds : Type;
  r_get : Z → string → rds → option string;
  r_setnx : Z → string → string → Z → rds → bool * rds;
  r_del : string → rds → rds;
  r_pexpire : Z → string → Z → rds → rds;
  r_exists : Z → string → rds → bool;
  r_hgetall : string → rds → gmap string (option Z);
  r_hset : string → string → option Z → rds → rds;
  r_hdel : string → string → rds → rds;
}.

(** The documented behaviour of the commands on string keys; [r_get t] is the
    value at time [t] if nothing more is done. *)
Class RedisLaws (R : Redis) := {
  setnx_law now k v ttl s : (0 < ttl)%Z →
    let '(b, s') := r_setnx now k v ttl s in
    (b = bool_decide (r_get now k s = None)) ∧
    (∀ t k', b = false ∨ k' ≠ k → r_get t k' s' = r_get t k' s) ∧
    (b = true → ∀ t, (now ≤ t < now + ttl)%Z → r_get t k s' = Some v);
  del_law t k k' s : r_get t k' (r_del k s) = if decide (k' = k) then None else r_get t k' s;
  pexpire_law now k ttl s t v : (0 < ttl)%Z → r_get now k s = Some v →
    (now ≤ t < now + ttl)%Z → r_get t k (r_pexpire now k ttl s) = Some v;
  pexpire_other now k ttl s t k' : k' ≠ k → r_get t k' (r_pexpire now k ttl s) = r_get t k' s;
  exists_law now k s : r_exists now k s = bool_decide (is_Some (r_get now k s));
  hset_law t k k' f v s : r_get t k' (r_hset k f v s) = r_get t k' s;
  hdel_law t k k' f s : r_get t k' (r_hdel k f s) = r_get t k' s;
}.

(** ** Errors *)

(** The error texts of the client decide what the locker does. *)
Definition isConnectionError (errStr : string) : bool :=
  contains errStr "connection refused" || contains errStr "connection reset" ||
  contains errStr "i/o timeout" || contains errStr "no such host".

Inductive rw_err :=
  | ErrCircuitBreakerOpen
  | ErrWriteLockHeld
  | ErrWriteLockTimeout
  | ErrReadersTimeout
  | ErrExtendLockNotFound
  | ErrCtx
  | ErrRedis (errStr : string)
  | ErrMaxAttempts (last : option rw_err).

(** ** The locker *)

Record config := mkConfig {
  cfg_KeyPrefix : string;
  cfg_MaxAttempts : nat;
}.

Record RWLocker := mkRWLocker {
  keyPrefix : string;
  maxAttempts : nat;
  allowDegradedMode : bool;
  readerID : option string;
  circuitBreaker : CircuitBreaker;
  writeLockTokens : gmap string (string * Z);
}.

Definition minute : Z := 60 * 1000.

(** [NewRWLocker], by the outcome of the first ping; the breaker counts
    milliseconds too. *)
Definition NewRWLocker (cfg : config) (allowDegradedMode ping : bool) (now : Z) : option RWLocker :=
  if negb ping then
    if allowDegradedMode
    then Some (mkRWLocker (cfg_KeyPrefix cfg) (cfg_MaxAttempts cfg) true None
           (ForceOpen now (New 5 minute)) ∅)
    else None
  else
    let prefix := if bool_decide (cfg_KeyPrefix cfg = "") then "ncps:lock:" else cfg_KeyPrefix cfg in
    Some (mkRWLocker prefix (cfg_MaxAttempts cfg) allowDegradedMode None (New 5 minute) ∅).

Definition writerKey (rw : RWLocker) (key : string) : string :=
  keyPrefix rw +:+ "{" +:+ key +:+ "}:writer".
Definition readersKey (rw : RWLocker) (key : string) : string :=
  keyPrefix rw +:+ "{" +:+ key +:+ "}:readers".

Definition set_breaker (cb : CircuitBreaker) (rw : RWLocker) : RWLocker :=
  mkRWLocker (keyPrefix rw) (maxAttempts rw) (allowDegradedMode rw) (readerID rw) cb (writeLockTokens rw).
Definition set_tokens (ts : gmap string (string * Z)) (rw : RWLocker) : RWLocker :=
  mkRWLocker (keyPrefix rw) (maxAttempts rw) (allowDegradedMode rw) (readerID rw) (circuitBreaker rw) ts.
Definition set_reader (id : string) (rw : RWLocker) : RWLocker :=
  mkRWLocker (keyPrefix rw) (maxAttempts rw) (allowDegradedMode rw) (Some id) (circuitBreaker rw)
    (writeLockTokens rw).

(** [circuitBreaker.AllowRequest()] *)
Definition allow (now : Z) (rw : RWLocker) : bool * RWLocker :=
  let '(b, cb) := AllowRequest now (circuitBreaker rw) in (b, set_breaker cb rw).

(** After a failed command: whether the call goes on with the fallback locker. *)
Definition failed (now : Z) (errStr : string) (rw : RWLocker) : bool * RWLocker :=
  if isConnectionError errStr then
    let '(b, rw) := allow now (set_breaker (RecordFailure now (circuitBreaker rw)) rw) in
    (negb b && allowDegradedMode rw, rw)
  else (false, rw).

Definition succeeded (rw : RWLocker) : RWLocker := set_breaker (RecordSuccess (circuitBreaker rw)) rw.

(** What [HGetAll] tells: the readers to remove and whether one is active. *)
Definition active_reader (now : Z) (e : option Z) : bool :=
  match e with Some sec => (now / 1000 <? sec)%Z | None => false end.

Definition dead_readers (now : Z) (rs : gmap string (option Z)) : list string :=
  (filter (λ x, active_reader now x.2 = false) (map_to_list rs)).*1.

Definition has_readers (now : Z) (rs : gmap string (option Z)) : bool :=
  existsb (λ x, active_reader now x.2) (map_to_list rs).

(** ** Calls, step by step *)

(** How a call returned: no error, [TryLock]'s false, an error, or whatever the
    fallback locker returns for it. *)
Inductive res := RNil | RFalse | RErr (e : rw_err) | RFallback.

(** [try] is [TryLock], which makes one attempt and does not wait for readers.
    [acq] is the time of the [SetNX], for the statements only. *)
Inductive pc :=
  | WStart (try : bool)
  | WSet (try : bool) (attempt : nat) (last : option rw_err)
  | WReaders (try : bool) (attempt : nat) (token : string) (acq : Z)
  | WPurge (try : bool) (attempt : nat) (token : string) (acq : Z) (dead : list string) (busy : bool)
  | WWait (attempt : nat) (token : string) (acq : Z)
  | WClean (try : bool) (attempt : nat) (token : string) (ret : option res) (last : option rw_err)
  | WAcquired (token : string) (acq : Z)
  | UStart
  | UEval (token : string)
  | EStart
  | EEval (token : string) (ttl : Z)
  | RStart
  | RExists (deadline : Z)
  | RSet
  | RAcquired
  | RUStart
  | RUDel
  | Returned (r : res).

(** A call on locker [p_locker]. *)
Record proc := mkProc {
  p_locker : nat;
  p_key : string;
  p_ttl : Z;
  p_pc : pc;
}.

(** A command goes through, is lost, or is done and its reply is lost. *)
Inductive net := NOk | NLost (errStr : string) | NReply (errStr : string).

Definition applied (n : net) : bool := match n with NLost _ => false | _ => true end.
Definition error (n : net) : option string := match n with NOk => None | NLost e | NReply e => Some e end.

Section lockers.
Context {R : Redis}.

(** [generateToken] and [getOrCreateReaderID]: the [n]th random identifier. *)
Context (random : nat → string).

Record sys := mkSys {
  redis : rds;
  now : Z;
  drawn : nat;
  lockers : gmap nat RWLocker;
  procs : gmap nat proc;
}.

(** The outcome of a step of a call: the new Redis, the identifiers drawn, the
    locker and where the call is. *)
Record outcome := mkOutcome { o_redis : rds; o_drawn : nat; o_locker : RWLocker; o_pc : pc }.

(** The Lua scripts. *)
Definition unlockScript (now : Z) (key token : string) (r : rds) : rds :=
  if decide (r_get now key r = Some token) then r_del key r else r.

Definition extendScript (now : Z) (key token : string) (ttl : Z) (r : rds) : Z * rds :=
  if decide (r_get now key r = Some token) then (1, r_pexpire now key ttl r)%Z else (0%Z, r).

(** The next attempt of [Lock], if there is one. *)
Definition next_attempt (rw : RWLocker) (attempt : nat) (last : option rw_err) : pc :=
  if (S attempt <? maxAttempts rw)%nat then WSet false (S attempt) last
  else Returned (RErr (ErrMaxAttempts last)).

(** [Lock] *)
Definition Lock_step (now : Z) (n : net) (canceled : bool) (p : proc) (d : nat) (r : rds) (rw : RWLocker) :
    option outcome :=
  let go r rw pc := Some (mkOutcome r d rw pc) in
  let key := p_key p in
  match p_pc p with
  | WStart false =>
      let '(b, rw) := allow now rw in
      go r rw (if b : bool then
                 if (0 <? maxAttempts rw)%nat then WSet false 0 None else Returned (RErr (ErrMaxAttempts None))
               else Returned (if allowDegradedMode rw then RFallback else RErr ErrCircuitBreakerOpen))
  | WSet false attempt last =>
      if (0 <? attempt)%nat && canceled then go r rw (Returned (RErr ErrCtx)) else
      let token := random d in
      let '(success, r') := r_setnx now (writerKey rw key) token (p_ttl p) r in
      let r := if applied n then r' else r in
      let go r rw pc := Some (mkOutcome r (S d) rw pc) in
      match error n with
      | Some e =>
          let '(fallback, rw) := failed now e rw in
          go r rw (if fallback : bool then Returned RFallback else next_attempt rw attempt (Some (ErrRedis e)))
      | None =>
          if negb success then go r rw (next_attempt rw attempt (Some ErrWriteLockHeld))
          else go r (set_tokens (<[key := (token, p_ttl p)]> (writeLockTokens rw)) rw)
                 (WReaders false attempt token now)
      end
  | WReaders false attempt token acq =>
      match error n with
      | Some e => go r rw (WClean false attempt token None (Some (ErrRedis e)))
      | None =>
          let rs := r_hgetall (readersKey rw key) r in
          go r rw (WPurge false attempt token acq (dead_readers now rs) (has_readers now rs))
      end
  | WPurge false attempt token acq (id :: dead) busy =>
      go (if applied n then r_hdel (readersKey rw key) id r else r) rw
        (WPurge false attempt token acq dead busy)
  | WPurge false attempt token acq [] busy =>
      if negb busy then go r (succeeded rw) (WAcquired token acq)
      else if (acq + p_ttl p <? now)%Z
      then go r rw (WClean false attempt token None (Some ErrReadersTimeout))
      else go r rw (WWait attempt token acq)
  | WWait attempt token acq =>
      go r rw (if canceled then WClean false attempt token (Some (RErr ErrCtx)) None
               else WReaders false attempt token acq)
  | WClean false attempt token ret last =>
      go (if applied n then unlockScript now (writerKey rw key) token r else r)
        (set_tokens (delete key (writeLockTokens rw)) rw)
        (match ret with Some x => Returned x | None => next_attempt rw attempt last end)
  | _ => None
  end.

(** [TryLock] *)
Definition TryLock_step (now : Z) (n : net) (p : proc) (d : nat) (r : rds) (rw : RWLocker) : option outcome :=
  let go r rw pc := Some (mkOutcome r d rw pc) in
  let key := p_key p in
  match p_pc p with
  | WStart true =>
      let '(b, rw) := allow now rw in
      go r rw (if b : bool then WSet true 0 None
               else Returned (if allowDegradedMode rw then RFallback else RErr ErrCircuitBreakerOpen))
  | WSet true attempt last =>
      let token := random d in
      let '(success, r') := r_setnx now (writerKey rw key) token (p_ttl p) r in
      let r := if applied n then r' else r in
      let go r rw pc := Some (mkOutcome r (S d) rw pc) in
      match error n with
      | Some e =>
          let '(fallback, rw) := failed now e rw in
          go r rw (Returned (if fallback : bool then RFallback else RErr (ErrRedis e)))
      | None => go r rw (if negb success then Returned RFalse else WReaders true attempt token now)
      end
  | WReaders true attempt token acq =>
      match error n with
      | Some e => go r rw (WClean true attempt token (Some (RErr (ErrRedis e))) (Some (ErrRedis e)))
      | None =>
          let rs := r_hgetall (readersKey rw key) r in
          go r rw (WPurge true attempt token acq (dead_readers now rs) (has_readers now rs))
      end
  | WPurge true attempt token acq (id :: dead) busy =>
      go (if applied n then r_hdel (readersKey rw key) id r else r) rw
        (WPurge true attempt token acq dead busy)
  | WPurge true attempt token acq [] busy =>
      if busy then go r rw (WClean true attempt token (Some RFalse) None)
      else go r (succeeded (set_tokens (<[key := (token, p_ttl p)]> (writeLockTokens rw)) rw))
             (WAcquired token acq)
  | WClean true attempt token ret last =>
      go (if applied n then unlockScript now (writerKey rw key) token r else r) rw
        (match ret with Some x => Returned x | None => next_attempt rw attempt last end)
  | _ => None
  end.

(** [Unlock] *)
Definition Unlock_step (now : Z) (n : net) (p : proc) (d : nat) (r : rds) (rw : RWLocker) : option outcome :=
  let go r rw pc := Some (mkOutcome r d rw pc) in
  let key := p_key p in
  match p_pc p with
  | UStart =>
      let '(b, rw) := allow now rw in
      if negb b && allowDegradedMode rw then go r rw (Returned RFallback) else
      match writeLockTokens rw !! key with
      | None => go r rw (Returned RNil)
      | Some (token, _) => go r (set_tokens (delete key (writeLockTokens rw)) rw) (UEval token)
      end
  | UEval token =>
      go (if applied n then unlockScript now (writerKey rw key) token r else r) rw
        (Returned (match error n with Some e => RErr (ErrRedis e) | None => RNil end))
  | _ => None
  end.

(** [Extend] *)
Definition Extend_step (now : Z) (n : net) (p : proc) (d : nat) (r : rds) (rw : RWLocker) : option outcome :=
  let go r rw pc := Some (mkOutcome r d rw pc) in
  let key := p_key p in
  match p_pc p with
  | EStart =>
      let '(b, rw) := allow now rw in
      if negb b && allowDegradedMode rw then go r rw (Returned RFallback) else
      match writeLockTokens rw !! key with
      | None => go r rw (Returned RNil)
      | Some (token, ttl) => go r rw (EEval token ttl)
      end
  | EEval token ttl =>
      let '(x, r') := extendScript now (writerKey rw key) token ttl r in
      go (if applied n then r' else r) rw
        (Returned (match error n with
                   | Some e => RErr (ErrRedis e)
                   | None => if (x =? 0)%Z then RErr ErrExtendLockNotFound else RNil
                   end))
  | _ => None
  end.

(** [getOrCreateReaderID] *)
Definition getOrCreateReaderID (d : nat) (rw : RWLocker) : string * nat * RWLocker :=
  match readerID rw with
  | Some id => (id, d, rw)
  | None => (random d, S d, set_reader (random d) rw)
  end.

(** [RLock] *)
Definition RLock_step (now : Z) (n : net) (p : proc) (d : nat) (r : rds) (rw : RWLocker) : option outcome :=
  let key := p_key p in
  match p_pc p with
  | RStart =>
      let '(b, rw) := allow now rw in
      if b : bool then
        let '(_, d, rw) := getOrCreateReaderID d rw in
        Some (mkOutcome r d rw (RExists (now + p_ttl p)))
      else Some (mkOutcome r d rw
             (Returned (if allowDegradedMode rw then RFallback else RErr ErrCircuitBreakerOpen)))
  | RExists deadline =>
      match error n with
      | Some e =>
          let '(fallback, rw) := failed now e rw in
          Some (mkOutcome r d rw (Returned (if fallback : bool then RFallback else RErr (ErrRedis e))))
      | None =>
          Some (mkOutcome r d rw
            (if negb (r_exists now (writerKey rw key) r) then RSet
             else if (deadline <? now)%Z then Returned (RErr ErrWriteLockTimeout)
             else RExists deadline))
      end
  | RSet =>
      let '(id, d, rw) := getOrCreateReaderID d rw in
      let r := if applied n then r_hset (readersKey rw key) id (Some ((now + p_ttl p) / 1000)%Z) r else r in
      match error n with
      | Some e => Some (mkOutcome r d rw (Returned (RErr (ErrRedis e))))
      | None => Some (mkOutcome r d (succeeded rw) RAcquired)
      end
  | _ => None
  end.

(** [RUnlock] *)
Definition RUnlock_step (now : Z) (n : net) (p : proc) (d : nat) (r : rds) (rw : RWLocker) : option outcome :=
  let key := p_key p in
  match p_pc p with
  | RUStart =>
      let '(b, rw) := allow now rw in
      if negb b && allowDegradedMode rw then Some (mkOutcome r d rw (Returned RFallback)) else
      let '(_, d, rw) := getOrCreateReaderID d rw in
      Some (mkOutcome r d rw RUDel)
  | RUDel =>
      let '(id, d, rw) := getOrCreateReaderID d rw in
      Some (mkOutcome (if applied n then r_hdel (readersKey rw key) id r else r) d rw
        (Returned (match error n with Some e => RErr (ErrRedis e) | None => RNil end)))
  | _ => None
  end.

Definition call_step (now : Z) (n : net) (canceled : bool) (p : proc) (d : nat) (r : rds) (rw : RWLocker) :
    option outcome :=
  match p_pc p with
  | WAcquired _ _ | RAcquired | Returned _ => None
  | UStart | UEval _ => Unlock_step now n p d r rw
  | EStart | EEval _ _ => Extend_step now n p d r rw
  | RStart | RExists _ | RSet => RLock_step now n p d r rw
  | RUStart | RUDel => RUnlock_step now n p d r rw
  | WStart true | WSet true _ _ | WReaders true _ _ _ | WPurge true _ _ _ _ _ | WClean true _ _ _ _ =>
      TryLock_step now n p d r rw
  | _ => Lock_step now n canceled p d r rw
  end.

(** The scheduler: calls start at any time on any locker, in any order, also
    [Unlock] and [Extend] by somebody who does not hold the lock. *)
Inductive event :=
  | ETick (by_ms : Z)
  | ECall (t : nat) (l : nat) (key : string) (ttl : Z) (p : pc)
  | EStep (t : nat) (n : net) (canceled : bool).

(** The entry points. *)
Definition entry (p : pc) : bool :=
  match p with WStart _ | UStart | EStart | RStart | RUStart => true | _ => false end.

Definition apply_event (e : event) (s : sys) : option sys :=
  match e with
  | ETick ms =>
      if (0 <=? ms)%Z then Some (mkSys (redis s) (now s + ms) (drawn s) (lockers s) (procs s)) else None
  | ECall t l key ttl p =>
      match procs s !! t with
      | Some _ => None
      | None =>
          if entry p && (0 <? ttl)%Z
          then Some (mkSys (redis s) (now s) (drawn s) (lockers s) (<[t := mkProc l key ttl p]> (procs s)))
          else None
      end
  | EStep t n canceled =>
      p ← procs s !! t;
      rw ← lockers s !! p_locker p;
      o ← call_step (now s) n canceled p (drawn s) (redis s) rw;
      Some (mkSys (o_redis o) (now s) (o_drawn o) (<[p_locker p := o_locker o]> (lockers s))
        (<[t := mkProc (p_locker p) (p_key p) (p_ttl p) (o_pc o)]> (procs s)))
  end.

Fixpoint run_events (es : list event) (s : sys) : option sys :=
  match es with
  | [] => Some s
  | e :: es => s' ← apply_event e s; run_events es s'
  end.
End lockers.

(** ** Write locks are exclusive *)

Section exclusive.
Context {R : Redis} {RL : RedisLaws R}.
Context (random : nat → string) {random_inj : Inj (=) (=) random}.
Context (prefix : string).

(** The token a call owns the writer key with, since when, and whether it is in
    [writeLockTokens] only later ([TryLock]). *)
Definition tok_of (p : pc) : option string :=
  match p with
  | WReaders _ _ token _ | WPurge _ _ token _ _ _ | WWait _ token _ | WAcquired token _ => Some token
  | _ => None
  end.

Definition acq_of (p : pc) : Z :=
  match p with
  | WReaders _ _ _ acq | WPurge _ _ _ acq _ _ | WWait _ _ acq | WAcquired _ acq => acq
  | _ => 0
  end.

Definition pending (p : pc) : bool :=
  match p with WReaders true _ _ _ | WPurge true _ _ _ _ _ => true | _ => false end.

(** The token a call is about to delete. *)
Definition releasing (p : pc) : option string :=
  match p with WClean _ _ token _ _ | UEval token => Some token | _ => None end.

Definition wkey (k : string) : string := prefix +:+ "{" +:+ k +:+ "}:writer".

Definition table (s : sys) (l : nat) (k : string) : option (string * Z) :=
  rw ← lockers s !! l; writeLockTokens rw !! k.

Definition known (s : sys) (token : string) : Prop := ∃ n, n < drawn s ∧ token = random n.

(** A call holds the lock of its key: its token is in its locker's table, or it
    is a [TryLock] that still looks at the readers. *)
Definition holds (s : sys) (p : proc) (token : string) : Prop :=
  tok_of (p_pc p) = Some token ∧
  (pending (p_pc p) = true ∨ ∃ ttl, table s (p_locker p) (p_key p) = Some (token, ttl)).

Definition live (s : sys) (p : proc) (token : string) : Prop :=
  ∀ u, (now s ≤ u < acq_of (p_pc p) + p_ttl p)%Z → r_get u (wkey (p_key p)) (redis s) = Some token.

Record inv (s : sys) : Prop := {
  inv_prefix l rw : lockers s !! l = Some rw → keyPrefix rw = prefix;
  inv_ttl t p : procs s !! t = Some p → (0 < p_ttl p)%Z;
  inv_tok t p token : procs s !! t = Some p → tok_of (p_pc p) = Some token →
    known s token ∧ (acq_of (p_pc p) ≤ now s)%Z;
  inv_tok_rel t p token : procs s !! t = Some p → releasing (p_pc p) = Some token → known s token;
  inv_tok_ext t p token ttl : procs s !! t = Some p → p_pc p = EEval token ttl → known s token ∧ (0 < ttl)%Z;
  inv_tok_table l k token ttl : table s l k = Some (token, ttl) → known s token ∧ (0 < ttl)%Z;
  inv_uniq t1 t2 p1 p2 token : procs s !! t1 = Some p1 → procs s !! t2 = Some p2 →
    tok_of (p_pc p1) = Some token → tok_of (p_pc p2) = Some token → t1 = t2;
  inv_table l k token ttl t p : table s l k = Some (token, ttl) →
    procs s !! t = Some p → tok_of (p_pc p) = Some token →
    p_locker p = l ∧ p_key p = k ∧ p_ttl p = ttl ∧ pending (p_pc p) = false;
  inv_rel t p token t' p' : procs s !! t = Some p → releasing (p_pc p) = Some token →
    procs s !! t' = Some p' → ¬ holds s p' token;
  inv_ext t p token ttl t' p' : procs s !! t = Some p → p_pc p = EEval token ttl →
    procs s !! t' = Some p' → tok_of (p_pc p') = Some token → p_ttl p' = ttl;
  inv_live t p token : procs s !! t = Some p → holds s p token → live s p token;
}.

Lemma wkey_inj k k' : wkey k = wkey k' → k = k'.
Proof.
  unfold wkey. intros H. apply (str_app_inj_len prefix _ prefix _) in H as [_ H]; [|done].
  apply (str_app_inj_len "{" _ "{" _) in H as [_ H]; [|done]. by apply str_app_inj_tail in H.
Qed.

Lemma inv_exclusive s t1 t2 p1 p2 token1 token2 :
  inv s → procs s !! t1 = Some p1 → procs s !! t2 = Some p2 → p_key p1 = p_key p2 →
  holds s p1 token1 → holds s p2 token2 →
  (now s < acq_of (p_pc p1) + p_ttl p1)%Z → (now s < acq_of (p_pc p2) + p_ttl p2)%Z → t1 = t2.
Proof.
  intros I H1 H2 Hk Ho1 Ho2 L1 L2.
  pose proof (inv_live s I t1 p1 token1 H1 Ho1 (now s) ltac:(lia)) as G1.
  pose proof (inv_live s I t2 p2 token2 H2 Ho2 (now s) ltac:(lia)) as G2.
  rewrite Hk in G1. assert (token1 = token2) as -> by congruence.
  destruct Ho1, Ho2. by eapply inv_uniq.
Qed.

(** A token drawn now is new. *)
Lemma known_fresh s token : known s token → token ≠ random (drawn s).
Proof. intros (n & Hn & ->) Heq. apply random_inj in Heq. lia. Qed.

(** *** The commands keep the holders' keys *)

(** [r'] keeps what every holder but perhaps call [t] relies on. *)
Definition keeps (s : sys) (r' : rds) : Prop :=
  ∀ t p token, procs s !! t = Some p → holds s p token →
    ∀ u, (now s ≤ u < acq_of (p_pc p) + p_ttl p)%Z → r_get u (wkey (p_key p)) r' = Some token.

Lemma keeps_refl s : inv s → keeps s (redis s).
Proof. intros I t p token Ht Hh. by apply (inv_live s I t p token). Qed.

Lemma keeps_same s r' : inv s → (∀ u k, r_get u k r' = r_get u k (redis s)) → keeps s r'.
Proof. intros I Hr t p token Ht Hh u Hu. rewrite Hr. by eapply keeps_refl. Qed.

Lemma keeps_setnx s k token ttl : inv s → (0 < ttl)%Z →
  keeps s (r_setnx (now s) k token ttl (redis s)).2.
Proof.
  intros I Httl t p tok Ht Hh u Hu. pose proof (setnx_law (now s) k token ttl (redis s) Httl) as Hlaw.
  destruct (r_setnx _ _ _ _ _) as [b r']. destruct Hlaw as (Hb & Hoth & _). simpl.
  rewrite Hoth; [by eapply keeps_refl|]. destruct (decide (wkey (p_key p) = k)) as [<-|]; [left|by right].
  rewrite Hb. apply bool_decide_false. rewrite (keeps_refl s I t p tok Ht Hh); [done|lia].
Qed.

Lemma keeps_unlock s k token t p : inv s → procs s !! t = Some p → releasing (p_pc p) = Some token →
  keeps s (unlockScript (now s) k token (redis s)).
Proof.
  intros I Ht Hrel t' p' tok Ht' Hh u Hu. unfold unlockScript.
  destruct (decide _) as [Hg|]; [|by eapply keeps_refl]. rewrite del_law.
  destruct (decide _) as [<-|]; [|by eapply keeps_refl].
  rewrite (keeps_refl s I t' p' tok Ht' Hh) in Hg by lia. injection Hg as ->.
  by destruct (inv_rel s I t p token t' p' Ht Hrel Ht').
Qed.

Lemma keeps_extend s k token ttl t p : inv s → procs s !! t = Some p → p_pc p = EEval token ttl →
  keeps s (extendScript (now s) k token ttl (redis s)).2.
Proof.
  intros I Ht Hpc t' p' tok Ht' Hh u Hu. unfold extendScript.
  destruct (decide _) as [Hg|]; simpl; [|by eapply keeps_refl].
  destruct (decide (wkey (p_key p') = k)) as [<-|Hne].
  - rewrite (keeps_refl s I t' p' tok Ht' Hh) in Hg by lia. injection Hg as ->.
    destruct (inv_tok_ext s I t p token ttl Ht Hpc) as [_ Httl]. pose proof (proj1 Hh) as Htok.
    pose proof (inv_ext s I t p token ttl t' p' Ht Hpc Ht' Htok) as Hp.
    pose proof (inv_tok s I t' p' token Ht' Htok) as [_ Hacq].
    apply pexpire_law; [done| |lia]. apply (keeps_refl s I t' p' token Ht' Hh). lia.
  - rewrite pexpire_other by done. by eapply keeps_refl.
Qed.

(** *** A step keeps the invariant *)

Section update.
Context (s : sys) (t : nat) (p : proc) (rw : RWLocker) (r' : rds) (d' : nat) (rw' : RWLocker) (pc' : pc).
Context (I : inv s) (Ht : procs s !! t = Some p) (Hrw : lockers s !! p_locker p = Some rw).
Context (Hprefix : keyPrefix rw' = keyPrefix rw) (Hdrawn : drawn s ≤ d') (Hkeeps : keeps s r').

(** The table only gains the call's own token, *)
Context (Htable : ∀ k token ttl, writeLockTokens rw' !! k = Some (token, ttl) →
  writeLockTokens rw !! k = Some (token, ttl) ∨
  k = p_key p ∧ ttl = p_ttl p ∧ tok_of pc' = Some token ∧ pending pc' = false ∧
  (tok_of (p_pc p) = Some token → pending (p_pc p) = true)).

(** which the call had already or has just drawn and set; *)
Context (Htok : ∀ token, tok_of pc' = Some token →
  tok_of (p_pc p) = Some token ∧ acq_of pc' = acq_of (p_pc p) ∧
    (pending pc' = true → pending (p_pc p) = true) ∨
  token = random (drawn s) ∧ drawn s < d' ∧ acq_of pc' = now s ∧
    ∀ u, (now s ≤ u < now s + p_ttl p)%Z → r_get u (wkey (p_key p)) r' = Some token).

(** the token the call is about to delete is its own or the one it took out of
    the table, and the one it extends is in the table. *)
Context (Hrel : ∀ token, releasing pc' = Some token →
  tok_of pc' = None ∧ (tok_of (p_pc p) = Some token ∨
  writeLockTokens rw' !! p_key p = None ∧ ∃ ttl, writeLockTokens rw !! p_key p = Some (token, ttl))).
Context (Hext : ∀ token ttl, pc' = EEval token ttl →
  writeLockTokens rw !! p_key p = Some (token, ttl)).

Let p' : proc := mkProc (p_locker p) (p_key p) (p_ttl p) pc'.
Let s' : sys := mkSys r' (now s) d' (<[p_locker p := rw']> (lockers s)) (<[t := p']> (procs s)).

Lemma up_table l k token ttl : table s' l k = Some (token, ttl) →
  table s l k = Some (token, ttl) ∨
  l = p_locker p ∧ k = p_key p ∧ ttl = p_ttl p ∧ tok_of pc' = Some token ∧ pending pc' = false ∧
  (tok_of (p_pc p) = Some token → pending (p_pc p) = true).
Proof.
  unfold table. simpl. destruct (decide (p_locker p = l)) as [<-|Hne].
  - rewrite lookup_insert_eq, Hrw. simpl. intros [?|?]%Htable; [by left|right; naive_solver].
  - rewrite lookup_insert_ne by done. by left.
Qed.

Lemma up_known token : known s token → known s' token.
Proof. intros (n & Hn & ->). exists n. simpl. split; [lia|done]. Qed.

Lemma up_old_table k x : writeLockTokens rw !! k = Some x → table s (p_locker p) k = Some x.
Proof. unfold table. by rewrite Hrw. Qed.

(** Another call's token is neither the fresh one nor the call's own. *)
Lemma up_other t2 p2 token : t ≠ t2 → procs s !! t2 = Some p2 → tok_of (p_pc p2) = Some token →
  tok_of pc' ≠ Some token.
Proof.
  intros Hne H2 T2 [(T & _)|(-> & _)]%Htok.
  - by apply Hne, (inv_uniq s I t t2 p p2 token).
  - destruct (inv_tok s I t2 p2 _ H2 T2) as [Hk _]. by apply known_fresh in Hk.
Qed.

Lemma up_holds_other t2 p2 token : t ≠ t2 → procs s !! t2 = Some p2 →
  holds s' p2 token → holds s p2 token.
Proof.
  intros Hne H2 [T2 Hh]. split; [done|]. destruct Hh as [?|(ttl & Htab)]; [by left|right].
  apply up_table in Htab as [?|(_ & _ & _ & T & _)]; [by exists ttl|].
  by destruct (up_other t2 p2 token Hne H2 T2).
Qed.

Lemma up_holds_self token : holds s' p' token → tok_of (p_pc p) = Some token → holds s p token.
Proof.
  intros [T Hh] T0. split; [done|]. simpl in *.
  destruct Hh as [Hp|(ttl & [Htab|(_ & _ & _ & _ & _ & Hp)]%up_table)]; [left|right; by exists ttl|left; auto].
  destruct (Htok token T) as [(_ & _ & Hpp)|(-> & _)]; [auto|].
  destruct (inv_tok s I t p _ Ht T0) as [Hk _]. by apply known_fresh in Hk.
Qed.

Lemma inv_update : inv s'.
Proof.
  assert (∀ q2 t2, procs s' !! t2 = Some q2 → t = t2 ∧ q2 = p' ∨ t ≠ t2 ∧ procs s !! t2 = Some q2) as Hcase.
  { intros q2 t2. simpl. destruct (decide (t = t2)) as [<-|Hne].
    - rewrite lookup_insert_eq. intros [= <-]. by left.
    - rewrite lookup_insert_ne by done. by right. }
  split.
  - intros l x. simpl. destruct (decide (p_locker p = l)) as [<-|Hne].
    + rewrite lookup_insert_eq. intros [= <-]. rewrite Hprefix. by eapply inv_prefix.
    + rewrite lookup_insert_ne by done. by apply inv_prefix.
  - intros t2 q [[<- ->]|[_ Hq]]%Hcase; simpl; by eapply inv_ttl.
  - intros t2 q token [[<- ->]|[_ Hq]]%Hcase T; simpl in *.
    + destruct (Htok token T) as [(T0 & -> & _)|(-> & Hlt & -> & _)].
      * destruct (inv_tok s I t p token Ht T0). split; [by apply up_known|done].
      * split; [|lia]. by exists (drawn s).
    + destruct (inv_tok s I t2 q token Hq T). split; [by apply up_known|done].
  - intros t2 q token [[<- ->]|[_ Hq]]%Hcase T; simpl in *; apply up_known; [|by eapply inv_tok_rel].
    destruct (Hrel token T) as (_ & [T0|(_ & ttl & Htab)]); [by eapply (inv_tok s I t)|].
    eapply (inv_tok_table s I). by apply up_old_table.
  - intros t2 q token ttl [[<- ->]|[_ Hq]]%Hcase T; simpl in *.
    + destruct (inv_tok_table s I (p_locker p) (p_key p) token ttl) as [??]; [by apply up_old_table, Hext|].
      split; [by apply up_known|done].
    + destruct (inv_tok_ext s I t2 q token ttl Hq T). split; [by apply up_known|done].
  - intros l k token ttl [Htab|(-> & -> & -> & T & _)]%up_table.
    + destruct (inv_tok_table s I l k token ttl Htab). split; [by apply up_known|done].
    + split; [|by eapply inv_ttl]. destruct (Htok token T) as [(T0 & _)|(-> & Hlt & _)].
      * apply up_known. by eapply (inv_tok s I t).
      * by exists (drawn s).
  - intros t1 t2 q1 q2 token [[<- ->]|[N1 H1]]%Hcase [[<- ->]|[N2 H2]]%Hcase T1 T2; [done| | |].
    + by destruct (up_other t2 q2 token N2 H2 T2).
    + by destruct (up_other t1 q1 token N1 H1 T1).
    + by eapply (inv_uniq s I t1 t2).
  - intros l k token ttl t2 q Htab [[<- ->]|[N2 H2]]%Hcase T2; simpl in *.
    + apply up_table in Htab as [Htab|(-> & -> & -> & _ & Hp & _)]; [|done].
      destruct (Htok token T2) as [(T0 & _ & Hpp)|(-> & _)].
      * destruct (inv_table s I l k token ttl t p Htab Ht T0) as (? & ? & ? & Hp0).
        split_and!; [done..|]. destruct (pending pc'); [|done]. rewrite Hpp in Hp0; done.
      * destruct (inv_tok_table s I l k _ ttl Htab) as [Hk _]. by apply known_fresh in Hk.
    + apply up_table in Htab as [Htab|(_ & _ & _ & T & _)]; [by eapply inv_table|].
      by destruct (up_other t2 q token N2 H2 T2).
  - intros t1 q1 token t2 q2 [[<- ->]|[N1 H1]]%Hcase T1 [[<- ->]|[N2 H2]]%Hcase Hh; simpl in *.
    + destruct (Hrel token T1) as [Hn _]. destruct Hh as [T2 _]. simpl in T2. congruence.
    + pose proof (up_holds_other t2 q2 token N2 H2 Hh) as Hh0.
      destruct (Hrel token T1) as [_ [T0|(Hnone & ttl & Htab)]].
      * apply N2, (inv_uniq s I t t2 p q2 token); try done. apply Hh0.
      * apply up_old_table in Htab.
        destruct (inv_table s I _ _ token ttl t2 q2 Htab H2 (proj1 Hh0)) as (Hl & Hk & _ & Hp).
        destruct Hh as [_ [Hp'|(ttl' & Htab')]]; [congruence|].
        unfold table in Htab'. simpl in Htab'. by rewrite Hl, Hk, lookup_insert_eq in Htab'; simplify_eq/=.
    + destruct (Htok token (proj1 Hh)) as [(T0 & _)|(-> & _)].
      * by destruct (inv_rel s I t1 q1 token t p H1 T1 Ht (up_holds_self token Hh T0)).
      * pose proof (inv_tok_rel s I t1 q1 _ H1 T1) as Hk. by apply known_fresh in Hk.
    + by destruct (inv_rel s I t1 q1 token t2 q2 H1 T1 H2 (up_holds_other t2 q2 token N2 H2 Hh)).
  - intros t1 q1 token ttl t2 q2 [[<- ->]|[N1 H1]]%Hcase T1 [[<- ->]|[N2 H2]]%Hcase T2; simpl in *.
    + by subst pc'.
    + apply (inv_table s I (p_locker p) (p_key p) token ttl t2 q2); [by apply up_old_table, Hext|done..].
    + destruct (Htok token T2) as [(T0 & _)|(-> & _)]; [by eapply (inv_ext s I t1 q1 token ttl t p)|].
      destruct (inv_tok_ext s I t1 q1 _ ttl H1 T1) as [Hk _]. by apply known_fresh in Hk.
    + by eapply (inv_ext s I t1 q1 token ttl t2 q2).
  - intros t2 q token [[<- ->]|[N2 H2]]%Hcase Hh u Hu; simpl in *.
    + destruct (Htok token (proj1 Hh)) as [(T0 & Hacq & _)|(-> & _ & Hacq & Hset)].
      * apply (Hkeeps t p token Ht (up_holds_self token Hh T0)). by rewrite <- Hacq.
      * apply Hset. by rewrite Hacq in Hu.
    + by apply (Hkeeps t2 q token H2 (up_holds_other t2 q token N2 H2 Hh)).
Qed.
End update.

Lemma allow_same now rw b rw' : allow now rw = (b, rw') →
  keyPrefix rw' = keyPrefix rw ∧ writeLockTokens rw' = writeLockTokens rw.
Proof. unfold allow. destruct (AllowRequest _ _). by intros [= <- <-]. Qed.

Lemma failed_same now e rw b rw' : failed now e rw = (b, rw') →
  keyPrefix rw' = keyPrefix rw ∧ writeLockTokens rw' = writeLockTokens rw.
Proof.
  unfold failed. destruct (isConnectionError e); [|by intros [= <- <-]].
  destruct (allow _ _) as [b0 rw0] eqn:Ha. apply allow_same in Ha as [Hp Ht]. intros [= <- <-]. done.
Qed.

Lemma reader_id_same d rw id d' rw' : getOrCreateReaderID random d rw = (id, d', rw') →
  keyPrefix rw' = keyPrefix rw ∧ writeLockTokens rw' = writeLockTokens rw ∧ d ≤ d'.
Proof. unfold getOrCreateReaderID. destruct (readerID rw); intros [= <- <- <-]; simpl; auto. Qed.

(** A step that leaves the tables alone and owns nothing new. *)
Lemma inv_quiet s t p rw r' d' rw' pc' :
  inv s → procs s !! t = Some p → lockers s !! p_locker p = Some rw →
  keyPrefix rw' = keyPrefix rw ∧ writeLockTokens rw' = writeLockTokens rw → drawn s ≤ d' → keeps s r' →
  (tok_of pc' = None ∨ tok_of pc' = tok_of (p_pc p) ∧ acq_of pc' = acq_of (p_pc p) ∧
     pending pc' = pending (p_pc p)) →
  (releasing pc' = None ∨ tok_of pc' = None ∧ releasing pc' = tok_of (p_pc p)) →
  (∀ token ttl, pc' = EEval token ttl → writeLockTokens rw !! p_key p = Some (token, ttl)) →
  inv (mkSys r' (now s) d' (<[p_locker p := rw']> (lockers s))
    (<[t := mkProc (p_locker p) (p_key p) (p_ttl p) pc']> (procs s))).
Proof.
  intros I Ht Hrw [Hp Htab] Hd Hk Htok Hrel Hext. eapply inv_update; try done.
  - intros k token ttl. rewrite Htab. by left.
  - intros token T. destruct Htok as [Hn|(Ht0 & Ha & Hpe)]; [congruence|]. left.
    split_and!; [congruence|done|congruence].
  - intros token T. destruct Hrel as [Hn|(Ht0 & Hr)]; [congruence|]. split; [done|left; congruence].
Qed.

Ltac quiet I Ht Hrw :=
  eapply inv_quiet; [exact I|exact Ht|exact Hrw|..]; simpl;
  repeat match goal with
  | H : p_pc _ = _ |- _ => rewrite H
  end; simpl; try solve [done | lia | by left | by right | tauto | by apply keeps_refl | by eapply keeps_refl].

Lemma next_attempt_plain rw attempt last :
  let p := next_attempt rw attempt last in
  tok_of p = None ∧ releasing p = None ∧ ∀ token ttl, p ≠ EEval token ttl.
Proof. unfold next_attempt. by destruct (_ <? _). Qed.

Lemma inv_Unlock_step s t p rw n o :
  inv s → procs s !! t = Some p → lockers s !! p_locker p = Some rw →
  Unlock_step (now s) n p (drawn s) (redis s) rw = Some o →
  inv (mkSys (o_redis o) (now s) (o_drawn o) (<[p_locker p := o_locker o]> (lockers s))
        (<[t := mkProc (p_locker p) (p_key p) (p_ttl p) (o_pc o)]> (procs s))).
Proof.
  intros I Ht Hrw. unfold Unlock_step. destruct (p_pc p) eqn:Hpc; try done.
  - destruct (allow (now s) rw) as [b rw1] eqn:Ha. apply allow_same in Ha as [Hp Htab].
    destruct (_ && _); [intros [= <-]; quiet I Ht Hrw|]. rewrite Htab.
    destruct (writeLockTokens rw !! p_key p) as [[token ttl]|] eqn:Hkey; intros [= <-]; [|quiet I Ht Hrw].
    apply inv_update with (rw := rw); simpl; try done; [by apply keeps_refl| |].
    + intros k tk ttl'. destruct (decide (k = p_key p)) as [->|Hne].
      * rewrite lookup_delete_eq. done.
      * rewrite lookup_delete_ne by done. by left.
    + intros tk [= <-]. split; [done|right]. rewrite lookup_delete_eq. eauto.
  - intros [= <-]. quiet I Ht Hrw. destruct (applied n); [|by apply keeps_refl].
    eapply (keeps_unlock s _ token t p); try done. by rewrite Hpc.
Qed.

Lemma inv_Extend_step s t p rw n o :
  inv s → procs s !! t = Some p → lockers s !! p_locker p = Some rw →
  Extend_step (now s) n p (drawn s) (redis s) rw = Some o →
  inv (mkSys (o_redis o) (now s) (o_drawn o) (<[p_locker p := o_locker o]> (lockers s))
        (<[t := mkProc (p_locker p) (p_key p) (p_ttl p) (o_pc o)]> (procs s))).
Proof.
  intros I Ht Hrw. unfold Extend_step. destruct (p_pc p) eqn:Hpc; try done.
  - destruct (allow (now s) rw) as [b rw1] eqn:Ha. apply allow_same in Ha as [Hp Htab].
    destruct (_ && _); [intros [= <-]; quiet I Ht Hrw|]. rewrite Htab.
    destruct (writeLockTokens rw !! p_key p) as [[token ttl]|] eqn:Hkey; intros [= <-]; quiet I Ht Hrw.
    intros tk ttl' [= <- <-]. done.
  - destruct (extendScript _ _ _ _ _) as [x r'] eqn:Hx. intros [= <-]. quiet I Ht Hrw.
    destruct (applied n); [|by apply keeps_refl].
    change r' with ((x, r').2). rewrite <- Hx. by eapply (keeps_extend s _ token ttl t p).
Qed.

Lemma inv_RLock_step s t p rw n o :
  inv s → procs s !! t = Some p → lockers s !! p_locker p = Some rw →
  RLock_step random (now s) n p (drawn s) (redis s) rw = Some o →
  inv (mkSys (o_redis o) (now s) (o_drawn o) (<[p_locker p := o_locker o]> (lockers s))
        (<[t := mkProc (p_locker p) (p_key p) (p_ttl p) (o_pc o)]> (procs s))).
Proof.
  intros I Ht Hrw. unfold RLock_step. destruct (p_pc p) eqn:Hpc; try done.
  - destruct (allow (now s) rw) as [b rw1] eqn:Ha. apply allow_same in Ha as [Hp Htab]. destruct b.
    + destruct (getOrCreateReaderID _ _ _) as [[id d'] rw2] eqn:Hid.
      apply reader_id_same in Hid as (Hp2 & Htab2 & Hd). intros [= <-]. quiet I Ht Hrw. split; congruence.
    + intros [= <-]. quiet I Ht Hrw.
  - destruct (error n).
    + destruct (failed _ _ _) as [b rw1] eqn:Ha. apply failed_same in Ha. intros [= <-]. quiet I Ht Hrw.
    + intros [= <-]. destruct (negb _); [quiet I Ht Hrw|]. destruct (_ <? _)%Z; quiet I Ht Hrw.
  - destruct (getOrCreateReaderID _ _ _) as [[id d'] rw2] eqn:Hid.
    apply reader_id_same in Hid as (Hp2 & Htab2 & Hd).
    destruct (error n); intros [= <-]; quiet I Ht Hrw; destruct (applied n);
      try (by apply keeps_refl); apply keeps_same; try done; intros; apply hset_law.
Qed.

Lemma inv_RUnlock_step s t p rw n o :
  inv s → procs s !! t = Some p → lockers s !! p_locker p = Some rw →
  RUnlock_step random (now s) n p (drawn s) (redis s) rw = Some o →
  inv (mkSys (o_redis o) (now s) (o_drawn o) (<[p_locker p := o_locker o]> (lockers s))
        (<[t := mkProc (p_locker p) (p_key p) (p_ttl p) (o_pc o)]> (procs s))).
Proof.
  intros I Ht Hrw. unfold RUnlock_step. destruct (p_pc p) eqn:Hpc; try done.
  - destruct (allow (now s) rw) as [b rw1] eqn:Ha. apply allow_same in Ha as [Hp Htab].
    destruct (_ && _); [intros [= <-]; quiet I Ht Hrw|].
    destruct (getOrCreateReaderID _ _ _) as [[id d'] rw2] eqn:Hid.
    apply reader_id_same in Hid as (Hp2 & Htab2 & Hd). intros [= <-]. quiet I Ht Hrw. split; congruence.
  - destruct (getOrCreateReaderID _ _ _) as [[id d'] rw2] eqn:Hid.
    apply reader_id_same in Hid as (Hp2 & Htab2 & Hd). intros [= <-]. quiet I Ht Hrw.
    destruct (applied n); [|by apply keeps_refl]. apply keeps_same; try done. intros; apply hdel_law.
Qed.

(** [Lock] and [TryLock] as one function. *)
Definition write_step (now : Z) (n : net) (canceled : bool) (p : proc) (d : nat) (r : rds) (rw : RWLocker) :
    option outcome :=
  let go r rw pc := Some (mkOutcome r d rw pc) in
  let key := p_key p in
  match p_pc p with
  | WStart try =>
      let '(b, rw) := allow now rw in
      go r rw (if b : bool then
                 if try || (0 <? maxAttempts rw)%nat then WSet try 0 None
                 else Returned (RErr (ErrMaxAttempts None))
               else Returned (if allowDegradedMode rw then RFallback else RErr ErrCircuitBreakerOpen))
  | WSet try attempt last =>
      if negb try && (0 <? attempt)%nat && canceled then go r rw (Returned (RErr ErrCtx)) else
      let token := random d in
      let '(b, r') := r_setnx now (writerKey rw key) token (p_ttl p) r in
      let r := if applied n then r' else r in
      let go r rw pc := Some (mkOutcome r (S d) rw pc) in
      match error n with
      | Some e =>
          let '(fallback, rw) := failed now e rw in
          go r rw (if fallback : bool then Returned RFallback
                   else if try then Returned (RErr (ErrRedis e))
                   else next_attempt rw attempt (Some (ErrRedis e)))
      | None =>
          if negb b then
            go r rw (if try then Returned RFalse else next_attempt rw attempt (Some ErrWriteLockHeld))
          else
            go r (if try then rw else set_tokens (<[key := (token, p_ttl p)]> (writeLockTokens rw)) rw)
              (WReaders try attempt token now)
      end
  | WReaders try attempt token acq =>
      match error n with
      | Some e =>
          let last := ErrRedis e in
          go r rw (WClean try attempt token (if try then Some (RErr last) else None) (Some last))
      | None =>
          let rs := r_hgetall (readersKey rw key) r in
          go r rw (WPurge try attempt token acq (dead_readers now rs) (has_readers now rs))
      end
  | WPurge try attempt token acq (id :: dead) busy =>
      go (if applied n then r_hdel (readersKey rw key) id r else r) rw
        (WPurge try attempt token acq dead busy)
  | WPurge try attempt token acq [] busy =>
      if busy then
        if try then go r rw (WClean true attempt token (Some RFalse) None)
        else if (acq + p_ttl p <? now)%Z
        then go r rw (WClean false attempt token None (Some ErrReadersTimeout))
        else go r rw (WWait attempt token acq)
      else
        let rw := if try then set_tokens (<[key := (token, p_ttl p)]> (writeLockTokens rw)) rw else rw in
        go r (succeeded rw) (WAcquired token acq)
  | WWait attempt token acq =>
      go r rw (if canceled then WClean false attempt token (Some (RErr ErrCtx)) None
               else WReaders false attempt token acq)
  | WClean try attempt token ret last =>
      let rw := if try then rw else set_tokens (delete key (writeLockTokens rw)) rw in
      go (if applied n then unlockScript now (writerKey rw key) token r else r) rw
        (match ret with Some x => Returned x | None => next_attempt rw attempt last end)
  | _ => None
  end.

Lemma write_step_eq now n canceled p d r rw :
  write_step now n canceled p d r rw =
    match p_pc p with
    | WStart true | WSet true _ _ | WReaders true _ _ _ | WPurge true _ _ _ _ _ | WClean true _ _ _ _ =>
        TryLock_step random now n p d r rw
    | _ => Lock_step random now n canceled p d r rw
    end.
Proof.
  unfold write_step, TryLock_step, Lock_step.
  destruct (p_pc p) as [[]|[] ? ?|[] ? ? ?|[] ? ? ? [] []|? ? ?|[] ? ? ? ?| | | | | | | | | | | |]; try done; simpl;
    repeat (case_match; simplify_eq/=; try done).
Qed.

Lemma inv_write_step s t p rw n canceled o :
  inv s → procs s !! t = Some p → lockers s !! p_locker p = Some rw →
  write_step (now s) n canceled p (drawn s) (redis s) rw = Some o →
  inv (mkSys (o_redis o) (now s) (o_drawn o) (<[p_locker p := o_locker o]> (lockers s))
        (<[t := mkProc (p_locker p) (p_key p) (p_ttl p) (o_pc o)]> (procs s))).
Proof.
  intros I Ht Hrw. pose proof (inv_prefix s I _ _ Hrw) as Hpre.
  pose proof (inv_ttl s I t p Ht) as Httl.
  unfold write_step. destruct (p_pc p) as [try|try attempt last|try attempt token acq
    |try attempt token acq [|id dead] busy|attempt token acq|try attempt token ret last| | | | | | | | | | | |] eqn:Hpc;
    try done.
  - destruct (allow (now s) rw) as [b rw1] eqn:Ha. apply allow_same in Ha as [Hp Htab].
    intros [= <-]. destruct b; [destruct (_ || _)|]; quiet I Ht Hrw.
  - destruct (_ && _); [intros [= <-]; quiet I Ht Hrw|].
    pose proof (keeps_setnx s (writerKey rw (p_key p)) (random (drawn s)) (p_ttl p) I Httl) as Hk.
    pose proof (setnx_law (now s) (writerKey rw (p_key p)) (random (drawn s)) (p_ttl p) (redis s) Httl) as Hlaw.
    destruct (r_setnx _ _ _ _ _) as [b r'] eqn:Hset. simpl in Hk.
    assert (keeps s (if applied n then r' else redis s)) as Hk' by (destruct (applied n); [done|by apply keeps_refl]).
    destruct (error n) as [e|] eqn:Herr.
    { destruct (failed _ _ _) as [b0 rw1] eqn:Ha. apply failed_same in Ha.
      destruct (next_attempt_plain rw1 attempt (Some (ErrRedis e))) as (H1 & H2 & H3).
      intros [= <-]. destruct b0; [|destruct try]; quiet I Ht Hrw. by intros ?? ?%H3. }
    destruct b; simpl.
    2:{ destruct (next_attempt_plain rw attempt (Some ErrWriteLockHeld)) as (H1 & H2 & H3).
        intros [= <-]. destruct try; quiet I Ht Hrw. by intros ?? ?%H3. }
    assert (applied n = true) as -> by (by destruct n). intros [= <-]. simpl.
    apply inv_update with (rw := rw); simpl; try done; [by destruct try|lia| |].
    + destruct try; simpl; [by left|]. intros k tk ttl. destruct (decide (k = p_key p)) as [->|Hne].
      * rewrite lookup_insert_eq. intros [= <- <-]. right. split_and!; try done. by rewrite Hpc.
      * rewrite lookup_insert_ne by done. by left.
    + intros tk [= <-]. right. split_and!; [done|lia|done|]. intros u Hu.
      unfold wkey. rewrite <- Hpre. by apply Hlaw.
  - destruct (error n); intros [= <-]; quiet I Ht Hrw.
  - destruct busy.
    + destruct try; [|destruct (_ <? _)%Z]; intros [= <-]; quiet I Ht Hrw.
    + intros [= <-]. simpl. apply inv_update with (rw := rw); simpl; try done; [by destruct try|by apply keeps_refl|..].
      * destruct try; simpl; [|by left]. intros k tk ttl. destruct (decide (k = p_key p)) as [->|Hne].
        -- rewrite lookup_insert_eq. intros [= <- <-]. right. rewrite Hpc. done.
        -- rewrite lookup_insert_ne by done. by left.
      * intros tk [= <-]. left. by rewrite Hpc.
  - intros [= <-]. quiet I Ht Hrw.
    destruct (applied n); [|by apply keeps_refl]. apply keeps_same; try done. intros; apply hdel_law.
  - intros [= <-]. destruct canceled; quiet I Ht Hrw.
  - intros [= <-].
    set (pc' := match ret with Some x => _ | None => _ end).
    assert (tok_of pc' = None ∧ releasing pc' = None ∧ ∀ tk ttl, pc' ≠ EEval tk ttl) as (H1 & H2 & H3).
    { unfold pc'. destruct ret; [done|apply next_attempt_plain]. }
    apply inv_update with (rw := rw); simpl; try done; [by destruct try| | |congruence|congruence|].
    + destruct (applied n); [|by apply keeps_refl].
      eapply (keeps_unlock s _ token t p); try done. by rewrite Hpc.
    + destruct try; simpl; [by left|]. intros k tk ttl [_ ?]%lookup_delete_Some. by left.
    + intros ?? ?%H3. done.
Qed.

Lemma rw_inv_event s e s' : inv s → apply_event random e s = Some s' → inv s'.
Proof.
  intros I. destruct e as [ms|t l key ttl pc|t n canceled]; simpl.
  - destruct (0 <=? ms)%Z eqn:Hms; [|done]. intros [= <-]. apply Z.leb_le in Hms.
    destruct I as [i1 i2 i3 i4 i5 i6 i7 i8 i9 i10 i11].
    constructor; [exact i1|exact i2| |exact i4|exact i5|exact i6|exact i7|exact i8|exact i9|exact i10|].
    + intros t p token Ht T. destruct (i3 t p token Ht T). split; [done|]. simpl. lia.
    + intros t p token Ht Hh u Hu. simpl in Hu. apply (i11 t p token Ht Hh). lia.
  - destruct (procs s !! t) eqn:Ht; [done|]. destruct (entry pc) eqn:He; [|done].
    destruct (0 <? ttl)%Z eqn:Httl; [|done]. intros [= <-]. apply Z.ltb_lt in Httl.
    assert (tok_of pc = None ∧ releasing pc = None ∧ ∀ tk ttl, pc ≠ EEval tk ttl) as (H1 & H2 & H3)
      by (by destruct pc).
    set (p := mkProc l key ttl pc).
    assert (∀ q t2, <[t := p]> (procs s) !! t2 = Some q → t = t2 ∧ q = p ∨ t ≠ t2 ∧ procs s !! t2 = Some q) as Hc.
    { intros q t2. destruct (decide (t = t2)) as [<-|Hne].
      - rewrite lookup_insert_eq. intros [= <-]. by left.
      - rewrite lookup_insert_ne by done. by right. }
    destruct I as [i1 i2 i3 i4 i5 i6 i7 i8 i9 i10 i11]. constructor; simpl.
    + exact i1.
    + intros t2 q [[<- ->]|[_ ?]]%Hc; eauto.
    + intros t2 q tk [[<- ->]|[_ ?]]%Hc T; [simpl in T; congruence|eauto].
    + intros t2 q tk [[<- ->]|[_ ?]]%Hc T; [simpl in T; congruence|by eapply i4].
    + intros t2 q tk tl [[<- ->]|[_ ?]]%Hc T; [by destruct (H3 tk tl)|by eapply i5].
    + exact i6.
    + intros t1 t2 q1 q2 tk [[<- ->]|[_ ?]]%Hc [[<- ->]|[_ ?]]%Hc T1 T2; simpl in *; [done|congruence..|eauto].
    + intros l' k tk tl t2 q Htb [[<- ->]|[_ ?]]%Hc T; [simpl in T; congruence|by eapply i8].
    + intros t1 q1 tk t2 q2 [[<- ->]|[_ ?]]%Hc T [[<- ->]|[_ ?]]%Hc Hh; try (simpl in T; congruence).
      * destruct Hh as [T2 _]. simpl in T2. congruence.
      * by apply (i9 t1 q1 tk t2 q2).
    + intros t1 q1 tk tl t2 q2 [[<- ->]|[_ ?]]%Hc T [[<- ->]|[_ ?]]%Hc T2;
        try (by destruct (H3 tk tl)); [simpl in T2; congruence|by apply (i10 t1 q1 tk tl t2 q2)].
    + intros t2 q tk [[<- ->]|[_ ?]]%Hc Hh; [destruct Hh as [T _]; simpl in T; congruence|by apply (i11 t2)].
  - intros (p & Ht & (rw & Hrw & (o & Ho & [= <-])%bind_Some)%bind_Some)%bind_Some.
    unfold call_step in Ho.
    destruct (p_pc p) eqn:Hpc; try done;
      first [ by eapply inv_Unlock_step | by eapply inv_Extend_step | by eapply inv_RLock_step
            | by eapply inv_RUnlock_step
            | eapply (inv_write_step s t p rw n canceled o); try done; rewrite write_step_eq, Hpc; exact Ho ].
Qed.

Lemma rw_inv_events es s s' : inv s → run_events random es s = Some s' → inv s'.
Proof.
  revert s. induction es as [|e es IH]; simpl; intros s I Hrun; [by simplify_eq|].
  apply bind_Some in Hrun as (s1 & Hs1 & Hrun). apply (IH s1); [by eapply rw_inv_event|done].
Qed.
End exclusive.

(** Fresh lockers with one prefix, and an arbitrary Redis. *)
Definition start `{R : Redis} (prefix : string) (s : sys) : Prop :=
  procs s = ∅ ∧ ∀ l rw, lockers s !! l = Some rw → keyPrefix rw = prefix ∧ writeLockTokens rw = ∅.

Lemma rw_inv_start `{R : Redis} random prefix (s : sys) : start prefix s → inv random prefix s.
Proof.
  intros [Hp Hl].
  assert (∀ l k, table s l k = None) as Ht.
  { intros l k. unfold table. destruct (lockers s !! l) as [rw|] eqn:Hrw; [|done].
    simpl. by rewrite (proj2 (Hl l rw Hrw)), lookup_empty. }
  split; try (intros *; rewrite Hp, lookup_empty; done); try (intros *; rewrite Ht; done).
  intros l rw Hrw. by apply (Hl l rw).
Qed.

(** C15. A write lock is exclusive for its TTL while its locker knows it: over any number
    of lockers that share a prefix, with lost commands and lost replies, calls in any
    order, also unlocks and extensions by others, open breakers and degraded mode, two
    calls that acquired the Redis lock of one key, whose TTL has not passed and whose
    lockers still have their tokens of the key, are the same call, and the writer key
    holds its token until then.  A locker keeps one token per key: an [Unlock] of the key
    on its own replica, be it a former holder's late one, drops it and with it the
    exclusion ([late_unlock_drops_successor]). *)
Theorem write_lock_exclusive {R : Redis} {RL : RedisLaws R} (random : nat → string)
    (Hrandom : Inj (=) (=) random) (prefix : string) (es : list event) (s0 s : sys)
    (t1 t2 l1 l2 : nat) (key token1 token2 : string) (ttl1 ttl2 acq1 acq2 : Z) :
  start prefix s0 → run_events random es s0 = Some s →
  procs s !! t1 = Some (mkProc l1 key ttl1 (WAcquired token1 acq1)) →
  procs s !! t2 = Some (mkProc l2 key ttl2 (WAcquired token2 acq2)) →
  table s l1 key = Some (token1, ttl1) → table s l2 key = Some (token2, ttl2) →
  (now s < acq1 + ttl1)%Z → (now s < acq2 + ttl2)%Z →
  t1 = t2 ∧ ∀ u, (now s ≤ u < acq1 + ttl1)%Z → r_get u (wkey prefix key) (redis s) = Some token1.
Proof.
  intros Hs Hrun H1 H2 T1 T2 L1 L2.
  pose proof (rw_inv_events random prefix es s0 s (rw_inv_start random prefix s0 Hs) Hrun) as I.
  assert (holds s (mkProc l1 key ttl1 (WAcquired token1 acq1)) token1) as Ho1 by (split; eauto).
  assert (holds s (mkProc l2 key ttl2 (WAcquired token2 acq2)) token2) as Ho2 by (split; eauto).
  split; [by eapply (inv_exclusive random prefix s t1 t2)|].
  intros u Hu. by apply (inv_live random prefix s I t1 _ token1 H1 Ho1).
Qed.

(** ** Traces on a concrete Redis *)

(** String keys with their expiry, and hashes. *)
Record memory := mkMemory {
  strings : gmap string (string * Z);
  hashes : gmap string (gmap string (option Z));
}.

Definition mem_get (t : Z) (k : string) (m : memory) : option string :=
  match strings m !! k with
  | Some (v, e) => if (t <? e)%Z then Some v else None
  | None => None
  end.

#[local] Instance memory_redis : Redis := {
  rds := memory;
  r_get := mem_get;
  r_setnx now k v ttl m :=
    match mem_get now k m with
    | None => (true, mkMemory (<[k := (v, now + ttl)%Z]> (strings m)) (hashes m))
    | Some _ => (false, m)
    end;
  r_del k m := mkMemory (delete k (strings m)) (hashes m);
  r_pexpire now k ttl m :=
    match mem_get now k m with
    | Some v => mkMemory (<[k := (v, now + ttl)%Z]> (strings m)) (hashes m)
    | None => m
    end;
  r_exists now k m := match mem_get now k m with Some _ => true | None => false end;
  r_hgetall k m := default ∅ (hashes m !! k);
  r_hset k f v m := mkMemory (strings m) (<[k := <[f := v]> (default ∅ (hashes m !! k))]> (hashes m));
  r_hdel k f m := mkMemory (strings m) (<[k := delete f (default ∅ (hashes m !! k))]> (hashes m));
}.

Lemma mem_get_insert t k k' v e m h : mem_get t k' (mkMemory (<[k := (v, e)]> (strings m)) h) =
  if decide (k' = k) then (if (t <? e)%Z then Some v else None) else mem_get t k' m.
Proof.
  unfold mem_get. simpl. destruct (decide (k' = k)) as [->|Hne].
  - by rewrite lookup_insert_eq.
  - by rewrite lookup_insert_ne.
Qed.

#[local] Instance memory_laws : RedisLaws memory_redis.
Proof.
  split; simpl.
  - intros now k v ttl s Httl. destruct (mem_get now k s) eqn:Hg.
    + split_and!; done.
    + split_and!; [done| |].
      * intros t k' [?|?]; [done|]. rewrite mem_get_insert. by destruct (decide _).
      * intros _ t Ht. rewrite mem_get_insert, decide_True, (proj2 (Z.ltb_lt _ _)) by (done || lia). done.
  - intros t k k' s. unfold mem_get. simpl. destruct (decide _) as [->|].
    + by rewrite lookup_delete_eq.
    + by rewrite lookup_delete_ne.
  - intros now k ttl s t v _ -> Ht.
    rewrite mem_get_insert, decide_True, (proj2 (Z.ltb_lt _ _)) by (done || lia). done.
  - intros now k ttl s t k' Hne. destruct (mem_get now k s); [|done].
    rewrite mem_get_insert. by destruct (decide _).
  - intros now k s. by destruct (mem_get now k s).
  - done.
  - done.
Defined.

Definition sample_locker : RWLocker := mkRWLocker "ncps:lock:" 3 false None (New 5 minute) ∅.

(** Two replicas. *)
Definition two_lockers : @sys memory_redis :=
  mkSys (mkMemory ∅ ∅) 1000 0 {[0 := sample_locker; 1 := sample_locker]} ∅.

Definition steps (t n : nat) : list event := replicate n (EStep t NOk false).

Definition run_two (es : list event) : option (@sys memory_redis) :=
  run_events (R := memory_redis) pretty es two_lockers.

(** The calls that returned with a lock, writers and readers. *)
Definition acquired (s : @sys memory_redis) : list (nat * bool) :=
  omap (λ x, match p_pc x.2 with
             | WAcquired _ _ => Some (x.1, true)
             | RAcquired => Some (x.1, false)
             | _ => None
             end) (map_to_list (procs s)).

Definition trace_locks : list event :=
  ECall 0 0 "k" 5000 (WStart false) :: steps 0 4 ++ [ECall 1 1 "k" 5000 (WStart true)] ++ steps 1 2 ++
  [ETick 1000; ECall 2 0 "k" 1 EStart] ++ steps 2 2 ++ [ETick 3500].

Lemma write_lock_exclusive_witness :
  ∃ s, run_two trace_locks = Some s ∧ acquired s = [(0, true)] ∧
    r_get (now s) "ncps:lock:{k}:writer" (redis s) = Some "0".
Proof.
  destruct (run_two trace_locks) as [s|] eqn:Hrun.
  2:{ assert (option_map (λ _, ()) (run_two trace_locks) = Some ()) as Ha by (vm_compute; reflexivity).
      by rewrite Hrun in Ha. }
  assert (option_map (λ s, (acquired s, now s, procs s !! 0, table s 0 "k")) (run_two trace_locks) =
    Some ([(0, true)], 5500%Z, Some (mkProc 0 "k" 5000 (WAcquired "0" 1000)), Some ("0", 5000%Z))) as Ha
    by (vm_compute; reflexivity).
  rewrite Hrun in Ha. injection Ha as Ha Hnow Hp Ht.
  exists s. split; [reflexivity|]. split; [exact Ha|].
  assert (now s < 1000 + 5000)%Z as Hlt by (rewrite Hnow; reflexivity).
  assert (start "ncps:lock:" two_lockers) as Hstart.
  { split; [reflexivity|]. intros l rw Hl. unfold two_lockers in Hl. cbn [lockers] in Hl.
    apply lookup_insert_Some in Hl as [[_ <-]|[_ Hl]]; [split; reflexivity|].
    apply lookup_singleton_Some in Hl as [_ <-]. split; reflexivity. }
  unfold run_two in Hrun.
  destruct (write_lock_exclusive (RL := memory_laws) pretty _ "ncps:lock:" trace_locks two_lockers s
    0 0 0 0 "k" "0" "0" 5000 5000 1000 1000 Hstart Hrun Hp Hp Ht Ht Hlt Hlt) as [_ Hlive].
  apply (Hlive (now s)). lia.
Defined.

(** A read lock does not exclude a write lock: [RLock] checks for a writer
    and registers its reader in two commands; a writer that locks in between
    sees no reader, and both calls return with the lock. *)
Theorem rlock_races_with_lock :
  acquired <$> run_two (ECall 0 0 "k" 5000 RStart :: steps 0 2 ++
    [ECall 1 1 "k" 5000 (WStart false)] ++ steps 1 4 ++ steps 0 1) = Some [(1, true); (0, false)].
Proof. vm_compute. reflexivity. Qed.

(** The readers of one replica share one reader identifier, so the first of
    them to unlock removes the registration of all: a writer then acquires the
    lock while another call still holds its read lock. *)
Theorem shared_reader_id_loses_readers :
  acquired <$> run_two (
    [ECall 0 0 "k" 5000 RStart] ++ steps 0 3 ++ [ECall 1 0 "k" 5000 RStart] ++ steps 1 3 ++
    [ECall 2 0 "k" 5000 RUStart] ++ steps 2 2 ++
    [ECall 3 1 "k" 5000 (WStart true)] ++ steps 3 4) = Some [(3, true); (1, false); (0, false)].
Proof. vm_compute. reflexivity. Qed.

(** The Unlock of a call whose TTL has passed drops the token of the call of the same
    replica that acquired the lock since, and releases its lock: another replica then
    acquires it within that call's TTL. *)
Theorem late_unlock_drops_successor :
  acquired <$> run_two (
    [ECall 0 0 "k" 5000 (WStart false)] ++ steps 0 4 ++ [ETick 6000; ECall 1 0 "k" 5000 (WStart false)] ++ steps 1 4 ++
    [ETick 1; ECall 2 0 "k" 5000 UStart] ++ steps 2 2 ++ [ECall 3 1 "k" 5000 (WStart true)] ++ steps 3 4) =
  Some [(3, true); (1, true); (0, true)].
Proof. vm_compute. reflexivity. Qed.
