(* ===== verification/Redlock.v ===== *)
(** * Package [pkg/lock/redis]: the exclusive locker

    Several [Locker]s (one per replica) take keyed locks in one Redis through the
    redsync library, an interface here; each falls back to its own in-process
    locker when its circuit breaker is open and degraded mode is allowed.  Times
    are in milliseconds.  Then the calls of all replicas run step by step. *)
From S2P Require Import LocalLock RedisLock.
From S2P Require Import Prelude GoStd CircuitBreaker.

(** ** The interface of redsync *)

(** [redsync.ErrFailed], or another error with its text. *)
Inductive rs_err := RsFailed | RsErr (errStr : string).

(** A majority of a list of nodes. *)
Definition quorum (n : nat) : nat := n / 2 + 1.

Definition majority (P : nat → bool) (ps : list nat) : bool := (quorum (length ps) <=? length (List.filter P ps))%nat.

(** Each majority of the ones meets each majority of the others. *)
Definition agree (ps qs : list nat) : Prop :=
  ∀ P Q, majority P ps = true → majority Q qs = true → ∃ n, P n = true ∧ Q n = true.

(** A [redsync.Redsync] speaks to its own pools, the nodes [ps] that its locker reached
    when it was made, out of those that all share.  A mutex has a random value, here a
    number; [token_at qs t] is the value that a majority of the nodes [qs] has under a
    name at time [t] if nothing more is done.  Unlocking and extending tell whether they
    did. *)
Class Redsync := {
  rst : Type;
  token_at : list nat → Z → string → rst → option nat;
  rs_lock : list nat → Z → string → nat → Z → rst → result rs_err unit * rst;
  rs_unlock : list nat → Z → string → nat → rst → bool * rst;
  rs_extend : list nat → Z → string → nat → Z → rst → bool * rst;
}.

(** What the algorithm promises.  Nothing happens to other names.  Where a majority of
    [qs] has another value, unlocking, and an attempt or an extension that fails, leave it
    that value; an attempt or an extension cannot succeed on nodes [ps] whose majorities
    meet those of [qs].  What is granted or extended is a majority of the own nodes for
    its time to live; an extension that fails may have prolonged it. *)
Class RedsyncLaws (R : Redsync) := {
  lock_law ps now k v ttl s :
    let '(r, s') := rs_lock ps now k v ttl s in
    (∀ qs t k', k' ≠ k → token_at qs t k' s' = token_at qs t k' s) ∧
    (∀ qs v', agree ps qs → token_at qs now k s = Some v' → v' ≠ v →
       is_ok r = false ∧ ∀ t, (now ≤ t)%Z → token_at qs t k s' = token_at qs t k s) ∧
    (is_ok r = true → ∀ t, (now ≤ t < now + ttl)%Z → token_at ps t k s' = Some v);
  unlock_law ps now k v s :
    let '(_, s') := rs_unlock ps now k v s in
    (∀ qs t k', k' ≠ k → token_at qs t k' s' = token_at qs t k' s) ∧
    (∀ qs v', token_at qs now k s = Some v' → v' ≠ v → ∀ t, (now ≤ t)%Z → token_at qs t k s' = token_at qs t k s);
  extend_law ps now k v ttl s :
    let '(b, s') := rs_extend ps now k v ttl s in
    (∀ qs t k', k' ≠ k → token_at qs t k' s' = token_at qs t k' s) ∧
    (∀ qs v', agree ps qs → token_at qs now k s = Some v' → v' ≠ v →
       b = false ∧ ∀ t, (now ≤ t)%Z → token_at qs t k s' = token_at qs t k s) ∧
    (∀ t, (now ≤ t < now + ttl)%Z → token_at ps t k s' = token_at ps t k s ∨ token_at ps t k s' = Some v) ∧
    (b = true → ∀ t, (now ≤ t < now + ttl)%Z → token_at ps t k s' = Some v);
}.

(** *** Majorities *)

Lemma majority_mono (P Q : nat → bool) ps : (∀ n, n ∈ ps → P n = true → Q n = true) → majority P ps = true → majority Q ps = true.
Proof.
  intros HPQ Hm%Nat.leb_le. apply Nat.leb_le. etrans; [exact Hm|]. clear Hm.
  induction ps as [|n ps IH]; simpl; [done|]. specialize (IH (λ m Hm, HPQ m (list_elem_of_further _ _ _ Hm))).
  specialize (HPQ n (list_elem_of_here _ _)). destruct (P n); [rewrite HPQ by done; simpl; lia|].
  destruct (Q n); simpl; lia.
Qed.

Lemma majority_ext (P Q : nat → bool) ps : (∀ n, P n = Q n) → majority P ps = majority Q ps.
Proof. intros HPQ. apply eq_true_iff_eq. split; apply majority_mono; intros n _; by rewrite HPQ. Qed.

Lemma majority_some (P : nat → bool) ps : majority P ps = true → ∃ n, n ∈ ps ∧ P n = true.
Proof.
  intros Hm%Nat.leb_le. destruct (List.filter P ps) as [|n l] eqn:Hf; [unfold quorum in Hm; simpl in Hm; lia|].
  assert (In n (List.filter P ps)) as Hn by (rewrite Hf; by left). apply filter_In in Hn as [Hn HP].
  exists n. split; [by apply list_elem_of_In|done].
Qed.

Lemma filters_disjoint (P Q : nat → bool) ps :
  existsb (λ n, P n && Q n) ps = false → length (List.filter P ps) + length (List.filter Q ps) ≤ length ps.
Proof.
  induction ps as [|n ps IH]; simpl; [done|]. intros [Hn Hps]%orb_false_iff. specialize (IH Hps).
  destruct (P n), (Q n); simpl in *; [done|lia..].
Qed.

(** Two majorities of the same nodes meet, and so do majorities that make up more than
    all the nodes there are. *)
Lemma agree_same ps : agree ps ps.
Proof.
  intros P Q HP%Nat.leb_le HQ%Nat.leb_le. destruct (existsb (λ n, P n && Q n) ps) eqn:He.
  - apply existsb_exists in He as (n & _ & [HPn HQn]%andb_true_iff). by exists n.
  - apply filters_disjoint in He. unfold quorum in *. pose proof (Nat.div_mod_eq (length ps) 2). pose proof (Nat.mod_upper_bound (length ps) 2). lia.
Qed.

Lemma agree_overlap all ps qs :
  NoDup ps → NoDup qs → ps ⊆ all → qs ⊆ all → length all < quorum (length ps) + quorum (length qs) → agree ps qs.
Proof.
  intros Hps Hqs Hpa Hqa Hlen P Q HP%Nat.leb_le HQ%Nat.leb_le. destruct (existsb Q (List.filter P ps)) eqn:He.
  - apply existsb_exists in He as (n & [_ HPn]%filter_In & HQn). by exists n.
  - exfalso. assert (NoDup (List.filter P ps ++ List.filter Q qs)) as Hnd.
    { apply NoDup_app. split; [by apply NoDup_ListNoDup, List.NoDup_filter, NoDup_ListNoDup|]. split.
      - intros n Hn Hq. apply list_elem_of_In in Hn, Hq. apply filter_In in Hq as [_ HQn].
        assert (existsb Q (List.filter P ps) = true) by (apply existsb_exists; by exists n). congruence.
      - by apply NoDup_ListNoDup, List.NoDup_filter, NoDup_ListNoDup. }
    assert (List.filter P ps ++ List.filter Q qs ⊆ all) as Hsub.
    { intros n [Hn|Hn]%elem_of_app; apply list_elem_of_In, filter_In in Hn as [Hn _]; apply list_elem_of_In in Hn; auto. }
    pose proof (submseteq_length _ _ (NoDup_submseteq _ _ Hnd Hsub)) as Hle. rewrite length_app in Hle. lia.
Qed.

(** ** The locker *)

Inductive redis_err :=
  | ErrNoRedisAddrs
  | ErrInsufficientNodesQuorum (connected required : nat)
  | ErrCircuitBreakerOpen
  | ErrCtx
  | ErrAcquire (e : rs_err)
  | ErrMaxAttempts (last : option rs_err)
  | ErrExtend
  | ErrFallback (e : lock_error).

(** [nodes]: the nodes that answered at the start, redsync's pools; a mutex in
    [mutexes] is its value and its time to live. *)
Record Locker := mkLocker {
  nodes : list nat;
  keyPrefix : string;
  maxAttempts : nat;
  allowDegradedMode : bool;
  mutexes : gmap string (nat * Z);
  fallbackLocker : LocalLock.Locker bool;
  circuitBreaker : CircuitBreaker;
}.

Definition set_breaker (cb : CircuitBreaker) (l : Locker) : Locker :=
  mkLocker (nodes l) (keyPrefix l) (maxAttempts l) (allowDegradedMode l) (mutexes l) (fallbackLocker l) cb.
Definition set_mutexes (ms : gmap string (nat * Z)) (l : Locker) : Locker :=
  mkLocker (nodes l) (keyPrefix l) (maxAttempts l) (allowDegradedMode l) ms (fallbackLocker l) (circuitBreaker l).
Definition set_fallback (fb : LocalLock.Locker bool) (l : Locker) : Locker :=
  mkLocker (nodes l) (keyPrefix l) (maxAttempts l) (allowDegradedMode l) (mutexes l) fb (circuitBreaker l).

(** [pings]: for each configured address, whether its node answered. *)
Definition NewLocker (pings : list bool) (cfg_KeyPrefix : string) (attempts : nat)
    (degraded : bool) (now : Z) : result redis_err Locker :=
  if bool_decide (pings = []) then Err ErrNoRedisAddrs else
  let prefix := if bool_decide (cfg_KeyPrefix = "") then "ncps:lock:" else cfg_KeyPrefix in
  let connected := (filter (λ ib, ib.2 = true) (imap pair pings)).*1 in
  let cb := New 5 minute in
  if (length connected <? quorum (length pings))%nat then
    if degraded
    then Ok (mkLocker connected prefix attempts true ∅ LocalLock.NewLocker (ForceOpen now cb))
    else Err (ErrInsufficientNodesQuorum (length connected) (quorum (length pings)))
  else Ok (mkLocker connected prefix attempts degraded ∅ LocalLock.NewLocker cb).

Definition isLockAlreadyTakenError (errStr : string) : bool :=
  contains errStr "lock already taken" || contains errStr "already taken".

Definition taken (e : rs_err) : bool :=
  match e with RsFailed => true | RsErr errStr => isLockAlreadyTakenError errStr end.

(** The text of [ErrFailed] tells of no connection. *)
Definition disconnected (e : rs_err) : bool :=
  match e with RsFailed => false | RsErr errStr => isConnectionError errStr end.

(** [circuitBreaker.AllowRequest()] *)
Definition allow (now : Z) (l : Locker) : bool * Locker :=
  let '(b, cb) := AllowRequest now (circuitBreaker l) in (b, set_breaker cb l).

(** After a connection error: whether the call goes on with the fallback locker. *)
Definition conn_failed (now : Z) (l : Locker) : bool * Locker :=
  let '(b, l) := allow now (set_breaker (RecordFailure now (circuitBreaker l)) l) in
  (negb b && allowDegradedMode l, l).

Section redlock.
Context {R : Redsync}.

Definition st : Type := Locker * rst.

(** How one attempt ends. *)
Inductive attempt_end := AGranted | ARetry (e : rs_err) | AFallback | AFail (e : rs_err).

Definition granted (key : string) (v : nat) (ttl : Z) (l : Locker) : Locker :=
  set_breaker (RecordSuccess (circuitBreaker l)) (set_mutexes (<[key := (v, ttl)]> (mutexes l)) l).

(** One round of [Lock]'s loop, from [NewMutex] on. *)
Definition lock_attempt (now : Z) (key : string) (v : nat) (ttl : Z) (s : st) : attempt_end * st :=
  let '(l, r) := s in
  match rs_lock (nodes l) now (keyPrefix l +:+ key) v ttl r with
  | (Ok _, r) => (AGranted, (granted key v ttl l, r))
  | (Err e, r) =>
      let '(fallback, l) := if disconnected e then conn_failed now l else (false, l) in
      (if (fallback : bool) then AFallback else if taken e then ARetry e else AFail e, (l, r))
  end.

(** The same part of [TryLock]. *)
Definition try_attempt (now : Z) (key : string) (v : nat) (ttl : Z) (s : st) : attempt_end * st :=
  let '(l, r) := s in
  match rs_lock (nodes l) now (keyPrefix l +:+ key) v ttl r with
  | (Ok _, r) => (AGranted, (granted key v ttl l, r))
  | (Err e, r) =>
      if taken e then (ARetry e, (l, r)) else
      let '(fallback, l) := if disconnected e then conn_failed now l else (false, l) in
      (if (fallback : bool) then AFallback else AFail e, (l, r))
  end.

(** The call returns, or blocks for ever on the in-process mutex. *)
Inductive lock_res := LDone (r : result redis_err unit) | LBlocked.

Definition fallback_lock (now : Z) (key : string) (s : st) : lock_res * st :=
  match LocalLock.Lock now key (fallbackLocker s.1) with
  | Some fb => (LDone (Ok ()), (set_fallback fb s.1, s.2))
  | None => (LBlocked, s)
  end.

(** A round's surroundings: what others do to the locker and to Redis during the
    back-off, whether the context ends in it, the time, and the mutex's value. *)
Record round := mkRound {
  meanwhile : st → st;
  canceled : bool;
  time : Z;
  value : nat;
}.

(** The first round has no back-off. *)
Definition back_off (n : nat) (e : round) (s : st) : st :=
  match n with 0 => s | S _ => meanwhile e s end.

(** The loop from attempt [n] on, with [fuel] attempts left. *)
Fixpoint attempts (fuel n : nat) (env : nat → round) (key : string) (ttl : Z)
    (lastErr : option rs_err) (s : st) : lock_res * st :=
  match fuel with
  | 0 => (LDone (Err (ErrMaxAttempts lastErr)), s)
  | S fuel =>
      let e := env n in
      let s := back_off n e s in
      if negb (bool_decide (n = 0)) && canceled e then (LDone (Err ErrCtx), s) else
      match lock_attempt (time e) key (value e) ttl s with
      | (AGranted, s) => (LDone (Ok ()), s)
      | (ARetry err, s) => attempts fuel (S n) env key ttl (Some err) s
      | (AFallback, s) => fallback_lock (time e) key s
      | (AFail err, s) => (LDone (Err (ErrAcquire err)), s)
      end
  end.

Definition Lock (now : Z) (env : nat → round) (key : string) (ttl : Z) (s : st) : lock_res * st :=
  let '(allowed, l) := allow now s.1 in
  if negb allowed then
    if allowDegradedMode l then fallback_lock now key (l, s.2)
    else (LDone (Err ErrCircuitBreakerOpen), (l, s.2))
  else attempts (maxAttempts l) 0 env key ttl None (l, s.2).

Definition Unlock (now : Z) (key : string) (s : st) : result redis_err unit * st :=
  let '(allowed, l) := allow now s.1 in
  if negb allowed && allowDegradedMode l then
    match LocalLock.Unlock key (fallbackLocker l) with
    | Ok fb => (Ok (), (set_fallback fb l, s.2))
    | Err e => (Err (ErrFallback e), (l, s.2))
    end
  else
    let m := mutexes l !! key in
    let l := set_mutexes (delete key (mutexes l)) l in
    match m with
    | None => (Ok (), (l, s.2))
    | Some (v, _) => (Ok (), (l, (rs_unlock (nodes l) now (keyPrefix l +:+ key) v s.2).2))
    end.

Definition Extend (now : Z) (key : string) (s : st) : result redis_err unit * st :=
  let '(allowed, l) := allow now s.1 in
  if negb allowed && allowDegradedMode l then
    match LocalLock.Extend key (fallbackLocker l) with
    | Ok fb => (Ok (), (set_fallback fb l, s.2))
    | Err e => (Err (ErrFallback e), (l, s.2))
    end
  else
    match mutexes l !! key with
    | None => (Ok (), (l, s.2))
    | Some (v, ttl) =>
        let '(b, r) := rs_extend (nodes l) now (keyPrefix l +:+ key) v ttl s.2 in
        (if (b : bool) then Ok () else Err ErrExtend, (l, r))
    end.

Definition fallback_try (now : Z) (key : string) (s : st) : result redis_err bool * st :=
  let '(b, fb) := LocalLock.TryLock now key (fallbackLocker s.1) in
  (Ok b, (set_fallback fb s.1, s.2)).

Definition TryLock (now : Z) (key : string) (v : nat) (ttl : Z) (s : st) : result redis_err bool * st :=
  let '(allowed, l) := allow now s.1 in
  if negb allowed then
    if allowDegradedMode l then fallback_try now key (l, s.2)
    else (Err ErrCircuitBreakerOpen, (l, s.2))
  else
    match try_attempt now key v ttl (l, s.2) with
    | (AGranted, s) => (Ok true, s)
    | (ARetry _, s) => (Ok false, s)
    | (AFallback, s) => fallback_try now key s
    | (AFail err, s) => (Err (ErrAcquire err), s)
    end.

(** ** The refresher of a held lock ([StartRefresher]) *)

Inductive refresh_event := ETick (now : Z) | EStop | EDone.

Definition refresh_interval (ttl : Z) : Z := Z.quot (ttl * 2) 3.

(** The goroutine's loop over what its [select] receives; an extension that fails
    is only logged. *)
Fixpoint refresher (key : string) (evs : list refresh_event) (s : st) : st :=
  match evs with
  | ETick now :: evs => refresher key evs (Extend now key s).2
  | EStop :: _ | EDone :: _ | [] => s
  end.
End redlock.

(** ** The replicas together *)

Section system.
Context {R : Redsync}.

Record world := mkWorld { redis : rst; replicas : gmap nat Locker }.

(** The atomic parts of the calls: a round of [Lock], and the other calls. *)
Inductive action :=
  | DoAttempt (key : string) (v : nat) (ttl : Z)
  | DoTry (key : string) (v : nat) (ttl : Z)
  | DoUnlock (key : string)
  | DoExtend (key : string).

Record event := mkEvent { now : Z; who : nat; what : action }.

(** What an action asks of Redis. *)
Definition takes (a : action) : option (string * nat * Z) :=
  match a with DoAttempt k v ttl | DoTry k v ttl => Some (k, v, ttl) | _ => None end.

(** Whether it took or extended a lock in Redis, and the state after it. *)
Definition act (t : Z) (a : action) (s : st) : bool * st :=
  match a with
  | DoAttempt key v ttl =>
      let '(r, s) := lock_attempt t key v ttl s in
      (match r with AGranted => true | _ => false end, s)
  | DoTry key v ttl =>
      let '(allowed, l) := allow t s.1 in
      (allowed && match (try_attempt t key v ttl (l, s.2)).1 with AGranted => true | _ => false end,
       (TryLock t key v ttl s).2)
  | DoUnlock key => (false, (Unlock t key s).2)
  | DoExtend key =>
      let '(allowed, l) := allow t s.1 in
      let '(r, s) := Extend t key s in
      ((allowed || negb (allowDegradedMode l)) && bool_decide (is_Some (mutexes l !! key)) && is_ok r, s)
  end.

Definition perform (e : event) (w : world) : bool * world :=
  match replicas w !! who e with
  | None => (false, w)
  | Some l =>
      let '(b, (l, r)) := act (now e) (what e) (l, redis w) in
      (b, mkWorld r (<[who e := l]> (replicas w)))
  end.

Fixpoint run (evs : list event) (w : world) : list (event * bool) * world :=
  match evs with
  | [] => ([], w)
  | e :: evs =>
      let '(b, w) := perform e w in
      let '(l, w) := run evs w in ((e, b) :: l, w)
  end.

(** Whether an event prolongs replica [i]'s lock of [key]. *)
Definition prolongs (i : nat) (key : string) (b : bool) (e : event) : bool :=
  b && bool_decide (who e = i) && match what e with DoExtend k => bool_decide (k = key) | _ => false end.

(** Replica [i] holds [key] with time to live [ttl] until [until]: the events to
    come happen in order before that time, which each successful extension by [i]
    moves, and [i] does not unlock the key. *)
Fixpoint while_held (i : nat) (key : string) (ttl t until : Z) (evs : list event) (w : world) : Prop :=
  match evs with
  | [] => True
  | e :: evs =>
      (t ≤ now e < until)%Z ∧ ¬ (who e = i ∧ what e = DoUnlock key) ∧
      let '(b, w) := perform e w in
      while_held i key ttl (now e) (if prolongs i key b e then now e + ttl else until)%Z evs w
  end.

(** One prefix for all, and nodes whose majorities meet those of [qs]; values that are
    new. *)
Definition uniform (p : string) (qs : list nat) (w : world) : Prop :=
  ∀ i l, replicas w !! i = Some l → keyPrefix l = p ∧ agree (nodes l) qs.

Definition unused (key : string) (v : nat) (i : nat) (w : world) : Prop :=
  ∀ j l ttl, j ≠ i → replicas w !! j = Some l → mutexes l !! key ≠ Some (v, ttl).

(** What an event to come takes has another value. *)
Definition fresh (v : nat) (e : event) : Prop := ∀ k v' ttl, takes (what e) = Some (k, v', ttl) → v' ≠ v.

Record held (p : string) (qs : list nat) (i : nat) (key : string) (v : nat) (ttl t until : Z) (w : world) : Prop := {
  held_uniform : uniform p qs w;
  held_unused : unused key v i w;
  held_mutex : ∃ l, replicas w !! i = Some l ∧ nodes l = qs ∧ mutexes l !! key = Some (v, ttl);
  held_token : ∀ u, (t ≤ u < until)%Z → token_at qs u (p +:+ key) (redis w) = Some v;
  held_bound : (until ≤ t + ttl)%Z;
}.

(** What an action leaves alone: a locker's names and nodes. *)
Definition place (l : Locker) : string * list nat := (keyPrefix l, nodes l).

Lemma place_prefix l l' : place l' = place l → keyPrefix l' = keyPrefix l.
Proof. by intros [= -> _]. Qed.

Lemma place_nodes l l' : place l' = place l → nodes l' = nodes l.
Proof. by intros [= _ ->]. Qed.

Lemma conn_failed_same t l b l' :
  conn_failed t l = (b, l') → mutexes l' = mutexes l ∧ place l' = place l ∧ allowDegradedMode l' = allowDegradedMode l.
Proof.
  unfold conn_failed, allow. destruct (AllowRequest _ _). by intros [= <- <-].
Qed.

Lemma allow_keeps t l b l' :
  allow t l = (b, l') → mutexes l' = mutexes l ∧ place l' = place l ∧ allowDegradedMode l' = allowDegradedMode l.
Proof. unfold allow. destruct (AllowRequest _ _). by intros [= <- <-]. Qed.

Lemma fallback_try_same t key s :
  (fallback_try t key s).2.2 = s.2 ∧ mutexes (fallback_try t key s).2.1 = mutexes s.1 ∧
  place (fallback_try t key s).2.1 = place s.1.
Proof. unfold fallback_try. by destruct (LocalLock.TryLock _ _ _). Qed.

(** An attempt either takes the lock or leaves the locker's mutexes. *)
Definition attempt_post (t : Z) (key : string) (v : nat) (ttl : Z) (s : st) (b : bool) (s' : st) : Prop :=
  s'.2 = (rs_lock (nodes s.1) t (keyPrefix s.1 +:+ key) v ttl s.2).2 ∧
  place s'.1 = place s.1 ∧
  b = is_ok (rs_lock (nodes s.1) t (keyPrefix s.1 +:+ key) v ttl s.2).1 ∧
  mutexes s'.1 = if b then <[key := (v, ttl)]> (mutexes s.1) else mutexes s.1.

Lemma lock_attempt_post t key v ttl s :
  attempt_post t key v ttl s (match (lock_attempt t key v ttl s).1 with AGranted => true | _ => false end)
    (lock_attempt t key v ttl s).2.
Proof.
  destruct s as [l r]. unfold attempt_post, lock_attempt. cbn [fst snd].
  destruct (rs_lock _ _ _ _ _ _) as [[[]|e] r']; [done|]. cbn [fst snd is_ok].
  destruct (disconnected e).
  - destruct (conn_failed t l) as [b l'] eqn:Hc. apply conn_failed_same in Hc as (Hm & Hp & _).
    by destruct b, (taken e); cbn [fst snd]; rewrite Hm, Hp.
  - by destruct (taken e).
Qed.

Lemma try_attempt_post t key v ttl s :
  attempt_post t key v ttl s (match (try_attempt t key v ttl s).1 with AGranted => true | _ => false end)
    (try_attempt t key v ttl s).2.
Proof.
  destruct s as [l r]. unfold attempt_post, try_attempt. cbn [fst snd].
  destruct (rs_lock _ _ _ _ _ _) as [[[]|e] r']; [done|]. cbn [fst snd is_ok].
  destruct (taken e); [done|]. destruct (disconnected e); [|done].
  destruct (conn_failed t l) as [b l'] eqn:Hc. apply conn_failed_same in Hc as (Hm & Hp & _).
  by destruct b; cbn [fst snd]; rewrite Hm, Hp.
Qed.

Lemma act_try_post t key v ttl s :
  let '(b, s') := act t (DoTry key v ttl) s in
  attempt_post t key v ttl s b s' ∨ b = false ∧ s'.2 = s.2 ∧ mutexes s'.1 = mutexes s.1 ∧ place s'.1 = place s.1.
Proof.
  cbn [act]. unfold TryLock. destruct (allow t s.1) as [b l] eqn:Ha.
  apply allow_keeps in Ha as (Hm & Hp & Hd). destruct b; cbn [negb andb].
  - left. pose proof (try_attempt_post t key v ttl (l, s.2)) as Hpost.
    unfold attempt_post in *. cbn [fst snd] in *. rewrite Hm, Hp, (place_prefix _ _ Hp), (place_nodes _ _ Hp) in Hpost.
    destruct (try_attempt t key v ttl (l, s.2)) as [[|e| |e] s']; cbn [fst snd] in *; try done.
    destruct (fallback_try_same t key s') as (-> & -> & ->). done.
  - right. destruct (allowDegradedMode l); [|done].
    destruct (fallback_try_same t key (l, s.2)) as (-> & -> & ->). done.
Qed.
End system.

Section exclusive.
Context {R : Redsync} {L : RedsyncLaws R}.

Lemma name_inj p k1 k2 : p +:+ k1 = p +:+ k2 → k1 = k2.
Proof. intros Heq. by apply str_app_inj_len in Heq as [_ ?]. Qed.

(** Replica [i] has the mutex of value [v], and no other has one of that value. *)
Definition owns (i : nat) (key : string) (v : nat) (ttl : Z) (j : nat) (m : option (nat * Z)) : Prop :=
  if decide (j = i) then m = Some (v, ttl) else ∀ ttl', m ≠ Some (v, ttl').

Section act_held.
Context (t until : Z) (i : nat) (p key : string) (qs : list nat) (v : nat) (ttl : Z).
Context (Hu : (t < until ≤ t + ttl)%Z).

Definition token_held (r : rst) : Prop := ∀ u, (t ≤ u < until)%Z → token_at qs u (p +:+ key) r = Some v.

(** A locker among the others, with its mutex of the key. *)
Definition placed (j : nat) (l : Locker) : Prop :=
  keyPrefix l = p ∧ agree (nodes l) qs ∧ (j = i → nodes l = qs) ∧ owns i key v ttl j (mutexes l !! key).

Lemma placed_same j l l' : place l' = place l → mutexes l' !! key = mutexes l !! key → placed j l → placed j l'.
Proof. intros Hp Hm. unfold placed. by rewrite (place_prefix _ _ Hp), (place_nodes _ _ Hp), Hm. Qed.

Lemma token_now r : token_held r → token_at qs t (p +:+ key) r = Some v.
Proof using Hu. intros Htok. apply Htok. lia. Qed.

(** Nothing to the key's mutexes and value is done by an attempt, *)
Lemma attempt_held j k v' ttl' l r b s' :
  placed j l → token_held r → v' ≠ v → attempt_post t k v' ttl' (l, r) b s' →
  placed j s'.1 ∧ token_held s'.2 ∧ (b = true → k ≠ key).
Proof using Hu L.
  intros Hl Htok Hv (Hr & Hkp & Hb & Hm). cbn [fst snd] in *. pose proof Hl as (Hp & Hag & _ & _). rewrite Hp in *.
  pose proof (lock_law (nodes l) t (p +:+ k) v' ttl' r) as Hlaw. rewrite Hr.
  destruct (rs_lock (nodes l) t (p +:+ k) v' ttl' r) as [res r']. cbn [fst snd] in *.
  destruct Hlaw as (Ho & Hk & _). destruct (decide (k = key)) as [->|Hne].
  - destruct (Hk qs v Hag (token_now r Htok)) as [Hno Hsame]; [congruence|]. rewrite Hno in Hb. subst b.
    split; [|split; [|done]]; [by apply (placed_same j l); [..|rewrite Hm|]|]. intros u Hu'. rewrite Hsame; [by apply Htok|lia].
  - split; [|split; [|done]].
    + apply (placed_same j l); [done| |done]. rewrite Hm. destruct b; [by rewrite lookup_insert_ne|done].
    + intros u Hu'. rewrite Ho; [by apply Htok|]. by intros Heq%name_inj.
Qed.

(** nor by an unlocking of another key or replica, *)
Lemma unlock_held j k l r :
  placed j l → token_held r → ¬ (j = i ∧ k = key) →
  let '(l', r') := (Unlock t k (l, r)).2 in placed j l' ∧ token_held r'.
Proof using Hu L.
  intros Hl Htok Hne. unfold Unlock. cbn [fst snd]. destruct (allow t l) as [b l1] eqn:Ha.
  apply allow_keeps in Ha as (Hm & Hkp & _). assert (placed j l1) as Hl1 by (apply (placed_same j l); [done|by rewrite Hm|done]).
  clear Hl Hkp Hm. destruct (negb b && allowDegradedMode l1).
  { by destruct (LocalLock.Unlock k (fallbackLocker l1)). }
  pose proof Hl1 as (Hp & Hag & Hi & Hj). cbn [keyPrefix nodes set_mutexes]. rewrite Hp.
  assert (placed j (set_mutexes (delete k (mutexes l1)) l1)) as Hown.
  { split; [done|]. split; [done|]. split; [done|]. cbn [mutexes set_mutexes].
    destruct (decide (k = key)) as [->|?]; [|by rewrite lookup_delete_ne]. rewrite lookup_delete_eq.
    unfold owns in *. case_decide; [by destruct Hne|done]. }
  destruct (mutexes l1 !! k) as [[v' ttl']|] eqn:Hk; [|done].
  pose proof (unlock_law (nodes l1) t (p +:+ k) v' r) as Hlaw.
  destruct (rs_unlock (nodes l1) t (p +:+ k) v' r) as [ok r']. destruct Hlaw as [Ho Hs]. cbn [fst snd]. split; [done|].
  intros u Hu'. destruct (decide (k = key)) as [->|?]; [rewrite (Hs qs v)|rewrite Ho]; [by apply Htok|by apply token_now| |lia|by apply Htok|].
  - intros ->. unfold owns in Hj. case_decide; [by destruct Hne|]. by destruct (Hj ttl').
  - by intros Heq%name_inj.
Qed.

(** and an extension prolongs it, if it is the holder's. *)
Lemma extend_held j k l r :
  placed j l → token_held r →
  let '(b, (l', r')) := act t (DoExtend k) (l, r) in
  placed j l' ∧ token_held r' ∧
  (b = true → k = key → j = i → ∀ u, (t ≤ u < t + ttl)%Z → token_at qs u (p +:+ key) r' = Some v).
Proof using Hu L.
  intros Hl Htok. cbn [act]. unfold Extend. cbn [fst snd]. destruct (allow t l) as [b l1] eqn:Ha.
  apply allow_keeps in Ha as (Hm & Hkp & _). assert (placed j l1) as Hl1 by (apply (placed_same j l); [done|by rewrite Hm|done]).
  clear Hl Hkp Hm. destruct (negb b && allowDegradedMode l1) eqn:Hfb.
  { assert (b || negb (allowDegradedMode l1) = false) as -> by by destruct b, (allowDegradedMode l1). by destruct (LocalLock.Extend _ _). }
  destruct (mutexes l1 !! k) as [[v' ttl']|] eqn:Hk.
  2:{ by rewrite andb_false_r. }
  pose proof Hl1 as (Hp & Hag & Hi & Hj). rewrite Hp. pose proof (extend_law (nodes l1) t (p +:+ k) v' ttl' r) as Hlaw.
  destruct (rs_extend (nodes l1) t (p +:+ k) v' ttl' r) as [ok r']. destruct Hlaw as (Ho & Hs & Hsub & Hall).
  split; [done|]. destruct (decide (k = key)) as [->|Hne].
  - rewrite Hk in *. unfold owns in Hj. destruct (decide (j = i)) as [->|Hji].
    + injection Hj as -> ->. rewrite (Hi eq_refl) in *. split.
      * intros u Hu'. destruct (Hsub u ltac:(lia)) as [->|]; [by apply Htok|done].
      * destruct ok; [|by rewrite !andb_false_r]. intros _ _ _. by apply Hall.
    + destruct (Hs qs v Hag (token_now r Htok)) as [-> Hsame]; [intros ->; by destruct (Hj ttl')|].
      split; [|done]. intros u Hu'. rewrite Hsame; [by apply Htok|lia].
  - split; [|done]. intros u Hu'. rewrite Ho; [by apply Htok|]. by intros Heq%name_inj.
Qed.
End act_held.
End exclusive.

Section runs.
Context {R : Redsync} {L : RedsyncLaws R}.

Lemma uniform_insert p qs w r j l :
  uniform p qs w → keyPrefix l = p → agree (nodes l) qs → uniform p qs (mkWorld r (<[j := l]> (replicas w))).
Proof.
  intros Hun Hl Hag j' l' Hj. cbn [replicas] in Hj.
  apply lookup_insert_Some in Hj as [[_ <-]|[_ Hj]]; [done|by eapply Hun].
Qed.

Lemma unused_insert key v i w r j l :
  unused key v i w → (j ≠ i → ∀ ttl, mutexes l !! key ≠ Some (v, ttl)) →
  unused key v i (mkWorld r (<[j := l]> (replicas w))).
Proof.
  intros Hnew Hl j' l' ttl Hji Hj. cbn [replicas] in Hj.
  apply lookup_insert_Some in Hj as [[<- <-]|[_ Hj]]; [by apply Hl|by eapply Hnew].
Qed.

(** Any action but the holder's unlocking. *)
Lemma act_held t until i p key qs v ttl j a l r :
  (t < until ≤ t + ttl)%Z → placed i p key qs v ttl j l → token_held t until p key qs v r →
  (∀ k v' ttl', takes a = Some (k, v', ttl') → v' ≠ v) → ¬ (j = i ∧ a = DoUnlock key) →
  let '(b, (l', r')) := act t a (l, r) in
  placed i p key qs v ttl j l' ∧ token_held t until p key qs v r' ∧
  (b = true → ∀ k v' ttl', takes a = Some (k, v', ttl') → k ≠ key) ∧
  (b = true → a = DoExtend key → j = i → ∀ u, (t ≤ u < t + ttl)%Z → token_at qs u (p +:+ key) r' = Some v).
Proof.
  intros Hu Hl Htok Hv Hne. destruct a as [k v' ttl'|k v' ttl'|k|k].
  - cbn [act]. pose proof (lock_attempt_post t k v' ttl' (l, r)) as Hpost.
    destruct (lock_attempt t k v' ttl' (l, r)) as [res [l' r']]. cbn [fst snd] in Hpost.
    destruct (attempt_held _ _ i p key qs v ttl Hu j _ _ _ _ _ _ _ Hl Htok (Hv _ _ _ eq_refl) Hpost) as (? & ? & Hk).
    split_and!; [done..| |done]. by intros ?%Hk ? ? ? [= <- _ _].
  - pose proof (act_try_post t k v' ttl' (l, r)) as Hpost.
    destruct (act _ (DoTry k v' ttl') (l, r)) as [b [l' r']].
    destruct Hpost as [Hpost|(-> & Hr & Hm & Hkp)].
    + destruct (attempt_held _ _ i p key qs v ttl Hu j _ _ _ _ _ _ _ Hl Htok (Hv _ _ _ eq_refl) Hpost) as (? & ? & Hk).
      split_and!; [done..| |done]. by intros ?%Hk ? ? ? [= <- _ _].
    + cbn [fst snd] in *. rewrite Hr. split; [|done]. apply (placed_same i p key qs v ttl j l); [done|by rewrite Hm|done].
  - cbn [act]. assert (¬ (j = i ∧ k = key)) as Hne' by (intros [? ->]; by destruct Hne).
    pose proof (unlock_held _ _ i p key qs v ttl Hu j k _ _ Hl Htok Hne') as Hk.
    destruct (Unlock t k (l, r)) as [res [l' r']]. cbn [snd] in Hk. destruct Hk as (? & ?).
    by split_and!.
  - pose proof (extend_held _ _ i p key qs v ttl Hu j k _ _ Hl Htok) as Hk.
    destruct (act _ (DoExtend k) (l, r)) as [b [l' r']]. destruct Hk as (? & ? & Hk).
    split_and!; [done..|]. intros Hbt [= ->] Hw. by apply Hk.
Qed.

Lemma prolongs_true i key b e :
  prolongs i key b e = true → b = true ∧ who e = i ∧ what e = DoExtend key.
Proof.
  unfold prolongs. destruct b, (what e); rewrite ?andb_false_r; try done. cbn.
  intros [?%bool_decide_eq_true <-%bool_decide_eq_true]%andb_true_iff. done.
Qed.

Lemma perform_held p qs i key v ttl t until e w :
  held p qs i key v ttl t until w → (t ≤ now e < until)%Z → fresh v e → ¬ (who e = i ∧ what e = DoUnlock key) →
  let '(b, w') := perform e w in
  held p qs i key v ttl (now e) (if prolongs i key b e then now e + ttl else until)%Z w' ∧
  (b = true → ∀ k v' ttl', takes (what e) = Some (k, v', ttl') → k ≠ key).
Proof.
  intros [Hun Hnew (l0 & Hl0 & Hn0 & Hmut) Htok Hb] Ht Hf Hne. unfold perform.
  assert (token_held (now e) until p key qs v (redis w)) as Htok' by (intros u Hu; apply Htok; lia).
  destruct (replicas w !! who e) as [l|] eqn:Hl.
  2:{ simpl. split; [|done]. split; [done|done|by exists l0|done|lia]. }
  destruct (Hun _ _ Hl) as [Hp Hag].
  assert (placed i p key qs v ttl (who e) l) as Hown.
  { split; [done|]. split; [done|]. split; [intros Hw; rewrite Hw, Hl0 in Hl; by simplify_eq|].
    unfold owns. case_decide as Hw; [by rewrite Hw, Hl0 in Hl; simplify_eq|]. intros ttl'. by eapply Hnew. }
  assert (now e < until ≤ now e + ttl)%Z as Hu by lia.
  pose proof (act_held _ _ i p key qs v ttl (who e) (what e) l (redis w) Hu Hown Htok' Hf Hne) as Hact.
  destruct (act (now e) (what e) (l, redis w)) as [b [l' r']]. destruct Hact as ((Hp' & Hag' & Hi' & Hown') & Htok'' & Htk & Hex).
  split; [|done]. split; cbn [redis].
  - by apply uniform_insert.
  - apply unused_insert; [done|]. intros Hji. unfold owns in Hown'. by rewrite decide_False in Hown'.
  - cbn [replicas]. destruct (decide (who e = i)) as [Hw|Hw].
    + exists l'. rewrite Hw, lookup_insert_eq. unfold owns in Hown'. rewrite decide_True in Hown' by done. auto.
    + exists l0. by rewrite lookup_insert_ne.
  - destruct (prolongs i key b e) eqn:Hpr; [|done]. apply prolongs_true in Hpr as (-> & Hw & He). by apply Hex.
  - case_match; lia.
Qed.

Lemma run_held p qs i key v ttl t until evs w :
  held p qs i key v ttl t until w → Forall (fresh v) evs → while_held i key ttl t until evs w →
  Forall (λ eb, eb.2 = true → ∀ k v' ttl', takes (what eb.1) = Some (k, v', ttl') → k ≠ key) (run evs w).1.
Proof.
  intros Hh Hf. revert t until w Hh. induction Hf as [|e evs Hfe _ IH]; intros t until w Hh Hw; [constructor|]. cbn [run while_held] in *.
  destruct Hw as (Ht & Hne & Hw). pose proof (perform_held _ _ _ _ _ _ _ _ e w Hh Ht Hfe Hne) as Hp.
  destruct (perform e w) as [b w1]. cbn zeta in Hp. destruct Hp as [Hh1 Hb].
  specialize (IH _ _ _ Hh1 Hw). destruct (run evs w1) as [l w2]. by constructor.
Qed.

(** A granted lock is held. *)
Lemma grant_held p e key v ttl w l :
  replicas w !! who e = Some l → uniform p (nodes l) w → unused key v (who e) w → (0 < ttl)%Z →
  takes (what e) = Some (key, v, ttl) → (perform e w).1 = true →
  held p (nodes l) (who e) key v ttl (now e) (now e + ttl) (perform e w).2.
Proof.
  intros Hl Hun Hnew Httl Htk. unfold perform. rewrite Hl. destruct (Hun _ _ Hl) as [Hp Hag].
  assert (∃ b s', act (now e) (what e) (l, redis w) = (b, s') ∧
    (attempt_post (now e) key v ttl (l, redis w) b s' ∨ b = false)) as (b & [l' r'] & -> & Hpost).
  { destruct (what e) as [k v' ttl'|k v' ttl'| |]; try done; injection Htk as -> -> ->.
    - cbn [act]. pose proof (lock_attempt_post (now e) key v ttl (l, redis w)) as Hpost.
      destruct (lock_attempt _ _ _ _ _) as [res s']. eexists _, _. split; [done|by left].
    - pose proof (act_try_post (now e) key v ttl (l, redis w)) as Hpost.
      destruct (act _ _ _) as [b s']. exists b, s'. split; [done|]. destruct Hpost as [|[? _]]; auto. }
  cbn [fst snd]. intros ->. destruct Hpost as [(Hr & Hkp & Hb & Hm)|]; [|done]. cbn [fst snd] in *.
  rewrite Hp in *. pose proof (lock_law (nodes l) (now e) (p +:+ key) v ttl (redis w)) as Hlaw.
  destruct (rs_lock (nodes l) (now e) (p +:+ key) v ttl (redis w)) as [res r1]. cbn [fst snd] in *. subst r'. destruct Hlaw as (_ & _ & Hok).
  pose proof (place_nodes _ _ Hkp) as Hn. apply place_prefix in Hkp.
  split; cbn [replicas redis].
  - apply uniform_insert; [done|congruence|by rewrite Hn].
  - by apply unused_insert.
  - exists l'. by rewrite lookup_insert_eq, Hm, lookup_insert_eq.
  - by apply Hok.
  - lia.
Qed.
End runs.

(** ** The properties *)

(** C14. Mutual exclusion through Redis, in every interleaving of the replicas'
    rounds of [Lock], [TryLock]s, [Unlock]s and [Extend]s, whatever commands fail
    and in degraded mode too: from the moment a lock is granted to a replica until
    its time to live ends, which every successful extension by that replica moves,
    no other grant of the key succeeds in Redis, as long as the replica itself does
    not unlock the key; what the others unlock or extend does not matter.  The
    replicas have one key prefix, the values drawn for mutexes are new, and each
    replica reached nodes at its start of which every majority meets every majority
    of those that the holder reached: the same nodes, or any quorum of up to three
    ([agree_same], [small_clusters_agree]); otherwise two replicas can be granted
    one lock ([disjoint_quorums]).  Locks taken from the in-process fallback are not
    in Redis. *)
Theorem redis_lock_exclusive {R : Redsync} {L : RedsyncLaws R} (p : string) (e : event)
    (key : string) (v : nat) (ttl : Z) (w : world) (l : Locker) (evs : list event) :
  replicas w !! who e = Some l → uniform p (nodes l) w →
  unused key v (who e) w → Forall (fresh v) evs → (0 < ttl)%Z →
  takes (what e) = Some (key, v, ttl) → (perform e w).1 = true →
  while_held (who e) key ttl (now e) (now e + ttl) evs (perform e w).2 →
  ∀ e' k v' ttl', (e', true) ∈ (run evs (perform e w).2).1 → takes (what e') = Some (k, v', ttl') → k ≠ key.
Proof.
  intros Hl Hun Hnew Hfr Httl Htk Hg Hw e' k v' ttl' He' Htk'.
  pose proof (grant_held p e key v ttl w l Hl Hun Hnew Httl Htk Hg) as Hh.
  pose proof (run_held _ _ _ _ _ _ _ _ _ _ Hh Hfr Hw) as Hf. rewrite Forall_forall in Hf.
  by eapply (Hf _ He').
Qed.

(** [Lock] always returns when degraded mode is not allowed, after at most
    [MaxAttempts] rounds: either with the lock taken in Redis with the value of one
    of its rounds, or with an error; with an open breaker it sends nothing. *)
Lemma attempts_outcome {R : Redsync} fuel n env key ttl last s :
  (∀ e s, allowDegradedMode (meanwhile (R := R) e s).1 = allowDegradedMode s.1) → allowDegradedMode s.1 = false →
  (∃ err, (attempts fuel n env key ttl last s).1 = LDone (Err err)) ∨
  (attempts fuel n env key ttl last s).1 = LDone (Ok ()) ∧
  ∃ m, n ≤ m < n + fuel ∧ mutexes (attempts fuel n env key ttl last s).2.1 !! key = Some (value (env m), ttl).
Proof.
  intros Hmw. revert n last s. induction fuel as [|fuel IH]; intros n last s Hd; cbn [attempts]; [left; by eexists|].
  set (s1 := back_off n (env n) s).
  assert (allowDegradedMode s1.1 = false) as Hd1 by (unfold s1, back_off; destruct n; by rewrite ?Hmw).
  destruct (negb _ && _); [left; by eexists|].
  clearbody s1. destruct s1 as [l r]. cbn [fst] in Hd1. unfold lock_attempt.
  destruct (rs_lock (nodes l) (time (env n)) (keyPrefix l +:+ key) (value (env n)) ttl r) as [[[]|e] r'].
  - right. split; [reflexivity|]. exists n. split; [lia|]. cbn. by rewrite lookup_insert_eq.
  - assert (∀ l, allowDegradedMode l = false → (conn_failed (time (env n)) l).1 = false ∧
      allowDegradedMode (conn_failed (time (env n)) l).2 = false) as Hcf.
    { intros l' Hl'. unfold conn_failed, allow. destruct (AllowRequest _ _). cbn. by rewrite Hl', andb_false_r. }
    destruct (if disconnected e then conn_failed (time (env n)) l else (false, l)) as [fb l2] eqn:Hf.
    assert (fb = false ∧ allowDegradedMode l2 = false) as [-> Hd2].
    { destruct (Hcf l Hd1) as [H1 H2]. destruct (disconnected e); [|by injection Hf as <- <-]. by rewrite Hf in *. }
    destruct (taken e); [|left; by eexists].
    destruct (IH (S n) (Some e) (l2, r') Hd2) as [?|(? & m & ? & ?)]; [by left|right].
    split; [done|]. exists m. split; [lia|done].
Qed.

Theorem redis_lock_returns {R : Redsync} (t : Z) (env : nat → round) (key : string) (ttl : Z) (s : st) :
  (∀ e s, allowDegradedMode (meanwhile (R := R) e s).1 = allowDegradedMode s.1) → allowDegradedMode s.1 = false →
  (∃ err, (Lock t env key ttl s).1 = LDone (Err err)) ∨
  (Lock t env key ttl s).1 = LDone (Ok ()) ∧
  ∃ m, m < maxAttempts s.1 ∧ mutexes (Lock t env key ttl s).2.1 !! key = Some (value (env m), ttl).
Proof.
  intros Hmw Hd. unfold Lock. destruct (allow t s.1) as [b l] eqn:Ha.
  assert (maxAttempts l = maxAttempts s.1 ∧ allowDegradedMode l = false) as [Hma Hl].
  { unfold allow in Ha. destruct (AllowRequest _ _). by injection Ha as <- <-. }
  destruct b; cbn [negb]; [|rewrite Hl; left; by eexists].
  destruct (attempts_outcome (maxAttempts l) 0 env key ttl None (l, s.2) Hmw Hl) as [?|(? & m & ? & ?)]; [by left|right].
  split; [done|]. exists m. rewrite <- Hma. split; [lia|done].
Qed.

(** ** A Redis, and what the lockers do on it *)

(** Each node's value and end of each name; [down]: the nodes that do not answer. *)
Record sample_redis := mkRedis { tokens : gmap (nat * string) (nat * Z); down : list nat }.

Definition live (n : nat) (t : Z) (k : string) (s : sample_redis) : option nat :=
  '(v, until) ← tokens s !! (n, k); if (t <? until)%Z then Some v else None.
Definition has (v : nat) (t : Z) (k : string) (s : sample_redis) (n : nat) : bool := bool_decide (live n t k s = Some v).

Definition up (s : sample_redis) (n : nat) : bool := negb (bool_decide (n ∈ down s)).

(** What the nodes agree on. *)
Definition vote (ps : list nat) (t : Z) (k : string) (s : sample_redis) : option nat :=
  head (List.filter (λ v, majority (has v t k s) ps) (omap (λ n, live n t k s) ps)).

Definition set_nodes (ns : list nat) (k : string) (x : nat * Z) (s : sample_redis) : sample_redis :=
  mkRedis (foldr (λ n, <[(n, k) := x]>) (tokens s) ns) (down s).
Definition unset_nodes (ns : list nat) (k : string) (s : sample_redis) : sample_redis :=
  mkRedis (foldr (λ n, delete (n, k)) (tokens s) ns) (down s).

(** An attempt sets the value where there is none, and takes it back where that is not
    a majority. *)
#[local] Instance sample_redsync : Redsync := {
  rst := sample_redis;
  token_at := vote;
  rs_lock ps t k v ttl s :=
    let free n := up s n && bool_decide (live n t k s = None) in
    if majority free ps then (Ok (), set_nodes (List.filter free ps) k (v, t + ttl)%Z s)
    else (Err (if existsb (up s) ps then RsFailed else RsErr "dial tcp: connection refused"), s);
  rs_unlock ps t k v s :=
    let own n := up s n && has v t k s n in
    (majority own ps, unset_nodes (List.filter own ps) k s);
  rs_extend ps t k v ttl s :=
    let own n := up s n && has v t k s n in
    (majority own ps, set_nodes (List.filter own ps) k (v, t + ttl)%Z s);
}.

Lemma vote_spec ps t k s v : vote ps t k s = Some v ↔ majority (has v t k s) ps = true.
Proof.
  unfold vote. split.
  - intros Hv. assert (In v (List.filter (λ v, majority (has v t k s) ps) (omap (λ n, live n t k s) ps))) as Hin.
    { destruct (List.filter _ _); [done|]. injection Hv as ->. by left. }
    by apply filter_In in Hin as [_ ?].
  - intros Hm. destruct (List.filter _ _) as [|x l] eqn:Hf; simpl.
    + destruct (majority_some _ _ Hm) as (n & Hn & Hl%bool_decide_eq_true).
      assert (In v (List.filter (λ v, majority (has v t k s) ps) (omap (λ n, live n t k s) ps))) as Hin; [|by rewrite Hf in Hin].
      apply filter_In. split; [|done]. apply list_elem_of_In, list_elem_of_omap. by exists n.
    + assert (In x (List.filter (λ v, majority (has v t k s) ps) (omap (λ n, live n t k s) ps))) as Hx by (rewrite Hf; by left).
      apply filter_In in Hx as [_ Hx]. destruct (agree_same ps _ _ Hm Hx) as (n & H1%bool_decide_eq_true & H2%bool_decide_eq_true).
      congruence.
Qed.

Lemma vote_ext ps t k s k' s' : (∀ v, majority (has v t k s) ps = majority (has v t k' s') ps) → vote ps t k s = vote ps t k' s'.
Proof.
  intros Hm. destruct (vote ps t k s) as [v|] eqn:Hv.
  - symmetry. apply vote_spec. rewrite <- Hm. by apply vote_spec.
  - destruct (vote ps t k' s') as [v|] eqn:Hv'; [|done]. apply vote_spec in Hv'. rewrite <- Hm in Hv'. apply vote_spec in Hv'. congruence.
Qed.

Lemma tokens_set ns k x s n k' :
  tokens (set_nodes ns k x s) !! (n, k') = if bool_decide (n ∈ ns ∧ k' = k) then Some x else tokens s !! (n, k').
Proof.
  unfold set_nodes. simpl. induction ns as [|m ns IH]; simpl; [done|].
  destruct (decide ((m, k) = (n, k'))) as [[= -> ->]|Hne].
  - rewrite lookup_insert_eq, bool_decide_eq_true_2; [done|]. by split; [left|].
  - rewrite lookup_insert_ne, IH by done. rewrite (bool_decide_ext (n ∈ m :: ns ∧ k' = k) (n ∈ ns ∧ k' = k)); [done|]. rewrite elem_of_cons. naive_solver.
Qed.

Lemma tokens_unset ns k s n k' :
  tokens (unset_nodes ns k s) !! (n, k') = if bool_decide (n ∈ ns ∧ k' = k) then None else tokens s !! (n, k').
Proof.
  unfold unset_nodes. simpl. induction ns as [|m ns IH]; simpl; [done|].
  destruct (decide ((m, k) = (n, k'))) as [[= -> ->]|Hne].
  - rewrite lookup_delete_eq, bool_decide_eq_true_2; [done|]. by split; [left|].
  - rewrite lookup_delete_ne, IH by done. rewrite (bool_decide_ext (n ∈ m :: ns ∧ k' = k) (n ∈ ns ∧ k' = k)); [done|]. rewrite elem_of_cons. naive_solver.
Qed.
Lemma live_earlier n t t0 k s v : (t0 ≤ t)%Z → live n t k s = Some v → live n t0 k s = Some v.
Proof.
  intros Ht. unfold live. destruct (tokens s !! (n, k)) as [[x until]|]; [|done]. simpl.
  destruct (Z.ltb_spec t until); [|done]. intros [= ->]. by rewrite (proj2 (Z.ltb_lt _ _)) by lia.
Qed.

(** What becomes of one value, where a majority has another one. *)
Lemma vote_kept qs v v' t0 t k s s' :
  (t0 ≤ t)%Z → vote qs t0 k s = Some v' → v' ≠ v →
  (∀ n x, x ≠ v → live n t k s' = Some x ↔ live n t k s = Some x) →
  (∀ n, live n t k s' = Some v → live n t0 k s = Some v) → vote qs t k s' = vote qs t k s.
Proof.
  intros Ht Hv%vote_spec Hne Hother Hown. apply vote_ext. intros x. destruct (decide (x = v)) as [->|Hx].
  - assert (∀ P, (∀ n, P n = true → live n t0 k s = Some v) → majority P qs = false) as Hno.
    { intros P HP. destruct (majority P qs) eqn:Hm; [|done].
      destruct (agree_same qs _ _ Hm Hv) as (n & H1%HP & H2%bool_decide_eq_true). congruence. }
    rewrite !Hno; [done|..]; intros n Hn%bool_decide_eq_true; [by eapply live_earlier|auto].
  - apply majority_ext. intros n. unfold has. by apply bool_decide_ext, Hother.
Qed.

Lemma vote_other qs t k' s s' : (∀ n, tokens s' !! (n, k') = tokens s !! (n, k')) → vote qs t k' s' = vote qs t k' s.
Proof. intros Hs. apply vote_ext. intros v. apply majority_ext. intros n. unfold has, live. by rewrite Hs. Qed.

Lemma live_set ns k v until s n t :
  live n t k (set_nodes ns k (v, until) s) = if bool_decide (n ∈ ns) then (if (t <? until)%Z then Some v else None) else live n t k s.
Proof. unfold live. rewrite tokens_set. repeat case_bool_decide; naive_solver. Qed.

Lemma live_unset ns k s n t : live n t k (unset_nodes ns k s) = if bool_decide (n ∈ ns) then None else live n t k s.
Proof. unfold live. rewrite tokens_unset. repeat case_bool_decide; naive_solver. Qed.

Lemma own_has s v t k ps n :
  n ∈ List.filter (λ n, up s n && has v t k s n) ps → live n t k s = Some v.
Proof. intros Hn. apply list_elem_of_In, filter_In in Hn as [_ [_ Hn]%andb_true_iff]. by apply bool_decide_eq_true in Hn. Qed.

Lemma live_majority ps ns k v until s t P :
  (t < until)%Z → majority P ps = true → ns = List.filter P ps → vote ps t k (set_nodes ns k (v, until) s) = Some v.
Proof.
  intros Ht Hm ->. apply vote_spec. eapply majority_mono; [|exact Hm]. intros n Hn HP. apply bool_decide_eq_true. rewrite live_set.
  rewrite bool_decide_eq_true_2; [by rewrite (proj2 (Z.ltb_lt _ _))|]. apply list_elem_of_In, filter_In. split; [by apply list_elem_of_In|done].
Qed.

#[local] Instance sample_redsync_laws : RedsyncLaws sample_redsync.
Proof.
  split; cbn [rs_lock rs_unlock rs_extend token_at sample_redsync rst].
  - intros ps t k v ttl s. set (free := λ n, up s n && bool_decide (live n t k s = None)).
    destruct (majority free ps) eqn:Hm; [|by split_and!]. split_and!.
    + intros qs u k' Hne. apply (vote_other qs u k'). intros n. rewrite tokens_set, bool_decide_eq_false_2; [done|]. by intros [_ ?].
    + intros qs v' Hag Hv%vote_spec _. destruct (Hag _ _ Hm Hv) as (n & [_ H1%bool_decide_eq_true]%andb_true_iff & H2%bool_decide_eq_true).
      congruence.
    + intros _ u Hu. by apply (live_majority _ _ _ _ _ _ _ free); [lia|..].
  - intros ps t k v s. split.
    + intros qs u k' Hne. apply (vote_other qs u k'). intros n. rewrite tokens_unset, bool_decide_eq_false_2; [done|]. by intros [_ ?].
    + intros qs v' Hv Hne u Hu. apply (vote_kept qs v v' t); [done..| |].
      * intros n x Hx. rewrite live_unset. case_bool_decide as Hn; [|done]. apply own_has in Hn. split; [done|].
        intros Hl%(live_earlier _ _ t); [congruence|done].
      * intros n. rewrite live_unset. case_bool_decide; [done|]. by apply live_earlier.
  - intros ps t k v ttl s. set (own := λ n, up s n && has v t k s n). split_and!.
    + intros qs u k' Hne. apply (vote_other qs u k'). intros n. rewrite tokens_set, bool_decide_eq_false_2; [done|]. by intros [_ ?].
    + intros qs v' Hag Hv Hne. split.
      * destruct (majority own ps) eqn:Hm; [|done]. apply vote_spec in Hv.
        destruct (Hag _ _ Hm Hv) as (n & [_ H1%bool_decide_eq_true]%andb_true_iff & H2%bool_decide_eq_true). congruence.
      * intros u Hu. apply (vote_kept qs v v' t); [done..| |].
        -- intros n x Hx. rewrite live_set. case_bool_decide as Hn; [|done]. apply own_has in Hn.
           split; [destruct (_ <? _)%Z; naive_solver|]. intros Hl%(live_earlier _ _ t); [congruence|done].
        -- intros n. rewrite live_set. case_bool_decide as Hn; [|by apply live_earlier]. intros _. by apply own_has in Hn.
    + intros u Hu. destruct (vote ps u k (set_nodes (List.filter own ps) k (v, (t + ttl)%Z) s)) as [x|] eqn:Hx.
      * destruct (decide (x = v)) as [->|Hne]; [by right|left]. symmetry. apply vote_spec. apply vote_spec in Hx.
        eapply majority_mono; [|exact Hx]. intros n _ Hl%bool_decide_eq_true. apply bool_decide_eq_true. rewrite live_set in Hl.
        case_bool_decide; [|done]. destruct (_ <? _)%Z; congruence.
      * left. destruct (vote ps u k s) as [x|] eqn:Hv; [|done]. exfalso. apply vote_spec in Hv.
        assert (majority (has x u k (set_nodes (List.filter own ps) k (v, (t + ttl)%Z) s)) ps = true) as Hm; [|apply vote_spec in Hm; congruence].
        eapply majority_mono; [|exact Hv]. intros n _ Hl%bool_decide_eq_true. apply bool_decide_eq_true. rewrite live_set.
        case_bool_decide as Hn; [|done]. apply own_has in Hn. rewrite (proj2 (Z.ltb_lt _ _)) by lia.
        apply (live_earlier _ _ t) in Hl; [congruence|lia].
    + intros Hm u Hu. by apply (live_majority _ _ _ _ _ _ _ own); [lia|..].
Defined.

Definition sample_locker (degraded : bool) : Locker :=
  mkLocker [0] "ncps:lock:" 3 degraded ∅ LocalLock.NewLocker (New 5 minute).

(** Its breaker opened at time 0. *)
Definition open_locker (degraded : bool) : Locker := set_breaker (ForceOpen 0 (New 5 minute)) (sample_locker degraded).

Definition healthy : sample_redis := mkRedis ∅ [].

Definition two_replicas : world := mkWorld healthy {[1 := sample_locker false; 2 := sample_locker false]}.

Definition first_lock : event := mkEvent 0 1 (DoTry "k" 1 10).

Definition contenders : list event :=
  [mkEvent 5 1 (DoExtend "k"); mkEvent 12 2 (DoTry "k" 2 10); mkEvent 13 2 (DoUnlock "k"); mkEvent 14 2 (DoAttempt "k" 3 10)].

(** Three nodes: the first replica reached them all, the second one two of them, and the
    node that it did not reach is down again. *)
Definition reached (ns : list nat) : Locker := mkLocker ns "ncps:lock:" 3 false ∅ LocalLock.NewLocker (New 5 minute).
Definition three_nodes : world := mkWorld (mkRedis ∅ [1]) {[1 := reached [0; 1; 2]; 2 := reached [0; 2]]}.

Lemma redis_lock_exclusive_witness :
  snd <$> (run contenders (perform first_lock three_nodes).2).1 = [true; false; false; false] ∧
  ((mkEvent 12 2 (DoTry "k" 2 10), true) ∈ (run contenders (perform first_lock three_nodes).2).1 → "k" ≠ "k").
Proof.
  split; [vm_compute; reflexivity|].
  intros Hin. apply (redis_lock_exclusive "ncps:lock:" first_lock "k" 1 10 three_nodes (reached [0; 1; 2]) contenders) with
    (e' := mkEvent 12 2 (DoTry "k" 2 10)) (k := "k") (v' := 2) (ttl' := 10%Z); try done.
  - intros i l Hl. unfold three_nodes in Hl. cbn [replicas] in Hl.
    apply lookup_insert_Some in Hl as [[_ <-]|[_ Hl]]; [split; [done|apply agree_same]|].
    apply lookup_singleton_Some in Hl as [_ <-]. split; [done|]. apply (agree_overlap [0; 1; 2]); [..|vm_compute; lia].
    1,2: by apply (bool_decide_eq_true_1 _); vm_compute.
    1,2: apply sublist_subseteq; repeat constructor.
  - intros j l ttl _ Hl. unfold three_nodes in Hl. cbn [replicas] in Hl.
    apply lookup_insert_Some in Hl as [[_ <-]|[_ Hl]]; [done|]. by apply lookup_singleton_Some in Hl as [_ <-].
  - repeat (apply Forall_cons; split; [intros k v ttl Hv; vm_compute in Hv; try discriminate Hv; by injection Hv as _ <- _|]). by apply Forall_nil.
  - vm_compute. repeat split; by try intros [? ?].
Defined.

(** The lock of a goroutine that outlived its time to live is unlocked late:
    the key's mutex is by then that of another goroutine of the same replica, whose
    lock is released in Redis, and a second replica takes it while its time runs. *)
Theorem late_unlock_releases_successor :
  snd <$> (run
    [mkEvent 0 1 (DoTry "k" 1 10);   (* a first goroutine of replica 1, until 10 *)
     mkEvent 20 1 (DoTry "k" 2 10);  (* a second one, until 30 *)
     mkEvent 21 1 (DoUnlock "k");    (* the first one is done *)
     mkEvent 22 2 (DoTry "k" 3 10)]  (* replica 2, at 22 *)
    two_replicas).1 = [true; true; false; true].
Proof. vm_compute. reflexivity. Qed.

(** A lock taken in degraded mode is never released when the breaker's
    time-out passes before the unlock: the unlock asks Redis, where there is
    nothing, answers success, and leaves the in-process mutex locked; the next lock
    in degraded mode blocks for ever. *)
Theorem degraded_lock_stranded :
  let s0 : st := (open_locker true, mkRedis ∅ [0]) in
  let '(r1, s1) := Lock 1 (λ _, mkRound id false 1 1) "k" 10 s0 in
  let '(r2, s2) := Unlock minute "k" s1 in
  (r1, r2, (Lock (minute + 1) (λ _, mkRound id false (minute + 1) 2) "k" 10 s2).1) =
  (LDone (Ok ()), Ok (), LBlocked).
Proof. vm_compute. reflexivity. Qed.

(** The trial that an open breaker allows after its time-out is spent without
    closing it by an attempt that Redis answers with "taken", and by an unlock:
    with Redis well again, the next call is refused for another time-out. *)
Theorem trial_spent :
  let s0 : st := (open_locker false, mkRedis {[(0, "ncps:lock:a") := (7, (2 * minute)%Z)]} []) in
  let '(r1, s1) := TryLock minute "a" 1 10 s0 in
  let '(r2, s2) := Unlock minute "b" s0 in
  (r1, (TryLock (minute + 1) "b" 2 10 s1).1, r2, (TryLock (minute + 1) "b" 2 10 s2).1) =
  (Ok false, Err ErrCircuitBreakerOpen, Ok (), Err ErrCircuitBreakerOpen).
Proof. vm_compute. reflexivity. Qed.

(** The refresher of a lock of 10 ms ticks every 6 and keeps it past its end. *)
Example refresher_keeps :
  refresh_interval 10 = 6%Z ∧
  let s : st := (TryLock 0 "k" 1 10 (sample_locker false, healthy)).2 in
  token_at [0] 15 "ncps:lock:k" s.2 = None ∧
  token_at [0] 15 "ncps:lock:k" (refresher "k" [ETick 6; ETick 12; EStop; ETick 18] s).2 = Some 1.
Proof. by vm_compute. Qed.

(** ** Quorums *)

Lemma fmap_sublist {A B} (g : A → B) l l' : sublist l l' → sublist (g <$> l) (g <$> l').
Proof. induction 1; simpl; by constructor. Qed.

(** A locker's pools are the nodes that answered it at the start, and without degraded
    mode they are a quorum of all. *)
Lemma NewLocker_nodes pings p n b t l :
  NewLocker pings p n b t = Ok l → NoDup (nodes l) ∧ nodes l ⊆ seq 0 (length pings) ∧
  (allowDegradedMode l = false → quorum (length pings) ≤ length (nodes l)).
Proof.
  unfold NewLocker. case_bool_decide; [done|]. set (ns := (filter _ _).*1).
  assert (sublist ns (seq 0 (length pings))) as Hsub.
  { assert ((imap pair pings).*1 = seq 0 (length pings)) as <-.
    { rewrite fmap_imap. rewrite <- (list_fmap_id (seq _ _)), <- (imap_seq_0 pings id). by apply imap_ext. }
    apply fmap_sublist, sublist_filter. }
  assert (NoDup ns) as Hnd by (eapply sublist_NoDup; [apply NoDup_seq|exact Hsub]).
  assert (ns ⊆ seq 0 (length pings)) as Hin by (intros m Hm; by eapply elem_of_sublist).
  destruct (Nat.ltb_spec (length ns) (quorum (length pings))).
  - destruct b; [|done]. by intros [= <-].
  - intros [= <-]. cbn [nodes allowDegradedMode]. by split_and!.
Qed.

(** With up to three nodes any two lockers' majorities have a node in common; from
    four on they need not. *)
Theorem small_clusters_agree (pings1 pings2 : list bool) (p1 p2 : string) (n1 n2 : nat) (t1 t2 : Z) (l1 l2 : Locker) :
  length pings1 = length pings2 → length pings1 ≤ 3 →
  NewLocker pings1 p1 n1 false t1 = Ok l1 → NewLocker pings2 p2 n2 false t2 = Ok l2 →
  agree (nodes l1) (nodes l2).
Proof.
  intros Heq H3 H1 H2.
  assert (∀ pings p n t l, NewLocker pings p n false t = Ok l → allowDegradedMode l = false) as Hd.
  { intros pings p n t l. unfold NewLocker. case_bool_decide; [done|]. case_match; [done|]. by intros [= <-]. }
  destruct (NewLocker_nodes _ _ _ _ _ _ H1) as (Hd1 & Hs1 & Hn1). specialize (Hn1 (Hd _ _ _ _ _ H1)).
  destruct (NewLocker_nodes _ _ _ _ _ _ H2) as (Hd2 & Hs2 & Hn2). specialize (Hn2 (Hd _ _ _ _ _ H2)).
  rewrite <- Heq in Hs2, Hn2. apply (agree_overlap (seq 0 (length pings1))); [done..|]. rewrite length_seq.
  unfold quorum in *.
  destruct (length pings1) as [|[|[|[|n]]]]; [..|lia]; cbn in Hn1, Hn2;
    pose proof (Nat.Div0.div_le_mono 1 (length (nodes l1)) 2); pose proof (Nat.Div0.div_le_mono 1 (length (nodes l2)) 2);
    pose proof (Nat.Div0.div_le_mono 2 (length (nodes l1)) 2); pose proof (Nat.Div0.div_le_mono 2 (length (nodes l2)) 2);
    cbn in *; lia.
Qed.

(** Two lockers that connected to different three of five nodes each count a
    majority of three: the first one's lock is on the nodes 0, 1 and 2, and the second
    one is granted the same lock by the nodes 3 and 4. *)
Theorem disjoint_quorums :
  match NewLocker [true; true; true; false; false] "" 3 false 0, NewLocker [false; false; true; true; true] "" 3 false 0 with
  | Ok l1, Ok l2 =>
      snd <$> (run [mkEvent 0 1 (DoTry "k" 1 10); mkEvent 5 2 (DoTry "k" 2 10)] (mkWorld healthy {[1 := l1; 2 := l2]})).1 = [true; true]
  | _, _ => False
  end.
Proof. vm_compute. reflexivity. Qed.
