(* ===== verification/Tx.v ===== *)
(** * Database transactions and their retries

    [database.Client.WithTransaction] and [withEntTransactionRetry] of
    [pkg/cache]: the statements of a transaction work on the database as one
    step against other clients, an error rolls them back, and a deadlock or a
    duplicate key runs the closure again.  The closure's captured variables are
    no part of the database: nothing rolls them back. *)
From S2P Require Import Prelude.

(** How a statement fails in the database. *)
Inductive dbfault :=
  | Deadlock
  | DuplicateKey
  | OtherFault.

(** An error a closure returns of its own: [storage.ErrNotFound],
    [storage.ErrAlreadyExists], or a value that does not parse or validate. *)
Inductive apperr :=
  | ErrNotFound
  | ErrAlreadyExists
  | ErrInvalid.

(** An error is what [errors.Is] and the predicates of [pkg/database] find in it. *)
Inductive dberr :=
  | Fault (f : dbfault)
  | RowNotFound
  | NotSingular
  | CtxDone
  | AppError (e : apperr).

#[global] Instance apperr_eq_dec : EqDecision apperr.
Proof. solve_decision. Defined.
#[global] Instance dbfault_eq_dec : EqDecision dbfault.
Proof. solve_decision. Defined.
#[global] Instance dberr_eq_dec : EqDecision dberr.
Proof. solve_decision. Defined.

Definition IsDeadlockError (e : dberr) : bool := bool_decide (e = Fault Deadlock).
Definition IsDuplicateKeyError (e : dberr) : bool := bool_decide (e = Fault DuplicateKey).
Definition IsNotFoundError (e : dberr) : bool := bool_decide (e = RowNotFound).

(** What a commit does, and what it reports: a commit whose reply is lost reports
    an error. *)
Inductive commit_outcome :=
  | Committed
  | NotCommitted (f : dbfault)
  | CommittedUnknown (f : dbfault).

Section tx.
Context {V DB : Type}.

(** A closure at work: its captured variables, the rows it sees, and which of the
    statements to come fail ([None]: it succeeds; so do those after the end). *)
Record session := mkSession {
  vars : V;
  rows : DB;
  faults : list (option dbfault);
}.

Definition stmt {A} (q : DB → A * DB) : eff session dberr A := λ s,
  match faults s with
  | Some f :: fs => (Err (Fault f), mkSession (vars s) (rows s) fs)
  | fs => let '(a, d) := q (rows s) in (Ok a, mkSession (vars s) d (tail fs))
  end.

(** A statement the database may refuse, as for a violated constraint. *)
Definition stmt_or {A} (q : DB → result dberr (A * DB)) : eff session dberr A :=
  r ← stmt (λ d, match q d with Ok (a, d') => (Ok a, d') | Err e => (Err e, d) end);
  lift r.

Definition query {A} (q : DB → A) : eff session dberr A := stmt (λ d, (q d, d)).
Definition exec (u : DB → DB) : eff session dberr unit := stmt (λ d, ((), u d)).
Definition assign (f : V → V) : eff session dberr unit := λ s,
  (Ok (), mkSession (f (vars s)) (rows s) (faults s)).

(** One attempt: what other clients commit before it, whether it begins, its
    statements, its commit, and whether the context is done in the wait after it. *)
Record attempt := mkAttempt {
  a_others : DB → DB;
  a_begin : option dbfault;
  a_stmts : list (option dbfault);
  a_commit : commit_outcome;
  a_done : bool;
}.

Definition WithTransaction (a : attempt) (fn : eff session dberr unit) (v : V) (d : DB) :
    result dberr unit * V * DB :=
  match a_begin a with
  | Some f => (Err (Fault f), v, d)
  | None =>
      match fn (mkSession v d (a_stmts a)) with
      | (Err e, s) => (Err e, vars s, d)
      | (Ok _, s) =>
          match a_commit a with
          | Committed => (Ok (), vars s, rows s)
          | NotCommitted f => (Err (Fault f), vars s, d)
          | CommittedUnknown f => (Err (Fault f), vars s, rows s)
          end
      end
  end.

Definition maxAttempts : nat := 5.

(** The loop from attempt [i] on, with [k] attempts after it. *)
Fixpoint retry_from (env : nat → attempt) (fn : eff session dberr unit) (i k : nat) (v : V) (d : DB) :
    result dberr unit * V * DB :=
  let '(r, v, d) := WithTransaction (env i) fn v (a_others (env i) d) in
  match r with
  | Ok _ => (Ok (), v, d)
  | Err e =>
      if negb (IsDeadlockError e || IsDuplicateKeyError e) then (Err e, v, d) else
      match k with
      | 0 => (Err e, v, d)
      | S k => if a_done (env i) then (Err CtxDone, v, d) else retry_from env fn (S i) k v d
      end
  end.

Definition withEntTransactionRetry (env : nat → attempt) (fn : eff session dberr unit) :
    V → DB → result dberr unit * V * DB :=
  retry_from env fn 0 (maxAttempts - 1).

(** ** Lemmas *)

#[export] Instance session_faulty : Faulty session (V * DB) := {
  view s := (vars s, rows s);
  calm b s := b = false → faults s = [];
}.

(** After [m], started on variables [v] and rows [d], [Q] holds of the result, the
    variables and the rows: whatever statements fail, or, when [sure], if none does. *)
Definition after {A} (sure : bool) (Q : result dberr A → V → DB → Prop) (m : eff session dberr A)
    (v : V) (d : DB) : Prop :=
  wp (negb sure) m (λ r w, Q r w.1 w.2) (v, d).

Lemma after_run {A} (Q : result dberr A → V → DB → Prop) sure (m : eff session dberr A) v d fs :
  after sure Q m v d → (sure = true → fs = []) →
  let '(r, s) := m (mkSession v d fs) in (sure = true → faults s = []) ∧ Q r (vars s) (rows s).
Proof.
  intros Hm Hfs. destruct (Hm (mkSession v d fs) eq_refl) as [Hq HQ].
  - intros Hs. apply Hfs. by destruct sure.
  - destruct (m _). split; [|done]. intros ->. by apply Hq.
Qed.

Section after.
Context {A : Type} (sure : bool).
Implicit Types Q : result dberr A → V → DB → Prop.

Lemma after_mono Q Q' m v d : after sure Q m v d → (∀ r v d, Q r v d → Q' r v d) → after sure Q' m v d.
Proof. intros Hm HQ. eapply wp_mono; [exact Hm|]. intros r [v' d']. apply HQ. Qed.

Lemma after_and Q Q' m v d : after sure Q m v d → after sure Q' m v d → after sure (λ r v d, Q r v d ∧ Q' r v d) m v d.
Proof. intros Hm Hm' s Hs Hq. destruct (Hm s Hs Hq), (Hm' s Hs Hq). by split_and!. Qed.

Lemma after_ret Q a v d : Q (Ok a) v d → after sure Q (mret a) v d.
Proof. intros. by apply wp_ret. Qed.

Lemma after_throw Q e v d : Q (Err e) v d → after sure Q (throw e) v d.
Proof. intros. by apply wp_throw. Qed.

Lemma after_bind {B} (Q : result dberr B → V → DB → Prop) (m : eff session dberr A) k v d :
  after sure (λ r v d, match r with Ok a => after sure Q (k a) v d | Err e => Q (Err e) v d end) m v d →
  after sure Q (m ≫= k) v d.
Proof. intros Hm. apply wp_bind. eapply wp_mono; [exact Hm|]. by intros [a|e] [v' d']. Qed.

Lemma after_try (Q : result dberr (result dberr A) → V → DB → Prop) (m : eff session dberr A) v d :
  after sure (λ r, Q (Ok r)) m v d → after sure Q (try m) v d.
Proof. intros Hm. by apply wp_try. Qed.

Lemma after_stmt Q (q : DB → A * DB) v d :
  (sure = false → ∀ f, Q (Err (Fault f)) v d) → Q (Ok (q d).1) v (q d).2 → after sure Q (stmt q) v d.
Proof.
  intros He Hq [v0 d0 fs] [= -> ->] Hfs. unfold stmt. simpl in *. destruct (q d) as [a d'], sure; simpl in *.
  - by rewrite (Hfs eq_refl).
  - destruct fs as [|[f|] fs]; simpl; (split; [done|by auto]).
Qed.

Lemma after_lift Q r v d : Q r v d → after sure Q (lift r) v d.
Proof. intros. by apply wp_lift. Qed.

Lemma after_query Q (q : DB → A) v d :
  (sure = false → ∀ f, Q (Err (Fault f)) v d) → Q (Ok (q d)) v d → after sure Q (query q) v d.
Proof. intros. by apply after_stmt. Qed.
End after.

Lemma after_stmt_or {A} sure (Q : result dberr A → V → DB → Prop) (q : DB → result dberr (A * DB)) v d :
  (sure = false → ∀ f, Q (Err (Fault f)) v d) →
  match q d with Ok (a, d') => Q (Ok a) v d' | Err e => Q (Err e) v d end → after sure Q (stmt_or q) v d.
Proof.
  intros He Hq. apply after_bind, after_stmt; [done|]. destruct (q d) as [[a d']|e]; by apply after_lift.
Qed.

Lemma after_assign sure (Q : result dberr () → V → DB → Prop) f v d :
  Q (Ok ()) (f v) d → after sure Q (assign f) v d.
Proof. by intros ? [v0 d0 fs] [= -> ->] Hfs. Qed.

Lemma after_exec sure (Q : result dberr () → V → DB → Prop) (u : DB → DB) v d :
  (sure = false → ∀ f, Q (Err (Fault f)) v d) → Q (Ok ()) v (u d) → after sure Q (exec u) v d.
Proof. intros. by apply after_stmt. Qed.

(** An invariant of the variables and the rows, kept by other clients and by the
    closure, also when what it did to the rows is rolled back. *)
Lemma retry_from_inv (I : V → DB → Prop) env fn i k v d :
  (∀ i v d, I v d → I v (a_others (env i) d)) →
  (∀ v d, I v d → after false (λ r v' d', I v' d ∧ (is_ok r = true → I v' d')) fn v d) →
  I v d → I (retry_from env fn i k v d).1.2 (retry_from env fn i k v d).2.
Proof.
  intros Ho Hfn.
  assert (∀ i v d, I v d → I (WithTransaction (env i) fn v (a_others (env i) d)).1.2
            (WithTransaction (env i) fn v (a_others (env i) d)).2) as Hw.
  { clear i v d. intros i v d Hi. apply (Ho i) in Hi. unfold WithTransaction. destruct (a_begin _); [done|].
    specialize (Hfn v _ Hi). apply (after_run _ _ _ _ _ (a_stmts (env i))) in Hfn; [|done]. destruct (fn _) as [[[]|e] s], Hfn as [_ [H1 H2]]; [|done].
    specialize (H2 eq_refl). by destruct (a_commit _). }
  revert i v d. induction k as [|k IH]; intros i v d Hi; specialize (Hw i v d Hi); simpl;
    destruct (WithTransaction _ _ _ _) as [[r v1] d1]; repeat (case_match; simpl; try done).
  by apply IH.
Qed.

(** What is known of the error it gives up with. *)
Lemma retry_from_error (I : V → DB → Prop) (E : dberr → DB → Prop) env fn i k v d :
  (∀ f d, E (Fault f) d) → (∀ d, E CtxDone d) → (∀ i v d, I v d → I v (a_others (env i) d)) →
  (∀ v d, I v d → after false (λ r v' d', I v' d ∧ match r with Ok _ => I v' d' | Err e => E e d end) fn v d) →
  I v d → match retry_from env fn i k v d with (Err e, _, d') => E e d' | _ => True end.
Proof.
  intros Hf Hc Ho Hfn. revert i v d.
  assert (∀ i v d, I v d → match WithTransaction (env i) fn v (a_others (env i) d) with
    (Ok _, _, _) => True | (Err e, v', d') => E e d' ∧ I v' d' end) as Hw.
  { intros i v d Hi. apply (Ho i) in Hi. unfold WithTransaction. destruct (a_begin _); [done|].
    specialize (Hfn v _ Hi). apply (after_run _ _ _ _ _ (a_stmts (env i))) in Hfn; [|done].
    destruct (fn _) as [[[]|e] s], Hfn as (_ & H1 & H2); [|done]. by destruct (a_commit _). }
  induction k as [|k IH]; intros i v d Hi; specialize (Hw i v d Hi); simpl;
    destruct (WithTransaction _ _ _ _) as [[[[]|e] v1] d1]; try done; destruct Hw as [He H1];
    (destruct (negb _); [done|]); [done|]. destruct (a_done _); [done|]. by apply IH.
Qed.

(** The attempt that succeeds starts where the invariant holds. *)
Lemma retry_from_last (I : V → DB → Prop) env fn i k v d v' d' :
  (∀ i v d, I v d → I v (a_others (env i) d)) →
  (∀ v d, I v d → after false (λ r v' d', I v' d ∧ (is_ok r = true → I v' d')) fn v d) →
  I v d → retry_from env fn i k v d = (Ok (), v', d') →
  ∃ j v0 d0 s, I v0 d0 ∧ fn (mkSession v0 d0 (a_stmts (env j))) = (Ok (), s) ∧ v' = vars s ∧ d' = rows s.
Proof.
  intros Ho Hfn. revert i v d. induction k as [|k IH]; intros i v d Hi Hrun; simpl in Hrun;
    apply (Ho i) in Hi; unfold WithTransaction in Hrun.
  all: destruct (a_begin (env i)) as [f|]; simpl in Hrun; [repeat (case_match; simplify_eq); try done|].
  all: try (by eapply IH).
  all: pose proof (Hfn v _ Hi) as Hrun0; apply (after_run _ _ _ _ _ (a_stmts (env i))) in Hrun0; [|done].
  all: destruct (fn _) as [[[]|e] s] eqn:Efn; destruct Hrun0 as (_ & H1 & H2); simpl in Hrun.
  all: try (destruct (a_commit (env i)); simpl in Hrun; simplify_eq; [by eexists i, v, _, s|..]).
  all: repeat (case_match; simplify_eq); try done; eapply IH; try exact Hrun; try done; by apply H2.
Qed.

Lemma WithTransaction_known a fn v d r v' d' :
  (∀ e, a_commit a ≠ CommittedUnknown e) →
  WithTransaction a fn v d = (r, v', d') →
  match r with
  | Ok _ => ∃ s, fn (mkSession v d (a_stmts a)) = (Ok (), s) ∧ v' = vars s ∧ d' = rows s
  | Err _ => d' = d
  end.
Proof.
  intros Hc. unfold WithTransaction. intros Hw. repeat case_match; simplify_eq; try done;
    try match goal with u : () |- _ => destruct u end; eauto.
  by edestruct Hc.
Qed.

Lemma retry_from_atomic env fn i k v d r v' d' :
  (∀ i d, a_others (env i) d = d) → (∀ i e, a_commit (env i) ≠ CommittedUnknown e) →
  retry_from env fn i k v d = (r, v', d') →
  match r with
  | Ok _ => ∃ j v0 s, fn (mkSession v0 d (a_stmts (env j))) = (Ok (), s) ∧ v' = vars s ∧ d' = rows s
  | Err _ => d' = d
  end.
Proof.
  intros Ho Hc. revert i v d. induction k as [|k IH]; intros i v d; simpl; rewrite Ho;
    destruct (WithTransaction _ _ _ _) as [[r1 v1] d1] eqn:Hw; apply WithTransaction_known in Hw; [|done| |done];
    intros Hrun; repeat case_match; simplify_eq; try done; try (by apply IH in Hrun);
    destruct Hw as (s & ? & ? & ?); by exists i, v, s.
Qed.
End tx.

Arguments session : clear implicits.
Arguments attempt : clear implicits.

(** An undisturbed attempt. *)
Definition undisturbed {DB} : attempt DB := mkAttempt (λ d, d) None [] Committed false.

(** ** The properties *)

(** C18. Without other clients, and when no commit's reply is lost, a retried
    transaction takes effect exactly once when it succeeds, as one run of the
    closure on the database it started from, and not at all when it fails,
    however many attempts failed before. *)
Theorem transaction_atomic {V DB} (env : nat → attempt DB) (fn : eff (session V DB) dberr unit)
    (v : V) (d : DB) r v' d' :
  (∀ i d, a_others (env i) d = d) → (∀ i e, a_commit (env i) ≠ CommittedUnknown e) →
  withEntTransactionRetry env fn v d = (r, v', d') →
  match r with
  | Ok _ => ∃ j v0 s, fn (mkSession v0 d (a_stmts (env j))) = (Ok (), s) ∧ v' = vars s ∧ d' = rows s
  | Err _ => d' = d
  end.
Proof. apply retry_from_atomic. Qed.

(** Two deadlocks, the second at the commit, before the attempt that succeeds. *)
Definition sample_env (i : nat) : attempt nat :=
  match i with
  | 0 => mkAttempt (λ d, d) None [Some Deadlock] Committed false
  | 1 => mkAttempt (λ d, d) None [] (NotCommitted Deadlock) false
  | _ => undisturbed
  end.

Definition sample_fn : eff (session nat nat) dberr unit := _ ← assign S; exec (λ d, d + 10).

Lemma transaction_atomic_witness :
  withEntTransactionRetry sample_env sample_fn 0 7 = (Ok (), 3, 17) ∧
  ∃ j v0 s, sample_fn (mkSession v0 7 (a_stmts (sample_env j))) = (Ok (), s) ∧ 3 = vars s ∧ 17 = rows s.
Proof.
  split; [reflexivity|].
  refine (transaction_atomic sample_env sample_fn 0 7 (Ok ()) 3 17 _ _ _); [| |reflexivity].
  - intros [|[|i]] d; reflexivity.
  - intros [|[|i]] e; discriminate.
Defined.
