(* ===== verification/BuildTrace.v ===== *)
(** * Build traces ([pkg/cache/build_trace.go])

    Signed records of what a derivation's output was built to, uploaded as JSON,
    signed with the cache's own key and kept in two tables.  JSON and the
    signatures are interfaces; the upload's statements run in one retried
    transaction ([Tx]). *)
From S2P Require Import Prelude GoStd FS Tx.

(** ** The record *)

Record buildTraceSig := mkSig { KeyName : string; Sig : string }.

#[global] Instance buildTraceSig_eq_dec : EqDecision buildTraceSig.
Proof. solve_decision. Defined.

Record buildTraceEntry := mkEntry {
  DrvPath : string;
  OutputName : string;
  OutPath : string;
  Signatures : list buildTraceSig;
}.

(** [encoding/json] on the record, in both directions. *)
Class Json := {
  Marshal : buildTraceEntry → string;
  Unmarshal : string → option buildTraceEntry;
}.

(** The cache's secret key: its name, and the encoded signature of a text, unless
    signing fails; [verify] is what clients do with the public key. *)
Class SecretKey := {
  key_name : string;
  sign : string → option string;
  verify : string → string → bool;
}.

Class SecretKeyLaws (K : SecretKey) := {
  sign_verify fp sg : sign fp = Some sg → verify fp sg = true;
}.

(** ** The tables *)

Record entry_row := mkRow { id : nat; out_path : string; raw_json : string }.

(** [build_trace_entries] by its unique key, the next identifier, and
    [build_trace_signatures] by its own. *)
Record tables := mkTables {
  entries : gmap (string * string) entry_row;
  next_id : nat;
  signatures : gmap (nat * string) string;
}.

Inductive bt_err :=
  | ErrBadRequest
  | ErrBody
  | ErrSign
  | ErrNotFound
  | EDb (e : dberr).

Record Cache := mkCache { hostName : string; postgres : bool }.

(** The first mebibyte of a body is read. *)
Definition body_limit : Z := 1024 * 1024.

Definition ReadLimited (body : Reader) : option string :=
  if fails body && (Z.of_nat (String.length (bytes body)) <? body_limit)%Z then None
  else Some (str_take (Z.to_nat body_limit) (bytes body)).

Section buildtrace.
Context {J : Json} {K : SecretKey}.

Definition buildTraceFingerprint (e : buildTraceEntry) : string :=
  Marshal (mkEntry (DrvPath e) (OutputName e) (OutPath e) []).

Definition drvFullPath (drvName : string) : string := "/nix/store/" +:+ drvName.

Definition HasBuildTrace (fault : option dbfault) (drvName outputName : string) (d : tables) : bool :=
  match fault with
  | Some _ => false
  | None => bool_decide (is_Some (entries d !! (drvFullPath drvName, outputName)))
  end.

(** The signatures of a row; the query asks for no order. *)
Definition signatures_of (i : nat) (d : tables) : list buildTraceSig :=
  (λ kv, mkSig kv.1.2 kv.2) <$> filter (λ kv, kv.1.1 = i) (map_to_list (signatures d)).

Definition loaded (key : string * string) (d : tables) : option buildTraceEntry :=
  (λ row, mkEntry key.1 key.2 (out_path row) (signatures_of (id row) d)) <$> entries d !! key.

Definition GetBuildTrace (fault : option dbfault) (drvName outputName : string) (d : tables) :
    result bt_err string :=
  match fault with
  | Some f => Err (EDb (Fault f))
  | None => of_option ErrNotFound (Marshal <$> loaded (drvFullPath drvName, outputName) d)
  end.

(** [signBuildTrace]: the signatures of the host's name are replaced. *)
Definition signBuildTrace (c : Cache) (e : buildTraceEntry) : option buildTraceEntry :=
  sg ← sign (buildTraceFingerprint e);
  Some (mkEntry (DrvPath e) (OutputName e) (OutPath e)
    (filter (λ s, KeyName s ≠ hostName c) (Signatures e) ++ [mkSig key_name sg])).

(** ** The transaction *)

Definition upsert (key : string * string) (outPath raw : string) (d : tables) : tables :=
  match entries d !! key with
  | Some row => mkTables (<[key := mkRow (id row) outPath raw]> (entries d)) (next_id d) (signatures d)
  | None => mkTables (<[key := mkRow (next_id d) outPath raw]> (entries d)) (S (next_id d)) (signatures d)
  end.

Definition delete_signatures (i : nat) (d : tables) : tables :=
  mkTables (entries d) (next_id d) (filter (λ kv, kv.1.1 ≠ i) (signatures d)).

Definition valid_sig (s : buildTraceSig) : bool := negb (bool_decide (KeyName s = "" ∨ Sig s = "")).

(** The rows of one statement: columns must not be empty; PostgreSQL refuses to
    update a row twice in one statement. *)
Definition insert_signatures (pg : bool) (i : nat) (sigs : list buildTraceSig) (d : tables) :
    result dberr (unit * tables) :=
  if negb (forallb valid_sig sigs) then Err (AppError ErrInvalid)
  else if pg && negb (bool_decide (NoDup (KeyName <$> sigs))) then Err (Fault OtherFault)
  else Ok ((), mkTables (entries d) (next_id d)
    (foldl (λ m s, <[(i, KeyName s) := Sig s]> m) (signatures d) sigs)).

Definition addBuildTraceSignatures (pg : bool) (i : nat) (sigs : list buildTraceSig) :
    eff (session unit tables) dberr unit :=
  match sigs with
  | [] => mret ()
  | _ => stmt_or (insert_signatures pg i sigs)
  end.

Definition put_tx (pg : bool) (key : string * string) (outPath raw : string) (sigs : list buildTraceSig) :
    eff (session unit tables) dberr unit :=
  exec (upsert key outPath raw);;
  row ← query (λ d, entries d !! key);
  match row with
  | None => throw RowNotFound
  | Some row =>
      exec (delete_signatures (id row));;
      addBuildTraceSignatures pg (id row) sigs
  end.

(** What an upload must be, and the entry that is stored. *)
Definition accept (c : Cache) (drvName outputName : string) (body : Reader) :
    result bt_err (string * buildTraceEntry) :=
  raw ← of_option ErrBody (ReadLimited body);
  entry ← of_option ErrBadRequest (Unmarshal raw);
  if bool_decide (DrvPath entry = "" ∨ OutputName entry = "" ∨ OutPath entry = "") then Err ErrBadRequest
  else if negb (bool_decide (DrvPath entry = drvFullPath drvName)) then Err ErrBadRequest
  else if negb (bool_decide (OutputName entry = outputName)) then Err ErrBadRequest
  else
    entry ← of_option ErrSign (signBuildTrace c entry);
    Ok (raw, entry).

Definition PutBuildTrace (c : Cache) (env : nat → attempt tables) (drvName outputName : string)
    (body : Reader) (d : tables) : result bt_err unit * tables :=
  match accept c drvName outputName body with
  | Err e => (Err e, d)
  | Ok (raw, entry) =>
      let '(r, _, d) := withEntTransactionRetry env
        (put_tx (postgres c) (DrvPath entry, outputName) (OutPath entry) raw (Signatures entry)) () d in
      (map_err EDb r, d)
  end.

(** ** Lemmas *)

(** Identifiers are unique and below the next one. *)
Record wf (d : tables) : Prop := {
  wf_next k row : entries d !! k = Some row → id row < next_id d;
  wf_ids k1 k2 r1 r2 : entries d !! k1 = Some r1 → entries d !! k2 = Some r2 → id r1 = id r2 → k1 = k2;
  wf_sigs i n sg : signatures d !! (i, n) = Some sg → i < next_id d;
}.

(** The signature each name ends up with. *)
Definition last_sigs (sigs : list buildTraceSig) : gmap string string :=
  foldl (λ m s, <[KeyName s := Sig s]> m) ∅ sigs.

Definition row_sigs (i : nat) (d : tables) (n : string) : option string := signatures d !! (i, n).

Lemma elem_of_signatures_of i d s : s ∈ signatures_of i d ↔ row_sigs i d (KeyName s) = Some (Sig s).
Proof.
  unfold signatures_of, row_sigs. rewrite list_elem_of_fmap. setoid_rewrite list_elem_of_filter.
  setoid_rewrite elem_of_map_to_list'. split.
  - intros ([[j n] sg] & -> & <- & Hin). exact Hin.
  - intros Hs. exists ((i, KeyName s), Sig s). by destruct s.
Qed.

Lemma upsert_lookup key o raw d :
  wf d → ∃ row, entries (upsert key o raw d) !! key = Some row ∧ out_path row = o ∧
    wf (upsert key o raw d) ∧ signatures (upsert key o raw d) = signatures d ∧
    (∀ k, k ≠ key → entries (upsert key o raw d) !! k = entries d !! k).
Proof.
  intros [Hn Hi Hs]. unfold upsert. destruct (entries d !! key) as [row|] eqn:Hk; simpl.
  - exists (mkRow (id row) o raw). rewrite lookup_insert_eq. split_and!; [done..| |done|].
    + split; simpl; [| |done].
      * intros k r [[<- <-]|[_ Hr]]%lookup_insert_Some; simpl; [by eapply Hn|by eapply Hn].
      * intros k1 k2 r1 r2 [[<- <-]|[N1 H1]]%lookup_insert_Some [[<- <-]|[N2 H2]]%lookup_insert_Some; simpl.
        -- done. -- by apply (Hi key k2 row r2 Hk H2). -- intros E. by apply (Hi k1 key r1 row H1 Hk). -- by apply Hi.
    + intros k Hne. by rewrite lookup_insert_ne.
  - exists (mkRow (next_id d) o raw). rewrite lookup_insert_eq. split_and!; [done..| |done|].
    + split; simpl.
      * intros k r [[<- <-]|[_ Hr]]%lookup_insert_Some; simpl; [lia|]. apply Hn in Hr. lia.
      * intros k1 k2 r1 r2 [[<- <-]|[N1 H1]]%lookup_insert_Some [[<- <-]|[N2 H2]]%lookup_insert_Some; simpl; intros E.
        -- done. -- apply Hn in H2. lia. -- apply Hn in H1. lia. -- by apply (Hi k1 k2 r1 r2).
      * intros i n sg Hg. apply Hs in Hg. lia.
    + intros k Hne. by rewrite lookup_insert_ne.
Qed.

Lemma fold_insert_other (sigs : list buildTraceSig) (m : gmap (nat * string) string) i j n :
  i ≠ j → foldl (λ m s, <[(i, KeyName s) := Sig s]> m) m sigs !! (j, n) = m !! (j, n).
Proof.
  intros Hne. revert m. induction sigs as [|s sigs IH]; intros m; [done|]. simpl. rewrite IH.
  rewrite lookup_insert_ne; [done|congruence].
Qed.

Lemma fold_insert_same (sigs : list buildTraceSig) (m : gmap (nat * string) string) (m' : gmap string string) i n :
  m !! (i, n) = m' !! n →
  foldl (λ m s, <[(i, KeyName s) := Sig s]> m) m sigs !! (i, n) = foldl (λ m s, <[KeyName s := Sig s]> m) m' sigs !! n.
Proof.
  revert m m'. induction sigs as [|s sigs IH]; intros m m' Hm; [done|]. simpl. apply IH.
  destruct (decide (KeyName s = n)) as [->|Hne]; [by rewrite !lookup_insert_eq|].
  rewrite !lookup_insert_ne; [done|done|congruence].
Qed.

(** What the closure has done when it succeeds. *)
Definition stored (key : string * string) (o : string) (sigs : list buildTraceSig) (d d' : tables) : Prop :=
  wf d' ∧
  (∃ row, entries d' !! key = Some row ∧ out_path row = o ∧ ∀ n, row_sigs (id row) d' n = last_sigs sigs !! n) ∧
  (∀ k row, k ≠ key → entries d !! k = Some row →
     entries d' !! k = Some row ∧ ∀ n, row_sigs (id row) d' n = row_sigs (id row) d n).

Lemma after_put_tx sure pg key o raw sigs v d :
  wf d → sigs ≠ [] →
  after sure (λ r _ d', is_ok r = true → stored key o sigs d d') (put_tx pg key o raw sigs) v d.
Proof.
  intros Hwf Hne. unfold put_tx.
  destruct (upsert_lookup key o raw d Hwf) as (row & Hrow & Ho & [Hn1 Hi1 Hs1] & Hsg & Hother).
  set (d1 := upsert key o raw d) in *. apply after_bind, after_exec; [done|]. fold d1.
  apply after_bind, after_query; [done|]. rewrite Hrow.
  apply after_bind, after_exec; [done|]. destruct sigs as [|s sigs]; [done|].
  unfold addBuildTraceSignatures. apply after_stmt_or; [done|]. unfold insert_signatures.
  destruct (negb (forallb valid_sig _)); [done|]. destruct (pg && _); [done|]. intros _.
  set (m := filter (λ kv, kv.1.1 ≠ id row) (signatures d1)).
  assert (∀ j n, id row ≠ j → m !! (j, n) = signatures d1 !! (j, n)) as Hmj.
  { intros j n Hj. unfold m. destruct (signatures d1 !! (j, n)) as [sg|] eqn:E.
    - by apply map_lookup_filter_Some_2.
    - apply map_lookup_filter_None. by left. }
  assert (∀ n, m !! (id row, n) = None) as Hmi.
  { intros n. unfold m. apply map_lookup_filter_None. right. intros sg _. simpl. by intros []. }
  split_and!.
  - split; cbn [entries next_id signatures delete_signatures]; [done|done|]. fold m. intros j n sg Hj.
    destruct (decide (id row = j)) as [<-|Hij]; [by eapply Hn1|].
    rewrite fold_insert_other, Hmj in Hj by done. by eapply Hs1.
  - exists row. split_and!; [done..|]. intros n. unfold row_sigs. cbn [signatures delete_signatures]. fold m.
    apply fold_insert_same. by rewrite Hmi, lookup_empty.
  - intros k r Hk Hr. cbn [entries delete_signatures]. rewrite Hother by done. split; [done|].
    intros n. unfold row_sigs. cbn [signatures delete_signatures]. fold m.
    assert (id row ≠ id r) as Hij.
    { intros E. apply Hk. symmetry. apply (Hi1 key k row r); [done| |done]. by rewrite Hother. }
    by rewrite fold_insert_other, Hmj, Hsg.
Qed.
End buildtrace.

(** ** Lemmas: the signatures that are kept *)

Lemma last_sigs_app sigs s n :
  last_sigs (sigs ++ [s]) !! n = if decide (KeyName s = n) then Some (Sig s) else last_sigs sigs !! n.
Proof.
  unfold last_sigs. rewrite foldl_app. simpl. case_decide as Hn; [subst; by rewrite lookup_insert_eq|].
  by rewrite lookup_insert_ne.
Qed.

Lemma last_sigs_filter h sigs n :
  last_sigs (filter (λ s, KeyName s ≠ h) sigs) !! n = if decide (n = h) then None else last_sigs sigs !! n.
Proof.
  assert (∀ m m' : gmap string string, (∀ n, n ≠ h → m !! n = m' !! n) → ∀ n,
    foldl (λ m s, <[KeyName s := Sig s]> m) m (filter (λ s, KeyName s ≠ h) sigs) !! n =
    if decide (n = h) then m !! n else foldl (λ m s, <[KeyName s := Sig s]> m) m' sigs !! n) as Hgen.
  { induction sigs as [|s sigs IH]; intros m m' Hm n'; simpl; [case_decide; [done|by apply Hm]|].
    destruct (decide (KeyName s = h)) as [Hs|Hs]; [rewrite filter_cons_False by (intros []; done)|rewrite filter_cons_True by done].
    2:{ simpl. rewrite (IH _ (<[KeyName s := Sig s]> m')).
      + case_decide; [|done]. subst. by rewrite lookup_insert_ne.
      + intros n0 Hn0. destruct (decide (KeyName s = n0)) as [->|?]; [by rewrite !lookup_insert_eq|].
        rewrite !lookup_insert_ne by done. by apply Hm. }
    apply IH. intros n0 Hn0. rewrite lookup_insert_ne; [by apply Hm|congruence]. }
  unfold last_sigs. rewrite (Hgen ∅ ∅) by done. by case_decide.
Qed.

Section signed.
Context {J : Json} {K : SecretKey} {KL : SecretKeyLaws K}.

Lemma accept_inv c drv out body raw e :
  accept c drv out body = Ok (raw, e) →
  ∃ b sg, ReadLimited body = Some raw ∧ Unmarshal raw = Some b ∧
    DrvPath b = drvFullPath drv ∧ OutputName b = out ∧ OutPath b ≠ "" ∧
    sign (buildTraceFingerprint b) = Some sg ∧
    e = mkEntry (DrvPath b) (OutputName b) (OutPath b)
          (filter (λ s, KeyName s ≠ hostName c) (Signatures b) ++ [mkSig key_name sg]).
Proof.
  unfold accept. intros Ha. inv_ok.
  repeat match goal with H : of_option _ ?o = Ok _ |- _ => destruct o eqn:?; simplify_eq/= end.
  repeat case_bool_decide; simplify_eq/=. inv_ok.
  destruct (signBuildTrace c _) as [e'|] eqn:Hs; simplify_eq/=. unfold signBuildTrace in Hs.
  destruct (sign _) as [sg|] eqn:Hsg; simplify_eq/=. eexists _, sg. split_and!; try done. naive_solver.
Qed.

Lemma put_run sure_env pg key o raw sigs d v' d' :
  (∀ i d, a_others (sure_env i) d = d) → (∀ i e, a_commit (sure_env i) ≠ CommittedUnknown e) →
  wf d → sigs ≠ [] → withEntTransactionRetry sure_env (put_tx pg key o raw sigs) () d = (Ok (), v', d') →
  stored key o sigs d d'.
Proof.
  intros Ho Hc Hwf Hs Hrun. apply retry_from_atomic in Hrun as (j & v0 & s & Hfn & _ & ->); [|done..].
  pose proof (after_put_tx false pg key o raw sigs v0 d Hwf Hs) as Ha.
  apply (after_run _ _ _ _ _ (a_stmts (sure_env j))) in Ha; [|done]. rewrite Hfn in Ha. by apply Ha.
Qed.
End signed.

(** ** The properties *)

(** C30. An uploaded build trace is served: with no other client and no lost commit,
    an upload either fails and changes nothing, or the body named the path's
    derivation and output, the stored record has its output path, and what
    [GetBuildTrace] answers carries the cache's own signature, which verifies for
    the record served, and of the other names exactly the body's last signatures,
    but for the host's name; every other record and its signatures are as before. *)
Theorem build_trace_served {J : Json} {K : SecretKey} {KL : SecretKeyLaws K} (c : Cache)
    (env : nat → attempt tables) (drv out : string) (body : Reader) (d : tables) :
  wf d → (∀ i d, a_others (env i) d = d) → (∀ i e, a_commit (env i) ≠ CommittedUnknown e) →
  match PutBuildTrace c env drv out body d with
  | (Err _, d') => d' = d
  | (Ok _, d') => wf d' ∧ ∃ raw b e sg,
      ReadLimited body = Some raw ∧ Unmarshal raw = Some b ∧
      DrvPath b = drvFullPath drv ∧ OutputName b = out ∧
      GetBuildTrace None drv out d' = Ok (Marshal e) ∧
      DrvPath e = DrvPath b ∧ OutputName e = out ∧ OutPath e = OutPath b ∧
      mkSig key_name sg ∈ Signatures e ∧ verify (buildTraceFingerprint e) sg = true ∧
      (∀ s, KeyName s ≠ key_name →
         s ∈ Signatures e ↔ KeyName s ≠ hostName c ∧ last_sigs (Signatures b) !! KeyName s = Some (Sig s)) ∧
      ∀ k e', k ≠ (drvFullPath drv, out) → loaded k d = Some e' →
        ∃ e'', loaded k d' = Some e'' ∧ OutPath e'' = OutPath e' ∧ ∀ s, s ∈ Signatures e'' ↔ s ∈ Signatures e'
  end.
Proof.
  intros Hwf Ho Hc. unfold PutBuildTrace. destruct (accept c drv out body) as [[raw e0]|] eqn:Ha; [|done].
  apply accept_inv in Ha as (b & sg & Hraw & Hb & Hdrv & Hout & _ & Hsg & ->). cbn [DrvPath OutPath Signatures].
  set (sigs := _ ++ [mkSig key_name sg]).
  assert (sigs ≠ []) as Hne by (unfold sigs; by destruct (filter _ _)).
  destruct (withEntTransactionRetry env _ () d) as [[r v'] d'] eqn:Hrun. destruct r as [[]|err]; cbn [map_err].
  2:{ apply retry_from_atomic in Hrun; done. }
  rewrite Hdrv in Hrun.
  destruct (put_run env _ _ _ _ _ _ _ _ Ho Hc Hwf Hne Hrun) as (Hwf' & (row & Hrow & Hop & Hsigs) & Hother).
  split; [done|]. exists raw, b.
  exists (mkEntry (drvFullPath drv) out (OutPath b) (signatures_of (id row) d')), sg.
  assert (∀ s, s ∈ signatures_of (id row) d' ↔ last_sigs sigs !! KeyName s = Some (Sig s)) as Hin.
  { intros s. by rewrite elem_of_signatures_of, Hsigs. }
  split_and!; [done..| | | | | | | |].
  - unfold GetBuildTrace, loaded. by rewrite Hrow; simpl; rewrite Hop.
  - done.
  - done.
  - done.
  - apply Hin. unfold sigs. rewrite last_sigs_app. simpl. by rewrite decide_True.
  - apply sign_verify. rewrite <- Hsg. unfold buildTraceFingerprint. simpl. by rewrite Hdrv, Hout.
  - intros s Hs. cbn [Signatures]. rewrite Hin. unfold sigs. rewrite last_sigs_app, last_sigs_filter. simpl.
    rewrite decide_False by done. case_decide as Hh; naive_solver.
  - intros k e' Hk. unfold loaded. destruct (entries d !! k) as [r|] eqn:Hr; [|done]. intros [= <-].
    destruct (Hother k r Hk Hr) as [-> Hsame]. eexists. split; [done|]. split; [done|]. intros s.
    cbn [Signatures]. by rewrite !elem_of_signatures_of, Hsame.
Qed.

(** [signBuildTrace] recognises the cache's earlier signature by the host's
    name, not by the key's: when the two differ, PostgreSQL refuses, whatever other
    clients do and however often the transaction is retried, every upload that
    carries the cache's own earlier signature, as a record it served does. *)
Theorem resigned_upload_refused {J : Json} {K : SecretKey} {KL : SecretKeyLaws K} (c : Cache)
    (env : nat → attempt tables) (drv out : string) (body : Reader) (d : tables) (raw : string) (b : buildTraceEntry) :
  postgres c = true → key_name ≠ hostName c →
  ReadLimited body = Some raw → Unmarshal raw = Some b → key_name ∈ KeyName <$> Signatures b →
  is_ok (PutBuildTrace c env drv out body d).1 = false.
Proof.
  intros Hpg Hne Hraw Hb Hin. unfold PutBuildTrace.
  destruct (accept c drv out body) as [[raw' e0]|] eqn:Ha; [|done].
  apply accept_inv in Ha as (b' & sg & Hraw' & Hb' & _ & _ & _ & _ & ->). simplify_eq. cbn [Signatures OutPath DrvPath].
  set (sigs := _ ++ [mkSig key_name sg]).
  assert (¬ NoDup (KeyName <$> sigs)) as Hdup.
  { unfold sigs. rewrite fmap_app, NoDup_app. intros (_ & Hd & _). apply (Hd key_name); [|by left].
    apply list_elem_of_fmap in Hin as (s & Hk & Hs). apply list_elem_of_fmap. exists s. split; [done|].
    apply list_elem_of_filter. split; [by rewrite <- Hk|done]. }
  destruct (withEntTransactionRetry env _ () d) as [[r v'] d'] eqn:Hrun. destruct r as [[]|err]; [|done]. exfalso.
  assert (∀ v d, True → after (A := ()) false (λ r v' d', r ≠ Ok ())
    (put_tx (postgres c) (DrvPath b, out) (OutPath b) raw sigs) v d) as Hput.
  { intros v d0 _. unfold put_tx. apply after_bind, after_exec; [done|]. apply after_bind, after_query; [done|].
    destruct (entries _ !! _) as [row|]; [|by apply after_throw]. apply after_bind, after_exec; [done|].
    unfold addBuildTraceSignatures. destruct sigs as [|s sigs'] eqn:Hsigs; [by unfold sigs in Hsigs; destruct (filter _ _)|].
    apply after_stmt_or; [done|]. unfold insert_signatures. destruct (negb (forallb valid_sig _)); [done|].
    by rewrite Hpg, bool_decide_false. }
  apply (retry_from_last (λ _ _, True)) in Hrun as (j & v0 & d0 & s & _ & Hfn & _); [|done| |done].
  - pose proof (after_run _ false _ v0 d0 (a_stmts (env j)) (Hput v0 d0 I) ltac:(done)) as Hr.
    rewrite Hfn in Hr. by destruct Hr.
  - intros v d0 _. eapply after_mono; [by apply Hput|]. done.
Qed.

(** ** A codec and a key, and witnesses *)

Fixpoint pairs_of (l : list string) : list buildTraceSig :=
  match l with k :: s :: l => mkSig k s :: pairs_of l | _ => [] end.

(** The fields in a row, instead of JSON. *)
#[local] Instance sample_json : Json := {
  Marshal e := join_with "|" (DrvPath e :: OutputName e :: OutPath e :: flat_map (λ s, [KeyName s; Sig s]) (Signatures e));
  Unmarshal raw :=
    match split_on "|" raw with
    | d :: o :: p :: l => Some (mkEntry d o p (pairs_of l))
    | _ => None
    end;
}.

#[local] Instance sample_key : SecretKey := {
  key_name := "cache-1";
  sign fp := Some ("signed:" +:+ fp);
  verify fp sg := bool_decide (sg = "signed:" +:+ fp);
}.

#[local] Instance sample_key_laws : SecretKeyLaws sample_key.
Proof. split. intros fp sg [= <-]. by apply bool_decide_eq_true. Defined.

Definition no_tables : tables := mkTables ∅ 0 ∅.

Definition upload (sigs : string) : Reader := mkReader ("/nix/store/a.drv|out|/nix/store/x" +:+ sigs) false.

Lemma no_traces_wf : wf no_tables.
Proof. split; intros *; cbn; by rewrite lookup_empty. Qed.

Lemma build_trace_served_witness :
  let '(r, d') := PutBuildTrace (mkCache "cache-1" true) (λ _, undisturbed) "a.drv" "out" (upload "|builder|s1|cache-1|old") no_tables in
  r = Ok () ∧ GetBuildTrace None "a.drv" "out" d' =
    Ok "/nix/store/a.drv|out|/nix/store/x|cache-1|signed:/nix/store/a.drv|out|/nix/store/x|builder|s1" ∧
  ∃ e sg, mkSig "cache-1" sg ∈ Signatures e ∧ verify (buildTraceFingerprint e) sg = true.
Proof.
  pose proof (build_trace_served (mkCache "cache-1" true) (λ _, undisturbed) "a.drv" "out" (upload "|builder|s1|cache-1|old")
    no_tables no_traces_wf (λ _ _, eq_refl)) as Hp. specialize (Hp ltac:(discriminate)).
  set (p := PutBuildTrace _ _ _ _ _ _) in *.
  assert (p.1 = Ok () ∧ GetBuildTrace None "a.drv" "out" p.2 =
    Ok "/nix/store/a.drv|out|/nix/store/x|cache-1|signed:/nix/store/a.drv|out|/nix/store/x|builder|s1") as [Hr Hg]
    by (split; vm_compute; reflexivity).
  clearbody p. destruct p as [r d']. cbn [fst snd] in *. subst r. split; [reflexivity|]. split; [exact Hg|].
  destruct Hp as (_ & _ & _ & e & sg & _ & _ & _ & _ & _ & _ & _ & _ & Hin & Hver & _). exists e, sg. split; assumption.
Defined.

Lemma resigned_upload_refused_witness :
  let put pg sigs := (PutBuildTrace (mkCache "cache.example" pg) (λ _, undisturbed) "a.drv" "out" (upload sigs) no_tables).1 in
  put true "" = Ok () ∧ put false "|cache-1|old" = Ok () ∧ is_ok (put true "|cache-1|old") = false.
Proof.
  split; [vm_compute; reflexivity|]. split; [vm_compute; reflexivity|].
  apply (resigned_upload_refused (mkCache "cache.example" true) (λ _, undisturbed) "a.drv" "out" (upload "|cache-1|old") no_tables
    (bytes (upload "|cache-1|old")) (mkEntry "/nix/store/a.drv" "out" "/nix/store/x" [mkSig "cache-1" "old"]));
    [reflexivity|discriminate|vm_compute; reflexivity|vm_compute; reflexivity|by left].
Defined.

(** What an upload is refused for before the database is asked. *)
Example bad_uploads :
  let put drv out body := (PutBuildTrace (mkCache "cache-1" true) (λ _, undisturbed) drv out body no_tables).1 in
  put "b.drv" "out" (upload "") = Err ErrBadRequest ∧ put "a.drv" "dev" (upload "") = Err ErrBadRequest ∧
  put "a.drv" "out" (mkReader "x" false) = Err ErrBadRequest ∧ put "a.drv" "out" (mkReader "x" true) = Err ErrBody ∧
  put "a.drv" "out" (upload "||s1") = Err (EDb (AppError ErrInvalid)) ∧
  (GetBuildTrace None "a.drv" "out" no_tables, HasBuildTrace None "a.drv" "out" no_tables) = (Err ErrNotFound, false).
Proof. by vm_compute. Qed.
