(* ===== verification/LRU.v ===== *)
(** * Eviction and pinned closures ([pkg/cache/cache.go])

    [runLRU] shrinks the cache below its maximal size: it computes the hashes
    pinned closures protect, deletes the least recently used other narinfos from
    the database, then the NAR files and chunks nothing refers to any more, and
    at last what the stores keep of them.  The tables are finite maps from row
    ids; a foreign key with cascading deletion drops the rows that refer to a
    deleted one. *)
From stdpp Require Import sorting.
From S2P Require Import Prelude GoStd Nar Tx.

(** ** The tables *)

(** A row of [narinfos] with its [narinfo_references]. *)
Record narinfo := mkNarInfo {
  ni_hash : string;
  ni_references : list string;
  ni_last_accessed_at : option Z;
}.

Record nar_file := mkNarFile {
  nf_hash : string;
  nf_compression : string;
  nf_query : string;
  nf_file_size : Z;
}.

(** The two lists are the link tables, in the order the database returns their
    rows: (narinfo, NAR file) and (NAR file, chunk); a chunk row is its hash. *)
Record tables := mkTables {
  narinfos : gmap Z narinfo;
  narinfo_nar_files : list (Z * Z);
  nar_files : gmap Z nar_file;
  nar_file_chunks : list (Z * Z);
  chunks : gmap Z string;
  pinned_closures : list string;
}.

(** [narinfos.hash] and [chunks.hash] are unique keys. *)
Record unique_keys (d : tables) : Prop := {
  narinfo_unique i j x y : narinfos d !! i = Some x → narinfos d !! j = Some y → ni_hash x = ni_hash y → i = j;
  chunk_unique i j h : chunks d !! i = Some h → chunks d !! j = Some h → i = j;
}.

Definition set_pins (l : list string) (d : tables) : tables :=
  mkTables (narinfos d) (narinfo_nar_files d) (nar_files d) (nar_file_chunks d) (chunks d) l.

(** [DeleteOneID] on a narinfo, with its links. *)
Definition delete_narinfo (i : Z) (d : tables) : tables :=
  mkTables (delete i (narinfos d)) (filter (λ x, x.1 ≠ i) (narinfo_nar_files d)) (nar_files d)
    (nar_file_chunks d) (chunks d) (pinned_closures d).

(** [HasNarInfoNarFiles] and [HasNarFileLinks]. *)
Definition has_narinfo (f : Z) (d : tables) : bool := bool_decide (f ∈ (narinfo_nar_files d).*2).
Definition has_nar_file (c : Z) (d : tables) : bool := bool_decide (c ∈ (nar_file_chunks d).*2).

Definition orphaned_nar_files (d : tables) : list nar_file :=
  (filter (λ x, has_narinfo x.1 d = false) (map_to_list (nar_files d))).*2.

Definition delete_orphaned_nar_files (d : tables) : tables :=
  mkTables (narinfos d) (narinfo_nar_files d) (filter (λ x, has_narinfo x.1 d = true) (nar_files d))
    (filter (λ x, has_narinfo x.1 d = true ∨ nar_files d !! x.1 = None) (nar_file_chunks d))
    (chunks d) (pinned_closures d).

Definition orphaned_chunks (d : tables) : list string :=
  (filter (λ x, has_nar_file x.1 d = false) (map_to_list (chunks d))).*2.

Definition delete_orphaned_chunks (d : tables) : tables :=
  mkTables (narinfos d) (narinfo_nar_files d) (nar_files d) (nar_file_chunks d)
    (filter (λ x, has_nar_file x.1 d = true) (chunks d)) (pinned_closures d).

(** [totalNarFileSize] *)
Definition totalNarFileSize (d : tables) : Z :=
  foldr (λ x n, (nf_file_size x.2 + n)%Z) 0%Z (map_to_list (nar_files d)).

(** ** Pinned closures *)

Section pins.
Context {V : Type}.
Notation M := (eff (session V tables) dberr).

(** [Query().Where(HashEQ(hash))], the rows it gives. *)
Definition narinfos_with (h : string) (d : tables) : list narinfo :=
  (map_to_list (filter (λ x, ni_hash x.2 = h) (narinfos d))).*2.

(** [PinClosure]; [None]: [storage.ErrNotFound]. *)
Definition PinClosure (h : string) : M (option ()) :=
  l ← query (narinfos_with h);
  match l with
  | [] => mret None
  | _ :: _ =>
      _ ← exec (λ d, if bool_decide (h ∈ pinned_closures d) then d else set_pins (pinned_closures d ++ [h]) d);
      mret (Some ())
  end.

Definition UnpinClosure (h : string) : M () :=
  exec (λ d, set_pins (filter (λ x, x ≠ h) (pinned_closures d)) d).

Definition ListPinnedClosures : M (list string) := query pinned_closures.

Definition IsNarInfoPinned (h : string) : M bool := query (λ d, bool_decide (h ∈ pinned_closures d)).

Definition narInfoHashLength : nat := 52.
Definition maxDepth : nat := 1000.

(** The traversal's variables. *)
Record bfs := mkBfs {
  excluded : gset string;
  visited : gset string;
  queue : list string;
}.

(** One round of the loop over the references of a narinfo. *)
Definition visit_reference (b : bfs) (ref : string) : bfs :=
  if String.length ref <? narInfoHashLength then b else
  let refHash := str_take narInfoHashLength ref in
  if bool_decide (refHash ∈ visited b) then b else
  mkBfs ({[refHash]} ∪ excluded b) ({[refHash]} ∪ visited b) (queue b ++ [refHash]).

(** [Only]: an error unless there is exactly one row. *)
Definition Only (h : string) : M narinfo :=
  l ← query (narinfos_with h);
  match l with
  | [] => throw RowNotFound
  | [ni] => mret ni
  | _ :: _ :: _ => throw NotSingular
  end.

(** One level: [n] hashes of the queue. *)
Fixpoint level (n : nat) (b : bfs) : M bfs :=
  match n, queue b with
  | S n, currentHash :: q =>
      let b := mkBfs (excluded b) (visited b) q in
      r ← try (Only currentHash);
      match r with
      | Err e => if IsNotFoundError e then level n b else throw e
      | Ok ni => level n (foldl visit_reference b (ni_references ni))
      end
  | _, _ => mret b
  end.

Fixpoint traverse (depth : nat) (b : bfs) : M bfs :=
  match depth, queue b with
  | S depth, _ :: _ => b ← level (length (queue b)) b; traverse depth b
  | _, _ => mret b
  end.

Definition GetPinnedClosureHashes : M (gset string) :=
  pinnedClosures ← query pinned_closures;
  let roots : gset string := list_to_set pinnedClosures in
  b ← traverse maxDepth (mkBfs roots roots pinnedClosures);
  mret (excluded b).
End pins.

(** ** Eviction *)

(** What the closure of [runLRU] assigns. *)
Record lru_vars := mkVars {
  narInfoHashesToRemove : list string;
  narURLsToRemove : list URL;
  chunkHashesToRemove : list string;
  cleanupSize : Z;
}.

Definition add64 (a b : Z) : Z := ((a + b) mod 2 ^ 64)%Z.

(** A row the query for the candidates returns, with the size of its NAR file. *)
Record candidate := mkCandidate {
  c_id : Z;
  c_hash : string;
  c_size : Z;
}.

Section lru.
(** Whether the database sorts NULL first. *)
Context (nulls_first : bool).
Notation M := (eff (session lru_vars tables) dberr).

Definition last_le (x y : option Z) : Prop :=
  match x, y with
  | Some a, Some b => (a ≤ b)%Z
  | None, None => True
  | None, Some _ => nulls_first = true
  | Some _, None => nulls_first = false
  end.

Definition last_lt (x y : option Z) : Prop := last_le x y ∧ x ≠ y.

(** [Order(Asc(last_accessed_at), Asc(id))] *)
Definition lru_le (x y : Z * narinfo) : Prop :=
  last_lt (ni_last_accessed_at x.2) (ni_last_accessed_at y.2) ∨
  ni_last_accessed_at x.2 = ni_last_accessed_at y.2 ∧ (x.1 ≤ y.1)%Z.

#[global] Instance last_le_dec : RelDecision last_le.
Proof. intros [a|] [b|]; simpl; apply _. Defined.

#[global] Instance lru_le_dec : RelDecision lru_le.
Proof. intros x y. unfold lru_le, last_lt. apply _. Defined.

(** [narInfoFileSize]: of the first link whose NAR file is there. *)
Definition narInfoFileSize (d : tables) (i : Z) : Z :=
  match omap (λ x, if decide (x.1 = i) then nar_files d !! x.2 else None) (narinfo_nar_files d) with
  | nf :: _ => nf_file_size nf
  | [] => 0
  end.

Definition maxFetchRows : nat := 10000.

Definition lru_candidates (d : tables) : list candidate :=
  (λ x, mkCandidate x.1 (ni_hash x.2) (narInfoFileSize d x.1)) <$>
    take maxFetchRows (merge_sort lru_le (map_to_list (narinfos d))).

(** The prefix of the candidates within the byte budget; [first]: nothing was
    taken so far. *)
Fixpoint within_budget (byteBudget cumulative : Z) (first : bool) (l : list candidate) : list candidate :=
  match l with
  | [] => []
  | info :: l =>
      let next := add64 cumulative (c_size info) in
      if (byteBudget <? next)%Z && negb first then [] else info :: within_budget byteBudget next false l
  end.

Definition byteBudget (size : Z) : Z :=
  let b := add64 size size in if (b <? size)%Z then (2 ^ 64 - 1)%Z else b.

Definition to_delete (size : Z) (candidates : list candidate) : list candidate :=
  if (0 <? size)%Z then within_budget (byteBudget size) 0 true candidates else candidates.

(** The loop that deletes narinfos, with [n = len(narInfosToDelete)]. *)
Fixpoint delete_loop (pinnedHashes : gset string) (size : Z) (n : nat) (removed : list string)
    (totalSize : Z) (l : list candidate) : M (list string) :=
  match l with
  | [] => mret removed
  | info :: l =>
      if bool_decide (c_hash info ∈ pinnedHashes) then delete_loop pinnedHashes size n removed totalSize l else
      let removed := removed ++ [c_hash info] in
      let totalSize := add64 totalSize (c_size info) in
      _ ← exec (delete_narinfo (c_id info));
      if (0 <? size)%Z && (size <=? totalSize)%Z && (length removed <? n - 1)%nat
      then mret removed
      else delete_loop pinnedHashes size n removed totalSize l
  end.

Definition file_url (nf : nar_file) : URL := mkURL (nf_hash nf) (nf_compression nf) ∅ false "".

(** The phases after the deletion of the narinfos. *)
Definition delete_orphans (cdcEnabled : bool) : M (list URL * list string) :=
  orphanedNarFiles ← query orphaned_nar_files;
  _ ← (if bool_decide (orphanedNarFiles = []) then mret () else exec delete_orphaned_nar_files);
  let narURLs := file_url <$> orphanedNarFiles in
  if negb cdcEnabled then mret (narURLs, []) else
  orphanedChunks ← query orphaned_chunks;
  _ ← (if bool_decide (orphanedChunks = []) then mret () else exec delete_orphaned_chunks);
  mret (narURLs, orphanedChunks).

Definition deleteLRURecordsFromDB (cdcEnabled : bool) (size : Z) (pinnedHashes : gset string) :
    M (list string * list URL * list string) :=
  candidates ← query lru_candidates;
  match to_delete size candidates with
  | [] => mret ([], [], [])
  | narInfosToDelete =>
      removed ← delete_loop pinnedHashes size (length narInfosToDelete) [] 0 narInfosToDelete;
      '(narURLs, chunkHashes) ← delete_orphans cdcEnabled;
      mret (removed, narURLs, chunkHashes)
  end.

Definition calculateCleanupSize (maxSize : Z) : M Z :=
  narTotalSize ← query totalNarFileSize;
  if (narTotalSize =? 0)%Z then mret 0%Z
  else if (narTotalSize <=? maxSize)%Z then mret 0%Z
  else mret (narTotalSize - maxSize)%Z.

(** What the stores keep: narinfos and chunks by their hash, NARs by their key. *)
Record stores := mkStores {
  narInfoStore : gset string;
  narStore : gset string;
  chunkStore : option (gset string);
}.

(** The key of a NAR in its store, the path [DeleteNar] gets from its URL. *)
Definition nar_key (u : URL) : result nar_error string :=
  u' ← Normalize u; ToFilePath u'.

(** One deletion from a store; [fails] tells which of them fail. *)
Inductive item := INarInfo (h : string) | INar (u : URL) | IChunk (h : string).

Definition delete_item (fails : item → bool) (s : stores) (i : item) : stores :=
  if fails i then s else
  match i with
  | INarInfo h => mkStores (narInfoStore s ∖ {[h]}) (narStore s) (chunkStore s)
  | INar u =>
      match nar_key u with
      | Ok k => mkStores (narInfoStore s) (narStore s ∖ {[k]}) (chunkStore s)
      | Err _ => s
      end
  | IChunk h =>
      match chunkStore s with
      | Some cs => mkStores (narInfoStore s) (narStore s) (Some (cs ∖ {[h]}))
      | None => s
      end
  end.

(** [parallelDeleteFromStores]: the goroutines' deletions, whose order does not
    matter. *)
Definition parallelDeleteFromStores (fails : item → bool) (v : lru_vars) (s : stores) : stores :=
  foldl (delete_item fails) s
    ((INarInfo <$> narInfoHashesToRemove v) ++ (INar <$> narURLsToRemove v) ++ (IChunk <$> chunkHashesToRemove v)).

(** The closure of [runLRU]. *)
Definition lru_tx (maxSize : Z) (cdcEnabled : bool) (pinnedHashes : gset string) : M () :=
  let set_cleanup n v :=
    mkVars (narInfoHashesToRemove v) (narURLsToRemove v) (chunkHashesToRemove v) n in
  r ← try (calculateCleanupSize maxSize);
  match r with
  | Err e => _ ← assign (set_cleanup 0%Z); throw e
  | Ok size =>
      _ ← assign (set_cleanup size);
      if (size =? 0)%Z then mret () else
      r ← try (deleteLRURecordsFromDB cdcEnabled size pinnedHashes);
      match r with
      | Err e => _ ← assign (λ v, mkVars [] [] [] (cleanupSize v)); throw e
      | Ok (nis, urls, cs) => assign (λ v, mkVars nis urls cs (cleanupSize v))
      end
  end.

(** [runLRU] once it has the lock: the faults of the traversal's queries, the
    attempts at the transaction, and the failing deletions. *)
Definition runLRU (maxSize : Z) (cdcEnabled : bool) (pin_faults : list (option dbfault))
    (env : nat → attempt tables) (fails : item → bool) (d : tables) (s : stores) :
    result dberr unit * tables * stores :=
  match (GetPinnedClosureHashes (mkSession () d pin_faults)).1 with
  | Err e => (Err e, d, s)
  | Ok pinnedHashes =>
      let '(r, v, d) :=
        withEntTransactionRetry env (lru_tx maxSize cdcEnabled pinnedHashes) (mkVars [] [] [] 0) d in
      match r with
      | Err e => (Err e, d, s)
      | Ok _ =>
          if bool_decide (narInfoHashesToRemove v = [] ∧ narURLsToRemove v = [] ∧ chunkHashesToRemove v = [])
          then (Ok (), d, s)
          else (Ok (), d, parallelDeleteFromStores fails v s)
      end
  end.
End lru.

(** ** The closure *)

(** Narinfo [x] refers to the hash [y], as the traversal reads it. *)
Definition refers (d : tables) (x y : string) : Prop :=
  ∃ i ni ref, narinfos d !! i = Some ni ∧ ni_hash ni = x ∧ ref ∈ ni_references ni ∧
    narInfoHashLength ≤ String.length ref ∧ y = str_take narInfoHashLength ref.

(** [x] is [n] references away from a pinned root. *)
Inductive reach (d : tables) : nat → string → Prop :=
  | reach_root x : x ∈ pinned_closures d → reach d 0 x
  | reach_step n x y : reach d n x → refers d x y → reach d (S n) y.

Definition reach_within (d : tables) (k : nat) (x : string) : Prop := ∃ n, n ≤ k ∧ reach d n x.

Lemma reach_within_S d k x :
  reach_within d (S k) x → reach_within d k x ∨ ∃ y, reach_within d k y ∧ refers d y x.
Proof.
  intros (n & Hn & Hr). destruct Hr as [x Hx|n y x Hy Hyx]; [left; exists 0; split; [lia|by constructor]|].
  right. exists y. split; [|done]. exists n. split; [lia|done].
Qed.

Lemma reach_within_le d k k' x : k ≤ k' → reach_within d k x → reach_within d k' x.
Proof. intros ? (n & ? & ?). exists n. split; [lia|done]. Qed.

Lemma reach_within_step d k x y : reach_within d k x → refers d x y → reach_within d (S k) y.
Proof. intros (n & ? & ?) ?. exists (S n). split; [lia|by eapply reach_step]. Qed.

Lemma narinfos_with_elem h d x :
  x ∈ narinfos_with h d ↔ ∃ i, narinfos d !! i = Some x ∧ ni_hash x = h.
Proof.
  unfold narinfos_with. rewrite list_elem_of_fmap. split.
  - intros ([i y] & -> & Hx). apply elem_of_map_to_list, map_lookup_filter_Some in Hx. eauto.
  - intros (i & Hi & Hh). exists (i, x). split; [done|].
    by apply elem_of_map_to_list, map_lookup_filter_Some.
Qed.

Lemma narinfos_with_two h d x y l : unique_keys d → narinfos_with h d ≠ x :: y :: l.
Proof.
  intros Hu Heq. unfold narinfos_with in Heq.
  pose proof (NoDup_fst_map_to_list (filter (λ x, ni_hash x.2 = h) (narinfos d))) as Hnd.
  assert (∀ a, a ∈ map_to_list (filter (λ x, ni_hash x.2 = h) (narinfos d)) →
    narinfos d !! a.1 = Some a.2 ∧ ni_hash a.2 = h) as Hin.
  { intros [i a] Ha. by apply elem_of_map_to_list, map_lookup_filter_Some in Ha. }
  destruct (map_to_list _) as [|[i a] [|[j b] l']]; simpl in *; simplify_eq.
  apply NoDup_cons in Hnd as [Hij _]. apply Hij.
  destruct (Hin (i, x)) as [Hi Hx]; [by left|]. destruct (Hin (j, y)) as [Hj Hy]; [right; by left|].
  simpl in *. rewrite (narinfo_unique _ Hu i j x y Hi Hj) by congruence. by left.
Qed.

(** What a narinfo's references add to the traversal. *)
Lemma visit_references_spec refs b :
  excluded b = visited b →
  let b' := foldl visit_reference b refs in
  ∃ new, queue b' = queue b ++ new ∧ excluded b' = visited b' ∧
    (∀ x, x ∈ visited b' ↔ x ∈ visited b ∨ x ∈ new) ∧
    (∀ x, x ∈ new → x ∉ visited b) ∧
    (∀ x, x ∈ new → ∃ ref, ref ∈ refs ∧ narInfoHashLength ≤ String.length ref ∧ x = str_take narInfoHashLength ref) ∧
    (∀ ref, ref ∈ refs → narInfoHashLength ≤ String.length ref → str_take narInfoHashLength ref ∈ visited b').
Proof.
  set (L := narInfoHashLength). assert (L = narInfoHashLength) as HL by done. clearbody L.
  revert b. induction refs as [|ref refs IH]; intros b Hb; simpl.
  { exists []. rewrite app_nil_r. set_solver. }
  assert (∃ new1, queue (visit_reference b ref) = queue b ++ new1 ∧
    excluded (visit_reference b ref) = visited (visit_reference b ref) ∧
    (∀ x, x ∈ visited (visit_reference b ref) ↔ x ∈ visited b ∨ x ∈ new1) ∧
    (∀ x, x ∈ new1 → x ∉ visited b ∧ L ≤ String.length ref ∧ x = str_take L ref) ∧
    (L ≤ String.length ref → str_take L ref ∈ visited (visit_reference b ref)))
    as (new1 & Hq1 & He1 & Hv1 & Hn1 & Hr1).
  { unfold visit_reference. rewrite <- HL. case_match eqn:Hl.
    { apply Nat.ltb_lt in Hl. exists []. rewrite app_nil_r. split_and!; [done|done|set_solver|set_solver|lia]. }
    apply Nat.ltb_ge in Hl. case_bool_decide as Hin.
    { exists []. rewrite app_nil_r. set_solver. }
    exists [str_take L ref]. simpl. rewrite Hb. split_and!; [done|done|set_solver|set_solver|set_solver]. }
  destruct (IH _ He1) as (new2 & Hq2 & He2 & Hv2 & Hd2 & Hn2 & Hr2).
  exists (new1 ++ new2). rewrite Hq2, Hq1, app_assoc. split_and!; [done|done| | | |].
  - intros x. by rewrite Hv2, Hv1, elem_of_app, (assoc (∨)).
  - intros x [Hx|Hx]%elem_of_app; [by apply Hn1|]. intros Hxb. apply (Hd2 x Hx), Hv1. by left.
  - intros x [Hx|Hx]%elem_of_app.
    + exists ref. destruct (Hn1 x Hx) as (_ & ? & ?). split_and!; [by left|done|done].
    + destruct (Hn2 x Hx) as (r & Hr & ?). exists r. split; [by right|done].
  - intros r [->|Hr]%elem_of_cons Hlr; [apply Hv2; left; by apply Hr1|by apply Hr2].
Qed.

Section closure.
Context {V : Type} (d : tables) (Hu : unique_keys d).

(** Between levels: the hashes within [k] references were visited, and the
    references of those not in the queue. *)
Record at_level (k : nat) (b : bfs) : Prop := {
  al_excluded : excluded b = visited b;
  al_visited x : x ∈ visited b ↔ reach_within d k x;
  al_queue x : x ∈ queue b → x ∈ visited b;
  al_closed x : x ∈ visited b → x ∈ queue b ∨ ∀ y, refers d x y → y ∈ visited b;
}.

(** Within level [k]: the hashes of the level still to come, and the next level's
    found so far. *)
Record in_level (k : nat) (rem new : list string) (b : bfs) : Prop := {
  il_queue : queue b = rem ++ new;
  il_excluded : excluded b = visited b;
  il_sound x : x ∈ visited b → reach_within d (S k) x;
  il_complete x : reach_within d k x → x ∈ visited b;
  il_rem x : x ∈ rem → reach_within d k x;
  il_new x : x ∈ new → x ∈ visited b ∧ ¬ reach_within d k x;
  il_closed x : x ∈ visited b → x ∈ rem ∨ x ∈ new ∨ ∀ y, refers d x y → y ∈ visited b;
}.

Lemma at_level_enter k b : at_level k b → in_level k (queue b) [] b.
Proof.
  intros [He Hv Hq Hc]. split; [by rewrite app_nil_r|done| | | |set_solver|].
  - intros x Hx%Hv. eapply reach_within_le; [|done]. lia.
  - intros x. apply Hv.
  - intros x Hx%Hq. by apply Hv.
  - intros x [?|?]%Hc; auto.
Qed.

Lemma in_level_leave k new b : in_level k [] new b → at_level (S k) b.
Proof.
  intros [Hq He Hs Hc _ Hn Hcl]. simpl in Hq. split; [done| | |].
  - intros x. split; [by apply Hs|]. intros [Hx|(y & Hy & Hyx)]%reach_within_S; [by apply Hc|].
    destruct (Hcl y (Hc y Hy)) as [Hin|[Hin|Hin]]; [by apply elem_of_nil in Hin| |by apply Hin].
    by destruct (Hn y Hin).
  - rewrite Hq. intros x Hx. by apply Hn.
  - rewrite Hq. intros x [Hx|Hx]%Hcl; [by apply elem_of_nil in Hx|done].
Qed.

(** One hash is taken off the queue and its references are visited. *)
Lemma in_level_step k x rem new b refs :
  in_level k (x :: rem) new b →
  (∀ y, refers d x y ↔ ∃ ref, ref ∈ refs ∧ narInfoHashLength ≤ String.length ref ∧ y = str_take narInfoHashLength ref) →
  ∃ new', in_level k rem new' (foldl visit_reference (mkBfs (excluded b) (visited b) (rem ++ new)) refs).
Proof.
  intros [Hq He Hs Hc Hr Hn Hcl] Href.
  destruct (visit_references_spec refs (mkBfs (excluded b) (visited b) (rem ++ new)) He)
    as (new1 & Hq1 & He1 & Hv1 & Hd1 & Hn1 & Hr1).
  cbn [excluded visited queue] in *. exists (new ++ new1). split.
  - by rewrite Hq1, app_assoc.
  - done.
  - intros y [Hy|Hy]%Hv1; [by apply Hs|]. eapply reach_within_step; [apply (Hr x); by left|].
    by apply Href, Hn1.
  - intros y Hy. apply Hv1. left. by apply Hc.
  - intros y Hy. apply Hr. by right.
  - intros y [Hy|Hy]%elem_of_app; rewrite Hv1; [split; [left|]; by apply Hn|]. split; [by right|].
    intros Hk%Hc. by apply (Hd1 y).
  - intros y [Hy|Hy]%Hv1; [|set_solver]. destruct (Hcl y Hy) as [[->|Hin]%elem_of_cons|[Hin|Hin]].
    + right; right. intros z (ref & Href1 & ? & ->)%Href. by apply Hr1.
    + by left.
    + right; left. set_solver.
    + right; right. intros z Hz%Hin. apply Hv1. by left.
Qed.

(** The traversal only fails when a query does. *)
Definition outcome {A} (sure : bool) (Q : A → Prop) (r : result dberr A) (_ : V) (d' : tables) : Prop :=
  d' = d ∧ match r with Ok a => Q a | Err _ => sure = false end.

Lemma level_spec sure k rem new b (v : V) :
  in_level k rem new b → after sure (outcome sure (at_level (S k))) (level (length rem) b) v d.
Proof.
  revert new b. induction rem as [|x rem IH]; intros new b Hb; simpl.
  { apply after_ret. split; [done|]. by eapply in_level_leave. }
  rewrite (il_queue _ _ _ _ Hb). simpl. apply after_bind, after_try, after_bind, after_query.
  { intros Hc f. by apply after_throw. }
  destruct (narinfos_with x d) as [|ni [|ni' l]] eqn:Hni; [| |by apply narinfos_with_two in Hni].
  - apply after_throw. simpl. destruct (in_level_step _ _ _ _ _ [] Hb) as (new' & Hb').
    { intros y. split; [|set_solver]. intros (i & ni & ref & Hi & Hx & _).
      assert (ni ∈ narinfos_with x d) as Hin by (apply narinfos_with_elem; eauto).
      rewrite Hni in Hin. by apply elem_of_nil in Hin. }
    by apply (IH new').
  - apply after_ret. simpl. destruct (in_level_step _ _ _ _ _ (ni_references ni) Hb) as (new' & Hb').
    { assert (ni ∈ narinfos_with x d) as (i & Hi & Hx)%narinfos_with_elem by (rewrite Hni; by left).
      intros y. split; [|intros (ref & ? & ? & ->); by exists i, ni, ref].
      intros (j & nj & ref & Hj & Hxj & ?). 
      assert (i = j) as <- by (eapply (narinfo_unique _ Hu); [done..|congruence]). simplify_eq. eauto. }
    by apply (IH new').
Qed.

Lemma traverse_spec sure depth k b (v : V) :
  at_level k b →
  after sure (outcome sure (λ b', excluded b' = visited b' ∧ ∀ x, x ∈ visited b' ↔ reach_within d (k + depth) x))
    (traverse depth b) v d.
Proof.
  revert k b v. induction depth as [|depth IH]; intros k b v Hb; simpl.
  { apply after_ret. split; [done|]. rewrite Nat.add_0_r. by destruct Hb. }
  destruct (queue b) as [|x q] eqn:Hq.
  - apply after_ret. split; [done|]. destruct Hb as [He Hv _ Hc]. split; [done|].
    intros y. split; [intros Hy%Hv; eapply reach_within_le; [|done]; lia|].
    intros (n & _ & Hn). induction Hn as [y Hy|n y z _ IHn Hyz].
    + apply Hv. exists 0. split; [lia|by constructor].
    + destruct (Hc y IHn) as [Hin|Hin]; [rewrite Hq in Hin; by apply elem_of_nil in Hin|by apply Hin].
  - apply after_bind. rewrite <- Hq. eapply after_mono; [eapply level_spec, at_level_enter, Hb|].
    intros [b1|e] v1 d1 [-> Hb1]; [|by split]. rewrite Nat.add_succ_r. by apply (IH (S k)).
Qed.

Lemma at_level_start : let roots := list_to_set (pinned_closures d) in
  at_level 0 (mkBfs roots roots (pinned_closures d)).
Proof.
  split; cbn [excluded visited queue]; [done| |by intros x; rewrite elem_of_list_to_set|].
  - intros x. rewrite elem_of_list_to_set. split; [intros ?; exists 0; split; [lia|by constructor]|].
    intros (n & Hn & Hr). destruct Hr; [done|lia].
  - intros x. rewrite elem_of_list_to_set. by left.
Qed.

Lemma GetPinnedClosureHashes_after sure (v : V) :
  after sure (outcome sure (λ s, ∀ x, x ∈ s ↔ reach_within d maxDepth x)) GetPinnedClosureHashes v d.
Proof.
  unfold GetPinnedClosureHashes. apply after_bind, after_query; [done|]. apply after_bind.
  eapply after_mono; [apply (traverse_spec _ _ 0), at_level_start|].
  intros [b|e] v' d' [-> Hb]; [|by split]. destruct Hb as [He Hv]. rewrite Nat.add_0_l in Hv.
  apply after_ret. split; [done|]. by rewrite He.
Qed.
End closure.

(** ** What eviction keeps *)

(** The rows a set of narinfo hashes needs: the narinfos, the NAR files they are
    linked to, and those files' chunks. *)
Definition protected (P : gset string) (d : tables) (i : Z) : Prop :=
  ∃ x, narinfos d !! i = Some x ∧ ni_hash x ∈ P.
Definition protected_file (P : gset string) (d : tables) (f : Z) : Prop :=
  ∃ i, protected P d i ∧ (i, f) ∈ narinfo_nar_files d ∧ is_Some (nar_files d !! f).
Definition protected_chunk (P : gset string) (d : tables) (c : Z) : Prop :=
  ∃ f, protected_file P d f ∧ (f, c) ∈ nar_file_chunks d.

(** From [d] to [d'] rows only go, and no protected one. *)
Record keeps (P : gset string) (d d' : tables) : Prop := {
  keep_narinfo i : protected P d i → narinfos d' !! i = narinfos d !! i;
  keep_link i f : protected P d i → (i, f) ∈ narinfo_nar_files d → (i, f) ∈ narinfo_nar_files d';
  keep_file f : protected_file P d f → nar_files d' !! f = nar_files d !! f;
  keep_chunk_link f c : protected_file P d f → (f, c) ∈ nar_file_chunks d → (f, c) ∈ nar_file_chunks d';
  keep_chunk c : protected_chunk P d c → chunks d' !! c = chunks d !! c;
  less_narinfos : narinfos d' ⊆ narinfos d;
  less_files : nar_files d' ⊆ nar_files d;
  less_chunks : chunks d' ⊆ chunks d;
}.

Section keeps.
Context (P : gset string).

Lemma keeps_protected d d' i : keeps P d d' → protected P d i → protected P d' i.
Proof. intros Hk Hp. destruct Hp as (x & Hx & HP) eqn:E. exists x. by rewrite (keep_narinfo _ _ _ Hk). Qed.

Lemma keeps_protected_file d d' f : keeps P d d' → protected_file P d f → protected_file P d' f.
Proof.
  intros Hk Hf. pose proof Hf as (i & Hi & Hl & Hs). exists i.
  split_and!; [by eapply keeps_protected|by apply (keep_link _ _ _ Hk)|by rewrite (keep_file _ _ _ Hk)].
Qed.

Lemma keeps_protected_chunk d d' c : keeps P d d' → protected_chunk P d c → protected_chunk P d' c.
Proof.
  intros Hk (f & Hf & Hl). exists f.
  split; [by eapply keeps_protected_file|by apply (keep_chunk_link _ _ _ Hk)].
Qed.

#[export] Instance keeps_preorder : PreOrder (keeps P).
Proof.
  split; [by intros d; split|]. intros d1 d2 d3 H1 H2. split.
  - intros i Hi. rewrite (keep_narinfo _ _ _ H2), (keep_narinfo _ _ _ H1); [done..|by eapply keeps_protected].
  - intros i f Hi Hl. apply (keep_link _ _ _ H2); [by eapply keeps_protected|by apply (keep_link _ _ _ H1)].
  - intros f Hf. rewrite (keep_file _ _ _ H2), (keep_file _ _ _ H1); [done..|by eapply keeps_protected_file].
  - intros f c Hf Hl.
    apply (keep_chunk_link _ _ _ H2); [by eapply keeps_protected_file|by apply (keep_chunk_link _ _ _ H1)].
  - intros c Hc. rewrite (keep_chunk _ _ _ H2), (keep_chunk _ _ _ H1); [done..|by eapply keeps_protected_chunk].
  - etrans; [apply H2|apply H1].
  - etrans; [apply H2|apply H1].
  - etrans; [apply H2|apply H1].
Qed.

Lemma protected_has_narinfo d f : protected_file P d f → has_narinfo f d = true.
Proof. intros (i & _ & Hl & _). apply bool_decide_eq_true, list_elem_of_fmap. by exists (i, f). Qed.

Lemma protected_has_nar_file d c : protected_chunk P d c → has_nar_file c d = true.
Proof. intros (f & _ & Hl). apply bool_decide_eq_true, list_elem_of_fmap. by exists (f, c). Qed.

Lemma keeps_delete_narinfo i d : ¬ protected P d i → keeps P d (delete_narinfo i d).
Proof.
  intros Hn. split; cbn [delete_narinfo narinfos narinfo_nar_files nar_files nar_file_chunks chunks]; try done.
  - intros j Hj. apply lookup_delete_ne. by intros ->.
  - intros j f Hj Hl. apply list_elem_of_filter. split; [|done]. simpl. by intros ->.
  - apply delete_subseteq.
Qed.

Lemma keeps_delete_orphaned_nar_files d : keeps P d (delete_orphaned_nar_files d).
Proof.
  split; cbn [delete_orphaned_nar_files narinfos narinfo_nar_files nar_files nar_file_chunks chunks]; try done.
  - intros f Hf. apply protected_has_narinfo in Hf. destruct (nar_files d !! f) as [nf|] eqn:E.
    + by apply map_lookup_filter_Some.
    + apply map_lookup_filter_None. by left.
  - intros f c Hf Hl. apply list_elem_of_filter. split; [|done]. left. by apply protected_has_narinfo.
  - apply map_filter_subseteq.
Qed.

Lemma keeps_delete_orphaned_chunks d : keeps P d (delete_orphaned_chunks d).
Proof.
  split; cbn [delete_orphaned_chunks narinfos narinfo_nar_files nar_files nar_file_chunks chunks]; try done.
  - intros c Hc. apply protected_has_nar_file in Hc. destruct (chunks d !! c) as [h|] eqn:E.
    + by apply map_lookup_filter_Some.
    + apply map_lookup_filter_None. by left.
  - apply map_filter_subseteq.
Qed.

(** What is to be removed from the stores belongs to no protected row of [d]. *)
Definition harmless (d : tables) (v : lru_vars) : Prop :=
  (∀ h, h ∈ narInfoHashesToRemove v → h ∉ P) ∧
  (∀ u, u ∈ narURLsToRemove v → ∃ f nf, nar_files d !! f = Some nf ∧ u = file_url nf ∧ ¬ protected_file P d f) ∧
  (∀ h, h ∈ chunkHashesToRemove v → ∃ c, chunks d !! c = Some h ∧ ¬ protected_chunk P d c).

Lemma orphaned_nar_files_harmless d0 d u :
  keeps P d0 d → u ∈ file_url <$> orphaned_nar_files d →
  ∃ f nf, nar_files d0 !! f = Some nf ∧ u = file_url nf ∧ ¬ protected_file P d0 f.
Proof.
  intros Hk Hu. unfold orphaned_nar_files in Hu. apply list_elem_of_fmap in Hu as (nf & -> & Hnf).
  apply list_elem_of_fmap in Hnf as ([f nf'] & -> & Hin). apply list_elem_of_filter in Hin as [Ho Hf].
  apply elem_of_map_to_list in Hf. exists f, nf'. split_and!; [|done|].
  - by eapply lookup_weaken, less_files.
  - intros Hp. eapply keeps_protected_file, protected_has_narinfo in Hp; [|done]. simpl in Ho. congruence.
Qed.

Lemma orphaned_chunks_harmless d0 d h :
  keeps P d0 d → h ∈ orphaned_chunks d → ∃ c, chunks d0 !! c = Some h ∧ ¬ protected_chunk P d0 c.
Proof.
  intros Hk Hh. unfold orphaned_chunks in Hh. apply list_elem_of_fmap in Hh as ([c h'] & -> & Hin).
  apply list_elem_of_filter in Hin as [Ho Hc]. apply elem_of_map_to_list in Hc. exists c. split.
  - by eapply lookup_weaken, less_chunks.
  - intros Hp. eapply keeps_protected_chunk, protected_has_nar_file in Hp; [|done]. simpl in Ho. congruence.
Qed.
End keeps.

(** ** Candidates *)

Section candidates.
Context (nulls_first : bool).

Lemma lru_candidates_row d c :
  c ∈ lru_candidates nulls_first d →
  ∃ x, narinfos d !! c_id c = Some x ∧ c = mkCandidate (c_id c) (ni_hash x) (narInfoFileSize d (c_id c)).
Proof.
  unfold lru_candidates. intros ([i x] & -> & Hx)%list_elem_of_fmap. exists x. split; [|done].
  apply elem_of_map_to_list. rewrite <- (merge_sort_Permutation (lru_le nulls_first)).
  by apply (subseteq_take maxFetchRows).
Qed.

Lemma within_budget_prefix b n first l : ∃ l2, l = within_budget b n first l ++ l2.
Proof.
  revert n first. induction l as [|c l IH]; intros n first; simpl; [by exists []|].
  case_match; [by exists (c :: l)|]. destruct (IH (add64 n (c_size c)) false) as [l2 Hl2].
  exists l2. simpl. by rewrite <- Hl2.
Qed.

Lemma to_delete_prefix size l : ∃ l2, l = to_delete size l ++ l2.
Proof. unfold to_delete. case_match; [apply within_budget_prefix|by exists []; rewrite app_nil_r]. Qed.

Lemma to_delete_row size d c :
  c ∈ to_delete size (lru_candidates nulls_first d) → ∃ x, narinfos d !! c_id c = Some x ∧ ni_hash x = c_hash c.
Proof.
  intros Hc. destruct (to_delete_prefix size (lru_candidates nulls_first d)) as [l2 Hl2].
  destruct (lru_candidates_row d c) as (x & Hx & ->); [|by exists x].
  rewrite Hl2. apply elem_of_app. by left.
Qed.

(** ** Eviction harms no protected row *)

Context (P : gset string) (d0 : tables).

Lemma delete_loop_keeps size n removed total l v d :
  keeps P d0 d → (∀ h, h ∈ removed → h ∉ P) →
  (∀ c x, c ∈ l → narinfos d !! c_id c = Some x → ni_hash x = c_hash c) →
  after false (λ r v' d', v' = v ∧ keeps P d0 d' ∧ ∀ hs h, r = Ok hs → h ∈ hs → h ∉ P)
    (delete_loop P size n removed total l) v d.
Proof.
  revert removed total d. induction l as [|c l IH]; intros removed total d Hk Hr Hl; simpl.
  { apply after_ret. split_and!; [done|done|]. intros hs h [= <-]. apply Hr. }
  case_bool_decide as Hp; [apply IH; [done..|]; intros c' x Hc'; apply Hl; by right|].
  apply after_bind, after_exec; [done|].
  assert (keeps P d0 (delete_narinfo (c_id c) d)) as Hk'.
  { etrans; [done|]. apply keeps_delete_narinfo. intros (x & Hx & HP).
    rewrite (Hl c x) in HP; [done|by left|done]. }
  assert (∀ h, h ∈ removed ++ [c_hash c] → h ∉ P) as Hr'.
  { intros h [Hh| ->%list_elem_of_singleton]%elem_of_app; [by apply Hr|done]. }
  case_match.
  - apply after_ret. split_and!; [done|done|]. intros hs h [= <-]. apply Hr'.
  - apply IH; [done..|]. intros c' x Hc' Hx. cbn [delete_narinfo narinfos] in Hx.
    apply lookup_delete_Some in Hx as [_ Hx]. apply Hl; [by right|done].
Qed.

Lemma delete_orphans_keeps cdc v d :
  keeps P d0 d →
  after false (λ r v' d', v' = v ∧ keeps P d0 d' ∧ ∀ urls cs, r = Ok (urls, cs) → harmless P d0 (mkVars [] urls cs 0))
    (delete_orphans cdc) v d.
Proof.
  intros Hk. unfold delete_orphans. apply after_bind, after_query; [done|].
  assert (keeps P d0 (delete_orphaned_nar_files d)) as Hk1.
  { etrans; [done|apply keeps_delete_orphaned_nar_files]. }
  pose proof (λ u, orphaned_nar_files_harmless P d0 d u Hk) as Hurls.
  apply after_bind. eapply (after_mono _ (λ _ v' d', v' = v ∧ keeps P d0 d')).
  { case_bool_decide; [by apply after_ret|by apply after_exec]. }
  intros [[]|e] v1 d1 [-> Hk2]; [|done]. destruct cdc; simpl.
  2:{ apply after_ret. split_and!; [done|done|]. intros urls cs [= <- <-]. by split_and!; [intros ? ?%elem_of_nil| |intros ? ?%elem_of_nil]. }
  apply after_bind, after_query; [done|].
  assert (keeps P d0 (delete_orphaned_chunks d1)) as Hk3.
  { etrans; [done|apply keeps_delete_orphaned_chunks]. }
  pose proof (λ h, orphaned_chunks_harmless P d0 d1 h Hk2) as Hcs.
  apply after_bind. eapply (after_mono _ (λ _ v' d', v' = v ∧ keeps P d0 d')).
  { case_bool_decide; [by apply after_ret|by apply after_exec]. }
  intros [[]|e] v2 d2 [-> Hk4]; [|done]. apply after_ret. split_and!; [done|done|].
  intros urls cs [= <- <-]. split_and!; [intros ? ?%elem_of_nil|done|done]; done.
Qed.

Lemma deleteLRURecordsFromDB_keeps cdc size v d :
  keeps P d0 d →
  after false (λ r v' d', v' = v ∧ keeps P d0 d' ∧
      ∀ nis urls cs n, r = Ok (nis, urls, cs) → harmless P d0 (mkVars nis urls cs n))
    (deleteLRURecordsFromDB nulls_first cdc size P) v d.
Proof.
  intros Hk. unfold deleteLRURecordsFromDB. apply after_bind, after_query; [done|].
  pose proof (to_delete_row size d) as Hrow.
  destruct (to_delete size _) as [|c l].
  { apply after_ret. split_and!; [done|done|]. intros nis urls cs n [= <- <- <-].
    by split_and!; intros ? ?%elem_of_nil. }
  apply after_bind. eapply after_mono; [apply delete_loop_keeps; [done|by intros ? ?%elem_of_nil|]|].
  { intros c' x Hc' Hx. destruct (Hrow c' Hc') as (y & Hy & <-). congruence. }
  intros [hs|e] v1 d1 (-> & Hk1 & Hhs); [|done].
  apply after_bind. eapply after_mono; [by apply delete_orphans_keeps|].
  intros [[urls cs]|e] v2 d2 (-> & Hk2 & Hu); [|done]. apply after_ret. split_and!; [done|done|].
  intros ? ? ? n [= <- <- <-]. destruct (Hu urls cs eq_refl) as (_ & ? & ?).
  split_and!; [|done|done]. intros h. by apply Hhs.
Qed.

Lemma lru_tx_keeps maxSize cdc v d :
  keeps P d0 d → harmless P d0 v →
  after false (λ _ v' d', harmless P d0 v' ∧ keeps P d0 d') (lru_tx nulls_first maxSize cdc P) v d.
Proof.
  intros Hk Hv. unfold lru_tx. apply after_bind, after_try.
  eapply (after_mono _ (λ _ v' d', v' = v ∧ d' = d)).
  { unfold calculateCleanupSize. apply after_bind, after_query; [done|]. by repeat case_match; apply after_ret. }
  intros [size|e] v1 d1 [-> ->]; apply after_bind, after_assign; [|by apply after_throw].
  case_match; [by apply after_ret|]. apply after_bind, after_try.
  eapply after_mono; [by apply deleteLRURecordsFromDB_keeps|].
  intros [[[nis urls] cs]|e] v2 d2 (-> & Hk2 & Hu).
  - apply after_assign. split; [by apply Hu|done].
  - apply after_bind, after_assign, after_throw. split; [|done]. by split_and!; intros ? ?%elem_of_nil.
Qed.

Lemma lru_retry_keeps env maxSize cdc :
  (∀ i d, a_others (env i) d = d) →
  let '(_, v, d) := withEntTransactionRetry env (lru_tx nulls_first maxSize cdc P) (mkVars [] [] [] 0) d0 in
  harmless P d0 v ∧ keeps P d0 d.
Proof.
  intros Ho. pose proof (retry_from_inv (λ v d, harmless P d0 v ∧ keeps P d0 d) env
    (lru_tx nulls_first maxSize cdc P) 0 (maxAttempts - 1) (mkVars [] [] [] 0) d0) as Hinv.
  unfold withEntTransactionRetry. destruct (retry_from _ _ _ _ _ _) as [[r v] d]. apply Hinv.
  - intros i v' d'. by rewrite Ho.
  - intros v' d' [Hv Hk]. eapply after_mono; [by apply lru_tx_keeps|]. by intros r' v2 d2 [? ?].
  - split; [|done]. by split_and!; intros ? ?%elem_of_nil.
Qed.

(** The deletions remove what their items name, and nothing else. *)
Lemma delete_items_spec fails items s :
  let s' := foldl (delete_item fails) s items in
  (∀ h, h ∈ narInfoStore s → INarInfo h ∉ items → h ∈ narInfoStore s') ∧
  (∀ k, k ∈ narStore s → (∀ u, INar u ∈ items → nar_key u ≠ Ok k) → k ∈ narStore s') ∧
  (∀ cs h, chunkStore s = Some cs → h ∈ cs → IChunk h ∉ items → ∃ cs', chunkStore s' = Some cs' ∧ h ∈ cs').
Proof.
  revert s. induction items as [|it items IH]; intros s; simpl; [by split_and!; eauto|].
  destruct (IH (delete_item fails s it)) as (H1 & H2 & H3). split_and!.
  - intros h Hh Hni. apply H1; [|set_solver]. unfold delete_item. repeat case_match; simpl; set_solver.
  - intros k Hk Hni. apply H2; [|set_solver]. unfold delete_item. repeat case_match; simpl; try done.
    apply elem_of_difference. split; [done|]. intros ->%elem_of_singleton. eapply Hni; [by left|done].
  - intros cs h Hcs Hh Hni. assert (∃ cs1, chunkStore (delete_item fails s it) = Some cs1 ∧ h ∈ cs1) as (cs1 & Hc1 & ?).
    { unfold delete_item. repeat case_match; simpl; simplify_eq; eexists; (split; [done|]); set_solver. }
    apply (H3 cs1); [done|done|set_solver].
Qed.

Lemma elem_of_items v it :
  it ∈ (INarInfo <$> narInfoHashesToRemove v) ++ (INar <$> narURLsToRemove v) ++ (IChunk <$> chunkHashesToRemove v) ↔
  match it with
  | INarInfo h => h ∈ narInfoHashesToRemove v
  | INar u => u ∈ narURLsToRemove v
  | IChunk h => h ∈ chunkHashesToRemove v
  end.
Proof.
  rewrite !elem_of_app, !list_elem_of_fmap. destruct it; naive_solver.
Qed.
End candidates.

(** ** Eviction goes by the order of last access *)

Section order.
Context (nulls_first : bool).

#[export] Instance last_le_total : Total (last_le nulls_first).
Proof. intros [a|] [b|]; simpl; try destruct nulls_first; try lia; auto. Qed.

#[export] Instance last_le_trans : Transitive (last_le nulls_first).
Proof. intros [a|] [b|] [c|]; simpl; try destruct nulls_first; try done; lia. Qed.

#[export] Instance last_le_antisymm : AntiSymm (=) (last_le nulls_first).
Proof. intros [a|] [b|]; simpl; try destruct nulls_first; try done; intros ? ?; f_equal; lia. Qed.

#[export] Instance lru_le_trans : Transitive (lru_le nulls_first).
Proof.
  intros [i x] [j y] [k z]. unfold lru_le, last_lt. simpl.
  intros [[Hxy Hne]|[Hxy Hij]] [[Hyz Hne']|[Hyz Hjk]].
  - left. split; [by etrans|]. intros Heq. rewrite <- Heq in Hyz. by destruct (anti_symm _ _ _ Hxy Hyz).
  - left. by rewrite <- Hyz.
  - left. by rewrite Hxy.
  - right. split; [congruence|lia].
Qed.

#[export] Instance lru_le_total : Total (lru_le nulls_first).
Proof.
  intros [i x] [j y]. unfold lru_le, last_lt. simpl.
  destruct (decide (ni_last_accessed_at x = ni_last_accessed_at y)) as [Heq|Hne].
  - rewrite Heq. destruct (Z.le_ge_cases i j); auto.
  - destruct (last_le_total (ni_last_accessed_at x) (ni_last_accessed_at y)); auto.
Qed.

(** A row outside a prefix of the candidates comes after those in it. *)
Lemma lru_candidates_order d l1 l2 c i y :
  lru_candidates nulls_first d = l1 ++ l2 → c ∈ l1 → narinfos d !! i = Some y → i ∉ c_id <$> l1 →
  ∃ x, narinfos d !! c_id c = Some x ∧ lru_le nulls_first (c_id c, x) (i, y).
Proof.
  unfold lru_candidates. set (S := merge_sort _ _). intros Hl Hc Hi Hni.
  apply fmap_app_inv in Hl as (s1 & s2 & -> & -> & Htake).
  assert (S = s1 ++ (s2 ++ drop maxFetchRows S)) as HS.
  { rewrite <- (take_drop maxFetchRows S) at 1. by rewrite Htake, app_assoc. }
  apply list_elem_of_fmap in Hc as ([j x] & -> & Hx). exists x. cbn [c_id].
  assert (∀ p, p ∈ S ↔ narinfos d !! p.1 = Some p.2) as Hmem.
  { intros [k z]. unfold S. rewrite merge_sort_Permutation. apply elem_of_map_to_list. }
  split; [apply (Hmem (j, x)); rewrite HS; apply elem_of_app; by left|].
  assert ((i, y) ∈ S) as Hin by by apply Hmem. rewrite HS in Hin. apply elem_of_app in Hin as [Hin|Hin].
  - destruct Hni. rewrite <- list_fmap_compose. apply list_elem_of_fmap. by exists (i, y).
  - assert (StronglySorted (lru_le nulls_first) S) as Hs by (unfold S; apply (StronglySorted_merge_sort _)).
    rewrite HS in Hs. by eapply StronglySorted_app_1_elem_of.
Qed.
End order.

Definition total_size (l : list candidate) : Z := foldr (λ c n, (c_size c + n)%Z) 0%Z l.

Lemma total_size_app l1 l2 : total_size (l1 ++ l2) = (total_size l1 + total_size l2)%Z.
Proof. induction l1 as [|c l1 IH]; [done|]. simpl. rewrite IH. lia. Qed.

Lemma total_size_nonneg l : Forall (λ c, 0 ≤ c_size c)%Z l → (0 ≤ total_size l)%Z.
Proof. induction 1 as [|c l Hc _ IH]; simpl; lia. Qed.

Lemma narInfoFileSize_nonneg d i :
  (∀ f nf, nar_files d !! f = Some nf → (0 ≤ nf_file_size nf)%Z) → (0 ≤ narInfoFileSize d i)%Z.
Proof.
  intros Hd. unfold narInfoFileSize. destruct (omap _ _) as [|nf l] eqn:E; [done|].
  assert (nf ∈ nf :: l) as Hin by by left. rewrite <- E in Hin.
  apply list_elem_of_omap in Hin as ([j f] & _ & Hf). case_decide; [|done]. by eapply Hd.
Qed.

Section evicted.
Context (P : gset string).

(** The candidates of [l] the loop does not skip. *)
Definition evictable (l : list candidate) : list candidate := filter (λ c, c_hash c ∉ P) l.

Definition delete_narinfos (l : list candidate) (d : tables) : tables :=
  foldl (λ d c, delete_narinfo (c_id c) d) d l.

Lemma delete_narinfos_lookup l d i :
  narinfos (delete_narinfos l d) !! i = if bool_decide (i ∈ c_id <$> l) then None else narinfos d !! i.
Proof.
  unfold delete_narinfos. revert d. induction l as [|c l IH]; intros d; [done|].
  cbn [foldl]. rewrite IH, fmap_cons. cbn [delete_narinfo narinfos].
  destruct (decide (i = c_id c)) as [->|Hne].
  - rewrite lookup_delete_eq. rewrite (bool_decide_true (_ ∈ _ :: _)) by by left. by case_bool_decide.
  - rewrite lookup_delete_ne by done. rewrite (bool_decide_ext (i ∈ c_id c :: (c_id <$> l)) (i ∈ c_id <$> l));
      [done|set_solver].
Qed.

(** Where the loop stops: at the end of its rows, or once the size is reached; it
    goes past that only for the last row. *)
Record loop_outcome (size : Z) (n : nat) (removed : list string) (total : Z) (l l1 l2 : list candidate)
    (hs : list string) : Prop := {
  lo_split : l = l1 ++ l2;
  lo_removed : hs = removed ++ (c_hash <$> evictable l1);
  lo_enough : l2 = [] ∨ (size ≤ total + total_size (evictable l1))%Z;
  lo_needed ev' c : evictable l1 = ev' ++ [c] →
    (ev' ≠ [] → (total + total_size ev' < size)%Z ∨ n - 1 ≤ length removed + length ev');
}.

Lemma delete_loop_spec sure size n removed total l v d :
  (0 < size)%Z → Forall (λ c, 0 ≤ c_size c)%Z l → (0 ≤ total)%Z → (total + total_size l < 2 ^ 64)%Z →
  after sure (λ r v' d', v' = v ∧ (sure = true → is_ok r) ∧ ∀ hs, r = Ok hs →
      ∃ l1 l2, loop_outcome size n removed total l l1 l2 hs ∧ d' = delete_narinfos (evictable l1) d)
    (delete_loop P size n removed total l) v d.
Proof.
  intros Hsize. revert removed total d. induction l as [|c l IH]; intros removed total d Hpos Ht Hb; simpl.
  { apply after_ret. split_and!; [done|done|]. intros hs [= <-]. exists [], [].
    split; [|done]. split; [done|by rewrite app_nil_r|by left|]. intros ev' c Heq. by destruct ev'. }
  apply Forall_cons in Hpos as [Hc Hpos]. simpl in Hb. pose proof (total_size_nonneg _ Hpos).
  case_bool_decide as Hp.
  { eapply after_mono; [apply IH; [done..|lia]|]. intros r v' d' (-> & Hok & Hr).
    split_and!; [done..|]. intros hs Hhs. destruct (Hr hs Hhs) as (l1 & l2 & [-> -> He Hn] & ->).
    assert (evictable (c :: l1) = evictable l1) as Hev by
      (unfold evictable; rewrite filter_cons_False; [done|by intros ?]).
    exists (c :: l1), l2. rewrite Hev. split; [|done]. by split; try rewrite Hev. }
  assert (add64 total (c_size c) = total + c_size c)%Z as Hadd by (unfold add64; rewrite Z.mod_small; lia).
  rewrite Hadd. apply after_bind, after_exec; [intros -> f; by split_and!|].
  assert (∀ l1, evictable (c :: l1) = c :: evictable l1) as Hev.
  { intros l1. unfold evictable. by rewrite filter_cons_True. }
  destruct ((0 <? size)%Z && _ && _) eqn:Hbreak.
  - bool_props. apply after_ret. split_and!; [done|done|]. intros hs [= <-]. exists [c], l. split; [|by rewrite Hev].
    split; rewrite ?Hev; [done|done|right; simpl; lia|]. by intros [|? [|? ?]] ? [= ].
  - eapply after_mono; [apply IH; [done|lia..]|]. intros r v' d' (-> & Hok & Hr).
    split_and!; [done..|]. intros hs Hhs. destruct (Hr hs Hhs) as (l1 & l2 & [-> -> He Hn] & ->).
    exists (c :: l1), l2. rewrite Hev. split; [|done]. split; rewrite ?Hev.
    + done.
    + by rewrite <- app_assoc.
    + destruct He; [by left|right; simpl; lia].
    + intros [|c0 ev'] c' Heq; [done|]. intros _. simplify_eq/=. rewrite length_app in *. simpl in *.
      destruct ev' as [|c1 ev']; simpl in *.
      * rewrite Z.add_0_r. apply andb_false_iff in Hbreak as [[Hb1|Hb1]%andb_false_iff|Hb1];
          [apply Z.ltb_ge in Hb1|apply Z.leb_gt in Hb1|apply Nat.ltb_ge in Hb1]; lia.
      * destruct (Hn (c1 :: ev') c' ltac:(done) ltac:(done)); simpl in *; [left|right]; lia.
Qed.
End evicted.

(** ** Nothing is left without a reference *)

(** The foreign keys of the link tables. *)
Definition refs_ok (d : tables) : Prop :=
  (∀ i f, (i, f) ∈ narinfo_nar_files d → is_Some (narinfos d !! i) ∧ is_Some (nar_files d !! f)) ∧
  (∀ f c, (f, c) ∈ nar_file_chunks d → is_Some (nar_files d !! f) ∧ is_Some (chunks d !! c)).

Definition files_used (d : tables) : Prop := ∀ f, is_Some (nar_files d !! f) → has_narinfo f d = true.
Definition chunks_used (d : tables) : Prop := ∀ c, is_Some (chunks d !! c) → has_nar_file c d = true.

Lemma refs_ok_delete_narinfo i d : refs_ok d → refs_ok (delete_narinfo i d).
Proof.
  intros [H1 H2]. split; [|done]. intros j f (Hj & Hl)%list_elem_of_filter. simpl in Hj.
  cbn [delete_narinfo narinfos]. rewrite lookup_delete_ne by done. by apply H1.
Qed.

Lemma refs_ok_delete_orphaned_nar_files d : refs_ok d → refs_ok (delete_orphaned_nar_files d).
Proof.
  intros [H1 H2]. split; cbn [delete_orphaned_nar_files narinfos narinfo_nar_files nar_files nar_file_chunks chunks].
  - intros i f Hl. destruct (H1 i f Hl) as [? [nf Hf]]. split; [done|]. exists nf.
    apply map_lookup_filter_Some. split; [done|].
    apply bool_decide_eq_true, list_elem_of_fmap. by exists (i, f).
  - intros f c [Hf Hl]%list_elem_of_filter. destruct (H2 f c Hl) as [[nf Hnf] ?]. simpl in Hf.
    destruct Hf as [Hf|Hf]; [|congruence]. split; [|done]. exists nf. by apply map_lookup_filter_Some.
Qed.

Lemma refs_ok_delete_orphaned_chunks d : refs_ok d → refs_ok (delete_orphaned_chunks d).
Proof.
  intros [H1 H2]. split; [done|]. intros f c Hl. cbn [delete_orphaned_chunks chunks].
  destruct (H2 f c Hl) as [? [h Hc]]. split; [done|]. exists h. apply map_lookup_filter_Some. split; [done|].
  apply bool_decide_eq_true, list_elem_of_fmap. by exists (f, c).
Qed.

Lemma delete_loop_refs_ok P size n removed total l v d :
  refs_ok d → after false (λ _ v' d', v' = v ∧ refs_ok d') (delete_loop P size n removed total l) v d.
Proof.
  revert removed total d. induction l as [|c l IH]; intros removed total d Hd; simpl; [by apply after_ret|].
  case_bool_decide; [by apply IH|]. apply after_bind, after_exec; [done|].
  case_match; [apply after_ret; split; [done|]|apply IH]; by apply refs_ok_delete_narinfo.
Qed.

Lemma elem_of_fmap_filter_nil {A} (Q : Z * A → Prop) `{!∀ x, Decision (Q x)} (m : gmap Z A) i a :
  (filter Q (map_to_list m)).*2 = [] → m !! i = Some a → ¬ Q (i, a).
Proof.
  intros Hnil Hi HQ. assert (a ∈ (filter Q (map_to_list m)).*2) as Hin.
  { apply list_elem_of_fmap. exists (i, a). split; [done|]. by apply list_elem_of_filter, conj, elem_of_map_to_list. }
  rewrite Hnil in Hin. by apply elem_of_nil in Hin.
Qed.

Lemma files_used_delete_orphaned d : files_used (delete_orphaned_nar_files d).
Proof. by intros f [nf [_ Hf]%map_lookup_filter_Some]. Qed.

Lemma chunks_used_delete_orphaned d : chunks_used (delete_orphaned_chunks d).
Proof. by intros c [h [_ Hc]%map_lookup_filter_Some]. Qed.

Lemma files_used_nil d : orphaned_nar_files d = [] → files_used d.
Proof.
  intros Hnil f [nf Hf]. destruct (has_narinfo f d) eqn:E; [done|].
  exact (False_ind _ (elem_of_fmap_filter_nil (λ x, has_narinfo x.1 d = false) _ _ _ Hnil Hf E)).
Qed.

Lemma chunks_used_nil d : orphaned_chunks d = [] → chunks_used d.
Proof.
  intros Hnil c [h Hc]. destruct (has_nar_file c d) eqn:E; [done|].
  exact (False_ind _ (elem_of_fmap_filter_nil (λ x, has_nar_file x.1 d = false) _ _ _ Hnil Hc E)).
Qed.

Lemma delete_orphans_used cdc v d :
  refs_ok d →
  after false (λ r v' d', v' = v ∧ refs_ok d' ∧
      ∀ x, r = Ok x → files_used d' ∧ (cdc = true → chunks_used d'))
    (delete_orphans cdc) v d.
Proof.
  intros Hd. unfold delete_orphans. apply after_bind, after_query; [by intros _ f; split_and!|]. apply after_bind.
  eapply (after_mono _ (λ r v' d', v' = v ∧ refs_ok d' ∧ (r = Ok () → files_used d'))).
  { case_bool_decide.
    - apply after_ret. split_and!; [done|done|]. intros _. by apply files_used_nil.
    - apply after_exec; [by intros _ f|]. split_and!; [done|by apply refs_ok_delete_orphaned_nar_files|].
      intros _. apply files_used_delete_orphaned. }
  intros [[]|e] v1 d1 (-> & Hd1 & Hu); [|by split_and!]. specialize (Hu eq_refl). destruct cdc; simpl.
  2:{ apply after_ret. split_and!; [done|done|]. by intros x _. }
  apply after_bind, after_query; [by intros _ f; split_and!|]. apply after_bind.
  eapply (after_mono _ (λ r v' d', v' = v ∧ refs_ok d' ∧ (r = Ok () → files_used d' ∧ chunks_used d'))).
  { case_bool_decide.
    - apply after_ret. split_and!; [done|done|]. intros _. split; [done|]. by apply chunks_used_nil.
    - apply after_exec; [by intros _ f|]. split_and!; [done|by apply refs_ok_delete_orphaned_chunks|].
      intros _. split; [exact Hu|]. apply chunks_used_delete_orphaned. }
  intros [[]|e] v2 d2 (-> & Hd2 & Hu2); [|by split_and!]. apply after_ret.
  split_and!; [done|done|]. intros x _. by destruct (Hu2 eq_refl).
Qed.

Lemma delete_orphans_narinfos cdc v d :
  after true (λ r v' d', is_ok r ∧ v' = v ∧ narinfos d' = narinfos d) (delete_orphans cdc) v d.
Proof.
  unfold delete_orphans. apply after_bind, after_query; [done|]. apply after_bind.
  eapply (after_mono _ (λ r v' d', is_ok r ∧ v' = v ∧ narinfos d' = narinfos d)).
  { case_bool_decide; [by apply after_ret|by apply after_exec]. }
  intros [[]|e] v1 d1 (Hok & -> & Hd1); [|done]. destruct cdc; simpl; [|by apply after_ret].
  apply after_bind, after_query; [done|]. apply after_bind.
  eapply (after_mono _ (λ r v' d', is_ok r ∧ v' = v ∧ narinfos d' = narinfos d)).
  { case_bool_decide; [by apply after_ret|by apply after_exec]. }
  intros [[]|e] v2 d2 (Hok2 & -> & Hd2); [|done]. by apply after_ret.
Qed.

(** ** The properties *)

(** The protected hashes are exactly those the traversal can reach from the
    pinned roots over at most [maxDepth] references, and computing them fails only
    when a query does. *)
Theorem pinned_closure_spec {V} (v : V) (d : tables) (fs : list (option dbfault)) :
  unique_keys d →
  let r := (GetPinnedClosureHashes (mkSession v d fs)).1 in
  (fs = [] → is_ok r) ∧
  (∀ s, r = Ok s → ∀ x, x ∈ s ↔ ∃ n, n ≤ maxDepth ∧ reach d n x).
Proof.
  intros Hu r. split.
  - intros ->. pose proof (after_run _ _ _ _ _ [] (GetPinnedClosureHashes_after d Hu true v) ltac:(done)) as Ha.
    subst r. destruct (GetPinnedClosureHashes _) as [[s|e] s'], Ha as (_ & _ & Ha); done.
  - intros s Hs. pose proof (after_run _ _ _ _ _ fs (GetPinnedClosureHashes_after d Hu false v) ltac:(done)) as Ha.
    subst r. destruct (GetPinnedClosureHashes _) as [[s0|e] s'], Ha as (_ & _ & Ha); simplify_eq/=; apply Ha.
Qed.

(** C31. Whatever statements, commits and deletions fail, [runLRU] keeps what the hashes
    that [GetPinnedClosureHashes] gives it need: their narinfos, in the database and in
    the store, the rows of the NAR files these are linked to, those files' chunks, and
    each file of the NAR store, whatever its name, that no row of another narinfo
    names.  The last is a condition: a row with another query
    ([sibling_row_loses_nar]) or compression ([zstd_sibling_loses_nar]) may name the file
    of a protected row.  Nobody else changes the rows during the transaction, and
    hashes are unique among the narinfos and among the chunks. *)
Theorem pinned_closure_survives nulls_first maxSize cdc pin_faults env fails d s P r d' s' :
  unique_keys d → (∀ i d, a_others (env i) d = d) →
  (GetPinnedClosureHashes (mkSession () d pin_faults)).1 = Ok P →
  runLRU nulls_first maxSize cdc pin_faults env fails d s = (r, d', s') →
  keeps P d d' ∧
  (∀ h, h ∈ P → h ∈ narInfoStore s → h ∈ narInfoStore s') ∧
  (∀ k, (∀ g nf, nar_files d !! g = Some nf → nar_key (file_url nf) = Ok k → protected_file P d g) →
     k ∈ narStore s → k ∈ narStore s') ∧
  (∀ c h cs, protected_chunk P d c → chunks d !! c = Some h → chunkStore s = Some cs → h ∈ cs →
     ∃ cs', chunkStore s' = Some cs' ∧ h ∈ cs').
Proof.
  intros Hu Ho HP. unfold runLRU. rewrite HP. pose proof (lru_retry_keeps nulls_first P d env maxSize cdc Ho) as Hk.
  destruct (withEntTransactionRetry _ _ _ _) as [[[[]|e] v] d1], Hk as [(Hn & Hf & Hc) Hk].
  2:{ intros [= <- <- <-]. split_and!; [done|naive_solver..]. }
  case_bool_decide; intros [= <- <- <-]; [split_and!; [done|naive_solver..]|]. split; [done|].
  destruct (delete_items_spec fails ((INarInfo <$> narInfoHashesToRemove v) ++ (INar <$> narURLsToRemove v) ++
    (IChunk <$> chunkHashesToRemove v)) s) as (H1 & H2 & H3). split_and!.
  - intros h Hh Hs. apply H1; [done|]. intros Hin%elem_of_items. by destruct (Hn h).
  - intros k Hall Hs. apply H2; [done|]. intros u Hin%elem_of_items Hku.
    destruct (Hf u Hin) as (g & nf & Hg & -> & Hnp). by destruct Hnp; eapply Hall.
  - intros c h cs Hpc Hch Hcs Hh. apply (H3 cs); [done..|]. intros Hin%elem_of_items.
    destruct (Hc h Hin) as (c' & Hc' & Hnp). by rewrite (chunk_unique _ Hu c' c h Hc' Hch) in Hnp.
Qed.

(** Pinning does not protect a closure: a narinfo's hash has 32 characters, the
    traversal takes 52 of a reference, so no hash it reaches is a narinfo's, and
    the only narinfos protected are the pinned roots themselves. *)
Theorem pin_protects_only_roots {V} (v : V) (d : tables) (fs : list (option dbfault)) P i :
  unique_keys d → (∀ j x, narinfos d !! j = Some x → String.length (ni_hash x) = 32) →
  (GetPinnedClosureHashes (mkSession v d fs)).1 = Ok P → protected P d i →
  ∃ x, narinfos d !! i = Some x ∧ ni_hash x ∈ pinned_closures d.
Proof.
  intros Hu H32 HP (x & Hx & HxP). exists x. split; [done|].
  pose proof (after_run _ _ _ _ _ fs (GetPinnedClosureHashes_after d Hu false v) ltac:(done)) as Ha.
  destruct (GetPinnedClosureHashes _) as [r s'], Ha as (_ & _ & Ha). simpl in HP. subst r.
  apply Ha in HxP as (n & _ & Hr). apply H32 in Hx.
  inversion Hr as [|n' y z Hy (j & nj & ref & _ & _ & _ & Hlen & Heq)]; [done|].
  rewrite Heq, str_length_take in Hx by done. discriminate Hx.
Qed.

(** Without faults, an eviction of [size] bytes deletes the least recently used
    narinfos that are not protected: those of an initial segment [l1] of the rows it
    considers, which ends when [size] bytes are freed or the rows do; it never
    evicts one more row than it needs to, except for the last of the rows. *)
Theorem lru_evicts_oldest nulls_first cdc size P v d :
  (0 < size)%Z → (∀ f nf, nar_files d !! f = Some nf → (0 ≤ nf_file_size nf)%Z) →
  (total_size (lru_candidates nulls_first d) < 2 ^ 64)%Z →
  let l := to_delete size (lru_candidates nulls_first d) in
  ∃ hs urls cs d' l1 l2,
    deleteLRURecordsFromDB nulls_first cdc size P (mkSession v d []) = (Ok (hs, urls, cs), mkSession v d' []) ∧
    l = l1 ++ l2 ∧ hs = c_hash <$> evictable P l1 ∧
    (∀ i, narinfos d' !! i = if bool_decide (i ∈ c_id <$> evictable P l1) then None else narinfos d !! i) ∧
    (l2 = [] ∨ (size ≤ total_size (evictable P l1))%Z) ∧
    (∀ ev c, evictable P l1 = ev ++ [c] → (total_size ev < size)%Z ∨ length l ≤ length ev + 1) ∧
    (∀ c i y, c ∈ l1 → narinfos d !! i = Some y → i ∉ c_id <$> l1 →
       ∃ x, narinfos d !! c_id c = Some x ∧ lru_le nulls_first (c_id c, x) (i, y)).
Proof.
  intros Hsize Hpos Htot l. destruct (to_delete_prefix size (lru_candidates nulls_first d)) as [l3 Hl3]. fold l in Hl3.
  assert (Forall (λ c, 0 ≤ c_size c)%Z (lru_candidates nulls_first d)) as Hall.
  { apply Forall_forall. intros c (x & _ & ->)%lru_candidates_row. by apply narInfoFileSize_nonneg. }
  rewrite Hl3 in Hall. apply Forall_app in Hall as [Hall Hall3]. apply total_size_nonneg in Hall3.
  rewrite Hl3, total_size_app in Htot.
  assert (after true (λ r v' d', v' = v ∧ ∃ hs urls cs l1 l2, r = Ok (hs, urls, cs) ∧
    loop_outcome P size (length l) [] 0 l l1 l2 hs ∧ narinfos d' = narinfos (delete_narinfos (evictable P l1) d))
    (deleteLRURecordsFromDB nulls_first cdc size P) v d) as Ha.
  { unfold deleteLRURecordsFromDB. apply after_bind, after_query; [done|]. fold l. destruct l as [|c0 l0] eqn:El.
    { apply after_ret. split; [done|]. exists [], [], [], [], []. split_and!; [done| |done].
      split; [done|done|by left|]. intros ev c Heq. by destruct ev. }
    rewrite <- El in *. apply after_bind. eapply after_mono; [apply delete_loop_spec; [done..|lia]|].
    intros r v1 d1 (-> & Hok & Hr). destruct r as [hs|e]; [|by specialize (Hok eq_refl)].
    destruct (Hr hs eq_refl) as (l1 & l2 & Hlo & ->). apply after_bind.
    eapply after_mono; [apply delete_orphans_narinfos|].
    intros [[urls cs]|e] v2 d2 (Hok2 & -> & Hd2); [|done]. apply after_ret. split; [done|].
    by exists hs, urls, cs, l1, l2. }
  apply (after_run _ _ _ _ _ []) in Ha; [|done]. destruct (deleteLRURecordsFromDB _ _ _ _ _) as [r [v' d' fs']].
  cbn [vars rows faults] in Ha. destruct Ha as (Hf & -> & hs & urls & cs & l1 & l2 & -> & [Hl -> He Hn] & Hni).
  rewrite (Hf eq_refl). exists (c_hash <$> evictable P l1), urls, cs, d', l1, l2. split_and!; [done..| | | |].
  - intros i. by rewrite Hni, delete_narinfos_lookup.
  - destruct He; [by left|right; lia].
  - intros ev c Hev. destruct ev as [|c0 ev]; [left; simpl; lia|].
    destruct (Hn _ _ Hev ltac:(done)); [left|right]; simpl in *; lia.
  - intros c i y Hc Hi Hni'. eapply lru_candidates_order; [|done..]. rewrite Hl3, Hl. by rewrite <- app_assoc.
Qed.

(** When an eviction that had rows to consider succeeds, whatever failed
    before, every NAR file left is linked to a narinfo, with CDC every chunk left
    is linked to a NAR file, and the links still point to rows. *)
Theorem eviction_leaves_no_orphans nulls_first cdc size P v d fs x s :
  refs_ok d → to_delete size (lru_candidates nulls_first d) ≠ [] →
  deleteLRURecordsFromDB nulls_first cdc size P (mkSession v d fs) = (Ok x, s) →
  refs_ok (rows s) ∧ files_used (rows s) ∧ (cdc = true → chunks_used (rows s)).
Proof.
  intros Hd Hne Hrun.
  assert (after false (λ r v' d', ∀ x, r = Ok x → refs_ok d' ∧ files_used d' ∧ (cdc = true → chunks_used d'))
    (deleteLRURecordsFromDB nulls_first cdc size P) v d) as Ha.
  { unfold deleteLRURecordsFromDB. apply after_bind, after_query; [done|].
    destruct (to_delete _ _) as [|c l]; [done|]. apply after_bind.
    eapply after_mono; [by apply delete_loop_refs_ok|]. intros [hs|e] v1 d1 [-> Hd1]; [|done].
    apply after_bind. eapply after_mono; [by apply delete_orphans_used|].
    intros [[urls cs]|e] v2 d2 (-> & Hd2 & Hu); [|done]. apply after_ret. intros y _. split; [done|by eapply Hu]. }
  apply (after_run _ _ _ _ _ fs) in Ha; [|done]. rewrite Hrun in Ha. destruct Ha as [_ Ha]. by eapply Ha.
Qed.

(** ** Witnesses, and evictions that go wrong *)

(** A pinned package that refers to itself and to a library nobody used lately. *)
Definition app_hash : string := sample_prefix.
Definition lib_hash : string := "2imigbs1vnh9bdyf42z9mvq23pdshgw4".
Definition app_nar : string := sample_hash.
Definition lib_nar : string := "0n1imsyd3lc2qkj2kmjvixl4lx7xd0gl4ckls4a8cl5mfwywvqkf".

Definition pinned_app : tables :=
  mkTables
    {[1 := mkNarInfo app_hash [app_hash +:+ "-app-1.0-which-has-a-long-name"; lib_hash +:+ "-library-with-a-long-name-2.0"] (Some 9);
      2 := mkNarInfo lib_hash [] (Some 5)]}%Z
    [(1, 10); (2, 20)]%Z
    {[10 := mkNarFile app_nar "xz" "" 60; 20 := mkNarFile lib_nar "xz" "" 50]}%Z
    [(10, 100); (20, 200)]%Z {[100 := "c1"; 200 := "c2"]}%Z [app_hash].

Definition key_of (h : string) : string := default "" match nar_key (mkURL h "xz" ∅ false "") with Ok k => Some k | Err _ => None end.

Definition full_stores : stores :=
  mkStores {[app_hash; lib_hash]} {[key_of app_nar; key_of lib_nar]} (Some {["c1"; "c2"]}).

Lemma pinned_app_keys : unique_keys pinned_app.
Proof.
  split; unfold pinned_app; cbn [narinfos chunks].
  - intros i j x y. rewrite !lookup_insert_Some, !lookup_singleton_Some. naive_solver.
  - intros i j h. rewrite !lookup_insert_Some, !lookup_singleton_Some. naive_solver.
Qed.

Definition calm_env (i : nat) : attempt tables := undisturbed.

(** The run of [runLRU] that shrinks the cache to 80 bytes. *)
Definition shrink (env : nat → attempt tables) : result dberr unit * tables * stores :=
  runLRU true 80 true [] env (λ _, false) pinned_app full_stores.

Definition pinned_set : gset string :=
  match (GetPinnedClosureHashes (mkSession () pinned_app [])).1 with Ok s => s | Err _ => ∅ end.

Lemma pinned_set_eq : (GetPinnedClosureHashes (mkSession () pinned_app [])).1 = Ok pinned_set.
Proof.
  assert (is_ok (GetPinnedClosureHashes (mkSession () pinned_app [])).1 = true) as Hok by (vm_compute; reflexivity).
  unfold pinned_set. destruct (GetPinnedClosureHashes _).1; [reflexivity|discriminate Hok].
Qed.

Lemma pinned_app_refs : refs_ok pinned_app.
Proof.
  split; intros i f Hin; unfold pinned_app in Hin; cbn [narinfo_nar_files nar_file_chunks] in Hin;
    rewrite !elem_of_cons, elem_of_nil in Hin; destruct Hin as [[= -> ->]|[[= -> ->]|[]]];
    split; eexists; vm_compute; reflexivity.
Qed.

Lemma pinned_closure_spec_witness :
  ∃ s, (GetPinnedClosureHashes (mkSession () pinned_app [])).1 = Ok s ∧
    app_hash ∈ s ∧ (∀ x, x ∈ s ↔ ∃ n, n ≤ maxDepth ∧ reach pinned_app n x).
Proof.
  destruct (pinned_closure_spec () pinned_app [] pinned_app_keys) as [Hok Hspec].
  destruct (GetPinnedClosureHashes _).1 as [s|e]; [|by specialize (Hok eq_refl)].
  exists s. specialize (Hspec s eq_refl). split_and!; [done| |done].
  apply Hspec. exists 0. split; [lia|]. constructor. by left.
Defined.

(** The application stays and the library it needs goes. *)
Lemma pinned_closure_survives_witness :
  bool_decide (narinfos (shrink calm_env).1.2 !! 2%Z = None) = true ∧
  keeps pinned_set pinned_app (shrink calm_env).1.2 ∧
  protected pinned_set pinned_app 1%Z.
Proof.
  split; [vm_compute; reflexivity|]. split.
  - apply (pinned_closure_survives true 80 true [] calm_env (λ _, false) pinned_app full_stores pinned_set
      (shrink calm_env).1.1 (shrink calm_env).1.2 (shrink calm_env).2).
    + apply pinned_app_keys.
    + reflexivity.
    + apply pinned_set_eq.
    + unfold shrink. by destruct (runLRU _ _ _ _ _ _ _ _) as [[? ?] ?].
  - exists (mkNarInfo app_hash [app_hash +:+ "-app-1.0-which-has-a-long-name"; lib_hash +:+ "-library-with-a-long-name-2.0"] (Some 9%Z)).
    split; [reflexivity|]. apply (bool_decide_eq_true_1 (app_hash ∈ pinned_set)). vm_compute. reflexivity.
Defined.

Lemma pin_protects_only_roots_witness :
  ∃ x, narinfos pinned_app !! 1%Z = Some x ∧ ni_hash x ∈ pinned_closures pinned_app.
Proof.
  apply (pin_protects_only_roots () pinned_app [] pinned_set 1%Z).
  - apply pinned_app_keys.
  - intros j x. unfold pinned_app; cbn [narinfos]. rewrite lookup_insert_Some, lookup_singleton_Some.
    intros [[<- <-]|[_ [<- <-]]]; reflexivity.
  - apply pinned_set_eq.
  - eexists. split; [reflexivity|]. apply (bool_decide_eq_true_1 (app_hash ∈ pinned_set)). vm_compute. reflexivity.
Defined.

Lemma lru_evicts_oldest_witness :
  ∃ hs urls cs d' l1 l2,
    deleteLRURecordsFromDB true true 30 pinned_set (mkSession (mkVars [] [] [] 0) pinned_app []) =
      (Ok (hs, urls, cs), mkSession (mkVars [] [] [] 0) d' []) ∧
    to_delete 30 (lru_candidates true pinned_app) = l1 ++ l2 ∧ hs = c_hash <$> evictable pinned_set l1.
Proof.
  destruct (lru_evicts_oldest true true 30 pinned_set (mkVars [] [] [] 0) pinned_app)
    as (hs & urls & cs & d' & l1 & l2 & H1 & H2 & H3 & _).
  - lia.
  - intros f nf. unfold pinned_app; cbn [nar_files]. rewrite lookup_insert_Some, lookup_singleton_Some.
    intros [[<- <-]|[_ [<- <-]]]; cbn [nf_file_size]; lia.
  - vm_compute. reflexivity.
  - exists hs, urls, cs, d', l1, l2. split; [exact H1|split; [exact H2|exact H3]].
Defined.

Lemma eviction_leaves_no_orphans_witness :
  let '(r, s) := deleteLRURecordsFromDB true true 30 pinned_set (mkSession (mkVars [] [] [] 0) pinned_app []) in
  is_ok r ∧ files_used (rows s).
Proof.
  destruct (deleteLRURecordsFromDB _ _ _ _ _) as [r s] eqn:E.
  assert (is_ok r) as Hok.
  { change r with (r, s).1. rewrite <- E. vm_compute. exact I. }
  split; [exact Hok|]. destruct r as [x|e]; [|destruct Hok].
  apply (eviction_leaves_no_orphans true true 30 pinned_set (mkVars [] [] [] 0) pinned_app [] x s).
  - exact pinned_app_refs.
  - vm_compute. discriminate.
  - exact E.
Defined.

(** The library's NAR file also has a row for a URL with a query, of a narinfo that
    stays. *)
Definition sibling_rows : tables :=
  mkTables
    {[1 := mkNarInfo app_hash [] (Some 9); 2 := mkNarInfo lib_hash [] (Some 5)]}%Z
    [(1, 10); (2, 20)]%Z
    {[10 := mkNarFile lib_nar "xz" "sig=1" 60; 20 := mkNarFile lib_nar "xz" "" 30;
      30 := mkNarFile app_nar "xz" "" 20]}%Z
    [] ∅ [app_hash].

(** Another replica deletes the application's rows while the first attempt's commit
    is refused. *)
Definition retried_env (i : nat) : attempt tables :=
  match i with
  | 0 => mkAttempt (λ d, d) None [] (NotCommitted Deadlock) false
  | 1 => mkAttempt (λ d, delete_orphaned_nar_files (delete_narinfo 1 d)) None [] Committed false
  | _ => undisturbed
  end.

(** An attempt that is rolled back leaves the closure's variables: when the
    next attempt finds nothing to clean up, because another replica freed enough
    meanwhile, [runLRU] still deletes from the stores what the first one chose,
    and the rows that name it stay. *)
Theorem stale_attempt_deletes_live_files :
  let '(r, d, s) := shrink retried_env in
  r = Ok () ∧ bool_decide (is_Some (narinfos d !! 2%Z)) = true ∧ bool_decide (is_Some (nar_files d !! 20%Z)) = true ∧
  bool_decide (key_of lib_nar ∈ narStore full_stores) = true ∧ bool_decide (key_of lib_nar ∈ narStore s) = false.
Proof. vm_compute. done. Qed.

(** The file of a NAR does not depend on its URL's query: when a row with
    another query of the same NAR loses its last narinfo, the file is deleted,
    though the row of the narinfo that stays still names it. *)
Theorem sibling_row_loses_nar :
  let '(r, d, s) := runLRU true 80 false [] calm_env (λ _, false) sibling_rows full_stores in
  r = Ok () ∧ bool_decide (is_Some (narinfos d !! 1%Z)) = true ∧ bool_decide (is_Some (nar_files d !! 10%Z)) = true ∧
  has_narinfo 10 d = true ∧ bool_decide (key_of lib_nar ∈ narStore s) = false.
Proof. vm_compute. done. Qed.

(** The NAR of a row without compression is kept compressed, as [.nar.zst]: evicting
    another row of the hash whose compression is zstd deletes it, though the row of the
    pinned narinfo stays. *)
Theorem zstd_sibling_loses_nar :
  let kept := mkNarFile app_nar "none" "" 60 in
  let rows := mkTables {[1 := mkNarInfo app_hash [] (Some 9); 2 := mkNarInfo lib_hash [] (Some 5)]}%Z
    [(1, 10); (2, 20)]%Z {[10 := kept; 20 := mkNarFile app_nar "zstd" "" 50]}%Z [] ∅ [app_hash] in
  let zst := match nar_key (mkURL app_nar "zstd" ∅ false "") with Ok k => k | Err _ => "" end in
  let '(r, d, s) := runLRU true 80 false [] calm_env (λ _, false) rows (mkStores {[app_hash; lib_hash]} {[zst]} None) in
  r = Ok () ∧ bool_decide (is_Some (nar_files d !! 10%Z)) = true ∧ has_narinfo 10 d = true ∧
  bool_decide (app_hash ∈ pinned_closures d) = true ∧ bool_decide (narStore s = ∅) = true.
Proof. vm_compute. by split_and!. Qed.

(** Rows that must stay use up the byte budget of the rows considered: with
    pinned narinfos at the head of the order of access, nothing is evicted and the
    cache stays above its maximal size, though unpinned narinfos follow. *)
Theorem pinned_head_blocks_eviction :
  let rows := mkTables
    {[1 := mkNarInfo app_hash [] (Some 1); 2 := mkNarInfo lib_hash [] (Some 5)]}%Z
    [(1, 10); (2, 20)]%Z
    {[10 := mkNarFile app_nar "xz" "" 60; 20 := mkNarFile lib_nar "xz" "" 50]}%Z [] ∅ [app_hash] in
  let '(r, d, s) := runLRU true 80 false [] calm_env (λ _, false) rows full_stores in
  r = Ok () ∧ totalNarFileSize d = 110%Z ∧ bool_decide (is_Some (narinfos d !! 2%Z)) = true.
Proof. vm_compute. done. Qed.
