(* ===== verification/NarInfoDB.v ===== *)
(** * The records of narinfos ([pkg/cache/cache.go])

    A narinfo is a row of [narinfos] with its references, its signatures and its
    links to rows of [nar_files].  The operations here are the closures the cache
    runs in transactions: storing a parsed narinfo ([storeInDatabase],
    [storeNarInfoInDatabase]), reading one back ([populateNarInfoFromDatabase]),
    deleting and repairing rows.  go-nix's hashes and signatures are classes of
    types that print and parse. *)
From S2P Require Import Prelude GoStd Nar Tx.

(** ** go-nix *)

Class Printable (A : Type) := {
  print : A → string;
  parse : string → option A;
}.

Class PrintableLaws (A : Type) `{Printable A} := {
  parse_print (a : A) : parse (print a) = Some a;
  print_nonempty (a : A) : print a ≠ "";
}.

(** [nixhash.HashWithEncoding] and [signature.Signature]. *)
Class GoNix := {
  nixhash : Type;
  nixhash_printable :: Printable nixhash;
  signature : Type;
  signature_printable :: Printable signature;
}.

Class GoNixLaws (G : GoNix) := {
  nixhash_laws :: PrintableLaws nixhash;
  signature_laws :: PrintableLaws signature;
}.

(** [narinfo.NarInfo]; the sizes are [uint64]s. *)
Record NarInfo `{GoNix} := mkInfo {
  StorePath : string;
  InfoURL : string;
  InfoCompression : string;
  FileHash : option nixhash;
  FileSize : Z;
  NarHash : option nixhash;
  NarSize : Z;
  References : list string;
  Deriver : string;
  System : string;
  Signatures : list signature;
  CA : string;
}.

(** The conversions [int64(x)] and [uint64(x)]. *)
Definition to_int64 (z : Z) : Z := if (z <? 2 ^ 63)%Z then z else (z - 2 ^ 64)%Z.
Definition to_uint64 (z : Z) : Z := (z mod 2 ^ 64)%Z.

(** ** The tables *)

Record narinfo_row := mkRow {
  r_hash : string;
  r_store_path : option string;
  r_url : option string;
  r_upstream_url : option string;
  r_compression : option string;
  r_file_hash : option string;
  r_file_size : option Z;
  r_nar_hash : option string;
  r_nar_size : option Z;
  r_deriver : option string;
  r_system : option string;
  r_ca : option string;
  r_last_accessed_at : option Z;
}.

(** [nf_bytes_stored]: [bytes_stored_at] is set; [nf_chunking]: [chunking_started_at]
    is set. *)
Record nar_file := mkNarFile {
  nf_hash : string;
  nf_compression : string;
  nf_query : string;
  nf_file_size : Z;
  nf_total_chunks : Z;
  nf_bytes_stored : bool;
  nf_last_accessed_at : option Z;
  nf_chunking : bool;
  nf_created_at : Z;
}.

Definition touch_file (t : option Z) (nf : nar_file) : nar_file :=
  mkNarFile (nf_hash nf) (nf_compression nf) (nf_query nf) (nf_file_size nf) (nf_total_chunks nf) (nf_bytes_stored nf) t
    (nf_chunking nf) (nf_created_at nf).

(** The tables of references and signatures pair a narinfo's id with a text,
    [narinfo_nar_files] a narinfo's id with a NAR file's; [nar_file_chunks] gives a
    NAR file's id its chunks' hashes in their order. *)
Record tables := mkTables {
  narinfos : gmap Z narinfo_row;
  references : list (Z * string);
  signatures : list (Z * string);
  nar_files : gmap Z nar_file;
  links : list (Z * Z);
  nar_file_chunks : gmap Z (list string);
}.

Definition set_narinfos m (d : tables) : tables :=
  mkTables m (references d) (signatures d) (nar_files d) (links d) (nar_file_chunks d).
Definition set_references l (d : tables) : tables :=
  mkTables (narinfos d) l (signatures d) (nar_files d) (links d) (nar_file_chunks d).
Definition set_signatures l (d : tables) : tables :=
  mkTables (narinfos d) (references d) l (nar_files d) (links d) (nar_file_chunks d).
Definition set_nar_files m (d : tables) : tables :=
  mkTables (narinfos d) (references d) (signatures d) m (links d) (nar_file_chunks d).
Definition set_links l (d : tables) : tables :=
  mkTables (narinfos d) (references d) (signatures d) (nar_files d) l (nar_file_chunks d).
Definition set_nar_file_chunks m (d : tables) : tables :=
  mkTables (narinfos d) (references d) (signatures d) (nar_files d) (links d) m.

Definition rows_where {A} (P : A → Prop) `{∀ x, Decision (P x)} (m : gmap Z A) : list (Z * A) :=
  map_to_list (filter (λ x, P x.2) m).

(** The rows with a hash, and with a NAR file's key. *)
Definition narinfos_where (h : string) (d : tables) : list (Z * narinfo_row) :=
  rows_where (λ r, r_hash r = h) (narinfos d).

Definition has_key (h c q : string) (nf : nar_file) : Prop :=
  nf_hash nf = h ∧ nf_compression nf = c ∧ nf_query nf = q.
#[global] Instance has_key_dec h c q nf : Decision (has_key h c q nf).
Proof. unfold has_key. apply _. Defined.

Definition nar_files_where (h c q : string) (d : tables) : list (Z * nar_file) :=
  rows_where (has_key h c q) (nar_files d).

(** ent's [Only]. *)
Definition Only {A} (l : list A) : result dberr A :=
  match l with
  | [] => Err RowNotFound
  | [x] => Ok x
  | _ :: _ :: _ => Err NotSingular
  end.

(** The checks [narinfos_file_size_nonneg] and [narinfos_nar_size_nonneg]. *)
Definition nonneg (o : option Z) : bool := match o with Some z => (0 <=? z)%Z | None => true end.
Definition row_check (r : narinfo_row) : bool := nonneg (r_file_size r) && nonneg (r_nar_size r).

(** A column that is NULL or empty. *)
Definition is_empty (o : option string) : bool := bool_decide (o = None ∨ o = Some "").
Definition derefStringPtr (o : option string) : string := default "" o.
Definition derefInt64Ptr (o : option Z) : Z := default 0%Z o.

Section records.
Context `{GoNix} {V : Type}.

(** PostgreSQL refuses an upsert that meets one row twice. *)
Context (postgres : bool).

(** In which order the database returns the rows of an edge. *)
Context (row_order : list string → list string).

(** [time.Now], and [recordAgeIgnoreTouch]. *)
Context (now age : Z).
Notation M := (eff (session V tables) dberr).

(** ** Statements *)

Definition narInfoByHash (h : string) : M (Z * narinfo_row) :=
  l ← query (narinfos_where h); lift (Only l).

(** [Create().OnConflictColumns(hash).Ignore()] *)
Definition insert_narinfo (r : narinfo_row) : M () :=
  stmt_or (λ d,
    if negb (row_check r) then Err (Fault OtherFault) else
    match narinfos_where (r_hash r) d with
    | [] => Ok ((), set_narinfos (<[fresh (dom (narinfos d)) := r]> (narinfos d)) d)
    | _ :: _ => Ok ((), d)
    end).

(** [UpdateOneID(i)...Save(ctx)] *)
Definition update_narinfo (i : Z) (f : narinfo_row → narinfo_row) : M narinfo_row :=
  stmt_or (λ d,
    match narinfos d !! i with
    | None => Err RowNotFound
    | Some r => if row_check (f r) then Ok (f r, set_narinfos (<[i := f r]> (narinfos d)) d) else Err (Fault OtherFault)
    end).

(** [Update().Where(HashEQ(h))...Save(ctx)] *)
Definition update_where (h : string) (f : narinfo_row → narinfo_row) : M () :=
  stmt_or (λ d,
    if bool_decide (map_Forall (λ _ r, r_hash r = h → row_check (f r) = true) (narinfos d))
    then Ok ((), set_narinfos ((λ r, if bool_decide (r_hash r = h) then f r else r) <$> narinfos d) d)
    else Err (Fault OtherFault)).

Definition touch (r : narinfo_row) : narinfo_row :=
  mkRow (r_hash r) (r_store_path r) (r_url r) (r_upstream_url r) (r_compression r) (r_file_hash r) (r_file_size r)
    (r_nar_hash r) (r_nar_size r) (r_deriver r) (r_system r) (r_ca r) (Some now).

(** A conflict with a row of the table is no change. *)
Definition add_pair {A} `{EqDecision A} (l : list (Z * A)) (x : Z * A) : list (Z * A) :=
  if bool_decide (x ∈ l) then l else l ++ [x].

(** ** Storing *)

(** Set a column to a text that is not empty; otherwise leave it, or clear it. *)
Definition set_string (v : string) (old : option string) : option string :=
  if bool_decide (v = "") then old else Some v.
Definition set_or_clear (v : string) : option string := if bool_decide (v = "") then None else Some v.

(** The builder of a row to insert. *)
Definition new_row (h : string) : narinfo_row :=
  mkRow h None None None None None None None None None None None (Some now).

Definition applyNarInfoCreate (nb : narinfo_row) (ni : NarInfo) : narinfo_row :=
  mkRow (r_hash nb) (set_string (StorePath ni) (r_store_path nb)) (set_string (InfoURL ni) (r_url nb)) (r_upstream_url nb)
    (set_string (InfoCompression ni) (r_compression nb))
    (match FileHash ni with Some h => Some (print h) | None => r_file_hash nb end)
    (if bool_decide (FileSize ni = 0%Z) then r_file_size nb else Some (to_int64 (FileSize ni)))
    (match NarHash ni with Some h => Some (print h) | None => r_nar_hash nb end)
    (Some (to_int64 (NarSize ni)))
    (set_string (Deriver ni) (r_deriver nb)) (set_string (System ni) (r_system nb)) (set_string (CA ni) (r_ca nb))
    (r_last_accessed_at nb).

Definition applyNarInfoUpdate (ub : narinfo_row) (ni : NarInfo) : narinfo_row :=
  mkRow (r_hash ub) (set_or_clear (StorePath ni)) (set_or_clear (InfoURL ni)) (r_upstream_url ub)
    (set_or_clear (InfoCompression ni)) (print <$> FileHash ni)
    (if bool_decide (FileSize ni = 0%Z) then None else Some (to_int64 (FileSize ni)))
    (print <$> NarHash ni) (Some (to_int64 (NarSize ni)))
    (set_or_clear (Deriver ni)) (set_or_clear (System ni)) (set_or_clear (CA ni)) (r_last_accessed_at ub).

Definition fill_stub (i : Z) (r : narinfo_row) (ni : NarInfo) : M (Z * narinfo_row) :=
  if is_empty (r_url r) then r ← update_narinfo i (λ r, applyNarInfoUpdate r ni); mret (i, r) else mret (i, r).

Definition upsertNarInfoFromParsed (h : string) (ni : NarInfo) : M (Z * narinfo_row) :=
  r ← try (narInfoByHash h);
  match r with
  | Err e =>
      if negb (IsNotFoundError e) then throw e else
      if bool_decide (h = "") then throw (AppError ErrInvalid) else
      _ ← insert_narinfo (applyNarInfoCreate (new_row h) ni);
      '(i, nir) ← narInfoByHash h;
      fill_stub i nir ni
  | Ok (i, existing) => fill_stub i existing ni
  end.

(** A bulk insertion that ignores conflicts. *)
Definition add_texts (get : tables → list (Z * string)) (set : list (Z * string) → tables → tables) (i : Z)
    (l : list string) : M () :=
  if bool_decide (l = []) then mret () else
  if bool_decide ("" ∈ l) then throw (AppError ErrInvalid) else
  stmt_or (λ d, if postgres && negb (bool_decide (NoDup l)) then Err (Fault OtherFault)
                else Ok ((), set (foldl add_pair (get d) (pair i <$> l)) d)).

Definition addNarInfoReferences (i : Z) (refs : list string) : M () := add_texts references set_references i refs.

Definition addNarInfoSignatures (i : Z) (sigs : list signature) : M () :=
  add_texts signatures set_signatures i (print <$> sigs).

Definition upsert_nar_file (u : URL) (size : Z) (d : tables) : Z * tables :=
  match nar_files_where (Hash u) (Compression u) (encode (Query u)) d with
  | (f, nf) :: _ =>
      (f, set_nar_files (<[f := touch_file (Some now) nf]> (nar_files d)) d)
  | [] =>
      let f := fresh (dom (nar_files d)) in
      (f, set_nar_files (<[f := mkNarFile (Hash u) (Compression u) (encode (Query u)) size 0 false (Some now) false now]>
            (nar_files d)) d)
  end.

Definition createOrUpdateNarFileEnt (u : URL) (size : Z) : M Z := stmt (upsert_nar_file u size).

Definition narFileSize (ni : NarInfo) : Z := if bool_decide (FileSize ni = 0%Z) then NarSize ni else FileSize ni.

(** The part of the two closures after the row. *)
Definition store_edges (i : Z) (ni : NarInfo) : M () :=
  _ ← addNarInfoReferences i (References ni);
  _ ← addNarInfoSignatures i (Signatures ni);
  match u ← ParseURL (InfoURL ni); Normalize u with
  | Err _ => throw (AppError ErrInvalid)
  | Ok normalizedNarURL =>
      narFileID ← createOrUpdateNarFileEnt normalizedNarURL (narFileSize ni);
      exec (λ d, set_links (add_pair (links d) (i, narFileID)) d)
  end.

Definition set_upstream_url (u : string) (r : narinfo_row) : narinfo_row :=
  mkRow (r_hash r) (r_store_path r) (r_url r) (Some u) (r_compression r) (r_file_hash r) (r_file_size r)
    (r_nar_hash r) (r_nar_size r) (r_deriver r) (r_system r) (r_ca r) (r_last_accessed_at r).

Definition storeInDatabase (h : string) (ni : NarInfo) (upstreamURL : string) : M () :=
  '(i, _) ← upsertNarInfoFromParsed h ni;
  _ ← (if bool_decide (upstreamURL = "") then mret ()
       else _ ← update_narinfo i (set_upstream_url upstreamURL); mret ());
  store_edges i ni.

Definition storeNarInfoInDatabase (h : string) (ni : NarInfo) : M () :=
  '(i, _) ← upsertNarInfoFromParsed h ni;
  store_edges i ni.

(** ** Reading *)

Definition parseValidHashPtr (o : option string) : result dberr (option nixhash) :=
  if is_empty o then Ok None else
  match parse (derefStringPtr o) with Some h => Ok (Some h) | None => Err (AppError ErrInvalid) end.

(** The texts of an edge. *)
Definition texts_of (i : Z) (l : list (Z * string)) : list string := row_order (filter (λ x, x.1 = i) l).*2.

(** [last_accessed_at] is NULL or older than [recordAgeIgnoreTouch]. *)
Definition stale (o : option Z) : bool := match o with Some t => (age <? now - t)%Z | None => true end.

Definition populateNarInfoFromDatabase (h : string) (do_touch : bool) : M (NarInfo * URL) :=
  r ← try (narInfoByHash h);
  match r with
  | Err e => throw (if IsNotFoundError e then AppError ErrNotFound else e)
  | Ok (i, nir) =>
      refs ← query (λ d, texts_of i (references d));
      sigs ← query (λ d, texts_of i (signatures d));
      if is_empty (r_url nir) then throw (AppError ErrNotFound) else
      fileHash ← lift (parseValidHashPtr (r_file_hash nir));
      narHash ← lift (parseValidHashPtr (r_nar_hash nir));
      sigs ← lift (of_option (AppError ErrInvalid) (mapM parse sigs));
      parsedURL ← lift (map_err (λ _, AppError ErrInvalid) (ParseURL (derefStringPtr (r_url nir))));
      _ ← (if do_touch && stale (r_last_accessed_at nir) then update_where h touch else mret ());
      mret (mkInfo _ (derefStringPtr (r_store_path nir)) (derefStringPtr (r_url nir)) (derefStringPtr (r_compression nir))
        fileHash (to_uint64 (derefInt64Ptr (r_file_size nir))) narHash (to_uint64 (derefInt64Ptr (r_nar_size nir)))
        refs (derefStringPtr (r_deriver nir)) (derefStringPtr (r_system nir)) sigs (derefStringPtr (r_ca nir)), parsedURL)
  end.
End records.

(** ** Deleting and repairing *)

(** [tx.NarInfo.Delete().Where(HashEQ(h))], with what cascades. *)
Definition delete_where (h : string) (d : tables) : tables :=
  let gone (i : Z) := match narinfos d !! i with Some r => bool_decide (r_hash r = h) | None => false end in
  mkTables (filter (λ x, r_hash x.2 ≠ h) (narinfos d)) (filter (λ x, gone x.1 = false) (references d))
    (filter (λ x, gone x.1 = false) (signatures d)) (nar_files d) (filter (λ x, gone x.1 = false) (links d)) (nar_file_chunks d).

Definition delete_nar_file (f : Z) (d : tables) : tables :=
  mkTables (narinfos d) (references d) (signatures d) (delete f (nar_files d)) (filter (λ x, x.2 ≠ f) (links d))
    (delete f (nar_file_chunks d)).

(** The closure of [purgeNarInfo]; its captured variable is [orphanedNarURLs]. *)
Fixpoint purge_links (ls : list Z) : eff (session (list URL) tables) dberr () :=
  match ls with
  | [] => mret ()
  | f :: ls =>
      r ← query (λ d, nar_files d !! f);
      match r with
      | None => purge_links ls
      | Some nf =>
          hasLinks ← query (λ d, bool_decide (f ∈ (links d).*2));
          if hasLinks : bool then purge_links ls else
          _ ← exec (delete_nar_file f);
          match parse_query (nf_query nf) with
          | Err _ => throw (AppError ErrInvalid)
          | Ok q =>
              _ ← assign (λ orphanedNarURLs, orphanedNarURLs ++ [mkURL (nf_hash nf) (nf_compression nf) q false ""]);
              purge_links ls
          end
      end
  end.

Definition purge_tx (h : string) : eff (session (list URL) tables) dberr () :=
  r ← try (narInfoByHash h);
  match r with
  | Err e => if IsNotFoundError e then mret () else throw e
  | Ok (i, _) =>
      ls ← query (λ d, (filter (λ x, x.1 = i) (links d)).*2);
      _ ← exec (delete_where h);
      purge_links ls
  end.

Definition SetFileSize (z : option Z) (r : narinfo_row) : narinfo_row :=
  mkRow (r_hash r) (r_store_path r) (r_url r) (r_upstream_url r) (r_compression r) (r_file_hash r) z
    (r_nar_hash r) (r_nar_size r) (r_deriver r) (r_system r) (r_ca r) (r_last_accessed_at r).
Definition SetFileHash (h : option string) (r : narinfo_row) : narinfo_row :=
  mkRow (r_hash r) (r_store_path r) (r_url r) (r_upstream_url r) (r_compression r) h (r_file_size r)
    (r_nar_hash r) (r_nar_size r) (r_deriver r) (r_system r) (r_ca r) (r_last_accessed_at r).

Section repairs.
Context {V : Type} (now : Z).
Notation M := (eff (session V tables) dberr).

Definition fixNarInfoFileSize (h : string) (correctSize : Z) : M () := update_where h (SetFileSize (Some correctSize)).
Definition fixNarInfoFileHash (h fileHash : string) : M () := update_where h (SetFileHash (Some fileHash)).
Definition clearFileSize (h : string) : M () := update_where h (SetFileSize None).
Definition clearFileHash (h : string) : M () := update_where h (SetFileHash None).

(** The statement of [ensureNarFileRecord]; the upsert keeps [total_chunks]. *)
Definition ensure_nar_file (u : URL) (written : Z) (d : tables) : tables :=
  let u := match Normalize u with Ok v => v | Err _ => u end in
  match nar_files_where (Hash u) (Compression u) (encode (Query u)) d with
  | (f, nf) :: _ =>
      set_nar_files (<[f := mkNarFile (nf_hash nf) (nf_compression nf) (nf_query nf) written (nf_total_chunks nf) true
        (nf_last_accessed_at nf) (nf_chunking nf) (nf_created_at nf)]> (nar_files d)) d
  | [] =>
      set_nar_files (<[fresh (dom (nar_files d)) := mkNarFile (Hash u) (Compression u) (encode (Query u)) written 0 true
        (Some now) false now]> (nar_files d)) d
  end.

Definition ensureNarFileRecord (u : URL) (written : Z) : M () := exec (ensure_nar_file u written).
End repairs.

(** ** Lemmas on the tables *)

Lemma unique_where {A} (P : A → Prop) `{∀ x, Decision (P x)} (m : gmap Z A) :
  (∀ i j x y, m !! i = Some x → m !! j = Some y → P x → P y → i = j) →
  (rows_where P m = [] ∧ ∀ i x, m !! i = Some x → ¬ P x) ∨
  ∃ i x, rows_where P m = [(i, x)] ∧ m !! i = Some x ∧ P x.
Proof.
  intros Hu. unfold rows_where. pose proof (NoDup_fst_map_to_list (filter (λ x, P x.2) m)) as Hnd.
  assert (∀ a, a ∈ map_to_list (filter (λ x, P x.2) m) ↔ m !! a.1 = Some a.2 ∧ P a.2) as Hin.
  { intros [i a]. by rewrite elem_of_map_to_list, map_lookup_filter_Some. }
  destruct (map_to_list _) as [|[i a] [|[j b] l]].
  - left. split; [done|]. intros i x Hx Hp. by apply (not_elem_of_nil (i, x)), Hin.
  - right. exists i, a. split; [done|]. by apply (Hin (i, a)), list_elem_of_singleton.
  - exfalso. simpl in Hnd. apply NoDup_cons in Hnd as [Hij _]. apply Hij.
    destruct (proj1 (Hin (i, a))) as [Hi Hpa]; [by left|]. destruct (proj1 (Hin (j, b))) as [Hj Hpb]; [by right; left|].
    simpl in *. rewrite (Hu i j a b) by done. by left.
Qed.

Lemma has_key_transfer h c q h' c' q' x y : has_key h c q x → has_key h' c' q' x → has_key h' c' q' y → has_key h c q y.
Proof. unfold has_key. intros (<- & <- & <-) (<- & <- & <-). done. Qed.

(** The unique keys. *)
Record unique_keys (d : tables) : Prop := {
  unique_hash i j x y : narinfos d !! i = Some x → narinfos d !! j = Some y → r_hash x = r_hash y → i = j;
  unique_file i j x y h c q : nar_files d !! i = Some x → nar_files d !! j = Some y → has_key h c q x → has_key h c q y → i = j;
}.

Lemma narinfos_where_cases h d :
  unique_keys d →
  (narinfos_where h d = [] ∧ ∀ i r, narinfos d !! i = Some r → r_hash r ≠ h) ∨
  ∃ i r, narinfos_where h d = [(i, r)] ∧ narinfos d !! i = Some r ∧ r_hash r = h.
Proof.
  intros Hu. apply (unique_where (λ r, r_hash r = h) (narinfos d)).
  intros i j x y ?? <- ?. by eapply (unique_hash _ Hu).
Qed.

Lemma nar_files_where_cases h c q d :
  unique_keys d →
  (nar_files_where h c q d = [] ∧ ∀ f nf, nar_files d !! f = Some nf → ¬ has_key h c q nf) ∨
  ∃ f nf, nar_files_where h c q d = [(f, nf)] ∧ nar_files d !! f = Some nf ∧ has_key h c q nf.
Proof.
  intros Hu. apply (unique_where (has_key h c q) (nar_files d)).
  intros. by eapply (unique_file _ Hu).
Qed.

Lemma elem_of_add_pair {A} `{EqDecision A} (l : list (Z * A)) x y : y ∈ add_pair l x ↔ y ∈ l ∨ y = x.
Proof.
  unfold add_pair. case_bool_decide; [naive_solver|]. by rewrite elem_of_app, list_elem_of_singleton.
Qed.

Lemma elem_of_add_pairs {A} `{EqDecision A} (l : list (Z * A)) xs y : y ∈ foldl add_pair l xs ↔ y ∈ l ∨ y ∈ xs.
Proof.
  revert l. induction xs as [|x xs IH]; intros l; simpl; [set_solver|].
  rewrite IH, elem_of_add_pair, elem_of_cons. tauto.
Qed.

Lemma NoDup_add_pairs {A} `{EqDecision A} (l : list (Z * A)) xs : NoDup l → NoDup (foldl add_pair l xs).
Proof.
  revert l. induction xs as [|x xs IH]; intros l Hl; simpl; [done|]. apply IH. unfold add_pair. case_bool_decide; [done|].
  apply NoDup_app. split_and!; [done| |apply NoDup_singleton]. by intros y ? ->%list_elem_of_singleton.
Qed.

(** The texts of one id. *)
Lemma elem_of_texts i (l : list (Z * string)) s : s ∈ (filter (λ x, x.1 = i) l).*2 ↔ (i, s) ∈ l.
Proof.
  rewrite list_elem_of_fmap. split.
  - intros ([j s'] & -> & [Hj Hin]%list_elem_of_filter). simpl in *. by subst.
  - intros Hin. exists (i, s). split; [done|]. by apply list_elem_of_filter.
Qed.

Lemma NoDup_texts i (l : list (Z * string)) : NoDup l → NoDup (filter (λ x, x.1 = i) l).*2.
Proof.
  intros Hl. apply NoDup_fmap_2_strong; [|by apply NoDup_filter].
  intros [j s] [k s'] [Hj _]%list_elem_of_filter [Hk _]%list_elem_of_filter Heq. simpl in *. congruence.
Qed.

Lemma upsert_nar_file_cases now u size d :
  unique_keys d →
  ∃ f nf, upsert_nar_file now u size d = (f, set_nar_files (<[f := nf]> (nar_files d)) d) ∧
    has_key (Hash u) (Compression u) (encode (Query u)) nf ∧
    ((nar_files d !! f = None ∧ nf_file_size nf = size ∧
        ∀ f nf, nar_files d !! f = Some nf → ¬ has_key (Hash u) (Compression u) (encode (Query u)) nf) ∨
     ∃ old, nar_files d !! f = Some old ∧ has_key (Hash u) (Compression u) (encode (Query u)) old ∧
       nf_file_size nf = nf_file_size old ∧ nf_total_chunks nf = nf_total_chunks old ∧ nf_bytes_stored nf = nf_bytes_stored old ∧
       nf_chunking nf = nf_chunking old ∧ nf_created_at nf = nf_created_at old).
Proof.
  intros Hu. unfold upsert_nar_file.
  destruct (nar_files_where_cases (Hash u) (Compression u) (encode (Query u)) d Hu) as [[-> Hno]|(f & nf & -> & Hf & Hk)].
  - eexists _, _. split_and!; [done..|]. left. split_and!; [|done|done].
    apply not_elem_of_dom, is_fresh.
  - eexists _, _. split_and!; [done|by destruct Hk|]. right. exists nf. by split_and!.
Qed.

(** A narinfo's sizes fit the columns. *)
Definition sizes_fit `{GoNix} (ni : NarInfo) : bool :=
  nonneg (Some (to_int64 (NarSize ni))) && nonneg (Some (to_int64 (FileSize ni))).

Lemma row_check_update `{GoNix} r ni : row_check (applyNarInfoUpdate r ni) = sizes_fit ni.
Proof.
  unfold row_check, sizes_fit, applyNarInfoUpdate. cbn [r_file_size r_nar_size]. rewrite andb_comm. f_equal.
  case_bool_decide as Hz; [|done]. by rewrite Hz.
Qed.

Lemma create_update `{GoNix} now h ni : applyNarInfoCreate (new_row now h) ni = applyNarInfoUpdate (new_row now h) ni.
Proof.
  unfold applyNarInfoCreate, applyNarInfoUpdate, set_string, set_or_clear. simpl.
  by destruct (FileHash ni), (NarHash ni).
Qed.

Lemma update_idemp `{GoNix} r ni : applyNarInfoUpdate (applyNarInfoUpdate r ni) ni = applyNarInfoUpdate r ni.
Proof. done. Qed.

(** What [upsertNarInfoFromParsed] does to the row of a hash: it keeps a row that has
    a URL, fills a stub, or inserts a new row. *)
Inductive upserted `{GoNix} (now : Z) (h : string) (ni : NarInfo) (d : tables) : Z → narinfo_row → tables → Prop :=
  | upserted_kept i r :
      narinfos d !! i = Some r → r_hash r = h → is_empty (r_url r) = false → upserted now h ni d i r d
  | upserted_filled i r nir :
      narinfos d !! i = Some r ∧ r_hash r = h ∧ is_empty (r_url r) = true ∨
      narinfos d !! i = None ∧ r = new_row now h ∧ h ≠ "" ∧ (∀ j x, narinfos d !! j = Some x → r_hash x ≠ h) →
      nir = applyNarInfoUpdate r ni → sizes_fit ni = true →
      upserted now h ni d i nir (set_narinfos (<[i := nir]> (narinfos d)) d).

Lemma upserted_inv `{GoNix} now h ni d i nir d1 :
  upserted now h ni d i nir d1 →
  narinfos d !! i = Some nir ∧ r_hash nir = h ∧ is_empty (r_url nir) = false ∨
  ∃ r0, nir = applyNarInfoUpdate r0 ni ∧
    (narinfos d !! i = Some r0 ∧ r_hash r0 = h ∧ is_empty (r_url r0) = true ∨ narinfos d !! i = None).
Proof. intros [i' r ? ? ?|i' r nir' Hr -> _]; [by left|]. right. exists r. split; [done|]. naive_solver. Qed.

Lemma upserted_row `{GoNix} now h ni d i nir d' :
  upserted now h ni d i nir d' → narinfos d' !! i = Some nir ∧ r_hash nir = h.
Proof.
  intros [i' r Hr Hh _|i' r nir' Hr -> _]; [done|]. split; [apply lookup_insert_eq|].
  destruct Hr as [(_ & Hh & _)|(_ & -> & _)]; done.
Qed.

Section after.
Context `{GoNix} {V : Type} (postgres : bool) (now : Z) (sure : bool).
Notation after := (Tx.after (V := V) sure).

Lemma after_narInfoByHash h (Q : result dberr (Z * narinfo_row) → V → tables → Prop) v d :
  unique_keys d → (sure = false → ∀ f, Q (Err (Fault f)) v d) →
  ((∀ i r, narinfos d !! i = Some r → r_hash r ≠ h) → Q (Err RowNotFound) v d) →
  (∀ i r, narinfos d !! i = Some r → r_hash r = h → Q (Ok (i, r)) v d) →
  after Q (narInfoByHash h) v d.
Proof.
  intros Hu Hf Hno Hyes. apply after_bind, after_query; [done|]. apply after_lift.
  destruct (narinfos_where_cases h d Hu) as [[-> ?]|(i & r & -> & ? & ?)]; simpl; auto.
Qed.

Lemma after_update_narinfo i f r (Q : result dberr narinfo_row → V → tables → Prop) v d :
  narinfos d !! i = Some r → (sure = false → ∀ f, Q (Err (Fault f)) v d) →
  (row_check (f r) = false → Q (Err (Fault OtherFault)) v d) →
  (row_check (f r) = true → Q (Ok (f r)) v (set_narinfos (<[i := f r]> (narinfos d)) d)) →
  after Q (update_narinfo i f) v d.
Proof.
  intros Hr Hf Hbad Hok. apply after_stmt_or; [done|]. rewrite Hr. destruct (row_check (f r)) eqn:Hc; auto.
Qed.

Lemma after_fill_stub i r ni (Q : result dberr (Z * narinfo_row) → V → tables → Prop) v d :
  narinfos d !! i = Some r → (sure = false → ∀ f, Q (Err (Fault f)) v d) →
  (is_empty (r_url r) = false → Q (Ok (i, r)) v d) →
  (is_empty (r_url r) = true → sizes_fit ni = false → Q (Err (Fault OtherFault)) v d) →
  (is_empty (r_url r) = true → sizes_fit ni = true →
     let nir := applyNarInfoUpdate r ni in Q (Ok (i, nir)) v (set_narinfos (<[i := nir]> (narinfos d)) d)) →
  after Q (fill_stub i r ni) v d.
Proof.
  intros Hr Hf Hkeep Hbad Hok. unfold fill_stub. destruct (is_empty (r_url r)); [|by apply after_ret, Hkeep].
  apply after_bind. apply (after_update_narinfo i _ r); [done|done| |]; rewrite row_check_update; [by auto|].
  intros Hs. by apply after_ret, Hok.
Qed.

Lemma after_upsert h ni v d :
  unique_keys d →
  after (λ r v' d', v' = v ∧ match r with
    | Ok (i, nir) => upserted now h ni d i nir d'
    | Err _ => sure = true → h = "" ∨ sizes_fit ni = false
    end) (upsertNarInfoFromParsed now h ni) v d.
Proof.
  intros Hu. unfold upsertNarInfoFromParsed. apply after_bind, after_try, after_narInfoByHash; [done| | |].
  - intros Hs f. apply after_throw. split; [done|congruence].
  - intros Hno. simpl. case_bool_decide as Hh; [apply after_throw; split; [done|]; by left|].
    apply after_bind, after_stmt_or; [intros ->; done|].
    destruct (narinfos_where_cases h d Hu) as [[Hw _]|(i & r & _ & Hi & Hh')]; [|by edestruct Hno].
    rewrite create_update, row_check_update. change (r_hash (applyNarInfoUpdate (new_row now h) ni)) with h. rewrite Hw.
    destruct (sizes_fit ni) eqn:Hs; simpl; [|split; [done|]; intros _; by right].
    set (i := fresh (dom (narinfos d))). set (nir := applyNarInfoUpdate (new_row now h) ni).
    assert (narinfos d !! i = None) as Hi by apply not_elem_of_dom, is_fresh.
    assert (upserted now h ni d i nir (set_narinfos (<[i := nir]> (narinfos d)) d)) as Hup.
    { by apply (upserted_filled now h ni d i (new_row now h)); [right|..]. }
    set (d1 := set_narinfos (<[i := nir]> (narinfos d)) d) in *.
    assert (narinfos d1 !! i = Some nir) as Hi1 by apply lookup_insert_eq.
    assert (∀ j x, narinfos d1 !! j = Some x → r_hash x = h → j = i ∧ x = nir) as Honly.
    { intros j x Hj Hx. destruct (decide (j = i)) as [->|Hne]; [rewrite Hi1 in Hj; by simplify_eq|].
      unfold d1 in Hj. simpl in Hj. rewrite lookup_insert_ne in Hj by done. by edestruct Hno. }
    assert (unique_keys d1) as Hu1.
    { split; [|apply Hu]. intros j k x y Hj Hk Hxy. destruct (decide (r_hash x = h)) as [Hx|Hx].
      - destruct (Honly j x Hj Hx) as [-> _]. destruct (Honly k y Hk ltac:(congruence)) as [-> _]. done.
      - unfold d1 in Hj, Hk. simpl in Hj, Hk. apply lookup_insert_Some in Hj as [[_ <-]|[_ Hj]]; [by destruct Hx|].
        apply lookup_insert_Some in Hk as [[_ <-]|[_ Hk]]; [by destruct Hx|]. by eapply (unique_hash _ Hu). }
    apply after_bind, after_narInfoByHash; [done|by intros ->| |].
    + intros Hno1. exfalso. by apply (Hno1 i nir Hi1).
    + intros j x Hj Hx. destruct (Honly j x Hj Hx) as [-> ->].
      apply after_fill_stub; [done|by intros ->|done|congruence|].
      intros _ _. cbv zeta. change (applyNarInfoUpdate nir ni) with nir.
      split; [done|]. replace (set_narinfos (<[i:=nir]> (narinfos d1)) d1) with d1; [done|].
      unfold d1, set_narinfos. simpl. by rewrite insert_insert_eq.
  - intros i r Hi Hh. apply after_fill_stub; [done|by intros ->| |by auto|].
    + intros He. split; [done|]. by apply upserted_kept.
    + intros He Hs. split; [done|]. apply (upserted_filled now h ni d i r); [by left|done..].
Qed.

Lemma after_add_texts get set i l (Q : result dberr () → V → tables → Prop) v d :
  (sure = false → ∀ f, Q (Err (Fault f)) v d) →
  (∀ e, "" ∈ l ∨ postgres = true ∧ ¬ NoDup l → Q (Err e) v d) →
  set (get d) d = d →
  Q (Ok ()) v (set (foldl add_pair (get d) (pair i <$> l)) d) →
  after Q (add_texts postgres get set i l) v d.
Proof.
  intros Hf Hbad Hnil Hok. unfold add_texts. case_bool_decide as Hl.
  { apply after_ret. subst l. simpl in Hok. by rewrite Hnil in Hok. }
  case_bool_decide as He; [apply after_throw; by auto|]. apply after_stmt_or; [done|].
  destruct postgres; simpl; [|done]. case_bool_decide; simpl; [done|]. by auto.
Qed.

Definition with_edges (i : Z) (ni : NarInfo) (d : tables) : tables :=
  set_signatures (foldl add_pair (signatures d) (pair i <$> (print <$> Signatures ni)))
    (set_references (foldl add_pair (references d) (pair i <$> References ni)) d).

Definition edges_stored (i : Z) (ni : NarInfo) (u : URL) (d d' : tables) : Prop :=
  let '(f, d1) := upsert_nar_file now u (narFileSize ni) (with_edges i ni d) in
  d' = set_links (add_pair (links d1) (i, f)) d1.

(** What makes the database and the closure accept a narinfo's edges. *)
Definition edges_fit (ni : NarInfo) : Prop :=
  "" ∉ References ni ∧ "" ∉ print <$> Signatures ni ∧
  (postgres = true → NoDup (References ni) ∧ NoDup (print <$> Signatures ni)) ∧
  is_ok (u ← ParseURL (InfoURL ni); Normalize u) = true.

Lemma after_store_edges i ni v d :
  after (λ r v' d', v' = v ∧ match r with
    | Ok _ => ∃ u, (u ← ParseURL (InfoURL ni); Normalize u) = Ok u ∧ edges_stored i ni u d d'
    | Err _ => sure = true → ¬ edges_fit ni
    end) (store_edges postgres now i ni) v d.
Proof.
  unfold store_edges. apply after_bind, after_add_texts; [by intros ->| |by destruct d|].
  { intros e Hbad. split; [done|]. intros _ (Hr & _ & Hp & _). destruct Hbad as [?|[? Hn]]; [done|by apply Hn, Hp]. }
  apply after_bind, after_add_texts; [by intros ->| |by destruct d|].
  { intros e Hbad. split; [done|]. intros _ (_ & Hs & Hp & _). destruct Hbad as [?|[? Hn]]; [done|by apply Hn, Hp]. }
  destruct (ParseURL (InfoURL ni) ≫= _) as [u|e] eqn:Hurl.
  2:{ apply after_throw. split; [done|]. intros _ (_ & _ & _ & Hok). by rewrite Hurl in Hok. }
  apply after_bind, after_stmt; [by intros ->|]. unfold edges_stored.
  change (set_signatures _ _) with (with_edges i ni d).
  destruct (upsert_nar_file _ _ _ _) as [f d1] eqn:Hf. simpl. apply after_exec; [by intros ->|].
  split; [done|]. exists u. split; [done|]. by rewrite Hf.
Qed.

(** What [storeInDatabase] does when it succeeds; [upstreamURL] is empty for
    [storeNarInfoInDatabase]. *)
Definition stored_as (h : string) (ni : NarInfo) (upstreamURL : string) (d d' : tables) : Prop :=
  ∃ i nir d1 u, upserted now h ni d i nir d1 ∧ (u ← ParseURL (InfoURL ni); Normalize u) = Ok u ∧
    edges_stored i ni u
      (if bool_decide (upstreamURL = "") then d1
       else set_narinfos (<[i := set_upstream_url upstreamURL nir]> (narinfos d1)) d1) d'.

Lemma upserted_check h ni d i nir d' :
  map_Forall (λ _ r, row_check r = true) (narinfos d) → upserted now h ni d i nir d' → row_check nir = true.
Proof. intros Hc [i' r Hr _ _|i' r nir' _ -> Hs]; [by eapply Hc|by rewrite row_check_update]. Qed.

Lemma after_storeInDatabase h ni up v d :
  unique_keys d → map_Forall (λ _ r, row_check r = true) (narinfos d) →
  after (λ r v' d', v' = v ∧ match r with
    | Ok _ => stored_as h ni up d d'
    | Err _ => sure = true → ¬ (h ≠ "" ∧ sizes_fit ni = true ∧ edges_fit ni)
    end) (storeInDatabase postgres now h ni up) v d.
Proof.
  intros Hu Hc. unfold storeInDatabase. apply after_bind. eapply after_mono; [by apply after_upsert|].
  intros [[i nir]|e] v1 d1 [-> Hup].
  2:{ split; [done|]. intros Hs (Hh & Hsz & _). destruct (Hup Hs); [done|congruence]. }
  apply after_bind.
  assert (∀ d2, d2 = (if bool_decide (up = "") then d1 else set_narinfos (<[i := set_upstream_url up nir]> (narinfos d1)) d1) →
    after (λ r v' d', v' = v ∧ match r with
      | Ok _ => stored_as h ni up d d'
      | Err _ => sure = true → ¬ (h ≠ "" ∧ sizes_fit ni = true ∧ edges_fit ni)
      end) (store_edges postgres now i ni) v d2) as Hrest.
  { intros d2 ->. eapply after_mono; [apply after_store_edges|]. intros [[]|e] v' d' [-> Hr]; (split; [done|]); [|naive_solver].
    destruct Hr as (u & Hurl & Hed). by exists i, nir, d1, u. }
  case_bool_decide as Hupe.
  - apply after_ret, Hrest. done.
  - destruct (upserted_row _ _ _ _ _ _ _ Hup) as [Hi _].
    apply after_bind. apply (after_update_narinfo i _ nir); [done|by intros ->| |].
    + intros Hbad. pose proof (upserted_check _ _ _ _ _ _ Hc Hup) as Hok.
      change (row_check nir = false) in Hbad. congruence.
    + intros _. apply after_ret, Hrest. done.
Qed.

Lemma storeNarInfo_store h ni (s : session V tables) : storeNarInfoInDatabase postgres now h ni s = storeInDatabase postgres now h ni "" s.
Proof.
  unfold storeNarInfoInDatabase, storeInDatabase. unfold mbind, eff_bind.
  destruct (upsertNarInfoFromParsed now h ni s) as [[[i nir]|e] s']; done.
Qed.
End after.

(** ** The invariant of the tables *)

(** A row's URL leads to a NAR file linked to the row. *)
Definition linked (d : tables) (i : Z) (url : string) : Prop :=
  ∃ f nf u, (i, f) ∈ links d ∧ nar_files d !! f = Some nf ∧ (u ← ParseURL url; Normalize u) = Ok u ∧
    has_key (Hash u) (Compression u) (encode (Query u)) nf.

Record wf (d : tables) : Prop := {
  wf_unique : unique_keys d;
  wf_checks : map_Forall (λ _ r, row_check r = true) (narinfos d);
  wf_references i s : (i, s) ∈ references d → is_Some (narinfos d !! i);
  wf_signatures i s : (i, s) ∈ signatures d → is_Some (narinfos d !! i);
  wf_NoDup_references : NoDup (references d);
  wf_NoDup_signatures : NoDup (signatures d);
  wf_links i f : (i, f) ∈ links d → is_Some (narinfos d !! i) ∧ is_Some (nar_files d !! f);
  wf_linked i r url : narinfos d !! i = Some r → r_url r = Some url → url ≠ "" → linked d i url;
  wf_chunks f : is_Some (nar_file_chunks d !! f) → is_Some (nar_files d !! f);
}.

(** A change of one row, or a new one, whose hash and URL the other tables know. *)
Lemma wf_set_row d i r :
  wf d → row_check r = true →
  (∀ j x, narinfos d !! j = Some x → r_hash x = r_hash r → j = i) →
  (∀ url, r_url r = Some url → url ≠ "" → linked d i url) →
  wf (set_narinfos (<[i := r]> (narinfos d)) d).
Proof.
  intros Hwf Hc Hh Hl. assert (∀ j : Z, is_Some (narinfos d !! j) → is_Some (<[i := r]> (narinfos d) !! j)) as Hdom.
  { intros j. rewrite lookup_insert_is_Some'. auto. }
  split; simpl.
  - split; [|apply Hwf]. simpl. intros j k x y [[<- <-]|[Hj Hx]]%lookup_insert_Some [[<- <-]|[Hk Hy]]%lookup_insert_Some Hxy.
    + done.
    + symmetry. by eapply Hh.
    + by eapply Hh.
    + by eapply (unique_hash _ (wf_unique _ Hwf)).
  - apply map_Forall_insert_2; [done|apply Hwf].
  - intros j s Hj. by eapply Hdom, wf_references.
  - intros j s Hj. by eapply Hdom, wf_signatures.
  - apply Hwf.
  - apply Hwf.
  - intros j f Hj. destruct (wf_links _ Hwf j f Hj). auto.
  - intros j x url [[<- <-]|[_ Hx]]%lookup_insert_Some Hurl Hne; [by apply Hl|].
    by eapply (wf_linked _ Hwf).
  - apply Hwf.
Qed.

Section stored.
Context `{GoNix} (now : Z).

(** The state between the row and its edges: all but the row's own link. *)
Definition wf_but (d : tables) (i : Z) (d0 : tables) : Prop :=
  ∃ r, narinfos d !! i = Some r ∧ d = set_narinfos (<[i := r]> (narinfos d0)) d0 ∧ row_check r = true ∧
    (∀ j x, narinfos d0 !! j = Some x → r_hash x = r_hash r → j = i).

Lemma upserted_wf_but h ni d i nir d' :
  wf d → upserted now h ni d i nir d' →
  wf_but d' i d ∧ (r_url nir = Some (InfoURL ni) ∨ InfoURL ni = "" ∨ narinfos d !! i = Some nir).
Proof.
  intros Hwf [i' r Hr Hh _|i' r nir' Hr -> Hs].
  - split; [|auto]. exists r. split_and!; [done| |by eapply (wf_checks _ Hwf)|].
    + destruct d. unfold set_narinfos. simpl in *. by rewrite insert_id.
    + intros j x Hj Hx. by eapply (unique_hash _ (wf_unique _ Hwf)).
  - split.
    + exists (applyNarInfoUpdate r ni). split_and!; [apply lookup_insert_eq|done|by rewrite row_check_update|].
      intros j x Hj Hx. change (r_hash (applyNarInfoUpdate r ni)) with (r_hash r) in Hx.
      destruct Hr as [(Hi & Hh & _)|(_ & -> & _ & Hno)]; [by eapply (unique_hash _ (wf_unique _ Hwf))|].
      by edestruct Hno.
    + simpl. unfold set_or_clear. case_bool_decide; auto.
Qed.

Lemma edges_stored_inv i ni u d d' :
  unique_keys d → edges_stored now i ni u d d' →
  ∃ f nf, d' = mkTables (narinfos d) (foldl add_pair (references d) (pair i <$> References ni))
      (foldl add_pair (signatures d) (pair i <$> (print <$> Signatures ni)))
      (<[f := nf]> (nar_files d)) (add_pair (links d) (i, f)) (nar_file_chunks d) ∧
    has_key (Hash u) (Compression u) (encode (Query u)) nf ∧
    (∀ g x, nar_files d !! g = Some x → has_key (Hash u) (Compression u) (encode (Query u)) x → g = f) ∧
    (∀ x, nar_files d !! f = Some x → has_key (Hash u) (Compression u) (encode (Query u)) x ∧
       nf_file_size nf = nf_file_size x ∧ nf_total_chunks nf = nf_total_chunks x ∧ nf_bytes_stored nf = nf_bytes_stored x ∧
       nf_chunking nf = nf_chunking x ∧ nf_created_at nf = nf_created_at x).
Proof.
  intros Hu. unfold edges_stored.
  assert (unique_keys (with_edges i ni d)) as Hu' by (split; apply Hu).
  destruct (upsert_nar_file_cases now u (narFileSize ni) _ Hu') as (f & nf & -> & Hk & Hold). intros ->.
  exists f, nf. split_and!; [done|done| |].
  - intros g x Hg Hx. destruct Hold as [(_ & _ & Hno)|(old & Hf & Ho & _)]; [by edestruct Hno|].
    by eapply (unique_file _ Hu).
  - intros x Hf. destruct Hold as [(Hno & _)|(old & Hf' & Ho & ? & ? & ?)]; simpl in *; [congruence|].
    assert (x = old) as -> by congruence. done.
Qed.

Lemma edges_stored_wf i ni u d0 d d' :
  wf d0 → wf_but d i d0 → (u ← ParseURL (InfoURL ni); Normalize u) = Ok u →
  (∀ r, narinfos d !! i = Some r → r_url r = Some (InfoURL ni) ∨ InfoURL ni = "" ∨
     ∃ r0, narinfos d0 !! i = Some r0 ∧ r_url r0 = r_url r) →
  edges_stored now i ni u d d' → wf d'.
Proof.
  intros Hwf (r & Hr & Hd & Hc & Hh) Hurl Hru Hed.
  assert (unique_keys d) as Hu.
  { rewrite Hd. split; [|apply Hwf]. simpl. intros j k x y [[<- <-]|[Hj Hx]]%lookup_insert_Some [[<- <-]|[Hk Hy]]%lookup_insert_Some Hxy.
    - done.
    - symmetry. by eapply Hh.
    - by eapply Hh.
    - by eapply (unique_hash _ (wf_unique _ Hwf)). }
  destruct (edges_stored_inv _ _ _ _ _ Hu Hed) as (f & nf & -> & Hk & Hf1 & Hf2). clear Hed.
  assert (∀ j : Z, is_Some (narinfos d0 !! j) → is_Some (narinfos d !! j)) as Hdom.
  { intros j. rewrite Hd. simpl. rewrite lookup_insert_is_Some'. auto. }
  assert (∀ f0, is_Some (nar_files d0 !! f0) → is_Some (<[f := nf]> (nar_files d) !! f0)) as Hdomf.
  { intros j. rewrite Hd. simpl. rewrite lookup_insert_is_Some'. auto. }
  assert (references d = references d0 ∧ signatures d = signatures d0 ∧ nar_files d = nar_files d0 ∧ links d = links d0 ∧
      nar_file_chunks d = nar_file_chunks d0) as (Er & Es & Ef & El & Ec) by by rewrite Hd.
  split; simpl.
  - split; [apply Hu|]. simpl. intros j k x y h c q [[<- <-]|[Hj Hx]]%lookup_insert_Some [[<- <-]|[Hk' Hy]]%lookup_insert_Some Hxh Hyh.
    + done.
    + symmetry. eapply Hf1; [exact Hy|]. by eapply has_key_transfer.
    + eapply Hf1; [exact Hx|]. by eapply has_key_transfer.
    + by eapply (unique_file _ Hu).
  - rewrite Hd. simpl. apply map_Forall_insert_2; [done|apply Hwf].
  - intros j s [Hj|Hj]%elem_of_add_pairs; [rewrite Er in Hj; by eapply Hdom, wf_references|].
    apply list_elem_of_fmap in Hj as (s' & [= -> ->] & _). by rewrite Hr.
  - intros j s [Hj|Hj]%elem_of_add_pairs; [rewrite Es in Hj; by eapply Hdom, wf_signatures|].
    apply list_elem_of_fmap in Hj as (s' & [= -> ->] & _). by rewrite Hr.
  - apply NoDup_add_pairs. rewrite Er. apply Hwf.
  - apply NoDup_add_pairs. rewrite Es. apply Hwf.
  - intros j g [Hj|[= -> ->]]%elem_of_add_pair.
    + rewrite El in Hj. destruct (wf_links _ Hwf j g Hj). auto.
    + split; [by rewrite Hr|]. by rewrite lookup_insert_eq.
  - assert (∀ j url, linked d0 j url → linked (mkTables (narinfos d) [] [] (<[f := nf]> (nar_files d)) (add_pair (links d) (i, f)) ∅) j url) as Hkeep.
    { intros j url (g & ng & u' & Hjg & Hg & Hu' & Hkg). destruct (decide (g = f)) as [->|Hne].
      - exists f, nf, u'. split_and!; [apply elem_of_add_pair; left; by rewrite El|by apply lookup_insert_eq|done|].
        rewrite <- Ef in Hg. by eapply (has_key_transfer _ _ _ _ _ _ ng nf Hkg (proj1 (Hf2 _ Hg))).
      - exists g, ng, u'. split_and!; [apply elem_of_add_pair; left; by rewrite El| |done..]. simpl.
        by rewrite lookup_insert_ne, Ef. }
    intros j x url Hx Hxu Hne. change (linked (mkTables (narinfos d) [] [] (<[f := nf]> (nar_files d)) (add_pair (links d) (i, f)) ∅) j url).
    destruct (decide (j = i)) as [->|Hji].
    + assert (x = r) as -> by congruence. destruct (Hru r Hr) as [Heq|[Hnil|(r0 & Hr0 & Heq)]].
      * assert (url = InfoURL ni) as -> by congruence. exists f, nf, u. split_and!; [apply elem_of_add_pair; by right|by apply lookup_insert_eq|done|done].
      * rewrite Hnil in Hurl. done.
      * apply Hkeep. eapply (wf_linked _ Hwf); [done|congruence|done].
    + apply Hkeep. rewrite Hd in Hx. simpl in Hx. rewrite lookup_insert_ne in Hx by done. by eapply (wf_linked _ Hwf).
  - intros g Hg. rewrite Ec in Hg. rewrite Ef, lookup_insert_is_Some'. right. by apply (wf_chunks _ Hwf).
Qed.

Lemma stored_as_wf h ni up d d' : wf d → stored_as now h ni up d d' → wf d'.
Proof.
  intros Hwf (i & nir & d1 & u & Hup & Hurl & Hed).
  destruct (upserted_wf_but _ _ _ _ _ _ Hwf Hup) as [(r & Hr & Hd1 & Hc & Hh) Hcase].
  assert (r = nir) as -> by (destruct (upserted_row _ _ _ _ _ _ _ Hup); congruence).
  eapply (edges_stored_wf i ni u d _ d' Hwf); [|done| |done].
  - case_bool_decide; [by exists nir|]. exists (set_upstream_url up nir). split_and!; [apply lookup_insert_eq| |done|done].
    rewrite Hd1. unfold set_narinfos. simpl. by rewrite insert_insert_eq.
  - intros r Hr'. assert (r_url r = r_url nir) as ->.
    { case_bool_decide; [congruence|]. simpl in Hr'. rewrite lookup_insert_eq in Hr'. by simplify_eq. }
    destruct Hcase as [?|[?|?]]; eauto.
Qed.
End stored.

(** ** Reading back *)

Section reading.
Context `{GoNix} {V : Type} (row_order : list string → list string) (now age : Z).

Definition read_row (i : Z) (nir : narinfo_row) (d : tables) : result dberr (NarInfo * URL) :=
  if is_empty (r_url nir) then Err (AppError ErrNotFound) else
  fileHash ← parseValidHashPtr (r_file_hash nir);
  narHash ← parseValidHashPtr (r_nar_hash nir);
  sigs ← of_option (AppError ErrInvalid) (mapM parse (texts_of row_order i (signatures d)));
  parsedURL ← map_err (λ _, AppError ErrInvalid) (ParseURL (derefStringPtr (r_url nir)));
  Ok (mkInfo _ (derefStringPtr (r_store_path nir)) (derefStringPtr (r_url nir)) (derefStringPtr (r_compression nir))
    fileHash (to_uint64 (derefInt64Ptr (r_file_size nir))) narHash (to_uint64 (derefInt64Ptr (r_nar_size nir)))
    (texts_of row_order i (references d)) (derefStringPtr (r_deriver nir)) (derefStringPtr (r_system nir)) sigs
    (derefStringPtr (r_ca nir)), parsedURL).

Definition read_hash (h : string) (d : tables) : result dberr (NarInfo * URL) :=
  match narinfos_where h d with
  | [] => Err (AppError ErrNotFound)
  | (i, nir) :: _ => read_row i nir d
  end.

Definition touched (h : string) (d : tables) : tables :=
  set_narinfos ((λ r, if bool_decide (r_hash r = h) then touch now r else r) <$> narinfos d) d.

(** Reading changes at most the time of the last access. *)
Lemma after_populate sure h do_touch v d :
  unique_keys d → map_Forall (λ _ r, row_check r = true) (narinfos d) →
  after (V := V) sure (λ r v' d', v' = v ∧ (d' = d ∨ do_touch = true ∧ d' = touched h d) ∧
    (sure = true → r = read_hash h d) ∧ (∀ x, r = Ok x → read_hash h d = Ok x))
    (populateNarInfoFromDatabase row_order now age h do_touch) v d.
Proof.
  intros Hu Hc. unfold populateNarInfoFromDatabase.
  apply after_bind, after_try, after_bind, after_query.
  { intros -> f. apply after_throw. split_and!; [done|by left|done|done]. }
  apply after_lift. unfold read_hash.
  destruct (narinfos_where_cases h d Hu) as [[-> _]|(i & nir & -> & Hi & Hh)]; simpl.
  { apply after_throw. split_and!; [done|by left|done|done]. }
  apply after_bind, after_query; [intros -> f; split_and!; [done|by left|done|done]|].
  apply after_bind, after_query; [intros -> f; split_and!; [done|by left|done|done]|].
  unfold read_row. destruct (is_empty (r_url nir)); [apply after_throw; split_and!; [done|by left|done|done]|].
  apply after_bind, after_lift. destruct (parseValidHashPtr (r_file_hash nir)); simpl; [|split_and!; [done|by left|done|done]].
  apply after_bind, after_lift. destruct (parseValidHashPtr (r_nar_hash nir)); simpl; [|split_and!; [done|by left|done|done]].
  apply after_bind, after_lift. destruct (mapM parse _); simpl; [|split_and!; [done|by left|done|done]].
  apply after_bind, after_lift. destruct (ParseURL _); simpl; [|split_and!; [done|by left|done|done]].
  apply after_bind. destruct (do_touch && _) eqn:Ht; [|apply after_ret, after_ret; split_and!; [done|by left|done|done]].
  apply andb_true_iff in Ht as [-> _]. apply after_stmt_or; [intros -> f; split_and!; [done|by left|done|done]|].
  rewrite bool_decide_true by (intros j r Hj _; apply (Hc j r Hj)).
  apply after_ret. split_and!; [done|by right|done|done].
Qed.

Context {GL : GoNixLaws _} (Hperm : ∀ l, row_order l ≡ₚ l).

(** The same narinfo, up to the order and the repetition of its references and
    signatures. *)
Record same_narinfo (ni ni' : NarInfo) : Prop := {
  same_StorePath : StorePath ni' = StorePath ni;
  same_URL : InfoURL ni' = InfoURL ni;
  same_Compression : InfoCompression ni' = InfoCompression ni;
  same_FileHash : FileHash ni' = FileHash ni;
  same_FileSize : FileSize ni' = FileSize ni;
  same_NarHash : NarHash ni' = NarHash ni;
  same_NarSize : NarSize ni' = NarSize ni;
  same_References r : r ∈ References ni' ↔ r ∈ References ni;
  same_Deriver : Deriver ni' = Deriver ni;
  same_System : System ni' = System ni;
  same_Signatures s : s ∈ Signatures ni' ↔ s ∈ Signatures ni;
  same_CA : CA ni' = CA ni;
  NoDup_References : NoDup (References ni');
  NoDup_Signatures : NoDup (Signatures ni');
}.

(** Two narinfos under one row. *)
Definition merged (old new : NarInfo) : NarInfo :=
  mkInfo _ (StorePath old) (InfoURL old) (InfoCompression old) (FileHash old) (FileSize old) (NarHash old) (NarSize old)
    (References old ++ References new) (Deriver old) (System old) (Signatures old ++ Signatures new) (CA old).

Lemma deref_set_or_clear v : derefStringPtr (set_or_clear v) = v.
Proof. unfold set_or_clear. by case_bool_decide. Qed.

Lemma parse_stored_hash (o : option nixhash) : parseValidHashPtr (print <$> o) = Ok o.
Proof.
  destruct o as [h|]; [|done]. simpl. unfold parseValidHashPtr, is_empty. rewrite bool_decide_false.
  - simpl. by rewrite parse_print.
  - intros [?|[= Hp]]; [done|]. by apply (print_nonempty h).
Qed.

Lemma stored_size z : (0 ≤ z < 2 ^ 64)%Z → to_uint64 (to_int64 z) = z.
Proof.
  intros Hz. unfold to_uint64, to_int64. destruct (Z.ltb_spec z (2 ^ 63)).
  - apply Z.mod_small. lia.
  - replace (z - 2 ^ 64)%Z with (z + -1 * 2 ^ 64)%Z by lia. rewrite Z_mod_plus_full. by apply Z.mod_small.
Qed.

Lemma stored_file_size z :
  (0 ≤ z < 2 ^ 64)%Z → to_uint64 (derefInt64Ptr (if bool_decide (z = 0%Z) then None else Some (to_int64 z))) = z.
Proof. intros Hz. case_bool_decide as Hz0; [by rewrite Hz0|]. by apply stored_size. Qed.

(** Parsing a set of printed values. *)
Lemma mapM_parse_texts {A} `{Printable A, !PrintableLaws A} (texts : list string) (l : list A) :
  NoDup texts → (∀ s, s ∈ texts ↔ s ∈ print <$> l) →
  ∃ l', mapM parse texts = Some l' ∧ NoDup l' ∧ ∀ a, a ∈ l' ↔ a ∈ l.
Proof.
  intros Hnd Hin. assert (∃ l', mapM parse texts = Some l' ∧ texts = print <$> l') as (l' & Hm & ->).
  { assert (∀ s, s ∈ texts → ∃ a : A, s = print a) as Hex.
    { intros s Hs. apply Hin, list_elem_of_fmap in Hs as (a & -> & _). eauto. }
    clear Hnd Hin. induction texts as [|s texts IH]; [by exists []|].
    destruct (Hex s ltac:(by left)) as [a ->]. destruct IH as (l' & Hm & ->); [intros s Hs; apply Hex; by right|].
    exists (a :: l'). simpl. by rewrite parse_print, Hm. }
  exists l'. split; [done|]. split; [by apply NoDup_fmap_1 in Hnd|].
  assert (Inj (=) (=) (print (A := A))) as Hinj.
  { intros a b Hab. apply (f_equal parse) in Hab. rewrite !parse_print in Hab. by simplify_eq. }
  intros a. specialize (Hin (print a)). by rewrite !(list_elem_of_fmap_inj print) in Hin.
Qed.

(** A row and its edges, read back. *)
Lemma read_stored_row i d r ni :
  (0 ≤ FileSize ni < 2 ^ 64)%Z → (0 ≤ NarSize ni < 2 ^ 64)%Z →
  InfoURL ni ≠ "" → is_ok (ParseURL (InfoURL ni)) = true →
  NoDup (references d) → NoDup (signatures d) →
  (∀ s, (i, s) ∈ references d ↔ s ∈ References ni) → (∀ s, (i, s) ∈ signatures d ↔ s ∈ print <$> Signatures ni) →
  ∃ ni' u, read_row i (applyNarInfoUpdate r ni) d = Ok (ni', u) ∧ ParseURL (InfoURL ni) = Ok u ∧ same_narinfo ni ni'.
Proof.
  intros Hfs Hns Hne Hurl Hndr Hnds Hr Hs.
  assert (∀ l s, s ∈ texts_of row_order i l ↔ (i, s) ∈ l) as Htexts.
  { intros l s. unfold texts_of. by rewrite Hperm, elem_of_texts. }
  assert (∀ l, NoDup l → NoDup (texts_of row_order i l)) as Hndt.
  { intros l Hl. unfold texts_of. rewrite Hperm. by apply NoDup_texts. }
  destruct (mapM_parse_texts (texts_of row_order i (signatures d)) (Signatures ni)) as (sigs & Hsigs & Hnd & Hin);
    [by apply Hndt|intros s; by rewrite Htexts|].
  destruct (ParseURL (InfoURL ni)) as [u|] eqn:Hu; [|done].
  unfold read_row, applyNarInfoUpdate.
  cbn [r_url r_file_hash r_nar_hash r_store_path r_compression r_file_size r_nar_size r_deriver r_system r_ca].
  assert (set_or_clear (InfoURL ni) = Some (InfoURL ni)) as -> by (unfold set_or_clear; by rewrite bool_decide_false).
  unfold is_empty at 1. rewrite bool_decide_false by (intros [?|[= ?]]; done).
  rewrite !parse_stored_hash. simpl. rewrite Hsigs. simpl.
  rewrite Hu. simpl.
  eexists _, u. split; [done|]. split; [done|]. split; simpl; try done.
  - apply deref_set_or_clear.
  - apply deref_set_or_clear.
  - by apply stored_file_size.
  - by apply stored_size.
  - intros s. by rewrite Htexts.
  - apply deref_set_or_clear.
  - apply deref_set_or_clear.
  - apply deref_set_or_clear.
  - by apply Hndt.
Qed.

(** Signatures as the cache writes them. *)
Definition printed (d : tables) : Prop := ∀ i s, (i, s) ∈ signatures d → ∃ a : signature, s = print a.

Lemma printed_texts i d sigs :
  printed d → mapM parse (texts_of row_order i (signatures d)) = Some sigs →
  texts_of row_order i (signatures d) = print <$> sigs.
Proof.
  intros Hp Hm. assert (∀ s, s ∈ texts_of row_order i (signatures d) → ∃ a : signature, s = print a) as Hall.
  { intros s Hs. unfold texts_of in Hs. rewrite Hperm, elem_of_texts in Hs. by eapply Hp. }
  apply mapM_Some_1 in Hm. induction Hm as [|s a texts sigs Hsa Hm IH]; [done|]. simpl.
  destruct (Hall s ltac:(by left)) as [a' ->]. rewrite parse_print in Hsa. simplify_eq. f_equal.
  apply IH. intros s Hs. apply Hall. by right.
Qed.

(** The same fields with more references and signatures. *)
Lemma read_merged_row i d d' r r' old ni u :
  printed d → NoDup (references d') → NoDup (signatures d') →
  (∀ s, (i, s) ∈ references d' ↔ (i, s) ∈ references d ∨ s ∈ References ni) →
  (∀ s, (i, s) ∈ signatures d' ↔ (i, s) ∈ signatures d ∨ s ∈ print <$> Signatures ni) →
  r' = r ∨ (∃ up, r' = set_upstream_url up r) →
  read_row i r d = Ok (old, u) →
  ∃ ni', read_row i r' d' = Ok (ni', u) ∧ same_narinfo (merged old ni) ni'.
Proof.
  intros Hp Hndr Hnds Hr Hs Hfields Hold.
  assert (read_row i r' d' = read_row i r d') as ->.
  { destruct Hfields as [->|[up ->]]; done. }
  assert (∀ l s, s ∈ texts_of row_order i l ↔ (i, s) ∈ l) as Htexts.
  { intros l s. unfold texts_of. by rewrite Hperm, elem_of_texts. }
  assert (∀ l, NoDup l → NoDup (texts_of row_order i l)) as Hndt.
  { intros l Hl. unfold texts_of. rewrite Hperm. by apply NoDup_texts. }
  unfold read_row in *. destruct (is_empty (r_url r)); [done|].
  destruct (parseValidHashPtr (r_file_hash r)) as [fh|]; [|done]. simpl in *.
  destruct (parseValidHashPtr (r_nar_hash r)) as [nh|]; [|done]. simpl in *.
  destruct (mapM parse (texts_of row_order i (signatures d))) as [sigs0|] eqn:Hsigs0; [|done]. simpl in *.
  destruct (ParseURL (derefStringPtr (r_url r))) as [u'|] eqn:Hu; [|done]. simpl in *.
  destruct (mapM_parse_texts (texts_of row_order i (signatures d')) (sigs0 ++ Signatures ni)) as (sigs & Hsigs & Hnd & Hin).
  { by apply Hndt. }
  { intros s. rewrite Htexts, Hs, <- Htexts, (printed_texts _ _ _ Hp Hsigs0), fmap_app, elem_of_app. done. }
  rewrite Hsigs. injection Hold as <- <-. simpl. eexists. split; [done|]. split; simpl; try done.
  - intros s. rewrite elem_of_app, !Htexts. apply Hr.
  - by apply Hndt.
Qed.
End reading.

(** ** The other operations keep the invariant *)

Lemma wf_map_rows d (g : narinfo_row → narinfo_row) :
  (∀ r, r_hash (g r) = r_hash r ∧ r_url (g r) = r_url r) → (map_Forall (λ _ r, row_check (g r) = true) (narinfos d)) →
  wf d → wf (set_narinfos (g <$> narinfos d) d).
Proof.
  intros Hg Hc Hwf.
  assert (∀ j, is_Some (narinfos d !! j) → is_Some ((g <$> narinfos d) !! j)) as Hdom.
  { intros j Hj. rewrite lookup_fmap. by apply fmap_is_Some. }
  split; simpl; try apply Hwf.
  - split; [|apply Hwf]. simpl. intros i j x y. rewrite !lookup_fmap, !fmap_Some. intros (x' & Hx & ->) (y' & Hy & ->).
    rewrite !(proj1 (Hg _)). by eapply (unique_hash _ (wf_unique _ Hwf)).
  - intros i r. rewrite lookup_fmap, fmap_Some. intros (r' & Hr & ->). by eapply Hc.
  - intros i s Hi. by eapply Hdom, wf_references.
  - intros i s Hi. by eapply Hdom, wf_signatures.
  - intros i f Hi. destruct (wf_links _ Hwf i f Hi). auto.
  - intros i r url. rewrite lookup_fmap, fmap_Some. intros (r' & Hr & ->) Hurl. rewrite (proj2 (Hg _)) in Hurl.
    by eapply (wf_linked _ Hwf).
Qed.

Lemma after_update_where {V} sure h f v d (Q : result dberr () → V → tables → Prop) :
  (∀ r, r_hash (f r) = r_hash r ∧ r_url (f r) = r_url r) → wf d →
  (∀ e, Q (Err e) v d) →
  (let d' := set_narinfos ((λ r, if bool_decide (r_hash r = h) then f r else r) <$> narinfos d) d in wf d' → Q (Ok ()) v d') →
  after sure Q (update_where h f) v d.
Proof.
  intros Hf Hwf He Hok. apply after_stmt_or; [by intros _ e|]. case_bool_decide as Hc; [|done]. apply Hok.
  apply wf_map_rows; [|intros i r Hr|done].
  - intros r. by case_bool_decide.
  - case_bool_decide; [by eapply Hc|by eapply (wf_checks _ Hwf)].
Qed.

Lemma delete_where_wf h d : wf d → wf (delete_where h d).
Proof.
  intros Hwf.
  set (gone (i : Z) := match narinfos d !! i with Some r => bool_decide (r_hash r = h) | None => false end).
  assert (∀ i, is_Some (narinfos d !! i) → gone i = false → is_Some (filter (λ x, r_hash x.2 ≠ h) (narinfos d) !! i)) as Hdom.
  { intros i [r Hr] Hg. exists r. apply map_lookup_filter_Some. split; [done|]. unfold gone in Hg. rewrite Hr in Hg.
    by apply bool_decide_eq_false in Hg. }
  split; simpl.
  - split; [|apply Hwf]. simpl. intros i j x y [Hi _]%map_lookup_filter_Some [Hj _]%map_lookup_filter_Some.
    by eapply (unique_hash _ (wf_unique _ Hwf)).
  - intros i r [Hr _]%map_lookup_filter_Some. by eapply (wf_checks _ Hwf).
  - intros i s [Hg Hi]%list_elem_of_filter. eapply Hdom; [by eapply wf_references|done].
  - intros i s [Hg Hi]%list_elem_of_filter. eapply Hdom; [by eapply wf_signatures|done].
  - apply NoDup_filter, Hwf.
  - apply NoDup_filter, Hwf.
  - intros i f [Hg Hi]%list_elem_of_filter. destruct (wf_links _ Hwf i f Hi). split; [by apply Hdom|done].
  - intros i r url [Hr Hh]%map_lookup_filter_Some Hurl Hne.
    destruct (wf_linked _ Hwf i r url Hr Hurl Hne) as (f & nf & u & Hl & Hf & Hu & Hk). exists f, nf, u.
    split_and!; [|done..]. apply list_elem_of_filter. split; [|done]. simpl in *. rewrite Hr. by apply bool_decide_eq_false.
  - apply Hwf.
Qed.

Lemma delete_nar_file_wf f d : wf d → f ∉ (links d).*2 → wf (delete_nar_file f d).
Proof.
  intros Hwf Hf. assert (∀ i g, (i, g) ∈ links d → g ≠ f) as Hne.
  { intros i g Hg ->. apply Hf, list_elem_of_fmap. by exists (i, f). }
  split; simpl; try apply Hwf.
  - split; [apply Hwf|]. simpl. intros i j x y ? ? ? [_ Hi]%lookup_delete_Some [_ Hj]%lookup_delete_Some.
    by eapply (unique_file _ (wf_unique _ Hwf)).
  - intros i g [_ Hg]%list_elem_of_filter. destruct (wf_links _ Hwf i g Hg). split; [done|].
    rewrite lookup_delete_ne by (symmetry; by eapply Hne). done.
  - intros i r url Hr Hurl Hu. destruct (wf_linked _ Hwf i r url Hr Hurl Hu) as (g & nf & u & Hl & Hg & ?).
    exists g, nf, u. split_and!; [|simpl; by rewrite lookup_delete_ne by (symmetry; by eapply Hne)|apply H..].
    apply list_elem_of_filter. split; [by eapply Hne|done].
  - intros g. rewrite !lookup_delete_is_Some. intros [? Hg]. split; [done|]. by apply (wf_chunks _ Hwf).
Qed.

Lemma wf_set_file d f nf u :
  wf d → has_key (Hash u) (Compression u) (encode (Query u)) nf →
  (∀ g x, nar_files d !! g = Some x → has_key (Hash u) (Compression u) (encode (Query u)) x → g = f) →
  (∀ x, nar_files d !! f = Some x → has_key (Hash u) (Compression u) (encode (Query u)) x) →
  wf (set_nar_files (<[f := nf]> (nar_files d)) d).
Proof.
  intros Hwf Hk Hf1 Hf2.
  assert (∀ g, is_Some (nar_files d !! g) → is_Some (<[f := nf]> (nar_files d) !! g)) as Hdom.
  { intros g. rewrite lookup_insert_is_Some'. auto. }
  split; simpl; try apply Hwf.
  - split; [apply Hwf|]. simpl. intros j k x y h c q [[<- <-]|[Hj Hx]]%lookup_insert_Some [[<- <-]|[Hk' Hy]]%lookup_insert_Some Hxh Hyh.
    + done.
    + symmetry. eapply Hf1; [exact Hy|]. by eapply has_key_transfer.
    + eapply Hf1; [exact Hx|]. by eapply has_key_transfer.
    + by eapply (unique_file _ (wf_unique _ Hwf)).
  - intros i g Hg. destruct (wf_links _ Hwf i g Hg). auto.
  - intros i r url Hr Hurl Hu. destruct (wf_linked _ Hwf i r url Hr Hurl Hu) as (g & ng & u' & Hl & Hg & Hu' & Hkg).
    destruct (decide (g = f)) as [->|Hne].
    + exists f, nf, u'. split_and!; [done|apply lookup_insert_eq|done|].
      by eapply (has_key_transfer _ _ _ _ _ _ ng nf Hkg (Hf2 _ Hg)).
    + exists g, ng, u'. split_and!; [done| |done..]. simpl. by rewrite lookup_insert_ne.
  - intros g Hg. apply Hdom. by apply (wf_chunks _ Hwf).
Qed.

Lemma ensure_nar_file_wf now u written d : wf d → wf (ensure_nar_file now u written d).
Proof.
  intros Hwf. unfold ensure_nar_file. set (v := match Normalize u with Ok v => v | Err _ => u end).
  destruct (nar_files_where_cases (Hash v) (Compression v) (encode (Query v)) d (wf_unique _ Hwf)) as [[-> Hno]|(f & nf & -> & Hf & Hk)].
  - eapply wf_set_file; [done|done| |].
    + intros g x Hg Hx. by edestruct Hno.
    + intros x Hx. exfalso. apply (is_fresh (dom (nar_files d))). by eapply elem_of_dom_2.
  - eapply (wf_set_file _ _ _ v); [done|by destruct Hk| |].
    + intros g x Hg Hx. by eapply (unique_file _ (wf_unique _ Hwf)).
    + intros x Hx. by simplify_eq.
Qed.

Lemma after_purge_links sure ls v d :
  wf d → after sure (λ r _ d', wf d') (purge_links ls) v d.
Proof.
  revert v d. induction ls as [|f ls IH]; intros v d Hwf; simpl; [by apply after_ret|].
  apply after_bind, after_query; [done|]. destruct (nar_files d !! f) as [nf|]; [|by apply IH].
  apply after_bind, after_query; [done|]. case_bool_decide as Hl; [by apply IH|].
  pose proof (delete_nar_file_wf f d Hwf Hl) as Hwf'. apply after_bind, after_exec; [done|].
  destruct (parse_query _); [|by apply after_throw]. apply after_bind, after_assign. by apply IH.
Qed.

Lemma after_purge sure h v d : wf d → after sure (λ r _ d', wf d') (purge_tx h) v d.
Proof.
  intros Hwf. unfold purge_tx. apply after_bind, after_try, after_narInfoByHash; [apply Hwf|by intros; apply after_throw| |].
  - intros _. by apply after_ret.
  - intros i r _ _. apply after_bind, after_query; [done|]. apply after_bind, after_exec; [done|].
    by apply after_purge_links, delete_where_wf.
Qed.

(** ** The properties *)

Section properties.
Context `{GoNix} (postgres : bool) (row_order : list string → list string) (age : Z).

(** The transactions of the cache on these tables, each with its time. *)
Inductive tx_op :=
  | TxStore (now : Z) (h : string) (ni : NarInfo) (upstreamURL : string)
  | TxMigrate (now : Z) (h : string) (ni : NarInfo)
  | TxPopulate (now : Z) (h : string) (do_touch : bool)
  | TxPurge (h : string)
  | TxFixFileSize (h : string) (size : Z)
  | TxFixFileHash (h fileHash : string)
  | TxClearFileSize (h : string)
  | TxClearFileHash (h : string)
  | TxEnsureNarFile (now : Z) (u : URL) (written : Z).

Definition closure (op : tx_op) : eff (session (list URL) tables) dberr () :=
  match op with
  | TxStore now h ni up => storeInDatabase postgres now h ni up
  | TxMigrate now h ni => storeNarInfoInDatabase postgres now h ni
  | TxPopulate now h t => _ ← populateNarInfoFromDatabase row_order now age h t; mret ()
  | TxPurge h => purge_tx h
  | TxFixFileSize h size => fixNarInfoFileSize h size
  | TxFixFileHash h fileHash => fixNarInfoFileHash h fileHash
  | TxClearFileSize h => clearFileSize h
  | TxClearFileHash h => clearFileHash h
  | TxEnsureNarFile now u written => ensureNarFileRecord now u written
  end.

Definition run_op (d : tables) (x : tx_op * (nat → attempt tables)) : tables :=
  (withEntTransactionRetry x.2 (closure x.1) [] d).2.

Lemma after_closure op v d : wf d → after false (λ r _ d', is_ok r = true → wf d') (closure op) v d.
Proof.
  intros Hwf. destruct op as [now h ni up|now h ni|now h t|h|h z|h fh|h|h|now u w]; simpl.
  - eapply after_mono; [apply after_storeInDatabase; apply Hwf|]. intros [[]|e] v' d' [_ Hs] Hr; [|done].
    by eapply stored_as_wf.
  - assert (after false (λ r _ d', is_ok r = true → wf d') (storeInDatabase postgres now h ni "") v d) as Hs.
    { eapply after_mono; [apply after_storeInDatabase; apply Hwf|]. intros [[]|e] v' d' [_ Hs] Hr; [|done].
      by eapply stored_as_wf. }
    intros s Hv Hf. specialize (Hs s Hv Hf). by rewrite storeNarInfo_store.
  - apply after_bind. eapply after_mono; [apply after_populate; apply Hwf|].
    intros [x|e] v' d' (-> & Hd & _); [apply after_ret; intros _|done]. destruct Hd as [->|[_ ->]]; [done|].
    apply wf_map_rows; [intros r; by case_bool_decide| |done].
    intros i r Hr. pose proof (wf_checks _ Hwf i r Hr). by case_bool_decide.
  - eapply after_mono; [by apply after_purge|]. done.
  - by apply after_update_where.
  - by apply after_update_where.
  - by apply after_update_where.
  - by apply after_update_where.
  - apply after_exec; [done|]. intros _. by apply ensure_nar_file_wf.
Qed.

Lemma run_op_wf d x :
  (∀ i d, wf d → wf (a_others (x.2 i) d)) → wf d → wf (run_op d x).
Proof.
  intros Ho Hwf. unfold run_op, withEntTransactionRetry.
  apply (retry_from_inv (λ _ d, wf d) x.2 (closure x.1)); [auto| |done].
  intros v d' Hd'. eapply after_mono; [by apply after_closure|]. auto.
Qed.

(** No narinfo of the hash is there, or a stub without references and signatures. *)
Definition vacant (h : string) (d : tables) : Prop :=
  ∀ i r, narinfos d !! i = Some r → r_hash r = h →
    is_empty (r_url r) = true ∧ ∀ s, (i, s) ∉ references d ∧ (i, s) ∉ signatures d.

(** Reading without faults. *)
Definition read (now : Z) (h : string) (d : tables) : result dberr (NarInfo * URL) :=
  (populateNarInfoFromDatabase (V := ()) row_order now age h true (mkSession () d [])).1.

Lemma read_eq now h d : wf d → read now h d = read_hash row_order h d.
Proof.
  intros Hwf. pose proof (after_populate row_order now age true h true () d (wf_unique _ Hwf) (wf_checks _ Hwf)) as Ha.
  apply (after_run _ _ _ _ _ []) in Ha; [|done]. unfold read. destruct (populateNarInfoFromDatabase _ _ _ _ _ _) as [r s].
  destruct Ha as (_ & _ & _ & Hr & _). by apply Hr.
Qed.

Lemma read_hash_row h d i r : wf d → narinfos d !! i = Some r → r_hash r = h → read_hash row_order h d = read_row row_order i r d.
Proof.
  intros Hwf Hi Hh. unfold read_hash.
  destruct (narinfos_where_cases h d (wf_unique _ Hwf)) as [[-> Hno]|(j & x & -> & Hj & Hx)]; [by edestruct Hno|].
  assert (j = i) as -> by (eapply (unique_hash _ (wf_unique _ Hwf)); [done..|congruence]). by simplify_eq.
Qed.

(** The row and the edges a successful store leaves. *)
Lemma stored_as_row now h ni up d d' :
  wf d → stored_as now h ni up d d' →
  ∃ i r, narinfos d' !! i = Some r ∧ r_hash r = h ∧
    (∀ s, (i, s) ∈ references d' ↔ (i, s) ∈ references d ∨ s ∈ References ni) ∧
    (∀ s, (i, s) ∈ signatures d' ↔ (i, s) ∈ signatures d ∨ s ∈ print <$> Signatures ni) ∧
    is_ok (ParseURL (InfoURL ni)) = true ∧
    (∃ nir d1, upserted now h ni d i nir d1 ∧
      r = if bool_decide (up = "") then nir else set_upstream_url up nir).
Proof.
  intros Hwf (i & nir & d1 & u & Hup & Hurl & Hed).
  destruct (upserted_wf_but _ _ _ _ _ _ _ Hwf Hup) as [(r & Hr & Hd1 & _ & Hh) _].
  destruct (upserted_row _ _ _ _ _ _ _ Hup) as [Hr' Hhash]. assert (r = nir) as -> by congruence. clear Hr'.
  set (r := if bool_decide (up = "") then nir else set_upstream_url up nir).
  set (d2 := if bool_decide (up = "") then d1 else _) in Hed.
  assert (d2 = set_narinfos (<[i := r]> (narinfos d)) d) as Hd2.
  { unfold d2, r. rewrite Hd1. case_bool_decide; [done|]. unfold set_narinfos. simpl. by rewrite insert_insert_eq. }
  assert (r_hash r = h) as Hrh by (unfold r; by case_bool_decide).
  assert (unique_keys d2) as Hu.
  { rewrite Hd2. split; [|apply Hwf]. simpl. intros j k x y [[<- <-]|[Hj Hx]]%lookup_insert_Some [[<- <-]|[Hk Hy]]%lookup_insert_Some Hxy.
    - done.
    - symmetry. eapply Hh; [done|congruence].
    - eapply Hh; [done|congruence].
    - by eapply (unique_hash _ (wf_unique _ Hwf)). }
  destruct (edges_stored_inv _ _ _ _ _ _ Hu Hed) as (f & nf & -> & _).
  exists i, r. cbn [narinfos references signatures]. split_and!.
  - rewrite Hd2. apply lookup_insert_eq.
  - done.
  - intros s. rewrite elem_of_add_pairs, Hd2. simpl. rewrite (list_elem_of_fmap_inj (pair i)). done.
  - intros s. rewrite elem_of_add_pairs, Hd2. simpl. rewrite (list_elem_of_fmap_inj (pair i)). done.
  - by destruct (ParseURL (InfoURL ni)).
  - by exists nir, d1.
Qed.

(** A store that succeeds, with the other clients idle and no commit's reply lost. *)
Definition stores (env : nat → attempt tables) (now : Z) (h : string) (ni : NarInfo) (up : string) (d d' : tables) : Prop :=
  (∀ i d, a_others (env i) d = d) ∧ (∀ i e, a_commit (env i) ≠ CommittedUnknown e) ∧
  withEntTransactionRetry env (storeInDatabase postgres now h ni up) () d = (Ok (), (), d').

Lemma stores_as env now h ni up d d' : wf d → stores env now h ni up d d' → stored_as now h ni up d d'.
Proof.
  intros Hwf (Ho & Hc & Hrun). apply retry_from_atomic in Hrun as (j & [] & s & Hs & _ & ->); [|done|done].
  pose proof (after_storeInDatabase postgres now false h ni up () d (wf_unique _ Hwf) (wf_checks _ Hwf)) as Ha.
  apply (after_run _ _ _ _ _ (a_stmts (env j))) in Ha; [|done]. rewrite Hs in Ha. apply Ha.
Qed.

Definition is_uint64 (z : Z) : Prop := (0 ≤ z < 2 ^ 64)%Z.

End properties.

(** A narinfo stored under a vacant hash, read back. *)
Lemma stored_as_reads `{GN : GoNix} {GL : GoNixLaws GN} row_order now h ni up d d' :
  (∀ l, row_order l ≡ₚ l) → wf d → vacant h d → is_uint64 (FileSize ni) → is_uint64 (NarSize ni) →
  stored_as now h ni up d d' →
  ∃ ni' u, read_hash row_order h d' = Ok (ni', u) ∧ ParseURL (InfoURL ni) = Ok u ∧ same_narinfo ni ni'.
Proof.
  intros Hperm Hwf Hvac Hfs Hns Hst.
  pose proof (stored_as_wf _ _ _ _ _ _ Hwf Hst) as Hwf'. 
  destruct (stored_as_row _ _ _ _ _ _ Hwf Hst) as (i & r & Hi & Hh & Hrefs & Hsigs & Hurl & nir & d1 & Hup & Hr).
  rewrite (read_hash_row _ _ _ i r) by done.
  assert (∃ r0, nir = applyNarInfoUpdate r0 ni ∧ ∀ s, (i, s) ∉ references d ∧ (i, s) ∉ signatures d) as (r0 & -> & Hnew).
  { destruct (upserted_inv _ _ _ _ _ _ _ Hup) as [(Hi0 & Hh0 & He)|(r0 & -> & Hcase)].
    - destruct (Hvac _ _ Hi0 Hh0) as [He' _]. congruence.
    - exists r0. split; [done|]. destruct Hcase as [(Hi0 & Hh0 & _)|Hi0]; [by eapply Hvac|].
      intros s. split; intros Hs; [apply (wf_references _ Hwf) in Hs|apply (wf_signatures _ Hwf) in Hs];
        rewrite Hi0 in Hs; by destruct Hs. }
  assert (∃ r1, r = applyNarInfoUpdate r1 ni) as [r1 ->].
  { rewrite Hr. case_bool_decide; [by exists r0|by exists (set_upstream_url up r0)]. }
  apply read_stored_row; try done.
  - intros Hnil. by rewrite Hnil in Hurl.
  - apply Hwf'.
  - apply Hwf'.
  - intros s. rewrite Hrefs. destruct (Hnew s). naive_solver.
  - intros s. rewrite Hsigs. destruct (Hnew s). naive_solver.
Qed.

(** C25. The transactions on narinfos keep their tables well-formed, whatever
    statements fail, however often they are retried and whatever other clients that
    keep the tables well-formed do: hashes and NAR file keys stay unique, references,
    signatures and links point to rows, sizes are not negative, and the URL of every
    narinfo leads to a NAR file linked to it. *)
Theorem narinfo_tables_wf `{GoNix} postgres row_order age ops d :
  wf d → Forall (λ x : tx_op * (nat → attempt tables), ∀ i d, wf d → wf (a_others (x.2 i) d)) ops →
  wf (foldl (run_op postgres row_order age) d ops).
Proof.
  intros Hwf Hops. revert d Hwf. induction Hops as [|x ops Hx _ IH]; intros d Hwf; [done|]. by apply IH, run_op_wf.
Qed.

(** C27. A narinfo stored under a hash without a narinfo reads back the same, up to
    the order and repetition of its references and signatures: every field, NULL
    columns and signed columns for unsigned sizes notwithstanding, and its URL. *)
Theorem narinfo_roundtrip `{GN : GoNix} {GL : GoNixLaws GN} postgres row_order age env now now' h ni up d d' :
  (∀ l, row_order l ≡ₚ l) → wf d → vacant h d → is_uint64 (FileSize ni) → is_uint64 (NarSize ni) →
  stores postgres env now h ni up d d' →
  ∃ ni' u, read row_order age now' h d' = Ok (ni', u) ∧ ParseURL (InfoURL ni) = Ok u ∧ same_narinfo ni ni'.
Proof.
  intros Hperm Hwf Hvac Hfs Hns Hst. apply (stores_as _ _ _ _ _ _ _ _ Hwf) in Hst.
  rewrite read_eq by by eapply stored_as_wf. by eapply stored_as_reads.
Qed.

(** A narinfo stored over one that is there, as a second upload or a refetch from
    upstream does, succeeds and reads back as neither: the fields stay those of the
    old one, while the new one's references and signatures join the old one's. *)
Theorem existing_row_mixed `{GN : GoNix} {GL : GoNixLaws GN} postgres row_order age env now now' h old u ni up d d' :
  (∀ l, row_order l ≡ₚ l) → wf d → printed d → read row_order age now' h d = Ok (old, u) →
  stores postgres env now h ni up d d' →
  ∃ ni', read row_order age now' h d' = Ok (ni', u) ∧ same_narinfo (merged old ni) ni'.
Proof.
  intros Hperm Hwf Hp Hold Hst. apply (stores_as _ _ _ _ _ _ _ _ Hwf) in Hst.
  pose proof (stored_as_wf _ _ _ _ _ _ Hwf Hst) as Hwf'. rewrite read_eq in Hold by done. rewrite read_eq by done.
  destruct (stored_as_row _ _ _ _ _ _ Hwf Hst) as (i & r & Hi & Hh & Hrefs & Hsigs & Hurl & nir & d1 & Hup & Hr).
  rewrite (read_hash_row _ _ _ i r) by done.
  assert (narinfos d !! i = Some nir ∧ r_hash nir = h) as [Hi0 Hh0].
  { destruct (upserted_inv _ _ _ _ _ _ _ Hup) as [(Hi0 & Hh0 & He)|(r0 & -> & Hcase)]; [done|].
    unfold read_hash in Hold.
    destruct (narinfos_where_cases h d (wf_unique _ Hwf)) as [[Hw Hno]|(j & x & Hw & Hj & Hx)]; rewrite Hw in Hold; [done|].
    exfalso. destruct Hcase as [(Hi0 & Hh0 & He)|Hi0].
    - assert (j = i) as -> by (eapply (unique_hash _ (wf_unique _ Hwf)); [done..|congruence]).
      assert (x = r0) as -> by congruence. unfold read_row in Hold. by rewrite He in Hold.
    - destruct Hup as [? ? Hi1 _ _|? ? ? [(Hi1 & _)|(_ & _ & _ & Hno)] _ _]; [congruence|congruence|by edestruct Hno]. }
  rewrite (read_hash_row _ _ _ i nir) in Hold by done.
  assert (r = nir ∨ ∃ up, r = set_upstream_url up nir) as Hr' by (rewrite Hr; case_bool_decide; eauto).
  by apply (read_merged_row row_order Hperm i d d' nir r old ni u Hp (wf_NoDup_references _ Hwf')
    (wf_NoDup_signatures _ Hwf') Hrefs Hsigs Hr').
Qed.

(** ** Witnesses *)

(** Hashes and signatures that are texts, printed with a tag. *)
#[export] Instance tagged_printable : Printable string := {
  print s := String "h" s;
  parse s := match s with String _ t => Some t | EmptyString => None end;
}.

#[export] Instance tagged_laws : PrintableLaws string.
Proof. by split. Defined.

#[export] Instance tagged_nix : GoNix := { nixhash := string; signature := string }.

#[export] Instance tagged_nix_laws : GoNixLaws tagged_nix.
Proof. split; apply tagged_laws. Defined.

Definition keep_order (l : list string) : list string := l.
Definition no_tables : tables := mkTables ∅ [] [] ∅ [] ∅.
Definition calm_env (_ : nat) : attempt tables := undisturbed.

Definition hello_hash : string := "n5glp21rsz314qssw9fbvfswgy3kc68f".

(** A first build, and another with the same store path. *)
Definition hello : NarInfo :=
  mkInfo _ "/nix/store/n5glp21rsz314qssw9fbvfswgy3kc68f-hello-2.12.1"
    ("nar/" +:+ sample_hash +:+ ".nar.xz") "xz" (Some sample_hash) 50096 (Some "07kc6swib31psygpmwi8952lvywlpqn474059yxl7grwsvr6k0fj")
    226552 ["glibc-2.39"; "hello-2.12.1"; "glibc-2.39"] "hello.drv" "x86_64-linux" ["cache.nixos.org-1:GrGV"] "".

Definition hello_again : NarInfo :=
  mkInfo _ "/nix/store/n5glp21rsz314qssw9fbvfswgy3kc68f-hello-2.12.1"
    "nar/07kc6swib31psygpmwi8952lvywlpqn474059yxl7grwsvr6k0fj.nar" "none" None 0 (Some sample_hash)
    226560 ["musl-1.2.5"] "hello.drv" "x86_64-linux" ["builder-1:QUJD"] "".

Definition store_of (ni : NarInfo) (d : tables) : tables :=
  (withEntTransactionRetry calm_env (storeInDatabase (V := ()) false 7 hello_hash ni "") () d).2.

Lemma no_tables_wf : wf no_tables.
Proof.
  split; simpl; try done; try (by intros ? ? ?%elem_of_nil); try (by intros f [x Hx]; rewrite lookup_empty in Hx); try constructor; try done.
Qed.

Lemma hello_stored : stores false calm_env 7 hello_hash hello "" no_tables (store_of hello no_tables).
Proof. split_and!; [done|done|]. vm_compute. reflexivity. Qed.

(** A store whose first attempt deadlocks, another, and a purge. *)
Definition sample_ops : list (tx_op * (nat → attempt tables)) :=
  [(TxStore 7 hello_hash hello "", λ i, if bool_decide (i = 0) then mkAttempt (λ d, d) None [None; Some Deadlock] Committed false else undisturbed);
   (TxStore 8 hello_hash hello_again "", calm_env);
   (TxPurge hello_hash, calm_env)].

Lemma narinfo_tables_wf_witness :
  wf (foldl (run_op false keep_order 100) no_tables sample_ops) ∧
  narinfos (foldl (run_op false keep_order 100) no_tables sample_ops) = ∅ ∧
  nar_files (foldl (run_op false keep_order 100) no_tables sample_ops) = ∅.
Proof.
  split; [|split; vm_compute; reflexivity].
  apply (narinfo_tables_wf false keep_order 100 sample_ops no_tables no_tables_wf).
  repeat (apply Forall_cons; split; [intros [|i] d Hd; exact Hd|]). apply Forall_nil. done.
Defined.

Lemma narinfo_roundtrip_witness :
  ∃ ni' u, read keep_order 100 8 hello_hash (store_of hello no_tables) = Ok (ni', u) ∧
    ParseURL (InfoURL hello) = Ok u ∧ same_narinfo hello ni'.
Proof.
  apply (narinfo_roundtrip false keep_order 100 calm_env 7 8 hello_hash hello "" no_tables (store_of hello no_tables)).
  - intros l. reflexivity.
  - exact no_tables_wf.
  - intros i r Hi. discriminate Hi.
  - split; [intros H; discriminate H|reflexivity].
  - split; [intros H; discriminate H|reflexivity].
  - split_and!; [done|done|]. vm_compute. reflexivity.
Defined.

Lemma printed_hello : printed (store_of hello no_tables).
Proof.
  intros i s Hs. assert (signatures (store_of hello no_tables) = [(0%Z, "hcache.nixos.org-1:GrGV")]) as Heq by (vm_compute; reflexivity).
  rewrite Heq in Hs. apply list_elem_of_singleton in Hs as [= -> ->]. by exists "cache.nixos.org-1:GrGV".
Qed.

Lemma existing_row_mixed_witness :
  ∃ old u ni', read keep_order 100 8 hello_hash (store_of hello no_tables) = Ok (old, u) ∧
    read keep_order 100 8 hello_hash (store_of hello_again (store_of hello no_tables)) = Ok (ni', u) ∧
    same_narinfo (merged old hello_again) ni' ∧
    NarHash ni' = NarHash hello ∧ "musl-1.2.5" ∈ References ni'.
Proof.
  destruct (read keep_order 100 8 hello_hash (store_of hello no_tables)) as [[old u]|e] eqn:Hold;
    [|vm_compute in Hold; discriminate Hold].
  exists old, u.
  destruct (existing_row_mixed false keep_order 100 calm_env 7 8 hello_hash old u hello_again ""
    (store_of hello no_tables) (store_of hello_again (store_of hello no_tables))) as (ni' & Hread & Hsame).
  - intros l. reflexivity.
  - apply (stored_as_wf 7 hello_hash hello "" no_tables _ no_tables_wf), (stores_as false calm_env); [exact no_tables_wf|exact hello_stored].
  - exact printed_hello.
  - exact Hold.
  - split_and!; [done|done|]. vm_compute. reflexivity.
  - exists ni'. split_and!; [done|exact Hread|exact Hsame| |].
    + rewrite (same_NarHash _ _ Hsame). vm_compute in Hold. by injection Hold as <- _.
    + apply (same_References _ _ Hsame). simpl. apply elem_of_app. right. by left.
Defined.
