(* ===== verification/NarInfoCache.v ===== *)
(** * Serving, storing and healing narinfos ([pkg/cache/cache.go])

    The handlers of narinfos over the records of [NarInfoDB]: [GetNarInfo] with what
    it tries in turn (the database, the legacy narinfo store, an upstream),
    [PutNarInfo], [DeleteNarInfo], the migration of legacy narinfos, the repairs
    after an upload, and purging.  One request runs at a time; others act inside its
    transactions' environments.  Contention for a download's lock is in
    [Coordination]. *)
From S2P Require Import Prelude GoStd Nar Tx NarInfoDB.

(** go-nix's fingerprints and keys, and the base-32 digest of a hash. *)
Class Signing `{GoNix} := {
  Fingerprint : NarInfo → string;
  signature_Name : signature → string;
  Sign : string → option signature;
  VerifyFirst : string → list signature → bool;
  Format32 : nixhash → string;
}.

Inductive cache_err :=
  | EDb (e : dberr)
  | EStore
  | ELock
  | ECtx
  | ENotFound
  | ErrNarInfoPurged
  | EInvalid
  | ErrUntrustedNarInfo
  | ESign
  | ErrCDCDisabled
  | ErrMigrationInProgress
  | ErrNarAlreadyChunked
  | ErrNarAlreadyWholeFile
  | ErrNoNarHashToVerify
  | ErrNarHashMismatch
  | ErrMissingChunk.

(** [errors.Is(err, storage.ErrNotFound)] holds of what a closure returns as such. *)
Definition of_dberr (e : dberr) : cache_err :=
  match e with AppError ErrNotFound => ENotFound | AppError ErrInvalid => EInvalid | _ => EDb e end.

(** The cache's settings: [trusted_keys] tells whether upload keys are configured. *)
Record Config := mkConfig {
  cdcEnabled : bool;
  chunkStore : bool;
  cdcLazyChunkingEnabled : bool;
  shouldSignNarinfo : bool;
  hostName : string;
  requireTrustedSignature : bool;
  trusted_keys : bool;
  recordAgeIgnoreTouch : Z;
  postgres : bool;
}.

Definition isCDCEnabled (c : Config) : bool := cdcEnabled c && chunkStore c.
Definition isChunkStoreAvailable (c : Config) : bool := chunkStore c.
Definition isEagerCDC (c : Config) : bool := cdcEnabled c && chunkStore c && negb (cdcLazyChunkingEnabled c).

(** ** The world of a request *)

(** A goroutine a handler starts. *)
Inductive job `{GoNix} :=
  | JMigrateNarInfo (h : string) (ni : NarInfo)
  | JMigrateToChunks (u : URL)
  | JPullNar (u : URL) (preferred : option URL) (ni : option NarInfo).

(** The database, the legacy narinfo store, the NAR store's files by their paths, the
    chunk store's by their hashes, the hashes of the NARs this process and others are
    downloading, the hashes a live chunker is at work on, and the goroutines started. *)
Record world `{GoNix} := mkWorld {
  db : tables;
  legacy : gmap string NarInfo;
  narStore : gmap string string;
  chunkFiles : gmap string string;
  upstreamJobs : gset string;
  remoteJobs : gset string;
  chunking : gset string;
  jobs : list job;
}.
Arguments mkWorld {_}.

(** What befalls an operation: a store's, a lock's or a query's fault before or
    after its effect, or a transaction's attempts. *)
Inductive event :=
  | EvOk
  | EvFault
  | EvLate
  | EvTx (env : nat → attempt tables).

(** Nobody else changes the database. *)
Definition idle (e : event) : Prop := match e with EvTx env => ∀ i d, a_others (env i) d = d | _ => True end.

Record state `{GoNix} := mkState {
  st : world;
  script : list event;
}.
Arguments mkState {_}.

#[export] Instance state_faulty `{GoNix} : Faulty state world := {
  view := st;
  calm b s := if b then Forall idle (script s) else script s = [];
}.

Section world.
Context `{GoNix}.
Notation M := (eff state cache_err).

Definition next (s : state) : event := default EvOk (head (script s)).
Definition put (w : world) (s : state) : state := mkState w (tail (script s)).

Definition ask {A} (e : cache_err) (q : world → A) : M A := λ s,
  match next s with
  | EvFault | EvLate => (Err e, put (st s) s)
  | _ => (Ok (q (st s)), put (st s) s)
  end.

Definition act (e : cache_err) (u : world → world) : M () := λ s,
  match next s with
  | EvFault => (Err e, put (st s) s)
  | EvLate => (Err e, put (u (st s)) s)
  | _ => (Ok (), put (u (st s)) s)
  end.

(** A check that answers "no" on a fault. *)
Definition has (q : world → bool) : M bool := λ s,
  match next s with
  | EvFault | EvLate => (Ok false, put (st s) s)
  | _ => (Ok (q (st s)), put (st s) s)
  end.

Definition add_job (j : job) (w : world) : world :=
  mkWorld (db w) (legacy w) (narStore w) (chunkFiles w) (upstreamJobs w) (remoteJobs w) (chunking w) (jobs w ++ [j]).
Definition add_upstreamJob (h : string) (w : world) : world :=
  mkWorld (db w) (legacy w) (narStore w) (chunkFiles w) ({[h]} ∪ upstreamJobs w) (remoteJobs w) (chunking w) (jobs w).

Definition spawn (j : job) : M () := λ s,
  (Ok (), mkState (add_job j (st s)) (script s)).

Definition set_db (d : tables) (w : world) : world :=
  mkWorld d (legacy w) (narStore w) (chunkFiles w) (upstreamJobs w) (remoteJobs w) (chunking w) (jobs w).
Definition set_legacy (l : gmap string NarInfo) (w : world) : world :=
  mkWorld (db w) l (narStore w) (chunkFiles w) (upstreamJobs w) (remoteJobs w) (chunking w) (jobs w).
Definition set_narStore (n : gmap string string) (w : world) : world :=
  mkWorld (db w) (legacy w) n (chunkFiles w) (upstreamJobs w) (remoteJobs w) (chunking w) (jobs w).
Definition set_chunkFiles (n : gmap string string) (w : world) : world :=
  mkWorld (db w) (legacy w) (narStore w) n (upstreamJobs w) (remoteJobs w) (chunking w) (jobs w).

Definition env_of (e : event) : nat → attempt tables := match e with EvTx env => env | _ => λ _, undisturbed end.

(** [withEntTransaction], with the variables its closure captures. *)
Definition transaction {V} (fn : eff (session V tables) dberr ()) (v : V) : M (result cache_err () * V) := λ s,
  let '(r, v, d) := withEntTransactionRetry (env_of (next s)) fn v (db (st s)) in
  (Ok (map_err of_dberr r, v), put (set_db d (st s)) s).

(** A transaction whose closure captures nothing. *)
Definition transaction_ (fn : eff (session () tables) dberr ()) : M () :=
  '(r, _) ← transaction fn (); lift r.
End world.

Section cache.
Context `{GN : GoNix} {SG : Signing} (cfg : Config) (row_order : list string → list string) (now : Z).

(** The request's [IsUploadOnly]. *)
Context (uploadOnly : bool).

(** The digest of a stored file, printed, and what the upstreams answer. *)
Context (digest_of : string → string) (upstream : string → option NarInfo).
Notation M := (eff state cache_err).

(** ** Is the NAR there? *)

(** The path of a NAR in its store. *)
Definition nar_path (u : URL) : result nar_error string := v ← Normalize u; ToFilePath v.

(** [StatNar]: the file, or an error that is no answer. *)
Definition StatNar (u : URL) : M bool :=
  match nar_path u with
  | Err _ => throw EInvalid
  | Ok p => ask EStore (λ w, bool_decide (is_Some (narStore w !! p)))
  end.

Definition wholeFileServeCompressions : list string := [CompressionTypeZstd; CompressionTypeXz].

Definition with_compression (u : URL) (c : string) : URL := mkURL (Hash u) c (Query u) (TransparentZstd u) (opaquePath u).

Fixpoint stat_candidates (u : URL) (cs : list string) : M bool :=
  match cs with
  | [] => mret false
  | c :: cs =>
      present ← StatNar (with_compression u c);
      if present : bool then mret true else stat_candidates u cs
  end.

Definition statNarInStore (u : URL) : M bool :=
  candidate ← (if bool_decide (Compression u = CompressionTypeNone) then stat_candidates u wholeFileServeCompressions
               else mret false);
  if candidate : bool then mret true else StatNar u.

Definition HasNarInStore (u : URL) : M bool :=
  r ← try (statNarInStore u); mret (match r with Ok present => present | Err _ => false end).

(** [getNarFileFromDB] *)
Definition find_nar_file (h c q : string) (d : tables) : result dberr (Z * nar_file) := Only (nar_files_where h c q d).

Definition getNarFileFromDB (u : URL) : M (result dberr (Z * nar_file)) :=
  let '(first, second) := if isCDCEnabled cfg then (CompressionTypeNone, Compression u) else (Compression u, CompressionTypeNone) in
  r ← ask (EDb (Fault OtherFault)) (λ w, find_nar_file (Hash u) first (encode (Query u)) (db w));
  match r with
  | Err RowNotFound =>
      if bool_decide (first = second) then mret r
      else ask (EDb (Fault OtherFault)) (λ w, find_nar_file (Hash u) second (encode (Query u)) (db w))
  | _ => mret r
  end.

(** The row, if there is one. *)
Definition nar_file_row (u : URL) : M (option nar_file) :=
  r ← getNarFileFromDB u;
  match r with
  | Ok (_, nf) => mret (Some nf)
  | Err e => if IsNotFoundError e then mret None else throw (EDb e)
  end.

Definition HasNarInChunks (u : URL) : M bool :=
  if negb (isChunkStoreAvailable cfg) then mret false else
  nf ← nar_file_row u;
  mret (match nf with Some nf => bool_decide (0 < nf_total_chunks nf)%Z | None => false end).

Definition HasNarFileRecord (u : URL) : M bool := nf ← nar_file_row u; mret (bool_decide (is_Some nf)).

Definition IsNarServable (u : URL) : M bool :=
  present ← statNarInStore u; if present : bool then mret true else HasNarInChunks u.

Definition normalized (u : URL) : URL := match Normalize u with Ok v => v | Err _ => u end.

Definition bytes_stored (u : URL) (d : tables) : bool :=
  bool_decide (map_Exists (λ _ nf, nf_hash nf = Hash (normalized u) ∧ nf_query nf = encode (Query (normalized u)) ∧
    nf_bytes_stored nf = true) (nar_files d)).

Definition narFileBytesStored (u : URL) : M bool := has (λ w, bytes_stored u (db w)).

Definition hasUpstreamJob (h : string) : M bool := λ s, (Ok (bool_decide (h ∈ upstreamJobs (st s))), s).

(** A lock that cannot be tried counts as free. *)
Definition isRemoteDownloadInProgress (h : string) : M bool := has (λ w, bool_decide (h ∈ remoteJobs w)).

(** ** Reading *)

Definition read_tx (h : string) : eff (session (option (NarInfo * URL)) tables) dberr () :=
  x ← populateNarInfoFromDatabase row_order now (recordAgeIgnoreTouch cfg) h true;
  assign (λ _, Some x).

(** [if ok { return true }; check again] *)
Definition or_else (b : bool) (m : M bool) : M bool := if b then mret true else m.

(** The second look, before a narinfo is reported missing. *)
Definition recheck (narURL : URL) (ni : NarInfo) : M NarInfo :=
  r ← try (statNarInStore narURL);
  match r with
  | Err _ => mret ni
  | Ok hasNar =>
      hasNar ← or_else hasNar (HasNarInChunks narURL);
      if hasNar : bool then mret ni else
      hasRecord ← (if isCDCEnabled cfg then
                     r ← try (E' := cache_err) (HasNarFileRecord narURL);
                     mret (match r with Ok hasRecord => hasRecord | Err _ => true end)
                   else mret false);
      if hasRecord : bool then mret ni else throw ErrNarInfoPurged
  end.

Definition getNarInfoFromDatabase (h : string) : M NarInfo :=
  '(r, captured) ← transaction (read_tx h) None;
  _ ← lift r;
  match captured with
  | None => throw EInvalid
  | Some (ni, narURL) =>
      hasNar ← HasNarInStore narURL;
      hasNar ← or_else hasNar (HasNarInChunks narURL);
      hasNar ← or_else hasNar (if uploadOnly then narFileBytesStored narURL else mret false);
      isBeingDownloadedLocally ← hasUpstreamJob (Hash narURL);
      isBeingDownloadedRemotely ← (if negb hasNar && negb isBeingDownloadedLocally
                                   then isRemoteDownloadInProgress (Hash narURL) else mret false);
      if hasNar || isBeingDownloadedLocally || isBeingDownloadedRemotely then mret ni else
      recheck narURL ni
  end.

(** ** Deleting *)

Definition HasNarInfo (h : string) : M bool := has (λ w, bool_decide (is_Some (legacy w !! h))).
Definition DeleteLegacy (h : string) : M () := act EStore (λ w, set_legacy (delete h (legacy w)) w).

(** [DeleteNar] of the store; the error of an absent file is ignored by its callers. *)
Definition DeleteNar (u : URL) : M () :=
  match nar_path u with
  | Err _ => throw EInvalid
  | Ok p => act EStore (λ w, set_narStore (delete p (narStore w)) w)
  end.

Fixpoint delete_candidates (u : URL) (cs : list string) : M () :=
  match cs with
  | [] => mret ()
  | c :: cs => _ ← DeleteNar (with_compression u c); delete_candidates u cs
  end.

Definition deleteNarBytes (u : URL) : M () :=
  _ ← (if bool_decide (Compression u = CompressionTypeNone) then delete_candidates u wholeFileServeCompressions else mret ());
  DeleteNar u.

Definition deleteNarInfoFromStore (h : string) : M () :=
  inStorage ← HasNarInfo h;
  inDatabase ← ask (EDb (Fault OtherFault)) (λ w, negb (bool_decide (narinfos_where h (db w) = [])));
  if negb inStorage && negb inDatabase then throw ENotFound else
  _ ← (if inDatabase : bool then act (EDb (Fault OtherFault)) (λ w, set_db (delete_where h (db w)) w) else mret ());
  if inStorage : bool then DeleteLegacy h else mret ().

Definition DeleteNarInfo (h : string) : M () := deleteNarInfoFromStore h.

Fixpoint delete_orphans (us : list URL) : M () :=
  match us with
  | [] => mret ()
  | u :: us => _ ← deleteNarBytes u; delete_orphans us
  end.

Definition purgeNarInfo (h : string) : M () :=
  '(r, orphanedNarURLs) ← transaction (purge_tx h) [];
  _ ← lift r;
  r ← try (deleteNarInfoFromStore h);
  match r with
  | Ok _ | Err ENotFound => delete_orphans orphanedNarURLs
  | Err e => throw e
  end.
(** ** Signing and trust *)

Definition with_signatures (l : list signature) (ni : NarInfo) : NarInfo :=
  mkInfo _ (StorePath ni) (InfoURL ni) (InfoCompression ni) (FileHash ni) (FileSize ni) (NarHash ni) (NarSize ni)
    (References ni) (Deriver ni) (System ni) l (CA ni).

Definition signNarInfo (ni : NarInfo) : result cache_err NarInfo :=
  if negb (shouldSignNarinfo cfg) then Ok ni else
  let sigs := filter (λ sig, signature_Name sig ≠ hostName cfg) (Signatures ni) in
  match Sign (Fingerprint ni) with
  | None => Err ESign
  | Some sig => Ok (with_signatures (sigs ++ [sig]) ni)
  end.

Definition verifyNarInfoTrusted (ni : NarInfo) : result cache_err () :=
  if negb (requireTrustedSignature cfg) then Ok () else
  if negb (trusted_keys cfg) then Err ErrUntrustedNarInfo else
  if VerifyFirst (Fingerprint ni) (Signatures ni) then Ok () else Err ErrUntrustedNarInfo.

(** ** Repairs *)

Definition checkAndFixNarInfoNoCompression (h : string) (niRow : narinfo_row) : M () :=
  _ ← (if bool_decide (derefInt64Ptr (r_file_size niRow) = 0%Z) then mret () else transaction_ (clearFileSize h));
  if is_empty (r_file_hash niRow) then mret () else transaction_ (clearFileHash h).

Definition getNarActualSize (u : URL) : M (option Z) := nf ← nar_file_row u; mret (nf_file_size <$> nf).

(** The empty text: the file is not there. *)
Definition computeStoredNarFileHash (u : URL) : M string :=
  match nar_path u with
  | Err _ => throw EInvalid
  | Ok p => ask EStore (λ w, match narStore w !! p with Some b => digest_of b | None => "" end)
  end.

Definition CheckAndFixNarInfo (h : string) : M () :=
  r ← ask (EDb (Fault OtherFault)) (λ w, Only (narinfos_where h (db w)));
  match r with
  | Err e => if IsNotFoundError e then mret () else throw (EDb e)
  | Ok (_, niRow) =>
      if is_empty (r_url niRow) then mret () else
      nu ← lift (map_err (λ _, EInvalid) (ParseURL (derefStringPtr (r_url niRow))));
      if bool_decide (Compression nu = CompressionTypeNone) then checkAndFixNarInfoNoCompression h niRow else
      hasNarInStore ← HasNarInStore nu;
      hasNarInChunks ← HasNarInChunks nu;
      if negb hasNarInStore && negb hasNarInChunks then mret () else
      size ← getNarActualSize nu;
      match size with
      | None => mret ()
      | Some size =>
          _ ← (if bool_decide (size = derefInt64Ptr (r_file_size niRow)) then mret ()
               else transaction_ (fixNarInfoFileSize h size));
          if hasNarInStore && is_empty (r_file_hash niRow) then
            fileHash ← computeStoredNarFileHash nu;
            if bool_decide (fileHash = "") then mret () else transaction_ (fixNarInfoFileHash h fileHash)
          else mret ()
      end
  end.

(** ** Uploads *)

(** [narInfo.FileHash = nil; narInfo.FileSize = 0] *)
Definition drop_file (ni : NarInfo) : NarInfo :=
  mkInfo _ (StorePath ni) (InfoURL ni) (InfoCompression ni) None 0 (NarHash ni) (NarSize ni)
    (References ni) (Deriver ni) (System ni) (Signatures ni) (CA ni).

Definition with_url (url compression : string) (ni : NarInfo) : NarInfo :=
  mkInfo _ (StorePath ni) url compression (FileHash ni) (FileSize ni) (NarHash ni) (NarSize ni)
    (References ni) (Deriver ni) (System ni) (Signatures ni) (CA ni).

(** [URL.String], which panics on a compression it does not know. *)
Definition url_string (u : URL) : result cache_err string := map_err (λ _, EInvalid) (URLString u).

Definition normalize_upload (ni : NarInfo) : result cache_err NarInfo :=
  if isCDCEnabled cfg || bool_decide (InfoCompression ni = CompressionTypeNone) then
    ni ← (if negb (bool_decide (InfoCompression ni = CompressionTypeNone)) && negb (bool_decide (InfoCompression ni = "")) then
            nu ← map_err (λ _, EInvalid) (ParseURL (InfoURL ni));
            url ← url_string (with_compression nu CompressionTypeNone);
            Ok (with_url url CompressionTypeNone ni)
          else Ok ni);
    Ok (drop_file ni)
  else Ok ni.

(** [parsed]: what [narinfo.Parse] makes of the body. *)
Definition PutNarInfo (h : string) (parsed : option NarInfo) : M () :=
  _ ← ask ELock (λ _, ());
  ni ← lift (of_option EInvalid parsed);
  _ ← lift (verifyNarInfoTrusted ni);
  ni ← lift (normalize_upload ni);
  ni ← lift (signNarInfo ni);
  _ ← transaction_ (storeInDatabase (postgres cfg) now h ni "");
  inStorage ← HasNarInfo h;
  _ ← (if inStorage : bool then _ ← try (E' := cache_err) (DeleteLegacy h); mret () else mret ());
  _ ← try (E' := cache_err) (CheckAndFixNarInfo h);
  mret ().

(** ** The legacy store *)

(** [TryLock] *)
Definition try_lock : M bool := λ s,
  match next s with
  | EvFault => (Err ELock, put (st s) s)
  | EvLate => (Ok false, put (st s) s)
  | _ => (Ok true, put (st s) s)
  end.

(** Also [MigrateNarInfoToDatabase]; [deleteFromStorage]: there is a store to delete from. *)
Definition MigrateNarInfo (h : string) (ni : NarInfo) (deleteFromStorage : bool) : M () :=
  acquired ← try_lock;
  if negb acquired then mret () else
  r ← try (ask (EDb (Fault OtherFault)) (λ w, Only (narinfos_where h (db w))));
  if (match r with Ok (Ok (_, nir)) => negb (is_empty (r_url nir)) | _ => false end) then mret () else
  _ ← transaction_ (storeNarInfoInDatabase (postgres cfg) now h ni);
  if deleteFromStorage then _ ← try (E' := cache_err) (DeleteLegacy h); mret () else mret ().

(** The closure of [getNarInfoFromStore]; it starts goroutines. *)
Definition legacy_tx (h : string) (ni : NarInfo) (u : URL) : eff (session (list job) tables) dberr () :=
  r ← try (narInfoByHash h);
  match r with
  | Err e => if IsNotFoundError e then assign (λ js, js ++ [JMigrateNarInfo h ni]) else throw e
  | Ok (_, nir) =>
      _ ← (if is_empty (r_url nir) then assign (λ js, js ++ [JMigrateNarInfo h ni]) else mret ());
      _ ← (if isCDCEnabled cfg then assign (λ js, js ++ [JMigrateToChunks u]) else mret ());
      if stale now (recordAgeIgnoreTouch cfg) (r_last_accessed_at nir) then update_where h (touch now) else mret ()
  end.

Fixpoint spawn_all (js : list job) : M () :=
  match js with
  | [] => mret ()
  | j :: js => _ ← spawn j; spawn_all js
  end.

Definition getNarInfoFromStore (h : string) : M NarInfo :=
  o ← ask EStore (λ w, legacy w !! h);
  ni ← lift (of_option ENotFound o);
  match ParseURL (InfoURL ni) with
  | Err _ => _ ← try (E' := cache_err) (purgeNarInfo h); throw ErrNarInfoPurged
  | Ok narURL =>
      r ← try (statNarInStore narURL);
      match r with
      | Err _ => mret ni
      | Ok hasNar =>
          hasNar ← or_else hasNar (HasNarInChunks narURL);
          hasNar ← or_else hasNar (if uploadOnly then narFileBytesStored narURL else mret false);
          downloading ← hasUpstreamJob (Hash narURL);
          if negb hasNar && negb downloading then throw ErrNarInfoPurged else
          '(r, js) ← transaction (legacy_tx h ni narURL) [];
          _ ← spawn_all js;
          _ ← lift r;
          mret ni
      end
  end.

(** The attempts to read from the database; [None]: none found it. *)
Fixpoint retry_database (h : string) (n : nat) : M (option NarInfo) :=
  match n with
  | 0 => mret None
  | S n =>
      r ← try (getNarInfoFromDatabase h);
      match r with
      | Ok ni => mret (Some ni)
      | Err ENotFound => _ ← ask ECtx (λ _, ()); retry_database h n
      | Err _ => mret None
      end
  end.

Definition migrationRetryAttempts : nat := 10.

Definition handleStorageFetchError (h : string) (storageErr : cache_err) : M NarInfo :=
  match storageErr with
  | ENotFound =>
      _ ← ask ELock (λ _, ());
      _ ← try (E' := cache_err) (ask ELock (λ _, ()));
      _ ← ask ELock (λ _, ());
      o ← retry_database h migrationRetryAttempts;
      match o with Some ni => mret ni | None => throw storageErr end
  | _ => throw storageErr
  end.

(** ** Upstreams *)

Definition getNarInfoFromUpstream (h : string) : M NarInfo :=
  o ← ask EStore (λ _, upstream h);
  lift (of_option ENotFound o).

Definition narInfoStorageKey (ni : NarInfo) : string := match NarHash ni with Some h => Format32 h | None => "" end.

(** The narinfo as it is stored after a pull. *)
Definition normalize_pulled (u : URL) (ni : NarInfo) : result cache_err NarInfo :=
  let to_none :=
    url ← url_string (mkURL (Hash u) CompressionTypeNone (if IsOpaque u then ∅ else Query u) false "");
    Ok (drop_file (with_url url CompressionTypeNone ni)) in
  if bool_decide (InfoCompression ni = CompressionTypeNone) then to_none
  else if IsOpaque u then
    url ← url_string (mkURL (Hash u) (Compression u) ∅ false "");
    Ok (with_url url (InfoCompression ni) ni)
  else if isEagerCDC cfg then to_none
  else Ok ni.

(** A lock that cannot be tried counts as held. *)
Definition cdcChunkerLive (h : string) : M bool :=
  acquired ← has (λ w, bool_decide (h ∉ chunking w)); mret (negb acquired).

(** Is the NAR servable, and is it all there? *)
Definition narServability (u : URL) : M (bool * bool) :=
  inStore ← HasNarInStore u;
  if inStore : bool then mret (true, true) else
  if negb (isChunkStoreAvailable cfg) then mret (false, false) else
  nf ← nar_file_row u;
  match nf with
  | None => mret (false, false)
  | Some nf =>
      if bool_decide (0 < nf_total_chunks nf)%Z then mret (true, true) else
      if negb (nf_chunking nf) then mret (false, false) else
      live ← cdcChunkerLive (Hash u);
      mret (live, false)
  end.

(** The state of a download that [coordinateDownload] returns: complete, with the
    error left in it, or running. *)
Inductive download :=
  | Complete (e : option cache_err)
  | Active (j : job).

(** The download starts and runs on; a fault: it has ended already, without its NAR. *)
Definition start_download (h : string) (j : job) : M download := λ s,
  match next s with
  | EvFault | EvLate => (Ok (Complete (Some EStore)), put (add_job j (st s)) s)
  | _ => (Ok (Active j), put (add_upstreamJob h (add_job j (st s))) s)
  end.

Definition pulls_nar (h : string) (j : job) : bool :=
  match j with JPullNar u _ _ => bool_decide (Hash u = h) | _ => false end.

(** The running download of a NAR: the last one started. *)
Definition active_job (h : string) : M download := λ s,
  (Ok (match last (filter (λ j, pulls_nar h j) (jobs (st s))) with Some j => Active j | None => Complete None end), s).

(** Does the holder of the download's lock let it go while it is polled? *)
Definition lock_freed : M bool := λ s, (Ok (match next s with EvLate => true | _ => false end), put (st s) s).

(** [coordinateDownload] of a NAR, which waits for the download to start;
    [pollForDownloadOrTakeOver] when another replica holds the lock, who does not store
    the NAR meanwhile. *)
Definition prePullNar (u : URL) (preferred : option URL) (ni : option NarInfo) : M download :=
  running ← hasUpstreamJob (Hash u);
  if running : bool then active_job (Hash u) else
  acquired ← has (λ w, bool_decide (Hash u ∉ remoteJobs w));
  acquired ← or_else acquired lock_freed;
  r ← try (E' := cache_err) (narServability u);
  match r with
  | Ok (true, _) => mret (Complete None)
  | _ => if acquired : bool then start_download (Hash u) (JPullNar u preferred ni) else mret (Complete (Some ENotFound))
  end.

(** The URL a pulled NAR is stored under. *)
Definition narURLForBG (u : URL) : URL := if IsOpaque u then mkURL (Hash u) (Compression u) ∅ false "" else u.

(** The result is the error left in the download's state; failing to sign leaves none. *)
Definition pullNarInfo (h : string) : M () :=
  _ ← ask ELock (λ _, ());
  _ ← try (E' := cache_err) (ask ELock (λ _, ()));
  _ ← ask ELock (λ _, ());
  r ← try (getNarInfoFromDatabase h);
  match r with
  | Ok _ => mret ()
  | Err _ =>
      ni ← getNarInfoFromUpstream h;
      narURL ← lift (map_err (λ _, EInvalid) (ParseUpstreamURL (InfoURL ni) (narInfoStorageKey ni)));
      _ ← prePullNar (narURLForBG narURL) (if IsOpaque narURL then Some narURL else None) (Some ni);
      ni ← lift (normalize_pulled narURL ni);
      match signNarInfo ni with
      | Err _ => mret ()
      | Ok ni => transaction_ (storeInDatabase (postgres cfg) now h ni (OpaqueUpstreamRef narURL))
      end
  end.

(** [prePullNarInfo] when the download's lock is free: [checkAsset], then the job. *)
Definition prePullNarInfo (h : string) : M () :=
  _ ← ask ELock (λ _, ());
  r ← try (getNarInfoFromDatabase h);
  present ← (match r with Ok _ => mret true | Err _ => HasNarInfo h end);
  if present : bool then mret () else pullNarInfo h.

(** ** Serving *)

Definition maybeCDCNormalizeNarInfoURL (narURL : URL) (ni : NarInfo) : M NarInfo :=
  if negb (isChunkStoreAvailable cfg) then mret ni else
  match Normalize narURL with
  | Err _ => mret ni
  | Ok normalizedURL =>
      chunked ← (if isEagerCDC cfg then mret true
                 else r ← try (E' := cache_err) (HasNarInChunks normalizedURL);
                      mret (match r with Ok b => b | Err _ => false end));
      if negb chunked then mret ni else
      url ← lift (url_string (mkURL (Hash normalizedURL) CompressionTypeNone (Query normalizedURL) false ""));
      mret (drop_file (with_url url CompressionTypeNone ni))
  end.

Definition serve_from_database (ni : NarInfo) : M NarInfo :=
  match ParseURL (InfoURL ni) with
  | Err _ => mret ni
  | Ok narURL =>
      if bool_decide (Compression narURL = CompressionTypeNone) then mret ni else
      _ ← (if isCDCEnabled cfg then spawn (JMigrateToChunks narURL) else mret ());
      maybeCDCNormalizeNarInfoURL narURL ni
  end.

Definition pull_and_read (h : string) : M NarInfo :=
  if uploadOnly then throw ENotFound else
  _ ← prePullNarInfo h;
  _ ← ask ECtx (λ _, ());
  r ← try (getNarInfoFromDatabase h);
  match r with
  | Ok ni => mret ni
  | Err ErrNarInfoPurged => throw ENotFound
  | Err e => throw e
  end.

Definition GetNarInfo (h : string) : M NarInfo :=
  r ← try (getNarInfoFromDatabase h);
  match r with
  | Ok ni => serve_from_database ni
  | Err ENotFound | Err ErrNarInfoPurged =>
      inStorage ← HasNarInfo h;
      if inStorage : bool then
        r ← try (getNarInfoFromStore h);
        match r with
        | Ok ni => mret ni
        | Err ErrNarInfoPurged => pull_and_read h
        | Err e => handleStorageFetchError h e
        end
      else pull_and_read h
  | Err e => throw e
  end.

(** The upstream URL of a stored NAR ([First] on the narinfos linked to its row). *)
Definition linked_narinfos (h c q : string) (d : tables) : list narinfo_row :=
  omap (λ x, if bool_decide (Exists (λ f, (x.1, f) ∈ links d) (nar_files_where h c q d).*1) then Some x.2 else None)
    (map_to_list (narinfos d)).

Definition lookupOriginalNarURL (u : URL) : M URL :=
  r ← try (E' := cache_err) (ask (EDb (Fault OtherFault)) (λ w, head (linked_narinfos (Hash u) (Compression u) (encode (Query u)) (db w))));
  mret (match r with
    | Ok (Some ni) =>
        if is_empty (r_url ni) then u else
        match ParseURL (derefStringPtr (r_url ni)) with
        | Err _ => u
        | Ok originalURL =>
            if is_empty (r_upstream_url ni) then originalURL
            else WithOpaqueUpstreamRef originalURL (derefStringPtr (r_upstream_url ni))
        end
    | _ => u
    end).
End cache.

(** ** Lemmas *)

Section wp.
Context `{GN : GoNix}.
Implicit Types w : world.

Lemma idle_next b s : calm b s → calm b (put (st s) s) ∧ idle (next s) ∧ (b = false → next s = EvOk).
Proof.
  unfold calm, next, put. simpl. destruct b, (script s) as [|e fs]; simpl; try done.
  - by intros [He Hfs]%Forall_cons.
Qed.

Lemma calm_put b w s : calm b s → calm b (put w s).
Proof. intros Hc. by apply idle_next in Hc as [Hc _]. Qed.

Lemma wp_query {A} b e (q : world → A) (Q : result cache_err A → world → Prop) w :
  (b = true → Q (Err e) w) → Q (Ok (q w)) w → wp b (ask e q) Q w.
Proof.
  intros He Hq s <- Hc. destruct (idle_next b s Hc) as (Hc' & _ & Hn). unfold ask. destruct b; [|rewrite (Hn eq_refl)].
  - destruct (next s); simpl; split; auto.
  - by split.
Qed.

Lemma wp_act b e u (Q : result cache_err () → world → Prop) w :
  (b = true → Q (Err e) w ∧ Q (Err e) (u w)) → Q (Ok ()) (u w) → wp b (act e u) Q w.
Proof.
  intros He Hq s <- Hc. destruct (idle_next b s Hc) as (_ & _ & Hn). unfold act. destruct b; [|rewrite (Hn eq_refl)].
  - destruct (He eq_refl). destruct (next s); simpl; (split; [by apply (calm_put true (st s))|done]).
  - split; [by apply (calm_put false (st s))|done].
Qed.

Lemma wp_has b q (Q : result cache_err bool → world → Prop) w :
  (b = true → Q (Ok false) w) → Q (Ok (q w)) w → wp b (has q) Q w.
Proof.
  intros He Hq s <- Hc. destruct (idle_next b s Hc) as (Hc' & _ & Hn). unfold has. destruct b; [|rewrite (Hn eq_refl)].
  - destruct (next s); simpl; split; auto.
  - by split.
Qed.

Lemma wp_spawn b j (Q : result cache_err () → world → Prop) w : Q (Ok ()) (add_job j w) → wp b (spawn j) Q w.
Proof. by intros Hq s <- Hc. Qed.

Lemma wp_start_download b h j (Q : result cache_err download → world → Prop) w :
  (b = true → Q (Ok (Complete (Some EStore))) (add_job j w)) → Q (Ok (Active j)) (add_upstreamJob h (add_job j w)) → wp b (start_download h j) Q w.
Proof.
  intros He Hq s <- Hc. destruct (idle_next b s Hc) as (_ & _ & Hn). unfold start_download. destruct b; [|rewrite (Hn eq_refl)].
  - destruct (next s); simpl; (split; [by apply (calm_put true (st s))|auto]).
  - split; [by apply (calm_put false (st s))|done].
Qed.

(** A transaction among faults: an invariant of its variables and tables, what the
    attempt that succeeds does, and what an error of the closure's own says. *)
Lemma wp_transaction_error {V} b (I Post : V → tables → Prop) (E : dberr → tables → Prop) (fn : eff (session V tables) dberr ()) v
    (Q : result cache_err (result cache_err () * V) → world → Prop) w :
  (∀ f d, E (Fault f) d) → (∀ d, E CtxDone d) → I v (db w) →
  (∀ v d, I v d → after false (λ r v' d', I v' d ∧ match r with Ok _ => I v' d' ∧ Post v' d' | Err e => E e d end) fn v d) →
  (∀ e v' d', I v' d' → E e d' → Q (Ok (Err (of_dberr e), v')) (set_db d' w)) →
  (∀ v' d', I v' d' → Post v' d' → Q (Ok (Ok (), v')) (set_db d' w)) →
  wp b (transaction fn v) Q w.
Proof.
  intros Hf Hctx Hi Hfn He Hok s <- Hc. destruct (idle_next b s Hc) as (_ & Hidle & _).
  unfold transaction.
  assert (∀ i d, a_others (env_of (next s) i) d = d) as Ho by (destruct (next s); [done..|exact Hidle]).
  assert (∀ i v d, I v d → I v (a_others (env_of (next s) i) d)) as HoI by (intros i v0 d0; by rewrite Ho).
  unfold withEntTransactionRetry.
  pose proof (retry_from_inv I (env_of (next s)) fn 0 (maxAttempts - 1) v (db (st s))) as Hinv.
  pose proof (retry_from_last I (env_of (next s)) fn 0 (maxAttempts - 1) v (db (st s))) as Hlast.
  pose proof (retry_from_error I E (env_of (next s)) fn 0 (maxAttempts - 1) v (db (st s)) Hf Hctx HoI) as Herr.
  destruct (retry_from _ _ _ _ _ _) as [[r v'] d']. simpl in *.
  assert (∀ v d, I v d → after false (λ r v' d', I v' d ∧ (is_ok r = true → I v' d')) fn v d) as HfnI.
  { intros v0 d0 H0. eapply after_mono; [by apply Hfn|]. intros [[]|e] v1 d1 [H1 H2]; (split; [done|]); [|done]. intros _. apply H2. }
  assert (I v' d') as Hi' by by apply Hinv.
  split; [by apply (calm_put b (st s))|]. destruct r as [[]|e]; simpl.
  - apply Hok; [done|]. destruct (Hlast v' d') as (j & v0 & d0 & s0 & H0 & Hrun & -> & ->); [done..|].
    specialize (Hfn v0 d0 H0). apply (after_run _ _ _ _ _ (a_stmts (env_of (next s) j))) in Hfn; [|done].
    rewrite Hrun in Hfn. by destruct Hfn as (_ & _ & _ & Hp).
  - apply He; [done|]. apply Herr; [|done]. intros v0 d0 H0. eapply after_mono; [by apply Hfn|].
    intros [[]|e'] v1 d1 [H1 H2]; (split; [done|]); [apply H2|done].
Qed.

Lemma wp_transaction {V} b (I Post : V → tables → Prop) (fn : eff (session V tables) dberr ()) v
    (Q : result cache_err (result cache_err () * V) → world → Prop) w :
  I v (db w) →
  (∀ v d, I v d → after false (λ r v' d', I v' d ∧ (is_ok r = true → I v' d' ∧ Post v' d')) fn v d) →
  (∀ e v' d', I v' d' → Q (Ok (Err (of_dberr e), v')) (set_db d' w)) →
  (∀ v' d', I v' d' → Post v' d' → Q (Ok (Ok (), v')) (set_db d' w)) →
  wp b (transaction fn v) Q w.
Proof.
  intros Hi Hfn He Hok. apply (wp_transaction_error b I Post (λ _ _, True)); [done..| | |done]; [|by auto].
  intros v0 d0 H0. eapply after_mono; [by apply Hfn|]. intros [[]|e] v1 d1 [H1 H2]; (split; [done|]); [by apply H2|done].
Qed.

(** An undisturbed transaction. *)
Lemma wp_transaction_calm {V} (fn : eff (session V tables) dberr ()) v
    (Q : result cache_err (result cache_err () * V) → world → Prop) w :
  after true (λ r v' d', match r with
    | Ok _ => Q (Ok (Ok (), v')) (set_db d' w)
    | Err e => IsDeadlockError e || IsDuplicateKeyError e = false ∧ Q (Ok (Err (of_dberr e), v')) w
    end) fn v (db w) →
  wp false (transaction fn v) Q w.
Proof.
  intros Hfn s <- Hc. destruct (idle_next false s Hc) as (_ & _ & Hn). unfold transaction. rewrite (Hn eq_refl).
  unfold withEntTransactionRetry. simpl. unfold WithTransaction. simpl.
  apply (after_run _ _ _ _ _ []) in Hfn; [|done]. destruct (fn _) as [[[]|e] s'], Hfn as [_ Hq]; simpl.
  - split; [by apply (calm_put false (st s))|done].
  - destruct Hq as [He Hq]. rewrite He. simpl. split; [by apply (calm_put false (st s))|].
    replace (set_db (db (st s)) (st s)) with (st s) by by destruct (st s). exact Hq.
Qed.

(** [transaction_] *)
Lemma wp_transaction_ b (fn : eff (session () tables) dberr ()) (Q : result cache_err () → world → Prop) w :
  wp b (transaction fn ()) (λ r w', match r with Ok (r, _) => Q r w' | Err e => Q (Err e) w' end) w →
  wp b (transaction_ fn) Q w.
Proof. intros Hw. apply wp_bind. eapply wp_mono; [exact Hw|]. intros [[r []]|e] w' Hq; [by apply wp_lift|done]. Qed.
End wp.

(** NAR URLs have paths. *)
Lemma nar_path_matched u c :
  hash_match (Hash u) = true → is_ok (ToFileExtension c) = true → is_ok (nar_path (with_compression u c)) = true.
Proof.
  intros Hh Hc. pose proof (Normalize_ok (with_compression u c)) as Hn. simpl in Hn. rewrite Hh in Hn.
  unfold nar_path. destruct (Normalize (with_compression u c)) as [v|] eqn:Hv; [|done]. simpl.
  apply Normalize_inv in Hv as (Hv & Hm & _). unfold ToFilePath. rewrite Hv. simpl.
  destruct (ToFileExtension c) as [e|] eqn:He; [|done]. simpl.
  assert (hash_match (Hash v) = true) as Hmv by (unfold hash_match; by rewrite Hm).
  rewrite NarFilePath_Ok by (done || by eapply ext_alnum).
  unfold FilePathWithSharding. case_match eqn:Hlen; [|done]. apply Nat.ltb_lt in Hlen.
  pose proof (normalized_length _ Hm). unfold nar_filename in Hlen. rewrite str_length_app in Hlen. lia.
Qed.

Lemma nar_path_parsed s u c :
  ParseURL s = Ok u → is_ok (ToFileExtension c) = true → is_ok (nar_path (with_compression u c)) = true.
Proof. intros Hu%(ParseURL_upstream _ "")%ParseUpstreamURL_inv. apply nar_path_matched. by destruct Hu. Qed.

Section reading.
Context `{GN : GoNix} (cfg : Config) (row_order : list string → list string) (now : Z) (uploadOnly : bool).

(** ** What the checks find without faults *)

Definition stored_at (u : URL) (w : world) : bool :=
  match nar_path u with Ok p => bool_decide (is_Some (narStore w !! p)) | Err _ => false end.

Definition in_store (u : URL) (w : world) : bool :=
  (bool_decide (Compression u = CompressionTypeNone) &&
     (stored_at (with_compression u CompressionTypeZstd) w || stored_at (with_compression u CompressionTypeXz) w)) ||
  stored_at u w.

Definition file_row (u : URL) (d : tables) : option nar_file :=
  let row c := (nar_files_where (Hash u) c (encode (Query u)) d).*2 in
  let '(first, second) := if isCDCEnabled cfg then (CompressionTypeNone, Compression u) else (Compression u, CompressionTypeNone) in
  head (row first ++ row second).

Definition in_chunks (u : URL) (d : tables) : bool :=
  isChunkStoreAvailable cfg && match file_row u d with Some nf => bool_decide (0 < nf_total_chunks nf)%Z | None => false end.

(** Something tells that the NAR is there or on its way. *)
Definition backed (u : URL) (w : world) : bool :=
  in_store u w || in_chunks u (db w) || (uploadOnly && bytes_stored u (db w)) ||
  bool_decide (Hash u ∈ upstreamJobs w) || bool_decide (Hash u ∈ remoteJobs w) ||
  (isCDCEnabled cfg && bool_decide (is_Some (file_row u (db w)))).

Definition db_result (h : string) (w : world) : result cache_err NarInfo :=
  match read_hash row_order h (db w) with
  | Err e => Err (of_dberr e)
  | Ok (ni, u) => if backed u w then Ok ni else Err ErrNarInfoPurged
  end.

(** URLs whose files the store can look for. *)
Definition with_path (u : URL) : Prop :=
  ∀ c, c ∈ [CompressionTypeZstd; CompressionTypeXz; Compression u] → is_ok (nar_path (with_compression u c)) = true.

Lemma parsed_with_path s u : ParseURL s = Ok u → with_path u.
Proof.
  intros Hu c Hc. eapply nar_path_parsed; [done|]. apply (ParseURL_upstream _ ""), ParseUpstreamURL_compression in Hu.
  repeat (apply elem_of_cons in Hc as [->|Hc]; [done|]). by apply elem_of_nil in Hc.
Qed.

Section wp.
Context (b : bool).

Lemma wp_stat_file u (Q : result cache_err bool → world → Prop) w :
  is_ok (nar_path u) = true → (b = true → Q (Err EStore) w) → Q (Ok (stored_at u w)) w → wp b (StatNar u) Q w.
Proof. intros Hu He Hq. unfold StatNar, stored_at in *. destruct (nar_path u); [|done]. by apply wp_query. Qed.

Lemma wp_statNarInStore u (Q : result cache_err bool → world → Prop) w :
  with_path u → (b = true → Q (Err EStore) w) → Q (Ok (in_store u w)) w → wp b (statNarInStore u) Q w.
Proof.
  intros Hu He Hq. unfold statNarInStore, in_store in *.
  assert (is_ok (nar_path u) = true) as Hown by (specialize (Hu (Compression u) ltac:(set_solver)); by destruct u).
  apply wp_bind. case_bool_decide; [|apply wp_ret; by apply wp_stat_file].
  simpl. apply wp_bind, wp_stat_file; [apply Hu; set_solver|done|].
  destruct (stored_at (with_compression u CompressionTypeZstd) w); [by do 2 apply wp_ret|].
  apply wp_bind, wp_stat_file; [apply Hu; set_solver|done|].
  destruct (stored_at (with_compression u CompressionTypeXz) w); [by do 2 apply wp_ret|].
  apply wp_ret. by apply wp_stat_file.
Qed.

Lemma wp_HasNarInStore u (Q : result cache_err bool → world → Prop) w :
  with_path u → (b = true → Q (Ok false) w) → Q (Ok (in_store u w)) w → wp b (HasNarInStore u) Q w.
Proof.
  intros Hu He Hq. apply wp_bind, wp_try, wp_statNarInStore; [done|intros Hb; by apply wp_ret, He|by apply wp_ret].
Qed.

Lemma wp_nar_file_row u (Q : result cache_err (option nar_file) → world → Prop) w :
  unique_keys (db w) → (b = true → ∀ e, Q (Err (EDb e)) w) → Q (Ok (file_row u (db w))) w → wp b (nar_file_row cfg u) Q w.
Proof.
  intros Hu He Hq. unfold nar_file_row, getNarFileFromDB, file_row, find_nar_file in *.
  destruct (if isCDCEnabled cfg then _ else _) as [c1 c2].
  do 2 (apply wp_bind). apply wp_query; [intros Hb; by apply He|].
  destruct (nar_files_where_cases (Hash u) c1 (encode (Query u)) (db w) Hu) as [[Hw1 _]|(f & nf & Hw1 & _)]; rewrite Hw1 in *; simpl in *.
  2:{ by do 2 apply wp_ret. }
  case_bool_decide as Hc.
  - subst c2. rewrite Hw1 in Hq. by do 2 apply wp_ret.
  - apply wp_query; [intros Hb; by apply He|].
    destruct (nar_files_where_cases (Hash u) c2 (encode (Query u)) (db w) Hu) as [[Hw2 _]|(f & nf & Hw2 & _)]; rewrite Hw2 in *; simpl in *; by apply wp_ret.
Qed.

Lemma wp_HasNarInChunks u (Q : result cache_err bool → world → Prop) w :
  unique_keys (db w) → (b = true → ∀ e, Q (Err (EDb e)) w) → Q (Ok (in_chunks u (db w))) w → wp b (HasNarInChunks cfg u) Q w.
Proof.
  intros Hu He Hq. unfold HasNarInChunks, in_chunks in *. destruct (isChunkStoreAvailable cfg); [|by apply wp_ret].
  apply wp_bind, wp_nar_file_row; [done|done|]. by apply wp_ret.
Qed.

Lemma wp_HasNarFileRecord u (Q : result cache_err bool → world → Prop) w :
  unique_keys (db w) → (b = true → ∀ e, Q (Err (EDb e)) w) → Q (Ok (bool_decide (is_Some (file_row u (db w))))) w →
  wp b (HasNarFileRecord cfg u) Q w.
Proof. intros Hu He Hq. apply wp_bind, wp_nar_file_row; [done|done|]. by apply wp_ret. Qed.

Lemma wp_or_else (c : bool) (m : eff state cache_err bool) (Q : result cache_err bool → world → Prop) w :
  (c = true → Q (Ok true) w) → (c = false → wp b m Q w) → wp b (or_else c m) Q w.
Proof. intros Ht Hf. destruct c; [by apply wp_ret, Ht|by apply Hf]. Qed.
End wp.

Notation touched := (NarInfoDB.touched now).

Lemma touched_idemp h d : touched h (touched h d) = touched h d.
Proof.
  unfold NarInfoDB.touched, set_narinfos. simpl. f_equal. rewrite <- map_fmap_compose. apply map_fmap_ext.
  intros i r _. simpl. destruct (bool_decide (r_hash r = h)) eqn:Hr; simpl; by rewrite Hr.
Qed.

Lemma touched_wf h d : wf d → wf (touched h d).
Proof.
  intros Hwf. apply wf_map_rows; [intros r; by case_bool_decide| |done].
  intros i r Hr. pose proof (wf_checks _ Hwf i r Hr). by case_bool_decide.
Qed.

Lemma read_hash_touched h h' d : wf d → read_hash row_order h' (touched h d) = read_hash row_order h' d.
Proof.
  intros Hwf. pose proof (touched_wf h d Hwf) as Hwf'.
  destruct (narinfos_where_cases h' d (wf_unique _ Hwf)) as [[Hw Hno]|(i & r & Hw & Hi & Hh)].
  - unfold read_hash. rewrite Hw.
    destruct (narinfos_where_cases h' (touched h d) (wf_unique _ Hwf')) as [[-> _]|(j & x & _ & Hj & Hx)]; [done|].
    simpl in Hj. apply lookup_fmap_Some in Hj as (x' & <- & Hj). exfalso. apply (Hno j x' Hj). by case_bool_decide.
  - rewrite (read_hash_row row_order h' d i r) by done.
    rewrite (read_hash_row row_order h' (touched h d) i (if bool_decide (r_hash r = h) then touch now r else r)); [|done| |].
    + by case_bool_decide.
    + simpl. by rewrite lookup_fmap, Hi.
    + by case_bool_decide.
Qed.

Lemma read_hash_error h d e : read_hash row_order h d = Err e → ∃ a, e = AppError a.
Proof.
  unfold read_hash. destruct (narinfos_where h d) as [|[i r] l]; [intros [= <-]; eauto|].
  unfold read_row, parseValidHashPtr. case_match; [intros [= <-]; eauto|].
  intros [Hr|(fh & _ & [Hr|(nh & _ & [Hr|(sigs & _ & [Hr|(u & _ & Hr)]%bind_Err_inv)]%bind_Err_inv)]%bind_Err_inv)]%bind_Err_inv.
  - repeat case_match; simplify_eq; eauto.
  - repeat case_match; simplify_eq; eauto.
  - destruct (mapM _ _); simpl in *; simplify_eq; eauto.
  - destruct (ParseURL _); simpl in *; simplify_eq; eauto.
  - done.
Qed.

(** The tables after reading: at most touched. *)
Definition read_only (h : string) (d d' : tables) : Prop := d' = d ∨ d' = touched h d.

Lemma after_read_tx sure h v d0 d :
  wf d0 → read_only h d0 d →
  after sure (λ r v' d', read_only h d0 d' ∧ (∀ x, r = Ok () → v' = Some x → read_hash row_order h d0 = Ok x) ∧
    (r = Ok () → is_Some v') ∧ (sure = true → r = (_ ← read_hash row_order h d0; Ok ())))
    (read_tx cfg row_order now h) v d.
Proof.
  intros Hwf Hd. assert (wf d) as Hwfd by (destruct Hd as [->| ->]; [done|by apply touched_wf]).
  assert (read_hash row_order h d = read_hash row_order h d0) as Hread.
  { destruct Hd as [->| ->]; [done|by apply read_hash_touched]. }
  unfold read_tx. apply after_bind. eapply after_mono; [apply after_populate; apply Hwfd|].
  intros r v' d' (-> & Hd' & Hsure & Hok). rewrite Hread in *.
  assert (read_only h d0 d') as Hro.
  { destruct Hd' as [->|[_ ->]]; [done|]. right. destruct Hd as [->| ->]; [done|apply touched_idemp]. }
  destruct r as [x|e].
  - apply after_assign. split_and!; [done| |done|].
    + intros y _ [= <-]. by apply Hok.
    + intros Hs. by rewrite <- (Hsure Hs).
  - split_and!; [done|done|done|]. intros Hs. by rewrite <- (Hsure Hs).
Qed.

(** [wp_transaction] for [getNarInfoFromDatabase]: with [b = false] the exact result. *)
Lemma wp_read_tx b h (Q : result cache_err (result cache_err () * option (NarInfo * URL)) → world → Prop) w :
  wf (db w) →
  (b = true → ∀ e v d', read_only h (db w) d' → Q (Ok (Err (of_dberr e), v)) (set_db d' w)) →
  (∀ e, b = false → read_hash row_order h (db w) = Err e → ∀ v, Q (Ok (Err (of_dberr e), v)) w) →
  (∀ x d', read_only h (db w) d' → read_hash row_order h (db w) = Ok x → Q (Ok (Ok (), Some x)) (set_db d' w)) →
  wp b (transaction (read_tx cfg row_order now h) None) Q w.
Proof.
  intros Hwf He Hec Hok. destruct b.
  - apply (wp_transaction true (λ _ d', read_only h (db w) d') (λ v _, ∃ x, v = Some x ∧ read_hash row_order h (db w) = Ok x)).
    + by left.
    + intros v d Hd. eapply after_mono; [by apply after_read_tx|]. intros r v' d' (Hd' & Hx & Hs & _).
      split; [done|]. intros Hr. split; [done|]. destruct r as [[]|e]; [|done]. destruct (Hs eq_refl) as [x ->].
      exists x. split; [done|]. by apply Hx.
    + intros e v d' Hd'. by apply He.
    + intros v d' Hd' (x & -> & Hx). by apply Hok.
  - apply wp_transaction_calm. eapply after_mono; [apply (after_read_tx true h None (db w)); [done|by left]|].
    intros r v' d' (Hd' & Hx & Hs & Hr). specialize (Hr eq_refl). destruct r as [[]|e].
    + destruct (Hs eq_refl) as [x ->]. apply Hok; [done|]. by apply Hx.
    + destruct (read_hash row_order h (db w)) as [x|e'] eqn:Hread; [done|]. simpl in Hr. injection Hr as ->. split; [|by apply Hec].
      by destruct (read_hash_error _ _ _ Hread) as [a ->].
Qed.

Lemma read_only_wf h d d' : wf d → read_only h d d' → wf d'.
Proof. intros Hwf [->| ->]; [done|by apply touched_wf]. Qed.

Lemma read_only_files h d d' : read_only h d d' → nar_files d' = nar_files d ∧ links d' = links d.
Proof. by intros [->| ->]. Qed.

Lemma read_hash_url h d ni u : read_hash row_order h d = Ok (ni, u) → ParseURL (InfoURL ni) = Ok u.
Proof.
  unfold read_hash. destruct (narinfos_where h d) as [|[i r] l]; [done|]. unfold read_row. case_match; [done|].
  intros (fh & _ & (nh & _ & (sigs & _ & (u' & Hu & [= <- <-])%bind_Ok_inv)%bind_Ok_inv)%bind_Ok_inv)%bind_Ok_inv.
  by apply map_err_Ok in Hu.
Qed.

Lemma wp_hasUpstreamJob b h (Q : result cache_err bool → world → Prop) w :
  Q (Ok (bool_decide (h ∈ upstreamJobs w))) w → wp b (hasUpstreamJob h) Q w.
Proof. by intros Hq s <- Hc. Qed.

Lemma wp_recheck b u ni (Q : result cache_err NarInfo → world → Prop) w :
  with_path u → unique_keys (db w) →
  (∀ r, (b = false → r = (if in_store u w || in_chunks u (db w) ||
       (isCDCEnabled cfg && bool_decide (is_Some (file_row u (db w)))) then Ok ni else Err ErrNarInfoPurged)) →
     (∀ ni', r = Ok ni' → ni' = ni) → Q r w) →
  wp b (recheck cfg u ni) Q w.
Proof.
  intros Hpath Hu HQ. unfold recheck.
  assert (b = true → ∀ r, (∀ ni', r = Ok ni' → ni' = ni) → Q r w) as Hany by (intros -> r Hr; by apply HQ).
  apply wp_bind, wp_try, wp_statNarInStore; [done|intros Hb; apply wp_ret, Hany; [done|congruence]|].
  apply wp_bind, wp_or_else; intros Hs.
  { apply wp_ret, HQ; [by rewrite Hs|congruence]. }
  apply wp_HasNarInChunks; [done|intros Hb e; by apply Hany|].
  destruct (in_chunks u (db w)) eqn:Hc; [apply wp_ret, HQ; [by rewrite orb_true_r|congruence]|].
  rewrite Hs in HQ. simpl in HQ. apply wp_bind. destruct (isCDCEnabled cfg); [|by apply wp_ret, wp_throw, HQ].
  simpl in HQ. apply wp_bind, wp_try, wp_HasNarFileRecord; [done|intros Hb e; apply wp_ret, wp_ret, Hany; [done|congruence]|].
  apply wp_ret. case_bool_decide; [by apply wp_ret, HQ; [done|congruence]|by apply wp_throw, HQ].
Qed.

(** [getNarInfoFromDatabase] touches the row at most; without faults it gives the
    narinfo exactly when something tells that its NAR is there or on its way. *)
Lemma wp_getNarInfoFromDatabase b h (Q : result cache_err NarInfo → world → Prop) w :
  wf (db w) →
  (∀ r d', read_only h (db w) d' → (b = false → r = db_result h w) →
     (∀ ni, r = Ok ni → ∃ u, read_hash row_order h (db w) = Ok (ni, u)) → Q r (set_db d' w)) →
  wp b (getNarInfoFromDatabase cfg row_order now uploadOnly h) Q w.
Proof.
  intros Hwf HQ. unfold getNarInfoFromDatabase. apply wp_bind, wp_read_tx; [done| | |].
  { intros Hb e v d' Hd'. apply wp_bind, wp_lift. apply HQ; [done|by rewrite Hb|done]. }
  { intros e Hb Hread v. apply wp_bind, wp_lift.
    replace w with (set_db (db w) w) by by destruct w. apply HQ; [by left| |done].
    intros _. unfold db_result. by rewrite Hread. }
  intros [ni u] d' Hd' Hread. apply wp_bind, wp_lift.
  pose proof (read_only_wf _ _ _ Hwf Hd') as Hwf'. destruct (read_only_files _ _ _ Hd') as [Hfiles _].
  pose proof (parsed_with_path _ _ (read_hash_url _ _ _ _ Hread)) as Hpath.
  set (w' := set_db d' w).
  assert (∀ r, (b = false → r = db_result h w) → (∀ ni', r = Ok ni' → ni' = ni) → Q r w') as HQ'.
  { intros r H1 H2. apply HQ; [done|done|]. intros ni' Hr. rewrite (H2 _ Hr). eauto. }
  assert (∀ e, b = true → Q (Err e) w') as He by (intros e Hb; apply HQ'; [by rewrite Hb|done]).
  assert (db_result h w = if backed u w' then Ok ni else Err ErrNarInfoPurged) as Hres.
  { unfold db_result. rewrite Hread. unfold backed, in_chunks, file_row, bytes_stored, nar_files_where, w'. simpl. by rewrite Hfiles. }
  rewrite Hres in HQ'. assert (unique_keys (db w')) as Hu by apply Hwf'. clearbody w'. clear HQ Hres.
  assert (∀ c, (b = false → c = in_store u w' || in_chunks u (db w') || (uploadOnly && bytes_stored u (db w'))) →
    wp b (isBeingDownloadedLocally ← hasUpstreamJob (Hash u);
      isBeingDownloadedRemotely ← (if negb c && negb isBeingDownloadedLocally
                                   then isRemoteDownloadInProgress (Hash u) else mret false);
      if c || isBeingDownloadedLocally || isBeingDownloadedRemotely then mret ni else recheck cfg u ni) Q w') as Hrest.
  { intros c Hc. apply wp_bind, wp_hasUpstreamJob. destruct c; simpl.
    { apply wp_bind, wp_ret, wp_ret, HQ'; [|congruence]. intros Hb. unfold backed. by rewrite <- (Hc Hb). }
    destruct (bool_decide (Hash u ∈ upstreamJobs w')) eqn:Hl; simpl.
    { apply wp_bind, wp_ret, wp_ret, HQ'; [|congruence]. intros Hb. unfold backed. by rewrite <- (Hc Hb), Hl. }
    apply wp_bind, wp_has; simpl.
    - intros Hb. apply wp_recheck; [done|done|]. intros r _ Hr. apply HQ'; [by rewrite Hb|done].
    - destruct (bool_decide (Hash u ∈ remoteJobs w')) eqn:Hm; simpl.
      { apply wp_ret, HQ'; [|congruence]. intros Hb. unfold backed. by rewrite <- (Hc Hb), Hl, Hm. }
      apply wp_recheck; [done|done|]. intros r Hr1 Hr2. apply HQ'; [|done]. intros Hb. rewrite (Hr1 Hb).
      unfold backed. specialize (Hc Hb). rewrite <- Hc, Hl, Hm. simpl.
      symmetry in Hc. apply orb_false_iff in Hc as [-> _]. done. }
  assert (∀ c, (b = false → c = in_store u w') →
    wp b (hasNar ← or_else c (HasNarInChunks cfg u);
      hasNar ← or_else hasNar (if uploadOnly then narFileBytesStored u else mret false);
      isBeingDownloadedLocally ← hasUpstreamJob (Hash u);
      isBeingDownloadedRemotely ← (if negb hasNar && negb isBeingDownloadedLocally
                                   then isRemoteDownloadInProgress (Hash u) else mret false);
      if hasNar || isBeingDownloadedLocally || isBeingDownloadedRemotely then mret ni else recheck cfg u ni) Q w') as Hrest2.
  { intros c Hc. apply wp_bind, wp_or_else; intros ->.
    { apply wp_bind, wp_or_else; [intros _|done]. apply Hrest. intros Hb. by rewrite <- (Hc Hb). }
    apply wp_HasNarInChunks; [done|intros Hb e; by apply He|].
    apply wp_bind, wp_or_else; intros Hch.
    { apply Hrest. intros Hb. by rewrite <- (Hc Hb), Hch. }
    destruct uploadOnly; [apply wp_has|apply wp_ret].
    - intros Hb. apply Hrest. by rewrite Hb.
    - apply Hrest. intros Hb. by rewrite <- (Hc Hb), Hch.
    - apply Hrest. intros Hb. by rewrite <- (Hc Hb), Hch. }
  apply wp_bind, wp_HasNarInStore; [done| |].
  - intros Hb. apply Hrest2. by rewrite Hb.
  - by apply Hrest2.
Qed.
End reading.

(** ** The purge signal *)

(** Computations that do not end with the internal signal. *)
Definition unpurged `{GoNix} {A} (m : eff state cache_err A) : Prop := ∀ s, (m s).1 ≠ Err ErrNarInfoPurged.

Section unpurged.
Context `{GN : GoNix}.

Lemma unpurged_bind {A B} (m : eff state cache_err A) (k : A → eff state cache_err B) :
  unpurged m → (∀ a, unpurged (k a)) → unpurged (m ≫= k).
Proof.
  intros Hm Hk s. unfold mbind, eff_bind. specialize (Hm s). destruct (m s) as [[a|e] s']; [apply Hk|].
  simpl in *. congruence.
Qed.

Lemma unpurged_ret {A} (a : A) : unpurged (mret a).
Proof. by intros s. Qed.

Lemma unpurged_throw {A} e : e ≠ ErrNarInfoPurged → unpurged (A := A) (throw e).
Proof. intros He s. simpl. congruence. Qed.

Lemma unpurged_lift {A} (r : result cache_err A) : r ≠ Err ErrNarInfoPurged → unpurged (lift r).
Proof. intros Hr s. done. Qed.

Lemma unpurged_try {A} (m : eff state cache_err A) : unpurged (try m).
Proof. intros s. unfold try. by destruct (m s). Qed.

Lemma unpurged_ask {A} e (q : world → A) : e ≠ ErrNarInfoPurged → unpurged (ask e q).
Proof. intros He s. unfold ask. destruct (next s); simpl; congruence. Qed.

Lemma unpurged_act e u : e ≠ ErrNarInfoPurged → unpurged (act e u).
Proof. intros He s. unfold act. destruct (next s); simpl; congruence. Qed.

Lemma unpurged_has q : unpurged (has q).
Proof. intros s. unfold has. by destruct (next s). Qed.

Lemma unpurged_spawn j : unpurged (spawn j).
Proof. by intros s. Qed.

Lemma of_dberr_unpurged e : of_dberr e ≠ ErrNarInfoPurged.
Proof. by destruct e as [| | | |[]]. Qed.

Lemma unpurged_transaction_ fn : unpurged (transaction_ fn).
Proof.
  intros s. unfold transaction_, transaction, mbind, eff_bind, lift.
  destruct (withEntTransactionRetry _ _ _ _) as [[[[]|e] v] d]; simpl; [done|].
  intros [= He]. by apply (of_dberr_unpurged e).
Qed.

Lemma map_err_unpurged {A} (r : result nar_error A) : map_err (λ _, EInvalid) r ≠ Err ErrNarInfoPurged.
Proof. by destruct r. Qed.

Lemma of_option_unpurged {A} e (o : option A) : e ≠ ErrNarInfoPurged → of_option e o ≠ Err ErrNarInfoPurged.
Proof. destruct o; simpl; congruence. Qed.

Context {SG : Signing} (cfg : Config) (row_order : list string → list string) (now : Z) (uploadOnly : bool).
Context (upstream : string → option NarInfo).

Ltac unpurged_with L :=
  repeat first
    [ apply L | apply unpurged_ret | apply unpurged_try | apply unpurged_has | apply unpurged_spawn | apply unpurged_transaction_
    | apply unpurged_ask; discriminate | apply unpurged_act; discriminate | apply unpurged_throw; discriminate
    | apply unpurged_lift; first [apply map_err_unpurged | apply of_option_unpurged; discriminate]
    | apply unpurged_bind; [|intros ?]
    | case_match ].

Lemma url_string_unpurged u : url_string u ≠ Err ErrNarInfoPurged.
Proof. apply map_err_unpurged. Qed.

Lemma normalize_pulled_unpurged u ni : normalize_pulled cfg u ni ≠ Err ErrNarInfoPurged.
Proof.
  assert (∀ v k, (∀ url, k url ≠ Err (A := NarInfo) ErrNarInfoPurged) → (url ← url_string v; k url : result cache_err NarInfo) ≠ Err ErrNarInfoPurged) as Hk.
  { intros v k Hk. pose proof (url_string_unpurged v). destruct (url_string v); simpl; [apply Hk|congruence]. }
  unfold normalize_pulled. repeat case_match; try done; by apply Hk.
Qed.

Lemma unpurged_prePullNar u o ni : unpurged (prePullNar cfg u o ni).
Proof.
  apply unpurged_bind; [by intros s|]. intros []; [by intros s|].
  apply unpurged_bind; [apply unpurged_has|]. intros acq.
  apply unpurged_bind; [destruct acq; by intros s|]. intros got.
  apply unpurged_bind; [apply unpurged_try|]. intros r.
  assert (unpurged (start_download (Hash u) (JPullNar u o ni))) as Hs by (intros s; unfold start_download; by destruct (next s)).
  destruct r as [[[] ?]|], got; first [exact Hs|apply unpurged_ret].
Qed.

Lemma unpurged_pullNarInfo h : unpurged (pullNarInfo cfg row_order now uploadOnly upstream h).
Proof.
  unfold pullNarInfo, getNarInfoFromUpstream. unpurged_with unpurged_prePullNar.
  apply unpurged_lift, normalize_pulled_unpurged.
Qed.

Lemma unpurged_prePullNarInfo h : unpurged (prePullNarInfo cfg row_order now uploadOnly upstream h).
Proof. unfold prePullNarInfo, HasNarInfo. unpurged_with unpurged_pullNarInfo. Qed.

Lemma unpurged_pull_and_read h : unpurged (pull_and_read cfg row_order now uploadOnly upstream h).
Proof.
  unfold pull_and_read. destruct uploadOnly eqn:Hup; [by apply unpurged_throw|]. rewrite <- Hup.
  unpurged_with unpurged_prePullNarInfo; apply unpurged_throw; congruence.
Qed.

Lemma unpurged_serve ni : unpurged (serve_from_database cfg ni).
Proof. unfold serve_from_database, maybeCDCNormalizeNarInfoURL. unpurged_with unpurged_spawn.
  all: apply unpurged_lift, url_string_unpurged. Qed.

Lemma unpurged_retry h n : unpurged (retry_database cfg row_order now uploadOnly h n).
Proof. induction n as [|n IH]; simpl; unpurged_with IH. Qed.

Lemma unpurged_fetch_error h e : e ≠ ErrNarInfoPurged → unpurged (handleStorageFetchError cfg row_order now uploadOnly h e).
Proof.
  intros He. unfold handleStorageFetchError.
  destruct e; try (apply unpurged_throw; congruence). unpurged_with unpurged_retry.
Qed.

Lemma unpurged_GetNarInfo h : unpurged (GetNarInfo cfg row_order now uploadOnly upstream h).
Proof.
  unfold GetNarInfo, HasNarInfo. apply unpurged_bind; [apply unpurged_try|]. intros [ni|e]; [apply unpurged_serve|].
  assert (unpurged (inStorage ← has (λ w, bool_decide (is_Some (legacy w !! h)));
      if inStorage : bool then
        r ← try (getNarInfoFromStore cfg now uploadOnly h);
        match r with
        | Ok ni => mret ni
        | Err ErrNarInfoPurged => pull_and_read cfg row_order now uploadOnly upstream h
        | Err e => handleStorageFetchError cfg row_order now uploadOnly h e
        end
      else pull_and_read cfg row_order now uploadOnly upstream h)) as Hrest.
  { apply unpurged_bind; [apply unpurged_has|]. intros []; [|apply unpurged_pull_and_read].
    apply unpurged_bind; [apply unpurged_try|]. intros [ni|e']; [apply unpurged_ret|].
    destruct e'; first [apply unpurged_pull_and_read | apply unpurged_fetch_error; congruence]. }
  destruct e; first [apply unpurged_throw; congruence | exact Hrest].
Qed.
End unpurged.

(** ** Invariants of a request *)

Definition preserves `{GoNix} (I : world → Prop) {A} (m : eff state cache_err A) : Prop :=
  ∀ b w, I w → wp b m (λ _ w', I w') w.

Section preserves.
Context `{GN : GoNix} (I : world → Prop).

Lemma preserves_bind {A B} (m : eff state cache_err A) (k : A → eff state cache_err B) :
  preserves I m → (∀ a, preserves I (k a)) → preserves I (m ≫= k).
Proof.
  intros Hm Hk b w Hw. apply wp_bind. eapply wp_mono; [by apply Hm|]. intros [a|e] w' Hw'; [by apply Hk|done].
Qed.

Lemma preserves_ret {A} (a : A) : preserves I (mret a).
Proof. intros b w Hw. by apply wp_ret. Qed.
Lemma preserves_throw {A} e : preserves I (throw (A := A) e).
Proof. intros b w Hw. by apply wp_throw. Qed.
Lemma preserves_lift {A} (r : result cache_err A) : preserves I (lift r).
Proof. intros b w Hw. by apply wp_lift. Qed.
Lemma preserves_try {A} (m : eff state cache_err A) : preserves I m → preserves I (try m).
Proof. intros Hm b w Hw. by apply wp_try, Hm. Qed.
Lemma preserves_ask {A} e (q : world → A) : preserves I (ask e q).
Proof. intros b w Hw. by apply wp_query. Qed.
Lemma preserves_act e u : (∀ w, I w → I (u w)) → preserves I (act e u).
Proof. intros Hu b w Hw. apply wp_act; auto. Qed.
Lemma preserves_has q : preserves I (has q).
Proof. intros b w Hw. by apply wp_has. Qed.
Lemma preserves_hasUpstreamJob h : preserves I (hasUpstreamJob h).
Proof. intros b w Hw. by apply wp_hasUpstreamJob. Qed.
End preserves.

Ltac preserving base :=
  repeat first
    [ base | apply preserves_ret | apply preserves_throw | apply preserves_lift | apply preserves_try | apply preserves_ask
    | apply preserves_has | apply preserves_hasUpstreamJob | apply preserves_bind; [|intros ?] | case_match ].

(** ** What reading keeps *)

(** Rows stay, with the columns a served narinfo is made of; so do their edges and
    the NAR files. *)
Record kept (d d' : tables) : Prop := {
  kept_rows i r : narinfos d !! i = Some r → is_empty (r_url r) = false →
    ∃ r', narinfos d' !! i = Some r' ∧ ∃ up t, r' = mkRow (r_hash r) (r_store_path r) (r_url r) up (r_compression r)
      (r_file_hash r) (r_file_size r) (r_nar_hash r) (r_nar_size r) (r_deriver r) (r_system r) (r_ca r) t;
  kept_references x : x ∈ references d → x ∈ references d';
  kept_signatures x : x ∈ signatures d → x ∈ signatures d';
  kept_links x : x ∈ links d → x ∈ links d';
  kept_files f nf : nar_files d !! f = Some nf → ∃ t, nar_files d' !! f = Some (touch_file t nf);
}.

#[export] Instance kept_preorder : PreOrder kept.
Proof.
  split.
  - intros d. split; try done; [|intros f nf Hf; exists (nf_last_accessed_at nf); by destruct nf].
    intros i r Hr _. exists r. split; [done|]. exists (r_upstream_url r), (r_last_accessed_at r). by destruct r.
  - intros d1 d2 d3 H12 H23. split.
    + intros i r Hr He. destruct (kept_rows _ _ H12 i r Hr He) as (r2 & Hr2 & up2 & t2 & ->).
      destruct (kept_rows _ _ H23 i _ Hr2 He) as (r3 & Hr3 & up3 & t3 & ->). simpl in *. eauto 6.
    + intros x Hx. by eapply kept_references, kept_references.
    + intros x Hx. by eapply kept_signatures, kept_signatures.
    + intros x Hx. by eapply kept_links, kept_links.
    + intros f nf Hf. destruct (kept_files _ _ H12 f nf Hf) as (t2 & Hf2).
      destruct (kept_files _ _ H23 f _ Hf2) as (t3 & Hf3). simpl in *. eauto.
Qed.

Lemma kept_read_only now h d d' : read_only now h d d' → kept d d'.
Proof.
  intros [->| ->]; [done|]. split; simpl; try done.
  - intros i r Hr _. rewrite lookup_fmap, Hr. simpl. eexists. split; [done|].
    destruct (bool_decide (r_hash r = h)); [by exists (r_upstream_url r), (Some now)|].
    exists (r_upstream_url r), (r_last_accessed_at r). by destruct r.
  - intros f nf Hf. exists (nf_last_accessed_at nf). by destruct nf.
Qed.

Lemma kept_stored_as `{GoNix} now h ni up d d' : wf d → stored_as now h ni up d d' → kept d d'.
Proof.
  intros Hwf (i & nir & d1 & u & Hup & Hurl & Hed).
  destruct (upserted_wf_but _ _ _ _ _ _ _ Hwf Hup) as [(r & Hr & Hd1 & _ & Hh) _].
  destruct (upserted_row _ _ _ _ _ _ _ Hup) as [Hr' Hhash]. assert (r = nir) as -> by congruence.
  set (d2 := if bool_decide (up = "") then d1 else _) in Hed.
  set (r := if bool_decide (up = "") then nir else set_upstream_url up nir).
  assert (d2 = set_narinfos (<[i := r]> (narinfos d)) d) as Hd2.
  { unfold d2, r. rewrite Hd1. case_bool_decide; [done|]. unfold set_narinfos. simpl. by rewrite insert_insert_eq. }
  assert (unique_keys d2) as Hu.
  { rewrite Hd2. split; [|apply Hwf]. simpl. assert (r_hash r = r_hash nir) as Hrr by (unfold r; by case_bool_decide).
    intros j k x y [[<- <-]|[Hj Hx]]%lookup_insert_Some [[<- <-]|[Hk Hy]]%lookup_insert_Some Hxy.
    - done.
    - symmetry. eapply Hh; [done|congruence].
    - eapply Hh; [done|congruence].
    - by eapply (unique_hash _ (wf_unique _ Hwf)). }
  destruct (edges_stored_inv _ _ _ _ _ _ Hu Hed) as (f & nf & -> & Hk & _ & Hold). rewrite Hd2 in *. simpl in *.
  split; simpl.
  - intros j x Hx He. destruct (decide (j = i)) as [->|Hne].
    + rewrite lookup_insert_eq. eexists. split; [done|].
      assert (x = nir) as ->.
      { destruct (upserted_inv _ _ _ _ _ _ _ Hup) as [(Hi & _)|(r0 & _ & [(Hi & _ & He0)|Hi])]; congruence. }
      unfold r. case_bool_decide; [exists (r_upstream_url nir), (r_last_accessed_at nir)|exists (Some up), (r_last_accessed_at nir)]; by destruct nir.
    + rewrite lookup_insert_ne by done. exists x. split; [done|]. exists (r_upstream_url x), (r_last_accessed_at x). by destruct x.
  - intros x Hx. apply elem_of_add_pairs. by left.
  - intros x Hx. apply elem_of_add_pairs. by left.
  - intros x Hx. apply elem_of_add_pair. by left.
  - intros g ng Hg. destruct (decide (g = f)) as [->|Hne].
    + rewrite lookup_insert_eq. destruct (Hold ng Hg) as (Hkn & H1 & H2 & H3 & H4 & H5). exists (nf_last_accessed_at nf).
      destruct Hk as (? & ? & ?), Hkn as (? & ? & ?). destruct nf, ng; unfold touch_file; simpl in *. congruence.
    + rewrite lookup_insert_ne by done. exists (nf_last_accessed_at ng). by destruct ng.
Qed.

(** The hash of the NAR a pull of a narinfo downloads. *)
Definition pulls `{Signing} (upstream : string → option NarInfo) (h : string) : gset string :=
  match upstream h with
  | Some ni => match ParseUpstreamURL (InfoURL ni) (narInfoStorageKey ni) with Ok u => {[Hash u]} | Err _ => ∅ end
  | None => ∅
  end.

Section keeps.
Context `{GN : GoNix} (pulled : gset string) (w0 : world).

(** From a world on: the tables are well-formed and keep what they had, the stores are
    as they were, and no downloads but those allowed have started. *)
Record keeps (w : world) : Prop := {
  keeps_wf : wf (db w);
  keeps_db : kept (db w0) (db w);
  keeps_legacy : legacy w = legacy w0;
  keeps_narStore : narStore w = narStore w0;
  keeps_running : upstreamJobs w0 ⊆ upstreamJobs w;
  keeps_started : upstreamJobs w ⊆ upstreamJobs w0 ∪ pulled;
  keeps_remoteJobs : remoteJobs w = remoteJobs w0;
}.

Notation keeping := (preserves keeps).

Lemma keeping_spawn j : keeping (spawn j).
Proof. intros b w Hw. apply wp_spawn. by split; apply Hw. Qed.

Lemma keeps_set_db w d : keeps w → wf d → kept (db w) d → keeps (set_db d w).
Proof. intros Hw Hwf Hk. split; try apply Hw; [done|]. simpl. etrans; [apply Hw|done]. Qed.

Lemma keeping_transaction {V} (fn : eff (session V tables) dberr ()) v :
  (∀ v d, wf d → after false (λ r _ d', is_ok r = true → wf d' ∧ kept d d') fn v d) → keeping (transaction fn v).
Proof.
  intros Hfn b w Hw. apply (wp_transaction b (λ _ d', wf d' ∧ kept (db w) d') (λ _ _, True)).
  - split; [apply Hw|done].
  - intros v1 d1 [Hwf1 Hk1]. eapply after_mono; [by apply Hfn|]. intros r v2 d2 Hr. split; [done|].
    intros Hok. split; [|done]. destruct (Hr Hok) as [? ?]. split; [done|by etrans].
  - intros e v1 d1 [? ?]. by apply keeps_set_db.
  - intros v1 d1 [? ?] _. by apply keeps_set_db.
Qed.

Lemma keeping_store pg now h ni up : keeping (transaction_ (storeInDatabase pg now h ni up)).
Proof.
  apply preserves_bind; [|by intros [r v]; apply preserves_lift]. apply keeping_transaction. intros v d Hwf.
  eapply after_mono; [apply after_storeInDatabase; apply Hwf|]. intros [[]|e] v' d' [_ Hs] Hr; [|done].
  split; [by eapply stored_as_wf|by eapply kept_stored_as].
Qed.

Context {SG : Signing} (cfg : Config) (row_order : list string → list string) (now : Z) (uploadOnly : bool).
Context (upstream : string → option NarInfo).

Lemma keeping_getNarInfoFromDatabase h : keeping (getNarInfoFromDatabase cfg row_order now uploadOnly h).
Proof.
  intros b w Hw. apply wp_getNarInfoFromDatabase; [apply Hw|]. intros r d' Hd _ _.
  apply keeps_set_db; [done|by eapply read_only_wf, Hd; apply Hw|by eapply kept_read_only].
Qed.

Ltac keeping L := preserving ltac:(first [apply L | apply keeping_getNarInfoFromDatabase | apply keeping_store | apply keeping_spawn]).

Lemma keeping_StatNar u : keeping (StatNar u).
Proof. unfold StatNar. keeping keeping_spawn. Qed.

Lemma keeping_statNarInStore u : keeping (statNarInStore u).
Proof. unfold statNarInStore, stat_candidates, wholeFileServeCompressions. keeping keeping_StatNar. Qed.

Lemma keeping_HasNarInChunks u : keeping (HasNarInChunks cfg u).
Proof. unfold HasNarInChunks, nar_file_row, getNarFileFromDB. keeping keeping_spawn. Qed.

Lemma keeping_prePullNar u o ni : Hash u ∈ pulled → keeping (prePullNar cfg u o ni).
Proof.
  intros Hu. assert (keeping (narServability cfg u)) as Hsrv.
  { unfold narServability, HasNarInStore, nar_file_row, getNarFileFromDB, cdcChunkerLive. keeping keeping_statNarInStore. }
  assert (keeping (start_download (Hash u) (JPullNar u o ni))) as Hstart.
  { intros b w Hw. apply wp_start_download; (split; [apply Hw..| | |apply Hw]); simpl;
      pose proof (keeps_running _ Hw); pose proof (keeps_started _ Hw); set_solver. }
  assert (keeping lock_freed) as Hlock by (intros b w Hw s <- Hc; split; [by apply calm_put|done]).
  apply preserves_bind; [apply preserves_hasUpstreamJob|]. intros []; [by intros b w Hw s <- Hc|].
  apply preserves_bind; [apply preserves_has|]. intros acq.
  apply preserves_bind; [destruct acq; [apply preserves_ret|exact Hlock]|]. intros got.
  apply preserves_bind; [by apply preserves_try|]. intros r.
  destruct r as [[[] ?]|], got; first [exact Hstart|apply preserves_ret].
Qed.

Lemma keeping_pullNarInfo h : pulls upstream h ⊆ pulled → keeping (pullNarInfo cfg row_order now uploadOnly upstream h).
Proof.
  intros Hp. unfold pullNarInfo. do 3 (apply preserves_bind; [keeping keeping_spawn|intros ?]).
  apply preserves_bind; [keeping keeping_spawn|]. intros [ni|e]; [apply preserves_ret|].
  intros b w Hw. apply wp_bind. unfold getNarInfoFromUpstream. apply wp_bind, wp_query; [done|].
  apply wp_lift. unfold pulls in Hp. destruct (upstream h) as [ni|]; [|done]. simpl.
  apply wp_bind, wp_lift. destruct (ParseUpstreamURL _ _) as [u|]; [|done]. simpl.
  assert (Hash (narURLForBG u) ∈ pulled) as Hu by (unfold narURLForBG; case_match; set_solver).
  revert b w Hw. change (keeping (_ ← prePullNar cfg (narURLForBG u) (if IsOpaque u then Some u else None) (Some ni);
    ni ← lift (normalize_pulled cfg u ni);
    match signNarInfo cfg ni with
    | Err _ => mret ()
    | Ok ni => transaction_ (storeInDatabase (postgres cfg) now h ni (OpaqueUpstreamRef u))
    end)).
  apply preserves_bind; [by apply keeping_prePullNar|]. intros _. keeping keeping_spawn.
Qed.

Lemma keeping_prePullNarInfo h : pulls upstream h ⊆ pulled → keeping (prePullNarInfo cfg row_order now uploadOnly upstream h).
Proof. intros Hp. unfold prePullNarInfo, HasNarInfo. keeping (keeping_pullNarInfo h Hp). Qed.

Lemma keeping_pull_and_read h : pulls upstream h ⊆ pulled → keeping (pull_and_read cfg row_order now uploadOnly upstream h).
Proof.
  intros Hp. unfold pull_and_read. destruct uploadOnly eqn:Hup; [apply preserves_throw|]. rewrite <- Hup.
  keeping (keeping_prePullNarInfo h Hp).
Qed.

Lemma keeping_serve ni : keeping (serve_from_database cfg ni).
Proof. unfold serve_from_database, maybeCDCNormalizeNarInfoURL. keeping keeping_HasNarInChunks. Qed.

Lemma keeping_retry h n : keeping (retry_database cfg row_order now uploadOnly h n).
Proof. induction n as [|n IH]; simpl; keeping IH. Qed.

Lemma keeping_fetch_error h e : keeping (handleStorageFetchError cfg row_order now uploadOnly h e).
Proof. unfold handleStorageFetchError. keeping keeping_retry. Qed.

Lemma keeping_spawn_all js : keeping (spawn_all js).
Proof. induction js as [|j js IH]; simpl; keeping IH. Qed.

Lemma after_legacy_tx h ni u v d :
  wf d → after false (λ r _ d', is_ok r = true → wf d' ∧ kept d d') (legacy_tx cfg now h ni u) v d.
Proof.
  intros Hwf. unfold legacy_tx. apply after_bind, after_try, after_narInfoByHash; [apply Hwf| | |].
  - intros _ f. by apply after_throw.
  - intros _. by apply after_assign.
  - intros i r Hr Hh. simpl. apply after_bind.
    assert (∀ v : list job, after false (λ r _ d', is_ok r = true → wf d' ∧ kept d d')
      (if stale now (recordAgeIgnoreTouch cfg) (r_last_accessed_at r) then update_where h (touch now) else mret ()) v d) as Hlast.
    { intros v'. case_match; [|by apply after_ret]. apply after_update_where; [done|done|done|].
      intros d' Hwf' _. split; [done|]. apply (kept_read_only now h). by right. }
    assert (∀ v : list job, after false (λ r _ d', is_ok r = true → wf d' ∧ kept d d')
      (_ ← (if isCDCEnabled cfg then assign (λ js, js ++ [JMigrateToChunks u]) else mret ());
       if stale now (recordAgeIgnoreTouch cfg) (r_last_accessed_at r) then update_where h (touch now) else mret ()) v d) as Hmid.
    { intros v'. apply after_bind. destruct (isCDCEnabled cfg); [apply after_assign|apply after_ret]; apply Hlast. }
    destruct (is_empty (r_url r)); [apply after_assign|apply after_ret]; apply Hmid.
Qed.

(** A legacy narinfo whose URL parses is not purged. *)
Lemma keeping_getNarInfoFromStore h :
  (∀ ni, legacy w0 !! h = Some ni → is_ok (ParseURL (InfoURL ni)) = true) → keeping (getNarInfoFromStore cfg now uploadOnly h).
Proof.
  intros Hleg b w Hw. unfold getNarInfoFromStore. apply wp_bind, wp_query; [done|]. apply wp_bind, wp_lift.
  rewrite (keeps_legacy _ Hw). destruct (legacy w0 !! h) as [ni|] eqn:Hni; simpl; [|done].
  specialize (Hleg ni eq_refl). destruct (ParseURL (InfoURL ni)) as [u|]; [|done]. revert b w Hw.
  assert (∀ v, keeping (transaction (legacy_tx cfg now h ni u) v)) as Htx.
  { intros v. apply keeping_transaction. intros v' d. apply after_legacy_tx. }
  change (keeping (r ← try (statNarInStore u);
    match r with
    | Err _ => mret ni
    | Ok hasNar =>
        hasNar ← or_else hasNar (HasNarInChunks cfg u);
        hasNar ← or_else hasNar (if uploadOnly then narFileBytesStored u else mret false);
        downloading ← hasUpstreamJob (Hash u);
        if negb hasNar && negb downloading then throw ErrNarInfoPurged else
        '(r, js) ← transaction (legacy_tx cfg now h ni u) [];
        _ ← spawn_all js;
        _ ← lift r;
        mret ni
    end)).
  apply preserves_bind; [apply preserves_try, keeping_statNarInStore|]. intros [c|e]; [|apply preserves_ret].
  apply preserves_bind; [unfold or_else; keeping keeping_HasNarInChunks|]. intros c1.
  apply preserves_bind; [unfold or_else, narFileBytesStored; keeping keeping_spawn|]. intros c2.
  apply preserves_bind; [apply preserves_hasUpstreamJob|]. intros c3. case_match; [apply preserves_throw|].
  apply preserves_bind; [apply Htx|]. intros [r js]. keeping keeping_spawn_all.
Qed.

Lemma keeping_GetNarInfo h :
  pulls upstream h ⊆ pulled →
  (∀ ni, legacy w0 !! h = Some ni → is_ok (ParseURL (InfoURL ni)) = true) →
  keeping (GetNarInfo cfg row_order now uploadOnly upstream h).
Proof.
  intros Hp Hleg. unfold GetNarInfo, HasNarInfo. apply preserves_bind; [apply preserves_try, keeping_getNarInfoFromDatabase|].
  intros [ni|e]; [apply keeping_serve|].
  assert (keeping (inStorage ← has (λ w, bool_decide (is_Some (legacy w !! h)));
      if inStorage : bool then
        r ← try (getNarInfoFromStore cfg now uploadOnly h);
        match r with
        | Ok ni => mret ni
        | Err ErrNarInfoPurged => pull_and_read cfg row_order now uploadOnly upstream h
        | Err e => handleStorageFetchError cfg row_order now uploadOnly h e
        end
      else pull_and_read cfg row_order now uploadOnly upstream h)) as Hrest.
  { apply preserves_bind; [apply preserves_has|]. intros []; [|by apply keeping_pull_and_read].
    apply preserves_bind; [by apply preserves_try, keeping_getNarInfoFromStore|].
    intros [ni|e']; [apply preserves_ret|]. destruct e'; first [by apply keeping_pull_and_read|apply keeping_fetch_error]. }
  destruct e; first [exact Hrest|apply preserves_throw].
Qed.
End keeps.

(** ** Lemmas for the properties *)

(** A row with a URL. *)
Definition recorded (h url : string) (d : tables) : Prop :=
  ∃ i r, narinfos d !! i = Some r ∧ r_hash r = h ∧ r_url r = Some url ∧ url ≠ "".

Lemma recorded_kept h url d d' : recorded h url d → kept d d' → recorded h url d'.
Proof.
  intros (i & r & Hi & Hh & Hu & Hne) Hk.
  destruct (kept_rows _ _ Hk i r Hi) as (r' & Hi' & up & t & ->).
  { rewrite Hu. unfold is_empty. apply bool_decide_eq_false. naive_solver. }
  by eexists i, _.
Qed.

Section lemmas.
Context `{GN : GoNix} {SG : Signing} (cfg : Config) (row_order : list string → list string) (now : Z) (uploadOnly : bool).
Context (upstream : string → option NarInfo).

Lemma read_recorded h url d ni u :
  wf d → recorded h url d → read_hash row_order h d = Ok (ni, u) → ParseURL url = Ok u.
Proof.
  intros Hwf (i & r & Hi & Hh & Hu & Hne). rewrite (read_hash_row _ _ _ i r) by done. unfold read_row. case_match; [done|].
  intros (fh & _ & (nh & _ & (sigs & _ & (u' & Hu' & [= _ <-])%bind_Ok_inv)%bind_Ok_inv)%bind_Ok_inv)%bind_Ok_inv.
  rewrite Hu in Hu'. by apply map_err_Ok in Hu'.
Qed.

Lemma read_hash_recorded h d ni u : wf d → read_hash row_order h d = Ok (ni, u) → recorded h (InfoURL ni) d.
Proof.
  clear upstream.
  intros Hwf. unfold read_hash.
  destruct (narinfos_where_cases h d (wf_unique _ Hwf)) as [[-> _]|(i & r & -> & Hi & Hh)]; [done|].
  unfold read_row. destruct (is_empty (r_url r)) eqn:He; [done|].
  intros (fh & _ & (nh & _ & (sigs & _ & (u' & Hu' & [= <- _])%bind_Ok_inv)%bind_Ok_inv)%bind_Ok_inv)%bind_Ok_inv.
  exists i, r. unfold is_empty in He. apply bool_decide_eq_false in He. simpl. destruct (r_url r) as [url|]; simpl; naive_solver.
Qed.

(** A stored narinfo whose NAR nothing knows of and no pull would download, in a cache
    without chunks. *)
Record dead (h : string) (u : URL) (w : world) : Prop := {
  dead_wf : wf (db w);
  dead_row : ∃ url, recorded h url (db w) ∧ ParseURL url = Ok u;
  dead_store : in_store u w = false;
  dead_local : Hash u ∉ upstreamJobs w;
  dead_remote : Hash u ∉ remoteJobs w;
  dead_legacy : legacy w !! h = None;
  dead_pulled : Hash u ∉ pulls upstream h;
}.

Lemma dead_keeps h u w w' : dead h u w → keeps (pulls upstream h) w w' → dead h u w'.
Proof.
  intros [Hwf (url & Hr & Hu) Hs Hl Hm Hleg Hp] Hk. split.
  - apply Hk.
  - exists url. split; [|done]. eapply recorded_kept; [done|apply Hk].
  - unfold in_store, stored_at in *. by rewrite (keeps_narStore _ _ _ Hk).
  - pose proof (keeps_started _ _ _ Hk). set_solver.
  - by rewrite (keeps_remoteJobs _ _ _ Hk).
  - by rewrite (keeps_legacy _ _ _ Hk).
  - done.
Qed.

Lemma world_keeps_refl P w : wf (db w) → keeps P w w.
Proof. intros Hwf. split; [done..| |done]. apply union_subseteq_l. Qed.

Lemma dead_result h u w :
  chunkStore cfg = false → uploadOnly = false → dead h u w → is_ok (db_result cfg row_order uploadOnly h w) = false.
Proof.
  intros Hc Hup [Hwf (url & Hr & Hu) Hs Hl Hm _ _]. unfold db_result.
  destruct (read_hash row_order h (db w)) as [[ni u']|e] eqn:Hread; [|done].
  pose proof (read_recorded _ _ _ _ _ Hwf Hr Hread). assert (u' = u) as -> by congruence.
  unfold backed, in_chunks, isChunkStoreAvailable, isCDCEnabled. rewrite Hs, Hc, Hup, andb_false_r.
  rewrite !bool_decide_false by done. done.
Qed.

Lemma wp_getNarInfoFromDatabase_calm P h (Q : result cache_err NarInfo → world → Prop) w :
  wf (db w) → (∀ w', keeps P w w' → Q (db_result cfg row_order uploadOnly h w) w') →
  wp false (getNarInfoFromDatabase cfg row_order now uploadOnly h) Q w.
Proof.
  intros Hwf HQ. apply wp_getNarInfoFromDatabase; [done|]. intros r d' Hd Hr _. rewrite (Hr eq_refl). apply HQ.
  apply keeps_set_db; [by apply world_keeps_refl|by eapply read_only_wf|by eapply kept_read_only].
Qed.

Lemma keeping_trans {A} P (m : eff state cache_err A) w Q b :
  (∀ w0, preserves (keeps P w0) m) → wf (db w) → (∀ r w', keeps P w w' → Q r w') → wp b m Q w.
Proof. intros Hm Hwf HQ. eapply wp_mono; [apply (Hm w b w), world_keeps_refl, Hwf|]. auto. Qed.

Lemma keeps_trans P w1 w2 w3 : keeps P w1 w2 → keeps P w2 w3 → keeps P w1 w3.
Proof.
  intros [? ? Hl Hn ? ? Hm] [? ? Hl' Hn' ? ? Hm']. split; [done|by etrans|congruence|congruence|by etrans|set_solver|congruence].
Qed.

(** A request for a dead narinfo fails, whatever the upstreams have. *)
Lemma wp_dead h u w :
  chunkStore cfg = false → uploadOnly = false → dead h u w →
  wp false (GetNarInfo cfg row_order now uploadOnly upstream h) (λ r _, is_ok r = false) w.
Proof.
  intros Hc Hup Hd. unfold GetNarInfo. apply wp_bind, wp_try, (wp_getNarInfoFromDatabase_calm (pulls upstream h)); [apply Hd|].
  intros w1 H1. pose proof (dead_keeps _ _ _ _ Hd H1) as Hd1. pose proof (dead_result h u w Hc Hup Hd) as Hres.
  destruct (db_result cfg row_order uploadOnly h w) as [ni|e]; [done|].
  assert (wp false (pull_and_read cfg row_order now uploadOnly upstream h) (λ r _, is_ok r = false) w1) as Hpull.
  { unfold pull_and_read. assert (∀ X Y : eff state cache_err NarInfo, (if uploadOnly then X else Y) = Y) as -> by by rewrite Hup.
    apply wp_bind. apply (keeping_trans (pulls upstream h)); [intros w0; by apply keeping_prePullNarInfo|apply Hd1|]. intros r w2 H2.
    pose proof (dead_keeps _ _ _ _ Hd1 H2) as Hd2. destruct r as [[]|e2]; [|done].
    apply wp_bind, wp_query; [done|].
    apply wp_bind, wp_try, wp_getNarInfoFromDatabase; [apply Hd2|]. intros r d' _ Hr _. rewrite (Hr eq_refl).
    pose proof (dead_result h u w2 Hc Hup Hd2) as Hres2.
    destruct (db_result cfg row_order uploadOnly h w2) as [ni|[]]; [done|by apply wp_throw..]. }
  assert (wp false (inStorage ← HasNarInfo h;
      if inStorage : bool then
        r ← try (getNarInfoFromStore cfg now uploadOnly h);
        match r with
        | Ok ni => mret ni
        | Err ErrNarInfoPurged => pull_and_read cfg row_order now uploadOnly upstream h
        | Err e => handleStorageFetchError cfg row_order now uploadOnly h e
        end
      else pull_and_read cfg row_order now uploadOnly upstream h) (λ r _, is_ok r = false) w1) as Hrest.
  { apply wp_bind, wp_has; [done|]. rewrite (dead_legacy _ _ _ Hd1). exact Hpull. }
  destruct e; first [exact Hrest|by apply wp_throw].
Qed.

(** Requests that only touch the row. *)
Definition touch_only (h : string) (w w' : world) : Prop := ∃ d', read_only now h (db w) d' ∧ w' = set_db d' w.

Lemma touch_only_refl h w : touch_only h w w.
Proof. exists (db w). split; [by left|]. by destruct w. Qed.

Lemma touch_only_trans h w1 w2 w3 : touch_only h w1 w2 → touch_only h w2 w3 → touch_only h w1 w3.
Proof.
  intros (d2 & H2 & ->) (d3 & H3 & ->). exists d3. split; [|done]. simpl in H3.
  destruct H2 as [->| ->], H3 as [->| ->]; [by left|by right|by right|right; by rewrite touched_idemp].
Qed.

Lemma touch_only_result h w w' : wf (db w) → touch_only h w w' →
  wf (db w') ∧ db_result cfg row_order uploadOnly h w' = db_result cfg row_order uploadOnly h w.
Proof.
  intros Hwf (d' & Hd & ->). split; [by eapply read_only_wf|]. destruct (read_only_files _ _ _ _ Hd) as [Hf _].
  unfold db_result, backed, in_chunks, file_row, bytes_stored, nar_files_where. simpl. rewrite Hf.
  by destruct Hd as [->| ->]; rewrite ?read_hash_touched by done.
Qed.

Lemma wp_database_calm h (Q : result cache_err NarInfo → world → Prop) w :
  wf (db w) → (∀ w', touch_only h w w' → Q (db_result cfg row_order uploadOnly h w) w') →
  wp false (getNarInfoFromDatabase cfg row_order now uploadOnly h) Q w.
Proof.
  intros Hwf HQ. apply wp_getNarInfoFromDatabase; [done|]. intros r d' Hd Hr _. rewrite (Hr eq_refl). apply HQ. by exists d'.
Qed.

(** A legacy narinfo whose NAR is gone, in a cache without chunks. *)
Lemma wp_legacy_orphan h ni u w :
  chunkStore cfg = false → uploadOnly = false → wf (db w) →
  read_hash row_order h (db w) = Err (AppError ErrNotFound) → legacy w !! h = Some ni → ParseURL (InfoURL ni) = Ok u →
  in_store u w = false → Hash u ∉ upstreamJobs w →
  wp false (GetNarInfo cfg row_order now uploadOnly upstream h) (λ r w', r = Err ENotFound ∧ touch_only h w w') w.
Proof.
  intros Hc Hup Hwf Hread Hleg Hu Hs Hl.
  assert (db_result cfg row_order uploadOnly h w = Err ENotFound) as Hres by (unfold db_result; by rewrite Hread).
  assert (∀ X Y : eff state cache_err NarInfo, (if uploadOnly then X else Y) = Y) as Hif by by rewrite Hup.
  assert (∀ X Y : eff state cache_err bool, (if uploadOnly then X else Y) = Y) as Hif' by by rewrite Hup.
  unfold GetNarInfo. apply wp_bind, wp_try, wp_database_calm; [done|]. intros w1 H1. rewrite Hres.
  destruct (touch_only_result h w w1 Hwf H1) as [Hwf1 Hres1].
  assert (legacy w1 = legacy w ∧ narStore w1 = narStore w ∧ upstreamJobs w1 = upstreamJobs w) as (El & En & Ej) by by destruct H1 as (d & _ & ->).
  apply wp_bind, wp_has; [done|]. rewrite El, Hleg. apply wp_bind, wp_try.
  unfold getNarInfoFromStore. apply wp_bind, wp_query; [done|]. rewrite El, Hleg. apply wp_bind, wp_lift. cbn [of_option]. rewrite Hu.
  apply wp_bind, wp_try, wp_statNarInStore; [by eapply parsed_with_path|done|].
  assert (in_store u w1 = false) as -> by (unfold in_store, stored_at in *; by rewrite En).
  apply wp_bind, wp_or_else; [done|intros _]. apply wp_HasNarInChunks; [apply Hwf1|done|].
  unfold in_chunks, isChunkStoreAvailable at 1. rewrite Hc. simpl. rewrite Hif'.
  apply wp_bind, wp_ret. apply wp_bind, wp_hasUpstreamJob. rewrite Ej, bool_decide_false by done. simpl. apply wp_throw.
  unfold pull_and_read. rewrite Hif. apply wp_bind. unfold prePullNarInfo. apply wp_bind, wp_query; [done|].
  apply wp_bind, wp_try, wp_database_calm; [done|]. intros w2 H2. rewrite Hres1, Hres.
  destruct (touch_only_result h w1 w2 Hwf1 H2) as [Hwf2 Hres2].
  apply wp_bind, wp_has; [done|]. assert (legacy w2 = legacy w1) as -> by by destruct H2 as (d & _ & ->).
  rewrite El, Hleg. apply wp_ret. apply wp_bind, wp_query; [done|].
  apply wp_bind, wp_try, wp_database_calm; [done|]. intros w3 H3. rewrite Hres2, Hres1, Hres. apply wp_throw. split; [done|].
  exact (touch_only_trans _ _ _ _ H1 (touch_only_trans _ _ _ _ H2 H3)).
Qed.

Lemma after_storeNarInfoInDatabase {V} pg sure h ni (v : V) d :
  wf d →
  after sure (λ r v' d', v' = v ∧ match r with
    | Ok _ => stored_as now h ni "" d d'
    | Err _ => sure = true → ¬ (h ≠ "" ∧ sizes_fit ni = true ∧ edges_fit pg ni)
    end) (storeNarInfoInDatabase pg now h ni) v d.
Proof.
  intros Hwf s Hv Hf. rewrite storeNarInfo_store. revert s Hv Hf. apply after_storeInDatabase; apply Hwf.
Qed.

Lemma stored_as_recorded h ni up d d' : wf d → stored_as now h ni up d d' → ∃ url, recorded h url d'.
Proof.
  clear upstream.
  intros Hwf Hst. destruct (stored_as_row _ _ _ _ _ _ Hwf Hst) as (i & r & Hi & Hh & _ & _ & Hurl & nir & d1 & Hup & Hr).
  assert (InfoURL ni ≠ "") as Hne by (intros Hnil; by rewrite Hnil in Hurl).
  assert (r_url r = r_url nir) as Hru by (rewrite Hr; by case_bool_decide).
  destruct (upserted_inv _ _ _ _ _ _ _ Hup) as [(_ & _ & He)|(r0 & -> & _)].
  - unfold is_empty in He. apply bool_decide_eq_false in He. destruct (r_url nir) as [url|] eqn:Hn; [|naive_solver].
    exists url, i, r. split_and!; [done|done|congruence|naive_solver].
  - exists (InfoURL ni), i, r. split_and!; [done|done| |done]. rewrite Hru. simpl. unfold set_or_clear. by rewrite bool_decide_false.
Qed.

Lemma wp_try_lock b (Q : result cache_err bool → world → Prop) w :
  (b = true → Q (Err ELock) w ∧ Q (Ok false) w) → Q (Ok true) w → wp b try_lock Q w.
Proof.
  intros He Hq s <- Hc. destruct (idle_next b s Hc) as (Hc' & _ & Hn). unfold try_lock. destruct b; [|rewrite (Hn eq_refl)].
  - destruct (He eq_refl). destruct (next s); simpl; by split.
  - by split.
Qed.

(** The columns of a row are a narinfo's fields. *)
Record columns_of (ni : NarInfo) (r : narinfo_row) : Prop := {
  co_store_path : r_store_path r = set_or_clear (StorePath ni);
  co_url : r_url r = set_or_clear (InfoURL ni);
  co_compression : r_compression r = set_or_clear (InfoCompression ni);
  co_file_hash : r_file_hash r = print <$> FileHash ni;
  co_file_size : r_file_size r = if bool_decide (FileSize ni = 0%Z) then None else Some (to_int64 (FileSize ni));
  co_nar_hash : r_nar_hash r = print <$> NarHash ni;
  co_nar_size : r_nar_size r = Some (to_int64 (NarSize ni));
  co_deriver : r_deriver r = set_or_clear (Deriver ni);
  co_system : r_system r = set_or_clear (System ni);
  co_ca : r_ca r = set_or_clear (CA ni);
}.

(** The row of a hash holds the narinfo, with its references and signatures. *)
Definition migrated (h : string) (ni : NarInfo) (d : tables) : Prop :=
  ∃ i r, narinfos d !! i = Some r ∧ r_hash r = h ∧ is_empty (r_url r) = false ∧ columns_of ni r ∧
    (∀ x, x ∈ References ni → (i, x) ∈ references d) ∧ (∀ x, x ∈ print <$> Signatures ni → (i, x) ∈ signatures d).

Lemma migrated_kept h ni d d' : migrated h ni d → kept d d' → migrated h ni d'.
Proof.
  clear upstream. intros (i & r & Hi & Hh & He & Hc & Hr & Hs) Hk. destruct (kept_rows _ _ Hk i r Hi He) as (r' & Hi' & up & t & ->).
  eexists i, _. split; [exact Hi'|]. split; [done|]. split; [done|]. split; [by destruct Hc|].
  split; intros x Hx; [apply (kept_references _ _ Hk); auto|apply (kept_signatures _ _ Hk); auto].
Qed.

Lemma stored_as_migrated h ni d d' :
  wf d → stored_as now h ni "" d d' → ((∃ url, recorded h url d) → migrated h ni d) → migrated h ni d'.
Proof.
  clear upstream.
  intros Hwf Hst Hold. destruct (stored_as_row _ _ _ _ _ _ Hwf Hst) as (i & r & Hi & Hh & Hrefs & Hsigs & Hurl & nir & d1 & Hup & Hr).
  rewrite bool_decide_true in Hr by done. subst r.
  destruct (upserted_inv _ _ _ _ _ _ _ Hup) as [(Hi0 & Hh0 & He)|(r0 & -> & _)].
  - eapply migrated_kept; [apply Hold|by eapply kept_stored_as]. unfold is_empty in He. apply bool_decide_eq_false in He.
    destruct (r_url nir) as [url|] eqn:Hn; [|naive_solver]. exists url, i, nir. split_and!; [done|done|done|naive_solver].
  - assert (InfoURL ni ≠ "") as Hne by (intros Hnil; by rewrite Hnil in Hurl).
    eexists i, _. split; [exact Hi|]. split; [done|]. split.
    { apply bool_decide_eq_false. simpl. unfold set_or_clear. rewrite bool_decide_false by done. naive_solver. }
    split; [by split|]. split; intros x Hx; [apply Hrefs|apply Hsigs]; by right.
Qed.

Lemma recorded_dec h d : (∃ url, recorded h url d) ∨ ¬ ∃ url, recorded h url d.
Proof.
  clear upstream. destruct (decide (map_Exists (λ _ r, r_hash r = h ∧ is_empty (r_url r) = false) (narinfos d))) as [He|Hn].
  - left. apply map_Exists_lookup in He as (i & r & Hi & Hh & He). unfold is_empty in He. apply bool_decide_eq_false in He.
    destruct (r_url r) as [url|] eqn:Hu; [|naive_solver]. exists url, i, r. split_and!; [done..|naive_solver].
  - right. intros (url & i & r & Hi & Hh & Hu & Hne). apply Hn. apply map_Exists_lookup. exists i, r. split; [done|]. split; [done|].
    rewrite Hu. apply bool_decide_eq_false. naive_solver.
Qed.

(** The legacy narinfo goes after its row is there, or if one was there before. *)
Definition handed_over (h : string) (ni : NarInfo) (del : bool) (w w' : world) : Prop :=
  wf (db w') ∧ kept (db w) (db w') ∧ narStore w' = narStore w ∧
  (legacy w' = legacy w ∨ del = true ∧ legacy w' = delete h (legacy w) ∧
     (migrated h ni (db w') ∨ ∃ url, recorded h url (db w))).

Lemma wp_MigrateNarInfo b h ni del w :
  wf (db w) → wp b (MigrateNarInfo cfg now h ni del) (λ r w', handed_over h ni del w w') w.
Proof.
  intros Hwf. assert (handed_over h ni del w w) as Hrefl by (split_and!; [done|reflexivity|by auto..]). unfold MigrateNarInfo. apply wp_bind, wp_try_lock.
  { intros _. split; [done|by apply wp_ret]. }
  set (there d := (∃ url, recorded h url (db w)) ∨ ((∃ url, recorded h url d) → migrated h ni d)).
  assert (wp b (_ ← transaction_ (storeNarInfoInDatabase (postgres cfg) now h ni);
      if del then _ ← try (E' := cache_err) (DeleteLegacy h); mret () else mret ()) (λ r w', handed_over h ni del w w') w) as Hstore.
  { apply wp_bind, wp_transaction_, (wp_transaction b (λ _ d, wf d ∧ kept (db w) d ∧ there d)
      (λ _ d, migrated h ni d ∨ ∃ url, recorded h url (db w))).
    - split; [done|]. split; [reflexivity|]. destruct (recorded_dec h (db w)); [by left|by right].
    - intros [] d (Hd & Hk & Ht). eapply after_mono; [by apply after_storeNarInfoInDatabase|]. intros [[]|e] [] d' [_ Hst]; [|by split].
      split; [done|]. intros _. assert (migrated h ni d' ∨ ∃ url, recorded h url (db w)) as Hm.
      { destruct Ht as [|Ht]; [by right|left]. by eapply stored_as_migrated. }
      split; [|exact Hm]. split; [by eapply stored_as_wf|]. split; [by etrans; [|by eapply kept_stored_as]|].
      destruct Hm; [by right|by left].
    - intros e v' d' (Hd & Hk & _). split_and!; auto.
    - intros v' d' (Hd & Hk & _) Hr. assert (handed_over h ni del w (set_db d' w)) by (split_and!; auto).
      destruct del; [|by apply wp_ret]. apply wp_bind, wp_try, wp_act.
      + intros _. split; apply wp_ret; [done|]. split_and!; [done..|]. by right.
      + apply wp_ret. split_and!; [done..|]. by right. }
  apply wp_bind, wp_try, wp_query; [by intros _|].
  destruct (match Only (narinfos_where h (db w)) with Ok (_, nir) => negb (is_empty (r_url nir)) | Err _ => false end);
    [by apply wp_ret|exact Hstore].
Qed.

(** ** Pulling *)

Lemma no_values_wf : wf_values ∅.
Proof. by apply (parse_query_wf ""). Qed.

(** The text of a valid URL with some compression and query. *)
Lemma url_string_parse u ct q url :
  hash_match (Hash u) = true → (∃ e, CompressionTypeFromExtension e = Ok ct) → wf_values q →
  url_string (mkURL (Hash u) ct q false "") = Ok url → ParseURL url = Ok (mkURL (Hash u) ct q false "").
Proof.
  intros Hh [e He] Hq Hs. destruct (URLString_parse _ _ _ _ Hh He Hq) as (s & Hs' & Hp).
  unfold url_string in Hs. rewrite Hs' in Hs. by injection Hs as <-.
Qed.

Lemma normalize_pulled_url u ni fb ni' :
  ParseUpstreamURL (InfoURL ni) fb = Ok u → normalize_pulled cfg u ni = Ok ni' →
  ∃ u', ParseURL (InfoURL ni') = Ok u' ∧ Hash u' = Hash u.
Proof.
  intros Hu. destruct (ParseUpstreamURL_inv _ _ _ Hu) as (Hh & Hq & _). pose proof (ParseUpstreamURL_extension _ _ _ Hu) as He.
  assert (∀ ct q (f : string → NarInfo), (∃ e, CompressionTypeFromExtension e = Ok ct) → wf_values q →
    (∀ url, InfoURL (f url) = url) → (url ← url_string (mkURL (Hash u) ct q false ""); Ok (f url)) = Ok ni' →
    ∃ u', ParseURL (InfoURL ni') = Ok u' ∧ Hash u' = Hash u) as Hstr.
  { intros ct q f Hct Hwq Hf (url & Hurl & [= <-])%bind_Ok_inv. rewrite Hf. eexists. split; [by eapply url_string_parse|done]. }
  assert (wf_values (if IsOpaque u then ∅ else Query u)) as Hwq by (case_match; [apply no_values_wf|done]).
  assert (∃ e, CompressionTypeFromExtension e = Ok CompressionTypeNone) as Hnone by by exists "".
  unfold normalize_pulled. case_bool_decide; [by apply Hstr|]. destruct (IsOpaque u) eqn:Ho.
  { by apply Hstr; [|apply no_values_wf|]. }
  case_match; [by apply Hstr|]. intros [= <-]. exists u. split; [by eapply ParseUpstreamURL_plain|done].
Qed.

Lemma signNarInfo_url ni ni' : signNarInfo cfg ni = Ok ni' → InfoURL ni' = InfoURL ni.
Proof. unfold signNarInfo. case_match; [by intros [= <-]|]. case_match; [|done]. by intros [= <-]. Qed.

Lemma narURLForBG_path u s fb : ParseUpstreamURL s fb = Ok u → with_path (narURLForBG u).
Proof.
  intros Hu. destruct (ParseUpstreamURL_inv _ _ _ Hu) as (Hh & _). destruct (ParseUpstreamURL_extension _ _ _ Hu) as [e He].
  unfold narURLForBG. destruct (IsOpaque u) eqn:Ho; [|by eapply parsed_with_path, ParseUpstreamURL_plain].
  destruct (URLString_parse _ _ _ _ Hh He no_values_wf) as (t & _ & Ht). by eapply parsed_with_path.
Qed.

(** A narinfo an upstream has, as it is to be stored under a hash. *)
Record pullable (h : string) (ni : NarInfo) (u : URL) (ni' : NarInfo) : Prop := {
  pull_upstream : upstream h = Some ni;
  pull_url : ParseUpstreamURL (InfoURL ni) (narInfoStorageKey ni) = Ok u;
  pull_stored : (n ← normalize_pulled cfg u ni; signNarInfo cfg n) = Ok ni';
  pull_hash : h ≠ "";
  pull_sizes : sizes_fit ni' = true;
  pull_texts : "" ∉ References ni' ∧ "" ∉ print <$> Signatures ni';
  pull_NoDup : postgres cfg = true → NoDup (References ni') ∧ NoDup (print <$> Signatures ni');
}.

Lemma pullable_url h ni u ni' : pullable h ni u ni' → ∃ u', ParseURL (InfoURL ni') = Ok u' ∧ Hash u' = Hash u.
Proof.
  intros [_ Hu (n & Hn & Hs)%bind_Ok_inv _ _ _ _]. rewrite (signNarInfo_url _ _ Hs). by eapply normalize_pulled_url.
Qed.

Lemma pullable_fits h ni u ni' : pullable h ni u ni' → edges_fit (postgres cfg) ni'.
Proof.
  intros Hp. destruct (pullable_url _ _ _ _ Hp) as (u' & Hu' & Hh). destruct (pull_texts _ _ _ _ Hp).
  split_and!; [done|done|by apply Hp|]. rewrite Hu'. simpl. rewrite Normalize_ok, Hh.
  by apply (ParseUpstreamURL_inv _ _ _ (pull_url _ _ _ _ Hp)).
Qed.

(** Nothing is known of a narinfo, and its NAR is not here. *)
Record unknown (h : string) (u : URL) (w : world) : Prop := {
  unknown_wf : wf (db w);
  unknown_row : vacant h (db w);
  unknown_legacy : legacy w !! h = None;
  unknown_remote : Hash u ∉ remoteJobs w;
  unknown_store : in_store (narURLForBG u) w = false;
  unknown_file : file_row cfg (narURLForBG u) (db w) = None;
}.

Lemma vacant_result h w : wf (db w) → vacant h (db w) → db_result cfg row_order uploadOnly h w = Err ENotFound.
Proof.
  intros Hwf Hv. unfold db_result, read_hash.
  destruct (narinfos_where_cases h (db w) (wf_unique _ Hwf)) as [[-> _]|(i & r & -> & Hi & Hh)]; [done|].
  unfold read_row. by destruct (Hv i r Hi Hh) as [-> _].
Qed.

Lemma unknown_touch h u w w' : unknown h u w → touch_only h w w' → unknown h u w'.
Proof.
  intros [Hwf Hv Hl Hm Hs Hf] (d & Hd & ->). destruct (read_only_files _ _ _ _ Hd) as [Hfiles _].
  split; simpl; try done.
  - by eapply read_only_wf.
  - destruct Hd as [->| ->]; [done|]. intros i r Hi Hh. simpl in Hi. rewrite lookup_fmap in Hi.
    destruct (narinfos (db w) !! i) as [r0|] eqn:Hr0; [|done]. simpl in Hi. injection Hi as <-.
    destruct (Hv i r0 Hr0) as [He Hno]; [by case_bool_decide|]. split; [by case_bool_decide|done].
  - by rewrite <- Hf; unfold file_row, nar_files_where; rewrite Hfiles.
Qed.
Lemma narURLForBG_hash u : Hash (narURLForBG u) = Hash u.
Proof. unfold narURLForBG. by case_match. Qed.

(** The download of a NAR that is not here starts, or is under way. *)
Lemma wp_prePullNar_calm h u o ni s fb (Q : result cache_err download → world → Prop) w :
  ParseUpstreamURL s fb = Ok u → unknown h u w →
  (∀ d w', db w' = db w → Hash u ∈ upstreamJobs w' → Q (Ok d) w') →
  wp false (prePullNar cfg (narURLForBG u) o ni) Q w.
Proof.
  intros Hu [Hwf _ _ Hm Hs Hf] HQ. unfold prePullNar. rewrite narURLForBG_hash.
  apply wp_bind, wp_hasUpstreamJob. case_bool_decide as Hrun; [intros s' <- Hc; by split; [|apply HQ]|].
  apply wp_bind, wp_has; [done|]. rewrite bool_decide_true by done. simpl.
  apply wp_bind, wp_ret. simpl. apply wp_bind, wp_try. unfold narServability.
  apply wp_bind, wp_HasNarInStore; [by eapply narURLForBG_path|done|]. rewrite Hs.
  assert (wp false (start_download (Hash u) (JPullNar (narURLForBG u) o ni)) Q w) as Hstart.
  { apply wp_start_download; [done|]. apply HQ; [done|]. simpl. set_solver. }
  destruct (isChunkStoreAvailable cfg); [|by apply wp_ret].
  apply wp_bind, wp_nar_file_row; [apply Hwf|done|]. rewrite Hf. by apply wp_ret.
Qed.

(** A pull stores the narinfo and starts the NAR's download. *)
Lemma wp_pullNarInfo_calm h ni u ni' (Q : result cache_err () → world → Prop) w :
  pullable h ni u ni' → unknown h u w →
  (∀ w' d, vacant h d → wf d → stored_as now h ni' (OpaqueUpstreamRef u) d (db w') → Hash u ∈ upstreamJobs w' → Q (Ok ()) w') →
  wp false (pullNarInfo cfg row_order now uploadOnly upstream h) Q w.
Proof.
  intros Hp Hk HQ. unfold pullNarInfo.
  apply wp_bind, wp_query; [done|]. apply wp_bind, wp_try, wp_query; [done|]. apply wp_bind, wp_query; [done|].
  apply wp_bind, wp_try, wp_database_calm; [apply Hk|]. intros w1 H1. rewrite vacant_result by apply Hk.
  pose proof (unknown_touch _ _ _ _ Hk H1) as Hk1.
  apply wp_bind. unfold getNarInfoFromUpstream. apply wp_bind, wp_query; [done|]. rewrite (pull_upstream _ _ _ _ Hp).
  apply wp_lift. apply wp_bind, wp_lift. simpl. rewrite (pull_url _ _ _ _ Hp). simpl.
  apply wp_bind. eapply wp_prePullNar_calm; [apply Hp|exact Hk1|]. intros dl w2 Hd Hj.
  pose proof (pullable_fits _ _ _ _ Hp) as Hfit.
  pose proof (pull_stored _ _ _ _ Hp) as (n & Hn & Hs)%bind_Ok_inv.
  apply wp_bind, wp_lift. rewrite Hn. simpl. rewrite Hs.
  apply wp_transaction_, wp_transaction_calm. rewrite Hd.
  eapply after_mono; [apply after_storeInDatabase; apply Hk1|]. intros [[]|e] [] d' [_ Hst].
  - apply (HQ _ (db w1)); [apply Hk1|apply Hk1|exact Hst|exact Hj].
  - destruct (Hst eq_refl). split_and!; [apply Hp|apply Hp|done].
Qed.

Lemma wp_GetNarInfo_pull `{!GoNixLaws GN} h ni u ni' w :
  (∀ l, row_order l ≡ₚ l) → uploadOnly = false → is_uint64 (FileSize ni') → is_uint64 (NarSize ni') →
  pullable h ni u ni' → unknown h u w →
  wp false (GetNarInfo cfg row_order now uploadOnly upstream h)
    (λ r w', ∃ ni'', r = Ok ni'' ∧ same_narinfo ni' ni'' ∧ wf (db w') ∧ recorded h (InfoURL ni') (db w') ∧
       Hash u ∈ upstreamJobs w') w.
Proof.
  intros Hperm Hup Hfs Hns Hp Hk. unfold GetNarInfo.
  apply wp_bind, wp_try, wp_database_calm; [apply Hk|]. intros w1 H1. rewrite vacant_result by apply Hk.
  pose proof (unknown_touch _ _ _ _ Hk H1) as Hk1.
  apply wp_bind, wp_has; [done|]. rewrite (unknown_legacy _ _ _ Hk1). simpl. unfold pull_and_read.
  assert (∀ X Y : eff state cache_err NarInfo, (if uploadOnly then X else Y) = Y) as -> by by rewrite Hup.
  apply wp_bind. unfold prePullNarInfo. apply wp_bind, wp_query; [done|].
  apply wp_bind, wp_try, wp_database_calm; [apply Hk1|]. intros w2 H2. rewrite vacant_result by apply Hk1.
  pose proof (unknown_touch _ _ _ _ Hk1 H2) as Hk2.
  apply wp_bind, wp_has; [done|]. rewrite (unknown_legacy _ _ _ Hk2). simpl.
  eapply wp_pullNarInfo_calm; [done|exact Hk2|]. intros w3 d Hv Hwf Hst Hj.
  pose proof (stored_as_wf _ _ _ _ _ _ Hwf Hst) as Hwf3.
  destruct (stored_as_reads row_order _ _ _ _ _ _ Hperm Hwf Hv Hfs Hns Hst) as (ni'' & u' & Hread & Hu' & Hsame).
  assert (Hash u' = Hash u) as Hhash.
  { destruct (pullable_url _ _ _ _ Hp) as (u2 & Hu2 & Hh2). congruence. }
  apply wp_bind, wp_query; [done|]. apply wp_bind, wp_try, (wp_getNarInfoFromDatabase_calm ∅); [done|]. intros w4 H4.
  assert (db_result cfg row_order uploadOnly h w3 = Ok ni'') as ->.
  { unfold db_result, backed. rewrite Hread, Hhash, (bool_decide_true (Hash u ∈ upstreamJobs w3)) by done.
    by rewrite !orb_true_r. }
  apply wp_ret. exists ni''. split_and!; [done|done|apply H4| |].
  - pose proof (read_hash_recorded _ _ _ _ Hwf3 Hread) as Hrec. rewrite (same_URL _ _ Hsame) in Hrec.
    eapply recorded_kept; [exact Hrec|apply H4].
  - pose proof (keeps_running _ _ _ H4). set_solver.
Qed.
(** The row of the NAR files that a narinfo's own row is linked to. *)
Lemma linked_file_row h d ni u :
  wf d → read_hash row_order h d = Ok (ni, u) → Normalize u = Ok u → is_Some (file_row cfg u d).
Proof.
  clear upstream.
  intros Hwf Hread Hn. pose proof (read_hash_recorded _ _ _ _ Hwf Hread) as (i & r & Hi & Hh & Hr & Hne).
  destruct (wf_linked _ Hwf i r _ Hi Hr Hne) as (f & nf & v & _ & Hf & Hv & Hk).
  rewrite (read_hash_url _ _ _ _ _ Hread) in Hv. simpl in Hv. rewrite Hn in Hv. injection Hv as <-.
  unfold file_row.
  destruct (nar_files_where_cases (Hash u) (Compression u) (encode (Query u)) d (wf_unique _ Hwf)) as [[_ Hno]|(g & ng & Hw & _)].
  { by destruct (Hno f nf Hf). }
  destruct (isCDCEnabled cfg); simpl; rewrite Hw; [|by eexists].
  by destruct ((nar_files_where (Hash u) CompressionTypeNone (encode (Query u)) d).*2); eexists.
Qed.
End lemmas.

(** ** Uploads *)

Section uploads.
Context `{GN : GoNix}.

(** The narinfos recorded stay recorded, and the stores are as they were. *)
Record advances (w0 w : world) : Prop := {
  advances_wf : wf (db w);
  advances_recorded h url : recorded h url (db w0) → recorded h url (db w);
  advances_legacy : legacy w = legacy w0;
  advances_narStore : narStore w = narStore w0;
}.

Lemma preserves_repair w0 h f :
  (∀ r, r_hash (f r) = r_hash r ∧ r_url (f r) = r_url r) → preserves (advances w0) (transaction_ (update_where h f)).
Proof.
  intros Hf. apply preserves_bind; [|intros [r v]; apply preserves_lift]. intros b w [Hwf Hr Hl Hn].
  apply (wp_transaction b (λ _ d, wf d ∧ ∀ h url, recorded h url (db w0) → recorded h url d) (λ _ _, True)); [done| |by intros ? ? ? []|by intros ? ? []].
  intros [] d [Hd Hrd]. apply after_update_where; [done|done|done|]. intros d' Hd'. split; [done|]. intros _. split; [|done].
  split; [done|]. intros h' url (i & r & Hi & Hh & Hu & Hne)%Hrd.
  exists i, (if bool_decide (r_hash r = h) then f r else r). unfold d'. simpl. rewrite lookup_fmap, Hi. simpl.
  destruct (Hf r) as [Hfh Hfu]. case_bool_decide; split_and!; congruence.
Qed.

Context {SG : Signing} (cfg : Config) (now : Z) (digest_of : string → string).

Ltac repairing L := preserving ltac:(first [apply L | by apply preserves_repair]).

Lemma preserves_StatNar I u : preserves I (StatNar u).
Proof. unfold StatNar. preserving fail. Qed.

Lemma preserves_nar_file_row I u : preserves I (nar_file_row cfg u).
Proof. unfold nar_file_row, getNarFileFromDB. preserving fail. Qed.

Lemma preserves_CheckAndFixNarInfo w0 h : preserves (advances w0) (CheckAndFixNarInfo cfg digest_of h).
Proof.
  unfold CheckAndFixNarInfo, checkAndFixNarInfoNoCompression, HasNarInStore, statNarInStore, stat_candidates, wholeFileServeCompressions,
    HasNarInChunks, getNarActualSize, computeStoredNarFileHash, clearFileSize, clearFileHash, fixNarInfoFileSize, fixNarInfoFileHash.
  preserving ltac:(first [apply preserves_StatNar | apply preserves_nar_file_row | by apply preserves_repair]).
Qed.

(** After an upload: what is recorded stays, and the legacy narinfo goes only once its
    hash has a row. *)
Definition uploaded (h : string) (w : world) (r : result cache_err ()) (w' : world) : Prop :=
  wf (db w') ∧ narStore w' = narStore w ∧ (∀ h' url, recorded h' url (db w) → recorded h' url (db w')) ∧
  (legacy w' = legacy w ∨ legacy w' = delete h (legacy w) ∧ ∃ url, recorded h url (db w')) ∧
  (r = Ok () → ∃ url, recorded h url (db w')).

Lemma wp_PutNarInfo b h parsed w :
  wf (db w) → wp b (PutNarInfo cfg now digest_of h parsed) (uploaded h w) w.
Proof.
  intros Hwf. assert (∀ e, uploaded h w (Err e) w) as Herr by (intros e; split_and!; auto; done).
  unfold PutNarInfo. apply wp_bind, wp_query; [by intros _|]. apply wp_bind, wp_lift.
  destruct parsed as [ni|]; [|apply Herr]. simpl. apply wp_bind, wp_lift. destruct (verifyNarInfoTrusted cfg ni) as [[]|e]; [|apply Herr].
  apply wp_bind, wp_lift. destruct (normalize_upload cfg ni) as [n1|e]; [|apply Herr].
  apply wp_bind, wp_lift. destruct (signNarInfo cfg n1) as [n2|e]; [|apply Herr].
  apply wp_bind, wp_transaction_, (wp_transaction b (λ _ d, wf d ∧ kept (db w) d) (λ _ d, ∃ url, recorded h url d)); [done| | |].
  - intros [] d [Hd Hk]. eapply after_mono; [apply after_storeInDatabase; apply Hd|]. intros [[]|e] [] d' [_ Hst].
    + split; [done|]. intros _. split; [split; [by eapply stored_as_wf|by etrans; [|by eapply kept_stored_as]]|].
      by eapply stored_as_recorded.
    + by split.
  - intros e v' d' [Hd Hk]. split_and!; [done|done| |by left|done]. intros h' url Hr. by eapply recorded_kept.
  - intros v' d' [Hd Hk] [url Hr]. set (w1 := set_db d' w).
    assert (∀ h' url, recorded h' url (db w) → recorded h' url d') as Hkeep by (intros h' url' Hr'; by eapply recorded_kept).
    assert (∀ w2, wf (db w2) → (∀ h' url, recorded h' url d' → recorded h' url (db w2)) → narStore w2 = narStore w →
      (legacy w2 = legacy w ∨ legacy w2 = delete h (legacy w)) →
      wp b (_ ← try (E' := cache_err) (CheckAndFixNarInfo cfg digest_of h); mret ()) (uploaded h w) w2) as Hrest.
    { intros w2 H2 Hr2 Hn2 Hl2. apply wp_bind, wp_try.
      eapply wp_mono; [by apply (preserves_CheckAndFixNarInfo w2)|]. intros r w3 [H3 Hr3 Hl3 Hn3]. apply wp_ret.
      assert (∃ url, recorded h url (db w3)) by eauto. split_and!; [done|congruence|eauto| |done].
      rewrite Hl3. destruct Hl2; auto. }
    apply wp_bind, wp_has.
    + intros _. apply wp_bind, wp_ret. apply Hrest; auto.
    + case_bool_decide; simpl.
      * do 2 apply wp_bind. apply wp_try, wp_act; [intros _; split|]; apply wp_ret, Hrest; auto.
      * apply wp_bind, wp_ret. apply Hrest; auto.
Qed.

(** An upload that is not trusted goes no further. *)
Lemma wp_PutNarInfo_untrusted b h parsed w :
  (∀ ni, parsed = Some ni → is_ok (verifyNarInfoTrusted cfg ni) = false) →
  wp b (PutNarInfo cfg now digest_of h parsed) (λ r w', is_ok r = false ∧ w' = w) w.
Proof.
  intros Hbad. unfold PutNarInfo. apply wp_bind, wp_query; [done|]. apply wp_bind, wp_lift.
  destruct parsed as [ni|]; [|done]. specialize (Hbad ni eq_refl). simpl. apply wp_bind, wp_lift.
  by destruct (verifyNarInfoTrusted cfg ni).
Qed.
End uploads.

(** ** Purging *)

Section purging.
Context `{GN : GoNix}.

(** The NAR file only one narinfo links, whose hash is [h]; its URL. *)
Definition orphan_of (h : string) (d : tables) (f : Z) (nf : nar_file) : Prop :=
  nar_files d !! f = Some nf ∧
  ∃ i r, narinfos d !! i = Some r ∧ r_hash r = h ∧ (i, f) ∈ links d ∧ ∀ j, (j, f) ∈ links d → j = i.

Definition row_url (nf : nar_file) (u : URL) : Prop :=
  ∃ q, parse_query (nf_query nf) = Ok q ∧ u = mkURL (nf_hash nf) (nf_compression nf) q false "".

Definition collected (d : tables) (ls : list Z) (v v' : list URL) : Prop :=
  ∀ u, u ∈ v' → u ∈ v ∨ ∃ f nf, f ∈ ls ∧ nar_files d !! f = Some nf ∧ f ∉ (links d).*2 ∧ row_url nf u.

Definition swept (d : tables) (ls : list Z) (d' : tables) : Prop :=
  narinfos d' = narinfos d ∧ links d' = links d ∧ nar_files d' ⊆ nar_files d ∧
  ∀ f, f ∈ ls → f ∉ (links d).*2 → nar_files d' !! f = None.

Lemma collected_cons d f ls v v' : collected d ls v v' → collected d (f :: ls) v v'.
Proof. intros Hv u [?|(g & nf & ? & ?)]%Hv; [by left|]. right. exists g, nf. split; [by right|done]. Qed.

Lemma swept_skip d f ls d' :
  nar_files d !! f = None ∨ f ∈ (links d).*2 → swept d ls d' → swept d (f :: ls) d'.
Proof.
  intros Hf (? & ? & Hsub & Hg). split_and!; [done..|]. intros g [->|Hin]%elem_of_cons Hl; [|by apply Hg].
  destruct Hf as [Hf|Hf]; [|done]. destruct (nar_files d' !! f) as [nf|] eqn:Hd'; [|done].
  by rewrite (lookup_weaken _ _ _ _ Hd' Hsub) in Hf.
Qed.

Lemma delete_nar_file_links f d : f ∉ (links d).*2 → links (delete_nar_file f d) = links d.
Proof.
  simpl. intros Hf. induction (links d) as [|[i g] l IH]; [done|]. simpl in Hf. apply not_elem_of_cons in Hf as [? ?].
  rewrite filter_cons_True by done. by rewrite IH.
Qed.

(** The loop deletes the files among those given that nobody links, and collects
    their URLs. *)
Lemma after_purge_links_spec ls v d :
  after false (λ r v' d', collected d ls v v' ∧ (is_ok r = true → swept d ls d')) (purge_links ls) v d.
Proof.
  revert v d. induction ls as [|f ls IH]; intros v d; simpl.
  { apply after_ret. split; [by left|]. intros _. split_and!; [done..|]. by intros f ?%elem_of_nil. }
  assert (nar_files d !! f = None ∨ f ∈ (links d).*2 →
    after false (λ r v' d', collected d (f :: ls) v v' ∧ (is_ok r = true → swept d (f :: ls) d')) (purge_links ls) v d) as Hskip.
  { intros Hf. eapply after_mono; [apply IH|]. intros r v' d' [Hv Hd].
    split; [by apply collected_cons|]. intros Hr. by apply swept_skip, Hd. }
  assert (∀ e d', after false (λ r v' d', collected d (f :: ls) v v' ∧ (is_ok r = true → swept d (f :: ls) d'))
    (throw (A := ()) e) v d') as Herr.
  { intros e d'. apply after_throw. split; [by left|done]. }
  apply after_bind, after_query; [intros _ e; split; [by left|done]|].
  destruct (nar_files d !! f) as [nf|] eqn:Hf; [|by apply Hskip; left].
  apply after_bind, after_query; [intros _ e; split; [by left|done]|].
  case_bool_decide as Hl; [by apply Hskip; right|].
  apply after_bind, after_exec; [intros _ e; split; [by left|done]|].
  destruct (parse_query (nf_query nf)) as [q|] eqn:Hq; [|apply Herr].
  apply after_bind, after_assign. eapply after_mono; [apply IH|]. intros r v' d' [Hv Hd].
  unfold collected, swept in Hv, Hd. rewrite delete_nar_file_links in Hv, Hd by done. split.
  - intros u [Hu|(g & ng & Hg & Hng & Hlg & Hug)]%Hv.
    + apply elem_of_app in Hu as [?|Hu%list_elem_of_singleton]; [by left|]. subst u. right. exists f, nf.
      split_and!; [by left|done|done|by exists q].
    + right. exists g, ng. simpl in Hng. apply lookup_delete_Some in Hng as [_ ?]. split; [by right|done].
  - intros Hr. destruct (Hd Hr) as (Hn & Hls & Hsub & Hg). simpl in Hsub.
    split_and!; [done|done|by etrans; [exact Hsub|apply delete_subseteq]|].
    intros g [->|Hin]%elem_of_cons Hlg; [|by apply Hg].
    destruct (nar_files d' !! f) as [x|] eqn:Hx; [|done].
    pose proof (lookup_weaken _ _ _ _ Hx Hsub) as Hbad. by rewrite lookup_delete_eq in Hbad.
Qed.

(** What an attempt at the purge of [h], in tables [d0], leaves behind. *)
Definition orphans (h : string) (d0 : tables) (us : list URL) : Prop :=
  ∀ u, u ∈ us → ∃ f nf, orphan_of h d0 f nf ∧ row_url nf u.

Definition purged (h : string) (d0 d : tables) : Prop :=
  (∀ i r, narinfos d !! i = Some r → r_hash r ≠ h) ∧ ∀ f nf, orphan_of h d0 f nf → nar_files d !! f = None.

Lemma after_purge_spec h d0 v d :
  wf d → orphans h d0 v → d = d0 ∨ purged h d0 d →
  after false (λ r v' d', orphans h d0 v' ∧ (is_ok r = true → purged h d0 d')) (purge_tx h) v d.
Proof.
  intros Hwf Hv Hd. assert (∀ r, orphans h d0 v ∧ (is_ok (Err (A := ()) r : result dberr ()) = true → purged h d0 d)) as Herr by (by split).
  unfold purge_tx. apply after_bind, after_try, after_narInfoByHash; [apply Hwf|intros _ f; by apply after_throw| |].
  - intros Hno. apply after_ret. split; [done|]. intros _. destruct Hd as [->|]; [|done]. split; [done|].
    intros f nf (_ & i & r & Hi & Hh & _). by destruct (Hno i r Hi).
  - intros i r Hi Hh. destruct Hd as [->|[Hno _]]; [|by destruct (Hno i r Hi)].
    apply after_bind, after_query; [by intros _ e|]. apply after_bind, after_exec; [by intros _ e|].
    set (d1 := delete_where h d0).
    assert (∀ f, f ∉ (links d1).*2 → ∀ j, (j, f) ∈ links d0 → j = i) as Hlinks.
    { intros f Hf j Hj. destruct (decide (j = i)) as [|Hne]; [done|]. exfalso. apply Hf, list_elem_of_fmap. exists (j, f). split; [done|].
      unfold d1, delete_where. simpl. apply list_elem_of_filter. split; [|done]. simpl.
      destruct (narinfos d0 !! j) as [x|] eqn:Hx; [|done]. apply bool_decide_eq_false. intros Hxh. apply Hne.
      eapply (unique_hash _ (wf_unique _ Hwf)); [done..|congruence]. }
    eapply after_mono; [apply after_purge_links_spec|]. intros r' v' d' [Hc Hs]. split.
    + intros u [Hu|(f & nf & Hf & Hnf & Hl & Hu)]%Hc; [by apply Hv|]. exists f, nf. split; [|done]. split; [done|].
      apply list_elem_of_fmap in Hf as ([j g] & -> & [Hj Hg]%list_elem_of_filter). simpl in *. subst j. exists i, r. by split_and!; try apply Hlinks.
    + intros Hr. destruct (Hs Hr) as (Hn & _ & _ & Hg). split.
      * rewrite Hn. simpl. intros j x [_ Hx]%map_lookup_filter_Some. done.
      * intros f nf (Hf & j & x & Hj & Hx & Hjf & Hall).
        assert (j = i) as -> by (eapply (unique_hash _ (wf_unique _ Hwf)); [done..|congruence]).
        apply Hg.
        -- apply list_elem_of_fmap. exists (i, f). split; [done|]. by apply list_elem_of_filter.
        -- intros ([j g] & Heq & [Hgone Hin]%list_elem_of_filter)%list_elem_of_fmap. simpl in *. subst g.
           rewrite (Hall j Hin), Hi, bool_decide_true in Hgone by done. done.
Qed.

(** A path of the NARs whose files the purge of [h] deletes. *)
Definition reclaimed (h : string) (w : world) (p : string) (w' : world) : Prop :=
  ∃ f nf u c, orphan_of h (db w) f nf ∧ nar_files (db w') !! f = None ∧ row_url nf u ∧ nar_path (with_compression u c) = Ok p.

Record purging (h : string) (w w' : world) : Prop := {
  purging_files f nf : orphan_of h (db w) f nf → nar_files (db w') !! f = None;
  purging_paths p : p ∈ dom (narStore w) → p ∉ dom (narStore w') → reclaimed h w p w';
}.

Lemma purging_DeleteNar h w u c :
  (∃ f nf, orphan_of h (db w) f nf ∧ row_url nf u) → preserves (purging h w) (DeleteNar (with_compression u c)).
Proof.
  intros (f & nf & Hf & Hu). unfold DeleteNar. destruct (nar_path (with_compression u c)) as [p|] eqn:Hp; [|apply preserves_throw].
  apply preserves_act. intros w' [Hfiles Hpaths]. split; [done|]. intros p' Hin Hout. simpl in Hout.
  destruct (decide (p' = p)) as [->|Hne]; [|apply Hpaths; set_solver].
  exists f, nf, u, c. split_and!; [done|by apply (Hfiles f nf)|done|done].
Qed.

Lemma purging_deleteNarBytes h w u :
  (∃ f nf, orphan_of h (db w) f nf ∧ row_url nf u) → preserves (purging h w) (deleteNarBytes u).
Proof.
  intros Hu. pose proof (purging_DeleteNar h w u) as Hc. unfold deleteNarBytes. apply preserves_bind.
  - case_bool_decide; [|apply preserves_ret]. unfold wholeFileServeCompressions, delete_candidates.
    preserving ltac:(by apply Hc).
  - intros []. replace u with (with_compression u (Compression u)) by by destruct u. by apply Hc.
Qed.

Lemma purging_delete_orphans h w us : orphans h (db w) us → preserves (purging h w) (delete_orphans us).
Proof.
  induction us as [|u us IH]; intros Hus; simpl; [apply preserves_ret|].
  apply preserves_bind; [apply purging_deleteNarBytes, Hus; by left|]. intros []. apply IH. intros v Hv. apply Hus. by right.
Qed.

Lemma purging_deleteNarInfoFromStore h w k : preserves (purging h w) (deleteNarInfoFromStore k).
Proof.
  unfold deleteNarInfoFromStore, HasNarInfo, DeleteLegacy.
  preserving ltac:(apply preserves_act; intros w' [Hf Hp]; by split).
Qed.

Lemma wp_purgeNarInfo b h w :
  wf (db w) → wp b (purgeNarInfo h) (λ _ w', ∀ p, p ∈ dom (narStore w) → p ∉ dom (narStore w') → reclaimed h w p w') w.
Proof.
  intros Hwf. unfold purgeNarInfo. apply wp_bind.
  apply (wp_transaction b (λ v d, wf d ∧ orphans h (db w) v ∧ (d = db w ∨ purged h (db w) d)) (λ _ d, purged h (db w) d)).
  - split_and!; [done|by intros u ?%elem_of_nil|by left].
  - intros v d (Hd & Hv & Hor). eapply after_mono; [apply after_and; [by apply (after_purge false)|by apply after_purge_spec]|].
    intros r v' d' (Hwf' & Hv' & Hp). split; [done|]. intros Hr. split; [split_and!; auto|auto].
  - intros e v d _. apply wp_bind, wp_lift. done.
  - intros v d (Hd & Hv & _) [Hno Hp]. apply wp_bind, wp_lift. set (w1 := set_db d w).
    assert (purging h w w1) as H1 by (split; [by apply Hp|done]).
    apply wp_bind, wp_try. eapply wp_mono; [by apply (purging_deleteNarInfoFromStore h w)|]. intros r w2 H2.
    destruct r as [[]|[]]; first [apply wp_throw; exact (purging_paths _ _ _ H2) |
      eapply wp_mono; [exact (purging_delete_orphans h w v Hv b w2 H2)|]; intros ? w3 H3; exact (purging_paths _ _ _ H3)].
Qed.
End purging.

(** ** Properties *)

Section properties.
Context `{GN : GoNix} {SG : Signing} (cfg : Config) (row_order : list string → list string) (now : Z).
Implicit Types (upstream : string → option NarInfo) (s : state).

(** C19. A narinfo nothing is known of, asked for in a calm world and known upstream, is
    pulled through: the request answers with the narinfo as normalized and signed, the
    same but for the order and repetition of its lists, the tables hold it and stay
    well-formed, and the download of its NAR is under way under the hash its URL has
    here, hash-named or opaque. *)
Theorem get_pulls_through `{!GoNixLaws GN} upstream h ni u ni' s :
  (∀ l, row_order l ≡ₚ l) → is_uint64 (FileSize ni') → is_uint64 (NarSize ni') →
  pullable cfg upstream h ni u ni' → unknown cfg h u (st s) → script s = [] →
  let '(r, s') := GetNarInfo cfg row_order now false upstream h s in
  ∃ ni'', r = Ok ni'' ∧ same_narinfo ni' ni'' ∧ wf (db (st s')) ∧ recorded h (InfoURL ni') (db (st s')) ∧
    Hash u ∈ upstreamJobs (st s').
Proof.
  intros Hperm Hfs Hns Hp Hk Hs.
  destruct (wp_GetNarInfo_pull cfg row_order now false upstream h ni u ni' (st s) Hperm eq_refl Hfs Hns Hp Hk s eq_refl Hs) as [_ Hq].
  by destruct (GetNarInfo _ _ _ _ _ _ s).
Qed.

(** C21. Whatever fails while a narinfo is asked for (stores, locks, statements, commits,
    before or after their effect), nothing that is stored is lost, as long as the legacy
    narinfo of the hash, if there is one, has a URL that parses: rows with their columns,
    references, signatures, links and NAR files stay, so do the stores and the running
    downloads, and well-formed tables stay so.  A missing NAR deletes nothing.  A legacy
    narinfo with a URL that does not parse is the one thing that a request purges, with
    its row and its NAR ([getNarInfoFromStore]).
    Nobody else writes to the database meanwhile. *)
Theorem get_narinfo_keeps uploadOnly upstream h s :
  wf (db (st s)) → Forall idle (script s) →
  (∀ ni, legacy (st s) !! h = Some ni → is_ok (ParseURL (InfoURL ni)) = true) →
  let w' := st (GetNarInfo cfg row_order now uploadOnly upstream h s).2 in
  wf (db w') ∧ kept (db (st s)) (db w') ∧ legacy w' = legacy (st s) ∧ narStore w' = narStore (st s) ∧
  upstreamJobs (st s) ⊆ upstreamJobs w'.
Proof.
  intros Hwf Hs Hleg.
  destruct (keeping_GetNarInfo (pulls upstream h) (st s) cfg row_order now uploadOnly upstream h ltac:(done) Hleg true (st s)
    (world_keeps_refl _ _ Hwf) s eq_refl Hs) as [_ Hk].
  split_and!; apply Hk.
Qed.

(** C20. Migrating a legacy narinfo never loses it: from well-formed tables, whatever fails,
    the tables stay well-formed and keep what they have, and the legacy narinfo is removed
    only when the row of its hash holds all its fields, its references and its signatures
    ([migrated]), or a row of its hash with a URL was there before.  Such a row, which the
    double-check under the lock sees unless its lookup fails, stays as it was, and need
    not hold this narinfo ([failed_check_drops_legacy]).
    Nobody else writes to the database meanwhile. *)
Theorem migration_never_loses h ni del s :
  wf (db (st s)) → Forall idle (script s) →
  let w' := st (MigrateNarInfo cfg now h ni del s).2 in
  wf (db w') ∧ kept (db (st s)) (db w') ∧ narStore w' = narStore (st s) ∧
  (legacy w' = legacy (st s) ∨ del = true ∧ legacy w' = delete h (legacy (st s)) ∧
     (migrated h ni (db w') ∨ ∃ url, recorded h url (db (st s)))).
Proof.
  intros Hwf Hs. destruct (wp_MigrateNarInfo cfg now true h ni del (st s) Hwf s eq_refl Hs) as [_ Hq]. exact Hq.
Qed.

(** The internal signal for a missing NAR never reaches a client: whatever fails, a
    request for a narinfo ends in a narinfo or in another error. *)
Theorem purge_signal_confined uploadOnly upstream h s :
  (GetNarInfo cfg row_order now uploadOnly upstream h s).1 ≠ Err ErrNarInfoPurged.
Proof. apply unpurged_GetNarInfo. Qed.

(** Requests for one narinfo, one after the other. *)
Definition requests upstream (h : string) (scripts : list (list event)) (w : world) : world :=
  foldl (λ w fs, st (GetNarInfo cfg row_order now false upstream h (mkState w fs)).2) w scripts.

(** Without chunks, a narinfo in the database whose NAR is gone is never served again
    when the upstream has it under another NAR: each request pulls the narinfo but keeps
    the old row, so it fails, however often it is repeated, calm or not. *)
Theorem stale_row_never_heals upstream h u w scripts :
  chunkStore cfg = false → dead upstream h u w → Forall (Forall idle) scripts →
  let w' := requests upstream h scripts w in
  dead upstream h u w' ∧
  is_ok (GetNarInfo cfg row_order now false upstream h (mkState w' [])).1 = false.
Proof.
  intros Hc Hd Hs. assert (dead upstream h u (requests upstream h scripts w)) as Hd'.
  { revert w Hd. induction Hs as [|fs scripts Hfs _ IH]; intros w Hd; [done|]. simpl. apply IH.
    eapply dead_keeps; [exact Hd|]. apply (keeping_GetNarInfo (pulls upstream h) w cfg row_order now false upstream h ltac:(done)) with (b := true) (w := w); [|by apply world_keeps_refl, Hd|done|done].
    by rewrite (dead_legacy _ _ _ _ Hd). }
  split; [done|].
  destruct (wp_dead cfg row_order now false upstream h u _ Hc eq_refl Hd' (mkState (requests upstream h scripts w) []) eq_refl eq_refl) as [_ Hq].
  exact Hq.
Qed.

(** Without chunks, a legacy narinfo whose NAR is gone is not fetched from upstream:
    a calm request is answered "not found" without a download, whatever the upstreams
    have, because the legacy narinfo itself counts as the asset to pull. *)
Theorem legacy_orphan_never_refetched upstream h ni u s :
  chunkStore cfg = false → wf (db (st s)) → vacant h (db (st s)) → legacy (st s) !! h = Some ni →
  ParseURL (InfoURL ni) = Ok u → in_store u (st s) = false → Hash u ∉ upstreamJobs (st s) → script s = [] →
  let '(r, s') := GetNarInfo cfg row_order now false upstream h s in
  r = Err ENotFound ∧ ∃ d', st s' = set_db d' (st s).
Proof.
  intros Hc Hwf Hv Hleg Hu Hst Hj Hs.
  assert (read_hash row_order h (db (st s)) = Err (AppError ErrNotFound)) as Hread.
  { pose proof (vacant_result cfg row_order false h (st s) Hwf Hv) as Hr. unfold db_result in Hr.
    unfold read_hash in *. destruct (narinfos_where_cases h _ (wf_unique _ Hwf)) as [[-> _]|(i & r & -> & Hi & Hh)]; [done|].
    unfold read_row. by destruct (Hv i r Hi Hh) as [-> _]. }
  destruct (wp_legacy_orphan cfg row_order now false upstream h ni u (st s) Hc eq_refl Hwf Hread Hleg Hu Hst Hj s eq_refl Hs) as [_ Hq].
  destruct (GetNarInfo _ _ _ _ _ _ s) as [r s']. simpl in Hq. destruct Hq as [-> (d & _ & Hd)]. eauto.
Qed.

(** With CDC, a narinfo of the database is found whether or not its NAR exists: its
    own row in the table of NAR files, which storing a narinfo makes, counts as one
    being chunked. *)
Theorem cdc_serves_phantoms uploadOnly h ni u s :
  isCDCEnabled cfg = true → wf (db (st s)) → read_hash row_order h (db (st s)) = Ok (ni, u) → Normalize u = Ok u →
  script s = [] →
  (getNarInfoFromDatabase cfg row_order now uploadOnly h s).1 = Ok ni.
Proof.
  intros Hcdc Hwf Hread Hn Hs.
  assert (db_result cfg row_order uploadOnly h (st s) = Ok ni) as Hres.
  { unfold db_result, backed. rewrite Hread, Hcdc, (bool_decide_true (is_Some (file_row cfg u (db (st s))))) by by eapply linked_file_row.
    by rewrite orb_true_r. }
  destruct (wp_getNarInfoFromDatabase_calm cfg row_order now uploadOnly ∅ h (λ r _, r = Ok ni) (st s) Hwf) with (s := s) as [_ Hq]; [|done|done|exact Hq].
  by intros w' _.
Qed.

(** An upload, whatever fails in it, loses no recorded narinfo and no NAR, removes
    the legacy narinfo only when a row holds its hash, and records the narinfo when it
    reports success; one that trusted signatures are required of and that has none
    changes nothing and fails. *)
Theorem upload_recorded digest_of h parsed s :
  wf (db (st s)) → Forall idle (script s) →
  let '(r, s') := PutNarInfo cfg now digest_of h parsed s in
  uploaded h (st s) r (st s') ∧
  (requireTrustedSignature cfg = true →
   (∀ ni, parsed = Some ni → trusted_keys cfg && VerifyFirst (Fingerprint ni) (Signatures ni) = false) →
   is_ok r = false ∧ st s' = st s).
Proof.
  intros Hwf Hs. pose proof (wp_PutNarInfo cfg now digest_of true h parsed (st s) Hwf s eq_refl Hs) as [_ Hu].
  pose proof (λ Hbad, wp_PutNarInfo_untrusted cfg now digest_of true h parsed (st s) Hbad s eq_refl Hs) as Hbad.
  destruct (PutNarInfo _ _ _ _ _ s) as [r s']. split; [exact Hu|]. intros Hreq Hno. apply Hbad. intros ni Hni.
  specialize (Hno ni Hni). unfold verifyNarInfoTrusted. rewrite Hreq. simpl. destruct (trusted_keys cfg); [|done]. simpl in *. by rewrite Hno.
Qed.

(** Purging a narinfo, with whatever faults but no interference, deletes the bytes of
    a NAR only if that narinfo alone was linked to its file, and only once that file's
    row is gone. *)
Theorem purge_spares_shared h s p :
  wf (db (st s)) → Forall idle (script s) →
  p ∈ dom (narStore (st s)) → p ∉ dom (narStore (st (purgeNarInfo h s).2)) →
  reclaimed h (st s) p (st (purgeNarInfo h s).2).
Proof.
  intros Hwf Hs. destruct (wp_purgeNarInfo true h (st s) Hwf s eq_refl Hs) as [_ Hp]. apply Hp.
Qed.
End properties.

(** ** Witnesses *)

Definition hello_url : URL := mkURL sample_hash CompressionTypeXz ∅ false "".
Definition hello_path : string := match nar_path hello_url with Ok p => p | Err _ => "" end.

(** Keys that accept one signature, and an instance that signs with its own. *)
#[export] Instance tagged_signing : Signing (H := tagged_nix) := {
  Fingerprint := StorePath;
  signature_Name s := s;
  Sign fingerprint := Some ("ncps:" +:+ fingerprint);
  VerifyFirst _ sigs := bool_decide ("cache.nixos.org-1:GrGV" ∈ sigs);
  Format32 s := s;
}.

Definition plain_config : Config := mkConfig false false false true "ncps" true true 100 false.
Definition cdc_config : Config := mkConfig true true true false "ncps" false false 100 false.

Definition hello_upstream (h : string) : option NarInfo := if bool_decide (h = hello_hash) then Some hello else None.
Definition hello_signed : NarInfo := with_signatures (Signatures hello ++ ["ncps:" +:+ StorePath hello]) hello.

Definition empty_world : world := mkWorld no_tables ∅ ∅ ∅ ∅ ∅ ∅ [].
Definition stored_world (nars : gmap string string) : world := mkWorld (store_of hello no_tables) ∅ nars ∅ ∅ ∅ ∅ [].

Lemma hello_tables_wf : wf (store_of hello no_tables).
Proof. apply (stored_as_wf 7 hello_hash hello "" no_tables _ no_tables_wf), (stores_as false calm_env); [exact no_tables_wf|exact hello_stored]. Qed.

Lemma get_pulls_through_witness :
  let '(r, s') := GetNarInfo plain_config keep_order 9 false hello_upstream hello_hash (mkState empty_world []) in
  ∃ ni'', r = Ok ni'' ∧ same_narinfo hello_signed ni'' ∧ wf (db (st s')) ∧
    recorded hello_hash (InfoURL hello_signed) (db (st s')) ∧ Hash hello_url ∈ upstreamJobs (st s').
Proof.
  apply (get_pulls_through plain_config keep_order 9 hello_upstream hello_hash hello hello_url hello_signed (mkState empty_world [])).
  - intros l. reflexivity.
  - split; [intros H; discriminate H|reflexivity].
  - split; [intros H; discriminate H|reflexivity].
  - split; [reflexivity|vm_compute; reflexivity|vm_compute; reflexivity|discriminate|reflexivity| |intros H; discriminate H].
    split; apply (bool_decide_eq_true_1 _); vm_compute; reflexivity.
  - split; [exact no_tables_wf|intros i r Hi; discriminate Hi|reflexivity|apply not_elem_of_empty|vm_compute; reflexivity|reflexivity].
  - reflexivity.
Defined.

(** A request among faults: the tables' row is read late, the store cannot be asked. *)
Definition faulty_script : list event := [EvTx calm_env; EvFault; EvLate; EvOk; EvFault].

Lemma faulty_idle : Forall idle faulty_script.
Proof. repeat (apply Forall_cons; split; [done|]). by apply Forall_nil. Qed.

Lemma get_narinfo_keeps_witness :
  let s := mkState (stored_world ∅) faulty_script in
  let w' := st (GetNarInfo plain_config keep_order 9 false hello_upstream hello_hash s).2 in
  wf (db w') ∧ kept (db (st s)) (db w') ∧ legacy w' = legacy (st s) ∧ narStore w' = narStore (st s) ∧
  upstreamJobs (st s) ⊆ upstreamJobs w'.
Proof.
  apply (get_narinfo_keeps plain_config keep_order 9 false hello_upstream hello_hash (mkState (stored_world ∅) faulty_script)).
  - exact hello_tables_wf.
  - exact faulty_idle.
  - intros ni Hni. discriminate Hni.
Defined.

Lemma migration_never_loses_witness :
  let s := mkState (mkWorld no_tables {[hello_hash := hello]} ∅ ∅ ∅ ∅ ∅ []) [EvOk; EvFault; EvTx calm_env; EvLate] in
  let w' := st (MigrateNarInfo plain_config 9 hello_hash hello true s).2 in
  legacy w' = ∅ ∧ migrated hello_hash hello (db w').
Proof.
  intros s w'. assert (legacy w' = ∅) as Hleg by (vm_compute; reflexivity). split; [exact Hleg|].
  destruct (migration_never_loses plain_config 9 hello_hash hello true s no_tables_wf) as (_ & _ & _ & Hcases).
  - repeat (apply Forall_cons; split; [done|]). by apply Forall_nil.
  - destruct Hcases as [Hbad|(_ & _ & [Hm|(url & i & r & Hi & _)])]; [|exact Hm|].
    + fold w' in Hbad. rewrite Hleg in Hbad. apply (f_equal (lookup hello_hash)) in Hbad. discriminate Hbad.
    + exfalso. vm_compute in Hi. discriminate Hi.
Defined.

(** When the double-check's lookup fails, a legacy narinfo is removed although the row of
    its hash, stored since, names another NAR. *)
Example failed_check_drops_legacy :
  let s := mkState (mkWorld (store_of hello no_tables) {[hello_hash := hello_again]} ∅ ∅ ∅ ∅ ∅ []) [EvOk; EvFault; EvTx calm_env] in
  let w' := st (MigrateNarInfo plain_config 9 hello_hash hello_again true s).2 in
  legacy w' = ∅ ∧ (r_nar_hash <$> (snd <$> narinfos_where hello_hash (db w'))) = [print <$> NarHash hello] ∧
  NarHash hello_again ≠ NarHash hello.
Proof. split; [vm_compute; reflexivity|]. split; [vm_compute; reflexivity|]. vm_compute. discriminate. Qed.

(** An upstream that has rebuilt the path under another NAR. *)
Definition rebuilt_upstream (h : string) : option NarInfo := if bool_decide (h = hello_hash) then Some hello_again else None.

Lemma stale_row_never_heals_witness :
  let w' := requests plain_config keep_order 9 rebuilt_upstream hello_hash [faulty_script; []; []] (stored_world ∅) in
  dead rebuilt_upstream hello_hash hello_url w' ∧
  is_ok (GetNarInfo plain_config keep_order 9 false rebuilt_upstream hello_hash (mkState w' [])).1 = false.
Proof.
  apply (stale_row_never_heals plain_config keep_order 9 rebuilt_upstream hello_hash hello_url (stored_world ∅) [faulty_script; []; []]).
  - reflexivity.
  - split; [exact hello_tables_wf| |vm_compute; reflexivity|apply not_elem_of_empty|apply not_elem_of_empty|reflexivity|].
    + exists (InfoURL hello). split; [|vm_compute; reflexivity].
      destruct (narinfos (db (stored_world ∅)) !! 0%Z) as [r|] eqn:Hr; [|vm_compute in Hr; discriminate Hr].
      exists 0%Z, r. split; [exact Hr|]. vm_compute in Hr. injection Hr as <-. split_and!; [reflexivity..|discriminate].
    + apply (bool_decide_eq_true_1 _). vm_compute. reflexivity.
  - apply Forall_cons; split; [exact faulty_idle|]. repeat (apply Forall_cons; split; [by apply Forall_nil|]). by apply Forall_nil.
Defined.

Lemma legacy_orphan_never_refetched_witness :
  let s := mkState (mkWorld no_tables {[hello_hash := hello]} ∅ ∅ ∅ ∅ ∅ []) [] in
  let '(r, s') := GetNarInfo plain_config keep_order 9 false hello_upstream hello_hash s in
  r = Err ENotFound ∧ ∃ d', st s' = set_db d' (st s).
Proof.
  apply (legacy_orphan_never_refetched plain_config keep_order 9 hello_upstream hello_hash hello hello_url
    (mkState (mkWorld no_tables {[hello_hash := hello]} ∅ ∅ ∅ ∅ ∅ []) [])).
  - reflexivity.
  - exact no_tables_wf.
  - intros i r Hi. discriminate Hi.
  - reflexivity.
  - vm_compute. reflexivity.
  - vm_compute. reflexivity.
  - apply not_elem_of_empty.
  - reflexivity.
Defined.

Lemma cdc_serves_phantoms_witness :
  ∃ ni, (getNarInfoFromDatabase cdc_config keep_order 9 false hello_hash (mkState (stored_world ∅) [])).1 = Ok ni ∧
    in_store hello_url (stored_world ∅) = false ∧ StorePath ni = StorePath hello.
Proof.
  destruct (read_hash keep_order hello_hash (store_of hello no_tables)) as [[ni u]|e] eqn:Hread; [|vm_compute in Hread; discriminate Hread].
  exists ni. split; [|split; [vm_compute; reflexivity|vm_compute in Hread; by injection Hread as <- _]].
  apply (cdc_serves_phantoms cdc_config keep_order 9 false hello_hash ni u (mkState (stored_world ∅) [])).
  - reflexivity.
  - exact hello_tables_wf.
  - exact Hread.
  - vm_compute in Hread. injection Hread as _ <-. vm_compute. reflexivity.
  - reflexivity.
Defined.

(** An upload that has no trusted signature. *)
Lemma upload_recorded_witness :
  let w := mkWorld no_tables {[hello_hash := hello]} ∅ ∅ ∅ ∅ ∅ [] in
  let '(r, s') := PutNarInfo plain_config 9 (λ p, p) hello_hash (Some hello_again) (mkState w faulty_script) in
  uploaded hello_hash w r (st s') ∧ is_ok r = false ∧ st s' = w.
Proof.
  intros w.
  pose proof (upload_recorded plain_config 9 (λ p, p) hello_hash (Some hello_again) (mkState w faulty_script) no_tables_wf faulty_idle) as Hu.
  destruct (PutNarInfo _ _ _ _ _ _) as [r s']. destruct Hu as [Hu Hno]. split; [exact Hu|]. apply Hno; [reflexivity|].
  intros ni [= <-]. vm_compute. reflexivity.
Defined.

Lemma purge_spares_shared_witness :
  let s := mkState (stored_world {[hello_path := "nix"]}) [EvTx calm_env; EvOk] in
  reclaimed hello_hash (st s) hello_path (st (purgeNarInfo hello_hash s).2).
Proof.
  apply (purge_spares_shared hello_hash (mkState (stored_world {[hello_path := "nix"]}) [EvTx calm_env; EvOk]) hello_path).
  - exact hello_tables_wf.
  - repeat (apply Forall_cons; split; [done|]). by apply Forall_nil.
  - apply (bool_decide_eq_true_1 _). vm_compute. reflexivity.
  - apply (bool_decide_eq_true_1 _). vm_compute. reflexivity.
Defined.

(** The purge's first attempt deadlocks at its commit, and before the second another
    client stores a narinfo of the same NAR. *)
Definition twin_hash : string := "07bkrybhd7bwf7fy6ayxpqv3hpzvlaqk".

Definition twin_client (d : tables) : tables := run_op false keep_order 100 d (TxStore 8 twin_hash hello "", calm_env).

Definition contended_env (i : nat) : attempt tables :=
  match i with
  | 0 => mkAttempt (λ d, d) None [] (NotCommitted Deadlock) false
  | _ => mkAttempt twin_client None [] Committed false
  end.

(** A purge that is retried deletes the bytes of a NAR in use: the URLs collected by
    an attempt that was rolled back are not reset, so when another client links the NAR
    before the next attempt, the NAR's file stays, linked to the other narinfo, and its
    bytes go. *)
Theorem retried_purge_deletes_live_nar :
  (∀ i d, wf d → wf (a_others (contended_env i) d)) ∧
  let s := mkState (stored_world {[hello_path := "nix"]}) [EvTx contended_env] in
  let '(r, s') := purgeNarInfo hello_hash s in
  r = Ok () ∧ in_store hello_url (st s) = true ∧ in_store hello_url (st s') = false ∧
  (narinfos_where twin_hash (db (st s'))).*1 = [1%Z] ∧ links (db (st s')) = [(1%Z, 0%Z)] ∧ is_Some (nar_files (db (st s')) !! 0%Z).
Proof.
  split.
  - intros [|i] d Hwf; [exact Hwf|]. apply run_op_wf; [by intros j d'|exact Hwf].
  - vm_compute. split_and!; try reflexivity. by eexists.
Qed.
