(* ===== verification/NarServe.v ===== *)
(** * Serving NARs ([pkg/cache/cache.go], [pkg/server/server.go])

    What a request for a NAR does: [GetNar] looks for the NAR in the store of whole files
    and among the chunks, serves it from there ([serveNarFromStorageViaPipe]) or starts or
    joins a download and serves its temporary file; the handler [getNar] labels the body
    with its content encoding and its length.  The world is [NarInfoCache]'s; bodies are
    streams that end or break.  How a download's file and a NAR being chunked grow under
    their readers is in [Download] and [CDC]; staged parts ([Staging]) are not used here. *)
From S2P Require Import Download.
From S2P Require Import Prelude GoStd Nar Tx NarInfoDB NarInfoCache.

(** ** Streams and codecs *)

(** What a reader gives until it ends, or breaks with an error. *)
Record stream := mkStream {
  s_bytes : string;
  s_breaks : bool;
}.

Definition plain_stream (b : string) : stream := mkStream b false.
Definition broken : stream := mkStream "" true.

(** The compressors ([pkg/zstd], [pkg/xz] and the libraries): [decoder c b] is what the
    decompressor for [c] gives of [b], or nothing when it cannot be set up. *)
Class Codec := {
  decoder : string → string → option stream;
  zstd : string → string;
  brotli : string → string;
  gzip : string → string;
}.

(** A decompressor is ready for what its compressor made, and gives it back. *)
Class CodecLaws `{Codec} := {
  decode_zstd b : decoder CompressionTypeZstd (zstd b) = Some (plain_stream b);
  decode_brotli b : decoder "br" (brotli b) = Some (plain_stream b);
  decode_gzip b : decoder "gzip" (gzip b) = Some (plain_stream b);
}.

Definition DecompressReader `{Codec} (comp : string) (b : string) : option stream :=
  if bool_decide (comp = CompressionTypeNone ∨ comp = "") then Some (plain_stream b) else
  if bool_decide (comp ∈ [CompressionTypeBzip2; CompressionTypeZstd; CompressionTypeLz4; CompressionTypeBr;
    CompressionTypeLzip; CompressionTypeXz]) then decoder comp b
  else None.

(** A decompressor reading a stream breaks with it. *)
Definition decompress `{Codec} (comp : string) (s : stream) : option stream :=
  t ← DecompressReader comp (s_bytes s); Some (mkStream (s_bytes t) (s_breaks t || s_breaks s)).

(** A compressor closes its frame also when its source breaks. *)
Definition compress (f : string → string) (s : stream) : stream := mkStream (f (s_bytes s)) (s_breaks s).

Definition concat_strings (l : list string) : string := foldr String.append "" l.

Definition with_zstd (u : URL) (t : bool) : URL := mkURL (Hash u) (Compression u) (Query u) t (opaquePath u).

Section serving.
Context `{GN : GoNix} {SG : Signing} {CD : Codec} (cfg : Config) (now : Z).

(** The request's [IsUploadOnly], what the upstreams answer to requests for narinfos and
    for NARs (their content encoding undone). *)
Context (uploadOnly : bool) (upstream : string → option NarInfo) (fetch : URL → option stream).
Notation M := (eff state cache_err).

(** ** The NAR store *)

Definition narStore_HasNar (u : URL) : M bool := has (stored_at u).

Definition narStore_GetNar (u : URL) : M string :=
  match nar_path u with
  | Err _ => throw EInvalid
  | Ok p => o ← ask EStore (λ w, narStore w !! p); lift (of_option ENotFound o)
  end.

(** Reading on: an error before the first byte, or after the last. *)
Definition flaky (t : stream) : M stream := λ s,
  (Ok (match next s with EvFault => broken | EvLate => mkStream (s_bytes t) true | _ => t end), put (st s) s).

Definition ensureNarFile (u : URL) (written : Z) : M () := transaction_ (ensureNarFileRecord now u written).

(** ** Whole files *)

Fixpoint first_stored (u : URL) (cs : list string) : M (option string) :=
  match cs with
  | [] => mret None
  | c :: cs =>
      present ← narStore_HasNar (with_compression u c);
      if present : bool then mret (Some c) else first_stored u cs
  end.

Definition touch_nar_file (f : Z) (d : tables) : tables :=
  set_nar_files (alter (touch_file (Some now)) f (nar_files d)) d.

(** The closure of [getNarFromStore]; its variable is [needsDBRecord]. *)
Definition touch_tx (u : URL) (storedComp : string) : eff (session bool tables) dberr () :=
  r ← query (find_nar_file (Hash u) (Compression u) (encode (Query u)));
  r ← (match r with
       | Err RowNotFound =>
           if bool_decide (storedComp = Compression u) then mret r
           else query (find_nar_file (Hash u) storedComp (encode (Query u)))
       | _ => mret r
       end);
  match r with
  | Ok (f, nf) =>
      if stale now (recordAgeIgnoreTouch cfg) (nf_last_accessed_at nf) then exec (touch_nar_file f) else mret ()
  | Err e => if IsNotFoundError e then assign (λ _, true) else throw e
  end.

(** The representation served of a file stored as [storedComp]. *)
Definition represent (u : URL) (storedComp bytes : string) : result cache_err (URL * Z * stream) :=
  if bool_decide (storedComp = CompressionTypeZstd) && TransparentZstd u then
    Ok (u, Z.of_nat (String.length bytes), plain_stream bytes)
  else if negb (bool_decide (storedComp = Compression u)) then
    match DecompressReader storedComp bytes with
    | None => Err EInvalid
    | Some t => Ok (with_zstd u false, (-1)%Z, t)
    end
  else Ok (with_zstd u false, Z.of_nat (String.length bytes), plain_stream bytes).

Definition getNarFromStore (u : URL) : M (URL * Z * stream) :=
  c ← (if bool_decide (Compression u = CompressionTypeNone) then first_stored u wholeFileServeCompressions else mret None);
  let storedComp := default (Compression u) c in
  bytes ← narStore_GetNar (with_compression u storedComp);
  '(u, size, t) ← lift (represent u storedComp bytes);
  '(r, needsDBRecord) ← transaction (touch_tx u storedComp) false;
  _ ← lift r;
  _ ← (if needsDBRecord : bool then _ ← try (E' := cache_err) (ensureNarFile u (Z.of_nat (String.length bytes))); mret ()
       else mret ());
  t ← flaky t;
  mret (u, size, t).

(** ** Chunks *)

Fixpoint streamChunksWithPrefetch (hashes : list string) : M stream :=
  match hashes with
  | [] => mret (plain_stream "")
  | h :: hashes =>
      r ← try (E' := cache_err) (ask EStore (λ w, chunkFiles w !! h));
      match r with
      | Ok (Some b) => t ← streamChunksWithPrefetch hashes; mret (mkStream (b +:+ s_bytes t) (s_breaks t))
      | _ => mret broken
      end
  end.

Definition links_of (f : Z) (d : tables) : list string := default [] (nar_file_chunks d !! f).

Definition streamCompleteChunks (f totalChunks : Z) : M stream :=
  r ← try (E' := cache_err) (ask (EDb (Fault OtherFault)) (λ w, links_of f (db w)));
  match r with
  | Err _ => mret broken
  | Ok chunkHashes =>
      if bool_decide (Z.of_nat (length chunkHashes) = totalChunks) then streamChunksWithPrefetch chunkHashes
      else mret broken
  end.

(** The chunks recorded so far; none comes while the reader waits, so it breaks. *)
Definition streamProgressiveChunks (f : Z) : M stream :=
  r ← try (E' := cache_err) (ask (EDb (Fault OtherFault)) (λ w, links_of f (db w)));
  match r with
  | Err _ => mret broken
  | Ok chunkHashes => t ← streamChunksWithPrefetch chunkHashes; mret (mkStream (s_bytes t) true)
  end.

(** [getNarFileFromDB] on a transaction. *)
Definition nar_file_tx {V} (u : URL) : eff (session V tables) dberr (Z * nar_file) :=
  let '(first, second) := if isCDCEnabled cfg then (CompressionTypeNone, Compression u) else (Compression u, CompressionTypeNone) in
  r ← query (find_nar_file (Hash u) first (encode (Query u)));
  r ← (match r with
       | Err RowNotFound =>
           if bool_decide (first = second) then mret r else query (find_nar_file (Hash u) second (encode (Query u)))
       | _ => mret r
       end);
  lift r.

(** The closure of [getNarFromChunks]; its variables are [narFileID], [totalSize] and
    [totalChunks]. *)
Definition chunks_tx (u : URL) : eff (session (Z * Z * Z) tables) dberr () :=
  '(f, nf) ← nar_file_tx u;
  _ ← assign (λ _, (f, nf_file_size nf, nf_total_chunks nf));
  _ ← (if stale now (recordAgeIgnoreTouch cfg) (nf_last_accessed_at nf) then exec (touch_nar_file f) else mret ());
  if bool_decide (0 < nf_total_chunks nf)%Z then
    links ← query (λ d, length (links_of f d));
    if bool_decide (Z.of_nat links = nf_total_chunks nf) then mret () else throw (AppError ErrNotFound)
  else mret ().

Definition getNarFromChunks (u : URL) : M (URL * Z * stream) :=
  if negb (isChunkStoreAvailable cfg) then throw ENotFound else
  '(r, (f, totalSize, totalChunks)) ← transaction (chunks_tx u) (0, 0, 0)%Z;
  _ ← lift r;
  t ← (if bool_decide (0 < totalChunks)%Z then streamCompleteChunks f totalChunks else streamProgressiveChunks f);
  mret (with_zstd (with_compression u CompressionTypeNone) false, totalSize, t).

Definition serveZstdFromChunks (u : URL) : M (URL * Z * stream) :=
  '(_, _, raw) ← getNarFromChunks (with_compression u CompressionTypeNone);
  mret (u, (-1)%Z, compress zstd raw).

(** [errors.Is(chunkErr, storage.ErrNotFound) || database.IsNotFoundError(chunkErr)] *)
Definition not_there (e : cache_err) : bool :=
  match e with ENotFound => true | EDb e => IsNotFoundError e | _ => false end.

Definition serveNarFromStorageViaPipe (u : URL) (hasInStore : bool) : M (URL * Z * stream) :=
  let none := bool_decide (Compression u = CompressionTypeNone) in
  chunked ← (if hasInStore && isCDCEnabled cfg then
               r ← try (E' := cache_err) (getNarFileFromDB cfg u);
               mret (match r with Ok (Ok (_, nr)) => bool_decide (0 < nf_total_chunks nr)%Z && none | _ => false end)
             else mret false);
  let serveFromChunks := (negb hasInStore && isChunkStoreAvailable cfg) || chunked in
  if serveFromChunks && negb none then
    if bool_decide (Compression u = CompressionTypeZstd) then serveZstdFromChunks u else throw ENotFound
  else if serveFromChunks then getNarFromChunks u
  else
    r ← try (getNarFromStore u);
    match r with
    | Ok x => mret x
    | Err ENotFound =>
        if isChunkStoreAvailable cfg && none then
          r ← try (getNarFromChunks u);
          match r with
          | Ok x => mret x
          | Err e => if not_there e then throw ENotFound else throw e
          end
        else throw ENotFound
    | Err e => throw e
    end.

(** ** Downloads *)

(** The compressed URL the NAR has upstream, and its narinfo there. *)
Definition lookupPreferredUpstreamURL (u : URL) : M (option URL * option NarInfo) :=
  if negb (isCDCEnabled cfg) || negb (bool_decide (Compression u = CompressionTypeNone)) then mret (None, None) else
  running ← hasUpstreamJob (Hash u);
  if running : bool then mret (None, None) else
  url ← lift (url_string u);
  r ← try (E' := cache_err) (ask (EDb (Fault OtherFault))
    (λ w, head (filter (λ x, r_url x.2 = Some url) (map_to_list (narinfos (db w))))));
  match r with
  | Ok (Some (_, row)) =>
      if bool_decide (r_hash row = "") then mret (None, None) else
      r ← try (E' := cache_err) (getNarInfoFromUpstream upstream (r_hash row));
      match r with
      | Err _ => mret (None, None)
      | Ok ni =>
          match ParseUpstreamURL (InfoURL ni) (narInfoStorageKey ni) with
          | Err _ => mret (None, Some ni)
          | Ok originalURL =>
              mret (if bool_decide (Compression originalURL = CompressionTypeNone) then None else Some originalURL, Some ni)
          end
      end
  | _ => mret (None, None)
  end.

(** The temporary file [pullNarIntoStore] fills, with the compression of its bytes; an
    error when the NAR is not upstream or cannot be decompressed. *)
Definition tempFile (u : URL) (preferred : option URL) (ni : option NarInfo) : result cache_err (string * stream) :=
  let downloadURL := default u preferred in
  let compressedNar := negb (bool_decide (Compression downloadURL = CompressionTypeNone)) in
  let hasNarInfo := match ni with Some ni => negb (bool_decide (NarSize ni = 0%Z)) | None => false end in
  match fetch downloadURL with
  | None => Err ENotFound
  | Some body =>
      match way_of (isCDCEnabled cfg) compressedNar hasNarInfo (negb (cdcLazyChunkingEnabled cfg)) with
      | WChunkWhile =>
          match decompress (Compression downloadURL) body with
          | None => Err EInvalid
          | Some t => Ok (CompressionTypeNone, t)
          end
      | _ => Ok (Compression downloadURL, body)
      end
  end.

Definition shouldCoordinateInflight (compression : string) : bool := negb (bool_decide (compression = CompressionTypeNone)).

Definition isNoneCompression (c : string) : bool := bool_decide (c = "" ∨ c = CompressionTypeNone).

Definition compressedRequestNeedsUpstreamFallback (requested available : string) : bool :=
  negb (isNoneCompression requested) && negb (bool_decide (requested = available)).

(** A client of a running download: its URL gets the compression of the temporary file
    before the goroutine that streams to it looks whether it has to decompress. *)
Definition serveFromTempFile (u : URL) (requestedCompression : string) (j : job) : M (URL * Z * stream) :=
  match j with
  | JPullNar u' preferred ni =>
      '(tempFileCompression, temp) ← lift (tempFile u' preferred ni);
      let u := with_compression u tempFileCompression in
      if compressedRequestNeedsUpstreamFallback requestedCompression tempFileCompression then throw ENotFound else
      if negb (bool_decide (tempFileCompression = CompressionTypeNone)) && bool_decide (Compression u = CompressionTypeNone) then
        mret (u, (-1)%Z, match decompress tempFileCompression temp with Some t => plain_stream (s_bytes t) | None => plain_stream "" end)
      else mret (u, (-1)%Z, plain_stream (s_bytes temp))
  | _ => throw ENotFound
  end.

Definition maybeBackgroundMigrateNarToChunks (u : URL) : M () :=
  if isCDCEnabled cfg then spawn (JMigrateToChunks u) else mret ().

Definition GetNar (u : URL) : M (URL * Z * stream) :=
  _ ← ask ELock (λ _, ());
  let requestedCompression := Compression u in
  hasNarInStore ← HasNarInStore u;
  hasActiveLocalJob ← hasUpstreamJob (Hash u);
  '(hasNar, finished) ← narServability cfg u;
  hasNar ← (if hasActiveLocalJob && negb hasNarInStore then HasNarInChunks cfg u else mret hasNar);
  if hasNar && (finished || negb (shouldCoordinateInflight (Compression u))) then
    _ ← (if hasNarInStore : bool then maybeBackgroundMigrateNarToChunks u else mret ());
    serveNarFromStorageViaPipe u hasNarInStore
  else if uploadOnly then throw ENotFound else
  u ← lookupOriginalNarURL u;
  '(preferredUpstreamURL, ni) ← lookupPreferredUpstreamURL u;
  ds ← prePullNar cfg u preferredUpstreamURL ni;
  hasNarInStore ← HasNarInStore u;
  match ds with
  | Active j =>
      if hasNarInStore : bool then serveNarFromStorageViaPipe u hasNarInStore
      else serveFromTempFile u requestedCompression j
  | Complete (Some e) => if hasNarInStore : bool then serveNarFromStorageViaPipe u hasNarInStore else throw e
  | Complete None => serveNarFromStorageViaPipe u hasNarInStore
  end.

Definition GetNarFileSize (u : URL) : M Z :=
  r ← getNarFileFromDB cfg u;
  match r with Ok (_, nr) => mret (nf_file_size nr) | Err e => throw (EDb e) end.
End serving.

(** ** The handler of the HTTP server *)

(** A response: its status, its content encoding (empty: none), the length it declares
    and its body. *)
Record response := mkResponse {
  status : Z;
  contentEncoding : string;
  contentLength : option Z;
  body : stream;
}.

Definition space (c : ascii) : bool :=
  bool_decide (c = " "%char) || in_range (Ascii.ascii_of_nat 9) (Ascii.ascii_of_nat 13) c.

Fixpoint trim_left (s : string) : string :=
  match s with String c s' => if space c then trim_left s' else s | "" => "" end.

Fixpoint trim_spaces (s : string) : string :=
  match s with String c s' => if str_forall space s then "" else String c (trim_spaces s') | "" => "" end.

Definition TrimSpace (s : string) : string := trim_spaces (trim_left s).

(** The encodings of an [Accept-Encoding], their weights ignored. *)
Definition encodings (ae : string) : list string :=
  (λ v, TrimSpace (default "" (head (split_on ";" v)))) <$> split_on "," ae.

Definition encodingZstd := "zstd".

Definition parseAcceptEncoding (ae : string) : string :=
  if bool_decide (encodingZstd ∈ encodings ae) then encodingZstd
  else if bool_decide ("br" ∈ encodings ae) then "br"
  else if bool_decide ("gzip" ∈ encodings ae) then "gzip"
  else "".

Section handler.
Context `{GN : GoNix} {SG : Signing} {CD : Codec} (cfg : Config) (now : Z).
Context (uploadOnly : bool) (upstream : string → option NarInfo) (fetch : URL → option stream).
Notation M := (eff state cache_err).

(** net/http breaks off a body that is not as long as declared. *)
Definition write_body (declared : option Z) (t : stream) : stream :=
  match declared with
  | Some n => mkStream (s_bytes t) (s_breaks t || negb (bool_decide (Z.of_nat (String.length (s_bytes t)) = n)))
  | None => t
  end.

(** A GET request's answer for what [GetNar] returns. *)
Definition respond (ae : string) (x : URL * Z * stream) : response :=
  let '(u, size, t) := x in
  let none := bool_decide (Compression u = CompressionTypeNone) in
  let servedRawZstd := none && TransparentZstd u in
  let selectedEncoding := if servedRawZstd then encodingZstd else if none then parseAcceptEncoding ae else "" in
  let out := if servedRawZstd then t else
    if bool_decide (selectedEncoding = encodingZstd) then compress zstd t else
    if bool_decide (selectedEncoding = "br") then compress brotli t else
    if bool_decide (selectedEncoding = "gzip") then compress gzip t else t in
  let declared := if bool_decide (selectedEncoding = "") && bool_decide (0 < size)%Z then Some size else None in
  mkResponse 200 selectedEncoding declared (write_body declared out).

(** A HEAD request's: the whole body is read when its size is not known. *)
Definition respond_head (x : URL * Z * stream) : response :=
  let '(_, size, t) := x in
  if bool_decide (size <= 0)%Z then
    if s_breaks t then mkResponse 500 "" None (plain_stream "")
    else mkResponse 200 "" (Some (Z.of_nat (String.length (s_bytes t)))) (plain_stream "")
  else mkResponse 200 "" (Some size) (plain_stream "").

(** Failing requests; a canceled one gets no answer. *)
Definition respond_error (e : cache_err) : response :=
  match e with
  | ENotFound => mkResponse 404 "" None (plain_stream "")
  | _ => mkResponse 500 "" None (plain_stream "")
  end.

Definition head_size (u : URL) : M (option Z) :=
  r ← try (E' := cache_err) (GetNarFileSize cfg u);
  match r with
  | Ok size =>
      if bool_decide (0 < size)%Z then
        r ← try (E' := cache_err) (IsNarServable cfg u);
        mret (match r with Ok true => Some size | _ => None end)
      else mret None
  | Err _ => mret None
  end.

(** The URL of a request for [/nar/{hash}.nar.{extension}]. *)
Definition withNarURL (hash ext : string) (query : values) : result nar_error URL :=
  comp ← CompressionTypeFromExtension ext; Ok (mkURL hash comp query false "").

Definition getNar (withBody : bool) (ae : string) (nu : URL) : M response :=
  let clientAcceptsZstd := bool_decide (Compression nu = CompressionTypeNone) && bool_decide (encodingZstd ∈ encodings ae) in
  let nu := with_zstd nu (if clientAcceptsZstd && withBody then true else if withBody then TransparentZstd nu else false) in
  size ← (if withBody then mret None else head_size nu);
  match size with
  | Some size => mret (mkResponse 200 "" (Some size) (plain_stream ""))
  | None =>
      r ← try (E' := cache_err) (GetNar cfg now uploadOnly upstream fetch nu);
      mret (match r with
        | Ok x => if withBody then respond ae x else respond_head x
        | Err e => respond_error e
        end)
  end.
End handler.

(** ** Worlds that hold what their names say *)

(** The name of a NAR in the tables and paths: its hash without the prefix. *)
Definition normal_hash (h : string) : string :=
  match lenient_submatch h with Some a => if normalized_match a then a else h | None => h end.

(** [b], stored under compression [comp], is the NAR [n]. *)
Definition holds_nar `{Codec} (comp b n : string) : Prop := DecompressReader comp b = Some (plain_stream n).

Section sound.
Context `{GN : GoNix} {CD : Codec} (content digest : string → string).

(** The NAR a hash names. *)
Definition nar_named (h : string) : string := content (normal_hash h).

Definition sound_files (m : gmap string string) : Prop :=
  ∀ u p b, nar_path u = Ok p → m !! p = Some b → holds_nar (Compression u) b (nar_named (Hash u)).

Definition sound_chunks (m : gmap string string) : Prop := map_Forall (λ h b, digest b = h) m.

(** A row marked complete is of an uncompressed NAR, has its size, and when it has as
    many chunks as it says they are the NAR's. *)
Definition sound_row (nf : nar_file) (hashes : list string) : Prop :=
  (0 < nf_total_chunks nf)%Z →
  nf_compression nf = CompressionTypeNone ∧
  nf_file_size nf = Z.of_nat (String.length (nar_named (nf_hash nf))) ∧
  (Z.of_nat (length hashes) = nf_total_chunks nf →
   ∃ pieces, hashes = digest <$> pieces ∧ concat_strings pieces = nar_named (nf_hash nf)).

Record sound_tables (d : tables) : Prop := {
  st_unique : unique_keys d;
  st_rows f nf : nar_files d !! f = Some nf → sound_row nf (links_of f d);
  st_chunks f : is_Some (nar_file_chunks d !! f) → is_Some (nar_files d !! f);
}.

Record sound (w : world) : Prop := {
  so_tables : sound_tables (db w);
  so_files : sound_files (narStore w);
  so_chunks : sound_chunks (chunkFiles w);
}.
End sound.

(** ** Lemmas *)

Lemma Normalize_hash u v : Normalize u = Ok v → Hash v = normal_hash (Hash u) ∧ Compression v = Compression u.
Proof.
  intros Hv. destruct (Normalize_inv _ _ Hv) as (Hv' & Hm & Hl). unfold normal_hash. rewrite Hl, Hm. split; [done|].
  by rewrite Hv'.
Qed.

Lemma normal_hash_idemp u v : Normalize u = Ok v → normal_hash (Hash v) = Hash v.
Proof.
  intros Hv. destruct (Normalize_inv _ _ Hv) as (_ & Hm & _). unfold normal_hash.
  by rewrite lenient_submatch_normalized, Hm.
Qed.

(** NARs with one path have one name, and read the same. *)
Lemma nar_path_inj `{Codec} u v p :
  nar_path u = Ok p → nar_path v = Ok p →
  normal_hash (Hash u) = normal_hash (Hash v) ∧ ∀ b, DecompressReader (Compression u) b = DecompressReader (Compression v) b.
Proof.
  unfold nar_path. intros (u' & Hu & Hpu)%bind_Ok_inv (v' & Hv & Hpv)%bind_Ok_inv.
  destruct (to_file_path_injective _ _ _ Hpu Hpv) as (Hh & He & _).
  destruct (Normalize_hash _ _ Hu) as [<- <-], (Normalize_hash _ _ Hv) as [<- <-]. split; [done|].
  unfold ToFilePath in Hpu. apply bind_Ok_inv in Hpu as (e & Heu & _). rewrite Heu in He. symmetry in He.
  destruct (ToFileExtension_inj _ _ _ Heu He) as [->|[H1 H2]]; [done|].
  assert (∀ c b, c ∈ [""; "none"] → DecompressReader c b = Some (plain_stream b)) as Hn.
  { intros c b Hc. unfold DecompressReader. rewrite bool_decide_true; [done|].
    unfold CompressionTypeNone. set_solver. }
  intros b. by rewrite !Hn.
Qed.

Lemma nar_path_comp u c : nar_path (with_compression u c) = nar_path (with_compression (with_zstd u false) c).
Proof. done. Qed.

Section sound.
Context `{GN : GoNix} {CD : Codec} (content digest : string → string).
Notation sound_tables := (sound_tables content digest).
Notation sound := (sound content digest).
Notation nar_named := (nar_named content).
Notation sound_row := (sound_row content digest).

Lemma sound_set_file f nf d :
  sound_tables d →
  (∀ g x, nar_files d !! g = Some x → has_key (nf_hash nf) (nf_compression nf) (nf_query nf) x → g = f) →
  sound_row nf (links_of f d) → sound_tables (set_nar_files (<[f := nf]> (nar_files d)) d).
Proof.
  intros [Hu Hr Hc] Hkey Hnf. split; simpl.
  - split; simpl; [apply (unique_hash _ Hu)|].
    intros i j x y h c q [[<- <-]|[Hi Hx]]%lookup_insert_Some [[<- <-]|[Hj Hy]]%lookup_insert_Some Hkx Hky; [done| | |].
    + symmetry. eapply Hkey; [exact Hy|]. eapply has_key_transfer; [|exact Hkx|exact Hky]. done.
    + eapply Hkey; [exact Hx|]. eapply has_key_transfer; [|exact Hky|exact Hkx]. done.
    + by eapply (unique_file _ Hu).
  - intros g x [[<- <-]|[_ Hx]]%lookup_insert_Some; [done|]. by apply Hr.
  - intros g Hg%Hc. rewrite lookup_insert_is_Some'. auto.
Qed.

Lemma sound_touch now f d : sound_tables d → sound_tables (touch_nar_file now f d).
Proof.
  intros Hd. unfold touch_nar_file. destruct (nar_files d !! f) as [nf|] eqn:Hf.
  - replace (alter (touch_file (Some now)) f (nar_files d)) with (<[f := touch_file (Some now) nf]> (nar_files d)).
    2:{ apply map_eq. intros g. destruct (decide (g = f)) as [->|]; [by rewrite lookup_insert_eq, lookup_alter_eq, Hf|].
        by rewrite lookup_insert_ne, lookup_alter_ne. }
    apply sound_set_file; [done| |exact (st_rows _ _ _ Hd f nf Hf)].
    intros g x Hg Hk. by eapply (unique_file _ (st_unique _ _ _ Hd)).
  - assert (alter (touch_file (Some now)) f (nar_files d) = nar_files d) as ->; [|by destruct d].
    apply map_eq. intros g. destruct (decide (g = f)) as [->|]; [by rewrite lookup_alter_eq, Hf|by rewrite lookup_alter_ne].
Qed.

Lemma links_of_fresh d : sound_tables d → links_of (fresh (dom (nar_files d))) d = [].
Proof.
  intros Hd. unfold links_of. destruct (nar_file_chunks d !! _) eqn:Hc; [|done]. exfalso.
  destruct (st_chunks _ _ _ Hd (fresh (dom (nar_files d)))) as [nf Hnf]; [by rewrite Hc|].
  apply (is_fresh (dom (nar_files d))). by apply elem_of_dom_2 in Hnf.
Qed.

(** A new row: not complete. *)
Lemma sound_new_file nf d :
  sound_tables d → nf_total_chunks nf = 0%Z → nar_files_where (nf_hash nf) (nf_compression nf) (nf_query nf) d = [] →
  sound_tables (set_nar_files (<[fresh (dom (nar_files d)) := nf]> (nar_files d)) d).
Proof.
  intros Hd Ht Hno. apply sound_set_file; [done| |intros Hpos; lia].
  intros g x Hg Hk. exfalso.
  destruct (nar_files_where_cases (nf_hash nf) (nf_compression nf) (nf_query nf) d (st_unique _ _ _ Hd)) as [[_ Hn]|(f & y & Hw & _)].
  - by eapply Hn.
  - congruence.
Qed.

(** The size recorded of a whole file fits a row marked complete. *)
Definition fits (v : URL) (written : Z) (d : tables) : Prop :=
  ∀ f nf, nar_files d !! f = Some nf → has_key (Hash v) (Compression v) (encode (Query v)) nf →
    (0 < nf_total_chunks nf)%Z → written = nf_file_size nf.

Lemma sound_ensure now u v written d :
  Normalize u = Ok v → sound_tables d → fits v written d →
  sound_tables (ensure_nar_file now u written d) ∧ fits v written (ensure_nar_file now u written d).
Proof.
  intros Hv Hd Hw. unfold ensure_nar_file. rewrite Hv.
  destruct (nar_files_where_cases (Hash v) (Compression v) (encode (Query v)) d (st_unique _ _ _ Hd)) as [[Hn Hno]|(f & nf & Hn & Hf & Hk)];
    rewrite Hn; split.
  - by apply sound_new_file.
  - intros g x Hx Hk. simpl in Hx. apply lookup_insert_Some in Hx as [[<- <-]|[_ Hx]]; [done|]. by eapply Hw.
  - apply sound_set_file; [done| |].
    + intros g x Hg Hkx. by eapply (unique_file _ (st_unique _ _ _ Hd)).
    + intros Ht. simpl in *. rewrite (Hw f nf) by done. exact (st_rows _ _ _ Hd f nf Hf Ht).
  - intros g x Hx Hk'. simpl in Hx. apply lookup_insert_Some in Hx as [[<- <-]|[_ Hx]]; [done|]. by eapply Hw.
Qed.

Lemma sound_set_db w d : sound w → sound_tables d → sound (set_db d w).
Proof. by intros [_ Hf Hc] Hd. Qed.
End sound.

(** ** Tables that differ in times of access *)

Definition erase_access (d : tables) : tables := set_nar_files (touch_file None <$> nar_files d) d.

Definition same_but_access (d d' : tables) : Prop := erase_access d = erase_access d'.

#[export] Instance same_but_access_equivalence : Equivalence same_but_access.
Proof. split; [done|by intros d d'|unfold same_but_access; congruence]. Qed.

Lemma same_but_access_touch now f d : same_but_access (touch_nar_file now f d) d.
Proof.
  unfold same_but_access, erase_access, touch_nar_file, set_nar_files. simpl. f_equal. apply map_eq. intros g.
  rewrite !lookup_fmap. destruct (decide (g = f)) as [->|]; [rewrite lookup_alter_eq|by rewrite lookup_alter_ne].
  by destruct (nar_files d !! f).
Qed.

Lemma same_but_access_file d d' f nf :
  same_but_access d d' → nar_files d !! f = Some nf → ∃ t, nar_files d' !! f = Some (touch_file t nf).
Proof.
  intros Hs Hf. apply (f_equal (λ d, nar_files d !! f)) in Hs. simpl in Hs. rewrite !lookup_fmap, Hf in Hs.
  destruct (nar_files d' !! f) as [nf'|]; [|done]. simpl in Hs. exists (nf_last_accessed_at nf').
  destruct nf, nf'. unfold touch_file in *. simpl in *. by injection Hs as -> -> -> -> -> -> -> ->.
Qed.

Lemma same_but_access_tables d d' :
  same_but_access d d' → narinfos d = narinfos d' ∧ links d = links d' ∧ nar_file_chunks d = nar_file_chunks d'.
Proof. intros Hs. split_and!; [apply (f_equal narinfos Hs)|apply (f_equal links Hs)|apply (f_equal nar_file_chunks Hs)]. Qed.

Lemma same_but_access_unique d d' : same_but_access d d' → unique_keys d → unique_keys d'.
Proof.
  intros Hs Hu. destruct (same_but_access_tables _ _ Hs) as (Hi & _ & _). split.
  - rewrite <- Hi. apply Hu.
  - intros i j x y h c q Hx Hy Hkx Hky. symmetry in Hs.
    destruct (same_but_access_file _ _ _ _ Hs Hx) as [t Hx'], (same_but_access_file _ _ _ _ Hs Hy) as [t' Hy'].
    by eapply (unique_file _ Hu _ _ _ _ h c q Hx' Hy').
Qed.

Lemma sound_same content digest d d' : same_but_access d d' → sound_tables content digest d → sound_tables content digest d'.
Proof.
  intros Hs Hd. destruct (same_but_access_tables _ _ Hs) as (_ & _ & Hc). split.
  - by eapply same_but_access_unique, (st_unique _ _ _ Hd).
  - intros f nf Hf. symmetry in Hs. destruct (same_but_access_file _ _ _ _ Hs Hf) as [t Hf'].
    pose proof (st_rows _ _ _ Hd _ _ Hf') as Hr. unfold links_of in *. by rewrite <- Hc.
  - intros f. rewrite <- Hc. intros [nf Hf]%(st_chunks _ _ _ Hd).
    destruct (same_but_access_file _ _ _ _ Hs Hf) as [t Hf']. eauto.
Qed.

(** ** Looking a NAR's row up *)

Section lookup.
Context `{GN : GoNix} (cfg : Config).

Definition lookup_nar_file (u : URL) (d : tables) : result dberr (Z * nar_file) :=
  let '(first, second) := if isCDCEnabled cfg then (CompressionTypeNone, Compression u) else (Compression u, CompressionTypeNone) in
  match find_nar_file (Hash u) first (encode (Query u)) d with
  | Err RowNotFound =>
      if bool_decide (first = second) then Err RowNotFound else find_nar_file (Hash u) second (encode (Query u)) d
  | r => r
  end.

Lemma wp_getNarFileFromDB b u (Q : result cache_err (result dberr (Z * nar_file)) → world → Prop) w :
  (b = true → ∀ e, Q (Err (EDb e)) w) → Q (Ok (lookup_nar_file u (db w))) w → wp b (getNarFileFromDB cfg u) Q w.
Proof.
  intros He HQ. unfold getNarFileFromDB, lookup_nar_file in *. destruct (if isCDCEnabled cfg then _ else _) as [c1 c2].
  apply wp_bind, wp_query; [by intros Hb; apply He|].
  destruct (find_nar_file (Hash u) c1 _ _) as [x|[]]; try by apply wp_ret.
  case_bool_decide; [by apply wp_ret|]. apply wp_query; [by intros Hb; apply He|done].
Qed.

Lemma find_nar_file_cases h c q d :
  unique_keys d →
  (find_nar_file h c q d = Err RowNotFound ∧ nar_files_where h c q d = []) ∨
  ∃ f nf, find_nar_file h c q d = Ok (f, nf) ∧ nar_files_where h c q d = [(f, nf)] ∧
    nar_files d !! f = Some nf ∧ has_key h c q nf.
Proof.
  intros Hu. unfold find_nar_file.
  destruct (nar_files_where_cases h c q d Hu) as [[Hw _]|(f & nf & Hw & Hf & Hk)]; rewrite Hw; [by left|].
  right. by exists f, nf.
Qed.

Lemma lookup_nar_file_inv u d :
  unique_keys d →
  lookup_nar_file u d = Err RowNotFound ∨
  ∃ f nf, lookup_nar_file u d = Ok (f, nf) ∧ nar_files d !! f = Some nf ∧
    (has_key (Hash u) CompressionTypeNone (encode (Query u)) nf ∨ has_key (Hash u) (Compression u) (encode (Query u)) nf).
Proof.
  intros Hu. unfold lookup_nar_file. pose proof (λ c, find_nar_file_cases (Hash u) c (encode (Query u)) d Hu) as Hc.
  destruct (isCDCEnabled cfg).
  - destruct (Hc CompressionTypeNone) as [[-> _]|(f & nf & -> & _ & Hf & Hk)]; [|right; exists f, nf; auto].
    case_bool_decide; [by left|].
    destruct (Hc (Compression u)) as [[-> _]|(f & nf & -> & _ & Hf & Hk)]; [by left|right; exists f, nf; auto].
  - destruct (Hc (Compression u)) as [[-> _]|(f & nf & -> & _ & Hf & Hk)]; [|right; exists f, nf; auto].
    case_bool_decide; [by left|].
    destruct (Hc CompressionTypeNone) as [[-> _]|(f & nf & -> & _ & Hf & Hk)]; [by left|right; exists f, nf; auto].
Qed.

Lemma after_nar_file_tx {V} sure u (v : V) d :
  after sure (λ r v' d', v' = v ∧ d' = d ∧ (sure = true → r = lookup_nar_file u d) ∧
    (is_ok r = true → r = lookup_nar_file u d)) (nar_file_tx cfg u) v d.
Proof.
  unfold nar_file_tx, lookup_nar_file. destruct (if isCDCEnabled cfg then _ else _) as [c1 c2].
  apply after_bind, after_query; [intros Hs ?; split_and!; [done..|by rewrite Hs|done]|]. apply after_bind.
  destruct (find_nar_file (Hash u) c1 _ _) as [x|[]]; try (apply after_ret, after_lift; by split_and!).
  case_bool_decide; [apply after_ret, after_lift; by split_and!|].
  apply after_query; [intros Hs ?; split_and!; [done..|by rewrite Hs|done]|]. apply after_lift. by split_and!.
Qed.
End lookup.

(** ** Serving from chunks *)

(** Reading leaves the world as it was, but for times of access. *)
Definition world_same `{GoNix} (w w' : world) : Prop := ∃ d', w' = set_db d' w ∧ same_but_access (db w) d'.

Lemma world_same_refl `{GoNix} w : world_same w w.
Proof. exists (db w). split; [by destruct w|done]. Qed.

Lemma world_same_set `{GoNix} w d : same_but_access (db w) d → world_same w (set_db d w).
Proof. intros Hd. by exists d. Qed.

Lemma world_same_trans `{GoNix} w1 w2 w3 : world_same w1 w2 → world_same w2 w3 → world_same w1 w3.
Proof. intros (d & -> & Hd) (d' & -> & Hd'). exists d'. split; [done|]. simpl in *. by transitivity d. Qed.

Lemma sound_world_same `{GoNix} {CD : Codec} content digest w w' :
  world_same w w' → sound content digest w → sound content digest w'.
Proof. intros (d & -> & Hd) Hw. apply sound_set_db; [done|]. by eapply sound_same, (so_tables _ _ _ Hw). Qed.

Section serving.
Context `{GN : GoNix} {SG : Signing} {CD : Codec} (content digest : string → string) `{!Inj (=) (=) digest}.
Context (cfg : Config) (now : Z).
Notation sound := (sound content digest).
Notation nar_named := (nar_named content).

Lemma concat_strings_cons a l : concat_strings (a :: l) = a +:+ concat_strings l.
Proof. done. Qed.

(** What the reader of chunks is given is the pieces, unless it breaks. *)
Lemma wp_stream_chunks b pieces w :
  sound_chunks digest (chunkFiles w) →
  wp b (streamChunksWithPrefetch (digest <$> pieces)) (λ r w', w' = w ∧ ∃ t, r = Ok t ∧
    (s_breaks t = false → s_bytes t = concat_strings pieces) ∧
    (b = false → (∀ p, p ∈ pieces → is_Some (chunkFiles w !! digest p)) → s_breaks t = false)) w.
Proof.
  intros Hc. induction pieces as [|p pieces IH]; simpl; [apply wp_ret; split; [done|]; by eexists|].
  apply wp_bind, wp_try, wp_query.
  - intros ->. apply wp_ret. split; [done|]. by eexists.
  - destruct (chunkFiles w !! digest p) as [c|] eqn:Hp.
    + apply Hc in Hp as Hd. simpl in Hd. apply (inj digest) in Hd as ->.
      apply wp_bind. eapply wp_mono; [exact IH|]. intros r w' (-> & t & -> & Ht & Hall). apply wp_ret. split; [done|].
      eexists. split; [done|]. simpl. split; [intros Hb; by rewrite (Ht Hb)|].
      intros Hb Hps. apply Hall; [done|]. intros q Hq. apply Hps. by right.
    + apply wp_ret. split; [done|]. eexists. split; [done|]. split; [done|]. intros _ Hps.
      destruct (Hps p) as [? Hs]; [by left|]. congruence.
Qed.

(** The whole stream of a row marked complete with all its links. *)
Lemma wp_stream_complete b f nf w :
  sound w → nar_files (db w) !! f = Some nf → (0 < nf_total_chunks nf)%Z →
  Z.of_nat (length (links_of f (db w))) = nf_total_chunks nf →
  wp b (streamCompleteChunks f (nf_total_chunks nf)) (λ r w', w' = w ∧ ∃ t, r = Ok t ∧
    (s_breaks t = false → s_bytes t = nar_named (nf_hash nf)) ∧
    (b = false → Forall (λ h, is_Some (chunkFiles w !! h)) (links_of f (db w)) → s_breaks t = false)) w.
Proof.
  intros Hw Hf Hpos Hlen. destruct (st_rows _ _ _ (so_tables _ _ _ Hw) f nf Hf Hpos) as (_ & _ & Hl).
  destruct (Hl Hlen) as (pieces & Hls & Hcat).
  apply wp_bind, wp_try, wp_query.
  - intros ->. apply wp_ret. split; [done|]. by eexists.
  - rewrite bool_decide_true by done. rewrite Hls, <- Hcat.
    eapply wp_mono; [apply wp_stream_chunks, Hw|]. intros r w' (-> & t & -> & Ht & Hall).
    split; [done|]. exists t. split_and!; [done..|]. intros Hb Hps. apply Hall; [done|].
    intros p Hp. rewrite Forall_forall in Hps. apply Hps. by apply list_elem_of_fmap_2.
Qed.

(** Nothing of a row still being chunked is given as a whole. *)
Lemma wp_stream_progressive b f w :
  wp b (streamProgressiveChunks f) (λ r w', w' = w ∧ ∃ t, r = Ok t ∧ s_breaks t = true) w.
Proof.
  apply wp_bind, wp_try, wp_query; [intros ->; apply wp_ret; split; [done|]; by eexists|].
  apply wp_bind. generalize (links_of f (db w)). intros l.
  assert (wp b (streamChunksWithPrefetch l) (λ r w', w' = w ∧ ∃ t, r = Ok t) w) as Hl.
  { induction l as [|h l IH]; simpl; [apply wp_ret; by eauto|].
    apply wp_bind, wp_try, wp_query; [intros ->; apply wp_ret; by eauto|].
    destruct (chunkFiles w !! h); [|apply wp_ret; by eauto].
    apply wp_bind. eapply wp_mono; [exact IH|]. intros r w' (-> & t & ->). apply wp_ret. by eauto. }
  eapply wp_mono; [exact Hl|]. intros r w' (-> & t & ->). apply wp_ret. split; [done|]. by eexists.
Qed.

(** The closure of [getNarFromChunks]. *)
Definition chunks_post (u : URL) (v : Z * Z * Z) (d : tables) : Prop :=
  ∃ nf, nar_files d !! v.1.1 = Some nf ∧ v.1.2 = nf_file_size nf ∧ v.2 = nf_total_chunks nf ∧
    nf_hash nf = Hash u ∧ nf_query nf = encode (Query u) ∧ (nf_compression nf = CompressionTypeNone ∨ nf_compression nf = Compression u) ∧
    ((0 < nf_total_chunks nf)%Z → Z.of_nat (length (links_of v.1.1 d)) = nf_total_chunks nf).

Lemma chunks_post_touch u f nf d :
  nar_files d !! f = Some nf →
  (has_key (Hash u) CompressionTypeNone (encode (Query u)) nf ∨ has_key (Hash u) (Compression u) (encode (Query u)) nf) →
  ((0 < nf_total_chunks nf)%Z → Z.of_nat (length (links_of f d)) = nf_total_chunks nf) →
  ∀ d', same_but_access d d' → chunks_post u (f, nf_file_size nf, nf_total_chunks nf) d'.
Proof.
  intros Hf Hk Hl d' Hs. destruct (same_but_access_file _ _ _ _ Hs Hf) as [t Hf'].
  exists (touch_file t nf). unfold has_key in Hk. split_and!; simpl; [done..| | | |].
  1-3: by destruct Hk as [(? & ? & ?)|(? & ? & ?)]; auto.
  unfold links_of. destruct (same_but_access_tables _ _ Hs) as (_ & _ & <-). exact Hl.
Qed.

Lemma after_chunks_tx sure u v d :
  unique_keys d →
  after sure (λ r v' d', same_but_access d d' ∧ (is_ok r = true → chunks_post u v' d') ∧
    (sure = true → ∀ f nf, lookup_nar_file cfg u d = Ok (f, nf) →
      ((0 < nf_total_chunks nf)%Z → Z.of_nat (length (links_of f d)) = nf_total_chunks nf) →
      is_ok r = true ∧ v' = (f, nf_file_size nf, nf_total_chunks nf))) (chunks_tx cfg now u) v d.
Proof.
  intros Hu. unfold chunks_tx. apply after_bind. eapply after_mono; [apply after_nar_file_tx|].
  intros r v' d' (-> & -> & Hsure & Hok). destruct r as [[f nf]|e].
  2:{ split_and!; [done..|]. intros Hs f nf Hl. by rewrite <- (Hsure Hs) in Hl. }
  specialize (Hok eq_refl). symmetry in Hok.
  destruct (lookup_nar_file_inv cfg u d Hu) as [Hn|(f' & nf' & Hl & Hf & Hk)]; [congruence|].
  rewrite Hok in Hl. injection Hl as <- <-.
  apply after_bind, after_assign, after_bind.
  assert (∀ d', same_but_access d d' → after sure (λ r v' d', same_but_access d d' ∧ (is_ok r = true → chunks_post u v' d') ∧
    (sure = true → ∀ f0 nf0, lookup_nar_file cfg u d = Ok (f0, nf0) →
      ((0 < nf_total_chunks nf0)%Z → Z.of_nat (length (links_of f0 d)) = nf_total_chunks nf0) →
      is_ok r = true ∧ v' = (f0, nf_file_size nf0, nf_total_chunks nf0)))
    (if bool_decide (0 < nf_total_chunks nf)%Z then
       links ← query (λ d, length (links_of f d));
       if bool_decide (Z.of_nat links = nf_total_chunks nf) then mret () else throw (AppError ErrNotFound)
     else mret ()) (f, nf_file_size nf, nf_total_chunks nf) d') as Hguard.
  { intros d' Hs. assert (links_of f d' = links_of f d) as Hlinks.
    { unfold links_of. by destruct (same_but_access_tables _ _ Hs) as (_ & _ & ->). }
    case_bool_decide as Hpos.
    - apply after_bind, after_query; [intros Hf' ?; split_and!; [done..|by rewrite Hf']|]. rewrite Hlinks. case_bool_decide as Hlen.
      + apply after_ret. split_and!; [done| |intros _ f0 nf0 Hl0 _; rewrite Hok in Hl0; by simplify_eq].
        intros _. by eapply chunks_post_touch.
      + apply after_throw. split_and!; [done..|]. intros _ f0 nf0 Hl0 Hlen0. rewrite Hok in Hl0. simplify_eq. by destruct Hlen; auto.
    - apply after_ret. split_and!; [done| |intros _ f0 nf0 Hl0 _; rewrite Hok in Hl0; by simplify_eq].
      intros _. by eapply chunks_post_touch. }
  destruct (stale _ _ _); [|by apply after_ret, Hguard].
  apply after_exec.
  - intros Hf' ?. split_and!; [done..|by rewrite Hf'].
  - apply Hguard. symmetry. apply same_but_access_touch.
Qed.

(** The URL that describes what is served from chunks. *)
Definition as_none (u : URL) : URL := with_zstd (with_compression u CompressionTypeNone) false.

Lemma wp_transaction_chunks b u (Q : result cache_err (result cache_err () * (Z * Z * Z)) → world → Prop) v w :
  unique_keys (db w) →
  (∀ e v' w', world_same w w' → Q (Ok (Err e, v')) w') →
  (∀ v' w', world_same w w' → chunks_post u v' (db w') → Q (Ok (Ok (), v')) w') →
  wp b (transaction (chunks_tx cfg now u) v) Q w.
Proof.
  intros Hu He HQ. apply (wp_transaction b (λ _ d, same_but_access (db w) d) (chunks_post u)).
  - done.
  - intros v' d Hd. eapply after_mono; [apply after_chunks_tx; by eapply same_but_access_unique|].
    intros r v1 d1 (Hs & Hp & _). assert (same_but_access (db w) d1) by (by transitivity d). split; [done|]. auto.
  - intros e v' d Hd. by apply He, world_same_set.
  - intros v' d Hd Hp. apply HQ; [by apply world_same_set|done].
Qed.

(** Whatever fails, a whole stream from the chunks is the NAR. *)
Lemma wp_getNarFromChunks b u w :
  sound w →
  wp b (getNarFromChunks cfg now u) (λ r w', world_same w w' ∧ ∀ u' size t, r = Ok (u', size, t) →
    u' = as_none u ∧ (s_breaks t = false →
      s_bytes t = nar_named (Hash u) ∧ size = Z.of_nat (String.length (s_bytes t)))) w.
Proof.
  intros Hw. unfold getNarFromChunks. destruct (negb _); [apply wp_throw; split; [apply world_same_refl|done]|].
  apply wp_bind, wp_transaction_chunks; [apply Hw|..].
  - intros e [[f size] total] w' Hs. by apply wp_bind, wp_lift.
  - intros [[f size] total] w' Hs (nf & Hf & Hsize & Htotal & Hh & _ & _ & Hlen). simpl in *. subst size total.
    pose proof (sound_world_same _ _ _ _ Hs Hw) as Hw'.
    apply wp_bind, wp_lift, wp_bind. case_bool_decide as Hpos.
    + eapply wp_mono; [by apply wp_stream_complete; auto|]. intros r w'' (-> & t & -> & Ht & _). apply wp_ret.
      split; [done|]. intros u' size t' [= <- <- <-]. split; [done|]. intros Hb. rewrite (Ht Hb), Hh. split; [done|].
      destruct (st_rows _ _ _ (so_tables _ _ _ Hw') f nf Hf Hpos) as (_ & -> & _). by rewrite Hh.
    + eapply wp_mono; [apply wp_stream_progressive|]. intros r w'' (-> & t & -> & Ht). apply wp_ret.
      split; [done|]. intros u' size t' [= <- <- <-]. split; [done|]. congruence.
Qed.

(** A row marked complete that the lookup finds, with all its links and chunks. *)
Definition whole_in_chunks (u : URL) (w : world) : Prop :=
  isChunkStoreAvailable cfg = true ∧ ∃ f nf, lookup_nar_file cfg u (db w) = Ok (f, nf) ∧ (0 < nf_total_chunks nf)%Z ∧
    Z.of_nat (length (links_of f (db w))) = nf_total_chunks nf ∧
    Forall (λ h, is_Some (chunkFiles w !! h)) (links_of f (db w)).

(** When nothing fails it is served from them. *)
Lemma wp_getNarFromChunks_calm u w :
  sound w → whole_in_chunks u w →
  wp false (getNarFromChunks cfg now u) (λ r w', world_same w w' ∧
    r = Ok (as_none u, Z.of_nat (String.length (nar_named (Hash u))), plain_stream (nar_named (Hash u)))) w.
Proof.
  intros Hw (Hcs & f0 & nf0 & Hl & Hpos & Hlen & Hall). unfold getNarFromChunks. rewrite Hcs. simpl.
  apply wp_bind, wp_transaction_calm.
  eapply after_mono; [apply after_chunks_tx, (st_unique _ _ _ (so_tables _ _ _ Hw))|].
  intros r v d (Hs & Hp & Hok). destruct (Hok eq_refl f0 nf0 Hl (λ _, Hlen)) as [Hr ->]. destruct r as [[]|]; [|done].
  destruct (Hp eq_refl) as (nf & Hf & Hsize & Htotal & Hh & _ & _ & Hlen'). simpl in *.
  pose proof (world_same_set w d Hs) as Hs'. pose proof (sound_world_same _ _ _ _ Hs' Hw) as Hw'.
  apply wp_bind, wp_lift, wp_bind. rewrite bool_decide_true by done. rewrite Htotal in *.
  assert (links_of f0 d = links_of f0 (db w)) as Hlinks.
  { unfold links_of. by destruct (same_but_access_tables _ _ Hs) as (_ & _ & ->). }
  eapply wp_mono; [by apply wp_stream_complete; auto|]. intros r w'' (-> & t & -> & Ht & Hb). apply wp_ret.
  split; [done|]. simpl in *. rewrite Hlinks in Hb. specialize (Hb eq_refl Hall). destruct t as [bs br]. simpl in *. subst br.
  destruct (st_rows _ _ _ (so_tables _ _ _ Hw') f0 nf Hf Hpos) as (_ & Hfs & _). rewrite Hsize, Hfs, Ht, Hh by done. done.
Qed.

(** ** Serving whole files *)

(** What is served for a URL: unless the stream breaks it is the NAR, compressed as the
    URL asks (or with zstd, for a client that undoes it, as the server labels it), and as
    long as announced. *)
Definition served (u : URL) (x : URL * Z * stream) : Prop :=
  let '(u', size, t) := x in
  Compression u' = Compression u ∧
  (s_breaks t = true ∨
   if bool_decide (Compression u' = CompressionTypeNone) && TransparentZstd u' then
     holds_nar CompressionTypeZstd (s_bytes t) (nar_named (Hash u))
   else holds_nar (Compression u) (s_bytes t) (nar_named (Hash u)) ∧
     ((0 < size)%Z → size = Z.of_nat (String.length (s_bytes t)))).

Lemma holds_none n : holds_nar CompressionTypeNone n n.
Proof. done. Qed.

Lemma served_breaks u u' size t t' :
  served u (u', size, t) → (t' = t ∨ s_breaks t' = true) → served u (u', size, t').
Proof. intros [Hc Ht] [->|Hb]; (split; [done|]); auto. Qed.

Lemma represent_served w u c p b :
  sound w → nar_path (with_compression u c) = Ok p → narStore w !! p = Some b →
  (c = Compression u ∨ Compression u = CompressionTypeNone) →
  ∃ x, represent u c b = Ok x ∧ served u x ∧ s_breaks x.2 = false.
Proof.
  intros Hw Hp Hb Hc. pose proof (so_files _ _ _ Hw _ _ _ Hp Hb) as Hn. simpl in Hn. unfold represent, served.
  destruct (bool_decide (c = CompressionTypeZstd) && TransparentZstd u) eqn:Hz.
  - eexists. split; [done|]. split; [|done]. split; [done|]. right. apply andb_true_iff in Hz as [->%bool_decide_eq_true Ht].
    case_bool_decide as Hnone; simpl; [by rewrite Ht|]. destruct Hc as [Hc|]; [|done]. by rewrite <- Hc.
  - clear Hz. destruct (decide (c = Compression u)) as [->|Hcu].
    + rewrite (bool_decide_true (Compression u = Compression u)) by done.
      eexists. split; [done|]. split; [|done]. split; [done|]. right. simpl. by rewrite andb_false_r.
    + rewrite (bool_decide_false (c = Compression u)) by done. simpl.
      destruct Hc as [|Hnone]; [done|]. unfold holds_nar in Hn. rewrite Hn. eexists. split; [done|]. split; [|done]. split; [done|].
      right. simpl. rewrite andb_false_r, Hnone. split; [done|lia].
Qed.

Lemma wp_first_stored b u cs w :
  wp b (first_stored u cs) (λ r w', w' = w ∧ ∃ o, r = Ok o ∧
    (∀ c, o = Some c → c ∈ cs ∧ stored_at (with_compression u c) w = true) ∧
    (b = false → o = None → Forall (λ c, stored_at (with_compression u c) w = false) cs)) w.
Proof.
  induction cs as [|c cs IH]; simpl; [apply wp_ret; split; [done|]; by eexists|].
  assert (wp b (first_stored u cs) (λ r w', w' = w ∧ ∃ o, r = Ok o ∧
    (∀ c', o = Some c' → c' ∈ c :: cs ∧ stored_at (with_compression u c') w = true) ∧
    (b = false → o = None → Forall (λ c, stored_at (with_compression u c) w = false) cs)) w) as Hrest.
  { eapply wp_mono; [exact IH|]. intros r w' (-> & o & -> & Ho & Hn). split; [done|]. exists o. split_and!; [done| |done].
    intros c' Hc'. destruct (Ho c' Hc'). split; [by right|done]. }
  apply wp_bind, wp_has.
  - intros ->. eapply wp_mono; [exact Hrest|]. intros r w' (-> & o & -> & Ho & Hn). split; [done|]. by exists o.
  - destruct (stored_at _ _) eqn:Hst.
    + apply wp_ret. split; [done|]. eexists. split_and!; [done| |done]. intros c' [= <-]. split; [by left|done].
    + eapply wp_mono; [exact Hrest|]. intros r w' (-> & o & -> & Ho & Hn). split; [done|]. exists o. split_and!; [done|done|].
      intros Hb Hno. constructor; auto.
Qed.

Lemma wp_narStore_GetNar b u (Q : result cache_err string → world → Prop) w :
  (∀ e, (b = true ∨ stored_at u w = false) → Q (Err e) w) →
  (∀ p x, nar_path u = Ok p → narStore w !! p = Some x → Q (Ok x) w) → wp b (narStore_GetNar u) Q w.
Proof.
  intros He HQ. unfold narStore_GetNar. unfold stored_at in He. destruct (nar_path u) as [p|]; [|apply wp_throw; auto].
  apply wp_bind, wp_query; [intros Hb; apply He; auto|]. apply wp_lift.
  destruct (narStore w !! p) eqn:Hp; [by eapply HQ|]. apply He. right. by apply bool_decide_eq_false; intros [? ?].
Qed.

Lemma wp_flaky b t (Q : result cache_err stream → world → Prop) w :
  Q (Ok t) w → (b = true → ∀ t', s_breaks t' = true → Q (Ok t') w) → wp b (flaky t) Q w.
Proof.
  intros HQ He s <- Hc. destruct (idle_next b s Hc) as (Hc' & _ & Hn). unfold flaky. destruct b; [|rewrite (Hn eq_refl)].
  - destruct (next s); simpl; split; auto.
  - by split.
Qed.

(** The closure that touches the row: without one, a record is needed. *)
Definition unrecorded (u : URL) (d : tables) : Prop := nar_files_where (Hash u) (Compression u) (encode (Query u)) d = [].

Lemma unrecorded_same u d d' : same_but_access d d' → unique_keys d → unrecorded u d → unrecorded u d'.
Proof.
  intros Hs Hu Hn. unfold unrecorded in *. symmetry in Hs. pose proof (same_but_access_unique _ _ (symmetry Hs) Hu) as Hu'.
  destruct (nar_files_where_cases (Hash u) (Compression u) (encode (Query u)) d' Hu') as [[-> _]|(f & nf & _ & Hf & Hk)]; [done|].
  destruct (same_but_access_file _ _ _ _ Hs Hf) as [t Hf'].
  destruct (nar_files_where_cases (Hash u) (Compression u) (encode (Query u)) d Hu) as [[_ Hno]|(g & x & Hw & _)]; [|congruence].
  by destruct (Hno _ _ Hf').
Qed.

Lemma after_touch_tx sure u c v d :
  unique_keys d →
  after sure (λ r v' d', same_but_access d d' ∧ (v' = true → v = true ∨ unrecorded u d) ∧ (sure = true → is_ok r = true)) (touch_tx cfg now u c) v d.
Proof.
  intros Hu.
  assert (∀ f : dbfault, sure = false → same_but_access d d ∧ (v = true → v = true ∨ unrecorded u d) ∧
    (sure = true → @is_ok dberr () (Err (Fault f)) = true)) as Hfault.
  { intros f Hs. split; [done|]. split; [auto|]. by rewrite Hs. }
  assert (∀ x : result dberr (Z * nar_file), (match x with Ok _ => True | Err e => e = RowNotFound ∧ unrecorded u d end) →
    after sure (λ r v' d', same_but_access d d' ∧ (v' = true → v = true ∨ unrecorded u d) ∧ (sure = true → is_ok r = true))
    (match x with
     | Ok (f, nf) => if stale now (recordAgeIgnoreTouch cfg) (nf_last_accessed_at nf) then exec (touch_nar_file now f) else mret ()
     | Err e => if IsNotFoundError e then assign (λ _, true) else throw e
     end) v d) as Hend.
  { intros [[f nf]|e] Hx.
    - destruct (stale _ _ _); [|apply after_ret; split_and!; auto; done].
      apply after_exec; [auto|].
      split_and!; [symmetry; apply same_but_access_touch|auto|done].
    - destruct Hx as [-> Hx]. apply after_assign. split_and!; [done|auto|done]. }
  assert (∀ h k q, find_nar_file h k q d = Err RowNotFound ∨ ∃ x, find_nar_file h k q d = Ok x) as Hfind.
  { intros h k q. destruct (find_nar_file_cases h k q d Hu) as [[? _]|(f & nf & ? & _)]; eauto. }
  assert (find_nar_file (Hash u) (Compression u) (encode (Query u)) d = Err RowNotFound → unrecorded u d) as Hun.
  { intros Hx. unfold unrecorded. destruct (find_nar_file_cases (Hash u) (Compression u) (encode (Query u)) d Hu) as [[_ ?]|(f & nf & Hy & _)]; [done|congruence]. }
  unfold touch_tx. apply after_bind, after_query; [auto|]. apply after_bind.
  destruct (Hfind (Hash u) (Compression u) (encode (Query u))) as [Hx|[x Hx]]; rewrite Hx.
  - case_bool_decide; [apply after_ret, (Hend (Err RowNotFound)); auto|]. apply after_query; [auto|].
    apply (Hend (find_nar_file (Hash u) c (encode (Query u)) d)).
    destruct (Hfind (Hash u) c (encode (Query u))) as [->|[y ->]]; auto.
  - apply after_ret. by apply (Hend (Ok x)).
Qed.

Lemma wp_transaction_touch b u c (Q : result cache_err (result cache_err () * bool) → world → Prop) w :
  unique_keys (db w) →
  (b = true → ∀ e v' w', world_same w w' → Q (Ok (Err e, v')) w') →
  (∀ v' w', world_same w w' → (v' = true → unrecorded u (db w')) → Q (Ok (Ok (), v')) w') →
  wp b (transaction (touch_tx cfg now u c) false) Q w.
Proof.
  intros Hu He HQ. destruct b.
  - apply (wp_transaction true (λ v d, same_but_access (db w) d ∧ (v = true → unrecorded u d)) (λ _ _, True)).
    + done.
    + intros v d [Hd Hv]. eapply after_mono; [apply after_touch_tx; by eapply same_but_access_unique|].
      intros r v1 d1 (Hs & Hv1 & _). assert (v1 = true → unrecorded u d) as Hun by (intros [?|?]%Hv1; auto).
      split; [split; [done|auto]|]. intros _. split; [|done]. split; [by transitivity d|].
      intros ?%Hun. eapply unrecorded_same; [done|by eapply same_but_access_unique|done].
    + intros e v d [Hd _]. by apply He, world_same_set.
    + intros v d [Hd Hv] _. apply HQ; [by apply world_same_set|done].
  - apply wp_transaction_calm. eapply after_mono; [by apply after_touch_tx|].
    intros r v1 d1 (Hs & Hv1 & Hok). specialize (Hok eq_refl). destruct r as [[]|]; [|done].
    apply HQ; [by apply world_same_set|]. intros [?|?]%Hv1; [done|]. by eapply unrecorded_same.
Qed.

(** Recording a whole file. *)
Lemma wp_ensureNarFile b u v written w :
  Normalize u = Ok v → sound w → fits v written (db w) →
  wp b (ensureNarFile now u written) (λ r w', ∃ d, w' = set_db d w ∧ sound w' ∧ fits v written d ∧ (b = false → is_ok r = true)) w.
Proof.
  intros Hv Hw Hfit. apply wp_transaction_. destruct b.
  - apply (wp_transaction true (λ _ d, sound_tables content digest d ∧ fits v written d) (λ _ _, True)).
    + split; [apply Hw|done].
    + intros [] d [Hd Hf]. apply after_exec; [by intros|]. intros. split; [done|]. intros _. split; [|done].
      by apply sound_ensure.
    + intros e [] d [Hd Hf]. exists d. split_and!; [done|by apply sound_set_db|done|done].
    + intros [] d [Hd Hf] _. exists d. split_and!; [done|by apply sound_set_db|done|done].
  - apply wp_transaction_calm, after_exec; [done|]. eexists. split_and!; [done| | |done].
    + apply sound_set_db; [done|]. by eapply sound_ensure; [done|apply Hw|].
    + by eapply sound_ensure; [done|apply Hw|].
Qed.

Lemma with_own_compression u : with_compression u (Compression u) = u.
Proof. by destruct u. Qed.

(** The compressed files that can stand for an uncompressed one. *)
Lemma wp_candidate b u w :
  wp b (if bool_decide (Compression u = CompressionTypeNone) then first_stored u wholeFileServeCompressions else mret None)
    (λ r w', w' = w ∧ ∃ o, r = Ok o ∧
      (default (Compression u) o = Compression u ∨ Compression u = CompressionTypeNone) ∧
      (b = false → in_store u w = true → stored_at (with_compression u (default (Compression u) o)) w = true)) w.
Proof.
  unfold in_store. case_bool_decide as Hnone.
  - eapply wp_mono; [apply wp_first_stored|]. intros r w' (-> & o & -> & Ho & Hn). split; [done|]. exists o. split_and!; [done|auto|].
    intros Hb. destruct o as [c|]; [intros _; by apply (Ho c)|]. specialize (Hn Hb eq_refl). simpl.
    apply Forall_cons in Hn as [-> [-> _]%Forall_cons]. by rewrite with_own_compression.
  - apply wp_ret. split; [done|]. eexists. split_and!; [done|by left|]. intros _. simpl. by rewrite with_own_compression.
Qed.

(** Whatever fails, what is served of a whole file is what is asked for. *)
Lemma wp_getNarFromStore b u w :
  sound w →
  wp b (getNarFromStore cfg now u) (λ r w', narStore w' = narStore w ∧ (normalized_match (Hash u) = true → sound w') ∧
    match r with
    | Ok x => served u x ∧ (b = false → s_breaks x.2 = false)
    | Err _ => world_same w w' ∧ (b = false → in_store u w = false)
    end) w.
Proof.
  intros Hw. pose proof (so_tables _ _ _ Hw) as Hd. apply wp_bind. eapply wp_mono; [apply wp_candidate|].
  intros r w' (-> & o & -> & Ho & Hst). set (c := default (Compression u) o) in *.
  apply wp_bind, wp_narStore_GetNar.
  { intros e Hc. split_and!; [done|done|apply world_same_refl|]. intros Hb. destruct Hc as [|Hc]; [congruence|].
    apply not_true_is_false. intros Hin%Hst; [|done]. congruence. }
  intros p bytes Hp Hb. destruct (represent_served w u c p bytes Hw Hp Hb Ho) as ([[u' size] t] & Hr & Hserved & Hbr).
  apply wp_bind, wp_lift. rewrite Hr. apply wp_bind, wp_transaction_touch; [apply Hd|..].
  { intros -> e v w' Hs. apply wp_bind, wp_lift. split_and!; [by destruct Hs as (? & -> & _)| |done|done].
    intros _. by eapply sound_world_same. }
  intros needs w' Hs Hneeds. pose proof (sound_world_same _ _ _ _ Hs Hw) as Hw'. apply wp_bind, wp_lift.
  assert (Hash u' = Hash u ∧ Compression u' = Compression u ∧ Query u' = Query u) as (Hhu & Hcu & Hqu).
  { unfold represent in Hr. repeat case_match; by simplify_eq/=. }
  assert (∀ w1, narStore w1 = narStore w → (normalized_match (Hash u) = true → sound w1) →
    wp b (t ← flaky t; mret (u', size, t)) (λ r w', narStore w' = narStore w ∧ (normalized_match (Hash u) = true → sound w') ∧
      match r with
      | Ok x => served u x ∧ (b = false → s_breaks x.2 = false)
      | Err _ => world_same w w' ∧ (b = false → in_store u w = false)
      end) w1) as Hend.
  { intros w1 Hn1 Hw1. apply wp_bind, wp_flaky.
    - apply wp_ret. split; [done|]. split; [done|]. by split.
    - intros Hb' t' Ht'. apply wp_ret. split; [done|]. split; [done|]. split; [by eapply served_breaks; [|right]|congruence]. }
  assert (narStore w' = narStore w) as Hn by by destruct Hs as (? & -> & _).
  apply wp_bind. destruct needs; [|apply wp_ret; by apply Hend].
  apply wp_bind, wp_try. destruct (normalized_match (Hash u)) eqn:Hnm.
  - assert (Normalize u' = Ok (mkURL (Hash u') (Compression u') (Query u') false "")) as Hv.
    { unfold Normalize. rewrite Hhu, lenient_submatch_normalized, Hnm by done. by rewrite Hcu, Hqu. }
    eapply wp_mono; [eapply (wp_ensureNarFile _ _ _ _ _ Hv Hw')|].
    + intros f nf Hf Hk _. exfalso. simpl in Hk. rewrite Hhu, Hcu, Hqu in Hk. specialize (Hneeds eq_refl). unfold unrecorded in Hneeds.
      destruct (nar_files_where_cases (Hash u) (Compression u) (encode (Query u)) (db w') (st_unique _ _ _ (so_tables _ _ _ Hw'))) as [[_ Hno]|(g & x & Hx & _)];
        [by apply (Hno f nf)|congruence].
    + intros r w'' (d & -> & Hw'' & _). apply wp_ret. by apply Hend.
  - apply wp_transaction_, (wp_transaction _ (λ _ _, True) (λ _ _, True)); [done| | |].
    + intros v d _. apply after_exec; [by intros|]. by intros.
    + intros e [] d _. by apply wp_ret, Hend.
    + intros [] d _ _. by apply wp_ret, Hend.
Qed.

Lemma served_from_chunks u size t :
  Compression u = CompressionTypeNone →
  (s_breaks t = false → s_bytes t = nar_named (Hash u) ∧ size = Z.of_nat (String.length (s_bytes t))) →
  served u (as_none u, size, t).
Proof.
  intros Hnone Ht. split; [done|]. destruct (s_breaks t) eqn:Hb; [by left|]. destruct (Ht eq_refl) as [Hbytes Hsize].
  right. simpl. rewrite Hnone, Hbytes. split; [apply holds_none|]. by rewrite Hsize, Hbytes.
Qed.

Lemma wp_serve_none_from_chunks b u w :
  sound w → Compression u = CompressionTypeNone →
  wp b (getNarFromChunks cfg now u) (λ r w', world_same w w' ∧ ∀ x, r = Ok x → served u x) w.
Proof.
  intros Hw Hnone. eapply wp_mono; [by apply wp_getNarFromChunks|]. intros r w' [Hs Hr]. split; [done|].
  intros [[u' size] t] ->. destruct (Hr _ _ _ eq_refl) as [-> Ht]. by apply served_from_chunks.
Qed.

(** Whatever fails, what is served from storage is what is asked for. *)
Lemma wp_serve `{!CodecLaws} b u hasInStore w :
  sound w →
  wp b (serveNarFromStorageViaPipe cfg now u hasInStore) (λ r w', (normalized_match (Hash u) = true → sound w') ∧
    ∀ x, r = Ok x → served u x) w.
Proof.
  intros Hw. unfold serveNarFromStorageViaPipe.
  assert (∀ A (r : result cache_err A) (P : A → Prop) w', world_same w w' → (∀ x, r = Ok x → P x) →
    (normalized_match (Hash u) = true → sound w') ∧ ∀ x, r = Ok x → P x) as Hend.
  { intros A r P w' Hs Hr. split; [|done]. intros _. by eapply sound_world_same. }
  apply wp_bind.
  assert (wp b (if hasInStore && isCDCEnabled cfg then
      r ← try (E' := cache_err) (getNarFileFromDB cfg u);
      mret (match r with Ok (Ok (_, nr)) => bool_decide (0 < nf_total_chunks nr)%Z && bool_decide (Compression u = CompressionTypeNone) | _ => false end)
    else mret false) (λ r w', w' = w ∧ ∃ c, r = Ok c) w) as Hchunked.
  { destruct (_ && _); [|apply wp_ret; eauto]. apply wp_bind, wp_try, wp_getNarFileFromDB; [|by apply wp_ret; eauto].
    intros _ e. by apply wp_ret; eauto. }
  eapply wp_mono; [exact Hchunked|]. intros r w' (-> & chunked & ->). clear Hchunked. generalize (negb hasInStore && isChunkStoreAvailable cfg || chunked).
  intros from. destruct (decide (Compression u = CompressionTypeNone)) as [Hnone|Hnone].
  - rewrite (bool_decide_true (Compression u = CompressionTypeNone)) by done. rewrite andb_false_r. destruct from.
    + eapply wp_mono; [by apply wp_serve_none_from_chunks|]. intros r w' [Hs Hr]. by apply Hend.
    + apply wp_bind, wp_try. eapply wp_mono; [by apply wp_getNarFromStore|]. intros [x|e] w' (_ & Hw' & Hx).
      { apply wp_ret. split; [done|]. intros y [= <-]. by destruct Hx. }
      destruct Hx as [Hs _]. destruct e; try (apply wp_throw; by apply Hend).
      destruct (isChunkStoreAvailable cfg && true); [|apply wp_throw; by apply Hend]. apply wp_bind, wp_try.
      eapply wp_mono; [apply wp_serve_none_from_chunks; [by eapply sound_world_same|done]|]. intros [x|e] w'' [Hs' Hx].
      * apply wp_ret, Hend; [by eapply world_same_trans|done].
      * destruct (not_there e); apply wp_throw, Hend; done || by eapply world_same_trans.
  - rewrite (bool_decide_false (Compression u = CompressionTypeNone)) by done. rewrite !andb_true_r, !andb_false_r. destruct from.
    + destruct (decide (Compression u = CompressionTypeZstd)) as [Hz|Hz];
        [rewrite bool_decide_true by done|rewrite bool_decide_false by done; apply wp_throw; by apply Hend; [apply world_same_refl|]].
      apply wp_bind. eapply wp_mono; [by apply wp_getNarFromChunks|]. intros [[[u' size] t]|e] w' [Hs Hr]; [|by apply Hend].
      apply wp_ret, Hend; [done|]. intros x [= <-]. destruct (Hr _ _ _ eq_refl) as [-> Ht].
      split; [done|]. simpl. destruct (s_breaks t); [by left|]. destruct (Ht eq_refl) as [-> _]. right.
      rewrite bool_decide_false by done. simpl. rewrite Hz. split; [|done]. exact (decode_zstd _).
    + apply wp_bind, wp_try. eapply wp_mono; [by apply wp_getNarFromStore|]. intros [x|e] w' (_ & Hw' & Hx).
      { apply wp_ret. split; [done|]. intros y [= <-]. by destruct Hx. }
      destruct Hx as [Hs _]. destruct e; apply wp_throw; by apply Hend.
Qed.

(** ** What the client makes of a response *)

Definition decode_content (encoding b : string) : option string :=
  if bool_decide (encoding = "") then Some b else
  match decoder encoding b with
  | Some t => if s_breaks t then None else Some (s_bytes t)
  | None => None
  end.

(** The body breaks off, or it is the NAR asked for, in the compression asked for. *)
Definition delivers (u : URL) (resp : response) : Prop :=
  s_breaks (body resp) = true ∨
  ∃ b, decode_content (contentEncoding resp) (s_bytes (body resp)) = Some b ∧
    holds_nar (Compression u) b (nar_named (Hash u)).

Lemma parseAcceptEncoding_cases ae : parseAcceptEncoding ae ∈ [""; "zstd"; "br"; "gzip"].
Proof. unfold parseAcceptEncoding. repeat case_bool_decide; set_solver. Qed.

Lemma decode_zstd_body `{!CodecLaws} b n : holds_nar CompressionTypeZstd b n → decode_content "zstd" b = Some n.
Proof. intros Hn. change (decoder "zstd" b = Some (plain_stream n)) in Hn. unfold decode_content. simpl. by rewrite Hn. Qed.

Lemma write_body_whole declared t :
  (∀ n, declared = Some n → n = Z.of_nat (String.length (s_bytes t))) → write_body declared t = t.
Proof.
  intros Hn. destruct declared as [n|]; [|done]. simpl. rewrite (Hn n eq_refl), bool_decide_true by done.
  destruct t. by rewrite orb_false_r.
Qed.

Lemma respond_delivers `{!CodecLaws} u ae x :
  served u x → delivers u (respond ae x) ∧ (s_breaks x.2 = false → s_breaks (body (respond ae x)) = false).
Proof.
  destruct x as [[u' size] t]. intros [Hc Ht]. unfold delivers, respond. rewrite Hc in *. simpl.
  destruct (decide (s_breaks t = true)) as [Hb|Hb].
  { split; [left|by rewrite Hb]. assert (∀ o t', s_breaks t' = true → s_breaks (write_body o t') = true) as Hw.
    { intros [n|] t' Ht'; simpl; by rewrite Ht'. }
    apply Hw. destruct (bool_decide _ && _); [done|]. repeat case_bool_decide; done. }
  destruct Ht as [|Ht]; [done|]. apply not_true_is_false in Hb.
  destruct (bool_decide (Compression u = CompressionTypeNone) && TransparentZstd u') eqn:Hraw.
  - split; [right|done]. exists (nar_named (Hash u)). apply andb_true_iff in Hraw as [Hnone%bool_decide_eq_true _]. rewrite Hnone.
    split; [by apply decode_zstd_body|apply holds_none].
  - destruct Ht as [Ht Hsize].
    assert (write_body (if bool_decide (0 < size)%Z then Some size else None) t = t) as Hwhole.
    { apply write_body_whole. intros n. destruct (bool_decide (0 < size)%Z) eqn:Hp; [|done]. apply bool_decide_eq_true in Hp. intros [= <-]. auto. }
    clear Hraw. destruct (decide (Compression u = CompressionTypeNone)) as [Hnone|Hnone];
      [rewrite (bool_decide_true (Compression u = _)) by done|rewrite (bool_decide_false (Compression u = _)) by done]; simpl.
    + assert (s_bytes t = nar_named (Hash u)) as Hbytes by (rewrite Hnone in Ht; by injection Ht).
      pose proof (parseAcceptEncoding_cases ae) as Henc. rewrite !elem_of_cons in Henc.
      assert (∀ e, parseAcceptEncoding ae = e → ∀ b, decode_content e b = Some (nar_named (Hash u)) →
        ∃ b', decode_content e b = Some b' ∧ holds_nar (Compression u) b' (nar_named (Hash u))) as Hend.
      { intros e _ b Hd. exists (nar_named (Hash u)). rewrite Hnone. by split. }
      destruct Henc as [He|[He|[He|[He|Henc]]]]; [..|by apply elem_of_nil in Henc]; specialize (Hend _ He); rewrite He; simpl.
      * rewrite Hwhole. split; [right|done]. apply Hend. by rewrite Hbytes.
      * split; [right|done]. rewrite Hbytes. apply Hend, decode_zstd_body. exact (decode_zstd _).
      * split; [right|done]. rewrite Hbytes. apply Hend. unfold decode_content. simpl. by rewrite decode_brotli.
      * split; [right|done]. rewrite Hbytes. apply Hend. unfold decode_content. simpl. by rewrite decode_gzip.
    + rewrite Hwhole. split; [|done]. right. by exists (s_bytes t).
Qed.

(** ** Whole requests *)

Context (uploadOnly : bool) (upstream : string → option NarInfo) (fetch : URL → option stream).

(** The URL a narinfo's row gives the NAR upstream. *)
Definition original (row : narinfo_row) : option URL :=
  if is_empty (r_url row) then None else
  match ParseURL (derefStringPtr (r_url row)) with
  | Err _ => None
  | Ok v => Some (if is_empty (r_upstream_url row) then v else WithOpaqueUpstreamRef v (derefStringPtr (r_upstream_url row)))
  end.

(** Where a download of a NAR may come from gives that NAR: what is fetched does not break
    off and holds what its URL names, the narinfos linked to the NAR's row advertise it,
    and so do the upstream's narinfos under their hashes, with their sizes; and no download
    of it is running. *)
Record honest (u : URL) (w : world) : Prop := {
  ho_fetch v t : fetch v = Some t → s_breaks t = false ∧ holds_nar (Compression v) (s_bytes t) (nar_named (Hash v));
  ho_linked row v : row ∈ linked_narinfos (Hash u) (Compression u) (encode (Query u)) (db w) → original row = Some v →
    Hash v = Hash u ∧ Compression v = Compression u;
  ho_upstream i row v url ni o :
    narinfos (db w) !! i = Some row → r_url row = Some url → URLString v = Ok url →
    (v = u ∨ ∃ row, row ∈ linked_narinfos (Hash u) (Compression u) (encode (Query u)) (db w) ∧ original row = Some v) →
    upstream (r_hash row) = Some ni → ParseUpstreamURL (InfoURL ni) (narInfoStorageKey ni) = Ok o →
    normal_hash (Hash o) = normal_hash (Hash u) ∧ NarSize ni ≠ 0%Z;
  ho_idle : Hash u ∉ upstreamJobs w;
}.

Lemma wp_lookupOriginalNarURL b u (Q : result cache_err URL → world → Prop) w :
  Q (Ok u) w →
  (∀ row v, row ∈ linked_narinfos (Hash u) (Compression u) (encode (Query u)) (db w) → original row = Some v → Q (Ok v) w) →
  wp b (lookupOriginalNarURL u) Q w.
Proof.
  intros Hu Hv. apply wp_bind, wp_try, wp_query; [intros _; by apply wp_ret|]. apply wp_ret.
  destruct (head _) as [row|] eqn:Hh; [|done].
  assert (row ∈ linked_narinfos (Hash u) (Compression u) (encode (Query u)) (db w)) as Hin.
  { destruct (linked_narinfos _ _ _ _); [done|]. injection Hh as ->. by left. }
  specialize (Hv row). unfold original in Hv. destruct (is_empty (r_url row)); [done|].
  destruct (ParseURL _) as [v|]; [|done]. destruct (is_empty (r_upstream_url row)); by apply Hv.
Qed.

(** *** Operations that only look *)

Lemma wp_looks {A} b (m : eff state cache_err A) (Q : result cache_err A → world → Prop) w :
  preserves (eq w) m → (∀ r, Q r w) → wp b m Q w.
Proof. intros Hm HQ. eapply wp_mono; [by apply Hm|]. by intros r w' <-. Qed.

Lemma looks_statNarInStore w0 u : preserves (eq w0) (statNarInStore u).
Proof. unfold statNarInStore, stat_candidates, wholeFileServeCompressions, StatNar. preserving fail. Qed.

Lemma looks_HasNarInStore w0 u : preserves (eq w0) (HasNarInStore u).
Proof. unfold HasNarInStore. preserving ltac:(apply looks_statNarInStore). Qed.

Lemma looks_HasNarInChunks w0 u : preserves (eq w0) (HasNarInChunks cfg u).
Proof. unfold HasNarInChunks, nar_file_row, getNarFileFromDB. preserving fail. Qed.

Lemma looks_narServability w0 u : preserves (eq w0) (narServability cfg u).
Proof.
  unfold narServability, nar_file_row, getNarFileFromDB, cdcChunkerLive. preserving ltac:(apply looks_HasNarInStore).
Qed.

(** The same tables and stores. *)
Definition same_stores (w w' : world) : Prop := db w' = db w ∧ narStore w' = narStore w ∧ chunkFiles w' = chunkFiles w.

Lemma sound_same_stores w w' : same_stores w w' → sound w → sound w'.
Proof. intros (Hd & Hn & Hc) [? ? ?]. split; [by rewrite Hd|by rewrite Hn|by rewrite Hc]. Qed.

Lemma wp_prePullNar b u p ni w :
  Hash u ∉ upstreamJobs w →
  wp b (prePullNar cfg u p ni) (λ r w', same_stores w w' ∧
    ∀ d, r = Ok d → d = Active (JPullNar u p ni) ∨ ∃ e, d = Complete e) w.
Proof.
  intros Hj. unfold prePullNar. apply wp_bind, wp_hasUpstreamJob. rewrite bool_decide_false by done.
  apply wp_bind, wp_looks; [apply preserves_has|]. intros [acq|e]; [|by split].
  apply wp_bind, wp_looks.
  { unfold or_else. destruct acq; [apply preserves_ret|]. intros b' w' Hw s <- Hc. by split; [apply calm_put|]. }
  intros [got|e]; [|by split]. apply wp_bind, wp_looks; [apply preserves_try, looks_narServability|].
  assert (wp b (if got : bool then start_download (Hash u) (JPullNar u p ni) else mret (Complete (Some ENotFound)))
    (λ r w', same_stores w w' ∧ ∀ d, r = Ok d → d = Active (JPullNar u p ni) ∨ ∃ e, d = Complete e) w) as Hstart.
  { destruct got; [|apply wp_ret; split; [done|]; intros d [= <-]; eauto].
    apply wp_start_download; [intros _|]; (split; [done|]); intros d [= <-]; eauto. }
  intros [[[[] fin]|e]|e]; [|exact Hstart..|by split]. apply wp_ret. split; [done|]. intros d [= <-]. eauto.
Qed.

(** The preferred URL: another one of the NAR. *)
Lemma wp_lookupPreferredUpstreamURL b u v w :
  honest u w → Compression v = Compression u →
  (v = u ∨ ∃ row, row ∈ linked_narinfos (Hash u) (Compression u) (encode (Query u)) (db w) ∧ original row = Some v) →
  wp b (lookupPreferredUpstreamURL cfg upstream v) (λ r w', w' = w ∧ ∀ p ni, r = Ok (p, ni) → ∀ o, p = Some o →
    isCDCEnabled cfg = true ∧ Compression v = CompressionTypeNone ∧ normal_hash (Hash o) = normal_hash (Hash u) ∧
    Compression o ≠ CompressionTypeNone ∧ ∃ n, ni = Some n ∧ NarSize n ≠ 0%Z) w.
Proof.
  intros Hh Hc Hv. unfold lookupPreferredUpstreamURL.
  destruct (isCDCEnabled cfg) eqn:Hcdc; [|apply wp_ret; split; [done|]; by intros p ni [= <- <-]].
  case_bool_decide as Hnone; [|apply wp_ret; split; [done|]; by intros p ni [= <- <-]]. simpl.
  apply wp_bind, wp_hasUpstreamJob. case_bool_decide; [apply wp_ret; split; [done|]; by intros p ni [= <- <-]|].
  apply wp_bind, wp_lift. unfold url_string. destruct (URLString v) as [url|] eqn:Hurl; simpl; [|by split].
  apply wp_bind, wp_try, wp_query; [intros _; apply wp_ret; split; [done|]; by intros p ni [= <- <-]|].
  destruct (head _) as [[i row]|] eqn:Hrow; [|apply wp_ret; split; [done|]; by intros p ni [= <- <-]].
  assert (narinfos (db w) !! i = Some row ∧ r_url row = Some url) as [Hi Hr].
  { assert ((i, row) ∈ filter (λ x, r_url x.2 = Some url) (map_to_list (narinfos (db w)))) as Hin.
    { destruct (filter _ _); [done|]. injection Hrow as ->. by left. }
    apply list_elem_of_filter in Hin as [? Hin]. split; [|done]. by apply elem_of_map_to_list in Hin. }
  case_bool_decide; [apply wp_ret; split; [done|]; by intros p ni [= <- <-]|].
  apply wp_bind, wp_try, wp_bind, wp_query; [intros _; apply wp_ret; split; [done|]; by intros p ni [= <- <-]|].
  apply wp_lift. destruct (upstream (r_hash row)) as [n|] eqn:Hup; simpl; [|apply wp_ret; split; [done|]; by intros p ni [= <- <-]].
  destruct (ParseUpstreamURL _ _) as [o|] eqn:Ho; [|apply wp_ret; split; [done|]; by intros p ni [= <- <-]].
  apply wp_ret. split; [done|]. intros p ni [= <- <-] o'. case_bool_decide; [done|]. intros [= <-].
  destruct (ho_upstream _ _ Hh i row v url n o Hi Hr Hurl Hv Hup Ho). split_and!; [done..|]. by exists n.
Qed.

(** A preferred URL fits when it is another, compressed, of an uncompressed NAR, and its
    narinfo has the NAR's size. *)
Definition preferred_fits (u : URL) (p : option URL) (ni : option NarInfo) : Prop :=
  ∀ o, p = Some o → isCDCEnabled cfg = true ∧ Compression u = CompressionTypeNone ∧
    normal_hash (Hash o) = normal_hash (Hash u) ∧ Compression o ≠ CompressionTypeNone ∧ ∃ n, ni = Some n ∧ NarSize n ≠ 0%Z.

(** The temporary file of a download that is not to be chunked lazily. *)
Lemma tempFile_honest u v p ni w c t :
  honest u w → cdcLazyChunkingEnabled cfg = false → Hash v = Hash u → Compression v = Compression u → preferred_fits u p ni →
  tempFile cfg fetch v p ni = Ok (c, t) →
  holds_nar c (s_bytes t) (nar_named (Hash u)) ∧ (Compression u = CompressionTypeNone → c = CompressionTypeNone).
Proof.
  intros Hh Hlazy Hname Hc Hp. unfold tempFile. rewrite Hlazy. destruct (fetch (default v p)) as [body|] eqn:Hf; [|done].
  destruct (ho_fetch _ _ Hh _ _ Hf) as [Hbr Hholds].
  assert (nar_named (Hash (default v p)) = nar_named (Hash u)) as Hn.
  { unfold nar_named. destruct p as [o|]; simpl; [by destruct (Hp o eq_refl) as (_ & _ & -> & _)|by rewrite Hname]. }
  rewrite Hn in Hholds.
  assert (Compression u = CompressionTypeNone → Compression (default v p) = CompressionTypeNone ∨
    way_of (isCDCEnabled cfg) (negb (bool_decide (Compression (default v p) = CompressionTypeNone)))
      (match ni with Some ni => negb (bool_decide (NarSize ni = 0%Z)) | None => false end) (negb false) = WChunkWhile) as Hway.
  { intros Hnone. destruct p as [o|]; simpl; [|left; congruence].
    destruct (Hp o eq_refl) as (Hcdc & _ & _ & Hcomp & n & -> & Hsize). right. rewrite Hcdc, !bool_decide_false by done. done. }
  set (dl := default v p) in *. destruct (way_of _ _ _ _).
  - intros [= <- <-]. split; [done|]. intros Hnone. by destruct (Hway Hnone).
  - intros [= <- <-]. split; [done|]. intros Hnone. by destruct (Hway Hnone).
  - unfold decompress, holds_nar in *. rewrite Hholds. intros [= <- <-]. split; [done|]. done.
Qed.

(** What a client of it is given. *)
Lemma wp_serveFromTempFile b u v p ni w w' :
  honest u w → cdcLazyChunkingEnabled cfg = false → Compression u ≠ "" →
  Hash v = Hash u → Compression v = Compression u → TransparentZstd v = false → preferred_fits u p ni →
  wp b (serveFromTempFile cfg fetch v (Compression u) (JPullNar v p ni)) (λ r w'', w'' = w' ∧ ∀ x, r = Ok x → served u x) w'.
Proof.
  intros Hh Hlazy Hempty Hname Hc Htz Hp. unfold serveFromTempFile. apply wp_bind, wp_lift.
  destruct (tempFile cfg fetch v p ni) as [[c t]|] eqn:Ht; [|by split].
  destruct (tempFile_honest _ _ _ _ _ _ _ Hh Hlazy Hname Hc Hp Ht) as [Hholds Hnone].
  destruct (compressedRequestNeedsUpstreamFallback _ _) eqn:Hfall; [by apply wp_throw|].
  assert (c = Compression u) as ->.
  { unfold compressedRequestNeedsUpstreamFallback in Hfall. apply andb_false_iff in Hfall as [Hf%negb_false_iff|Hf%negb_false_iff].
    - apply bool_decide_eq_true in Hf as [?|Hf]; [done|]. rewrite Hf. auto.
    - by apply bool_decide_eq_true in Hf. }
  simpl. rewrite andb_comm, andb_negb_r. apply wp_ret. split; [done|]. intros x [= <-]. split; [done|]. right.
  simpl. rewrite Htz, andb_false_r. split; [done|lia].
Qed.

Lemma served_same u v x :
  Compression v = Compression u → Hash v = Hash u → served v x → served u x.
Proof. destruct x as [[u' size] t]. unfold served. by intros -> ->. Qed.

(** When a request may lead to a download: the sources are honest, chunking is not lazy,
    and the client does not take zstd. *)
Definition downloadable (u : URL) (w : world) : Prop :=
  honest u w ∧ cdcLazyChunkingEnabled cfg = false ∧ TransparentZstd u = false ∧ Compression u ≠ "".

Lemma wp_GetNar `{!CodecLaws} b u w :
  sound w → normalized_match (Hash u) = true → (uploadOnly = true ∨ downloadable u w) →
  wp b (GetNar cfg now uploadOnly upstream fetch u) (λ r w', sound w' ∧ ∀ x, r = Ok x → served u x) w.
Proof.
  intros Hw Hn Hdown. unfold GetNar. apply wp_bind, wp_looks; [apply preserves_ask|]. intros [[]|e]; [|by split].
  apply wp_bind, wp_looks; [apply looks_HasNarInStore|]. intros [inStore|e]; [|by split].
  apply wp_bind, wp_looks; [apply preserves_hasUpstreamJob|]. intros [running|e]; [|by split].
  apply wp_bind, wp_looks; [apply looks_narServability|]. intros [[hasNar finished]|e]; [|by split].
  apply wp_bind, wp_looks; [destruct (running && negb inStore); [apply looks_HasNarInChunks|apply preserves_ret]|].
  intros [servable|e]; [|by split].
  assert (∀ v w' flag, same_stores w w' → Hash v = Hash u → Compression v = Compression u →
    wp b (serveNarFromStorageViaPipe cfg now v flag) (λ r w', sound w' ∧ ∀ x, r = Ok x → served u x) w') as Hserve.
  { intros v w' flag Hs Hh Hc. eapply wp_mono; [apply wp_serve; by eapply sound_same_stores|]. intros r w'' [Hw'' Hr].
    split; [apply Hw''; by rewrite Hh|]. intros x Hx. eapply served_same; [..|by apply Hr]; done. }
  destruct (servable && (finished || negb (shouldCoordinateInflight (Compression u)))).
  { apply wp_bind. assert (wp b (if inStore then maybeBackgroundMigrateNarToChunks cfg u else mret ())
      (λ r w', same_stores w w' ∧ r = Ok ()) w) as Hspawn.
    { destruct inStore; [|by apply wp_ret]. unfold maybeBackgroundMigrateNarToChunks.
      destruct (isCDCEnabled cfg); [by apply wp_spawn|by apply wp_ret]. }
    eapply wp_mono; [exact Hspawn|]. intros r w' [Hs ->]. by apply Hserve. }
  destruct uploadOnly; [by apply wp_throw|]. destruct Hdown as [|(Hh & Hlazy & Htz & Hempty)]; [done|].
  assert (∀ v, Hash v = Hash u → Compression v = Compression u → TransparentZstd v = false →
    (v = u ∨ ∃ row, row ∈ linked_narinfos (Hash u) (Compression u) (encode (Query u)) (db w) ∧ original row = Some v) →
    wp b ('(preferredUpstreamURL, ni) ← lookupPreferredUpstreamURL cfg upstream v;
      ds ← prePullNar cfg v preferredUpstreamURL ni;
      hasNarInStore ← HasNarInStore v;
      match ds with
      | Active j =>
          if hasNarInStore : bool then serveNarFromStorageViaPipe cfg now v hasNarInStore
          else serveFromTempFile cfg fetch v (Compression u) j
      | Complete (Some e) => if hasNarInStore : bool then serveNarFromStorageViaPipe cfg now v hasNarInStore else throw e
      | Complete None => serveNarFromStorageViaPipe cfg now v hasNarInStore
      end) (λ r w', sound w' ∧ ∀ x, r = Ok x → served u x) w) as Hpull.
  { intros v Hhv Hcv Htv Hv. apply wp_bind. eapply wp_mono; [by apply (wp_lookupPreferredUpstreamURL _ u)|].
    intros [[p ni]|e] w' [-> Hp]; [|by split]. specialize (Hp p ni eq_refl).
    apply wp_bind. eapply wp_mono; [apply wp_prePullNar; rewrite Hhv; apply Hh|]. intros [ds|e] w' [Hs Hd].
    2:{ split; [by eapply sound_same_stores|done]. }
    apply wp_bind, wp_looks; [apply looks_HasNarInStore|]. intros [has|e]; [|split; [by eapply sound_same_stores|done]].
    destruct (Hd ds eq_refl) as [->|[e ->]].
    - destruct has; [by apply Hserve|]. eapply wp_mono; [eapply (wp_serveFromTempFile _ u); try done|].
      + intros o Ho. destruct (Hp o Ho) as (? & Hnone & ?). split; [done|]. split; [congruence|done].
      + intros r w'' [-> Hr]. split; [by eapply sound_same_stores|done].
    - destruct e as [e|]; [|by apply Hserve]. destruct has; [by apply Hserve|]. apply wp_throw.
      split; [by eapply sound_same_stores|done]. }
  apply wp_bind, wp_lookupOriginalNarURL; [by apply Hpull; auto|].
  intros row v Hin Ho. destruct (ho_linked _ _ Hh row v Hin Ho) as [Hhv Hcv]. apply Hpull; [done|done| |by eauto].
  unfold original in Ho. destruct (is_empty (r_url row)); [done|]. destruct (ParseURL _) as [v'|] eqn:Hv; [|done].
  apply bind_Ok_inv in Hv as ([[[? ?] ?] ?] & _ & Hv). apply bind_Ok_inv in Hv as (? & _ & [= <-]).
  injection Ho as <-. destruct (is_empty (r_upstream_url row)); [done|].
  unfold WithOpaqueUpstreamRef. by repeat case_match.
Qed.

(** *** Without faults *)

(** Nothing is known of the NAR here. *)
Record missing (u : URL) (w : world) : Prop := {
  mi_unique : unique_keys (db w);
  mi_path : with_path u;
  mi_store : in_store u w = false;
  mi_row : file_row cfg u (db w) = None;
  mi_jobs : Hash u ∉ upstreamJobs w;
  mi_remote : Hash u ∉ remoteJobs w;
  mi_linked : linked_narinfos (Hash u) (Compression u) (encode (Query u)) (db w) = [];
}.

Definition preferred_of (u : URL) (w : world) : option URL * option NarInfo :=
  if negb (isCDCEnabled cfg) || negb (bool_decide (Compression u = CompressionTypeNone)) then (None, None) else
  match url_string u with
  | Err _ => (None, None)
  | Ok url =>
      match head (filter (λ x, r_url x.2 = Some url) (map_to_list (narinfos (db w)))) with
      | Some (_, row) =>
          if bool_decide (r_hash row = "") then (None, None) else
          match upstream (r_hash row) with
          | None => (None, None)
          | Some ni =>
              match ParseUpstreamURL (InfoURL ni) (narInfoStorageKey ni) with
              | Err _ => (None, Some ni)
              | Ok o => (if bool_decide (Compression o = CompressionTypeNone) then None else Some o, Some ni)
              end
          end
      | None => (None, None)
      end
  end.

Lemma wp_preferred_calm u w :
  Hash u ∉ upstreamJobs w → is_ok (url_string u) = true →
  wp false (lookupPreferredUpstreamURL cfg upstream u) (λ r w', w' = w ∧ r = Ok (preferred_of u w)) w.
Proof.
  intros Hj Hu. unfold lookupPreferredUpstreamURL, preferred_of. destruct (_ || _); [by apply wp_ret|].
  apply wp_bind, wp_hasUpstreamJob. rewrite bool_decide_false by done. apply wp_bind, wp_lift.
  destruct (url_string u) as [url|]; [|done]. apply wp_bind, wp_try, wp_query; [done|].
  destruct (head _) as [[i row]|]; [|by apply wp_ret]. case_bool_decide; [by apply wp_ret|].
  apply wp_bind, wp_try, wp_bind, wp_query; [done|]. apply wp_lift.
  destruct (upstream (r_hash row)) as [ni|]; simpl; [|by apply wp_ret]. by destruct (ParseUpstreamURL _ _); apply wp_ret.
Qed.

Lemma missing_servability u w :
  missing u w → wp false (narServability cfg u) (λ r w', w' = w ∧ r = Ok (false, false)) w.
Proof.
  intros Hm. apply wp_bind, wp_HasNarInStore; [apply Hm|done|]. rewrite (mi_store _ _ Hm).
  destruct (isChunkStoreAvailable cfg); [|by apply wp_ret]. simpl.
  apply wp_bind, wp_nar_file_row; [apply Hm|done|]. rewrite (mi_row _ _ Hm). by apply wp_ret.
Qed.

(** A NAR nobody knows here is downloaded, and its temporary file served under the
    request's URL. *)
Lemma wp_GetNar_download u w c t :
  missing u w → uploadOnly = false → is_ok (url_string u) = true →
  tempFile cfg fetch u (preferred_of u w).1 (preferred_of u w).2 = Ok (c, t) →
  compressedRequestNeedsUpstreamFallback (Compression u) c = false →
  wp false (GetNar cfg now uploadOnly upstream fetch u)
    (λ r _, r = Ok (with_compression u c, (-1)%Z, plain_stream (s_bytes t))) w.
Proof.
  intros Hm -> Hurl Ht Hfall. unfold GetNar. apply wp_bind, wp_query; [done|].
  apply wp_bind, wp_HasNarInStore; [apply Hm|done|]. rewrite (mi_store _ _ Hm).
  apply wp_bind, wp_hasUpstreamJob. rewrite bool_decide_false by apply Hm.
  apply wp_bind. eapply wp_mono; [by apply missing_servability|]. intros r w' [-> ->].
  apply wp_bind, wp_ret. simpl. apply wp_bind. unfold lookupOriginalNarURL.
  apply wp_bind, wp_try, wp_query; [done|]. rewrite (mi_linked _ _ Hm). apply wp_ret. simpl.
  apply wp_bind. eapply wp_mono; [apply wp_preferred_calm; [apply Hm|done]|]. intros r w' [-> ->].
  destruct (preferred_of u w) as [p ni]. simpl in Ht. unfold prePullNar.
  apply wp_bind, wp_bind, wp_hasUpstreamJob. rewrite bool_decide_false by apply Hm.
  apply wp_bind, wp_has; [done|]. rewrite bool_decide_true by apply Hm. simpl. apply wp_bind, wp_ret.
  apply wp_bind, wp_try. eapply wp_mono; [by apply missing_servability|]. intros r w' [-> ->].
  apply wp_start_download; [done|]. apply wp_bind, wp_HasNarInStore; [apply Hm|done|].
  change (in_store u (add_upstreamJob _ _)) with (in_store u w). rewrite (mi_store _ _ Hm).
  apply wp_bind, wp_lift. rewrite Ht, Hfall. simpl. rewrite andb_comm, andb_negb_r. by apply wp_ret.
Qed.
End serving.

(** ** Properties *)


(** A client that takes zstd asks for an uncompressed NAR that nobody knows here.  The
    flag it set is taken for a property of the body: the download's temporary file holds the
    plain NAR, and it is sent as it is, labelled [Content-Encoding: zstd]. *)
Theorem plain_bytes_labelled_zstd `{GN : GoNix} {SG : Signing} {CD : Codec} (cfg : Config) (now : Z)
    (upstream : string → option NarInfo) (fetch : URL → option stream) (hash ae : string) (query : values) (u : URL)
    (t : stream) (s : state) :
  script s = [] → withNarURL hash "" query = Ok u → encodingZstd ∈ encodings ae → missing cfg u (st s) →
  tempFile cfg fetch (with_zstd u true) (preferred_of cfg upstream u (st s)).1 (preferred_of cfg upstream u (st s)).2 =
    Ok (CompressionTypeNone, t) →
  (getNar cfg now false upstream fetch true ae u s).1 =
    Ok (mkResponse 200 encodingZstd None (plain_stream (s_bytes t))).
Proof.
  intros Hs [= <-] Hae Hm Ht.
  assert (wp false (getNar cfg now false upstream fetch true ae (mkURL hash CompressionTypeNone query false ""))
    (λ r _, r = Ok (mkResponse 200 encodingZstd None (plain_stream (s_bytes t)))) (st s)) as Hwp.
  { unfold getNar. apply wp_bind, wp_ret, wp_bind, wp_try. simpl. rewrite (bool_decide_true (encodingZstd ∈ _)) by done. simpl.
    eapply wp_mono; [apply (wp_GetNar_download cfg now false upstream fetch _ _ CompressionTypeNone t)|]; try done.
    - by destruct Hm.
    - intros r w' ->. by apply wp_ret. }
  by apply (Hwp s eq_refl).
Qed.

(** With lazy chunking, a request for an uncompressed NAR that nobody knows here is
    answered with the compressed file of the upstream, without a content encoding: the
    branch that would decompress it compares the temporary file's compression with a URL
    that has just been given it. *)
Theorem compressed_bytes_served_as_none `{GN : GoNix} {SG : Signing} {CD : Codec} (cfg : Config) (now : Z)
    (upstream : string → option NarInfo) (fetch : URL → option stream) (hash ae : string) (query : values) (u o : URL)
    (ni : option NarInfo) (t : stream) (s : state) :
  script s = [] → withNarURL hash "" query = Ok u → missing cfg u (st s) →
  cdcLazyChunkingEnabled cfg = true → preferred_of cfg upstream u (st s) = (Some o, ni) → fetch o = Some t →
  (getNar cfg now false upstream fetch true ae u s).1 = Ok (mkResponse 200 "" None (plain_stream (s_bytes t))).
Proof.
  intros Hs [= <-] Hm Hlazy Hp Hf.
  assert (Compression o ≠ CompressionTypeNone) as Hc.
  { unfold preferred_of in Hp. repeat case_match; simplify_eq; case_bool_decide; by simplify_eq. }
  assert (wp false (getNar cfg now false upstream fetch true ae (mkURL hash CompressionTypeNone query false ""))
    (λ r _, r = Ok (mkResponse 200 "" None (plain_stream (s_bytes t)))) (st s)) as Hwp.
  { unfold getNar. apply wp_bind, wp_ret, wp_bind, wp_try. set (nu := with_zstd _ _).
    assert (preferred_of cfg upstream nu (st s) = (Some o, ni)) as Hpn by exact Hp.
    eapply wp_mono; [apply (wp_GetNar_download cfg now false upstream fetch nu _ (Compression o) t)|]; try done.
    - by destruct Hm.
    - rewrite Hpn. unfold tempFile. simpl. rewrite Hf, Hlazy. unfold way_of. by rewrite !andb_false_r.
    - intros r w' ->. apply wp_ret. unfold respond. simpl. by rewrite bool_decide_false. }
  by apply (Hwp s eq_refl).
Qed.

(** ** Examples *)

(** A codec that puts a letter before the bytes. *)
Definition codec_tag (c : string) : string :=
  if bool_decide (c = "zstd") then "Z" else if bool_decide (c = "br") then "B"
  else if bool_decide (c = "gzip") then "G" else if bool_decide (c = "xz") then "X" else "?".

#[export] Instance tagged_codec : Codec := {
  decoder c b := plain_stream <$> strip_prefix (codec_tag c) b;
  zstd b := "Z" +:+ b;
  brotli b := "B" +:+ b;
  gzip b := "G" +:+ b;
}.

#[export] Instance tagged_codec_laws : CodecLaws (H := tagged_codec).
Proof. split; done. Qed.

(** The NAR of [hello], in a file and in two chunks. *)
Definition hello_none : URL := mkURL sample_hash CompressionTypeNone ∅ false "".
Definition hello_zst_path : string := match nar_path (with_compression hello_none CompressionTypeZstd) with Ok p => p | Err _ => "" end.
Definition hello_nar (h : string) : string := "nix-archive-1".

Definition chunked_tables : tables :=
  mkTables ∅ [] [] {[0%Z := mkNarFile sample_hash CompressionTypeNone "" 13 2 true None false 0]} []
    {[0%Z := ["nix-ar"; "chive-1"]]}.

Definition served_world : world (H := tagged_nix) :=
  mkWorld chunked_tables ∅ {[hello_zst_path := "Znix-archive-1"]} {["nix-ar" := "nix-ar"; "chive-1" := "chive-1"]} ∅ ∅ ∅ [].

Lemma chunked_tables_sound : sound_tables hello_nar id chunked_tables.
Proof.
  split.
  - split; [intros i j x y Hx; simpl in Hx; by rewrite lookup_empty in Hx|].
    intros i j x y h c q Hi Hj. simpl in *. apply lookup_singleton_Some in Hi as [<- _], Hj as [<- _]. done.
  - intros f nf Hf _. simpl in Hf. apply lookup_singleton_Some in Hf as [<- <-]. split_and!; [done|done|]. intros _. by exists ["nix-ar"; "chive-1"].
  - intros f [x Hx]. simpl in *. apply lookup_singleton_Some in Hx as [<- <-]. by eexists.
Qed.

Lemma served_world_sound : sound hello_nar id served_world.
Proof.
  split; [exact chunked_tables_sound| |].
  - intros u p b Hp Hb. simpl in Hb. apply lookup_singleton_Some in Hb as [<- <-].
    destruct (nar_path_inj u (with_compression hello_none CompressionTypeZstd) hello_zst_path Hp) as [_ Hd]; [vm_compute; reflexivity|].
    unfold holds_nar. rewrite Hd. vm_compute. reflexivity.
  - apply map_Forall_insert_2; [done|]. by apply map_Forall_singleton.
Qed.


(** After the broken chunks of a NAR were purged, its narinfo stays behind. *)
Definition eager_config : Config := mkConfig true true false false "ncps" false false 100 false.
Definition purged_row : narinfo_row :=
  mkRow hello_hash (Some (StorePath hello)) (Some ("nar/" +:+ sample_hash +:+ ".nar")) None (Some "none") None None None None
    None None None None.
Definition purged_world : world (H := tagged_nix) :=
  mkWorld (mkTables {[0%Z := purged_row]} [] [] ∅ [] ∅) ∅ ∅ ∅ ∅ ∅ ∅ [].
Definition hello_fetch (v : URL) : option stream :=
  if bool_decide (Compression v = CompressionTypeXz) then Some (plain_stream "Xnix-archive-1") else None.

Lemma purged_missing cfg : missing cfg hello_none purged_world.
Proof.
  split; try done.
  - split; [|by intros i j x y h c q Hx; simpl in Hx; rewrite lookup_empty in Hx].
    intros i j x y Hi Hj _. simpl in *. apply lookup_singleton_Some in Hi as [<- _], Hj as [<- _]. done.
  - apply (parsed_with_path ("nar/" +:+ sample_hash +:+ ".nar")). vm_compute. reflexivity.
  - unfold file_row. by destruct (isCDCEnabled cfg).
Qed.

Lemma plain_bytes_labelled_zstd_witness :
  (getNar eager_config 9 false hello_upstream hello_fetch true "gzip, zstd" hello_none (mkState purged_world [])).1 =
    Ok (mkResponse 200 "zstd" None (plain_stream "nix-archive-1")) ∧
  decode_content "zstd" "nix-archive-1" = None.
Proof.
  split; [|reflexivity].
  apply (plain_bytes_labelled_zstd eager_config 9 hello_upstream hello_fetch sample_hash "gzip, zstd" ∅ hello_none
    (plain_stream "nix-archive-1")).
  - reflexivity.
  - reflexivity.
  - apply (bool_decide_eq_true_1 _). vm_compute. reflexivity.
  - exact (purged_missing eager_config).
  - vm_compute. reflexivity.
Defined.

Lemma compressed_bytes_served_as_none_witness :
  (getNar cdc_config 9 false hello_upstream hello_fetch true "gzip, zstd" hello_none (mkState purged_world [])).1 =
    Ok (mkResponse 200 "" None (plain_stream "Xnix-archive-1")).
Proof.
  apply (compressed_bytes_served_as_none cdc_config 9 hello_upstream hello_fetch sample_hash "gzip, zstd" ∅ hello_none hello_url
    (Some hello) (plain_stream "Xnix-archive-1") (mkState purged_world [])).
  - reflexivity.
  - reflexivity.
  - exact (purged_missing cdc_config).
  - reflexivity.
  - vm_compute. reflexivity.
  - reflexivity.
Defined.
