(* ===== verification/NarStore.v ===== *)
(** * Storing, deleting and migrating NARs ([pkg/cache/cache.go])

    What changes the NARs kept: uploads ([PutNar]) and downloads ([pullNarIntoStore]),
    stored as whole files or as chunks ([storeNarFromTempFile],
    [storeNarWithCDCFromReader]), deletion ([DeleteNar]), the migrations between files and
    chunks ([MigrateNarToChunks], [MigrateChunksToNar], [PurgeChunkedNar],
    [NormalizeChunkedNarInfoURL]) and the periodic jobs ([runCDCDeletedCleanup],
    [runCDCLazyRecovery]).  The world and the faults are [NarInfoCache]'s, the streams and
    codecs [NarServe]'s.  One operation runs at a time here; who holds a NAR's migration
    lock is part of the world.  The chunker's interleavings with its readers are in [CDC]. *)
From stdpp Require Import sorting.
From S2P Require Import Download.
From S2P Require Import Prelude GoStd Nar Tx NarInfoDB NarInfoCache NarServe.

(** FastCDC and BLAKE3 ([pkg/chunker]): what the chunker emits of a stream, which makes up
    a stream that does not break, and a piece's digest. *)
Class Chunker := {
  Chunk : stream → list string;
  digest : string → string;
}.

Class ChunkerLaws `{Chunker} := {
  concat_chunks b : concat_strings (Chunk (plain_stream b)) = b;
  digest_inj :: Inj (=) (=) digest;
}.

(** [sha256.Sum256], and a parsed hash's [Digest]. *)
Class Hashing `{GoNix} := {
  sha256 : string → string;
  Digest : nixhash → string;
}.

Definition string_length (b : string) : Z := Z.of_nat (String.length b).

(** Rows in the order of their ids. *)
Definition by_id {A} (x y : Z * A) : Prop := (x.1 <= y.1)%Z.
#[global] Instance by_id_dec {A} (x y : Z * A) : Decision (by_id x y).
Proof. unfold by_id. apply _. Defined.

Section storing.
Context `{GN : GoNix} {SG : Signing} {CD : Codec} {CH : Chunker} {HA : Hashing} (cfg : Config) (now : Z).

(** The digest of a stored file, printed; the upstreams; the files fetched. *)
Context (digest_of : string → string) (upstream : string → option NarInfo) (fetch : URL → option stream).
Notation M := (eff state cache_err).

(** ** The NAR store *)

(** The size written; nothing when the file exists, which leaves the body unread. *)
Definition narStore_PutNar (u : URL) (t : stream) : M (option Z) :=
  match nar_path u with
  | Err _ => throw EInvalid
  | Ok p =>
      present ← ask EStore (λ w, bool_decide (is_Some (narStore w !! p)));
      if present : bool then mret None else
      if s_breaks t then throw EStore else
      _ ← act EStore (λ w, set_narStore (<[p := s_bytes t]> (narStore w)) w);
      mret (Some (string_length (s_bytes t)))
  end.

(** Whether a file was deleted. *)
Definition narStore_DeleteNar (u : URL) : M bool :=
  match nar_path u with
  | Err _ => throw EInvalid
  | Ok p =>
      present ← ask EStore (λ w, bool_decide (is_Some (narStore w !! p)));
      if negb present then mret false else
      _ ← act EStore (λ w, set_narStore (delete p (narStore w)) w);
      mret true
  end.

(** ** The rows *)

Definition narinfos_by_url (url : string) (d : tables) : list (Z * narinfo_row) :=
  filter (λ x, r_url x.2 = Some url) (map_to_list (narinfos d)).

Definition add_link (i f : Z) (d : tables) : tables := set_links (add_pair (links d) (i, f)) d.

Fixpoint fix_narinfos (row : option Z) (nis : list (Z * narinfo_row)) : M bool :=
  match nis with
  | [] => mret true
  | (i, ni) :: nis =>
      r1 ← (match row with
            | Some f => try (E' := cache_err) (act (EDb (Fault OtherFault)) (λ w, set_db (add_link i f (db w)) w))
            | None => mret (Ok ())
            end);
      r2 ← try (E' := cache_err) (CheckAndFixNarInfo cfg digest_of (r_hash ni));
      rest ← fix_narinfos row nis;
      mret (is_ok r1 && is_ok r2 && rest)
  end.

(** The errors joined: which ones they are does not matter, its callers log them. *)
Definition checkAndFixNarInfosForNar (u : URL) : M () :=
  url ← lift (url_string u);
  nis ← ask (EDb (Fault OtherFault)) (λ w, narinfos_by_url url (db w));
  r ← getNarFileFromDB cfg u;
  match r with
  | Err e =>
      if negb (IsNotFoundError e) then throw (EDb e) else
      ok ← fix_narinfos None nis; if ok : bool then mret () else throw EInvalid
  | Ok (f, _) => ok ← fix_narinfos (Some f) nis; if ok : bool then mret () else throw EInvalid
  end.

(** ** Storing whole files *)

(** The size of a file just written or found there. *)
Definition written_size (u : URL) (r : option Z) : M Z :=
  match r with
  | Some written => mret written
  | None => b ← narStore_GetNar u; mret (string_length b)
  end.

Definition storeNarFromTempFile (u : URL) (temp : string) : M () :=
  let none := bool_decide (Compression u = CompressionTypeNone) in
  let storeURL := if none then with_compression u CompressionTypeZstd else u in
  r ← narStore_PutNar storeURL (plain_stream (if none then zstd temp else temp));
  written ← written_size storeURL r;
  ensureNarFile now u written.

(** ** Storing chunks *)

Definition update_nar_file (f : Z) (g : nar_file → nar_file) : tables → result dberr (() * tables) := λ d,
  match nar_files d !! f with
  | None => Err RowNotFound
  | Some nf => Ok ((), set_nar_files (<[f := g nf]> (nar_files d)) d)
  end.

Definition set_chunking (b : bool) (nf : nar_file) : nar_file :=
  mkNarFile (nf_hash nf) (nf_compression nf) (nf_query nf) (nf_file_size nf) (nf_total_chunks nf) (nf_bytes_stored nf)
    (nf_last_accessed_at nf) b (nf_created_at nf).
Definition set_file_size (z : Z) (nf : nar_file) : nar_file :=
  mkNarFile (nf_hash nf) (nf_compression nf) (nf_query nf) z (nf_total_chunks nf) (nf_bytes_stored nf)
    (nf_last_accessed_at nf) (nf_chunking nf) (nf_created_at nf).
Definition set_chunked (chunks size : Z) (nf : nar_file) : nar_file :=
  mkNarFile (nf_hash nf) (nf_compression nf) (nf_query nf) size chunks (nf_bytes_stored nf)
    (nf_last_accessed_at nf) false (nf_created_at nf).

Definition delete_chunk_links (f : Z) (d : tables) : tables := set_nar_file_chunks (delete f (nar_file_chunks d)) d.

(** The insertion that keeps an existing row. *)
Definition upsert_for_cdc (u : URL) (fileSize : Z) (d : tables) : Z * tables :=
  match nar_files_where (Hash u) (Compression u) (encode (Query u)) d with
  | (f, _) :: _ => (f, d)
  | [] =>
      let f := fresh (dom (nar_files d)) in
      (f, set_nar_files (<[f := mkNarFile (Hash u) (Compression u) (encode (Query u)) fileSize 0 false (Some now) false now]>
            (nar_files d)) d)
  end.

Definition clearStaleCDCChunkingLockWithEntTx {V} (f : Z) (nr : nar_file) : eff (session V tables) dberr (option (list string)) :=
  if bool_decide (0 < nf_total_chunks nr)%Z || negb (nf_chunking nr) then mret None else
  partialChunks ← query (λ d, remove_dups (links_of f d));
  _ ← exec (delete_chunk_links f);
  _ ← stmt_or (update_nar_file f (set_chunking false));
  mret (Some partialChunks).

(** The closure of [findOrCreateNarFileForCDC]; its variables are [narFileID] and
    [staleLockChunks]. *)
Definition find_or_create_tx (u : URL) (fileSize : Z) : eff (session (Z * list string) tables) dberr () :=
  f ← stmt (upsert_for_cdc u fileSize);
  nr ← stmt_or (λ d, match nar_files d !! f with Some nf => Ok (nf, d) | None => Err RowNotFound end);
  _ ← (if negb (bool_decide (nf_file_size nr = fileSize)) && bool_decide (nf_total_chunks nr = 0%Z) then
         stmt_or (update_nar_file f (set_file_size fileSize))
       else mret ());
  _ ← assign (λ v, (f, v.2));
  if bool_decide (0 < nf_total_chunks nr)%Z then throw (AppError ErrAlreadyExists) else
  _ ← (if nf_chunking nr then
         r ← clearStaleCDCChunkingLockWithEntTx f nr;
         match r with
         | None => throw (AppError ErrAlreadyExists)
         | Some stale => assign (λ v, (v.1, stale))
         end
       else mret ());
  stmt_or (update_nar_file f (set_chunking true)).

(** Is the chunk part of some NAR? *)
Definition chunk_linked (h : string) (d : tables) : bool := bool_decide (map_Exists (λ _ l, h ∈ l) (nar_file_chunks d)).

Fixpoint delete_orphan_chunks (hs : list string) : M () :=
  match hs with
  | [] => mret ()
  | h :: hs =>
      r ← try (E' := cache_err) (ask (EDb (Fault OtherFault)) (λ w, chunk_linked h (db w)));
      _ ← (match r with
           | Ok false => _ ← try (E' := cache_err) (act EStore (λ w, set_chunkFiles (delete h (chunkFiles w)) w)); mret ()
           | _ => mret ()
           end);
      delete_orphan_chunks hs
  end.

Definition cleanupStaleLockChunks (staleLockChunks : list string) : M () :=
  if bool_decide (staleLockChunks = []) then mret () else
  r ← try (E' := cache_err) (ask (EDb (Fault OtherFault)) (λ w, filter (λ h, chunk_linked h (db w) = false) staleLockChunks));
  match r with
  | Ok orphanedChunks => delete_orphan_chunks orphanedChunks
  | Err _ => mret ()
  end.

(** [nil] for a decompressor that cannot be set up: the raw bytes are chunked. *)
Definition maybeDecompressReader (t : stream) (compression : string) : stream :=
  if bool_decide (compression = CompressionTypeNone) then t else default t (decompress compression t).

Definition cdcMaxBatchSize : nat := 100.

(** Links that exist stay. *)
Definition record_links (f : Z) (startIndex : nat) (batch : list string) : tables → result dberr (() * tables) := λ d,
  match nar_files d !! f with
  | None => Err (Fault OtherFault)
  | Some _ =>
      let old := links_of f d in
      Ok ((), set_nar_file_chunks (<[f := old ++ drop (length old - startIndex) batch]> (nar_file_chunks d)) d)
  end.

Definition recordChunkBatch (f : Z) (startIndex : nat) (batch : list string) : M () :=
  if bool_decide (batch = []) then mret () else transaction_ (stmt_or (record_links f startIndex batch)).

(** Whether the flush timer fires before the next chunk. *)
Definition timer : M bool := λ s, (Ok (match next s with EvLate => true | _ => false end), put (st s) s).

(** The loop over the chunker's output: the batch not yet recorded, and how many are. *)
Fixpoint store_chunks (f : Z) (pieces batch : list string) (chunkCount : nat) : M (list string * nat) :=
  match pieces with
  | [] => mret (batch, chunkCount)
  | p :: pieces =>
      _ ← act EStore (λ w, set_chunkFiles (<[digest p := p]> (chunkFiles w)) w);
      let batch := batch ++ [digest p] in
      fired ← timer;
      if fired || (cdcMaxBatchSize <=? length batch) then
        _ ← recordChunkBatch f chunkCount batch;
        store_chunks f pieces [] (chunkCount + length batch)
      else store_chunks f pieces batch chunkCount
  end.

(** From the chunker's start to the row marked complete.  The chunker's error and the end
    of its output race: which is seen first is up to the timer's event. *)
Definition chunk_nar (f : Z) (t : stream) (fileSize : Z) : M () :=
  let pieces := Chunk t in
  '(batch, chunkCount) ← store_chunks f pieces [] 0;
  error_lost ← timer;
  if s_breaks t && negb error_lost then throw EStore else
  _ ← recordChunkBatch f chunkCount batch;
  let totalSize := string_length (concat_strings pieces) in
  if bool_decide (0 < fileSize)%Z && negb (bool_decide (totalSize = fileSize)) then throw EInvalid else
  transaction_ (stmt_or (update_nar_file f (set_chunked (Z.of_nat (chunkCount + length batch)) totalSize))).

Definition relinkNarInfosToNarFileWithEntTx {V} (u : URL) (f : Z) : eff (session V tables) dberr () :=
  match URLString u with
  | Err _ => throw (AppError ErrInvalid)
  | Ok url =>
      narInfoIDs ← query (λ d, (narinfos_by_url url d).*1);
      if bool_decide (narInfoIDs = []) then mret () else
      stmt_or (λ d, match nar_files d !! f with
        | None => Err (Fault OtherFault)
        | Some _ => Ok ((), set_links (foldl add_pair (links d) ((λ i, (i, f)) <$> narInfoIDs)) d)
        end)
  end.

Definition delete_nar_files_where (h c q : string) (d : tables) : tables :=
  foldr (λ x, delete_nar_file x.1) d (nar_files_where h c q d).

(** The closure of the clean-up after chunking a compressed NAR. *)
Definition relink_tx (u : URL) (originalCompression : string) (f : Z) : eff (session () tables) dberr () :=
  _ ← exec (delete_nar_files_where (Hash u) originalCompression (encode (Query u)));
  relinkNarInfosToNarFileWithEntTx (mkURL (Hash u) originalCompression (Query u) false "") f.

Definition storeNarWithCDCFromReader (t : stream) (fileSize : Z) (u : URL) : M () :=
  let originalCompression := Compression u in
  let u := with_compression u CompressionTypeNone in
  '(r, (f, staleLockChunks)) ← transaction (find_or_create_tx u fileSize) (0%Z, []);
  match r with
  | Err (EDb (AppError ErrAlreadyExists)) => mret ()
  | Err e => throw e
  | Ok _ =>
      r ← try (E' := cache_err) (
        if negb (isCDCEnabled cfg) then throw ErrCDCDisabled else
        _ ← cleanupStaleLockChunks staleLockChunks;
        chunk_nar f (maybeDecompressReader t originalCompression) fileSize);
      match r with
      | Err e =>
          _ ← try (E' := cache_err) (act (EDb (Fault OtherFault)) (λ w,
            match update_nar_file f (set_chunking false) (db w) with Ok (_, d) => set_db d w | Err _ => w end));
          throw e
      | Ok _ =>
          if bool_decide (originalCompression = CompressionTypeNone) || cdcLazyChunkingEnabled cfg then mret () else
          _ ← try (E' := cache_err) (transaction_ (relink_tx u originalCompression f));
          mret ()
      end
  end.

(** [TryLock] of a NAR's migration lock. *)
Definition try_migration_lock (h : string) : M bool := λ s,
  match next s with
  | EvFault => (Err ELock, put (st s) s)
  | EvLate => (Ok false, put (st s) s)
  | _ => (Ok (bool_decide (h ∉ chunking (st s))), put (st s) s)
  end.

Definition withNarMigrationLock (h : string) (fn : M ()) : M () :=
  acquired ← try_migration_lock h;
  if negb acquired then throw ErrMigrationInProgress else fn.

Definition storeNarWithCDC (temp : string) (u : URL) : M () :=
  withNarMigrationLock (Hash u) (
    _ ← ask EStore (λ _, ());
    storeNarWithCDCFromReader (plain_stream temp) 0 u).

(** ** Uploads *)

Definition putNarWithCDC (u : URL) (r : stream) : M () :=
  _ ← ask EStore (λ _, ());
  if s_breaks r then throw EStore else
  _ ← storeNarWithCDC (s_bytes r) u;
  _ ← try (E' := cache_err) (checkAndFixNarInfosForNar (with_compression u CompressionTypeNone));
  mret ().

Definition PutNar (u : URL) (r : stream) : M () :=
  _ ← ask ELock (λ _, ());
  if isCDCEnabled cfg then putNarWithCDC u r else
  o ← narStore_PutNar u r;
  written ← written_size u o;
  _ ← ensureNarFile now u written;
  _ ← try (E' := cache_err) (checkAndFixNarInfosForNar u);
  mret ().

(** ** Downloads *)

(** What a download does with its temporary file once the upstream's body has ended; it
    runs in the background. *)
Definition pullNarIntoStore (u : URL) (preferred : option URL) (ni : option NarInfo) : M () :=
  let downloadURL := default u preferred in
  let compressedNar := negb (bool_decide (Compression downloadURL = CompressionTypeNone)) in
  let narSize := match ni with Some ni => NarSize ni | None => 0%Z end in
  '(_, temp) ← lift (tempFile cfg fetch u preferred ni);
  match way_of (isCDCEnabled cfg) compressedNar (negb (bool_decide (narSize = 0%Z))) (negb (cdcLazyChunkingEnabled cfg)) with
  | WChunkWhile =>
      let u := with_compression u CompressionTypeNone in
      _ ← withNarMigrationLock (Hash u) (storeNarWithCDCFromReader temp narSize u);
      _ ← try (E' := cache_err) (checkAndFixNarInfosForNar u);
      mret ()
  | WChunkAfter =>
      if s_breaks temp then throw EStore else
      _ ← storeNarWithCDC (s_bytes temp) u;
      _ ← try (E' := cache_err) (checkAndFixNarInfosForNar (with_compression u CompressionTypeNone));
      mret ()
  | WStore =>
      if s_breaks temp then throw EStore else
      _ ← storeNarFromTempFile u (s_bytes temp);
      _ ← (if isCDCEnabled cfg && cdcLazyChunkingEnabled cfg then maybeBackgroundMigrateNarToChunks cfg u else mret ());
      _ ← try (E' := cache_err) (checkAndFixNarInfosForNar u);
      mret ()
  end.

(** ** Deletion *)

Fixpoint delete_variants (u : URL) (cs : list string) : M bool :=
  match cs with
  | [] => mret false
  | c :: cs =>
      gone ← narStore_DeleteNar (with_compression u c);
      rest ← delete_variants u cs;
      mret (gone || rest)
  end.

Definition clear_bytes_stored (u : URL) (d : tables) : tables :=
  set_nar_files ((λ nf,
    if bool_decide (has_key (Hash u) (Compression u) (encode (Query u)) nf) then
      mkNarFile (nf_hash nf) (nf_compression nf) (nf_query nf) (nf_file_size nf) (nf_total_chunks nf) false
        (nf_last_accessed_at nf) (nf_chunking nf) (nf_created_at nf)
    else nf) <$> nar_files d) d.

(** The cache's [DeleteNar]. *)
Definition DeleteNar (u : URL) : M () :=
  _ ← ask ELock (λ _, ());
  deleted ← (if bool_decide (Compression u = CompressionTypeNone) then delete_variants u wholeFileServeCompressions else mret false);
  gone ← narStore_DeleteNar u;
  if negb (deleted || gone) then throw ENotFound else
  act (EDb (Fault OtherFault)) (λ w, set_db (clear_bytes_stored (normalized u) (db w)) w).

(** ** From files to chunks *)

(** The rows with a URL: their URL replaced, the file's size and digest cleared. *)
Definition renormalize (url : string) (r : narinfo_row) : narinfo_row :=
  mkRow (r_hash r) (r_store_path r) (Some url) (r_upstream_url r) (Some CompressionTypeNone) None None
    (r_nar_hash r) (r_nar_size r) (r_deriver r) (r_system r) (r_ca r) (r_last_accessed_at r).

Definition renormalize_where (P : Z → narinfo_row → bool) (url : string) (d : tables) : tables :=
  set_narinfos (map_imap (λ i r, Some (if P i r then renormalize url r else r)) (narinfos d)) d.

Fixpoint delete_first (us : list URL) : M () :=
  match us with
  | [] => mret ()
  | u :: us =>
      r ← try (E' := cache_err) (narStore_DeleteNar u);
      match r with Ok true => mret () | _ => delete_first us end
  end.

Definition migrateNarToChunksCleanup (u : URL) : M () :=
  originalURL ← lift (url_string u);
  newURL ← lift (url_string (mkURL (Hash u) CompressionTypeNone (Query u) false ""));
  _ ← try (E' := cache_err) (act (EDb (Fault OtherFault))
    (λ w, set_db (renormalize_where (λ _ r, bool_decide (r_url r = Some originalURL)) newURL (db w)) w));
  if cdcLazyChunkingEnabled cfg then mret () else
  delete_first (u :: if bool_decide (Compression u = CompressionTypeZstd) then []
                     else [mkURL (Hash u) CompressionTypeZstd (Query u) false ""]).

Definition MigrateNarToChunks (u : URL) : M () :=
  if negb (isCDCEnabled cfg) then throw ErrCDCDisabled else
  withNarMigrationLock (Hash u) (
    hasChunks ← HasNarInChunks cfg u;
    if hasChunks : bool then
      _ ← (if bool_decide (Compression u = CompressionTypeNone) then mret () else migrateNarToChunksCleanup u);
      throw ErrNarAlreadyChunked
    else
      bytes ← narStore_GetNar u;
      _ ← ask EStore (λ _, ());
      _ ← storeNarWithCDCFromReader (plain_stream bytes) 0 u;
      migrateNarToChunksCleanup u).

(** ** From chunks to files *)

Definition parse_nar_hash (o : option string) : result cache_err (option nixhash) :=
  map_err of_dberr (parseValidHashPtr o).

Definition normalizedURL (rawURL : string) : option URL :=
  match u ← ParseURL rawURL; Normalize u with Ok v => Some v | Err _ => None end.

(** A narinfo linked to the row that has a hash, or one whose URL names the NAR. *)
Definition LinkedNarinfoNarHash (f : Z) (u : URL) : M (option nixhash) :=
  o ← ask (EDb (Fault OtherFault)) (λ w,
    head (filter (λ x, (x.1, f) ∈ links (db w) ∧ r_nar_hash x.2 ≠ None) (map_to_list (narinfos (db w)))));
  match o with
  | Some (_, ni) => lift (parse_nar_hash (r_nar_hash ni))
  | None =>
      cands ← ask (EDb (Fault OtherFault)) (λ w,
        filter (λ x, contains (derefStringPtr (r_url x.2)) (Hash u) = true ∧ r_url x.2 ≠ None ∧ r_nar_hash x.2 ≠ None)
          (map_to_list (narinfos (db w))));
      match head (filter (λ x, Hash <$> normalizedURL (derefStringPtr (r_url x.2)) = Some (Hash u)) cands) with
      | Some (_, cand) => lift (parse_nar_hash (r_nar_hash cand))
      | None => mret None
      end
  end.

(** The narinfos that name the NAR, with its query. *)
Definition narInfoIDsByNormalizedURL (target : URL) (d : tables) : list Z :=
  (filter (λ x, (λ n, (Hash n, encode (Query n))) <$> normalizedURL (derefStringPtr (r_url x.2)) =
      Some (Hash target, encode (Query target)))
    (filter (λ x, contains (derefStringPtr (r_url x.2)) (Hash target) = true ∧ is_empty (r_url x.2) = false)
      (map_to_list (narinfos d)))).*1.

Definition normalize_narinfos {V} (u : URL) (f : Z) : eff (session V tables) dberr () :=
  match URLString u with
  | Err _ => throw (AppError ErrInvalid)
  | Ok url =>
      ids ← query (narInfoIDsByNormalizedURL u);
      exec (λ d, renormalize_where (λ i _, bool_decide ((i, f) ∈ links d ∨ i ∈ ids)) url d)
  end.

(** The closure that turns a chunked row into a whole file's. *)
Definition flip_tx (u : URL) (f : Z) : eff (session () tables) dberr () :=
  _ ← exec (delete_chunk_links f);
  _ ← stmt_or (update_nar_file f (λ nf, set_chunked 0 (nf_file_size nf) nf));
  normalize_narinfos u f.

Definition is_not_there (e : cache_err) : bool := match e with ENotFound => true | _ => false end.

Definition MigrateChunksToNar (u : URL) (forceReclaim : bool) : M () :=
  if negb (isCDCEnabled cfg) then throw ErrCDCDisabled else
  withNarMigrationLock (Hash u) (
    let noneURL := mkURL (Hash u) CompressionTypeNone (Query u) false "" in
    r ← getNarFileFromDB cfg noneURL;
    '(f, nr) ← lift (map_err EDb r);
    if bool_decide (nf_total_chunks nr = 0%Z) then throw ErrNarAlreadyWholeFile else
    o ← LinkedNarinfoNarHash f noneURL;
    expected ← lift (of_option ErrNoNarHashToVerify o);
    r ← try (getNarFromChunks cfg now noneURL);
    '(_, _, rc) ← lift (map_err (λ e, if is_not_there e then ErrMissingChunk else e) r);
    _ ← ask EStore (λ _, ());
    if s_breaks rc then throw EStore else
    if negb (bool_decide (sha256 (s_bytes rc) = Digest expected)) then throw ErrNarHashMismatch else
    if negb (bool_decide (string_length (s_bytes rc) = nf_file_size nr)) then throw ErrNarHashMismatch else
    _ ← ask EStore (λ _, ());
    _ ← narStore_PutNar noneURL rc;
    prevChunks ← (if forceReclaim then ask (EDb (Fault OtherFault)) (λ w, remove_dups (links_of f (db w))) else mret []);
    _ ← transaction_ (flip_tx noneURL f);
    if forceReclaim then cleanupStaleLockChunks prevChunks else mret ()).

Definition PurgeChunkedNar (u : URL) : M () :=
  if negb (isCDCEnabled cfg) then throw ErrCDCDisabled else
  withNarMigrationLock (Hash u) (
    let noneURL := mkURL (Hash u) CompressionTypeNone (Query u) false "" in
    r ← getNarFileFromDB cfg noneURL;
    match r with
    | Err e => if IsNotFoundError e then mret () else throw (EDb e)
    | Ok (f, nr) =>
        if bool_decide (nf_total_chunks nr = 0%Z) then throw ErrNarAlreadyWholeFile else
        prevChunks ← ask (EDb (Fault OtherFault)) (λ w, remove_dups (links_of f (db w)));
        _ ← transaction_ (_ ← exec (delete_chunk_links f); exec (delete_nar_file f));
        cleanupStaleLockChunks prevChunks
    end).

Definition NormalizeChunkedNarInfoURL (u : URL) : M () :=
  if negb (isCDCEnabled cfg) then throw ErrCDCDisabled else
  let noneURL := mkURL (Hash u) CompressionTypeNone (Query u) false "" in
  r ← getNarFileFromDB cfg noneURL;
  match r with
  | Err e => if IsNotFoundError e then mret () else throw (EDb e)
  | Ok (f, _) => transaction_ (_ ← normalize_narinfos noneURL f; relinkNarInfosToNarFileWithEntTx noneURL f)
  end.

(** ** The periodic jobs *)

(** The whole files kept beside chunks, old enough. *)
Definition old_files (deleteDelay : Z) (d : tables) : list (Z * nar_file) :=
  filter (λ x, nf_total_chunks x.2 = 0%Z ∧ nf_compression x.2 ≠ CompressionTypeNone ∧
      (nf_created_at x.2 < now - deleteDelay)%Z ∧
      map_Exists (λ _ nf, nf_compression nf = CompressionTypeNone ∧ (0 < nf_total_chunks nf)%Z ∧ nf_hash nf = nf_hash x.2) (nar_files d))
    (map_to_list (nar_files d)).

Fixpoint delete_old_files (l : list (Z * nar_file)) : M () :=
  match l with
  | [] => mret ()
  | (f, nf) :: l =>
      r ← try (E' := cache_err) (act (EDb (Fault OtherFault)) (λ w, set_db (delete_nar_file f (db w)) w));
      _ ← (match r with
           | Err _ => mret ()
           | Ok _ => _ ← try (E' := cache_err) (narStore_DeleteNar (mkURL (nf_hash nf) (nf_compression nf) ∅ false "")); mret ()
           end);
      delete_old_files l
  end.

(** When its lock is free. *)
Definition runCDCDeletedCleanup (deleteDelay : Z) : M () :=
  oldFiles ← ask (EDb (Fault OtherFault)) (λ w, old_files deleteDelay (db w));
  delete_old_files oldFiles.

Definition recoverStaleCDCChunkingLock (f : Z) (stale : nar_file) : M (option (list string)) :=
  acquired ← try_migration_lock (nf_hash stale);
  if negb acquired then mret None else
  '(r, v) ← transaction (V := option (list string)) (
    current ← query (λ d, nar_files d !! f);
    match current with
    | None => mret ()
    | Some current => o ← clearStaleCDCChunkingLockWithEntTx f current; assign (λ _, o)
    end) None;
  _ ← lift r;
  match v with
  | None => mret None
  | Some staleLockChunks =>
      _ ← (if chunkStore cfg then cleanupStaleLockChunks staleLockChunks else mret ());
      mret (Some staleLockChunks)
  end.

(** Does every healthy upstream say it has no such narinfo? *)
Context (narInfoGenuinelyAbsentUpstream : string → bool).

(** The closure of [gcDeleteAbsentNarInfosAndMaybeNarFile]; its variable is
    [narFileDeleted]. *)
Definition gc_tx (f : Z) (verified : list Z) : eff (session bool tables) dberr () :=
  _ ← assign (λ _, false);
  _ ← exec (λ d, set_links (filter (λ x, ¬ (x.2 = f ∧ x.1 ∈ verified)) (links d)) d);
  _ ← exec (λ d, foldr (λ i d, match narinfos d !! i with
      | Some r => if bool_decide (i ∈ (links d).*1) then d else delete_where (r_hash r) d
      | None => d
      end) d verified);
  stillLinked ← query (λ d, bool_decide (f ∈ (links d).*2));
  if stillLinked : bool then mret () else
  _ ← stmt_or (λ d, match nar_files d !! f with Some _ => Ok ((), delete_nar_file f d) | None => Err RowNotFound end);
  assign (λ _, true).

Definition gcOrSkipBackingLessNarFile (f : Z) : M () :=
  r ← try (E' := cache_err) (ask (EDb (Fault OtherFault)) (λ w, filter (λ x, (x.1, f) ∈ links (db w)) (map_to_list (narinfos (db w)))));
  match r with
  | Err _ => mret ()
  | Ok [] =>
      _ ← try (E' := cache_err) (act (EDb (Fault OtherFault)) (λ w, set_db (delete_nar_file f (db w)) w));
      mret ()
  | Ok nis =>
      if forallb (λ x, narInfoGenuinelyAbsentUpstream (r_hash x.2)) nis then
        _ ← transaction (gc_tx f nis.*1) false; mret ()
      else mret ()
  end.

(** The rows a run looks at, after the cursor and in the order of their ids. *)
Definition recovery_candidates (interval cursorID : Z) (batchSize : nat) (d : tables) : list (Z * nar_file) :=
  let rows := filter (λ x, nf_total_chunks x.2 = 0%Z ∧ (cursorID < x.1)%Z ∧
      (nf_chunking x.2 = true ∨ (nf_created_at x.2 < now - interval)%Z)) (map_to_list (nar_files d)) in
  take batchSize (merge_sort by_id rows).

Fixpoint recover_files (l : list (Z * nar_file)) : M () :=
  match l with
  | [] => mret ()
  | (f, stuckFile) :: l =>
      if nf_chunking stuckFile then _ ← recoverStaleCDCChunkingLock f stuckFile; recover_files l else
      match parse_query (nf_query stuckFile) with
      | Err _ => recover_files l
      | Ok parsedQuery =>
          let u := mkURL (nf_hash stuckFile) (nf_compression stuckFile) parsedQuery false "" in
          present ← HasNarInStore u;
          _ ← (if negb present then gcOrSkipBackingLessNarFile f else
               if negb (cdcLazyChunkingEnabled cfg) then mret () else spawn (JMigrateToChunks u));
          recover_files l
      end
  end.

(** When its lock is free; the result is the cursor saved. *)
Definition runCDCLazyRecovery (interval cursorID : Z) (batchSize : nat) : M Z :=
  recoveryFiles ← ask (EDb (Fault OtherFault)) (λ w, recovery_candidates interval cursorID batchSize (db w));
  let cursor := if length recoveryFiles <? batchSize then 0%Z else default 0%Z (last recoveryFiles.*1) in
  _ ← recover_files recoveryFiles;
  mret cursor.
End storing.

(** ** Worlds in order *)

Section tidy.
Context `{GN : GoNix} {CD : Codec} {CH : Chunker} (content : string → string) (cfg : Config).
Notation nar_named := (nar_named content).

(** The links of a row marked complete are all there, with their files; those of a row
    being chunked are the first of the NAR's. *)
Definition tidy_row (files : gmap string string) (nf : nar_file) (hashes : list string) : Prop :=
  (0 <= nf_total_chunks nf)%Z ∧
  (nf_total_chunks nf = 0%Z → hashes `prefix_of` (digest <$> Chunk (plain_stream (nar_named (nf_hash nf))))) ∧
  ((0 < nf_total_chunks nf)%Z →
    Z.of_nat (length hashes) = nf_total_chunks nf ∧ Forall (λ h, is_Some (files !! h)) hashes).

Record tidy_tables (files : gmap string string) (d : tables) : Prop := {
  tt_sound : sound_tables content digest d;
  tt_rows f nf : nar_files d !! f = Some nf → tidy_row files nf (links_of f d);
}.

Record tidy (w : world) : Prop := {
  ty_tables : tidy_tables (chunkFiles w) (db w);
  ty_files : sound_files content (narStore w);
  ty_chunks : sound_chunks digest (chunkFiles w);
}.

(** A row marked complete. *)
Definition marked (h q : string) (d : tables) : Prop :=
  ∃ f nf, nar_files d !! f = Some nf ∧ has_key h CompressionTypeNone q nf ∧ (0 < nf_total_chunks nf)%Z.

(** A NAR that an uncompressed request finds: a whole file stands for it, or chunks. *)
Definition whole_file (h : string) (w : world) : Prop :=
  ∃ c, c ∈ [CompressionTypeZstd; CompressionTypeXz; CompressionTypeNone] ∧ stored_at (mkURL h c ∅ false "") w = true.
Definition available (h q : string) (w : world) : Prop := whole_file h w ∨ chunkStore cfg = true ∧ marked h q (db w).

Lemma tidy_sound w : tidy w → sound content digest w.
Proof. intros [[? ?] ? ?]. by split. Qed.

Lemma tidy_set_file files f nf d :
  tidy_tables files d →
  (∀ g x, nar_files d !! g = Some x → has_key (nf_hash nf) (nf_compression nf) (nf_query nf) x → g = f) →
  sound_row content digest nf (links_of f d) → tidy_row files nf (links_of f d) →
  tidy_tables files (set_nar_files (<[f := nf]> (nar_files d)) d).
Proof.
  intros [Hs Ht] Hk Hrow Htidy. split; [by apply sound_set_file|].
  intros g x Hx. simpl in Hx. apply lookup_insert_Some in Hx as [[<- <-]|[_ Hx]]; [exact Htidy|]. exact (Ht g x Hx).
Qed.

(** A change of a row that keeps what it promises. *)
Lemma tidy_alter files f nf nf' d :
  tidy_tables files d → nar_files d !! f = Some nf →
  nf_hash nf' = nf_hash nf → nf_compression nf' = nf_compression nf → nf_query nf' = nf_query nf →
  nf_total_chunks nf' = nf_total_chunks nf → ((0 < nf_total_chunks nf)%Z → nf_file_size nf' = nf_file_size nf) →
  tidy_tables files (set_nar_files (<[f := nf']> (nar_files d)) d).
Proof.
  intros Hd Hf Hh Hc Hq Ht Hs. pose proof (tt_sound _ _ Hd) as Hsd. apply tidy_set_file; [done|..].
  - intros g x Hg Hk. rewrite Hh, Hc, Hq in Hk. by eapply (unique_file _ (st_unique _ _ _ Hsd)).
  - pose proof (st_rows _ _ _ Hsd f nf Hf) as Hrow. unfold sound_row in *. rewrite Hh, Hc, Ht.
    intros Hpos. rewrite (Hs Hpos). auto.
  - pose proof (tt_rows _ _ Hd f nf Hf) as Hrow. unfold tidy_row in *. by rewrite Hh, Ht.
Qed.

Lemma tidy_same files d d' : same_but_access d d' → tidy_tables files d → tidy_tables files d'.
Proof.
  intros Hs Hd. destruct (same_but_access_tables _ _ Hs) as (_ & _ & Hc). split; [by eapply sound_same, (tt_sound _ _ Hd)|].
  intros f nf Hf. symmetry in Hs. destruct (same_but_access_file _ _ _ _ Hs Hf) as [t Hf'].
  pose proof (tt_rows _ _ Hd f _ Hf') as Hrow. unfold links_of in *. rewrite <- Hc. exact Hrow.
Qed.

(** Changes of narinfos and their links. *)
Lemma tidy_frame files d d' :
  tidy_tables files d → nar_files d' = nar_files d → nar_file_chunks d' = nar_file_chunks d →
  (∀ i r', narinfos d' !! i = Some r' → ∃ r, narinfos d !! i = Some r ∧ r_hash r' = r_hash r) → tidy_tables files d'.
Proof.
  intros [[Hu Hr Hc] Ht] Hf Hch Hn. split; [split|].
  - split.
    + intros i j x y Hx Hy Hxy. destruct (Hn i x Hx) as (x' & Hx' & Ex), (Hn j y Hy) as (y' & Hy' & Ey).
      eapply (unique_hash _ Hu); [exact Hx'|exact Hy'|congruence].
    + rewrite Hf. apply Hu.
  - intros f nf. rewrite Hf. unfold links_of. rewrite Hch. apply Hr.
  - intros f. rewrite Hf, Hch. apply Hc.
  - intros f nf. rewrite Hf. unfold links_of. rewrite Hch. apply Ht.
Qed.

(** Other rows' links do not matter to a row. *)
Lemma links_of_insert f g l d :
  links_of g (set_nar_file_chunks (<[f := l]> (nar_file_chunks d)) d) = if decide (f = g) then l else links_of g d.
Proof.
  unfold links_of. simpl. case_decide as Hfg; [subst; by rewrite lookup_insert_eq|by rewrite lookup_insert_ne].
Qed.

Lemma links_of_delete f g d : links_of g (delete_chunk_links f d) = if decide (f = g) then [] else links_of g d.
Proof.
  unfold links_of. simpl. case_decide as Hfg; [subst; by rewrite lookup_delete_eq|by rewrite lookup_delete_ne].
Qed.

(** New links of a row that is not marked complete. *)
Lemma tidy_set_links files f nf l d :
  tidy_tables files d → nar_files d !! f = Some nf → nf_total_chunks nf = 0%Z →
  l `prefix_of` (digest <$> Chunk (plain_stream (nar_named (nf_hash nf)))) →
  tidy_tables files (set_nar_file_chunks (<[f := l]> (nar_file_chunks d)) d).
Proof.
  intros [[Hu Hr Hc] Ht] Hf Hz Hl. split; [split|].
  - by split; apply Hu.
  - intros g x Hx. rewrite links_of_insert. case_decide; [|by apply Hr]. subst g. simpl in Hx. rewrite Hf in Hx.
    injection Hx as <-. intros Hpos. lia.
  - intros g Hg. simpl in *. destruct (decide (f = g)) as [<-|]; [by eexists|]. rewrite lookup_insert_ne in Hg by done. by apply Hc.
  - intros g x Hx. rewrite links_of_insert. case_decide; [|by apply Ht]. subst g. simpl in Hx. rewrite Hf in Hx.
    injection Hx as <-. split_and!; [lia|done|lia].
Qed.

Lemma tidy_delete_links files f d :
  tidy_tables files d → (∀ nf, nar_files d !! f = Some nf → nf_total_chunks nf = 0%Z) → tidy_tables files (delete_chunk_links f d).
Proof.
  intros [[Hu Hr Hc] Ht] Hz. split; [split|].
  - by split; apply Hu.
  - intros g x Hx. rewrite links_of_delete. case_decide; [|by apply Hr]. subst g. apply Hz in Hx. intros Hpos. lia.
  - intros g Hg. simpl in *. destruct (decide (f = g)) as [<-|]; [by rewrite lookup_delete_eq in Hg; destruct Hg|].
    rewrite lookup_delete_ne in Hg by done. by apply Hc.
  - intros g x Hx. rewrite links_of_delete. case_decide; [|by apply Ht]. subst g. apply Hz in Hx.
    split_and!; [lia|intros _; apply prefix_nil|lia].
Qed.

Lemma tidy_delete_file files f d : tidy_tables files d → tidy_tables files (delete_nar_file f d).
Proof.
  intros [[Hu Hr Hc] Ht]. assert (∀ g x, delete f (nar_files d) !! g = Some x → nar_files d !! g = Some x ∧ links_of g (delete_nar_file f d) = links_of g d) as Hg.
  { intros g x [Hne Hx]%lookup_delete_Some. split; [done|]. unfold links_of. simpl. by rewrite lookup_delete_ne. }
  split; [split|].
  - split; [apply (unique_hash _ Hu)|]. simpl. intros i j x y h c q [Hi _]%Hg [Hj _]%Hg. by eapply (unique_file _ Hu).
  - intros g x Hx. destruct (Hg g x Hx) as [Hx' ->]. by apply Hr.
  - intros g [x Hx]. simpl in *. apply lookup_delete_Some in Hx as [Hne Hx]. destruct (Hc g) as [nf Hnf]; [by rewrite Hx|].
    exists nf. by rewrite lookup_delete_ne.
  - intros g x Hx. destruct (Hg g x Hx) as [Hx' ->]. by apply Ht.
Qed.

(** A new row is not complete. *)
Lemma tidy_new_file files nf d :
  tidy_tables files d → nf_total_chunks nf = 0%Z → nar_files_where (nf_hash nf) (nf_compression nf) (nf_query nf) d = [] →
  tidy_tables files (set_nar_files (<[fresh (dom (nar_files d)) := nf]> (nar_files d)) d).
Proof.
  intros Hd Ht Hno. pose proof (tt_sound _ _ Hd) as Hs. apply tidy_set_file; [done| | |].
  - intros g x Hg Hk. exfalso.
    destruct (nar_files_where_cases (nf_hash nf) (nf_compression nf) (nf_query nf) d (st_unique _ _ _ Hs)) as [[_ Hn]|(f & y & Hw & _)].
    + by eapply Hn.
    + congruence.
  - intros Hpos. lia.
  - rewrite (links_of_fresh _ _ _ Hs). split_and!; [lia|intros _; apply prefix_nil|lia].
Qed.
End tidy.

(** ** What the operations keep *)

Section keeping.
Context `{GN : GoNix} {SG : Signing} {CD : Codec} {CH : Chunker} {HA : Hashing} (content : string → string).
Context `{!CodecLaws} `{!ChunkerLaws} (nonempty : ∀ h, content h ≠ "").
Context (cfg : Config) (now : Z) (digest_of : string → string) (upstream : string → option NarInfo) (fetch : URL → option stream).
Notation M := (eff state cache_err).
Notation nar_named := (nar_named content).
Notation tidy := (tidy content).
Notation tidy_tables := (tidy_tables content).

(** Files stay, and rows marked complete. *)
Definition marks_stay (d d' : tables) : Prop := ∀ h q, marked h q d → marked h q d'.
Definition grows (w w' : world) : Prop :=
  (∀ p, is_Some (narStore w !! p) → is_Some (narStore w' !! p)) ∧ marks_stay (db w) (db w').

Lemma grows_refl w : grows w w.
Proof. by split; [|intros h q]. Qed.

Lemma grows_trans w1 w2 w3 : grows w1 w2 → grows w2 w3 → grows w1 w3.
Proof. intros [H1 H2] [H3 H4]. split; [auto|]. intros h q Hm. by apply H4, H2. Qed.

Lemma stored_grows w w' u : grows w w' → stored_at u w = true → stored_at u w' = true.
Proof.
  intros [Hf _]. unfold stored_at. destruct (nar_path u); [|done]. rewrite !bool_decide_eq_true. apply Hf.
Qed.

Lemma available_grows w w' h q : grows w w' → available cfg h q w → available cfg h q w'.
Proof.
  intros Hg [(c & Hc & Hst)|[Hcs Hm]]; [left|right].
  - exists c. split; [done|]. by eapply stored_grows.
  - split; [done|]. by apply Hg.
Qed.

(** In order, with all that [w0] held. *)
Definition ordered (w0 w : world) : Prop := tidy w ∧ grows w0 w.

Lemma ordered_db w0 w d :
  ordered w0 w → tidy_tables (chunkFiles w) d → marks_stay (db w) d → ordered w0 (set_db d w).
Proof. intros [[Ht Hf Hc] Hg] Hd Hm. split; [by split|]. eapply grows_trans; [done|]. by split. Qed.

(** A transaction, retried at will, whose closure keeps the tables in order. *)
Lemma wp_tx_error {V} b (J : tables → Prop) (Post : V → tables → Prop) (E : dberr → tables → Prop)
    (fn : eff (session V tables) dberr ()) v w0 w (Q : result cache_err (result cache_err () * V) → world → Prop) :
  (∀ f d, E (Fault f) d) → (∀ d, E CtxDone d) → ordered w0 w → J (db w) →
  (∀ v d, tidy_tables (chunkFiles w) d → J d → after false (λ r v' d', match r with
    | Ok _ => tidy_tables (chunkFiles w) d' ∧ marks_stay d d' ∧ J d' ∧ Post v' d'
    | Err e => E e d
    end) fn v d) →
  (∀ e v' d, ordered w0 (set_db d w) → J d → E e d → Q (Ok (Err (of_dberr e), v')) (set_db d w)) →
  (∀ v' d, ordered w0 (set_db d w) → J d → Post v' d → Q (Ok (Ok (), v')) (set_db d w)) →
  wp b (transaction fn v) Q w.
Proof.
  intros Hf Hc Ho HJ Hfn He HQ.
  apply (wp_transaction_error b (λ _ d, (tidy_tables (chunkFiles w) d ∧ marks_stay (db w) d) ∧ J d) Post E); [done|done|..].
  - split; [split; [apply Ho|by intros h q]|done].
  - intros v' d [[Ht Hm] HJd]. eapply after_mono; [by apply Hfn|]. intros [[]|e] v1 d1 Hr; (split; [done|]); [|done].
    destruct Hr as (Ht1 & Hm1 & HJ1 & HP). split; [split; [split; [done|]|done]|done]. intros h q Hmk. by apply Hm1, Hm.
  - intros e v' d [[Ht Hm] HJd]. apply He; [by apply ordered_db|done].
  - intros v' d [[Ht Hm] HJd] HP. apply HQ; [by apply ordered_db|done|done].
Qed.

Lemma wp_tx {V} b (J : tables → Prop) (Post : V → tables → Prop) (fn : eff (session V tables) dberr ()) v w0 w
    (Q : result cache_err (result cache_err () * V) → world → Prop) :
  ordered w0 w → J (db w) →
  (∀ v d, tidy_tables (chunkFiles w) d → J d → after false (λ r v' d', is_ok r = true →
    tidy_tables (chunkFiles w) d' ∧ marks_stay d d' ∧ J d' ∧ Post v' d') fn v d) →
  (∀ e v' d, ordered w0 (set_db d w) → J d → Q (Ok (Err e, v')) (set_db d w)) →
  (∀ v' d, ordered w0 (set_db d w) → J d → Post v' d → Q (Ok (Ok (), v')) (set_db d w)) →
  wp b (transaction fn v) Q w.
Proof.
  intros Ho HJ Hfn He HQ. apply (wp_tx_error b J Post (λ _ _, True) fn v w0); [done..| | |done]; [|by auto].
  intros v' d Hd HJd. eapply after_mono; [by apply Hfn|]. intros [[]|e] v1 d1 Hr; [by apply Hr|done].
Qed.

(** The same for a whole operation. *)
Lemma ordered_transaction_ w0 (fn : eff (session () tables) dberr ()) :
  (∀ files d, tidy_tables files d → after false (λ r v' d', is_ok r = true → tidy_tables files d' ∧ marks_stay d d') fn () d) →
  preserves (ordered w0) (transaction_ fn).
Proof.
  intros Hfn b w Hw. apply wp_transaction_, (wp_tx b (λ _, True) (λ _ _, True) _ _ w0 w); [done|done| | |].
  - intros [] d Hd _. eapply after_mono; [by apply Hfn|]. intros r v d' Hr Hok. by destruct (Hr Hok).
  - by intros e [] d Ho _.
  - by intros [] d Ho _ _.
Qed.

(** Changes of narinfos. *)
Lemma marks_stay_files d d' : nar_files d' = nar_files d → marks_stay d d'.
Proof. intros Hf h q (f & nf & Hnf & Hk). exists f, nf. by rewrite Hf. Qed.

Lemma ordered_update_where w0 h g : (∀ r, r_hash (g r) = r_hash r) → preserves (ordered w0) (transaction_ (update_where h g)).
Proof.
  intros Hg. apply ordered_transaction_. intros files d Hd. apply after_stmt_or; [done|].
  case_bool_decide; [|done]. intros _. split; [|by apply marks_stay_files].
  apply (tidy_frame content files d); [done..|]. simpl. intros i r' Hr. apply lookup_fmap_Some in Hr as (r & <- & Hr).
  exists r. split; [done|]. case_bool_decide; [apply Hg|done].
Qed.

Lemma ordered_looks {A} w0 (m : M A) : (∀ w, preserves (eq w) m) → preserves (ordered w0) m.
Proof. intros Hm b w Hw. apply wp_looks; [apply Hm|done]. Qed.

Lemma ordered_HasNarInStore w0 u : preserves (ordered w0) (HasNarInStore u).
Proof. apply ordered_looks. intros w. apply looks_HasNarInStore. Qed.

Lemma ordered_HasNarInChunks w0 u : preserves (ordered w0) (HasNarInChunks cfg u).
Proof. apply ordered_looks. intros w. apply looks_HasNarInChunks. Qed.

Lemma ordered_CheckAndFixNarInfo w0 h : preserves (ordered w0) (CheckAndFixNarInfo cfg digest_of h).
Proof.
  unfold CheckAndFixNarInfo, checkAndFixNarInfoNoCompression, getNarActualSize, nar_file_row, getNarFileFromDB, computeStoredNarFileHash.
  unfold clearFileSize, clearFileHash, fixNarInfoFileSize, fixNarInfoFileHash.
  preserving ltac:(first [apply ordered_HasNarInStore|apply ordered_HasNarInChunks|by apply ordered_update_where]).
Qed.

Lemma ordered_act w0 e (g : world → world) :
  (∀ w, tidy w → tidy (g w) ∧ grows w (g w)) → preserves (ordered w0) (act e g).
Proof.
  intros Hg. apply preserves_act. intros w [Ht Hgr]. destruct (Hg w Ht). split; [done|]. by eapply grows_trans.
Qed.

Lemma ordered_add_link w0 e i f : preserves (ordered w0) (act e (λ w, set_db (add_link i f (db w)) w)).
Proof.
  apply ordered_act. intros w Ht. split; [|split; [done|by apply marks_stay_files]].
  destruct Ht as [Hd ? ?]. split; [|done|done]. apply (tidy_frame content _ (db w)); [done..|]. simpl. eauto.
Qed.

Lemma ordered_checkAndFixNarInfosForNar w0 u : preserves (ordered w0) (checkAndFixNarInfosForNar cfg digest_of u).
Proof.
  assert (∀ row nis, preserves (ordered w0) (fix_narinfos cfg digest_of row nis)) as Hfix.
  { intros row nis. induction nis as [|[i ni] nis IH]; [apply preserves_ret|]. simpl.
    preserving ltac:(first [apply ordered_CheckAndFixNarInfo|apply ordered_add_link|apply IH]). }
  unfold checkAndFixNarInfosForNar, getNarFileFromDB. preserving ltac:(apply Hfix).
Qed.

(** *** Whole files *)

Lemma nar_named_normal u v : Normalize u = Ok v → nar_named (Hash v) = nar_named (Hash u).
Proof.
  intros Hv. destruct (Normalize_hash _ _ Hv) as [Hh _]. unfold NarServe.nar_named.
  by rewrite (normal_hash_idemp _ _ Hv), Hh.
Qed.

Lemma sound_files_insert m u p b :
  sound_files content m → nar_path u = Ok p → holds_nar (Compression u) b (nar_named (Hash u)) →
  sound_files content (<[p := b]> m).
Proof.
  intros Hm Hp Hb v q x Hq [[<- <-]|[_ Hx]]%lookup_insert_Some; [|by eapply Hm].
  destruct (nar_path_inj u v _ Hp Hq) as [Hn Hd]. unfold holds_nar, NarServe.nar_named in *. by rewrite <- Hn, <- Hd.
Qed.

Lemma stored_at_path u p w : nar_path u = Ok p → stored_at u w = bool_decide (is_Some (narStore w !! p)).
Proof. intros Hp. unfold stored_at. by rewrite Hp. Qed.

(** A file put holds its NAR; afterwards it is there, whoever put it. *)
Lemma wp_narStore_PutNar b u t w0 w :
  ordered w0 w → (s_breaks t = false → holds_nar (Compression u) (s_bytes t) (nar_named (Hash u))) →
  wp b (narStore_PutNar u t) (λ r w', ordered w0 w' ∧ db w' = db w ∧ chunkFiles w' = chunkFiles w ∧
    ∀ o, r = Ok o → stored_at u w' = true ∧ ∀ n, o = Some n → ∃ p, nar_path u = Ok p ∧ narStore w' !! p = Some (s_bytes t) ∧ n = string_length (s_bytes t)) w.
Proof.
  intros Ho Ht. unfold narStore_PutNar. destruct (nar_path u) as [p|] eqn:Hp; [|by apply wp_throw].
  apply wp_bind, wp_query; [by intros _|]. case_bool_decide as Hpres.
  { apply wp_ret. split_and!; [done..|]. intros o [= <-]. split; [|done]. rewrite (stored_at_path _ _ _ Hp). by apply bool_decide_eq_true. }
  destruct (s_breaks t); [by apply wp_throw|]. specialize (Ht eq_refl).
  assert (ordered w0 (set_narStore (<[p := s_bytes t]> (narStore w)) w)) as Ho'.
  { destruct Ho as [[Hd Hf Hc] Hg]. split.
    - split; [done| |done]. by eapply sound_files_insert.
    - eapply grows_trans; [done|]. split; [|by intros h q]. simpl. intros q Hq. rewrite lookup_insert_is_Some'. auto. }
  apply wp_bind, wp_act; [intros _; by split|]. apply wp_ret. split_and!; [done..|]. intros o [= <-].
  split; [rewrite (stored_at_path _ _ _ Hp); simpl; rewrite lookup_insert_eq; by apply bool_decide_eq_true|].
  intros n [= <-]. exists p. split_and!; [done| |done]. simpl. by rewrite lookup_insert_eq.
Qed.

(** The size of a stored file fits a row marked complete. *)
Lemma file_fits u v p b w :
  tidy w → Normalize u = Ok v → nar_path u = Ok p → narStore w !! p = Some b → fits v (string_length b) (db w).
Proof.
  intros Hw Hv Hp Hb f nf Hf (Hh & Hc & _) Hpos.
  destruct (st_rows _ _ _ (tt_sound _ _ _ (ty_tables _ _ Hw)) f nf Hf Hpos) as (Hnone & -> & _).
  pose proof (ty_files _ _ Hw u p b Hp Hb) as Hn. destruct (Normalize_hash _ _ Hv) as [_ Hcv].
  rewrite <- Hcv, <- Hc, Hnone in Hn. injection Hn as ->. by rewrite Hh, (nar_named_normal _ _ Hv).
Qed.

Lemma tidy_ensure files u v written d :
  Normalize u = Ok v → tidy_tables files d → fits v written d →
  tidy_tables files (ensure_nar_file now u written d) ∧ marks_stay d (ensure_nar_file now u written d) ∧
  fits v written (ensure_nar_file now u written d).
Proof.
  intros Hv Hd Hw. pose proof (tt_sound _ _ _ Hd) as Hs. destruct (sound_ensure content digest now u v written d Hv Hs Hw) as [_ Hfit].
  unfold ensure_nar_file in *. rewrite Hv in *.
  destruct (nar_files_where_cases (Hash v) (Compression v) (encode (Query v)) d (st_unique _ _ _ Hs)) as [[Hn Hno]|(f & nf & Hn & Hf & Hk)];
    rewrite Hn in *; (split; [|split; [|done]]).
  - by apply tidy_new_file.
  - intros h q (g & x & Hg & Hx). exists g, x. simpl. rewrite lookup_insert_ne; [done|]. intros <-.
    apply (is_fresh (dom (nar_files d))). by eapply elem_of_dom_2.
  - apply (tidy_alter content files f nf); try done. intros Hpos. symmetry. simpl. symmetry. by eapply Hw.
  - intros h q (g & x & Hg & Hx & Hpos). destruct (decide (f = g)) as [->|Hne].
    + rewrite Hf in Hg. injection Hg as <-. eexists g, _. simpl. by rewrite lookup_insert_eq.
    + exists g, x. simpl. by rewrite lookup_insert_ne.
Qed.

Lemma ordered_ensureNarFile b u v written w0 w :
  Normalize u = Ok v → ordered w0 w → fits v written (db w) →
  wp b (ensureNarFile now u written) (λ r w', ∃ d, w' = set_db d w ∧ ordered w0 w') w.
Proof.
  intros Hv Ho Hfit. apply wp_transaction_, (wp_tx b (fits v written) (λ _ _, True) _ _ w0 w); [done|done| | |].
  - intros [] d Hd HJ. apply after_exec; [done|]. intros _. by destruct (tidy_ensure _ _ _ _ _ Hv Hd HJ) as (? & ? & ?).
  - intros e [] d Ho' _. by exists d.
  - intros [] d Ho' _ _. by exists d.
Qed.

Lemma nar_path_normalize u p : nar_path u = Ok p → ∃ v, Normalize u = Ok v.
Proof. unfold nar_path. intros (v & Hv & _)%bind_Ok_inv. by exists v. Qed.

(** A whole file put, its size taken, and what comes then. *)
Lemma wp_put_whole {A} b u t (k : Z → M A) (Q : result cache_err A → world → Prop) w0 w :
  ordered w0 w → (s_breaks t = false → holds_nar (Compression u) (s_bytes t) (nar_named (Hash u))) →
  (∀ e w', ordered w0 w' → Q (Err e) w') →
  (∀ p x w', ordered w0 w' → db w' = db w → stored_at u w' = true → nar_path u = Ok p → narStore w' !! p = Some x →
    wp b (k (string_length x)) Q w') →
  wp b (o ← narStore_PutNar u t; written ← written_size u o; k written) Q w.
Proof.
  intros Ho Ht He Hk. apply wp_bind. eapply wp_mono; [by apply (wp_narStore_PutNar b u t w0)|].
  intros [o|e] w1 (Ho1 & Hdb & _ & Hr); [|by apply He]. destruct (Hr o eq_refl) as [Hst Hsize]. apply wp_bind. destruct o as [n|].
  - apply wp_ret. destruct (Hsize n eq_refl) as (p & Hp & Hx & ->). by eapply Hk.
  - apply wp_bind, wp_narStore_GetNar; [intros; by apply He|]. intros p x Hp Hx. apply wp_ret. by eapply Hk.
Qed.

(** The record of a file. *)
Lemma ordered_record b u p x w0 w :
  ordered w0 w → nar_path u = Ok p → narStore w !! p = Some x →
  wp b (ensureNarFile now u (string_length x)) (λ r w', ∃ d, w' = set_db d w ∧ ordered w0 w') w.
Proof.
  intros Ho Hp Hx. destruct (nar_path_normalize _ _ Hp) as [v Hv]. eapply ordered_ensureNarFile; [done|done|].
  eapply file_fits; [apply Ho|done..].
Qed.

(** *** Chunks *)

(** The digests of a NAR's chunks, in order. *)
Definition hashes (u : URL) : list string := digest <$> Chunk (plain_stream (nar_named (Hash u))).

(** The row of a NAR being chunked, with at least [n] of its links. *)
Definition being_chunked (u : URL) (f : Z) (n : nat) (d : tables) : Prop :=
  ∃ nf, nar_files d !! f = Some nf ∧ has_key (Hash u) CompressionTypeNone (encode (Query u)) nf ∧
    nf_total_chunks nf = 0%Z ∧ n ≤ length (links_of f d).

Lemma marks_stay_refl d : marks_stay d d.
Proof. by intros h q. Qed.

Lemma marks_stay_trans d1 d2 d3 : marks_stay d1 d2 → marks_stay d2 d3 → marks_stay d1 d3.
Proof. intros H1 H2 h q Hm. by apply H2, H1. Qed.

Lemma marks_stay_alter f nf nf' d :
  nar_files d !! f = Some nf → (∀ h q, has_key h CompressionTypeNone q nf → has_key h CompressionTypeNone q nf') →
  ((0 < nf_total_chunks nf)%Z → (0 < nf_total_chunks nf')%Z) →
  marks_stay d (set_nar_files (<[f := nf']> (nar_files d)) d).
Proof.
  intros Hf Hk Ht h q (g & x & Hg & Hkx & Hpos). destruct (decide (f = g)) as [<-|Hne].
  - rewrite Hf in Hg. injection Hg as <-. exists f, nf'. simpl. rewrite lookup_insert_eq. auto.
  - exists g, x. simpl. by rewrite lookup_insert_ne.
Qed.

Lemma after_update_file {V} f g nf (Q : result dberr () → V → tables → Prop) v d :
  nar_files d !! f = Some nf → (∀ e, Q (Err (Fault e)) v d) → Q (Ok ()) v (set_nar_files (<[f := g nf]> (nar_files d)) d) →
  after false Q (stmt_or (update_nar_file f g)) v d.
Proof. intros Hf He HQ. apply after_stmt_or; [done|]. unfold update_nar_file. by rewrite Hf. Qed.

(** Changes of the row that leave it open. *)
Lemma open_update files f g nf d :
  tidy_tables files d → nar_files d !! f = Some nf → nf_total_chunks nf = 0%Z →
  (∀ h q, has_key h CompressionTypeNone q nf → has_key h CompressionTypeNone q (g nf)) →
  nf_hash (g nf) = nf_hash nf → nf_compression (g nf) = nf_compression nf → nf_query (g nf) = nf_query nf →
  nf_total_chunks (g nf) = nf_total_chunks nf →
  tidy_tables files (set_nar_files (<[f := g nf]> (nar_files d)) d) ∧ marks_stay d (set_nar_files (<[f := g nf]> (nar_files d)) d).
Proof.
  intros Hd Hf Hz Hk Hh Hc Hq Ht. split.
  - apply (tidy_alter content files f nf); try done. intros Hpos. lia.
  - apply (marks_stay_alter f nf); [done..|]. lia.
Qed.

Lemma marks_stay_links d l : marks_stay d (set_nar_file_chunks l d).
Proof. by apply marks_stay_files. Qed.

(** A statement's fault is no error of the closure's own. *)
Ltac no_fault := intros; simpl; discriminate.

(** What [findOrCreateNarFileForCDC] comes to, from [d]: an open row, or the news that
    the NAR is there. *)
Definition opened (files : gmap string string) (u : URL) (d : tables) (r : result dberr ()) (v : Z * list string) (d' : tables) : Prop :=
  match r with
  | Ok _ => tidy_tables files d' ∧ marks_stay d d' ∧ being_chunked u v.1 0 d'
  | Err e => e = AppError ErrAlreadyExists → marked (Hash u) (encode (Query u)) d
  end.

Lemma after_set_chunking files u f nf (v : Z * list string) d0 d :
  v.1 = f → tidy_tables files d → marks_stay d0 d → nar_files d !! f = Some nf →
  has_key (Hash u) CompressionTypeNone (encode (Query u)) nf → nf_total_chunks nf = 0%Z →
  after false (opened files u d0) (stmt_or (update_nar_file f (set_chunking true))) v d.
Proof.
  intros <- Hd Hm Hf Hk Ht. eapply after_update_file; [done|no_fault|].
  destruct (open_update files v.1 (set_chunking true) nf d) as [H1 H2]; [done..|]. split; [done|].
  split; [by eapply marks_stay_trans|]. exists (set_chunking true nf). simpl. rewrite lookup_insert_eq.
  split_and!; try done; [apply Hk..|lia].
Qed.

(** An abandoned row's links go, and the row stays. *)
Lemma after_clear_stale {V} files f nr nf (v : V) d :
  tidy_tables files d → nar_files d !! f = Some nf → nf_total_chunks nf = nf_total_chunks nr →
  after false (λ r v' d', v' = v ∧ match r with
    | Ok None => d' = d ∧ ((0 < nf_total_chunks nr)%Z ∨ nf_chunking nr = false)
    | Ok (Some _) => tidy_tables files d' ∧ marks_stay d d' ∧ nf_total_chunks nf = 0%Z ∧
        nar_files d' = <[f := set_chunking false nf]> (nar_files d)
    | Err e => ∃ x, e = Fault x
    end) (clearStaleCDCChunkingLockWithEntTx f nr) v d.
Proof.
  intros Hd Hf Ht. unfold clearStaleCDCChunkingLockWithEntTx.
  destruct (decide (0 < nf_total_chunks nr)%Z) as [Hpos|Hpos]; [rewrite bool_decide_true by done|rewrite bool_decide_false by done]; simpl.
  { apply after_ret. auto. }
  destruct (nf_chunking nr) eqn:Hch; simpl; [|apply after_ret; auto]. pose proof (tt_rows _ _ _ Hd f nf Hf) as [Hge _].
  assert (nf_total_chunks nf = 0%Z) as Hz by lia.
  apply after_bind, after_query; [by intros _ x; split; [|exists x]|]. apply after_bind, after_exec; [by intros _ x; split; [|exists x]|].
  assert (tidy_tables files (delete_chunk_links f d)) as Hd1 by (apply tidy_delete_links; [done|]; intros y Hy; congruence).
  destruct (open_update files f (set_chunking false) nf (delete_chunk_links f d)) as [H1 H2]; [done..|].
  apply after_bind. eapply after_update_file; [exact Hf|by intros x; split; [|exists x]|]. apply after_ret. split; [done|].
  split; [done|]. split; [|by split].
  eapply marks_stay_trans; [|exact H2]. by apply marks_stay_files.
Qed.

Lemma upsert_for_cdc_row files u size d :
  Compression u = CompressionTypeNone → tidy_tables files d →
  ∃ f d1 nf, upsert_for_cdc now u size d = (f, d1) ∧ tidy_tables files d1 ∧ marks_stay d d1 ∧ nar_files d1 !! f = Some nf ∧
    has_key (Hash u) CompressionTypeNone (encode (Query u)) nf ∧ ((0 < nf_total_chunks nf)%Z → marked (Hash u) (encode (Query u)) d).
Proof.
  intros Hc Hd. unfold upsert_for_cdc. pose proof (st_unique _ _ _ (tt_sound _ _ _ Hd)) as Hu.
  destruct (nar_files_where_cases (Hash u) (Compression u) (encode (Query u)) d Hu) as [[Hn Hno]|(f & nf & Hn & Hf & Hk)]; rewrite Hn.
  - eexists _, _, _. split; [done|]. split; [by apply tidy_new_file|]. split.
    + intros h q (g & x & Hg & Hx). exists g, x. simpl. rewrite lookup_insert_ne; [done|]. intros <-.
      apply (is_fresh (dom (nar_files d))). by eapply elem_of_dom_2.
    + split; [by apply lookup_insert_eq|]. by rewrite Hc.
  - rewrite Hc in Hk. exists f, d, nf. split; [done|]. split; [done|]. split; [apply marks_stay_refl|]. do 2 (split; [done|]).
    intros Hpos. by exists f, nf.
Qed.

(** The row is found or made; a row marked complete is left alone. *)
Lemma after_find_or_create files u size v d :
  Compression u = CompressionTypeNone → tidy_tables files d → after false (opened files u d) (find_or_create_tx now u size) v d.
Proof.
  intros Hc Hd. unfold find_or_create_tx. apply after_bind, after_stmt; [no_fault|].
  destruct (upsert_for_cdc_row files u size d Hc Hd) as (f & d1 & nf & Hup & Hd1 & Hm1 & Hf & Hk & Hmk). rewrite Hup. simpl.
  pose proof (tt_rows _ _ _ Hd1 f nf Hf) as [Hge _]. apply after_bind, after_stmt_or; [no_fault|]. rewrite Hf. apply after_bind.
  set (sized z := nf_chunking z = nf_chunking nf ∧ has_key (Hash u) CompressionTypeNone (encode (Query u)) z ∧ nf_total_chunks z = nf_total_chunks nf).
  assert (after false (λ r v' d', match r with
    | Ok _ => v' = v ∧ tidy_tables files d' ∧ marks_stay d d' ∧ ∃ z, nar_files d' !! f = Some z ∧ sized z
    | Err e => ∃ x, e = Fault x
    end) (if negb (bool_decide (nf_file_size nf = size)) && bool_decide (nf_total_chunks nf = 0%Z) then
            stmt_or (update_nar_file f (set_file_size size)) else mret ()) v d1) as Hsize.
  { destruct (negb (bool_decide (nf_file_size nf = size)) && bool_decide (nf_total_chunks nf = 0%Z)) eqn:Hs.
    - apply andb_true_iff in Hs as [_ Hz%bool_decide_eq_true]. eapply after_update_file; [exact Hf|by intros x; exists x|].
      destruct (open_update files f (set_file_size size) nf d1) as [H1 H2]; [done..|]. split; [done|]. split; [done|].
      split; [by eapply marks_stay_trans|]. exists (set_file_size size nf). simpl. by rewrite lookup_insert_eq.
    - apply after_ret. split; [done|]. split; [done|]. split; [done|]. by exists nf. }
  eapply after_mono; [exact Hsize|]. clear Hsize.
  intros [[]|e] v1 d2; [intros (-> & Hd2 & Hm2 & z & Hz & Hzc & Hzk & Hzt)|by intros [x ->]].
  apply after_bind, after_assign. simpl. destruct (decide (0 < nf_total_chunks nf)%Z) as [Hpos|Hpos].
  { rewrite bool_decide_true by done. apply after_throw. by intros _; apply Hmk. }
  rewrite bool_decide_false by done. apply after_bind. destruct (nf_chunking nf) eqn:Hch.
  2:{ apply after_ret. eapply after_set_chunking; [done..|lia]. }
  apply after_bind. eapply after_mono; [by apply (after_clear_stale files f nf z)|].
  intros [[stale|]|e] v3 d3 [-> Hr]; [|destruct Hr as [_ [|]]; [done|congruence]|by destruct Hr as [x ->]].
  destruct Hr as (Hd3 & Hm3 & Ht & Hz3). apply after_assign.
  eapply after_set_chunking; [done|done|by eapply marks_stay_trans|by rewrite Hz3; apply lookup_insert_eq|done|done].
Qed.

(** Orphaned chunks are no part of anything. *)
Lemma tidy_tables_files files files' d :
  tidy_tables files d → (∀ h f, h ∈ links_of f d → is_Some (files !! h) → is_Some (files' !! h)) → tidy_tables files' d.
Proof.
  intros [Hs Ht] Hf. split; [done|]. intros f nf Hnf. destruct (Ht f nf Hnf) as (H1 & H2 & H3). split; [done|]. split; [done|].
  intros Hpos. destruct (H3 Hpos) as [Hlen Hall]. split; [done|]. rewrite Forall_forall in *. eauto.
Qed.

Lemma chunk_linked_of h f d : h ∈ links_of f d → chunk_linked h d = true.
Proof.
  unfold links_of, chunk_linked. destruct (nar_file_chunks d !! f) as [l|] eqn:Hf; simpl; [|set_solver].
  intros Hh. apply bool_decide_eq_true. by exists f, l.
Qed.

Lemma ordered_delete_orphan w0 h w :
  ordered w0 w → chunk_linked h (db w) = false → ordered w0 (set_chunkFiles (delete h (chunkFiles w)) w).
Proof.
  intros [[Hd Hf Hc] Hg] Hl. split; [split|]; [|done| |done].
  - eapply tidy_tables_files; [exact Hd|]. intros k f Hk Hs. simpl. rewrite lookup_delete_ne; [done|]. intros <-.
    simpl in Hk. apply chunk_linked_of in Hk. congruence.
  - intros k x Hx. simpl in Hx. apply lookup_delete_Some in Hx as [_ Hx]. by apply Hc.
Qed.

Lemma wp_cleanupStaleLockChunks b w0 hs w :
  ordered w0 w → wp b (cleanupStaleLockChunks hs) (λ r w', r = Ok () ∧ ordered w0 w' ∧ db w' = db w) w.
Proof.
  intros Hw. unfold cleanupStaleLockChunks. destruct (bool_decide _); [by apply wp_ret|].
  apply wp_bind, wp_try, wp_query; [intros _; by apply wp_ret|]. generalize (filter (λ h, chunk_linked h (db w) = false) hs).
  clear hs. intros hs. assert (∀ w1, ordered w0 w1 → db w1 = db w →
    wp b (delete_orphan_chunks hs) (λ r w', r = Ok () ∧ ordered w0 w' ∧ db w' = db w) w1) as Hall; [|by apply Hall].
  induction hs as [|h hs IH]; intros w1 H1 Hd; simpl; [by apply wp_ret|].
  apply wp_bind, wp_try, wp_query; [intros _; apply wp_bind, wp_ret; by apply IH|].
  apply wp_bind. destruct (chunk_linked h (db w1)) eqn:Hl; [apply wp_ret; by apply IH|].
  apply wp_bind, wp_try, wp_act; [intros _; split|]; apply wp_ret; apply IH; try done; by apply ordered_delete_orphan.
Qed.

(** Links recorded again, or by an earlier run. *)
Lemma append_links {A} (old pre all : list A) n :
  old `prefix_of` all → pre `prefix_of` all → n ≤ length old →
  let l := old ++ drop (length old - n) (drop n pre) in l `prefix_of` all ∧ length pre ≤ length l ∧ length old ≤ length l.
Proof.
  intros Ho Hp Hn. simpl. rewrite drop_drop. replace (n + (length old - n)) with (length old) by lia.
  destruct (prefix_weak_total old pre all Ho Hp) as [[k ->]|[k ->]].
  - rewrite drop_app_length. by rewrite length_app; split_and!; [|lia..].
  - rewrite drop_ge by (rewrite length_app; lia). rewrite app_nil_r, length_app. by split_and!; [|lia..].
Qed.

Lemma being_chunked_le u f n m d : m ≤ n → being_chunked u f n d → being_chunked u f m d.
Proof. intros Hm (nf & ? & ? & ? & ?). exists nf. split_and!; try done; lia. Qed.

Lemma wp_recordChunkBatch b u f n pre w0 w :
  ordered w0 w → being_chunked u f n (db w) → pre `prefix_of` hashes u → n ≤ length pre →
  wp b (recordChunkBatch f n (drop n pre)) (λ r w', ordered w0 w' ∧ chunkFiles w' = chunkFiles w ∧
    (r = Ok () → being_chunked u f (length pre) (db w'))) w.
Proof.
  intros Ho Hb Hpre Hn. unfold recordChunkBatch. case_bool_decide as Hnil.
  { apply wp_ret. split; [done|]. split; [done|]. intros _. eapply being_chunked_le; [|exact Hb].
    apply (f_equal length) in Hnil. rewrite length_drop in Hnil. simpl in Hnil. lia. }
  apply wp_transaction_, (wp_tx b (being_chunked u f n) (λ _, being_chunked u f (length pre)) _ _ w0 w); [done|done| | |].
  - intros [] d Hd (nf & Hf & Hk & Ht & Hl). apply after_stmt_or; [done|]. unfold record_links. rewrite Hf. intros _.
    destruct (tt_rows _ _ _ Hd f nf Hf) as (_ & Hp & _). specialize (Hp Ht). destruct Hk as (Hh & Hk).
    assert (links_of f d `prefix_of` hashes u) as Hpo by (unfold hashes, NarServe.nar_named in *; by rewrite <- Hh).
    destruct (append_links (links_of f d) pre (hashes u) n Hpo Hpre Hl) as (H1 & H2 & H3).
    split; [|split; [by apply marks_stay_files|]].
    + eapply tidy_set_links; [done|exact Hf|done|]. unfold hashes, NarServe.nar_named in H1. by rewrite Hh.
    + split; (exists nf; split; [done|]; split; [done|]; split; [done|]; rewrite links_of_insert, decide_True by done); [|exact H2].
      etransitivity; [exact Hl|exact H3].
  - by intros e [] d Ho' _.
  - by intros [] d Ho' _ HP.
Qed.

Lemma wp_timer b (Q : result cache_err bool → world → Prop) w : (∀ x, (b = false → x = false) → Q (Ok x) w) → wp b timer Q w.
Proof.
  intros HQ s <- Hc. destruct (idle_next b s Hc) as (Hc' & _ & Hn). unfold timer. split; [done|]. apply HQ.
  intros Hb. by rewrite (Hn Hb).
Qed.

Lemma ordered_put_chunk w0 p w : ordered w0 w → ordered w0 (set_chunkFiles (<[digest p := p]> (chunkFiles w)) w).
Proof.
  intros [[Hd Hf Hc] Hg]. split; [split|]; [|done| |done].
  - eapply tidy_tables_files; [exact Hd|]. intros h f _ Hh. simpl. rewrite lookup_insert_is_Some'. auto.
  - intros h x Hx. simpl in Hx. apply lookup_insert_Some in Hx as [[<- <-]|[_ Hx]]; [done|]. by apply Hc.
Qed.

Definition all_chunks (l : list string) (w : world) : Prop := Forall (λ p, is_Some (chunkFiles w !! digest p)) l.

Lemma all_chunks_put pre p w : all_chunks pre w → all_chunks (pre ++ [p]) (set_chunkFiles (<[digest p := p]> (chunkFiles w)) w).
Proof.
  intros Ha. apply Forall_app. split; [|by constructor; [simpl; rewrite lookup_insert_eq|constructor]].
  eapply Forall_impl; [exact Ha|]. intros q Hq. simpl. rewrite lookup_insert_is_Some'. auto.
Qed.

(** The loop, with the pieces [pre] stored: those not in the batch have links. *)
Lemma wp_store_chunks b u f w0 pieces : ∀ pre n w,
  pre ++ pieces = Chunk (plain_stream (nar_named (Hash u))) → n ≤ length pre →
  ordered w0 w → being_chunked u f n (db w) → all_chunks pre w →
  wp b (store_chunks f pieces (drop n (digest <$> pre)) n) (λ r w', ordered w0 w' ∧ ∀ batch n', r = Ok (batch, n') →
    batch = drop n' (hashes u) ∧ n' ≤ length (hashes u) ∧ being_chunked u f n' (db w') ∧
    all_chunks (Chunk (plain_stream (nar_named (Hash u)))) w') w.
Proof.
  induction pieces as [|p pieces IH]; intros pre n w Hall Hn Ho Hb Hpre; simpl.
  { rewrite app_nil_r in Hall. subst pre. apply wp_ret. split; [done|]. intros batch n' [= <- <-].
    unfold hashes. rewrite length_fmap. auto. }
  pose proof (ordered_put_chunk w0 p w Ho) as Ho1. apply wp_bind, wp_act; [intros _; by split|].
  assert (drop n (digest <$> pre) ++ [digest p] = drop n (digest <$> pre ++ [p])) as ->.
  { rewrite fmap_app, drop_app_le; [done|by rewrite length_fmap]. }
  apply (all_chunks_put pre p) in Hpre. rewrite (cons_middle p pre pieces), (app_assoc pre [p] pieces) in Hall.
  apply wp_bind, wp_timer. intros fired _. destruct (_ || _).
  - apply wp_bind. assert (digest <$> pre ++ [p] `prefix_of` hashes u) as Hpf.
    { unfold hashes. rewrite <- Hall, (fmap_app digest (pre ++ [p])). by eexists. }
    eapply wp_mono; [apply (wp_recordChunkBatch b u f n _ w0); [exact Ho1|exact Hb|exact Hpf|]|].
    { rewrite length_fmap, length_app. lia. }
    intros [[]|e] w1 (H1 & Hc & Hlen); [|by split]. specialize (Hlen eq_refl).
    replace (n + length (drop n (digest <$> pre ++ [p]))) with (length (digest <$> pre ++ [p]))
      by (rewrite length_drop, length_fmap, length_app; lia).
    specialize (IH (pre ++ [p]) (length (digest <$> pre ++ [p])) w1 Hall). rewrite drop_all in IH.
    apply IH; [by rewrite length_fmap|done|done|]. unfold all_chunks. rewrite Hc. exact Hpre.
  - apply IH; [done|rewrite length_app; lia|done|done|done].
Qed.

(** Marking the row, once its links are all there. *)
Definition linked_whole (u : URL) (f : Z) (d : tables) : Prop :=
  ∃ nf, nar_files d !! f = Some nf ∧ has_key (Hash u) CompressionTypeNone (encode (Query u)) nf ∧ links_of f d = hashes u.

Lemma being_chunked_whole files u f d :
  tidy_tables files d → being_chunked u f (length (hashes u)) d → linked_whole u f d.
Proof.
  intros Hd (nf & Hf & Hk & Ht & Hl). exists nf. split; [done|]. split; [done|].
  destruct (tt_rows _ _ _ Hd f nf Hf) as (_ & Hp & _). specialize (Hp Ht). destruct Hk as (Hh & _).
  unfold hashes, NarServe.nar_named in *. rewrite Hh in Hp. by apply prefix_length_eq.
Qed.

Lemma chunks_nonempty u : 0 < length (hashes u).
Proof.
  unfold hashes. rewrite length_fmap. pose proof (concat_chunks (nar_named (Hash u))) as Hc.
  destruct (Chunk _); simpl; [|lia]. by destruct (nonempty (normal_hash (Hash u))).
Qed.

Lemma tidy_mark u f w d :
  tidy_tables (chunkFiles w) d → linked_whole u f d → all_chunks (Chunk (plain_stream (nar_named (Hash u)))) w →
  let g := set_chunked (Z.of_nat (length (hashes u))) (string_length (nar_named (Hash u))) in
  after false (λ r v' d', is_ok r = true → tidy_tables (chunkFiles w) d' ∧ marks_stay d d' ∧ linked_whole u f d' ∧
    marked (Hash u) (encode (Query u)) d') (stmt_or (update_nar_file f g)) () d.
Proof.
  intros Hd (nf & Hf & (Hh & Hc & Hq) & Hl) Hall g. eapply after_update_file; [exact Hf|done|]. intros _.
  pose proof (chunks_nonempty u) as Hpos. split; [apply tidy_set_file; [done| | |]|split; [|split]].
  - intros g0 x Hg Hk. simpl in Hk. by eapply (unique_file _ (st_unique _ _ _ (tt_sound _ _ _ Hd))).
  - intros _. simpl. rewrite Hc, Hh, Hl. split; [done|]. split; [done|]. intros _.
    exists (Chunk (plain_stream (nar_named (Hash u)))). split; [done|apply concat_chunks].
  - split; simpl; [lia|]. split; [lia|]. intros _. rewrite Hl. split; [done|]. by apply Forall_fmap.
  - apply (marks_stay_alter f nf); [done|done|]. simpl. lia.
  - exists (g nf). simpl. by rewrite lookup_insert_eq.
  - exists f, (g nf). simpl. rewrite lookup_insert_eq. split; [done|]. split; [done|]. lia.
Qed.

(** Chunking a NAR's own bytes marks its row, or fails. *)
Lemma wp_chunk_nar b u f size w0 w :
  ordered w0 w → being_chunked u f 0 (db w) →
  wp b (chunk_nar f (plain_stream (nar_named (Hash u))) size) (λ r w', ordered w0 w' ∧
    (r = Ok () → marked (Hash u) (encode (Query u)) (db w'))) w.
Proof.
  intros Ho Hb. unfold chunk_nar. apply wp_bind.
  eapply wp_mono; [apply (wp_store_chunks b u f w0 _ [] 0); [done|simpl; lia|done|done|constructor]|].
  intros [[batch n]|e] w1 [Ho1 Hr]; [|by split]. destruct (Hr batch n eq_refl) as (-> & Hn & Hb1 & Hall).
  apply wp_bind, wp_timer. intros x _. simpl. apply wp_bind.
  eapply wp_mono; [by apply (wp_recordChunkBatch b u f n (hashes u) w0)|].
  intros [[]|e] w2 (Ho2 & Hc & Hb2); [|by split]. specialize (Hb2 eq_refl).
  rewrite concat_chunks. destruct (_ && _); [by apply wp_throw|]. rewrite length_drop.
  replace (n + (length (hashes u) - n)) with (length (hashes u)) by lia.
  apply wp_transaction_, (wp_tx b (linked_whole u f) (λ _, marked (Hash u) (encode (Query u))) _ _ w0 w2); [done| | | |].
  - by eapply being_chunked_whole, Hb2; apply Ho2.
  - intros [] d Hd Hl. apply tidy_mark; [done|done|]. unfold all_chunks. by rewrite Hc.
  - by intros e [] d Ho' _.
  - by intros [] d Ho' _ HP.
Qed.

(** *** A NAR stored as chunks *)

(** What always keeps what there was keeps what there is now. *)
Lemma wp_ordered {A} b (m : M A) w0 w (Q : result cache_err A → world → Prop) :
  (∀ w0, preserves (ordered w0) m) → ordered w0 w → (∀ r w', ordered w0 w' → grows w w' → Q r w') → wp b m Q w.
Proof.
  intros Hm [Ht Hg] HQ. eapply wp_mono; [by apply (Hm w); split; [|apply grows_refl]|].
  intros r w' [Ht' Hg']. apply HQ; [|done]. split; [done|]. by eapply grows_trans.
Qed.

Lemma tidy_delete_where files h c q d :
  c ≠ CompressionTypeNone → tidy_tables files d →
  tidy_tables files (delete_nar_files_where h c q d) ∧ marks_stay d (delete_nar_files_where h c q d).
Proof.
  intros Hc Hd. unfold delete_nar_files_where.
  destruct (nar_files_where_cases h c q d (st_unique _ _ _ (tt_sound _ _ _ Hd))) as [[-> _]|(f & nf & -> & Hf & Hk)]; simpl.
  - split; [done|apply marks_stay_refl].
  - split; [by apply tidy_delete_file|]. intros h' q' (g & x & Hg & Hkx & Hpos). exists g, x. split; [|done].
    simpl. rewrite lookup_delete_ne; [done|]. intros <-. rewrite Hf in Hg. injection Hg as <-.
    apply Hc. destruct Hk as (_ & <- & _). apply Hkx.
Qed.

Lemma ordered_relink w0 u c f : c ≠ CompressionTypeNone → preserves (ordered w0) (transaction_ (relink_tx u c f)).
Proof.
  intros Hc. apply ordered_transaction_. intros files d Hd. unfold relink_tx.
  apply after_bind, after_exec; [done|]. destruct (tidy_delete_where files (Hash u) c (encode (Query u)) d Hc Hd) as [H1 H2].
  unfold relinkNarInfosToNarFileWithEntTx. destruct (URLString _); [|by apply after_throw].
  apply after_bind, after_query; [done|]. case_bool_decide; [by apply after_ret|].
  apply after_stmt_or; [done|]. destruct (nar_files _ !! f); [|done]. intros _. split.
  - by apply (tidy_frame content files (delete_nar_files_where (Hash u) c (encode (Query u)) d)); [|eauto..].
  - eapply marks_stay_trans; [exact H2|]. by apply marks_stay_files.
Qed.

Lemma ordered_clear_chunking w0 e f :
  preserves (ordered w0) (act e (λ w, match update_nar_file f (set_chunking false) (db w) with Ok (_, d) => set_db d w | Err _ => w end)).
Proof.
  apply ordered_act. intros w Ht. unfold update_nar_file. destruct (nar_files (db w) !! f) as [nf|] eqn:Hf; [|by split; [|apply grows_refl]].
  destruct Ht as [Hd ? ?]. split; [split; [|done|done]|split; [done|]].
  - by apply (tidy_alter content _ f nf).
  - by apply (marks_stay_alter f nf).
Qed.

Lemma wp_storeNarWithCDCFromReader b t size u w0 w :
  ordered w0 w → maybeDecompressReader t (Compression u) = plain_stream (nar_named (Hash u)) →
  wp b (storeNarWithCDCFromReader cfg now t size u) (λ r w', ordered w0 w' ∧
    (r = Ok () → marked (Hash u) (encode (Query u)) (db w'))) w.
Proof.
  intros Ho Ht. unfold storeNarWithCDCFromReader. rewrite Ht.
  apply wp_bind, (wp_tx_error b (λ _, True) (λ v, being_chunked u v.1 0)
    (λ e d, e = AppError ErrAlreadyExists → marked (Hash u) (encode (Query u)) d) _ _ w0 w); [done..| | |].
  - intros v d Hd _. eapply after_mono; [by apply (after_find_or_create (chunkFiles w) (with_compression u CompressionTypeNone))|].
    intros [[]|e] v' d'; [|done]. intros (H1 & H2 & H3). auto.
  - intros e [f hs] d Ho1 _ He. destruct (decide (e = AppError ErrAlreadyExists)) as [->|Hne].
    + apply wp_ret. split; [done|]. intros _. by apply He.
    + destruct e as [| | | |[]]; try (apply wp_throw; by split). done.
  - intros [f hs] d Ho1 _ Hb. simpl in Hb. apply wp_bind, wp_try.
    destruct (isCDCEnabled cfg); simpl.
    2:{ apply wp_throw, wp_bind, wp_try. eapply wp_ordered; [intros; apply ordered_clear_chunking|exact Ho1|].
        intros r w' Hw' _. apply wp_throw. by split. }
    apply wp_bind. eapply wp_mono; [apply (wp_cleanupStaleLockChunks b w0); exact Ho1|]. intros r w1 (-> & Ho2 & Hd).
    eapply wp_mono; [apply (wp_chunk_nar b u f size w0); [done|by rewrite Hd]|].
    intros [[]|e] w2 [Ho3 Hm].
    + specialize (Hm eq_refl). destruct (bool_decide (Compression u = CompressionTypeNone)) eqn:Hc; [apply wp_ret; by split|].
      destruct (cdcLazyChunkingEnabled cfg); [apply wp_ret; by split|]. simpl. apply bool_decide_eq_false in Hc.
      apply wp_bind, wp_try. eapply wp_ordered; [intros; by apply ordered_relink|exact Ho3|].
      intros r w' Hw' [_ Hg]. apply wp_ret. split; [done|]. intros _. by apply Hg.
    + apply wp_bind, wp_try. eapply wp_ordered; [intros; apply ordered_clear_chunking|exact Ho3|].
      intros r w' Hw' _. apply wp_throw. by split.
Qed.

Lemma wp_withNarMigrationLock b h (m : M ()) (Q : result cache_err () → world → Prop) w :
  (∀ e, Q (Err e) w) → wp b m Q w → wp b (withNarMigrationLock h m) Q w.
Proof.
  intros He Hm. unfold withNarMigrationLock. apply wp_bind. intros s <- Hc. destruct (idle_next b s Hc) as (Hc' & _ & _).
  unfold try_migration_lock. destruct (next s); (split; [exact Hc'|]); simpl; try by apply He || apply wp_throw.
  all: case_bool_decide; simpl; [exact Hm|by apply wp_throw].
Qed.

Lemma plain_reader u x :
  holds_nar (Compression u) x (nar_named (Hash u)) → maybeDecompressReader (plain_stream x) (Compression u) = plain_stream (nar_named (Hash u)).
Proof.
  intros Hx. unfold maybeDecompressReader, holds_nar in *. case_bool_decide as Hc.
  - rewrite Hc in Hx. by injection Hx as ->.
  - unfold decompress. simpl. by rewrite Hx.
Qed.

(** What storing a NAR ends with, under compression [c]. *)
Definition stored_as (u : URL) (w : world) : Prop :=
  stored_at u w = true ∨ marked (Hash u) (encode (Query u)) (db w).

Lemma wp_storeNarWithCDC b x u w0 w :
  ordered w0 w → holds_nar (Compression u) x (nar_named (Hash u)) →
  wp b (storeNarWithCDC cfg now x u) (λ r w', ordered w0 w' ∧ (r = Ok () → marked (Hash u) (encode (Query u)) (db w'))) w.
Proof.
  intros Ho Hx. apply wp_withNarMigrationLock; [by split|]. apply wp_bind, wp_query; [by split|].
  apply (wp_storeNarWithCDCFromReader b _ 0 u); [done|by apply plain_reader].
Qed.

(** The repair after storing takes nothing away. *)
Lemma wp_then_fix b u w0 w (P : world → Prop) :
  ordered w0 w → P w → (∀ w', grows w w' → P w') →
  wp b (_ ← try (E' := cache_err) (checkAndFixNarInfosForNar cfg digest_of u); mret ()) (λ r w', ordered w0 w' ∧ (r = Ok () → P w')) w.
Proof.
  intros Ho HP Hg. apply wp_bind, wp_try.
  eapply wp_ordered; [intros; apply ordered_checkAndFixNarInfosForNar|exact Ho|]. intros r w' Ho' Hgr. apply wp_ret. auto.
Qed.

Lemma stored_as_grows u w w' : grows w w' → stored_as u w → stored_as u w'.
Proof. intros Hg [Hs|Hm]; [left; by eapply stored_grows|right; by apply Hg]. Qed.

(** Uploads of a NAR under its name. *)
Lemma wp_PutNar b u t w0 w :
  ordered w0 w → (s_breaks t = false → holds_nar (Compression u) (s_bytes t) (nar_named (Hash u))) →
  wp b (PutNar cfg now digest_of u t) (λ r w', ordered w0 w' ∧ (r = Ok () →
    if isCDCEnabled cfg then marked (Hash u) (encode (Query u)) (db w') else stored_at u w' = true)) w.
Proof.
  intros Ho Ht. unfold PutNar. apply wp_bind, wp_query; [by split|]. destruct (isCDCEnabled cfg) eqn:Hcdc.
  - unfold putNarWithCDC. apply wp_bind, wp_query; [by split|]. destruct (s_breaks t); [by apply wp_throw|].
    specialize (Ht eq_refl). apply wp_bind. eapply wp_mono; [by apply (wp_storeNarWithCDC b _ u w0)|]. intros [[]|e] w1 [Ho1 Hm]; [|by split].
    apply (wp_then_fix b (with_compression u CompressionTypeNone) w0 w1 (λ w', marked (Hash u) (encode (Query u)) (db w'))); [done|by apply Hm|].
    intros w' [_ Hg]. apply Hg, Hm. done.
  - eapply (wp_put_whole b u t _ _ w0); [done..|by split|].
    intros p x w1 Ho1 _ Hst Hp Hx. apply wp_bind. eapply wp_mono; [by eapply (ordered_record b u p x w0)|].
    intros [[]|e] w2 (d & -> & Ho2); [|by split]. by apply wp_then_fix; [..|intros w' Hg; eapply stored_grows].
Qed.

(** A download's file kept whole: recompressed with zstd when it is the NAR itself. *)
Definition stored_url (u : URL) : URL :=
  if bool_decide (Compression u = CompressionTypeNone) then with_compression u CompressionTypeZstd else u.

(** An uncompressed NAR's row not marked complete. *)
Definition unmarked (u : URL) (d : tables) : Prop :=
  Compression u = CompressionTypeNone → ∀ v, Normalize u = Ok v → ¬ marked (Hash v) (encode (Query v)) d.

Lemma wp_storeNarFromTempFile b u x w0 w :
  ordered w0 w → holds_nar (Compression u) x (nar_named (Hash u)) → unmarked u (db w) →
  wp b (storeNarFromTempFile now u x) (λ r w', ordered w0 w' ∧ (r = Ok () → stored_at (stored_url u) w' = true)) w.
Proof.
  intros Ho Hx Hun. unfold storeNarFromTempFile. fold (stored_url u).
  eapply (wp_put_whole b (stored_url u) _ _ _ w0); [done| |by split|].
  { intros _. unfold stored_url. simpl. case_bool_decide as Hc; simpl; [|done]. rewrite Hc in Hx. injection Hx as ->.
    exact (decode_zstd _). }
  intros p y w1 Ho1 Hdb Hst Hp Hy. eapply wp_mono with (Q := λ r w', ∃ d, w' = set_db d w1 ∧ ordered w0 w').
  2:{ intros r w' (d & -> & Ho'). by split. }
  unfold stored_url in *. case_bool_decide as Hc; [|by eapply ordered_record].
  destruct (nar_path_normalize _ _ Hp) as [v Hv]. assert (∃ v, Normalize u = Ok v) as [v' Hv'].
  { unfold Normalize in *. simpl in Hv. destruct (lenient_submatch _); [|done]. destruct (normalized_match _); [by eexists|done]. }
  eapply ordered_ensureNarFile; [done|done|]. rewrite Hdb. intros f nf Hf Hk Hpos.
  destruct (Normalize_hash _ _ Hv') as [_ Hcv]. rewrite Hcv, Hc in Hk. destruct (Hun Hc v' Hv'). by exists f, nf.
Qed.

(** *** Downloads *)

(** What the upstream gives is the NAR, or breaks off, though not while it is chunked on
    the way; it is in the compression it is to be stored in unless it is decompressed on
    the way; and one to be kept whole is not chunked yet. *)
Definition way_for (u : URL) (preferred : option URL) (ni : option NarInfo) : way :=
  way_of (isCDCEnabled cfg) (negb (bool_decide (Compression (default u preferred) = CompressionTypeNone)))
    (negb (bool_decide (match ni with Some ni => NarSize ni | None => 0%Z end = 0%Z))) (negb (cdcLazyChunkingEnabled cfg)).

Definition honest_pull (u : URL) (preferred : option URL) (ni : option NarInfo) (w : world) : Prop :=
  (∀ x, fetch (default u preferred) = Some x →
     if s_breaks x then way_for u preferred ni ≠ WChunkWhile
     else holds_nar (Compression (default u preferred)) (s_bytes x) (nar_named (Hash u))) ∧
  (way_for u preferred ni = WChunkWhile ∨ Compression (default u preferred) = Compression u) ∧
  (way_for u preferred ni = WStore → unmarked u (db w)).

Lemma tempFile_holds u preferred ni c t w :
  honest_pull u preferred ni w → tempFile cfg fetch u preferred ni = Ok (c, t) →
  (way_for u preferred ni = WChunkWhile → t = plain_stream (nar_named (Hash u))) ∧
  (way_for u preferred ni ≠ WChunkWhile → s_breaks t = false → holds_nar (Compression u) (s_bytes t) (nar_named (Hash u))).
Proof.
  intros (Hf & Hway & _) Ht. unfold tempFile in Ht. destruct (fetch (default u preferred)) as [x|]; [|done].
  specialize (Hf x eq_refl).
  assert (match ni with Some ni => negb (bool_decide (NarSize ni = 0%Z)) | None => false end =
    negb (bool_decide (match ni with Some ni => NarSize ni | None => 0%Z end = 0%Z))) as Hni by by destruct ni.
  rewrite Hni in Ht. fold (way_for u preferred ni) in Ht. destruct (way_for u preferred ni).
  1,2: injection Ht as <- <-; split; [done|]; intros _ Hb; rewrite Hb in Hf; destruct Hway as [|<-]; done.
  destruct (s_breaks x) eqn:Hb; [done|].
  unfold decompress in Ht. unfold holds_nar in Hf. rewrite Hf in Ht. simpl in Ht. injection Ht as <- <-. by rewrite Hb.
Qed.

Lemma wp_pullNarIntoStore b u preferred ni w0 w :
  ordered w0 w → honest_pull u preferred ni w →
  wp b (pullNarIntoStore cfg now digest_of fetch u preferred ni) (λ r w', ordered w0 w' ∧ (r = Ok () →
    match way_for u preferred ni with
    | WStore => stored_at (stored_url u) w' = true
    | _ => marked (Hash u) (encode (Query u)) (db w')
    end)) w.
Proof.
  intros Ho Hh. unfold pullNarIntoStore. fold (way_for u preferred ni).
  apply wp_bind, wp_lift. destruct (tempFile _ _ _ _ _) as [[c t]|e] eqn:Ht; [|by split].
  destruct (tempFile_holds _ _ _ _ _ _ Hh Ht) as (Hwhile & Hafter). destruct Hh as (_ & _ & Hun).
  destruct (way_for u preferred ni).
  - destruct (s_breaks t) eqn:Hb; [by apply wp_throw|]. apply wp_bind.
    eapply wp_mono; [by apply (wp_storeNarFromTempFile b u _ w0); auto|]. intros [[]|e] w1 [Ho1 Hs]; [|by split].
    specialize (Hs eq_refl). apply wp_bind. assert (∀ w2, ordered w0 w2 → stored_at (stored_url u) w2 = true →
      wp b (_ ← try (E' := cache_err) (checkAndFixNarInfosForNar cfg digest_of u); mret ())
        (λ r w', ordered w0 w' ∧ (r = Ok () → stored_at (stored_url u) w' = true)) w2) as Hfix.
    { intros w2 Ho2 H2. apply wp_then_fix; [done..|]. intros w' Hg. by eapply stored_grows. }
    unfold maybeBackgroundMigrateNarToChunks. destruct (isCDCEnabled cfg); simpl; [|by apply wp_ret, Hfix].
    destruct (cdcLazyChunkingEnabled cfg); [|by apply wp_ret, Hfix]. apply wp_spawn, Hfix; [|done].
    destruct Ho1 as [[? ? ?] ?]. by split.
  - destruct (s_breaks t) eqn:Hb; [by apply wp_throw|]. apply wp_bind.
    eapply wp_mono; [by apply (wp_storeNarWithCDC b _ u w0); auto|]. intros [[]|e] w1 [Ho1 Hm]; [|by split].
    apply (wp_then_fix b _ w0 w1 (λ w', marked (Hash u) (encode (Query u)) (db w'))); [done|by apply Hm|]. intros w' [_ Hg]. by apply Hg, Hm.
  - rewrite (Hwhile eq_refl). apply wp_bind, wp_withNarMigrationLock; [by split|].
    eapply wp_mono; [by apply (wp_storeNarWithCDCFromReader b _ _ (with_compression u CompressionTypeNone) w0)|].
    intros [[]|e] w1 [Ho1 Hm]; [|by split].
    apply (wp_then_fix b _ w0 w1 (λ w', marked (Hash u) (encode (Query u)) (db w'))); [done|by apply Hm|]. intros w' [_ Hg]. by apply Hg, Hm.
Qed.

(** *** Requests *)

Lemma ordered_world_same w0 w w' : world_same w w' → ordered w0 w → ordered w0 w'.
Proof.
  intros (d & -> & Hs) [[Hd ? ?] Hg]. split; [split; [|done|done]|].
  - by eapply tidy_same.
  - eapply grows_trans; [exact Hg|]. split; [done|]. intros h q (f & nf & Hf & Hk & Hpos).
    destruct (same_but_access_file _ _ _ _ Hs Hf) as [t Hf']. by exists f, (touch_file t nf).
Qed.

Lemma ordered_getNarFromChunks w0 u : preserves (ordered w0) (getNarFromChunks cfg now u).
Proof.
  intros b w Ho. eapply wp_mono; [apply (wp_getNarFromChunks content digest), tidy_sound, Ho|]. intros r w' [Hs _].
  by eapply ordered_world_same.
Qed.

Lemma ordered_getNarFromStore w0 u : normalized_match (Hash u) = true → preserves (ordered w0) (getNarFromStore cfg now u).
Proof.
  intros Hn b w Ho. apply wp_bind. eapply wp_mono; [apply wp_candidate|]. intros r w' (-> & o & -> & _).
  apply wp_bind, wp_narStore_GetNar; [done|]. intros p bytes Hp Hb.
  apply wp_bind, wp_lift. destruct (represent _ _ _) as [[[u' size] t]|e] eqn:Hr; [|done].
  assert (Hash u' = Hash u ∧ Compression u' = Compression u ∧ Query u' = Query u) as (Hhu & Hcu & Hqu).
  { unfold represent in Hr. by repeat case_match; simplify_eq/=. }
  pose proof (st_unique _ _ _ (tt_sound _ _ _ (ty_tables _ _ (proj1 Ho)))) as Hu.
  apply wp_bind, wp_transaction_touch; [exact Hu|..].
  { intros _ e v w' Hs. apply wp_bind, wp_lift. by eapply ordered_world_same. }
  intros needs w1 Hs Hneeds. pose proof (ordered_world_same _ _ _ Hs Ho) as Ho1. apply wp_bind, wp_lift.
  assert (preserves (ordered w0) (t ← flaky t; mret (u', size, t))) as Hend.
  { intros b1 w2 Ho2. apply wp_bind, wp_flaky; [by apply wp_ret|]. intros _ t' _. by apply wp_ret. }
  apply wp_bind. destruct needs; [|by apply wp_ret, Hend]. specialize (Hneeds eq_refl).
  apply wp_bind, wp_try. eapply wp_mono; [apply (ordered_ensureNarFile _ u' (mkURL (Hash u') (Compression u') (Query u') false "") _ w0); [|done|]|].
  - unfold Normalize. by rewrite Hhu, lenient_submatch_normalized, Hn.
  - intros f nf Hf Hk _. simpl in Hk. rewrite Hhu, Hcu, Hqu in Hk. unfold unrecorded in Hneeds.
    destruct (nar_files_where_cases (Hash u) (Compression u) (encode (Query u)) (db w1)
      (st_unique _ _ _ (tt_sound _ _ _ (ty_tables _ _ (proj1 Ho1))))) as [[_ Hno]|(g & x & Hx & _)]; [by destruct (Hno f nf)|congruence].
  - intros r w2 (d & -> & Ho2). by apply wp_ret, Hend.
Qed.

Lemma ordered_serve w0 u flag : normalized_match (Hash u) = true → preserves (ordered w0) (serveNarFromStorageViaPipe cfg now u flag).
Proof.
  intros Hn. unfold serveNarFromStorageViaPipe, serveZstdFromChunks, getNarFileFromDB.
  preserving ltac:(first [apply ordered_getNarFromChunks|by apply ordered_getNarFromStore]).
Qed.

Lemma ordered_same_stores w0 w w' : same_stores w w' → ordered w0 w → ordered w0 w'.
Proof.
  intros (Hd & Hn & Hc) [[H1 H2 H3] [H4 H5]].
  split; [split; [rewrite Hd, Hc; exact H1|by rewrite Hn|by rewrite Hc]|split; [by rewrite Hn|by rewrite Hd]].
Qed.

Lemma ordered_spawn w0 j : preserves (ordered w0) (spawn j).
Proof. intros b w Ho. apply wp_spawn. by eapply ordered_same_stores, Ho. Qed.

Lemma ordered_start_download w0 h j : preserves (ordered w0) (start_download h j).
Proof. intros b w Ho. apply wp_start_download; [intros _|]; by eapply ordered_same_stores, Ho. Qed.

Lemma looks_active_job w0 h : preserves (eq w0) (active_job h).
Proof. by intros b w Hw s <- Hc. Qed.

Lemma looks_lock_freed w0 : preserves (eq w0) lock_freed.
Proof. intros b w Hw s <- Hc. by split; [apply calm_put|]. Qed.

Lemma ordered_prePullNar w0 u p ni : preserves (ordered w0) (prePullNar cfg u p ni).
Proof.
  unfold prePullNar, or_else. preserving ltac:(first
    [apply ordered_start_download | apply ordered_looks; intros; apply looks_active_job
    | apply ordered_looks; intros; apply looks_lock_freed | apply ordered_looks; intros; apply looks_narServability]).
Qed.

(** The URLs a request may turn to name the NAR as the request does. *)
Definition same_name (u : URL) (w : world) : Prop :=
  normalized_match (Hash u) = true ∧
  ∀ row v, row ∈ linked_narinfos (Hash u) (Compression u) (encode (Query u)) (db w) → original row = Some v → Hash v = Hash u.

Lemma ordered_lookupPreferred w0 u : preserves (ordered w0) (lookupPreferredUpstreamURL cfg upstream u).
Proof. unfold lookupPreferredUpstreamURL, getNarInfoFromUpstream. preserving fail. Qed.

Lemma wp_GetNar_ordered b uploadOnly u w0 w :
  same_name u w → ordered w0 w → wp b (GetNar cfg now uploadOnly upstream fetch u) (λ _, ordered w0) w.
Proof.
  intros [Hn Hl] Ho. unfold GetNar. apply wp_bind, wp_looks; [apply preserves_ask|]. intros [[]|e]; [|done].
  apply wp_bind, wp_looks; [apply looks_HasNarInStore|]. intros [inStore|e]; [|done].
  apply wp_bind, wp_looks; [apply preserves_hasUpstreamJob|]. intros [running|e]; [|done].
  apply wp_bind, wp_looks; [apply looks_narServability|]. intros [[hasNar finished]|e]; [|done].
  apply wp_bind, wp_looks; [destruct (running && negb inStore); [apply looks_HasNarInChunks|apply preserves_ret]|].
  intros [servable|e]; [|done].
  destruct (servable && (finished || negb (shouldCoordinateInflight (Compression u)))).
  { unfold maybeBackgroundMigrateNarToChunks. revert w Hl Ho. intros w _. revert b w.
    change (preserves (ordered w0) (_ ← (if inStore then (if isCDCEnabled cfg then spawn (JMigrateToChunks u) else mret ()) else mret ());
      serveNarFromStorageViaPipe cfg now u inStore)).
    preserving ltac:(first [apply ordered_spawn|by apply ordered_serve]). }
  destruct uploadOnly; [by apply wp_throw|].
  assert (∀ v, Hash v = Hash u → preserves (ordered w0) ('(preferredUpstreamURL, ni) ← lookupPreferredUpstreamURL cfg upstream v;
      ds ← prePullNar cfg v preferredUpstreamURL ni;
      hasNarInStore ← HasNarInStore v;
      match ds with
      | Active j =>
          if hasNarInStore : bool then serveNarFromStorageViaPipe cfg now v hasNarInStore
          else serveFromTempFile cfg fetch v (Compression u) j
      | Complete (Some e) => if hasNarInStore : bool then serveNarFromStorageViaPipe cfg now v hasNarInStore else throw e
      | Complete None => serveNarFromStorageViaPipe cfg now v hasNarInStore
      end)) as Hpull.
  { intros v Hv. assert (normalized_match (Hash v) = true) as Hnv by congruence. unfold serveFromTempFile.
    preserving ltac:(first [apply ordered_lookupPreferred|apply ordered_prePullNar|apply ordered_HasNarInStore|by apply ordered_serve]). }
  apply wp_bind, wp_lookupOriginalNarURL; [by apply Hpull|]. intros row v Hin Hv. apply Hpull; [|done]. by eapply Hl.
Qed.

Lemma looks_head_size w0 u : preserves (eq w0) (head_size cfg u).
Proof.
  unfold head_size, GetNarFileSize, getNarFileFromDB, IsNarServable.
  preserving ltac:(first [apply looks_HasNarInChunks|apply looks_statNarInStore]).
Qed.

Lemma wp_getNar_ordered b uploadOnly withBody ae u w0 w :
  same_name u w → ordered w0 w → wp b (getNar cfg now uploadOnly upstream fetch withBody ae u) (λ _, ordered w0) w.
Proof.
  intros Hs Ho. unfold getNar. set (nu := with_zstd u _).
  apply wp_bind, wp_looks; [destruct withBody; [apply preserves_ret|apply looks_head_size]|].
  intros [[size|]|e]; [by apply wp_ret| |done]. apply wp_bind, wp_try.
  eapply wp_mono; [by apply (wp_GetNar_ordered b uploadOnly nu w0)|]. intros r w' Ho'. by apply wp_ret.
Qed.

(** *** Deletions and migrations *)

(** A NAR that is there, in a world in order. *)
Definition held (h q : string) (w : world) : Prop := tidy w ∧ available cfg h q w.

Lemma held_ordered h q w w' : held h q w → ordered w w' → held h q w'.
Proof. intros [_ Ha] [Ht Hg]. split; [done|]. by eapply available_grows. Qed.

(** Nothing that stands for it is in the files named [k], or its chunks are there. *)
Definition spared (h q k : string) (w : world) : Prop :=
  normal_hash k ≠ normal_hash h ∨ chunkStore cfg = true ∧ marked h q (db w).

Lemma held_delete_file h q u p w :
  held h q w → spared h q (Hash u) w → nar_path u = Ok p → held h q (set_narStore (delete p (narStore w)) w).
Proof.
  intros [[Hd Hf Hc] Ha] Hs Hp. split.
  - split; [done| |done]. intros v k x Hk Hx. simpl in Hx. apply lookup_delete_Some in Hx as [_ Hx]. by eapply Hf.
  - destruct Hs as [Hne|Hm]; [|by right]. destruct Ha as [(c & Hc' & Hst)|Hm]; [|by right]. left. exists c. split; [done|].
    unfold stored_at in *. destruct (nar_path (mkURL h c ∅ false "")) as [k|] eqn:Hk; [|done]. simpl.
    rewrite lookup_delete_ne; [done|]. intros <-. by destruct (nar_path_inj u _ _ Hp Hk).
Qed.

Lemma wp_delete_file b h q u w :
  held h q w → spared h q (Hash u) w → wp b (narStore_DeleteNar u) (λ r w', held h q w' ∧ db w' = db w) w.
Proof.
  intros Hh Hs. unfold narStore_DeleteNar. destruct (nar_path u) as [p|] eqn:Hp; [|by apply wp_throw].
  apply wp_bind, wp_query; [by split|]. case_bool_decide; simpl; [|by apply wp_ret].
  assert (held h q (set_narStore (delete p (narStore w)) w)) by by eapply held_delete_file.
  apply wp_bind, wp_act; [intros _; by split_and!|]. by apply wp_ret.
Qed.

Lemma spared_db h q k w w' : db w' = db w → spared h q k w → spared h q k w'.
Proof. unfold spared. by intros ->. Qed.

Lemma wp_delete_variants b h q u cs w :
  held h q w → spared h q (Hash u) w → wp b (delete_variants u cs) (λ r w', held h q w' ∧ db w' = db w) w.
Proof.
  revert w. induction cs as [|c cs IH]; intros w Hh Hs; simpl; [by apply wp_ret|].
  apply wp_bind. eapply wp_mono; [by apply (wp_delete_file b h q)|]. intros [gone|e] w1 [H1 Hd1]; [|done].
  apply wp_bind. eapply wp_mono; [apply IH; [done|by eapply spared_db]|].
  intros [rest|e] w2 [H2 Hd2]; [apply wp_ret|]; (split; [done|congruence]).
Qed.

Lemma ordered_clear_bytes_stored w0 e u : preserves (ordered w0) (act e (λ w, set_db (clear_bytes_stored u (db w)) w)).
Proof.
  apply ordered_act. intros w [[[Hu Hr Hch] Ht] ? ?].
  assert (∀ f nf', nar_files (clear_bytes_stored u (db w)) !! f = Some nf' → ∃ nf, nar_files (db w) !! f = Some nf ∧
    nf_hash nf' = nf_hash nf ∧ nf_compression nf' = nf_compression nf ∧ nf_query nf' = nf_query nf ∧
    nf_total_chunks nf' = nf_total_chunks nf ∧ nf_file_size nf' = nf_file_size nf) as Hrow.
  { intros f nf' Hf. simpl in Hf. apply lookup_fmap_Some in Hf as (nf & <- & Hf). exists nf. split; [done|]. by case_bool_decide. }
  assert (tidy_tables (chunkFiles w) (clear_bytes_stored u (db w))) as Hd.
  { split; [split; [split; [apply (unique_hash _ Hu)|]| |]|].
    - intros f f' nf nf' h c q Hf Hf' Hk Hk'. destruct (Hrow _ _ Hf) as (x & Hx & ? & ? & ? & _), (Hrow _ _ Hf') as (y & Hy & ? & ? & ? & _).
      eapply (unique_file _ Hu _ _ _ _ h c q Hx Hy); unfold has_key in *; intuition congruence.
    - intros f nf' Hf. destruct (Hrow _ _ Hf) as (nf & Hnf & Hh & Hc & _ & Htc & Hfs). pose proof (Hr _ _ Hnf) as Hsr.
      unfold sound_row in *. by rewrite Hh, Hc, Htc, Hfs.
    - intros f [nf Hf]%Hch. simpl. rewrite lookup_fmap, Hf. by eexists.
    - intros f nf' Hf. destruct (Hrow _ _ Hf) as (nf & Hnf & Hh & Hc & _ & Htc & _). pose proof (Ht _ _ Hnf) as Htr.
      unfold tidy_row in *. by rewrite Hh, Htc. }
  split; [by split|split; [done|]].
  intros h q (f & nf & Hf & Hk & Hpos). eexists f, _. simpl. rewrite lookup_fmap, Hf. split; [done|]. by case_bool_decide.
Qed.

(** Deleting another NAR. *)
Lemma wp_DeleteNar b h q u w :
  held h q w → spared h q (Hash u) w → wp b (DeleteNar u) (λ _, held h q) w.
Proof.
  intros Hh Hs. unfold DeleteNar. apply wp_bind, wp_query; [done|]. apply wp_bind.
  assert (wp b (if bool_decide (Compression u = CompressionTypeNone) then delete_variants u wholeFileServeCompressions else mret false)
    (λ r w', held h q w' ∧ db w' = db w) w) as Hv by (case_bool_decide; [by apply wp_delete_variants|by apply wp_ret]).
  eapply wp_mono; [exact Hv|]. intros [deleted|e] w1 [H1 Hd1]; [|done].
  apply wp_bind. eapply wp_mono; [apply (wp_delete_file b h q); [done|by eapply spared_db]|]. intros [gone|e] w2 [H2 _]; [|done].
  destruct (_ || _); simpl; [|by apply wp_throw]. eapply wp_ordered; [intros; apply ordered_clear_bytes_stored| |].
  - split; [apply H2|apply grows_refl].
  - intros r w' Ho _. by eapply held_ordered.
Qed.

Lemma spared_marks h q k w w' : marks_stay (db w) (db w') → spared h q k w → spared h q k w'.
Proof. intros Hg [Hne|[Hc Hm]]; [by left|right; auto]. Qed.

Lemma wp_delete_first b h q us w :
  held h q w → Forall (λ u, spared h q (Hash u) w) us → wp b (delete_first us) (λ _, held h q) w.
Proof.
  revert w. induction us as [|u us IH]; intros w Hh Hs; simpl; [by apply wp_ret|]. apply Forall_cons in Hs as [Hs Hus].
  apply wp_bind, wp_try. eapply wp_mono; [by apply (wp_delete_file b h q)|]. intros r w1 [H1 Hd].
  assert (wp b (delete_first us) (λ _, held h q) w1) as Hrest.
  { apply IH; [done|]. eapply Forall_impl; [exact Hus|]. intros v. by apply spared_db. }
  destruct r as [[]|e]; [by apply wp_ret|exact Hrest..].
Qed.

Lemma tidy_renormalize files P url d : tidy_tables files d → tidy_tables files (renormalize_where P url d).
Proof.
  intros Hd. apply (tidy_frame content files d); [done..|]. simpl. intros i r' Hr. rewrite map_lookup_imap in Hr.
  destruct (narinfos d !! i) as [r|] eqn:Hi; simpl in Hr; [|done]. injection Hr as <-. exists r. split; [done|]. by destruct (P i r).
Qed.

Lemma wp_migrate_cleanup b h q u w :
  held h q w → spared h q (Hash u) w → wp b (migrateNarToChunksCleanup cfg u) (λ _, held h q) w.
Proof.
  intros Hh Hs. unfold migrateNarToChunksCleanup.
  apply wp_bind, wp_lift. destruct (url_string u) as [originalURL|]; [|done].
  apply wp_bind, wp_lift. destruct (url_string _) as [newURL|]; [|done].
  apply wp_bind, wp_try. eapply (wp_ordered b _ w w).
  - intros w0. apply ordered_act. intros w1 [Hd ? ?]. split; [split; [by apply tidy_renormalize|done|done]|].
    split; [done|]. by apply marks_stay_files.
  - split; [apply Hh|apply grows_refl].
  - intros r w1 Ho Hg. assert (held h q w1) as H1 by by eapply held_ordered.
    destruct (cdcLazyChunkingEnabled cfg); [by apply wp_ret|]. apply wp_delete_first; [done|].
    assert (spared h q (Hash u) w1) by (eapply spared_marks; [apply Hg|done]). apply Forall_cons; split; [done|].
    destruct (bool_decide _); [apply Forall_nil_2|by apply Forall_singleton].
Qed.

(** A row with chunks that the lookup finds is marked. *)
Lemma in_chunks_marked u w :
  tidy w → in_chunks cfg u (db w) = true → chunkStore cfg = true ∧ marked (Hash u) (encode (Query u)) (db w).
Proof.
  intros [Hd _ _] Hin. pose proof (tt_sound _ _ _ Hd) as Hs. unfold in_chunks in Hin. apply andb_true_iff in Hin as [Hc Hin].
  split; [done|]. destruct (file_row cfg u (db w)) as [nf|] eqn:Hr; [|done]. apply bool_decide_eq_true in Hin.
  assert (∃ f c, nar_files (db w) !! f = Some nf ∧ has_key (Hash u) c (encode (Query u)) nf) as (f & c & Hf & Hh & Hk & Hq).
  { unfold file_row in Hr. destruct (if isCDCEnabled cfg then _ else _) as [c1 c2].
    destruct (nar_files_where_cases (Hash u) c1 (encode (Query u)) (db w) (st_unique _ _ _ Hs)) as [[Hw _]|(f & x & Hw & Hf & Hk)];
      rewrite Hw in Hr; simpl in Hr; [|injection Hr as ->; by exists f, c1].
    destruct (nar_files_where_cases (Hash u) c2 (encode (Query u)) (db w) (st_unique _ _ _ Hs)) as [[Hw2 _]|(f & x & Hw2 & Hf & Hk)];
      rewrite Hw2 in Hr; simpl in Hr; [done|injection Hr as ->; by exists f, c2]. }
  exists f, nf. split; [done|]. split; [|done]. by destruct (st_rows _ _ _ Hs f nf Hf Hin) as [Hnone _].
Qed.

(** A migration is of another NAR, or of this one. *)
Definition about (h q : string) (u : URL) : Prop :=
  normal_hash (Hash u) = normal_hash h → Hash u = h ∧ encode (Query u) = q.

Lemma spared_marked h q u w :
  about h q u → isCDCEnabled cfg = true → marked (Hash u) (encode (Query u)) (db w) → spared h q (Hash u) w.
Proof.
  intros Ha Hcdc Hm. destruct (decide (normal_hash (Hash u) = normal_hash h)) as [He|]; [right|by left].
  destruct (Ha He) as [<- <-]. split; [by apply andb_true_iff in Hcdc as [_ ?]|done].
Qed.

Lemma wp_MigrateNarToChunks b h q u w :
  held h q w → about h q u → wp b (MigrateNarToChunks cfg now u) (λ _, held h q) w.
Proof.
  intros Hh Ha. unfold MigrateNarToChunks. destruct (isCDCEnabled cfg) eqn:Hcdc; simpl; [|by apply wp_throw].
  apply wp_withNarMigrationLock; [done|]. apply wp_bind, wp_HasNarInChunks.
  { apply (st_unique _ _ _ (tt_sound _ _ _ (ty_tables _ _ (proj1 Hh)))). }
  { by intros. }
  destruct (in_chunks cfg u (db w)) eqn:Hin.
  - destruct (in_chunks_marked u w (proj1 Hh) Hin) as [_ Hm]. apply wp_bind.
    destruct (bool_decide _); [by apply wp_ret, wp_throw|].
    eapply wp_mono; [apply (wp_migrate_cleanup b h q u); [done|by apply spared_marked]|].
    intros [[]|e] w1 H1; [by apply wp_throw|done].
  - apply wp_bind, wp_narStore_GetNar; [done|]. intros p bytes Hp Hb. apply wp_bind, wp_query; [done|].
    apply wp_bind. eapply wp_mono; [apply (wp_storeNarWithCDCFromReader b _ 0 u w w)|].
    + split; [apply Hh|apply grows_refl].
    + apply plain_reader. by eapply (ty_files _ _ (proj1 Hh)).
    + intros [[]|e] w1 [Ho Hm]; [|by eapply held_ordered]. specialize (Hm eq_refl).
      apply wp_migrate_cleanup; [by eapply held_ordered|by apply spared_marked].
Qed.

(** *** Chunks turned into a file *)

Lemma stored_at_same u v w : Hash u = Hash v → Compression u = Compression v → stored_at u w = stored_at v w.
Proof.
  intros Hh Hc. unfold stored_at, nar_path, Normalize. rewrite Hh, Hc. destruct (lenient_submatch _); [|done].
  by destruct (normalized_match _).
Qed.

(** A row turned into a whole file's. *)
Definition flip_row (f : Z) (nf : nar_file) (d : tables) : tables :=
  set_nar_files (<[f := set_chunked 0 (nf_file_size nf) nf]> (nar_files d)) (delete_chunk_links f d).

Lemma tidy_flip files f nf d : tidy_tables files d → nar_files d !! f = Some nf → tidy_tables files (flip_row f nf d).
Proof.
  intros [[Hu Hr Hc] Ht] Hf. split; [split|].
  - split; [apply (unique_hash _ Hu)|]. simpl. intros i j x y h c q Hi Hj Hkx Hky.
    assert (∀ i x, <[f:=set_chunked 0 (nf_file_size nf) nf]> (nar_files d) !! i = Some x → has_key h c q x →
      ∃ x', nar_files d !! i = Some x' ∧ has_key h c q x') as Hold.
    { intros g z [[<- <-]|[_ Hz]]%lookup_insert_Some Hk; [by exists nf|by exists z]. }
    destruct (Hold i x Hi Hkx) as (x' & Hx' & Hkx'), (Hold j y Hj Hky) as (y' & Hy' & Hky').
    by eapply (unique_file _ Hu _ _ _ _ h c q Hx' Hy').
  - intros g x Hx. change (links_of g (flip_row f nf d)) with (links_of g (delete_chunk_links f d)). rewrite links_of_delete.
    simpl in Hx. apply lookup_insert_Some in Hx as [[<- <-]|[Hne Hx]]; [by intros|]. rewrite decide_False by done. by apply Hr.
  - intros g Hg. simpl in *. rewrite lookup_insert_is_Some'. destruct Hg as [l [Hne Hl]%lookup_delete_Some]. right. apply Hc. by rewrite Hl.
  - intros g x Hx. change (links_of g (flip_row f nf d)) with (links_of g (delete_chunk_links f d)). rewrite links_of_delete.
    simpl in Hx. apply lookup_insert_Some in Hx as [[<- <-]|[Hne Hx]].
    + rewrite decide_True by done. split; simpl; [lia|]. split; [intros _; apply prefix_nil|lia].
    + rewrite decide_False by done. by apply Ht.
Qed.

(** Every mark but one row's stays. *)
Definition other_marks_stay (u : URL) (d d' : tables) : Prop :=
  ∀ h q, marked h q d → ¬ (h = Hash u ∧ q = encode (Query u)) → marked h q d'.

Lemma after_normalize_narinfos {V} u f (v : V) d :
  after false (λ r v' d', is_ok r = true → ∃ P url, d' = renormalize_where P url d) (normalize_narinfos u f) v d.
Proof.
  unfold normalize_narinfos. destruct (URLString u) as [url|]; [|by apply after_throw].
  apply after_bind, after_query; [done|]. apply after_exec; [done|]. intros _. by eexists _, url.
Qed.

Definition flipping (files : gmap string string) (u : URL) (f : Z) (d0 d : tables) : Prop :=
  tidy_tables files d ∧ other_marks_stay u d0 d ∧
  ∃ nf, nar_files d !! f = Some nf ∧ has_key (Hash u) CompressionTypeNone (encode (Query u)) nf.

Lemma after_flip files u f d0 d :
  flipping files u f d0 d → after false (λ r v' d', is_ok r = true → flipping files u f d0 d') (flip_tx u f) () d.
Proof.
  intros (Hd & Hm & nf & Hf & Hk). apply after_bind, after_exec; [done|]. apply after_bind.
  eapply after_update_file; [exact Hf|done|]. eapply after_mono; [apply after_normalize_narinfos|].
  intros r [] d' Hr Hok. destruct (Hr Hok) as (P & url & ->). clear Hr Hok.
  change (flipping files u f d0 (renormalize_where P url (flip_row f nf d))).
  split; [by apply tidy_renormalize, tidy_flip|]. split.
  - intros h q Hmk Hne. destruct (Hm h q Hmk Hne) as (g & x & Hg & Hkx & Hpos). exists g, x. simpl. split; [|done].
    rewrite lookup_insert_ne; [done|]. intros <-. rewrite Hf in Hg. injection Hg as <-. apply Hne.
    destruct Hk as (<- & _ & <-), Hkx as (<- & _ & <-). done.
  - exists (set_chunked 0 (nf_file_size nf) nf). simpl. by rewrite lookup_insert_eq.
Qed.

Lemma looks_LinkedNarinfoNarHash w0 f u : preserves (eq w0) (LinkedNarinfoNarHash f u).
Proof. unfold LinkedNarinfoNarHash. preserving fail. Qed.

(** What remains held when a row is flipped, or deleted. *)
Lemma held_flipped h q u f w d :
  held h q w → flipping (chunkFiles w) u f (db w) d → stored_at u w = true → Compression u = CompressionTypeNone → held h q (set_db d w).
Proof.
  intros [[_ Hf Hc] Ha] (Hd & Hm & _) Hst Hnone. split; [by split|]. destruct Ha as [Hw|[Hcs Hmk]]; [by left|].
  destruct (decide (h = Hash u ∧ q = encode (Query u))) as [[-> ->]|Hne]; [left|right; split; [done|by apply Hm]].
  exists CompressionTypeNone. split; [set_solver|]. rewrite <- Hst. symmetry. by apply (stored_at_same u _ (set_db d w)).
Qed.

Lemma held_cleanup b h q hs w : held h q w → wp b (cleanupStaleLockChunks hs) (λ _, held h q) w.
Proof.
  intros Hh. eapply wp_mono; [apply (wp_cleanupStaleLockChunks b w); split; [apply Hh|apply grows_refl]|].
  intros r w' (_ & Ho & _). by eapply held_ordered.
Qed.

Lemma held_same h q w w' : world_same w w' → held h q w → held h q w'.
Proof.
  intros Hs Hh. eapply held_ordered; [exact Hh|]. eapply ordered_world_same; [exact Hs|]. split; [apply Hh|apply grows_refl].
Qed.

Lemma wp_flip b h q u f w (Q : result cache_err () → world → Prop) :
  held h q w → stored_at u w = true → Compression u = CompressionTypeNone →
  (∃ nf, nar_files (db w) !! f = Some nf ∧ has_key (Hash u) CompressionTypeNone (encode (Query u)) nf) →
  (∀ r w', held h q w' → Q r w') → wp b (transaction_ (flip_tx u f)) Q w.
Proof.
  intros Hh Hst Hnone Hf HQ. apply wp_transaction_.
  apply (wp_transaction b (λ _ d, flipping (chunkFiles w) u f (db w) d) (λ _ _, True)).
  - split; [apply Hh|]. split; [|done]. by intros h' q'.
  - intros [] d Hd. eapply after_mono; [by apply after_flip|]. intros r [] d' Hr. split; [done|]. intros Hok. auto.
  - intros e [] d Hd. apply HQ. by eapply held_flipped.
  - intros [] d Hd _. apply HQ. by eapply held_flipped.
Qed.

Lemma wp_MigrateChunksToNar b h q u force w :
  held h q w → wp b (MigrateChunksToNar cfg now u force) (λ _, held h q) w.
Proof.
  intros Hh. unfold MigrateChunksToNar. destruct (isCDCEnabled cfg) eqn:Hcdc; simpl; [|by apply wp_throw].
  apply wp_withNarMigrationLock; [done|]. set (n := mkURL (Hash u) CompressionTypeNone (Query u) false "").
  apply wp_bind, wp_getNarFileFromDB; [done|]. apply wp_bind, wp_lift.
  pose proof (tt_sound _ _ _ (ty_tables _ _ (proj1 Hh))) as Hs.
  destruct (lookup_nar_file_inv cfg n (db w) (st_unique _ _ _ Hs)) as [->|(f & nf & -> & Hf & Hk)]; simpl; [done|].
  assert (has_key (Hash n) CompressionTypeNone (encode (Query n)) nf) as Hkn by by destruct Hk.
  destruct (bool_decide _); [by apply wp_throw|].
  apply wp_bind, wp_looks; [apply looks_LinkedNarinfoNarHash|]. intros [o|e]; [|done].
  apply wp_bind, wp_lift. destruct o as [expected|]; simpl; [|done].
  apply wp_bind, wp_try. eapply wp_mono; [apply (wp_getNarFromChunks content digest), tidy_sound, Hh|].
  intros r w1 [Hsame Hr]. pose proof (held_same h q _ _ Hsame Hh) as H1. apply wp_bind, wp_lift.
  destruct r as [[[u' size] rc]|e]; simpl; [|done]. destruct (Hr _ _ _ eq_refl) as [_ Hrc].
  apply wp_bind, wp_query; [done|]. destruct (s_breaks rc) eqn:Hb; [by apply wp_throw|]. destruct (Hrc eq_refl) as [Hbytes _].
  destruct (bool_decide (sha256 _ = _)); simpl; [|by apply wp_throw]. destruct (bool_decide (string_length _ = _)); simpl; [|by apply wp_throw].
  apply wp_bind, wp_query; [done|]. apply wp_bind.
  eapply wp_mono; [apply (wp_narStore_PutNar b n rc w1); [split; [apply H1|apply grows_refl]|]|].
  { intros _. simpl in *. rewrite Hbytes. apply holds_none. }
  intros [o|e] w2 (Ho & Hdb & _ & Hput); [|by eapply held_ordered]. destruct (Hput o eq_refl) as [Hst _].
  assert (held h q w2) as H2 by by eapply held_ordered.
  assert (∃ nf, nar_files (db w2) !! f = Some nf ∧ has_key (Hash n) CompressionTypeNone (encode (Query n)) nf) as Hrow.
  { destruct Hsame as (d & -> & Hd). rewrite Hdb. simpl. destruct (same_but_access_file _ _ _ _ Hd Hf) as [t Hf']. by eexists. }
  apply wp_bind, wp_looks; [destruct force; [apply preserves_ask|apply preserves_ret]|]. intros [prev|e]; [|done].
  apply wp_bind. eapply wp_flip; [done|done|done|done|]. intros [[]|e] w3 H3; [|done].
  destruct force; [by apply held_cleanup|by apply wp_ret].
Qed.

(** *** Chunked NARs purged, and their narinfos' URLs *)

Lemma delete_links_and_file f d : delete_nar_file f (delete_chunk_links f d) = delete_nar_file f d.
Proof. unfold delete_nar_file, delete_chunk_links. simpl. by rewrite delete_delete_eq. Qed.

Lemma wp_PurgeChunkedNar b h q u w :
  held h q w → ¬ (h = Hash u ∧ q = encode (Query u)) → wp b (PurgeChunkedNar cfg u) (λ _, held h q) w.
Proof.
  intros Hh Hne. unfold PurgeChunkedNar. destruct (isCDCEnabled cfg) eqn:Hcdc; simpl; [|by apply wp_throw].
  apply wp_withNarMigrationLock; [done|]. set (n := mkURL (Hash u) CompressionTypeNone (Query u) false "").
  apply wp_bind, wp_getNarFileFromDB; [done|].
  pose proof (tt_sound _ _ _ (ty_tables _ _ (proj1 Hh))) as Hs.
  destruct (lookup_nar_file_inv cfg n (db w) (st_unique _ _ _ Hs)) as [->|(f & nf & -> & Hf & Hk)]; [by apply wp_ret|].
  destruct (bool_decide _); [by apply wp_throw|]. apply wp_bind, wp_query; [done|]. apply wp_bind, wp_transaction_.
  assert (∀ d, (d = db w ∨ d = delete_nar_file f (db w)) → held h q (set_db d w)) as Hd.
  { intros d [->| ->]; [by destruct w|]. destruct Hh as [[Hd ? ?] Ha]. split; [split; [by apply tidy_delete_file|done|done]|].
    destruct Ha as [|[Hcs (g & x & Hg & Hkx & Hpos)]]; [by left|right]. split; [done|]. exists g, x. simpl.
    rewrite lookup_delete_ne; [done|]. intros <-. rewrite Hf in Hg. injection Hg as <-. apply Hne.
    destruct Hkx as (<- & _ & <-). by destruct Hk as [(-> & _ & ->)|(-> & _ & ->)]. }
  apply (wp_transaction b (λ _ d, d = db w ∨ d = delete_nar_file f (db w)) (λ _ _, True)).
  - by left.
  - intros [] d Hi. apply after_bind, after_exec; [done|]. apply after_exec; [done|]. split; [done|]. intros _. split; [|done].
    right. rewrite delete_links_and_file. destruct Hi as [->| ->]; [done|]. unfold delete_nar_file. simpl. f_equal; try apply delete_delete_eq.
    by rewrite list_filter_filter; apply list_filter_iff; intros; tauto.
  - intros e [] d Hi. by apply Hd.
  - intros [] d Hi _. apply held_cleanup. by apply Hd.
Qed.

Lemma ordered_NormalizeChunkedNarInfoURL w0 u : preserves (ordered w0) (NormalizeChunkedNarInfoURL cfg u).
Proof.
  assert (∀ f, preserves (ordered w0) (transaction_ (_ ← normalize_narinfos (mkURL (Hash u) CompressionTypeNone (Query u) false "") f;
    relinkNarInfosToNarFileWithEntTx (mkURL (Hash u) CompressionTypeNone (Query u) false "") f))) as Htx.
  { intros f. apply ordered_transaction_. intros files d Hd. apply after_bind. eapply after_mono; [apply after_normalize_narinfos|].
    intros [[]|e] v d1 Hr; [|done]. destruct (Hr eq_refl) as (P & url & ->).
    pose proof (tidy_renormalize files P url d Hd) as Hd1. assert (marks_stay d (renormalize_where P url d)) as Hm by by apply marks_stay_files.
    unfold relinkNarInfosToNarFileWithEntTx. destruct (URLString _); [|by apply after_throw].
    apply after_bind, after_query; [done|]. case_bool_decide; [by apply after_ret|].
    apply after_stmt_or; [done|]. destruct (nar_files _ !! f); [|done]. intros _. split; [|by apply marks_stay_files].
    apply (tidy_frame content files (renormalize_where P url d)); [done..|]. simpl. eauto. }
  unfold NormalizeChunkedNarInfoURL, getNarFileFromDB. preserving ltac:(apply Htx).
Qed.

(** *** The periodic jobs *)

(** The rows of a list, where they still are, are not marked. *)
Definition rows_unmarked (l : list (Z * nar_file)) (d : tables) : Prop :=
  ∀ x nf, x ∈ l → nar_files d !! x.1 = Some nf → nf_total_chunks nf = 0%Z.

Lemma rows_unmarked_filter (P : Z * nar_file → Prop) `{!∀ x, Decision (P x)} d :
  (∀ x, P x → nf_total_chunks x.2 = 0%Z) → rows_unmarked (filter P (map_to_list (nar_files d))) d.
Proof.
  intros HP [f nf'] nf [Hp Hin]%list_elem_of_filter Hf. apply elem_of_map_to_list in Hin. simpl in Hf. rewrite Hin in Hf.
  injection Hf as <-. exact (HP _ Hp).
Qed.

Lemma delete_file_unmarked f d :
  (∀ nf, nar_files d !! f = Some nf → nf_total_chunks nf = 0%Z) → marks_stay d (delete_nar_file f d).
Proof.
  intros Hz h q (g & x & Hg & Hk & Hpos). exists g, x. simpl. rewrite lookup_delete_ne; [done|]. intros <-. apply Hz in Hg. lia.
Qed.

Lemma ordered_delete_unmarked w0 f w :
  ordered w0 w → (∀ nf, nar_files (db w) !! f = Some nf → nf_total_chunks nf = 0%Z) → ordered w0 (set_db (delete_nar_file f (db w)) w).
Proof. intros Ho Hz. apply ordered_db; [done|apply tidy_delete_file, Ho|by apply delete_file_unmarked]. Qed.

(** The NAR kept has its own chunks when a file of its name is old enough to go. *)
Lemma wp_delete_old_files b h q l w :
  held h q w → rows_unmarked l (db w) → Forall (λ x, spared h q (nf_hash x.2) w) l → wp b (delete_old_files l) (λ _, held h q) w.
Proof.
  revert w. induction l as [|[f nf] l IH]; intros w Hh Hu Hs; simpl; [by apply wp_ret|]. apply Forall_cons in Hs as [Hs Hl].
  assert (ordered w (set_db (delete_nar_file f (db w)) w)) as Ho.
  { apply ordered_delete_unmarked; [split; [apply Hh|apply grows_refl]|]. intros y Hy. eapply (Hu (f, nf)); [by left|done]. }
  assert (rows_unmarked l (db w)) as Hul by (intros x y Hx; apply Hu; by right).
  assert (∀ w', held h q w' → db w' = db w ∨ db w' = delete_nar_file f (db w) → wp b (delete_old_files l) (λ _, held h q) w') as Hnext.
  { intros w' H' Hd. apply IH; [done| |].
    - intros x y Hx Hy. destruct Hd as [Hd|Hd]; rewrite Hd in Hy; [by eapply Hul|].
      simpl in Hy. apply lookup_delete_Some in Hy as [_ Hy]. by eapply Hul.
    - eapply Forall_impl; [exact Hl|]. intros x. apply spared_marks. destruct Hd as [->| ->]; [apply marks_stay_refl|apply Ho]. }
  assert (held h q (set_db (delete_nar_file f (db w)) w)) as Hdel by by eapply held_ordered.
  apply wp_bind, wp_try, wp_act.
  { intros _. split; apply wp_bind, wp_ret; apply Hnext; auto. }
  apply wp_bind, wp_bind, wp_try. eapply wp_mono; [apply (wp_delete_file b h q); [done|]|].
  - eapply spared_marks; [apply Ho|exact Hs].
  - intros r w1 [H1 Hd1]. apply wp_ret, Hnext; [done|]. right. by rewrite Hd1.
Qed.

(** What is chunked under a NAR's hash, its prefix aside, is that NAR itself. *)
Definition one_query (h q : string) (w : world) : Prop :=
  ∀ f nf, nar_files (db w) !! f = Some nf → nf_compression nf = CompressionTypeNone → (0 < nf_total_chunks nf)%Z →
    normal_hash (nf_hash nf) = normal_hash h → nf_hash nf = h ∧ nf_query nf = q.

(** The whole files that the clean-up takes for replaced are then replaced. *)
Lemma old_files_spared h q delay w x :
  chunkStore cfg = true → one_query h q w → x ∈ old_files now delay (db w) → spared h q (nf_hash x.2) w.
Proof.
  intros Hcs Hone [(_ & _ & _ & g & nf & Hg & Hc & Hpos & Hh) _]%list_elem_of_filter.
  destruct (decide (normal_hash (nf_hash x.2) = normal_hash h)) as [He|]; [right|by left]. split; [done|]. rewrite <- Hh in He.
  destruct (Hone g nf Hg Hc Hpos He) as [H1 H2]. exists g, nf. by split; [|split].
Qed.

Lemma wp_runCDCDeletedCleanup b h q delay w :
  held h q w → chunkStore cfg = true → one_query h q w → wp b (runCDCDeletedCleanup now delay) (λ _, held h q) w.
Proof.
  intros Hh Hcs Hone. assert (∀ x, x ∈ old_files now delay (db w) → spared h q (nf_hash x.2) w) as Hs by (intros x; by apply old_files_spared).
  apply wp_bind, wp_query; [done|]. apply wp_delete_old_files; [done| |by apply Forall_forall].
  unfold old_files. apply rows_unmarked_filter. by intros x (H1 & _).
Qed.

(** In order, with the rows of a list still unmarked. *)
Definition looking (w0 : world) (l : list (Z * nar_file)) (w : world) : Prop := ordered w0 w ∧ rows_unmarked l (db w).

Lemma rows_unmarked_incl l d d' :
  (∀ f nf', nar_files d' !! f = Some nf' → ∃ nf, nar_files d !! f = Some nf ∧ nf_total_chunks nf' = nf_total_chunks nf) →
  rows_unmarked l d → rows_unmarked l d'.
Proof. intros Hd Hu x nf' Hx Hf. destruct (Hd _ _ Hf) as (nf & Hnf & ->). by eapply Hu. Qed.

Lemma looking_recoverStale w0 l f stale : preserves (looking w0 l) (recoverStaleCDCChunkingLock cfg f stale).
Proof.
  intros b w [Ho Hu]. unfold recoverStaleCDCChunkingLock. apply wp_bind, wp_looks.
  { intros b' w' Hw s <- Hc. unfold try_migration_lock. destruct (idle_next b' s Hc) as (Hc' & _ & _).
    by destruct (next s); (split; [exact Hc'|]). }
  intros [[]|e]; [simpl|by apply wp_ret|done].
  apply wp_bind, (wp_tx b (rows_unmarked l) (λ _ _, True) _ _ w0 w); [done|done| | |].
  - intros v d Hd HJ. apply after_bind, after_query; [done|]. destruct (nar_files d !! f) as [nf|] eqn:Hf.
    2:{ apply after_ret. intros _. by split; [|split; [apply marks_stay_refl|]]. }
    apply after_bind. eapply after_mono; [by apply (after_clear_stale (chunkFiles w) f nf nf)|].
    intros [[st|]|e] v' d' [-> Hr]; [|destruct Hr as [-> _]|done]; apply after_assign; intros _;
      [|by split; [|split; [apply marks_stay_refl|]]].
    destruct Hr as (Hd' & Hm & Hz & Hfs). split; [done|]. split; [done|]. split; [|done].
    eapply rows_unmarked_incl; [|exact HJ]. intros g y Hy. rewrite Hfs in Hy.
    apply lookup_insert_Some in Hy as [[<- <-]|[_ Hy]]; [by exists nf|by exists y].
  - intros e v d Ho' HJ. apply wp_bind, wp_lift. by split.
  - intros v d Ho' HJ _. apply wp_bind, wp_lift. destruct v as [hs|]; [|by apply wp_ret].
    apply wp_bind. destruct (chunkStore cfg); [|by do 2 apply wp_ret].
    eapply wp_mono; [by apply (wp_cleanupStaleLockChunks b w0)|]. intros r w' (-> & Ho'' & Hdb). apply wp_ret. split; [done|].
    by rewrite Hdb.
Qed.

Lemma looking_delete w0 l f w :
  looking w0 l w → (∀ nf, nar_files (db w) !! f = Some nf → nf_total_chunks nf = 0%Z) → looking w0 l (set_db (delete_nar_file f (db w)) w).
Proof.
  intros [Ho Hu] Hz. split; [by apply ordered_delete_unmarked|]. eapply rows_unmarked_incl; [|exact Hu].
  simpl. intros g y [_ Hy]%lookup_delete_Some. by exists y.
Qed.

Lemma tidy_delete_narinfos files h d : tidy_tables files d → tidy_tables files (delete_where h d).
Proof.
  intros Hd. apply (tidy_frame content files d); [done..|]. simpl. intros i r [Hr _]%map_lookup_filter_Some. eauto.
Qed.

Lemma after_gc files l f ids (v : bool) d :
  tidy_tables files d → rows_unmarked l d → (∀ nf, nar_files d !! f = Some nf → nf_total_chunks nf = 0%Z) →
  after false (λ r v' d', is_ok r = true → tidy_tables files d' ∧ marks_stay d d' ∧
    (rows_unmarked l d' ∧ ∀ nf, nar_files d' !! f = Some nf → nf_total_chunks nf = 0%Z)) (gc_tx f ids) v d.
Proof.
  intros Hd Hu Hz. unfold gc_tx. apply after_bind, after_assign, after_bind, after_exec; [done|].
  set (d1 := set_links _ d). assert (tidy_tables files d1) as Hd1 by (apply (tidy_frame content files d); [done..|]; simpl; eauto).
  apply after_bind, after_exec; [done|]. set (d2 := foldr _ d1 ids).
  assert (tidy_tables files d2 ∧ nar_files d2 = nar_files d) as [Hd2 Hf2].
  { change (nar_files d) with (nar_files d1). unfold d2. clear d2. clearbody d1.
    induction ids as [|i ids IH]; simpl; [done|]. destruct IH as [IH1 IH2].
    destruct (narinfos _ !! i) as [r|]; [|done]. case_bool_decide; [done|]. split; [by apply tidy_delete_narinfos|done]. }
  assert (marks_stay d d2) as Hm2 by by apply marks_stay_files.
  apply after_bind, after_query; [done|]. case_bool_decide.
  - apply after_ret. intros _. split; [done|]. split; [done|]. unfold rows_unmarked. by rewrite Hf2.
  - apply after_bind, after_stmt_or; [done|]. destruct (nar_files d2 !! f) as [nf|] eqn:Hf; [|done]. apply after_assign. intros _.
    split; [by apply tidy_delete_file|]. split.
    + eapply marks_stay_trans; [exact Hm2|]. apply delete_file_unmarked. by rewrite Hf2.
    + split.
      * intros x y Hx Hy. simpl in Hy. rewrite Hf2 in Hy. apply lookup_delete_Some in Hy as [_ Hy]. by eapply Hu.
      * intros y Hy. simpl in Hy. rewrite Hf2 in Hy. apply lookup_delete_Some in Hy as [_ Hy]. by apply Hz.
Qed.

Lemma looking_gcOrSkip w0 l x absent :
  x ∈ l → preserves (looking w0 l) (gcOrSkipBackingLessNarFile absent x.1).
Proof.
  intros Hx b w Hw. assert (∀ nf, nar_files (db w) !! x.1 = Some nf → nf_total_chunks nf = 0%Z) as Hz by (intros nf; by apply Hw).
  apply wp_bind, wp_try, wp_query; [intros _; by apply wp_ret|]. destruct (filter _ _) as [|ni nis].
  - pose proof (looking_delete w0 l x.1 w Hw Hz). apply wp_bind, wp_try, wp_act; [intros _; split|]; by apply wp_ret.
  - destruct (forallb _ _); [|by apply wp_ret]. destruct Hw as [Ho Hu].
    apply wp_bind, (wp_tx b (λ d, rows_unmarked l d ∧ ∀ nf, nar_files d !! x.1 = Some nf → nf_total_chunks nf = 0%Z) (λ _ _, True) _ _ w0 w).
    + done.
    + done.
    + intros v d Hd [Hud Hzd]. eapply after_mono; [by apply (after_gc (chunkFiles w) l)|]. intros r v' d' Hr Hok. destruct (Hr Hok) as (? & ? & ?). auto.
    + intros e v d Ho' [Hu' _]. apply wp_ret. by split.
    + intros v d Ho' [Hu' _] _. apply wp_ret. by split.
Qed.

Lemma looking_recover_files w0 l all absent : (∀ x, x ∈ l → x ∈ all) → preserves (looking w0 all) (recover_files cfg absent l).
Proof.
  induction l as [|[f nf] l IH]; intros Hl; simpl; [apply preserves_ret|].
  assert (preserves (looking w0 all) (recover_files cfg absent l)) as Hrest by (apply IH; intros x Hx; apply Hl; by right).
  assert (∀ u, preserves (looking w0 all) (HasNarInStore u)) as Hhas by (intros u b w Hw; apply wp_looks; [apply looks_HasNarInStore|done]).
  assert (∀ j, preserves (looking w0 all) (spawn j)) as Hspawn.
  { intros j b w [Ho Hu]. apply wp_spawn. split; [by eapply ordered_same_stores, Ho|done]. }
  pose proof (looking_gcOrSkip w0 all (f, nf) absent (Hl _ (list_elem_of_here _ _))) as Hgc.
  preserving ltac:(first [apply looking_recoverStale|exact Hrest|apply Hhas|apply Hspawn|exact Hgc]).
Qed.

Lemma elem_of_take_sorted (x : Z * nar_file) n l : x ∈ take n (merge_sort by_id l) → x ∈ l.
Proof. intros Hx. rewrite <- (merge_sort_Permutation by_id l). by apply (subseteq_take n) in Hx. Qed.

Lemma ordered_runCDCLazyRecovery b w0 w absent interval cursor n :
  ordered w0 w → wp b (runCDCLazyRecovery cfg now absent interval cursor n) (λ _, ordered w0) w.
Proof.
  intros Ho. apply wp_bind, wp_query; [done|]. set (l := recovery_candidates _ _ _ _ _).
  apply wp_bind. eapply wp_mono; [apply (looking_recover_files w0 l l absent); [done|]|].
  - split; [done|]. intros x nf Hx%elem_of_take_sorted Hf. revert x nf Hx Hf. apply rows_unmarked_filter. by intros x (H1 & _).
  - intros [[]|e] w' [Ho' _]; [by apply wp_ret|done].
Qed.

(** *** What is held is served *)

Lemma normalized_with_path u : normalized_match (Hash u) = true → is_ok (ToFileExtension (Compression u)) = true → with_path u.
Proof.
  intros Hn He c Hc. apply nar_path_matched.
  - unfold hash_match. by rewrite Hn.
  - repeat (apply elem_of_cons in Hc as [->|Hc]; [done|]). by apply elem_of_nil in Hc.
Qed.

Lemma whole_file_in_store u w :
  Compression u = CompressionTypeNone → whole_file (Hash u) w → in_store u w = true.
Proof.
  intros Hnone (c & Hc & Hst). unfold in_store. rewrite bool_decide_true by done.
  rewrite <- (stored_at_same (with_compression u c) (mkURL (Hash u) c ∅ false "") w eq_refl eq_refl) in Hst.
  repeat (apply elem_of_cons in Hc as [->|Hc]); [..|by apply elem_of_nil in Hc].
  - by rewrite Hst.
  - by rewrite Hst, orb_true_r.
  - rewrite <- Hnone, with_own_compression in Hst. by rewrite Hst, orb_true_r.
Qed.

Lemma marked_whole_in_chunks u w :
  tidy w → Compression u = CompressionTypeNone → chunkStore cfg = true → marked (Hash u) (encode (Query u)) (db w) →
  whole_in_chunks cfg u w.
Proof.
  intros [Hd _ _] Hnone Hcs (f & nf & Hf & Hk & Hpos). split; [done|]. exists f, nf.
  pose proof (st_unique _ _ _ (tt_sound _ _ _ Hd)) as Hu. destruct (tt_rows _ _ _ Hd f nf Hf) as (_ & _ & Hrow).
  split; [|split; [done|by apply Hrow]]. unfold lookup_nar_file. rewrite Hnone.
  assert (find_nar_file (Hash u) CompressionTypeNone (encode (Query u)) (db w) = Ok (f, nf)) as Hfind;
    [|by destruct (isCDCEnabled cfg); rewrite Hfind].
  destruct (find_nar_file_cases (Hash u) CompressionTypeNone (encode (Query u)) (db w) Hu) as [[_ Hno]|(g & x & -> & _ & Hg & Hkx)].
  - exfalso. destruct (nar_files_where_cases (Hash u) CompressionTypeNone (encode (Query u)) (db w) Hu) as [[_ Hn]|(g & x & Hw & _)]; [by apply (Hn f nf)|congruence].
  - assert (g = f) as -> by by eapply (unique_file _ Hu). by rewrite Hf in Hg; injection Hg as ->.
Qed.

(** A stream that is whole. *)
Definition serves (u : URL) (r : result cache_err (URL * Z * stream)) : Prop := ∃ x, r = Ok x ∧ served content u x ∧ s_breaks x.2 = false.

Lemma wp_serve_held u flag w :
  tidy w → Compression u = CompressionTypeNone →
  (if flag : bool then in_store u w = true else whole_in_chunks cfg u w) →
  wp false (serveNarFromStorageViaPipe cfg now u flag) (λ r _, serves u r) w.
Proof.
  intros Hw Hnone Hflag. pose proof (tidy_sound _ _ Hw) as Hs. unfold serveNarFromStorageViaPipe. rewrite !(bool_decide_true (Compression u = _)) by done.
  assert (whole_in_chunks cfg u w → wp false (getNarFromChunks cfg now u) (λ r _, serves u r) w) as Hchunks.
  { intros Hc. eapply wp_mono; [by apply (wp_getNarFromChunks_calm content digest)|]. intros r w' [_ ->].
    eexists. split; [done|]. split; [|done]. by apply served_from_chunks. }
  destruct flag; simpl.
  - apply wp_bind. assert (wp false (if isCDCEnabled cfg then r ← try (E' := cache_err) (getNarFileFromDB cfg u);
        mret (match r with Ok (Ok (_, nr)) => bool_decide (0 < nf_total_chunks nr)%Z && true | _ => false end) else mret false)
      (λ r w', w' = w ∧ ∃ c, r = Ok c ∧ (c = true → whole_in_chunks cfg u w)) w) as Hc.
    { destruct (isCDCEnabled cfg) eqn:Hcdc; [|apply wp_ret; split; [done|]; by exists false]. apply wp_bind, wp_try, wp_getNarFileFromDB; [done|].
      apply wp_ret. split; [done|]. eexists. split; [done|].
      destruct (lookup_nar_file cfg u (db w)) as [[f nf]|] eqn:Hl; [|done]. intros [Hpos%bool_decide_eq_true _]%andb_true_iff.
      destruct (lookup_nar_file_inv cfg u (db w) (st_unique _ _ _ (so_tables _ _ _ Hs))) as [|(g & x & Hl' & Hg & _)]; [congruence|].
      rewrite Hl in Hl'. injection Hl' as <- <-. split; [by apply andb_true_iff in Hcdc as [_ ?]|]. exists f, nf. split; [done|]. split; [done|].
      by apply (tt_rows _ _ _ (ty_tables _ _ Hw) f nf). }
    eapply wp_mono; [exact Hc|]. intros r w' (-> & c & -> & Hc'). destruct c; simpl; [by apply Hchunks, Hc'|].
    apply wp_bind, wp_try. eapply wp_mono; [by apply (wp_getNarFromStore content digest)|].
    intros [x|e] w' (_ & _ & Hx); [|destruct Hx as [_ Hx]; rewrite Hx in Hflag; done].
    apply wp_ret. exists x. split; [done|]. destruct Hx. auto.
  - apply wp_bind, wp_ret. destruct Hflag as [Hcs Hl]. rewrite Hcs. simpl. apply Hchunks. by split.
Qed.

Lemma marked_file_row u d :
  unique_keys d → Compression u = CompressionTypeNone → marked (Hash u) (encode (Query u)) d →
  ∃ nf, file_row cfg u d = Some nf ∧ (0 < nf_total_chunks nf)%Z.
Proof.
  intros Hu Hnone (f & nf & Hf & Hk & Hpos). exists nf. split; [|done]. unfold file_row. rewrite Hnone.
  destruct (nar_files_where_cases (Hash u) CompressionTypeNone (encode (Query u)) d Hu) as [[_ Hno]|(g & x & Hw & Hg & Hkx)].
  - by destruct (Hno f nf).
  - assert (g = f) as -> by by eapply (unique_file _ Hu). rewrite Hf in Hg. injection Hg as ->. by destruct (isCDCEnabled cfg); rewrite Hw.
Qed.

Lemma wp_GetNar_held uploadOnly u w :
  tidy w → Compression u = CompressionTypeNone → normalized_match (Hash u) = true → available cfg (Hash u) (encode (Query u)) w →
  wp false (GetNar cfg now uploadOnly upstream fetch u) (λ r _, serves u r) w.
Proof.
  intros Hw Hnone Hn Ha. pose proof (st_unique _ _ _ (tt_sound _ _ _ (ty_tables _ _ Hw))) as Hu.
  assert (with_path u) as Hpath by (apply normalized_with_path; [done|by rewrite Hnone]).
  unfold GetNar. apply wp_bind, wp_query; [done|]. apply wp_bind, wp_HasNarInStore; [done|done|].
  apply wp_bind, wp_hasUpstreamJob. generalize (bool_decide (Hash u ∈ upstreamJobs w)). intros running. apply wp_bind.
  assert (wp false (narServability cfg u) (λ r w', w' = w ∧ r = Ok (true, true)) w) as Hserv.
  { unfold narServability. apply wp_bind, wp_HasNarInStore; [done|done|]. destruct (in_store u w) eqn:Hin; [by apply wp_ret|].
    destruct Ha as [Hf|[Hcs Hm]]; [apply (whole_file_in_store u w Hnone) in Hf; congruence|].
    unfold isChunkStoreAvailable. rewrite Hcs. simpl. apply wp_bind, wp_nar_file_row; [done|done|].
    destruct (marked_file_row u (db w) Hu Hnone Hm) as (nf & -> & Hpos). rewrite bool_decide_true by done. by apply wp_ret. }
  eapply wp_mono; [exact Hserv|]. intros r w' [-> ->]. clear Hserv. apply wp_bind.
  assert (wp false (if running && negb (in_store u w) then HasNarInChunks cfg u else mret true) (λ r w', w' = w ∧ r = Ok true) w) as Hchunks.
  { destruct (in_store u w) eqn:Hin; [rewrite andb_false_r; by apply wp_ret|]. rewrite andb_true_r.
    destruct running; [|by apply wp_ret]. apply wp_HasNarInChunks; [done|done|]. split; [done|].
    destruct Ha as [Hf|[Hcs Hm]]; [apply (whole_file_in_store u w Hnone) in Hf; congruence|].
    destruct (marked_file_row u (db w) Hu Hnone Hm) as (nf & Hr & Hpos). unfold in_chunks, isChunkStoreAvailable. rewrite Hr, Hcs.
    by rewrite bool_decide_true. }
  eapply wp_mono; [exact Hchunks|]. intros r w' [-> ->]. clear Hchunks. simpl. apply wp_bind.
  destruct (in_store u w) eqn:Hin.
  - unfold maybeBackgroundMigrateNarToChunks. destruct (isCDCEnabled cfg); [apply wp_spawn|apply wp_ret]; apply (wp_serve_held u true); try done.
    destruct Hw. by split.
  - apply wp_ret, (wp_serve_held u false); [done..|].
    destruct Ha as [Hf|[Hcs Hm]]; [apply (whole_file_in_store u w Hnone) in Hf; congruence|]. by apply marked_whole_in_chunks.
Qed.

Lemma wp_getNar_held uploadOnly ae u w :
  tidy w → Compression u = CompressionTypeNone → normalized_match (Hash u) = true → available cfg (Hash u) (encode (Query u)) w →
  wp false (getNar cfg now uploadOnly upstream fetch true ae u) (λ r _, ∃ resp, r = Ok resp ∧ status resp = 200%Z ∧
    s_breaks (body resp) = false ∧ delivers content u resp) w.
Proof.
  intros Hw Hnone Hn Ha. unfold getNar. apply wp_bind, wp_ret, wp_bind, wp_try. set (nu := with_zstd u _).
  eapply wp_mono; [by apply (wp_GetNar_held uploadOnly nu)|]. intros r w' (x & -> & Hx & Hb). apply wp_ret.
  destruct (respond_delivers content digest nu ae x Hx) as [Hd Hub]. eexists. split; [done|].
  split; [by destruct x as [[? ?] ?]|]. split; [by apply Hub|exact Hd].
Qed.
End keeping.

(** ** Histories *)

(** What changes the NARs kept, and what reads them. *)
Inductive nar_op `{GoNix} :=
  | OpPut (u : URL) (t : stream)
  | OpPull (u : URL) (preferred : option URL) (ni : option NarInfo)
  | OpMigrateToChunks (u : URL)
  | OpMigrateToFile (u : URL) (forceReclaim : bool)
  | OpPurge (u : URL)
  | OpNormalize (u : URL)
  | OpDelete (u : URL)
  | OpGet (uploadOnly withBody : bool) (ae : string) (u : URL)
  | OpCleanup (deleteDelay : Z)
  | OpRecover (interval cursorID : Z) (batchSize : nat).

Section history.
Context `{GN : GoNix} {SG : Signing} {CD : Codec} {CH : Chunker} {HA : Hashing} (content : string → string).
Context `{!CodecLaws} `{!ChunkerLaws} (nonempty : ∀ h, content h ≠ "").
Context (cfg : Config) (digest_of : string → string) (upstream : string → option NarInfo) (fetch : URL → option stream).
Context (narInfoGenuinelyAbsentUpstream : string → bool).
Notation M := (eff state cache_err).
Notation held := (held content cfg).

Definition run_nar_op (now : Z) (op : nar_op) : M () :=
  match op with
  | OpPut u t => PutNar cfg now digest_of u t
  | OpPull u preferred ni => pullNarIntoStore cfg now digest_of fetch u preferred ni
  | OpMigrateToChunks u => MigrateNarToChunks cfg now u
  | OpMigrateToFile u force => MigrateChunksToNar cfg now u force
  | OpPurge u => PurgeChunkedNar cfg u
  | OpNormalize u => NormalizeChunkedNarInfoURL cfg u
  | OpDelete u => DeleteNar u
  | OpGet uploadOnly withBody ae u => _ ← getNar cfg now uploadOnly upstream fetch withBody ae u; mret ()
  | OpCleanup delay => runCDCDeletedCleanup now delay
  | OpRecover interval cursor n => _ ← runCDCLazyRecovery cfg now narInfoGenuinelyAbsentUpstream interval cursor n; mret ()
  end.

(** What is asked of an operation for the NAR [h] with query [q] to outlive it.  Uploads
    are of what their names say, where they are whole, and downloads are as [honest_pull]
    says.  What is purged is another NAR; what is deleted has another hash, prefix aside,
    or this NAR is chunked.  A migration to chunks under this hash has it without prefix,
    and this query.  A request's hash has no prefix, nor do the URLs of the narinfos it
    may turn to.  The clean-up runs with a chunk store, as its cron job does, and what is
    chunked under this hash is this NAR. *)
Definition op_ok (h q : string) (now : Z) (op : nar_op) (w : world) : Prop :=
  match op with
  | OpPut u t => s_breaks t = false → holds_nar (Compression u) (s_bytes t) (nar_named content (Hash u))
  | OpPull u preferred ni => honest_pull content cfg fetch u preferred ni w
  | OpMigrateToChunks u => about h q u
  | OpPurge u => ¬ (h = Hash u ∧ q = encode (Query u))
  | OpDelete u => spared cfg h q (Hash u) w
  | OpGet _ _ _ u => same_name u w
  | OpCleanup _ => chunkStore cfg = true ∧ one_query h q w
  | OpMigrateToFile _ _ | OpNormalize _ | OpRecover _ _ _ => True
  end.

(** Operations one after another, each among faults of its own, whatever they return. *)
Inductive reaches (h q : string) : world → world → Prop :=
  | reach_here w : reaches h q w w
  | reach_op now op w fs w' :
      op_ok h q now op w → Forall idle fs → reaches h q (st (run_nar_op now op (mkState w fs)).2) w' → reaches h q w w'.

Lemma run_nar_op_held h q now op w :
  op_ok h q now op w → held h q w → wp true (run_nar_op now op) (λ _, held h q) w.
Proof.
  intros Hok Hh. assert (ordered content w w) as Ho by (split; [apply Hh|apply grows_refl]).
  assert (∀ {A} (m : M A), wp true m (λ _, ordered content w) w → wp true m (λ _, held h q) w) as Hkeep.
  { intros A m Hm. eapply wp_mono; [exact Hm|]. intros r w' Ho'. by eapply held_ordered. }
  assert (∀ {A} (m : M A), wp true m (λ _, ordered content w) w → wp true (_ ← m; mret ()) (λ _, ordered content w) w) as Hdrop.
  { intros A m Hm. apply wp_bind. eapply wp_mono; [exact Hm|]. intros [a|e] w' Ho'; [by apply wp_ret|done]. }
  destruct op; simpl in *.
  - apply Hkeep. eapply wp_mono; [by apply (wp_PutNar content nonempty)|]. by intros r w' [Ho' _].
  - apply Hkeep. eapply wp_mono; [by apply (wp_pullNarIntoStore content nonempty)|]. by intros r w' [Ho' _].
  - by apply (wp_MigrateNarToChunks content nonempty).
  - by apply (wp_MigrateChunksToNar content).
  - by apply (wp_PurgeChunkedNar content).
  - apply Hkeep. by apply (ordered_NormalizeChunkedNarInfoURL content).
  - by apply (wp_DeleteNar content).
  - apply Hkeep, Hdrop. by apply (wp_getNar_ordered content).
  - destruct Hok. by apply (wp_runCDCDeletedCleanup content cfg).
  - apply Hkeep, Hdrop. by apply (ordered_runCDCLazyRecovery content).
Qed.

Lemma reaches_held h q w w' : reaches h q w w' → held h q w → held h q w'.
Proof.
  induction 1 as [w|now op w fs w' Hok Hfs _ IH]; [done|]. intros Hh. apply IH.
  by destruct (run_nar_op_held h q now op w Hok Hh (mkState w fs) eq_refl Hfs).
Qed.
End history.

(** ** Lazy chunking *)

Section lazy.
Context `{GN : GoNix} {SG : Signing} {CD : Codec} {CH : Chunker} {HA : Hashing} (cfg : Config) (now : Z) (digest_of : string → string).
Notation M := (eff state cache_err).

(** A file stays as it is while rows change. *)
Definition has_file (p x : string) (w : world) : Prop := narStore w !! p = Some x.

Lemma has_file_transaction {V} p x (fn : eff (session V tables) dberr ()) v : preserves (has_file p x) (transaction fn v).
Proof.
  intros b w Hw. apply (wp_transaction b (λ _ _, True) (λ _ _, True)); [done| |by intros..].
  intros v' d _ s Hs Hc. by split.
Qed.

Lemma has_file_fix p x u : preserves (has_file p x) (checkAndFixNarInfosForNar cfg digest_of u).
Proof.
  assert (∀ fn, preserves (has_file p x) (transaction_ fn)) as Htx.
  { intros fn. apply preserves_bind; [apply has_file_transaction|]. intros [r []]. apply preserves_lift. }
  assert (∀ h, preserves (has_file p x) (CheckAndFixNarInfo cfg digest_of h)) as Hcheck.
  { intros h. unfold CheckAndFixNarInfo, checkAndFixNarInfoNoCompression, getNarActualSize, HasNarInStore, HasNarInChunks, nar_file_row,
      getNarFileFromDB, computeStoredNarFileHash, statNarInStore, stat_candidates, wholeFileServeCompressions, StatNar.
    preserving ltac:(apply Htx). }
  assert (∀ row nis, preserves (has_file p x) (fix_narinfos cfg digest_of row nis)) as Hfix.
  { intros row nis. induction nis as [|[i ni] nis IH]; [apply preserves_ret|]. simpl.
    preserving ltac:(first [apply Hcheck|apply IH|apply preserves_act; by intros]). }
  unfold checkAndFixNarInfosForNar, getNarFileFromDB. preserving ltac:(apply Hfix).
Qed.

Lemma wp_lazy_pull fetch u o ni t p w :
  isCDCEnabled cfg = true → cdcLazyChunkingEnabled cfg = true → Compression u = CompressionTypeNone →
  fetch o = Some t → s_breaks t = false → nar_path (with_compression u CompressionTypeZstd) = Ok p → narStore w !! p = None →
  wp false (pullNarIntoStore cfg now digest_of fetch u (Some o) ni) (λ _, has_file p (zstd (s_bytes t))) w.
Proof.
  intros Hcdc Hlazy Hnone Hf Hb Hp Hno. unfold pullNarIntoStore. simpl. apply wp_bind, wp_lift. unfold tempFile. simpl.
  rewrite Hf, Hlazy. unfold way_of. rewrite !andb_false_r. simpl. rewrite Hb. apply wp_bind. unfold storeNarFromTempFile.
  rewrite Hnone, bool_decide_true by done. unfold narStore_PutNar. rewrite Hp.
  apply wp_bind, wp_bind, wp_query; [done|]. rewrite Hno, bool_decide_false by (by intros [? ?]). simpl.
  apply wp_bind, wp_act; [done|]. apply wp_ret, wp_bind, wp_ret.
  set (w1 := set_narStore _ w). assert (has_file p (zstd (s_bytes t)) w1) as H1 by apply lookup_insert_eq.
  assert (preserves (has_file p (zstd (s_bytes t))) (ensureNarFile now u (string_length (zstd (s_bytes t))))) as Hens.
  { apply preserves_bind; [apply has_file_transaction|]. intros [r []]. apply preserves_lift. }
  eapply wp_mono; [by apply Hens|]. intros [[]|e] w2 H2; [|done]. rewrite Hcdc. simpl.
  revert H2. generalize w2 at 1 2. intros w3 H3. apply wp_bind. unfold maybeBackgroundMigrateNarToChunks. rewrite Hcdc. apply wp_spawn.
  apply wp_bind, wp_try. eapply wp_mono; [apply has_file_fix; exact H3|]. intros r w4 H4. by apply wp_ret.
Qed.
End lazy.

(** ** The properties *)

(** C1. In a world in order ([tidy]: the rows and files tell the truth, and what is
    marked chunked is all there) a NAR that is there stays there: after any sequence of
    uploads, downloads, requests, deletions, purges, migrations in either direction and
    periodic jobs, each disturbed by any faults and whatever it returns, an uncompressed
    request still finds a whole file of it or all its chunks, and everything stored is
    what its name says.  This is as far as each operation is as [op_ok] says:
    - an upload that does not break off holds the NAR it names;
    - a download that does not break off gives the NAR, from a URL with the compression
      asked for unless it is decompressed on the way; one that breaks off is not being
      chunked at the same time; one kept as a whole file is not of a NAR chunked already;
    - what is purged is another NAR, and what is deleted has another hash, unless this
      NAR is chunked;
    - a migration to chunks under this hash names it without prefix, with its query;
    - a request names its hash without prefix, as do the narinfos linked to it;
    - when the deleted-files clean-up runs, what is chunked under this hash is this NAR,
      not one with another query.
    Nobody else writes to the database during an operation, and NARs are not empty. *)
Theorem nars_survive `{GN : GoNix} {SG : Signing} {CD : Codec} {CH : Chunker} {HA : Hashing} `{!CodecLaws} `{!ChunkerLaws}
    (content : string → string) (cfg : Config) (digest_of : string → string) (upstream : string → option NarInfo)
    (fetch : URL → option stream) (absent : string → bool) (h q : string) (w w' : world) :
  (∀ h, content h ≠ "") → reaches content cfg digest_of upstream fetch absent h q w w' →
  held content cfg h q w → held content cfg h q w'.
Proof. intros Hne Hr Hh. by eapply reaches_held. Qed.

(** C3. An upload, into a world in order, that reports success is kept: after any
    sequence of operations as in the theorem above ([op_ok]: later uploads and downloads
    are honest, deletions and purges are of other NARs, the clean-up meets no other query
    of this hash), each among any faults, a request for the uncompressed NAR that no fault
    disturbs is answered 200 with all of it, in the encoding announced.  The hash has no
    prefix, and without chunking the upload is zstd, xz or uncompressed, the compressions
    that an uncompressed request looks for.
    Nobody else writes to the database during an operation, and NARs are not empty. *)
Theorem uploaded_nar_is_served `{GN : GoNix} {SG : Signing} {CD : Codec} {CH : Chunker} {HA : Hashing} `{!CodecLaws} `{!ChunkerLaws}
    (content : string → string) (cfg : Config) (digest_of : string → string) (upstream : string → option NarInfo)
    (fetch : URL → option stream) (absent : string → bool) (now now' : Z) (uploadOnly : bool) (ae : string)
    (u : URL) (t : stream) (fs : list event) (w w' : world) (s : state) :
  (∀ h, content h ≠ "") → tidy content w → normalized_match (Hash u) = true →
  (isCDCEnabled cfg = false → Compression u ∈ [CompressionTypeZstd; CompressionTypeXz; CompressionTypeNone]) →
  (s_breaks t = false → holds_nar (Compression u) (s_bytes t) (nar_named content (Hash u))) →
  PutNar cfg now digest_of u t (mkState w fs) = (Ok (), s) → Forall idle fs →
  reaches content cfg digest_of upstream fetch absent (Hash u) (encode (Query u)) (st s) w' →
  let none := mkURL (Hash u) CompressionTypeNone (Query u) false "" in
  ∃ resp, (getNar cfg now' uploadOnly upstream fetch true ae none (mkState w' [])).1 = Ok resp ∧
    status resp = 200%Z ∧ s_breaks (body resp) = false ∧ delivers content none resp.
Proof.
  intros Hne Hw Hn Hc Ht Hput Hfs Hr none.
  destruct (wp_PutNar content Hne cfg now digest_of true u t w w) with (s := mkState w fs) as [_ Hpost]; [|done|done|done|].
  { by split; [|apply grows_refl]. }
  rewrite Hput in Hpost. destruct Hpost as [[Hs _] Hm]. specialize (Hm eq_refl). simpl in Hs, Hm.
  assert (held content cfg (Hash u) (encode (Query u)) w') as [Hw' Ha].
  { eapply (reaches_held content Hne); [exact Hr|]. split; [done|]. destruct (isCDCEnabled cfg) eqn:Hcdc.
    - right. split; [by apply andb_true_iff in Hcdc as [_ ?]|done].
    - left. exists (Compression u). split; [by apply Hc|]. rewrite <- Hm. by apply stored_at_same. }
  by destruct (wp_getNar_held content cfg now' upstream fetch uploadOnly ae none w' Hw' eq_refl Hn Ha (mkState w' []) eq_refl eq_refl) as [_ ?].
Qed.

(** With lazy chunking, a download for an uncompressed NAR from the compressed URL of
    the upstream leaves a zstd file that holds the compressed bytes: served as the NAR,
    it decompresses to them. *)
Theorem lazy_download_keeps_compressed_bytes `{GN : GoNix} {SG : Signing} {CD : Codec} {CH : Chunker} {HA : Hashing} `{!CodecLaws}
    (cfg : Config) (now : Z) (digest_of : string → string) (fetch : URL → option stream) (u o : URL) (ni : option NarInfo)
    (t : stream) (p : string) (s : state) :
  script s = [] → isCDCEnabled cfg = true → cdcLazyChunkingEnabled cfg = true → Compression u = CompressionTypeNone →
  fetch o = Some t → s_breaks t = false →
  nar_path (with_compression u CompressionTypeZstd) = Ok p → narStore (st s) !! p = None →
  ∃ x, narStore (st (pullNarIntoStore cfg now digest_of fetch u (Some o) ni s).2) !! p = Some x ∧
    holds_nar CompressionTypeZstd x (s_bytes t).
Proof.
  intros Hs Hcdc Hlazy Hnone Hf Hb Hp Hno. exists (zstd (s_bytes t)). split; [|exact (decode_zstd _)].
  by destruct (wp_lazy_pull cfg now digest_of fetch u o ni t p (st s) Hcdc Hlazy Hnone Hf Hb Hp Hno s eq_refl Hs).
Qed.

(** An uncompressed NAR kept as a compressed file, as downloads keep it, is never
    chunked: [MigrateNarToChunks] for its URL reads the uncompressed file only and
    fails, whatever else happens, and changes nothing; the recovery that finds the file
    starts it again at each run. *)
Theorem uncompressed_file_never_chunked `{GN : GoNix} {SG : Signing} {CD : Codec} {CH : Chunker} {HA : Hashing}
    (cfg : Config) (now : Z) (u : URL) (w : world) (fs : list event) :
  unique_keys (db w) → Forall idle fs → stored_at u w = false → in_chunks cfg u (db w) = false →
  is_ok (MigrateNarToChunks cfg now u (mkState w fs)).1 = false ∧ st (MigrateNarToChunks cfg now u (mkState w fs)).2 = w.
Proof.
  intros Hu Hfs Hst Hch.
  assert (wp true (MigrateNarToChunks cfg now u) (λ r w', is_ok r = false ∧ w' = w) w) as Hwp.
  { unfold MigrateNarToChunks. destruct (isCDCEnabled cfg); [|by apply wp_throw]. simpl.
    apply wp_withNarMigrationLock; [by split|]. apply wp_bind, wp_HasNarInChunks; [done|by split|]. rewrite Hch.
    apply wp_bind, wp_narStore_GetNar; [by split|]. intros p x Hp Hx. exfalso. unfold stored_at in Hst. rewrite Hp in Hst.
    apply bool_decide_eq_false in Hst. apply Hst. by rewrite Hx. }
  by destruct (Hwp (mkState w fs) eq_refl Hfs).
Qed.

(** ** Examples *)

(** A chunker that cuts off each character, digests that are the chunks themselves. *)
Fixpoint letters (b : string) : list string := match b with "" => [] | String c b => String c "" :: letters b end.

#[export] Instance letter_chunker : Chunker := {
  Chunk t := letters (s_bytes t);
  digest := id;
}.

#[export] Instance letter_chunker_laws : ChunkerLaws (H := letter_chunker).
Proof.
  split; [|intros x y; done]. intros b. simpl. induction b as [|c b IH]; [done|]. cbn [letters]. rewrite concat_strings_cons, IH. done.
Qed.

#[export] Instance plain_hashing : Hashing (H := tagged_nix) := { sha256 b := b; Digest h := h }.

Lemma hello_nonempty h : hello_nar h ≠ "".
Proof. done. Qed.

Lemma served_world_tidy : tidy hello_nar served_world.
Proof.
  destruct served_world_sound as [Hd Hf Hc]. split; [split|exact Hf|exact Hc]; [exact Hd|].
  intros f nf Hnf. simpl in Hnf. apply lookup_singleton_Some in Hnf as [<- <-]. split; [done|]. split; [done|]. intros _.
  split; [done|]. repeat (apply Forall_cons; split; [by eexists|]). by apply Forall_nil.
Qed.

(** Its narinfo names the NAR's digest. *)
Definition hello_row : narinfo_row :=
  mkRow hello_hash (Some (StorePath hello)) (Some ("nar/" +:+ sample_hash +:+ ".nar")) None (Some "none") None None (Some "hnix-archive-1") None
    None None None None.
Definition known_tables : tables := mkTables {[0%Z := hello_row]} [] [] ∅ [] ∅.
Definition known_world : world (H := tagged_nix) := mkWorld known_tables ∅ ∅ ∅ ∅ ∅ ∅ [].

Lemma known_world_tidy : tidy hello_nar known_world.
Proof.
  split; [split; [split; [split|..]|]|..].
  - intros i j x y Hi Hj _. simpl in *. apply lookup_singleton_Some in Hi as [<- _], Hj as [<- _]. done.
  - intros i j x y h c q Hx. simpl in Hx. by rewrite lookup_empty in Hx.
  - intros f nf Hf. simpl in Hf. by rewrite lookup_empty in Hf.
  - intros f [l Hl]. simpl in Hl. by rewrite lookup_empty in Hl.
  - intros f nf Hf. simpl in Hf. by rewrite lookup_empty in Hf.
  - intros u p b _ Hb. simpl in Hb. by rewrite lookup_empty in Hb.
  - apply map_Forall_empty.
Qed.


(** Operations with their times and faults. *)
Definition after_op (w : world) (x : Z * nar_op * list event) : world :=
  st (run_nar_op eager_config (λ b, b) (λ _, None) (λ _, None) (λ _, true) x.1.1 x.1.2 (mkState w x.2)).2.

Lemma reaches_after h q l w :
  Forall (λ x, (∀ w, op_ok hello_nar eager_config (λ _, None) h q x.1.1 x.1.2 w) ∧ Forall idle x.2) l →
  reaches hello_nar eager_config (λ b, b) (λ _, None) (λ _, None) (λ _, true) h q w (foldl after_op w l).
Proof.
  revert w. induction l as [|[[now op] fs] l IH]; intros w; [constructor|]. intros [[Hok Hfs] Hl]%Forall_cons.
  by eapply reach_op; [apply Hok|exact Hfs|apply IH].
Qed.

Lemma idle_events fs : forallb (λ e, match e with EvTx _ => false | _ => true end) fs = true → Forall idle fs.
Proof.
  induction fs as [|e fs IH]; [constructor|]. simpl. intros [He Hfs]%andb_true_iff. constructor; [by destruct e|auto].
Qed.

Definition other_nar : URL := mkURL "07kc6swib31psygpmwi8952lvywlpqn474059yxl7grwsvr6k0fj" CompressionTypeNone ∅ false "".
Definition hello_xz : URL := with_compression hello_none CompressionTypeXz.

(** The chunks' row makes the migration delete the file; another NAR is deleted. *)
Definition history : list (Z * nar_op * list event) :=
  [(10%Z, OpMigrateToChunks (with_compression hello_none CompressionTypeZstd), [EvOk; EvOk; EvFault; EvOk]);
   (11%Z, OpDelete other_nar, []); (12%Z, OpRecover 1 0 5, [EvFault])].

Lemma about_hello u : Hash u = sample_hash → encode (Query u) = "" → about sample_hash "" u.
Proof. intros Hu Hq _. by split. Qed.

Lemma nars_survive_witness :
  held hello_nar eager_config sample_hash "" (foldl after_op served_world history) ∧
  bool_decide (narStore (foldl after_op served_world history) = ∅) = true.
Proof.
  split; [|vm_compute; reflexivity].
  apply (nars_survive hello_nar eager_config (λ b, b) (λ _, None) (λ _, None) (λ _, true) sample_hash "" served_world).
  - exact hello_nonempty.
  - apply reaches_after. repeat (apply Forall_cons; split; [split; [intros w|apply idle_events; reflexivity]|]); [..|by apply Forall_nil].
    + by apply about_hello.
    + left. vm_compute. discriminate.
    + exact I.
  - split; [exact served_world_tidy|]. right. split; [reflexivity|].
    eexists 0%Z, _. split; [reflexivity|]. done.
Defined.

(** Uploaded as xz, a failing migration to a file, one that succeeds, and back. *)
Definition uploaded : result cache_err () * state :=
  PutNar eager_config 9 (λ b, b) hello_xz (plain_stream "Xnix-archive-1") (mkState known_world [EvOk; EvOk]).
Lemma uploaded_ok : uploaded.1 = Ok ().
Proof. vm_compute. reflexivity. Qed.

Lemma of_first {A B} (x : A * B) a : x.1 = a → x = (a, x.2).
Proof. by destruct x as [? ?]; intros <-. Qed.

Definition back_and_forth : list (Z * nar_op * list event) :=
  [(10%Z, OpMigrateToFile hello_none true, [EvOk; EvOk; EvOk; EvFault]); (11%Z, OpMigrateToFile hello_none true, []);
   (12%Z, OpMigrateToChunks hello_none, [])].

Lemma uploaded_nar_is_served_witness :
  ∃ resp, (getNar eager_config 13 true (λ _, None) (λ _, None) true "br" hello_none
      (mkState (foldl after_op (st uploaded.2) back_and_forth) [])).1 = Ok resp ∧
    body resp = plain_stream "Bnix-archive-1" ∧ delivers hello_nar hello_none resp.
Proof.
  destruct (uploaded_nar_is_served hello_nar eager_config (λ b, b) (λ _, None) (λ _, None) (λ _, true) 9 13 true "br" hello_xz
    (plain_stream "Xnix-archive-1") [EvOk; EvOk] known_world (foldl after_op (st uploaded.2) back_and_forth) uploaded.2)
    as (resp & Hr & _ & _ & Hd).
  - exact hello_nonempty.
  - exact known_world_tidy.
  - vm_compute. reflexivity.
  - intros H. discriminate H.
  - vm_compute. reflexivity.
  - exact (of_first uploaded (Ok ()) uploaded_ok).
  - apply idle_events. reflexivity.
  - apply reaches_after. repeat (apply Forall_cons; split; [split; [intros w|apply idle_events; reflexivity]|]); [..|by apply Forall_nil].
    + exact I.
    + exact I.
    + by apply about_hello.
  - exists resp. split; [exact Hr|]. split; [|exact Hd]. vm_compute in Hr. by injection Hr as <-.
Defined.

Definition lazy_config : Config := mkConfig true true true false "ncps" false false 100 false.

Lemma lazy_download_keeps_compressed_bytes_witness :
  ∃ x, narStore (st (pullNarIntoStore lazy_config 9 (λ b, b) hello_fetch hello_none (Some hello_xz) (Some hello) (mkState known_world [])).2)
      !! hello_zst_path = Some x ∧ holds_nar CompressionTypeZstd x "Xnix-archive-1".
Proof.
  apply (lazy_download_keeps_compressed_bytes lazy_config 9 (λ b, b) hello_fetch hello_none hello_xz (Some hello)
    (plain_stream "Xnix-archive-1") hello_zst_path (mkState known_world [])); try reflexivity.
Defined.

(** The file that the download leaves. *)
Definition lazy_world : world (H := tagged_nix) := mkWorld known_tables ∅ {[hello_zst_path := "ZXnix-archive-1"]} ∅ ∅ ∅ ∅ [].

Lemma uncompressed_file_never_chunked_witness :
  (MigrateNarToChunks lazy_config 9 hello_none (mkState lazy_world [EvOk; EvOk])).1 = Err ENotFound ∧
  in_store hello_none lazy_world = true ∧ st (MigrateNarToChunks lazy_config 9 hello_none (mkState lazy_world [EvOk; EvOk])).2 = lazy_world.
Proof.
  destruct (uncompressed_file_never_chunked lazy_config 9 hello_none lazy_world [EvOk; EvOk]) as [_ Hw].
  - exact (st_unique _ _ _ (tt_sound _ _ _ (ty_tables _ _ known_world_tidy))).
  - apply idle_events. reflexivity.
  - vm_compute. reflexivity.
  - vm_compute. reflexivity.
  - split; [vm_compute; reflexivity|]. split; [vm_compute; reflexivity|exact Hw].
Defined.
