(* ===== verification/Fsck.v ===== *)
(** * Consistency checks and repairs ([pkg/ncps/fsck.go], [pkg/ncps/fsck_chunked_residue.go])

    [ncps fsck] compares the database with the stores in three phases: it collects
    suspects, looks at each of them again, and repairs what is left; a janitor of chunked
    NARs that cannot be restored runs beside them.  The world is [NarInfoCache]'s with the
    columns and the table only these commands use; faults are the same events.  One
    command runs at a time here, and its progress reports and logs are left out. *)
From Stdlib Require Ascii.
From stdpp Require Import sorting.
From S2P Require Import Download.
From S2P Require Import Prelude GoStd Nar Tx NarInfoDB NarInfoCache NarServe NarStore.

Inductive fsck_err :=
  | ErrFsckIssuesFound
  | FsckErr (e : cache_err).

(** ** The world of a run *)

(** The cache's world; the rows of the [chunks] table; the times in the [nar_files]
    columns [verified_at], [dechunk_residue_flagged_at] and [chunking_started_at], the
    last one of use where the row says it is set. *)
Record fworld `{GoNix} := mkFworld {
  base_world : world;
  chunk_rows : gmap Z string;
  verified_at : gmap Z Z;
  residue_flagged_at : gmap Z Z;
  chunking_times : gmap Z Z;
}.
Arguments mkFworld {_}.

Record fstate `{GoNix} := mkFstate {
  fst_world : fworld;
  fst_script : list event;
}.
Arguments mkFstate {_}.

#[export] Instance fstate_faulty `{GoNix} : Faulty fstate fworld := {
  view := fst_world;
  calm b s := if b then Forall idle (fst_script s) else fst_script s = [];
}.

Section fworld.
Context `{GoNix}.
Notation FM := (eff fstate fsck_err).

Definition fdb (w : fworld) : tables := db (base_world w).
Definition set_base (v : world) (w : fworld) : fworld :=
  mkFworld v (chunk_rows w) (verified_at w) (residue_flagged_at w) (chunking_times w).
Definition set_fdb (d : tables) (w : fworld) : fworld := set_base (set_db d (base_world w)) w.
Definition set_chunk_rows (c : gmap Z string) (w : fworld) : fworld :=
  mkFworld (base_world w) c (verified_at w) (residue_flagged_at w) (chunking_times w).
Definition set_verified (f now : Z) (w : fworld) : fworld :=
  mkFworld (base_world w) (chunk_rows w) (<[f := now]> (verified_at w)) (residue_flagged_at w) (chunking_times w).
Definition set_residue_flags (m : gmap Z Z) (w : fworld) : fworld :=
  mkFworld (base_world w) (chunk_rows w) (verified_at w) m (chunking_times w).

Definition fnext (s : fstate) : event := default EvOk (head (fst_script s)).
Definition fput (w : fworld) (s : fstate) : fstate := mkFstate w (tail (fst_script s)).

(** A query, or a store's look-up. *)
Definition reads {A} (e : cache_err) (q : fworld → A) : FM A := λ s,
  match fnext s with
  | EvFault | EvLate => (Err (FsckErr e), fput (fst_world s) s)
  | _ => (Ok (q (fst_world s)), fput (fst_world s) s)
  end.

(** A check that answers "no" on a fault. *)
Definition sees (q : fworld → bool) : FM bool := λ s,
  match fnext s with
  | EvFault | EvLate => (Ok false, fput (fst_world s) s)
  | _ => (Ok (q (fst_world s)), fput (fst_world s) s)
  end.

(** A statement, or a store's change; it may refuse, or fail before or after its effect. *)
Definition writes_or (e : cache_err) (g : fworld → option fworld) : FM () := λ s,
  match g (fst_world s), fnext s with
  | Some w, EvFault => (Err (FsckErr e), fput (fst_world s) s)
  | Some w, EvLate => (Err (FsckErr e), fput w s)
  | Some w, _ => (Ok (), fput w s)
  | None, _ => (Err (FsckErr e), fput (fst_world s) s)
  end.
Definition writes (e : cache_err) (g : fworld → fworld) : FM () := writes_or e (λ w, Some (g w)).

(** A statement with what it returns. *)
Definition writes_ret {A} (e : cache_err) (q : fworld → A) (g : fworld → fworld) : FM A := λ s,
  let a := q (fst_world s) in
  let '(r, s') := writes e g s in ((λ _, a) <$> r, s').

(** The chunks' rows follow their files: the cache deletes both. *)
Definition follow_chunks (before after : gmap string string) (rows : gmap Z string) : gmap Z string :=
  filter (λ x, ¬ (is_Some (before !! x.2) ∧ after !! x.2 = None)) rows.

(** A call of the cache on the same database and stores. *)
Definition cache_call {A} (m : eff state cache_err A) : FM A := λ s,
  let w := fst_world s in
  let '(r, s') := m (mkState (base_world w) (fst_script s)) in
  (map_err FsckErr r,
   mkFstate (set_chunk_rows (follow_chunks (chunkFiles (base_world w)) (chunkFiles (st s')) (chunk_rows w)) (set_base (st s') w))
     (script s')).

Definition edb : cache_err := EDb (Fault OtherFault).

(** [for _, x := range l] *)
Fixpoint for_each {A} (f : A → FM ()) (l : list A) : FM () :=
  match l with [] => mret () | x :: l => _ ← f x; for_each f l end.

(** The elements a check answers "yes" for. *)
Fixpoint keep_if {A} (f : A → FM bool) (l : list A) : FM (list A) :=
  match l with
  | [] => mret []
  | x :: l => b ← f x; rest ← keep_if f l; mret (if b : bool then x :: rest else rest)
  end.

(** A failure is logged. *)
Definition logged (m : FM ()) : FM () := _ ← try (E' := fsck_err) m; mret ().

(** ** Paging *)

Definition fsckEagerLoadBatchSize : nat := 1000.

(** [WHERE id > lastID ORDER BY id LIMIT batch] *)
Definition page_after {A} (lastID : Z) (rows : list (Z * A)) : list (Z * A) :=
  take fsckEagerLoadBatchSize (merge_sort by_id (filter (λ x, lastID < x.1)%Z rows)).

(** A page at a time until one is short; the fuel is the number of pages. *)
Fixpoint scan {A B} (fuel : nat) (rows : fworld → list (Z * A)) (body : list (Z * A) → FM (list B)) (lastID : Z) : FM (list B) :=
  match fuel with
  | O => mret []
  | S fuel =>
      page ← reads edb (λ w, page_after lastID (rows w));
      match last page with
      | None => mret []
      | Some x =>
          out ← body page;
          if length page <? fsckEagerLoadBatchSize then mret out else
          rest ← scan fuel rows body x.1;
          mret (out ++ rest)
      end
  end.

(** No more pages than rows, and one. *)
Definition scan_all {A B} (rows : fworld → list (Z * A)) (body : list (Z * A) → FM (list B)) : FM (list B) := λ s,
  scan (S (length (rows (fst_world s)))) rows body 0%Z s.

(** ** Rows *)

Definition unlinked_narinfos (d : tables) : list (Z * narinfo_row) :=
  filter (λ x, x.1 ∉ (links d).*1) (map_to_list (narinfos d)).
Definition unlinked_nar_files (d : tables) : list (Z * nar_file) :=
  filter (λ x, x.1 ∉ (links d).*2) (map_to_list (nar_files d)).
Definition unlinked_chunks (w : fworld) : list (Z * string) :=
  filter (λ x, chunk_linked x.2 (fdb w) = false) (map_to_list (chunk_rows w)).
Definition chunk_row_exists (h : string) (w : fworld) : bool := bool_decide (map_Exists (λ _ h', h' = h) (chunk_rows w)).
Definition nar_file_exists (h c q : string) (d : tables) : bool := negb (bool_decide (nar_files_where h c q d = [])).

(** Is a row with the key linked to a narinfo? *)
Definition key_linked (h c q : string) (d : tables) : bool :=
  existsb (λ x, bool_decide (is_Some (narinfos d !! x.1)) &&
    match nar_files d !! x.2 with Some nf => bool_decide (has_key h c q nf) | None => false end) (links d).

Definition narinfo_linked (i : Z) (d : tables) : bool := bool_decide (i ∈ (links d).*1).

(** [DeleteOneID] of a narinfo, with what cascades. *)
Definition delete_narinfo (i : Z) (d : tables) : tables :=
  mkTables (delete i (narinfos d)) (filter (λ x, x.1 ≠ i) (references d)) (filter (λ x, x.1 ≠ i) (signatures d)) (nar_files d)
    (filter (λ x, x.1 ≠ i) (links d)) (nar_file_chunks d).

Definition delete_row (nf : nar_file) (d : tables) : tables := delete_nar_files_where (nf_hash nf) (nf_compression nf) (nf_query nf) d.

Definition update_file_row (f : Z) (g : fworld → fworld) (w : fworld) : option fworld :=
  match nar_files (fdb w) !! f with Some _ => Some (g w) | None => None end.

(** [narFileRowToURL] *)
Definition narFileRowToURL (h c q : string) : result fsck_err URL :=
  parsedQuery ← map_err (λ _, FsckErr EInvalid) (parse_query q);
  Ok (mkURL h c parsedQuery false "").

Definition row_url (nf : nar_file) : result fsck_err URL := narFileRowToURL (nf_hash nf) (nf_compression nf) (nf_query nf).

(** [URL.String], whose panic aborts the run. *)
Definition fsck_url_string (u : URL) : result fsck_err string := map_err FsckErr (url_string u).

(** [WalkNars]: the files whose names are NARs'. *)
Definition walked_nars (w : fworld) : list URL :=
  omap (λ x, match ParseURL (base x.1) with Ok u => Some u | Err _ => None end) (map_to_list (narStore (base_world w))).

(** The store's [HasNar] and [DeleteNar]; the latter fails when there is no file. *)
Definition fsck_HasNar (u : URL) : FM bool :=
  match nar_path u with
  | Err _ => mret false
  | Ok p => sees (λ w, bool_decide (is_Some (narStore (base_world w) !! p)))
  end.
Definition fsck_DeleteNar (u : URL) : FM () :=
  match nar_path u with
  | Err _ => throw (FsckErr EInvalid)
  | Ok p => writes_or EStore (λ w,
      if bool_decide (is_Some (narStore (base_world w) !! p))
      then Some (set_base (set_narStore (delete p (narStore (base_world w))) (base_world w)) w) else None)
  end.
Definition fsck_DeleteChunk (h : string) : FM () :=
  writes_or EStore (λ w,
    if bool_decide (is_Some (chunkFiles (base_world w) !! h))
    then Some (set_base (set_chunkFiles (delete h (chunkFiles (base_world w))) (base_world w)) w) else None).
End fworld.

Section fsck.
Context `{GN : GoNix} {SG : Signing} {CD : Codec} {CH : Chunker} {HA : Hashing}.

(** The time of the run, and the cache [createCache] makes for the janitor. *)
Context (now : Z) (cfg : Config).
Notation FM := (eff fstate fsck_err).
Notation file_rows := (list (Z * nar_file)).

(** ** Results *)

Record fsckResults := mkResults {
  narinfosWithoutNarFiles : list (Z * narinfo_row);
  orphanedNarFilesInDB : file_rows;
  narFilesMissingInStorage : file_rows;
  orphanedNarFilesInStorage : list URL;
  cdcMode : bool;
  orphanedChunksInDB : list (Z * string);
  narFilesWithChunkIssues : file_rows;
  narFilesWithSizeMismatch : file_rows;
  orphanedChunksInStorage : list string;
  verifyContent : bool;
  narFilesWithCorruptChunks : file_rows;
  narFilesWithHashMismatch : file_rows;
  recoverableChunkedNarFiles : file_rows;
  reclaimableChunkedResidue : file_rows;
}.

Definition totalIssues (r : fsckResults) : nat :=
  length (narinfosWithoutNarFiles r) + length (orphanedNarFilesInDB r) + length (narFilesMissingInStorage r) +
  length (orphanedNarFilesInStorage r) + length (orphanedChunksInDB r) + length (narFilesWithChunkIssues r) +
  length (narFilesWithSizeMismatch r) + length (orphanedChunksInStorage r) + length (narFilesWithCorruptChunks r) +
  length (narFilesWithHashMismatch r) + length (recoverableChunkedNarFiles r) + length (reclaimableChunkedResidue r).

(** ** Which checks run *)

Inductive cdcModeReason := cdcModeOff | cdcModeFromConfig | cdcModeFromChunkedNarFiles | cdcModeFromChunkResidue.

Definition enabled (r : cdcModeReason) : bool := match r with cdcModeOff => false | _ => true end.

(** The stored [cdc_enabled] entry; a query that fails counts as an absent signal. *)
Definition detectFsckCDCMode (cdc_enabled : option string) : FM cdcModeReason :=
  cdcConfig ← try (E' := fsck_err) (reads edb (λ _, cdc_enabled));
  match cdcConfig with
  | Ok (Some "true") => mret cdcModeFromConfig
  | _ =>
      hasChunked ← sees (λ w, bool_decide (map_Exists (λ _ nf, 0 < nf_total_chunks nf)%Z (nar_files (fdb w))));
      if hasChunked : bool then mret cdcModeFromChunkedNarFiles else
      hasResidue ← sees (λ w, negb (bool_decide (chunk_rows w = ∅)));
      mret (if hasResidue : bool then cdcModeFromChunkResidue else cdcModeOff)
  end.

Inductive fsckCheckActivation := fsckCheckAlways | fsckCheckCDC | fsckCheckVerifyContent.

Definition active (a : fsckCheckActivation) (cdcMode verifyContent : bool) : bool :=
  match a with
  | fsckCheckCDC => cdcMode
  | fsckCheckVerifyContent => cdcMode && verifyContent
  | fsckCheckAlways => true
  end.

Definition fsckPhase1Checks : list (string * fsckCheckActivation) :=
  [("1a", fsckCheckAlways); ("1b", fsckCheckAlways); ("1c", fsckCheckAlways); ("1d", fsckCheckAlways);
   ("1e", fsckCheckCDC); ("1f", fsckCheckCDC); ("1g", fsckCheckCDC); ("1h", fsckCheckCDC);
   ("1i", fsckCheckVerifyContent); ("1j", fsckCheckVerifyContent)].

Definition activeFsckPhase1Checks (cdcMode verifyContent : bool) : list (string * fsckCheckActivation) :=
  filter (λ c, active c.2 cdcMode verifyContent = true) fsckPhase1Checks.

Inductive fsckRunMode := fsckModeReport | fsckModeDryRun | fsckModeRepair.

Definition fsckRunModeOf (dryRun repair : bool) : fsckRunMode :=
  if dryRun then fsckModeDryRun else if repair then fsckModeRepair else fsckModeReport.

(** On the row as it was read, with the [verified_at] of that time. *)
Definition shouldCheckNar (seen : gmap Z Z) (verifiedSince f : Z) : bool :=
  if (verifiedSince <=? 0)%Z then true else
  match seen !! f with None => true | Some t => (verifiedSince <? now - t)%Z end.

(** ** A chunked NAR's chunks *)

(** The pages of [chunksForNarFile], from the chunk index [from]. *)
Fixpoint chunk_pages (fuel : nat) (f : Z) (from : nat) : FM (list string) :=
  match fuel with
  | O => mret []
  | S fuel =>
      links ← reads edb (λ w, take fsckEagerLoadBatchSize (drop from (links_of f (fdb w))));
      if bool_decide (links = []) then mret [] else
      chunks ← reads edb (λ w, filter (λ h, chunk_row_exists h w = true) links);
      if length links <? fsckEagerLoadBatchSize then mret chunks else
      rest ← chunk_pages fuel f (from + length links);
      mret (chunks ++ rest)
  end.

(** No more pages than links, and one. *)
Definition chunksForNarFile (f : Z) : FM (list string) := λ s,
  chunk_pages (S (length (links_of f (fdb (fst_world s))))) f 0 s.

Fixpoint some_missing (chunks : list string) : FM bool :=
  match chunks with
  | [] => mret false
  | h :: chunks =>
      exist ← reads EStore (λ w, bool_decide (is_Some (chunkFiles (base_world w) !! h)));
      if negb exist then mret true else some_missing chunks
  end.

Definition isNarFileChunkBroken (x : Z * nar_file) : FM bool :=
  chunks ← chunksForNarFile x.1;
  if negb (bool_decide (Z.of_nat (length chunks) = nf_total_chunks x.2)) then mret true else some_missing chunks.

(** [GetChunk], read to its end. *)
Definition fsck_GetChunk (h : string) : FM string :=
  o ← reads EStore (λ w, chunkFiles (base_world w) !! h);
  lift (of_option (FsckErr ENotFound) o).

Fixpoint some_corrupt (chunks : list string) : FM bool :=
  match chunks with
  | [] => mret false
  | h :: chunks =>
      b ← fsck_GetChunk h;
      if negb (bool_decide (digest b = h)) then mret true else some_corrupt chunks
  end.

Definition isNarFileContentCorrupt (x : Z * nar_file) : FM bool := chunks ← chunksForNarFile x.1; some_corrupt chunks.

Fixpoint assemble (chunks : list string) : FM string :=
  match chunks with
  | [] => mret ""
  | h :: chunks => b ← fsck_GetChunk h; rest ← assemble chunks; mret (b +:+ rest)
  end.

(** The first of the row's narinfos. *)
Definition isNarFileHashMismatched (x : Z * nar_file) : FM bool :=
  ni ← reads edb (λ w, head (filter (λ y, (y.1, x.1) ∈ links (fdb w)) (map_to_list (narinfos (fdb w)))));
  match ni with
  | None => mret false
  | Some (_, ni) =>
      expected ← lift (map_err FsckErr (parse_nar_hash (r_nar_hash ni)));
      match expected with
      | None => mret false
      | Some expectedHash =>
          chunks ← chunksForNarFile x.1;
          b ← assemble chunks;
          mret (negb (bool_decide (sha256 b = Digest expectedHash)))
      end
  end.

(** [int64(v)] of a [uint64]. *)
Definition to_int64 (v : Z) : Z := ((v + 2 ^ 63) `mod` 2 ^ 64 - 2 ^ 63)%Z.

Definition size_mismatch (links : list (Z * option narinfo_row)) (nf : nar_file) : bool :=
  existsb (λ l, match l.2 with
    | Some ni => match r_nar_size ni with Some z => negb (bool_decide (to_int64 (nf_file_size nf) = z)) | None => false end
    | None => false
    end) links.

(** The links of a row with their narinfos. *)
Definition links_with_narinfo (f : Z) (d : tables) : list (Z * option narinfo_row) :=
  (λ l, (l.1, narinfos d !! l.1)) <$> filter (λ l, l.2 = f) (links d).

Definition chunked_rows (w : fworld) : file_rows := filter (λ x, 0 < nf_total_chunks x.2)%Z (map_to_list (nar_files (fdb w))).

Definition queryCDCNarFilesWithSizeMismatch : FM file_rows :=
  scan_all chunked_rows (λ page,
    reads edb (λ w, filter (λ x, size_mismatch (links_with_narinfo x.1 (fdb w)) x.2 = true) page)).

(** ** Phase 1 *)

(** A file found is stamped; a stamp that fails is logged. *)
Definition stamp (f : Z) : FM () := logged (writes_or edb (update_file_row f (set_verified f now))).

(** Is the whole file of a row absent from the walk? *)
Definition missing_from (present : list string) (x : Z * nar_file) : FM bool :=
  narURL ← lift (row_url x.2);
  url ← lift (fsck_url_string narURL);
  if bool_decide (url ∈ present) then _ ← stamp x.1; mret false else mret true.

Definition no_row_for (u : URL) : FM bool :=
  exist ← reads edb (λ w, nar_file_exists (Hash u) (Compression u) (encode (Query u)) (fdb w));
  mret (negb exist).

Definition no_chunk_row_for (h : string) : FM bool :=
  exist ← reads edb (λ w, chunk_row_exists h w); mret (negb exist).

Definition collectNarFilesWithChunkIssues (eligible : file_rows) : FM file_rows := keep_if isNarFileChunkBroken eligible.

Definition collectOrphanedChunksInStorage : FM (list string) :=
  walked ← reads EStore (λ w, (map_to_list (chunkFiles (base_world w))).*1);
  keep_if no_chunk_row_for walked.

Definition collectNarFilesWithCorruptChunks (eligible : file_rows) (chunkIssueIDs : list Z) : FM file_rows :=
  keep_if isNarFileContentCorrupt (filter (λ x, x.1 ∉ chunkIssueIDs) eligible).

Definition collectNarFilesWithHashMismatch (eligible : file_rows) (chunkIssueIDs corruptByID : list Z) : FM file_rows :=
  keep_if isNarFileHashMismatched (filter (λ x, x.1 ∉ chunkIssueIDs ∧ x.1 ∉ corruptByID) eligible).

(** The checks that always run, with the rows read and what they say of when they were
    verified. *)
Definition collect_always (verifiedSince : Z) (cdc verify : bool) : FM (fsckResults * file_rows * gmap Z Z) :=
  narinfosWithout ← reads edb (λ w, unlinked_narinfos (fdb w));
  orphanedNarFiles ← reads edb (λ w, unlinked_nar_files (fdb w));
  '(allNarFiles, seen) ← reads edb (λ w, (map_to_list (nar_files (fdb w)), verified_at w));
  walked ← reads EStore walked_nars;
  present ← lift (mapM fsck_url_string walked);
  missing ← keep_if (missing_from present)
    (filter (λ x, (nf_total_chunks x.2 <= 0)%Z ∧ shouldCheckNar seen verifiedSince x.1 = true) allNarFiles);
  walked ← reads EStore walked_nars;
  orphanedInStorage ← keep_if no_row_for walked;
  mret (mkResults narinfosWithout orphanedNarFiles missing orphanedInStorage cdc [] [] [] [] verify [] [] [] [], allNarFiles, seen).

Definition collectFsckSuspects (cdc : bool) (verifiedSince : Z) (verify : bool) : FM fsckResults :=
  '(r, allNarFiles, seen) ← collect_always verifiedSince cdc verify;
  if negb cdc then mret r else
  orphanedChunks ← reads edb unlinked_chunks;
  let eligible := filter (λ x, (0 < nf_total_chunks x.2)%Z ∧ shouldCheckNar seen verifiedSince x.1 = true) allNarFiles in
  chunkIssues ← collectNarFilesWithChunkIssues eligible;
  mismatch ← queryCDCNarFilesWithSizeMismatch;
  let sizeMismatch := filter (λ x, x.1 ∈ eligible.*1) mismatch in
  _ ← for_each stamp (filter (λ f, f ∉ chunkIssues.*1 ∧ f ∉ sizeMismatch.*1) eligible.*1);
  orphaned ← collectOrphanedChunksInStorage;
  let r' corrupt hashMismatch :=
    mkResults (narinfosWithoutNarFiles r) (orphanedNarFilesInDB r) (narFilesMissingInStorage r) (orphanedNarFilesInStorage r)
      cdc orphanedChunks chunkIssues sizeMismatch orphaned verify corrupt hashMismatch [] [] in
  if negb verify then mret (r' [] []) else
  corrupt ← collectNarFilesWithCorruptChunks eligible chunkIssues.*1;
  hashMismatch ← collectNarFilesWithHashMismatch eligible chunkIssues.*1 corrupt.*1;
  mret (r' corrupt hashMismatch).

(** ** Phase 2 *)

Definition narinfo_still_unlinked (x : Z * narinfo_row) : FM bool :=
  hasNarFile ← reads edb (λ w, narinfo_linked x.1 (fdb w)); mret (negb hasNarFile).

Definition file_still_unlinked (x : Z * nar_file) : FM bool :=
  hasLink ← reads edb (λ w, key_linked (nf_hash x.2) (nf_compression x.2) (nf_query x.2) (fdb w)); mret (negb hasLink).

Definition file_still_missing (x : Z * nar_file) : FM bool :=
  narURL ← lift (row_url x.2); present ← fsck_HasNar narURL; mret (negb present).

Definition reVerifyFsckSuspects (s : fsckResults) : FM fsckResults :=
  narinfosWithout ← keep_if narinfo_still_unlinked (narinfosWithoutNarFiles s);
  orphanedNarFiles ← keep_if file_still_unlinked (orphanedNarFilesInDB s);
  missing ← keep_if file_still_missing (narFilesMissingInStorage s);
  orphanedInStorage ← keep_if no_row_for (orphanedNarFilesInStorage s);
  let r c ci sm oc cc hm :=
    mkResults narinfosWithout orphanedNarFiles missing orphanedInStorage (cdcMode s) c ci sm oc (verifyContent s) cc hm [] [] in
  if negb (cdcMode s) then mret (r [] [] [] [] [] []) else
  recheckedMap ← reads edb (λ w, (unlinked_chunks w).*1);
  let orphanedChunks := filter (λ x, x.1 ∈ recheckedMap) (orphanedChunksInDB s) in
  chunkIssues ← keep_if isNarFileChunkBroken (narFilesWithChunkIssues s);
  recheckMismatch ← queryCDCNarFilesWithSizeMismatch;
  let sizeMismatch := filter (λ x, x.1 ∈ recheckMismatch.*1) (narFilesWithSizeMismatch s) in
  orphaned ← keep_if no_chunk_row_for (orphanedChunksInStorage s);
  if negb (verifyContent s) then mret (r orphanedChunks chunkIssues sizeMismatch orphaned [] []) else
  corrupt ← keep_if isNarFileContentCorrupt (narFilesWithCorruptChunks s);
  hashMismatch ← keep_if isNarFileHashMismatched (narFilesWithHashMismatch s);
  mret (r orphanedChunks chunkIssues sizeMismatch orphaned corrupt hashMismatch).

(** ** Phase 3 *)

(** [First] of a query on the rows. *)
Definition first_row {A} (rows : fworld → list (Z * A)) : FM (option (Z * A)) := reads edb (λ w, head (rows w)).

Definition create_link (i f : Z) : FM () :=
  writes_or edb (λ w,
    if bool_decide (is_Some (narinfos (fdb w) !! i) ∧ is_Some (nar_files (fdb w) !! f))
    then Some (set_fdb (add_link i f (fdb w)) w) else None).

Definition relinkNarInfoToBackingNarFile (x : Z * narinfo_row) : FM bool :=
  if is_empty (r_url x.2) then mret false else
  match ParseURL (derefStringPtr (r_url x.2)) with
  | Err _ => mret false
  | Ok u =>
      o ← first_row (λ w, nar_files_where (Hash u) (Compression u) (encode (Query u)) (fdb w));
      o ← (match o with
           | Some _ => mret o
           | None => first_row (λ w, filter (λ y, nf_hash y.2 = Hash u ∧ nf_query y.2 = encode (Query u)) (map_to_list (nar_files (fdb w))))
           end);
      match o with
      | None => mret false
      | Some (f, _) => _ ← create_link x.1 f; mret true
      end
  end.

Definition delete_narinfo_row (i : Z) : FM () := logged (writes edb (λ w, set_fdb (delete_narinfo i (fdb w)) w)).
Definition delete_file_rows (nf : nar_file) : FM () := logged (writes edb (λ w, set_fdb (delete_row nf (fdb w)) w)).

Definition repair_narinfo (x : Z * narinfo_row) : FM () :=
  unlinked ← narinfo_still_unlinked x;
  if negb unlinked then mret () else
  relinked ← relinkNarInfoToBackingNarFile x;
  if relinked : bool then mret () else delete_narinfo_row x.1.

Definition repair_unlinked_file (x : Z * nar_file) : FM () :=
  unlinked ← file_still_unlinked x; if unlinked : bool then delete_file_rows x.2 else mret ().

Definition repair_missing_file (x : Z * nar_file) : FM () :=
  missing ← file_still_missing x; if missing : bool then delete_file_rows x.2 else mret ().

Definition unlinked_ids : FM (list Z) := reads edb (λ w, (unlinked_narinfos (fdb w)).*1).

(** The narinfos a deletion has orphaned. *)
Definition sweep_new_orphans (existingOrphanIDs : list Z) : FM () :=
  newOrphans ← unlinked_ids;
  for_each delete_narinfo_row (filter (λ i, i ∉ existingOrphanIDs) newOrphans).

Definition repair_orphaned_nar (u : URL) : FM () :=
  orphaned ← no_row_for u; if orphaned : bool then logged (fsck_DeleteNar u) else mret ().

(** [DeleteOneID] of a chunk that has no links. *)
Definition delete_chunk_row (i : Z) : FM () :=
  logged (writes_or edb (λ w,
    if bool_decide (is_Some (chunk_rows w !! i)) then Some (set_chunk_rows (delete i (chunk_rows w)) w) else None)).

Definition sweep_orphaned_chunks : FM () :=
  orphanedChunks ← reads edb unlinked_chunks;
  for_each (λ c, _ ← logged (fsck_DeleteChunk c.2); delete_chunk_row c.1) orphanedChunks.

Definition repairCDCNarFiles (narFiles : file_rows) (reVerifyFn : Z * nar_file → FM bool) : FM () :=
  preExistingOrphanIDs ← unlinked_ids;
  _ ← for_each (λ x, broken ← reVerifyFn x; if broken : bool then delete_file_rows x.2 else mret ()) narFiles;
  _ ← sweep_new_orphans preExistingOrphanIDs;
  sweep_orphaned_chunks.

Definition repairBrokenCDCNarFiles (narFiles : file_rows) : FM () := repairCDCNarFiles narFiles isNarFileChunkBroken.

Definition repairSizeMismatchCDCNarFiles (narFiles : file_rows) : FM () :=
  if bool_decide (narFiles = []) then mret () else
  preExistingOrphanIDs ← unlinked_ids;
  recheckMismatch ← queryCDCNarFilesWithSizeMismatch;
  _ ← for_each (λ x, if bool_decide (x.1 ∈ recheckMismatch.*1) then delete_file_rows x.2 else mret ()) narFiles;
  _ ← sweep_new_orphans preExistingOrphanIDs;
  sweep_orphaned_chunks.

(** A dechunked row that is not being chunked. *)
Definition dechunked (f : Z) (d : tables) : bool :=
  match nar_files d !! f with Some nf => (nf_total_chunks nf <=? 0)%Z && negb (nf_chunking nf) | None => false end.

Definition stale_links (d : tables) : nat :=
  sum_list_with (λ x, if dechunked x.1 d then length x.2 else 0) (map_to_list (nar_file_chunks d)).

Definition delete_stale_links (d : tables) : tables :=
  set_nar_file_chunks (filter (λ x, dechunked x.1 d = false) (nar_file_chunks d)) d.

Definition delete_blob (h : string) : FM () :=
  present ← reads EStore (λ w, bool_decide (is_Some (chunkFiles (base_world w) !! h)));
  if present : bool then fsck_DeleteChunk h else mret ().

Fixpoint reclaim_pages (fuel : nat) (chunksReclaimed : nat) : FM nat :=
  match fuel with
  | O => mret chunksReclaimed
  | S fuel =>
      orphaned ← reads edb (λ w, take fsckEagerLoadBatchSize (unlinked_chunks w));
      if bool_decide (orphaned = []) then mret chunksReclaimed else
      _ ← for_each delete_blob orphaned.*2;
      _ ← writes edb (λ w, set_chunk_rows (filter (λ x, x.1 ∉ orphaned.*1) (chunk_rows w)) w);
      reclaim_pages fuel (chunksReclaimed + length orphaned)
  end.

(** No more pages than chunks, and one. *)
Definition reclaim_all : FM nat := λ s, reclaim_pages (S (size (chunk_rows (fst_world s)))) 0 s.

Definition reclaimStaleChunkLinks : FM (nat * nat) :=
  linksDeleted ← writes_ret edb (λ w, stale_links (fdb w)) (λ w, set_fdb (delete_stale_links (fdb w)) w);
  if linksDeleted =? 0 then mret (0, 0) else
  chunksReclaimed ← reclaim_all;
  mret (linksDeleted, chunksReclaimed).

(** The narinfos that advertise xz with no xz row linked. *)
Definition desynced_narinfos (d : tables) : list (Z * narinfo_row) :=
  filter (λ x, r_compression x.2 = Some CompressionTypeXz ∧ x.1 ∈ (links d).*1 ∧
      ¬ Exists (λ l, l.1 = x.1 ∧ (nf_compression <$> nar_files d !! l.2) = Some CompressionTypeXz) (links d))
    (map_to_list (narinfos d)).

Definition rewrite_to_none (i : Z) (url : string) : FM () :=
  writes edb (λ w, set_fdb (renormalize_where (λ j _, bool_decide (j = i)) url (fdb w)) w).

Definition repairOneNarInfoCompressionDesync (x : Z * narinfo_row) : FM bool :=
  if is_empty (r_url x.2) then mret false else
  match ParseURL (derefStringPtr (r_url x.2)) with
  | Err _ => mret false
  | Ok advertised =>
      let q := encode (Query advertised) in
      xzExists ← reads edb (λ w, nar_file_exists (Hash advertised) CompressionTypeXz q (fdb w));
      if xzExists : bool then mret false else
      hasBacking ← reads edb (λ w, existsb (λ y,
        bool_decide (nf_hash y.2 = Hash advertised ∧ nf_query y.2 = q ∧ (x.1, y.1) ∈ links (fdb w))) (map_to_list (nar_files (fdb w))));
      if negb hasBacking then mret false else
      url ← lift (fsck_url_string (mkURL (Hash advertised) CompressionTypeNone (Query advertised) false ""));
      _ ← rewrite_to_none x.1 url;
      mret true
  end.

Definition repairNarInfoCompressionDesync : FM nat :=
  nis ← reads edb (λ w, desynced_narinfos (fdb w));
  repaired ← keep_if repairOneNarInfoCompressionDesync nis;
  mret (length repaired).

Definition repair_orphaned_chunk_file (h : string) : FM () :=
  orphaned ← no_chunk_row_for h; if orphaned : bool then logged (fsck_DeleteChunk h) else mret ().

(** The repairs that always run. *)
Definition repair_always (r : fsckResults) : FM () :=
  _ ← for_each repair_narinfo (narinfosWithoutNarFiles r);
  _ ← for_each repair_unlinked_file (orphanedNarFilesInDB r);
  existingOrphanIDs ← unlinked_ids;
  _ ← for_each repair_missing_file (narFilesMissingInStorage r);
  _ ← sweep_new_orphans existingOrphanIDs;
  for_each repair_orphaned_nar (orphanedNarFilesInStorage r).

Definition repairFsckIssues (r : fsckResults) : FM () :=
  _ ← repair_always r;
  if negb (cdcMode r) then mret () else
  recheckMap ← reads edb (λ w, (unlinked_chunks w).*1);
  _ ← for_each (λ c, if bool_decide (c.1 ∈ recheckMap) then delete_chunk_row c.1 else mret ()) (orphanedChunksInDB r);
  _ ← repairBrokenCDCNarFiles (narFilesWithChunkIssues r);
  _ ← repairSizeMismatchCDCNarFiles (narFilesWithSizeMismatch r);
  _ ← (if verifyContent r then repairCDCNarFiles (narFilesWithCorruptChunks r) isNarFileContentCorrupt else mret ());
  _ ← (if verifyContent r then repairCDCNarFiles (narFilesWithHashMismatch r) isNarFileHashMismatched else mret ());
  _ ← for_each repair_orphaned_chunk_file (orphanedChunksInStorage r);
  _ ← reclaimStaleChunkLinks;
  _ ← repairNarInfoCompressionDesync;
  mret ().

(** ** The residue of chunking *)

Record residueDecision := mkDecision {
  d_skip : bool;
  d_normalizeURL : bool;
  d_clearFlag : bool;
  d_setFlag : bool;
  d_reclaim : bool;
}.

(** [CDCChunkingLockTTL], in nanoseconds. *)
Definition CDCChunkingLockTTL : Z := 60 * 60 * 10 ^ 9.

Definition decideChunkedResidue (resolvable urlInconsistent : bool) (flaggedAt chunkingStartedAt : option Z) (grace chunkingTTL : Z) :
  residueDecision :=
  let live := match chunkingStartedAt with Some t => (now - t <? chunkingTTL)%Z | None => false end in
  if live then mkDecision true false false false false
  else if resolvable then mkDecision false urlInconsistent (bool_decide (is_Some flaggedAt)) false false
  else match flaggedAt with
  | None => mkDecision false false false true false
  | Some t => mkDecision false false false false (grace <=? now - t)%Z
  end.

(** A narinfo of the row, or named after it, whose URL is another one. *)
Definition chunkedNarHasInconsistentNarInfoURL (x : Z * nar_file) (url : string) : FM bool :=
  reads edb (λ w, existsb (λ y,
    (bool_decide ((y.1, x.1) ∈ links (fdb w)) || match r_url y.2 with Some v => has_prefix ("nar/" +:+ nf_hash x.2 +:+ ".") v | None => false end) &&
    match r_url y.2 with Some v => negb (bool_decide (v = url)) | None => false end) (map_to_list (narinfos (fdb w)))).

Definition canonical_chunked_rows (w : fworld) : file_rows :=
  filter (λ x, nf_compression x.2 = CompressionTypeNone) (chunked_rows w).

(** The columns of the row as it was read with the page. *)
Definition chunkingStartedAt (x : Z * nar_file) (times : gmap Z Z) : option Z := if nf_chunking x.2 then times !! x.1 else None.

Definition classify {B} (grace : Z) (flags times : gmap Z Z) (fn : Z * nar_file → URL → residueDecision → FM B) (x : Z * nar_file) : FM B :=
  noneURL ← lift (narFileRowToURL (nf_hash x.2) CompressionTypeNone (nf_query x.2));
  h ← cache_call (LinkedNarinfoNarHash x.1 noneURL);
  let resolvable := bool_decide (is_Some h) in
  inconsistent ← (if resolvable then url ← lift (fsck_url_string noneURL); chunkedNarHasInconsistentNarInfoURL x url else mret false);
  fn x noneURL (decideChunkedResidue resolvable inconsistent (flags !! x.1) (chunkingStartedAt x times) grace CDCChunkingLockTTL).

Fixpoint collect_each {A B} (f : A → FM B) (l : list A) : FM (list B) :=
  match l with [] => mret [] | x :: l => y ← f x; rest ← collect_each f l; mret (y :: rest) end.

(** The columns come with the page; the callback's results are collected. *)
Definition forEachChunkedResidue {B} (grace : Z) (fn : Z * nar_file → URL → residueDecision → FM B) : FM (list B) :=
  scan_all canonical_chunked_rows (λ page,
    '(flags, times) ← (λ s, (Ok (residue_flagged_at (fst_world s), chunking_times (fst_world s)), s));
    collect_each (classify grace flags times fn) page).

Definition collectChunkedResidueSuspects (grace : Z) (r : fsckResults) : FM fsckResults :=
  l ← forEachChunkedResidue grace (λ x _ d, mret (x, d));
  mret (mkResults (narinfosWithoutNarFiles r) (orphanedNarFilesInDB r) (narFilesMissingInStorage r) (orphanedNarFilesInStorage r)
    (cdcMode r) (orphanedChunksInDB r) (narFilesWithChunkIssues r) (narFilesWithSizeMismatch r) (orphanedChunksInStorage r)
    (verifyContent r) (narFilesWithCorruptChunks r) (narFilesWithHashMismatch r)
    (filter (λ x, d_reclaim x.2 = false ∧ d_normalizeURL x.2 = true) l).*1 (filter (λ x, d_reclaim x.2 = true) l).*1).

Record chunkedResidueStats := mkStats {
  normalized_rows : nat;
  flagged_rows : nat;
  unflagged_rows : nat;
  purged_rows : nat;
}.

Definition set_residue_flag (f : Z) : FM () :=
  writes_or edb (update_file_row f (λ w, set_residue_flags (<[f := now]> (residue_flagged_at w)) w)).
Definition clear_residue_flag (f : Z) : FM () :=
  writes_or edb (update_file_row f (λ w, set_residue_flags (delete f (residue_flagged_at w)) w)).

(** One if it went well. *)
Definition counted (m : FM ()) : FM nat := r ← try (E' := fsck_err) m; mret (if is_ok r then 1 else 0).

Definition reconcile_row (x : Z * nar_file) (noneURL : URL) (d : residueDecision) : FM chunkedResidueStats :=
  if d_skip d then mret (mkStats 0 0 0 0)
  else if d_normalizeURL d || d_clearFlag d then
    normalizedOk ← (if d_normalizeURL d then counted (cache_call (NormalizeChunkedNarInfoURL cfg noneURL)) else mret 0);
    if d_normalizeURL d && (normalizedOk =? 0) then mret (mkStats 0 0 0 0) else
    unflagged ← (if d_clearFlag d then counted (clear_residue_flag x.1) else mret 0);
    mret (mkStats normalizedOk 0 unflagged 0)
  else if d_setFlag d then n ← counted (set_residue_flag x.1); mret (mkStats 0 n 0 0)
  else if d_reclaim d then n ← counted (cache_call (PurgeChunkedNar cfg noneURL)); mret (mkStats 0 0 0 n)
  else mret (mkStats 0 0 0 0).

Definition sum_stats (l : list chunkedResidueStats) : chunkedResidueStats :=
  mkStats (sum_list (normalized_rows <$> l)) (sum_list (flagged_rows <$> l)) (sum_list (unflagged_rows <$> l)) (sum_list (purged_rows <$> l)).

Definition reconcileChunkedResidue (grace : Z) : FM chunkedResidueStats :=
  l ← forEachChunkedResidue grace reconcile_row; mret (sum_stats l).

(** ** The command *)

(** What standard input is: no terminal, one that ends, or one with a line. *)
Inductive terminal := NotATerminal | NoInput | Line (s : string).

Definition lower (c : ascii) : ascii :=
  let n := Ascii.N_of_ascii c in if ((65 <=? n) && (n <=? 90))%N then Ascii.ascii_of_N (n + 32) else c.
Fixpoint ToLower (s : string) : string := match s with EmptyString => EmptyString | String c s => String (lower c) (ToLower s) end.

Definition approves (t : terminal) : bool :=
  match t with
  | Line s => let answer := TrimSpace (ToLower s) in bool_decide (answer = "y" ∨ answer = "yes")
  | _ => false
  end.

Definition defaultDechunkResidueGrace : Z := 24 * 60 * 60 * 10 ^ 9.

(** Making the cache may fail. *)
Definition repairChunkedResidue (grace : Z) : FM () :=
  _ ← reads EInvalid (λ _, ());
  _ ← reconcileChunkedResidue grace;
  mret ().

(** The action of [fsckCommand] from the detection of the mode on. *)
Definition fsck (cdc_enabled : option string) (dryRun repair verify : bool) (verifiedSince dechunkResidueGrace : Z) (stdin : terminal) : FM () :=
  let grace := if (dechunkResidueGrace <=? 0)%Z then defaultDechunkResidueGrace else dechunkResidueGrace in
  reason ← detectFsckCDCMode cdc_enabled;
  let cdc := enabled reason in
  suspects ← collectFsckSuspects cdc verifiedSince verify;
  results ← reVerifyFsckSuspects suspects;
  results ← (if cdc then collectChunkedResidueSuspects grace results else mret results);
  _ ← (if repair && cdc then repairChunkedResidue grace else mret ());
  if totalIssues results =? 0 then mret () else
  if dryRun then throw ErrFsckIssuesFound else
  if negb repair && negb (approves stdin) then throw ErrFsckIssuesFound else
  _ ← (if negb repair && cdc then repairChunkedResidue grace else mret ());
  repairFsckIssues results.
End fsck.

(** ** Weakest preconditions *)

Section wp.
Context `{GN : GoNix}.
Implicit Types w : fworld.

Lemma fidle_next b (s : fstate) :
  calm b s → calm b (fput (fst_world s) s) ∧ (b = false → fnext s = EvOk).
Proof.
  unfold fput, fnext. destruct s as [w [|e l]], b; simpl; intros Hc; try done.
  split; [by inversion Hc|done].
Qed.

Lemma fcalm_put b w (s : fstate) : calm b s → calm b (fput w s).
Proof. intros Hc. destruct (fidle_next b s Hc) as [Hc' _]. by destruct b. Qed.

Lemma wp_reads {A} b e (q : fworld → A) (Q : result fsck_err A → fworld → Prop) w :
  (b = true → Q (Err (FsckErr e)) w) → Q (Ok (q w)) w → wp b (reads e q) Q w.
Proof.
  intros He Hq s <- Hc. destruct (fidle_next b s Hc) as (Hc' & Hn). unfold reads. destruct b; [|rewrite (Hn eq_refl)].
  - destruct (fnext s); simpl; split; auto.
  - by split.
Qed.

Lemma wp_sees b q (Q : result fsck_err bool → fworld → Prop) w :
  (b = true → Q (Ok false) w) → Q (Ok (q w)) w → wp b (sees q) Q w.
Proof.
  intros He Hq s <- Hc. destruct (fidle_next b s Hc) as (Hc' & Hn). unfold sees. destruct b; [|rewrite (Hn eq_refl)].
  - destruct (fnext s); simpl; split; auto.
  - by split.
Qed.

Lemma wp_writes_or b e g (Q : result fsck_err () → fworld → Prop) w :
  match g w with
  | Some w' => (b = true → Q (Err (FsckErr e)) w ∧ Q (Err (FsckErr e)) w') ∧ Q (Ok ()) w'
  | None => Q (Err (FsckErr e)) w
  end → wp b (writes_or e g) Q w.
Proof.
  intros Hq s <- Hc. destruct (fidle_next b s Hc) as (_ & Hn). unfold writes_or. change (view s) with (fst_world s) in Hq.
  pose proof (λ w, fcalm_put b w s Hc) as Hp.
  destruct (g (fst_world s)) as [w'|]; [|split; [apply Hp|exact Hq]]. destruct Hq as [He Hq].
  destruct b; [|rewrite (Hn eq_refl); split; [apply Hp|exact Hq]].
  destruct (He eq_refl) as [H1 H2]. destruct (fnext s); (split; [apply Hp|assumption]).
Qed.

Lemma wp_writes b e g (Q : result fsck_err () → fworld → Prop) w :
  (b = true → Q (Err (FsckErr e)) w ∧ Q (Err (FsckErr e)) (g w)) → Q (Ok ()) (g w) → wp b (writes e g) Q w.
Proof. intros He Hq. by apply wp_writes_or. Qed.

Lemma wp_writes_ret {A} b e (q : fworld → A) g (Q : result fsck_err A → fworld → Prop) w :
  (b = true → Q (Err (FsckErr e)) w ∧ Q (Err (FsckErr e)) (g w)) → Q (Ok (q w)) (g w) → wp b (writes_ret e q g) Q w.
Proof.
  intros He Hq s Hw Hc.
  pose proof (wp_writes b e g (λ r w', match r with Ok _ => Q (Ok (q w)) w' | Err e => Q (Err e) w' end) w He Hq s Hw Hc) as Hwp.
  unfold writes_ret. change (fst_world s) with (view s). rewrite Hw. by destruct (writes e g s) as [[[]|e'] s'].
Qed.

Lemma wp_logged b (m : eff fstate fsck_err ()) (Q : result fsck_err () → fworld → Prop) w :
  wp b m (λ _ w', Q (Ok ()) w') w → wp b (logged m) Q w.
Proof. intros Hm. apply wp_bind, wp_try. eapply wp_mono; [exact Hm|]. intros r w' Hq. by apply wp_ret. Qed.

(** What a call of the cache does to the world. *)
Definition after_call (w : fworld) (v : world) : fworld :=
  set_chunk_rows (follow_chunks (chunkFiles (base_world w)) (chunkFiles v) (chunk_rows w)) (set_base v w).

Lemma wp_cache_call {A} b (m : eff state cache_err A) (Q : result fsck_err A → fworld → Prop) w :
  wp b m (λ r v, Q (map_err FsckErr r) (after_call w v)) (base_world w) → wp b (cache_call m) Q w.
Proof.
  intros Hm s <- Hc. specialize (Hm (mkState (base_world (fst_world s)) (fst_script s)) eq_refl). unfold cache_call.
  destruct (m _) as [r s']. apply Hm. by destruct b.
Qed.

(** Loops keep an invariant. *)
Lemma wp_for_each {A} b (I : fworld → Prop) (f : A → eff fstate fsck_err ()) l w :
  (∀ x w, x ∈ l → I w → wp b (f x) (λ _ w', I w') w) → I w → wp b (for_each f l) (λ _ w', I w') w.
Proof.
  revert w. induction l as [|x l IH]; intros w Hf Hi; simpl; [by apply wp_ret|].
  apply wp_bind. eapply wp_mono; [apply Hf; [by left|done]|]. intros [[]|e] w' Hi'; [|done].
  apply IH; [|done]. intros y v Hy. apply Hf. by right.
Qed.

(** What a filter keeps is in the list, and passed its check. *)
Lemma wp_keep_if {A} b (I : fworld → Prop) (P : A → Prop) (f : A → eff fstate fsck_err bool) l w :
  (∀ x w, x ∈ l → I w → wp b (f x) (λ r w', I w' ∧ (r = Ok true → P x)) w) → I w →
  wp b (keep_if f l) (λ r w', I w' ∧ ∀ l', r = Ok l' → ∀ x, x ∈ l' → x ∈ l ∧ P x) w.
Proof.
  revert w. induction l as [|x l IH]; intros w Hf Hi; simpl.
  { apply wp_ret. split; [done|]. intros l' [= <-] x Hx. by apply elem_of_nil in Hx. }
  apply wp_bind. eapply wp_mono; [apply Hf; [by left|done]|]. intros [c|e] w1 [H1 Hx]; [|by split].
  apply wp_bind. eapply wp_mono; [apply IH; [|done]; intros y v Hy; apply Hf; by right|].
  intros [rest|e] w2 [H2 Hl]; [|by split]. apply wp_ret. split; [done|]. intros l' [= <-] y Hy. specialize (Hl rest eq_refl).
  destruct c; [|destruct (Hl y Hy); split; [by right|done]].
  apply elem_of_cons in Hy as [->|Hy]; [split; [by left|auto]|]. destruct (Hl y Hy). split; [by right|done].
Qed.

(** A scan keeps what its pages keep; what it finds, it finds in rows. *)
Lemma wp_scan {A B} b (I : fworld → Prop) (P : B → Prop) (rows : fworld → list (Z * A)) body fuel lastID w :
  (∀ page w, I w → (∀ x, x ∈ page → x ∈ rows w) →
     wp b (body page) (λ r w', I w' ∧ ∀ out : list B, r = Ok out → Forall P out) w) →
  I w → wp b (scan fuel rows body lastID) (λ r w', I w' ∧ ∀ out, r = Ok out → Forall P out) w.
Proof.
  intros Hbody. revert lastID w. induction fuel as [|fuel IH]; intros lastID w Hi; simpl.
  { apply wp_ret. split; [done|]. by intros out [= <-]. }
  apply wp_bind, wp_reads; [by split|]. destruct (last _) as [x|] eqn:Hlast; [|apply wp_ret; split; [done|]; by intros out [= <-]].
  apply wp_bind. eapply wp_mono; [apply Hbody; [done|]|].
  { intros y Hy. unfold page_after in Hy. apply subseteq_take in Hy. rewrite merge_sort_Permutation in Hy.
    by apply list_elem_of_filter in Hy as [_ Hy]. }
  intros [out|e] w1 [H1 Hp]; [|by split]. destruct (_ <? _).
  - apply wp_ret. split; [done|]. intros ? [= <-]. auto.
  - apply wp_bind. eapply wp_mono; [by apply IH|]. intros [rest|e] w2 [H2 Hp2]; [|by split].
    apply wp_ret. split; [done|]. intros ? [= <-]. apply Forall_app. auto.
Qed.

Lemma wp_scan_all {A B} b (I : fworld → Prop) (P : B → Prop) (rows : fworld → list (Z * A)) body w :
  (∀ page w, I w → (∀ x, x ∈ page → x ∈ rows w) →
     wp b (body page) (λ r w', I w' ∧ ∀ out : list B, r = Ok out → Forall P out) w) →
  I w → wp b (scan_all rows body) (λ r w', I w' ∧ ∀ out, r = Ok out → Forall P out) w.
Proof. intros Hbody Hi s Hs Hc. by apply (wp_scan b I P rows body _ 0%Z w Hbody Hi s). Qed.
End wp.

(** ** The names of stored files *)

Lemma FromExtension_ToFileExtension c e :
  ToFileExtension c = Ok e → ∃ ct, CompressionTypeFromExtension e = Ok ct ∧ ToFileExtension ct = Ok e ∧ (c ≠ "" → ct = c).
Proof.
  intros [[-> Hc]|Hin]%ToFileExtension_cases.
  - exists CompressionTypeNone. split; [done|]. split; [done|]. by destruct Hc as [->| ->].
  - unfold extension_table in Hin. rewrite !elem_of_cons, elem_of_nil in Hin.
    destruct_or?; simplify_eq; by eexists.
Qed.

(** A file that the store has put is walked, under the name of the URL it was put for. *)
Lemma walked_name u p :
  nar_path u = Ok p →
  ∃ v ct, Normalize u = Ok v ∧ ParseURL (base p) = Ok (mkURL (Hash v) ct ∅ false "") ∧
    nar_path (mkURL (Hash v) ct ∅ false "") = Ok p ∧ (Compression u ≠ "" → ct = Compression u).
Proof.
  intros Hp. unfold nar_path in Hp. apply bind_Ok_inv in Hp as (v & Hv & Hp).
  destruct (Normalize_hash u v Hv) as [_ Hcv]. destruct (Normalize_inv u v Hv) as (_ & Hm & _).
  destruct (ToFilePath_inv v p Hp) as (e & He & Hh & -> & _).
  destruct (FromExtension_ToFileExtension _ _ He) as (ct & Hct & He' & Hc). exists v, ct. split; [done|].
  assert (str_mem "/" (nar_filename (Hash v) e) = false) as Hs by (apply nar_filename_no; [done|by eapply ext_alnum|set_solver]).
  split; [|split; [|by rewrite <- Hcv]].
  - unfold nar_comps. cbn [join_with].
    assert (∀ a b c : string, a +:+ String "/" (b +:+ String "/" c) = (a +:+ String "/" b) +:+ String "/" c) as ->.
    { intros a b c. by rewrite str_app_assoc, str_app_cons. }
    rewrite base_app by (done || apply nar_filename_nonempty). apply ParseURL_filename; [done|by eapply ext_alnum|done].
  - unfold nar_path, Normalize. simpl. rewrite (lenient_submatch_normalized _ Hm), Hm. simpl.
    unfold ToFilePath in *. simpl. rewrite He'. simpl. by rewrite He in Hp.
Qed.

(** ** Checks change nothing *)

Section quiet.
Context `{GN : GoNix} {SG : Signing} {CD : Codec} {CH : Chunker} {HA : Hashing}.

Definition quiet {A} (m : eff fstate fsck_err A) : Prop := ∀ b w, wp b m (λ _ w', w' = w) w.

Lemma quiet_ret {A} (a : A) : quiet (mret a).
Proof. intros b w. by apply wp_ret. Qed.
Lemma quiet_lift {A} (r : result fsck_err A) : quiet (lift r).
Proof. intros b w. by apply wp_lift. Qed.
Lemma quiet_reads {A} e (q : fworld → A) : quiet (reads e q).
Proof. intros b w. by apply wp_reads. Qed.
Lemma quiet_sees q : quiet (sees q).
Proof. intros b w. by apply wp_sees. Qed.
Lemma quiet_bind {A B} (m : eff fstate fsck_err A) (k : A → eff fstate fsck_err B) : quiet m → (∀ a, quiet (k a)) → quiet (m ≫= k).
Proof. intros Hm Hk b w. apply wp_bind. eapply wp_mono; [apply Hm|]. intros [a|e] w' ->; [apply Hk|done]. Qed.
Lemma quiet_try {A} (m : eff fstate fsck_err A) : quiet m → quiet (try (E' := fsck_err) m).
Proof. intros Hm b w. by apply wp_try, Hm. Qed.
Lemma quiet_keep_if {A} (g : A → eff fstate fsck_err bool) l : (∀ x, quiet (g x)) → quiet (keep_if g l).
Proof.
  intros Hg. induction l as [|x l IH]; simpl; [apply quiet_ret|]. apply quiet_bind; [apply Hg|]. intros c.
  apply quiet_bind; [exact IH|]. intros rest. apply quiet_ret.
Qed.
Lemma quiet_scan {A B} (rows : fworld → list (Z * A)) (body : list (Z * A) → eff fstate fsck_err (list B)) fuel lastID :
  (∀ page, quiet (body page)) → quiet (scan fuel rows body lastID).
Proof.
  intros Hb. revert lastID. induction fuel as [|fuel IH]; intros lastID; simpl; [apply quiet_ret|].
  apply quiet_bind; [apply quiet_reads|]. intros page. destruct (last page); [|apply quiet_ret].
  apply quiet_bind; [apply Hb|]. intros out. destruct (_ <? _); [apply quiet_ret|]. apply quiet_bind; [apply IH|]. intros ?. apply quiet_ret.
Qed.
Lemma quiet_at {A} (m : fstate → eff fstate fsck_err A) : (∀ s, quiet (m s)) → quiet (λ s, m s s).
Proof. intros Hm b w s Hs Hc. exact (Hm s b w s Hs Hc). Qed.
Lemma quiet_scan_all {A B} (rows : fworld → list (Z * A)) (body : list (Z * A) → eff fstate fsck_err (list B)) :
  (∀ page, quiet (body page)) → quiet (scan_all rows body).
Proof. intros Hb. apply (quiet_at (λ s, scan _ rows body 0%Z)). intros s. by apply quiet_scan. Qed.
End quiet.

Ltac quietly base :=
  repeat first
    [ base | apply quiet_ret | apply quiet_lift | apply quiet_reads | apply quiet_sees | apply quiet_try | apply quiet_bind; [|intros ?]
    | apply quiet_keep_if; intros ? | apply quiet_scan_all; intros ? | case_match ].

Section checks.
Context `{GN : GoNix} {SG : Signing} {CD : Codec} {CH : Chunker} {HA : Hashing}.

Lemma quiet_chunksForNarFile g : quiet (chunksForNarFile g).
Proof.
  apply (quiet_at (λ s, chunk_pages (S (length (links_of g (fdb (fst_world s))))) g 0)). intros s. generalize (S (length (links_of g (fdb (fst_world s))))) 0.
  intros fuel. induction fuel as [|fuel IH]; intros from; simpl; quietly ltac:(apply IH).
Qed.
Lemma quiet_some_missing l : quiet (some_missing l).
Proof. induction l as [|h l IH]; simpl; quietly ltac:(exact IH). Qed.
Lemma quiet_isNarFileChunkBroken x : quiet (isNarFileChunkBroken x).
Proof. unfold isNarFileChunkBroken. quietly ltac:(apply quiet_chunksForNarFile || apply quiet_some_missing). Qed.
Lemma quiet_GetChunk h : quiet (fsck_GetChunk h).
Proof. unfold fsck_GetChunk. quietly fail. Qed.
Lemma quiet_some_corrupt l : quiet (some_corrupt l).
Proof. induction l as [|h l IH]; simpl; quietly ltac:(exact IH || apply quiet_GetChunk). Qed.
Lemma quiet_isNarFileContentCorrupt x : quiet (isNarFileContentCorrupt x).
Proof. unfold isNarFileContentCorrupt. quietly ltac:(apply quiet_chunksForNarFile || apply quiet_some_corrupt). Qed.
Lemma quiet_isNarFileHashMismatched x : quiet (isNarFileHashMismatched x).
Proof.
  assert (∀ l, quiet (assemble l)) as Ha by (intros l; induction l as [|h l IH]; simpl; quietly ltac:(exact IH || apply quiet_GetChunk)).
  unfold isNarFileHashMismatched. quietly ltac:(apply quiet_chunksForNarFile || apply Ha).
Qed.
Lemma quiet_queryCDCNarFilesWithSizeMismatch : quiet queryCDCNarFilesWithSizeMismatch.
Proof. unfold queryCDCNarFilesWithSizeMismatch. quietly fail. Qed.
Lemma quiet_no_row_for u : quiet (no_row_for u).
Proof. unfold no_row_for. quietly fail. Qed.
Lemma quiet_no_chunk_row_for h : quiet (no_chunk_row_for h).
Proof. unfold no_chunk_row_for. quietly fail. Qed.
Lemma quiet_narinfo_still_unlinked x : quiet (narinfo_still_unlinked x).
Proof. unfold narinfo_still_unlinked. quietly fail. Qed.
Lemma quiet_file_still_unlinked x : quiet (file_still_unlinked x).
Proof. unfold file_still_unlinked. quietly fail. Qed.
Lemma quiet_file_still_missing x : quiet (file_still_missing x).
Proof. unfold file_still_missing, fsck_HasNar. quietly fail. Qed.
Lemma quiet_unlinked_ids : quiet unlinked_ids.
Proof. apply quiet_reads. Qed.
Lemma quiet_first_row {A} (rows : fworld → list (Z * A)) : quiet (first_row rows).
Proof. apply quiet_reads. Qed.
End checks.

Ltac check_quiet :=
  first [ apply quiet_isNarFileChunkBroken | apply quiet_isNarFileContentCorrupt | apply quiet_isNarFileHashMismatched
        | apply quiet_queryCDCNarFilesWithSizeMismatch | apply quiet_no_row_for | apply quiet_no_chunk_row_for
        | apply quiet_narinfo_still_unlinked | apply quiet_file_still_unlinked | apply quiet_file_still_missing
        | apply quiet_unlinked_ids | apply quiet_first_row ].

(** ** Reading chunks *)

Section reading.
Context `{GN : GoNix} {SG : Signing} {CD : Codec} {CH : Chunker} {HA : Hashing}.

Lemma batch_pos : 0 < fsckEagerLoadBatchSize.
Proof. unfold fsckEagerLoadBatchSize. lia. Qed.

(** All the links, when each has its chunk's row. *)
Lemma wp_chunksForNarFile b g w :
  (∀ h, h ∈ links_of g (fdb w) → chunk_row_exists h w = true) →
  wp b (chunksForNarFile g) (λ r w', w' = w ∧ ∀ l, r = Ok l → l = links_of g (fdb w)) w.
Proof.
  intros Hrows. set (ls := links_of g (fdb w)) in *.
  assert (∀ fuel from, length ls - from < fuel →
    wp b (chunk_pages fuel g from) (λ r w', w' = w ∧ ∀ l, r = Ok l → l = drop from ls) w) as Hall.
  { pose proof batch_pos as HB. induction fuel as [|fuel IH]; intros from Hlen; [lia|]. cbn [chunk_pages].
    apply wp_bind, wp_reads; [by split|]. fold ls. destruct (bool_decide (take fsckEagerLoadBatchSize (drop from ls) = [])) eqn:Hnil.
    { apply wp_ret. split; [done|]. intros l [= <-]. apply bool_decide_eq_true in Hnil. destruct (drop from ls); [done|]. by destruct fsckEagerLoadBatchSize; [lia|]. }
    apply wp_bind, wp_reads; [by split|].
    assert (filter (λ h, chunk_row_exists h w = true) (take fsckEagerLoadBatchSize (drop from ls)) = take fsckEagerLoadBatchSize (drop from ls)) as ->.
    { apply filter_all. apply Forall_forall. intros h Hh%subseteq_take. apply Hrows. by apply subseteq_drop in Hh. }
    destruct (length (take fsckEagerLoadBatchSize (drop from ls)) <? fsckEagerLoadBatchSize) eqn:Hshort.
    { apply wp_ret. split; [done|]. intros l [= <-]. apply Nat.ltb_lt in Hshort. rewrite length_take, length_drop in Hshort. apply take_ge.
      rewrite length_drop. lia. }
    apply Nat.ltb_ge in Hshort. rewrite length_take, length_drop in Hshort.
    apply wp_bind. eapply wp_mono; [apply IH|].
    { rewrite length_take, length_drop. lia. }
    intros [rest|e] w' [-> Hr]; [|by split]. apply wp_ret. split; [done|]. intros l [= <-]. rewrite (Hr rest eq_refl).
    rewrite length_take, length_drop, Nat.min_l by lia. rewrite <- drop_drop, take_drop. done. }
  intros s Hs Hc. unfold chunksForNarFile. change (fst_world s) with (view s). rewrite Hs. fold ls.
  destruct (Hall (S (length ls)) 0 ltac:(lia) s Hs Hc) as (Hc' & Hw & Hl). split; [exact Hc'|]. split; [exact Hw|]. exact Hl.
Qed.

(** What a chunk's file holds. *)
Definition chunk_bytes (w : fworld) (h : string) : string := default "" (chunkFiles (base_world w) !! h).

Lemma wp_GetChunk b h w (Q : result fsck_err string → fworld → Prop) :
  (∀ e, Q (Err e) w) → (∀ x, chunkFiles (base_world w) !! h = Some x → Q (Ok x) w) → wp b (fsck_GetChunk h) Q w.
Proof.
  intros He Hx. apply wp_bind, wp_reads; [intros _; apply He|]. apply wp_lift. destruct (_ !! h) eqn:E; simpl; auto.
Qed.

Lemma wp_some_missing b hs w :
  (∀ h, h ∈ hs → is_Some (chunkFiles (base_world w) !! h)) → wp b (some_missing hs) (λ r w', w' = w ∧ r ≠ Ok true) w.
Proof.
  induction hs as [|h hs IH]; intros Hall; simpl; [by apply wp_ret|]. apply wp_bind, wp_reads; [by split|].
  rewrite bool_decide_eq_true_2 by (apply Hall; by left). simpl. apply IH. intros h' Hh'. apply Hall. by right.
Qed.

Lemma wp_some_corrupt b hs w :
  (∀ h x, h ∈ hs → chunkFiles (base_world w) !! h = Some x → digest x = h) → wp b (some_corrupt hs) (λ r w', w' = w ∧ r ≠ Ok true) w.
Proof.
  induction hs as [|h hs IH]; intros Hall; simpl; [by apply wp_ret|]. apply wp_bind, wp_GetChunk; [by split|]. intros x Hx.
  rewrite bool_decide_eq_true_2 by (by apply Hall; [left|]). simpl. apply IH. intros h' x' Hh'. apply Hall. by right.
Qed.

Lemma wp_assemble b hs w :
  wp b (assemble hs) (λ r w', w' = w ∧ ∀ x, r = Ok x → x = concat_strings (chunk_bytes w <$> hs)) w.
Proof.
  induction hs as [|h hs IH]; simpl; [apply wp_ret; split; [done|]; by intros x [= <-]|].
  apply wp_bind, wp_GetChunk; [by split|]. intros x Hx. apply wp_bind. eapply wp_mono; [exact IH|].
  intros [rest|e] w' [-> Hr]; [|by split]. apply wp_ret. split; [done|]. intros y [= <-]. rewrite (Hr rest eq_refl).
  assert (chunk_bytes w h = x) as -> by (unfold chunk_bytes; by rewrite Hx). done.
Qed.
End reading.

(** ** What a run leaves alone *)

Section leaving.
Context `{GN : GoNix} {SG : Signing} {CD : Codec} {CH : Chunker} {HA : Hashing} (now : Z) (cfg : Config).

(** A row and a narinfo linked to it, in the world at the start. *)
Context (w0 : fworld) (f i : Z) (nf : nar_file) (p : string).
Let hashes : list string := links_of f (fdb w0).

(** The row, the narinfo and the link stay, with the NAR's chunks or its file; no narinfo
    has an empty digest. *)
Record leaves (v : world) : Prop := {
  lv_unique : unique_keys (db v);
  lv_files : nar_files (db v) ⊆ nar_files (fdb w0);
  lv_row : nar_files (db v) !! f = Some nf;
  lv_narinfo : ∃ r, narinfos (db v) !! i = Some r ∧ r_nar_hash r ≠ None;
  lv_hashes j r : narinfos (db v) !! j = Some r → r_nar_hash r ≠ Some "";
  lv_link : (i, f) ∈ links (db v);
  lv_chunks : (0 < nf_total_chunks nf)%Z →
    links_of f (db v) = hashes ∧ ∀ h, h ∈ hashes → chunkFiles v !! h = chunkFiles (base_world w0) !! h;
  lv_stored : (nf_total_chunks nf <= 0)%Z → narStore v !! p = narStore (base_world w0) !! p;
}.

Lemma leaves_renormalize P url v : leaves v → leaves (set_db (renormalize_where P url (db v)) v).
Proof.
  assert (∀ j r', map_imap (λ i r, Some (if P i r then renormalize url r else r)) (narinfos (db v)) !! j = Some r' →
    ∃ r, narinfos (db v) !! j = Some r ∧ r_hash r' = r_hash r ∧ r_nar_hash r' = r_nar_hash r) as Hback.
  { intros j r' Hr. rewrite map_lookup_imap in Hr. destruct (narinfos (db v) !! j) as [r|]; [|done]. simpl in Hr. injection Hr as <-.
    exists r. by destruct (P j r). }
  intros [[Hh Hk] Hfs Hf (r & Hr & Hn) Hhs Hl Hc Hs]. split; try done.
  - split; [|done]. simpl. intros j k x y Hx Hy Hxy. destruct (Hback j x Hx) as (x' & Hx' & Ex & _), (Hback k y Hy) as (y' & Hy' & Ey & _).
    eapply Hh; [exact Hx'|exact Hy'|congruence].
  - simpl. exists (if P i r then renormalize url r else r). rewrite map_lookup_imap, Hr. split; [done|]. by destruct (P i r).
  - simpl. intros j r' Hj. destruct (Hback j r' Hj) as (r0 & Hr0 & _ & E). rewrite E. by eapply Hhs.
Qed.

Lemma leaves_links l v : (∀ x, x ∈ links (db v) → x ∈ l) → leaves v → leaves (set_db (set_links l (db v)) v).
Proof. intros Hsub [[Hh Hk] Hfs Hf Hr Hhs Hl Hc Hs]. split; try done. simpl. by apply Hsub. Qed.

Lemma links_of_delete_file f' g d : f' ≠ g → links_of f' (delete_nar_file g d) = links_of f' d.
Proof. intros Hne. unfold links_of. simpl. by rewrite lookup_delete_ne. Qed.

Lemma leaves_delete_file g v : g ≠ f → leaves v → leaves (set_db (delete_nar_file g (db v)) v).
Proof.
  intros Hg [[Hh Hk] Hfs Hf Hr Hhs Hl Hc Hs]. split; try done; simpl.
  - split; [done|]. simpl. intros j k x y h c q [_ Hx]%lookup_delete_Some [_ Hy]%lookup_delete_Some. by apply Hk.
  - etrans; [apply delete_subseteq|done].
  - by rewrite lookup_delete_ne.
  - apply list_elem_of_filter. auto.
  - intros Hpos. rewrite links_of_delete_file by done. by apply Hc.
Qed.

Lemma leaves_delete_narinfo j v : j ≠ i → leaves v → leaves (set_db (delete_narinfo j (db v)) v).
Proof.
  intros Hj [[Hh Hk] Hfs Hf (r & Hr & Hn) Hhs Hl Hc Hs]. split; try done; simpl.
  - split; [|done]. simpl. intros a b x y [_ Hx]%lookup_delete_Some [_ Hy]%lookup_delete_Some. by apply Hh.
  - exists r. by rewrite lookup_delete_ne.
  - intros a x [_ Hx]%lookup_delete_Some. by apply Hhs with (j := a).
  - apply list_elem_of_filter. auto.
Qed.

(** Rows of the start, other than the one left alone. *)
Definition other_row (x : Z * nar_file) : Prop := nar_files (fdb w0) !! x.1 = Some x.2 ∧ x.1 ≠ f.

Lemma leaves_delete_row x v : unique_keys (fdb w0) → other_row x → leaves v → leaves (set_db (delete_row x.2 (db v)) v).
Proof.
  intros Hu0 [Hx Hne] Hv. unfold delete_row, delete_nar_files_where.
  assert (∀ g y, (g, y) ∈ nar_files_where (nf_hash x.2) (nf_compression x.2) (nf_query x.2) (db v) → g ≠ f) as Hall.
  { intros g y Hin. unfold nar_files_where, rows_where in Hin. apply elem_of_map_to_list, map_lookup_filter_Some in Hin as [Hy Hk].
    simpl in *.
    replace g with x.1; [done|]. eapply (unique_file _ Hu0); [exact Hx|eapply lookup_weaken; [exact Hy|apply Hv]|by split_and!|exact Hk]. }
  induction (nar_files_where _ _ _ _) as [|[g y] l IH]; simpl; [by destruct v|].
  apply (leaves_delete_file g (set_db (foldr (λ x, delete_nar_file x.1) (db v) l) v)); [by eapply Hall; left|].
  apply IH. intros g' y' Hy. by eapply Hall; right.
Qed.

Lemma leaves_delete_chunk h v : h ∉ hashes ∨ (nf_total_chunks nf <= 0)%Z → leaves v → leaves (set_chunkFiles (delete h (chunkFiles v)) v).
Proof.
  intros Hh [Hu Hfs Hf Hr Hhs Hl Hc Hs]. split; try done. intros Hpos. destruct (Hc Hpos) as [Hl' Hc']. split; [done|].
  intros h' Hh'. simpl. rewrite lookup_delete_ne; [by apply Hc'|]. intros ->. destruct Hh as [Hh|]; [done|lia].
Qed.

Lemma leaves_delete_nar q v : q ≠ p ∨ (0 < nf_total_chunks nf)%Z → leaves v → leaves (set_narStore (delete q (narStore v)) v).
Proof.
  intros Hq [Hu Hfs Hf Hr Hhs Hl Hc Hs]. split; try done. intros Hz. simpl. rewrite lookup_delete_ne; [by apply Hs|].
  destruct Hq; [done|lia].
Qed.

(** A chunk of the row is linked. *)
Lemma leaves_linked h v : leaves v → (0 < nf_total_chunks nf)%Z → h ∈ hashes → chunk_linked h (db v) = true.
Proof.
  intros Hv Hpos Hh. destruct (lv_chunks _ Hv Hpos) as [Hl _]. apply bool_decide_eq_true. apply map_Exists_lookup.
  unfold links_of in Hl. fold hashes in Hl. destruct (nar_file_chunks (db v) !! f) as [l|] eqn:E; simpl in Hl.
  - exists f, l. split; [done|]. by rewrite Hl.
  - rewrite <- Hl in Hh. by apply elem_of_nil in Hh.
Qed.

Lemma leaves_unlinked h v : leaves v → chunk_linked h (db v) = false → h ∉ hashes ∨ (nf_total_chunks nf <= 0)%Z.
Proof.
  intros Hv Hl. destruct (Z_lt_le_dec 0 (nf_total_chunks nf)) as [Hpos|]; [left|by right]. intros Hh.
  by rewrite (leaves_linked h v) in Hl.
Qed.

(** *** The cache's calls *)

Lemma leaves_cleanup hs : preserves leaves (cleanupStaleLockChunks hs).
Proof.
  intros b w Hw. unfold cleanupStaleLockChunks. destruct (bool_decide _); [by apply wp_ret|].
  apply wp_bind, wp_try, wp_query; [intros _; by apply wp_ret|]. generalize (filter (λ h, chunk_linked h (db w) = false) hs).
  clear hs. intros hs. revert w Hw. induction hs as [|h hs IH]; intros w Hw; simpl; [by apply wp_ret|].
  apply wp_bind, wp_try, wp_query; [intros _; apply wp_bind, wp_ret; by apply IH|].
  apply wp_bind. destruct (chunk_linked h (db w)) eqn:Hl; [apply wp_ret; by apply IH|].
  pose proof (leaves_delete_chunk h w (leaves_unlinked h w Hw Hl) Hw) as Hd.
  apply wp_bind, wp_try, wp_act; [intros _; split|]; apply wp_ret; by apply IH.
Qed.

(** A transaction on the tables. *)
Lemma leaves_transaction_ (fn : eff (session () tables) dberr ()) w b :
  leaves w → (∀ d, leaves (set_db d w) → after false (λ r _ d', is_ok r = true → leaves (set_db d' w)) fn () d) →
  wp b (transaction_ fn) (λ _ w', leaves w') w.
Proof.
  intros Hw Hfn. apply wp_transaction_. apply (wp_transaction b (λ _ d, leaves (set_db d w)) (λ _ _, True)); [by destruct w| |done..].
  intros [] d Hd. eapply after_mono; [by apply Hfn|]. intros r [] d' Hr. auto.
Qed.

Lemma leaves_NormalizeChunkedNarInfoURL u : preserves leaves (NormalizeChunkedNarInfoURL cfg u).
Proof.
  intros b w Hw. unfold NormalizeChunkedNarInfoURL. destruct (isCDCEnabled cfg); simpl; [|by apply wp_throw].
  apply wp_bind, wp_getNarFileFromDB; [done|]. destruct (lookup_nar_file _ _ _) as [[g x]|e]; [|case_match; [by apply wp_ret|by apply wp_throw]].
  apply leaves_transaction_; [done|]. intros d Hd. apply after_bind. eapply after_mono; [apply after_normalize_narinfos|].
  intros [[]|e] v d1 Hr; [|done]. destruct (Hr eq_refl) as (P & url & ->).
  pose proof (leaves_renormalize P url _ Hd) as Hd1. simpl in Hd1. unfold relinkNarInfosToNarFileWithEntTx.
  destruct (URLString _); [|by apply after_throw]. apply after_bind, after_query; [done|]. case_bool_decide; [by apply after_ret|].
  apply after_stmt_or; [done|]. destruct (nar_files _ !! g); [|done]. intros _.
  refine (leaves_links _ (set_db (renormalize_where P url d) w) _ Hd1). simpl. intros y Hy. apply elem_of_add_pairs. by left.
Qed.

Lemma leaves_PurgeChunkedNar b u w :
  ¬ has_key (Hash u) CompressionTypeNone (encode (Query u)) nf → leaves w → wp b (PurgeChunkedNar cfg u) (λ _ w', leaves w') w.
Proof.
  intros Hne Hw. unfold PurgeChunkedNar. destruct (isCDCEnabled cfg); simpl; [|by apply wp_throw].
  apply wp_withNarMigrationLock; [done|]. set (n := mkURL (Hash u) CompressionTypeNone (Query u) false "").
  apply wp_bind, wp_getNarFileFromDB; [done|].
  destruct (lookup_nar_file_inv cfg n (db w) (lv_unique _ Hw)) as [->|(g & x & -> & Hg & Hk)]; [by apply wp_ret|].
  assert (g ≠ f) as Hgf.
  { intros ->. rewrite (lv_row _ Hw) in Hg. injection Hg as <-. apply Hne. by destruct Hk. }
  destruct (bool_decide _); [by apply wp_throw|]. apply wp_bind, wp_query; [done|]. apply wp_bind.
  eapply wp_mono; [apply leaves_transaction_; [done|]|intros [[]|e] w' Hw'; [by apply leaves_cleanup|done]].
  intros d Hd. apply after_bind, after_exec; [done|]. apply after_exec; [done|]. intros _. rewrite delete_links_and_file.
  exact (leaves_delete_file g (set_db d w) Hgf Hd).
Qed.

(** *** The world of a run *)

(** The rows of the NAR's chunks stay too. *)
Record spares (w : fworld) : Prop := {
  sp_base : leaves (base_world w);
  sp_rows : chunk_rows w ⊆ chunk_rows w0;
  sp_chunks : (0 < nf_total_chunks nf)%Z → ∀ h, h ∈ hashes → chunk_row_exists h w = true;
}.

Lemma spares_base v w : spares w → leaves v → spares (set_base v w).
Proof. intros [_ Hr Hc] Hv. by split. Qed.

Lemma spares_side w w' : base_world w' = base_world w → chunk_rows w' = chunk_rows w → spares w → spares w'.
Proof. intros Hb Hr [H1 H2 H3]. split; [by rewrite Hb|by rewrite Hr|]. intros Hpos h Hh. unfold chunk_row_exists. rewrite Hr. by apply H3. Qed.

Lemma spares_after_call v w : spares w → leaves v → spares (after_call w v).
Proof.
  intros [Hb Hr Hc] Hv. unfold after_call. split; [done|etrans; [apply map_filter_subseteq|done]|].
  intros Hpos h Hh. specialize (Hc Hpos h Hh). apply bool_decide_eq_true in Hc. apply bool_decide_eq_true.
  apply map_Exists_lookup in Hc as (k & h' & Hk & ->). apply map_Exists_lookup. exists k, h. split; [|done]. simpl.
  apply map_lookup_filter_Some. split; [done|]. simpl. intros [Hbefore Hafter].
  destruct (lv_chunks _ Hb Hpos) as [_ E1], (lv_chunks _ Hv Hpos) as [_ E2].
  rewrite (E1 h Hh), <- (E2 h Hh), Hafter in Hbefore. by destruct Hbefore.
Qed.

Lemma wp_spares_call {A} b (m : eff state cache_err A) w :
  spares w → wp b m (λ _ v, leaves v) (base_world w) → wp b (cache_call m) (λ _ w', spares w') w.
Proof.
  intros Hw Hm. apply wp_cache_call. eapply wp_mono; [exact Hm|]. intros r v Hv. by apply spares_after_call.
Qed.

(** A chunk's row goes when the chunk is not one of the NAR's. *)
Lemma spares_delete_chunk_rows (P : Z * string → Prop) `{!∀ x, Decision (P x)} w :
  (∀ k h, chunk_rows w !! k = Some h → ¬ P (k, h) → h ∉ hashes ∨ (nf_total_chunks nf <= 0)%Z) →
  spares w → spares (set_chunk_rows (filter P (chunk_rows w)) w).
Proof.
  intros Hdel [Hb Hr Hc]. split; [done|simpl; etrans; [apply map_filter_subseteq|done]|].
  intros Hpos h Hh. specialize (Hc Hpos h Hh). apply bool_decide_eq_true in Hc. apply bool_decide_eq_true.
  apply map_Exists_lookup in Hc as (k & h' & Hk & ->). apply map_Exists_lookup. exists k, h. split; [|done]. simpl.
  apply map_lookup_filter_Some. split; [done|]. destruct (decide (P (k, h))) as [|Hn]; [done|].
  destruct (Hdel k h Hk Hn); [done|lia].
Qed.

Lemma delete_as_filter (k : Z) (m : gmap Z string) : delete k m = filter (λ x, x.1 ≠ k) m.
Proof.
  apply map_eq. intros j. destruct (decide (j = k)) as [->|Hne].
  - rewrite lookup_delete_eq. symmetry. apply map_lookup_filter_None. right. intros x _. simpl. tauto.
  - rewrite lookup_delete_ne by done. destruct (m !! j) as [x|] eqn:E; symmetry.
    + by apply map_lookup_filter_Some.
    + apply map_lookup_filter_None. by left.
Qed.

(** A chunk of the start that is not one of the NAR's. *)
Definition other_chunk (c : Z * string) : Prop :=
  chunk_rows w0 !! c.1 = Some c.2 ∧ (c.2 ∉ hashes ∨ (nf_total_chunks nf <= 0)%Z).

Lemma wp_spares_delete_chunk_row b c w : other_chunk c → spares w → wp b (delete_chunk_row c.1) (λ _ w', spares w') w.
Proof.
  intros [Hc Hh] Hw. apply wp_logged, wp_writes_or. case_bool_decide; [|done].
  assert (spares (set_chunk_rows (delete c.1 (chunk_rows w)) w)) as Hd; [|done].
  rewrite delete_as_filter. apply spares_delete_chunk_rows; [|done]. intros k h Hk Hn. simpl in Hn.
  assert (k = c.1) as -> by (destruct (decide (k = c.1)); [done|by destruct Hn]).
  pose proof (lookup_weaken _ _ _ _ Hk (sp_rows _ Hw)) as Hk'. rewrite Hc in Hk'. injection Hk' as <-. done.
Qed.

Lemma wp_spares_DeleteChunk b h w :
  h ∉ hashes ∨ (nf_total_chunks nf <= 0)%Z → spares w → wp b (fsck_DeleteChunk h) (λ _ w', spares w') w.
Proof.
  intros Hh Hw. apply wp_writes_or. case_bool_decide; [|done].
  pose proof (spares_base _ _ Hw (leaves_delete_chunk h _ Hh (sp_base _ Hw))). auto.
Qed.

(** The chunks no row links to. *)
Lemma unlinked_others w c : spares w → c ∈ unlinked_chunks w → other_chunk c.
Proof.
  intros Hw [Hl Hc]%list_elem_of_filter. apply elem_of_map_to_list' in Hc. split.
  - by eapply lookup_weaken, (sp_rows _ Hw).
  - by eapply leaves_unlinked, Hl; apply Hw.
Qed.

(** *** The repairs *)

(** Rows have keys of their own, with queries in the form [Encode] gives them. *)
Hypothesis unique0 : unique_keys (fdb w0).
Hypothesis queries0 : ∀ g x q, nar_files (fdb w0) !! g = Some x → parse_query (nf_query x) = Ok q → encode q = nf_query x.
Notation sparing m := (∀ b w, spares w → wp b m (λ _ w', spares w') w).

Lemma sparing_quiet {A} (m : eff fstate fsck_err A) : quiet m → sparing m.
Proof. intros Hm b w Hw. eapply wp_mono; [apply Hm|]. by intros r w' ->. Qed.

Lemma sparing_bind {A B} (m : eff fstate fsck_err A) (k : A → eff fstate fsck_err B) : sparing m → (∀ a, sparing (k a)) → sparing (m ≫= k).
Proof. intros Hm Hk b w Hw. apply wp_bind. eapply wp_mono; [by apply Hm|]. intros [a|e] w' Hw'; [by apply Hk|done]. Qed.

Lemma sparing_quiet_bind {A B} (m : eff fstate fsck_err A) (k : A → eff fstate fsck_err B) : quiet m → (∀ a, sparing (k a)) → sparing (m ≫= k).
Proof. intros Hm. apply sparing_bind. by apply sparing_quiet. Qed.

Lemma sparing_for_each {A} (g : A → eff fstate fsck_err ()) (P : A → Prop) l :
  Forall P l → (∀ x, P x → sparing (g x)) → sparing (for_each g l).
Proof.
  intros Hl Hg b w Hw. apply wp_for_each; [|done]. intros x w' Hx Hw'. apply Hg; [|done]. by eapply Forall_forall.
Qed.

Lemma sparing_db g : (∀ v, leaves v → leaves (set_db (g (db v)) v)) → sparing (writes edb (λ w, set_fdb (g (fdb w)) w)).
Proof. intros Hg b w Hw. pose proof (spares_base _ _ Hw (Hg _ (sp_base _ Hw))). by apply wp_writes. Qed.

Lemma sparing_logged m : sparing m → sparing (logged m).
Proof. intros Hm b w Hw. by apply wp_logged, Hm. Qed.

Lemma sparing_delete_narinfo j : j ≠ i → sparing (delete_narinfo_row j).
Proof. intros Hj. apply sparing_logged, sparing_db. intros v. by apply leaves_delete_narinfo. Qed.

Lemma sparing_delete_file_rows x : other_row x → sparing (delete_file_rows x.2).
Proof. intros Hx. apply sparing_logged, sparing_db. intros v. by apply leaves_delete_row. Qed.

Lemma sparing_repair_file x (check : Z * nar_file → eff fstate fsck_err bool) :
  other_row x → quiet (check x) → sparing (broken ← check x; if broken : bool then delete_file_rows x.2 else mret ()).
Proof.
  intros Hx Hq. apply sparing_quiet_bind; [done|]. intros []; [by apply sparing_delete_file_rows|apply sparing_quiet, quiet_ret].
Qed.

Lemma sparing_relink x : sparing (relinkNarInfoToBackingNarFile x).
Proof.
  unfold relinkNarInfoToBackingNarFile. destruct (is_empty _); [apply sparing_quiet, quiet_ret|].
  destruct (ParseURL _) as [u|]; [|apply sparing_quiet, quiet_ret]. apply sparing_quiet_bind; [check_quiet|]. intros o.
  apply sparing_quiet_bind; [destruct o; [apply quiet_ret|check_quiet]|]. intros [[g y]|]; [|apply sparing_quiet, quiet_ret].
  apply sparing_bind; [|intros _; apply sparing_quiet, quiet_ret]. intros b w Hw. apply wp_writes_or. case_bool_decide; [|done].
  assert (spares (set_fdb (add_link x.1 g (fdb w)) w)) as Hs; [|auto].
  apply spares_base; [done|]. apply leaves_links; [|apply Hw]. intros z Hz. unfold add_pair. case_bool_decide; [done|]. by apply elem_of_app; left.
Qed.

Lemma sparing_repair_narinfo x : x.1 ≠ i → sparing (repair_narinfo x).
Proof.
  intros Hx. apply sparing_quiet_bind; [check_quiet|]. intros []; simpl; [|apply sparing_quiet, quiet_ret].
  apply sparing_bind; [apply sparing_relink|]. intros []; [apply sparing_quiet, quiet_ret|by apply sparing_delete_narinfo].
Qed.

(** What a deletion orphans is not linked. *)
Lemma sparing_sweep_new_orphans ids : sparing (sweep_new_orphans ids).
Proof.
  intros b w Hw. apply wp_bind, wp_reads; [done|]. apply (sparing_for_each _ (λ j, j ≠ i)); [|by intros j Hj; apply sparing_delete_narinfo|done].
  apply Forall_forall. intros j [_ Hj]%list_elem_of_filter ->. apply list_elem_of_fmap in Hj as (x & Hx & [Hno _]%list_elem_of_filter).
  apply Hno. rewrite <- Hx. apply list_elem_of_fmap. exists (i, f). split; [done|]. exact (lv_link _ (sp_base _ Hw)).
Qed.

Lemma sparing_sweep_orphaned_chunks : sparing sweep_orphaned_chunks.
Proof.
  intros b w Hw. apply wp_bind, wp_reads; [done|]. apply (sparing_for_each _ other_chunk); [|clear b w Hw|done].
  { apply Forall_forall. intros c. by apply unlinked_others. }
  intros c Hc. apply sparing_bind; [|intros _ b w; by apply wp_spares_delete_chunk_row].
  apply sparing_logged. intros b w. apply wp_spares_DeleteChunk, Hc.
Qed.

Lemma sparing_repairCDCNarFiles l check :
  Forall other_row l → (∀ x, quiet (check x)) → sparing (repairCDCNarFiles l check).
Proof.
  intros Hl Hq. apply sparing_quiet_bind; [check_quiet|]. intros ids. apply sparing_bind.
  { apply (sparing_for_each _ other_row); [done|]. intros x Hx. by apply sparing_repair_file. }
  intros _. apply sparing_bind; [apply sparing_sweep_new_orphans|]. intros _. apply sparing_sweep_orphaned_chunks.
Qed.

Lemma sparing_repairSizeMismatch l : Forall other_row l → sparing (repairSizeMismatchCDCNarFiles l).
Proof.
  intros Hl. unfold repairSizeMismatchCDCNarFiles. case_bool_decide; [apply sparing_quiet, quiet_ret|].
  apply sparing_quiet_bind; [check_quiet|]. intros ids. apply sparing_quiet_bind; [check_quiet|]. intros re. apply sparing_bind.
  { apply (sparing_for_each _ other_row); [done|]. intros x Hx. case_bool_decide; [by apply sparing_delete_file_rows|apply sparing_quiet, quiet_ret]. }
  intros _. apply sparing_bind; [apply sparing_sweep_new_orphans|]. intros _. apply sparing_sweep_orphaned_chunks.
Qed.

Lemma leaves_delete_stale v : leaves v → leaves (set_db (delete_stale_links (db v)) v).
Proof.
  intros [Hu Hfs Hf Hr Hhs Hl Hc Hs]. split; try done; [by split; apply Hu|]. intros Hpos. destruct (Hc Hpos) as [Hh Hb].
  split; [|done]. rewrite <- Hh. unfold links_of. f_equal. simpl. destruct (nar_file_chunks (db v) !! f) as [l|] eqn:E.
  - apply map_lookup_filter_Some. split; [done|]. unfold dechunked. simpl. rewrite Hf. apply andb_false_iff. left. by apply Z.leb_gt.
  - apply map_lookup_filter_None. by left.
Qed.

Lemma sparing_reclaim fuel n : sparing (reclaim_pages fuel n).
Proof.
  revert n. induction fuel as [|fuel IH]; intros n; simpl; [apply sparing_quiet, quiet_ret|]. intros b w Hw.
  apply wp_bind, wp_reads; [done|]. set (orphaned := take _ _). destruct (bool_decide _); [by apply wp_ret|].
  assert (∀ c, c ∈ orphaned → other_chunk c) as Ho.
  { intros c Hc. apply subseteq_take in Hc. by eapply unlinked_others. }
  assert (∀ k h, chunk_rows w0 !! k = Some h → k ∈ orphaned.*1 → h ∉ hashes ∨ (nf_total_chunks nf <= 0)%Z) as Hrows.
  { intros k h Hk (c & -> & Hin)%list_elem_of_fmap. apply Ho in Hin as [Hk' Hh]. rewrite Hk in Hk'. by injection Hk' as ->. }
  clearbody orphaned. revert b w Hw. apply sparing_bind.
  - apply (sparing_for_each _ (λ h, h ∉ hashes ∨ (nf_total_chunks nf <= 0)%Z)).
    + apply Forall_forall. intros h (c & -> & Hc)%list_elem_of_fmap. by apply Ho.
    + intros h Hh. apply sparing_quiet_bind; [apply quiet_reads|]. intros []; [|apply sparing_quiet, quiet_ret].
      intros b w. by apply wp_spares_DeleteChunk.
  - intros _. apply sparing_bind; [|intros _; apply IH]. intros b w Hw.
    assert (spares (set_chunk_rows (filter (λ x, x.1 ∉ orphaned.*1) (chunk_rows w)) w)) as Hs.
    { apply spares_delete_chunk_rows; [|done]. intros k h Hk Hn. apply (Hrows k); [by eapply lookup_weaken, (sp_rows _ Hw)|].
      destruct (decide (k ∈ orphaned.*1)); [done|]. by destruct Hn. }
    by apply wp_writes.
Qed.

Lemma sparing_reclaimStaleChunkLinks : sparing reclaimStaleChunkLinks.
Proof.
  apply sparing_bind.
  - intros b w Hw. pose proof (spares_base _ _ Hw (leaves_delete_stale _ (sp_base _ Hw))). by apply wp_writes_ret.
  - intros n. destruct (n =? 0); [apply sparing_quiet, quiet_ret|]. apply sparing_bind; [|intros m; apply sparing_quiet, quiet_ret].
    intros b w Hw s Hs Hc. by apply (sparing_reclaim _ 0 b w Hw s).
Qed.

Lemma sparing_desync : sparing repairNarInfoCompressionDesync.
Proof.
  apply sparing_quiet_bind; [apply quiet_reads|]. intros l. apply sparing_bind; [|intros m; apply sparing_quiet, quiet_ret].
  assert (∀ x, sparing (repairOneNarInfoCompressionDesync x)) as Hone.
  { intros x. unfold repairOneNarInfoCompressionDesync. destruct (is_empty _); [apply sparing_quiet, quiet_ret|].
    destruct (ParseURL _) as [u|]; [|apply sparing_quiet, quiet_ret]. apply sparing_quiet_bind; [apply quiet_reads|].
    intros []; [apply sparing_quiet, quiet_ret|]. apply sparing_quiet_bind; [apply quiet_reads|].
    intros []; simpl; [|apply sparing_quiet, quiet_ret]. apply sparing_quiet_bind; [apply quiet_lift|]. intros url.
    apply sparing_bind; [|intros _; apply sparing_quiet, quiet_ret]. apply sparing_db. intros v. apply leaves_renormalize. }
  intros b w Hw. eapply wp_mono; [apply (wp_keep_if b spares (λ _, True)); [|done]|by intros r w' [Hw' _]].
  intros x w' _ Hw'. eapply wp_mono; [by apply Hone|]. auto.
Qed.

(** *** The janitor *)

(** Its narinfo verifies the NAR. *)
Lemma wp_resolvable b u v :
  leaves v → wp b (LinkedNarinfoNarHash f u) (λ r v', v' = v ∧ ∀ o, r = Ok o → is_Some o) v.
Proof.
  intros Hv. unfold LinkedNarinfoNarHash. apply wp_bind, wp_query; [done|].
  destruct (lv_narinfo _ Hv) as (r & Hr & Hn).
  assert (∀ x, x ∈ filter (λ x, (x.1, f) ∈ links (db v) ∧ r_nar_hash x.2 ≠ None) (map_to_list (narinfos (db v))) →
    parse_nar_hash (r_nar_hash x.2) ≠ Ok None) as Hall.
  { intros [j x] [[_ Hx] Hin]%list_elem_of_filter. apply elem_of_map_to_list, (lv_hashes _ Hv) in Hin. simpl in *.
    unfold parse_nar_hash, parseValidHashPtr. destruct (r_nar_hash x) as [[|c y]|]; [by destruct Hin| |by destruct Hx].
    unfold is_empty. rewrite bool_decide_eq_false_2 by (by intros [[=]|[=]]). simpl. destruct (parse _); discriminate. }
  assert ((i, r) ∈ filter (λ x, (x.1, f) ∈ links (db v) ∧ r_nar_hash x.2 ≠ None) (map_to_list (narinfos (db v)))) as Hin.
  { apply list_elem_of_filter. split; [split; [exact (lv_link _ Hv)|done]|]. by apply elem_of_map_to_list. }
  destruct (filter _ _) as [|[j x] l]; simpl; [by apply elem_of_nil in Hin|].
  apply wp_lift. split; [done|]. intros o Ho. pose proof (Hall (j, x) (list_elem_of_here _ _)) as Hh. simpl in Hh. rewrite Ho in Hh. by destruct o.
Qed.

Lemma sparing_reconcile_row x u d :
  (d_reclaim d = true → ¬ has_key (Hash u) CompressionTypeNone (encode (Query u)) nf) → sparing (reconcile_row now cfg x u d).
Proof.
  intros Hd.
  assert (∀ m, sparing m → sparing (counted m)) as Hcount.
  { intros m Hm b w Hw. apply wp_bind, wp_try. eapply wp_mono; [by apply Hm|]. intros r w' Hw'. by apply wp_ret. }
  assert (∀ g, sparing (writes_or edb (update_file_row x.1 (λ w, set_residue_flags (g w) w)))) as Hflag.
  { intros g b w Hw. apply wp_writes_or. unfold update_file_row. destruct (nar_files _ !! x.1); [|done].
    assert (spares (set_residue_flags (g w) w)) as Hs by by apply (spares_side w). auto. }
  unfold reconcile_row. destruct (d_skip d); [apply sparing_quiet, quiet_ret|]. destruct (_ || _).
  - apply sparing_bind.
    { destruct (d_normalizeURL d); [|apply sparing_quiet, quiet_ret]. apply Hcount. intros b w Hw.
      apply wp_spares_call; [done|]. apply leaves_NormalizeChunkedNarInfoURL, Hw. }
    intros n. destruct (_ && _); [apply sparing_quiet, quiet_ret|]. apply sparing_bind; [|intros ?; apply sparing_quiet, quiet_ret].
    destruct (d_clearFlag d); [|apply sparing_quiet, quiet_ret]. apply Hcount, Hflag.
  - destruct (d_setFlag d); [apply sparing_bind; [apply Hcount, Hflag|intros ?; apply sparing_quiet, quiet_ret]|].
    destruct (d_reclaim d); [|apply sparing_quiet, quiet_ret]. apply sparing_bind; [|intros ?; apply sparing_quiet, quiet_ret].
    apply Hcount. intros b w Hw. apply wp_spares_call; [done|]. apply leaves_PurgeChunkedNar; [by apply Hd|apply Hw].
Qed.

Lemma resolvable_kept inconsistent flagged started grace ttl :
  d_reclaim (decideChunkedResidue now true inconsistent flagged started grace ttl) = false.
Proof. unfold decideChunkedResidue. destruct started as [t|]; [by destruct (_ <? _)%Z|done]. Qed.

(** A row of the janitor's pages: only another row is purged. *)
Lemma wp_classify {B} b grace flags times (fn : Z * nar_file → URL → residueDecision → eff fstate fsck_err B) x w (P : B → Prop) :
  nar_files (fdb w0) !! x.1 = Some x.2 → nf_compression x.2 = CompressionTypeNone → spares w →
  (∀ u d w, (d_reclaim d = true → ¬ has_key (Hash u) CompressionTypeNone (encode (Query u)) nf) → spares w →
     wp b (fn x u d) (λ r w', spares w' ∧ ∀ y, r = Ok y → P y) w) →
  wp b (classify now grace flags times fn x) (λ r w', spares w' ∧ ∀ y, r = Ok y → P y) w.
Proof.
  intros Hx Hnone Hw Hfn. unfold classify. apply wp_bind, wp_lift. unfold narFileRowToURL.
  destruct (parse_query (nf_query x.2)) as [q|] eqn:Hq; simpl; [|by split].
  set (u := mkURL _ _ _ _ _). apply wp_bind.
  assert (x.1 = f ∨ ¬ has_key (Hash u) CompressionTypeNone (encode (Query u)) nf) as Hcase.
  { destruct (decide (x.1 = f)) as [|Hne]; [by left|right]. intros Hk. apply Hne. unfold u in Hk. simpl in Hk.
    rewrite (queries0 _ _ _ Hx Hq) in Hk. eapply (unique_file _ unique0); [exact Hx| |by split_and!|exact Hk].
    eapply lookup_weaken; [exact (lv_row _ (sp_base _ Hw))|exact (lv_files _ (sp_base _ Hw))]. }
  apply (wp_mono _ (λ r w', spares w' ∧ (x.1 = f → ∀ o, r = Ok o → is_Some o))).
  { apply wp_cache_call. destruct (decide (x.1 = f)) as [Hf|Hf].
    - rewrite Hf. eapply wp_mono; [apply wp_resolvable, Hw|]. intros r v [-> Hr]. split; [apply spares_after_call; [done|apply Hw]|].
      intros _ o Ho. destruct r as [o'|]; [|done]. simpl in Ho. injection Ho as <-. by apply Hr.
    - eapply wp_mono; [apply (looks_LinkedNarinfoNarHash (base_world w)); done|]. intros r v <-. split; [|done].
      apply spares_after_call; [done|apply Hw]. }
  intros [h|e] w1 [H1 Hres]; [|by split]. apply wp_bind. apply (wp_mono _ (λ _ w', w' = w1)).
  { destruct (bool_decide (is_Some h)); [|by apply wp_ret]. apply wp_bind, wp_lift. destruct (fsck_url_string u); [|done].
    by apply wp_reads. }
  intros [inconsistent|e] w' ->; [|by split]. apply Hfn; [|done]. intros Hrec. destruct Hcase as [Hf|]; [|done]. exfalso.
  specialize (Hres Hf h eq_refl). rewrite bool_decide_eq_true_2 in Hrec by done. by rewrite resolvable_kept in Hrec.
Qed.

Lemma wp_forEach {B} b grace (fn : Z * nar_file → URL → residueDecision → eff fstate fsck_err B) w (P : B → Prop) :
  spares w →
  (∀ x u d w, nar_files (fdb w0) !! x.1 = Some x.2 →
     (d_reclaim d = true → ¬ has_key (Hash u) CompressionTypeNone (encode (Query u)) nf) → spares w →
     wp b (fn x u d) (λ r w', spares w' ∧ ∀ y, r = Ok y → P y) w) →
  wp b (forEachChunkedResidue now grace fn) (λ r w', spares w' ∧ ∀ l, r = Ok l → Forall P l) w.
Proof.
  intros Hw Hfn. apply wp_scan_all; [|done]. clear w Hw. intros page w Hw Hpage.
  assert (∀ x, x ∈ page → nar_files (fdb w0) !! x.1 = Some x.2 ∧ nf_compression x.2 = CompressionTypeNone) as Hrows.
  { intros x Hx. apply Hpage in Hx. apply list_elem_of_filter in Hx as [Hn [_ Hx]%list_elem_of_filter]. apply elem_of_map_to_list' in Hx.
    split; [|done]. eapply lookup_weaken; [exact Hx|exact (lv_files _ (sp_base _ Hw))]. }
  clear Hpage. apply wp_bind. intros s <- Hc. split; [exact Hc|]. change (view s) with (fst_world s) in *. simpl.
  generalize (residue_flagged_at (fst_world s)), (chunking_times (fst_world s)). intros flags times.
  revert Hw. generalize (fst_world s). clear s Hc. induction page as [|x page IH]; intros w Hw; simpl.
  { apply wp_ret. split; [done|]. by intros l [= <-]. }
  destruct (Hrows x) as [Hx Hnone]; [by left|]. apply wp_bind.
  eapply wp_mono; [by apply (wp_classify b grace flags times fn x w P); auto|].
  intros [y|e] w1 [H1 Hy]; [|by split]. apply wp_bind. eapply wp_mono; [apply IH; [|done]; intros z Hz; apply Hrows; by right|].
  intros [rest|e] w2 [H2 Hr]; [|by split]. apply wp_ret. split; [done|]. intros l [= <-]. constructor; auto.
Qed.

Lemma sparing_reconcile grace : sparing (reconcileChunkedResidue now cfg grace).
Proof.
  apply sparing_bind; [|intros l; apply sparing_quiet, quiet_ret]. intros b w Hw.
  eapply wp_mono; [apply (wp_forEach b grace _ w (λ _, True) Hw)|by intros r w' [Hw' _]].
  intros x u d w' _ Hd Hw'. eapply wp_mono; [by apply sparing_reconcile_row|]. auto.
Qed.

(** *** The checks clear the row *)

(** The chunks are all there and are what they should be, for every narinfo of the row;
    or the file is where the row says, and no other file's name leads to it.  A narinfo
    with an empty digest, which the cache never stores, could stand in for the row's. *)
Record sane : Prop := {
  sn_row : nar_files (fdb w0) !! f = Some nf;
  sn_narinfo : ∃ r, narinfos (fdb w0) !! i = Some r ∧ r_nar_hash r ≠ None;
  sn_link : (i, f) ∈ links (fdb w0);
  sn_hashes j r : narinfos (fdb w0) !! j = Some r → r_nar_hash r ≠ Some "";
  sn_rows h : (0 < nf_total_chunks nf)%Z → h ∈ hashes → chunk_row_exists h w0 = true;
  sn_count : (0 < nf_total_chunks nf)%Z → Z.of_nat (length hashes) = nf_total_chunks nf;
  sn_chunk h : (0 < nf_total_chunks nf)%Z → h ∈ hashes → ∃ b, chunkFiles (base_world w0) !! h = Some b ∧ digest b = h;
  sn_size j r z : (0 < nf_total_chunks nf)%Z → (j, f) ∈ links (fdb w0) → narinfos (fdb w0) !! j = Some r →
    r_nar_size r = Some z → to_int64 (nf_file_size nf) = z;
  sn_content j r e : (0 < nf_total_chunks nf)%Z → (j, f) ∈ links (fdb w0) → narinfos (fdb w0) !! j = Some r →
    parse_nar_hash (r_nar_hash r) = Ok (Some e) → sha256 (concat_strings (chunk_bytes w0 <$> hashes)) = Digest e;
  sn_file : (nf_total_chunks nf <= 0)%Z → nf_query nf = "" ∧ nf_compression nf ≠ "" ∧ normalized_match (nf_hash nf) = true ∧
    nar_path (mkURL (nf_hash nf) (nf_compression nf) ∅ false "") = Ok p ∧ is_Some (narStore (base_world w0) !! p);
  sn_names q u : (nf_total_chunks nf <= 0)%Z → is_Some (narStore (base_world w0) !! q) → ParseURL (base q) = Ok u → nar_path u = Ok p → q = p;
}.
Hypothesis Hsane : sane.

(** Only stamps change while suspects are collected. *)
Definition same (w : fworld) : Prop := base_world w = base_world w0 ∧ chunk_rows w = chunk_rows w0.

Lemma start_spares : spares w0.
Proof.
  destruct Hsane. split; [split|done|auto]; try done. all: by apply unique0.
Qed.

Lemma same_spares w : same w → spares w.
Proof. intros [Hb Hr]. apply (spares_side w0); [done..|]. exact start_spares. Qed.

Lemma wp_same {A} b (m : eff fstate fsck_err A) (Q : result fsck_err A → fworld → Prop) w :
  wp b m Q w → quiet m → same w → wp b m (λ r w', same w' ∧ Q r w') w.
Proof.
  intros Hm Hq Hw s Hs Hc. destruct (Hm s Hs Hc) as [Hc' HQ]. split; [done|]. split; [|done].
  destruct (Hq b w s Hs Hc) as [_ ->]. exact Hw.
Qed.

Lemma same_stamp b g w : same w → wp b (stamp now g) (λ _ w', same w') w.
Proof.
  intros Hw. apply wp_logged, wp_writes_or. unfold update_file_row. destruct (nar_files _ !! g); [|done]. auto.
Qed.

Let u0 : URL := mkURL (nf_hash nf) (nf_compression nf) ∅ false "".

Lemma whole_row_url : (nf_total_chunks nf <= 0)%Z → row_url nf = Ok u0 ∧ ParseURL (base p) = Ok u0.
Proof.
  intros Hz. destruct (sn_file Hsane Hz) as (Hq & Hc & Hn & Hp & _). split.
  - unfold row_url, narFileRowToURL. rewrite Hq, parse_query_empty. done.
  - destruct (walked_name _ _ Hp) as (v & ct & Hv & Hparse & _ & Hct). rewrite Hparse, (Hct Hc). simpl.
    destruct (Normalize_inv _ _ Hv) as (_ & _ & Hl). simpl in Hl. rewrite (lenient_submatch_normalized _ Hn) in Hl.
    by injection Hl as <-.
Qed.

Lemma walked_row w : same w → (nf_total_chunks nf <= 0)%Z → u0 ∈ walked_nars w.
Proof.
  intros [Hb _] Hz. destruct (sn_file Hsane Hz) as (_ & _ & _ & _ & [x Hx]). destruct (whole_row_url Hz) as [_ Hparse].
  unfold walked_nars. rewrite Hb. apply list_elem_of_omap. exists (p, x). split; [by apply elem_of_map_to_list|].
  simpl. by rewrite Hparse.
Qed.

(** A walked name leads to the file only if it is the row's. *)
Lemma walked_path w u : same w → u ∈ walked_nars w → nar_path u = Ok p → (nf_total_chunks nf <= 0)%Z → u = u0.
Proof.
  intros [Hb _] Hu Hp Hz. destruct (whole_row_url Hz) as [_ Hparse]. unfold walked_nars in Hu. rewrite Hb in Hu.
  apply list_elem_of_omap in Hu as ([q x] & Hq%elem_of_map_to_list & Hu). simpl in Hu.
  destruct (ParseURL (base q)) as [v|] eqn:Hv; [|done]. injection Hu as ->.
  assert (q = p) as -> by (eapply (sn_names Hsane); [done|by rewrite Hq|done|done]). congruence.
Qed.

Lemma row_at_start : nar_files (fdb w0) !! f = Some nf.
Proof. exact (sn_row Hsane). Qed.

Lemma file_row_of w x : same w → x ∈ map_to_list (nar_files (fdb w)) → x.1 ≠ f → other_row x.
Proof. intros [Hb _] Hx%elem_of_map_to_list' Hne. unfold fdb in Hx. rewrite Hb in Hx. by split. Qed.

Lemma own_row w nf' : same w → (f, nf') ∈ map_to_list (nar_files (fdb w)) → nf' = nf.
Proof.
  intros [Hb _] Hx%elem_of_map_to_list'. simpl in Hx. unfold fdb in Hx. rewrite Hb in Hx. pose proof row_at_start as Hf. unfold fdb in Hf.
  rewrite Hf in Hx. by injection Hx.
Qed.

Lemma sane_chunks_linked w h : same w → (0 < nf_total_chunks nf)%Z → h ∈ links_of f (fdb w) → chunk_row_exists h w = true.
Proof.
  intros Hw Hpos Hh. apply (sp_chunks _ (same_spares w Hw) Hpos). destruct Hw as [Hb _]. unfold fdb in Hh. by rewrite Hb in Hh.
Qed.

Lemma wp_own_chunks b w : same w → (0 < nf_total_chunks nf)%Z →
  wp b (chunksForNarFile f) (λ r w', w' = w ∧ ∀ l, r = Ok l → l = hashes) w.
Proof.
  intros Hw Hpos. eapply wp_mono; [apply wp_chunksForNarFile; intros h; by apply sane_chunks_linked|].
  intros r w' [-> Hl]. split; [done|]. intros l ->. rewrite (Hl l eq_refl). destruct Hw as [Hb _]. unfold fdb. by rewrite Hb.
Qed.

Lemma wp_not_broken b w : same w → (0 < nf_total_chunks nf)%Z → wp b (isNarFileChunkBroken (f, nf)) (λ r w', r ≠ Ok true) w.
Proof.
  intros Hw Hpos. apply wp_bind. eapply wp_mono; [by apply wp_own_chunks|]. intros [l|e] w' [-> Hl]; [|done].
  rewrite (Hl l eq_refl). simpl. rewrite bool_decide_eq_true_2 by (by apply (sn_count Hsane)). simpl.
  eapply wp_mono; [apply wp_some_missing|by intros r w' [_ Hr]]. intros h Hh. destruct Hw as [Hb _]. rewrite Hb.
  destruct (sn_chunk Hsane h Hpos Hh) as (x & -> & _). by eexists.
Qed.

Lemma wp_not_corrupt b w : same w → (0 < nf_total_chunks nf)%Z → wp b (isNarFileContentCorrupt (f, nf)) (λ r w', r ≠ Ok true) w.
Proof.
  intros Hw Hpos. apply wp_bind. eapply wp_mono; [by apply wp_own_chunks|]. intros [l|e] w' [-> Hl]; [|done].
  rewrite (Hl l eq_refl). eapply wp_mono; [apply wp_some_corrupt|by intros r w' [_ Hr]]. intros h x Hh Hx. destruct Hw as [Hb _].
  rewrite Hb in Hx. destruct (sn_chunk Hsane h Hpos Hh) as (y & Hy & Hd). rewrite Hy in Hx. by injection Hx as <-.
Qed.

Lemma wp_not_mismatched b w : same w → (0 < nf_total_chunks nf)%Z → wp b (isNarFileHashMismatched (f, nf)) (λ r w', r ≠ Ok true) w.
Proof.
  intros Hw Hpos. apply wp_bind, wp_reads; [done|]. simpl. destruct (filter _ _) as [|[j r] l] eqn:Hfil; simpl; [by apply wp_ret|].
  assert ((j, r) ∈ filter (λ y, (y.1, f) ∈ links (fdb w)) (map_to_list (narinfos (fdb w)))) as Hin by (rewrite Hfil; by left).
  apply list_elem_of_filter in Hin as [Hlink Hin]. apply elem_of_map_to_list in Hin. simpl in Hlink.
  apply wp_bind, wp_lift. destruct (parse_nar_hash _) as [[e|]|] eqn:He; simpl; [|by apply wp_ret|done].
  apply wp_bind. eapply wp_mono; [by apply wp_own_chunks|]. intros [hs|e'] w' [-> Hl]; [|done]. rewrite (Hl hs eq_refl).
  apply wp_bind. eapply wp_mono; [apply wp_assemble|]. intros [x|e'] w' [-> Hx]; [|done]. apply wp_ret. rewrite (Hx x eq_refl).
  destruct Hw as [Hb _]. unfold fdb in Hlink, Hin. rewrite Hb in Hlink, Hin.
  assert (chunk_bytes w <$> hashes = chunk_bytes w0 <$> hashes) as -> by (unfold chunk_bytes; by rewrite Hb).
  rewrite bool_decide_eq_true_2; [done|]. by eapply (sn_content Hsane).
Qed.

Lemma mapM_elem {A B} (g : A → result fsck_err B) l l' x : mapM g l = Ok l' → x ∈ l → ∃ y, g x = Ok y ∧ y ∈ l'.
Proof.
  revert l'. induction l as [|a l IH]; intros l' Hm Hx; [by apply elem_of_nil in Hx|]. simpl in Hm.
  apply bind_Ok_inv in Hm as (y & Hy & Hm). apply bind_Ok_inv in Hm as (ys & Hys & [= <-]).
  apply elem_of_cons in Hx as [->|Hx]; [exists y; split; [done|by left]|]. destruct (IH ys Hys Hx) as (z & ? & ?). exists z. split; [done|by right].
Qed.

Definition row_of_start (x : Z * nar_file) : Prop := nar_files (fdb w0) !! x.1 = Some x.2.

Lemma rows_of_start w : same w → Forall row_of_start (map_to_list (nar_files (fdb w))).
Proof.
  intros [Hb _]. apply Forall_forall. intros x Hx%elem_of_map_to_list'. unfold fdb in Hx. by rewrite Hb in Hx.
Qed.

Lemma Forall_filter_of {A} (P Q : A → Prop) `{!∀ x, Decision (Q x)} l : Forall P l → Forall P (filter Q l).
Proof. intros Hl. apply Forall_forall. intros x [_ Hx]%list_elem_of_filter. by eapply Forall_forall. Qed.

Lemma own_of_start x : row_of_start x → x.1 = f → x = (f, nf).
Proof. intros Hx Hf. destruct x as [g y]. simpl in Hf. subst g. unfold row_of_start in Hx. simpl in Hx. rewrite row_at_start in Hx. by injection Hx as <-. Qed.

(** A check that clears the row keeps other rows only. *)
Lemma wp_keep_others b (check : Z * nar_file → eff fstate fsck_err bool) l w :
  Forall row_of_start l →
  (∀ x w, x ∈ l → same w → wp b (check x) (λ r w', same w' ∧ (x = (f, nf) → r ≠ Ok true)) w) → same w →
  wp b (keep_if check l) (λ r w', same w' ∧ ∀ l', r = Ok l' → Forall other_row l') w.
Proof.
  intros Hl Hcheck Hw. eapply wp_mono; [apply (wp_keep_if b same other_row); [|done]|].
  - intros x w' Hx Hw'. eapply wp_mono; [by apply Hcheck|]. intros r w1 [H1 Hr]. split; [done|]. intros ->. rewrite Forall_forall in Hl.
    specialize (Hl x Hx). split; [exact Hl|]. intros Hf. by apply Hr; [apply own_of_start|].
  - intros r w' [Hw' Hr]. split; [done|]. intros l' ->. apply Forall_forall. intros x Hx. by apply (Hr l' eq_refl).
Qed.

(** Checks on chunked rows. *)
Lemma wp_keep_chunked b (check : Z * nar_file → eff fstate fsck_err bool) l w :
  (∀ x, quiet (check x)) → (∀ w, same w → (0 < nf_total_chunks nf)%Z → wp b (check (f, nf)) (λ r _, r ≠ Ok true) w) →
  Forall row_of_start l → Forall (λ x, 0 < nf_total_chunks x.2)%Z l → same w →
  wp b (keep_if check l) (λ r w', same w' ∧ ∀ l', r = Ok l' → Forall other_row l') w.
Proof.
  intros Hq Hcheck Hl Hpos. apply wp_keep_others; [done|]. intros x w' Hx Hw'.
  destruct (decide (x.1 = f)) as [Hf|Hne].
  - rewrite Forall_forall in Hl. apply own_of_start in Hf as ->; [|by apply Hl]. rewrite Forall_forall in Hpos. specialize (Hpos _ Hx).
    eapply wp_mono; [apply wp_same; [by apply Hcheck|apply Hq|done]|].
    intros r w1 [H1 Hr]. auto.
  - eapply wp_mono; [apply wp_same; [apply (Hq _ b w')|apply Hq|done]|]. intros r w1 [H1 _]. split; [done|]. by intros ->.
Qed.

Lemma wp_keep_missing b present l w :
  ((nf_total_chunks nf <= 0)%Z → ∀ s, fsck_url_string u0 = Ok s → s ∈ present) → Forall row_of_start l → Forall (λ x, nf_total_chunks x.2 <= 0)%Z l → same w →
  wp b (keep_if (missing_from now present) l) (λ r w', same w' ∧ ∀ l', r = Ok l' → Forall other_row l') w.
Proof.
  intros Hpres Hl Hz. apply wp_keep_others; [done|]. intros x w' Hx Hw'. unfold missing_from.
  apply wp_bind, wp_lift. destruct (row_url x.2) as [u|] eqn:Hu; [|by split].
  apply wp_bind, wp_lift. destruct (fsck_url_string u) as [s|] eqn:Hs; [|by split].
  case_bool_decide as Hin.
  - apply wp_bind. eapply wp_mono; [by apply same_stamp|]. intros [[]|e] w1 H1; [|by split]. apply wp_ret. by split.
  - apply wp_ret. split; [done|]. intros ->. exfalso. rewrite Forall_forall in Hz. specialize (Hz _ Hx). simpl in *.
    apply Hin, Hpres; [done|].
    destruct (whole_row_url Hz) as [Hu' _]. rewrite Hu in Hu'. by injection Hu' as ->.
Qed.

Lemma wp_sizes_others b w :
  same w → wp b queryCDCNarFilesWithSizeMismatch (λ r w', same w' ∧ ∀ l, r = Ok l → Forall other_row l) w.
Proof.
  intros Hw. apply wp_scan_all; [|done]. clear w Hw. intros page w Hw Hpage. apply wp_reads; [by split|]. split; [done|].
  intros out [= <-]. apply Forall_forall. intros x [Hm Hx]%list_elem_of_filter. apply Hpage in Hx.
  apply list_elem_of_filter in Hx as [Hpos Hx]. pose proof (rows_of_start w Hw) as Hrows. rewrite Forall_forall in Hrows.
  specialize (Hrows x Hx). split; [exact Hrows|]. intros Hf. apply own_of_start in Hf; [|done]. subst x. simpl in *.
  unfold size_mismatch in Hm. apply existsb_exists in Hm as ([j o] & Hin%list_elem_of_In & Hm). unfold links_with_narinfo in Hin.
  apply list_elem_of_fmap in Hin as ([j' f'] & [= -> ->] & [Hf' Hlink]%list_elem_of_filter). simpl in *. subst f'.
  destruct (narinfos (fdb w) !! j') as [r|] eqn:Hr; [|done]. destruct (r_nar_size r) as [z|] eqn:Hz; [|done].
  destruct Hw as [Hb _]. unfold fdb in Hr, Hlink. rewrite Hb in Hr, Hlink.
  rewrite bool_decide_eq_true_2 in Hm; [done|]. by eapply (sn_size Hsane).
Qed.

Lemma wp_keep_unlisted b l w :
  Forall (λ u, u ∈ walked_nars w0) l → same w →
  wp b (keep_if no_row_for l) (λ r w', same w' ∧ ∀ l', r = Ok l' → Forall (λ u, nar_path u ≠ Ok p ∨ (0 < nf_total_chunks nf)%Z) l') w.
Proof.
  intros Hl Hw. eapply wp_mono; [apply (wp_keep_if b same (λ u, nar_path u ≠ Ok p ∨ (0 < nf_total_chunks nf)%Z)); [|done]|].
  - intros u w' Hu Hw'. rewrite Forall_forall in Hl. specialize (Hl u Hu). apply wp_bind, wp_reads; [by split|]. apply wp_ret. split; [done|].
    intros [= Hno]. apply negb_true_iff in Hno. destruct (Z_lt_le_dec 0 (nf_total_chunks nf)) as [|Hz]; [by right|left]. intros Hp.
    assert (u = u0) as -> by by apply (walked_path w0); [split|..]. destruct (sn_file Hsane Hz) as (Hq & _). simpl in Hno.
    unfold nar_file_exists in Hno. apply negb_false_iff, bool_decide_eq_true in Hno. change (encode ∅) with "" in Hno.
    assert ((f, nf) ∈ nar_files_where (nf_hash nf) (nf_compression nf) "" (fdb w')) as Hin; [|rewrite Hno in Hin; by apply elem_of_nil in Hin].
    unfold nar_files_where, rows_where. apply elem_of_map_to_list, map_lookup_filter_Some. destruct Hw' as [Hb _]. unfold fdb. rewrite Hb.
    split; [exact row_at_start|by split_and!].
  - intros r w' [Hw' Hr]. split; [done|]. intros l' ->. apply Forall_forall. intros u Hu. by apply (Hr l' eq_refl).
Qed.

Lemma wp_keep_chunk_files b l w :
  same w → wp b (keep_if no_chunk_row_for l)
    (λ r w', same w' ∧ ∀ l', r = Ok l' → Forall (λ h, h ∉ hashes ∨ (nf_total_chunks nf <= 0)%Z) l') w.
Proof.
  intros Hw. eapply wp_mono; [apply (wp_keep_if b same (λ h, h ∉ hashes ∨ (nf_total_chunks nf <= 0)%Z)); [|done]|].
  - intros h w' Hh Hw'. apply wp_bind, wp_reads; [by split|]. apply wp_ret. split; [done|]. intros [= Hno]. apply negb_true_iff in Hno.
    destruct (Z_lt_le_dec 0 (nf_total_chunks nf)) as [Hpos|]; [left|by right]. intros Hin.
    by rewrite (sp_chunks _ (same_spares _ Hw') Hpos h Hin) in Hno.
  - intros r w' [Hw' Hr]. split; [done|]. intros l' ->. apply Forall_forall. intros h Hh. by apply (Hr l' eq_refl).
Qed.

(** Results that do not name the row, its narinfo, its file or its chunks. *)
Record avoids (r : fsckResults) : Prop := {
  av_narinfos : Forall (λ x, x.1 ≠ i) (narinfosWithoutNarFiles r);
  av_unlinked : Forall other_row (orphanedNarFilesInDB r);
  av_missing : Forall other_row (narFilesMissingInStorage r);
  av_stored : Forall (λ u, nar_path u ≠ Ok p ∨ (0 < nf_total_chunks nf)%Z) (orphanedNarFilesInStorage r);
  av_chunks : Forall other_chunk (orphanedChunksInDB r);
  av_issues : Forall other_row (narFilesWithChunkIssues r);
  av_sizes : Forall other_row (narFilesWithSizeMismatch r);
  av_files : Forall (λ h, h ∉ hashes ∨ (nf_total_chunks nf <= 0)%Z) (orphanedChunksInStorage r);
  av_corrupt : Forall other_row (narFilesWithCorruptChunks r);
  av_hash : Forall other_row (narFilesWithHashMismatch r);
}.

Lemma linked_at_start w : same w → (i, f) ∈ links (fdb w).
Proof. intros Hw. exact (lv_link _ (sp_base _ (same_spares w Hw))). Qed.

Lemma wp_collect_always b vs cdc verify w :
  same w → wp b (collect_always now vs cdc verify)
    (λ r w', same w' ∧ ∀ res all seen, r = Ok (res, all, seen) → avoids res ∧ Forall row_of_start all) w.
Proof.
  intros Hw. apply wp_bind, wp_reads; [by split|]. apply wp_bind, wp_reads; [by split|]. apply wp_bind, wp_reads; [by split|].
  apply wp_bind, wp_reads; [by split|]. apply wp_bind, wp_lift. destruct (mapM _ _) as [present|] eqn:Hpresent; [|by split].
  pose proof (rows_of_start w Hw) as Hrows. apply wp_bind. eapply wp_mono; [apply wp_keep_missing; [| | |done]|].
  4: { intros [missing|e] w1 [H1 Hmissing]; [|by split]. apply wp_bind, wp_reads; [by split|]. apply wp_bind.
    eapply wp_mono; [apply wp_keep_unlisted; [|done]|].
    { apply Forall_forall. intros u Hu. destruct H1 as [Hb _]. unfold walked_nars in *. by rewrite Hb in Hu. }
    intros [stored|e] w2 [H2 Hstored]; [|by split]. apply wp_ret. split; [done|]. intros res all seen [= <- <- <-]. split; [|done].
    split; simpl; auto.
    - apply Forall_forall. intros x [Hno _]%list_elem_of_filter Hi. apply Hno. rewrite Hi. apply list_elem_of_fmap.
      exists (i, f). split; [done|]. by apply linked_at_start.
    - apply Forall_forall. intros x [Hno Hx]%list_elem_of_filter. apply (file_row_of w); [done..|]. intros Hf. apply Hno. rewrite Hf.
      apply list_elem_of_fmap. exists (i, f). split; [done|]. by apply linked_at_start. }
  - intros Hz s Hs. destruct (mapM_elem _ _ _ u0 Hpresent) as (y & Hy & Hin); [by apply walked_row|]. rewrite Hs in Hy.
    by injection Hy as ->.
  - by apply Forall_filter_of.
  - apply Forall_forall. intros x [[Hx _] _]%list_elem_of_filter. exact Hx.
Qed.

Lemma wp_collectFsckSuspects b cdc vs verify w :
  same w → wp b (collectFsckSuspects now cdc vs verify) (λ r w', same w' ∧ ∀ res, r = Ok res → avoids res) w.
Proof.
  intros Hw. apply wp_bind. eapply wp_mono; [by apply wp_collect_always|].
  intros [[[res all] seen]|e] w1 [H1 Hr]; [|by split]. destruct (Hr _ _ _ eq_refl) as [Hres Hall].
  pose proof Hres as [A1 A2 A3 A4 _ _ _ _ _ _]. destruct cdc; simpl; [|apply wp_ret; split; [done|]; by intros ? [= <-]].
  apply wp_bind, wp_reads; [by split|].
  assert (Forall other_chunk (unlinked_chunks w1)) as A5.
  { apply Forall_forall. intros c. apply unlinked_others, same_spares, H1. }
  set (eligible := filter _ all).
  assert (Forall row_of_start eligible) as He by by apply Forall_filter_of.
  assert (Forall (λ x, 0 < nf_total_chunks x.2)%Z eligible) as Hpos by (apply Forall_forall; by intros x [[Hx _] _]%list_elem_of_filter).
  apply wp_bind. eapply wp_mono; [apply wp_keep_chunked; [apply quiet_isNarFileChunkBroken|apply wp_not_broken|done..]|].
  intros [issues|e] w2 [H2 A6]; [|by split]. specialize (A6 _ eq_refl).
  apply wp_bind. eapply wp_mono; [by apply wp_sizes_others|]. intros [sizes|e] w3 [H3 A7]; [|by split]. specialize (A7 _ eq_refl).
  apply wp_bind. eapply wp_mono; [apply (wp_for_each b same); [|done]; intros x w' _; by apply same_stamp|].
  intros [[]|e] w4 H4; [|by split]. apply wp_bind, wp_bind, wp_reads; [by split|].
  eapply wp_mono; [by apply wp_keep_chunk_files|]. intros [orphaned|e] w5 [H5 A8]; [|by split]. specialize (A8 _ eq_refl).
  assert (∀ cc hm, Forall other_row cc → Forall other_row hm → avoids (mkResults (narinfosWithoutNarFiles res) (orphanedNarFilesInDB res)
    (narFilesMissingInStorage res) (orphanedNarFilesInStorage res) true (unlinked_chunks w1) issues
    (filter (λ x, x.1 ∈ eligible.*1) sizes) orphaned verify cc hm [] [])) as Hmk.
  { intros cc hm Hcc Hhm. split; try done. by apply Forall_filter_of. }
  destruct verify; simpl; [|apply wp_ret; split; [done|]; intros ? [= <-]; by apply Hmk].
  apply wp_bind. eapply wp_mono; [apply wp_keep_chunked; [apply quiet_isNarFileContentCorrupt|apply wp_not_corrupt|by apply Forall_filter_of..|done]|].
  intros [corrupt|e] w6 [H6 A9]; [|by split]. specialize (A9 _ eq_refl).
  apply wp_bind. eapply wp_mono; [apply wp_keep_chunked; [apply quiet_isNarFileHashMismatched|apply wp_not_mismatched|by apply Forall_filter_of..|done]|].
  intros [mismatched|e] w7 [H7 A10]; [|by split]. specialize (A10 _ eq_refl). apply wp_ret. split; [done|]. intros ? [= <-]. by apply Hmk.
Qed.

(** Looking again only drops suspects. *)
Lemma wp_keep_fewer {A} b (check : A → eff fstate fsck_err bool) (P : A → Prop) l w :
  (∀ x, quiet (check x)) → Forall P l → same w → wp b (keep_if check l) (λ r w', same w' ∧ ∀ l', r = Ok l' → Forall P l') w.
Proof.
  intros Hq Hl Hw. eapply wp_mono; [apply (wp_keep_if b same (λ _, True)); [|done]|].
  - intros x w' _ Hw'. eapply wp_mono; [apply Hq|]. by intros r w1 ->.
  - intros r w' [Hw' Hr]. split; [done|]. intros l' ->. apply Forall_forall. intros x Hx. destruct (Hr l' eq_refl x Hx) as [Hin _].
    by eapply Forall_forall.
Qed.

Ltac fewer H Hw :=
  apply wp_bind; eapply wp_mono; [by apply wp_keep_fewer; [intros ?; check_quiet|exact H|exact Hw]|].

Lemma wp_reVerifyFsckSuspects b s w :
  avoids s → same w → wp b (reVerifyFsckSuspects s) (λ r w', same w' ∧ ∀ res, r = Ok res → avoids res) w.
Proof.
  intros [A1 A2 A3 A4 A5 A6 A7 A8 A9 A10] Hw. unfold reVerifyFsckSuspects.
  fewer A1 Hw. intros [l1|e] w1 [H1 B1]; [|by split]. specialize (B1 _ eq_refl).
  fewer A2 H1. intros [l2|e] w2 [H2 B2]; [|by split]. specialize (B2 _ eq_refl).
  fewer A3 H2. intros [l3|e] w3 [H3 B3]; [|by split]. specialize (B3 _ eq_refl).
  fewer A4 H3. intros [l4|e] w4 [H4 B4]; [|by split]. specialize (B4 _ eq_refl).
  destruct (cdcMode s); simpl; [|apply wp_ret; split; [done|]; by intros ? [= <-]].
  apply wp_bind, wp_reads; [by split|]. fewer A6 H4. intros [l6|e] w5 [H5 B6]; [|by split]. specialize (B6 _ eq_refl).
  apply wp_bind. eapply wp_mono; [by apply wp_sizes_others|]. intros [l7|e] w6 [H6 _]; [|by split].
  fewer A8 H6. intros [l8|e] w7 [H7 B8]; [|by split]. specialize (B8 _ eq_refl).
  destruct (verifyContent s); simpl.
  - fewer A9 H7. intros [l9|e] w8 [H8 B9]; [|by split]. specialize (B9 _ eq_refl).
    fewer A10 H8. intros [l10|e] w9 [H9 B10]; [|by split]. specialize (B10 _ eq_refl). apply wp_ret. split; [done|]. intros ? [= <-].
    split; try done; by apply Forall_filter_of.
  - apply wp_ret. split; [done|]. intros ? [= <-]. split; try done; by apply Forall_filter_of.
Qed.

Lemma sparing_repairFsckIssues r : avoids r → sparing (repairFsckIssues r).
Proof.
  intros [A1 A2 A3 A4 A5 A6 A7 A8 A9 A10]. unfold repairFsckIssues. apply sparing_bind.
  - apply sparing_bind; [by apply (sparing_for_each _ (λ x, x.1 ≠ i)); [|intros x; apply sparing_repair_narinfo]|]. intros _.
    apply sparing_bind.
    { apply (sparing_for_each _ other_row); [done|]. intros x Hx. apply sparing_repair_file; [done|check_quiet]. }
    intros _. apply sparing_quiet_bind; [check_quiet|]. intros ids. apply sparing_bind.
    { apply (sparing_for_each _ other_row); [done|]. intros x Hx. apply sparing_repair_file; [done|check_quiet]. }
    intros _. apply sparing_bind; [apply sparing_sweep_new_orphans|]. intros _. eapply sparing_for_each; [exact A4|].
    intros u Hu. simpl in Hu. apply sparing_quiet_bind; [check_quiet|]. intros []; [|apply sparing_quiet, quiet_ret]. apply sparing_logged.
    unfold fsck_DeleteNar. destruct (nar_path u) as [q|] eqn:Hq; [|intros b w Hw; by apply wp_throw]. intros b w Hw. apply wp_writes_or.
    case_bool_decide; [|done]. assert (spares (set_base (set_narStore (delete q (narStore (base_world w))) (base_world w)) w)); [|auto].
    apply spares_base; [done|]. apply leaves_delete_nar; [|apply Hw]. destruct Hu as [Hu|]; [left; by intros ->|by right].
  - intros _. destruct (cdcMode r); simpl; [|apply sparing_quiet, quiet_ret]. apply sparing_quiet_bind; [apply quiet_reads|].
    intros re. apply sparing_bind.
    { eapply sparing_for_each; [exact A5|]. intros c Hc. case_bool_decide; [|apply sparing_quiet, quiet_ret].
      intros b w. by apply wp_spares_delete_chunk_row. }
    intros _. apply sparing_bind; [apply sparing_repairCDCNarFiles; [done|intros ?; check_quiet]|]. intros _.
    apply sparing_bind; [by apply sparing_repairSizeMismatch|]. intros _.
    apply sparing_bind; [destruct (verifyContent r); [apply sparing_repairCDCNarFiles; [done|intros ?; check_quiet]|apply sparing_quiet, quiet_ret]|].
    intros _.
    apply sparing_bind; [destruct (verifyContent r); [apply sparing_repairCDCNarFiles; [done|intros ?; check_quiet]|apply sparing_quiet, quiet_ret]|].
    intros _. apply sparing_bind.
    { eapply sparing_for_each; [exact A8|]. intros h Hh. apply sparing_quiet_bind; [check_quiet|]. intros []; [|apply sparing_quiet, quiet_ret].
      apply sparing_logged. intros b w. by apply wp_spares_DeleteChunk. }
    intros _. apply sparing_bind; [apply sparing_reclaimStaleChunkLinks|]. intros _.
    apply sparing_bind; [apply sparing_desync|]. intros _. apply sparing_quiet, quiet_ret.
Qed.

Lemma wp_collect_residue b grace r w :
  avoids r → spares w → wp b (collectChunkedResidueSuspects now grace r) (λ r w', spares w' ∧ ∀ res, r = Ok res → avoids res) w.
Proof.
  intros [A1 A2 A3 A4 A5 A6 A7 A8 A9 A10] Hw. apply wp_bind. eapply wp_mono; [apply (wp_forEach b grace _ w (λ _, True) Hw)|].
  - intros x u d w' _ _ Hw'. apply wp_ret. auto.
  - intros [l|e] w' [Hw' _]; [|by split]. apply wp_ret. split; [done|]. intros ? [= <-]. by split.
Qed.

Lemma sparing_repairChunkedResidue grace : sparing (repairChunkedResidue now cfg grace).
Proof.
  apply sparing_quiet_bind; [apply quiet_reads|]. intros _. apply sparing_bind; [apply sparing_reconcile|].
  intros _. apply sparing_quiet, quiet_ret.
Qed.

Lemma quiet_detect ce : quiet (detectFsckCDCMode ce).
Proof. unfold detectFsckCDCMode. quietly fail. Qed.

Lemma wp_fsck b ce dryRun repair verify vs grace stdin :
  wp b (fsck now cfg ce dryRun repair verify vs grace stdin) (λ _ w', spares w') w0.
Proof.
  assert (same w0) as H0 by by split. apply wp_bind. eapply wp_mono; [apply quiet_detect|].
  intros [reason|e] w ->; [|by apply same_spares]. apply wp_bind. eapply wp_mono; [by apply wp_collectFsckSuspects|].
  intros [suspects|e] w1 [H1 B1]; [|by apply same_spares]. apply wp_bind.
  eapply wp_mono; [apply wp_reVerifyFsckSuspects; [by apply B1|done]|].
  intros [results|e] w2 [H2 B2]; [|by apply same_spares]. specialize (B2 _ eq_refl). apply same_spares in H2.
  set (g := if (grace <=? 0)%Z then _ else _). apply wp_bind.
  apply (wp_mono _ (λ r w', spares w' ∧ ∀ res, r = Ok res → avoids res)).
  { destruct (enabled reason); [by apply wp_collect_residue|]. apply wp_ret. split; [done|]. by intros ? [= <-]. }
  intros [res|e] w3 [H3 B3]; [|done]. specialize (B3 _ eq_refl). revert b w3 H3. apply sparing_bind.
  { destruct (_ && _); [apply sparing_repairChunkedResidue|apply sparing_quiet, quiet_ret]. }
  intros _. destruct (totalIssues res =? 0); [apply sparing_quiet, quiet_ret|]. destruct dryRun; [intros b w Hw; by apply wp_throw|].
  destruct (_ && _); [intros b w Hw; by apply wp_throw|]. apply sparing_bind.
  { destruct (_ && _); [apply sparing_repairChunkedResidue|apply sparing_quiet, quiet_ret]. }
  intros _. by apply sparing_repairFsckIssues.
Qed.
End leaving.

(** ** Runs without faults *)

Section calm.
Context `{GN : GoNix} {SG : Signing} {CD : Codec} {CH : Chunker} {HA : Hashing}.

(** [m] succeeds and its result satisfies [Q]. *)
Definition runs {A} (m : eff fstate fsck_err A) (Q : A → fworld → Prop) (w : fworld) : Prop :=
  wp false m (λ r w', ∃ a, r = Ok a ∧ Q a w') w.

Lemma runs_mono {A} (m : eff fstate fsck_err A) (Q Q' : A → fworld → Prop) w :
  runs m Q w → (∀ a w', Q a w' → Q' a w') → runs m Q' w.
Proof. intros Hm HQ. eapply wp_mono; [exact Hm|]. intros r w' (a & -> & Ha). eauto. Qed.
Lemma runs_ret {A} (a : A) (Q : A → fworld → Prop) w : Q a w → runs (mret a) Q w.
Proof. intros Ha. apply wp_ret. eauto. Qed.
Lemma runs_bind {A B} (m : eff fstate fsck_err A) (k : A → eff fstate fsck_err B) Q w :
  runs m (λ a w', runs (k a) Q w') w → runs (m ≫= k) Q w.
Proof. intros Hm. apply wp_bind. eapply wp_mono; [exact Hm|]. by intros r w' (a & -> & Ha). Qed.
Lemma runs_lift {A} (a : A) r (Q : A → fworld → Prop) w : r = Ok a → Q a w → runs (lift r) Q w.
Proof. intros -> Ha. apply wp_lift. eauto. Qed.
Lemma runs_reads {A} e (q : fworld → A) (Q : A → fworld → Prop) w : Q (q w) w → runs (reads e q) Q w.
Proof. intros Ha. apply wp_reads; [done|]. eauto. Qed.
Lemma runs_sees q (Q : bool → fworld → Prop) w : Q (q w) w → runs (sees q) Q w.
Proof. intros Ha. apply wp_sees; [done|]. eauto. Qed.
Lemma runs_logged m (Q : () → fworld → Prop) w : wp false m (λ _ w', Q () w') w → runs (logged m) Q w.
Proof. intros Hm. apply wp_logged. eapply wp_mono; [exact Hm|]. eauto. Qed.
Lemma runs_writes e g (Q : () → fworld → Prop) w : Q () (g w) → runs (writes e g) Q w.
Proof. intros Ha. apply wp_writes; [done|]. eauto. Qed.

(** A statement that is logged changes what it changes, or nothing. *)
Lemma runs_logged_writes e g (Q : () → fworld → Prop) w : Q () (g w) → runs (logged (writes e g)) Q w.
Proof. intros Ha. apply runs_logged, wp_writes; done. Qed.

Lemma runs_for_each {A} (I : fworld → Prop) (f : A → eff fstate fsck_err ()) l w :
  (∀ x w, x ∈ l → I w → runs (f x) (λ _ w', I w') w) → I w → runs (for_each f l) (λ _ w', I w') w.
Proof.
  revert w. induction l as [|x l IH]; intros w Hf Hi; simpl; [by apply runs_ret|].
  apply runs_bind. eapply runs_mono; [apply Hf; [by left|done]|]. intros [] w' Hi'. apply IH; [|done].
  intros y v Hy. apply Hf. by right.
Qed.

(** One of the steps establishes what the others keep. *)
Lemma runs_for_each_at {A} (I R : fworld → Prop) (f : A → eff fstate fsck_err ()) x0 l w :
  x0 ∈ l → (∀ x w, x ∈ l → I w → runs (f x) (λ _ w', I w') w) →
  (∀ w, I w → runs (f x0) (λ _ w', I w' ∧ R w') w) → (∀ x w, x ∈ l → I w → R w → runs (f x) (λ _ w', I w' ∧ R w') w) →
  I w → runs (for_each f l) (λ _ w', I w' ∧ R w') w.
Proof.
  revert w. induction l as [|x l IH]; intros w Hin HI Hat HR Hi; [by apply elem_of_nil in Hin|]. simpl. apply runs_bind.
  apply elem_of_cons in Hin as [->|Hin].
  - eapply runs_mono; [by apply Hat|]. intros [] w' [Hi' Hr']. apply (runs_for_each (λ w, I w ∧ R w)); [|done].
    intros y v Hy [? ?]. apply HR; [by right|done..].
  - eapply runs_mono; [apply HI; [by left|done]|]. intros [] w' Hi'. apply IH; try done.
    + intros y v Hy. apply HI. by right.
    + intros y v Hy. apply HR. by right.
Qed.

(** What passes its check is kept. *)
Lemma runs_keep_if {A} (I : fworld → Prop) (f : A → eff fstate fsck_err bool) l x0 w :
  x0 ∈ l → (∀ x w, x ∈ l → I w → runs (f x) (λ _ w', I w') w) → (∀ w, I w → runs (f x0) (λ c w', I w' ∧ c = true) w) → I w →
  runs (keep_if f l) (λ l' w', I w' ∧ x0 ∈ l' ∧ ∀ x, x ∈ l' → x ∈ l) w.
Proof.
  intros Hin HI Hat. assert (∀ l0 w, (∀ x, x ∈ l0 → x ∈ l) → I w → runs (keep_if f l0) (λ l' w', I w' ∧ ∀ x, x ∈ l' → x ∈ l0) w) as Hkeep.
  { clear Hin. induction l0 as [|x l0 IH]; intros v Hsub Hv; simpl; [by apply runs_ret|]. apply runs_bind.
    eapply runs_mono; [apply HI; [apply Hsub; by left|done]|]. intros c v1 H1. apply runs_bind.
    eapply runs_mono; [apply IH; [|done]; intros y Hy; apply Hsub; by right|]. intros rest v2 [H2 Hr]. apply runs_ret. split; [done|].
    destruct c; [|intros y Hy; right; by apply Hr]. intros y [->|Hy]%elem_of_cons; [by left|right; by apply Hr]. }
  revert w. assert (∀ l0 w, (∀ x, x ∈ l0 → x ∈ l) → x0 ∈ l0 → I w → runs (keep_if f l0) (λ l' w', I w' ∧ x0 ∈ l' ∧ ∀ x, x ∈ l' → x ∈ l0) w) as Hall;
    [|intros w; by apply Hall].
  induction l0 as [|x l0 IH]; intros w Hsub Hx0 Hw; [by apply elem_of_nil in Hx0|]. simpl. apply runs_bind.
  apply elem_of_cons in Hx0 as [<-|Hx0].
  - eapply runs_mono; [by apply Hat|]. intros c v1 [H1 ->]. apply runs_bind.
    eapply runs_mono; [apply Hkeep; [|done]; intros y Hy; apply Hsub; by right|]. intros rest v2 [H2 Hr]. apply runs_ret.
    split; [done|]. split; [by left|]. intros y [->|Hy]%elem_of_cons; [by left|right; by apply Hr].
  - eapply runs_mono; [apply HI; [apply Hsub; by left|done]|]. intros c v1 H1. apply runs_bind.
    eapply runs_mono; [apply IH; [intros y Hy; apply Hsub; by right|done|done]|]. intros rest v2 (H2 & Hin2 & Hr). apply runs_ret.
    split; [done|]. destruct c; [|split; [done|]; intros y Hy; right; by apply Hr].
    split; [by right|]. intros y [->|Hy]%elem_of_cons; [by left|right; by apply Hr].
Qed.

End calm.

(** ** Paging finds every row once *)

Section paging.
Context `{GN : GoNix} {SG : Signing} {CD : Codec} {CH : Chunker} {HA : Hashing}.

#[local] Instance by_id_total {A} : Total (by_id (A := A)).
Proof. intros x y. unfold by_id. lia. Qed.
#[local] Instance by_id_transitive {A} : Transitive (by_id (A := A)).
Proof. intros x y z. unfold by_id. lia. Qed.

Definition sorted_rows {A} (rows : list (Z * A)) : list (Z * A) := merge_sort by_id rows.

(** No two rows have one id. *)
Definition keyed {A} (rows : list (Z * A)) : Prop := NoDup rows ∧ ∀ x y, x ∈ rows → y ∈ rows → x.1 = y.1 → x = y.

Lemma keyed_filter {A} (P : Z * A → Prop) `{!∀ x, Decision (P x)} rows : keyed rows → keyed (filter P rows).
Proof. intros [Hnd Hk]. split; [by apply NoDup_filter|]. intros x y [_ Hx]%list_elem_of_filter [_ Hy]%list_elem_of_filter. by apply Hk. Qed.

Lemma keyed_map {A} (m : gmap Z A) : keyed (map_to_list m).
Proof.
  split; [apply NoDup_map_to_list|]. intros [a x] [b y] Hx%elem_of_map_to_list Hy%elem_of_map_to_list E. simpl in *. subst b.
  rewrite Hx in Hy. by injection Hy as ->.
Qed.

Lemma sorted_unique {A} (rows l1 l2 : list (Z * A)) :
  keyed rows → Sorted by_id l1 → Sorted by_id l2 → l1 ≡ₚ l2 → (∀ x, x ∈ l1 → x ∈ rows) → l1 = l2.
Proof.
  intros [_ Hk] H1 H2 Hp Hsub. apply (Sorted_unique_strong by_id); try done. intros x y Hx Hy Hij Hji. unfold by_id in *.
  apply Hk; [by apply Hsub|apply Hsub; by rewrite Hp|lia].
Qed.

(** After a full page, the rows after its last are those not yet seen. *)
Lemma next_page {A} (rows : list (Z * A)) n lastID x :
  keyed rows → let T := sorted_rows (filter (λ x, lastID < x.1)%Z rows) in
  last (take n T) = Some x → sorted_rows (filter (λ y, x.1 < y.1)%Z rows) = drop n T.
Proof.
  intros Hk T Hlast. assert (T ≡ₚ filter (λ x, lastID < x.1)%Z rows) as Hperm by apply merge_sort_Permutation.
  assert (Sorted by_id T) as HT by apply (Sorted_merge_sort by_id).
  assert (NoDup T) as Hnd by (rewrite Hperm; apply NoDup_filter, Hk).
  assert (∀ y, y ∈ T → (lastID < y.1)%Z ∧ y ∈ rows) as Hin by (intros y Hy; rewrite Hperm in Hy; by apply list_elem_of_filter in Hy).
  apply last_Some in Hlast as [l Hl]. pose proof (take_drop n T) as Htd. rewrite Hl in Htd.
  pose proof HT as HS. apply Sorted_StronglySorted in HS; [|apply _]. rewrite <- Htd in HS, Hnd. rewrite <- app_assoc in HS, Hnd.
  apply NoDup_app in Hnd as (_ & _ & Hnd). apply NoDup_app in Hnd as (_ & Hx & _).
  assert (∀ y, y ∈ l ++ [x] → (y.1 <= x.1)%Z) as Hle.
  { intros y [Hy| ->%list_elem_of_singleton]%elem_of_app; [|lia]. eapply (StronglySorted_app_1_elem_of _ _ _ y x) in HS; [exact HS|done|by left]. }
  assert (∀ y, y ∈ drop n T → (x.1 < y.1)%Z) as Hgt.
  { intros y Hy. apply StronglySorted_app_1_r in HS. apply (StronglySorted_app_1_elem_of _ [x] _ x y) in HS; [|by left|done].
    unfold by_id in HS. destruct (decide (x.1 = y.1)) as [E|]; [|lia]. exfalso. apply (Hx x); [by left|].
    replace x with y; [done|]. symmetry. apply Hk; [|by apply Hin, (subseteq_drop n)|done]. apply Hin. rewrite <- Htd.
    apply elem_of_app. left. apply elem_of_app. right. by left. }
  assert (filter (λ y, x.1 < y.1)%Z rows ≡ₚ drop n T) as Hdrop.
  { transitivity (filter (λ y, x.1 < y.1)%Z T).
    - rewrite Hperm, list_filter_filter_l; [done|]. intros y Hy.
      assert (lastID < x.1)%Z; [|lia]. apply Hin. rewrite <- Htd. apply elem_of_app. left. apply elem_of_app. right. by left.
    - rewrite <- Htd at 1. rewrite filter_app. rewrite (filter_all _ (drop n T)) by by apply Forall_forall.
      replace (filter (λ y, x.1 < y.1)%Z (l ++ [x])) with (@nil (Z * A)); [done|]. symmetry. apply filter_none.
      apply Forall_forall. intros y Hy. specialize (Hle y Hy). lia. }
  apply (sorted_unique rows); [done|apply (Sorted_merge_sort by_id)| | |].
  - apply StronglySorted_Sorted. rewrite app_assoc in HS. by apply StronglySorted_app_1_r in HS.
  - unfold sorted_rows. by rewrite merge_sort_Permutation.
  - intros y Hy. unfold sorted_rows in Hy. rewrite merge_sort_Permutation, Hdrop in Hy. by apply Hin, (subseteq_drop n).
Qed.

(** A scan whose body works row by row. *)
Lemma runs_scan {A B} (rows : fworld → list (Z * A)) (body : list (Z * A) → eff fstate fsck_err (list B)) (F : list (Z * A) → list B) fuel lastID w :
  (∀ page, runs (body page) (λ out w', w' = w ∧ out = F page) w) → F [] = [] → (∀ l1 l2, F (l1 ++ l2) = F l1 ++ F l2) → keyed (rows w) →
  length (filter (λ x, lastID < x.1)%Z (rows w)) < fuel →
  runs (scan fuel rows body lastID) (λ out w', w' = w ∧ out = F (sorted_rows (filter (λ x, lastID < x.1)%Z (rows w)))) w.
Proof.
  intros Hbody Hnil Happ Hk. pose proof batch_pos as HB. revert lastID. induction fuel as [|fuel IH]; intros lastID Hlen; [lia|]. cbn [scan].
  apply runs_bind, runs_reads. unfold page_after. fold (sorted_rows (filter (λ x, lastID < x.1)%Z (rows w))).
  set (T := sorted_rows _). assert (length T = length (filter (λ x, lastID < x.1)%Z (rows w))) as HlenT.
  { unfold T, sorted_rows. by rewrite merge_sort_Permutation. }
  destruct (last (take fsckEagerLoadBatchSize T)) as [x|] eqn:Hlast.
  - apply runs_bind. eapply runs_mono; [apply Hbody|]. intros out w' [-> ->]. destruct (length (take _ T) <? _) eqn:Hshort.
    + apply runs_ret. split; [done|]. apply Nat.ltb_lt in Hshort. rewrite length_take in Hshort. by rewrite take_ge by lia.
    + apply Nat.ltb_ge in Hshort. rewrite length_take in Hshort. pose proof (next_page (rows w) _ lastID x Hk Hlast) as Hnext.
      assert (length (filter (λ y, x.1 < y.1)%Z (rows w)) = length T - fsckEagerLoadBatchSize) as Hleft.
      { rewrite <- length_drop. unfold T. rewrite <- Hnext. unfold sorted_rows. by rewrite merge_sort_Permutation. }
      apply runs_bind. eapply runs_mono; [apply IH; rewrite Hleft, HlenT; lia|]. intros rest w' [-> ->]. apply runs_ret. split; [done|].
      rewrite Hnext, <- Happ. by rewrite take_drop.
  - apply runs_ret. split; [done|]. apply last_None in Hlast. destruct T as [|y T]; [done|]. by destruct fsckEagerLoadBatchSize; [lia|].
Qed.

Lemma runs_scan_all {A B} (rows : fworld → list (Z * A)) (body : list (Z * A) → eff fstate fsck_err (list B)) (F : list (Z * A) → list B) w :
  (∀ page, runs (body page) (λ out w', w' = w ∧ out = F page) w) → F [] = [] → (∀ l1 l2, F (l1 ++ l2) = F l1 ++ F l2) → keyed (rows w) →
  Forall (λ x, 0 < x.1)%Z (rows w) →
  runs (scan_all rows body) (λ out w', w' = w ∧ out = F (sorted_rows (rows w))) w.
Proof.
  intros Hbody Hnil Happ Hk Hpos s Hs Hc. unfold scan_all. change (fst_world s) with (view s). rewrite Hs.
  assert (filter (λ x, 0 < x.1)%Z (rows w) = rows w) as Hall by by apply filter_all.
  pose proof (runs_scan rows body F (S (length (rows w))) 0 w Hbody Hnil Happ Hk) as Hrun. rewrite Hall in Hrun. by apply Hrun; [lia|..].
Qed.

Lemma runs_state {A} (m : eff fstate fsck_err A) a w : runs m (λ a' w', w' = w ∧ a' = a) w → m (mkFstate w []) = (Ok a, mkFstate w []).
Proof.
  intros Hm. destruct (Hm (mkFstate w []) eq_refl eq_refl) as (Hc & a' & Ha & Hw & ->). destruct (m _) as [r [w' fs]]. simpl in *. by subst.
Qed.

Lemma runs_chunksForNarFile g w :
  (∀ h, h ∈ links_of g (fdb w) → chunk_row_exists h w = true) → runs (chunksForNarFile g) (λ l w', w' = w ∧ l = links_of g (fdb w)) w.
Proof.
  intros Hrows. assert (∀ fuel from, runs (chunk_pages fuel g from) (λ _ _, True) w) as Hok.
  { induction fuel as [|fuel IH]; intros from; cbn [chunk_pages]; [by apply runs_ret|]. apply runs_bind, runs_reads.
    destruct (bool_decide _); [by apply runs_ret|]. apply runs_bind, runs_reads. destruct (_ <? _); [by apply runs_ret|].
    apply runs_bind. eapply runs_mono; [apply IH|]. intros rest w' _. by apply runs_ret. }
  intros s Hs Hc. destruct (wp_chunksForNarFile false g w Hrows s Hs Hc) as (Hc' & Hw & Hl). split; [done|].
  unfold chunksForNarFile in *. change (fst_world s) with (view s) in *. rewrite Hs in *.
  destruct (Hok (S (length (links_of g (fdb w)))) 0 s Hs Hc) as (_ & l & Hr & _). exists l. split; [exact Hr|]. split; [exact Hw|]. by apply Hl.
Qed.
End paging.

(** ** An uncompressed NAR kept as a compressed file *)

Section uncompressed.
Context `{GN : GoNix} {SG : Signing} {CD : Codec} {CH : Chunker} {HA : Hashing} (now : Z) (cfg : Config).
Context (w0 : fworld) (f i : Z) (nf : nar_file) (h p : string).
Let none_url : URL := mkURL h CompressionTypeNone ∅ false "".
Let zstd_url : URL := mkURL h CompressionTypeZstd ∅ false "".

(** What a download of an uncompressed NAR leaves, among other records and files: a row
    and a narinfo that say the NAR is uncompressed, and one file, compressed. *)
Record kept_compressed : Prop := {
  kc_unique : unique_keys (fdb w0);
  kc_row : nar_files (fdb w0) !! f = Some nf;
  kc_key : has_key h CompressionTypeNone "" nf;
  kc_whole : map_Forall (λ _ x, nf_total_chunks x <= 0)%Z (nar_files (fdb w0));
  kc_narinfo : is_Some (narinfos (fdb w0) !! i);
  kc_link : (i, f) ∈ links (fdb w0);
  kc_only g : (i, g) ∈ links (fdb w0) → g = f;
  kc_normal : normalized_match h = true;
  kc_file : nar_path zstd_url = Ok p ∧ is_Some (narStore (base_world w0) !! p);
  kc_no_file : ∃ q, nar_path none_url = Ok q ∧ narStore (base_world w0) !! q = None;
  kc_no_row g x : nar_files (fdb w0) !! g = Some x → ¬ has_key h CompressionTypeZstd "" x;
  kc_names q : is_Some (narStore (base_world w0) !! q) → ∃ u, nar_path u = Ok q;
  kc_readable g x : nar_files (fdb w0) !! g = Some x → ∃ u s, row_url x = Ok u ∧ fsck_url_string u = Ok s;
  kc_no_chunks : chunk_rows w0 = ∅;
  kc_linked : unlinked_narinfos (fdb w0) = [];
}.
Hypothesis Hkc : kept_compressed.

Definition unchanged (w : fworld) : Prop := base_world w = base_world w0 ∧ chunk_rows w = chunk_rows w0.

Lemma quiet_runs {A} (m : eff fstate fsck_err A) (Q : A → fworld → Prop) w :
  quiet m → runs m Q w → unchanged w → runs m (λ a w', Q a w' ∧ unchanged w') w.
Proof.
  intros Hq Hm Hw s Hs Hc. destruct (Hm s Hs Hc) as (Hc' & a & Ha & HQ). split; [done|]. exists a. split; [done|]. split; [done|].
  destruct (Hq false w s Hs Hc) as [_ ->]. exact Hw.
Qed.

Lemma row_none_url : row_url nf = Ok none_url.
Proof.
  destruct (kc_key Hkc) as (Hh & Hc & Hq). unfold row_url, narFileRowToURL. by rewrite Hh, Hc, Hq, parse_query_empty.
Qed.

(** The file's name is that of a compressed NAR. *)
Lemma walked_zstd w : unchanged w → zstd_url ∈ walked_nars w.
Proof.
  intros [Hb _]. destruct (kc_file Hkc) as [Hp [x Hx]]. destruct (walked_name _ _ Hp) as (v & ct & Hv & Hparse & _ & Hct).
  destruct (Normalize_inv _ _ Hv) as (_ & _ & Hl). simpl in Hl. rewrite (lenient_submatch_normalized _ (kc_normal Hkc)) in Hl.
  injection Hl as Hl. rewrite (Hct ltac:(done)), <- Hl in Hparse. simpl in Hparse.
  unfold walked_nars. rewrite Hb. apply list_elem_of_omap. exists (p, x). split; [by apply elem_of_map_to_list|]. simpl. by rewrite Hparse.
Qed.

Lemma walked_inv w u : unchanged w → u ∈ walked_nars w →
  ∃ q, is_Some (narStore (base_world w0) !! q) ∧ ParseURL (base q) = Ok u ∧ nar_path u = Ok q.
Proof.
  intros [Hb _] Hu. unfold walked_nars in Hu. rewrite Hb in Hu.
  apply list_elem_of_omap in Hu as ([q x] & Hq%elem_of_map_to_list & Hu). simpl in Hu.
  destruct (kc_names Hkc q) as [v Hv]; [by rewrite Hq|]. destruct (walked_name _ _ Hv) as (v' & ct & _ & Hparse & Hpath & _).
  rewrite Hparse in Hu. injection Hu as <-. exists q. by rewrite Hq.
Qed.

(** Every name walked prints, none of them as the row's. *)
Lemma walked_strings w : unchanged w →
  ∃ present, mapM fsck_url_string (walked_nars w) = Ok present ∧ ∀ s, fsck_url_string none_url = Ok s → s ∉ present.
Proof.
  intros Hw. assert (∀ l, (∀ u, u ∈ l → u ∈ walked_nars w) →
    ∃ present, mapM fsck_url_string l = Ok present ∧ ∀ s, fsck_url_string none_url = Ok s → s ∉ present) as Hall; [|by apply Hall].
  induction l as [|u l IH]; intros Hl; [exists []; split; [done|]; intros s _ Hs; by apply elem_of_nil in Hs|].
  destruct IH as (present & Hm & Hno); [intros v Hv; apply Hl; by right|].
  destruct (walked_inv w u Hw (Hl u ltac:(by left))) as (q & Hq & Hparse & Hpath).
  destruct (ParseURL_print _ _ Hparse) as (s' & Hs' & Hback). exists (s' :: present).
  assert (fsck_url_string u = Ok s') as Hu by (unfold fsck_url_string, url_string; by rewrite Hs').
  simpl. rewrite Hu. simpl. rewrite Hm. split; [done|]. intros s Hs [->|Hin]%elem_of_cons; [|by eapply Hno].
  assert (u = none_url) as ->.
  { destruct (kc_no_file Hkc) as (q0 & Hq0 & _). destruct (walked_name _ _ Hq0) as (v & ct & Hv & Hparse0 & _ & Hct).
    destruct (Normalize_inv _ _ Hv) as (_ & _ & Hl0). simpl in Hl0. rewrite (lenient_submatch_normalized _ (kc_normal Hkc)) in Hl0.
    injection Hl0 as Hl0. rewrite (Hct ltac:(done)), <- Hl0 in Hparse0. simpl in Hparse0.
    destruct (ParseURL_print _ _ Hparse0) as (s0 & Hs0 & Hback0). unfold fsck_url_string, url_string in Hs. unfold none_url in Hs.
    rewrite Hs0 in Hs. injection Hs as ->. rewrite Hback in Hback0. by injection Hback0. }
  destruct (kc_no_file Hkc) as (q0 & Hq0 & Hnone). rewrite Hpath in Hq0. injection Hq0 as <-. rewrite Hnone in Hq. by destruct Hq.
Qed.

Lemma runs_stamp g w : unchanged w → runs (stamp now g) (λ _ w', unchanged w') w.
Proof. intros Hw. apply runs_logged, wp_writes_or. unfold update_file_row. by destruct (nar_files _ !! g). Qed.

(** Phase 1 takes the row for missing and the file for an orphan. *)
Lemma runs_collect vs verify w :
  (vs <= 0)%Z → unchanged w → runs (collectFsckSuspects now false vs verify) (λ r w', unchanged w' ∧ cdcMode r = false ∧
    narinfosWithoutNarFiles r = [] ∧
    (∀ x, x ∈ orphanedNarFilesInDB r → nar_files (fdb w0) !! x.1 = Some x.2 ∧ x.1 ≠ f) ∧
    (f, nf) ∈ narFilesMissingInStorage r ∧ (∀ x, x ∈ narFilesMissingInStorage r → nar_files (fdb w0) !! x.1 = Some x.2) ∧
    zstd_url ∈ orphanedNarFilesInStorage r) w.
Proof.
  intros Hvs Hw. pose proof Hw as [Hb Hcr]. apply runs_bind, runs_bind, runs_reads, runs_bind, runs_reads, runs_bind, runs_reads.
  apply runs_bind, runs_reads. destruct (walked_strings w Hw) as (present & Hpresent & Hno).
  apply runs_bind. eapply runs_lift; [exact Hpresent|]. apply runs_bind.
  set (rows := filter _ (map_to_list (nar_files (fdb w)))).
  assert (∀ x, x ∈ rows → nar_files (fdb w0) !! x.1 = Some x.2) as Hrows.
  { intros x [_ Hx]%list_elem_of_filter. apply elem_of_map_to_list' in Hx. unfold fdb in Hx. by rewrite Hb in Hx. }
  assert ((f, nf) ∈ rows) as Hin.
  { apply list_elem_of_filter. split; [split; [exact (kc_whole Hkc f nf (kc_row Hkc))|]|].
    - unfold shouldCheckNar. by rewrite (proj2 (Z.leb_le _ _) Hvs).
    - apply elem_of_map_to_list. unfold fdb. rewrite Hb. exact (kc_row Hkc). }
  eapply runs_mono; [apply (runs_keep_if unchanged _ rows (f, nf)); [done| | |done]|].
  - intros x v Hx Hv. unfold missing_from. destruct (kc_readable Hkc _ _ (Hrows x Hx)) as (u & s & Hu & Hs).
    apply runs_bind. eapply runs_lift; [exact Hu|]. apply runs_bind. eapply runs_lift; [exact Hs|].
    case_bool_decide; [|by apply runs_ret]. apply runs_bind. eapply runs_mono; [by apply runs_stamp|]. intros [] v' Hv'. by apply runs_ret.
  - intros v Hv. unfold missing_from. apply runs_bind. eapply runs_lift; [exact row_none_url|].
    destruct (kc_readable Hkc _ _ (kc_row Hkc)) as (u & s & Hu & Hs). rewrite row_none_url in Hu. injection Hu as <-.
    apply runs_bind. eapply runs_lift; [exact Hs|]. rewrite bool_decide_eq_false_2 by by apply Hno. by apply runs_ret.
  - intros missing w1 (H1 & Hf & Hmissing). apply runs_bind, runs_reads. pose proof H1 as [Hb1 _]. apply runs_bind.
    eapply runs_mono; [apply (runs_keep_if unchanged _ _ zstd_url); [by apply walked_zstd| | |done]|].
    + intros u v _ Hv. apply runs_bind, runs_reads. by apply runs_ret.
    + intros v Hv. apply runs_bind, runs_reads, runs_ret. split; [done|]. apply negb_true_iff. unfold nar_file_exists. simpl.
      change (encode ∅) with "". apply negb_false_iff, bool_decide_eq_true.
      destruct (nar_files_where _ _ _ _) as [|[g x] l] eqn:E; [done|]. exfalso.
      assert ((g, x) ∈ nar_files_where h CompressionTypeZstd "" (fdb v)) as Hgx by (rewrite E; by left).
      unfold nar_files_where, rows_where in Hgx. apply elem_of_map_to_list, map_lookup_filter_Some in Hgx as [Hg Hk].
      destruct Hv as [Hbv _]. unfold fdb in Hg. rewrite Hbv in Hg. by eapply (kc_no_row Hkc).
    + intros stored w2 (H2 & Hz & _). apply runs_ret. simpl. apply runs_ret. simpl. split; [done|]. split; [done|]. split.
      { unfold fdb. rewrite Hb. exact (kc_linked Hkc). }
      split; [|split; [done|]; split; [by intros x Hx; apply Hrows, Hmissing|done]].
      intros x [Hx Hin']%list_elem_of_filter. apply elem_of_map_to_list' in Hin'. unfold fdb in Hin'. rewrite Hb in Hin'. split; [done|].
      intros Hxf. apply Hx. rewrite Hxf. apply list_elem_of_fmap. exists (i, f). split; [done|]. unfold fdb. rewrite Hb. exact (kc_link Hkc).
Qed.

(** What the rest of the run needs of the results. *)
Record blames (r : fsckResults) : Prop := {
  bl_mode : cdcMode r = false;
  bl_narinfos : narinfosWithoutNarFiles r = [];
  bl_unlinked x : x ∈ orphanedNarFilesInDB r → nar_files (fdb w0) !! x.1 = Some x.2 ∧ x.1 ≠ f;
  bl_missing : (f, nf) ∈ narFilesMissingInStorage r;
  bl_rows x : x ∈ narFilesMissingInStorage r → nar_files (fdb w0) !! x.1 = Some x.2;
  bl_stored : zstd_url ∈ orphanedNarFilesInStorage r;
}.

Lemma runs_HasNar (I : fworld → Prop) u w : I w →
  runs (fsck_HasNar u) (λ c w', I w' ∧ ∀ q, nar_path u = Ok q → c = bool_decide (is_Some (narStore (base_world w') !! q))) w.
Proof.
  intros Hw. unfold fsck_HasNar. destruct (nar_path u) as [q|]; [|by apply runs_ret]. apply runs_sees. split; [done|]. by intros q' [= <-].
Qed.

(** The store has no file at the row's own path. *)
Lemma runs_still_missing (I : fworld → Prop) w :
  I w → narStore (base_world w) ⊆ narStore (base_world w0) → runs (file_still_missing (f, nf)) (λ c w', w' = w ∧ c = true) w.
Proof.
  intros Hw Hsub. apply runs_bind. eapply runs_lift; [exact row_none_url|]. apply runs_bind.
  eapply runs_mono; [by apply (runs_HasNar (λ v, v = w))|]. intros c w' [-> Hc]. apply runs_ret. split; [done|].
  destruct (kc_no_file Hkc) as (q & Hq & Hnone). rewrite (Hc q Hq). rewrite bool_decide_eq_false_2; [done|]. intros [x Hx].
  rewrite (lookup_weaken _ _ _ _ Hx Hsub) in Hnone. done.
Qed.

Lemma runs_readable_missing w x :
  nar_files (fdb w0) !! x.1 = Some x.2 → runs (file_still_missing x) (λ _ w', w' = w) w.
Proof.
  intros Hx. destruct (kc_readable Hkc _ _ Hx) as (u & s & Hu & _). apply runs_bind. eapply runs_lift; [exact Hu|].
  apply runs_bind. eapply runs_mono; [by apply (runs_HasNar (λ v, v = w))|]. intros c w' [-> _]. by apply runs_ret.
Qed.

(** A list of nothing but what was there. *)
Lemma runs_keep_fewer {A} (I : fworld → Prop) (check : A → eff fstate fsck_err bool) l w :
  (∀ x w, x ∈ l → I w → runs (check x) (λ _ w', I w') w) → I w → runs (keep_if check l) (λ l' w', I w' ∧ ∀ x, x ∈ l' → x ∈ l) w.
Proof.
  intros Hc Hw. revert w Hw. assert (∀ l0 w, (∀ x, x ∈ l0 → x ∈ l) → I w → runs (keep_if check l0) (λ l' w', I w' ∧ ∀ x, x ∈ l' → x ∈ l0) w) as Hall;
    [|intros w; by apply Hall].
  induction l0 as [|x l0 IH]; intros w Hl Hw; simpl; [by apply runs_ret|]. apply runs_bind.
  eapply runs_mono; [apply Hc; [apply Hl; by left|done]|]. intros c w1 H1. apply runs_bind.
  eapply runs_mono; [apply IH; [intros y Hy; apply Hl; by right|done]|]. intros rest w2 [H2 Hr]. apply runs_ret. split; [done|].
  destruct c; [|intros y Hy; right; by apply Hr]. intros y [->|Hy]%elem_of_cons; [by left|right; by apply Hr].
Qed.

Lemma runs_reverify r w :
  blames r → unchanged w → runs (reVerifyFsckSuspects r) (λ r' w', unchanged w' ∧ blames r') w.
Proof.
  intros [B1 B2 B3 B4 B5 B6] Hw. unfold reVerifyFsckSuspects.
  rewrite B2. apply runs_bind, runs_ret, runs_bind.
  eapply runs_mono; [apply (runs_keep_fewer unchanged); [|done]; intros x v _ Hv; by apply runs_bind, runs_reads, runs_ret|].
  intros l2 w2 [H2 S2]. apply runs_bind.
  eapply runs_mono; [apply (runs_keep_if unchanged _ _ (f, nf)); [done| | |done]|].
  { intros x v Hx Hv. eapply runs_mono; [by apply runs_readable_missing, B5|]. by intros c v' ->. }
  { intros v Hv. eapply runs_mono; [apply (runs_still_missing unchanged); [done|by destruct Hv as [-> _]]|]. by intros c v' [-> ->]. }
  intros l3 w3 (H3 & M3 & S3). apply runs_bind.
  eapply runs_mono; [apply (runs_keep_if unchanged _ _ zstd_url); [done| | |done]|].
  { intros x v _ Hv. by apply runs_bind, runs_reads, runs_ret. }
  { intros v Hv. apply runs_bind, runs_reads, runs_ret. split; [done|]. apply negb_true_iff. unfold nar_file_exists. simpl.
    change (encode ∅) with "". apply negb_false_iff, bool_decide_eq_true.
    destruct (nar_files_where _ _ _ _) as [|[g x] l] eqn:E; [done|]. exfalso.
    assert ((g, x) ∈ nar_files_where h CompressionTypeZstd "" (fdb v)) as Hgx by (rewrite E; by left).
    unfold nar_files_where, rows_where in Hgx. apply elem_of_map_to_list, map_lookup_filter_Some in Hgx as [Hg Hk].
    destruct Hv as [Hbv _]. unfold fdb in Hg. rewrite Hbv in Hg. by eapply (kc_no_row Hkc). }
  intros l4 w4 (H4 & M4 & S4). rewrite B1. simpl. apply runs_ret. split; [done|]. split; simpl; auto.
Qed.

(** *** The repair *)

(** As the rows go: no new row, no new file, the narinfo linked to the row only. *)
Record dwindles (w : fworld) : Prop := {
  dw_files : nar_files (fdb w) ⊆ nar_files (fdb w0);
  dw_store : narStore (base_world w) ⊆ narStore (base_world w0);
  dw_links g : (i, g) ∈ links (fdb w) → g = f;
}.

(** Before the row is deleted. *)
Definition row_there (w : fworld) : Prop :=
  dwindles w ∧ nar_files (fdb w) !! f = Some nf ∧ (i, f) ∈ links (fdb w) ∧ is_Some (narinfos (fdb w) !! i) ∧
  is_Some (narStore (base_world w) !! p).

Lemma dwindles_delete_narinfo j w : dwindles w → dwindles (set_fdb (delete_narinfo j (fdb w)) w).
Proof. intros [Hf Hs Hl]. split; [done|done|]. simpl. intros g [_ Hg]%list_elem_of_filter. by apply Hl. Qed.

Lemma row_there_delete_narinfo j w : j ≠ i → row_there w → row_there (set_fdb (delete_narinfo j (fdb w)) w).
Proof.
  intros Hj (Hd & Hf & Hl & Hi & Hp). split; [by apply dwindles_delete_narinfo|]. split; [done|]. simpl.
  split; [apply list_elem_of_filter; auto|]. by rewrite lookup_delete_ne.
Qed.

(** Deleting the rows with a key. *)
Lemma delete_row_tables x (P : tables → Prop) d :
  (∀ g d, (∃ y, nar_files d !! g = Some y ∧ has_key (nf_hash x) (nf_compression x) (nf_query x) y) → P d → P (delete_nar_file g d)) →
  P d → P (delete_row x d).
Proof.
  intros HP Hd. unfold delete_row, delete_nar_files_where.
  assert (NoDup (nar_files_where (nf_hash x) (nf_compression x) (nf_query x) d).*1 ∧ ∀ g y,
    (g, y) ∈ nar_files_where (nf_hash x) (nf_compression x) (nf_query x) d → nar_files d !! g = Some y ∧
    has_key (nf_hash x) (nf_compression x) (nf_query x) y) as [Hnd Hrows].
  { unfold nar_files_where, rows_where. split; [apply NoDup_fst_map_to_list|]. intros g y Hin.
    by apply elem_of_map_to_list, map_lookup_filter_Some in Hin. }
  induction (nar_files_where _ _ _ _) as [|[g y] l IH]; [done|]. simpl in *. inversion Hnd as [|? ? Hg Hl]; subst.
  apply HP; [|apply IH; [done|]; intros g' y' Hy; apply Hrows; by right]. exists y. destruct (Hrows g y) as [Hy Hk]; [by left|].
  split; [|done]. clear IH HP Hd Hrows Hk Hnd Hl. induction l as [|[g' y'] l IH]; [done|]. simpl in *.
  rewrite lookup_delete_ne by (intros ->; apply Hg; by left). apply IH. intros Hin. apply Hg. by right.
Qed.

Lemma dwindles_delete_row x w : dwindles w → dwindles (set_fdb (delete_row x (fdb w)) w).
Proof.
  intros Hw. apply (delete_row_tables x (λ d, dwindles (set_fdb d w))); [|by destruct Hw].
  intros g d _ [Hf Hs Hl]. split; simpl in *.
  - etrans; [apply delete_subseteq|done].
  - done.
  - intros g' [_ Hg]%list_elem_of_filter. by apply Hl.
Qed.

Lemma row_there_delete_row x w :
  nar_files (fdb w0) !! x.1 = Some x.2 → x.1 ≠ f → row_there w → row_there (set_fdb (delete_row x.2 (fdb w)) w).
Proof.
  intros Hx Hne Hw. apply (delete_row_tables x.2 (λ d, row_there (set_fdb d w))); [|by destruct w as [[]]].
  intros g d (y & Hy & Hk) ([Hf Hs Hl] & Hrow & Hlink & Hi & Hp). simpl in *.
  assert (g ≠ f) as Hgf.
  { intros ->. apply Hne. eapply (unique_file _ (kc_unique Hkc)); [exact Hx|exact (kc_row Hkc)|by split_and!|].
    unfold fdb in Hrow. simpl in Hrow. rewrite Hrow in Hy. by injection Hy as <-. }
  split; [split|]; simpl.
  - etrans; [apply delete_subseteq|done].
  - done.
  - intros g' [_ Hg]%list_elem_of_filter. by apply Hl.
  - rewrite lookup_delete_ne by done. split; [done|]. split; [by apply list_elem_of_filter|done].
Qed.

(** The row is deleted, with its link. *)
Definition row_gone (w : fworld) : Prop := nar_files (fdb w) !! f = None ∧ ∀ g, (i, g) ∉ links (fdb w).

(** While the missing rows are deleted. *)
Definition row_going (w : fworld) : Prop :=
  dwindles w ∧ (nar_files (fdb w) !! f = Some nf ∨ row_gone w) ∧ is_Some (narinfos (fdb w) !! i) ∧ is_Some (narStore (base_world w) !! p).

Lemma row_there_going w : row_there w → row_going w.
Proof. intros (Hd & Hf & _ & Hi & Hp). split; [done|]. split; [by left|done]. Qed.

Lemma delete_row_narinfos x d : narinfos (delete_row x d) = narinfos d.
Proof. apply (delete_row_tables x (λ d', narinfos d' = narinfos d)); [|done]. by intros g d' _ <-. Qed.

Lemma delete_row_links x d y : y ∈ links (delete_row x d) → y ∈ links d.
Proof.
  revert y. apply (delete_row_tables x (λ d', ∀ y, y ∈ links d' → y ∈ links d)); [|done].
  intros g d' _ IH y [_ Hy]%list_elem_of_filter. by apply IH.
Qed.

Lemma delete_row_absent x d g : nar_files d !! g = None → nar_files (delete_row x d) !! g = None.
Proof.
  intros Hd. apply (delete_row_tables x (λ d, nar_files d !! g = None)); [|done]. intros k d' _ Hd'. simpl.
  apply lookup_delete_None. by right.
Qed.

Lemma delete_row_other x d :
  nar_files d ⊆ nar_files (fdb w0) → nar_files (fdb w0) !! x.1 = Some x.2 → x.1 ≠ f → nar_files d !! f = Some nf →
  nar_files (delete_row x.2 d) !! f = Some nf.
Proof.
  intros Hsub Hx Hne Hd. assert (nar_files (delete_row x.2 d) !! f = Some nf ∧ nar_files (delete_row x.2 d) ⊆ nar_files (fdb w0)) as [? _]; [|done].
  apply (delete_row_tables x.2 (λ d, nar_files d !! f = Some nf ∧ nar_files d ⊆ nar_files (fdb w0))); [|done].
  intros g d' (y & Hy & Hk) [Hf Hs]. simpl. split; [|etrans; [apply delete_subseteq|done]]. rewrite lookup_delete_ne; [done|]. intros ->.
  apply Hne. eapply (unique_file _ (kc_unique Hkc)); [exact Hx|exact (kc_row Hkc)|by split_and!|]. rewrite Hf in Hy. by injection Hy as <-.
Qed.

(** Deleting by the row's key deletes the row. *)
Lemma delete_row_own d :
  nar_files d ⊆ nar_files (fdb w0) → (∀ g, (i, g) ∈ links d → g = f) → nar_files d !! f = Some nf →
  nar_files (delete_row nf d) !! f = None ∧ ∀ g, (i, g) ∉ links (delete_row nf d).
Proof.
  intros Hsub Hl Hf. pose proof (λ y, delete_row_links nf d y) as Hsubl.
  unfold delete_row, delete_nar_files_where in *.
  assert ((f, nf) ∈ nar_files_where (nf_hash nf) (nf_compression nf) (nf_query nf) d) as Hin.
  { unfold nar_files_where, rows_where. apply elem_of_map_to_list, map_lookup_filter_Some. split; [done|by split_and!]. }
  assert (∀ x, x ∈ nar_files_where (nf_hash nf) (nf_compression nf) (nf_query nf) d → x.1 = f) as Hall.
  { intros [g y] Hgy. unfold nar_files_where, rows_where in Hgy. apply elem_of_map_to_list, map_lookup_filter_Some in Hgy as [Hg Hk]. simpl in *.
    eapply (unique_file _ (kc_unique Hkc)); [eapply lookup_weaken; [exact Hg|done]|exact (kc_row Hkc)|exact Hk|by split_and!]. }
  destruct (nar_files_where _ _ _ _) as [|[g y] l]; [by apply elem_of_nil in Hin|]. pose proof (Hall (g, y) ltac:(by left)) as Hg. simpl in Hg. subst g.
  simpl in *. split; [apply lookup_delete_eq|]. intros g Hg. pose proof (Hl g (Hsubl _ Hg)) as ->.
  by apply list_elem_of_filter in Hg as [Hne _].
Qed.

Lemma going_other x w :
  nar_files (fdb w0) !! x.1 = Some x.2 → x.1 ≠ f → row_going w → row_going (set_fdb (delete_row x.2 (fdb w)) w).
Proof.
  intros Hx Hne (Hd & Hf & Hi & Hp). split; [by apply dwindles_delete_row|]. unfold row_gone, fdb in *. simpl.
  rewrite delete_row_narinfos. split; [|done]. destruct Hf as [Hf|[Hf Hl]].
  - left. apply delete_row_other; [apply Hd|done..].
  - right. split; [by apply delete_row_absent|]. intros g Hg. by apply (Hl g), (delete_row_links x.2).
Qed.

Lemma going_own w : row_going w → row_going (set_fdb (delete_row nf (fdb w)) w) ∧ row_gone (set_fdb (delete_row nf (fdb w)) w).
Proof.
  intros (Hd & Hf & Hi & Hp). assert (row_gone (set_fdb (delete_row nf (fdb w)) w)) as Hg.
  { unfold row_gone, fdb in *. simpl. destruct Hf as [Hf|[Hf Hl]]; [by apply delete_row_own; [apply Hd|apply Hd|]|].
    split; [by apply delete_row_absent|]. intros g Hg. by apply (Hl g), (delete_row_links nf). }
  split; [|done]. split; [by apply dwindles_delete_row|]. split; [by right|]. unfold fdb in *. simpl. by rewrite delete_row_narinfos.
Qed.

Lemma gone_other x w : row_gone w → row_gone (set_fdb (delete_row x (fdb w)) w).
Proof.
  intros [Hf Hl]. unfold row_gone, fdb in *. simpl. split; [by apply delete_row_absent|]. intros g Hg. by apply (Hl g), (delete_row_links x).
Qed.

(** The steps of the repair. *)


Lemma runs_delete_file_rows (Q : fworld → Prop) x w : Q (set_fdb (delete_row x (fdb w)) w) → runs (delete_file_rows x) (λ _ w', Q w') w.
Proof. intros HQ. by apply runs_logged_writes. Qed.

Lemma runs_repair_unlinked x w :
  nar_files (fdb w0) !! x.1 = Some x.2 → x.1 ≠ f → row_there w → runs (repair_unlinked_file x) (λ _ w', row_there w') w.
Proof.
  intros Hx Hne Hw. apply runs_bind, runs_bind, runs_reads, runs_ret. destruct (negb _); [|by apply runs_ret].
  by apply runs_delete_file_rows, row_there_delete_row.
Qed.

Lemma runs_repair_missing (I : fworld → Prop) x w :
  (∀ w, I w → I (set_fdb (delete_row x.2 (fdb w)) w)) → nar_files (fdb w0) !! x.1 = Some x.2 → I w →
  runs (repair_missing_file x) (λ _ w', I w') w.
Proof.
  intros HI Hx Hw. apply runs_bind. eapply runs_mono; [by apply runs_readable_missing|]. intros c w' ->.
  destruct c; [by apply runs_delete_file_rows, HI|by apply runs_ret].
Qed.

Lemma runs_repair_own w :
  row_going w → runs (repair_missing_file (f, nf)) (λ _ w', row_going w' ∧ row_gone w') w.
Proof.
  intros Hw. apply runs_bind. eapply runs_mono; [apply (runs_still_missing row_going); [done|apply Hw]|]. intros c w' [-> ->].
  by apply (runs_delete_file_rows (λ w', row_going w' ∧ row_gone w')), going_own.
Qed.

(** Then the narinfo goes. *)
Definition narinfo_gone (w : fworld) : Prop := row_gone w ∧ narinfos (fdb w) !! i = None.

Lemma gone_delete_narinfo j w : row_gone w → row_gone (set_fdb (delete_narinfo j (fdb w)) w).
Proof.
  intros [Hf Hl]. unfold row_gone, fdb in *. simpl. split; [done|]. intros g [_ Hg]%list_elem_of_filter. by apply (Hl g).
Qed.

Lemma runs_sweep ids w :
  i ∉ ids → row_gone w → is_Some (narinfos (fdb w) !! i) → dwindles w → is_Some (narStore (base_world w) !! p) →
  runs (sweep_new_orphans ids) (λ _ w', (dwindles w' ∧ row_gone w' ∧ is_Some (narStore (base_world w') !! p)) ∧ narinfos (fdb w') !! i = None) w.
Proof.
  intros Hi Hg [r Hr] Hd Hp. apply runs_bind, runs_reads.
  apply (runs_for_each_at (λ w, dwindles w ∧ row_gone w ∧ is_Some (narStore (base_world w) !! p)) (λ w, narinfos (fdb w) !! i = None) _ i).
  - apply list_elem_of_filter. split; [done|]. apply list_elem_of_fmap. exists (i, r). split; [done|]. apply list_elem_of_filter. split.
    + intros (y & Hy & Hin)%list_elem_of_fmap. destruct y as [y1 y2]. simpl in *. subst y1. by apply (proj2 Hg y2).
    + by apply elem_of_map_to_list.
  - intros j v _ (? & ? & ?). apply runs_logged_writes. split; [by apply dwindles_delete_narinfo|]. split; [by apply gone_delete_narinfo|done].
  - intros v (? & ? & ?). apply runs_logged_writes. split; [|unfold fdb; simpl; apply lookup_delete_eq].
    split; [by apply dwindles_delete_narinfo|]. split; [by apply gone_delete_narinfo|done].
  - intros j v _ (? & ? & ?) Hnone. apply runs_logged_writes. split.
    + split; [by apply dwindles_delete_narinfo|]. split; [by apply gone_delete_narinfo|done].
    + unfold fdb in *. simpl. apply lookup_delete_None. by right.
  - done.
Qed.

(** And the file. *)
Lemma runs_delete_files l w :
  zstd_url ∈ l → dwindles w ∧ row_gone w ∧ narinfos (fdb w) !! i = None →
  runs (for_each repair_orphaned_nar l)
    (λ _ w', (dwindles w' ∧ row_gone w' ∧ narinfos (fdb w') !! i = None) ∧ narStore (base_world w') !! p = None) w.
Proof.
  intros Hz Hw.
  assert (∀ u v (R : fworld → Prop), dwindles v ∧ row_gone v ∧ narinfos (fdb v) !! i = None →
    (∀ q, nar_path u = Ok q → R (set_base (set_narStore (delete q (narStore (base_world v))) (base_world v)) v)) → R v →
    runs (logged (fsck_DeleteNar u)) (λ _ w', (dwindles w' ∧ row_gone w' ∧ narinfos (fdb w') !! i = None) ∧ R w') v) as Hdel.
  { intros u v R ([Hf Hs Hl] & Hg & Hn) HR Hv. apply runs_logged. unfold fsck_DeleteNar. destruct (nar_path u) as [q|] eqn:Hq; [|by apply wp_throw].
    apply wp_writes_or. case_bool_decide; [|done]. split; [done|]. split; [|by apply HR]. split; [|done]. split; [done| |done]. simpl.
    etrans; [apply delete_subseteq|done]. }
  apply (runs_for_each_at (λ w, dwindles w ∧ row_gone w ∧ narinfos (fdb w) !! i = None) _ _ zstd_url); [done| | | |done].
  - intros u v _ Hv. apply runs_bind, runs_bind, runs_reads, runs_ret. destruct (negb _); [|by apply runs_ret].
    eapply runs_mono; [by apply (Hdel u v (λ _, True))|]. by intros [] v' [? _].
  - intros v Hv. apply runs_bind, runs_bind, runs_reads, runs_ret. destruct (kc_file Hkc) as [Hp _].
    assert (nar_file_exists (Hash zstd_url) (Compression zstd_url) (encode (Query zstd_url)) (fdb v) = false) as ->.
    { unfold nar_file_exists. simpl. change (encode ∅) with "". apply negb_false_iff, bool_decide_eq_true.
      destruct (nar_files_where _ _ _ _) as [|[g x] l'] eqn:E; [done|]. exfalso.
      assert ((g, x) ∈ nar_files_where h CompressionTypeZstd "" (fdb v)) as Hgx by (rewrite E; by left).
      unfold nar_files_where, rows_where in Hgx. apply elem_of_map_to_list, map_lookup_filter_Some in Hgx as [Hg Hk].
      eapply (kc_no_row Hkc); [eapply lookup_weaken; [exact Hg|apply Hv]|done]. }
    simpl. destruct (decide (is_Some (narStore (base_world v) !! p))) as [Hs|Hs].
    + apply runs_logged. unfold fsck_DeleteNar. rewrite Hp. apply wp_writes_or. rewrite bool_decide_eq_true_2 by done.
      split; [done|]. destruct Hv as ([Hf Hs' Hl] & Hg & Hn). split; [|simpl; apply lookup_delete_eq]. split; [|done]. split; [done| |done].
      simpl. etrans; [apply delete_subseteq|done].
    + apply Hdel; [done| |by apply eq_None_not_Some]. intros q Hq. rewrite Hp in Hq. injection Hq as <-. simpl. apply lookup_delete_eq.
  - intros u v _ Hv Hnone. apply runs_bind, runs_bind, runs_reads, runs_ret. destruct (negb _); [|by apply runs_ret].
    apply Hdel; [done| |done]. intros q _. simpl. apply lookup_delete_None. by right.
Qed.

Lemma runs_repair r w :
  blames r → unchanged w → runs (repairFsckIssues r)
    (λ _ w', nar_files (fdb w') !! f = None ∧ narinfos (fdb w') !! i = None ∧ narStore (base_world w') !! p = None) w.
Proof.
  intros [B1 B2 B3 B4 B5 B6] [Hb _].
  assert (row_there w) as Hw.
  { unfold row_there, fdb. rewrite Hb. split; [split; unfold fdb; rewrite Hb; [done|done|apply (kc_only Hkc)]|].
    split; [exact (kc_row Hkc)|]. split; [exact (kc_link Hkc)|]. split; [exact (kc_narinfo Hkc)|]. apply (kc_file Hkc). }
  apply runs_bind. unfold repair_always. rewrite B2. apply runs_bind, runs_ret, runs_bind.
  eapply runs_mono; [apply (runs_for_each row_there); [|done]; intros x v Hx Hv; destruct (B3 x Hx); by apply runs_repair_unlinked|].
  intros [] w1 H1. apply runs_bind, runs_reads.
  assert (i ∉ (unlinked_narinfos (fdb w1)).*1) as Hi.
  { intros (x & Hx & [Hno _]%list_elem_of_filter)%list_elem_of_fmap. apply Hno. rewrite <- Hx. apply list_elem_of_fmap. exists (i, f).
    split; [done|]. apply H1. }
  apply runs_bind. eapply runs_mono; [apply (runs_for_each_at row_going row_gone _ (f, nf)); [exact B4| | | |by apply row_there_going]|].
  - intros x v Hx Hv. apply runs_repair_missing; [|by apply B5|done]. intros v' Hv'. destruct (decide (x.1 = f)) as [E|Hne].
    + pose proof (B5 x Hx) as Hx'. rewrite E, (kc_row Hkc) in Hx'. injection Hx' as <-. by apply going_own.
    + apply going_other; [by apply B5|done..].
  - intros v Hv. by apply runs_repair_own.
  - intros x v Hx Hv Hg. apply (runs_repair_missing (λ w, row_going w ∧ row_gone w)); [|by apply B5|done].
    intros v' [Hv' Hg']. destruct (decide (x.1 = f)) as [E|Hne].
    + pose proof (B5 x Hx) as Hx'. rewrite E, (kc_row Hkc) in Hx'. injection Hx' as <-. by apply going_own.
    + split; [apply going_other; [by apply B5|done..]|by apply gone_other].
  - intros [] w2 [(Hd & _ & Hn & Hp) Hg]. apply runs_bind. eapply runs_mono; [by apply runs_sweep|].
    intros [] w3 [(Hd3 & Hg3 & _) Hn3]. eapply runs_mono; [by apply runs_delete_files|].
    intros [] w4 [(_ & [Hf4 _] & Hn4) Hp4]. rewrite B1. simpl. by apply runs_ret.
Qed.

Lemma runs_fsck ce verify vs grace stdin w :
  ce ≠ Some "true" → (vs <= 0)%Z → unchanged w → runs (fsck now cfg ce false true verify vs grace stdin)
    (λ _ w', nar_files (fdb w') !! f = None ∧ narinfos (fdb w') !! i = None ∧ narStore (base_world w') !! p = None) w.
Proof.
  intros Hce Hvs Hw. pose proof Hw as [Hb Hcr]. apply runs_bind. apply (runs_mono _ (λ r w', r = cdcModeOff ∧ w' = w)).
  { unfold detectFsckCDCMode.
    assert (runs (hasChunked ← sees (λ w, bool_decide (map_Exists (λ _ nf, 0 < nf_total_chunks nf)%Z (nar_files (fdb w))));
      if hasChunked : bool then mret cdcModeFromChunkedNarFiles else
      hasResidue ← sees (λ w, negb (bool_decide (chunk_rows w = ∅)));
      mret (if hasResidue : bool then cdcModeFromChunkResidue else cdcModeOff)) (λ r w', r = cdcModeOff ∧ w' = w) w) as Hrest.
    { apply runs_bind, runs_sees. rewrite bool_decide_eq_false_2.
      2: { intros (g & x & Hx & Hpos)%map_Exists_lookup. unfold fdb in Hx. rewrite Hb in Hx. pose proof (kc_whole Hkc g x Hx). simpl in *. lia. }
      apply runs_bind, runs_sees. rewrite bool_decide_eq_true_2 by (rewrite Hcr; exact (kc_no_chunks Hkc)). by apply runs_ret. }
    apply runs_bind. apply (runs_mono _ (λ c w', c = Ok ce ∧ w' = w)).
    - apply wp_try, wp_reads; [done|]. by eexists.
    - intros c w' [-> ->]. destruct ce as [v|]; [|exact Hrest]. repeat (case_match; try exact Hrest). congruence. }
  intros reason w' [-> ->]. simpl. apply runs_bind. eapply runs_mono; [by apply runs_collect|].
  intros suspects w1 (H1 & C1 & C2 & C3 & C4 & C5 & C6). apply runs_bind.
  eapply runs_mono; [by apply runs_reverify|]. intros results w2 [H2 B2]. apply runs_bind, runs_ret, runs_bind, runs_ret.
  destruct (totalIssues results =? 0) eqn:Hz.
  { apply Nat.eqb_eq in Hz. unfold totalIssues in Hz. pose proof (bl_missing _ B2) as Hm.
    destruct (narFilesMissingInStorage results); [by apply elem_of_nil in Hm|]. simpl in Hz. lia. }
  simpl. apply runs_bind, runs_ret. by apply runs_repair.
Qed.
End uncompressed.

(** ** A run that only looks *)

Section looking.
Context `{GN : GoNix} {SG : Signing} {CD : Codec} {CH : Chunker} {HA : Hashing} (now : Z) (cfg : Config) (w0 : fworld).

(** The database but for the stamps, and the stores. *)
Definition looked (w : fworld) : Prop :=
  base_world w = base_world w0 ∧ chunk_rows w = chunk_rows w0 ∧ residue_flagged_at w = residue_flagged_at w0.
Definition steady {A} (m : eff fstate fsck_err A) : Prop := ∀ b w, looked w → wp b m (λ _ w', looked w') w.

Lemma steady_quiet {A} (m : eff fstate fsck_err A) : quiet m → steady m.
Proof. intros Hm b w Hw. eapply wp_mono; [apply Hm|]. by intros r w' ->. Qed.
Lemma steady_bind {A B} (m : eff fstate fsck_err A) (k : A → eff fstate fsck_err B) : steady m → (∀ a, steady (k a)) → steady (m ≫= k).
Proof. intros Hm Hk b w Hw. apply wp_bind. eapply wp_mono; [by apply Hm|]. intros [a|e] w' Hw'; [by apply Hk|done]. Qed.
Lemma steady_throw {A} e : steady (throw (A := A) e).
Proof. intros b w Hw. by apply wp_throw. Qed.
Lemma steady_stamp g : steady (stamp now g).
Proof. intros b w Hw. apply wp_logged, wp_writes_or. unfold update_file_row. destruct (nar_files _ !! g); [|done]. auto. Qed.
Lemma steady_for_each {A} (g : A → eff fstate fsck_err ()) l : (∀ x, steady (g x)) → steady (for_each g l).
Proof. intros Hg b w Hw. apply (wp_for_each b looked); [|done]. intros x w' _. apply Hg. Qed.
Lemma steady_keep_if {A} (g : A → eff fstate fsck_err bool) l : (∀ x, steady (g x)) → steady (keep_if g l).
Proof.
  intros Hg b w Hw. eapply wp_mono; [apply (wp_keep_if b looked (λ _, True)); [|done]|by intros r w' [Hw' _]].
  intros x w' _ Hw'. eapply wp_mono; [by apply Hg|]. auto.
Qed.
Lemma steady_collect_each {A B} (g : A → eff fstate fsck_err B) l : (∀ x, steady (g x)) → steady (collect_each g l).
Proof.
  intros Hg. induction l as [|x l IH]; simpl; [apply steady_quiet, quiet_ret|]. apply steady_bind; [apply Hg|]. intros y.
  apply steady_bind; [exact IH|]. intros rest. apply steady_quiet, quiet_ret.
Qed.
Lemma steady_scan_all {A B} (rows : fworld → list (Z * A)) (body : list (Z * A) → eff fstate fsck_err (list B)) :
  (∀ page, steady (body page)) → steady (scan_all rows body).
Proof.
  intros Hb b w Hw. eapply wp_mono; [apply (wp_scan_all b looked (λ _, True)); [|done]|by intros r w' [Hw' _]].
  intros page w' Hw' _. eapply wp_mono; [by apply Hb|]. intros r w1 H1. split; [done|]. intros out _. by apply Forall_forall.
Qed.

Lemma after_call_same w : after_call w (base_world w) = w.
Proof.
  unfold after_call, set_chunk_rows, set_base, follow_chunks. destruct w as [v rows va rf ct]. simpl. f_equal. apply map_filter_id.
  intros k h _ [Hs Hn]. simpl in *. rewrite Hn in Hs. by destruct Hs.
Qed.

Lemma steady_Linked f u : steady (cache_call (LinkedNarinfoNarHash f u)).
Proof.
  intros b w Hw. apply wp_cache_call. eapply wp_mono; [by apply (looks_LinkedNarinfoNarHash (base_world w))|].
  intros r v <-. by rewrite after_call_same.
Qed.

Lemma quiet_inconsistent x url : quiet (chunkedNarHasInconsistentNarInfoURL x url).
Proof. apply quiet_reads. Qed.

Lemma steady_classify {B} grace flags times (fn : Z * nar_file → URL → residueDecision → eff fstate fsck_err B) x :
  (∀ x u d, steady (fn x u d)) → steady (classify now grace flags times fn x).
Proof.
  intros Hfn. apply steady_bind; [apply steady_quiet, quiet_lift|]. intros u. apply steady_bind; [apply steady_Linked|]. intros o.
  apply steady_bind; [|intros c; apply Hfn]. apply steady_quiet. quietly ltac:(apply quiet_inconsistent).
Qed.

Ltac steadily :=
  repeat first
    [ apply steady_throw | apply steady_stamp | apply steady_quiet; solve [check_quiet | apply quiet_ret | apply quiet_lift | apply quiet_reads]
    | apply steady_for_each; intros ? | apply steady_keep_if; intros ? | apply steady_bind; [|intros ?] | case_match ].

Lemma steady_collect cdc vs verify : steady (collectFsckSuspects now cdc vs verify).
Proof.
  assert (∀ present x, steady (missing_from now present x)) as Hm by (intros present x; unfold missing_from; steadily).
  unfold collectFsckSuspects, collect_always, collectNarFilesWithChunkIssues, collectOrphanedChunksInStorage,
    collectNarFilesWithCorruptChunks, collectNarFilesWithHashMismatch.
  repeat first [apply Hm | progress steadily].
Qed.

Lemma steady_reverify r : steady (reVerifyFsckSuspects r).
Proof. unfold reVerifyFsckSuspects. steadily. Qed.

Lemma steady_collect_residue grace r : steady (collectChunkedResidueSuspects now grace r).
Proof.
  apply steady_bind; [|intros l; apply steady_quiet, quiet_ret]. apply steady_scan_all. intros page. apply steady_bind; [by intros b w Hw s <- Hc|].
  intros [flags times]. apply steady_collect_each. intros x. apply steady_classify. intros y u d. apply steady_quiet, quiet_ret.
Qed.

Lemma steady_fsck ce verify vs grace stdin : steady (fsck now cfg ce true false verify vs grace stdin).
Proof.
  unfold fsck. apply steady_bind; [apply steady_quiet, quiet_detect|]. intros reason. apply steady_bind; [apply steady_collect|]. intros s.
  apply steady_bind; [apply steady_reverify|]. intros r. apply steady_bind; [destruct (enabled reason); [apply steady_collect_residue|steadily]|].
  intros res. simpl. steadily.
Qed.
End looking.

(** ** Theorems *)

(** ** Reclaiming chunks *)

Section reclaiming.
Context `{GN : GoNix} {SG : Signing} {CD : Codec} {CH : Chunker} {HA : Hashing}.

Definition drop_blobs (hs : list string) (w : fworld) : fworld :=
  set_base (set_chunkFiles (filter (λ x, x.1 ∉ hs) (chunkFiles (base_world w))) (base_world w)) w.

(** Every chunk without a link is gone, its row and its file. *)
Definition reclaimed (w : fworld) : fworld :=
  set_chunk_rows (filter (λ x, chunk_linked x.2 (fdb w) = true) (chunk_rows w)) (drop_blobs (unlinked_chunks w).*2 w).

Definition page_reclaimed (l : list (Z * string)) (w : fworld) : fworld :=
  set_chunk_rows (filter (λ x, x.1 ∉ l.*1) (chunk_rows w)) (drop_blobs l.*2 w).

Lemma world_ext (w : fworld) m c : m = chunkFiles (base_world w) → c = chunk_rows w →
  set_chunk_rows c (set_base (set_chunkFiles m (base_world w)) w) = w.
Proof. intros -> ->. by destruct w as [[]]. Qed.

Lemma drop_blobs_nil w : drop_blobs [] w = w.
Proof. unfold drop_blobs. rewrite map_filter_id; [by destruct w as [[]]|]. intros i x _. by apply not_elem_of_nil. Qed.

Lemma drop_blobs_cons h hs w : drop_blobs hs (drop_blobs [h] w) = drop_blobs (h :: hs) w.
Proof.
  unfold drop_blobs, set_base, set_chunkFiles. simpl. f_equal. f_equal. rewrite map_filter_filter. apply map_filter_ext.
  intros i x _. simpl. rewrite elem_of_cons. set_solver.
Qed.

Lemma runs_delete_blob h w : runs (delete_blob h) (λ _ w', w' = drop_blobs [h] w) w.
Proof.
  assert (filter (λ x, x.1 ∉ [h]) (chunkFiles (base_world w)) = delete h (chunkFiles (base_world w))) as E.
  { apply map_eq. intros i. apply option_eq. intros x. rewrite map_lookup_filter_Some, lookup_delete_Some, list_elem_of_singleton. simpl. naive_solver. }
  apply runs_bind, runs_reads. destruct (bool_decide _) eqn:Hp.
  - intros s Hs Hc. refine (wp_writes_or false _ _ (λ r w', ∃ a, r = Ok a ∧ w' = drop_blobs [h] w) w _ s Hs Hc). rewrite Hp. split; [done|].
    exists (). split; [done|]. unfold drop_blobs. by rewrite E.
  - apply runs_ret. symmetry. apply world_ext; [|done]. rewrite E. apply delete_id. apply eq_None_not_Some. by apply bool_decide_eq_false in Hp.
Qed.

Lemma runs_blobs hs w : runs (for_each delete_blob hs) (λ _ w', w' = drop_blobs hs w) w.
Proof.
  revert w. induction hs as [|h hs IH]; intros w; simpl; [apply runs_ret; by rewrite drop_blobs_nil|].
  apply runs_bind. eapply runs_mono; [apply runs_delete_blob|]. intros [] w' ->. eapply runs_mono; [apply IH|].
  intros [] w' ->. apply drop_blobs_cons.
Qed.

Lemma unlinked_In x w : x ∈ unlinked_chunks w ↔ chunk_rows w !! x.1 = Some x.2 ∧ chunk_linked x.2 (fdb w) = false.
Proof. destruct x. unfold unlinked_chunks. rewrite list_elem_of_filter, elem_of_map_to_list. simpl. tauto. Qed.

Lemma unlinked_NoDup w : NoDup (unlinked_chunks w).
Proof. apply NoDup_filter, NoDup_map_to_list. Qed.

Lemma page_In l x w : (∀ y, y ∈ l → y ∈ unlinked_chunks w) → x ∈ unlinked_chunks w → x.1 ∈ l.*1 → x ∈ l.
Proof.
  intros Hl Hx ([j h] & E & Hin)%list_elem_of_fmap. specialize (Hl _ Hin). apply unlinked_In in Hl as [Hl _], Hx as [Hx _].
  simpl in *. rewrite E, Hl in Hx. injection Hx as Hx. destruct x. simpl in *. by subst.
Qed.

Lemma unlinked_page l w : unlinked_chunks (page_reclaimed l w) ≡ₚ filter (λ x, x.1 ∉ l.*1) (unlinked_chunks w).
Proof.
  apply NoDup_Permutation; [apply unlinked_NoDup|apply NoDup_filter, unlinked_NoDup|]. intros [i h].
  rewrite list_elem_of_filter, !unlinked_In. unfold page_reclaimed. simpl. rewrite map_lookup_filter_Some. simpl.
  change (fdb (set_chunk_rows _ _)) with (fdb w). tauto.
Qed.

Lemma reclaimed_page n w : let l := take n (unlinked_chunks w) in
  reclaimed (page_reclaimed l w) = reclaimed w ∧ length (unlinked_chunks w) = length l + length (unlinked_chunks (page_reclaimed l w)).
Proof.
  intros l. assert (∀ x, x ∈ l → x ∈ unlinked_chunks w) as Hl by (intros x; apply subseteq_take). split.
  - unfold reclaimed, page_reclaimed, drop_blobs, set_chunk_rows, set_base, set_chunkFiles. simpl. f_equal.
    + f_equal. rewrite map_filter_filter. apply map_filter_ext. intros h b _. simpl. fold (page_reclaimed l w). rewrite (unlinked_page l w).
      assert (∀ x, x ∈ filter (λ x, x.1 ∉ l.*1) (unlinked_chunks w) ↔ x.1 ∉ l.*1 ∧ x ∈ unlinked_chunks w) as Hpage.
      { intros x. by rewrite list_elem_of_filter. }
      rewrite !list_elem_of_fmap. setoid_rewrite Hpage. split.
      * intros [H2 H1] (x & -> & Hx). destruct (decide (x.1 ∈ l.*1)) as [Hin|Hin]; [|apply H2; by exists x].
        apply H1. exists x. split; [done|]. by eapply page_In.
      * intros H1. split; intros (x & -> & Hx); apply H1; exists x; split; try done; [by destruct Hx|by apply Hl].
    + rewrite map_filter_filter. apply map_filter_ext. intros i h Hi. simpl. split; [by intros [? _]|]. intros Hlk. split; [done|].
      intros ([j k] & -> & Hin)%list_elem_of_fmap. apply Hl, unlinked_In in Hin as [Hj Hk]. simpl in *. rewrite Hi in Hj. injection Hj as <-.
      change (fdb _) with (fdb w) in Hlk. congruence.
  - rewrite (unlinked_page l w). rewrite <- (take_drop n (unlinked_chunks w)) at 1 2. fold l. rewrite filter_app, length_app, filter_none, filter_all; [done|..].
    + apply Forall_forall. intros x Hx Hin. pose proof (unlinked_NoDup w) as Hnd. rewrite <- (take_drop n (unlinked_chunks w)) in Hnd. fold l in Hnd.
      apply NoDup_app in Hnd as (_ & Hnd & _). apply (Hnd x); [|done]. eapply page_In; [exact Hl| |done]. by apply (subseteq_drop n).
    + apply Forall_forall. intros x Hx Hn. apply Hn. apply list_elem_of_fmap. by exists x.
Qed.

(** Undisturbed, as many pages as chunks are enough. *)
Lemma runs_reclaim_pages fuel n w :
  length (unlinked_chunks w) < fuel →
  runs (reclaim_pages fuel n) (λ m w', m = n + length (unlinked_chunks w) ∧ w' = reclaimed w) w.
Proof.
  revert n w. induction fuel as [|fuel IH]; intros n w Hlen; [lia|]. cbn [reclaim_pages]. apply runs_bind, runs_reads.
  destruct (reclaimed_page fsckEagerLoadBatchSize w) as [Hr Hcount]. pose proof batch_pos as HB.
  destruct (bool_decide _) eqn:Hl.
  - apply bool_decide_eq_true in Hl. assert (unlinked_chunks w = []) as E.
    { apply (f_equal length) in Hl. rewrite length_take in Hl. apply nil_length_inv. change (length []) with 0 in Hl. lia. }
    apply runs_ret. rewrite E. split; [simpl; lia|]. unfold reclaimed. rewrite E. simpl. rewrite drop_blobs_nil.
    rewrite map_filter_id; [by destruct w|]. intros i h Hi. simpl. destruct (chunk_linked h (fdb w)) eqn:Hlk; [done|].
    assert ((i, h) ∈ unlinked_chunks w) as Hin by (by apply unlinked_In). rewrite E in Hin. by apply elem_of_nil in Hin.
  - apply runs_bind. eapply runs_mono; [apply runs_blobs|]. intros [] w' ->. apply runs_bind, runs_writes.
    assert (0 < length (take fsckEagerLoadBatchSize (unlinked_chunks w))) as Hpos.
    { apply bool_decide_eq_false in Hl. by destruct (take _ _); [|simpl; lia]. }
    change (set_chunk_rows _ _) with (page_reclaimed (take fsckEagerLoadBatchSize (unlinked_chunks w)) w).
    eapply runs_mono; [apply IH; lia|]. intros m w' [-> ->]. split; [lia|exact Hr].
Qed.

(** Whatever happens, a step that returns has kept the rows. *)
Lemma blob_rows h s : chunk_rows (fst_world (delete_blob h s).2) = chunk_rows (fst_world s).
Proof.
  unfold delete_blob, mbind, eff_bind, reads, fsck_DeleteChunk, writes_or.
  destruct (fnext s); simpl; try done; (destruct (bool_decide _); [|done]); by destruct (bool_decide _), (fnext (fput (fst_world s) s)).
Qed.

Lemma blobs_rows hs s : chunk_rows (fst_world (for_each delete_blob hs s).2) = chunk_rows (fst_world s).
Proof.
  revert s. induction hs as [|h hs IH]; intros s; [done|]. simpl. unfold mbind, eff_bind. pose proof (blob_rows h s) as Hb.
  destruct (delete_blob h s) as [[[]|e] s']; [|done]. simpl in Hb. by rewrite IH.
Qed.

Lemma rows_shrink l w :
  l ≠ [] → (∀ x, x ∈ l → x ∈ unlinked_chunks w) → size (filter (λ x, x.1 ∉ l.*1) (chunk_rows w)) < size (chunk_rows w).
Proof.
  intros Hne Hl. destruct l as [|[i h] l]; [done|]. apply map_subset_size. split; [apply map_filter_subseteq|]. intros Hsub.
  pose proof (Hl (i, h) ltac:(by left)) as [Hi _]%unlinked_In. eapply lookup_weaken in Hi; [|exact Hsub].
  apply map_lookup_filter_Some in Hi as [_ Hi]. apply Hi. by left.
Qed.

(** No fault makes more pages than chunks. *)
Lemma reclaim_fuel fuel fuel' n s :
  size (chunk_rows (fst_world s)) < fuel → size (chunk_rows (fst_world s)) < fuel' → reclaim_pages fuel n s = reclaim_pages fuel' n s.
Proof.
  revert fuel' n s. induction fuel as [|fuel IH]; intros [|fuel'] n s Hf Hf'; try lia. cbn [reclaim_pages].
  unfold mbind at 1 4, eff_bind at 1 4. unfold reads.
  assert (∀ x, x ∈ take fsckEagerLoadBatchSize (unlinked_chunks (fst_world s)) → x ∈ unlinked_chunks (fst_world s)) as Hl
    by (intros x; apply subseteq_take).
  set (l := take _ _) in *. destruct (fnext s); try done; (destruct (bool_decide _) eqn:Hne; [done|]); apply bool_decide_eq_false in Hne;
    pose proof (rows_shrink l _ Hne Hl) as Hsize; unfold mbind, eff_bind;
    pose proof (blobs_rows l.*2 (fput (fst_world s) s)) as Hrows; destruct (for_each _ _ _) as [[[]|e] s1]; try done; simpl in Hrows;
    unfold writes, writes_or; destruct (fnext s1); try done; apply IH; simpl; rewrite Hrows; lia.
Qed.

Lemma unlinked_count w : length (unlinked_chunks w) <= size (chunk_rows w).
Proof. rewrite <- length_map_to_list. apply length_filter. Qed.

(** The one outcome of an undisturbed run. *)
Lemma runs_once {A} (m : eff fstate fsck_err A) a w w' : runs m (λ a' v, a' = a ∧ v = w') w → m (mkFstate w []) = (Ok a, mkFstate w' []).
Proof.
  intros Hm. destruct (Hm (mkFstate w []) eq_refl eq_refl) as (Hc & a' & Ha & -> & Hw). destruct (m _) as [r [v fs]]. simpl in *. by subst.
Qed.
End reclaiming.

(** C2. A consistency run never destroys a NAR that is stored as its row says.  Take any
    world in which NAR files have distinct keys, stored queries are in normal form and no
    narinfo has an empty NarHash, and in it a row linked to a narinfo that is [sane]: a
    whole file at the row's own path, the row having no query and a hash without prefix,
    and no other file in the store with a name that parses to a NAR of that path; or all
    the chunks the row counts, with their rows, their digests, the narinfos' sizes and the
    NAR's hash.  Whatever the flags, the mode detected, the answer at the prompt, the other
    damage in the database and the stores, and whatever faults befall queries, statements
    and stores before or after their effect, the run leaves the row, the narinfo and their
    link, and the file or the chunks with their bytes.  A file whose name has a prefix
    before the hash is what the last condition excludes ([stray_file_costs_its_target]).
    Nobody else writes to the database during the run. *)
Theorem fsck_spares_sane `{GN : GoNix} {SG : Signing} {CD : Codec} {CH : Chunker} {HA : Hashing} (now : Z) (cfg : Config)
    (w : fworld) (f i : Z) (nf : nar_file) (p : string) (ce : option string) (dryRun repair verify : bool) (vs grace : Z)
    (stdin : terminal) (fs : list event) :
  unique_keys (fdb w) →
  (∀ g x q, nar_files (fdb w) !! g = Some x → parse_query (nf_query x) = Ok q → encode q = nf_query x) →
  sane w f i nf p → Forall idle fs →
  let w' := fst_world (fsck now cfg ce dryRun repair verify vs grace stdin (mkFstate w fs)).2 in
  nar_files (fdb w') !! f = Some nf ∧ is_Some (narinfos (fdb w') !! i) ∧ (i, f) ∈ links (fdb w') ∧
  ((0 < nf_total_chunks nf)%Z → links_of f (fdb w') = links_of f (fdb w) ∧
     ∀ h, h ∈ links_of f (fdb w) → chunkFiles (base_world w') !! h = chunkFiles (base_world w) !! h) ∧
  ((nf_total_chunks nf <= 0)%Z → narStore (base_world w') !! p = narStore (base_world w) !! p).
Proof.
  intros Hu Hq Hs Hfs w'. destruct (wp_fsck now cfg w f i nf p Hu Hq Hs true ce dryRun repair verify vs grace stdin (mkFstate w fs) eq_refl Hfs)
    as [_ [Hl _ _]]. split; [exact (lv_row _ _ _ _ _ _ Hl)|]. split; [destruct (lv_narinfo _ _ _ _ _ _ Hl) as (r & Hr & _); by exists r|].
  split; [exact (lv_link _ _ _ _ _ _ Hl)|]. split; [exact (lv_chunks _ _ _ _ _ _ Hl)|exact (lv_stored _ _ _ _ _ _ Hl)].
Qed.

(** C34. Reading in pages is reading at once.  Undisturbed, on any number of rows with
    positive ids, [queryCDCNarFilesWithSizeMismatch] returns, in the order of the ids and
    each once, exactly the chunked rows whose size differs from a linked narinfo's, as
    one query would that is not cut into pages of [fsckEagerLoadBatchSize] rows; and
    [chunksForNarFile] returns a NAR's chunks, all of them in their order, repeated ones
    included, when their rows are there. *)
Theorem pages_equal_one_query `{GN : GoNix} {SG : Signing} {CD : Codec} {CH : Chunker} {HA : Hashing} (w : fworld) (g : Z) :
  map_Forall (λ f _, 0 < f)%Z (nar_files (fdb w)) → (∀ h, h ∈ links_of g (fdb w) → chunk_row_exists h w = true) →
  queryCDCNarFilesWithSizeMismatch (mkFstate w []) =
    (Ok (filter (λ x, size_mismatch (links_with_narinfo x.1 (fdb w)) x.2 = true) (sorted_rows (chunked_rows w))), mkFstate w []) ∧
  chunksForNarFile g (mkFstate w []) = (Ok (links_of g (fdb w)), mkFstate w []).
Proof.
  intros Hpos Hrows. split; apply runs_state; [|by apply runs_chunksForNarFile].
  apply (runs_scan_all chunked_rows _ (filter (λ x, size_mismatch (links_with_narinfo x.1 (fdb w)) x.2 = true))).
  - intros page. by apply runs_reads.
  - done.
  - intros l1 l2. apply filter_app.
  - apply keyed_filter, keyed_map.
  - apply Forall_forall. intros [f x] [_ Hx%elem_of_map_to_list]%list_elem_of_filter. exact (Hpos f x Hx).
Qed.

(** Reclaiming chunks ends.  [reclaimStaleChunkLinks] loops until no chunk is without
    a link, without a bound: whatever faults happen, a page deletes its rows or the loop
    returns, so one pass more than there are chunks is always enough.  Undisturbed, it
    deletes the links of the rows that have no chunks and are not being chunked, and, when
    there were any, leaves exactly the linked chunks, in the table and in the store, and
    counts both. *)
Theorem reclaim_terminates `{GN : GoNix} {SG : Signing} {CD : Codec} {CH : Chunker} {HA : Hashing} (w : fworld) :
  (∀ s k, reclaim_pages (S (size (chunk_rows (fst_world s))) + k) 0 s = reclaim_all s) ∧
  let w1 := set_fdb (delete_stale_links (fdb w)) w in
  reclaimStaleChunkLinks (mkFstate w []) =
    if stale_links (fdb w) =? 0 then (Ok (0, 0), mkFstate w1 [])
    else (Ok (stale_links (fdb w), length (unlinked_chunks w1)), mkFstate (reclaimed w1) []).
Proof.
  split; [intros s k; apply reclaim_fuel; lia|]. intros w1. unfold reclaimStaleChunkLinks, writes_ret, mbind, eff_bind. simpl.
  change (fput _ _) with (mkFstate w1 []). destruct (stale_links _ =? 0); [done|]. unfold reclaim_all.
  change (fst_world (mkFstate w1 [])) with w1. change (chunk_rows w) with (chunk_rows w1).
  erewrite (runs_once (reclaim_pages _ 0)) by (apply runs_reclaim_pages, Nat.lt_succ_r, unlinked_count). done.
Qed.

(** C16. [--dry-run] without [--repair] changes nothing but the [verified_at] stamps of
    rows, whatever it finds and whatever faults it meets: not the rows, the narinfos, the
    links or the flags of residue, not a stored file. *)
Theorem dry_run_changes_nothing `{GN : GoNix} {SG : Signing} {CD : Codec} {CH : Chunker} {HA : Hashing} (now : Z) (cfg : Config)
    (w : fworld) (ce : option string) (verify : bool) (vs grace : Z) (stdin : terminal) (fs : list event) :
  Forall idle fs →
  let w' := fst_world (fsck now cfg ce true false verify vs grace stdin (mkFstate w fs)).2 in
  base_world w' = base_world w ∧ chunk_rows w' = chunk_rows w ∧ residue_flagged_at w' = residue_flagged_at w.
Proof.
  intros Hfs w'. by destruct (steady_fsck now cfg w ce verify vs grace stdin true w ltac:(by split) (mkFstate w fs) eq_refl Hfs) as [_ Hw].
Qed.

(** C40. [fsck --repair] destroys NARs that downloads have stored.  A download of an
    uncompressed NAR keeps it as one zstd file under a row and a narinfo that say it is
    uncompressed ([kept_compressed]).  Without CDC and without faults, a run with
    [--repair] succeeds and deletes the row, because no file has the row's own path, then
    the narinfo that this orphans, then the file, because no row has its compression:
    whatever else the database and the store hold. *)
Theorem repair_destroys_uncompressed `{GN : GoNix} {SG : Signing} {CD : Codec} {CH : Chunker} {HA : Hashing} (now : Z) (cfg : Config)
    (w : fworld) (f i : Z) (nf : nar_file) (h p : string) (ce : option string) (verify : bool) (vs grace : Z) (stdin : terminal) :
  kept_compressed w f i nf h p → ce ≠ Some "true" → (vs <= 0)%Z →
  let o := fsck now cfg ce false true verify vs grace stdin (mkFstate w []) in
  o.1 = Ok () ∧ nar_files (fdb (fst_world o.2)) !! f = None ∧ narinfos (fdb (fst_world o.2)) !! i = None ∧
  narStore (base_world (fst_world o.2)) !! p = None.
Proof.
  intros Hk Hce Hvs o. destruct (runs_fsck now cfg w f i nf h p Hk ce verify vs grace stdin w Hce Hvs ltac:(by split)
    (mkFstate w []) eq_refl eq_refl) as (_ & [] & Ha & Hq). by split.
Qed.

(** ** Examples *)

Definition other_zst : URL := with_compression other_nar CompressionTypeZstd.
Definition other_zst_path : string := match nar_path other_zst with Ok p => p | Err _ => "" end.

(** A NAR in two chunks; a row that no narinfo is linked to and that counts three chunks
    but has one, shared; a chunk without a link, a chunk's file without a row, a file
    without a row. *)
Definition hello_file : nar_file := mkNarFile sample_hash CompressionTypeNone "" 13 2 true None false 0.
Definition broken_file : nar_file := mkNarFile (Hash other_nar) CompressionTypeNone "" 20 3 true None false 0.
Definition damaged_tables : tables :=
  mkTables {[0%Z := hello_row]} [] [] {[7%Z := hello_file; 8%Z := broken_file]} [(0, 7)]%Z
    {[7%Z := ["nix-ar"; "chive-1"]; 8%Z := ["nix-ar"]]}.
Definition damaged_world : fworld (H := tagged_nix) :=
  mkFworld
    (mkWorld damaged_tables ∅ {[other_zst_path := "Zother"]}
      {["nix-ar" := "nix-ar"; "chive-1" := "chive-1"; "lost" := "lost"; "stray" := "stray"]} ∅ ∅ ∅ [])
    {[1%Z := "nix-ar"; 2%Z := "chive-1"; 3%Z := "lost"]} ∅ ∅ ∅.

Lemma damaged_sane : sane damaged_world 7 0 hello_file "".
Proof.
  assert (Forall (λ h, chunk_row_exists h damaged_world = true ∧
    ∃ b, chunkFiles (base_world damaged_world) !! h = Some b ∧ digest b = h) (links_of 7 (fdb damaged_world))) as Hchunks.
  { vm_compute links_of. repeat (apply Forall_cons; split; [split; [reflexivity|by eexists]|]). by apply Forall_nil. }
  rewrite Forall_forall in Hchunks. split.
  - reflexivity.
  - exists hello_row. done.
  - by apply list_elem_of_singleton.
  - intros j r Hj. simpl in Hj. by apply lookup_singleton_Some in Hj as [_ <-].
  - intros h _ Hh. exact (proj1 (Hchunks h Hh)).
  - reflexivity.
  - intros h _ Hh. exact (proj2 (Hchunks h Hh)).
  - intros j r z _ _ Hj Hz. simpl in Hj. apply lookup_singleton_Some in Hj as [_ <-]. discriminate Hz.
  - intros j r e _ _ Hj He. simpl in Hj. apply lookup_singleton_Some in Hj as [_ <-]. vm_compute in He. injection He as <-. reflexivity.
  - intros H. by vm_compute in H.
  - intros q u H. by vm_compute in H.
Qed.

(** A whole file stored as its row says, beside a file with a prefixed name. *)
Definition hello_whole : nar_file := mkNarFile sample_hash CompressionTypeZstd "" 14 0 true None false 0.
Definition stray_path : string := "stray/" +:+ hello_hash +:+ "-" +:+ base hello_zst_path.
Definition stray_world : fworld (H := tagged_nix) :=
  mkFworld
    (mkWorld (mkTables {[0%Z := hello_row]} [] [] {[7%Z := hello_whole]} [(0, 7)]%Z ∅) ∅
      {[hello_zst_path := "Znix-archive-1"; stray_path := "stray"]} ∅ ∅ ∅ ∅ []) ∅ ∅ ∅ ∅.
Definition strays_repaired (w : fworld (H := tagged_nix)) : world :=
  base_world (fst_world (fsck 10 eager_config None false true false 0 0 NotATerminal (mkFstate w [])).2).

(** The stray name parses to the prefixed hash, which has no row, and the store deletes
    the file of the hash: --repair takes the NAR's own file for the stray one. *)
Example stray_file_costs_its_target :
  narStore (strays_repaired stray_world) !! hello_zst_path = None ∧
  is_Some (narStore (strays_repaired stray_world) !! stray_path) ∧
  nar_files (db (strays_repaired stray_world)) !! 7%Z = Some hello_whole.
Proof. split; [|split; [eexists|]]; vm_compute; reflexivity. Qed.

Lemma damaged_unique : unique_keys damaged_tables.
Proof.
  split.
  - intros i j x y Hi Hj _. simpl in *. apply lookup_singleton_Some in Hi as [<- _], Hj as [<- _]. done.
  - intros i j x y h c q Hi Hj Kx Ky. simpl in *.
    apply lookup_insert_Some in Hi as [[<- <-]|[_ [<- <-]%lookup_singleton_Some]];
    apply lookup_insert_Some in Hj as [[<- <-]|[_ [<- <-]%lookup_singleton_Some]];
    destruct Kx as [<- _], Ky as [E _]; done.
Qed.

(** Four deletions that report a failure after their effect. *)
Definition late_faults : list event :=
  repeat EvOk 50 ++ [EvLate; EvOk; EvLate] ++ repeat EvOk 3 ++ [EvLate; EvOk; EvLate].
Definition repaired : result fsck_err () * fstate :=
  fsck 10 eager_config (Some "true") false true true 0 0 NotATerminal (mkFstate damaged_world late_faults).

Lemma fsck_spares_sane_witness :
  nar_files (fdb (fst_world repaired.2)) !! 7%Z = Some hello_file ∧
  chunkFiles (base_world (fst_world repaired.2)) !! "chive-1" = Some "chive-1" ∧
  nar_files (fdb (fst_world repaired.2)) !! 8%Z = None ∧
  chunkFiles (base_world (fst_world repaired.2)) !! "stray" = None ∧ narStore (base_world (fst_world repaired.2)) = ∅.
Proof.
  destruct (fsck_spares_sane 10 eager_config damaged_world 7 0 hello_file "" (Some "true") false true true 0 0 NotATerminal late_faults)
    as (Hf & _ & _ & Hc & _).
  - exact damaged_unique.
  - intros g x q Hx Hq. simpl in Hx.
    apply lookup_insert_Some in Hx as [[_ <-]|[_ [_ <-]%lookup_singleton_Some]]; vm_compute in Hq; injection Hq as <-; reflexivity.
  - exact damaged_sane.
  - apply idle_events. reflexivity.
  - split; [exact Hf|]. split; [|apply (bool_decide_eq_true_1 _); vm_compute; reflexivity].
    destruct (Hc ltac:(reflexivity)) as [_ Hall]. apply (Hall "chive-1"). vm_compute. right. left.
Defined.

Lemma pages_equal_one_query_witness :
  (queryCDCNarFilesWithSizeMismatch (mkFstate damaged_world [])).1 = Ok [] ∧
  (chunksForNarFile 7 (mkFstate damaged_world [])).1 = Ok ["nix-ar"; "chive-1"].
Proof.
  destruct (pages_equal_one_query damaged_world 7) as [Hm Hc].
  - intros f x Hx. simpl in Hx. apply lookup_insert_Some in Hx as [[<- _]|[_ [<- _]%lookup_singleton_Some]]; reflexivity.
  - intros h Hh. assert (links_of 7 (fdb damaged_world) = ["nix-ar"; "chive-1"]) as E by reflexivity. rewrite E in Hh.
    apply elem_of_cons in Hh as [->|Hh%list_elem_of_singleton]; [reflexivity|subst h; reflexivity].
  - rewrite Hm, Hc. split; reflexivity.
Defined.

Lemma dry_run_changes_nothing_witness :
  let o := fsck 10 eager_config (Some "true") true false true 0 0 NotATerminal (mkFstate damaged_world [EvOk; EvOk; EvLate]) in
  base_world (fst_world o.2) = base_world damaged_world.
Proof.
  intros o. apply (dry_run_changes_nothing 10 eager_config damaged_world (Some "true") true 0 0 NotATerminal [EvOk; EvOk; EvLate]).
  apply idle_events. reflexivity.
Defined.

(** A download of an uncompressed NAR from an uncompressed URL, without CDC. *)
Definition no_cdc : Config := mkConfig false false false false "ncps" false false 100 false.
Definition downloaded : state :=
  (pullNarIntoStore no_cdc 9 (λ b, b) (λ _, Some (plain_stream "nix-archive-1")) hello_none None (Some hello) (mkState known_world [])).2.

Definition downloaded_file : nar_file := mkNarFile sample_hash CompressionTypeNone "" 14 0 true (Some 9%Z) false 9.
Definition downloaded_world : fworld (H := tagged_nix) :=
  mkFworld (mkWorld (mkTables {[0%Z := hello_row]} [] [] {[0%Z := downloaded_file]} [(0, 0)]%Z ∅) ∅ {[hello_zst_path := "Znix-archive-1"]}
    ∅ ∅ ∅ ∅ []) ∅ ∅ ∅ ∅.

(** It leaves the row, the link and the file of [downloaded_world]. *)
Example downloaded_leaves :
  map_to_list (nar_files (db (st downloaded))) = [(0%Z, downloaded_file)] ∧ links (db (st downloaded)) = [(0, 0)]%Z ∧
  map_to_list (narStore (st downloaded)) = [(hello_zst_path, "Znix-archive-1")] ∧ (narinfos (db (st downloaded)) !! 0%Z) = Some hello_row.
Proof. split; [vm_compute; reflexivity|]. split; [vm_compute; reflexivity|]. split; vm_compute; reflexivity. Qed.

Lemma downloaded_kept : kept_compressed downloaded_world 0 0 downloaded_file sample_hash hello_zst_path.
Proof.
  assert (∀ g x, nar_files (fdb downloaded_world) !! g = Some x → g = 0%Z ∧ x = downloaded_file) as Hrows.
  { intros g x Hx. simpl in Hx. by apply lookup_singleton_Some in Hx as [<- <-]. }
  split.
  - split; [intros j k x y Hj Hk _|intros j k x y h c q Hj Hk _ _].
    + simpl in *. apply lookup_singleton_Some in Hj as [<- _], Hk as [<- _]. done.
    + by destruct (Hrows j x Hj) as [-> _], (Hrows k y Hk) as [-> _].
  - reflexivity.
  - done.
  - intros g x Hx. by destruct (Hrows g x Hx) as [_ ->].
  - by eexists.
  - by apply list_elem_of_singleton.
  - intros g Hg%list_elem_of_singleton. by injection Hg as ->.
  - reflexivity.
  - split; [reflexivity|by eexists].
  - eexists. split; [vm_compute; reflexivity|]. apply lookup_singleton_ne. vm_compute. discriminate.
  - intros g x Hx (_ & Hc & _). destruct (Hrows g x Hx) as [_ ->]. discriminate Hc.
  - intros q [b Hq]. simpl in Hq. apply lookup_singleton_Some in Hq as [<- _]. by exists (with_compression hello_none CompressionTypeZstd).
  - intros g x Hx. destruct (Hrows g x Hx) as [_ ->]. eexists _, _. split; reflexivity.
  - reflexivity.
  - reflexivity.
Qed.

Lemma repair_destroys_uncompressed_witness :
  let o := fsck 10 no_cdc None false true false 0 0 NotATerminal (mkFstate downloaded_world []) in
  o.1 = Ok () ∧ nar_files (fdb (fst_world o.2)) !! 0%Z = None ∧ narinfos (fdb (fst_world o.2)) !! 0%Z = None ∧
  narStore (base_world (fst_world o.2)) !! hello_zst_path = None.
Proof.
  apply (repair_destroys_uncompressed 10 no_cdc downloaded_world 0 0 downloaded_file sample_hash hello_zst_path None false 0 0 NotATerminal);
    [exact downloaded_kept|discriminate|lia].
Defined.

(** [--dry-run] does not keep [--repair] from purging residue whose grace is over. *)
Definition residue_tables : tables :=
  mkTables ∅ [] [] {[7%Z := hello_file]} [] {[7%Z := ["nix-ar"; "chive-1"]]}.
Definition residue_world : fworld (H := tagged_nix) :=
  mkFworld (mkWorld residue_tables ∅ ∅ {["nix-ar" := "nix-ar"; "chive-1" := "chive-1"]} ∅ ∅ ∅ [])
    {[1%Z := "nix-ar"; 2%Z := "chive-1"]} ∅ {[7%Z := 0%Z]} ∅.
Example dry_run_with_repair_purges :
  let o := fsck 100 eager_config (Some "true") true true false 0 50 NotATerminal (mkFstate residue_world []) in
  o.1 = Err ErrFsckIssuesFound ∧ nar_files (fdb (fst_world o.2)) !! 7%Z = None ∧ chunkFiles (base_world (fst_world o.2)) !! "nix-ar" = None.
Proof. vm_compute. split; [reflexivity|]. split; reflexivity. Qed.
