(* ===== verification/Upstream.v ===== *)
(** * Upstream caches

    The client of another binary cache ([pkg/cache/upstream]), the health checker
    ([pkg/cache/healthcheck]), and the choice of an upstream ([getHealthyUpstreams],
    [selectUpstream], [getNarInfoFromUpstream], [narInfoGenuinelyAbsentUpstream] of
    [pkg/cache/cache.go]).  The network is a function from the number of a request, and
    the request, to what becomes of it; the probes of several upstreams run at once, so
    their selection is a machine that steps in any order. *)
From stdpp Require Import sorting.
From S2P Require Import Prelude GoStd Nar CacheInfo NarInfoDB NarInfoCache NarServe.

(** ** Requests *)

(** A parsed [url.URL]: no user, no fragment; the path is escaped. *)
Record base_url := mkBase {
  u_scheme : string;
  u_hostname : string;
  u_path : string;
  u_rawquery : string;
}.

Record request := mkRequest {
  method : string;
  r_target : base_url;
  basic_auth : option (string * string);
  accept_encoding : option string;
}.

(** [content_length] is -1 when it is unknown. *)
Record response := mkResponse {
  StatusCode : Z;
  content_encoding : string;
  content_length : Z;
  r_body : stream;
}.

(** What [http.Client.Do] fails with. *)
Record transport_error := mkTransport {
  te_msg : string;
  te_timeout : bool;
  te_canceled : bool;
}.

(** What becomes of a request, and whether the context ends in the wait that follows: by
    its deadline ([Some true]) or cancelled. *)
Record attempt := mkAttempt {
  answer : result transport_error response;
  interrupted : option bool;
}.

Inductive upstream_err :=
  | ErrURLRequired
  | ErrURLMustContainScheme
  | ErrPublicKey
  | ErrPriority (e : num_error)
  | ErrUpstreamNotFound
  | ErrUnexpectedHTTPStatusCode
  | ErrSignatureValidationFailed
  | ErrNarInfoSyntax
  | ErrNarInfoCheck
  | ErrCacheInfo (e : info_error)
  | ErrTransport (e : transport_error)
  | ErrContext (deadline : bool)
  | ErrZstdReader
  | ErrBody
  | ErrNarURL (e : nar_error).

(** The requests sent and the time waited, in nanoseconds. *)
Record http := mkHttp {
  sent : list request;
  waited : Z;
}.

(** go-nix: keys, and parsing and checking narinfos. *)
Class NarInfoLib `{GoNix} := {
  PublicKey : Type;
  ParsePublicKey : string → option PublicKey;
  ParseNarInfo : string → option NarInfo;
  CheckNarInfo : NarInfo → bool;
  VerifyWith : string → list signature → list PublicKey → bool;
}.

Notation HM := (eff http upstream_err).

(** ** URLs *)

(** [url.URL.JoinPath] with one element. *)
Definition JoinPath (u : base_url) (elem : string) : base_url :=
  let p := if has_prefix "/" (u_path u) then join [u_path u; elem] else str_drop 1 (join ["/" +:+ u_path u; elem]) in
  let slash s := bool_decide (last_byte s = "/") in
  mkBase (u_scheme u) (u_hostname u) (if slash elem && negb (slash p) then p +:+ "/" else p) (u_rawquery u).

(** [nar.URL.JoinURL] *)
Definition JoinURL (u : URL) (uri : base_url) : result nar_error base_url :=
  p ← pathWithCompression u;
  let uri := JoinPath uri ("/" +:+ p) in
  let q := encode (Query u) in
  Ok (if bool_decide (q = "") then uri else
      mkBase (u_scheme uri) (u_hostname uri) (u_path uri)
        (if bool_decide (u_rawquery uri = "") then q else u_rawquery uri +:+ "&" +:+ q)).

(** [url.URL.Query]: malformed pairs are dropped. *)
Definition Query_of (u : base_url) : values :=
  foldl (λ m piece, match parse_pair m piece with Ok m => m | Err _ => m end) ∅ (split_on "&" (u_rawquery u)).

(** ** An upstream *)

Definition Millisecond : Z := 10 ^ 6.
Definition Second : Z := 10 ^ 9.
Definition defaultHTTPTimeout : Z := 3 * Second.
Definition defaultHTTPRetries : nat := 3.
Definition defaultRetryBackoff : Z := 100 * Millisecond.
Definition defaultRetryBackoffCap : Z := 2 * Second.
Definition default_priority : Z := 40.

Section upstream.
Context `{GN : GoNix} {SG : Signing} {NL : NarInfoLib} {CD : Codec}.

Record Cache := mkCache {
  url : base_url;
  priority : Z;
  publicKeys : list PublicKey;
  netrcAuth : option (string * string);
  isHealthy : bool;
  dialerTimeout : Z;
  responseHeaderTimeout : Z;
  retryBackoff : Z;
  retryBackoffCap : Z;
}.

Record Options := mkOptions {
  PublicKeys : list string;
  NetrcCredentials : option (string * string);
  DialerTimeout : Z;
  ResponseHeaderTimeout : Z;
  RetryBackoff : Z;
}.

Definition SetHealthy (b : bool) (c : Cache) : Cache :=
  mkCache (url c) (priority c) (publicKeys c) (netrcAuth c) b (dialerTimeout c) (responseHeaderTimeout c) (retryBackoff c) (retryBackoffCap c).
Definition SetPriority (p : Z) (c : Cache) : Cache :=
  mkCache (url c) p (publicKeys c) (netrcAuth c) (isHealthy c) (dialerTimeout c) (responseHeaderTimeout c) (retryBackoff c) (retryBackoffCap c).

Definition validateURL (u : base_url) : result upstream_err () :=
  if bool_decide (u_scheme u = "") then Err ErrURLMustContainScheme else Ok ().

(** [strconv.ParseUint(s, 10, 16)] *)
Definition parse_uint16 (s : string) : result num_error Z :=
  n ← parse_uint s; if (n <? 2 ^ 16)%Z then Ok n else Err ErrRange.

Definition url_priority (u : base_url) : result upstream_err Z :=
  match Query_of u !! "priority" with
  | None => Ok default_priority
  | Some vs =>
      p ← map_err ErrPriority (parse_uint16 (default "" (head vs)));
      Ok (if (p <=? 0)%Z then default_priority else p)
  end.

Definition New (u : option base_url) (opts : option Options) : result upstream_err Cache :=
  u ← of_option ErrURLRequired u;
  let opts := default (mkOptions [] None 0 0 0) opts in
  let or_default v d := if (0 <? v)%Z then v else d in
  _ ← validateURL u;
  keys ← mapM (λ k, of_option ErrPublicKey (ParsePublicKey k)) (PublicKeys opts);
  p ← url_priority u;
  Ok (mkCache u p keys (NetrcCredentials opts) false
        (or_default (DialerTimeout opts) defaultHTTPTimeout) (or_default (ResponseHeaderTimeout opts) defaultHTTPTimeout)
        (or_default (RetryBackoff opts) defaultRetryBackoff) defaultRetryBackoffCap).

(** ** Requests with retries *)

Definition isRetriableTransportError (e : transport_error) : bool :=
  existsb (contains (te_msg e))
    ["http2: server sent GOAWAY"; "http2: timeout awaiting response headers"; "connection reset by peer"; "broken pipe"].

(** [isTimeout] of an error of [doRequest]. *)
Definition isTimeout (e : upstream_err) : bool := match e with ErrTransport e => te_timeout e | ErrContext d => d | _ => false end.
Definition isCanceled (e : upstream_err) : bool := match e with ErrTransport e => te_canceled e | ErrContext d => negb d | _ => false end.

(** [for n := 0; n < attempt && delay < cap; n++ { delay *= 2 }] *)
Fixpoint doubled (cap delay : Z) (n : nat) : Z :=
  match n with
  | O => delay
  | S n => if (delay <? cap)%Z then doubled cap (delay * 2) n else delay
  end.

Definition retry_delay (c : Cache) (attempt : nat) : Z :=
  if (retryBackoff c <=? 0)%Z then 0 else
  let delay := doubled (retryBackoffCap c) (retryBackoff c) attempt in
  if (retryBackoffCap c <? delay)%Z then retryBackoffCap c else delay.

(** What becomes of the n-th request, counted from 0. *)
Context (net : nat → request → attempt).

Definition addAuthToRequest (c : Cache) (r : request) : request :=
  match netrcAuth c with
  | None => r
  | Some up => mkRequest (method r) (r_target r) (Some up) (accept_encoding r)
  end.

(** [httpClient.Do] *)
Definition Do (r : request) : HM attempt := λ h,
  (Ok (net (length (sent h)) r), mkHttp (sent h ++ [r]) (waited h)).

(** A wait that is interrupted counts for nothing. *)
Definition waitRetryBackoff (c : Cache) (attempt : nat) (ends : option bool) : HM () := λ h,
  match ends with
  | Some d => (Err (ErrContext d), h)
  | None => (Ok (), mkHttp (sent h) (waited h + retry_delay c attempt))
  end.

Definition idempotent (m : string) : bool := bool_decide (m = "GET" ∨ m = "HEAD").

(** The attempts from the i-th on; [retries] more may follow. *)
Fixpoint attempts (c : Cache) (retries i : nat) (r : request) : HM response :=
  a ← Do r;
  match answer a with
  | Ok resp => mret resp
  | Err e =>
      if negb (idempotent (method r) && isRetriableTransportError e) then throw (ErrTransport e) else
      match retries with
      | O => throw (ErrTransport e)
      | S retries => _ ← waitRetryBackoff c i (interrupted a); attempts c retries (S i) r
      end
  end.

Definition doRequest (c : Cache) (m : string) (u : base_url) (mutator : request → request) : HM response :=
  attempts c (defaultHTTPRetries - 1) 0 (mutator (addAuthToRequest c (mkRequest m u None None))).

(** ** The methods *)

Definition narinfo_url (c : Cache) (hash : string) : base_url := JoinPath (url c) (NarInfoURLPath hash).

(** The sizes are [uint64]s, 0 when they are absent. *)
Definition fill_file_size (ni : NarInfo) : NarInfo :=
  if bool_decide (FileSize ni = 0%Z ∧ InfoCompression ni = CompressionTypeNone)
  then mkInfo _ (StorePath ni) (InfoURL ni) (InfoCompression ni) (FileHash ni) (NarSize ni) (NarHash ni) (NarSize ni) (References ni)
         (Deriver ni) (System ni) (Signatures ni) (CA ni)
  else ni.

Definition GetNarInfo (c : Cache) (hash : string) : HM NarInfo :=
  resp ← doRequest c "GET" (narinfo_url c hash) id;
  if negb (bool_decide (StatusCode resp = 200%Z)) then
    throw (if bool_decide (StatusCode resp = 404%Z) then ErrUpstreamNotFound else ErrUnexpectedHTTPStatusCode)
  else
  ni ← lift (of_option ErrNarInfoSyntax (if s_breaks (r_body resp) then None else ParseNarInfo (s_bytes (r_body resp))));
  if negb (CheckNarInfo ni) then throw ErrNarInfoCheck else
  if negb (bool_decide (publicKeys c = [])) && negb (VerifyWith (Fingerprint ni) (Signatures ni) (publicKeys c))
  then throw ErrSignatureValidationFailed
  else mret (fill_file_size ni).

(** [HasNarInfo], [HasNar]: a timeout is an answer. *)
Definition has (c : Cache) (u : base_url) (mutator : request → request) : HM bool :=
  r ← try (E' := upstream_err) (doRequest c "HEAD" u mutator);
  match r with
  | Err e => if isTimeout e then mret false else throw e
  | Ok resp => mret (StatusCode resp <? 400)%Z
  end.

Definition HasNarInfo (c : Cache) (hash : string) : HM bool := has c (narinfo_url c hash) id.

Definition HasNar (c : Cache) (u : URL) (mutator : request → request) : HM bool :=
  target ← lift (map_err ErrNarURL (JoinURL u (url c))); has c target mutator.

Definition zstdMutator (r : request) : request := mkRequest (method r) (r_target r) (basic_auth r) (Some "zstd").

Definition GetNar (c : Cache) (u : URL) (mutator : request → request) : HM response :=
  target ← lift (map_err ErrNarURL (JoinURL u (url c)));
  resp ← doRequest c "GET" target (λ r, mutator (zstdMutator r));
  if negb (bool_decide (StatusCode resp = 200%Z)) then
    throw (if bool_decide (StatusCode resp = 404%Z) then ErrUpstreamNotFound else ErrUnexpectedHTTPStatusCode)
  else
  if bool_decide (content_encoding resp = "zstd") then
    z ← lift (of_option ErrZstdReader (decoder CompressionTypeZstd (s_bytes (r_body resp))));
    mret (mkResponse (StatusCode resp) "" (-1) (mkStream (s_bytes z) (s_breaks z || s_breaks (r_body resp))))
  else mret resp.

Inductive Existence := ExistenceUnknown | ExistencePresent | ExistenceAbsent.

Definition NarInfoExistence (c : Cache) (hash : string) : HM Existence :=
  r ← try (E' := upstream_err) (doRequest c "HEAD" (narinfo_url c hash) id);
  mret match r with
  | Err _ => ExistenceUnknown
  | Ok resp =>
      if bool_decide (StatusCode resp = 404%Z) then ExistenceAbsent
      else if (StatusCode resp <? 400)%Z then ExistencePresent else ExistenceUnknown
  end.

(** One request, without retries; the body may break. *)
Definition parsePriority (c : Cache) : HM Z :=
  a ← Do (addAuthToRequest c (mkRequest "GET" (JoinPath (url c) "/nix-cache-info") None None));
  resp ← lift (map_err ErrTransport (answer a));
  if negb (bool_decide (StatusCode resp = 200%Z)) then throw ErrUnexpectedHTTPStatusCode else
  nci ← lift (map_err ErrCacheInfo (Parse (s_bytes (r_body resp))));
  if s_breaks (r_body resp) then throw ErrBody else mret (Priority nci).

(** ** Health *)

(** The upstreams are shared by reference: [heap] holds them, the cache and the checker
    each have a list of them.  [notified]: the buffered channel of changes. *)
Record site := mkSite {
  heap : gmap nat Cache;
  upstreamCaches : list nat;
  watched : list nat;
  notifier : bool;
  notified : list (nat * bool);
}.

Definition set_heap (h : gmap nat Cache) (s : site) : site := mkSite h (upstreamCaches s) (watched s) (notifier s) (notified s).

(** [AddUpstreamCaches], with [AddUpstreams]. *)
Definition AddUpstreamCaches (ucs : list nat) (s : site) : site :=
  mkSite (heap s) (upstreamCaches s ++ ucs) (watched s ++ ucs) (notifier s) (notified s).

Definition GetHostname (s : site) (i : nat) : string :=
  match heap s !! i with Some c => u_hostname (url c) | None => "" end.

Fixpoint remove_first (P : nat → bool) (l : list nat) : list nat :=
  match l with [] => [] | i :: l => if P i then l else i :: remove_first P l end.

Definition RemoveUpstream (i : nat) (s : site) : site :=
  mkSite (heap s) (upstreamCaches s) (remove_first (λ j, bool_decide (GetHostname s j = GetHostname s i)) (watched s)) (notifier s) (notified s).

(** The channel's capacity; a send that would block is skipped. *)
Definition notify_capacity : nat := 100.
Definition notify (i : nat) (b : bool) (s : site) : site :=
  if notifier s && (length (notified s) <? notify_capacity)
  then mkSite (heap s) (upstreamCaches s) (watched s) (notifier s) (notified s ++ [(i, b)]) else s.

(** One upstream's turn of [check], with what [ParsePriority] has returned. *)
Definition checked (i : nat) (r : result upstream_err Z) (s : site) : site :=
  match heap s !! i with
  | None => s
  | Some c =>
      match r with
      | Err _ =>
          let s := set_heap (<[i := SetHealthy false c]> (heap s)) s in
          if isHealthy c then notify i false s else s
      | Ok p =>
          let s := set_heap (<[i := SetHealthy true (SetPriority p c)]> (heap s)) s in
          if isHealthy c then s else notify i true s
      end
  end.

Fixpoint check_each (ups : list nat) (s : site) (h : http) : site * http :=
  match ups with
  | [] => (s, h)
  | i :: ups =>
      match heap s !! i with
      | None => check_each ups s h
      | Some c => let '(r, h) := parsePriority c h in check_each ups (checked i r s) h
      end
  end.

Definition check (s : site) (h : http) : site * http := check_each (watched s) s h.

(** ** Choosing an upstream *)

(** [int(a - b)] of [uint64]s. *)
Definition compare_priority (a b : Z) : Z := NarInfoDB.to_int64 ((a - b) mod 2 ^ 64).

(** [slices.SortFunc]: an insertion sort, which is what it is on at most 12 elements. *)
Fixpoint insert_back {A} (cmp : A → A → Z) (x : A) (back : list A) : list A :=
  match back with
  | [] => [x]
  | y :: back => if (cmp x y <? 0)%Z then y :: insert_back cmp x back else x :: y :: back
  end.
Definition SortFunc {A} (cmp : A → A → Z) (l : list A) : list A := reverse (foldl (λ back x, insert_back cmp x back) [] l).

Definition prio (s : site) (i : nat) : Z := match heap s !! i with Some c => priority c | None => 0%Z end.
Definition healthy (s : site) (i : nat) : bool := match heap s !! i with Some c => isHealthy c | None => false end.

Definition getHealthyUpstreams (s : site) : list nat :=
  SortFunc (λ i j, compare_priority (prio s i) (prio s j)) (filter (λ i, healthy s i = true) (upstreamCaches s)).

Definition GetHealthyUpstreamCount (s : site) : nat := length (filter (λ i, healthy s i = true) (upstreamCaches s)).

(** The loop over the healthy upstreams. *)
Fixpoint absent_from (s : site) (hash : string) (ups : list nat) (sawAbsent : bool) : HM bool :=
  match ups with
  | [] => mret sawAbsent
  | i :: ups =>
      match heap s !! i with
      | None => absent_from s hash ups sawAbsent
      | Some c =>
          e ← NarInfoExistence c hash;
          match e with ExistenceAbsent => absent_from s hash ups true | _ => mret false end
      end
  end.

Definition narInfoGenuinelyAbsentUpstream (s : site) (hash : string) : HM bool :=
  absent_from s hash (getHealthyUpstreams s) false.
End upstream.

(** ** The race of the probes ([selectUpstream]) *)

Section select.
(** The upstreams, and what [HasNarInfo] or [HasNar] will have returned for each. *)
Context (ucs : list nat) (probe : nat → result upstream_err bool).

(** The goroutines still running, the two channels, and the selecting loop's errors; in
    the end what is returned: an upstream or nil, and the joined errors. *)
Record selecting := mkSelecting {
  running : list nat;
  found : list nat;
  failed : list upstream_err;
  closed : bool;
  joined : list upstream_err;
  returned : option (option nat * list upstream_err);
}.

Definition select_start : selecting := mkSelecting ucs [] [] false [] None.

(** A probe's goroutine ends; [wg.Wait] does and [ch] is closed; the loop's [select] takes
    from [ch], from [errC], or sees the end of its context. *)
Inductive select_event := EvProbe (i : nat) | EvClose | EvRecv | EvErr | EvDone (deadline : bool).

Definition select_step (e : select_event) (s : selecting) : option selecting :=
  match returned s with Some _ => None | None =>
  match e with
  | EvProbe i =>
      if negb (bool_decide (i ∈ running s)) then None else
      let rest := remove_first (λ j, bool_decide (j = i)) (running s) in
      Some match probe i with
           | Ok true => mkSelecting rest (found s ++ [i]) (failed s) (closed s) (joined s) None
           | Ok false => mkSelecting rest (found s) (failed s) (closed s) (joined s) None
           | Err e => mkSelecting rest (found s) (if isCanceled e then failed s else failed s ++ [e]) (closed s) (joined s) None
           end
  | EvClose =>
      if bool_decide (running s = []) && negb (closed s)
      then Some (mkSelecting [] (found s) (failed s) true (joined s) None) else None
  | EvRecv =>
      match found s with
      | i :: rest => Some (mkSelecting (running s) rest (failed s) (closed s) (joined s) (Some (Some i, joined s)))
      | [] => if closed s then Some (mkSelecting (running s) [] (failed s) true (joined s) (Some (None, joined s))) else None
      end
  | EvErr =>
      match failed s with
      | e :: rest => Some (mkSelecting (running s) (found s) rest (closed s) (if isCanceled e then joined s else joined s ++ [e]) None)
      | [] => None
      end
  | EvDone d => Some (mkSelecting (running s) (found s) (failed s) (closed s) (joined s) (Some (None, ErrContext d :: joined s)))
  end
  end.

Fixpoint select_run (es : list select_event) (s : selecting) : option selecting :=
  match es with [] => Some s | e :: es => match select_step e s with Some s => select_run es s | None => None end end.

(** What [selectUpstream] may return. *)
Inductive selects : option nat → list upstream_err → Prop :=
  | selects_none : ucs = [] → selects None []
  | selects_one i : ucs = [i] → selects (Some i) []
  | selects_race es s u errs : 2 ≤ length ucs → select_run es select_start = Some s → returned s = Some (u, errs) → selects u errs.
End select.

(** [getNarInfoFromUpstream], given what the selection has returned: an error, or nothing,
    or the narinfo that the chosen upstream gives. *)
Definition getNarInfoFromUpstream `{GN : GoNix} {SG : Signing} {NL : NarInfoLib} {CD : Codec} (net : nat → request → attempt)
    (s : site) (hash : string) (u : option nat) (errs : list upstream_err) : eff http upstream_err (nat * NarInfo) :=
  match errs with
  | e :: _ => throw e
  | [] =>
      match u with
      | None => throw ErrUpstreamNotFound
      | Some i =>
          match heap s !! i with
          | None => throw ErrUpstreamNotFound
          | Some c =>
              r ← try (E' := upstream_err) (GetNarInfo net c hash);
              match r with Err _ => throw ErrUpstreamNotFound | Ok ni => mret (i, ni) end
          end
      end
  end.

(** ** Sorting *)

Section sorting.
Context {A : Type} (key : A → Z).

Lemma insert_back_perm cmp (x : A) back : insert_back cmp x back ≡ₚ x :: back.
Proof.
  induction back as [|y back IH]; [done|]. simpl. destruct (_ <? _)%Z; [|done]. rewrite IH. apply Permutation_swap.
Qed.

Lemma SortFunc_perm cmp (l : list A) : SortFunc cmp l ≡ₚ l.
Proof.
  unfold SortFunc. rewrite reverse_Permutation. assert (∀ back, foldl (λ back x, insert_back cmp x back) back l ≡ₚ l ++ back) as H.
  { induction l as [|x l IH]; intros back; [done|]. simpl. rewrite IH, insert_back_perm. symmetry. apply Permutation_middle. }
  by rewrite H, app_nil_r.
Qed.

(** The comparison orders by the key. *)
Context (cmp : A → A → Z).
Definition compares (l : list A) : Prop := ∀ x y, x ∈ l → y ∈ l → (cmp x y < 0 ↔ key x < key y)%Z.

(** Sorted, and equal keys stay in their order. *)
Lemma insert_back_sorted x back :
  compares (x :: back) → Sorted (λ a b, key b <= key a)%Z back → Sorted (λ a b, key b <= key a)%Z (insert_back cmp x back).
Proof.
  intros Hc Hs. induction back as [|y back IH]; simpl; [by repeat constructor|].
  assert (compares (x :: back)) as Hc'.
  { intros a b Ha Hb. apply Hc; rewrite elem_of_cons in *; rewrite elem_of_cons; naive_solver. }
  destruct (Z.ltb_spec (cmp x y) 0) as [Hlt|Hge].
  - apply Hc in Hlt; [|by left|right; by left]. inversion Hs as [|?? Hs' Hhd]; subst. specialize (IH Hc' Hs'). constructor; [done|].
    destruct back as [|z back]; simpl in *; [constructor; lia|]. destruct (_ <? _)%Z; constructor; [by inversion Hhd|lia].
  - constructor; [done|]. constructor. assert (¬ (key x < key y)%Z); [|lia]. intros Hk. apply Hc in Hk; [lia|by left|right; by left].
Qed.

Lemma insert_back_stable x back k :
  compares (x :: back) →
  filter (λ a, key a = k) (insert_back cmp x back) = filter (λ a, key a = k) (x :: back).
Proof.
  intros Hc. induction back as [|y back IH]; [done|]. cbn [insert_back]. destruct (Z.ltb_spec (cmp x y) 0) as [Hlt|]; [|done].
  apply Hc in Hlt; [|by left|right; by left]. rewrite filter_cons, IH, !filter_cons.
  - repeat case_decide; try done; lia.
  - intros a b Ha Hb. apply Hc; rewrite elem_of_cons in *; rewrite elem_of_cons; naive_solver.
Qed.

Lemma SortFunc_spec l :
  compares l → Sorted (λ a b, key a <= key b)%Z (SortFunc cmp l) ∧ ∀ k, filter (λ a, key a = k) (SortFunc cmp l) = filter (λ a, key a = k) l.
Proof.
  intros Hc. unfold SortFunc.
  assert (∀ l back, compares (l ++ back) → Sorted (λ a b, key b <= key a)%Z back →
    Sorted (λ a b, key b <= key a)%Z (foldl (λ back x, insert_back cmp x back) back l) ∧
    ∀ k, filter (λ a, key a = k) (foldl (λ back x, insert_back cmp x back) back l) =
      reverse (filter (λ a, key a = k) l) ++ filter (λ a, key a = k) back) as H.
  { clear. induction l as [|x l IH]; intros back Hc Hs; [done|]. simpl.
    assert (compares (x :: back)) as Hx.
    { assert (∀ a, a ∈ x :: back → a ∈ (x :: l) ++ back) as Hin by (intros a; rewrite elem_of_app, !elem_of_cons; tauto).
      intros a b Ha Hb. by apply Hc; apply Hin. }
    destruct (IH (insert_back cmp x back)) as [Hs' Hf].
    - assert (∀ a, a ∈ l ++ insert_back cmp x back → a ∈ (x :: l) ++ back) as Hin.
      { intros a. rewrite !elem_of_app, (insert_back_perm cmp x back), !elem_of_cons. tauto. }
      intros a b Ha Hb. by apply Hc; apply Hin.
    - by apply insert_back_sorted.
    - split; [done|]. intros k. rewrite Hf, insert_back_stable by done. rewrite !filter_cons. case_decide; [|done].
      rewrite reverse_cons, <- app_assoc. done. }
  destruct (H l []) as [Hs Hf]; [by rewrite app_nil_r|constructor|]. split.
  - apply Sorted_reverse. exact Hs.
  - intros k. rewrite filter_reverse, Hf, app_nil_r. apply reverse_involutive.
Qed.
End sorting.

(** ** Requests *)

Section requests.
Context `{GN : GoNix} {SG : Signing} {NL : NarInfoLib} {CD : Codec} (net : nat → request → attempt).

Lemma doubled_spec cap d n : (0 < d)%Z → Z.min cap (doubled cap d n) = Z.min cap (d * 2 ^ Z.of_nat n).
Proof.
  revert d. induction n as [|n IH]; intros d Hd; cbn [doubled]; [by rewrite Z.mul_1_r|].
  replace (2 ^ Z.of_nat (S n))%Z with (2 * 2 ^ Z.of_nat n)%Z by (rewrite Nat2Z.inj_succ, Z.pow_succ_r by lia; done).
  assert (0 < 2 ^ Z.of_nat n)%Z by (apply Z.pow_pos_nonneg; lia).
  destruct (Z.ltb_spec d cap); [rewrite IH by lia; f_equal; lia|]. rewrite !Z.min_l; nia.
Qed.

Lemma retry_delay_spec c k :
  (0 < retryBackoff c)%Z → retry_delay c k = Z.min (retryBackoffCap c) (retryBackoff c * 2 ^ Z.of_nat k).
Proof.
  intros Hb. unfold retry_delay. destruct (Z.leb_spec (retryBackoff c) 0); [lia|]. rewrite <- doubled_spec by done.
  destruct (Z.ltb_spec (retryBackoffCap c) (doubled (retryBackoffCap c) (retryBackoff c) k)); lia.
Qed.

(** The waits before the n requests that follow the i-th. *)
Definition delays (c : Cache) (i n : nat) : Z := foldr Z.add 0%Z (retry_delay c <$> seq i n).

Lemma delays_S c i n : delays c i (S n) = (retry_delay c i + delays c (S i) n)%Z.
Proof. done. Qed.

(** How the n-th of the requests, counted from 0, ends them all. *)
Inductive ends_all (retries n : nat) (r : request) (a : attempt) : result upstream_err response → Prop :=
  | answered resp : answer a = Ok resp → ends_all retries n r a (Ok resp)
  | refused e : answer a = Err e → n = retries ∨ idempotent (method r) && isRetriableTransportError e = false →
      ends_all retries n r a (Err (ErrTransport e))
  | cut_short e d : answer a = Err e → n < retries → interrupted a = Some d → ends_all retries n r a (Err (ErrContext d)).

(** A request that is followed by another. *)
Definition transient (r : request) (a : attempt) : Prop :=
  idempotent (method r) = true ∧ ∃ e, answer a = Err e ∧ isRetriableTransportError e = true.

Lemma attempts_spec c retries i r h :
  let a k := net (length (sent h) + k) r in
  ∃ n, n ≤ retries ∧ (∀ k, k < n → transient r (a k)) ∧ ends_all retries n r (a n) (attempts net c retries i r h).1 ∧
    (attempts net c retries i r h).2 = mkHttp (sent h ++ replicate (S n) r) (waited h + delays c i n).
Proof.
  revert i h. induction retries as [|retries IH]; intros i h a; cbn [attempts]; unfold mbind, eff_bind, Do;
    pose proof (eq_refl : a 0 = net (length (sent h) + 0) r) as Ha; rewrite Nat.add_0_r in Ha; rewrite <- Ha.
  - exists 0. split; [done|]. split; [lia|]. unfold delays. simpl. rewrite Z.add_0_r.
    destruct (answer (a 0)) as [resp|e] eqn:E; [by split; [constructor|]|].
    destruct (negb _); (split; [|done]); apply (refused _ _ _ _ e); auto.
  - destruct (answer (a 0)) as [resp|e] eqn:E.
    { exists 0. split; [lia|]. split; [lia|]. split; [by constructor|]. unfold delays. simpl. by rewrite Z.add_0_r. }
    destruct (negb (idempotent _ && _)) eqn:Hr.
    { exists 0. split; [lia|]. split; [lia|]. split; [apply (refused _ _ _ _ e); [done|right; by apply negb_true_iff in Hr]|].
      unfold delays. simpl. by rewrite Z.add_0_r. }
    unfold waitRetryBackoff. destruct (interrupted (a 0)) as [d|] eqn:Hi.
    { exists 0. split; [lia|]. split; [lia|]. split; [by apply (cut_short _ _ _ _ e); [|lia|]|].
      unfold delays. simpl. by rewrite Z.add_0_r. }
    bool_props. destruct (IH (S i) (mkHttp (sent h ++ [r]) (waited h + retry_delay c i))) as (n & Hn & Ht & Hend & Hh). simpl in *.
    assert (∀ k, net (length (sent h ++ [r]) + k) r = a (S k)) as Hshift by (intros k; unfold a; rewrite length_app; simpl; f_equal; lia).
    exists (S n). split; [lia|]. split; [|split].
    + intros [|k] Hk; [split; [done|by exists e]|]. rewrite <- Hshift. apply Ht. lia.
    + rewrite Hshift in Hend. inversion Hend; subst.
      * by constructor.
      * eapply refused; [done|]. match goal with H : _ ∨ _ |- _ => destruct H; [left; lia|by right] end.
      * by eapply cut_short; [|lia|].
    + rewrite Hh, <- app_assoc. f_equal. rewrite delays_S. lia.
Qed.

Lemma doRequest_Ok c m u f h resp h' :
  doRequest net c m u f h = (Ok resp, h') → let r := f (addAuthToRequest c (mkRequest m u None None)) in
  ∃ n, sent h' = sent h ++ replicate (S n) r ∧ answer (net (length (sent h) + n) r) = Ok resp.
Proof.
  intros Hd r. destruct (attempts_spec c (defaultHTTPRetries - 1) 0 r h) as (n & _ & _ & Hend & Hh).
  unfold doRequest in Hd. fold r in Hd. rewrite Hd in Hend, Hh. simpl in *. exists n. rewrite Hh. split; [done|]. by inversion Hend.
Qed.

Lemma sent_last (l : list request) n r : (l ++ replicate (S n) r) !! (length l + n) = Some r.
Proof. rewrite lookup_app_r by lia. apply lookup_replicate_2. lia. Qed.

Lemma doRequest_sent c m u f h : ∃ l, sent (doRequest net c m u f h).2 = sent h ++ l.
Proof.
  destruct (attempts_spec c (defaultHTTPRetries - 1) 0 (f (addAuthToRequest c (mkRequest m u None None))) h) as (n & _ & _ & _ & Hh).
  unfold doRequest. rewrite Hh. by eexists.
Qed.

(** A definite absence is a 404. *)
Lemma NarInfoExistence_absent c hash h h' :
  NarInfoExistence net c hash h = (Ok ExistenceAbsent, h') →
  ∃ k r resp, length (sent h) <= k ∧ sent h' !! k = Some r ∧ r_target r = narinfo_url c hash ∧ answer (net k r) = Ok resp ∧ StatusCode resp = 404%Z.
Proof.
  unfold NarInfoExistence, mbind, eff_bind, try. destruct (doRequest _ _ _ _ _ h) as [[resp|e] h1] eqn:Hd; [|done].
  intros He. injection He as He <-. apply doRequest_Ok in Hd as (n & Hs & Ha).
  exists (length (sent h) + n), (id (addAuthToRequest c (mkRequest "HEAD" (narinfo_url c hash) None None))), resp.
  split; [lia|]. split; [by rewrite Hs, sent_last|]. split; [unfold addAuthToRequest; simpl; by destruct (netrcAuth c)|]. split; [done|].
  case_bool_decide; [done|]. by destruct (_ <? _)%Z.
Qed.

Lemma NarInfoExistence_sent c hash h : ∃ l, sent (NarInfoExistence net c hash h).2 = sent h ++ l.
Proof.
  unfold NarInfoExistence, mbind, eff_bind, try. destruct (doRequest_sent c "HEAD" (narinfo_url c hash) id h) as [l Hl].
  destruct (doRequest _ _ _ _ _ h) as [r h1]. by exists l.
Qed.

(** The upstream was asked and answered 404, among the requests of [h'] from the n-th on. *)
Definition said_absent (s : site) (hash : string) (n : nat) (h' : http) (i : nat) : Prop :=
  ∃ c k r resp, heap s !! i = Some c ∧ n <= k ∧ sent h' !! k = Some r ∧ r_target r = narinfo_url c hash ∧
    answer (net k r) = Ok resp ∧ StatusCode resp = 404%Z.

Lemma absent_from_spec s hash ups saw h h' :
  (∀ i, i ∈ ups → is_Some (heap s !! i)) →
  absent_from net s hash ups saw h = (Ok true, h') →
  (saw = true ∨ ups ≠ []) ∧ (∃ l, sent h' = sent h ++ l) ∧ ∀ i, i ∈ ups → said_absent s hash (length (sent h)) h' i.
Proof.
  revert saw h. induction ups as [|i ups IH]; intros saw h Hin; cbn [absent_from].
  { intros [= -> ->]. split; [by left|]. split; [exists []; by rewrite app_nil_r|]. intros i Hi. by apply elem_of_nil in Hi. }
  destruct (Hin i ltac:(by left)) as [c Hc]. rewrite Hc. unfold mbind, eff_bind.
  destruct (NarInfoExistence_sent c hash h) as [l Hl]. destruct (NarInfoExistence net c hash h) as [[e|e] h1] eqn:He; [|done]. simpl in Hl.
  destruct e; [done|done|]. intros Hrest. apply IH in Hrest as (_ & [l2 Hl2] & Hall); [|intros j Hj; apply Hin; by right].
  split; [by right|]. split; [exists (l ++ l2); by rewrite Hl2, Hl, app_assoc|]. intros j [->|Hj]%elem_of_cons.
  - apply NarInfoExistence_absent in He as (k & r & resp & Hk & Hr & Ht & Ha & H404). exists c, k, r, resp.
    split; [done|]. split; [done|]. split; [|done]. rewrite Hl2. by apply lookup_app_l_Some.
  - destruct (Hall j Hj) as (c' & k & r & resp & ? & Hk & ?). exists c', k, r, resp. split; [done|]. split; [|done].
    rewrite Hl, length_app in Hk. lia.
Qed.
End requests.

(** ** The healthy upstreams *)

Section healthy.
Context `{GN : GoNix} {SG : Signing} {NL : NarInfoLib}.

(** The priorities are within half of the range. *)
Definition close_priorities (s : site) : Prop :=
  ∀ i j, i ∈ upstreamCaches s → j ∈ upstreamCaches s → (prio s i - prio s j < 2 ^ 63)%Z.

Lemma compare_priority_spec a b : (a - b < 2 ^ 63)%Z → (b - a < 2 ^ 63)%Z → (compare_priority a b < 0 ↔ a < b)%Z.
Proof.
  intros H1 H2. unfold compare_priority, NarInfoDB.to_int64. destruct (Z.le_gt_cases b a).
  - rewrite Z.mod_small by lia. destruct (Z.ltb_spec (a - b) (2 ^ 63)); lia.
  - replace ((a - b) mod 2 ^ 64)%Z with (a - b + 2 ^ 64)%Z by (apply (Z.mod_unique _ _ (-1)); lia).
    destruct (Z.ltb_spec (a - b + 2 ^ 64) (2 ^ 63)); lia.
Qed.

Lemma getHealthyUpstreams_elem s i : i ∈ getHealthyUpstreams s ↔ i ∈ upstreamCaches s ∧ healthy s i = true.
Proof. unfold getHealthyUpstreams. rewrite SortFunc_perm, list_elem_of_filter. tauto. Qed.
End healthy.

(** ** The race *)

Section race.
Context (ucs : list nat) (probe : nat → result upstream_err bool).
Notation step := (select_step probe).

Lemma remove_first_In j i l : j ∈ remove_first (λ k, bool_decide (k = i)) l → j ∈ l.
Proof.
  induction l as [|k l IH]; [done|]. simpl. case_bool_decide; [by right|]. intros [->|Hj]%elem_of_cons; [by left|right; by apply IH].
Qed.

Lemma remove_first_other j i l : j ∈ l → j ≠ i → j ∈ remove_first (λ k, bool_decide (k = i)) l.
Proof.
  induction l as [|k l IH]; [done|]. intros [->|Hj]%elem_of_cons Hne; simpl.
  - rewrite bool_decide_false by done. by left.
  - case_bool_decide; [done|]. right. by apply IH.
Qed.

Lemma remove_first_length i l : i ∈ l → length l = S (length (remove_first (λ k, bool_decide (k = i)) l)).
Proof.
  induction l as [|k l IH]; [by intros ?%elem_of_nil|]. simpl. case_bool_decide; [done|]. intros [->|Hi]%elem_of_cons; [done|].
  simpl. by rewrite IH.
Qed.

(** An upstream that said it has it; an error of a probe that was not cancelled. *)
Definition said_yes (i : nat) : Prop := i ∈ ucs ∧ probe i = Ok true.
Definition probe_error (e : upstream_err) : Prop := isCanceled e = false ∧ ∃ i, i ∈ ucs ∧ probe i = Err e.

(** What is returned: an upstream that has it, or none: then the context has ended, or no
    upstream has said it has it. *)
Definition fair_result (u : option nat) (errs : list upstream_err) : Prop :=
  match u with
  | Some i => said_yes i ∧ Forall probe_error errs
  | None => (∃ d errs', errs = ErrContext d :: errs' ∧ Forall probe_error errs') ∨ (Forall probe_error errs ∧ ∀ i, ¬ said_yes i)
  end.

Record racing (s : selecting) : Prop := {
  rc_running i : i ∈ running s → i ∈ ucs;
  rc_found i : i ∈ found s → said_yes i;
  rc_failed : Forall probe_error (failed s);
  rc_joined : Forall probe_error (joined s);
  rc_yes i : said_yes i → returned s = None → i ∈ running s ∨ i ∈ found s;
  rc_closed : closed s = true → running s = [];
  rc_returned u errs : returned s = Some (u, errs) → fair_result u errs;
}.

Lemma racing_step e s s' : racing s → step e s = Some s' → racing s'.
Proof.
  intros [Hr Hf He Hj Hy Hc Hret] Hs. unfold select_step in Hs. destruct (returned s) eqn:Hn; [done|]. destruct e as [i| | | |d].
  - destruct (bool_decide (i ∈ running s)) eqn:Hi; [|done]. apply bool_decide_eq_true in Hi. simpl in Hs. injection Hs as <-.
    assert (closed s = false) as Hcl by (destruct (closed s); [|done]; rewrite (Hc eq_refl) in Hi; by apply elem_of_nil in Hi).
    destruct (probe i) as [[|]|e] eqn:Hp; split; simpl; try done; try (intros j Hj'; apply Hr; by eapply remove_first_In); try congruence.
    + intros j [Hj'| ->%list_elem_of_singleton]%elem_of_app; [by apply Hf|]. split; [by apply Hr|done].
    + intros j Hj' _. rewrite elem_of_app, list_elem_of_singleton. destruct (decide (j = i)) as [->|Hne]; [by right; right|].
      destruct (Hy j Hj' eq_refl); [left; by apply remove_first_other|by right; left].
    + intros j Hj' _. destruct (decide (j = i)) as [->|Hne]; [by destruct Hj' as [_ ?]; congruence|].
      destruct (Hy j Hj' eq_refl); [left; by apply remove_first_other|by right].
    + destruct (isCanceled e) eqn:Hcan; [done|]. apply Forall_app. split; [done|]. apply Forall_singleton. split; [done|]. exists i. auto.
    + intros j Hj' _. destruct (decide (j = i)) as [->|Hne]; [by destruct Hj' as [_ ?]; congruence|].
      destruct (Hy j Hj' eq_refl); [left; by apply remove_first_other|by right].
  - destruct (bool_decide (running s = [])) eqn:Hi; [|done]. destruct (closed s) eqn:Hcl; [done|]. injection Hs as <-.
    apply bool_decide_eq_true in Hi. split; simpl; try done.
    + intros j Hj'. by apply elem_of_nil in Hj'.
    + intros j Hj' _. rewrite <- Hi. by apply Hy.
  - destruct (found s) as [|i rest] eqn:Hfd.
    + destruct (closed s) eqn:Hcl; [|done]. injection Hs as <-. split; simpl; try done.
      intros u errs [= <- <-]. right. split; [done|]. intros i Hi. destruct (Hy i Hi eq_refl) as [H|H]; [rewrite (Hc eq_refl) in H|]; by apply elem_of_nil in H.
    + injection Hs as <-. split; simpl; try done; [intros j Hj'; apply Hf; by right|].
      intros u errs [= <- <-]. split; [apply Hf; by left|done].
  - destruct (failed s) as [|e rest] eqn:Hfl; [done|]. injection Hs as <-. apply Forall_cons in He as [He1 He2]. split; simpl; try done.
    destruct (isCanceled e); [done|]. apply Forall_app. split; [done|]. by apply Forall_singleton.
  - injection Hs as <-. split; simpl; try done. intros u errs [= <- <-]. left. by exists d, (joined s).
Qed.

Lemma racing_run es s s' : racing s → select_run probe es s = Some s' → racing s'.
Proof.
  revert s. induction es as [|e es IH]; intros s Hs; simpl; [by intros [= <-]|].
  destruct (step e s) as [s1|] eqn:H1; [|done]. apply IH. by eapply racing_step.
Qed.

Lemma racing_start : racing (select_start ucs).
Proof. split; simpl; try done. - intros i Hi. by apply elem_of_nil in Hi. - intros i [Hi _] _. by left. Qed.

(** Every event brings the end nearer. *)
Definition to_go (s : selecting) : nat :=
  match returned s with
  | Some _ => 0
  | None => S (2 * length (running s) + length (failed s) + if closed s then 0 else 1)
  end.

Lemma step_to_go e s s' : step e s = Some s' → to_go s' < to_go s.
Proof.
  unfold select_step, to_go. destruct (returned s) eqn:Hn; [done|]. destruct e as [i| | | |d].
  - destruct (bool_decide (i ∈ running s)) eqn:Hi; [|done]. apply bool_decide_eq_true in Hi. apply remove_first_length in Hi. simpl.
    destruct (probe i) as [[|]|e]; intros [= <-]; simpl; [lia|lia|]. destruct (isCanceled e); [lia|]. rewrite length_app. simpl. lia.
  - destruct (bool_decide _) eqn:Hi; [|done]. apply bool_decide_eq_true in Hi. rewrite Hi. destruct (closed s); [done|]. intros [= <-]. simpl. lia.
  - destruct (found s); [destruct (closed s); [|done]|]; intros [= <-]; simpl; lia.
  - destruct (failed s); [done|]. intros [= <-]. simpl. lia.
  - intros [= <-]. simpl. lia.
Qed.

Lemma run_to_go es s s' : select_run probe es s = Some s' → length es + to_go s' <= to_go s.
Proof.
  revert s. induction es as [|e es IH]; intros s; simpl; [by intros [= <-]|].
  destruct (step e s) as [s1|] eqn:H1; [|done]. intros Hrun. apply IH in Hrun. apply step_to_go in H1. lia.
Qed.

(** Until it returns something other than the end of the context can happen. *)
Lemma step_exists s : racing s → returned s = None → ∃ e s', (∀ d, e ≠ EvDone d) ∧ step e s = Some s'.
Proof.
  intros Hs Hn. destruct (running s) as [|i rest] eqn:Hr.
  - destruct (closed s) eqn:Hc.
    + exists EvRecv. unfold select_step. rewrite Hn, Hc. destruct (found s); by eexists.
    + exists EvClose. unfold select_step. rewrite Hn, Hc, Hr. by eexists.
  - exists (EvProbe i). unfold select_step. rewrite Hn, bool_decide_true by (rewrite Hr; by left). by eexists.
Qed.

(** All probes end, one after the other. *)
Lemma probes_run l : ∀ f e c j, (∀ i, i ∈ l → ∃ err, probe i = Err err) →
  ∃ e', select_run probe (EvProbe <$> l) (mkSelecting l f e c j None) = Some (mkSelecting [] f e' c j None).
Proof.
  induction l as [|i l IH]; intros f e c j Hl; [by exists e|]. simpl. unfold select_step. simpl.
  rewrite !bool_decide_true by (done || by left). simpl. destruct (Hl i ltac:(by left)) as [err ->].
  apply IH. intros k Hk. apply Hl. by right.
Qed.
End race.

(** ** A round of checks *)

Section checks.
Context `{GN : GoNix} {SG : Signing} {NL : NarInfoLib} {CD : Codec} (net : nat → request → attempt).

Definition with_verdict (r : result upstream_err Z) (c : Cache) : Cache :=
  match r with Ok p => SetHealthy true (SetPriority p c) | Err _ => SetHealthy false c end.

(** The changes that a round with these verdicts finds. *)
Definition changes (s : site) (verdict : nat → result upstream_err Z) (ups : list nat) : list (nat * bool) :=
  omap (λ i, if bool_decide (healthy s i = is_ok (verdict i)) then None else Some (i, is_ok (verdict i))) ups.

Definition room (s : site) : nat := if notifier s then notify_capacity - length (notified s) else 0.

Lemma checked_heap i c r s : heap s !! i = Some c → heap (checked i r s) = <[i := with_verdict r c]> (heap s).
Proof. intros Hc. unfold checked, notify. rewrite Hc. destruct r; simpl; repeat case_match; done. Qed.

Lemma take_one {A} n (x : A) : take n [x] = if n =? 0 then [] else [x].
Proof. destruct n as [|n]; [done|]. by destruct n. Qed.

Lemma notify_notified i b s : notified (notify i b s) = notified s ++ take (room s) [(i, b)] ∧ room (notify i b s) = room s - 1.
Proof.
  unfold notify, room. rewrite take_one. destruct (notifier s) eqn:Hn; simpl; [|by rewrite Hn, app_nil_r].
  destruct (Nat.ltb_spec (length (notified s)) notify_capacity); cbn [notifier notified]; rewrite ?Hn, ?length_app; cbn [length].
  - rewrite (proj2 (Nat.eqb_neq _ _)) by lia. split; [done|lia].
  - rewrite (proj2 (Nat.eqb_eq _ _)) by lia. rewrite app_nil_r. split; [done|lia].
Qed.

Lemma checked_notified i c r s : heap s !! i = Some c →
  let new := if bool_decide (isHealthy c = is_ok r) then [] else [(i, is_ok r)] in
  notified (checked i r s) = notified s ++ take (room s) new ∧ room (checked i r s) = room s - length new.
Proof.
  intros Hc. unfold checked. rewrite Hc. destruct r as [p|e], (isHealthy c); cbn [is_ok]; first [rewrite bool_decide_true by done|rewrite bool_decide_false by done]; cbn [length];
    try (rewrite take_nil, app_nil_r; split; [done|by rewrite Nat.sub_0_r]); apply (notify_notified _ _ (set_heap _ s)).
Qed.

Lemma check_each_spec ups s h s' h' :
  NoDup ups → (∀ i, i ∈ ups → is_Some (heap s !! i)) → check_each net ups s h = (s', h') →
  ∃ verdict, (∀ i c, i ∈ ups → heap s !! i = Some c →
      (∃ h1, (parsePriority net c h1).1 = verdict i) ∧ heap s' !! i = Some (with_verdict (verdict i) c)) ∧
    (∀ i, i ∉ ups → heap s' !! i = heap s !! i) ∧ notified s' = notified s ++ take (room s) (changes s verdict ups).
Proof.
  revert s h. induction ups as [|i ups IH]; intros s h Hnd Hin; cbn [check_each].
  { intros [= <- _]. exists (λ _, Err ErrBody). split; [by intros i c Hi%elem_of_nil|]. split; [done|]. unfold changes. simpl. by rewrite take_nil, app_nil_r. }
  apply NoDup_cons in Hnd as [Hi Hnd]. destruct (Hin i ltac:(by left)) as [c Hc]. rewrite Hc.
  destruct (parsePriority net c h) as [r h1] eqn:Hp. intros Hrest.
  pose proof (checked_heap i c r s Hc) as Hheap. destruct (checked_notified i c r s Hc) as [Hnot Hroom].
  assert (∀ j, j ∈ ups → heap (checked i r s) !! j = heap s !! j) as Hother.
  { intros j Hj. rewrite Hheap. apply lookup_insert_ne. intros ->. done. }
  apply IH in Hrest as (v & Hv & Hout & Hn); [|done|intros j Hj; rewrite Hother by done; apply Hin; by right].
  exists (λ j, if bool_decide (j = i) then r else v j). split; [|split].
  - intros j d Hj Hd. destruct (decide (j = i)) as [->|Hne].
    + rewrite bool_decide_true by done. rewrite Hc in Hd. injection Hd as <-. split; [exists h; by rewrite Hp|].
      rewrite Hout by done. by rewrite Hheap, lookup_insert_eq.
    + rewrite bool_decide_false by done. apply elem_of_cons in Hj as [?|Hj]; [done|]. apply Hv; [done|]. by rewrite Hother.
  - intros j Hj. rewrite not_elem_of_cons in Hj. destruct Hj as [Hne Hj]. rewrite Hout, Hheap by done. by apply lookup_insert_ne.
  - assert (changes s (λ j, if bool_decide (j = i) then r else v j) ups = changes (checked i r s) v ups) as Hch.
    { unfold changes. clear -Hi Hother. induction ups as [|j ups IH]; [done|]. apply not_elem_of_cons in Hi as [Hne Hi]. cbn [omap list_omap].
      rewrite (bool_decide_false (j = i)) by done. assert (healthy (checked i r s) j = healthy s j) as -> by (unfold healthy; rewrite (Hother j) by (by left); done).
      rewrite IH; [done|done|]. intros k Hk. apply Hother. by right. }
    rewrite Hn, Hnot, Hroom, <- app_assoc, <- Hch, <- firstn_app. do 2 f_equal. unfold changes at 2. cbn [omap list_omap].
    rewrite (bool_decide_true (i = i)) by done. assert (healthy s i = isHealthy c) as -> by (unfold healthy; by rewrite Hc).
    by destruct (bool_decide (isHealthy c = is_ok r)).
Qed.
End checks.

(** ** What the client and the selection promise *)

(** A request of an upstream is sent at most three times.  All but the last attempt are
    [GET]s or [HEAD]s that failed with a transient transport error; the last one decides
    the result, unless the context ends in the wait after it.  Before the n-th retry the
    client waits the base delay doubled n times, at most the cap. *)
Theorem do_request_spec `{GN : GoNix} {SG : Signing} {NL : NarInfoLib} {CD : Codec} (net : nat → request → attempt)
    (c : Cache) (m : string) (u : base_url) (f : request → request) (h : http) :
  let r := f (addAuthToRequest c (mkRequest m u None None)) in
  let a k := net (length (sent h) + k) r in
  let o := doRequest net c m u f h in
  ∃ n, n < defaultHTTPRetries ∧ (∀ k, k < n → transient r (a k)) ∧ ends_all (defaultHTTPRetries - 1) n r (a n) o.1 ∧
    sent o.2 = sent h ++ replicate (S n) r ∧
    ((0 < retryBackoff c)%Z → waited o.2 = (waited h +
      foldr Z.add 0 ((λ k, Z.min (retryBackoffCap c) (retryBackoff c * 2 ^ Z.of_nat k)) <$> seq 0 n))%Z).
Proof.
  intros r a o. destruct (attempts_spec net c (defaultHTTPRetries - 1) 0 r h) as (n & Hn & Ht & He & Hh). exists n.
  split; [unfold defaultHTTPRetries in *; lia|]. split; [exact Ht|]. split; [exact He|]. unfold o, doRequest. fold r. rewrite Hh.
  split; [done|]. intros Hb. simpl. f_equal. unfold delays. f_equal. apply list_fmap_ext. intros i k _. by apply retry_delay_spec.
Qed.

(** C17. A narinfo taken from an upstream is what that upstream said and may be trusted: it
    was parsed from the whole body of a 200 answer to a request for the narinfo's own
    path at the upstream, with the upstream's credentials, passed go-nix's check, and, if
    keys are configured, carries a signature of one of them.  Only an absent file size of
    an uncompressed NAR is filled in, with the NAR's size. *)
Theorem upstream_narinfo_trusted `{GN : GoNix} {SG : Signing} {NL : NarInfoLib} {CD : Codec} (net : nat → request → attempt)
    (c : Cache) (hash : string) (h h' : http) (ni : NarInfo) :
  GetNarInfo net c hash h = (Ok ni, h') →
  ∃ k resp ni0, let r := addAuthToRequest c (mkRequest "GET" (narinfo_url c hash) None None) in
    length (sent h) <= k ∧ sent h' !! k = Some r ∧ answer (net k r) = Ok resp ∧
    StatusCode resp = 200%Z ∧ s_breaks (r_body resp) = false ∧ ParseNarInfo (s_bytes (r_body resp)) = Some ni0 ∧
    CheckNarInfo ni0 = true ∧ (publicKeys c = [] ∨ VerifyWith (Fingerprint ni0) (Signatures ni0) (publicKeys c) = true) ∧
    ni = fill_file_size ni0.
Proof.
  unfold GetNarInfo, mbind, eff_bind. destruct (doRequest net c "GET" _ id h) as [[resp|e] h1] eqn:Hd; [|done].
  apply doRequest_Ok in Hd as (n & Hs & Ha). destruct (bool_decide (StatusCode resp = 200%Z)) eqn:H200; [|done].
  apply bool_decide_eq_true in H200. simpl. unfold lift. destruct (s_breaks (r_body resp)) eqn:Hb; [done|].
  destruct (ParseNarInfo _) as [ni0|] eqn:Hp; [|done]. simpl. destruct (CheckNarInfo ni0) eqn:Hc; [|done]. simpl.
  destruct (negb (bool_decide (publicKeys c = [])) && _) eqn:Hv; [done|]. intros [= <- <-].
  exists (length (sent h) + n), resp, ni0. split; [lia|]. split; [by rewrite Hs, sent_last|]. do 5 (split; [done|]). split; [|done].
  apply andb_false_iff in Hv as [Hv|Hv]; apply negb_false_iff in Hv; [left; by apply bool_decide_eq_true in Hv|by right].
Qed.

(** C22. A narinfo counts as gone upstream only when it is: if
    [narInfoGenuinelyAbsentUpstream] says so, there are healthy upstreams, and every one
    of them was asked for this narinfo and answered 404; time-outs, transport errors
    and other statuses never count. *)
Theorem absent_upstream_means_404 `{GN : GoNix} {SG : Signing} {NL : NarInfoLib} {CD : Codec} (net : nat → request → attempt)
    (s : site) (hash : string) (h h' : http) :
  (∀ i, i ∈ upstreamCaches s → is_Some (heap s !! i)) →
  narInfoGenuinelyAbsentUpstream net s hash h = (Ok true, h') →
  (∃ i, i ∈ upstreamCaches s ∧ healthy s i = true) ∧
  ∀ i, i ∈ upstreamCaches s → healthy s i = true → said_absent net s hash (length (sent h)) h' i.
Proof.
  intros Hheap Ha. apply absent_from_spec in Ha as ([|Hne] & _ & Hall); [| |intros i [Hi _]%getHealthyUpstreams_elem; auto]; [done|].
  split; [|intros i Hi Hh; apply Hall; by apply getHealthyUpstreams_elem].
  destruct (getHealthyUpstreams s) as [|i l] eqn:E; [done|]. exists i. apply (proj1 (getHealthyUpstreams_elem s i)). rewrite E. by left.
Qed.

(** The healthy upstreams in the order of their priorities, those of one priority in the
    order they were added, as long as no two priorities are 2^63 or more apart: the
    comparison subtracts [uint64]s. *)
Theorem healthy_upstreams_sorted `{GN : GoNix} {SG : Signing} {NL : NarInfoLib} (s : site) :
  close_priorities s →
  let healthy_ones := filter (λ i, healthy s i = true) (upstreamCaches s) in
  getHealthyUpstreams s ≡ₚ healthy_ones ∧ Sorted (λ i j, prio s i <= prio s j)%Z (getHealthyUpstreams s) ∧
  ∀ p, filter (λ i, prio s i = p) (getHealthyUpstreams s) = filter (λ i, prio s i = p) healthy_ones.
Proof.
  intros Hc l. split; [apply SortFunc_perm|]. apply (SortFunc_spec (prio s)).
  intros i j [_ Hi]%list_elem_of_filter [_ Hj]%list_elem_of_filter. by apply compare_priority_spec; apply Hc.
Qed.

(** A remote [nix-cache-info] may announce any 64-bit priority: far enough apart, the
    worse one comes first. *)
Example far_priorities : compare_priority (2 ^ 63 + 1) 0 = (- (2 ^ 63 - 1))%Z.
Proof. reflexivity. Qed.

(** The race for an upstream is fair and ends.  [selectUpstream] asks all upstreams at
    once; in whatever order the probes end, the channels are read and the context ends,
    it takes at most two steps for each upstream and two more, and until it has returned
    some step other than the end of the context is possible.  It returns an upstream that
    said it has the file (or the only one, unasked), or none, and then the context has
    ended or no upstream said so; every error it returns is one a probe gave, or the
    context's. *)
Theorem selection_fair (ucs : list nat) (probe : nat → result upstream_err bool) :
  (∀ u errs, selects ucs probe u errs → ucs = [] ∨ (∃ i, ucs = [i] ∧ u = Some i) ∨ fair_result ucs probe u errs) ∧
  (∀ es s, select_run probe es (select_start ucs) = Some s →
    length es <= 2 * length ucs + 2 ∧
    (returned s = None → ∃ e s', (∀ d, e ≠ EvDone d) ∧ select_step probe e s = Some s')).
Proof.
  split.
  - intros u errs Hs. destruct Hs as [->|i ->|es s u errs _ Hrun Hret]; [by left|right; left; by exists i|right; right].
    eapply rc_returned; [|done]. eapply racing_run; [apply racing_start|done].
  - intros es s Hrun. split; [|apply (step_exists ucs); eapply racing_run; [apply racing_start|done]].
    apply run_to_go in Hrun. unfold to_go in Hrun. simpl in Hrun. lia.
Qed.

(** There is no failover.  With several healthy upstreams: if one fails and another has
    the narinfo, the request may fail with the first one's error, although the second was
    found; and if all fail, however briefly, the request may be answered with "not
    found", because the loop may see the closed channel before the errors. *)
Theorem failover_lost `{GN : GoNix} {SG : Signing} {NL : NarInfoLib} {CD : Codec} (net : nat → request → attempt)
    (s : site) (hash : string) (ucs : list nat) (probe : nat → result upstream_err bool) (h : http) :
  2 <= length ucs →
  (∀ i j e, i ∈ ucs → j ∈ ucs → i ≠ j → probe i = Ok true → probe j = Err e → isCanceled e = false →
    selects ucs probe (Some i) [e] ∧ (getNarInfoFromUpstream net s hash (Some i) [e] h).1 = Err e) ∧
  ((∀ i, i ∈ ucs → ∃ e, probe i = Err e) →
    selects ucs probe None [] ∧ (getNarInfoFromUpstream net s hash None [] h).1 = Err ErrUpstreamNotFound).
Proof.
  intros Hlen. split.
  - intros i j e Hi Hj Hne Hp He Hc. split; [|done].
    apply (selects_race _ _ [EvProbe j; EvErr; EvProbe i; EvRecv] (mkSelecting (remove_first (λ k, bool_decide (k = i)) (remove_first (λ k, bool_decide (k = j)) ucs))
      [] [] false [e] (Some (Some i, [e])))); [done| |done].
    simpl. unfold select_step. simpl. rewrite (bool_decide_true (j ∈ ucs)) by done. simpl. rewrite He, Hc. simpl. rewrite Hc. simpl.
    rewrite bool_decide_true by (by apply remove_first_other). simpl. by rewrite Hp.
  - intros Hall. split; [|done]. destruct (probes_run probe ucs [] [] false [] Hall) as [e' Hrun].
    apply (selects_race _ _ ((EvProbe <$> ucs) ++ [EvClose; EvRecv]) (mkSelecting [] [] e' true [] (Some (None, [])))); [done| |done].
    assert (∀ es1 es2 s0, select_run probe (es1 ++ es2) s0 = match select_run probe es1 s0 with Some s1 => select_run probe es2 s1 | None => None end) as ->.
    { induction es1 as [|e es1 IH]; intros es2 s0; [done|]. simpl. by destruct (select_step probe e s0). }
    unfold select_start. by rewrite Hrun.
Qed.

(** A round of health checks sets every watched upstream's health and priority to what
    its [nix-cache-info] says now, touches no other upstream, and announces exactly the
    changes of health, in their order, as far as the channel has room. *)
Theorem health_check_spec `{GN : GoNix} {SG : Signing} {NL : NarInfoLib} {CD : Codec} (net : nat → request → attempt)
    (s s' : site) (h h' : http) :
  NoDup (watched s) → (∀ i, i ∈ watched s → is_Some (heap s !! i)) → check net s h = (s', h') →
  ∃ verdict,
    (∀ i c, i ∈ watched s → heap s !! i = Some c →
      (∃ h1, (parsePriority net c h1).1 = verdict i) ∧ heap s' !! i = Some (with_verdict (verdict i) c)) ∧
    (∀ i, i ∉ watched s → heap s' !! i = heap s !! i) ∧
    notified s' = notified s ++ take (room s) (changes s verdict (watched s)).
Proof. apply check_each_spec. Qed.

(** ** Examples *)

#[export] Instance tagged_lib : NarInfoLib (H := tagged_nix) := {
  PublicKey := string;
  ParsePublicKey k := Some k;
  ParseNarInfo b := if bool_decide (b = "hello") then Some hello else None;
  CheckNarInfo ni := bool_decide (NarHash ni ≠ None);
  VerifyWith _ sigs keys := existsb (λ k, bool_decide (k ∈ sigs)) keys;
}.

Definition main_url : base_url := mkBase "https" "cache.example.org" "" "priority=30".
Definition spare_url : base_url := mkBase "https" "spare.example.org" "/store" "".
Definition main_cache : Cache := mkCache main_url 30 (take 1 (Signatures hello)) None true Second Second defaultRetryBackoff defaultRetryBackoffCap.
Definition spare_cache : Cache := mkCache spare_url 40 [] (Some ("user", "secret")) true Second Second defaultRetryBackoff defaultRetryBackoffCap.
Definition two_caches : site := mkSite {[0 := main_cache; 1 := spare_cache]} [0; 1] [0; 1] true [].

(** The first request of a run is reset, the others are answered. *)
Definition flaky (status : Z) (b : string) (k : nat) (r : request) : attempt :=
  mkAttempt (if k =? 0 then Err (mkTransport "read: connection reset by peer" false false) else Ok (mkResponse status "" (-1) (plain_stream b))) None.
Definition nothing_sent : http := mkHttp [] 0.

Example new_upstream : New (Some main_url) (Some (mkOptions [] None 0 Second 0)) =
  Ok (mkCache main_url 30 [] None false (3 * Second) Second (100 * Millisecond) (2 * Second)).
Proof. vm_compute. reflexivity. Qed.

Example upstream_paths :
  u_path (narinfo_url spare_cache "abc") = "/store/abc.narinfo" ∧ u_path (narinfo_url main_cache "abc") = "abc.narinfo" ∧
  (u_rawquery <$> JoinURL (mkURL sample_hash CompressionTypeXz ∅ false "") main_url) = Ok "priority=30".
Proof. vm_compute. done. Qed.

(** The priority configured in the URL lasts until the first check. *)
Example configured_priority_overwritten :
  let s := (check (flaky 200 ("StoreDir: /nix/store" +:+ String newline "Priority: 50")) two_caches (mkHttp [mkRequest "" main_url None None] 0)).1 in
  (priority <$> heap s !! 0) = Some 50%Z.
Proof. vm_compute. reflexivity. Qed.

Lemma upstream_narinfo_trusted_witness :
  ∃ ni h', GetNarInfo (flaky 200 "hello") main_cache "abc" nothing_sent = (Ok ni, h') ∧ length (sent h') = 2 ∧ waited h' = (100 * Millisecond)%Z ∧
    (VerifyWith (Fingerprint hello) (Signatures hello) (publicKeys main_cache) = true).
Proof.
  eexists _, _. split; [vm_compute; reflexivity|]. split; [reflexivity|]. split; [reflexivity|].
  destruct (upstream_narinfo_trusted (flaky 200 "hello") main_cache "abc" nothing_sent
    (GetNarInfo (flaky 200 "hello") main_cache "abc" nothing_sent).2 (fill_file_size hello))
    as (k & resp & ni0 & _ & _ & _ & _ & _ & Hp & _ & Hv & _); [vm_compute; reflexivity|].
  simpl in Hp. destruct (bool_decide _); [|done]. injection Hp as <-. by destruct Hv.
Defined.

Lemma absent_upstream_means_404_witness :
  (narInfoGenuinelyAbsentUpstream (flaky 404 "") two_caches "abc" nothing_sent).1 = Ok true ∧
  said_absent (flaky 404 "") two_caches "abc" 0 (narInfoGenuinelyAbsentUpstream (flaky 404 "") two_caches "abc" nothing_sent).2 1.
Proof.
  split; [vm_compute; reflexivity|].
  destruct (absent_upstream_means_404 (flaky 404 "") two_caches "abc" nothing_sent
    (narInfoGenuinelyAbsentUpstream (flaky 404 "") two_caches "abc" nothing_sent).2) as [_ Hall].
  - intros i Hi. vm_compute in Hi. assert (i = 0 ∨ i = 1) as [->| ->] by (clear -Hi; inversion Hi as [|? ? ? Hi1]; [by left|]; inversion Hi1 as [|? ? ? Hi2]; [by right|]; inversion Hi2); by eexists.
  - vm_compute. reflexivity.
  - apply Hall; [right; left|reflexivity].
Defined.

Definition reset_probe (i : nat) : result upstream_err bool :=
  if i =? 0 then Ok true else Err (ErrTransport (mkTransport "connect: connection refused" false false)).

Lemma failover_lost_witness :
  selects [0; 1] reset_probe (Some 0) [ErrTransport (mkTransport "connect: connection refused" false false)].
Proof.
  destruct (failover_lost (flaky 200 "hello") two_caches "abc" [0; 1] reset_probe nothing_sent) as [H _]; [simpl; lia|].
  apply (H 0 1); [by left|right; by left|done|reflexivity..].
Defined.

Lemma health_check_spec_witness :
  let s := (check (flaky 500 "") two_caches nothing_sent).1 in
  ∃ verdict, heap s !! 0 = Some (with_verdict (verdict 0) main_cache) ∧ (isHealthy <$> heap s !! 0) = Some false ∧ notified s = [(0, false); (1, false)].
Proof.
  intros s. destruct (health_check_spec (flaky 500 "") two_caches s nothing_sent (check (flaky 500 "") two_caches nothing_sent).2)
    as (verdict & Hv & _).
  - apply (bool_decide_eq_true_1 _). vm_compute. reflexivity.
  - intros i Hi. vm_compute in Hi. assert (i = 0 ∨ i = 1) as [->| ->] by (clear -Hi; inversion Hi as [|? ? ? Hi1]; [by left|]; inversion Hi1 as [|? ? ? Hi2]; [by right|]; inversion Hi2); by eexists.
  - unfold s. by destruct (check _ _ _).
  - exists verdict. split; [apply (Hv 0 main_cache); [by left|reflexivity]|]. split; vm_compute; reflexivity.
Defined.
