(* ===== verification/Conn.v ===== *)
(** * A database connection outside transactions

    The statements of a function run one by one: each may fail before or after its
    effect, and the function stops there unless it goes on itself; nothing is
    rolled back.  Used by the schema migrations and the stored configuration. *)
From S2P Require Import Prelude.

Section conn.
Context {C : Type}.

(** The connection: what it works on, and which of the statements to come fail:
    [Some 0] without effect, [Some (S n)] after it ([n] rows or tables of it, when
    it has parts).  The statements after the end of the script succeed. *)
Record conn := mkConn {
  cat : C;
  script : list (option nat);
}.

#[export] Instance conn_faulty : Faulty conn C := {
  view := cat;
  calm b s := b = false → script s = [];
}.

Context {E : Type} (fault : E).

(** A statement; [None]: the database refuses it. *)
Definition sql (u : C → option C) : eff conn E () := λ s,
  match script s, u (cat s) with
  | Some 0 :: fs, _ => (Err fault, mkConn (cat s) fs)
  | Some (S _) :: fs, Some c => (Err fault, mkConn c fs)
  | fs, Some c => (Ok (), mkConn c (tail fs))
  | fs, None => (Err fault, mkConn (cat s) (tail fs))
  end.

(** A query. *)
Definition ask {A} (q : C → A) : eff conn E A := λ s,
  match script s with
  | Some _ :: fs => (Err fault, mkConn (cat s) fs)
  | fs => (Ok (q (cat s)), mkConn (cat s) (tail fs))
  end.

(** [BeginTx], the statements, [Commit], and the deferred [Rollback]. *)
Definition in_tx (body : eff conn E ()) : eff conn E () := λ s0,
  match ask (λ _, ()) s0 with
  | (Err e, s) => (Err e, s)
  | (Ok _, s) =>
      match body s with
      | (Err e, s') => (Err e, mkConn (cat s) (script s'))
      | (Ok _, s') =>
          match script s' with
          | Some 0 :: fs => (Err fault, mkConn (cat s) fs)
          | Some (S _) :: fs => (Err fault, mkConn (cat s') fs)
          | fs => (Ok (), mkConn (cat s') (tail fs))
          end
      end
  end.

Section wp.
Context {b : bool}.
Implicit Types c : C.

Lemma wp_sql u (Q : result E () → C → Prop) c :
  (b = true → Q (Err fault) c) →
  match u c with Some c' => (b = true → Q (Err fault) c') ∧ Q (Ok ()) c' | None => Q (Err fault) c end →
  wp b (sql u) Q c.
Proof.
  intros He Hu s <- Hs. destruct s as [c fs]. unfold sql. simpl in *. destruct b.
  - destruct fs as [|[[|n]|] fs], (u c) as [c'|]; simpl; (split; [done|]); try apply Hu; auto.
  - rewrite (Hs eq_refl). destruct (u c) as [c'|]; simpl; (split; [done|]); apply Hu.
Qed.

Lemma wp_ask {A} (q : C → A) (Q : result E A → C → Prop) c :
  (b = true → Q (Err fault) c) → Q (Ok (q c)) c → wp b (ask q) Q c.
Proof.
  intros He Hq s <- Hs. destruct s as [c fs]. unfold ask. simpl in *. destruct b.
  - destruct fs as [|[n|] fs]; simpl; (split; [done|]); auto.
  - by rewrite (Hs eq_refl).
Qed.

Lemma wp_in_tx body (Q : result E () → C → Prop) c :
  (b = true → Q (Err fault) c) →
  wp b body (λ r c', match r with
    | Ok _ => (b = true → Q (Err fault) c') ∧ Q (Ok ()) c'
    | Err e => Q (Err e) c
    end) c →
  wp b (in_tx body) Q c.
Proof.
  intros He Hb s <- Hs. unfold in_tx.
  destruct (wp_ask (λ _, ()) (λ r c', c' = cat s ∧ (b = false → is_ok r)) (cat s)) with (s := s)
    as (Hs1 & Hc1 & Hok); [by intros ->|done..|].
  destruct (ask _ s) as [[[]|e] s1] eqn:Eask; cbn [fst snd view conn_faulty] in *.
  2:{ split; [done|]. rewrite Hc1. destruct b; [|by specialize (Hok eq_refl)].
      assert (e = fault) as ->; [|by apply He].
      unfold ask in Eask. destruct (script s) as [|[|] ?]; by simplify_eq. }
  destruct (Hb s1 Hc1 Hs1) as [Hs2 Hq]. rewrite Hc1. destruct (body s1) as [[[]|e] s2]; cbn [fst snd view conn_faulty] in *.
  2:{ done. }
  destruct Hq as [Hqe Hq]. destruct b.
  - destruct (script s2) as [|[[|n]|] fs]; simpl; (split; [done|]); auto.
  - by rewrite (Hs2 eq_refl).
Qed.
End wp.
End conn.
Arguments conn : clear implicits.
