(* ===== verification/Migrate.v ===== *)
(** * Package [pkg/database/migrate]: adopting and creating the schema

    [ncps migrate up] finds out in which state the tracking table
    [schema_migrations] is, converts a table of dbmate to goose's shape or
    installs the schema afresh, and hands over to goose.  A statement may fail
    before or after its effect, and the process stops at the first failure; on
    MySQL nothing rolls back, so the next run starts from what is there. *)
From S2P Require Import Prelude GoStd Conn.

Inductive dialect := TypeUnknown | TypeMySQL | TypePostgreSQL | TypeSQLite.

#[global] Instance dialect_eq_dec : EqDecision dialect.
Proof. solve_decision. Defined.

Inductive mig_err :=
  | ESql
  | ErrUnknownDialect
  | ErrUnknownState
  | ErrCorruptState
  | ErrImpossibleState
  | ErrMismatch
  | ErrFilename
  | ErrOptionsDBNil
  | ErrOptionsMigrationsFSNil
  | ErrDownNotSupported.

#[global] Instance mig_err_eq_dec : EqDecision mig_err.
Proof. solve_decision. Defined.

(** A tracking table with dbmate's columns, its versions as text, or with goose's,
    each row a version and whether it is applied. *)
Inductive table :=
  | Dbmate (versions : list string)
  | Goose (rows : list (Z * bool)).

(** The database: [schema_migrations], [schema_migrations_dbmate_backup], the
    temporary table [schema_migrations_legacy], and the application's tables. *)
Record catalog := mkCatalog {
  tracking : option table;
  backup : option table;
  legacy : option (list string);
  app_tables : gset string;
}.

Definition count_rows (t : table) : nat :=
  match t with Dbmate vs => length vs | Goose rows => length rows end.

Notation M := (eff (conn catalog) mig_err).
Notation sql := (Conn.sql ESql).
Notation ask := (Conn.ask ESql).
Notation in_tx := (Conn.in_tx ESql).

(** ** State detection *)

Inductive State :=
  | StateUnknown
  | StateEmpty
  | StateDbmate
  | StateAdopted
  | StateMySQLS4
  | StateMySQLS5
  | StateImpossibleS6.

#[global] Instance State_eq_dec : EqDecision State.
Proof. solve_decision. Defined.

Definition has_table (name : string) (c : catalog) : bool :=
  if bool_decide (name = "schema_migrations") then bool_decide (is_Some (tracking c))
  else if bool_decide (name = "schema_migrations_dbmate_backup") then bool_decide (is_Some (backup c))
  else bool_decide (name ∈ app_tables c).

Definition tableExists (name : string) : M bool := ask (has_table name).

(** [columnExists] on [schema_migrations] for [is_applied]. *)
Definition isAppliedExists : M bool :=
  ask (λ c, match tracking c with Some (Goose _) => true | _ => false end).

(** goose, as a library: [Up], and the versions it finds with whether they are
    pending. *)
Class GooseProvider := {
  goose_up : catalog → result () () * catalog;
  goose_status : catalog → result () (list (bool * Z));
}.

(** [Up] records what it applies, and touches neither the other rows of its table
    nor another tracking table. *)
Class GooseLaws (G : GooseProvider) := {
  goose_up_law c rows : tracking c = Some (Goose rows) →
    ∃ more, tracking (goose_up c).2 = Some (Goose (rows ++ more)) ∧ backup (goose_up c).2 = backup c ∧
      app_tables c ⊆ app_tables (goose_up c).2;
}.

Section migrate.
Context {G : GooseProvider}.

(** The names of the tables of the generated [entmigrate.Tables]. *)
Context (appTables : list string).

(** [CAST(version AS ...)]; [None]: refused. *)
Context (cast : string → option Z).

Fixpoint any_table (names : list string) : M bool :=
  match names with
  | [] => mret false
  | name :: names =>
      ok ← tableExists name;
      if ok : bool then mret true else any_table names
  end.

Definition anyAppTableExists : M bool := any_table appTables.

Definition detectStandard : M State :=
  migExists ← tableExists "schema_migrations";
  if negb migExists then
    anyTable ← anyAppTableExists;
    if anyTable : bool then throw ErrCorruptState else mret StateEmpty
  else
    applied ← isAppliedExists;
    if applied : bool then mret StateAdopted else mret StateDbmate.

Definition detectMySQL : M State :=
  migExists ← tableExists "schema_migrations";
  backupExists ← tableExists "schema_migrations_dbmate_backup";
  if migExists : bool then
    applied ← isAppliedExists;
    mret (match backupExists, applied with
          | true, true => StateMySQLS5
          | true, false => StateImpossibleS6
          | false, true => StateAdopted
          | false, false => StateDbmate
          end)
  else if backupExists : bool then mret StateMySQLS4
  else
    anyTable ← anyAppTableExists;
    if anyTable : bool then throw ErrCorruptState else mret StateEmpty.

Definition Detect (d : dialect) : M State :=
  match d with
  | TypeSQLite | TypePostgreSQL => detectStandard
  | TypeMySQL => detectMySQL
  | TypeUnknown => throw ErrUnknownDialect
  end.

(** ** Adoption *)

Definition set_tracking (t : option table) (c : catalog) : catalog :=
  mkCatalog t (backup c) (legacy c) (app_tables c).

(** The statements: [CREATE TEMPORARY TABLE schema_migrations_legacy AS SELECT version],
    [DROP TABLE schema_migrations], [CREATE TABLE schema_migrations] with goose's
    columns, the insertions, [DROP TABLE schema_migrations_legacy]. *)
Definition create_legacy (c : catalog) : option catalog :=
  match tracking c, legacy c with
  | Some (Dbmate vs), None => Some (mkCatalog (tracking c) (backup c) (Some vs) (app_tables c))
  | _, _ => None
  end.

Definition drop_tracking (c : catalog) : option catalog :=
  match tracking c with Some _ => Some (set_tracking None c) | None => None end.

Definition create_goose (c : catalog) : option catalog :=
  match tracking c with None => Some (set_tracking (Some (Goose [])) c) | Some _ => None end.

Definition insert_rows (new : list (Z * bool)) (c : catalog) : option catalog :=
  match tracking c with
  | Some (Goose rows) => Some (set_tracking (Some (Goose (rows ++ new))) c)
  | _ => None
  end.

Definition insert_sentinel : catalog → option catalog := insert_rows [(0%Z, true)].

Definition copy_versions (vs : list string) (c : catalog) : option catalog :=
  zs ← mapM cast vs; insert_rows ((λ z, (z, true)) <$> zs) c.

Definition copy_from_legacy (c : catalog) : option catalog :=
  match legacy c with Some vs => copy_versions vs c | None => None end.

Definition drop_legacy (c : catalog) : option catalog :=
  match legacy c with Some _ => Some (mkCatalog (tracking c) (backup c) None (app_tables c)) | None => None end.

(** [adoptSQLiteSteps], [adoptPostgresSteps] *)
Fixpoint exec_all (stmts : list (catalog → option catalog)) : M () :=
  match stmts with
  | [] => mret ()
  | s :: stmts => _ ← sql s; exec_all stmts
  end.

Definition adoptSteps : M () :=
  exec_all [create_legacy; drop_tracking; create_goose; insert_sentinel; copy_from_legacy; drop_legacy].

Definition count_tracking : M nat := ask (λ c, from_option count_rows 0 (tracking c)).

(** [adoptTransactional] *)
Definition adoptTransactional (d : dialect) : M () := in_tx (
  preCount ← count_tracking;
  _ ← match d with
      | TypeSQLite | TypePostgreSQL => adoptSteps
      | _ => throw ErrUnknownDialect
      end;
  postCount ← count_tracking;
  if bool_decide (postCount = S preCount) then mret () else throw ErrMismatch).

(** [ALTER TABLE schema_migrations RENAME TO schema_migrations_dbmate_backup] *)
Definition rename_to_backup (c : catalog) : option catalog :=
  match tracking c, backup c with
  | Some t, None => Some (mkCatalog None (Some t) (legacy c) (app_tables c))
  | _, _ => None
  end.

Definition truncate_tracking (c : catalog) : option catalog :=
  match tracking c with
  | Some (Goose _) => Some (set_tracking (Some (Goose [])) c)
  | Some (Dbmate _) => Some (set_tracking (Some (Dbmate [])) c)
  | None => None
  end.

Definition copy_from_backup (c : catalog) : option catalog :=
  match backup c with Some (Dbmate vs) => copy_versions vs c | _ => None end.

Definition drop_backup (c : catalog) : option catalog :=
  match backup c with Some _ => Some (mkCatalog (tracking c) None (legacy c) (app_tables c)) | None => None end.

(** [mysqlAdoptionCounts] *)
Definition mysqlAdoptionCounts : M (nat * nat) :=
  preCount ← ask (λ c, from_option count_rows 0 (backup c));
  postCount ← count_tracking;
  mret (preCount, postCount).

Definition mysqlS5Recover : M () :=
  _ ← sql truncate_tracking;
  _ ← sql insert_sentinel;
  _ ← sql copy_from_backup;
  '(backupCount, newCount) ← mysqlAdoptionCounts;
  if bool_decide (newCount = S backupCount) then mret () else throw ErrMismatch.

Definition adoptMySQLFromS5 : M () :=
  '(backupCount, newCount) ← mysqlAdoptionCounts;
  _ ← (if bool_decide (newCount = S backupCount) then mret () else mysqlS5Recover);
  sql drop_backup.

Definition adoptMySQLFromS4 : M () :=
  _ ← sql create_goose;
  _ ← sql insert_sentinel;
  _ ← sql copy_from_backup;
  adoptMySQLFromS5.

Definition adoptMySQLFromDbmate : M () :=
  _ ← sql rename_to_backup;
  adoptMySQLFromS4.

Definition adopt (d : dialect) (st : State) : M () :=
  match st with
  | StateEmpty | StateAdopted => mret ()
  | StateDbmate =>
      match d with
      | TypeSQLite | TypePostgreSQL => adoptTransactional d
      | TypeMySQL => adoptMySQLFromDbmate
      | TypeUnknown => throw ErrUnknownDialect
      end
  | StateMySQLS4 => adoptMySQLFromS4
  | StateMySQLS5 => adoptMySQLFromS5
  | StateImpossibleS6 => throw ErrImpossibleState
  | StateUnknown => throw ErrUnknownState
  end.

(** ** Fresh installation *)

(** [strconv.ParseInt(s, 10, 64)] on 14 characters. *)
Definition ParseInt (s : string) : option Z :=
  let digits s := match parse_uint s with Ok n => Some n | Err _ => None end in
  match s with
  | String "-" s => Z.opp <$> digits s
  | String "+" s => digits s
  | _ => digits s
  end.

(** [listEmbeddedVersions] on the files of the walk, in its order. *)
Fixpoint listEmbeddedVersions (files : list string) : result mig_err (list Z) :=
  match files with
  | [] => Ok []
  | p :: files =>
      if negb (bool_decide (trim_suffix ".sql" p ≠ p)) then listEmbeddedVersions files else
      let base := after_last "/" p in
      if String.length base <? 14 then Err ErrFilename else
      match ParseInt (str_take 14 base) with
      | None => Err ErrFilename
      | Some v => vs ← listEmbeddedVersions files; Ok (v :: vs)
      end
  end.

(** ent's [Schema.Create]: the tables that are not there; a failure leaves the
    first of them. *)
Definition schema_create : M () := λ s,
  let create n c := mkCatalog (tracking c) (backup c) (legacy c) (app_tables c ∪ list_to_set (take n appTables)) in
  match script s with
  | Some n :: fs => (Err ESql, mkConn (create n (cat s)) fs)
  | fs => (Ok (), mkConn (create (length appTables) (cat s)) (tail fs))
  end.

Fixpoint insert_versions (vs : list Z) : M () :=
  match vs with
  | [] => mret ()
  | v :: vs => _ ← sql (insert_rows [(v, true)]); insert_versions vs
  end.

Definition freshInstall (d : dialect) (files : list string) : M () :=
  match d with
  | TypeUnknown => throw ErrUnknownDialect
  | _ =>
      _ ← schema_create;
      _ ← sql create_goose;
      _ ← sql insert_sentinel;
      match listEmbeddedVersions files with
      | Err e => throw e
      | Ok versions => insert_versions versions
      end
  end.

(** ** The entry points *)

(** [Options]; [DB]: it is not nil. *)
Record Options := mkOptions {
  DB : bool;
  Dialect : dialect;
  MigrationsFS : option (list string);
}.

Definition validateOptions (o : Options) : result mig_err () :=
  if negb (DB o) then Err ErrOptionsDBNil else
  match MigrationsFS o with
  | None => Err ErrOptionsMigrationsFSNil
  | Some _ => match Dialect o with TypeUnknown => Err ErrUnknownDialect | _ => Ok () end
  end.

Definition runGoose : M () := λ s,
  match script s with
  | Some 0 :: fs => (Err ESql, mkConn (cat s) fs)
  | fs => let '(r, c) := goose_up (cat s) in (map_err (λ _, ESql) r, mkConn c (tail fs))
  end.

Definition Up (o : Options) : M () :=
  _ ← lift (validateOptions o);
  state ← Detect (Dialect o);
  if bool_decide (state = StateEmpty) then freshInstall (Dialect o) (default [] (MigrationsFS o))
  else
    _ ← adopt (Dialect o) state;
    runGoose.

Record Plan := mkPlan {
  p_state : State;
  p_pending : list Z;
  p_applied : nat;
}.

(** [goosePending] *)
Definition goosePending : M (nat * list Z) := λ s,
  match script s with
  | Some _ :: fs => (Err ESql, mkConn (cat s) fs)
  | fs =>
      (match goose_status (cat s) with
       | Err _ => Err ESql
       | Ok l => Ok (length (filter (λ x, x.1 = false) l), (filter (λ x, x.1 = true) l).*2)
       end, mkConn (cat s) (tail fs))
  end.

Definition DryRun (o : Options) : M Plan :=
  _ ← lift (validateOptions o);
  state ← Detect (Dialect o);
  match state with
  | StateEmpty =>
      match listEmbeddedVersions (default [] (MigrationsFS o)) with
      | Err e => throw e
      | Ok versions => mret (mkPlan state versions 0)
      end
  | StateAdopted => '(applied, pending) ← goosePending; mret (mkPlan state pending applied)
  | _ => mret (mkPlan state [] 0)
  end.

Definition Down (_ : Options) : M () := throw ErrDownNotSupported.
End migrate.

(** ** Lemmas *)

Section lemmas.
Context {G : GooseProvider} {GL : GooseLaws G} (appTables : list string) (cast : string → option Z).
Context (vs : list string) (zs : list Z) (Hcast : mapM cast vs = Some zs) (a : gset string).

(** The rows adoption ends with: goose's sentinel and the versions. *)
Definition adopted_rows : list (Z * bool) := (0%Z, true) :: ((λ z, (z, true)) <$> zs).

(** The states of a database of dbmate's on its way. *)
Definition renamed : catalog := mkCatalog None (Some (Dbmate vs)) None a.
Definition created (rows : list (Z * bool)) : catalog := mkCatalog (Some (Goose rows)) (Some (Dbmate vs)) None a.
Definition of_dbmate : catalog := mkCatalog (Some (Dbmate vs)) None None a.

Definition adopted (c : catalog) : Prop :=
  ∃ more, tracking c = Some (Goose (adopted_rows ++ more)) ∧ backup c = None.

Inductive adopting (d : dialect) : catalog → Prop :=
  | adopting_dbmate : adopting d of_dbmate
  | adopting_renamed : d = TypeMySQL → adopting d renamed
  | adopting_created rows : d = TypeMySQL →
      rows = [] ∨ rows = [(0%Z, true)] ∨ rows = adopted_rows → adopting d (created rows)
  | adopting_adopted c : adopted c → adopting d c.

Lemma length_zs : length zs = length vs.
Proof. apply mapM_Some_1, Forall2_length in Hcast. done. Qed.

Lemma count_adopted_rows : count_rows (Goose adopted_rows) = S (length vs).
Proof. simpl. by rewrite length_fmap, length_zs. Qed.

(** Evaluate the statements on the states above. *)
Ltac states :=
  cbn [create_legacy drop_tracking create_goose insert_sentinel insert_rows drop_legacy rename_to_backup
    truncate_tracking drop_backup of_dbmate renamed created set_tracking tracking backup legacy app_tables
    app from_option]; unfold copy_from_backup, copy_from_legacy; cbn [backup legacy].

(** The steps fail only with the database, and end adopted when nothing fails. *)
Definition on_the_way (d : dialect) (b : bool) (r : result mig_err ()) (c : catalog) : Prop :=
  adopting d c ∧ match r with Ok _ => adopted c | Err e => e = ESql ∧ b = true end.

Lemma copy_to_adopted c :
  tracking c = Some (Goose [(0%Z, true)]) → copy_versions cast vs c = Some (set_tracking (Some (Goose adopted_rows)) c).
Proof. intros Ht. unfold copy_versions, insert_rows. by rewrite Hcast, Ht. Qed.

Lemma adopted_dropped : adopted (mkCatalog (Some (Goose adopted_rows)) None None a).
Proof. exists []. by rewrite app_nil_r. Qed.

Lemma wp_adoptMySQLFromS5 b rows :
  rows = [] ∨ rows = [(0%Z, true)] ∨ rows = adopted_rows →
  wp b (adoptMySQLFromS5 cast) (on_the_way TypeMySQL b) (created rows).
Proof.
  intros Hrows.
  assert (∀ rows, rows = [] ∨ rows = [(0%Z, true)] ∨ rows = adopted_rows →
    b = true → on_the_way TypeMySQL b (Err ESql) (created rows)) as Hfail.
  { intros rows' Hr ->. split; [|done]. by constructor. }
  assert (wp b (sql drop_backup) (on_the_way TypeMySQL b) (created adopted_rows)) as Hdrop.
  { apply wp_sql; [apply Hfail; auto|]. simpl. pose proof adopted_dropped.
    split; [intros ->; split; [by apply adopting_adopted|done]|split; [by apply adopting_adopted|done]]. }
  unfold adoptMySQLFromS5, mysqlAdoptionCounts. apply wp_bind, wp_bind, wp_ask; [by apply Hfail|].
  apply wp_bind, wp_ask; [by apply Hfail|]. apply wp_ret. states.
  apply wp_bind. case_bool_decide as Hcount.
  - apply wp_ret. replace rows with adopted_rows; [done|].
    destruct Hrows as [-> | [-> | ->]]; [discriminate Hcount| |done].
    injection Hcount as Hlen. rewrite <- length_zs in Hlen. unfold adopted_rows. by destruct zs.
  - unfold mysqlS5Recover. apply wp_bind, wp_sql; [by apply Hfail|]. states.
    split; [apply Hfail; auto|].
    apply wp_bind, wp_sql; [apply Hfail; auto|].
    states.
    split; [apply (Hfail [(0%Z, true)]); auto|].
    apply wp_bind, wp_sql; [apply (Hfail [(0%Z, true)]); auto|]. states.
    rewrite copy_to_adopted by done. states.
    split; [apply (Hfail adopted_rows); auto|].
    unfold mysqlAdoptionCounts. apply wp_bind, wp_bind, wp_ask; [apply (Hfail adopted_rows); auto|].
    apply wp_bind, wp_ask; [apply (Hfail adopted_rows); auto|]. apply wp_ret.
    states. rewrite count_adopted_rows. cbn [count_rows]. rewrite bool_decide_true by done.
    by apply wp_ret.
Qed.

Lemma wp_adoptMySQLFromS4 b : wp b (adoptMySQLFromS4 cast) (on_the_way TypeMySQL b) renamed.
Proof.
  assert (∀ rows, rows = [] ∨ rows = [(0%Z, true)] ∨ rows = adopted_rows →
    b = true → on_the_way TypeMySQL b (Err ESql) (created rows)) as Hfail.
  { intros rows' Hr ->. split; [|done]. by constructor. }
  unfold adoptMySQLFromS4. apply wp_bind, wp_sql; [intros ->; split; [by constructor|done]|].
  states. split; [apply (Hfail []); auto|].
  apply wp_bind, wp_sql; [apply (Hfail []); auto|].
  states.
  split; [apply (Hfail [(0%Z, true)]); auto|].
  apply wp_bind, wp_sql; [apply (Hfail [(0%Z, true)]); auto|]. states.
  rewrite copy_to_adopted by done. states.
  split; [apply (Hfail adopted_rows); auto|]. apply (wp_adoptMySQLFromS5 b adopted_rows). auto.
Qed.

Lemma wp_adoptMySQLFromDbmate b : wp b (adoptMySQLFromDbmate cast) (on_the_way TypeMySQL b) of_dbmate.
Proof.
  unfold adoptMySQLFromDbmate. apply wp_bind, wp_sql; [intros ->; split; [by constructor|done]|].
  states. split; [intros ->; split; [by constructor|done]|].
  apply wp_adoptMySQLFromS4.
Qed.

(** In a transaction it is all or nothing. *)
Lemma wp_adoptTransactional b d :
  d = TypeSQLite ∨ d = TypePostgreSQL → wp b (adoptTransactional cast d) (on_the_way d b) of_dbmate.
Proof.
  intros Hd. assert (b = true → on_the_way d b (Err ESql) of_dbmate) as Hfail.
  { intros ->. split; [by constructor|done]. }
  apply wp_in_tx; [done|]. apply wp_bind, wp_ask; [done|].
  apply wp_bind. eapply (wp_mono _ (λ r c, match r with
    | Ok _ => c = mkCatalog (Some (Goose adopted_rows)) None None a | Err e => e = ESql ∧ b = true end)).
  { replace (match d with TypeSQLite | TypePostgreSQL => adoptSteps cast | _ => throw ErrUnknownDialect end)
      with (adoptSteps cast) by (destruct Hd as [-> | ->]; done).
    unfold adoptSteps. cbn [exec_all].
    do 4 (apply wp_bind, wp_sql; [done|]; states; split; [done|]).
    apply wp_bind, wp_sql; [done|]. states. rewrite copy_to_adopted by done.
    states. split; [done|].
    apply wp_bind, wp_sql; [done|]. states. split; [done|].
    by apply wp_ret. }
  intros [[]|e] c; [intros ->|intros [-> Hb]; by apply Hfail].
  apply wp_bind, wp_ask; [done|]. states. rewrite count_adopted_rows. cbn [count_rows].
  rewrite bool_decide_true by done. apply wp_ret. pose proof adopted_dropped.
  split; [intros ->|]; split; by try apply adopting_adopted.
Qed.

(** Detection reads only, and fails only with the database. *)
Definition detects (c : catalog) (Q : State → Prop) (b : bool) (r : result mig_err State) (c' : catalog) : Prop :=
  c' = c ∧ match r with Ok st => Q st | Err e => e = ESql ∧ b = true end.

Lemma wp_Detect_tracking b d c t :
  d ≠ TypeUnknown → tracking c = Some t → (backup c = None ∨ d = TypeMySQL) →
  wp b (Detect appTables d) (detects c (λ st, st = match t, backup c with
    | Dbmate _, None => StateDbmate
    | Goose _, None => StateAdopted
    | Dbmate _, Some _ => StateImpossibleS6
    | Goose _, Some _ => StateMySQLS5
    end) b) c.
Proof.
  intros Hd Ht Hb. unfold Detect.
  assert (has_table "schema_migrations" c = true) as Hmig by (unfold has_table; simpl; by rewrite Ht).
  assert (has_table "schema_migrations_dbmate_backup" c = bool_decide (is_Some (backup c))) as Hbak by done.
  destruct d; [done| |destruct Hb as [Hb|]; [|done]..].
  - unfold detectMySQL, tableExists. apply wp_bind, wp_ask; [done|]. rewrite Hmig.
    apply wp_bind, wp_ask; [done|]. rewrite Hbak. apply wp_bind, wp_ask; [done|]. rewrite Ht. apply wp_ret.
    split; [done|]. by destruct t, (backup c).
  - unfold detectStandard, tableExists. apply wp_bind, wp_ask; [done|]. rewrite Hmig. simpl.
    apply wp_bind, wp_ask; [done|]. rewrite Ht, Hb. destruct t; by apply wp_ret.
  - unfold detectStandard, tableExists. apply wp_bind, wp_ask; [done|]. rewrite Hmig. simpl.
    apply wp_bind, wp_ask; [done|]. rewrite Ht, Hb. destruct t; by apply wp_ret.
Qed.

Lemma wp_Detect_renamed b :
  wp b (Detect appTables TypeMySQL) (detects renamed (λ st, st = StateMySQLS4) b) renamed.
Proof.
  unfold Detect, detectMySQL, tableExists. do 2 (apply wp_bind, wp_ask; [done|]). by apply wp_ret.
Qed.

Definition options_for (d : dialect) (files : list string) : Options := mkOptions true d (Some files).

Lemma wp_runGoose b d c :
  adopted c → wp b runGoose (λ r c', adopted c' ∧ adopting d c') c.
Proof.
  intros Hc s <- Hs. cbn [view conn_faulty] in *. unfold runGoose. assert (adopted (cat s) ∧ adopting d (cat s)) as Hboth by (split; [|apply adopting_adopted]; done).
  assert (let '(r, c) := goose_up (cat s) in adopted c ∧ adopting d c) as Hup.
  { destruct Hc as (more & Ht & Hb). destruct (goose_up_law _ _ Ht) as (more' & Ht' & Hb' & _).
    destruct (goose_up (cat s)) as [r c']. simpl in *.
    assert (adopted c') as Hc'; [|by split; [|apply adopting_adopted]].
    exists (more ++ more'). split; [|congruence]. by rewrite Ht', <- app_assoc. }
  destruct (goose_up (cat s)) as [r c']. destruct b; simpl in *.
  - by destruct (script s) as [|[[|n]|] fs]; simpl.
  - by rewrite (Hs eq_refl).
Qed.

Lemma wp_Up_adopting b d files c :
  d ≠ TypeUnknown → adopting d c →
  wp b (Up appTables cast (options_for d files)) (λ r c', adopting d c' ∧ (b = false → adopted c')) c.
Proof.
  intros Hd Hc. unfold Up, options_for. cbn [Dialect MigrationsFS].
  assert (∀ st, st ≠ StateEmpty → wp b (Detect appTables d) (detects c (λ st', st' = st) b) c →
    wp b (adopt cast d st) (on_the_way d b) c →
    wp b (_ ← lift (validateOptions (mkOptions true d (Some files)));
      state ← Detect appTables d;
      if bool_decide (state = StateEmpty) then freshInstall appTables d files
      else _ ← adopt cast d state; runGoose)
      (λ r c', adopting d c' ∧ (b = false → adopted c')) c) as Hgen.
  { intros st Hst Hdet Hadopt. apply wp_bind, wp_lift.
    replace (validateOptions _) with (Ok (E:=mig_err) ()) by by destruct d.
    apply wp_bind. eapply wp_mono; [exact Hdet|]. intros [st'|e] c' [-> Hst']; [subst st'|by destruct Hst' as [-> ->]].
    rewrite bool_decide_false by done. apply wp_bind. eapply wp_mono; [exact Hadopt|].
    intros [[]|e] c1 [H1 H2]; [|by destruct H2 as [-> ->]].
    eapply wp_mono; [by eapply wp_runGoose|]. intros r c2 [H3 H4]. by split. }
  destruct Hc as [| ->|rows -> Hrows|c Hc].
  - apply (Hgen StateDbmate); [done|by apply (wp_Detect_tracking b d of_dbmate (Dbmate vs)); auto|].
    destruct d; [done| | |].
    + apply wp_adoptMySQLFromDbmate.
    + apply wp_adoptTransactional. auto.
    + apply wp_adoptTransactional. auto.
  - apply (Hgen StateMySQLS4); [done|apply wp_Detect_renamed|apply wp_adoptMySQLFromS4].
  - apply (Hgen StateMySQLS5); [done|by apply (wp_Detect_tracking b TypeMySQL (created rows) (Goose rows)); auto|].
    by apply wp_adoptMySQLFromS5.
  - apply (Hgen StateAdopted); [done| |apply wp_ret; by split; [apply adopting_adopted|]].
    destruct Hc as (more & Ht & Hb). eapply wp_mono; [by eapply wp_Detect_tracking; eauto|].
    intros r c' [-> Hr]. split; [done|]. rewrite Hb in Hr. by destruct r.
Qed.
End lemmas.

(** ** Repeated runs *)

Section runs.
Context {G : GooseProvider} (appTables : list string) (cast : string → option Z) (o : Options).

(** [ncps migrate up] run again and again, each run with its own faults. *)
Definition run_up (c : catalog) (fs : list (option nat)) : catalog :=
  cat (Up appTables cast o (mkConn c fs)).2.

Definition run_ups (runs : list (list (option nat))) (c : catalog) : catalog := foldl run_up c runs.

Lemma run_ups_inv (I : catalog → Prop) runs c :
  (∀ c, I c → wp true (Up appTables cast o) (λ _ c', I c') c) → I c → I (run_ups runs c).
Proof.
  intros HI. revert c. induction runs as [|fs runs IH]; intros c Hc; [done|]. apply IH.
  unfold run_up. by destruct (HI c Hc (mkConn c fs) eq_refl ltac:(done)) as [_ H].
Qed.
End runs.

(** An application's table without a tracking table. *)
Section wedged.
Context {G : GooseProvider} (appTables : list string) (cast : string → option Z).

Definition wedged (c : catalog) : Prop :=
  tracking c = None ∧ backup c = None ∧
  ∃ t, t ∈ appTables ∧ t ∈ app_tables c ∧ t ≠ "schema_migrations" ∧ t ≠ "schema_migrations_dbmate_backup".

Lemma wp_any_table b names c :
  (∃ t, t ∈ names ∧ t ∈ app_tables c ∧ t ≠ "schema_migrations" ∧ t ≠ "schema_migrations_dbmate_backup") →
  wp b (any_table names) (λ r c', c' = c ∧ match r with Ok ok => ok = true | Err e => e = ESql ∧ b = true end) c.
Proof.
  induction names as [|n names IH]; intros (t & Hin & Ht & Hn1 & Hn2); [by apply elem_of_nil in Hin|]. simpl.
  apply wp_bind, wp_ask; [done|]. destruct (has_table n c) eqn:Hhas; [by apply wp_ret|].
  apply IH. exists t. split_and!; try done. apply elem_of_cons in Hin as [<-|Hin]; [|done].
  unfold has_table in Hhas. rewrite !bool_decide_false in Hhas by done.
  by apply bool_decide_eq_false in Hhas.
Qed.

Lemma wp_Up_wedged b d files c :
  d ≠ TypeUnknown → wedged c →
  wp b (Up appTables cast (options_for d files))
    (λ r c', c' = c ∧ (r = Err ErrCorruptState ∨ r = Err ESql ∧ b = true)) c.
Proof.
  intros Hd (Ht & Hb & Hw). unfold Up, options_for. cbn [Dialect MigrationsFS].
  assert (wp b (anyTable ← anyAppTableExists appTables; if anyTable : bool then throw ErrCorruptState else mret StateEmpty)
    (λ r c', c' = c ∧ (r = Err ErrCorruptState ∨ r = Err ESql ∧ b = true)) c) as Hany.
  { apply wp_bind. eapply wp_mono; [by apply wp_any_table|].
    intros [ok|e] c' [-> Hr]; [rewrite Hr; apply wp_throw; auto|destruct Hr as [-> ->]; auto]. }
  apply wp_bind, wp_lift. replace (validateOptions _) with (Ok (E:=mig_err) ()) by by destruct d.
  apply wp_bind. eapply (wp_mono _ (λ r c', c' = c ∧ (r = Err ErrCorruptState ∨ r = Err ESql ∧ b = true))).
  2:{ intros [st|e] c' [-> [Hr|[Hr Hb']]]; try done; [split; [done|]; left|split; [done|]; right]; naive_solver. }
  assert (has_table "schema_migrations" c = false) as Hmig by (unfold has_table; simpl; by rewrite Ht).
  assert (has_table "schema_migrations_dbmate_backup" c = false) as Hbak by (unfold has_table; simpl; by rewrite Hb).
  unfold Detect. destruct d; [done|unfold detectMySQL|unfold detectStandard..]; unfold tableExists.
  - do 2 (apply wp_bind, wp_ask; [auto|]). rewrite Hmig, Hbak. exact Hany.
  - apply wp_bind, wp_ask; [auto|]. rewrite Hmig. exact Hany.
  - apply wp_bind, wp_ask; [auto|]. rewrite Hmig. exact Hany.
Qed.
End wedged.

(** A fresh installation without faults. *)
Lemma wp_insert_versions versions b rows c :
  tracking c = Some (Goose rows) → b = false →
  wp b (insert_versions versions)
    (λ r c', r = Ok () ∧ c' = set_tracking (Some (Goose (rows ++ ((λ v, (v, true)) <$> versions)))) c) c.
Proof.
  intros Ht ->. revert rows c Ht. induction versions as [|v vs IH]; intros rows c Ht; simpl.
  - apply wp_ret. split; [done|]. rewrite app_nil_r. destruct c; simpl in *. by rewrite Ht.
  - apply wp_bind, wp_sql; [done|]. unfold insert_rows. rewrite Ht. split; [done|].
    eapply wp_mono; [by apply (IH (rows ++ [(v, true)]))|]. intros r c' [-> ->]. split; [done|].
    unfold set_tracking. simpl. by rewrite <- app_assoc.
Qed.

(** ** The properties *)

(** C32. A database of dbmate's survives an adoption that is interrupted anywhere,
    any number of times, on every dialect: its versions stay recorded, in
    [schema_migrations] or its backup, no state is reached that needs an operator
    ([ErrImpossibleState] is unreachable), and the first undisturbed run ends with
    goose's table holding the sentinel and every version, the backup gone. *)
Theorem adoption_crash_safe {G : GooseProvider} {GL : GooseLaws G} appTables cast vs zs a d files runs :
  mapM cast vs = Some zs → d ≠ TypeUnknown →
  let o := options_for d files in
  let c := run_ups appTables cast o runs (of_dbmate vs a) in
  adopting vs zs a d c ∧
  (Detect appTables d (mkConn c [])).1 ≠ Ok StateImpossibleS6 ∧
  adopted zs (run_up appTables cast o c []).
Proof.
  intros Hcast Hd o c. assert (adopting vs zs a d c) as Hc.
  { apply run_ups_inv; [|by constructor]. intros c' Hc'.
    eapply wp_mono; [by apply (wp_Up_adopting appTables cast vs zs Hcast a)|]. by intros r c'' [? _]. }
  split; [done|]. split.
  - destruct Hc as [| ->|rows -> Hrows|c' (more & Ht & Hb)].
    + destruct (wp_Detect_tracking appTables false d (of_dbmate vs a) (Dbmate vs) Hd eq_refl ltac:(auto)
        (mkConn (of_dbmate vs a) []) eq_refl ltac:(done)) as (_ & _ & Hr).
      destruct (Detect _ _ _) as [[st|e] s]; simpl in *; congruence.
    + destruct (wp_Detect_renamed appTables vs a false (mkConn (renamed vs a) []) eq_refl ltac:(done)) as (_ & _ & Hr).
      destruct (Detect _ _ _) as [[st|e] s]; simpl in *; congruence.
    + destruct (wp_Detect_tracking appTables false TypeMySQL (created vs a rows) (Goose rows) Hd eq_refl ltac:(auto)
        (mkConn (created vs a rows) []) eq_refl ltac:(done)) as (_ & _ & Hr).
      destruct (Detect _ _ _) as [[st|e] s]; simpl in *; congruence.
    + destruct (wp_Detect_tracking appTables false d c' _ Hd Ht ltac:(auto) (mkConn c' []) eq_refl ltac:(done)) as (_ & _ & Hr).
      rewrite Hb in Hr. destruct (Detect _ _ _) as [[st|e] s]; simpl in *; congruence.
  - destruct (wp_Up_adopting appTables cast vs zs Hcast a false d files c Hd Hc (mkConn c []) eq_refl ltac:(done))
      as (_ & _ & Hdone). by apply Hdone.
Qed.

(** On an empty database an undisturbed run creates every table of the
    application and records the sentinel and every embedded migration as applied. *)
Theorem fresh_install_spec `{GooseProvider} appTables cast d files versions :
  d ≠ TypeUnknown → listEmbeddedVersions files = Ok versions →
  Up appTables cast (options_for d files) (mkConn (mkCatalog None None None ∅) []) =
    (Ok (), mkConn (mkCatalog (Some (Goose ((0%Z, true) :: ((λ v, (v, true)) <$> versions)))) None None
       (list_to_set appTables)) []).
Proof.
  intros Hd Hfiles. set (c0 := mkCatalog None None None ∅).
  assert (∀ t, has_table t c0 = false) as Hno.
  { intros t. unfold has_table. repeat case_bool_decide; simpl in *; try done; try set_solver; by destruct H0 || by destruct H1. }
  assert (wp false (anyAppTableExists appTables) (λ r c', c' = c0 ∧ r = Ok false) c0) as Hany.
  { unfold anyAppTableExists. induction appTables as [|t l IH]; [by apply wp_ret|]. simpl.
    apply wp_bind, wp_ask; [done|]. by rewrite Hno. }
  assert (wp false (Up appTables cast (options_for d files)) (λ r c', r = Ok () ∧
    c' = mkCatalog (Some (Goose ((0%Z, true) :: ((λ v, (v, true)) <$> versions)))) None None (list_to_set appTables)) c0) as Hwp.
  { unfold Up, options_for. cbn [Dialect MigrationsFS default from_option id].
    apply wp_bind, wp_lift. replace (validateOptions _) with (Ok (E:=mig_err) ()) by by destruct d.
    apply wp_bind. eapply (wp_mono _ (λ r c', c' = c0 ∧ r = Ok StateEmpty)).
    { assert (wp false (anyTable ← anyAppTableExists appTables; if anyTable : bool then throw ErrCorruptState else mret StateEmpty)
        (λ r c', c' = c0 ∧ r = Ok StateEmpty) c0) as Hempty.
      { apply wp_bind. eapply wp_mono; [exact Hany|]. intros r c' [-> ->]. by apply wp_ret. }
      unfold Detect. destruct d; [done|unfold detectMySQL|unfold detectStandard..]; unfold tableExists;
        repeat (apply wp_bind, wp_ask; [done|]); rewrite !Hno; exact Hempty. }
    intros r c' [-> ->]. rewrite bool_decide_true by done.
    replace (freshInstall appTables d files) with (freshInstall appTables TypeSQLite files) by by destruct d.
    unfold freshInstall. apply wp_bind. eapply (wp_mono _ (λ r c', r = Ok () ∧
      c' = mkCatalog None None None (list_to_set appTables))).
    { intros [c fs] Hs Hf. simpl in Hs, Hf. unfold schema_create. simpl. rewrite (Hf eq_refl). simpl.
      split; [done|]. split; [done|].
      simpl in Hs. rewrite Hs. simpl. f_equal. rewrite take_ge by done. set_solver. }
    intros r c' [-> ->]. apply wp_bind, wp_sql; [done|]. cbn [create_goose insert_sentinel insert_rows set_tracking tracking backup legacy app_tables app]. split; [done|].
    apply wp_bind, wp_sql; [done|]. cbn [create_goose insert_sentinel insert_rows set_tracking tracking backup legacy app_tables app]. split; [done|]. rewrite Hfiles.
    eapply wp_mono; [by apply (wp_insert_versions versions false [(0%Z, true)])|]. by intros r c' [-> ->]. }
  destruct (Hwp (mkConn c0 []) eq_refl ltac:(done)) as (Hs & Hr & Hc).
  destruct (Up _ _ _ _) as [r [c fs]]; simpl in *. by rewrite Hr, Hc, (Hs eq_refl).
Qed.

(** A fresh installation that stops after ent created a table and before the
    tracking table exists cannot be resumed: every later run leaves the database
    as it is and fails, undisturbed ones with [ErrCorruptState]. *)
Theorem interrupted_install_wedges `{GooseProvider} appTables cast d files c runs :
  d ≠ TypeUnknown → wedged appTables c →
  let o := options_for d files in
  run_ups appTables cast o runs c = c ∧
  (Up appTables cast o (mkConn c [])).1 = Err ErrCorruptState.
Proof.
  intros Hd Hw o. split.
  - apply (run_ups_inv appTables cast o (λ c', c' = c)); [|done]. intros c' ->.
    eapply wp_mono; [by apply wp_Up_wedged|]. by intros r c' [-> _].
  - destruct (wp_Up_wedged appTables cast false d files c Hd Hw (mkConn c []) eq_refl ltac:(done)) as (_ & _ & [Hr|[_ Hb]]);
      [exact Hr|discriminate Hb].
Qed.

(** ** Witnesses *)

(** A goose with nothing to apply. *)
#[export] Instance idle_goose : GooseProvider := {
  goose_up c := (Ok (), c);
  goose_status c := Ok [];
}.

#[export] Instance idle_goose_laws : GooseLaws idle_goose.
Proof. split. intros c rows Ht. exists []. rewrite app_nil_r. by split_and!. Defined.

Definition sample_tables : list string := ["config"; "narinfos"; "nar_files"].
Definition sample_files : list string := ["20241210054814_create-narinfos-table.sql"; "README.md"; "20241210054829_create-nars-table.sql"].
Definition sample_versions : list string := ["20241210054814"; "20241210054829"].

(** Two runs on MySQL that stop after the renaming and after the new table. *)
Definition sample_runs : list (list (option nat)) :=
  [[None; None; None; Some 1]; [None; None; Some 1]].

Lemma adoption_crash_safe_witness :
  run_ups sample_tables ParseInt (options_for TypeMySQL sample_files) sample_runs (of_dbmate sample_versions ∅) =
    created sample_versions ∅ [] ∧
  adopted [20241210054814; 20241210054829]%Z
    (run_up sample_tables ParseInt (options_for TypeMySQL sample_files)
      (run_ups sample_tables ParseInt (options_for TypeMySQL sample_files) sample_runs (of_dbmate sample_versions ∅)) []).
Proof.
  split; [vm_compute; reflexivity|].
  apply (adoption_crash_safe sample_tables ParseInt sample_versions [20241210054814; 20241210054829]%Z ∅ TypeMySQL
    sample_files sample_runs).
  - vm_compute. reflexivity.
  - discriminate.
Defined.

Lemma fresh_install_spec_witness :
  Up sample_tables ParseInt (options_for TypeSQLite sample_files) (mkConn (mkCatalog None None None ∅) []) =
    (Ok (), mkConn (mkCatalog (Some (Goose [(0, true); (20241210054814, true); (20241210054829, true)]%Z)) None None
       (list_to_set sample_tables)) []).
Proof.
  apply (fresh_install_spec sample_tables ParseInt TypeSQLite sample_files [20241210054814; 20241210054829]%Z).
  - discriminate.
  - vm_compute. reflexivity.
Defined.

(** A run that stops after ent created the first two tables. *)
Definition stopped_install : catalog :=
  run_up sample_tables ParseInt (options_for TypeSQLite sample_files) (mkCatalog None None None ∅)
    [None; None; None; None; Some 2].

Lemma interrupted_install_wedges_witness :
  wedged sample_tables stopped_install ∧
  (Up sample_tables ParseInt (options_for TypeSQLite sample_files) (mkConn stopped_install [])).1 = Err ErrCorruptState.
Proof.
  assert (wedged sample_tables stopped_install) as Hw.
  { split; [vm_compute; reflexivity|]. split; [vm_compute; reflexivity|]. exists "config".
    split_and!; [by left| |discriminate|discriminate].
    apply (bool_decide_eq_true_1 ("config" ∈ app_tables stopped_install)). vm_compute. reflexivity. }
  split; [exact Hw|].
  apply (interrupted_install_wedges sample_tables ParseInt TypeSQLite sample_files stopped_install [] ltac:(discriminate) Hw).
Defined.
