(* ===== verification/Config.v ===== *)
(** * Package [pkg/config], and the CDC settings across boots

    The configuration is a table of keys and values; each operation is one
    statement under the key's lock.  [ncps serve] validates its CDC flags against
    the stored ones ([createCache], [loadCDCConfigFromDB], [initCDCDrainMode] of
    [pkg/ncps/serve.go]), so that all chunks of a cache are cut with the same
    sizes until it is drained. *)
From S2P Require Import Prelude GoStd Conn.

Definition KeyClusterUUID := "cluster_uuid".
Definition KeySecretKey := "secret_key".
Definition KeyCDCEnabled := "cdc_enabled".
Definition KeyCDCMin := "cdc_min".
Definition KeyCDCAvg := "cdc_avg".
Definition KeyCDCMax := "cdc_max".

Inductive config_err :=
  | EDb
  | ErrConfigNotFound
  | ErrCDCConfigMismatch (keys : list string)
  | ErrCDCInvalidChunkSizes
  | ErrChunker.

(** The table [config]. *)
Abbreviation store := (gmap string string).

Notation M := (eff (conn store) config_err).

(** [getConfig], [setConfig], [deleteConfig]: taking the key's lock may fail, and so
    may the statement. *)
Definition getConfig (key : string) : M string :=
  _ ← ask EDb (λ _, ());
  v ← ask EDb (λ s, s !! key);
  match v with None => throw ErrConfigNotFound | Some v => mret v end.

Definition setConfig (key value : string) : M () :=
  _ ← ask EDb (λ _, ());
  sql EDb (λ s, Some (<[key := value]> s)).

Definition deleteConfig (key : string) : M () :=
  _ ← ask EDb (λ _, ());
  sql EDb (λ s, Some (delete key s)).

Definition GetClusterUUID : M string := getConfig KeyClusterUUID.
Definition SetClusterUUID (v : string) : M () := setConfig KeyClusterUUID v.
Definition GetSecretKey : M string := getConfig KeySecretKey.
Definition SetSecretKey (v : string) : M () := setConfig KeySecretKey v.
Definition GetCDCEnabled : M string := getConfig KeyCDCEnabled.
Definition SetCDCEnabled (v : string) : M () := setConfig KeyCDCEnabled v.
Definition GetCDCMin : M string := getConfig KeyCDCMin.
Definition SetCDCMin (v : string) : M () := setConfig KeyCDCMin v.
Definition GetCDCAvg : M string := getConfig KeyCDCAvg.
Definition SetCDCAvg (v : string) : M () := setConfig KeyCDCAvg v.
Definition GetCDCMax : M string := getConfig KeyCDCMax.
Definition SetCDCMax (v : string) : M () := setConfig KeyCDCMax v.

Fixpoint delete_keys (keys : list string) : M () :=
  match keys with
  | [] => mret ()
  | key :: keys => _ ← deleteConfig key; delete_keys keys
  end.

Definition DeleteCDCConfig : M () := delete_keys [KeyCDCEnabled; KeyCDCMin; KeyCDCAvg; KeyCDCMax].

(** Three chunk sizes, [uint32]s. *)
Record sizes := mkSizes { minSize : N; avgSize : N; maxSize : N }.

#[global] Instance sizes_eq_dec : EqDecision sizes.
Proof. solve_decision. Defined.

Definition storeCDCConfig (z : sizes) : M () :=
  if bool_decide (minSize z = 0%N) || bool_decide (avgSize z = 0%N) || bool_decide (maxSize z = 0%N)
  then throw ErrCDCInvalidChunkSizes else
  _ ← SetCDCEnabled "true";
  _ ← SetCDCMin (format_uint (minSize z));
  _ ← SetCDCAvg (format_uint (avgSize z));
  SetCDCMax (format_uint (maxSize z)).

Definition mismatch (key stored current : string) : list string :=
  if bool_decide (current = stored) then [] else [key].

Definition validateCDCConfig (enabled : bool) (z : sizes) (storedEnabledStr : string) : M () :=
  if bool_decide (storedEnabledStr = "true") && negb enabled then mret () else
  storedMinStr ← GetCDCMin;
  storedAvgStr ← GetCDCAvg;
  storedMaxStr ← GetCDCMax;
  match mismatch KeyCDCMin storedMinStr (format_uint (minSize z)) ++
        mismatch KeyCDCAvg storedAvgStr (format_uint (avgSize z)) ++
        mismatch KeyCDCMax storedMaxStr (format_uint (maxSize z)) with
  | [] => mret ()
  | keys => throw (ErrCDCConfigMismatch keys)
  end.

Definition ValidateOrStoreCDCConfig (enabled : bool) (z : sizes) : M () :=
  r ← try GetCDCEnabled;
  match r with
  | Err ErrConfigNotFound => if negb enabled then mret () else storeCDCConfig z
  | Err e => throw e
  | Ok storedEnabledStr => validateCDCConfig enabled z storedEnabledStr
  end.

(** ** Booting *)

(** A value the configuration may lack. *)
Definition optional (m : M string) : M string :=
  r ← try m;
  match r with
  | Ok v => mret v
  | Err ErrConfigNotFound => mret ""
  | Err e => throw e
  end.

(** [strconv.ParseUint(s, 10, 32)], 0 when it fails. *)
Definition parseCDCValue (s : string) : N :=
  match parse_uint s with
  | Ok n => if (n <? 2 ^ 32)%Z then Z.to_N n else 0%N
  | Err _ => 0%N
  end.

Definition loadCDCConfigFromDB (currentEnabled wasExplicitlySet : bool) : M (bool * sizes) :=
  r ← try GetCDCEnabled;
  match r with
  | Err ErrConfigNotFound => mret (currentEnabled, mkSizes 0 0 0)
  | Err e => throw e
  | Ok cdcEnabledStr =>
      if negb (bool_decide (cdcEnabledStr = "true")) then mret (currentEnabled, mkSizes 0 0 0) else
      let enabled := if negb wasExplicitlySet then true else currentEnabled in
      cdcMinStr ← optional GetCDCMin;
      cdcAvgStr ← optional GetCDCAvg;
      cdcMaxStr ← optional GetCDCMax;
      mret (enabled, mkSizes (parseCDCValue cdcMinStr) (parseCDCValue cdcAvgStr) (parseCDCValue cdcMaxStr))
  end.

(** How the cache runs: it chunks new NARs with these sizes, it only serves the
    chunked NARs that are left, or it has no chunks. *)
Inductive mode := Full (z : sizes) | Drain | Disabled.

(** [initCDCDrainMode]; [chunked]: how many NARs have chunks. *)
Definition initCDCDrainMode (chunked : nat) : M mode :=
  chunkedCount ← ask EDb (λ _, chunked);
  if bool_decide (chunkedCount = 0) then _ ← DeleteCDCConfig; mret Disabled else mret Drain.

(** The flags of a boot; [wasSet]: [cache-cdc-enabled] is given. *)
Record flags := mkFlags {
  f_enabled : bool;
  f_wasSet : bool;
  f_sizes : sizes;
}.

Section boot.
(** Which sizes [fastcdc.NewChunkerPool] accepts. *)
Context (accepted : sizes → bool).

(** The CDC part of [createCache]. *)
Definition configureCDC (chunked : nat) (f : flags) : M mode :=
  '(cdcEnabled, z) ← (if bool_decide (f_sizes f = mkSizes 0 0 0)
                      then loadCDCConfigFromDB (f_enabled f) (f_wasSet f)
                      else mret (f_enabled f, f_sizes f));
  r ← try GetCDCEnabled;
  storedWasEnabled ← match r with
    | Ok storedEnabledStr => mret (bool_decide (storedEnabledStr = "true"))
    | Err ErrConfigNotFound => mret false
    | Err e => throw e
    end;
  _ ← ValidateOrStoreCDCConfig cdcEnabled z;
  if cdcEnabled : bool then
    if accepted z then mret (Full z) else throw ErrChunker
  else if storedWasEnabled : bool then initCDCDrainMode chunked
  else mret Disabled.
End boot.

(** ** Lemmas *)

Section wp.
Context {b : bool}.

Lemma wp_getConfig key (Q : result config_err string → store → Prop) s :
  (b = true → Q (Err EDb) s) →
  match s !! key with Some v => Q (Ok v) s | None => Q (Err ErrConfigNotFound) s end →
  wp b (getConfig key) Q s.
Proof.
  intros He Hq. unfold getConfig. do 2 (apply wp_bind, wp_ask; [done|]).
  destruct (s !! key); [by apply wp_ret|by apply wp_throw].
Qed.

Lemma wp_setConfig key v (Q : result config_err () → store → Prop) s :
  (b = true → Q (Err EDb) s) → (b = true → Q (Err EDb) (<[key := v]> s)) → Q (Ok ()) (<[key := v]> s) →
  wp b (setConfig key v) Q s.
Proof. intros. apply wp_bind, wp_ask; [done|]. by apply wp_sql. Qed.

Lemma wp_deleteConfig key (Q : result config_err () → store → Prop) s :
  (b = true → Q (Err EDb) s) → (b = true → Q (Err EDb) (delete key s)) → Q (Ok ()) (delete key s) →
  wp b (deleteConfig key) Q s.
Proof. intros. apply wp_bind, wp_ask; [done|]. by apply wp_sql. Qed.

Lemma wp_optional key (Q : result config_err string → store → Prop) s :
  (b = true → Q (Err EDb) s) → Q (Ok (default "" (s !! key))) s → wp b (optional (getConfig key)) Q s.
Proof.
  intros He Hq. unfold optional. apply wp_bind, wp_try, wp_getConfig; [intros Hb; by apply wp_throw, He|].
  destruct (s !! key); by apply wp_ret.
Qed.
End wp.

(** The CDC settings are stored with the sizes [z]. *)
Record stored (z : sizes) (s : store) : Prop := {
  stored_enabled : is_Some (s !! KeyCDCEnabled);
  stored_min : s !! KeyCDCMin = Some (format_uint (minSize z));
  stored_avg : s !! KeyCDCAvg = Some (format_uint (avgSize z));
  stored_max : s !! KeyCDCMax = Some (format_uint (maxSize z));
}.

Lemma stored_inj z z' s : stored z s → stored z' s → z = z'.
Proof.
  intros H H'. pose proof (stored_min _ _ H) as Hm. pose proof (stored_avg _ _ H) as Ha. pose proof (stored_max _ _ H) as Hx.
  rewrite (stored_min _ _ H') in Hm. rewrite (stored_avg _ _ H') in Ha. rewrite (stored_max _ _ H') in Hx.
  destruct z, z'. unfold format_uint in *. simpl in *. simplify_eq. done.
Qed.

Lemma mismatch_nil key st cur : mismatch key st cur = [] ↔ cur = st.
Proof. unfold mismatch. case_bool_decide; split; done. Qed.

(** Validation reads only; when it succeeds with CDC enabled, the sizes are the
    stored ones. *)
Lemma wp_validateCDCConfig b z str s :
  s !! KeyCDCEnabled = Some str →
  wp b (validateCDCConfig true z str) (λ r s', s' = s ∧ match r with
    | Ok _ => stored z s | Err e => e ≠ EDb → ¬ stored z s end) s.
Proof.
  intros Hen. unfold validateCDCConfig. rewrite andb_false_r.
  apply wp_bind, wp_getConfig; [done|]. destruct (s !! KeyCDCMin) as [mn|] eqn:Hmn.
  2:{ split; [done|]. intros _ Hst. pose proof (stored_min _ _ Hst). congruence. }
  apply wp_bind, wp_getConfig; [done|]. destruct (s !! KeyCDCAvg) as [av|] eqn:Hav.
  2:{ split; [done|]. intros _ Hst. pose proof (stored_avg _ _ Hst). congruence. }
  apply wp_bind, wp_getConfig; [done|]. destruct (s !! KeyCDCMax) as [mx|] eqn:Hmx.
  2:{ split; [done|]. intros _ Hst. pose proof (stored_max _ _ Hst). congruence. }
  destruct (_ ++ _) eqn:Hmis.
  - apply app_eq_nil in Hmis as [H1 Hmis]. apply app_eq_nil in Hmis as [H2 H3].
    apply mismatch_nil in H1, H2, H3. subst. apply wp_ret. split; [done|]. by split.
  - apply wp_throw. split; [done|]. intros _ Hst. pose proof (stored_min _ _ Hst). pose proof (stored_avg _ _ Hst).
    pose proof (stored_max _ _ Hst). simplify_eq. unfold mismatch in Hmis. by rewrite !bool_decide_true in Hmis.
Qed.

Lemma wp_storeCDCConfig b z s :
  wp b (storeCDCConfig z) (λ r s', match r with Ok _ => stored z s' | Err _ => True end) s.
Proof.
  unfold storeCDCConfig. case_match; [by apply wp_throw|].
  do 3 (apply wp_bind, wp_setConfig; [done..|]). apply wp_setConfig; [done..|].
  split; simplify_map_eq; eauto.
Qed.

(** A successful validation with CDC enabled leaves the sizes stored. *)
Lemma wp_ValidateOrStore_enabled b z s :
  wp b (ValidateOrStoreCDCConfig true z) (λ r s', match r with Ok _ => stored z s' | Err _ => True end) s.
Proof.
  unfold ValidateOrStoreCDCConfig. apply wp_bind, wp_try, wp_getConfig; [intros _; by apply wp_throw|].
  destruct (s !! KeyCDCEnabled) as [str|] eqn:Hen; simpl.
  - eapply wp_mono; [by apply wp_validateCDCConfig|]. by intros [[]|e] s' [-> H].
  - apply wp_storeCDCConfig.
Qed.

(** Once the settings are stored, validation leaves them. *)
Lemma wp_ValidateOrStore_stored b enabled z z' s :
  stored z s → wp b (ValidateOrStoreCDCConfig enabled z') (λ _ s', s' = s) s.
Proof.
  intros Hst. unfold ValidateOrStoreCDCConfig. apply wp_bind, wp_try, wp_getConfig; [intros _; by apply wp_throw|].
  destruct (stored_enabled _ _ Hst) as [str Hen]. rewrite Hen. destruct enabled.
  - eapply wp_mono; [by apply wp_validateCDCConfig|]. by intros r s' [-> H].
  - unfold validateCDCConfig. case_match; [by apply wp_ret|].
    do 3 (apply wp_bind, wp_getConfig; [done|]; case_match; [|done]).
    case_match; [by apply wp_ret|by apply wp_throw].
Qed.

Lemma wp_load b en set s :
  wp b (loadCDCConfigFromDB en set) (λ _ s', s' = s) s.
Proof.
  unfold loadCDCConfigFromDB. apply wp_bind, wp_try, wp_getConfig; [intros _; by apply wp_throw|].
  case_match; [|by apply wp_ret]. case_match; [by apply wp_ret|].
  do 3 (apply wp_bind, wp_optional; [done|]). by apply wp_ret.
Qed.

Section boots.
Context (accepted : sizes → bool).

(** The prologue of a boot reads only. *)
Lemma wp_effective_flags b f (Q : result config_err (bool * sizes) → store → Prop) s :
  (∀ r, Q r s) →
  wp b (if bool_decide (f_sizes f = mkSizes 0 0 0) then loadCDCConfigFromDB (f_enabled f) (f_wasSet f)
        else mret (f_enabled f, f_sizes f)) Q s.
Proof.
  intros HQ. case_bool_decide; [|by apply wp_ret].
  eapply wp_mono; [apply wp_load|]. by intros r s' ->.
Qed.

Lemma wp_stored_was_enabled {A} b (k : bool → M A) (Q : result config_err A → store → Prop) s :
  (∀ e, Q (Err e) s) → (∀ w, wp b (k w) Q s) →
  wp b (r ← try GetCDCEnabled;
        storedWasEnabled ← match r with
          | Ok storedEnabledStr => mret (bool_decide (storedEnabledStr = "true"))
          | Err ErrConfigNotFound => mret false
          | Err e => throw e
          end;
        k storedWasEnabled) Q s.
Proof.
  intros He Hk. apply wp_bind, wp_try, wp_getConfig; [intros _; by apply wp_bind, wp_throw|].
  destruct (s !! KeyCDCEnabled); by apply wp_bind, wp_ret.
Qed.

Lemma wp_DeleteCDCConfig b s : wp b DeleteCDCConfig (λ _ s', s' = s ∨ s' !! KeyCDCEnabled = None) s.
Proof.
  unfold DeleteCDCConfig. cbn [delete_keys].
  apply wp_bind, wp_deleteConfig; [by left|intros _; right; by simplify_map_eq|].
  do 3 (apply wp_bind, wp_deleteConfig; [intros _; right; by simplify_map_eq..|]).
  apply wp_ret. right. by simplify_map_eq.
Qed.

(** A boot that chunks new NARs has stored its sizes, and while chunked NARs are
    left a boot keeps what is stored. *)
Lemma wp_configureCDC b n f s :
  wp b (configureCDC accepted n f) (λ r s',
    (∀ z, r = Ok (Full z) → stored z s') ∧ (∀ z, stored z s → n ≠ 0 → stored z s')) s.
Proof.
  unfold configureCDC. apply wp_bind, wp_effective_flags. intros [[en z]|e]; [|by split].
  apply wp_stored_was_enabled; [by split|]. intros w. apply wp_bind. destruct en.
  - eapply (wp_mono _ (λ r s', (r = Ok () → stored z s') ∧ (∀ z, stored z s → stored z s'))).
    { intros c Hc Hq. destruct (wp_ValidateOrStore_enabled b z s c Hc Hq) as [Hq' H1]. split; [done|]. split.
      - intros Hr. by rewrite Hr in H1.
      - intros z' Hst. destruct (wp_ValidateOrStore_stored b true z' z s Hst c Hc Hq) as [_ H2]. by rewrite H2. }
    intros [[]|e] s' [H1 H2]; [|split; [done|]; intros z' ? _; by apply H2].
    case_match; [apply wp_ret|apply wp_throw]; (split; [|intros z' ? _; by apply H2]); [|done].
    intros z' [= <-]. by apply H1.
  - eapply (wp_mono _ (λ r s', s' = s)).
    { unfold ValidateOrStoreCDCConfig. apply wp_bind, wp_try, wp_getConfig; [intros _; by apply wp_throw|].
      destruct (s !! KeyCDCEnabled); [|by apply wp_ret]. unfold validateCDCConfig. case_match; [by apply wp_ret|].
      do 3 (apply wp_bind, wp_getConfig; [done|]; destruct (s !! _); [|done]).
      case_match; [by apply wp_ret|by apply wp_throw]. }
    intros [[]|e] s' ->; [|by split]. destruct w; [|apply wp_ret; by split].
    unfold initCDCDrainMode. apply wp_bind, wp_ask; [by split|]. case_bool_decide as Hn; [|apply wp_ret; by split].
    apply wp_bind. eapply wp_mono; [apply wp_DeleteCDCConfig|].
    intros [[]|e] s' _; [apply wp_ret|]; (split; [done|]); by intros.
Qed.
End boots.

(** ** The properties *)

(** A boot with the number of chunked NARs it finds and its faults. *)
Record boot := mkBoot {
  b_flags : flags;
  b_chunked : nat;
  b_faults : list (option nat);
}.

Section sequences.
Context (accepted : sizes → bool).

Definition boot_run (b : boot) (s : store) : result config_err mode * store :=
  let '(r, c) := configureCDC accepted (b_chunked b) (b_flags b) (mkConn s (b_faults b)) in (r, cat c).

(** The outcomes of boots one after another, of any replica. *)
Fixpoint boots (bs : list boot) (s : store) : list (result config_err mode) * store :=
  match bs with
  | [] => ([], s)
  | b :: bs => let '(r, s) := boot_run b s in let '(rs, s) := boots bs s in (r :: rs, s)
  end.

Lemma boot_run_spec b s :
  let '(r, s') := boot_run b s in
  (∀ z, r = Ok (Full z) → stored z s') ∧ (∀ z, stored z s → b_chunked b ≠ 0 → stored z s').
Proof.
  unfold boot_run. destruct (wp_configureCDC accepted true (b_chunked b) (b_flags b) s (mkConn s (b_faults b)) eq_refl
    ltac:(done)) as [_ H]. by destruct (configureCDC _ _ _ _).
Qed.

Lemma boots_stored bs s z :
  stored z s → Forall (λ b, b_chunked b ≠ 0) bs →
  stored z (boots bs s).2 ∧ ∀ z', Ok (Full z') ∈ (boots bs s).1 → z' = z.
Proof.
  intros Hs Hbs. revert s Hs. induction Hbs as [|b bs Hb _ IH]; intros s Hs; simpl.
  { split; [done|]. by intros z' ?%elem_of_nil. }
  pose proof (boot_run_spec b s) as Hspec. destruct (boot_run b s) as [r s1]. destruct Hspec as [Hfull Hkeep].
  destruct (IH s1 (Hkeep z Hs Hb)) as [H1 H2]. destruct (boots bs s1) as [rs s2]. split; [done|].
  intros z' [Heq|Hin]%elem_of_cons; [|by apply H2].
  eapply stored_inj; [by apply Hfull|by apply Hkeep].
Qed.
End sequences.

(** From a boot that chunks new NARs with some sizes on, as long as chunked
    NARs are left, every boot of every replica that chunks new NARs does so with
    the same sizes, whatever its flags and whatever fails. *)
Theorem cdc_sizes_stable accepted b0 bs s z z' :
  (boot_run accepted b0 s).1 = Ok (Full z) → Forall (λ b, b_chunked b ≠ 0) bs →
  Ok (Full z') ∈ (boots accepted bs (boot_run accepted b0 s).2).1 → z' = z.
Proof.
  intros H0 Hbs Hin. pose proof (boot_run_spec accepted b0 s) as Hspec.
  destruct (boot_run accepted b0 s) as [r s1]. simpl in *. destruct Hspec as [Hfull _].
  by apply (boots_stored accepted bs s1 z (Hfull z H0) Hbs).
Qed.

(** The keys are deleted in an order that can be interrupted: wherever clearing
    the configuration of a drained cache stops, either the enabled flag is still
    there with everything it had, or an undisturbed boot can enable CDC again with
    any accepted sizes. *)
Theorem drain_interruptible accepted s fs f n :
  f_enabled f = true → minSize (f_sizes f) ≠ 0%N → avgSize (f_sizes f) ≠ 0%N → maxSize (f_sizes f) ≠ 0%N →
  accepted (f_sizes f) = true →
  let s' := cat (DeleteCDCConfig (mkConn s fs)).2 in
  s' = s ∨ (boot_run accepted (mkBoot f n []) s').1 = Ok (Full (f_sizes f)).
Proof.
  intros Hen Hm Ha Hx Hacc s'.
  destruct (wp_DeleteCDCConfig true s (mkConn s fs) eq_refl ltac:(done)) as [_ [Hs|Hs]]; [by left|right].
  change (s' !! KeyCDCEnabled = None) in Hs. clearbody s'.
  assert (wp false (configureCDC accepted n f) (λ r _, r = Ok (Full (f_sizes f))) s') as Hwp.
  { unfold configureCDC. rewrite bool_decide_false by (intros Heq; rewrite Heq in Hm; done).
    apply wp_bind, wp_ret. apply wp_bind, wp_try, wp_getConfig; [done|]. rewrite Hs. simpl.
    apply wp_bind, wp_ret. rewrite Hen. apply wp_bind. unfold ValidateOrStoreCDCConfig.
    apply wp_bind, wp_try, wp_getConfig; [done|]. rewrite Hs. simpl. unfold storeCDCConfig.
    rewrite !bool_decide_false by done. simpl. do 3 (apply wp_bind, wp_setConfig; [done..|]).
    apply wp_setConfig; [done..|]. rewrite Hacc. by apply wp_ret. }
  unfold boot_run. destruct (Hwp (mkConn s' []) eq_refl ltac:(done)) as [_ Hr]. simpl.
  by destruct (configureCDC _ _ _ _).
Qed.

(** Storing the settings cannot be interrupted: after a first boot that stops
    between the enabled flag and the sizes, no boot with CDC enabled succeeds and
    none changes the configuration. *)
Theorem partial_store_blocks_boot accepted s b :
  s !! KeyCDCEnabled = Some "true" → s !! KeyCDCMin = None →
  f_enabled (b_flags b) = true → f_sizes (b_flags b) ≠ mkSizes 0 0 0 →
  is_ok (boot_run accepted b s).1 = false ∧ (boot_run accepted b s).2 = s.
Proof.
  intros Hen Hmin Hf Hz.
  assert (wp true (configureCDC accepted (b_chunked b) (b_flags b)) (λ r s', is_ok r = false ∧ s' = s) s) as Hwp.
  { unfold configureCDC. rewrite bool_decide_false by done. apply wp_bind, wp_ret.
    apply wp_stored_was_enabled; [done|]. intros w. rewrite Hf. apply wp_bind.
    unfold ValidateOrStoreCDCConfig. apply wp_bind, wp_try, wp_getConfig; [intros _; by apply wp_throw|].
    rewrite Hen. unfold validateCDCConfig. simpl. apply wp_bind, wp_getConfig; [done|]. by rewrite Hmin. }
  unfold boot_run. destruct (Hwp (mkConn s (b_faults b)) eq_refl ltac:(done)) as [_ [Hr Hs]].
  destruct (configureCDC _ _ _ _); simpl in *. by split.
Qed.

(** ** Witnesses *)

Definition any_sizes (_ : sizes) : bool := true.
Definition small : sizes := mkSizes 16384 65536 262144.
Definition with_sizes (z : sizes) : boot := mkBoot (mkFlags true true z) 3 [].
Definition first_boot : store := (boot_run any_sizes (with_sizes small) ∅).2.

Lemma cdc_sizes_stable_witness :
  (boots any_sizes [with_sizes (mkSizes 1 2 3); mkBoot (mkFlags false false (mkSizes 0 0 0)) 3 []] first_boot).1 =
    [Err (ErrCDCConfigMismatch [KeyCDCMin; KeyCDCAvg; KeyCDCMax]); Ok (Full small)] ∧
  (∀ z', Ok (Full z') ∈ (boots any_sizes [with_sizes (mkSizes 1 2 3); mkBoot (mkFlags false false (mkSizes 0 0 0)) 3 []] first_boot).1 →
     z' = small).
Proof.
  split; [vm_compute; reflexivity|]. intros z' Hin.
  apply (cdc_sizes_stable any_sizes (with_sizes small)
    [with_sizes (mkSizes 1 2 3); mkBoot (mkFlags false false (mkSizes 0 0 0)) 3 []] ∅).
  - vm_compute. reflexivity.
  - repeat constructor; discriminate.
  - exact Hin.
Defined.

Lemma drain_interruptible_witness :
  (boot_run any_sizes (with_sizes (mkSizes 1 2 3)) (cat (DeleteCDCConfig (mkConn first_boot [None; None; None; Some 0])).2)).1 =
    Ok (Full (mkSizes 1 2 3)).
Proof.
  destruct (drain_interruptible any_sizes first_boot [None; None; None; Some 0] (mkFlags true true (mkSizes 1 2 3)) 3)
    as [Heq|Hok]; [reflexivity|discriminate..|reflexivity| |exact Hok].
  exfalso. apply (f_equal (λ m : store, m !! KeyCDCEnabled)) in Heq. vm_compute in Heq. discriminate Heq.
Defined.

(** The boot that stops after the enabled flag. *)
Definition stopped_store : store :=
  (boot_run any_sizes (mkBoot (mkFlags true true small) 0 [None; None; None; None; None; Some 1]) ∅).2.

Lemma partial_store_blocks_boot_witness :
  stopped_store !! KeyCDCEnabled = Some "true" ∧
  is_ok (boot_run any_sizes (with_sizes small) stopped_store).1 = false.
Proof.
  split; [vm_compute; reflexivity|].
  apply (partial_store_blocks_boot any_sizes stopped_store (with_sizes small)).
  - vm_compute. reflexivity.
  - vm_compute. reflexivity.
  - reflexivity.
  - discriminate.
Defined.
