(* ===== verification/SecretKey.v ===== *)
(** * The cache's signing key across boots ([New], [setupSecretKey] of [pkg/cache])

    A boot takes the key from a file, from the stored configuration ([Config]), from
    the deprecated store of the key, or makes a new one, and stores it in the
    configuration.  go-nix's keys are an interface. *)
From S2P Require Import Prelude GoStd Conn Config.

(** Keys and their texts; a new pair takes the host's name and randomness. *)
Class KeyLib := {
  key : Type;
  LoadSecretKey : string → option key;
  key_String : key → string;
  GenerateKeypair : string → nat → option key;
}.

Class KeyLibLaws (K : KeyLib) := { load_string k : LoadSecretKey (key_String k) = Some k }.

Inductive setup_err :=
  | EConfig (e : config_err)
  | EStore
  | EStoreNotFound
  | ELoad
  | EGenerate
  | EFile
  | ErrHostnameRequired
  | EHostnameParse
  | ErrHostnameMustNotContainScheme
  | ErrHostnameMustNotContainPath.

(** The stored configuration, and the deprecated store with the key's text. *)
Record world := mkWorld {
  db : conn store;
  old : conn (option string);
}.

#[export] Instance world_faulty : Faulty world (store * option string) := {
  view w := (cat (db w), cat (old w));
  calm b w := calm b (db w) ∧ calm b (old w);
}.

Notation W := (eff world setup_err).

Definition on_db {A} (m : M A) : W A := λ w,
  let '(r, d) := m (db w) in (map_err EConfig r, mkWorld d (old w)).

Definition on_old {A} (m : eff (conn (option string)) setup_err A) : W A := λ w,
  let '(r, o) := m (old w) in (r, mkWorld (db w) o).

Section setup.
Context {K : KeyLib}.

(** [configStore.GetSecretKey] and [configStore.DeleteSecretKey] *)
Definition old_get : W key := on_old (
  t ← ask EStore (λ o, o);
  match t with
  | None => throw EStoreNotFound
  | Some t => lift (of_option ELoad (LoadSecretKey t))
  end).

Definition old_delete : W unit := on_old (sql EStore (λ _, Some None)).

Definition SetKey (k : key) : W unit := on_db (SetSecretKey (key_String k)).

(** 2. *)
Definition load_from_db : W (option key) :=
  r ← try (on_db GetSecretKey);
  match r with
  | Ok dbKeyStr => k ← lift (of_option ELoad (LoadSecretKey dbKeyStr)); mret (Some k)
  | Err (EConfig ErrConfigNotFound) => mret None
  | Err e => throw e
  end.

(** 3. *)
Definition migrate_from_store : W (option key) :=
  r ← try old_get;
  match r with
  | Ok oldKey =>
      SetKey oldKey;;
      _ ← try (E' := setup_err) old_delete;
      mret (Some oldKey)
  | Err EStoreNotFound => mret None
  | Err e => throw e
  end.

(** 4. *)
Definition generate (hostName : string) (rnd : nat) : W key :=
  secretKey ← lift (of_option EGenerate (GenerateKeypair hostName rnd));
  SetKey secretKey;;
  mret secretKey.

(** [content]: what [os.ReadFile] gave. *)
Definition setupSecretKeyFromFile (content : option string) : W key :=
  skc ← lift (of_option EFile content);
  secretKey ← lift (of_option ELoad (LoadSecretKey skc));
  r ← try (E' := setup_err) (on_db GetSecretKey);
  let same := match r with Ok dbKeyStr => bool_decide (dbKeyStr = key_String secretKey) | Err _ => false end in
  (if same then mret (Ok ()) else try (E' := setup_err) (SetKey secretKey));;
  mret secretKey.

(** The key the cache signs with; [file]: a path is given, and its content. *)
Definition setupSecretKey (file : option (option string)) (hostName : string) (rnd : nat) : W key :=
  match file with
  | Some content => setupSecretKeyFromFile content
  | None =>
      fromDB ← load_from_db;
      match (fromDB : option key) with
      | Some k => mret k
      | None =>
          fromStore ← migrate_from_store;
          match (fromStore : option key) with
          | Some k => mret k
          | None => generate hostName rnd
          end
      end
  end.

(** [url_scheme]: the scheme [url.Parse] finds, unless it fails. *)
Definition validateHostname (url_scheme : string → option string) (hostName : string) : result setup_err unit :=
  if bool_decide (hostName = "") then Err ErrHostnameRequired else
  match url_scheme hostName with
  | None => Err EHostnameParse
  | Some scheme =>
      if negb (bool_decide (scheme = "")) then Err ErrHostnameMustNotContainScheme
      else if contains hostName "/" then Err ErrHostnameMustNotContainPath else Ok ()
  end.

(** [New], as far as the host's name and the key. *)
Definition New (url_scheme : string → option string) (file : option (option string)) (hostName : string)
    (rnd : nat) : W key :=
  lift (validateHostname url_scheme hostName);;
  setupSecretKey file hostName rnd.

(** ** Lemmas *)

Section wp.
Context {b : bool}.

Lemma wp_on_db {A} (m : M A) (Q : result setup_err A → store * option string → Prop) s o :
  wp b m (λ r s', Q (map_err EConfig r) (s', o)) s → wp b (on_db m) Q (s, o).
Proof.
  intros Hm [d c] [= <- <-] [Hd Hc]. unfold on_db. simpl in *. destruct (Hm d eq_refl Hd) as [Hq HQ].
  by destruct (m d).
Qed.

Lemma wp_on_old {A} (m : eff (conn (option string)) setup_err A) (Q : result setup_err A → store * option string → Prop) s o :
  wp b m (λ r o', Q r (s, o')) o → wp b (on_old m) Q (s, o).
Proof.
  intros Hm [d c] [= <- <-] [Hd Hc]. unfold on_old. simpl in *. destruct (Hm c eq_refl Hc) as [Hq HQ].
  by destruct (m c).
Qed.

(** The key that a boot would find. *)
Definition remembers (k : key) (w : store * option string) : Prop :=
  match w.1 !! KeySecretKey with
  | Some s => LoadSecretKey s = Some k
  | None => ∃ t, w.2 = Some t ∧ LoadSecretKey t = Some k
  end.

Context {KL : KeyLibLaws K}.

Lemma remembers_set k s o : remembers k (<[KeySecretKey := key_String k]> s, o).
Proof. unfold remembers. simpl. rewrite lookup_insert_eq. apply load_string. Qed.

(** A boot without a file keeps the key it would find, and uses it or fails; the
    key it uses is then remembered. *)
Definition boot_post (w : store * option string) (r : result setup_err key) (w' : store * option string) : Prop :=
  (∀ k, remembers k w → remembers k w' ∧ ∀ k', r = Ok k' → k' = k) ∧
  (∀ k, r = Ok k → remembers k w') ∧ (∀ k, k ≠ KeySecretKey → w'.1 !! k = w.1 !! k).

(** A boot that stores [k], the only key that may be remembered. *)
Lemma wp_SetKey k s o (Q : result setup_err unit → store * option string → Prop) :
  (b = true → Q (Err (EConfig EDb)) (s, o)) →
  (b = true → Q (Err (EConfig EDb)) (<[KeySecretKey := key_String k]> s, o)) →
  Q (Ok ()) (<[KeySecretKey := key_String k]> s, o) → wp b (SetKey k) Q (s, o).
Proof. intros. by apply wp_on_db, wp_setConfig. Qed.

Lemma post_same w e : boot_post w (Err e) w.
Proof. by split_and!. Qed.

Lemma post_set k s o o' r :
  s !! KeySecretKey = None → (∀ k', remembers k' (s, o) → k' = k) → (r = Ok k ∨ is_ok r = false) →
  boot_post (s, o) r (<[KeySecretKey := key_String k]> s, o').
Proof.
  intros Hs Hk Hr. split_and!.
  - intros k' Hk'. rewrite (Hk _ Hk'). split; [apply remembers_set|]. intros k2 ->. destruct Hr as [[= ->]|]; [done|done].
  - intros k' ->. destruct Hr as [[= ->]|]; [|done]. apply remembers_set.
  - intros k' Hne. cbn [fst]. by rewrite lookup_insert_ne.
Qed.

Lemma wp_setup_nofile host rnd w : wp b (setupSecretKey None host rnd) (boot_post w) w.
Proof using KL.
  destruct w as [s o]. unfold setupSecretKey, load_from_db.
  apply wp_bind, wp_bind, wp_try, wp_on_db, wp_getConfig; [intros _; apply wp_throw, post_same|].
  destruct (s !! KeySecretKey) as [t|] eqn:Hs; cbn [map_err].
  { apply wp_bind, wp_lift. destruct (LoadSecretKey t) as [k|] eqn:Ht; cbn [of_option]; [|apply post_same].
    apply wp_ret, wp_ret. unfold boot_post, remembers. cbn [fst]. rewrite Hs. split_and!; [|by intros k' [= <-]|done].
    intros k' Hk'. split; [done|]. intros k2 [= <-]. congruence. }
  apply wp_ret. unfold migrate_from_store, old_get.
  apply wp_bind, wp_bind, wp_try, wp_on_old, wp_bind, wp_ask; [intros _; apply wp_throw, post_same|].
  assert (∀ k, remembers k (s, o) → o ≫= LoadSecretKey = Some k) as Hrem.
  { intros k. unfold remembers. cbn [fst snd]. rewrite Hs. by intros (t & -> & ?). }
  destruct o as [t|].
  - apply wp_lift. destruct (LoadSecretKey t) as [k|] eqn:Ht; cbn [of_option]; [|apply wp_throw, post_same].
    assert (∀ k', remembers k' (s, Some t) → k' = k) as Hk.
    { intros k' Hk'%Hrem. simpl in Hk'. congruence. }
    apply wp_bind, wp_SetKey; [intros _; apply post_same|intros _; apply post_set; auto|].
    apply wp_bind, wp_try, wp_on_old, wp_sql; [|split]; intros; apply wp_ret, wp_ret, post_set; auto.
  - apply wp_throw, wp_ret. unfold generate. apply wp_bind, wp_lift.
    destruct (GenerateKeypair host rnd) as [k|]; cbn [of_option]; [|apply post_same].
    assert (∀ k', remembers k' (s, None) → k' = k) as Hk by (intros k' Hk'%Hrem; done).
    apply wp_bind, wp_SetKey; [intros _; apply post_same|intros _; apply post_set; auto|].
    apply wp_ret, post_set; auto.
Qed.
End wp.
End setup.

(** ** The properties *)

(** A boot without a key file: the host's name, randomness, and what fails. *)
Record boot := mkBoot {
  b_host : string;
  b_rnd : nat;
  b_db : list (option nat);
  b_old : list (option nat);
}.

Section boots.
Context {K : KeyLib} {KL : KeyLibLaws K}.

Definition boot_run (b : boot) (w : store * option string) : result setup_err key * (store * option string) :=
  let '(r, w) := setupSecretKey None (b_host b) (b_rnd b) (mkWorld (mkConn w.1 (b_db b)) (mkConn w.2 (b_old b))) in
  (r, view w).

Fixpoint boots (bs : list boot) (w : store * option string) : list (result setup_err key) * (store * option string) :=
  match bs with
  | [] => ([], w)
  | b :: bs => let '(r, w) := boot_run b w in let '(rs, w) := boots bs w in (r :: rs, w)
  end.

Lemma boot_run_post b w : boot_post w (boot_run b w).1 (boot_run b w).2.
Proof using KL.
  unfold boot_run. destruct (wp_setup_nofile (b := true) (b_host b) (b_rnd b) w
    (mkWorld (mkConn w.1 (b_db b)) (mkConn w.2 (b_old b)))) as [_ Hp]; [by destruct w|by split|].
  by destruct (setupSecretKey _ _ _ _).
Qed.

Lemma boots_remember bs w k :
  remembers k w → remembers k (boots bs w).2 ∧ ∀ k', Ok k' ∈ (boots bs w).1 → k' = k.
Proof using KL.
  revert w. induction bs as [|b bs IH]; intros w Hw; simpl; [split; [done|by intros k' ?%elem_of_nil]|].
  pose proof (boot_run_post b w) as (Hp & _). destruct (boot_run b w) as [r w1]. cbn [fst snd] in Hp.
  destruct (Hp k Hw) as [Hw1 Hr]. destruct (IH w1 Hw1) as [H1 H2]. destruct (boots bs w1) as [rs w2]. split; [done|].
  intros k' [Heq|?]%elem_of_cons; [by apply Hr|by apply H2].
Qed.
End boots.

(** C29. The signing key survives: once a key is in the configuration, or in the
    deprecated store of a cache whose configuration has none, or a boot has used
    it, every later boot without a key file, one after another, on any host and
    whatever requests fail before or after their effect, uses that key or fails,
    and leaves it to the next one; moving it from the deprecated store loses it at
    no point. *)
Theorem secret_key_survives {K : KeyLib} {KL : KeyLibLaws K} (b0 : boot) (bs : list boot)
    (w : store * option string) (k : key) :
  remembers k w ∨ (boot_run b0 w).1 = Ok k →
  remembers k (boots bs (boot_run b0 w).2).2 ∧
  ∀ k', Ok k' ∈ (boot_run b0 w).1 :: (boots bs (boot_run b0 w).2).1 → k' = k.
Proof.
  intros Hk. destruct (boot_run_post b0 w) as (Hkeep & Huse & _).
  assert (remembers k (boot_run b0 w).2) as Hw.
  { destruct Hk as [Hk|Hk]; [by apply Hkeep|by apply Huse]. }
  destruct (boots_remember bs _ k Hw) as [H1 H2]. split; [done|].
  intros k' [Heq|?]%elem_of_cons; [|by apply H2]. destruct Hk as [Hk|Hk]; [by apply (Hkeep k Hk)|congruence].
Qed.

(** A key file is used whatever fails in the configuration, which has the file's
    key afterwards when nothing failed. *)
Theorem file_key_used {K : KeyLib} {KL : KeyLibLaws K} (t host : string) (rnd : nat) (k : key) (w : world) :
  LoadSecretKey t = Some k →
  let '(r, w') := setupSecretKey (Some (Some t)) host rnd w in
  r = Ok k ∧ (calm false w → cat (db w') !! KeySecretKey = Some (key_String k)).
Proof.
  intros Ht.
  assert (∀ b s, wp b (setupSecretKey (Some (Some t)) host rnd) (λ r w', r = Ok k ∧
    (b = false → w'.1 !! KeySecretKey = Some (key_String k))) s) as Hwp.
  { intros b [s o]. unfold setupSecretKey, setupSecretKeyFromFile.
    apply wp_bind, wp_lift. cbn [of_option]. apply wp_bind, wp_lift. rewrite Ht. cbn [of_option].
    assert (∀ Q : result setup_err (result setup_err ()) → store * option string → Prop,
      (∀ r s', (b = false → s' !! KeySecretKey = Some (key_String k)) → Q (Ok r) (s', o)) →
      wp b (try (SetKey k)) Q (s, o)) as Hset.
    { intros Q HQ. apply wp_try, wp_SetKey; intros; apply HQ; intros; try congruence; by rewrite lookup_insert_eq. }
    assert (∀ (r : result setup_err ()) (s' : store), (b = false → s' !! KeySecretKey = Some (key_String k)) →
      wp b (mret (M := W) k) (λ r w', r = Ok k ∧ (b = false → w'.1 !! KeySecretKey = Some (key_String k))) (s', o)) as Hend.
    { intros _ s' Hs'. by apply wp_ret. }
    apply wp_bind, wp_try, wp_on_db, wp_getConfig.
    - intros Hb. cbn [map_err]. apply wp_bind, Hset. intros r s' Hs'. by apply Hend.
    - destruct (s !! KeySecretKey) as [t'|] eqn:Hs; cbn [map_err].
      + case_bool_decide as Heq; [|apply wp_bind, Hset; intros r s' Hs'; by apply Hend].
        apply wp_bind, wp_ret, (Hend (Ok ())). by rewrite Hs, Heq.
      + apply wp_bind, Hset. intros r s' Hs'. by apply Hend. }
  destruct (Hwp true _ w eq_refl ltac:(done)) as [_ [Hr _]].
  assert (calm false w → cat (db (setupSecretKey (Some (Some t)) host rnd w).2) !! KeySecretKey = Some (key_String k)) as Hc.
  { intros Hq. destruct (Hwp false _ w eq_refl Hq) as [_ [_ Hs]]. by apply Hs. }
  by destruct (setupSecretKey (Some (Some t)) host rnd w).
Qed.

(** ** A key library, and what it shows *)

#[local] Instance sample_keys : KeyLib := {
  key := string;
  LoadSecretKey t := if bool_decide (t = "") then None else Some (str_drop 1 t);
  key_String k := "k" +:+ k;
  GenerateKeypair host rnd := Some (host +:+ ":" +:+ pretty rnd);
}.

#[local] Instance sample_keys_laws : KeyLibLaws sample_keys.
Proof. by split. Defined.

Definition the_key (s : string) : @key sample_keys := s.

Definition new_cache : world := mkWorld (mkConn ∅ []) (mkConn None []).

(** A first boot whose store of the migrated key is committed but answered with an
    error, and two more on another host. *)
Definition sample_boots : list boot := [mkBoot "b" 2 [] []; mkBoot "b" 3 [] [Some 0]].

Lemma secret_key_survives_witness :
  (boot_run (mkBoot "a" 1 [None; None; None; Some 1] []) (∅, Some "kold")).1 = Err (EConfig EDb) ∧
  (boots sample_boots (boot_run (mkBoot "a" 1 [None; None; None; Some 1] []) (∅, Some "kold")).2).1 = [Ok (the_key "old"); Ok (the_key "old")] ∧
  remembers (the_key "old") (boots sample_boots (boot_run (mkBoot "a" 1 [None; None; None; Some 1] []) (∅, Some "kold")).2).2.
Proof.
  split; [vm_compute; reflexivity|]. split; [vm_compute; reflexivity|].
  apply (secret_key_survives (mkBoot "a" 1 [None; None; None; Some 1] []) sample_boots (∅, Some "kold") (the_key "old")).
  left. unfold remembers. cbn [fst snd]. rewrite lookup_empty. exists "kold". split; reflexivity.
Defined.

Lemma file_key_used_witness :
  (setupSecretKey (Some (Some "kfile")) "a" 1 new_cache).1 = Ok (the_key "file").
Proof.
  pose proof (file_key_used "kfile" "a" 1 (the_key "file") new_cache eq_refl) as Hf.
  destruct (setupSecretKey (Some (Some "kfile")) "a" 1 new_cache). apply Hf.
Defined.

(** Two replicas that boot a new cache at once both find no key and each make one:
    the second store replaces the first, whose replica signs with a key that no
    later boot uses. *)
Theorem first_boots_diverge :
  let '(found1, w) := load_from_db new_cache in
  let '(store1, w) := migrate_from_store w in
  let '(r2, w) := setupSecretKey None "cache" 2 w in
  let '(r1, w) := generate "cache" 1 w in
  (found1, store1, r2, r1, (setupSecretKey None "cache" 3 w).1) =
  (Ok None, Ok None, Ok (the_key "cache:2"), Ok (the_key "cache:1"), Ok (the_key "cache:1")).
Proof. vm_compute. reflexivity. Qed.

(** Names a cache is refused with. *)
Example bad_hostnames :
  let scheme := λ h, Some (if has_prefix "http:" h then "http" else "") in
  (validateHostname scheme "cache.example", validateHostname scheme "", validateHostname scheme "http://x",
   validateHostname scheme "x/y", (New scheme None "" 1 new_cache).1) =
  (Ok (), Err ErrHostnameRequired, Err ErrHostnameMustNotContainScheme, Err ErrHostnameMustNotContainPath,
   Err ErrHostnameRequired).
Proof. by vm_compute. Qed.
