(* ===== verification/CDC.v ===== *)
(** * Content-defined chunking: storing NARs as chunks and streaming them

    [storeNarWithCDCFromReader] splits a NAR into chunks, puts them into the
    chunk store and links them to the NAR's row in batches; readers stream a
    NAR's chunks when it is complete, or progressively while it is chunked.
    Storing processes and readers interleave step by step; every statement or
    transaction of the database is one step, which may fail without effect.
    A [nar_file] is identified by its key (hash, compression, query) and a chunk
    by its hash, the unique keys of their tables. *)
From S2P Require Import Prelude GoStd.

(** ** The interface of chunk stores *)

Class ChunkStorage := {
  cst : Type;
  blob : cst → string → option string;
  PutChunk : string → string → cst → result unit (bool * Z) * cst;
  GetChunk : string → cst → result unit string * cst;
  DeleteChunk : string → cst → result unit unit * cst;
}.

(** What [chunk.Store] promises: a put keeps what is there, and nothing else
    changes what a hash yields, except that it may be gone after a deletion. *)
Class ChunkStorageLaws (C : ChunkStorage) := {
  PutChunk_law h data s :
    let '(r, s') := PutChunk h data s in
    (∀ h', h' ≠ h → blob s' h' = blob s h') ∧
    (blob s' h = blob s h ∨ blob s h = None ∧ blob s' h = Some data) ∧
    (∀ x, r = Ok x → is_Some (blob s' h));
  GetChunk_law h s :
    let '(r, s') := GetChunk h s in
    (∀ h', blob s' h' = blob s h') ∧ (∀ x, r = Ok x → blob s h = Some x);
  DeleteChunk_law h s :
    let '(_, s') := DeleteChunk h s in
    (∀ h', h' ≠ h → blob s' h' = blob s h') ∧ (blob s' h = blob s h ∨ blob s' h = None);
}.

(** ** The tables *)

Record nar_file := mkNarFile {
  FileSize : Z;
  TotalChunks : nat;
  ChunkingStartedAt : option Z;
}.

(** [chunks] gives a hash its size and compressed size, and [links] is
    [nar_file_chunks]: the hash of the chunk at each index of a NAR. *)
Record database := mkDb {
  nar_files : gmap string nar_file;
  chunks : gmap string (Z * Z);
  links : gmap (string * nat) string;
}.

(** A chunk of [pkg/chunker], with its data. *)
Record Chunk := mkChunk {
  Hash : string;
  Data : string;
  CompressedSize : Z;
}.

Inductive cdc_err :=
  | ErrDb
  | ErrAlreadyExists
  | ErrNotFound
  | ErrStore
  | ErrChunker
  | ErrCanceled
  | ErrTruncated
  | ErrTimeout.

Definition cdcMaxBatchSize : nat := 100.
Definition progressivePollBatchSize : nat := 256.
Definition cdcChunkingLockTTL : Z := 3600.

Definition set_file (key : string) (nr : nar_file) (d : database) : database :=
  mkDb (<[key := nr]> (nar_files d)) (chunks d) (links d).

(** The chunks linked to a NAR. *)
Definition linked_hashes (key : string) (d : database) : list string :=
  remove_dups (omap (λ x, if decide (x.1.1 = key) then Some x.2 else None) (map_to_list (links d))).

Definition is_linked (h : string) (d : database) : bool :=
  existsb (λ x, bool_decide (x.2 = h)) (map_to_list (links d)).

(** [clearStaleCDCChunkingLockWithEntTx] *)
Definition clearStaleCDCChunkingLock (key : string) (nr : nar_file) (d : database) :
    option (list string * database) :=
  if (0 <? TotalChunks nr)%nat || bool_decide (ChunkingStartedAt nr = None) then None else
  Some (linked_hashes key d,
        mkDb (<[key := mkNarFile (FileSize nr) (TotalChunks nr) None]> (nar_files d)) (chunks d)
          (filter (λ x, x.1.1 ≠ key) (links d))).

(** [findOrCreateNarFileForCDC]: the chunks whose links it removed; an error
    rolls the transaction back. *)
Definition findOrCreateNarFileForCDC (now : Z) (key : string) (fileSize : Z) (d : database) :
    result cdc_err (list string) * database :=
  let nr := default (mkNarFile fileSize 0 None) (nar_files d !! key) in
  let nr' := if negb (FileSize nr =? fileSize)%Z && (TotalChunks nr =? 0)%nat
             then mkNarFile fileSize (TotalChunks nr) (ChunkingStartedAt nr) else nr in
  let d' := set_file key nr' d in
  if (0 <? TotalChunks nr)%nat then (Err ErrAlreadyExists, d) else
  let started d := set_file key (mkNarFile (FileSize nr') (TotalChunks nr') (Some now)) d in
  match ChunkingStartedAt nr with
  | Some _ =>
      match clearStaleCDCChunkingLock key nr' d' with
      | None => (Err ErrAlreadyExists, d)
      | Some (stale, d) => (Ok stale, started d)
      end
  | None => (Ok [], started d')
  end.

(** [recordChunkBatch]: chunks and links that are there already are kept. *)
Definition create_chunk (cs : gmap string (Z * Z)) (cm : Chunk) : gmap string (Z * Z) :=
  match cs !! Hash cm with
  | Some _ => cs
  | None => <[Hash cm := (Z.of_nat (String.length (Data cm)), CompressedSize cm)]> cs
  end.

Fixpoint create_links (key : string) (startIndex : nat) (batch : list Chunk)
    (ls : gmap (string * nat) string) : gmap (string * nat) string :=
  match batch with
  | [] => ls
  | cm :: batch =>
      create_links key (S startIndex) batch
        match ls !! (key, startIndex) with
        | Some _ => ls
        | None => <[(key, startIndex) := Hash cm]> ls
        end
  end.

Definition recordChunkBatch (key : string) (startIndex : nat) (batch : list Chunk) (d : database) : database :=
  mkDb (nar_files d) (foldl create_chunk (chunks d) batch) (create_links key startIndex batch (links d)).

(** The update that completes a NAR, and the one after a failure; [None] when
    there is no row. *)
Definition mark_complete (key : string) (total : nat) (size : Z) (d : database) : option database :=
  match nar_files d !! key with
  | Some _ => Some (set_file key (mkNarFile size total None) d)
  | None => None
  end.

Definition clear_started (key : string) (d : database) : database :=
  match nar_files d !! key with
  | Some nr => set_file key (mkNarFile (FileSize nr) (TotalChunks nr) None) d
  | None => d
  end.

(** The links of a NAR from an index on, in their order. *)
Definition link_bound (key : string) (d : database) : nat :=
  foldr (λ x b, if decide (x.1.1 = key) then max (S x.1.2) b else b) 0 (map_to_list (links d)).

Definition query_links (key : string) (from : nat) (d : database) : list string :=
  omap (λ i, links d !! (key, i)) (seq from (link_bound key d - from)).

(** ** Storing *)

(** [storeNarWithCDCFromReader] between its steps. *)
Inductive store_pc :=
  | SFind
  | SStale (stale : list string)
  | SDelRow (orphans : list string)
  | SDelFile (h : string) (orphans : list string)
  | SLoop
  | SFlush
  | SMark
  | SFail (e : cdc_err)
  | SRet (r : result cdc_err unit).

(** The chunks the chunker still sends, and whether it then ends in an error; the
    batch, and the counters of chunks and bytes. *)
Record storer := mkStorer {
  s_key : string;
  s_fileSize : Z;
  s_coming : list string;
  s_fails : bool;
  s_batch : list Chunk;
  s_count : nat;
  s_total : Z;
  s_pc : store_pc;
}.

Definition at_pc (p : store_pc) (s : storer) : storer :=
  mkStorer (s_key s) (s_fileSize s) (s_coming s) (s_fails s) (s_batch s) (s_count s) (s_total s) p.

(** The batch is recorded. *)
Definition flushed (p : store_pc) (s : storer) : storer :=
  mkStorer (s_key s) (s_fileSize s) (s_coming s) (s_fails s) [] (s_count s + length (s_batch s)) (s_total s) p.

(** What the [select] of the loop receives. *)
Inductive choice := CChunk | CClosed | CErr | CTimer | CDone.

Section cdc.
Context {C : ChunkStorage}.

(** BLAKE3, in hexadecimal. *)
Context (H : string → string).

(** One round of the loop. *)
Definition loop_step (ch : choice) (s : storer) (d : database) (c : cst) :
    option (storer * database * cst) :=
  match ch with
  | CDone => Some (at_pc (SFail ErrCanceled) s, d, c)
  | CErr =>
      match s_coming s with
      | [] => if s_fails s then Some (at_pc (SFail ErrChunker) s, d, c) else None
      | _ :: _ => None
      end
  | CTimer => Some (at_pc (if bool_decide (s_batch s = []) then SLoop else SFlush) s, d, c)
  | CClosed =>
      match s_coming s with
      | [] => Some (flushed SMark s, recordChunkBatch (s_key s) (s_count s) (s_batch s) d, c)
      | _ :: _ => None
      end
  | CChunk =>
      match s_coming s with
      | [] => None
      | data :: coming =>
          let '(r, c) := PutChunk (H data) data c in
          match r with
          | Err _ => Some (at_pc (SFail ErrStore) s, d, c)
          | Ok (_, compressedSize) =>
              let batch := s_batch s ++ [mkChunk (H data) data compressedSize] in
              Some (mkStorer (s_key s) (s_fileSize s) coming (s_fails s) batch (s_count s)
                      (s_total s + Z.of_nat (String.length data))
                      (if (cdcMaxBatchSize <=? length batch)%nat then SFlush else SLoop), d, c)
          end
      end
  end.

(** [cleanupStaleLockChunks]: the query for the orphans, then for each of them the
    deletion of its row, if nothing links it, and of its file. *)
Definition cleanup_step (fault : bool) (s : storer) (d : database) (c : cst) :
    option (storer * database * cst) :=
  match s_pc s with
  | SStale stale =>
      if fault then Some (at_pc SLoop s, d, c)
      else Some (at_pc (SDelRow (filter (λ h, is_Some (chunks d !! h) ∧ is_linked h d = false) stale)) s, d, c)
  | SDelRow [] => Some (at_pc SLoop s, d, c)
  | SDelRow (h :: orphans) =>
      if fault || is_linked h d || bool_decide (chunks d !! h = None)
      then Some (at_pc (SDelRow orphans) s, d, c)
      else Some (at_pc (SDelFile h orphans) s, mkDb (nar_files d) (delete h (chunks d)) (links d), c)
  | SDelFile h orphans =>
      let '(_, c) := DeleteChunk h c in Some (at_pc (SDelRow orphans) s, d, c)
  | _ => None
  end.

(** One step of [storeNarWithCDCFromReader]; [fault]: the statement fails. *)
Definition storer_step (now : Z) (fault : bool) (ch : choice) (s : storer) (d : database) (c : cst) :
    option (storer * database * cst) :=
  match s_pc s with
  | SFind =>
      if fault then Some (at_pc (SRet (Err ErrDb)) s, d, c) else
      match findOrCreateNarFileForCDC now (s_key s) (s_fileSize s) d with
      | (Err ErrAlreadyExists, d) => Some (at_pc (SRet (Ok ())) s, d, c)
      | (Err e, d) => Some (at_pc (SRet (Err e)) s, d, c)
      | (Ok [], d) => Some (at_pc SLoop s, d, c)
      | (Ok stale, d) => Some (at_pc (SStale stale) s, d, c)
      end
  | SStale _ | SDelRow _ | SDelFile _ _ => cleanup_step fault s d c
  | SLoop =>
      match ch, fault with
      | CClosed, true => match s_coming s with [] => Some (at_pc (SFail ErrDb) s, d, c) | _ :: _ => None end
      | _, _ => loop_step ch s d c
      end
  | SFlush =>
      if fault then Some (at_pc (SFail ErrDb) s, d, c)
      else Some (flushed SLoop s, recordChunkBatch (s_key s) (s_count s) (s_batch s) d, c)
  | SMark =>
      if (0 <? s_fileSize s)%Z && negb (s_total s =? s_fileSize s)%Z
      then Some (at_pc (SFail ErrTruncated) s, d, c)
      else match (if fault then None else mark_complete (s_key s) (s_count s) (s_total s) d) with
           | Some d => Some (at_pc (SRet (Ok ())) s, d, c)
           | None => Some (at_pc (SFail ErrDb) s, d, c)
           end
  | SFail e => Some (at_pc (SRet (Err e)) s, if fault then d else clear_started (s_key s) d, c)
  | SRet _ => None
  end.

(** ** Streaming *)

(** What comes after the chunks of a query: the end ([streamCompleteChunks]),
    the outer loop, or the loop that waits. *)
Inductive feed_next := FComplete | FOuter | FInner.

Inductive read_pc :=
  | GInit
  | CQuery
  | PBatch
  | PRow
  | PSleep
  | PBatch2
  | PRow2
  | Feed (l : list string) (next : feed_next)
  | REnd (r : result cdc_err unit).

(** [getNarFromChunks] and its goroutine: the next index, the total once it is
    known (0 before), what the client has received, and whether the context is done. *)
Record reader := mkReaderState {
  r_key : string;
  r_index : nat;
  r_total : nat;
  r_out : string;
  r_canceled : bool;
  r_pc : read_pc;
}.

Definition goto (p : read_pc) (r : reader) : reader :=
  mkReaderState (r_key r) (r_index r) (r_total r) (r_out r) (r_canceled r) p.
Definition set_total (n : nat) (p : read_pc) (r : reader) : reader :=
  mkReaderState (r_key r) (r_index r) n (r_out r) (r_canceled r) p.
Definition cancel (r : reader) : reader :=
  mkReaderState (r_key r) (r_index r) (r_total r) (r_out r) true (r_pc r).

(** What a step meets: nothing, a statement that fails, a wait that is over its bound,
    the context done, if it is ([reported]: an error about it is sent before the channel
    of chunks is closed). *)
Inductive hazard := Fine | Failed | TimedOut | Done (reported : bool).

(** The context is done, and the step notices. *)
Definition noticed (hz : hazard) (r : reader) : bool := match hz with Done _ => r_canceled r | _ => false end.

(** The total is known and reached. *)
Definition all_streamed (r : reader) : bool := (0 <? r_total r)%nat && (r_total r <=? r_index r)%nat.

(** Chunking was given up, or its process is gone. *)
Definition producer_gone (now : Z) (nr : nar_file) : bool :=
  match ChunkingStartedAt nr with
  | None => true
  | Some t => (cdcChunkingLockTTL <? now - t)%Z
  end.

(** The goroutine's fetches, one chunk per step.  When the context is done the goroutine
    closes its channel, and may or may not have sent an error before: without one the
    consumer's loop is over and the pipe is closed without an error. *)
Definition feed_step (hz : hazard) (r : reader) (l : list string) (next : feed_next) (c : cst) : reader * cst :=
  match l with
  | [] =>
      (match next with
       | FComplete => goto (REnd (Ok ())) r
       | FOuter | FInner => goto (if all_streamed r then REnd (Ok ()) else PBatch) r
       end, c)
  | h :: l =>
      match hz with
      | Done reported =>
          if r_canceled r then (goto (REnd (if reported then Err ErrCanceled else Ok ())) r, c) else (r, c)
      | Failed => (goto (REnd (Err ErrStore)) r, c)
      | Fine | TimedOut =>
          let '(x, c) := GetChunk h c in
          (match x with
           | Err _ => goto (REnd (Err ErrStore)) r
           | Ok data => mkReaderState (r_key r) (S (r_index r)) (r_total r) (r_out r +:+ data) (r_canceled r) (Feed l next)
           end, c)
      end
  end.

(** [getNarFromChunks], to the start of its goroutine. *)
Definition init_step (r : reader) (d : database) : reader :=
  match nar_files d !! r_key r with
  | None => goto (REnd (Err ErrNotFound)) r
  | Some nr =>
      if (0 <? TotalChunks nr)%nat then
        if bool_decide (length (query_links (r_key r) 0 d) = TotalChunks nr)
        then set_total (TotalChunks nr) CQuery r
        else goto (REnd (Err ErrNotFound)) r
      else goto PBatch r
  end.

(** [streamCompleteChunks], to its stream. *)
Definition complete_step (r : reader) (d : database) : reader :=
  let hashes := query_links (r_key r) 0 d in
  if bool_decide (length hashes = r_total r) then goto (Feed hashes FComplete) r
  else goto (REnd (Err ErrNotFound)) r.

(** The outer loop of [streamProgressiveChunks]. *)
Definition progressive_step (now : Z) (r : reader) (d : database) : reader :=
  match r_pc r with
  | PBatch =>
      match take progressivePollBatchSize (query_links (r_key r) (r_index r) d) with
      | [] => if (r_total r =? 0)%nat then goto PRow r
              else goto (if all_streamed r then REnd (Ok ()) else PSleep) r
      | batch => goto (Feed batch FOuter) r
      end
  | PRow =>
      match nar_files d !! r_key r with
      | None => goto (REnd (Err ErrDb)) r
      | Some nr =>
          let r := set_total (TotalChunks nr) PRow r in
          if (TotalChunks nr =? 0)%nat && producer_gone now nr then goto (REnd (Err ErrNotFound)) r
          else goto (if all_streamed r then REnd (Ok ()) else PSleep) r
      end
  | _ => r
  end.

(** Its loop that waits for the next chunk; [timeout]: the per-chunk bound has
    passed. *)
Definition wait_step (now : Z) (timeout : bool) (r : reader) (d : database) : reader :=
  match r_pc r with
  | PSleep => goto PBatch2 r
  | PBatch2 =>
      match take progressivePollBatchSize (query_links (r_key r) (r_index r) d) with
      | [] => goto PRow2 r
      | batch => goto (Feed batch FInner) r
      end
  | PRow2 =>
      match nar_files d !! r_key r with
      | None => goto (REnd (Err ErrDb)) r
      | Some nr =>
          if (0 <? TotalChunks nr)%nat then
            let r := set_total (TotalChunks nr) PRow2 r in
            goto (if (r_total r <=? r_index r)%nat then REnd (Ok ()) else PBatch) r
          else if producer_gone now nr then goto (REnd (Err ErrNotFound)) r
          else goto (if timeout then REnd (Err ErrTimeout) else PSleep) r
      end
  | _ => r
  end.

(** Where a statement runs, which fails when the context is done; and where a [select]
    sends the context's error. *)
Definition in_statement (p : read_pc) : bool :=
  match p with GInit | CQuery | PBatch | PRow | PBatch2 | PRow2 => true | PSleep | Feed _ _ | REnd _ => false end.
Definition at_select (p : read_pc) : bool := match p with PBatch | PSleep => true | _ => false end.

(** One step of a reader. *)
Definition reader_step (now : Z) (hz : hazard) (r : reader) (d : database) (c : cst) : reader * cst :=
  if noticed hz r && at_select (r_pc r) then (goto (REnd (Err ErrCanceled)) r, c) else
  if (noticed hz r || match hz with Failed => true | _ => false end) && in_statement (r_pc r)
  then (goto (REnd (Err ErrDb)) r, c) else
  match r_pc r with
  | GInit => (init_step r d, c)
  | CQuery => (complete_step r d, c)
  | PBatch | PRow => (progressive_step now r d, c)
  | PSleep | PBatch2 | PRow2 => (wait_step now (match hz with TimedOut => true | _ => false end) r d, c)
  | Feed l next => feed_step hz r l next c
  | REnd _ => (r, c)
  end.

(** ** Interleaving *)

Record sys := mkSys {
  db : database;
  store : cst;
  clock : Z;
  storers : gmap nat storer;
  readers : gmap nat reader;
}.

Inductive event :=
  | ETick (now : Z)
  | EStore (t : nat) (key : string) (fileSize : Z) (coming : list string) (fails : bool)
  | EStep (t : nat) (fault : bool) (ch : choice)
  | EKill (t : nat)
  | EOpen (t : nat) (key : string)
  | ECancel (t : nat)
  | ERead (t : nat) (hz : hazard).

(** A storing process still runs on the key. *)
Definition running (key : string) (s : storer) : bool :=
  bool_decide (s_key s = key) && match s_pc s with SRet _ => false | _ => true end.

(** The per-hash migration lock lets one process store a NAR at a time; a
    process may die at any step. *)
Definition apply_event (e : event) (s : sys) : option sys :=
  match e with
  | ETick now => Some (mkSys (db s) (store s) now (storers s) (readers s))
  | EStore t key fileSize coming fails =>
      if bool_decide (storers s !! t = None :> option storer) &&
         negb (existsb (λ x, running key x.2) (map_to_list (storers s)))
      then Some (mkSys (db s) (store s) (clock s)
             (<[t := mkStorer key fileSize coming fails [] 0 0 SFind]> (storers s)) (readers s))
      else None
  | EStep t fault ch =>
      p ← storers s !! t;
      '(p, d, c) ← storer_step (clock s) fault ch p (db s) (store s);
      Some (mkSys d c (clock s) (<[t := p]> (storers s)) (readers s))
  | EKill t => Some (mkSys (db s) (store s) (clock s) (delete t (storers s)) (readers s))
  | EOpen t key =>
      Some (mkSys (db s) (store s) (clock s) (storers s)
        (<[t := mkReaderState key 0 0 "" false GInit]> (readers s)))
  | ECancel t =>
      r ← readers s !! t;
      Some (mkSys (db s) (store s) (clock s) (storers s) (<[t := cancel r]> (readers s)))
  | ERead t hz =>
      r ← readers s !! t;
      let '(r, c) := reader_step (clock s) hz r (db s) (store s) in
      Some (mkSys (db s) c (clock s) (storers s) (<[t := r]> (readers s)))
  end.

Fixpoint run_events (es : list event) (s : sys) : option sys :=
  match es with
  | [] => Some s
  | e :: es => s' ← apply_event e s; run_events es s'
  end.
End cdc.

(** ** Lemmas on the links *)

Lemma create_links_lookup key start batch ls k i :
  create_links key start batch ls !! (k, i) =
    match ls !! (k, i) with
    | Some h => Some h
    | None => if decide (k = key ∧ start ≤ i) then Hash <$> batch !! (i - start) else None
    end.
Proof.
  revert start ls. induction batch as [|cm batch IH]; intros start ls; simpl.
  { destruct (ls !! (k, i)); [done|]. by destruct (decide _). }
  rewrite IH. destruct (decide ((key, start) = (k, i))) as [[= -> ->]|Hne].
  - destruct (ls !! (k, i)) as [h|] eqn:Hl; [by rewrite Hl|].
    rewrite lookup_insert_eq, decide_True by done. by rewrite Nat.sub_diag.
  - assert ((match ls !! (key, start) with Some _ => ls | None => <[(key, start):=Hash cm]> ls end) !! (k, i)
      = ls !! (k, i)) as ->.
    { destruct (ls !! (key, start)); [done|]. by rewrite lookup_insert_ne. }
    destruct (ls !! (k, i)); [done|]. destruct (decide (k = key ∧ S start ≤ i)) as [[-> ?]|Hn].
    + rewrite decide_True by (split; [done|lia]). by replace (i - start) with (S (i - S start)) by lia.
    + rewrite decide_False; [done|]. intros [-> ?]. apply Hn. split; [done|].
      assert (i ≠ start) by congruence. lia.
Qed.

Lemma omap_seq_lookup {A} (f : nat → option A) a n j x :
  (∀ i k, k ≤ i → is_Some (f i) → is_Some (f k)) →
  omap f (seq a n) !! j = Some x → f (a + j) = Some x.
Proof.
  intros Hf. revert a j. induction n as [|n IH]; intros a j; simpl; [done|].
  destruct (f a) as [y|] eqn:Ha; simpl.
  - destruct j as [|j]; simpl; [intros [= ->]; by rewrite Nat.add_0_r|].
    intros Hx. rewrite <- Nat.add_succ_comm. by apply IH.
  - intros Hx. apply IH in Hx. assert (is_Some (f a)) as [? ?]; [|congruence].
    apply (Hf (S a + j)); [lia|by eexists].
Qed.

Lemma query_links_lookup key from d j h :
  (∀ i k, k ≤ i → is_Some (links d !! (key, i)) → is_Some (links d !! (key, k))) →
  query_links key from d !! j = Some h → links d !! (key, from + j) = Some h.
Proof. intros Hc. by apply (omap_seq_lookup (λ i, links d !! (key, i))). Qed.

Lemma link_bound_le key d i : is_Some (links d !! (key, i)) → i < link_bound key d.
Proof.
  intros [h Hh]. unfold link_bound. apply elem_of_map_to_list in Hh.
  induction (map_to_list (links d)) as [|[[k j] h'] l IH]; [by apply elem_of_nil in Hh|].
  cbn [foldr fst snd]. apply elem_of_cons in Hh as [[= <- <- <-]|Hin].
  - rewrite decide_True by done. lia.
  - specialize (IH Hin). destruct (decide _); lia.
Qed.

(** The bytes of a list of chunks. *)
Definition joined (l : list string) : string := foldr String.append "" l.

Lemma joined_app l l' : joined (l ++ l') = joined l +:+ joined l'.
Proof. induction l as [|y l IH]; simpl; [done|]. by rewrite IH, str_app_assoc. Qed.

Lemma joined_snoc l x : joined (l ++ [x]) = joined l +:+ x.
Proof. rewrite joined_app. simpl. by rewrite str_app_nil_r. Qed.

Lemma joined_take_S (l : list string) i x : l !! i = Some x → joined (take (S i) l) = joined (take i l) +:+ x.
Proof. intros Hx. by rewrite (take_S_r _ _ _ Hx), joined_snoc. Qed.

(** ** The invariant *)

Section safety.
Context {C : ChunkStorage} {CL : ChunkStorageLaws C}.
Context (H : string → string) {H_inj : Inj (=) (=) H}.

(** The chunks of each NAR. *)
Context (parts : string → list string).

Definition chunk_at (key : string) (i : nat) (h : string) : Prop :=
  ∃ x, parts key !! i = Some x ∧ h = H x.

Definition linked (d : database) (key : string) (i : nat) : Prop := is_Some (links d !! (key, i)).

Record tables_ok (d : database) : Prop := {
  ok_links key i h : links d !! (key, i) = Some h → chunk_at key i h;
  ok_contig key i j : j ≤ i → linked d key i → linked d key j;
  ok_rows key nr : nar_files d !! key = Some nr → 0 < TotalChunks nr →
    TotalChunks nr = length (parts key) ∧ ∀ i, i < TotalChunks nr → linked d key i;
}.

Definition store_ok (c : cst) : Prop := ∀ h x, blob c h = Some x → h = H x.

Definition batch_ok (s : storer) : Prop := ∀ j cm, s_batch s !! j = Some cm →
  parts (s_key s) !! (s_count s + j) = Some (Data cm) ∧ Hash cm = H (Data cm).

(** A storing process has recorded the first chunks and holds the next ones. *)
Definition storer_ok (d : database) (s : storer) : Prop :=
  match s_pc s with
  | SFail _ | SRet _ => True
  | p =>
      s_fails s = false ∧
      s_coming s = drop (s_count s + length (s_batch s)) (parts (s_key s)) ∧ batch_ok s ∧
      match p with
      | SFind => s_count s = 0
      | SMark => s_batch s = [] ∧ s_coming s = [] ∧ ∀ i, i < s_count s → linked d (s_key s) i
      | _ => ∀ i, i < s_count s → linked d (s_key s) i
      end
  end.

Definition reader_ok (r : reader) : Prop :=
  r_out r = joined (take (r_index r) (parts (r_key r))) ∧
  (r_total r ≠ 0 → r_total r = length (parts (r_key r))) ∧
  match r_pc r with
  | GInit => r_index r = 0
  | CQuery => r_index r = 0 ∧ r_total r = length (parts (r_key r))
  | Feed l next =>
      (∀ j h, l !! j = Some h → chunk_at (r_key r) (r_index r + j) h) ∧
      (next = FComplete → r_index r + length l = length (parts (r_key r)))
  | REnd (Ok _) => r_canceled r = true ∨ length (parts (r_key r)) ≤ r_index r
  | _ => True
  end.

Record inv (s : sys) : Prop := {
  iv_tables : tables_ok (db s);
  iv_store : store_ok (store s);
  iv_storers t p : storers s !! t = Some p → storer_ok (db s) p;
  iv_unique t1 t2 p1 p2 key : storers s !! t1 = Some p1 → storers s !! t2 = Some p2 →
    running key p1 = true → running key p2 = true → t1 = t2;
  iv_readers t r : readers s !! t = Some r → reader_ok r;
}.

(** *** Storing *)

Lemma count_le d s : tables_ok d → (∀ i, i < s_count s → linked d (s_key s) i) →
  s_count s ≤ length (parts (s_key s)).
Proof.
  intros Hd Hl. destruct (s_count s) as [|n]; [lia|].
  destruct (Hl n) as [h Hh]; [lia|]. apply (ok_links _ Hd) in Hh as (x & Hx & _).
  apply lookup_lt_Some in Hx. lia.
Qed.

Lemma record_linked d key start batch k i :
  linked (recordChunkBatch key start batch d) k i ↔
    linked d k i ∨ k = key ∧ start ≤ i < start + length batch.
Proof.
  unfold linked, recordChunkBatch. simpl. rewrite create_links_lookup.
  destruct (links d !! (k, i)) as [h|]; [naive_solver|].
  destruct (decide _) as [[-> Hle]|Hn].
  - rewrite fmap_is_Some, lookup_lt_is_Some. split; [right; split; [done|lia]|].
    intros [[]%is_Some_None|[_ ?]]. lia.
  - split; [by intros []%is_Some_None|]. intros [?|[-> ?]]; [done|]. destruct Hn. split; [done|lia].
Qed.

Lemma record_ok d s : tables_ok d → batch_ok s → (∀ i, i < s_count s → linked d (s_key s) i) →
  tables_ok (recordChunkBatch (s_key s) (s_count s) (s_batch s) d).
Proof.
  intros Hd Hb Hl. split.
  - intros key i h. unfold recordChunkBatch. simpl. rewrite create_links_lookup.
    destruct (links d !! (key, i)) as [h'|] eqn:Hh; [intros [= <-]; by apply (ok_links _ Hd)|].
    destruct (decide _) as [[-> Hle]|]; [|done].
    intros (cm & Hcm & ->)%fmap_Some. destruct (Hb _ _ Hcm) as [Hp Hh'].
    exists (Data cm). split; [|done]. by replace (s_count s + (i - s_count s)) with i in Hp by lia.
  - intros key i j Hj. rewrite !record_linked. intros [Hi|[-> Hi]]; [left; by apply (ok_contig _ Hd key i)|].
    destruct (decide (s_count s ≤ j)); [right; split; [done|lia]|]. left. apply Hl. lia.
  - intros key nr Hnr Ht. destruct (ok_rows _ Hd key nr Hnr Ht) as [Hn Hi]. split; [done|].
    intros i Hlt. apply record_linked. left. by apply Hi.
Qed.

(** What a process does to the tables, seen by another process. *)
Definition tables_grow (key : string) (d d' : database) : Prop :=
  ∀ k i, k ≠ key → linked d k i → linked d' k i.

Lemma tables_grow_refl key d : tables_grow key d d.
Proof. by intros k i _. Qed.

Hint Resolve tables_grow_refl : core.

Lemma clear_ok d key : tables_ok d → (∀ nr, nar_files d !! key = Some nr → TotalChunks nr = 0) →
  ∀ nr', TotalChunks nr' = 0 → ∀ cs,
  tables_ok (mkDb (<[key := nr']> (nar_files d)) cs (filter (λ x, x.1.1 ≠ key) (links d))).
Proof.
  intros Hd Hz nr' Hnr' cs.
  assert (∀ k i, linked (mkDb (<[key := nr']> (nar_files d)) cs (filter (λ x, x.1.1 ≠ key) (links d))) k i ↔
    k ≠ key ∧ linked d k i) as Hlk.
  { intros k i. unfold linked. simpl. unfold is_Some. setoid_rewrite map_lookup_filter_Some. naive_solver. }
  split; simpl.
  - intros k i h [Hh _]%map_lookup_filter_Some. by apply (ok_links _ Hd).
  - intros k i j Hj. rewrite !Hlk. intros [Hne Hi]. split; [done|]. by apply (ok_contig _ Hd k i).
  - intros k nr. destruct (decide (key = k)) as [<-|Hne].
    + rewrite lookup_insert_eq. intros [= <-]. lia.
    + rewrite lookup_insert_ne by done. intros Hk Ht. destruct (ok_rows _ Hd k nr Hk Ht) as [? Hi].
      split; [done|]. intros i Hlt. apply Hlk. split; [done|by apply Hi].
Qed.

Lemma set_file_ok d key nr : tables_ok d → TotalChunks nr = 0 → tables_ok (set_file key nr d).
Proof.
  intros Hd Hz. split; simpl; [apply (ok_links _ Hd)|apply (ok_contig _ Hd)|].
  intros k nr0. destruct (decide (key = k)) as [<-|Hne].
  - rewrite lookup_insert_eq. intros [= <-]. lia.
  - rewrite lookup_insert_ne by done. apply (ok_rows _ Hd).
Qed.

Lemma find_ok now key size d r d' : tables_ok d → findOrCreateNarFileForCDC now key size d = (r, d') →
  tables_ok d' ∧ tables_grow key d d'.
Proof.
  intros Hd. unfold findOrCreateNarFileForCDC. set (nr := default _ _).
  destruct (0 <? TotalChunks nr)%nat eqn:Ht; [intros [= <- <-]; auto|]. apply Nat.ltb_ge in Ht.
  assert (TotalChunks nr = 0) as Hz by lia. set (nr' := if negb _ && _ then _ else _).
  assert (TotalChunks nr' = 0) as Hz' by (unfold nr'; destruct (negb _ && _); done).
  destruct (ChunkingStartedAt nr) eqn:Hst; [|intros [= <- <-]; split; [apply set_file_ok; [by apply set_file_ok|done]|by intros k i _]].
  unfold clearStaleCDCChunkingLock. destruct (_ || _); intros [= <- <-]; [by auto|].
  split.
  - unfold set_file. cbn [nar_files chunks links].
    assert (tables_ok (mkDb (<[key := mkNarFile (FileSize nr') (TotalChunks nr') (Some now)]> (nar_files d))
      (chunks d) (filter (λ x, x.1.1 ≠ key) (links d)))) as Hok.
    { apply clear_ok; [done| |done]. intros x Hx. unfold nr in Hz. by rewrite Hx in Hz. }
    rewrite !insert_insert_eq. exact Hok.
  - intros k i Hne [h Hh]. exists h. simpl. by apply map_lookup_filter_Some.
Qed.

Lemma clear_started_ok d key : tables_ok d → tables_ok (clear_started key d).
Proof.
  intros Hd. unfold clear_started. destruct (nar_files d !! key) as [nr|] eqn:Hnr; [|done].
  split; simpl; [apply (ok_links _ Hd)|apply (ok_contig _ Hd)|].
  intros k nr0. destruct (decide (key = k)) as [<-|Hne].
  - rewrite lookup_insert_eq. intros [= <-]. exact (ok_rows _ Hd key nr Hnr).
  - rewrite lookup_insert_ne by done. apply (ok_rows _ Hd).
Qed.

Lemma mark_ok d s d' : tables_ok d → s_coming s = [] → s_batch s = [] →
  s_coming s = drop (s_count s + length (s_batch s)) (parts (s_key s)) →
  (∀ i, i < s_count s → linked d (s_key s) i) →
  mark_complete (s_key s) (s_count s) (s_total s) d = Some d' → tables_ok d'.
Proof.
  intros Hd Hc Hb Hdrop Hl. pose proof (count_le d s Hd Hl) as Hle.
  assert (s_count s = length (parts (s_key s))) as Hn.
  { rewrite Hc, Hb in Hdrop. simpl in Hdrop. rewrite Nat.add_0_r in Hdrop.
    assert (length (drop (s_count s) (parts (s_key s))) = 0) as Hz by (by rewrite <- Hdrop).
    rewrite length_drop in Hz. lia. }
  unfold mark_complete. destruct (nar_files d !! s_key s) as [nr|]; [|done]. intros [= <-].
  split; simpl; [apply (ok_links _ Hd)|apply (ok_contig _ Hd)|].
  intros k nr0. destruct (decide (s_key s = k)) as [<-|Hne].
  - rewrite lookup_insert_eq. intros [= <-] _. by split.
  - rewrite lookup_insert_ne by done. apply (ok_rows _ Hd).
Qed.

Lemma PutChunk_ok x c r c' : store_ok c → PutChunk (H x) x c = (r, c') → store_ok c'.
Proof.
  intros Hc Hp. pose proof (PutChunk_law (H x) x c) as Hlaw. rewrite Hp in Hlaw.
  destruct Hlaw as (Ho & Hs & _). intros h y Hy. destruct (decide (h = H x)) as [->|Hne].
  - destruct Hs as [Hs|[_ Hs]]; rewrite Hs in Hy; [by apply Hc|congruence].
  - rewrite Ho in Hy by done. by apply Hc.
Qed.

Lemma DeleteChunk_ok h c r c' : store_ok c → DeleteChunk h c = (r, c') → store_ok c'.
Proof.
  intros Hc Hp. pose proof (DeleteChunk_law h c) as Hlaw. rewrite Hp in Hlaw.
  destruct Hlaw as (Ho & Hs). intros k y Hy. destruct (decide (k = h)) as [->|Hne].
  - destruct Hs as [Hs|Hs]; rewrite Hs in Hy; [by apply Hc|done].
  - rewrite Ho in Hy by done. by apply Hc.
Qed.

(** Recording the batch moves the process on. *)
Lemma flushed_ok p d s : tables_ok d → s_fails s = false →
  s_coming s = drop (s_count s + length (s_batch s)) (parts (s_key s)) → batch_ok s →
  (∀ i, i < s_count s → linked d (s_key s) i) → (p = SLoop ∨ p = SMark ∧ s_coming s = []) →
  let d' := recordChunkBatch (s_key s) (s_count s) (s_batch s) d in
  tables_ok d' ∧ storer_ok d' (flushed p s) ∧ tables_grow (s_key s) d d'.
Proof.
  intros Hd Hf Hc Hb Hl Hp d'. split; [by apply record_ok|]. split.
  - assert (∀ i, i < s_count s + length (s_batch s) → linked d' (s_key s) i) as Hall.
    { intros i Hi. apply record_linked. destruct (decide (i < s_count s)); [left; auto|right; split; [done|lia]]. }
    assert (batch_ok (flushed p s)) by (by intros j cm Hj).
    unfold storer_ok, flushed. destruct Hp as [-> | [-> Hnil]]; simpl; rewrite Nat.add_0_r; split_and!; done.
  - intros k i _ Hi. apply record_linked. by left.
Qed.

Lemma batch_snoc s x csz :
  batch_ok s →
  parts (s_key s) !! (s_count s + length (s_batch s)) = Some x →
  ∀ coming total p, batch_ok (mkStorer (s_key s) (s_fileSize s) coming (s_fails s)
    (s_batch s ++ [mkChunk (H x) x csz]) (s_count s) total p).
Proof.
  intros Hb Hx coming total p j cm. simpl. intros [Hj|[Hj Hcm]]%lookup_app_Some; [by apply Hb|].
  apply list_lookup_singleton_Some in Hcm as [Hj0 <-]. simpl.
  by replace j with (length (s_batch s)) by lia.
Qed.

Lemma loop_step_ok ch s d c s' d' c' :
  tables_ok d → store_ok c → s_pc s = SLoop → storer_ok d s →
  loop_step H ch s d c = Some (s', d', c') →
  tables_ok d' ∧ store_ok c' ∧ storer_ok d' s' ∧ tables_grow (s_key s) d d' ∧ s_key s' = s_key s.
Proof.
  intros Hd Hc Hpc Hs. unfold storer_ok in Hs. rewrite Hpc in Hs. destruct Hs as (Hf & Hcom & Hb & Hl).
  destruct ch; cbn [loop_step].
  - destruct (s_coming s) as [|x coming] eqn:Hx; [done|].
    destruct (PutChunk (H x) x c) as [r c1] eqn:Hput. pose proof (PutChunk_ok x c r c1 Hc Hput) as Hc1.
    destruct r as [[new sz]|e]; [|intros [= <- <- <-]; by split_and!; auto].
    set (full := (cdcMaxBatchSize <=? _)%nat). clearbody full. intros [= <- <- <-].
    assert (parts (s_key s) !! (s_count s + length (s_batch s)) = Some x) as Hat.
    { replace (s_count s + length (s_batch s)) with (s_count s + length (s_batch s) + 0) by lia.
      rewrite <- lookup_drop, <- Hcom. done. }
    split_and!; auto. destruct full; unfold storer_ok; cbn [s_pc];
      set (s1 := mkStorer _ _ _ _ _ _ _ _);
      (assert (s_coming s1 = drop (s_count s1 + length (s_batch s1)) (parts (s_key s1))) as Hcom1;
       [ simpl; rewrite length_app; simpl;
         replace (s_count s + (length (s_batch s) + 1)) with ((s_count s + length (s_batch s)) + 1) by lia;
         by rewrite <- drop_drop, <- Hcom
       | split_and!; [done|done|by eapply batch_snoc|done] ]).
  - destruct (s_coming s) as [|x coming] eqn:Hx; [|done]. intros [= <- <- <-].
    destruct (flushed_ok SMark d s Hd Hf) as (? & ? & ?); [congruence|done|done|by right|].
    split_and!; done.
  - destruct (s_coming s); [|done]. destruct (s_fails s); [done|]. done.
  - intros [= <- <- <-]. split_and!; auto. unfold storer_ok. simpl.
    by destruct (bool_decide _).
  - intros [= <- <- <-]. split_and!; auto. done.
Qed.

Lemma storer_step_ok now fault ch s d c s' d' c' :
  tables_ok d → store_ok c → storer_ok d s →
  storer_step H now fault ch s d c = Some (s', d', c') →
  tables_ok d' ∧ store_ok c' ∧ storer_ok d' s' ∧ tables_grow (s_key s) d d' ∧ s_key s' = s_key s.
Proof.
  intros Hd Hc Hs. unfold storer_step, cleanup_step. destruct (s_pc s) as [|stale|orphans|h orphans| | | |e|r] eqn:Hpc; [..|done].
  - destruct fault; [intros [= <- <- <-]; by split_and!; auto|].
    destruct (findOrCreateNarFileForCDC _ _ _ _) as [r d1] eqn:Hfind.
    destruct (find_ok _ _ _ _ _ _ Hd Hfind) as [Hd1 Hg].
    unfold storer_ok in Hs. rewrite Hpc in Hs. destruct Hs as (Hf & Hcom & Hb & Hz).
    assert (∀ i, i < s_count s → linked d1 (s_key s) i) by (intros i; lia).
    destruct r as [[|x l]|[]]; intros [= <- <- <-]; split_and!; auto; done.
  - unfold storer_ok in Hs. rewrite Hpc in Hs.
    destruct fault; intros [= <- <- <-]; split_and!; auto; done.
  - unfold storer_ok in Hs. rewrite Hpc in Hs. destruct orphans as [|h orphans].
    + intros [= <- <- <-]. by split_and!; auto.
    + destruct (_ || _ || _); intros [= <- <- <-]; [by split_and!; auto|].
      split_and!; [by destruct Hd; split|done|done|by intros k i _|done].
  - unfold storer_ok in Hs. rewrite Hpc in Hs. destruct (DeleteChunk h c) as [r c1] eqn:Hdel.
    intros [= <- <- <-]. split_and!; auto. by eapply DeleteChunk_ok.
  - assert (loop_step H ch s d c = Some (s', d', c') → tables_ok d' ∧ store_ok c' ∧ storer_ok d' s' ∧
      tables_grow (s_key s) d d' ∧ s_key s' = s_key s) as Hgo by (by apply loop_step_ok).
    destruct ch, fault; auto. destruct (s_coming s); [|done]. intros [= <- <- <-]. by split_and!; auto.
  - destruct fault; [intros [= <- <- <-]; by split_and!; auto|]. intros [= <- <- <-].
    unfold storer_ok in Hs. rewrite Hpc in Hs. destruct Hs as (Hf & Hcom & Hb & Hl).
    destruct (flushed_ok SLoop d s Hd Hf) as (? & ? & ?); auto.
  - unfold storer_ok in Hs. rewrite Hpc in Hs. destruct Hs as (Hf & Hcom & Hb & Hbn & Hcn & Hl).
    destruct (_ && _); [intros [= <- <- <-]; by split_and!; auto|].
    destruct fault; [intros [= <- <- <-]; by split_and!; auto|].
    destruct (mark_complete _ _ _ _) as [d1|] eqn:Hm; intros [= <- <- <-]; [|by split_and!; auto].
    split_and!; auto; [by eapply (mark_ok d s)|done|].
    unfold mark_complete in Hm. destruct (nar_files d !! s_key s); [|done]. injection Hm as <-.
    by intros k i _.
  - intros [= <- <- <-]. destruct fault; split_and!; auto; try done; [by apply clear_started_ok|].
    intros k i _. unfold clear_started. by destruct (nar_files d !! s_key s).
Qed.

(** Another running process is not disturbed. *)
Lemma storer_ok_grow d d' key s : tables_grow key d d' → s_key s ≠ key → storer_ok d s → storer_ok d' s.
Proof.
  intros Hg Hne. unfold storer_ok. destruct (s_pc s); try done; intros; destruct_and!; split_and!; auto.
Qed.

(** *** Streaming *)

Lemma query_ok d key from j h : tables_ok d → query_links key from d !! j = Some h → chunk_at key (from + j) h.
Proof.
  intros Hd Hj. apply (ok_links _ Hd). apply query_links_lookup in Hj; [done|].
  intros i k. apply (ok_contig _ Hd).
Qed.

(** Moving on without a chunk. *)
Lemma reader_goto r p : reader_ok r →
  match p with
  | Feed _ _ | CQuery | GInit | REnd (Ok _) => False
  | _ => True
  end → reader_ok (goto p r).
Proof. intros (Ho & Ht & _) Hp. split_and!; [done|done|]. by destruct p as [| | | | | | | |[]]. Qed.

Lemma reader_total r n p : reader_ok r → (n ≠ 0 → n = length (parts (r_key r))) →
  match p with
  | PRow | PRow2 | PSleep | PBatch => True
  | _ => False
  end → reader_ok (set_total n p r).
Proof. intros (Ho & Ht & _) Hn Hp. split_and!; [done|done|]. by destruct p. Qed.

Lemma reader_done r : reader_ok r → all_streamed r = true → reader_ok (goto (REnd (Ok ())) r).
Proof.
  intros (Ho & Ht & _) [Hz Hle]%andb_true_iff. apply Nat.ltb_lt in Hz. apply Nat.leb_le in Hle.
  split_and!; [done|done|]. simpl. right. rewrite <- Ht; lia.
Qed.

Lemma reader_feed r d from l next : tables_ok d → reader_ok r → from = r_index r →
  (∀ j h, l !! j = Some h → query_links (r_key r) from d !! j = Some h) → next ≠ FComplete →
  reader_ok (goto (Feed l next) r).
Proof.
  intros Hd (Ho & Ht & _) -> Hl Hnext. split_and!; [done|done|].
  split; [|done]. intros j h Hj%Hl. by eapply query_ok.
Qed.

Lemma total_ok d key nr : tables_ok d → nar_files d !! key = Some nr → TotalChunks nr ≠ 0 →
  TotalChunks nr = length (parts key).
Proof. intros Hd Hnr Hz. apply (ok_rows _ Hd key nr Hnr). lia. Qed.

Lemma feed_step_ok hz r l next c : store_ok c → reader_ok r → r_pc r = Feed l next →
  let '(r', c') := feed_step hz r l next c in reader_ok r' ∧ store_ok c' ∧ r_key r' = r_key r.
Proof.
  intros Hc Hr Hpc. pose proof Hr as (Ho & Ht & Hp). rewrite Hpc in Hp. destruct Hp as [Hl Hn].
  unfold feed_step. destruct l as [|h l].
  - split_and!; [|done|by destruct next].
    destruct next; [|destruct (all_streamed r) eqn:Ha; [by apply reader_done|by apply reader_goto]..].
    split_and!; [done|done|]. simpl in *. specialize (Hn eq_refl). right. lia.
  - assert (∀ e, reader_ok (goto (REnd (Err e)) r)) as Herr by (intros e; by apply reader_goto).
    destruct hz as [| | |reported]; [|by split| |].
    3:{ destruct (r_canceled r) eqn:Hcan; [|done]. split; [|done]. destruct reported; [apply Herr|].
      split; [done|]. split; [done|by left]. }
    all: pose proof (GetChunk_law h c) as Hlaw; destruct (GetChunk h c) as [x c']; destruct Hlaw as [Hsame Hget].
    all: assert (store_ok c') as Hc' by (intros k y; rewrite Hsame; apply Hc).
    all: destruct x as [data|e]; [|by split_and!]; destruct (Hl 0 h eq_refl) as (x & Hx & ->); rewrite Nat.add_0_r in Hx.
    all: assert (x = data) as -> by (apply (inj H), Hc; by apply Hget).
    all: split; [|done]; split; [cbn [r_out r_index r_key r_total r_pc]; by rewrite (joined_take_S _ _ _ Hx), Ho|split; [done|]].
    all: split; [intros j k Hj; cbn [r_index r_key]; rewrite Nat.add_succ_comm; by apply Hl|].
    all: intros He; specialize (Hn He); simpl in *; lia.
Qed.

Lemma init_step_ok r d : tables_ok d → reader_ok r → r_pc r = GInit →
  reader_ok (init_step r d) ∧ r_key (init_step r d) = r_key r.
Proof.
  intros Hd Hr Hpc. pose proof Hr as (Ho & Ht & Hp). rewrite Hpc in Hp. unfold init_step.
  destruct (nar_files d !! r_key r) as [nr|] eqn:Hnr; [|split; [by apply reader_goto|done]].
  destruct (0 <? TotalChunks nr)%nat eqn:Hz; [|split; [by apply reader_goto|done]].
  apply Nat.ltb_lt in Hz. case_bool_decide; [|split; [by apply reader_goto|done]].
  split; [|done]. assert (TotalChunks nr = length (parts (r_key r))) as Hn by (eapply total_ok; eauto; lia).
  split_and!; done.
Qed.

Lemma complete_step_ok r d : tables_ok d → reader_ok r → r_pc r = CQuery →
  reader_ok (complete_step r d) ∧ r_key (complete_step r d) = r_key r.
Proof.
  intros Hd Hr Hpc. pose proof Hr as (Ho & Ht & Hp). rewrite Hpc in Hp. destruct Hp as [Hi Hn].
  unfold complete_step. case_bool_decide as Hlen; [|split; [by apply reader_goto|done]].
  split; [|done]. split_and!; [done|done|]. split; [|intros _; simpl; lia].
  simpl. rewrite Hi. intros j h Hj. by apply (query_ok d (r_key r) 0).
Qed.

Lemma reader_batch r d l next : tables_ok d → reader_ok r → next ≠ FComplete →
  take progressivePollBatchSize (query_links (r_key r) (r_index r) d) = l → reader_ok (goto (Feed l next) r).
Proof.
  intros Hd Hr Hnext <-. eapply reader_feed; [done|done|done| |done].
  intros j h [Hj _]%lookup_take_Some. exact Hj.
Qed.

Lemma progressive_step_ok now r d : tables_ok d → reader_ok r →
  match r_pc r with PBatch | PRow => True | _ => False end →
  reader_ok (progressive_step now r d) ∧ r_key (progressive_step now r d) = r_key r.
Proof.
  intros Hd Hr. unfold progressive_step. destruct (r_pc r) eqn:Hpc; try done; intros _.
  - destruct (take _ _) as [|h l] eqn:Hb.
    + split; [|by destruct (_ =? _)]. destruct (_ =? _); [by apply reader_goto|].
      destruct (all_streamed r) eqn:Ha; [by apply reader_done|by apply reader_goto].
    + split; [by eapply reader_batch|done].
  - destruct (nar_files d !! r_key r) as [nr|] eqn:Hnr; [|split; [by apply reader_goto|done]].
    assert (reader_ok (set_total (TotalChunks nr) PRow r)) as Hr1.
    { apply reader_total; [done|by eapply total_ok|done]. }
    destruct (_ && _); [split; [by apply reader_goto|done]|]. split; [|done].
    destruct (all_streamed (set_total (TotalChunks nr) PRow r)) eqn:Ha;
      [by apply reader_done|by apply reader_goto].
Qed.

Lemma wait_step_ok now timeout r d : tables_ok d → reader_ok r →
  match r_pc r with PSleep | PBatch2 | PRow2 => True | _ => False end →
  reader_ok (wait_step now timeout r d) ∧ r_key (wait_step now timeout r d) = r_key r.
Proof.
  intros Hd Hr. unfold wait_step. destruct (r_pc r) eqn:Hpc; try done; intros _.
  - split; [by apply reader_goto|done].
  - destruct (take _ _) as [|h l] eqn:Hb; [split; [by apply reader_goto|done]|].
    split; [by eapply reader_batch|done].
  - destruct (nar_files d !! r_key r) as [nr|] eqn:Hnr; [|split; [by apply reader_goto|done]].
    destruct (0 <? TotalChunks nr)%nat eqn:Hz.
    + assert (reader_ok (set_total (TotalChunks nr) PRow2 r)) as Hr1.
      { apply reader_total; [done|by eapply total_ok|done]. }
      split; [|done]. destruct (_ <=? _)%nat eqn:Hle; [|by apply reader_goto].
      apply reader_done; [done|]. unfold all_streamed. simpl in *. by rewrite Hz, Hle.
    + destruct (producer_gone now nr); [split; [by apply reader_goto|done]|].
      split; [by destruct timeout; apply reader_goto|by destruct timeout].
Qed.

Lemma reader_step_ok now hz r d c : tables_ok d → store_ok c → reader_ok r →
  let '(r', c') := reader_step now hz r d c in reader_ok r' ∧ store_ok c' ∧ r_key r' = r_key r.
Proof.
  intros Hd Hc Hr. unfold reader_step. destruct (noticed hz r && _); [split_and!; [by apply reader_goto|done|done]|].
  destruct (_ && in_statement _); [split_and!; [by apply reader_goto|done|done]|]. set (timeout := match hz with TimedOut => _ | _ => _ end).
  destruct (r_pc r) eqn:Hpc.
  - destruct (init_step_ok r d Hd Hr Hpc). by split_and!.
  - destruct (complete_step_ok r d Hd Hr Hpc). by split_and!.
  - destruct (progressive_step_ok now r d Hd Hr); [by rewrite Hpc|]. by split_and!.
  - destruct (progressive_step_ok now r d Hd Hr); [by rewrite Hpc|]. by split_and!.
  - destruct (wait_step_ok now timeout r d Hd Hr); [by rewrite Hpc|]. by split_and!.
  - destruct (wait_step_ok now timeout r d Hd Hr); [by rewrite Hpc|]. by split_and!.
  - destruct (wait_step_ok now timeout r d Hd Hr); [by rewrite Hpc|]. by split_and!.
  - by apply feed_step_ok.
  - by split_and!.
Qed.

(** *** All together *)

(** Every process that stores a NAR is given its chunks and no error. *)
Definition whole_event (e : event) : Prop :=
  match e with EStore _ key _ coming fails => coming = parts key ∧ fails = false | _ => True end.

Lemma running_inj key p : running key p = true → s_key p = key.
Proof. unfold running. by intros [?%bool_decide_eq_true_1 _]%andb_true_iff. Qed.

Lemma not_running d p : running (s_key p) p = false → storer_ok d p.
Proof.
  unfold running, storer_ok. rewrite bool_decide_true by done. simpl. by destruct (s_pc p).
Qed.

Lemma cdc_event_inv e s s' : inv s → whole_event e → apply_event H e s = Some s' → inv s'.
Proof.
  intros [It Is Ip Iu Ir] Hwhole. destruct e as [now|t key size coming fails|t fault ch|t|t key|t|t hz]; simpl.
  - intros [= <-]. by split.
  - case_bool_decide as Ht; [|done]. destruct (existsb _ _) eqn:Hrun; [done|]. intros [= <-].
    destruct Hwhole as [-> ->].
    assert (∀ t2 p2, storers s !! t2 = Some p2 → running key p2 = false) as Hno.
    { intros t2 p2 H2. apply not_true_iff_false. intros Hr. rewrite <- not_true_iff_false in Hrun.
      apply Hrun, existsb_exists. exists (t2, p2). split; [by apply list_elem_of_In, elem_of_map_to_list|done]. }
    split; simpl; try done.
    + intros t2 p. destruct (decide (t = t2)) as [<-|Hne].
      * rewrite lookup_insert_eq. intros [= <-]. by split_and!.
      * rewrite lookup_insert_ne by done. by apply Ip.
    + intros t1 t2 p1 p2 k H1 H2 R1 R2.
      destruct (decide (t = t1)) as [<-|N1], (decide (t = t2)) as [<-|N2]; [done| | |].
      * rewrite lookup_insert_eq in H1. injection H1 as <-. rewrite lookup_insert_ne in H2 by done.
        apply running_inj in R1. simpl in R1. subst k. by rewrite (Hno t2 p2 H2) in R2.
      * rewrite lookup_insert_eq in H2. injection H2 as <-. rewrite lookup_insert_ne in H1 by done.
        apply running_inj in R2. simpl in R2. subst k. by rewrite (Hno t1 p1 H1) in R1.
      * rewrite lookup_insert_ne in H1, H2 by done. by eapply Iu.
  - intros (p & Ht & ([[p' d] c] & Hs & [= <-])%bind_Some)%bind_Some.
    destruct (storer_step_ok _ _ _ _ _ _ _ _ _ It Is (Ip t p Ht) Hs) as (Hd & Hc & Hp & Hg & Hk).
    assert (∀ k, running k p' = true → running k p = true) as Hrun.
    { intros k Hr. pose proof (running_inj _ _ Hr) as <-. unfold running. rewrite Hk, bool_decide_true by done.
      simpl. unfold storer_step, cleanup_step in Hs. by destruct (s_pc p). }
    split; simpl; try done.
    + intros t2 p2. destruct (decide (t = t2)) as [<-|Hne].
      * rewrite lookup_insert_eq. by intros [= <-].
      * rewrite lookup_insert_ne by done. intros H2.
        destruct (running (s_key p2) p2) eqn:R2; [|by apply not_running].
        apply (storer_ok_grow (db s) d (s_key p)); [done| |by apply (Ip t2)].
        intros Heq. destruct (running (s_key p) p) eqn:R1.
        -- apply Hne. apply (Iu t t2 p p2 (s_key p)); try done. by rewrite <- Heq.
        -- unfold running in R1. rewrite bool_decide_true in R1 by done. unfold storer_step in Hs.
           by destruct (s_pc p).
    + intros t1 t2 p1 p2 k H1 H2 R1 R2.
      destruct (decide (t = t1)) as [<-|N1], (decide (t = t2)) as [<-|N2]; [done| | |].
      * rewrite lookup_insert_eq in H1. injection H1 as <-. rewrite lookup_insert_ne in H2 by done.
        by apply (Iu t t2 p p2 k Ht H2 (Hrun k R1)).
      * rewrite lookup_insert_eq in H2. injection H2 as <-. rewrite lookup_insert_ne in H1 by done.
        by apply (Iu t1 t p1 p k H1 Ht R1 (Hrun k R2)).
      * rewrite lookup_insert_ne in H1, H2 by done. by apply (Iu t1 t2 p1 p2 k).
  - intros [= <-]. split; simpl; try done.
    + intros t2 p [_ ?]%lookup_delete_Some. by apply (Ip t2).
    + intros t1 t2 p1 p2 k [_ ?]%lookup_delete_Some [_ ?]%lookup_delete_Some. by apply Iu.
  - intros [= <-]. split; simpl; try done. intros t2 r. destruct (decide (t = t2)) as [<-|Hne].
    + rewrite lookup_insert_eq. intros [= <-]. by split_and!.
    + rewrite lookup_insert_ne by done. apply Ir.
  - intros (r & Ht & [= <-])%bind_Some. split; simpl; try done. intros t2 r2. destruct (decide (t = t2)) as [<-|Hne].
    + rewrite lookup_insert_eq. intros [= <-]. destruct (Ir t r Ht) as (Ho & Hn & Hp). split_and!; [done|done|].
      simpl. destruct (r_pc r) as [| | | | | | | |[]]; auto.
    + rewrite lookup_insert_ne by done. apply Ir.
  - intros (r & Ht & Hstep)%bind_Some.
    pose proof (reader_step_ok (clock s) hz r (db s) (store s) It Is (Ir t r Ht)) as Hr.
    destruct (reader_step _ _ _ _ _) as [r' c']. destruct Hr as (Hr & Hc & _). injection Hstep as <-.
    split; simpl; try done. intros t2 r2. destruct (decide (t = t2)) as [<-|Hne].
    + rewrite lookup_insert_eq. by intros [= <-].
    + rewrite lookup_insert_ne by done. apply Ir.
Qed.

Lemma cdc_events_inv es s s' : inv s → Forall whole_event es → run_events H es s = Some s' → inv s'.
Proof.
  revert s. induction es as [|e es IH]; simpl; intros s I Hw Hrun; [by simplify_eq|].
  inversion_clear Hw. apply bind_Some in Hrun as (s1 & Hs1 & Hrun).
  apply (IH s1); [by eapply cdc_event_inv|done|done].
Qed.

Definition start (d : database) (c : cst) : sys := mkSys d c 0 ∅ ∅.

Lemma cdc_start_inv d c : tables_ok d → store_ok c → inv (start d c).
Proof. intros Hd Hc. split; simpl; try done; intros *; rewrite lookup_empty; done. Qed.
End safety.

(** C9. What is streamed from chunks is the NAR: when every process that stores a
    NAR is given the NAR's own chunks (so none reads a truncated or failing
    download) and one process at a time stores a key, then from tables and a store
    in order, in every interleaving of storing, crashes, retries, stale cleanups
    and readers, under every database and store fault, a reader has received a
    prefix of the NAR, and all of it when it ended without an error and its
    context is not done.  With its context done a reader may end without an error
    after any chunk ([canceled_reader_ends_cleanly]).  [H] is the hash of chunks,
    without collisions. *)
Theorem chunked_stream_safe {C : ChunkStorage} {CL : ChunkStorageLaws C} (H : string → string)
    (H_inj : Inj (=) (=) H) (parts : string → list string) (es : list event)
    (d : database) (c : cst) (s : sys) (t : nat) (r : reader) :
  tables_ok H parts d → store_ok H c → Forall (whole_event parts) es →
  run_events H es (start d c) = Some s → readers s !! t = Some r →
  (∃ rest, joined (parts (r_key r)) = r_out r +:+ rest) ∧
  (r_pc r = REnd (Ok ()) → r_canceled r = false → r_out r = joined (parts (r_key r))).
Proof.
  intros Hd Hc Hw Hrun Ht.
  pose proof (cdc_events_inv H parts es _ s (cdc_start_inv H parts d c Hd Hc) Hw Hrun) as I.
  destruct (iv_readers _ _ _ I t r Ht) as (Ho & _ & Hp). split.
  - exists (joined (drop (r_index r) (parts (r_key r)))). rewrite Ho, <- (joined_app (take _ _)).
    by rewrite take_drop.
  - intros Hpc Hcan. rewrite Hpc in Hp. destruct Hp as [Hp|Hp]; [congruence|]. by rewrite Ho, take_ge.
Qed.

(** ** Storing without faults *)

Section progress.
Context {C : ChunkStorage} {CL : ChunkStorageLaws C}.
Context (H : string → string) {H_inj : Inj (=) (=) H} (parts : string → list string).

(** What the loop's [select] takes: in each of its rounds the flush timer, if [timers]
    says so, or else the chunker's next chunk, or its end. *)
Definition select (timers : list bool) (s : storer) : choice * list bool :=
  let received := match s_coming s with [] => CClosed | _ => CChunk end in
  match s_pc s, timers with
  | SLoop, fires :: timers => (if fires : bool then CTimer else received, timers)
  | _, _ => (received, timers)
  end.

(** The process alone. *)
Fixpoint run_storer (fuel : nat) (now : Z) (timers : list bool) (s : storer) (d : database) (c : cst) : storer * database * cst :=
  match fuel with
  | 0 => (s, d, c)
  | S fuel =>
      let '(ch, timers) := select timers s in
      match storer_step H now false ch s d c with
      | Some (s, d, c) => run_storer fuel now timers s d c
      | None => (s, d, c)
      end
  end.

(** The steps still to make after the first one. *)
Definition steps_left (s : storer) : nat :=
  let n := 2 * length (s_coming s) in
  match s_pc s with
  | SFind => 0
  | SStale l => n + 2 * length l + 5
  | SDelFile _ l => n + 2 * length l + 5
  | SDelRow l => n + 2 * length l + 4
  | SFlush => n + 4
  | SLoop => n + 3
  | SMark => 2
  | SFail _ => 1
  | SRet _ => 0
  end.

(** On the way to success: the row is there, and the bytes counted and to come
    are those of the NAR. *)
Definition on_track (s : storer) (d : database) : Prop :=
  is_Some (nar_files d !! s_key s) ∧
  (s_fileSize s = 0 ∨ s_fileSize s = Z.of_nat (String.length (joined (parts (s_key s)))))%Z ∧
  (s_total s + Z.of_nat (String.length (joined (s_coming s))) =
     Z.of_nat (String.length (joined (parts (s_key s)))))%Z ∧
  match s_pc s with
  | SFind | SFail _ | SRet (Err _) => False
  | SMark => s_coming s = []
  | SRet (Ok _) => ∃ nr, nar_files d !! s_key s = Some nr ∧ TotalChunks nr = length (parts (s_key s))
  | _ => True
  end.

Lemma at_loop now ch s d c : s_pc s = SLoop → storer_step H now false ch s d c = loop_step H ch s d c.
Proof. intros Hp. unfold storer_step. rewrite Hp. by destruct ch. Qed.

(** A round of the loop that takes a chunk, or the end. *)
Lemma received_track s d c :
  (∀ h x c, is_ok (PutChunk h x c).1 = true) → s_pc s = SLoop → on_track s d →
  match loop_step H (match s_coming s with [] => CClosed | _ => CChunk end) s d c with
  | Some (s', d', _) => on_track s' d' ∧ steps_left s' < steps_left s ∧ s_key s' = s_key s
  | None => False
  end.
Proof.
  intros Hput Hp (Hrow & Hsize & Htot & _). unfold on_track, steps_left. rewrite Hp.
  destruct (s_coming s) as [|x coming] eqn:Hc; cbn [loop_step]; rewrite Hc.
  - simpl. rewrite Hc. split_and!; try done. lia.
  - specialize (Hput (H x) x c). destruct (PutChunk (H x) x c) as [[[new sz]|e] c']; [|done].
    set (full := (cdcMaxBatchSize <=? _)%nat). clearbody full. simpl.
    assert (s_total s + Z.of_nat (String.length x) + Z.of_nat (String.length (joined coming)) =
      Z.of_nat (String.length (joined (parts (s_key s)))))%Z as Htot'.
    { rewrite <- Htot. simpl. rewrite str_length_app. lia. }
    destruct full; (split_and!; [done..|simpl; lia|done]).
Qed.

Lemma storer_step_track now timers s d c :
  (∀ h x c, is_ok (PutChunk h x c).1 = true) → tables_ok H parts d → storer_ok H parts d s →
  on_track s d →
  match storer_step H now false (select timers s).1 s d c with
  | Some (s', d', _) =>
      on_track s' d' ∧ 2 * length (select timers s).2 + steps_left s' < 2 * length timers + steps_left s ∧ s_key s' = s_key s
  | None => ∃ r, s_pc s = SRet r
  end.
Proof.
  intros Hput Hd Hs Ht. destruct (s_pc s) as [|stale|[|h orphans]|h orphans| | | |e|r] eqn:Hp.
  all: cycle 5.
  { rewrite at_loop by done. unfold select. rewrite Hp. pose proof (received_track s d c Hput Hp Ht) as Hr.
    destruct timers as [|[] timers]; simpl.
    - destruct (loop_step _ _ _ _ _) as [[[s' d'] c']|]; [|done]. naive_solver.
    - destruct Ht as (Hrow & Hsize & Htot & _). unfold on_track, steps_left. rewrite Hp.
      destruct (bool_decide _); simpl; (split_and!; [done..|lia|done]).
    - destruct (loop_step _ _ _ _ _) as [[[s' d'] c']|]; [|done]. destruct Hr as (? & ? & ?). split_and!; [done|lia|done]. }
  all: destruct Ht as (Hrow & Hsize & Htot & Hpc); unfold storer_step, cleanup_step, on_track, steps_left, select in *.
  all: rewrite Hp in *; try done; cbn [fst snd].
  all: cycle 2.
  - by exists r.
  - simpl. split_and!; [done..| |done].
    assert (length (filter (λ h, is_Some (chunks d !! h) ∧ is_linked h d = false) stale) ≤ length stale)
      by apply length_filter. lia.
  - simpl. split_and!; [done..|lia|done].
  - destruct (_ || _ || _); simpl; (split_and!; [done..|lia|done]).
  - destruct (DeleteChunk h c) as [r c']. simpl. split_and!; [done..|lia|done].
  - unfold flushed, recordChunkBatch. simpl. split_and!; [done..|lia|done].
  - unfold storer_ok in Hs. rewrite Hp in Hs. destruct Hs as (_ & Hcom & _ & Hb & _ & Hl).
    rewrite Hpc in Htot. simpl in Htot. rewrite Z.add_0_r in Htot.
    destruct Hrow as [nr Hnr]. unfold mark_complete. rewrite Hnr.
    rewrite (proj2 (andb_false_iff _ _)).
    2:{ destruct Hsize as [-> |Hsz]; [by left|right]. rewrite Hsz, Htot, Z.eqb_refl. done. }
    simpl. rewrite lookup_insert_eq, Hpc. simpl. rewrite Z.add_0_r.
    split_and!; [by eexists|done|done| |lia|done]. eexists. split; [done|]. simpl.
    pose proof (count_le H parts d s Hd Hl) as Hle.
    assert (length (drop (s_count s + length (s_batch s)) (parts (s_key s))) = 0) as Hz by (by rewrite <- Hcom, Hpc).
    rewrite length_drop, Hb in Hz. simpl in Hz. lia.
Qed.

Lemma run_storer_track now fuel timers s d c :
  (∀ h x c, is_ok (PutChunk h x c).1 = true) →
  tables_ok H parts d → store_ok H c → storer_ok H parts d s → on_track s d → 2 * length timers + steps_left s < fuel →
  let '(s', d', c') := run_storer fuel now timers s d c in
  tables_ok H parts d' ∧ store_ok H c' ∧ s_pc s' = SRet (Ok ()) ∧
  ∃ nr, nar_files d' !! s_key s = Some nr ∧ TotalChunks nr = length (parts (s_key s)).
Proof.
  intros Hput. revert timers s d c. induction fuel as [|fuel IH]; intros timers s d c Hd Hc Hs Ht Hlt; [lia|].
  cbn [run_storer]. pose proof (storer_step_track now timers s d c Hput Hd Hs Ht) as Hstep.
  destruct (select timers s) as [ch timers']. cbn [fst snd] in Hstep.
  destruct (storer_step H now false ch s d c) as [[[s1 d1] c1]|] eqn:Hst.
  - destruct Hstep as (Ht1 & Hlt1 & Hk1).
    destruct (storer_step_ok H parts _ _ _ _ _ _ _ _ _ Hd Hc Hs Hst) as (Hd1 & Hc1 & Hs1 & _ & _).
    specialize (IH timers' s1 d1 c1 Hd1 Hc1 Hs1 Ht1 ltac:(lia)). rewrite Hk1 in IH. exact IH.
  - destruct Hstep as [r Hr]. destruct Ht as (_ & _ & _ & Hpc). rewrite Hr in Hpc.
    destruct r as [[]|]; [|done]. done.
Qed.
End progress.

(** C33. Storing completes: on a store whose puts succeed and without database
    faults, a process that is given a NAR's chunks (and its size, or none) and
    finds no complete row returns without an error after finitely many steps,
    also over what a crashed process left, in whichever rounds of its loop the
    flush timer fires, finitely often ([timers]); the row is then complete, and
    counts the NAR's chunks. *)
Theorem store_completes {C : ChunkStorage} {CL : ChunkStorageLaws C} (H : string → string)
    (H_inj : Inj (=) (=) H) (parts : string → list string) (now fileSize : Z) (key : string)
    (timers : list bool) (d : database) (c : cst) :
  (∀ h x c, is_ok (PutChunk h x c).1 = true) → tables_ok H parts d → store_ok H c →
  (∀ nr, nar_files d !! key = Some nr → TotalChunks nr = 0) →
  (fileSize = 0 ∨ fileSize = Z.of_nat (String.length (joined (parts key))))%Z →
  ∃ fuel, let '(s', d', _) :=
      run_storer H fuel now timers (mkStorer key fileSize (parts key) false [] 0 0 SFind) d c in
    s_pc s' = SRet (Ok ()) ∧ tables_ok H parts d' ∧
    ∃ nr, nar_files d' !! key = Some nr ∧ TotalChunks nr = length (parts key).
Proof.
  intros Hput Hd Hc Hz Hsize. set (s := mkStorer key fileSize (parts key) false [] 0 0 SFind).
  assert (storer_ok H parts d s) as Hs by (by split_and!).
  set (ch := match s_coming s with [] => CClosed | _ => CChunk end).
  destruct (storer_step H now false ch s d c) as [[[s1 d1] c1]|] eqn:Hst.
  - destruct (storer_step_ok H parts _ _ _ _ _ _ _ _ _ Hd Hc Hs Hst) as (Hd1 & Hc1 & Hs1 & _ & Hk).
    assert (on_track parts s1 d1) as Ht.
    { unfold storer_step in Hst. cbn [s_pc s] in Hst. unfold findOrCreateNarFileForCDC in Hst.
      set (nr := default _ _) in Hst.
      assert (TotalChunks nr = 0) as Hz0.
      { unfold nr. destruct (nar_files d !! s_key s) as [x|] eqn:Hx; [by apply Hz|done]. }
      set (nr' := if negb _ && _ then _ else _) in Hst.
      assert (TotalChunks nr' = 0) as Hz' by (unfold nr'; by destruct (negb _ && _)).
      rewrite (proj2 (Nat.ltb_ge _ _)) in Hst by lia.
      destruct (ChunkingStartedAt nr) as [t|] eqn:Hca.
      - unfold clearStaleCDCChunkingLock in Hst. rewrite (proj2 (Nat.ltb_ge 0 _)) in Hst by lia.
        assert (ChunkingStartedAt nr' = Some t) as Hca'.
        { unfold nr'. destruct (negb _ && _); [done|done]. }
        rewrite bool_decide_false in Hst by (by rewrite Hca'). simpl in Hst.
        destruct (linked_hashes _ _); injection Hst as <- <- <-; unfold on_track; simpl;
          rewrite lookup_insert_eq; (split_and!; [by eexists|exact Hsize|lia|done]).
      - injection Hst as <- <- <-. unfold on_track. simpl. rewrite lookup_insert_eq.
        split_and!; [by eexists|exact Hsize|lia|done]. }
    exists (S (S (2 * length timers + steps_left s1))).
    pose proof (run_storer_track H parts now (S (2 * length timers + steps_left s1)) timers s1 d1 c1 Hput Hd1 Hc1 Hs1 Ht ltac:(lia)) as Hr.
    revert Hr. generalize (S (2 * length timers + steps_left s1)). intros fuel Hr. cbn [run_storer]. unfold select. cbn [s_pc s]. fold ch.
    rewrite Hst. destruct (run_storer H fuel now timers s1 d1 c1) as [[s2 d2] c2].
    destruct Hr as (? & ? & ? & Hnr). rewrite Hk in Hnr. by split_and!.
  - exfalso. unfold storer_step in Hst. cbn [s_pc s] in Hst.
    destruct (findOrCreateNarFileForCDC _ _ _ _) as [[[|]|[]] ?]; done.
Qed.

(** ** Traces *)

(** A chunk store in memory. *)
#[local] Instance map_chunks : ChunkStorage := {
  cst := gmap string string;
  blob c h := c !! h;
  PutChunk h data c :=
    match c !! h with
    | Some _ => (Ok (false, Z.of_nat (String.length data)), c)
    | None => (Ok (true, Z.of_nat (String.length data)), <[h := data]> c)
    end;
  GetChunk h c := (of_option () (c !! h), c);
  DeleteChunk h c := (Ok (), delete h c);
}.

#[local] Instance map_chunks_laws : ChunkStorageLaws map_chunks.
Proof.
  split; simpl.
  - intros h data c. destruct (c !! h) as [x|] eqn:Hx; simpl.
    + split_and!; [done|by left|by rewrite Hx].
    + split_and!; [|right; by rewrite lookup_insert_eq|by rewrite lookup_insert_eq].
      intros h' Hne. by rewrite lookup_insert_ne.
  - intros h c. split; [done|]. by destruct (c !! h); intros ? [= ->].
  - intros h c. split; [|right; by rewrite lookup_delete_eq]. intros h' Hne. by rewrite lookup_delete_ne.
Defined.

(** A hash that marks its text, and chunks of two bytes. *)
Definition mark (x : string) : string := "#" +:+ x.

#[local] Instance mark_inj : Inj (=) (=) mark.
Proof. intros x y Hxy. by injection Hxy. Defined.

Definition abcdef : list string := ["ab"; "cd"; "ef"].
Definition sample_parts (key : string) : list string := if decide (key = "k") then abcdef else ["ab"].

Definition no_tables : database := mkDb ∅ ∅ ∅.
Definition empty_sys : @sys map_chunks := start no_tables ∅.

Definition run_empty (es : list event) : option sys := run_events mark es empty_sys.

Definition do (t : nat) (chs : list choice) : list event := (λ ch, EStep t false ch) <$> chs.
Definition read (t n : nat) : list event := replicate n (ERead t Fine).

Definition seen (t : nat) (s : @sys map_chunks) : option (string * read_pc) :=
  (λ r, (r_out r, r_pc r)) <$> readers s !! t.

(** A reader follows a process that stops, and the next one. *)
Definition trace_progressive : list event :=
  EStore 0 "k" 6 abcdef false :: do 0 [CChunk; CChunk; CTimer; CTimer] ++
  [EOpen 1 "k"] ++ read 1 4 ++ [EKill 0; EStore 2 "k" 6 abcdef false] ++
  do 2 [CChunk; CChunk; CChunk; CChunk; CChunk; CChunk; CChunk; CChunk; CClosed; CChunk] ++ read 1 9.

Lemma no_tables_ok : tables_ok mark sample_parts no_tables.
Proof.
  split; unfold linked, no_tables; simpl.
  - intros key i h Hx. by rewrite lookup_empty in Hx.
  - intros key i j _ [h Hx]. by rewrite lookup_empty in Hx.
  - intros key nr Hx. by rewrite lookup_empty in Hx.
Defined.

Lemma chunked_stream_safe_witness :
  ∃ s, run_empty trace_progressive = Some s ∧ seen 1 s = Some ("abcdef", REnd (Ok ())) ∧
    ∀ r, readers s !! 1 = Some r → ∃ rest, joined (sample_parts (r_key r)) = r_out r +:+ rest.
Proof.
  destruct (run_empty trace_progressive) as [s|] eqn:Hrun.
  2:{ assert (option_map (λ _, ()) (run_empty trace_progressive) = Some ()) as Ha by (vm_compute; reflexivity).
      by rewrite Hrun in Ha. }
  exists s. split; [reflexivity|]. split.
  - assert (option_map (seen 1) (run_empty trace_progressive) = Some (Some ("abcdef", REnd (Ok ())))) as Ha
      by (vm_compute; reflexivity).
    rewrite Hrun in Ha. by injection Ha.
  - intros r Hr. unfold run_empty, empty_sys in Hrun.
    assert (tables_ok mark sample_parts no_tables) as Hd.
    { exact no_tables_ok. }
    assert (store_ok (C := map_chunks) mark ∅) as Hc.
    { intros h x Hx. simpl in Hx. by rewrite lookup_empty in Hx. }
    assert (Forall (whole_event sample_parts) trace_progressive) as Hw.
    { unfold trace_progressive. repeat (apply Forall_cons; split); try exact I; try (split; reflexivity).
      apply Forall_nil. exact I. }
    exact (proj1 (chunked_stream_safe (CL := map_chunks_laws) mark _ sample_parts trace_progressive
      no_tables ∅ s 1 r Hd Hc Hw Hrun Hr)).
Defined.

Lemma store_completes_witness :
  ∃ fuel, let '(s', d', _) :=
      run_storer (C := map_chunks) mark fuel 0 [false; true; true; false; true] (mkStorer "k" 6 abcdef false [] 0 0 SFind) no_tables ∅ in
    s_pc s' = SRet (Ok ()) ∧ ∃ nr, nar_files d' !! "k" = Some nr ∧ TotalChunks nr = 3.
Proof.
  destruct (store_completes (CL := map_chunks_laws) mark _ sample_parts 0 6 "k" [false; true; true; false; true] no_tables ∅) as [fuel Hf].
  - intros h x c. simpl. by destruct ((c : gmap string string) !! h).
  - exact no_tables_ok.
  - intros h x Hx. simpl in Hx. by rewrite lookup_empty in Hx.
  - intros nr Hx. unfold no_tables in Hx. cbn [nar_files] in Hx. by rewrite lookup_empty in Hx.
  - right. reflexivity.
  - exists fuel. change (sample_parts "k") with abcdef in Hf.
    destruct (run_storer mark fuel 0 _ _ no_tables ∅) as [[s' d'] c'].
    destruct Hf as (H1 & _ & H2). split; [exact H1|exact H2].
Defined.

(** A reader whose context is done is cut off, and its pipe closed as if it were
    complete: the goroutine that fetches closes its channel without the context's
    error. *)
Example canceled_reader_ends_cleanly :
  (s ← run_empty (
     EStore 0 "k" 6 abcdef false :: do 0 [CChunk; CChunk; CChunk; CChunk; CClosed; CChunk] ++
     EOpen 1 "k" :: read 1 3 ++ [ECancel 1; ERead 1 (Done false)]);
   Some (seen 1 s)) = Some (Some ("ab", REnd (Ok ()))).
Proof. vm_compute. reflexivity. Qed.

(** A truncated download corrupts the next one: a download that ends early
    is refused ([ErrTruncated]), but the links of its chunks stay, with its last,
    cut chunk, and [chunking_started_at] is cleared, so the retry does not clean
    them up; [recordChunkBatch] keeps the old links, the retry with all of the
    NAR's chunks completes the row, and every reader gets other bytes than the
    NAR, without an error. *)
Theorem truncated_download_corrupts_retry :
  (s ← run_empty (
     EStore 0 "k" 6 ["ab"; "c"] false :: do 0 [CChunk; CChunk; CChunk; CClosed; CChunk; CChunk] ++
     EStore 1 "k" 6 abcdef false :: do 1 [CChunk; CChunk; CChunk; CChunk; CClosed; CChunk] ++
     EOpen 0 "k" :: read 0 6);
   Some (s_pc <$> storers s !! 0, s_pc <$> storers s !! 1, seen 0 s)) =
  Some (Some (SRet (Err ErrTruncated)), Some (SRet (Ok ())), Some ("abcef", REnd (Ok ()))).
Proof. vm_compute. reflexivity. Qed.

(** An error of the chunker can be lost: it sends the error and closes the
    channel of chunks, and the loop's [select] may see the closed channel first;
    when the size is not known (as from [storeNarWithCDC]) the truncated NAR is
    then marked complete and served. *)
Theorem chunker_error_lost :
  (s ← run_empty (
     EStore 0 "k" 0 ["ab"] true :: do 0 [CChunk; CChunk; CClosed; CChunk] ++ EOpen 0 "k" :: read 0 4);
   Some (s_pc <$> storers s !! 0, seen 0 s)) =
  Some (Some (SRet (Ok ())), Some ("ab", REnd (Ok ()))).
Proof. vm_compute. reflexivity. Qed.

(** Cleaning up after a crash can delete a chunk in use: between the
    deletion of an orphan's row and of its file, another NAR's process finds the
    file, links the chunk and completes; its NAR then cannot be read. *)
Theorem stale_cleanup_loses_chunk :
  (s ← run_empty (
     EStore 0 "k" 6 abcdef false :: do 0 [CChunk; CChunk; CTimer; CTimer] ++ EKill 0 ::
     EStore 1 "k" 6 abcdef false :: do 1 [CChunk; CChunk; CChunk] ++
     EStore 2 "j" 2 ["ab"] false :: do 2 [CChunk; CChunk; CClosed; CChunk] ++
     do 1 [CChunk] ++ EOpen 0 "j" :: read 0 4);
   Some (s_pc <$> storers s !! 2, nar_files (db s) !! "j", seen 0 s)) =
  Some (Some (SRet (Ok ())), Some (mkNarFile 2 1 None), Some ("", REnd (Err ErrStore))).
Proof. vm_compute. reflexivity. Qed.
