(* ===== verification/S3.v ===== *)
(** * Package [pkg/storage/s3]: the store in an S3 bucket

    The methods of the store on a bucket, a map from keys to objects, through the
    requests of the MinIO client; each request may fail, before or after its
    effect.  Then the same promise of [storage.NarStore] that [LocalStore]
    refines, the interface of part stores, and the keys of several stores in one
    bucket. *)
From stdpp Require Import sorting.
From S2P Require Import Prelude GoStd Nar FS Conn Staging LocalStore.

Notation bucket := (gmap string string).

(** ** The MinIO client *)

(** [NoSuchKey] is the code the store looks for; [BadBody]: the body of a put
    broke or has not the announced size; any other error is [Unavailable]. *)
Inductive s3_err := NoSuchKey | BadBody | Unavailable.

#[global] Instance s3_err_eq_dec : EqDecision s3_err.
Proof. solve_decision. Defined.

(** The object that [PutObject] makes of a body and the announced size ([-1]: until
    its end), if it makes one. *)
Class S3Client := { sent : Reader → Z → option string }.

Class S3ClientLaws (C : S3Client) := {
  sent_stream body : sent body (-1) = if fails body then None else Some (bytes body);
  sent_sized body n c :
    (0 ≤ n)%Z → sent body n = Some c → c = str_take (Z.to_nat n) (bytes body) ∧ size_of c = n;
  sent_exact body : fails body = false → sent body (size_of (bytes body)) = Some (bytes body);
}.

Notation client := (eff (conn bucket) s3_err).
Notation bio := (eff (conn bucket) store_err).

(** [fmt.Errorf("...: %w", err)] *)
Definition wrapped (e : s3_err) : store_err :=
  match e with BadBody => ErrBody | NoSuchKey | Unavailable => ErrIO EIO end.

(** [if errResp.Code == s3NoSuchKey { return storage.ErrNotFound }] *)
Definition not_found (e : s3_err) : store_err :=
  match e with NoSuchKey => ErrNotFound | e => wrapped e end.

Section s3.
Context {client_lib : S3Client}.

Definition StatObject (key : string) : client Z :=
  o ← ask Unavailable (λ b, b !! key);
  lift (of_option NoSuchKey (size_of <$> o)).

(** [GetObject] sends nothing: the object is asked for by [Stat] and [Read]. *)
Definition GetObject (key : string) : client string := mret key.

Definition ReadAll (obj : string) : client string :=
  o ← ask Unavailable (λ b, b !! obj);
  lift (of_option NoSuchKey o).

(** The size of the new object. *)
Definition PutObject (key : string) (body : Reader) (size : Z) : client Z :=
  match sent body size with
  | None => ask Unavailable (λ _, ());; throw BadBody
  | Some c => sql Unavailable (λ b, Some (<[key := c]> b));; mret (size_of c)
  end.

(** Removing an absent object succeeds. *)
Definition RemoveObject (key : string) : client unit := sql Unavailable (λ b, Some (delete key b)).

Definition keys_under (p : string) (b : bucket) : list string :=
  merge_sort String.le (filter (λ key, has_prefix p key = true) (map_to_list b).*1).

(** The listing arrives page by page: a fault leaves the keys before it. *)
Definition ListObjects {E} (p : string) : eff (conn bucket) E (list string * option s3_err) := λ s,
  let keys := keys_under p (cat s) in
  match script s with
  | Some n :: fs => (Ok (take n keys, Some Unavailable), mkConn (cat s) fs)
  | fs => (Ok (keys, None), mkConn (cat s) (tail fs))
  end.

(** [RemoveObjects] goes on after an error: a fault [n] reports one and removes the
    keys at the places of [n]'s bits. *)
Definition RemoveObjects (keys : list string) : client unit := λ s,
  match script s with
  | Some n :: fs =>
      let gone := (filter (λ ik, Z.testbit (Z.of_nat n) (Z.of_nat ik.1) = true) (imap pair keys)).*2 in
      (Err Unavailable, mkConn (foldr delete (cat s) gone) fs)
  | fs => (Ok (), mkConn (foldr delete (cat s) keys) (tail fs))
  end.

(** ** Keys *)

Record Store := mkStore { prefix : string }.

Definition with_prefix (s : Store) (key : string) : string :=
  if bool_decide (prefix s = "") then key else prefix s +:+ "/" +:+ key.

Definition secretKeyPath (s : Store) : string := with_prefix s "config/cache.key".
Definition storeNarInfoPath (s : Store) : string := with_prefix s "store/narinfo".
Definition storeNarPrefix (s : Store) : string := with_prefix s "store/nar/".

Definition narInfoPath (s : Store) (hash : string) : result store_err string :=
  nifP ← map_err ErrNar (NarinfoFilePath hash);
  mret (storeNarInfoPath s +:+ "/" +:+ nifP).

Definition narPath (s : Store) (u : URL) : result store_err string :=
  v ← map_err ErrNar (Normalize u);
  tfp ← map_err ErrNar (ToFilePath v);
  mret (with_prefix s ("store/nar/" +:+ tfp)).

Definition stagingPartDirKey (s : Store) (hash : string) : string :=
  with_prefix s ("store/staging/" +:+ hash +:+ "/").

Definition stagingPartKey (s : Store) (hash : string) (index : Z) : string :=
  stagingPartDirKey s hash +:+ zero_pad 20 index +:+ ".part".

(** ** NARs *)

Definition StatNar (s : Store) (u : URL) : bio bool :=
  key ← lift (narPath s u);
  r ← try (StatObject key);
  match r with
  | Ok _ => mret true
  | Err NoSuchKey => mret false
  | Err e => throw (wrapped e)
  end.

Definition HasNar (s : Store) (u : URL) : bio bool :=
  r ← try (StatNar s u);
  mret (match r with Ok present => present | Err _ => false end).

Definition GetNar (s : Store) (u : URL) : bio (Z * string) :=
  key ← lift (narPath s u);
  obj ← wrap wrapped (GetObject key);
  info ← wrap not_found (StatObject obj);
  mret (info, obj).

Definition putObjectStream (key : string) (body : Reader) : bio Z :=
  wrap wrapped (PutObject key body (-1)).

(** [size] is the announced size of the body, unknown when not positive. *)
Definition PutNar (s : Store) (u : URL) (body : Reader) (size : Z) : bio Z :=
  key ← lift (narPath s u);
  r ← try (StatObject key);
  match r with
  | Ok _ => throw ErrAlreadyExists
  | Err NoSuchKey =>
      if (0 <? size)%Z then wrap wrapped (PutObject key body size)
      else putObjectStream key body
  | Err e => throw (wrapped e)
  end.

Definition DeleteNar (s : Store) (u : URL) : bio unit :=
  key ← lift (narPath s u);
  wrap not_found (StatObject key);;
  wrap wrapped (RemoveObject key).

(** The callback folds over an accumulator, as in [LocalStore]. *)
Definition walk_objects {A} (p : string) (fn : A → string → result store_err A) (a : A) : bio A :=
  '(keys, e) ← ListObjects p;
  a ← lift (walk_fold fn a keys);
  match (e : option s3_err) with Some e => throw (wrapped e) | None => mret a end.

Definition WalkNars {A} (s : Store) (fn : A → URL → result store_err A) (a : A) : bio A :=
  walk_objects (storeNarPrefix s) (λ a key,
    match ParseURL (base key) with Err _ => Ok a | Ok u => fn a u end) a.

(** ** Staging parts *)

Definition PutStagingPart (s : Store) (hash : string) (index : Z) (body : Reader) (size : Z) : bio Z :=
  let key := stagingPartKey s hash index in
  if (size <=? 0)%Z then putObjectStream key body else wrap wrapped (PutObject key body size).

Definition GetStagingPart (s : Store) (hash : string) (index : Z) : bio string :=
  obj ← wrap wrapped (GetObject (stagingPartKey s hash index));
  wrap not_found (StatObject obj);;
  mret obj.

Definition DeleteStagingParts (s : Store) (hash : string) : bio unit :=
  '(keys, e) ← ListObjects (stagingPartDirKey s hash);
  wrap wrapped (RemoveObjects keys);;
  match (e : option s3_err) with Some e => throw (wrapped e) | None => mret () end.

(** ** Narinfos and the secret key: their formats belong to the go-nix library *)

Section formats.
Context {NarInfo SecretKey : Type}.
Context (narinfo_parse : string → option NarInfo) (narinfo_string : NarInfo → string).
Context (key_load : string → option SecretKey) (key_string : SecretKey → string).

(** [bytes.NewReader(data)], with its length *)
Definition put_text (key text : string) : bio unit :=
  wrap wrapped (PutObject key (mkReader text false) (size_of text));; mret ().

Definition HasNarInfo (s : Store) (hash : string) : bio bool :=
  match narInfoPath s hash with
  | Err _ => mret false
  | Ok key => r ← try (StatObject key); mret (is_ok r)
  end.

Definition GetNarInfo (s : Store) (hash : string) : bio NarInfo :=
  key ← lift (narInfoPath s hash);
  obj ← wrap wrapped (GetObject key);
  wrap not_found (StatObject obj);;
  text ← wrap wrapped (ReadAll obj);
  lift (of_option ErrParse (narinfo_parse text)).

Definition PutNarInfo (s : Store) (hash : string) (ni : NarInfo) : bio unit :=
  key ← lift (narInfoPath s hash);
  r ← try (StatObject key);
  match r with
  | Ok _ => throw ErrAlreadyExists
  | Err NoSuchKey => put_text key (narinfo_string ni)
  | Err e => throw (wrapped e)
  end.

Definition DeleteNarInfo (s : Store) (hash : string) : bio unit :=
  key ← lift (narInfoPath s hash);
  wrap not_found (StatObject key);;
  wrap wrapped (RemoveObject key).

(** [strings.HasSuffix] *)
Definition has_suffix (suf t : string) : bool :=
  bool_decide (str_drop (String.length t - String.length suf) t = suf).

Definition WalkNarInfos {A} (s : Store) (fn : A → string → result store_err A) (a : A) : bio A :=
  walk_objects (storeNarInfoPath s +:+ "/") (λ a key,
    if has_suffix ".narinfo" key then fn a (trim_suffix ".narinfo" (base key)) else Ok a) a.

(** The listing has one key at most: a first one, or a first error. *)
Definition HasNarinfoDir (s : Store) : bio bool :=
  '(keys, e) ← ListObjects (storeNarInfoPath s +:+ "/");
  match keys, (e : option s3_err) with
  | _ :: _, _ => mret true
  | [], Some e => throw (wrapped e)
  | [], None => mret false
  end.

Definition GetSecretKey (s : Store) : bio SecretKey :=
  obj ← wrap wrapped (GetObject (secretKeyPath s));
  wrap not_found (StatObject obj);;
  skc ← wrap wrapped (ReadAll obj);
  lift (of_option ErrParse (key_load skc)).

(** The body of the critical section of [secretKeyMu]. *)
Definition PutSecretKey (s : Store) (sk : SecretKey) : bio unit :=
  r ← try (StatObject (secretKeyPath s));
  match r with
  | Ok _ => throw ErrAlreadyExists
  | Err NoSuchKey => put_text (secretKeyPath s) (key_string sk)
  | Err e => throw (wrapped e)
  end.

Definition DeleteSecretKey (s : Store) : bio unit :=
  wrap not_found (StatObject (secretKeyPath s));;
  wrap wrapped (RemoveObject (secretKeyPath s)).
End formats.
End s3.

(** ** Lemmas: keys *)

Lemma str_app_cancel p s1 s2 : p +:+ s1 = p +:+ s2 → s1 = s2.
Proof. intros Heq%(f_equal (strip_prefix p)). rewrite !strip_prefix_app in Heq. by injection Heq. Qed.

Section keys.
Implicit Types s : Store.

Definition pre s : string := if bool_decide (prefix s = "") then "" else prefix s +:+ "/".

Lemma with_prefix_pre s key : with_prefix s key = pre s +:+ key.
Proof. unfold with_prefix, pre. case_bool_decide; [done|]. by rewrite str_app_assoc. Qed.

Lemma pre_inj s1 s2 : pre s1 = pre s2 → s1 = s2.
Proof.
  destruct s1 as [p1], s2 as [p2]. unfold pre. simpl. repeat case_bool_decide; intros Heq; subst; try done.
  - by destruct p2.
  - by destruct p1.
  - by apply str_app_inj_tail in Heq as ->.
Qed.

Definition obj_key s (k : string * string) : string :=
  with_prefix s ("store/nar/" +:+ join_with "/" (nar_comps k.1 k.2)).

Lemma s3_narPath_key s u : narPath s u = obj_key s <$> nar_key u.
Proof.
  unfold narPath, nar_key, ToFilePath. destruct (Normalize u) as [v|e] eqn:Hv; [|done]. simpl.
  destruct (ToFileExtension (Compression v)) as [e|e] eqn:He; [|done]. simpl.
  apply Normalize_valid in Hv as Hh. apply ext_alnum in He.
  by destruct (NarFilePath_comps _ _ Hh He) as [-> _].
Qed.

(** The last element of a NAR's key is its file name. *)
Lemma obj_key_base s k : valid_key k = true → base (obj_key s k) = nar_filename k.1 k.2.
Proof.
  unfold valid_key. intros ?. bool_props. unfold obj_key. rewrite with_prefix_pre.
  change (join_with "/" (nar_comps k.1 k.2)) with
    (str_take 1 k.1 +:+ "/" +:+ str_take 2 k.1 +:+ "/" +:+ nar_filename k.1 k.2).
  rewrite <- !str_app_assoc. rewrite (str_app_assoc _ "/").
  change ("/" +:+ ?x) with (String "/" ("" +:+ x)). rewrite str_app_nil_l.
  apply base_app; [apply nar_filename_nonempty|]. apply nar_filename_no; [done..|set_solver].
Qed.

(** NAR keys of all the stores in a bucket are told apart. *)
Lemma obj_key_inj s1 s2 k1 k2 :
  valid_key k1 = true → valid_key k2 = true → obj_key s1 k1 = obj_key s2 k2 → s1 = s2 ∧ k1 = k2.
Proof.
  intros H1 H2 Heq. assert (k1 = k2) as <-.
  { pose proof (obj_key_base s1 k1 H1) as Hb. rewrite Heq, obj_key_base in Hb by done.
    unfold valid_key in *. destruct k1, k2. simpl in *. bool_props.
    by apply nar_filename_inj in Hb as [-> ->]. }
  split; [|done]. unfold obj_key in Heq. rewrite !with_prefix_pre in Heq.
  by apply str_app_inj_tail, pre_inj in Heq.
Qed.

Lemma obj_key_prefix s k : has_prefix (storeNarPrefix s) (obj_key s k) = true.
Proof.
  apply has_prefix_true. unfold storeNarPrefix, obj_key. rewrite !with_prefix_pre.
  exists (join_with "/" (nar_comps k.1 k.2)). by rewrite str_app_assoc.
Qed.

(** The file name of a stored NAR parses to a URL with the NAR's key. *)
Lemma filename_url u k :
  nar_key u = Ok k → ∃ v, ParseURL (nar_filename k.1 k.2) = Ok v ∧ nar_key v = Ok k.
Proof.
  unfold nar_key. intros Hk. apply bind_Ok_inv in Hk as (v & Hv%map_err_Ok & Hk).
  apply bind_Ok_inv in Hk as (e & He%map_err_Ok & [= <-]). cbn [fst snd].
  pose proof (Normalize_valid _ _ Hv) as Hh. pose proof (ext_alnum _ _ He) as Hal.
  destruct (Normalize_inv _ _ Hv) as (_ & Hn & _).
  assert (∃ ct, CompressionTypeFromExtension e = Ok ct ∧ ToFileExtension ct = Ok e) as (ct & Hct & Hce).
  { apply ToFileExtension_cases in He as [[-> _]|He]; [by eexists|].
    unfold extension_table in He.
    repeat (apply elem_of_cons in He as [[= _ ->]|He]; [by eexists|]). by apply elem_of_nil in He. }
  exists (mkURL (Hash v) ct ∅ false ""). split; [by apply ParseURL_filename|].
  unfold Normalize. cbn [Hash Compression Query]. rewrite lenient_submatch_normalized, Hn by done.
  simpl. by rewrite Hce.
Qed.

Lemma dir_key_prefix s h h' x :
  str_mem "/" h = false → str_mem "/" h' = false →
  has_prefix (stagingPartDirKey s h) (stagingPartDirKey s h' +:+ x) = true → h = h'.
Proof.
  intros Hh Hh' (r & Heq)%has_prefix_true. unfold stagingPartDirKey in Heq.
  rewrite !with_prefix_pre, !str_app_assoc in Heq.
  apply str_app_cancel, str_app_cancel in Heq. apply (f_equal (cut_char "/")) in Heq.
  change ("/" +:+ ?x) with (String "/" ("" +:+ x)) in Heq.
  rewrite !cut_char_app in Heq by done. congruence.
Qed.

Lemma part_key_inj s h1 i1 h2 i2 :
  str_mem "/" h1 = false → str_mem "/" h2 = false → (0 ≤ i1)%Z → (0 ≤ i2)%Z →
  stagingPartKey s h1 i1 = stagingPartKey s h2 i2 → (h1, i1) = (h2, i2).
Proof.
  intros H1 H2 Hi1 Hi2 Heq. assert (h1 = h2) as <-.
  { apply (dir_key_prefix s _ _ (zero_pad 20 i2 +:+ ".part")); [done..|].
    change (stagingPartDirKey s h2 +:+ zero_pad 20 i2 +:+ ".part") with (stagingPartKey s h2 i2).
    rewrite <- Heq. apply has_prefix_app. }
  unfold stagingPartKey in Heq. apply str_app_cancel, str_app_inj_tail in Heq.
  by apply zero_pad_inj in Heq as ->.
Qed.
End keys.

(** ** Lemmas: requests *)

Section requests.
Context {C : S3Client} {b : bool}.
Implicit Types m : bucket.

Lemma wp_StatObject key (Q : result s3_err Z → bucket → Prop) m :
  (b = true → Q (Err Unavailable) m) → Q (of_option NoSuchKey (size_of <$> m !! key)) m →
  wp b (StatObject key) Q m.
Proof. intros He Hq. apply wp_bind, wp_ask; [done|]. by apply wp_lift. Qed.

Lemma wp_ReadAll key (Q : result s3_err string → bucket → Prop) m :
  (b = true → Q (Err Unavailable) m) → Q (of_option NoSuchKey (m !! key)) m →
  wp b (ReadAll key) Q m.
Proof. intros He Hq. apply wp_bind, wp_ask; [done|]. by apply wp_lift. Qed.

Lemma wp_PutObject key body size (Q : result s3_err Z → bucket → Prop) m :
  (b = true → Q (Err Unavailable) m) →
  match sent body size with
  | None => Q (Err BadBody) m
  | Some c => (b = true → Q (Err Unavailable) (<[key := c]> m)) ∧ Q (Ok (size_of c)) (<[key := c]> m)
  end →
  wp b (PutObject key body size) Q m.
Proof.
  intros He Hq. unfold PutObject. destruct (sent body size) as [c|]; apply wp_bind.
  - apply wp_sql; [done|]. destruct Hq. split; [done|]. by apply wp_ret.
  - apply wp_ask; [done|]. by apply wp_throw.
Qed.

Lemma wp_RemoveObject key (Q : result s3_err unit → bucket → Prop) m :
  (b = true → Q (Err Unavailable) m) → (b = true → Q (Err Unavailable) (delete key m)) →
  Q (Ok ()) (delete key m) → wp b (RemoveObject key) Q m.
Proof. intros. by apply wp_sql. Qed.

Lemma wp_ListObjects {E} p (Q : result E _ → bucket → Prop) m :
  (∀ n, b = true → Q (Ok (take n (keys_under p m), Some Unavailable)) m) →
  Q (Ok (keys_under p m, None)) m → wp b (ListObjects p) Q m.
Proof.
  intros He Hq s <- Hs. destruct s as [c fs]. unfold ListObjects. simpl in *. destruct b.
  - destruct fs as [|[n|] fs]; simpl; (split; [done|]); auto.
  - by rewrite (Hs eq_refl).
Qed.

Lemma wp_RemoveObjects keys (Q : result s3_err unit → bucket → Prop) m :
  (∀ gone, b = true → gone ⊆ keys → Q (Err Unavailable) (foldr delete m gone)) →
  Q (Ok ()) (foldr delete m keys) → wp b (RemoveObjects keys) Q m.
Proof.
  intros He Hq s <- Hs. destruct s as [c fs]. unfold RemoveObjects. simpl in *. destruct b.
  - destruct fs as [|[n|] fs]; simpl; (split; [done|]); [done| |done]. apply He; [done|].
    intros k ([i k'] & -> & [_ Hk]%list_elem_of_filter)%list_elem_of_fmap.
    apply elem_of_lookup_imap in Hk as (j & y & [= -> ->] & Hy). by eapply list_elem_of_lookup_2.
  - by rewrite (Hs eq_refl).
Qed.

Lemma foldr_delete_lookup (keys : list string) m k :
  foldr delete m keys !! k = if bool_decide (k ∈ keys) then None else m !! k.
Proof.
  induction keys as [|k' keys IH]; simpl; [done|]. destruct (decide (k = k')) as [->|Hne].
  - rewrite lookup_delete_eq, bool_decide_true; [done|by left].
  - rewrite lookup_delete_ne, IH by done.
    rewrite (bool_decide_ext (k ∈ k' :: keys) (k ∈ keys)); [done|]. rewrite elem_of_cons. naive_solver.
Qed.

Lemma elem_of_keys_under p m k : k ∈ keys_under p m ↔ has_prefix p k = true ∧ is_Some (m !! k).
Proof.
  unfold keys_under. rewrite merge_sort_Permutation, list_elem_of_filter, list_elem_of_fmap.
  split.
  - intros (Hp & [k' x] & -> & Hk%elem_of_map_to_list). eauto.
  - intros (Hp & x & Hx). split; [done|]. exists (k, x). split; [done|]. by apply elem_of_map_to_list.
Qed.
End requests.

(** ** Lemmas: the operations on NARs *)

Section nars.
Context {C : S3Client} {L : S3ClientLaws C} {b : bool} (s : Store).
Implicit Types m : bucket.

(** Close the parts of a postcondition that the case settles. *)
Local Ltac post :=
  intros; split_and!; intros; first [done | congruence | by left | by right | split; done | idtac].

Lemma s3_narPath_Ok u k : nar_key u = Ok k → narPath s u = Ok (obj_key s k).
Proof. intros Hk. by rewrite s3_narPath_key, Hk. Qed.

Lemma narPath_Err u e : nar_key u = Err e → narPath s u = Err e.
Proof. intros Hk. by rewrite s3_narPath_key, Hk. Qed.

Lemma wp_s3_StatNar u k m : nar_key u = Ok k →
  wp b (StatNar s u) (λ r m', m' = m ∧
    (∀ p, r = Ok p → p = bool_decide (is_Some (m !! obj_key s k))) ∧ (b = false → is_ok r = true)) m.
Proof.
  intros Hk. unfold StatNar. rewrite (s3_narPath_Ok _ _ Hk). apply wp_bind, wp_lift, wp_bind, wp_try, wp_StatObject.
  - intros Hb. apply wp_throw. split_and!; done || congruence.
  - destruct (m !! obj_key s k); apply wp_ret; split_and!; try done; by intros p [= <-].
Qed.

Lemma wp_s3_GetNar u k m : nar_key u = Ok k →
  wp b (GetNar s u) (λ r m', m' = m ∧
    (∀ n obj, r = Ok (n, obj) → obj = obj_key s k ∧ size_of <$> m !! obj = Some n) ∧
    (r = Err ErrNotFound → m !! obj_key s k = None) ∧
    (b = false → r = of_option ErrNotFound ((λ c, (size_of c, obj_key s k)) <$> m !! obj_key s k))) m.
Proof.
  intros Hk. unfold GetNar. rewrite (s3_narPath_Ok _ _ Hk).
  apply wp_bind, wp_lift, wp_bind, wp_wrap, wp_ret. cbn [map_err].
  apply wp_bind, wp_wrap, wp_StatObject; [intros Hb; split_and!; done || congruence|].
  destruct (m !! obj_key s k) eqn:Hm; simpl; [|split_and!; done || congruence]. apply wp_ret. split_and!; try done.
  intros n obj [= <- <-]. by rewrite Hm.
Qed.

(** How a put that found no object can end. *)
Definition put_done (k : string) (body : Reader) (size : Z) (m : bucket)
    (r : result store_err Z) (m' : bucket) : Prop :=
  (m' = m ∧ (r = Err ErrBody ∨ r = Err (ErrIO EIO)) ∧
    (b = false → sent body size = None ∧ r = Err ErrBody)) ∨
  ∃ c, sent body size = Some c ∧ m' = <[k := c]> m ∧
    (r = Ok (size_of c) ∨ r = Err (ErrIO EIO)) ∧ (b = false → is_ok r = true).

Lemma wp_s3_put key body size m : wp b (wrap wrapped (PutObject key body size)) (put_done key body size m) m.
Proof.
  apply wp_wrap, wp_PutObject; [intros Hb; left; split_and!; [done|by right|congruence]|].
  destruct (sent body size) as [c|] eqn:Hc; [|left; split_and!; [done|by left|intros _; by split]]. split.
  - intros Hb. right. exists c. split_and!; [done..|by right|congruence].
  - right. exists c. split_and!; [done..|by left|done].
Qed.

(** The size that [PutObject] is given. *)
Definition announced (size : Z) : Z := if (0 <? size)%Z then size else -1.

Lemma wp_s3_PutNar u k body size m : nar_key u = Ok k →
  wp b (PutNar s u body size) (λ r m',
    (m' = m ∧ (r = Err ErrAlreadyExists ∨ r = Err (ErrIO EIO)) ∧
      (r = Err ErrAlreadyExists → is_Some (m !! obj_key s k)) ∧
      (b = false → is_Some (m !! obj_key s k) ∧ r = Err ErrAlreadyExists)) ∨
    (m !! obj_key s k = None ∧ put_done (obj_key s k) body (announced size) m r m')) m.
Proof.
  intros Hk. unfold PutNar. rewrite (s3_narPath_Ok _ _ Hk). apply wp_bind, wp_lift, wp_bind, wp_try, wp_StatObject.
  - intros Hb. apply wp_throw. left. split_and!; first [done | congruence | by right].
  - destruct (m !! obj_key s k) as [c|] eqn:Hm; simpl.
    { apply wp_throw. left. split_and!; [done|by left|done..]. }
    pose proof (wp_s3_put (obj_key s k) body (announced size) m) as Hput.
    unfold announced, putObjectStream in *. destruct (0 <? size)%Z;
      (eapply wp_mono; [exact Hput|]; intros r m' ?; by right).
Qed.

Lemma wp_s3_DeleteNar u k m : nar_key u = Ok k →
  wp b (DeleteNar s u) (λ r m', (m' = m ∨ m' = delete (obj_key s k) m) ∧
    (r = Err ErrNotFound → m !! obj_key s k = None) ∧
    (r = Ok () → is_Some (m !! obj_key s k) ∧ m' = delete (obj_key s k) m) ∧
    (b = false → m' = delete (obj_key s k) m ∧
       r = if m !! obj_key s k then Ok () else Err ErrNotFound)) m.
Proof.
  intros Hk. unfold DeleteNar. rewrite (s3_narPath_Ok _ _ Hk).
  apply wp_bind, wp_lift, wp_bind, wp_wrap, wp_StatObject; [post|].
  destruct (m !! obj_key s k) as [c|] eqn:Hm; simpl; [apply wp_wrap, wp_RemoveObject|]; post.
  split; [by rewrite delete_id|done].
Qed.
End nars.

(** ** The store refines a map of NARs *)

(** A NAR read to its end. *)
Definition read_nar {C : S3Client} (s : Store) (u : URL) : bio (option Z * option string) :=
  '(size, obj) ← GetNar s u;
  c ← wrap wrapped (ReadAll obj);
  mret (Some size, Some c).

Section refinement.
Context {C : S3Client} (s : Store) (size : Reader → Z).

Definition run_op (o : nar_op) (d : conn bucket) : nar_res * conn bucket :=
  match o with
  | OStat u => let '(r, d) := StatNar s u d in (RStat r, d)
  | OGet u => let '(r, d) := read_nar s u d in (RGet r, d)
  | OPut u body => let '(r, d) := PutNar s u body (size body) d in (RPut r, d)
  | ODelete u => let '(r, d) := DeleteNar s u d in (RDelete r, d)
  end.

Fixpoint run_ops (os : list nar_op) (d : conn bucket) : list nar_res * conn bucket :=
  match os with
  | [] => ([], d)
  | o :: os =>
      let '(r, d) := run_op o d in
      let '(rs, d) := run_ops os d in (r :: rs, d)
  end.

(** The bucket holds the NARs of [m] under the store's keys. *)
Definition holds (m : gmap (string * string) string) (d : bucket) : Prop :=
  ∀ k, valid_key k = true → d !! obj_key s k = m !! k.

(** The announced size: unknown, or that of the whole body, which a body that
    fails does not reach. *)
Definition fair_size (body : Reader) : Prop :=
  (size body ≤ 0)%Z ∨
  if fails body then (size_of (bytes body) < size body)%Z else size body = size_of (bytes body).
End refinement.

(** A weakest precondition at work on a bucket. *)
Lemma bucket_run {b E A} (p : eff (conn bucket) E A) Q (d : conn bucket) :
  wp b p Q (cat d) → calm b d → calm b (p d).2 ∧ Q (p d).1 (cat (p d).2).
Proof. intros Hp. by apply Hp. Qed.

Section refinement_lemmas.
Context {C : S3Client} {L : S3ClientLaws C} (s : Store) (size : Reader → Z).

Lemma wp_read_nar {b} u k (m : bucket) : nar_key u = Ok k →
  wp b (read_nar s u) (λ r m', m' = m ∧
    (∀ v, r = Ok v → ∃ c, m !! obj_key s k = Some c ∧ v = (Some (size_of c), Some c)) ∧
    (b = false → r = match m !! obj_key s k with
                     | Some c => Ok (Some (size_of c), Some c)
                     | None => Err ErrNotFound
                     end)) m.
Proof.
  intros Hk. apply wp_bind. eapply wp_mono; [by apply wp_s3_GetNar|].
  intros [[n obj]|e] m' (-> & Hok & _ & Hr).
  - destruct (Hok _ _ eq_refl) as [-> Hn]. destruct (m !! obj_key s k) as [c|] eqn:Hm; [|done].
    injection Hn as <-. apply wp_bind, wp_wrap, wp_ReadAll; [intros Hb; split_and!; [done..|congruence]|].
    rewrite Hm. apply wp_ret. split_and!; [done| |done]. intros v [= <-]. by exists c.
  - split_and!; [done..|]. intros Hb. specialize (Hr Hb). destruct (m !! obj_key s k); simpl in Hr; congruence.
Qed.

(** A body put undisturbed with a fair size makes its bytes an object. *)
Lemma sent_fair body :
  fair_size size body →
  sent body (announced (size body)) = if fails body then None else Some (bytes body).
Proof.
  unfold fair_size, announced. intros Hf. destruct (Z.ltb_spec 0 (size body)); [|apply sent_stream].
  destruct Hf as [?|Hf]; [lia|]. destruct (fails body) eqn:Hb; [|rewrite Hf; by apply sent_exact].
  destruct (sent body (size body)) as [c|] eqn:Hc; [|done]. exfalso.
  apply sent_sized in Hc as [-> Hl]; [|lia]. unfold size_of in *. rewrite str_take_all in Hl; lia.
Qed.

Lemma holds_insert m d k c :
  valid_key k = true → holds s m d → holds s (<[k := c]> m) (<[obj_key s k := c]> d).
Proof.
  intros Hk Hm k' Hk'. destruct (decide (k = k')) as [<-|Hne]; [by rewrite !lookup_insert_eq|].
  rewrite !lookup_insert_ne; [by apply Hm|done|]. by intros [_ ?]%obj_key_inj.
Qed.

Lemma holds_delete m d k :
  valid_key k = true → holds s m d → holds s (delete k m) (delete (obj_key s k) d).
Proof.
  intros Hk Hm k' Hk'. destruct (decide (k = k')) as [<-|Hne]; [by rewrite !lookup_delete_eq|].
  rewrite !lookup_delete_ne; [by apply Hm|done|]. by intros [_ ?]%obj_key_inj.
Qed.

Definition fair_op (o : nar_op) : Prop :=
  match o with OPut _ body => fair_size size body | _ => True end.

Lemma s3_run_op_spec m o d r d' :
  fair_op o → calm false d → holds s m (cat d) → run_op s size o d = (r, d') →
  ∃ m', nar_spec m o r m' ∧ calm false d' ∧ holds s m' (cat d').
Proof.
  intros Hf Hq Hm. destruct o as [u|u|u body|u]; simpl;
    (destruct (nar_key u) as [k|e] eqn:Hk;
     [pose proof (nar_key_valid _ _ Hk) as Hv; pose proof (Hm k Hv) as Hmk
     |pose proof (narPath_Err s _ _ Hk) as Herr;
      unfold read_nar, StatNar, GetNar, PutNar, DeleteNar; rewrite Herr;
      intros [= <- <-]; exists m; split; [by econstructor|done]]).
  - destruct (bucket_run _ _ d (wp_s3_StatNar s u k _ Hk) Hq) as (Hq' & Hn & Hp & Hr).
    specialize (Hr eq_refl). destruct (StatNar s u d) as [[p|e] d0]; [|done]. cbn [fst snd] in *.
    rewrite (Hp _ eq_refl) in *. intros [= <- <-]. exists m.
    rewrite Hn, Hmk. split; [by constructor|done].
  - destruct (bucket_run _ _ d (wp_read_nar u k _ Hk) Hq) as (Hq' & Hn & _ & Hr).
    specialize (Hr eq_refl). destruct (read_nar s u d) as [r0 d0]. cbn [fst snd] in *. subst r0.
    intros [= <- <-]. exists m. 
    rewrite Hn, Hmk. split; [|done]. destruct (m !! k) eqn:Hmm; by econstructor.
  - pose proof (sent_fair _ Hf) as Hs.
    destruct (bucket_run _ _ d (wp_s3_PutNar s u k body (size body) _ Hk) Hq) as (Hq' & Ho).
    destruct (PutNar s u body (size body) d) as [r0 d0]. cbn [fst snd] in *.
    
    intros [= <- <-]. destruct Ho as [(-> & _ & _ & Hr)|(Hnone & Ho)].
    + destruct (Hr eq_refl) as [Hex ->]. exists m. split; [|done]. rewrite Hmk in Hex. by econstructor.
    + rewrite Hmk in Hnone. destruct Ho as [(-> & _ & Hr)|(c & Hc & -> & Hn & Hr)].
      * destruct (Hr eq_refl) as [Hs' ->]. exists m. split; [|done]. rewrite Hs' in Hs.
        destruct (fails body) eqn:Hfb; [|done]. by econstructor.
      * rewrite Hc in Hs. destruct (fails body) eqn:Hfb; [done|]. injection Hs as ->.
        destruct Hn as [->| ->]; [|by specialize (Hr eq_refl)].
        exists (<[k := bytes body]> m). split; [by constructor|]. split; [done|]. by apply holds_insert.
  - destruct (bucket_run _ _ d (wp_s3_DeleteNar s u k _ Hk) Hq) as (Hq' & _ & _ & _ & Hr).
    destruct (DeleteNar s u d) as [r0 d0]. cbn [fst snd] in *. destruct (Hr eq_refl) as [Hd ->].
    intros [= <- <-]. exists (delete k m). rewrite Hd. split_and!; [|done|by apply holds_delete].
    rewrite Hmk. destruct (m !! k) as [c|] eqn:Hmm; [eapply spec_delete; [exact Hk|by eexists]|].
    rewrite delete_id by done. by eapply spec_delete_missing.
Qed.
End refinement_lemmas.

(** ** Lemmas: walks and staging parts *)

Section walks.
Context {C : S3Client} (s : Store).
Implicit Types m : bucket.

Lemma walk_fold_collect {A B} (f : A → option B) (fn : list B → A → result store_err (list B)) acc l :
  (∀ acc x, fn acc x = Ok (match f x with Some y => acc ++ [y] | None => acc end)) →
  walk_fold fn acc l = Ok (acc ++ omap f l).
Proof.
  intros Hfn. revert acc. induction l as [|x l IH]; intros acc; cbn [walk_fold omap list_omap].
  - by rewrite app_nil_r.
  - rewrite Hfn. cbn [mbind result_bind]. rewrite IH. destruct (f x); [|done]. by rewrite <- app_assoc.
Qed.

(** The URLs of the NARs under a store's prefix, as a walk meets them. *)
Definition url_of (key : string) : option URL :=
  match ParseURL (base key) with Ok u => Some u | Err _ => None end.

Definition listed_nars m : list URL :=
  omap url_of (keys_under (storeNarPrefix s) m).

Lemma listed_nars_spec m u k c :
  nar_key u = Ok k → m !! obj_key s k = Some c → ∃ v, v ∈ listed_nars m ∧ nar_key v = Ok k.
Proof.
  intros Hk Hm. destruct (filename_url _ _ Hk) as (v & Hp & Hv). exists v. split; [|done].
  apply list_elem_of_omap. exists (obj_key s k). split.
  - apply elem_of_keys_under. split; [apply obj_key_prefix|by eexists].
  - unfold url_of. by rewrite obj_key_base, Hp by by eapply nar_key_valid.
Qed.

(** A walk that collects what it meets. *)
Definition collect_nars : bio (list URL) := WalkNars s (λ l u, Ok (l ++ [u])) [].

Lemma wp_collect_nars {b} m :
  wp b collect_nars (λ r m', m' = m ∧ (∀ l, r = Ok l → l = listed_nars m) ∧
    (b = false → r = Ok (listed_nars m))) m.
Proof.
  assert (∀ l, walk_fold (λ a key, match ParseURL (base key) with
    | Err _ => Ok a | Ok u => Ok (E := store_err) (a ++ [u]) end) [] l = Ok (omap url_of l)) as Hfold.
  { intros l. rewrite <- (app_nil_l (omap _ _)). apply walk_fold_collect. intros acc x.
    unfold url_of. by destruct (ParseURL _). }
  unfold collect_nars, WalkNars, walk_objects. apply wp_bind, wp_ListObjects.
  - intros n Hb. apply wp_bind, wp_lift. rewrite Hfold. apply wp_throw. split_and!; [done..|congruence].
  - apply wp_bind, wp_lift. rewrite Hfold. apply wp_ret. split_and!; [done| |done]. by intros l [= <-].
Qed.
End walks.

Section parts.
Context {C : S3Client} (s : Store).

(** The parts of a NAR in the bucket. *)
Definition part_at (h : string) (i : Z) (d : bucket) : option string := d !! stagingPartKey s h i.

(** A part read to its end. *)
Definition read_part (h : string) (i : Z) : bio string :=
  obj ← GetStagingPart s h i;
  wrap wrapped (ReadAll obj).

#[export] Instance s3_parts : PartStore := {
  pst := conn bucket;
  part d h i := part_at h i (cat d);
  put_part h i data := PutStagingPart s h i (mkReader data false) (size_of data);
  get_part h i := read_part h i;
  delete_parts h := DeleteStagingParts s h;
}.

Context {L : S3ClientLaws C}.

Lemma sent_data data : sent (mkReader data false) (announced (size_of data)) = Some data.
Proof.
  unfold announced. destruct (Z.ltb_spec 0 (size_of data)).
  - by apply (sent_exact (mkReader data false)).
  - by rewrite sent_stream.
Qed.

Lemma wp_s3_PutStagingPart {b} h i body size d :
  wp b (PutStagingPart s h i body size) (put_done (b := b) (stagingPartKey s h i) body (announced size) d) d.
Proof.
  pose proof (wp_s3_put (b := b) (stagingPartKey s h i) body (announced size) d) as Hput.
  unfold PutStagingPart, announced, putObjectStream in *.
  destruct (Z.ltb_spec 0 size), (Z.leb_spec size 0); try lia; exact Hput.
Qed.

Lemma wp_read_part {b} h i d :
  wp b (read_part h i) (λ r d', d' = d ∧ (∀ x, r = Ok x → part_at h i d = Some x) ∧
    (r = Err ErrNotFound → part_at h i d = None)) d.
Proof.
  unfold read_part, GetStagingPart, part_at.
  apply wp_bind, wp_bind, wp_wrap, wp_ret, wp_bind, wp_wrap, wp_StatObject; [done|].
  destruct (d !! stagingPartKey s h i) as [c|] eqn:Hd; simpl; [|done].
  apply wp_ret, wp_wrap, wp_ReadAll; [done|]. rewrite Hd. simpl. split_and!; [done| |done]. by intros x [= <-].
Qed.

Lemma wp_s3_DeleteStagingParts {b} h d :
  wp b (DeleteStagingParts s h) (λ r d', ∃ gone,
    gone ⊆ keys_under (stagingPartDirKey s h) d ∧ d' = foldr delete d gone ∧
    (r = Ok () → gone = keys_under (stagingPartDirKey s h) d)) d.
Proof.
  unfold DeleteStagingParts. apply wp_bind, wp_ListObjects.
  - intros n Hb. apply wp_bind, wp_wrap, wp_RemoveObjects.
    + intros gone _ Hg. exists gone. split_and!; [|done|done]. etrans; [done|]. apply subseteq_take.
    + apply wp_throw. eexists. split_and!; [apply subseteq_take|done|done].
  - apply wp_bind, wp_wrap, wp_RemoveObjects.
    + intros gone _ Hg. by exists gone.
    + apply wp_ret. by eexists.
Qed.

#[export] Instance s3_parts_laws : PartStoreLaws s3_parts.
Proof.
  refine {| pst_ok := λ _ : @pst s3_parts, True; pst_hash := λ h, str_mem "/" h = false |}; simpl.
  - intros h i data d _ Hh Hi.
    destruct (bucket_run _ _ d (wp_s3_PutStagingPart (b := true) h i (mkReader data false) (size_of data) _)
      ltac:(done)) as [_ Hp]. unfold put_done in Hp. rewrite sent_data in Hp.
    destruct (PutStagingPart s h i (mkReader data false) (size_of data) d) as [r d']. cbn [fst snd] in Hp.
    unfold part_at. destruct Hp as [(-> & Hr & _)|(c & [= <-] & -> & _)].
    + split_and!; [done|by left|done|]. intros n ->. by destruct Hr.
    + rewrite lookup_insert_eq. split_and!; [done|by right| |done].
      intros h' i' Hh' Hi' Hne. rewrite lookup_insert_ne; [done|].
      intros Heq%part_key_inj; [|done..]. by destruct Hne.
  - intros h i d _ Hh. destruct (bucket_run _ _ d (wp_read_part (b := true) h i _) ltac:(done)) as [_ Hp].
    destruct (read_part h i d) as [r d']. cbn [fst snd] in Hp. destruct Hp as (-> & Hx & Hn). by split_and!.
  - intros h d _ Hh.
    destruct (bucket_run _ _ d (wp_s3_DeleteStagingParts (b := true) h _) ltac:(done)) as [_ Hp].
    destruct (DeleteStagingParts s h d) as [r d']. cbn [fst snd] in Hp.
    destruct Hp as (gone & Hg & -> & Hr). unfold part_at. setoid_rewrite foldr_delete_lookup. split_and!; [done|..].
    + intros i x. by case_bool_decide.
    + intros h' i' Hh' Hne. rewrite bool_decide_false; [done|].
      intros (Hp & _)%Hg%elem_of_keys_under. destruct Hne. symmetry.
      by apply (dir_key_prefix s _ _ (zero_pad 20 i' +:+ ".part")).
    + intros ->. intros i. rewrite (Hr eq_refl). case_bool_decide as Hin; [done|].
      apply eq_None_not_Some. intros Hs. apply Hin, elem_of_keys_under. split; [|done]. apply has_prefix_app.
Defined.
End parts.

(** ** The properties *)

(** C8. The S3 store implements [storage.NarStore] exactly as the local store
    does: on a bucket whose requests succeed, any sequence of [StatNar], [GetNar]
    (the object read to its end), [PutNar] and [DeleteNar] gives the results of a
    map from NAR keys to contents, with the same specification; the announced size
    of a put is unknown or that of the whole body. *)
Theorem s3_store_refines {C : S3Client} {L : S3ClientLaws C} (s : Store) (size : Reader → Z)
    (ops : list nar_op) (m : nars) (d : conn bucket) :
  Forall (fair_op size) ops → calm false d → holds s m (cat d) →
  ∃ m', nar_specs m ops (run_ops s size ops d).1 m' ∧ holds s m' (cat (run_ops s size ops d).2).
Proof.
  intros Hf. revert m d. induction Hf as [|o ops Ho _ IH]; intros m d Hq Hm; simpl.
  - exists m. split; [constructor|done].
  - destruct (run_op s size o d) as [r d1] eqn:Hr.
    destruct (s3_run_op_spec s size m o d r d1 Ho Hq Hm Hr) as (m1 & Hspec & Hq1 & Hm1).
    destruct (IH m1 d1 Hq1 Hm1) as (m2 & Hspecs & Hm2).
    destruct (run_ops s size ops d1) as [rs d2]. simpl in *. exists m2.
    split; [by econstructor|done].
Qed.

(** [PutNar] on S3 is atomic under faults: whatever requests fail, before or
    after their effect, no object but the NAR's changes; the NAR's object is what
    it was or, if there was none, appears whole: all the bytes of a body that did
    not fail when the size is unknown, and exactly [size] bytes of it when the size
    is announced. [Ok n] means that it is there with [n] bytes, and "already
    exists" that it was there and nothing was done. *)
Theorem s3_put_nar_atomic {C : S3Client} {L : S3ClientLaws C} (s : Store) (u : URL)
    (body : Reader) (size : Z) (d : conn bucket) (key : string) :
  narPath s u = Ok key →
  let '(r, d') := PutNar s u body size d in
  (∀ k, k ≠ key → cat d' !! k = cat d !! k) ∧
  (cat d' !! key = cat d !! key ∨
   ∃ c, cat d !! key = None ∧ cat d' !! key = Some c ∧
     if (0 <? size)%Z then c = str_take (Z.to_nat size) (bytes body) ∧ size_of c = size
     else fails body = false ∧ c = bytes body) ∧
  (∀ n, r = Ok n → cat d !! key = None ∧ ∃ c, cat d' !! key = Some c ∧ n = size_of c) ∧
  (r = Err ErrAlreadyExists → cat d' = cat d ∧ is_Some (cat d !! key)).
Proof.
  rewrite s3_narPath_key. destruct (nar_key u) as [k|] eqn:Hk; [|done]. intros [= <-].
  destruct (bucket_run _ _ d (wp_s3_PutNar (b := true) s u k body size _ Hk) ltac:(done)) as [_ Hp].
  destruct (PutNar s u body size d) as [r d']. cbn [fst snd] in Hp.
  destruct Hp as [(-> & Hr & Hex & _)|(Hnone & [(-> & Hr & _)|(c & Hc & -> & Hr & _)])].
  - split_and!; [done|by left|intros n ->; by destruct Hr|auto].
  - split_and!; [done|by left|intros n ->; by destruct Hr|intros ->; by destruct Hr].
  - rewrite lookup_insert_eq. split_and!.
    + intros k' Hne. by rewrite lookup_insert_ne.
    + right. exists c. split_and!; [done..|]. unfold announced in Hc.
      destruct (Z.ltb_spec 0 size); [apply sent_sized in Hc; [done|lia]|].
      rewrite sent_stream in Hc. destruct (fails body); [done|]. by injection Hc.
    + intros n ->. destruct Hr as [[= ->]|]; [|done]. eauto.
    + intros ->. by destruct Hr.
Qed.

(** A walk misses no NAR: whatever requests fail, when [WalkNars] ends
    without error it has met, for every NAR URL whose object is in the bucket, a
    URL with the same key, once for each object under the store's prefix whose
    name is a NAR's; the bucket is unchanged. Without faults it ends without
    error. *)
Theorem walk_finds_every_nar {C : S3Client} (s : Store) (d : conn bucket) (l : list URL) :
  (collect_nars s d).1 = Ok l →
  cat (collect_nars s d).2 = cat d ∧ l = listed_nars s (cat d) ∧
  ∀ u k c, nar_key u = Ok k → cat d !! obj_key s k = Some c → ∃ v, v ∈ l ∧ nar_key v = Ok k.
Proof.
  destruct (bucket_run _ _ d (wp_collect_nars (b := true) s _) ltac:(done)) as (_ & Hd & Hl & _).
  intros Hr. rewrite Hd. split; [done|]. specialize (Hl _ Hr) as ->. split; [done|].
  intros u k c. by apply listed_nars_spec.
Qed.

(** Two stores with different prefixes in one bucket do not see each other's NARs:
    no operation on one, whatever fails, changes a NAR of the other. *)
Theorem s3_stores_apart {C : S3Client} {L : S3ClientLaws C} (s1 s2 : Store) (size : Reader → Z)
    (o : nar_op) (d : conn bucket) (k : string * string) :
  s1 ≠ s2 → valid_key k = true →
  cat (run_op s1 size o d).2 !! obj_key s2 k = cat d !! obj_key s2 k.
Proof.
  intros Hne Hv. assert (∀ k', valid_key k' = true → obj_key s1 k' ≠ obj_key s2 k) as Hk'.
  { by intros k' Hk' [? _]%obj_key_inj. }
  destruct o as [u|u|u body|u]; simpl;
    (destruct (nar_key u) as [k'|e] eqn:Hk;
     [specialize (Hk' _ (nar_key_valid _ _ Hk))
     |pose proof (narPath_Err s1 _ _ Hk) as Herr;
      unfold read_nar, StatNar, GetNar, PutNar, DeleteNar; by rewrite Herr]).
  - destruct (bucket_run _ _ d (wp_s3_StatNar (b := true) s1 u k' _ Hk) ltac:(done)) as (_ & Hd & _).
    destruct (StatNar s1 u d). cbn [fst snd] in *. by rewrite Hd.
  - destruct (bucket_run _ _ d (wp_read_nar (b := true) s1 u k' _ Hk) ltac:(done)) as (_ & Hd & _).
    destruct (read_nar s1 u d). cbn [fst snd] in *. by rewrite Hd.
  - destruct (bucket_run _ _ d (wp_s3_PutNar (b := true) s1 u k' body (size body) _ Hk) ltac:(done)) as (_ & Ho).
    destruct (PutNar s1 u body (size body) d). cbn [fst snd] in *.
    destruct Ho as [(-> & _)|(_ & [(-> & _)|(? & _ & -> & _)])]; [done..|]. by rewrite lookup_insert_ne.
  - destruct (bucket_run _ _ d (wp_s3_DeleteNar (b := true) s1 u k' _ Hk) ltac:(done)) as (_ & Hd & _).
    destruct (DeleteNar s1 u d). cbn [fst snd] in *. destruct Hd as [-> | ->]; [done|]. by rewrite lookup_delete_ne.
Qed.

(** ** A client, and witnesses *)

#[local] Instance sample_client : S3Client := {
  sent body n :=
    if (n <? 0)%Z then if fails body then None else Some (bytes body)
    else if (size_of (bytes body) <? n)%Z then None else Some (str_take (Z.to_nat n) (bytes body));
}.

#[local] Instance sample_client_laws : S3ClientLaws sample_client.
Proof.
  split.
  - done.
  - intros body n c Hn. simpl. rewrite (proj2 (Z.ltb_ge n 0)) by done.
    destruct (Z.ltb_spec (size_of (bytes body)) n); [done|]. intros [= <-]. split; [done|].
    unfold size_of in *. rewrite str_length_take; lia.
  - intros body Hb. simpl. unfold size_of. rewrite (proj2 (Z.ltb_ge _ 0)), Z.ltb_irrefl by lia.
    by rewrite str_take_all by lia.
Defined.

Definition sample_s3 : Store := mkStore "ncps".
Definition empty_bucket : conn bucket := mkConn ∅ [].

Definition sample_size (body : Reader) : Z := if fails body then 0 else size_of (bytes body).

Lemma s3_store_refines_witness :
  (run_ops sample_s3 sample_size sample_ops empty_bucket).1 =
    [RStat (Ok false); RPut (Ok 14%Z); RGet (Ok (Some 14%Z, Some "some nar bytes"));
     RPut (Err ErrAlreadyExists); RDelete (Ok ()); RGet (Err ErrNotFound)] ∧
  ∃ m', nar_specs ∅ sample_ops (run_ops sample_s3 sample_size sample_ops empty_bucket).1 m'.
Proof.
  split; [vm_compute; reflexivity|].
  destruct (s3_store_refines sample_s3 sample_size sample_ops ∅ empty_bucket) as (m' & Hs & _).
  - repeat constructor; right; reflexivity.
  - intros _. reflexivity.
  - intros k _. by rewrite !lookup_empty.
  - exists m'. exact Hs.
Defined.

Definition sample_key : string := obj_key sample_s3 (sample_hash, "xz").

(** The put's answer is lost: the object is there all the same. *)
Lemma s3_put_nar_atomic_witness :
  let '(r, d') := PutNar sample_s3 sample_url sample_body 14 (mkConn ∅ [None; Some 1]) in
  r = Err (ErrIO EIO) ∧ cat d' !! sample_key = Some "some nar bytes" ∧ cat d' !! "other" = None.
Proof.
  pose proof (s3_put_nar_atomic sample_s3 sample_url sample_body 14 (mkConn ∅ [None; Some 1]) sample_key eq_refl) as Hp.
  assert ((PutNar sample_s3 sample_url sample_body 14 (mkConn ∅ [None; Some 1])).1 = Err (ErrIO EIO) ∧
    cat (PutNar sample_s3 sample_url sample_body 14 (mkConn ∅ [None; Some 1])).2 !! sample_key = Some "some nar bytes")
    as [Hr Hc] by (vm_compute; done).
  destruct (PutNar sample_s3 sample_url sample_body 14 (mkConn ∅ [None; Some 1])) as [r d'].
  destruct Hp as (Hp & _). split; [exact Hr|]. split; [exact Hc|]. apply Hp. done.
Defined.

Definition full_bucket : conn bucket := (PutNar sample_s3 sample_url sample_body 14 empty_bucket).2.

Lemma walk_finds_every_nar_witness :
  (collect_nars sample_s3 full_bucket).1 = Ok [sample_url] ∧
  ∃ v, v ∈ [sample_url] ∧ nar_key v = Ok (sample_hash, "xz").
Proof.
  assert ((collect_nars sample_s3 full_bucket).1 = Ok [sample_url]) as Hc by (vm_compute; reflexivity).
  split; [exact Hc|]. destruct (walk_finds_every_nar sample_s3 full_bucket [sample_url] Hc) as (_ & _ & Hw).
  apply (Hw sample_url (sample_hash, "xz") "some nar bytes"); vm_compute; reflexivity.
Defined.

Lemma s3_stores_apart_witness :
  cat (run_op (mkStore "") sample_size (ODelete sample_url) full_bucket).2 !! sample_key = Some "some nar bytes".
Proof.
  assert (valid_key (sample_hash, "xz") = true) as Hv by (vm_compute; reflexivity).
  unfold sample_key. rewrite (s3_stores_apart (mkStore "") sample_s3 sample_size (ODelete sample_url) full_bucket
    (sample_hash, "xz") ltac:(done) Hv). vm_compute. reflexivity.
Defined.

(** [storage.NarStore] says that a staging part with a negative index is an invalid
    argument, as the local store answers; the S3 store stores it. *)
Example negative_part_stored :
  (LocalStore.PutStagingPart sample_store sample_hash (-1) sample_body sample_new).1 = Err ErrInvalidArgument ∧
  (PutStagingPart sample_s3 sample_hash (-1) sample_body 14 empty_bucket).1 = Ok 14%Z.
Proof. by vm_compute. Qed.

(** Narinfos and the secret key go through the same requests: put, found, refused a
    second time, walked, read back and deleted. *)
Example narinfo_and_key_lifecycle :
  let h := str_take 32 sample_hash in
  let put := PutNarInfo (NarInfo := string) id sample_s3 h "StorePath: x" in
  let d := (put empty_bucket).2 in
  ((HasNarInfo sample_s3 h d).1, (put d).1, (GetNarInfo Some sample_s3 h d).1,
   (WalkNarInfos sample_s3 (λ l x, Ok (l ++ [x])) [] d).1, (HasNarinfoDir sample_s3 d).1,
   (DeleteNarInfo sample_s3 h d).1, (GetNarInfo Some sample_s3 h (DeleteNarInfo sample_s3 h d).2).1) =
  (Ok true, Err ErrAlreadyExists, Ok "StorePath: x", Ok [h], Ok true, Ok (), Err ErrNotFound) ∧
  let put := PutSecretKey (SecretKey := string) id sample_s3 "key" in
  let d := (put empty_bucket).2 in
  ((put d).1, (GetSecretKey Some sample_s3 d).1, (GetSecretKey Some sample_s3 (DeleteSecretKey sample_s3 d).2).1) =
  (Err ErrAlreadyExists, Ok "key", Err ErrNotFound).
Proof. by vm_compute. Qed.
