(* ===== verification/S3Chunk.v ===== *)
(** * Package [pkg/storage/chunk]: the chunk store in an S3 bucket

    The chunks are objects under [store/chunk/], compressed; the store promises
    what the chunking of [CDC] asks of a chunk store.  Unlike the keys of [S3],
    those of the chunks do not depend on the configured prefix. *)
From S2P Require Import CDC.
From S2P Require Import Prelude GoStd Nar FS Conn LocalStore ChunkStore S3.

Notation sio := (eff (conn bucket) chunk_err).

(** An error of the client, passed on. *)
Definition chunk_wrapped (e : s3_err) : chunk_err := CIO EIO.

Definition chunk_not_found (e : s3_err) : chunk_err :=
  match e with NoSuchKey => CNotFound | e => chunk_wrapped e end.

Definition chunkPath (hash : string) : result chunk_err string :=
  if (String.length hash <? 3)%nat then Err (CNar ErrInputTooShort)
  else Ok (join ["store"; "chunk"; str_take 1 hash; str_take 2 hash; hash]).

Section s3chunk.
Context {client_lib : S3Client}.
(** The zstd codec (klauspost/compress, through [pkg/zstd]'s pools). *)
Context (compress : string → string) (decompress : string → option string).

Definition HasChunk (hash : string) : sio bool :=
  key ← lift (chunkPath hash);
  r ← try (StatObject key);
  match r with
  | Ok _ => mret true
  | Err NoSuchKey => mret false
  | Err e => throw (chunk_wrapped e)
  end.

Definition GetRawChunk (hash : string) : sio string :=
  key ← lift (chunkPath hash);
  obj ← wrap chunk_not_found (GetObject key);
  wrap chunk_not_found (StatObject obj);;
  mret obj.

(** A chunk read to its end through the decompressor. *)
Definition GetChunk (hash : string) : sio string :=
  key ← lift (chunkPath hash);
  obj ← wrap chunk_not_found (GetObject key);
  wrap chunk_not_found (StatObject obj);;
  c ← wrap chunk_wrapped (ReadAll obj);
  lift (of_option CDecode (decompress c)).

(** [s.locker.Lock]: it may fail, and touches nothing in the bucket. *)
Definition lock_chunk : sio unit := wrap chunk_wrapped (ask Unavailable (λ _, ())).

Definition PutChunk (hash data : string) : sio (bool * Z) :=
  key ← lift (chunkPath hash);
  lock_chunk;;
  exists_ ← HasChunk hash;
  let compressed := compress data in
  if (exists_ : bool) then mret (false, size_of compressed)
  else
    wrap chunk_wrapped (PutObject key (mkReader compressed false) (size_of compressed));;
    mret (true, size_of compressed).

Definition DeleteChunk (hash : string) : sio unit :=
  key ← lift (chunkPath hash);
  r ← try (RemoveObject key);
  match r with
  | Ok _ | Err NoSuchKey => mret ()
  | Err e => throw (chunk_wrapped e)
  end.

(** The callback folds over an accumulator. *)
Fixpoint fold_keys {A} (fn : A → string → result chunk_err A) (a : A) (keys : list string) :
    result chunk_err A :=
  match keys with
  | [] => Ok a
  | key :: keys =>
      let hash := base key in
      if (String.length hash <? 3)%nat then fold_keys fn a keys
      else a' ← fn a hash; fold_keys fn a' keys
  end.

Definition WalkChunks {A} (fn : A → string → result chunk_err A) (a : A) : sio A :=
  '(keys, e) ← ListObjects "store/chunk/";
  a ← lift (fold_keys fn a keys);
  match (e : option s3_err) with Some e => throw (chunk_wrapped e) | None => mret a end.
End s3chunk.

(** ** Lemmas *)

Section lemmas.
Context {C : S3Client} {L : S3ClientLaws C}.
Context (compress : string → string) (decompress : string → option string).
Context {b : bool}.
Implicit Types m : bucket.

Definition chunk_key (hash : string) : string :=
  "store/chunk/" +:+ str_take 1 hash +:+ "/" +:+ str_take 2 hash +:+ "/" +:+ hash.

Lemma valid_chunk_key hash : valid_chunk hash = true → chunkPath hash = Ok (chunk_key hash).
Proof.
  unfold valid_chunk. intros Hv. bool_props. apply Nat.leb_le in H.
  assert (str_forall hash_char hash = true) as Hc.
  { eapply str_forall_weaken; [|done]. intros c Hc. unfold hash_char. rewrite Hc. by rewrite orb_true_r. }
  destruct (sharding_spec hash "" H Hc eq_refl) as [_ HP]. rewrite str_app_nil_r in HP.
  unfold chunkPath. rewrite (proj2 (Nat.ltb_ge _ _)) by done. f_equal.
  rewrite join_plain; [reflexivity|done|]. cbn [forallb] in *. by rewrite HP.
Qed.

Lemma chunk_key_base hash : valid_chunk hash = true → base (chunk_key hash) = hash.
Proof.
  unfold valid_chunk. intros Hv. bool_props. apply Nat.leb_le in H. unfold chunk_key.
  rewrite <- !str_app_assoc. rewrite (str_app_assoc _ "/"). change ("/" +:+ hash) with (String "/" ("" +:+ hash)).
  rewrite str_app_nil_l. apply base_app; [intros ->; simpl in H; lia|].
  by eapply str_mem_of_forall.
Qed.

Lemma chunk_key_inj h1 h2 :
  valid_chunk h1 = true → valid_chunk h2 = true → chunk_key h1 = chunk_key h2 → h1 = h2.
Proof. intros H1 H2 Heq%(f_equal base). by rewrite !chunk_key_base in Heq. Qed.

Lemma wp_HasChunk h m : valid_chunk h = true →
  wp b (HasChunk h) (λ r m', m' = m ∧ (∀ p, r = Ok p → p = bool_decide (is_Some (m !! chunk_key h))) ∧
    (b = false → is_ok r = true)) m.
Proof.
  intros Hv. unfold HasChunk. rewrite valid_chunk_key by done.
  apply wp_bind, wp_lift, wp_bind, wp_try, wp_StatObject.
  - intros Hb. apply wp_throw. split_and!; done || congruence.
  - destruct (m !! chunk_key h); apply wp_ret; split_and!; try done; by intros p [= <-].
Qed.

Lemma wp_s3_GetChunk h m : valid_chunk h = true →
  wp b (GetChunk decompress h) (λ r m', m' = m ∧
    (∀ x, r = Ok x → m !! chunk_key h ≫= decompress = Some x) ∧
    (r = Err CNotFound → m !! chunk_key h = None) ∧
    (b = false → r = match m !! chunk_key h with
                     | Some c => of_option CDecode (decompress c)
                     | None => Err CNotFound
                     end)) m.
Proof.
  intros Hv. unfold GetChunk. rewrite valid_chunk_key by done.
  apply wp_bind, wp_lift, wp_bind, wp_wrap, wp_ret, wp_bind, wp_wrap, wp_StatObject;
    [intros Hb; split_and!; done || congruence|].
  destruct (m !! chunk_key h) as [c|] eqn:Hm; simpl; [|split_and!; done || congruence].
  apply wp_bind, wp_wrap, wp_ReadAll; [intros Hb; split_and!; done || congruence|].
  rewrite Hm. apply wp_lift. destruct (decompress c) eqn:Hd; simpl; split_and!; try done.
  intros x [= <-]. done.
Qed.

Lemma wp_s3_PutChunk h data m : valid_chunk h = true →
  wp b (PutChunk compress h data) (λ r m', ∃ new,
    (m' = if (new : bool) then <[chunk_key h := compress data]> m else m) ∧
    (new = true → m !! chunk_key h = None) ∧
    (∀ v, r = Ok v → v = (new, size_of (compress data)) ∧ (new = false → is_Some (m !! chunk_key h))) ∧
    (b = false → is_ok r = true)) m.
Proof.
  intros Hv. unfold PutChunk. rewrite valid_chunk_key by done. apply wp_bind, wp_lift.
  apply wp_bind. unfold lock_chunk. apply wp_wrap, wp_ask.
  { intros Hb. exists false. split_and!; done || congruence. }
  apply wp_bind. eapply wp_mono; [by apply wp_HasChunk|]. intros [p|e] m' (-> & Hp & Hok).
  2:{ exists false. split_and!; try done. }
  rewrite (Hp p eq_refl). case_bool_decide as Hex.
  - apply wp_ret. exists false. split_and!; try done. by intros v [= <-].
  - apply wp_bind, wp_wrap, wp_PutObject; [intros Hb; exists false; split_and!; done || congruence|].
    change (compress data) with (bytes (mkReader (compress data) false)) at 1 2.
    rewrite sent_exact by done. cbn [bytes]. apply eq_None_not_Some in Hex. split.
    + intros Hb. exists true. split_and!; done || congruence.
    + apply wp_ret. exists true. split_and!; try done. by intros v [= <-].
Qed.

Lemma wp_s3_DeleteChunk h m : valid_chunk h = true →
  wp b (DeleteChunk h) (λ r m', (m' = m ∨ m' = delete (chunk_key h) m) ∧
    (r = Ok () → m' = delete (chunk_key h) m) ∧ (b = false → r = Ok ())) m.
Proof.
  intros Hv. unfold DeleteChunk. rewrite valid_chunk_key by done.
  apply wp_bind, wp_lift, wp_bind, wp_try, wp_RemoveObject.
  - intros Hb. apply wp_throw. split_and!; [by left|done|congruence].
  - intros Hb. apply wp_throw. split_and!; [by right|done|congruence].
  - apply wp_ret. split_and!; [by right|done..].
Qed.

(** The chunks a walk meets. *)
Definition listed_chunks m : list string :=
  filter (λ h, 3 ≤ String.length h) (base <$> keys_under "store/chunk/" m).

Definition collect_chunks : sio (list string) := WalkChunks (λ l h, Ok (l ++ [h])) [].

Lemma fold_keys_collect acc keys :
  fold_keys (λ l h, Ok (l ++ [h])) acc keys = Ok (acc ++ filter (λ h, 3 ≤ String.length h) (base <$> keys)).
Proof.
  revert acc. induction keys as [|key keys IH]; intros acc; cbn [fold_keys fmap list_fmap].
  - by rewrite app_nil_r.
  - destruct (Nat.ltb_spec (String.length (base key)) 3).
    + rewrite IH, filter_cons_False by lia. done.
    + cbn [mbind result_bind]. rewrite IH, filter_cons_True by lia. by rewrite <- app_assoc.
Qed.

Lemma wp_collect_chunks m :
  wp b collect_chunks (λ r m', m' = m ∧ (∀ l, r = Ok l → l = listed_chunks m) ∧
    (b = false → r = Ok (listed_chunks m))) m.
Proof.
  unfold collect_chunks, WalkChunks. apply wp_bind, wp_ListObjects.
  - intros n Hb. apply wp_bind, wp_lift. rewrite fold_keys_collect. apply wp_throw. split_and!; done || congruence.
  - apply wp_bind, wp_lift. rewrite fold_keys_collect. apply wp_ret. split_and!; [done| |done]. by intros l [= <-].
Qed.

Lemma listed_chunks_spec m h c :
  valid_chunk h = true → m !! chunk_key h = Some c → h ∈ listed_chunks m.
Proof.
  intros Hv Hm. apply list_elem_of_filter. split.
  - unfold valid_chunk in Hv. bool_props. by apply Nat.leb_le.
  - apply list_elem_of_fmap. exists (chunk_key h). split; [by rewrite chunk_key_base|].
    apply elem_of_keys_under. split; [apply has_prefix_app|by eexists].
Qed.
End lemmas.

(** ** The chunk store that [CDC] works on *)

Section storage.
Context {C : S3Client} {L : S3ClientLaws C}.
Context (compress : string → string) (decompress : string → option string).

(** A chunk's data: its object decompressed, or as it is when it does not
    decompress. *)
Definition chunk_blob (h : string) (m : bucket) : option string :=
  (λ c, default c (decompress c)) <$> m !! chunk_key h.

Definition as_unit {A} (p : conn bucket → result chunk_err A * conn bucket) (d : conn bucket) :
    result unit A * conn bucket :=
  let '(r, d) := p d in (map_err (λ _, ()) r, d).

(** The chunker's hashes are hexadecimal; the store is used with no other. *)
#[export] Instance s3_chunks : ChunkStorage := {
  cst := conn bucket;
  blob d h := if valid_chunk h then chunk_blob h (cat d) else None;
  CDC.PutChunk h data d :=
    if valid_chunk h then as_unit (PutChunk compress h data) d else (Err (), d);
  CDC.GetChunk h d := if valid_chunk h then as_unit (GetChunk decompress h) d else (Err (), d);
  CDC.DeleteChunk h d := if valid_chunk h then as_unit (DeleteChunk h) d else (Err (), d);
}.

Lemma blob_insert h c m h' :
  valid_chunk h = true → valid_chunk h' = true → h' ≠ h →
  chunk_blob h' (<[chunk_key h := c]> m) = chunk_blob h' m.
Proof.
  intros Hv Hv' Hne. unfold chunk_blob. rewrite lookup_insert_ne; [done|].
  intros Heq%chunk_key_inj; [|done..]. by destruct Hne.
Qed.

Lemma blob_delete h m h' :
  valid_chunk h = true → valid_chunk h' = true → h' ≠ h →
  chunk_blob h' (delete (chunk_key h) m) = chunk_blob h' m.
Proof.
  intros Hv Hv' Hne. unfold chunk_blob. rewrite lookup_delete_ne; [done|].
  intros Heq%chunk_key_inj; [|done..]. by destruct Hne.
Qed.

Context (codec : ∀ x, decompress (compress x) = Some x).

#[export] Instance s3_chunks_laws : ChunkStorageLaws s3_chunks.
Proof using C L codec.
  split; simpl.
  - intros h data d. destruct (valid_chunk h) eqn:Hv; [|by split_and!; [|left|]].
    destruct (bucket_run _ _ d (wp_s3_PutChunk compress (b := true) h data _ Hv) ltac:(done))
      as (_ & new & Hd & Hn & Hr & _). unfold as_unit.
    destruct (PutChunk compress h data d) as [r d']. cbn [fst snd] in *. rewrite Hd. split_and!.
    + intros h' Hne. destruct (valid_chunk h') eqn:Hv'; [|done]. destruct new; [|done]. by apply blob_insert.
    + destruct new; [right|by left]. unfold chunk_blob.
      rewrite Hn, lookup_insert_eq by done. simpl. by rewrite codec.
    + intros x Hx. apply map_err_Ok in Hx as Hx'. destruct (Hr _ Hx') as [_ Hs]. unfold chunk_blob.
      destruct new; [by rewrite lookup_insert_eq|]. by rewrite fmap_is_Some; apply Hs.
  - intros h d. destruct (valid_chunk h) eqn:Hv; [|done].
    destruct (bucket_run _ _ d (wp_s3_GetChunk decompress (b := true) h _ Hv) ltac:(done)) as (_ & Hd & Hx & _).
    unfold as_unit. destruct (GetChunk decompress h d) as [r d']. cbn [fst snd] in *. rewrite Hd. split; [done|].
    intros x Hr%map_err_Ok. specialize (Hx _ Hr). unfold chunk_blob.
    destruct (cat d !! chunk_key h) as [c|]; [|done]. simpl in *. by rewrite Hx.
  - intros h d. destruct (valid_chunk h) eqn:Hv; [|by split; [|left]].
    destruct (bucket_run _ _ d (wp_s3_DeleteChunk (b := true) h _ Hv) ltac:(done)) as (_ & Hd & _).
    unfold as_unit. destruct (DeleteChunk h d) as [r d']. cbn [fst snd] in *. split.
    + intros h' Hne. destruct (valid_chunk h') eqn:Hv'; [|done].
      destruct Hd as [-> | ->]; [done|]. by apply blob_delete.
    + destruct Hd as [-> | ->]; [by left|right]. unfold chunk_blob. by rewrite lookup_delete_eq.
Defined.
End storage.

(** ** The properties *)

(** A chunk put into the bucket is whole, found, walked and read back: under
    faults [PutChunk] changes no other object and an existing chunk never, and
    leaves either nothing new or the whole compressed data; after a [PutChunk]
    that answers [(new, n)], [n] is the compressed size, [WalkChunks] misses the
    chunk in no listing that ends without error, [GetChunk] of a new chunk answers
    nothing but the data and never "not found", and without faults [HasChunk] and
    [GetChunk] succeed. *)
Theorem s3_put_chunk_served {C : S3Client} {L : S3ClientLaws C} (compress : string → string)
    (decompress : string → option string) (codec : ∀ x, decompress (compress x) = Some x)
    (hash data : string) (d : conn bucket) :
  valid_chunk hash = true →
  let '(r, d') := PutChunk compress hash data d in
  (∀ key, key ≠ chunk_key hash → cat d' !! key = cat d !! key) ∧
  (cat d' !! chunk_key hash = cat d !! chunk_key hash ∨
   cat d !! chunk_key hash = None ∧ cat d' !! chunk_key hash = Some (compress data)) ∧
  ∀ new n, r = Ok (new, n) → n = size_of (compress data) ∧
    (∀ l, (collect_chunks d').1 = Ok l → hash ∈ l) ∧
    (new = false → cat d' = cat d) ∧
    (new = true →
      (∀ x, (GetChunk decompress hash d').1 = Ok x → x = data) ∧
      (GetChunk decompress hash d').1 ≠ Err CNotFound ∧ (HasChunk hash d').1 ≠ Ok false ∧
      (calm false d' → (GetChunk decompress hash d').1 = Ok data ∧ (HasChunk hash d').1 = Ok true)).
Proof.
  intros Hv. destruct (bucket_run _ _ d (wp_s3_PutChunk compress (b := true) hash data _ Hv) ltac:(done))
    as (_ & new & Hd & Hn & Hr & _).
  destruct (PutChunk compress hash data d) as [r d']. cbn [fst snd] in *. split_and!.
  - intros key Hne. rewrite Hd. destruct new; [|done]. by rewrite lookup_insert_ne.
  - rewrite Hd. destruct new; [right|by left]. by rewrite Hn, lookup_insert_eq.
  - intros new' n Hrn. destruct (Hr _ Hrn) as [[= -> ->] Hs]. split; [done|].
    assert (is_Some (cat d' !! chunk_key hash)) as [c Hc].
    { rewrite Hd. destruct new; [by rewrite lookup_insert_eq|by apply Hs]. }
    split_and!.
    + intros l Hl. destruct (bucket_run _ _ d' (wp_collect_chunks (b := true) _) ltac:(done)) as (_ & _ & Hcl & _).
      rewrite (Hcl _ Hl). by eapply listed_chunks_spec.
    + by intros ->.
    + intros ->. assert (c = compress data) as -> by (rewrite Hd, lookup_insert_eq in Hc; congruence).
      pose proof (bucket_run _ _ d' (wp_s3_GetChunk decompress (b := true) hash _ Hv) ltac:(done)) as (_ & _ & Hg & Hg' & _).
      pose proof (bucket_run _ _ d' (wp_HasChunk (b := true) hash _ Hv) ltac:(done)) as (_ & _ & Hh & _).
      rewrite Hc in *. simpl in *. split_and!.
      * intros x Hx. specialize (Hg _ Hx). rewrite codec in Hg. congruence.
      * intros Hx. by specialize (Hg' Hx).
      * intros Hx. by specialize (Hh _ Hx).
      * intros Hq.
        destruct (bucket_run _ _ d' (wp_s3_GetChunk decompress (b := false) hash _ Hv) Hq) as (_ & _ & _ & _ & Hgq).
        destruct (bucket_run _ _ d' (wp_HasChunk (b := false) hash _ Hv) Hq) as (_ & _ & Hp & Hok).
        rewrite Hc in *. rewrite codec in Hgq. split; [by apply Hgq|]. specialize (Hok eq_refl).
        destruct (HasChunk hash d').1 as [p|]; [|done]. by rewrite (Hp _ eq_refl).
Qed.

#[local] Existing Instances sample_client sample_client_laws.

(** The configured prefix separates the NARs of two stores in one bucket,
    not their chunks: the second, whose own NARs are none, meets the first's chunk
    in its walk, and when it deletes it as unknown the first has lost it. *)
Theorem prefix_ignored_by_chunks :
  let first := mkStore "first" in
  let second := mkStore "second" in
  let d := (S3.PutNar first sample_url sample_body 14 empty_bucket).2 in
  let d := (PutChunk id sample_chunk "data" d).2 in
  (collect_nars second d).1 = Ok [] ∧ (collect_chunks d).1 = Ok [sample_chunk] ∧
  let d' := (DeleteChunk sample_chunk d).2 in
  (collect_nars first d').1 = Ok [sample_url] ∧ (GetChunk Some sample_chunk d').1 = Err CNotFound.
Proof. by vm_compute. Qed.

(** ** Witnesses *)

Lemma s3_put_chunk_served_witness :
  (GetChunk Some sample_chunk (PutChunk id sample_chunk "data" empty_bucket).2).1 = Ok "data".
Proof.
  pose proof (s3_put_chunk_served id Some (λ x, eq_refl) sample_chunk "data" empty_bucket eq_refl) as Hp.
  assert ((PutChunk id sample_chunk "data" empty_bucket).1 = Ok (true, 4%Z) ∧
    script (PutChunk id sample_chunk "data" empty_bucket).2 = []) as [Hr Hs] by (vm_compute; done).
  destruct (PutChunk id sample_chunk "data" empty_bucket) as [r d']. cbn [fst snd] in *.
  destruct Hp as (_ & _ & Hp). destruct (Hp _ _ Hr) as (_ & _ & _ & Hg). destruct (Hg eq_refl) as (_ & _ & _ & Hq).
  apply Hq. intros _. exact Hs.
Defined.
