(* ===== verification/Server.v ===== *)
(** * The HTTP server ([pkg/server/server.go])

    The router's middleware and the handlers, over the operations of the cache, which
    are an interface: [modelled] implements it by the operations of [NarInfoCache],
    [NarServe] and [NarStore].  chi's matching of paths, SHA-256, JSON and go-nix's
    narinfos are an interface too.  The body of the answers for NARs is in
    [NarServe]; telemetry is left out. *)
From S2P Require Import Download CacheInfo.
From S2P Require Import Prelude GoStd Nar FS NarInfoDB NarInfoCache NarServe NarStore.

(** ** Requests and answers *)

Inductive method := GET | HEAD | PUT | POST | DELETE | OTHER.

#[global] Instance method_eq_dec : EqDecision method.
Proof. solve_decision. Defined.

Record request := mkRequest {
  verb : method;
  url_path : string;
  raw_query : string;
  authorization : string;
  accept_encoding : string;
  req_body : Reader;
}.

Record answer := mkAnswer {
  code : Z;
  header : gmap string string;
  payload : stream;
}.

(** The patterns of the routes, with their parameters. *)
Inductive route :=
  | routeIndex
  | routeNar (hash : string)
  | routeNarCompression (hash compression : string)
  | routeNarInfo (hash : string)
  | routeCacheInfo
  | routeCachePublicKey
  | routePinClosure (hash : string)
  | routePins
  | routeBuildTrace (drvName outputName : string)
  | routeMetrics.

(** What the pattern's expressions demand of the parameters. *)
Definition valid_route (r : route) : bool :=
  match r with
  | routeNar h | routeNarCompression h _ => normalized_match h
  | routeNarInfo h | routePinClosure h => narinfo_hash_match h
  | _ => true
  end.

(** The path of a route at the root. *)
Definition path_of (r : route) : string :=
  match r with
  | routeIndex => "/"
  | routeNar h => "/nar/" +:+ h +:+ ".nar"
  | routeNarCompression h c => "/nar/" +:+ h +:+ ".nar." +:+ c
  | routeNarInfo h => "/" +:+ h +:+ ".narinfo"
  | routeCacheInfo => "/nix-cache-info"
  | routeCachePublicKey => "/pubkey"
  | routePinClosure h => "/pin/" +:+ h +:+ ".narinfo"
  | routePins => "/pins"
  | routeBuildTrace d o => "/build-trace-v2/" +:+ d +:+ "/" +:+ o
  | routeMetrics => "/metrics"
  end.

Definition uploadPrefix := "/upload".

Definition mounted (upload : bool) (r : route) : string := if upload then uploadPrefix +:+ path_of r else path_of r.

(** The libraries: [chi_match] is the pattern a path matches, and whether under
    [/upload]; [Heartbeat] the paths its middleware answers: [/healthz] in any case. *)
Class Libs `{GoNix} := {
  chi_match : string → option (bool * route);
  Heartbeat : string → bool;
  Sum256 : string → string;
  NarInfo_String : NarInfo → string;
  json_index : string → string → string;
  json_strings : list string → string;
  nar_error_text : nar_error → string;
}.

(** chi matches the paths of the patterns for NARs, and no path against a pattern it
    does not fit; the sub-router's index also answers without its slash. *)
Class LibsLaws `{GoNix} (L : Libs) := {
  chi_nar upload h : normalized_match h = true → chi_match (mounted upload (routeNar h)) = Some (upload, routeNar h);
  chi_nar_compression upload h c :
    normalized_match h = true → c ≠ "" → str_mem "/" c = false →
    chi_match (mounted upload (routeNarCompression h c)) = Some (upload, routeNarCompression h c);
  chi_sound p upload r : chi_match p = Some (upload, r) →
    valid_route r = true ∧ (p = mounted upload r ∨ (p = uploadPrefix ∧ upload = true ∧ r = routeIndex));
  heartbeat_path p : Heartbeat p = true → String.length p = String.length "/healthz";
}.

(** What handlers tell of an error by [errors.Is], and its text. *)
Inductive err_kind := KStorageNotFound | KUpstreamNotFound | KPurged | KCanceled | KDeadlineExceeded | KBadRequest | KOther.

Record op_err := mkErr { kind : err_kind; error_text : string }.

(** What the handlers call; the flag is [WithUploadOnly]'s.  [op_serve_nar] is what
    [getNar] does once the URL is known. *)
Class CacheOps `{GoNix} (S : Type) := {
  GetHostname : string;
  PublicKey : string;
  op_GetNarInfo (uploadOnly : bool) : string → eff S op_err NarInfo;
  op_PutNarInfo (uploadOnly : bool) : string → Reader → eff S op_err ();
  op_DeleteNarInfo : string → eff S op_err ();
  op_GetBuildTrace : string → string → eff S op_err string;
  op_PutBuildTrace : string → string → Reader → eff S op_err ();
  op_PinClosure : string → eff S op_err ();
  op_UnpinClosure : string → eff S op_err ();
  op_ListPinnedClosures : eff S op_err (list string);
  op_serve_nar (uploadOnly withBody : bool) : string → URL → S → answer * S;
  op_PutNar (uploadOnly : bool) : URL → Reader → eff S op_err ();
  op_DeleteNar : URL → eff S op_err ();
}.

(** [prometheusGatherer]: the text it gives. *)
Record Server := mkServer {
  deletePermitted : bool;
  getToken : string;
  putPermitted : bool;
  prometheusGatherer : option string;
}.

Definition contentLength := "Content-Length".
Definition contentType := "Content-Type".
Definition contentTypeNar := "application/x-nix-nar".
Definition contentTypeNarInfo := "text/x-nix-narinfo".
Definition contentTypeJSON := "application/json".

Definition line_feed : string := String newline "".

Definition StatusText (c : Z) : string :=
  if bool_decide (c = 400%Z) then "Bad Request" else if bool_decide (c = 401%Z) then "Unauthorized"
  else if bool_decide (c = 404%Z) then "Not Found" else if bool_decide (c = 405%Z) then "Method Not Allowed"
  else if bool_decide (c = 500%Z) then "Internal Server Error" else "".

Definition no_body : stream := plain_stream "".

(** [http.Error] *)
Definition http_Error (msg : string) (c : Z) : answer :=
  mkAnswer c {[contentType := "text/plain; charset=utf-8"; "X-Content-Type-Options" := "nosniff"]} (plain_stream (msg +:+ line_feed)).

Definition status_error (c : Z) : answer := http_Error (StatusText c) c.

(** A handler that returns without writing: net/http answers 200. *)
Definition unwritten : answer := mkAnswer 200 ∅ no_body.

(** The status for a [GetNarInfo] error, and whether to answer at all. *)
Definition narInfoErrorStatus (e : op_err) : Z * bool :=
  match kind e with
  | KStorageNotFound | KPurged => (404, true)
  | KCanceled | KDeadlineExceeded => (0, false)
  | _ => (500, true)
  end%Z.

(** A body that is written whole, with its type. *)
Definition written (ty : string) (b : string) : answer := mkAnswer 200 {[contentType := ty]} (plain_stream b).

(** With its length declared, and left out for HEAD. *)
Definition sized (withBody : bool) (ty : string) (b : string) : answer :=
  mkAnswer 200 {[contentType := ty; contentLength := pretty (String.length b)]} (if withBody then plain_stream b else no_body).

(** [URL.Query], which skips what [ParseQuery] cannot read. *)
Definition url_Query (q : string) : values :=
  let pieces := split_on "&" q in
  if (N.of_nat (length pieces) <=? 10000)%N
  then foldl (λ m piece, match parse_pair m piece with Ok m' => m' | Err _ => m end) ∅ pieces
  else ∅.

Section server.
Context `{GN : GoNix} {L : Libs} {S : Type} {O : CacheOps S} (srv : Server).

(** ** Handlers *)

Definition Handler : Type := request → S → answer * S.

Definition answered (a : answer) : Handler := λ _ s, (a, s).

(** A handler that calls one operation and answers for its result. *)
Definition calling {A} (op : eff S op_err A) (fail : op_err → answer) (ok : A → answer) : S → answer * S := λ s,
  let '(r, s) := op s in (match r with Ok x => ok x | Err e => fail e end, s).

Definition no_content : answer := mkAnswer 204 ∅ no_body.
Definition ok_empty : answer := mkAnswer 200 ∅ no_body.

Definition internal_error (e : op_err) : answer := http_Error (error_text e) 500.

Definition getIndex : Handler := answered (written contentTypeJSON (json_index GetHostname PublicKey +:+ line_feed)).

Definition getNixCacheInfo : Handler := answered (mkAnswer 200 ∅ (plain_stream nixCacheInfo)).

Definition getNixCachePublicKey : Handler := answered (mkAnswer 200 ∅ (plain_stream PublicKey)).

(** The narinfo that is sent: the NAR's URL without its prefix. *)
Definition served_narinfo (ni : NarInfo) : result nar_error NarInfo :=
  if bool_decide (InfoURL ni = "") then Ok ni else
  narURL ← ParseURL (InfoURL ni);
  normalizedURL ← Normalize narURL;
  url ← URLString normalizedURL;
  Ok (with_url url (InfoCompression ni) ni).

(** [recoverer] answers a panic, of [URL.String]. *)
Definition url_failure (e : nar_error) : answer :=
  match e with
  | PanicUnknownCompression _ => mkAnswer 500 ∅ no_body
  | _ => http_Error (nar_error_text e) 500
  end.

Definition getNarInfo (uploadOnly withBody : bool) (hash : string) : Handler := λ _,
  calling (op_GetNarInfo uploadOnly hash)
    (λ e, let '(status, respond) := narInfoErrorStatus e in
      if negb respond then unwritten
      else if bool_decide (status = 500%Z) then http_Error (error_text e) status else status_error status)
    (λ ni, match served_narinfo ni with
      | Ok ni => sized withBody contentTypeNarInfo (NarInfo_String ni)
      | Err e => url_failure e
      end).

Definition putNarInfo (uploadOnly : bool) (hash : string) : Handler := λ r,
  if negb (putPermitted srv) then answered (status_error 405) r
  else calling (op_PutNarInfo uploadOnly hash (req_body r)) internal_error (λ _, no_content).

Definition getBuildTrace (withBody : bool) (drvName outputName : string) : Handler := λ _,
  calling (op_GetBuildTrace drvName (trim_suffix ".doi" outputName))
    (λ e, match kind e with
      | KStorageNotFound => status_error 404
      | KCanceled | KDeadlineExceeded => unwritten
      | _ => internal_error e
      end)
    (sized withBody contentTypeJSON).

Definition putBuildTrace (drvName outputName : string) : Handler := λ r,
  if negb (putPermitted srv) then answered (status_error 405) r
  else calling (op_PutBuildTrace drvName (trim_suffix ".doi" outputName) (req_body r))
    (λ e, match kind e with KBadRequest => http_Error (error_text e) 400 | _ => internal_error e end) (λ _, no_content).

Definition or_404 (e : op_err) : answer :=
  match kind e with KStorageNotFound => status_error 404 | _ => internal_error e end.

Definition deleteNarInfo (hash : string) : Handler := λ r,
  if negb (deletePermitted srv) then answered (status_error 405) r
  else calling (op_DeleteNarInfo hash) or_404 (λ _, no_content).

Definition pinClosure (hash : string) : Handler := λ _, calling (op_PinClosure hash) or_404 (λ _, ok_empty).

Definition unpinClosure (hash : string) : Handler := λ _, calling (op_UnpinClosure hash) internal_error (λ _, ok_empty).

Definition listPins : Handler := λ _,
  calling op_ListPinnedClosures internal_error (λ hashes, written contentTypeJSON (json_strings hashes +:+ line_feed)).

Definition nar_url (hash compression : string) (handler : URL → Handler) : Handler := λ r,
  match withNarURL hash compression (url_Query (raw_query r)) with
  | Ok nu => handler nu r
  | Err e => answered (http_Error (nar_error_text e) 400) r
  end.

Definition serveNar (uploadOnly withBody : bool) (nu : URL) : Handler := λ r,
  op_serve_nar uploadOnly withBody (accept_encoding r) nu.

Definition putNar (uploadOnly : bool) (nu : URL) : Handler := λ r,
  if negb (putPermitted srv) then answered (status_error 405) r
  else calling (op_PutNar uploadOnly nu (req_body r)) internal_error (λ _, no_content).

Definition deleteNar (nu : URL) : Handler := λ r,
  if negb (deletePermitted srv) then answered (status_error 405) r
  else calling (op_DeleteNar nu) or_404 (λ _, no_content).

(** ** Routes *)

(** [registerRoutes]: at the root and under [/upload]. *)
Definition standard_route (upload : bool) (r : route) (m : method) : option Handler :=
  match r, m with
  | routeIndex, GET => Some getIndex
  | routeCacheInfo, GET => Some getNixCacheInfo
  | routeCachePublicKey, GET => Some getNixCachePublicKey
  | routeNarInfo h, HEAD => Some (getNarInfo upload false h)
  | routeNarInfo h, GET => Some (getNarInfo upload true h)
  | routeNarCompression h c, HEAD => Some (nar_url h c (serveNar upload false))
  | routeNarCompression h c, GET => Some (nar_url h c (serveNar upload true))
  | routeNar h, HEAD => Some (nar_url h "" (serveNar upload false))
  | routeNar h, GET => Some (nar_url h "" (serveNar upload true))
  | routeBuildTrace d o, HEAD => Some (getBuildTrace false d o)
  | routeBuildTrace d o, GET => Some (getBuildTrace true d o)
  | _, _ => None
  end.

Definition root_route (r : route) (m : method) : option Handler :=
  match r, m with
  | routeNarInfo h, DELETE => Some (deleteNarInfo h)
  | routeNarCompression h c, DELETE => Some (nar_url h c deleteNar)
  | routeNar h, DELETE => Some (nar_url h "" deleteNar)
  | routePinClosure h, POST => Some (pinClosure h)
  | routePinClosure h, DELETE => Some (unpinClosure h)
  | routePins, GET => Some listPins
  | routeMetrics, GET => (λ text, answered (mkAnswer 200 ∅ (plain_stream text))) <$> prometheusGatherer srv
  | _, _ => standard_route false r m
  end.

Definition upload_route (r : route) (m : method) : option Handler :=
  match r, m with
  | routeNarInfo h, PUT => Some (putNarInfo true h)
  | routeNarCompression h c, PUT => Some (nar_url h c (putNar true))
  | routeNar h, PUT => Some (nar_url h "" (putNar true))
  | routeBuildTrace d o, PUT => Some (putBuildTrace d o)
  | _, _ => standard_route true r m
  end.

(** Patterns the mount has under no method. *)
Definition unregistered (upload : bool) (r : route) : bool :=
  match r with
  | routePinClosure _ | routePins => upload
  | routeMetrics => upload || negb (bool_decide (is_Some (prometheusGatherer srv)))
  | _ => false
  end.

Definition not_found : answer := http_Error "404 page not found" 404.
Definition not_allowed : answer := mkAnswer 405 ∅ no_body.

Definition routed : Handler := λ r,
  match chi_match (url_path r) with
  | None => answered not_found r
  | Some (upload, rt) =>
      if unregistered upload rt then answered not_found r else
      match (if upload then upload_route else root_route) rt (verb r) with
      | Some h => h r
      | None => answered not_allowed r
      end
  end.

(** ** Middleware *)

Definition bearerPrefix := "Bearer ".

Definition infra_path (p : string) : bool := bool_decide (p = "/healthz" ∨ p = "/metrics").

Definition reads (m : method) : bool := bool_decide (m = GET ∨ m = HEAD).

(** The header carries the token; the digests are compared. *)
Definition authorized (r : request) : bool :=
  has_prefix bearerPrefix (authorization r) &&
  bool_decide (Sum256 (default (authorization r) (strip_prefix bearerPrefix (authorization r))) = Sum256 (getToken srv)).

Definition unauthorized : answer :=
  mkAnswer 401 (<["WWW-Authenticate" := "Bearer"]> (header (status_error 401))) (payload (status_error 401)).

Definition requireGetToken (next : Handler) : Handler := λ r,
  if bool_decide (getToken srv = "") then next r
  else if negb (reads (verb r)) then next r
  else if infra_path (url_path r) then next r
  else if authorized r then next r
  else answered unauthorized r.

Definition createRouter : Handler := λ r,
  if reads (verb r) && Heartbeat (url_path r) then answered (mkAnswer 200 {[contentType := "text/plain"]} (plain_stream ".")) r
  else requireGetToken routed r.

Definition ServeHTTP : Handler := createRouter.
End server.

(** ** Lemmas *)

Section lemmas.
Context `{GN : GoNix} {L : Libs} {LL : LibsLaws L} {S : Type} {O : CacheOps S} (srv : Server).

(** A request answered without the cache. *)
Definition apart (h : S → answer * S) (P : answer → Prop) : Prop := ∃ a, (∀ s, h s = (a, s)) ∧ P a.

Lemma length_mounted up r : String.length (path_of r) ≤ String.length (mounted up r).
Proof. destruct up; simpl; rewrite ?str_length_app; simpl; lia. Qed.

Lemma not_heartbeat p : 9 ≤ String.length p → Heartbeat p = false.
Proof.
  intros Hp. destruct (Heartbeat p) eqn:H; [|done]. apply heartbeat_path in H. simpl in H. lia.
Qed.

(** The paths of narinfos and NARs are long. *)
Lemma long_path r : valid_route r = true →
  match r with routeNar _ | routeNarCompression _ _ | routeNarInfo _ => 9 ≤ String.length (path_of r) | _ => True end.
Proof.
  destruct r; try done; simpl.
  - intros Hh%normalized_length. rewrite !str_length_app. simpl. lia.
  - intros Hh%normalized_length. rewrite !str_length_app. simpl. lia.
  - intros [Hh _]%narinfo_hash_inv. rewrite !str_length_app. lia.
Qed.

Lemma not_infra p : 9 ≤ String.length p → infra_path p = false.
Proof. intros Hp. apply bool_decide_eq_false_2. intros [->| ->]; simpl in Hp; lia. Qed.

(** A request past the token. *)
Definition admitted (r : request) : bool :=
  bool_decide (getToken srv = "") || negb (reads (verb r)) || authorized srv r.

Lemma admitted_routed r : 9 ≤ String.length (url_path r) → admitted r = true → ServeHTTP srv r = routed srv r.
Proof.
  intros Hp Ha. unfold ServeHTTP, createRouter, requireGetToken. rewrite not_heartbeat, andb_false_r by done.
  unfold admitted in Ha. case_bool_decide; [done|]. destruct (reads (verb r)); [|done]. simpl in *.
  by rewrite not_infra, Ha.
Qed.

Lemma unauthorized_apart r :
  getToken srv ≠ "" → reads (verb r) = true → authorized srv r = false →
  apart (ServeHTTP srv r) (λ a, (code a < 400)%Z → Heartbeat (url_path r) = true ∨ url_path r = "/metrics").
Proof.
  intros Ht Hr Ha. unfold ServeHTTP, createRouter, requireGetToken. rewrite Hr. simpl.
  destruct (Heartbeat _) eqn:Hh; [exists (mkAnswer 200 {[contentType := "text/plain"]} (plain_stream ".")); by split; [|left]|].
  rewrite bool_decide_false, Ha by done. destruct (infra_path (url_path r)) eqn:Hi; [|by exists (unauthorized)].
  apply bool_decide_eq_true in Hi. unfold routed. destruct (chi_match (url_path r)) as [[up rt]|] eqn:Hm; [|by exists not_found].
  apply chi_sound in Hm as [Hv [Hp|(Hp & -> & ->)]]; [|by rewrite Hp in Hi; destruct Hi].
  assert (up = false ∧ rt = routeMetrics ∧ url_path r = "/metrics") as (-> & -> & Hpath).
  { rewrite Hp in Hi |- *. pose proof (length_mounted up rt) as Hl. pose proof (long_path rt Hv) as Hlong.
    assert (String.length (mounted up rt) = 8) as H8 by (by destruct Hi as [->| ->]).
    destruct up, rt; simpl in *; try lia; try (by destruct Hi); by split_and!. }
  simpl. destruct (prometheusGatherer srv) as [t|] eqn:Hg.
  - rewrite bool_decide_true by done. simpl. destruct (verb r) eqn:Hv'; simpl; rewrite ?Hg; simpl;
      eexists; (split; [done|]); by right.
  - rewrite bool_decide_false by (intros [? ?]; done). by exists not_found.
Qed.

(** What the method demands. *)
Definition permitted (r : request) : bool :=
  match verb r with
  | GET | HEAD => bool_decide (getToken srv = "" ∨ authorization r = bearerPrefix +:+ getToken srv)
  | PUT => putPermitted srv && has_prefix "/upload/" (url_path r)
  | DELETE => deletePermitted srv || has_prefix "/pin/" (url_path r)
  | POST => has_prefix "/pin/" (url_path r)
  | OTHER => false
  end.

Lemma nar_url_apart h c (k : URL → Handler) r (P : answer → Prop) :
  (∀ nu, apart (k nu r) P) → (∀ e, P (http_Error (nar_error_text e) 400)) → apart (nar_url h c k r) P.
Proof. intros Hk He. unfold nar_url. destruct (withNarURL _ _ _); [apply Hk|by eexists]. Qed.

Lemma write_apart r :
  reads (verb r) = false → permitted r = false → apart (ServeHTTP srv r) (λ a, (400 ≤ code a)%Z).
Proof.
  intros Hr Hp. unfold ServeHTTP, createRouter, requireGetToken. rewrite Hr. simpl.
  assert (apart (routed srv r) (λ a, (400 ≤ code a)%Z)) as Hrt; [|by destruct (bool_decide (getToken srv = ""))].
  unfold routed. destruct (chi_match (url_path r)) as [[up rt]|] eqn:Hm; [|by eexists].
  destruct (unregistered srv up rt); [by eexists|]. unfold permitted in Hp.
  apply chi_sound in Hm as [_ [Hpath|(_ & -> & ->)]].
  2:{ destruct (verb r); try done; by eexists. }
  rewrite Hpath in Hp.
  destruct up, rt, (verb r); try done; simpl in *; try (by eexists); rewrite ?andb_true_r, ?orb_false_r in Hp.
  all: try (apply orb_false_iff in Hp as [Hp Hpin]; try done).
  all: try (unfold putNarInfo, putBuildTrace, deleteNarInfo; rewrite Hp; by eexists).
  all: try (apply nar_url_apart; [|done]; intros nu; unfold putNar, deleteNar; rewrite Hp; by eexists).
Qed.

Lemma authorized_true r : authorization r = bearerPrefix +:+ getToken srv → authorized srv r = true.
Proof.
  intros Ha. unfold authorized. rewrite Ha, has_prefix_app, strip_prefix_app. by apply bool_decide_eq_true.
Qed.

Lemma permitted_admitted r : permitted r = true → admitted r = true.
Proof.
  unfold permitted, admitted. destruct (verb r); try done; unfold reads; simpl; rewrite ?orb_true_r; try done;
    (intros [Ht|Ha]%bool_decide_eq_true; [by rewrite bool_decide_true|]; by rewrite authorized_true, orb_true_r).
Qed.

(** ** The properties' lemmas: NAR URLs *)

Lemma mounted_nar (up : bool) h e :
  mounted up (if bool_decide (e = "") then routeNar h else routeNarCompression h e) =
  (if up then "/upload/" else "/") +:+ "nar/" +:+ nar_filename h e.
Proof. unfold nar_filename. destruct up; case_bool_decide; subst; done. Qed.

Lemma chi_nar_filename (up : bool) h e :
  normalized_match h = true → str_mem "/" e = false →
  ∃ rt, chi_match ((if up then "/upload/" else "/") +:+ "nar/" +:+ nar_filename h e) = Some (up, rt) ∧
    rt = if bool_decide (e = "") then routeNar h else routeNarCompression h e.
Proof.
  intros Hh He. eexists. rewrite <- mounted_nar. split; [|done]. case_bool_decide; [by apply chi_nar|by apply chi_nar_compression].
Qed.

Lemma url_Query_parse q m : parse_query q = Ok m → url_Query q = m.
Proof.
  unfold parse_query, url_Query. destruct (_ <=? 10000)%N; [|done]. generalize (empty (A := values)). generalize (split_on "&" q).
  intros l. induction l as [|p l IH]; intros m0; simpl; [by intros [= ->]|].
  intros Hm. inv_ok. rewrite H. by apply IH.
Qed.

(** The text of a normalized URL, cut at its query, and what it is parsed to. *)
Lemma URLString_cut h ct q e0 :
  normalized_match h = true → CompressionTypeFromExtension e0 = Ok ct → wf_values q →
  ∃ url e, URLString (mkURL h ct q false "") = Ok url ∧ CompressionTypeFromExtension e = Ok ct ∧
    str_forall is_alnum e = true ∧
    (cut_char "?" url).1 = ("nar/" +:+ nar_filename h e, encode q).
Proof.
  intros Hh He0 Hq. destruct (extension_inv _ _ He0) as (e & He & He' & Hal).
  assert (hash_match h = true) as Hhm by (unfold hash_match; by rewrite Hh).
  eexists _, e. split_and!; [|done|done|].
  - unfold URLString, pathWithCompression. simpl. rewrite He. done.
  - assert ((if bool_decide (e = "") then "nar/" +:+ h +:+ ".nar" else ("nar/" +:+ h +:+ ".nar") +:+ "." +:+ e) =
      "nar/" +:+ nar_filename h e) as ->.
    { unfold nar_filename. case_bool_decide; by rewrite ?str_app_assoc, ?str_app_nil_r. }
    assert (str_mem "?" ("nar/" +:+ nar_filename h e) = false) as Hno.
    { rewrite str_mem_app, nar_filename_no; try done. right. left. }
    case_bool_decide as Hq0; [by rewrite cut_char_none, Hq0|].
    change ("?" +:+ encode q) with (String "?" (encode q)). by rewrite cut_char_app.
Qed.

Lemma ParseURL_inv s u :
  ParseURL s = Ok u → hash_match (Hash u) = true ∧ wf_values (Query u) ∧ ∃ e, CompressionTypeFromExtension e = Ok (Compression u).
Proof.
  intros Hu. apply (ParseURL_upstream _ "") in Hu. pose proof (ParseUpstreamURL_extension _ _ _ Hu) as He.
  apply ParseUpstreamURL_inv in Hu as (? & ? & _). done.
Qed.

(** A narinfo that is served has its NAR's URL as [getNar] takes it. *)
Lemma served_narinfo_url ni u :
  InfoURL ni ≠ "" → ParseURL (InfoURL ni) = Ok u →
  ∃ v url e, Normalize u = Ok v ∧ served_narinfo ni = Ok (with_url url (InfoCompression ni) ni) ∧
    normalized_match (Hash v) = true ∧ v = mkURL (Hash v) (Compression u) (Query u) false "" ∧
    CompressionTypeFromExtension e = Ok (Compression v) ∧ str_forall is_alnum e = true ∧
    (cut_char "?" url).1 = ("nar/" +:+ nar_filename (Hash v) e, encode (Query v)) ∧
    parse_query (encode (Query v)) = Ok (Query v).
Proof.
  intros Hne Hu. destruct (ParseURL_inv _ _ Hu) as (Hh & Hq & e0 & He0).
  pose proof (Normalize_ok u) as Hn. rewrite Hh in Hn. destruct (Normalize u) as [v|] eqn:Hv; [|done].
  destruct (Normalize_inv _ _ Hv) as (Hveq & Hhv & _).
  destruct (URLString_cut (Hash v) (Compression u) (Query u) e0 Hhv He0 Hq) as (url & e & Hurl & He & Hal & Hcut).
  rewrite <- Hveq in Hurl. exists v, url, e. split_and!; try done.
  - unfold served_narinfo. rewrite bool_decide_false, Hu by done. simpl. rewrite Hv. simpl. by rewrite Hurl.
  - by rewrite Hveq.
  - by rewrite Hveq at 2.
  - rewrite Hveq. by apply parse_query_encode.
Qed.

(** A request for a NAR by its URL. *)
Lemma nar_request r (up : bool) v e :
  normalized_match (Hash v) = true → v = mkURL (Hash v) (Compression v) (Query v) false "" →
  CompressionTypeFromExtension e = Ok (Compression v) → str_forall is_alnum e = true →
  reads (verb r) = true → admitted r = true →
  url_path r = (if up then "/upload/" else "/") +:+ "nar/" +:+ nar_filename (Hash v) e →
  parse_query (raw_query r) = Ok (Query v) →
  ServeHTTP srv r = op_serve_nar up (bool_decide (verb r = GET)) (accept_encoding r) v.
Proof.
  intros Hh Hv He Hal Hr Ha Hp Hq.
  destruct (chi_nar_filename up (Hash v) e Hh) as (rt & Hm & Hrt); [by apply (alnum_no_special e "/")|].
  rewrite <- Hp in Hm. pose proof (normalized_length _ Hh) as Hl.
  rewrite admitted_routed; [| |done].
  2:{ rewrite Hp. unfold nar_filename. rewrite !str_length_app. lia. }
  unfold routed. rewrite Hm. assert (unregistered srv up rt = false) as -> by (subst rt; by case_bool_decide).
  assert (nar_url (Hash v) e (serveNar up (bool_decide (verb r = GET))) r =
    op_serve_nar up (bool_decide (verb r = GET)) (accept_encoding r) v) as Hn.
  { unfold nar_url, withNarURL. rewrite He, (url_Query_parse _ _ Hq). simpl. by rewrite <- Hv. }
  rewrite <- Hn. clear Hn Hm. destruct (decide (e = "")) as [->|Hemp]; [simpl in Hrt|rewrite bool_decide_false in Hrt by done];
    subst rt; destruct (verb r); try done; by destruct up.
Qed.
End lemmas.

(** ** The modelled cache behind the server *)

Section modelled.
Context `{GN : GoNix} {SG : Signing} {CD : Codec} {CH : Chunker} (cfg : Config) (row_order : list string → list string) (now : Z).
Context (digest_of : string → string) (upstream : string → option NarInfo) (fetch : URL → option stream).

(** [narinfo.Parse], the texts of errors and the public key; pins ([LRU]) and build
    traces ([BuildTrace]) are on tables of their own. *)
Context (parse : string → option NarInfo) (cache_error_text : cache_err → string) (public_key : string).
Context (get_trace : string → string → eff state op_err string) (put_trace : string → string → Reader → eff state op_err ()).
Context (pin unpin : string → eff state op_err ()) (pins : eff state op_err (list string)).

Definition of_cache_err (e : cache_err) : op_err :=
  mkErr (match e with
    | ENotFound => KStorageNotFound
    | ErrNarInfoPurged => KPurged
    | ECtx => KCanceled
    | _ => KOther
    end) (cache_error_text e).

Definition of_cache {A} (m : eff state cache_err A) : eff state op_err A := λ s,
  let '(r, s) := m s in (map_err of_cache_err r, s).

(** The answer [NarServe] models, with its headers; the text of an error is left out. *)
Definition of_response (resp : response) : answer :=
  if bool_decide (status resp = 200%Z) then
    let h : gmap string string := {[contentType := contentTypeNar]} in
    let h := if bool_decide (contentEncoding resp = "") then h else <["Content-Encoding" := contentEncoding resp]> h in
    let h := match NarServe.contentLength resp with Some n => <[contentLength := pretty n]> h | None => h end in
    mkAnswer 200 h (body resp)
  else status_error (status resp).

Definition serve_nar (uploadOnly withBody : bool) (ae : string) (nu : URL) : state → answer * state := λ s,
  let '(r, s) := NarServe.getNar cfg now uploadOnly upstream fetch withBody ae nu s in
  (match r with Ok resp => of_response resp | Err _ => status_error 500 end, s).

(** A body that breaks is an error of [narinfo.Parse]. *)
Definition read_body (b : Reader) : option NarInfo := if fails b then None else parse (bytes b).

Definition modelled : CacheOps state := {|
  GetHostname := hostName cfg;
  PublicKey := public_key;
  op_GetNarInfo up h := of_cache (NarInfoCache.GetNarInfo cfg row_order now up upstream h);
  op_PutNarInfo _ h b := of_cache (NarInfoCache.PutNarInfo cfg now digest_of h (read_body b));
  op_DeleteNarInfo h := of_cache (NarInfoCache.DeleteNarInfo h);
  op_GetBuildTrace := get_trace;
  op_PutBuildTrace := put_trace;
  op_PinClosure := pin;
  op_UnpinClosure := unpin;
  op_ListPinnedClosures := pins;
  op_serve_nar := serve_nar;
  op_PutNar _ u b := of_cache (NarStore.PutNar cfg now digest_of u (mkStream (bytes b) (fails b)));
  op_DeleteNar u := of_cache (NarStore.DeleteNar u);
|}.
End modelled.

(** ** The properties *)

(** C6. Requests are guarded: whatever the cache's operations are, a GET or HEAD
    without the token (when one is set), a PUT without the permission or outside
    [/upload], a DELETE without the permission other than of a pin, a POST other than
    of a pin, and any other method get an answer that does not depend on the cache's
    state and leaves it as it is; the answer is a success only for the health check
    and the metrics. *)
Theorem requests_are_guarded `{GN : GoNix} {L : Libs} {LL : LibsLaws L} {S : Type} {O : CacheOps S}
    (srv : Server) (r : request) :
  (∀ t, Sum256 t = Sum256 (getToken srv) → t = getToken srv) → permitted srv r = false →
  ∃ a, (∀ s, ServeHTTP srv r s = (a, s)) ∧
    ((code a < 400)%Z → reads (verb r) = true ∧ (Heartbeat (url_path r) = true ∨ url_path r = "/metrics")).
Proof.
  intros Hsum Hp. destruct (reads (verb r)) eqn:Hr.
  - assert (getToken srv ≠ "" ∧ authorization r ≠ bearerPrefix +:+ getToken srv) as [Ht Ha].
    { unfold permitted in Hp. destruct (verb r); try done; apply bool_decide_eq_false in Hp; tauto. }
    destruct (unauthorized_apart srv r Ht Hr) as (a & Hs & H200).
    + unfold authorized. destruct (strip_prefix bearerPrefix (authorization r)) as [t|] eqn:Hst.
      * apply strip_prefix_Some in Hst. apply andb_false_iff. right. simpl. apply bool_decide_eq_false_2.
        intros ->%Hsum. done.
      * unfold has_prefix. by rewrite Hst.
    + exists a. split; [done|]. intros Hc. split; [done|]. by apply H200.
  - destruct (write_apart srv r Hr Hp) as (a & Hs & Hc). exists a. split; [done|]. lia.
Qed.

(** C26. A served narinfo leads to its NAR: a GET or HEAD for a narinfo the cache has,
    whose NAR's URL can be parsed, is answered with its text and length, the URL
    replaced by the normalized one; and a later GET or HEAD under the same mount for
    the path and the query of that URL reaches [getNar]'s work with the normalized
    URL's hash, compression and query, whatever the cache's operations are. *)
Theorem narinfo_leads_to_its_nar `{GN : GoNix} {L : Libs} {LL : LibsLaws L} {S : Type} {O : CacheOps S}
    (srv : Server) (r : request) (up : bool) (h : string) (s s1 : S) (ni : NarInfo) (u : URL) :
  chi_match (url_path r) = Some (up, routeNarInfo h) → reads (verb r) = true → permitted srv r = true →
  op_GetNarInfo up h s = (Ok ni, s1) → InfoURL ni ≠ "" → ParseURL (InfoURL ni) = Ok u →
  ∃ v url p q, Normalize u = Ok v ∧ URLString v = Ok url ∧ (cut_char "?" url).1 = (p, q) ∧
    ServeHTTP srv r s = (sized (bool_decide (verb r = GET)) contentTypeNarInfo
      (NarInfo_String (with_url url (InfoCompression ni) ni)), s1) ∧
    ∀ r' s', reads (verb r') = true → authorization r' = authorization r →
      url_path r' = (if up then "/upload/" else "/") +:+ p → raw_query r' = q →
      ServeHTTP srv r' s' = op_serve_nar up (bool_decide (verb r' = GET)) (accept_encoding r') v s'.
Proof.
  intros Hm Hr Hp Hget Hne Hu.
  destruct (served_narinfo_url ni u Hne Hu) as (v & url & e & Hv & Hserved & Hh & Hveq & He & Hal & Hcut & Hq).
  exists v, url, ("nar/" +:+ nar_filename (Hash v) e), (encode (Query v)). split; [done|].
  pose proof Hserved as Hurl. unfold served_narinfo in Hurl. rewrite bool_decide_false, Hu in Hurl by done. simpl in Hurl.
  rewrite Hv in Hurl. simpl in Hurl. destruct (URLString v) as [url'|] eqn:Hstr; [|done].
  assert (url' = url) as -> by (injection Hurl as Hurl; congruence).
  split; [done|]. split; [done|]. split.
  - apply chi_sound in Hm as Hpath. destruct Hpath as [Hval [Hpath|(_ & _ & ?)]]; [|done].
    rewrite admitted_routed; [| |by apply permitted_admitted].
    2:{ rewrite Hpath. pose proof (length_mounted up (routeNarInfo h)). pose proof (long_path _ Hval) as Hlong. simpl in *. lia. }
    unfold routed. rewrite Hm. simpl. assert (getNarInfo up (bool_decide (verb r = GET)) h r s =
      (sized (bool_decide (verb r = GET)) contentTypeNarInfo (NarInfo_String (with_url url (InfoCompression ni) ni)), s1)) as Hn.
    { unfold getNarInfo, calling. by rewrite Hget, Hserved. }
    rewrite <- Hn. destruct (verb r); try done; by destruct up.
  - intros r' s' Hr' Ha Hpath Hraw. rewrite (nar_request srv r' up v e); try done.
    + pose proof (f_equal Compression Hveq) as Hc. pose proof (f_equal Query Hveq) as Hqu. simpl in Hc, Hqu. congruence.
    + unfold admitted. rewrite Hr'. apply permitted_admitted in Hp. unfold admitted in Hp. rewrite Hr in Hp.
      unfold authorized in *. by rewrite Ha.
    + by rewrite Hraw.
Qed.

(** An operation that fails by a deadline of its own, as the connection to an upstream
    does after three seconds, gets the answer of a handler that writes nothing: 200
    with an empty body. *)
Theorem deadline_answered_200 `{GN : GoNix} {L : Libs} {S : Type} {O : CacheOps S} (up withBody : bool)
    (h msg : string) (r : request) (s s1 : S) :
  op_GetNarInfo up h s = (Err (mkErr KDeadlineExceeded msg), s1) →
  getNarInfo up withBody h r s = (mkAnswer 200 ∅ no_body, s1).
Proof. intros Hget. unfold getNarInfo, calling. by rewrite Hget. Qed.

(** Anyone may pin and unpin: the token guards GET and HEAD only, and the handlers of
    pins ask for no permission. *)
Theorem pins_unguarded `{GN : GoNix} {L : Libs} {S : Type} {O : CacheOps S} (srv : Server) (r : request) (h : string) (s : S) :
  chi_match (url_path r) = Some (false, routePinClosure h) →
  (verb r = POST → ServeHTTP srv r s = pinClosure h r s) ∧ (verb r = DELETE → ServeHTTP srv r s = unpinClosure h r s).
Proof.
  intros Hm. split; intros Hv; unfold ServeHTTP, createRouter, requireGetToken; rewrite Hv; simpl;
    unfold routed; rewrite Hm, Hv; simpl; by case_bool_decide.
Qed.

(** ** Libraries, and witnesses *)

Definition sample_route (p : string) : option route :=
  match split_on "/" p with
  | [""; ""] => Some routeIndex
  | [""; f] =>
      if bool_decide (f = "nix-cache-info") then Some routeCacheInfo
      else if bool_decide (f = "metrics") then Some routeMetrics
      else match cut ".narinfo" f with
        | Some (h, "") => if narinfo_hash_match h then Some (routeNarInfo h) else None
        | _ => None
        end
  | [""; d; f] =>
      if bool_decide (d = "nar") then
        match cut ".nar" f with
        | Some (h, "") => if normalized_match h then Some (routeNar h) else None
        | Some (h, String "." c) => if normalized_match h && negb (bool_decide (c = "")) then Some (routeNarCompression h c) else None
        | _ => None
        end
      else if bool_decide (d = "pin") then
        match cut ".narinfo" f with
        | Some (h, "") => if narinfo_hash_match h then Some (routePinClosure h) else None
        | _ => None
        end
      else None
  | _ => None
  end.

(** Some of the routes. *)
#[local] Instance sample_libs : Libs (H := tagged_nix) := {
  chi_match p :=
    match strip_prefix uploadPrefix p with
    | Some q => r ← sample_route q; if bool_decide (p = mounted true r) then Some (true, r) else None
    | None => r ← sample_route p; if bool_decide (p = mounted false r) then Some (false, r) else None
    end;
  Heartbeat p := bool_decide (p = "/healthz");
  Sum256 t := t;
  NarInfo_String ni := StorePath ni +:+ " " +:+ InfoURL ni;
  json_index h k := h +:+ " " +:+ k;
  json_strings := join_with ",";
  nar_error_text _ := "bad NAR URL";
}.

Lemma sample_route_valid p r : sample_route p = Some r → valid_route r = true.
Proof.
  unfold sample_route. intros Hr. repeat (case_match; simplify_eq; try done); simpl in *; by bool_props.
Qed.

Lemma sample_route_nar h e :
  normalized_match h = true → str_mem "/" e = false →
  sample_route ("/nar/" +:+ nar_filename h e) = Some (if bool_decide (e = "") then routeNar h else routeNarCompression h e).
Proof.
  intros Hh He. assert (hash_match h = true) as Hm by (unfold hash_match; by rewrite Hh).
  assert (str_mem "/" (nar_filename h e) = false) as Hno.
  { unfold nar_filename. rewrite !str_mem_app, hash_no by done. case_bool_decide; [done|]. by rewrite str_mem_app. }
  unfold sample_route. change ("/nar/" +:+ nar_filename h e) with ("" +:+ String "/" ("nar" +:+ String "/" (nar_filename h e))).
  rewrite split_on_app, split_on_app, split_on_none by done. simpl.
  unfold nar_filename. change ".nar" with (String "." "nar"). rewrite cut_app by (by apply hash_no).
  case_bool_decide as Hemp; [subst; simpl; by rewrite Hh|]. simpl. by rewrite Hh, bool_decide_false.
Qed.

#[local] Instance sample_libs_laws : LibsLaws sample_libs.
Proof.
  assert (∀ (upload : bool) h e, normalized_match h = true → str_mem "/" e = false →
    let r := if bool_decide (e = "") then routeNar h else routeNarCompression h e in
    chi_match (Libs := sample_libs) (mounted upload r) = Some (upload, r)) as Hnar.
  { intros upload h e Hh He. simpl. rewrite mounted_nar. pose proof (sample_route_nar h e Hh He) as Hr.
    pose proof (mounted_nar upload h e) as Hm.
    destruct upload; simpl in *; change ("/" +:+ "nar/" +:+ ?x) with ("/nar/" +:+ x); rewrite Hr; simpl;
      by rewrite bool_decide_true. }
  split.
  - intros upload h Hh. exact (Hnar upload h "" Hh eq_refl).
  - intros upload h c Hh Hc Hs. specialize (Hnar upload h c Hh Hs). by rewrite bool_decide_false in Hnar.
  - intros p upload r. unfold chi_match, sample_libs. destruct (strip_prefix uploadPrefix p).
    + destruct (sample_route _) as [r'|] eqn:Hr; simpl; [|done]. case_bool_decide; [|done]. intros [= <- <-].
      split; [by eapply sample_route_valid|by left].
    + destruct (sample_route _) as [r'|] eqn:Hr; simpl; [|done]. case_bool_decide; [|done]. intros [= <- <-].
      split; [by eapply sample_route_valid|by left].
  - intros p Hp. simpl in Hp. apply bool_decide_eq_true in Hp. by subst.
Defined.

Section samples.
#[local] Instance sample_chunker : Chunker := { Chunk t := [s_bytes t]; digest b := b }.

(** The cache of [NarInfoCache]'s samples, without pins and build traces. *)
#[local] Instance sample_ops : CacheOps state :=
  modelled (SG := tagged_signing) (CD := tagged_codec) plain_config keep_order 9 id hello_upstream (λ _, None)
    (λ _, None) (λ _, "failed") "ncps:key" (λ _ _, throw (mkErr KStorageNotFound "")) (λ _ _ _, throw (mkErr KOther ""))
    (λ _, mret ()) (λ _, mret ()) (mret []).

Definition guarded : Server := mkServer false "secret" false None.

Definition asks (m : method) (path query auth : string) : request := mkRequest m path query auth "" (mkReader "" false).

Definition nar_file : string := match nar_path hello_url with Ok p => p | Err _ => "" end.

Definition hello_world : state := mkState (stored_world {[nar_file := "Xnix-archive-1"]}) [].

Lemma requests_are_guarded_witness :
  let paths := [(GET, "/" +:+ hello_hash +:+ ".narinfo"); (PUT, "/upload/" +:+ hello_hash +:+ ".narinfo");
                (DELETE, "/" +:+ hello_hash +:+ ".narinfo"); (GET, "/metrics")] in
  Forall (λ x, ∀ s, (ServeHTTP guarded (asks x.1 x.2 "" "Bearer wrong") s).2 = s) paths ∧
  (λ x, code (ServeHTTP guarded (asks x.1 x.2 "" "Bearer wrong") hello_world).1) <$> paths = [401; 405; 405; 404]%Z.
Proof.
  split; [|vm_compute; reflexivity].
  repeat (apply Forall_cons; split); [| | | |by apply Forall_nil]; intros s; cbn [fst snd];
    match goal with |- (ServeHTTP _ ?r _).2 = _ =>
      destruct (requests_are_guarded (L := sample_libs) guarded r (λ t Ht, Ht)) as (a & Hs & _); [reflexivity|by rewrite Hs] end.
Defined.

(** The narinfo of [hello], served from the database, and a request for its NAR. *)
Lemma narinfo_leads_to_its_nar_witness :
  let r := asks GET ("/" +:+ hello_hash +:+ ".narinfo") "" "Bearer secret" in
  let '(a, s1) := ServeHTTP guarded r hello_world in
  code a = 200%Z ∧ ∃ v, v = hello_url ∧ ∀ s',
    ServeHTTP guarded (asks HEAD ("/nar/" +:+ sample_hash +:+ ".nar.xz") "" "Bearer secret") s' =
    op_serve_nar false false "" v s'.
Proof.
  pose (x := op_GetNarInfo (S := state) false hello_hash hello_world).
  assert (∃ ni s1, x = (Ok ni, s1) ∧ InfoURL ni = "nar/" +:+ sample_hash +:+ ".nar.xz") as (ni & s1 & Hx & Hurl).
  { subst x. vm_compute. by eexists _, _. }
  assert (ParseURL (InfoURL ni) = Ok hello_url) as Hp by (rewrite Hurl; vm_compute; reflexivity).
  assert (InfoURL ni ≠ "") as Hne by (rewrite Hurl; discriminate).
  pose proof (narinfo_leads_to_its_nar (L := sample_libs) (O := sample_ops) guarded (asks GET ("/" +:+ hello_hash +:+ ".narinfo") "" "Bearer secret") false hello_hash
    hello_world s1 ni hello_url ltac:(vm_compute; reflexivity) ltac:(reflexivity) ltac:(reflexivity) Hx Hne Hp) as Hleads.
  clearbody x. destruct Hleads as (v & url & p & q & Hv & Hstr & Hcut & Hget & Hnar).
  assert (Normalize hello_url = Ok hello_url) as Hn by (vm_compute; reflexivity).
  assert (v = hello_url) as -> by congruence.
  assert (URLString hello_url = Ok ("nar/" +:+ sample_hash +:+ ".nar.xz")) as Hu by (vm_compute; reflexivity).
  assert (url = "nar/" +:+ sample_hash +:+ ".nar.xz") as -> by congruence.
  vm_compute in Hcut. injection Hcut as <- <-.
  intros r. subst r. rewrite Hget. split; [done|]. exists hello_url. split; [done|].
  intros s'. by apply Hnar.
Defined.

(** Index, pins without a token, an upload's answer, and paths that are not routed. *)
Example other_answers :
  let ask m p := (ServeHTTP guarded (asks m p "" "") hello_world).1 in
  (code (ask GET "/healthz"), code (ask GET "/"), code (ask POST ("/pin/" +:+ hello_hash +:+ ".narinfo")),
   code (ask GET "/nix-cache-info"), code (ask OTHER "/x")) = (200, 401, 200, 401, 404)%Z ∧
  (ServeHTTP (mkServer false "" true None) (mkRequest PUT ("/upload/" +:+ hello_hash +:+ ".narinfo") "" "" "" (mkReader "" false))
    hello_world).1 = http_Error "failed" 500 ∧
  payload (ServeHTTP (mkServer false "" true None) (asks GET "/" "" "") hello_world).1 = plain_stream ("ncps ncps:key" +:+ line_feed).
Proof. by vm_compute. Qed.
End samples.
