(* ===== verification/Bulk.v ===== *)
(** * The bulk migration commands ([pkg/ncps/migrate_*.go])

    What [migrate-narinfo], [migrate-nar-to-chunks] and [migrate-chunks-to-nar] do with
    every row they find, over the migrations of one entry of [NarInfoCache] and
    [NarStore].  Workers run one after another here, in any order ([schedule]); the
    concurrency only bounds how many workers run, and progress is only reported.
    [migrate-chunks-to-nar] looks at its context: [ctx] says for each row in which state
    its worker finds it.  The two others do not; for them an interruption is a run of
    failed operations. *)
From stdpp Require Import sorting.
From S2P Require Import Download.
From S2P Require Import Prelude GoStd Nar Tx NarInfoDB NarInfoCache NarServe NarStore.

Inductive cmd_err :=
  | ECache (e : cache_err)
  | ENoCDC
  | ErrUnmigratedNarinfosFound (n : nat)
  | ErrMigrationFailed (n : nat)
  | ErrChunksToNarFailures (n : nat).

(** What a worker counts its entry as; [InProgress]: as nothing. *)
Inductive outcome := Succeeded | Failed | Skipped | Purged | InProgress.

#[global] Instance outcome_eq_dec : EqDecision outcome.
Proof. solve_decision. Defined.

Definition counted (o : outcome) (l : list outcome) : nat := length (filter (λ x, x = o) l).

(** The totals of a run. *)
Record totals := mkTotals {
  totalSucceeded : nat;
  totalFailed : nat;
  totalSkipped : nat;
  totalPurged : nat;
}.

Definition totals_of (l : list outcome) : totals :=
  mkTotals (counted Succeeded l) (counted Failed l) (counted Skipped l) (counted Purged l).

(** [SetCDCLazyChunking(false, 0)] *)
Definition not_lazy (cfg : Config) : Config :=
  mkConfig (cdcEnabled cfg) (chunkStore cfg) false (shouldSignNarinfo cfg) (hostName cfg) (requireTrustedSignature cfg)
    (trusted_keys cfg) (recordAgeIgnoreTouch cfg) (postgres cfg).

(** A row's NAR, unless its query cannot be parsed. *)
Definition row_url (nf : nar_file) : option URL :=
  if bool_decide (nf_query nf = "") then Some (mkURL (nf_hash nf) (nf_compression nf) ∅ false "") else
  match parse_query (nf_query nf) with
  | Ok q => Some (mkURL (nf_hash nf) (nf_compression nf) q false "")
  | Err _ => None
  end.

(** The command's context, for a worker: not done before it ends, done when it starts, or
    done while it migrates its NAR; [wrapped]: the error of that, if any, says so. *)
Inductive life := Alive | Done | DoneDuring (wrapped : bool).

#[global] Instance life_eq_dec : EqDecision life.
Proof. solve_decision. Defined.

Section bulk.
Context `{GN : GoNix} {SG : Signing} {CD : Codec} {CH : Chunker} {HA : Hashing} (cfg : Config) (now : Z).

(** The order in which the workers run. *)
Context (schedule : ∀ {A}, list A → list A).
Notation M := (eff state cache_err).
Notation C := (eff state cmd_err).

Definition cache {A} (m : M A) : C A := wrap ECache m.

Definition db_fault : cache_err := EDb (Fault OtherFault).

(** The errgroup: every worker runs, and none fails the group. *)
Fixpoint run_workers {A} (worker : A → M outcome) (l : list A) : M (list outcome) :=
  match l with
  | [] => mret []
  | x :: l => o ← worker x; os ← run_workers worker l; mret (o :: os)
  end.

(** ** Chunks to files *)

(** In a context that is done, only the lock may not look at it: the queries fail. *)
Definition in_done_context {A} (m : M A) : M A := λ s,
  let '(r, s') := m (mkState (st s) (next s :: replicate 10 EvFault)) in (r, put (st s') s).

(** The error of a migration whose context was done. *)
Definition interrupted (ctx : life) (r : result cache_err ()) : result cache_err () :=
  match ctx, r with
  | DoneDuring true, Err ErrMigrationInProgress | DoneDuring true, Err ErrNarAlreadyWholeFile => r
  | DoneDuring true, Err _ => Err ECtx
  | _, _ => r
  end.

Definition purge_in (ctx : life) (u : URL) : M () :=
  if bool_decide (ctx = Alive) then PurgeChunkedNar (not_lazy cfg) u else in_done_context (PurgeChunkedNar (not_lazy cfg) u).

Definition dechunk_worker (dryRun forceReclaim : bool) (ctx : life) (row : Z * nar_file) : M outcome :=
  if bool_decide (ctx = Done) then mret InProgress else
  match row_url row.2 with
  | None => mret Failed
  | Some narURL =>
      if dryRun then mret Succeeded else
      r ← try (E' := cache_err) (MigrateChunksToNar (not_lazy cfg) now narURL forceReclaim);
      match interrupted ctx r with
      | Err ErrMigrationInProgress | Err ErrNarAlreadyWholeFile => mret Skipped
      | Err ECtx => mret Failed
      | Err _ =>
          r ← try (E' := cache_err) (purge_in ctx narURL);
          mret (match r with Err ErrMigrationInProgress => Skipped | Err _ => Failed | Ok _ => Purged end)
      | Ok _ => mret Succeeded
      end
  end.

(** The rows with chunks, and those without, in the order of their ids. *)
Definition chunked_rows (d : tables) : list (Z * nar_file) :=
  merge_sort by_id (filter (λ x, (0 < nf_total_chunks x.2)%Z) (map_to_list (nar_files d))).

Definition whole_rows (d : tables) : list (Z * nar_file) :=
  merge_sort by_id (filter (λ x, nf_total_chunks x.2 = 0%Z) (map_to_list (nar_files d))).

Definition migrateChunksToNarAction (dryRun forceReclaim : bool) (ctx : Z → life) : C totals :=
  chunkedCount ← cache (ask db_fault (λ w, length (chunked_rows (db w))));
  if bool_decide (chunkedCount = 0) then mret (totals_of []) else
  narFiles ← cache (ask db_fault (λ w, chunked_rows (db w)));
  os ← cache (run_workers (λ row, dechunk_worker dryRun forceReclaim (ctx row.1) row) (schedule _ narFiles));
  if bool_decide (0 < counted Failed os) then throw (ErrChunksToNarFailures (counted Failed os)) else mret (totals_of os).

(** ** Files to chunks *)

(** The safety check, over the store's narinfos: those whose row is missing, or has no URL. *)
Fixpoint unmigrated (hashes : list string) : M nat :=
  match hashes with
  | [] => mret 0
  | h :: hashes =>
      r ← ask db_fault (λ w, Only (narinfos_where h (db w)));
      n ← (match r with
           | Ok (_, ni) => mret (if bool_decide (r_url ni = None) then 1 else 0)
           | Err e => if IsNotFoundError e then mret 1 else throw (EDb e)
           end);
      rest ← unmigrated hashes;
      mret (n + rest)
  end.

Definition chunk_worker (dryRun : bool) (row : Z * nar_file) : M outcome :=
  match row_url row.2 with
  | None => mret Failed
  | Some narURL =>
      hasChunks ← try (E' := cache_err) (HasNarInChunks (not_lazy cfg) narURL);
      match hasChunks with
      | Err _ => mret Failed
      | Ok true =>
          _ ← (if dryRun then mret (Ok false) else try (E' := cache_err) (narStore_DeleteNar narURL));
          mret Skipped
      | Ok false =>
          if dryRun then mret Succeeded else
          r ← try (E' := cache_err) (MigrateNarToChunks (not_lazy cfg) now narURL);
          match r with
          | Err ErrMigrationInProgress => mret InProgress
          | Ok _ => _ ← try (E' := cache_err) (narStore_DeleteNar narURL); mret Succeeded
          | Err ErrNarAlreadyChunked => _ ← try (E' := cache_err) (narStore_DeleteNar narURL); mret Skipped
          | Err _ => mret Failed
          end
      end
  end.

(** [cdc_enabled]: what the stored configuration says. *)
Definition migrateNarToChunks (cdc_enabled dryRun : bool) : C totals :=
  if negb cdc_enabled then throw ENoCDC else
  hashes ← cache (ask EStore (λ w, elements (dom (legacy w))));
  n ← cache (unmigrated hashes);
  if bool_decide (0 < n) then throw (ErrUnmigratedNarinfosFound n) else
  _ ← cache (ask db_fault (λ _, ()));
  narFiles ← cache (ask db_fault (λ w, whole_rows (db w)));
  os ← cache (run_workers (chunk_worker dryRun) (schedule _ narFiles));
  mret (totals_of os).

(** ** Narinfos to the database *)

Definition narinfo_worker (dryRun : bool) (hash : string) : M outcome :=
  r ← try (E' := cache_err) (ask EStore (λ w, legacy w !! hash));
  match r with
  | Ok (Some ni) =>
      if dryRun then mret Succeeded else
      r ← try (E' := cache_err) (MigrateNarInfo cfg now hash ni true);
      mret (match r with Ok _ => Succeeded | Err _ => Failed end)
  | _ => mret Failed
  end.

Definition cleanup_worker (dryRun : bool) (hash : string) : M outcome :=
  if dryRun then mret Skipped else
  _ ← try (E' := cache_err) (DeleteLegacy hash);
  mret Skipped.

Definition hashes_where (P : option string → bool) (d : tables) : list string :=
  (r_hash <$> filter (λ r, P (r_url r) = true) (map_to_list (narinfos d)).*2).

Definition url_is_nil (o : option string) : bool := bool_decide (o = None).

(** The workers of both lists share the group. *)
Definition migrateNarInfo (dryRun : bool) : C totals :=
  unmigratedHashes ← cache (ask db_fault (λ w, hashes_where url_is_nil (db w)));
  migratedHashes ← cache (ask db_fault (λ w, hashes_where (λ o, negb (url_is_nil o)) (db w)));
  os ← cache (run_workers (λ x, if x.1 : bool then narinfo_worker dryRun x.2 else cleanup_worker dryRun x.2)
    (schedule _ ((pair true <$> unmigratedHashes) ++ (pair false <$> migratedHashes))));
  if bool_decide (0 < counted Failed os) then throw (ErrMigrationFailed (counted Failed os)) else mret (totals_of os).
End bulk.

(** ** Lemmas *)

Section lemmas.
Context `{GN : GoNix} {SG : Signing} {CD : Codec} {CH : Chunker} {HA : Hashing} (content : string → string).
Context `{!CodecLaws} `{!ChunkerLaws} (nonempty : ∀ h, content h ≠ "").
Context (cfg : Config) (now : Z).
Notation M := (eff state cache_err).
Notation tidy := (tidy content).
Notation tidy_tables := (tidy_tables content).

(** A worker that keeps [I], whatever the others did. *)
Lemma wp_run_workers {A} b (I : world → Prop) (worker : A → M outcome) l w :
  (∀ x w, x ∈ l → I w → wp b (worker x) (λ r w', (∃ o, r = Ok o) ∧ I w') w) → I w →
  wp b (run_workers worker l) (λ r w', (∃ os, r = Ok os ∧ length os = length l) ∧ I w') w.
Proof.
  revert w. induction l as [|x l IH]; intros w Hx Hw; simpl; [apply wp_ret; split; [by exists []|done]|].
  apply wp_bind. eapply wp_mono; [apply Hx; [by left|done]|]. intros r w1 [[o ->] H1].
  apply wp_bind. eapply wp_mono; [apply IH; [|done]|].
  - intros y w2 Hy. apply Hx. by right.
  - intros r w2 [(os & -> & Hl) H2]. apply wp_ret. split; [|done]. exists (o :: os). simpl. by rewrite Hl.
Qed.

(** In a context that is done, nothing is purged. *)
Lemma purge_done u s : ∃ e, in_done_context (PurgeChunkedNar cfg u) s = (Err e, put (st s) s).
Proof.
  unfold in_done_context, PurgeChunkedNar, withNarMigrationLock, mbind, eff_bind.
  destruct (isCDCEnabled cfg); simpl; [|by eexists].
  assert (∀ s', next s' = EvFault → (getNarFileFromDB cfg (mkURL (Hash u) CompressionTypeNone (Query u) false "") s') =
    (Err (EDb (Fault OtherFault)), put (st s') s')) as Hget.
  { intros s' Hs. unfold getNarFileFromDB, mbind, eff_bind. destruct (if isCDCEnabled cfg then _ else _). unfold ask. by rewrite Hs. }
  unfold try_migration_lock. change (next (mkState (st s) (next s :: _))) with (next s).
  destruct (next s); simpl; try case_bool_decide; simpl; rewrite ?Hget by reflexivity; by eexists.
Qed.

(** The rows with chunks are among those listed. *)
Definition same_key (x y : nar_file) : Prop :=
  nf_hash x = nf_hash y ∧ nf_compression x = nf_compression y ∧ nf_query x = nf_query y.

Definition chunked_among (l : list (Z * nar_file)) (d : tables) : Prop :=
  ∀ f nf, nar_files d !! f = Some nf → (0 < nf_total_chunks nf)%Z → ∃ x, x ∈ l ∧ x.1 = f ∧ same_key x.2 nf.

(** No row with chunks has the NAR's key. *)
Definition settled (u : URL) (d : tables) : Prop :=
  ∀ f nf, nar_files d !! f = Some nf → has_key (Hash u) CompressionTypeNone (encode (Query u)) nf → (nf_total_chunks nf <= 0)%Z.

Definition draining (l : list (Z * nar_file)) (w : world) : Prop := tidy w ∧ chunked_among l (db w).

Lemma chunked_among_same l d d' : same_but_access d d' → chunked_among l d → chunked_among l d'.
Proof.
  intros Hs Hd f nf Hf Hpos. symmetry in Hs. destruct (same_but_access_file _ _ _ _ Hs Hf) as [t Hf'].
  destruct (Hd f _ Hf' Hpos) as (x & Hx & Hfx & Hk). by exists x.
Qed.

Lemma draining_same l w w' : world_same w w' → draining l w → draining l w'.
Proof.
  intros Hs [Ht Hc]. split.
  - eapply (ordered_world_same content w w w' Hs). split; [done|apply grows_refl].
  - destruct Hs as (d & -> & Hd). by eapply chunked_among_same.
Qed.

Lemma draining_db l w w' : ordered content w w' → db w' = db w → draining l w → draining l w'.
Proof. intros [Ht _] Hd [_ Hc]. split; [done|]. by rewrite Hd. Qed.

Lemma wp_cleanup_draining b l hs w (P : tables → Prop) :
  draining l w → P (db w) → wp b (cleanupStaleLockChunks hs) (λ r w', draining l w' ∧ (r = Ok () → P (db w'))) w.
Proof.
  intros Hw HP. eapply wp_mono; [apply (wp_cleanupStaleLockChunks content nonempty b w); split; [apply Hw|apply grows_refl]|].
  intros r w' (_ & Ho & Hd). split; [by eapply draining_db|]. by rewrite Hd.
Qed.

Lemma chunked_among_flip l f nf d : nar_files d !! f = Some nf → chunked_among l d → chunked_among l (flip_row f nf d).
Proof.
  intros Hf Hd g x Hg Hpos. simpl in Hg. apply lookup_insert_Some in Hg as [[<- <-]|[_ Hg]]; [simpl in Hpos; lia|]. by apply Hd.
Qed.

Lemma settled_at u f nf d :
  unique_keys d → nar_files d !! f = Some nf → has_key (Hash u) CompressionTypeNone (encode (Query u)) nf →
  (nf_total_chunks nf <= 0)%Z → settled u d.
Proof.
  intros Hu Hf Hk Hz g x Hg Hkx. assert (g = f) as -> by by eapply (unique_file _ Hu _ _ _ _ _ _ _ Hg Hf). congruence.
Qed.

(** The flip, in a transaction that may be retried. *)
Definition flippable (files : gmap string string) (u : URL) (f : Z) (l : list (Z * nar_file)) (d : tables) : Prop :=
  tidy_tables files d ∧ chunked_among l d ∧
  ∃ nf, nar_files d !! f = Some nf ∧ has_key (Hash u) CompressionTypeNone (encode (Query u)) nf.

Lemma after_flip_settles files u f l d :
  flippable files u f l d →
  after false (λ r v' d', is_ok r = true → flippable files u f l d' ∧ settled u d') (flip_tx u f) () d.
Proof.
  intros (Hd & Hc & nf & Hf & Hk). apply after_bind, after_exec; [done|]. apply after_bind.
  eapply after_update_file; [exact Hf|done|]. eapply after_mono; [apply after_normalize_narinfos|].
  intros r [] d' Hr Hok. destruct (Hr Hok) as (P & url & ->). clear Hr Hok.
  change (flippable files u f l (renormalize_where P url (flip_row f nf d)) ∧ settled u (renormalize_where P url (flip_row f nf d))).
  assert (tidy_tables files (flip_row f nf d)) as Ht by by apply tidy_flip.
  assert (nar_files (flip_row f nf d) !! f = Some (set_chunked 0 (nf_file_size nf) nf)) as Hf' by (simpl; by rewrite lookup_insert_eq).
  split; [split; [by apply tidy_renormalize|]; split|].
  - exact (chunked_among_flip l f nf d Hf Hc).
  - by eexists.
  - apply (settled_at u f (set_chunked 0 (nf_file_size nf) nf)); [|done..].
    apply (st_unique _ _ _ (tt_sound _ _ _ (tidy_renormalize content files P url _ Ht))).
Qed.

Lemma not_found_settled u d :
  isCDCEnabled cfg = true → unique_keys d → lookup_nar_file cfg (mkURL (Hash u) CompressionTypeNone (Query u) false "") d = Err RowNotFound →
  settled u d.
Proof.
  intros Hcdc Hu Hl g x Hg Hk. unfold lookup_nar_file in Hl. rewrite Hcdc in Hl. simpl in Hl.
  destruct (nar_files_where_cases (Hash u) CompressionTypeNone (encode (Query u)) d Hu) as [[_ Hno]|(f & nf & Hw & _)].
  - by destruct (Hno g x Hg).
  - unfold find_nar_file in Hl. rewrite Hw in Hl. by simpl in Hl.
Qed.

Lemma wp_dechunk b u force l w :
  draining l w → wp b (MigrateChunksToNar cfg now u force) (λ r w', draining l w' ∧ (r = Ok () → settled u (db w'))) w.
Proof.
  intros Hh. unfold MigrateChunksToNar. destruct (isCDCEnabled cfg) eqn:Hcdc; simpl; [|by apply wp_throw].
  apply wp_withNarMigrationLock; [done|]. set (n := mkURL (Hash u) CompressionTypeNone (Query u) false "").
  apply wp_bind, wp_getNarFileFromDB; [done|]. apply wp_bind, wp_lift.
  pose proof (tt_sound _ _ _ (ty_tables _ _ (proj1 Hh))) as Hs.
  destruct (lookup_nar_file_inv cfg n (db w) (st_unique _ _ _ Hs)) as [->|(f & nf & -> & Hf & Hk)]; simpl; [done|].
  assert (has_key (Hash n) CompressionTypeNone (encode (Query n)) nf) as Hkn by by destruct Hk.
  destruct (bool_decide _); [by apply wp_throw|].
  apply wp_bind, wp_looks; [apply looks_LinkedNarinfoNarHash|]. intros [o|e]; [|done].
  apply wp_bind, wp_lift. destruct o as [expected|]; simpl; [|done].
  apply wp_bind, wp_try. eapply wp_mono; [apply (wp_getNarFromChunks content digest), tidy_sound, Hh|].
  intros r w1 [Hsame Hr]. pose proof (draining_same l _ _ Hsame Hh) as H1. apply wp_bind, wp_lift.
  destruct r as [[[u' size] rc]|e]; simpl; [|done]. destruct (Hr _ _ _ eq_refl) as [_ Hrc].
  apply wp_bind, wp_query; [done|]. destruct (s_breaks rc) eqn:Hb; [by apply wp_throw|]. destruct (Hrc eq_refl) as [Hbytes _].
  destruct (bool_decide (sha256 _ = _)); simpl; [|by apply wp_throw]. destruct (bool_decide (string_length _ = _)); simpl; [|by apply wp_throw].
  apply wp_bind, wp_query; [done|]. apply wp_bind.
  eapply wp_mono; [apply (wp_narStore_PutNar content b n rc w1); [split; [apply H1|apply grows_refl]|]|].
  { intros _. simpl in *. rewrite Hbytes. apply holds_none. }
  intros [o|e] w2 (Ho & Hdb & _); [|split; [by eapply draining_db|done]].
  assert (draining l w2) as H2 by by eapply draining_db.
  assert (∃ nf, nar_files (db w2) !! f = Some nf ∧ has_key (Hash n) CompressionTypeNone (encode (Query n)) nf) as Hrow.
  { destruct Hsame as (d & -> & Hd). rewrite Hdb. simpl. destruct (same_but_access_file _ _ _ _ Hd Hf) as [t Hf']. by eexists. }
  apply wp_bind, wp_looks; [destruct force; [apply preserves_ask|apply preserves_ret]|]. intros [prev|e]; [|done].
  apply wp_bind, wp_transaction_.
  apply (wp_transaction b (λ _ d, flippable (chunkFiles w2) n f l d) (λ _ d, settled n d)).
  - split; [apply H2|]. by split; [apply H2|].
  - intros [] d Hd. eapply after_mono; [by apply after_flip_settles|]. intros r0 [] d' Hr0. split; [done|]. exact Hr0.
  - intros e [] d (Hd & Hc & _). split; [|done]. split; [split; [done|apply H2..]|done].
  - intros [] d (Hd & Hc & _) Hset.
    assert (draining l (set_db d w2)) as H3 by (split; [split; [done|apply H2..]|done]).
    destruct force; [by apply wp_cleanup_draining|by apply wp_ret].
Qed.

Lemma wp_purge b u l w :
  draining l w → wp b (PurgeChunkedNar cfg u) (λ r w', draining l w' ∧ (r = Ok () → settled u (db w'))) w.
Proof.
  intros Hh. unfold PurgeChunkedNar. destruct (isCDCEnabled cfg) eqn:Hcdc; simpl; [|by apply wp_throw].
  apply wp_withNarMigrationLock; [done|]. set (n := mkURL (Hash u) CompressionTypeNone (Query u) false "").
  apply wp_bind, wp_getNarFileFromDB; [done|].
  pose proof (tt_sound _ _ _ (ty_tables _ _ (proj1 Hh))) as Hs. pose proof (st_unique _ _ _ Hs) as Hu.
  destruct (lookup_nar_file_inv cfg n (db w) Hu) as [Hno|(f & nf & -> & Hf & Hk)].
  { rewrite Hno. apply wp_ret. split; [done|]. intros _. by apply not_found_settled. }
  assert (has_key (Hash n) CompressionTypeNone (encode (Query n)) nf) as Hkn by by destruct Hk.
  destruct (bool_decide _); [by apply wp_throw|]. apply wp_bind, wp_query; [done|]. apply wp_bind, wp_transaction_.
  assert (draining l (set_db (delete_nar_file f (db w)) w)) as Hdel.
  { destruct Hh as [[Hd ? ?] Hc]. split; [split; [by apply tidy_delete_file|done|done]|].
    intros g x Hg. simpl in Hg. apply lookup_delete_Some in Hg as [_ Hg]. by apply Hc. }
  apply (wp_transaction b (λ _ d, d = db w ∨ d = delete_nar_file f (db w)) (λ _ d, d = delete_nar_file f (db w))).
  - by left.
  - intros [] d Hi. apply after_bind, after_exec; [done|]. apply after_exec; [done|]. split; [done|]. intros _.
    rewrite delete_links_and_file. assert (delete_nar_file f d = delete_nar_file f (db w)) as ->; [|by split; [right|]].
    destruct Hi as [->| ->]; [done|]. unfold delete_nar_file. simpl. f_equal; try apply delete_delete_eq.
    by rewrite list_filter_filter; apply list_filter_iff; intros; tauto.
  - intros e [] d Hi. split; [|done]. destruct Hi as [->| ->]; [by destruct w|done].
  - intros [] d _ ->. apply wp_cleanup_draining; [done|]. simpl. intros g x Hg Hkx.
    simpl in Hg. apply lookup_delete_Some in Hg as [Hne Hg]. destruct Hne. by eapply (unique_file _ Hu _ _ _ _ _ _ _ Hf Hg).
Qed.

(** Of chunks that nothing uses, a cleanup that nothing disturbs leaves none. *)
Lemma wp_orphans_gone hs w :
  wp false (delete_orphan_chunks hs) (λ r w', r = Ok () ∧ db w' = db w ∧
    ∀ h, (h ∈ hs ∨ chunkFiles w !! h = None) → chunk_linked h (db w) = false → chunkFiles w' !! h = None) w.
Proof.
  revert w. induction hs as [|k hs IH]; intros w; simpl.
  { apply wp_ret. split_and!; [done..|]. by intros h [Hh|]; [apply elem_of_nil in Hh|]. }
  apply wp_bind, wp_try, wp_query; [done|]. apply wp_bind. destruct (chunk_linked k (db w)) eqn:Hk.
  { apply wp_ret. eapply wp_mono; [apply IH|]. intros r w1 (-> & Hd & Hg). split_and!; [done..|].
    intros h [[->|Hh]%elem_of_cons|Hn] Hl; [congruence|auto..]. }
  apply wp_bind, wp_try, wp_act; [done|]. apply wp_ret. eapply wp_mono; [apply IH|]. intros r w1 (-> & Hd & Hg).
  split_and!; [done..|]. intros h Hh Hl. apply Hg; [|done]. simpl. destruct (decide (h = k)) as [->|Hne]; [right; apply lookup_delete_eq|].
  destruct Hh as [[->|Hh]%elem_of_cons|Hn]; [done|by left|right; by rewrite lookup_delete_ne].
Qed.

Lemma wp_cleanup_gone hs w :
  wp false (cleanupStaleLockChunks hs) (λ r w', r = Ok () ∧ db w' = db w ∧
    ∀ h, h ∈ hs → chunk_linked h (db w) = false → chunkFiles w' !! h = None) w.
Proof.
  unfold cleanupStaleLockChunks. case_bool_decide as Hnil; [subst; apply wp_ret; split_and!; [done..|]; by intros h Hh%elem_of_nil|].
  apply wp_bind, wp_try, wp_query; [done|]. eapply wp_mono; [apply wp_orphans_gone|]. intros r w1 (-> & Hd & Hg).
  split_and!; [done..|]. intros h Hh Hl. apply Hg; [|done]. left. by apply list_elem_of_filter.
Qed.

(** A chunk of no other row. *)
Definition only_in (f : Z) (h : string) (d : tables) : Prop := h ∈ links_of f d ∧ ∀ g, g ≠ f → h ∉ links_of g d.

Lemma only_in_unlinked f h d : only_in f h d → chunk_linked h (delete_nar_file f d) = false.
Proof.
  intros [_ Ho]. unfold chunk_linked. apply bool_decide_eq_false. intros (g & l & Hl & Hh). simpl in Hl.
  apply lookup_delete_Some in Hl as [Hne Hl]. apply (Ho g); [done|]. unfold links_of. by rewrite Hl.
Qed.

(** An undisturbed purge: the row is gone, and the chunks that it alone used. *)
Lemma wp_purge_calm u f nf w :
  isCDCEnabled cfg = true → unique_keys (db w) → Hash u ∉ chunking w →
  nar_files (db w) !! f = Some nf → has_key (Hash u) CompressionTypeNone (encode (Query u)) nf → nf_total_chunks nf ≠ 0%Z →
  wp false (PurgeChunkedNar cfg u) (λ r w', r = Ok () ∧ nar_files (db w') !! f = None ∧
    ∀ h, only_in f h (db w) → chunkFiles w' !! h = None) w.
Proof.
  intros Hcdc Hu Hlock Hf Hk Hpos. unfold PurgeChunkedNar. rewrite Hcdc. simpl. unfold withNarMigrationLock.
  apply wp_bind. intros s <- Hc. destruct (idle_next false s Hc) as (Hc' & _ & Hn). unfold try_migration_lock. rewrite (Hn eq_refl).
  change (view s) with (st s) in *. split; [exact Hc'|]. simpl. rewrite bool_decide_true by done. simpl. set (w := st s) in *. clearbody w. clear s Hc Hn Hc'.
  apply wp_bind, wp_getNarFileFromDB; [done|].
  assert (lookup_nar_file cfg (mkURL (Hash u) CompressionTypeNone (Query u) false "") (db w) = Ok (f, nf)) as ->.
  { unfold lookup_nar_file. rewrite Hcdc. simpl. unfold find_nar_file.
    destruct (nar_files_where_cases (Hash u) CompressionTypeNone (encode (Query u)) (db w) Hu) as [[_ Hno]|(g & x & -> & Hg & Hx)].
    - by destruct (Hno f nf Hf).
    - assert (g = f) as -> by by eapply (unique_file _ Hu _ _ _ _ _ _ _ Hg Hf). simpl. congruence. }
  rewrite bool_decide_false by done. apply wp_bind, wp_query; [done|]. apply wp_bind, wp_transaction_, wp_transaction_calm.
  apply after_bind, after_exec; [done|]. apply after_exec; [done|]. rewrite delete_links_and_file.
  eapply wp_mono; [apply wp_cleanup_gone|]. intros r w1 (-> & Hd & Hg). split_and!; [done|rewrite Hd; apply lookup_delete_eq|].
  intros h Hh. apply Hg; [|by apply only_in_unlinked]. apply elem_of_remove_dups, Hh.
Qed.

(** *** The drain *)

(** A row whose query is as [Encode] prints it. *)
Definition canonical (nf : nar_file) : Prop := ∃ q, parse_query (nf_query nf) = Ok q ∧ encode q = nf_query nf.

Lemma row_url_canonical nf :
  canonical nf → ∃ u, row_url nf = Some u ∧ Hash u = nf_hash nf ∧ Compression u = nf_compression nf ∧ encode (Query u) = nf_query nf.
Proof.
  intros (q & Hq & He). unfold row_url. case_bool_decide as Hemp; [by eexists|]. rewrite Hq. by eexists.
Qed.

Lemma chunked_among_mono l l' d : (∀ x, x ∈ l → x ∈ l') → chunked_among l d → chunked_among l' d.
Proof. intros Hl Hd f nf Hf Hpos. destruct (Hd f nf Hf Hpos) as (x & Hx & Hr). exists x. auto. Qed.

Lemma draining_settled x l u w :
  draining (x :: l) w → settled u (db w) → Hash u = nf_hash x.2 → encode (Query u) = nf_query x.2 → draining l w.
Proof.
  intros [Ht Hc] Hs Hh Hq. split; [done|]. intros f nf Hf Hpos.
  destruct (Hc f nf Hf Hpos) as (y & [->|Hy]%elem_of_cons & Hfy & Hk); [|by exists y]. exfalso.
  destruct (st_rows _ _ _ (tt_sound _ _ _ (ty_tables _ _ Ht)) f nf Hf Hpos) as (Hnone & _).
  assert (nf_total_chunks nf <= 0)%Z; [|lia]. apply (Hs f nf Hf). destruct Hk as (H1 & _ & H3). split_and!; congruence.
Qed.

Definition done_with (o : outcome) : bool := bool_decide (o = Succeeded ∨ o = Purged).

End lemmas.

(** Their workers. *)
Section workers.
Context `{GN : GoNix} {SG : Signing} {CD : Codec} {CH : Chunker} {HA : Hashing} (content : string → string).
Context `{!CodecLaws} `{!ChunkerLaws} (nonempty : ∀ h, content h ≠ "").
Context (cfg : Config) (now : Z).
Notation M := (eff state cache_err).
Notation draining := (draining content).

Lemma wp_in_done_context {A} b (m : M A) (Q : result cache_err A → world → Prop) w :
  wp true m Q w → wp b (in_done_context m) Q w.
Proof.
  intros Hm s <- Hc. destruct (idle_next b s Hc) as (Hc' & Hi & _).
  destruct (Hm (mkState (st s) (next s :: replicate 10 EvFault)) eq_refl) as [_ HQ].
  { simpl. constructor; [exact Hi|]. by repeat constructor. }
  unfold in_done_context. destruct (m _) as [r s']. split; [by apply (calm_put b (st s'))|exact HQ].
Qed.

Lemma wp_purge_in b ctx u l w :
  draining l w → wp b (purge_in cfg ctx u) (λ r w', draining l w' ∧ (r = Ok () → settled u (db w'))) w.
Proof.
  intros Hw. unfold purge_in. case_bool_decide; [by apply (wp_purge content nonempty)|].
  apply wp_in_done_context. by apply (wp_purge content nonempty).
Qed.

(** Unless its context is done when it starts, a worker counts its row. *)
Definition counts (ctx : life) (o : outcome) : Prop := o = InProgress ↔ ctx = Done.

Lemma wp_dechunk_worker b force ctx x l w :
  canonical x.2 → draining (x :: l) w →
  wp b (dechunk_worker cfg now false force ctx x) (λ r w', ∃ o, r = Ok o ∧ counts ctx o ∧
    draining (if done_with o then l else x :: l) w') w.
Proof.
  intros Hx Hw. unfold dechunk_worker. case_bool_decide as Hctx; [apply wp_ret; by exists InProgress|].
  destruct (row_url_canonical _ Hx) as (u & -> & Hh & _ & Hq).
  assert (∀ w1, draining (x :: l) w1 → settled u (db w1) → draining l w1) as Hdone by (intros; by eapply draining_settled).
  apply wp_bind, wp_try. eapply wp_mono; [by apply (wp_dechunk content nonempty (not_lazy cfg) now b u force (x :: l))|].
  intros r w1 [H1 Hr].
  assert (∀ o, o ≠ InProgress → done_with o = false →
    wp b (mret (M := M) o) (λ r w', ∃ o, r = Ok o ∧ counts ctx o ∧ draining (if done_with o then l else x :: l) w') w1) as Hkeep.
  { intros o Ho Hf. apply wp_ret. exists o. by rewrite Hf. }
  assert (wp b (r ← try (E' := cache_err) (purge_in cfg ctx u);
    mret (match r with Err ErrMigrationInProgress => Skipped | Err _ => Failed | Ok _ => Purged end))
    (λ r w', ∃ o, r = Ok o ∧ counts ctx o ∧ draining (if done_with o then l else x :: l) w') w1) as Hpurge.
  { apply wp_bind, wp_try. eapply wp_mono; [by apply (wp_purge_in b ctx u (x :: l))|].
    intros r' w2 [H2 Hr2]. apply wp_ret. destruct r' as [[]|e].
    - exists Purged. split_and!; [done|done|]. by apply Hdone; [|apply Hr2].
    - destruct e; (eexists; split_and!; [done|done|exact H2]). }
  destruct r as [[]|e].
  - replace (interrupted ctx (Ok ())) with (Ok (E := cache_err) ()) by by destruct ctx as [| |[]].
    apply wp_ret. exists Succeeded. split_and!; [done|done|]. by apply Hdone; [|apply Hr].
  - destruct ctx as [| |[]]; [|done|..]; destruct e; try exact Hpurge; by apply Hkeep.
Qed.

(** What is left of the rows. *)
Fixpoint left_over (l : list (Z * nar_file)) (os : list outcome) : list (Z * nar_file) :=
  match l, os with
  | x :: l, o :: os => if done_with o then left_over l os else x :: left_over l os
  | _, _ => []
  end.

Lemma wp_drain_workers b force (ctx : Z → life) l l0 w :
  Forall (λ x, canonical x.2) l → draining (l ++ l0) w →
  wp b (run_workers (λ x, dechunk_worker cfg now false force (ctx x.1) x) l) (λ r w', ∃ os, r = Ok os ∧
    Forall2 (λ x o, counts (ctx x.1) o) l os ∧ draining (left_over l os ++ l0) w') w.
Proof.
  revert l0 w. induction l as [|x l IH]; intros l0 w Hl Hw; simpl.
  { apply wp_ret. exists []. by split_and!. }
  apply Forall_cons in Hl as [Hx Hl]. apply wp_bind.
  eapply wp_mono; [by apply (wp_dechunk_worker b force (ctx x.1) x (l ++ l0))|]. intros r w1 (o & -> & Ho & H1).
  assert (draining (l ++ if done_with o then l0 else x :: l0) w1) as H1'.
  { destruct (done_with o); [done|]. destruct H1 as [Ht Hc]. split; [done|]. eapply chunked_among_mono; [|exact Hc]. set_solver. }
  apply wp_bind. eapply wp_mono; [by apply (IH _ w1 Hl H1')|]. intros r w2 (os & -> & Hos & H2). apply wp_ret.
  exists (o :: os). split_and!; [done|by constructor|]. simpl.
  destruct (done_with o); [done|]. destruct H2 as [Ht Hc]. split; [done|]. eapply chunked_among_mono; [|exact Hc]. set_solver.
Qed.
End workers.

Lemma left_over_nil l os :
  counted Failed os = 0 → counted Skipped os = 0 → counted InProgress os = 0 → left_over l os = [].
Proof.
  revert l. induction os as [|o os IH]; intros [|x l] Hf Hs Hin; try done. simpl.
  unfold counted in *. rewrite filter_cons in Hf, Hs, Hin. destruct o; simpl in *; try done; by apply IH.
Qed.

Lemma counts_add os :
  counted Succeeded os + counted Failed os + counted Skipped os + counted Purged os + counted InProgress os = length os.
Proof.
  unfold counted. induction os as [|o os IH]; [done|]. rewrite !filter_cons. destruct o; simpl; lia.
Qed.

(** The rows whose worker found the context done. *)
Definition uncounted (ctx : Z → life) (l : list (Z * nar_file)) : nat := length (filter (λ x, ctx x.1 = Done) l).

Lemma counted_uncounted ctx l os : Forall2 (λ x o, counts (ctx x.1) o) l os → counted InProgress os = uncounted ctx l.
Proof.
  unfold counted, uncounted. induction 1 as [|x o l os Ho _ IH]; [done|]. rewrite !filter_cons.
  unfold counts in Ho. case_decide; case_decide; simpl; [by rewrite IH|tauto..|done].
Qed.

Lemma uncounted_perm ctx l l' : l ≡ₚ l' → uncounted ctx l = uncounted ctx l'.
Proof. intros Hl. unfold uncounted. by rewrite Hl. Qed.

(** *** Chunking *)

(** [m] does not fail by saying that the NAR has chunks. *)
Definition never_chunked `{GN : GoNix} {A} (m : eff state cache_err A) : Prop := ∀ s, (m s).1 ≠ Err ErrNarAlreadyChunked.

Section never.
Context `{GN : GoNix} {CD : Codec} {CH : Chunker}.

Lemma never_bind {A B} (m : eff state cache_err A) (k : A → eff state cache_err B) :
  never_chunked m → (∀ a, never_chunked (k a)) → never_chunked (m ≫= k).
Proof.
  intros Hm Hk s. unfold mbind, eff_bind. specialize (Hm s). destruct (m s) as [[a|e] s1]; [by apply Hk|].
  simpl in *. congruence.
Qed.

Lemma never_try {A B} (m : eff state cache_err A) (k : result cache_err A → eff state cache_err B) :
  never_chunked m → (∀ r, r ≠ Err ErrNarAlreadyChunked → never_chunked (k r)) → never_chunked (r ← try m; k r).
Proof.
  intros Hm Hk s. unfold mbind, eff_bind, try. specialize (Hm s). destruct (m s) as [r s1]. by apply Hk.
Qed.

Lemma never_ret {A} (a : A) : never_chunked (mret a).
Proof. by intros s. Qed.

Lemma never_throw {A} e : e ≠ ErrNarAlreadyChunked → never_chunked (A := A) (throw e).
Proof. intros He s. simpl. congruence. Qed.

Lemma never_ask {A} e (q : world → A) : e ≠ ErrNarAlreadyChunked → never_chunked (ask e q).
Proof. intros He s. unfold ask. destruct (next s); simpl; congruence. Qed.

Lemma never_act e u : e ≠ ErrNarAlreadyChunked → never_chunked (act e u).
Proof. intros He s. unfold act. destruct (next s); simpl; congruence. Qed.

Lemma of_dberr_never e : of_dberr e ≠ ErrNarAlreadyChunked.
Proof. by destruct e as [| | | |[]]. Qed.

Lemma never_tx {V B} (fn : eff (session V tables) dberr ()) v (k : result cache_err () * V → eff state cache_err B) :
  (∀ r v, r ≠ Err ErrNarAlreadyChunked → never_chunked (k (r, v))) → never_chunked (x ← transaction fn v; k x).
Proof.
  intros Hk s. unfold mbind, eff_bind, transaction. destruct (withEntTransactionRetry _ _ _ _) as [[r v'] d]. apply Hk.
  destruct r as [a|e]; [done|]. simpl. intros [= He]. by apply (of_dberr_never e).
Qed.

Lemma never_transaction_ fn : never_chunked (transaction_ fn).
Proof. apply never_tx. intros r [] Hr s. done. Qed.

Lemma never_timer : never_chunked timer.
Proof. by intros s. Qed.

Lemma never_recordChunkBatch f i batch : never_chunked (recordChunkBatch f i batch).
Proof. unfold recordChunkBatch. case_bool_decide; [apply never_ret|apply never_transaction_]. Qed.

Lemma never_store_chunks f pieces : ∀ batch n, never_chunked (store_chunks f pieces batch n).
Proof.
  induction pieces as [|p pieces IH]; intros batch n; simpl; [apply never_ret|].
  apply never_bind; [by apply never_act|intros []]. apply never_bind; [apply never_timer|intros fired].
  destruct (_ || _); [|apply IH]. apply never_bind; [apply never_recordChunkBatch|intros []]. apply IH.
Qed.

Lemma never_cleanup hs : never_chunked (cleanupStaleLockChunks hs).
Proof.
  unfold cleanupStaleLockChunks. case_bool_decide; [apply never_ret|]. apply never_try; [by apply never_ask|].
  intros [l|e] _; [|apply never_ret]. induction l as [|h l IH]; simpl; [apply never_ret|].
  apply never_try; [by apply never_ask|]. intros r _. apply never_bind; [|intros []; apply IH].
  destruct r as [[]|e]; try apply never_ret. apply never_try; [by apply never_act|]. intros; apply never_ret.
Qed.

Lemma never_chunk_nar f t size : never_chunked (chunk_nar f t size).
Proof.
  unfold chunk_nar. apply never_bind; [apply never_store_chunks|intros [batch n]]. apply never_bind; [apply never_timer|intros lost].
  destruct (_ && _); [by apply never_throw|]. apply never_bind; [apply never_recordChunkBatch|intros []].
  destruct (_ && _); [by apply never_throw|apply never_transaction_].
Qed.

Lemma never_storeNar cfg now t size u : never_chunked (storeNarWithCDCFromReader cfg now t size u).
Proof.
  unfold storeNarWithCDCFromReader. apply never_tx. intros r [f stale] Hr.
  assert (never_chunked (r ← try (E' := cache_err) (
        if negb (isCDCEnabled cfg) then throw ErrCDCDisabled else
        _ ← cleanupStaleLockChunks stale; chunk_nar f (maybeDecompressReader t (Compression u)) size);
      match r with
      | Err e =>
          _ ← try (E' := cache_err) (act (EDb (Fault OtherFault)) (λ w,
            match update_nar_file f (set_chunking false) (db w) with Ok (_, d) => set_db d w | Err _ => w end));
          throw e
      | Ok _ =>
          if bool_decide (Compression u = CompressionTypeNone) || cdcLazyChunkingEnabled cfg then mret () else
          _ ← try (E' := cache_err) (transaction_ (relink_tx (with_compression u CompressionTypeNone) (Compression u) f));
          mret ()
      end)) as Hrest.
  { apply never_try.
    - destruct (negb _); [by apply never_throw|]. apply never_bind; [apply never_cleanup|intros []]. apply never_chunk_nar.
    - intros [[]|e] Hne.
      + destruct (_ || _); [apply never_ret|]. apply never_try; [apply never_transaction_|]. intros; apply never_ret.
      + apply never_try; [by apply never_act|]. intros _ _. apply never_throw. congruence. }
  destruct r as [[]|e]; [exact Hrest|]. assert (e ≠ ErrNarAlreadyChunked) as He by congruence.
  destruct e as [[| | | |[]]| | | | | | | | | | | | | | |]; try (by apply never_throw). apply never_ret.
Qed.
Lemma never_GetNar u : never_chunked (narStore_GetNar u).
Proof.
  unfold narStore_GetNar. destruct (nar_path u); [|by apply never_throw]. apply never_bind; [by apply never_ask|].
  intros [x|] s; done.
Qed.
End never.

Section chunking.
Context `{GN : GoNix} {SG : Signing} {CD : Codec} {CH : Chunker} {HA : Hashing} (content : string → string).
Context `{!CodecLaws} `{!ChunkerLaws} (nonempty : ∀ h, content h ≠ "").
Context (cfg : Config) (now : Z).
Notation M := (eff state cache_err).
Notation held := (held content cfg).

Lemma wp_delete_first_db b h q us w :
  held h q w → Forall (λ u, spared cfg h q (Hash u) w) us →
  wp b (delete_first us) (λ _ w', held h q w' ∧ db w' = db w) w.
Proof.
  revert w. induction us as [|u us IH]; intros w Hh Hs; simpl; [by apply wp_ret|]. apply Forall_cons in Hs as [Hs Hus].
  apply wp_bind, wp_try. eapply wp_mono; [by apply (wp_delete_file content cfg b h q)|]. intros r w1 [H1 Hd].
  assert (wp b (delete_first us) (λ _ w', held h q w' ∧ db w' = db w) w1) as Hrest.
  { rewrite <- Hd. apply IH; [done|]. eapply Forall_impl; [exact Hus|]. intros v. by apply spared_db. }
  destruct r as [[]|e]; [by apply wp_ret|exact Hrest..].
Qed.

Lemma wp_cleanup_spared b h q u w :
  held h q w → spared cfg h q (Hash u) w →
  wp b (migrateNarToChunksCleanup cfg u) (λ _ w', held h q w' ∧ spared cfg h q (Hash u) w') w.
Proof.
  intros Hh Hs. unfold migrateNarToChunksCleanup.
  apply wp_bind, wp_lift. destruct (url_string u) as [originalURL|]; [|done].
  apply wp_bind, wp_lift. destruct (url_string _) as [newURL|]; [|done].
  apply wp_bind, wp_try. eapply (wp_ordered content b _ w w).
  - intros w0. apply (ordered_act content). intros w1 [Hd ? ?]. split; [split; [by apply tidy_renormalize|done|done]|].
    split; [done|]. by apply marks_stay_files.
  - split; [apply Hh|apply grows_refl].
  - intros r w1 Ho Hg. assert (held h q w1) as H1 by by eapply held_ordered.
    assert (spared cfg h q (Hash u) w1) as Hs1 by (eapply spared_marks; [apply Hg|done]).
    destruct (cdcLazyChunkingEnabled cfg); [by apply wp_ret|].
    eapply wp_mono; [apply (wp_delete_first_db b h q); [done|]|].
    + apply Forall_cons; split; [done|]. destruct (bool_decide _); [apply Forall_nil_2|by apply Forall_singleton].
    + intros r' w2 [H2 Hd2]. split; [done|]. by eapply spared_db.
Qed.

Lemma wp_with_lock b h (m : M ()) (Q : result cache_err () → world → Prop) w :
  (∀ e, e ≠ ErrNarAlreadyChunked → Q (Err e) w) → wp b m Q w → wp b (withNarMigrationLock h m) Q w.
Proof.
  intros He Hm. unfold withNarMigrationLock. apply wp_bind. intros s <- Hc. destruct (idle_next b s Hc) as (Hc' & _ & _).
  unfold try_migration_lock. destruct (next s); (split; [exact Hc'|]); simpl; try (by apply He || (apply wp_throw; by apply He)).
  all: case_bool_decide; simpl; [exact Hm|apply wp_throw; by apply He].
Qed.

Lemma wp_and_never {A} b (m : M A) (Q : result cache_err A → world → Prop) w :
  never_chunked m → wp b m Q w → wp b m (λ r w', r ≠ Err ErrNarAlreadyChunked ∧ Q r w') w.
Proof.
  intros Hn Hm s Hs Hc. specialize (Hn s). destruct (Hm s Hs Hc) as [Hc' Hq]. destruct (m s) as [r s']. by split.
Qed.

(** A NAR outlives the migration of another, or its own; when that says that the NAR has
    chunks now, they stand for it. *)
Definition row_migrated (h q : string) (u : URL) (r : result cache_err ()) (w : world) : Prop :=
  held h q w ∧ (r = Ok () ∨ r = Err ErrNarAlreadyChunked → spared cfg h q (Hash u) w).

Lemma row_migrated_err h q u e w : e ≠ ErrNarAlreadyChunked → held h q w → row_migrated h q u (Err e) w.
Proof. intros He Hh. split; [done|]. intros [|]; congruence. Qed.

Lemma wp_migrate_spared b h q u w :
  held h q w → about h q u → wp b (MigrateNarToChunks cfg now u) (row_migrated h q u) w.
Proof.
  intros Hh Ha. unfold MigrateNarToChunks. destruct (isCDCEnabled cfg) eqn:Hcdc; simpl; [|by apply wp_throw, row_migrated_err].
  apply wp_with_lock; [intros; by apply row_migrated_err|]. apply wp_bind, wp_HasNarInChunks.
  { apply (st_unique _ _ _ (tt_sound _ _ _ (ty_tables _ _ (proj1 Hh)))). }
  { intros. by apply row_migrated_err. }
  destruct (in_chunks cfg u (db w)) eqn:Hin.
  - destruct (in_chunks_marked content cfg u w (proj1 Hh) Hin) as [_ Hm]. apply wp_bind.
    assert (spared cfg h q (Hash u) w) as Hs by by apply spared_marked.
    destruct (bool_decide _); [by apply wp_ret, wp_throw; split|].
    eapply wp_mono; [by apply (wp_cleanup_spared b h q u)|].
    intros [[]|e] w1 [H1 Hs1]; [by apply wp_throw; split|by split].
  - apply wp_bind. eapply wp_mono; [apply wp_and_never; [apply never_GetNar|apply (wp_narStore_GetNar b u (λ r w', w' = w ∧
      ∀ x, r = Ok x → ∃ p, nar_path u = Ok p ∧ narStore w !! p = Some x)); [by intros|]]|].
    { intros p x Hp Hx. split; [done|]. intros y [= <-]. by exists p. }
    intros [bytes|e] w' (Hne & -> & Hb'); [|apply row_migrated_err; [congruence|done]].
    destruct (Hb' bytes eq_refl) as (p & Hp & Hb). clear Hne Hb'.
    apply wp_bind, wp_query; [intros; by apply row_migrated_err|].
    apply wp_bind. eapply wp_mono; [apply wp_and_never; [apply never_storeNar|
      apply (wp_storeNarWithCDCFromReader content nonempty cfg now b _ 0 u w w)]|].
    + split; [apply Hh|apply grows_refl].
    + apply plain_reader. by eapply (ty_files _ _ (proj1 Hh)).
    + intros [[]|e] w1 (Hne & Ho & Hm); [|apply row_migrated_err; [congruence|by eapply held_ordered]]. specialize (Hm eq_refl).
      eapply wp_mono; [apply (wp_cleanup_spared b h q u); [by eapply held_ordered|by apply spared_marked]|].
      intros r w2 [H2 Hs2]. by split.
Qed.

End chunking.

(** *** The commands *)

Section commands.
Context `{GN : GoNix} {SG : Signing} {CD : Codec} {CH : Chunker} {HA : Hashing} (content : string → string).
Context `{!CodecLaws} `{!ChunkerLaws} (nonempty : ∀ h, content h ≠ "").
Context (cfg : Config) (now : Z).
Notation M := (eff state cache_err).

(** The entries of the other names than a NAR's, and its own. *)
Definition rows_about (h q : string) (d : tables) : Prop :=
  ∀ f nf u, nar_files d !! f = Some nf → nf_total_chunks nf = 0%Z → row_url nf = Some u → about h q u.

Lemma wp_chunk_worker b dryRun h q x w :
  (∀ u, row_url x.2 = Some u → about h q u) → held content (not_lazy cfg) h q w →
  wp b (chunk_worker cfg now dryRun x) (λ r w', (∃ o, r = Ok o) ∧ held content (not_lazy cfg) h q w') w.
Proof.
  intros Hx Hh. unfold chunk_worker. destruct (row_url x.2) as [u|]; [|apply wp_ret; eauto].
  specialize (Hx u eq_refl). set (c := not_lazy cfg) in *.
  assert (∀ (o : outcome) w1, held content c h q w1 → spared c h q (Hash u) w1 →
    wp b (_ ← try (E' := cache_err) (narStore_DeleteNar u); mret (M := M) o) (λ r w', (∃ o, r = Ok o) ∧ held content c h q w') w1) as Hdel.
  { intros o w1 H1 Hs1. apply wp_bind, wp_try. eapply wp_mono; [by apply (wp_delete_file content c b h q)|].
    intros r w2 [H2 _]. apply wp_ret. eauto. }
  apply wp_bind, wp_try, wp_HasNarInChunks.
  { apply (st_unique _ _ _ (tt_sound _ _ _ (ty_tables _ _ (proj1 Hh)))). }
  { intros _ e. apply wp_ret. eauto. }
  destruct (in_chunks c u (db w)) eqn:Hin.
  - destruct dryRun; [apply wp_bind, wp_ret, wp_ret; eauto|]. apply Hdel; [done|].
    destruct (in_chunks_marked content c u w (proj1 Hh) Hin) as [Hcs Hm].
    destruct (decide (normal_hash (Hash u) = normal_hash h)) as [He|]; [right|by left].
    destruct (Hx He) as [<- <-]. by split.
  - destruct dryRun; [apply wp_ret; eauto|].
    apply wp_bind, wp_try. eapply wp_mono; [by apply (wp_migrate_spared content nonempty c now b h q u)|].
    intros r w1 [H1 Hs1]. destruct r as [[]|e]; [apply Hdel; auto|].
    destruct e; try (apply wp_ret; eauto). apply Hdel; auto.
Qed.

Lemma wp_cache {A} b (m : M A) (Q : result cmd_err A → world → Prop) w :
  wp b m (λ r w', Q (map_err ECache r) w') w → wp b (cache m) Q w.
Proof. intros Hm. by apply wp_wrap. Qed.

Lemma wp_unmigrated b hashes w : wp b (unmigrated hashes) (λ _ w', w' = w) w.
Proof.
  induction hashes as [|h hashes IH]; simpl; [by apply wp_ret|].
  apply wp_bind, wp_query; [done|]. apply wp_bind.
  assert (∀ n, wp b (rest ← unmigrated hashes; mret (M := M) (n + rest)) (λ _ w', w' = w) w) as Hrest.
  { intros n. apply wp_bind. eapply wp_mono; [exact IH|]. intros [r|e] w' ->; [by apply wp_ret|done]. }
  destruct (Only _) as [[i ni]|e]; [apply wp_ret, Hrest|].
  destruct (IsNotFoundError e); [apply wp_ret, Hrest|by apply wp_throw].
Qed.

Lemma rows_sorted (P : Z * nar_file → Prop) `{!∀ x, Decision (P x)} d x :
  x ∈ merge_sort by_id (filter P (map_to_list (nar_files d))) ↔ P x ∧ nar_files d !! x.1 = Some x.2.
Proof.
  rewrite merge_sort_Permutation, list_elem_of_filter. destruct x as [f nf]. by rewrite elem_of_map_to_list.
Qed.
End commands.

(** ** The properties *)

Section narinfos.
Context `{GN : GoNix} {SG : Signing} (cfg : Config) (now : Z).
Notation M := (eff state cache_err).

(** A narinfo in the legacy store, or in a row with a URL. *)
Definition there (h : string) (ni : NarInfo) (w : world) : Prop :=
  wf (db w) ∧ (legacy w !! h = Some ni ∨ ∃ url, recorded h url (db w)).

Lemma migrated_recorded h ni d : NarInfoCache.migrated h ni d → ∃ url, recorded h url d.
Proof.
  intros (i & r & Hi & Hh & Hu & _). destruct (r_url r) as [url|] eqn:He; [|done]. exists url, i, r.
  split_and!; [done..|]. intros ->. by vm_compute in Hu.
Qed.

Lemma there_delete h h' ni w :
  (h' = h → ∃ url, recorded h url (db w)) → there h ni w → there h ni (set_legacy (delete h' (legacy w)) w).
Proof.
  intros Hh [Hwf [Hl|Hr]]; (split; [done|]); [|by right]. destruct (decide (h' = h)) as [->|Hne]; [right; by apply Hh|].
  left. simpl. by rewrite lookup_delete_ne.
Qed.

Lemma wp_narinfo_worker b dryRun h ni h' d0 w :
  kept d0 (db w) → there h ni w →
  wp b (narinfo_worker cfg now dryRun h') (λ r w', (∃ o, r = Ok o) ∧ kept d0 (db w') ∧ there h ni w') w.
Proof.
  intros Hk Hw. unfold narinfo_worker. apply wp_bind, wp_try, wp_query; [intros _; apply wp_ret; eauto|].
  destruct (legacy w !! h') as [ni'|]; [|apply wp_ret; eauto]. destruct dryRun; [apply wp_ret; eauto|].
  apply wp_bind, wp_try. eapply wp_mono; [apply (wp_MigrateNarInfo cfg now b h' ni' true); apply Hw|].
  intros r w1 (Hwf & Hk1 & _ & Hl). apply wp_ret. split; [eauto|]. split; [by etrans|]. split; [done|].
  destruct Hw as [_ [Hin|(url & Hrec)]]; [|right; exists url; by eapply recorded_kept].
  destruct Hl as [->|(_ & -> & Hrec)]; [by left|]. destruct (decide (h' = h)) as [->|Hne].
  - right. destruct Hrec as [Hm|(url & Hrec)]; [by eapply migrated_recorded|]. exists url. by eapply recorded_kept.
  - left. by rewrite lookup_delete_ne.
Qed.

Lemma wp_cleanup_worker b dryRun h ni h' d0 w :
  (∃ url, recorded h' url d0) → kept d0 (db w) → there h ni w →
  wp b (cleanup_worker dryRun h') (λ r w', (∃ o, r = Ok o) ∧ kept d0 (db w') ∧ there h ni w') w.
Proof.
  intros (url & Hrec) Hk Hw. unfold cleanup_worker. destruct dryRun; [apply wp_ret; eauto|].
  assert (there h ni (set_legacy (delete h' (legacy w)) w)) as Hdel.
  { apply there_delete; [|done]. intros <-. exists url. by eapply recorded_kept. }
  apply wp_bind, wp_try, wp_act; [intros _; split|]; apply wp_ret; eauto.
Qed.
End narinfos.

(** C24. Draining completes.  In a world in order, nobody else writing, and with the queries
    of the chunked rows spelled as [Encode] prints them, whatever operations of
    [migrate-chunks-to-nar] fail, in whatever order its workers run and whenever its
    context ends: a success has no failed row and counts every row it found once, but
    those whose worker found the context done; and when there are none of these and it
    skipped none, no row with chunks is left: each was turned into a whole file or
    purged.  The world stays in order also when the command fails.
    NARs are not empty. *)
Theorem drain_completes `{GN : GoNix} {SG : Signing} {CD : Codec} {CH : Chunker} {HA : Hashing} `{!CodecLaws} `{!ChunkerLaws}
    (content : string → string) (cfg : Config) (now : Z) (schedule : ∀ A, list A → list A) (force : bool) (ctx : Z → life)
    (w : world) (fs : list event) :
  (∀ h, content h ≠ "") → tidy content w → (∀ A l, schedule A l ≡ₚ l) → Forall idle fs →
  (∀ f nf, nar_files (db w) !! f = Some nf → (0 < nf_total_chunks nf)%Z → canonical nf) →
  let '(r, s) := migrateChunksToNarAction cfg now schedule false force ctx (mkState w fs) in
  tidy content (st s) ∧
  ∀ t, r = Ok t → totalFailed t = 0 ∧
    totalSucceeded t + totalSkipped t + totalPurged t + uncounted ctx (chunked_rows (db w)) = length (chunked_rows (db w)) ∧
    (totalSkipped t = 0 → uncounted ctx (chunked_rows (db w)) = 0 →
      ∀ f nf, nar_files (db (st s)) !! f = Some nf → nf_total_chunks nf = 0%Z).
Proof.
  intros Hne Hw Hsched Hfs Hcan.
  assert (∀ x, x ∈ chunked_rows (db w) ↔ (0 < nf_total_chunks x.2)%Z ∧ nar_files (db w) !! x.1 = Some x.2) as Hrows.
  { intros x. unfold chunked_rows. by rewrite rows_sorted. }
  assert (wp true (migrateChunksToNarAction cfg now schedule false force ctx) (λ r w', tidy content w' ∧
    ∀ t, r = Ok t → totalFailed t = 0 ∧
      totalSucceeded t + totalSkipped t + totalPurged t + uncounted ctx (chunked_rows (db w)) = length (chunked_rows (db w)) ∧
      (totalSkipped t = 0 → uncounted ctx (chunked_rows (db w)) = 0 →
        ∀ f nf, nar_files (db w') !! f = Some nf → nf_total_chunks nf = 0%Z)) w) as Hwp.
  { unfold migrateChunksToNarAction. apply wp_bind, wp_cache, wp_query; [done|]. cbn [map_err]. case_bool_decide as Hz.
    { apply wp_ret. split; [done|]. apply nil_length_inv in Hz. intros t [= <-]. rewrite Hz. split_and!; [done..|]. intros _ _ f nf Hf.
      pose proof (proj1 (tt_rows _ _ _ (ty_tables _ _ Hw) f nf Hf)).
      destruct (decide (0 < nf_total_chunks nf)%Z) as [Hpos|]; [|lia].
      assert ((f, nf) ∈ chunked_rows (db w)) as Hin by by apply Hrows. rewrite Hz in Hin. by apply elem_of_nil in Hin. }
    apply wp_bind, wp_cache, wp_query; [done|]. apply wp_bind, wp_cache.
    eapply wp_mono; [apply (wp_drain_workers content Hne cfg now true force ctx (schedule _ (chunked_rows (db w))) [])|].
    - rewrite Hsched. apply Forall_forall. intros x [Hpos Hf]%Hrows. by eapply Hcan.
    - split; [done|]. intros f nf Hf Hpos. exists (f, nf). split; [|done]. rewrite app_nil_r, Hsched. by apply Hrows.
    - intros r w' (os & -> & Hos & [Ht Hc]). pose proof (Forall2_length _ _ _ Hos) as Hlen. rewrite Hsched in Hlen.
      apply counted_uncounted in Hos. rewrite (uncounted_perm _ _ _ (Hsched _ _)) in Hos. simpl. pose proof (counts_add os) as Hsum.
      case_bool_decide as Hfail; [by apply wp_throw|]. apply wp_ret. split; [done|]. intros t [= <-]. simpl.
      assert (counted Failed os = 0) as Hnone by lia. split; [done|]. split; [lia|]. intros Hsk Hun f nf Hf.
      pose proof (proj1 (tt_rows _ _ _ (ty_tables _ _ Ht) f nf Hf)).
      destruct (decide (0 < nf_total_chunks nf)%Z) as [Hpos|]; [|lia].
      destruct (Hc f nf Hf Hpos) as (x & Hx & _). rewrite left_over_nil in Hx by (done || lia). by apply elem_of_nil in Hx. }
  destruct (Hwp (mkState w fs) eq_refl Hfs) as [_ Hq]. by destruct (migrateChunksToNarAction _ _ _ _ _ _ _).
Qed.

(** C39. Any error purges, also of a NAR that can be served.  Say
    [MigrateChunksToNar] fails for a chunked row, for whatever reason but that the hash is
    being migrated, that the row has no chunks or that the context is done (one chunk
    that cannot be read once is enough, or a database error), and leaves the row in
    chunks.  Then, when nothing fails any more and the lock is free, the worker
    counts the row as purged; the row is gone, and so is each chunk that no other row
    uses, whether or not an upstream has the NAR.
    The world is in order, nobody else writes, and NARs are not empty. *)
Theorem failed_dechunk_is_purged `{GN : GoNix} {SG : Signing} {CD : Codec} {CH : Chunker} {HA : Hashing} `{!CodecLaws} `{!ChunkerLaws}
    (content : string → string) (cfg : Config) (now : Z) (force : bool) (f : Z) (nf : nar_file) (u : URL) (e : cache_err)
    (w : world) (fs : list event) (s : state) (nf' : nar_file) :
  (∀ h, content h ≠ "") → tidy content w → Forall idle fs → isCDCEnabled cfg = true → canonical nf → row_url nf = Some u →
  nar_files (db w) !! f = Some nf → (0 < nf_total_chunks nf)%Z →
  MigrateChunksToNar (not_lazy cfg) now u force (mkState w fs) = (Err e, s) →
  e ∉ [ErrMigrationInProgress; ErrNarAlreadyWholeFile; ECtx] →
  nar_files (db (st s)) !! f = Some nf' → (0 < nf_total_chunks nf')%Z → script s = [] → Hash u ∉ chunking (st s) →
  let '(o, s') := dechunk_worker cfg now false force Alive (f, nf) (mkState w fs) in
  o = Ok Purged ∧ nar_files (db (st s')) !! f = None ∧ ∀ h, only_in f h (db (st s)) → chunkFiles (st s') !! h = None.
Proof.
  intros Hne Hw Hfs Hcdc Hcan Hu Hf Hpos Hm He Hf' Hpos' Hs Hlock.
  assert (chunked_among (map_to_list (nar_files (db w))) (db w)) as Hall.
  { intros g x Hg _. exists (g, x). split; [by apply elem_of_map_to_list|done]. }
  destruct (wp_dechunk content Hne (not_lazy cfg) now true u force _ w (conj Hw Hall) (mkState w fs) eq_refl Hfs) as [_ [[Ht Hc] _]].
  rewrite Hm in Ht, Hc. simpl in Ht, Hc.
  destruct (Hc f nf' Hf' Hpos') as ([g x] & Hx%elem_of_map_to_list & Hg & Hk). simpl in Hg, Hk. subst g.
  assert (x = nf) as -> by congruence. destruct (row_url_canonical _ Hcan) as (u' & Hu' & Hh & _ & Hq).
  assert (u' = u) as -> by congruence. pose proof (tt_sound _ _ _ (ty_tables _ _ Ht)) as Hst.
  destruct (st_rows _ _ _ Hst f nf' Hf' Hpos') as (Hnone & _).
  destruct (wp_purge_calm (not_lazy cfg) u f nf' (st s) Hcdc (st_unique _ _ _ Hst) Hlock Hf') with (s := s) as [_ Hp]; [| |done|done|].
  { destruct Hk as (H1 & _ & H3). split_and!; congruence. }
  { lia. }
  unfold dechunk_worker. simpl. rewrite Hu. unfold mbind, eff_bind, try. rewrite Hm. unfold purge_in. simpl.
  destruct (PurgeChunkedNar (not_lazy cfg) u s) as [[[]|e'] s'] eqn:Hpc, Hp as (Hr & Hp); [|done].
  destruct e; try (destruct He; by repeat constructor); simpl; by rewrite Hpc.
Qed.

(** A worker whose context is done, or is done before its migration ends, purges nothing,
    in whatever world and whatever else fails. *)
Theorem interruption_never_purges `{GN : GoNix} {SG : Signing} {CD : Codec} {CH : Chunker} {HA : Hashing}
    (cfg : Config) (now : Z) (dryRun force : bool) (ctx : life) (x : Z * nar_file) (s : state) :
  ctx ≠ Alive → (dechunk_worker cfg now dryRun force ctx x s).1 ≠ Ok Purged.
Proof.
  intros Hctx. unfold dechunk_worker. case_bool_decide; [done|]. destruct (row_url x.2) as [u|]; [|done]. destruct dryRun; [done|].
  unfold mbind, eff_bind, try. destruct (MigrateChunksToNar _ _ _ _ s) as [r s1].
  assert (∃ e, purge_in cfg ctx u s1 = (Err e, put (st s1) s1)) as [e He].
  { unfold purge_in. rewrite bool_decide_false by done. apply purge_done. }
  destruct (interrupted ctx r) as [[]|[]]; simpl; try done; rewrite He; by destruct e.
Qed.

(** An interrupted run succeeds with every row still in chunks. *)
Theorem interrupted_drain_succeeds `{GN : GoNix} {SG : Signing} {CD : Codec} {CH : Chunker} {HA : Hashing}
    (cfg : Config) (now : Z) (schedule : ∀ A, list A → list A) (dryRun force : bool) (w : world) :
  migrateChunksToNarAction cfg now schedule dryRun force (λ _, Done) (mkState w []) = (Ok (mkTotals 0 0 0 0), mkState w []).
Proof.
  assert (∀ l, run_workers (λ row, dechunk_worker cfg now dryRun force Done row) l (mkState w []) =
    (Ok (replicate (length l) InProgress), mkState w [])) as Hrun.
  { induction l as [|x l IH]; [done|]. simpl. unfold mbind, eff_bind. simpl. by rewrite IH. }
  assert (∀ o n, o ≠ InProgress → counted o (replicate n InProgress) = 0) as Hnone.
  { unfold counted. intros o n Ho. induction n as [|n IH]; [done|]. simpl. rewrite filter_cons, decide_False by done. exact IH. }
  unfold migrateChunksToNarAction, cache, wrap, mbind, eff_bind, ask, put, next. simpl. case_bool_decide; [done|]. simpl.
  rewrite Hrun. simpl. unfold totals_of. by rewrite !Hnone by done.
Qed.

(** C23. Bulk chunking keeps every NAR: a NAR that is there, as a file or in chunks, when
    [migrate-nar-to-chunks] starts is there when it ends, whatever of its operations fail
    and in whatever order its workers run.  This asks for a world in order when it
    starts ([tidy], in [held]: files and chunks are what their names say, a row that
    counts chunks has its links and files); for no NAR to be empty; for nobody else to
    write meanwhile; and for the whole rows under the NAR's hash, with or without a
    prefix, to have exactly its hash and its query: rows that differ in the query alone
    share the file, and one is lost ([queries_share_a_file]). *)
Theorem bulk_chunking_keeps `{GN : GoNix} {SG : Signing} {CD : Codec} {CH : Chunker} {HA : Hashing} `{!CodecLaws} `{!ChunkerLaws}
    (content : string → string) (cfg : Config) (now : Z) (schedule : ∀ A, list A → list A) (cdc_enabled dryRun : bool)
    (h q : string) (w : world) (fs : list event) :
  (∀ h, content h ≠ "") → (∀ A l, schedule A l ≡ₚ l) → Forall idle fs → rows_about h q (db w) →
  held content cfg h q w →
  held content cfg h q (st (migrateNarToChunks cfg now schedule cdc_enabled dryRun (mkState w fs)).2).
Proof.
  intros Hne Hsched Hfs Hrows Hh.
  assert (wp true (migrateNarToChunks cfg now schedule cdc_enabled dryRun) (λ _, held content (not_lazy cfg) h q) w) as Hwp.
  { unfold migrateNarToChunks. destruct (negb cdc_enabled); [by apply wp_throw|].
    apply wp_bind, wp_cache, wp_query; [done|]. apply wp_bind, wp_cache. eapply wp_mono; [apply wp_unmigrated|].
    intros [n|e] w1 ->; simpl; [|done]. case_bool_decide; [by apply wp_throw|].
    apply wp_bind, wp_cache, wp_query; [done|]. apply wp_bind, wp_cache, wp_query; [done|]. apply wp_bind, wp_cache.
    eapply wp_mono; [apply (wp_run_workers true (held content (not_lazy cfg) h q)); [|done]|].
    - intros x w2 Hx H2. apply (wp_chunk_worker content Hne); [|done]. intros u. rewrite Hsched in Hx.
      unfold whole_rows in Hx. apply rows_sorted in Hx as [Hz Hf]. by apply (Hrows x.1 x.2).
    - intros r w2 [(os & -> & _) H2]. by apply wp_ret. }
  by destruct (Hwp (mkState w fs) eq_refl Hfs).
Qed.

(** No legacy narinfo is lost by [migrate-narinfo]. *)
Theorem bulk_narinfos_keep `{GN : GoNix} {SG : Signing} (cfg : Config) (now : Z) (schedule : ∀ A, list A → list A)
    (dryRun : bool) (h : string) (ni : NarInfo) (w : world) (fs : list event) :
  (∀ A l, schedule A l ≡ₚ l) → Forall idle fs → (∀ i r, narinfos (db w) !! i = Some r → r_url r ≠ Some "") →
  there h ni w → there h ni (st (migrateNarInfo cfg now schedule dryRun (mkState w fs)).2).
Proof.
  intros Hsched Hfs Hurl Hw.
  assert (wp true (migrateNarInfo cfg now schedule dryRun) (λ _, there h ni) w) as Hwp; [|by destruct (Hwp (mkState w fs) eq_refl Hfs)].
  unfold migrateNarInfo. apply wp_bind, wp_cache, wp_query; [done|]. apply wp_bind, wp_cache, wp_query; [done|].
  apply wp_bind, wp_cache. set (l := schedule _ _).
  eapply wp_mono; [apply (wp_run_workers true (λ w', kept (db w) (db w') ∧ there h ni w') _ l)|].
  - intros [[] h'] w1 Hx [Hk H1]; simpl; [by apply wp_narinfo_worker|]. apply wp_cleanup_worker; [|done..].
    subst l. rewrite Hsched in Hx. apply elem_of_app in Hx as [Hx|Hx]; apply list_elem_of_fmap in Hx as (h0 & [= <-] & Hx).
    unfold hashes_where in Hx. apply list_elem_of_fmap in Hx as (r & -> & Hx). apply list_elem_of_filter in Hx as [Hr Hx].
    apply list_elem_of_fmap in Hx as ([i r'] & -> & Hx%elem_of_map_to_list). simpl in *. pose proof (Hurl i r' Hx) as Hnz.
    destruct (r_url r') as [url|] eqn:Hu; [|done]. exists url, i, r'. split_and!; [done..|congruence].
  - by split.
  - intros r w1 [(os & -> & _) [_ H1]]. simpl. case_bool_decide; [by apply wp_throw|by apply wp_ret].
Qed.

(** ** Examples *)

Definition in_order (A : Type) (l : list A) : list A := l.

(** [hello]'s NAR in two chunks, with its narinfo. *)
Definition chunked_world : world (H := tagged_nix) :=
  mkWorld (mkTables {[0%Z := hello_row]} [] [] (nar_files chunked_tables) [] (nar_file_chunks chunked_tables))
    ∅ ∅ {["nix-ar" := "nix-ar"; "chive-1" := "chive-1"]} ∅ ∅ ∅ [].

Definition chunked_row : nar_file := mkNarFile sample_hash CompressionTypeNone "" 13 2 true None false 0.

Lemma chunked_world_tidy : tidy hello_nar chunked_world.
Proof.
  destruct served_world_tidy as [Hd _ Hc]. split; [|intros u p b _ Hb; simpl in Hb; by rewrite lookup_empty in Hb|exact Hc].
  destruct Hd as [[Hu Hr Hch] Ht]. split; [split|]; [|exact Hr|exact Hch|exact Ht].
  split; [|exact (unique_file _ Hu)]. intros i j x y Hi Hj _. simpl in *.
  apply lookup_singleton_Some in Hi as [<- _], Hj as [<- _]. done.
Qed.

Lemma drain_completes_witness :
  let '(r, s) := migrateChunksToNarAction eager_config 9 in_order false true (λ _, Alive) (mkState chunked_world []) in
  r = Ok (mkTotals 1 0 0 0) ∧ tidy hello_nar (st s) ∧
  ∀ f nf, nar_files (db (st s)) !! f = Some nf → nf_total_chunks nf = 0%Z.
Proof.
  pose proof (drain_completes hello_nar eager_config 9 in_order true (λ _, Alive) chunked_world [] hello_nonempty chunked_world_tidy
    (λ A l, reflexivity l) ltac:(apply Forall_nil_2)) as Hd.
  set (x := migrateChunksToNarAction _ _ _ _ _ _ _) in *.
  assert (x.1 = Ok (mkTotals 1 0 0 0)) as Hx by (vm_compute; reflexivity). clearbody x. destruct x as [r s]. simpl in Hx. subst r.
  destruct Hd as [Ht Hd].
  { intros f nf Hf _. simpl in Hf. apply lookup_singleton_Some in Hf as [_ <-]. exists ∅. split; vm_compute; reflexivity. }
  split; [reflexivity|]. split; [exact Ht|]. by apply (Hd (mkTotals 1 0 0 0)).
Defined.

Lemma failed_dechunk_is_purged_witness :
  let '(o, s') := dechunk_worker eager_config 9 false true Alive (0%Z, chunked_row)
    (mkState chunked_world (replicate 6 EvOk ++ [EvFault])) in
  o = Ok Purged ∧ nar_files (db (st s')) !! 0%Z = None ∧ ∀ h, h ∈ ["nix-ar"; "chive-1"] → chunkFiles (st s') !! h = None.
Proof.
  set (fs := replicate 6 EvOk ++ [EvFault]). set (touched := mkNarFile sample_hash CompressionTypeNone "" 13 2 true (Some 9%Z) false 0).
  destruct (MigrateChunksToNar (not_lazy eager_config) 9 hello_none true (mkState chunked_world fs)) as [r s] eqn:Hm.
  assert (r = Err EStore ∧ nar_files (db (st s)) !! 0%Z = Some touched ∧ script s = [] ∧ chunking (st s) = ∅ ∧
    nar_file_chunks (db (st s)) = {[0%Z := ["nix-ar"; "chive-1"]]}) as (-> & Hf & Hs & Hlock & Hlinks).
  { vm_compute in Hm. injection Hm as <- <-. vm_compute. done. }
  pose proof (failed_dechunk_is_purged hello_nar eager_config 9 true 0 chunked_row hello_none EStore chunked_world fs s touched
    hello_nonempty chunked_world_tidy) as Hp.
  destruct (dechunk_worker _ _ _ _ _ _ _) as [o s']. destruct Hp as (Ho & Hgone & Hchunks); try done.
  - repeat constructor.
  - exists ∅. split; vm_compute; reflexivity.
  - intros He. rewrite !elem_of_cons, elem_of_nil in He. destruct He as [He|[He|[He|[]]]]; discriminate He.
  - rewrite Hlock. apply not_elem_of_empty.
  - split_and!; [done..|]. intros h Hh. apply Hchunks. unfold only_in, links_of. rewrite Hlinks. split; [exact Hh|].
    intros g Hg. rewrite lookup_singleton_ne by done. apply not_elem_of_nil.
Defined.

(** A NAR whose narinfo has no hash is purged too, which the command's description says is
    left in chunks; nothing is left of it, and no request finds it when no upstream has it. *)
Theorem hashless_is_purged :
  let hashless := mkRow hello_hash (Some (StorePath hello)) (Some ("nar/" +:+ sample_hash +:+ ".nar")) None (Some "none")
    None None None None None None None None in
  let d := mkTables {[0%Z := hashless]} [] [] (nar_files chunked_tables) [(0, 0)]%Z (nar_file_chunks chunked_tables) in
  let x := migrateChunksToNarAction eager_config 9 in_order false true (λ _, Alive) (mkState (set_db d chunked_world) []) in
  x.1 = Ok (mkTotals 0 0 0 1) ∧
  (size (narinfos (db (st x.2))), size (nar_files (db (st x.2))), size (narStore (st x.2)), size (chunkFiles (st x.2))) = (1, 0, 0, 0) ∧
  match (getNar eager_config 10 false (λ _, None) (λ _, None) true "" hello_none (mkState (st x.2) [])).1 with
  | Ok resp => status resp = 404%Z
  | Err _ => False
  end.
Proof. vm_compute. by split_and!. Qed.

Lemma bulk_chunking_keeps_witness :
  let s := (migrateNarToChunks eager_config 9 in_order true false (mkState served_world [EvOk; EvOk; EvOk; EvFault])).2 in
  held hello_nar eager_config sample_hash "" (st s).
Proof.
  apply (bulk_chunking_keeps hello_nar eager_config 9 in_order true false sample_hash "" served_world).
  - exact hello_nonempty.
  - reflexivity.
  - apply idle_events. reflexivity.
  - intros f nf u Hf Hz. simpl in Hf. apply lookup_singleton_Some in Hf as [_ <-]. discriminate Hz.
  - split; [exact served_world_tidy|]. right. split; [reflexivity|]. eexists 0%Z, _. split; [reflexivity|]. done.
Defined.

(** Two rows of one hash with different queries share the file: migrating the first
    deletes it, and the other NAR is gone.  [bulk_chunking_keeps] excludes such rows. *)
Theorem queries_share_a_file :
  let row q := mkNarFile sample_hash CompressionTypeNone q 13 0 true None false 0 in
  let other := mkURL sample_hash CompressionTypeNone {["v" := ["2"]]} false "" in
  let path := match nar_path hello_none with Ok p => p | Err _ => "" end in
  let w := mkWorld (mkTables ∅ [] [] {[0%Z := row ""; 1%Z := row "v=2"]} [] ∅) ∅ {[path := "nix-archive-1"]} ∅ ∅ ∅ ∅ [] in
  let served u w := match (getNar eager_config 10 false (λ _, None) (λ _, None) true "" u (mkState w [])).1 with
    | Ok resp => Some (status resp)
    | Err _ => None
    end in
  let x := migrateNarToChunks eager_config 9 in_order true false (mkState w []) in
  (served hello_none w, served other w, x.1, served hello_none (st x.2), served other (st x.2)) =
  (Some 200%Z, Some 200%Z, Ok (mkTotals 1 1 0 0), Some 200%Z, Some 404%Z).
Proof. vm_compute. reflexivity. Qed.

(** A narinfo that is only in the store: [migrate-nar-to-chunks] refuses to start until
    [migrate-narinfo] has run, which only looks at the narinfos that have a row. *)
Theorem orphan_blocks_chunking :
  let w := mkWorld no_tables {[hello_hash := hello]} ∅ ∅ ∅ ∅ ∅ [] in
  let chunks w := (migrateNarToChunks eager_config 9 in_order true false (mkState w [])).1 in
  let first := migrateNarInfo eager_config 9 in_order false (mkState w []) in
  (chunks w, first.1, chunks (st first.2)) =
  (Err (ErrUnmigratedNarinfosFound 1), Ok (mkTotals 0 0 0 0), Err (ErrUnmigratedNarinfosFound 1)).
Proof. vm_compute. reflexivity. Qed.
