(* ===== verification/Startup.v ===== *)
(** * Starting the server ([pkg/ncps/serve.go])

    What [ncps serve] makes of its flags: the lockers, the storage, the upstreams with
    their keys and credentials, and the cache with its settings and periodic jobs
    ([createCache]), by the operations of the components.  Flags are a record here; what
    the storage, the Redis nodes and the temporary directory answer when they are opened
    is an argument, and so are cron's and netrc's parsers; logs, telemetry and the
    listener are left out. *)
From S2P Require Import LocalLock RedisLock Redlock Staging.
From S2P Require Import Prelude GoStd Nar CacheInfo NarInfoDB NarInfoCache NarServe Server Conn Config SecretKey Upstream GoUrl.

(** ** Flags *)

Record storage_flags := mkStorageFlags {
  cache_data_path : string;
  cache_storage_local : string;
  s3_bucket : string;
  s3_region : string;
  s3_endpoint : string;
  s3_access_key_id : string;
  s3_secret_access_key : string;
  s3_force_path_style : bool;
}.

Record lock_flags := mkLockFlags {
  lock_backend : string;
  redis_addrs : list string;
  redis_username : string;
  redis_password : string;
  redis_db : Z;
  redis_use_tls : bool;
  redis_pool_size : Z;
  redis_key_prefix : string;
  retry_max_attempts : nat;
  allow_degraded_mode : bool;
  download_lock_ttl : Z;
  download_poll_timeout : Z;
}.

Record upstream_flags := mkUpstreamFlags {
  cache_upstream_url : list string;
  upstream_cache : list string;
  cache_upstream_public_key : list string;
  upstream_public_key : list string;
  cache_upstream_dialer_timeout : Z;
  upstream_dialer_timeout : Z;
  cache_upstream_response_header_timeout : Z;
  upstream_response_header_timeout : Z;
}.

Record job_flags := mkJobFlags {
  lru_schedule_timezone : string;
  lru_schedule : string;
  max_size : string;
  cdc_delete_delay : Z;
  cdc_lazy_cleanup_schedule : string;
  cdc_lazy_recovery_schedule : string;
  cdc_lazy_recovery_batch_size : Z;
}.

Record staging_flags := mkStagingFlags {
  inflight_staging_enabled : bool;
  inflight_staging_retention : Z;
  inflight_staging_part_size : Z;
}.

Record command := mkCommand {
  storage_of : storage_flags;
  lock_of : lock_flags;
  upstream_of : upstream_flags;
  jobs_of : job_flags;
  staging_of : staging_flags;
  cdc_of : flags;
  cdc_lazy_chunking_enabled : bool;
  cache_hostname : string;
  cache_sign_narinfo : bool;
  trusted_upload_key : list string;
  require_trusted_signature : bool;
  allow_delete_verb : bool;
  allow_put_verb : bool;
  get_token : string;
}.

Inductive start_err :=
  | ErrStorageConflict
  | ErrStorageConfigRequired
  | ErrBucketRequired
  | ErrEndpointRequired
  | ErrEndpoint (e : parse_err)
  | ErrInvalidEndpointScheme
  | ErrAccessKeyIDRequired
  | ErrSecretAccessKeyRequired
  | ErrOpen
  | ErrRedisAddrsRequired
  | ErrUnknownLockBackend
  | ErrLocker (e : redis_err)
  | ErrRWLocker
  | ErrUpstreamCacheRequired
  | ErrUpstreamURL (e : parse_err)
  | ErrNewUpstream (e : upstream_err)
  | ErrNewCache (e : setup_err)
  | ErrTempDir
  | ErrCDC (e : config_err)
  | ErrStagingRetentionNonPositive
  | ErrStagingPartSizeNonPositive
  | ErrTrustedUploadKey
  | ErrTimezone
  | ErrCacheMaxSizeRequired
  | ErrMaxSize (e : size_error)
  | ErrCron
  | ErrCDCCleanupScheduleRequired
  | ErrCDCLazyRecoveryScheduleRequired.

(** ** Lockers *)

Definition lockBackendLocal : string := "local".
Definition lockBackendRedis : string := "redis".

Definition determineEffectiveLockBackend (f : lock_flags) : string * list string :=
  let validRedisAddrs := filter (λ addr, addr ≠ "") (redis_addrs f) in
  (if bool_decide (validRedisAddrs ≠ []) && bool_decide (lock_backend f = lockBackendLocal)
   then lockBackendRedis else lock_backend f, validRedisAddrs).

(** [redis.Options], as [NewLocker] fills them in for a node. *)
Record redis_options := mkRedisOptions {
  Addr : string;
  Username : string;
  Password : string;
  DB : Z;
  PoolSize : Z;
  TLSConfig : bool;
}.

Definition client_options (f : lock_flags) (addr : string) : redis_options :=
  mkRedisOptions addr (redis_username f) (redis_password f) (redis_db f) (redis_pool_size f) false.

Inductive lockers :=
  | LocalLockers
  | RedisLockers (clients : list redis_options) (locker : Redlock.Locker) (rwLocker : RWLocker).

(** [ping], [cluster_ping]: which node answers, and whether the cluster does, when the
    lockers connect. *)
Definition getLockers (ping : string → bool) (cluster_ping : list string → bool) (now : Z) (f : lock_flags) : result start_err lockers :=
  let '(backend, validRedisAddrs) := determineEffectiveLockBackend f in
  if bool_decide (backend = lockBackendRedis) then
    if bool_decide (validRedisAddrs = []) then Err ErrRedisAddrsRequired else
    locker ← map_err ErrLocker (Redlock.NewLocker (ping <$> validRedisAddrs) (redis_key_prefix f)
      (retry_max_attempts f) (allow_degraded_mode f) now);
    rwLocker ← of_option ErrRWLocker (RedisLock.NewRWLocker (RedisLock.mkConfig (redis_key_prefix f) (retry_max_attempts f))
      (allow_degraded_mode f) (cluster_ping validRedisAddrs) now);
    Ok (RedisLockers (client_options f <$> validRedisAddrs) locker rwLocker)
  else if bool_decide (backend = lockBackendLocal) then Ok LocalLockers
  else Err ErrUnknownLockBackend.

(** ** Storage *)

Record s3_config := mkS3Config {
  Bucket : string;
  Region : string;
  Endpoint : string;
  AccessKeyID : string;
  SecretAccessKey : string;
  ForcePathStyle : bool;
}.

Inductive storage := LocalStorage (dataPath : string) | S3Storage (s3Cfg : s3_config).

(** [s3.ValidateConfig] *)
Definition ValidateConfig (c : s3_config) : result start_err () :=
  if bool_decide (Bucket c = "") then Err ErrBucketRequired else
  if bool_decide (Endpoint c = "") then Err ErrEndpointRequired else
  u ← map_err ErrEndpoint (Parse (Endpoint c));
  if bool_decide (Scheme u ≠ "http") && bool_decide (Scheme u ≠ "https") then Err ErrInvalidEndpointScheme else
  if bool_decide (AccessKeyID c = "") then Err ErrAccessKeyIDRequired else
  if bool_decide (SecretAccessKey c = "") then Err ErrSecretAccessKeyRequired else Ok ().

Definition getStorageConfig (f : storage_flags) : result start_err storage :=
  let localDataPath := if bool_decide (cache_data_path f ≠ "") && bool_decide (cache_storage_local f = "")
    then cache_data_path f else cache_storage_local f in
  if bool_decide (localDataPath ≠ "") && bool_decide (s3_bucket f ≠ "") then Err ErrStorageConflict else
  if bool_decide (localDataPath = "") && bool_decide (s3_bucket f = "") then Err ErrStorageConfigRequired else
  if bool_decide (localDataPath ≠ "") then Ok (LocalStorage localDataPath) else
  let s3Cfg := mkS3Config (s3_bucket f) (s3_region f) (s3_endpoint f) (s3_access_key_id f) (s3_secret_access_key f)
    (s3_force_path_style f) in
  _ ← ValidateConfig s3Cfg;
  Ok (S3Storage s3Cfg).

(** [getStorageBackend] and [getChunkStorageBackend]; [opens]: whether a store can be
    created there. *)
Definition getStorageBackend (opens : storage → bool) (f : storage_flags) : result start_err storage :=
  s ← getStorageConfig f;
  if opens s then Ok s else Err ErrOpen.

(** The directory of a local chunk store is under [store]. *)
Definition getChunkStorageBackend (opens : storage → bool) (f : storage_flags) : result start_err storage :=
  s ← getStorageConfig f;
  let s := match s with LocalStorage dataPath => LocalStorage (join [dataPath; "store"]) | s => s end in
  if opens s then Ok s else Err ErrOpen.

(** ** Upstreams *)

Definition base64_byte (c : ascii) : bool := letter c || digit c || byte_in "+/=" c.

(** The regular expression of [getUpstreamCaches]: the host, a dash, digits, a colon,
    base64. *)
Definition key_matches (host pubKey : string) : bool :=
  match strip_prefix (host +:+ "-") pubKey with
  | None => false
  | Some rest =>
      let '(version, data, colon) := cut_char ":" rest in
      colon && negb (bool_decide (version = "")) && all_bytes digit version &&
      negb (bool_decide (data = "")) && all_bytes base64_byte data
  end.

Definition three_seconds : Z := 3 * Second.

(** A timeout: the deprecated flag's, if only that one is not the default. *)
Definition effective_timeout (deprecated current : Z) : Z :=
  if bool_decide (deprecated ≠ three_seconds) && bool_decide (current = three_seconds) then deprecated else current.

Definition effective_list (deprecated current : list string) : list string :=
  if bool_decide (deprecated ≠ []) && bool_decide (current = []) then deprecated else current.

Definition base_of (u : go_url) : base_url := mkBase (Scheme u) (Hostname u) (EscapedPath u) (RawQuery u).

Section start.
Context `{GN : GoNix} {SG : Signing} {NL : NarInfoLib} {CD : Codec} {K : KeyLib}.

(** [netrcData]: the login and password of a machine, when there is a netrc file. *)
Definition new_upstream (f : upstream_flags) (netrcData : option (string → option (string * string))) (us : string) :
    result start_err Upstream.Cache :=
  u ← map_err ErrUpstreamURL (Parse us);
  let keys := filter (λ k, key_matches (Host u) k = true)
    (effective_list (upstream_public_key f) (cache_upstream_public_key f)) in
  let credentials := find ← netrcData; find (Hostname u) in
  map_err ErrNewUpstream (Upstream.New (Some (base_of u)) (Some (mkOptions keys credentials
    (effective_timeout (upstream_dialer_timeout f) (cache_upstream_dialer_timeout f))
    (effective_timeout (upstream_response_header_timeout f) (cache_upstream_response_header_timeout f)) 0))).

Definition getUpstreamCaches (f : upstream_flags) (netrcData : option (string → option (string * string))) :
    result start_err (list Upstream.Cache) :=
  let upstreamURL := filter (λ u, u ≠ "") (effective_list (upstream_cache f) (cache_upstream_url f)) in
  if bool_decide (upstreamURL = []) then Err ErrUpstreamCacheRequired else
  mapM (new_upstream f netrcData) upstreamURL.

Definition parseTrustedUploadKeys (raw : list string) : result start_err (list PublicKey) :=
  mapM (λ r, of_option ErrTrustedUploadKey (ParsePublicKey r)) (filter (λ r, r ≠ "") raw).

(** ** The cache *)

(** cron's parser, and the time zones the system knows. *)
Context (Schedule : Type) (ParseStandard : string → option Schedule) (every_minute : Schedule) (known_zone : string → bool).

Inductive job :=
  | LRU (s : Schedule)
  | CDCDeletedCleanup (s : Schedule)
  | CDCRecovery (s : Schedule) (batchSize : Z)
  | InflightStagingGC (s : Schedule).

Record instance := mkInstance {
  i_storage : storage;
  i_key : key;
  i_signs : bool;
  i_mode : mode;
  i_chunk_store : option storage;
  i_lazy : bool;
  i_staging : Staging.config;
  i_upstreams : site;
  i_upload_keys : list PublicKey;
  i_requires_signature : bool;
  i_max_size : option Z;
  i_jobs : list job;
}.

Notation S := (eff SecretKey.world start_err).

Definition config_of {A} (m : Config.M A) : S A := wrap (λ e, match e with EConfig e => ErrCDC e | e => ErrNewCache e end) (on_db m).

(** The cache's upstreams: those given, watched by the health checker. *)
Definition new_site (ucs : list Upstream.Cache) : site :=
  AddUpstreamCaches (seq 0 (length ucs)) (mkSite (list_to_map (imap pair ucs)) [] [] true []).

Definition addCDCRecoveryCronJob (f : job_flags) (cdcEnabled cdcLazyChunkingEnabled : bool) : result start_err (list job) :=
  if negb cdcEnabled then Ok [] else
  if bool_decide (cdc_lazy_recovery_schedule f = "") then
    if cdcLazyChunkingEnabled then Err ErrCDCLazyRecoveryScheduleRequired else Ok []
  else
  s ← of_option ErrCron (ParseStandard (cdc_lazy_recovery_schedule f));
  Ok [CDCRecovery s (cdc_lazy_recovery_batch_size f)].

(** The part of [createCache] on LRU. *)
Definition lru_job (f : job_flags) : result start_err (option Z * list job) :=
  if bool_decide (lru_schedule f = "") then Ok (None, []) else
  if bool_decide (max_size f = "") then Err ErrCacheMaxSizeRequired else
  maxSize ← map_err ErrMaxSize (ParseSize (max_size f));
  s ← of_option ErrCron (ParseStandard (lru_schedule f));
  Ok (Some maxSize, [LRU s]).

(** The part of [createCache] on the delayed cleanup. *)
Definition cleanup_job (f : job_flags) (cdcEnabled lazy : bool) : result start_err (list job) :=
  if negb (cdcEnabled && lazy) then Ok [] else
  if bool_decide (cdc_lazy_cleanup_schedule f = "") then Err ErrCDCCleanupScheduleRequired else
  s ← of_option ErrCron (ParseStandard (cdc_lazy_cleanup_schedule f));
  Ok [CDCDeletedCleanup s].

(** The part of [createCache] on staging. *)
Definition staging_config (f : command) : result start_err Staging.config :=
  let sf := staging_of f in
  let distributed := bool_decide ((determineEffectiveLockBackend (lock_of f)).1 = lockBackendRedis) in
  if inflight_staging_enabled sf && (inflight_staging_retention sf <=? 0)%Z then Err ErrStagingRetentionNonPositive else
  if inflight_staging_enabled sf && (inflight_staging_part_size sf <=? 0)%Z then Err ErrStagingPartSizeNonPositive else
  Ok (SetInflightStaging (inflight_staging_enabled sf) (inflight_staging_retention sf) (inflight_staging_part_size sf) distributed
    (Staging.mkConfig false 0 0 false (download_lock_ttl (lock_of f)) (download_poll_timeout (lock_of f)))).

(** What boots meet: the stores and the directory that open, the sizes the chunker takes,
    the answer of the query for chunked NARs, the key file, randomness. *)
Record surroundings := mkSurroundings {
  opens : storage → bool;
  temp_dir_ok : bool;
  accepted : sizes → bool;
  chunked : nat;
  key_file : option (option string);
  random : nat;
}.

Definition url_scheme (h : string) : option string := match Parse h with Ok u => Some (Scheme u) | Err _ => None end.

(** The CDC settings: the flags, or what is stored when no sizes are given. *)
Definition cdc_settings (f : flags) : S (bool * sizes) :=
  if bool_decide (f_sizes f = mkSizes 0 0 0) then config_of (loadCDCConfigFromDB (f_enabled f) (f_wasSet f))
  else mret (f_enabled f, f_sizes f).

Definition stored_enabled : S bool :=
  r ← try (E' := start_err) (config_of GetCDCEnabled);
  match r with
  | Ok storedEnabledStr => mret (bool_decide (storedEnabledStr = "true"))
  | Err (ErrCDC ErrConfigNotFound) => mret false
  | Err e => throw e
  end.

(** [initCDCDrainMode], which opens the chunk store when chunks are left. *)
Definition drain_mode (env : surroundings) (f : command) : S (mode * option storage) :=
  mode ← config_of (initCDCDrainMode (chunked env));
  match mode with
  | Drain => store ← lift (getChunkStorageBackend (opens env) (storage_of f)); mret (mode, Some store)
  | mode => mret (mode, None)
  end.

Definition createCache (env : surroundings) (f : command) (ucs : list Upstream.Cache) : S instance :=
  stores ← lift (getStorageBackend (opens env) (storage_of f));
  let hostName := if bool_decide (cache_hostname f = "") then "localhost" else cache_hostname f in
  key ← wrap ErrNewCache (SecretKey.New url_scheme (key_file env) hostName (random env));
  if negb (temp_dir_ok env) then throw ErrTempDir else
  '(cdcEnabled, z) ← cdc_settings (cdc_of f);
  storedWasEnabled ← stored_enabled;
  config_of (ValidateOrStoreCDCConfig cdcEnabled z);;
  if cdcEnabled && negb (accepted env z) then throw (ErrCDC ErrChunker) else
  let lazy := cdc_lazy_chunking_enabled f in
  staging ← lift (staging_config f);
  '(mode, chunkStore) ← (if cdcEnabled : bool then
      store ← lift (getChunkStorageBackend (opens env) (storage_of f)); mret (Full z, Some store)
    else if storedWasEnabled : bool then drain_mode env f else mret (Disabled, None));
  uploadKeys ← lift (parseTrustedUploadKeys (trusted_upload_key f));
  if negb (bool_decide (lru_schedule_timezone (jobs_of f) = "")) && negb (known_zone (lru_schedule_timezone (jobs_of f)))
  then throw ErrTimezone else
  '(maxSize, lru) ← lift (lru_job (jobs_of f));
  cleanup ← lift (cleanup_job (jobs_of f) cdcEnabled lazy);
  recovery ← lift (addCDCRecoveryCronJob (jobs_of f) cdcEnabled lazy);
  let gc := if InflightStagingEnabled staging then [InflightStagingGC every_minute] else [] in
  mret (mkInstance stores key (cache_sign_narinfo f) mode chunkStore lazy staging (new_site ucs) uploadKeys
    (require_trusted_signature f) maxSize (lru ++ cleanup ++ recovery ++ gc)).

(** ** The server *)

Definition getOrSetClusterUUID (uuid : string) : S string :=
  r ← try (E' := start_err) (config_of GetClusterUUID);
  match r with
  | Ok cu => mret cu
  | Err (ErrCDC ErrConfigNotFound) => config_of (SetClusterUUID uuid);; mret uuid
  | Err e => throw e
  end.

(** [serveAction] up to the listener: the lockers, the cluster's id and the storage's
    type, the upstreams, the cache, the server. *)
Definition serveAction (env : surroundings) (ping : string → bool) (cluster_ping : list string → bool) (now : Z) (uuid : string)
    (netrcData : option (string → option (string * string))) (gatherer : option string) (f : command) :
    S (lockers * instance * Server.Server) :=
  locks ← lift (getLockers ping cluster_ping now (lock_of f));
  getOrSetClusterUUID uuid;;
  lift (getStorageConfig (storage_of f));;
  ucs ← lift (getUpstreamCaches (upstream_of f) netrcData);
  c ← createCache env f ucs;
  mret (locks, c, mkServer (allow_delete_verb f) (get_token f) (allow_put_verb f) gatherer).
End start.

(** ** Lemmas *)

Section lemmas.
Context `{GN : GoNix} {SG : Signing} {NL : NarInfoLib} {CD : Codec} {K : KeyLib} {KL : KeyLibLaws K}.
Context (Schedule : Type) (ParseStandard : string → option Schedule) (every_minute : Schedule) (known_zone : string → bool).
Notation S := (eff SecretKey.world start_err).

Lemma wp_config_of {A} b (m : Config.M A) (Q : result start_err A → store * option string → Prop) s o :
  wp b m (λ r s', Q (map_err ErrCDC r) (s', o)) s → wp b (config_of m) Q (s, o).
Proof.
  intros Hm. apply wp_wrap, wp_on_db. eapply wp_mono; [exact Hm|]. by intros [a|e] s'.
Qed.

(** What booting does about the signing key leaves the rest of the configuration. *)
Lemma wp_key_keeps_cdc b scheme file host rnd s o :
  wp b (SecretKey.New scheme file host rnd) (λ _ w', w'.1 !! KeyCDCEnabled = s !! KeyCDCEnabled) (s, o).
Proof.
  unfold SecretKey.New. apply wp_bind, wp_lift. destruct (validateHostname scheme host); [|done].
  destruct file as [content|].
  2:{ eapply wp_mono; [apply wp_setup_nofile|]. intros r w' (_ & _ & Hk). by apply Hk. }
  unfold setupSecretKey, setupSecretKeyFromFile. apply wp_bind, wp_lift. destruct (of_option EFile content) as [t|]; [|done].
  apply wp_bind, wp_lift. destruct (of_option ELoad (LoadSecretKey t)) as [k|]; [|done].
  assert (∀ same : bool, wp b ((if same then mret (Ok ()) else try (E' := setup_err) (SetKey k));; mret (M := eff SecretKey.world setup_err) k)
    (λ _ w', w'.1 !! KeyCDCEnabled = s !! KeyCDCEnabled) (s, o)) as Hset.
  { intros [|]; apply wp_bind; [by apply wp_ret, wp_ret|].
    apply wp_try, wp_SetKey; intros; apply wp_ret; simpl; [done|..]; by rewrite lookup_insert_ne. }
  apply wp_bind, wp_try, wp_on_db, wp_getConfig; [intros _; apply (Hset false)|].
  destruct (s !! KeySecretKey); apply Hset.
Qed.

Lemma wp_cdc_settings b (f : flags) (Q : result start_err (bool * sizes) → store * option string → Prop) s o :
  (∀ r, Q r (s, o)) → wp b (cdc_settings f) Q (s, o).
Proof.
  intros Hq. unfold cdc_settings. case_bool_decide; [|by apply wp_ret].
  apply wp_config_of. eapply wp_mono; [apply wp_load|]. by intros r s' ->.
Qed.

Lemma wp_stored_enabled b (Q : result start_err bool → store * option string → Prop) s o :
  (∀ e, Q (Err e) (s, o)) → Q (Ok (bool_decide (s !! KeyCDCEnabled = Some "true"))) (s, o) → wp b stored_enabled Q (s, o).
Proof.
  intros He Hq. unfold stored_enabled. apply wp_bind, wp_try, wp_config_of, wp_getConfig; [intros _; by apply wp_throw|].
  destruct (s !! KeyCDCEnabled) as [str|]; simpl; apply wp_ret; [|by rewrite bool_decide_eq_false_2 in Hq].
  assert (bool_decide (str = "true") = bool_decide (Some str = Some "true")) as ->; [|done].
  apply bool_decide_ext. split; congruence.
Qed.

Lemma wp_validate_enabled b cdcEnabled z (Q : result start_err () → store * option string → Prop) s o :
  (∀ e s', Q (Err e) (s', o)) → (∀ s', (cdcEnabled = true → stored z s') → Q (Ok ()) (s', o)) →
  wp b (config_of (ValidateOrStoreCDCConfig cdcEnabled z)) Q (s, o).
Proof.
  intros He Hq. apply wp_config_of. destruct cdcEnabled.
  - eapply wp_mono; [apply wp_ValidateOrStore_enabled|]. intros [[]|e] s' Hs; simpl; [|done]. by apply Hq.
  - assert (∀ r, Q (map_err ErrCDC r) (s, o)) as Hall by by intros [[]|e]; simpl; [apply Hq|apply He].
    unfold ValidateOrStoreCDCConfig. apply wp_bind, wp_try, wp_getConfig; [intros _; by apply wp_throw|].
    destruct (s !! KeyCDCEnabled) as [str|]; simpl; [|by apply wp_ret]. unfold validateCDCConfig.
    destruct (_ && _); [by apply wp_ret|].
    apply wp_bind, wp_getConfig; [done|]. destruct (s !! KeyCDCMin); [|done].
    apply wp_bind, wp_getConfig; [done|]. destruct (s !! KeyCDCAvg); [|done].
    apply wp_bind, wp_getConfig; [done|]. destruct (s !! KeyCDCMax); [|done].
    destruct (_ ++ _); [by apply wp_ret|by apply wp_throw].
Qed.
End lemmas.

(** ** What has been started *)

Section started.
Context `{GN : GoNix} {SG : Signing} {NL : NarInfoLib} {CD : Codec} {K : KeyLib} {KL : KeyLibLaws K}.
Context (Schedule : Type) (ParseStandard : string → option Schedule) (every_minute : Schedule) (known_zone : string → bool).
Notation S := (eff SecretKey.world start_err).
Notation instance := (instance Schedule).
Notation createCache := (createCache Schedule ParseStandard every_minute known_zone).

(** An upstream has those of the given keys that are named for its host, and the
    credentials for its host name. *)
Definition keyed (f : upstream_flags) (netrcData : option (string → option (string * string))) (us : string) (uc : Upstream.Cache) : Prop :=
  let given := effective_list (upstream_public_key f) (cache_upstream_public_key f) in
  ∃ u, Parse us = Ok u ∧ Upstream.url uc = base_of u ∧ netrcAuth uc = (find ← netrcData; find (Hostname u)) ∧
    (∀ pk, pk ∈ publicKeys uc ↔ ∃ k, k ∈ given ∧ key_matches (Host u) k = true ∧ Upstream.ParsePublicKey k = Some pk).

Lemma mapM_Ok {E A B} (g : A → result E B) l l' : mapM g l = Ok l' → Forall2 (λ x y, g x = Ok y) l l'.
Proof.
  revert l'. induction l as [|x l IH]; intros l'; simpl; [intros [= <-]; constructor|].
  destruct (g x) as [y|] eqn:Hx; simpl; [|done]. destruct (mapM g l) as [ys|]; simpl; [|done].
  intros [= <-]. constructor; [done|]. by apply IH.
Qed.

Lemma parsed_keys ks pks :
  mapM (λ k, of_option ErrPublicKey (Upstream.ParsePublicKey k)) ks = Ok pks →
  ∀ pk, pk ∈ pks ↔ ∃ k, k ∈ ks ∧ Upstream.ParsePublicKey k = Some pk.
Proof.
  intros Hm%mapM_Ok. induction Hm as [|k pk' ks pks Hk Hm IH]; intros pk.
  - split; [by intros ?%elem_of_nil|by intros (k & ?%elem_of_nil & _)].
  - destruct (Upstream.ParsePublicKey k) as [p|] eqn:Hp; simplify_eq/=. rewrite elem_of_cons, IH. split.
    + intros [->|(k' & ? & ?)]; [exists k|exists k']; (split; [|done]); [by left|by right].
    + intros (k' & [->|Hk']%elem_of_cons & Hk2); [left; congruence|right; eauto].
Qed.

Lemma new_upstream_keyed f netrcData us uc : new_upstream f netrcData us = Ok uc → keyed f netrcData us uc.
Proof.
  unfold new_upstream. destruct (Parse us) as [u|] eqn:Hu; simpl; [|done].
  unfold Upstream.New. simpl. destruct (validateURL (base_of u)); simpl; [|done].
  destruct (mapM _ _) as [pks|] eqn:Hm; simpl; [|done]. destruct (url_priority (base_of u)); simpl; [|done].
  intros [= <-]. exists u. simpl. split_and!; [done..|]. intros pk. rewrite (parsed_keys _ _ Hm pk).
  split; intros (k & Hk & Hp); [apply list_elem_of_filter in Hk as [??]; eauto|].
  destruct Hp as [??]. exists k. by rewrite list_elem_of_filter.
Qed.

(** The upstreams, in the order of their URLs. *)
Definition upstream_urls (f : upstream_flags) : list string :=
  filter (λ u, u ≠ "") (effective_list (upstream_cache f) (cache_upstream_url f)).

Lemma getUpstreamCaches_keyed f netrcData ucs :
  getUpstreamCaches f netrcData = Ok ucs → ucs ≠ [] ∧ Forall2 (keyed f netrcData) (upstream_urls f) ucs.
Proof.
  unfold getUpstreamCaches. fold (upstream_urls f). case_bool_decide as Hn; [done|]. intros Hm%mapM_Ok.
  split; [intros ->; by apply Forall2_nil_inv_r in Hm|]. eapply Forall2_impl; [exact Hm|]. intros us uc. apply new_upstream_keyed.
Qed.

Lemma numbered_lookup (ucs : list Upstream.Cache) n i :
  (list_to_map (imap (λ i c, (n + i, c)) ucs) : gmap nat Upstream.Cache) !! (n + i) = ucs !! i.
Proof.
  revert n i. induction ucs as [|c ucs IH]; intros n i; [done|]. cbn [imap list_to_map foldr fst snd uncurry].
  destruct i as [|i]; [apply lookup_insert_eq|]. rewrite lookup_insert_ne by lia. simpl.
  rewrite <- (IH (Datatypes.S n) i). rewrite <- Nat.add_succ_comm. f_equal. f_equal. apply imap_ext. intros j x _. simpl. f_equal. lia.
Qed.

Lemma new_site_lookup (ucs : list Upstream.Cache) i : heap (new_site ucs) !! i = ucs !! i.
Proof. apply (numbered_lookup ucs 0). Qed.

(** What [createCache] has set up, given the configuration before and after. *)
Record configured (env : surroundings) (f : command) (ucs : list Upstream.Cache) (s s' : store) (c : instance) : Prop := {
  cf_mode z : i_mode _ c = Full z → accepted env z = true ∧ stored z s';
  cf_chunk_store : is_Some (i_chunk_store _ c) ↔ i_mode _ c ≠ Disabled;
  cf_drain : s !! KeyCDCEnabled = Some "true" → chunked env ≠ 0 → i_mode _ c ≠ Disabled;
  cf_staging : InflightStagingEnabled (i_staging _ c) = true →
    (determineEffectiveLockBackend (lock_of f)).1 = lockBackendRedis ∧
    (0 < inflightStagingRetention (i_staging _ c))%Z ∧ (0 < inflightStagingPartSize (i_staging _ c))%Z ∧
    InflightStagingGC _ every_minute ∈ i_jobs _ c;
  cf_lru sch : LRU _ sch ∈ i_jobs _ c → ∃ m, i_max_size _ c = Some m ∧ ParseSize (max_size (jobs_of f)) = Ok m;
  cf_lazy z : i_mode _ c = Full z → i_lazy _ c = true →
    (∃ sch, CDCDeletedCleanup _ sch ∈ i_jobs _ c) ∧ ∃ sch n, CDCRecovery _ sch n ∈ i_jobs _ c;
  cf_upstreams : i_upstreams _ c = new_site ucs;
}.

Definition has_jobs (f : command) (cdcEnabled : bool) (staging : Staging.config) (maxSize : option Z) (jobs : list (job Schedule)) : Prop :=
  (∀ sch, LRU _ sch ∈ jobs → ∃ m, maxSize = Some m ∧ ParseSize (max_size (jobs_of f)) = Ok m) ∧
  (cdcEnabled = true → cdc_lazy_chunking_enabled f = true →
    (∃ sch, CDCDeletedCleanup _ sch ∈ jobs) ∧ ∃ sch n, CDCRecovery _ sch n ∈ jobs) ∧
  (InflightStagingEnabled staging = true → InflightStagingGC _ every_minute ∈ jobs).

Lemma jobs_set_up f cdcEnabled staging maxSize lru cleanup recovery :
  let lazy := cdc_lazy_chunking_enabled f in
  lru_job _ ParseStandard (jobs_of f) = Ok (maxSize, lru) →
  cleanup_job _ ParseStandard (jobs_of f) cdcEnabled lazy = Ok cleanup →
  addCDCRecoveryCronJob _ ParseStandard (jobs_of f) cdcEnabled lazy = Ok recovery →
  has_jobs f cdcEnabled staging maxSize
    (lru ++ cleanup ++ recovery ++ (if InflightStagingEnabled staging then [InflightStagingGC _ every_minute] else [])).
Proof.
  cbn zeta. unfold lru_job, cleanup_job, addCDCRecoveryCronJob, has_jobs. generalize (cdc_lazy_chunking_enabled f) as lazy.
  intros lazy Hl Hc Hr.
  assert (∀ sch, LRU _ sch ∉ cleanup) as Hno1.
  { intros sch. clear Hl Hr. destruct (negb _); [by simplify_eq; apply not_elem_of_nil|]. case_bool_decide; [done|].
    destruct (of_option _ _); simplify_eq/=. by rewrite list_elem_of_singleton. }
  assert (∀ sch, LRU _ sch ∉ recovery) as Hno2.
  { intros sch. clear Hl Hc. destruct (negb _); [by simplify_eq; apply not_elem_of_nil|].
    case_bool_decide; [destruct lazy; [done|by simplify_eq; apply not_elem_of_nil]|].
    destruct (of_option _ _); simplify_eq/=. by rewrite list_elem_of_singleton. }
  split_and!.
  - clear Hc Hr. intros sch. rewrite !elem_of_app. intros [Hin|[Hin|[Hin|Hin]]]; [|by apply Hno1 in Hin|by apply Hno2 in Hin|].
    + case_bool_decide; [by simplify_eq; apply elem_of_nil in Hin|]. case_bool_decide; [done|].
      destruct (ParseSize _) as [m|]; simpl in Hl; [|done]. destruct (of_option _ _); simplify_eq/=. eauto.
    + destruct (InflightStagingEnabled staging); [by apply list_elem_of_singleton in Hin|by apply elem_of_nil in Hin].
  - clear Hl. intros -> ->. simpl in *. do 2 (case_bool_decide; [done|]).
    destruct (of_option ErrCron (ParseStandard (cdc_lazy_cleanup_schedule _))) as [s1|]; simplify_eq/=.
    destruct (of_option ErrCron (ParseStandard (cdc_lazy_recovery_schedule _))) as [s2|]; simplify_eq/=.
    split; [exists s1|eexists s2, _]; apply elem_of_app; right; [by left|by right; left].
  - intros ->. rewrite !elem_of_app, list_elem_of_singleton. eauto.
Qed.

Lemma staging_set_up f staging :
  staging_config f = Ok staging → InflightStagingEnabled staging = true →
  (determineEffectiveLockBackend (lock_of f)).1 = lockBackendRedis ∧
  (0 < inflightStagingRetention staging)%Z ∧ (0 < inflightStagingPartSize staging)%Z.
Proof.
  unfold staging_config. destruct (inflight_staging_enabled _) eqn:He; simpl.
  - destruct (Z.leb_spec (inflight_staging_retention (staging_of f)) 0) as [|H1]; simpl; [done|].
    destruct (Z.leb_spec (inflight_staging_part_size (staging_of f)) 0) as [|H2]; simpl; [done|].
    intros [= <-]. unfold InflightStagingEnabled. simpl. intros Hd. apply bool_decide_eq_true in Hd.
    split; [done|]. destruct (Z.ltb_spec (inflight_staging_retention (staging_of f)) 0), (Z.leb_spec (inflight_staging_part_size (staging_of f)) 0); lia.
  - intros [= <-]. unfold InflightStagingEnabled. simpl. discriminate.
Qed.
End started.

Section starting.
Context `{GN : GoNix} {SG : Signing} {NL : NarInfoLib} {CD : Codec} {K : KeyLib} {KL : KeyLibLaws K}.
Context (Schedule : Type) (ParseStandard : string → option Schedule) (every_minute : Schedule) (known_zone : string → bool).
Notation S := (eff SecretKey.world start_err).
Notation createCache := (createCache Schedule ParseStandard every_minute known_zone).
Notation configured := (configured Schedule every_minute).

(** The mode and the chunk store that fits it. *)
Definition fitting (env : surroundings) (s : store) (p : mode * option storage) : Prop :=
  (is_Some p.2 ↔ p.1 ≠ Disabled) ∧ (∀ z, p.1 ≠ Full z) ∧ (s !! KeyCDCEnabled = Some "true" → chunked env ≠ 0 → p.1 ≠ Disabled).

Lemma wp_drain_mode b env f s0 s o :
  wp b (drain_mode env f) (λ r w', ∀ p, r = Ok p → fitting env s0 p) (s, o).
Proof.
  unfold drain_mode. apply wp_bind, wp_config_of. unfold initCDCDrainMode. apply wp_bind, wp_ask; [done|].
  case_bool_decide as Hz.
  - apply wp_bind. eapply wp_mono; [apply wp_DeleteCDCConfig|]. intros [[]|e] s' _; [|done]. apply wp_ret. simpl. apply wp_ret.
    intros p [= <-]. unfold fitting. simpl. split_and!; [by split; [intros []|]|done|done].
  - apply wp_ret. simpl. apply wp_bind, wp_lift. destruct (getChunkStorageBackend _ _) as [st|]; [|done].
    apply wp_ret. intros p [= <-]. unfold fitting. simpl. split_and!; [by split; [|eauto]|done|done].
Qed.

Lemma wp_createCache b env f ucs s o :
  wp b (createCache env f ucs) (λ r w', ∀ c, r = Ok c → configured env f ucs s w'.1 c) (s, o).
Proof.
  unfold createCache. apply wp_bind, wp_lift. destruct (getStorageBackend _ _) as [stores|]; [|done].
  apply wp_bind, wp_wrap. eapply wp_mono; [apply wp_key_keeps_cdc|]. intros [k|e] [s1 o1] Hs1; simpl; [|done]. simpl in Hs1.
  destruct (temp_dir_ok env); simpl; [|by apply wp_throw].
  apply wp_bind, wp_cdc_settings. intros [[cdcEnabled z]|e]; [|done].
  apply wp_bind, wp_stored_enabled; [done|]. rewrite Hs1. apply wp_bind, wp_validate_enabled; [done|]. intros s2 Hz.
  destruct (cdcEnabled && negb (accepted env z)) eqn:Hacc; [by apply wp_throw|].
  apply wp_bind, wp_lift. destruct (staging_config f) as [staging|] eqn:Hst; [|done].
  apply wp_bind.
  apply (wp_mono _ (λ (r : result start_err (mode * option storage)) w', ∀ p, r = Ok p →
    if cdcEnabled then w' = (s2, o1) ∧ p.1 = Full z ∧ is_Some p.2 else fitting env s p)).
  { destruct cdcEnabled.
    - apply wp_bind, wp_lift. destruct (getChunkStorageBackend _ _); [|done]. apply wp_ret. intros p [= <-]. by eauto.
    - case_bool_decide as He; [apply wp_drain_mode|]. apply wp_ret. intros p [= <-]. unfold fitting. simpl.
      split_and!; [by split; [intros []|]|done|done]. }
  intros [[mode chunkStore]|e] [s3 o3] Hp; [|done]. specialize (Hp _ eq_refl).
  apply wp_bind, wp_lift. destruct (parseTrustedUploadKeys _) as [uks|]; [|done].
  destruct (negb (bool_decide (lru_schedule_timezone (jobs_of f) = "")) && _); [by apply wp_throw|].
  apply wp_bind, wp_lift. destruct (lru_job _ _ _) as [[maxSize lru]|] eqn:Hlru; [|done].
  apply wp_bind, wp_lift. destruct (cleanup_job _ _ _ _ _) as [cleanup|] eqn:Hcl; [|done].
  apply wp_bind, wp_lift. destruct (addCDCRecoveryCronJob _ _ _ _ _) as [recovery|] eqn:Hrec; [|done].
  apply wp_ret. intros c [= <-].
  destruct (jobs_set_up _ _ every_minute _ _ staging _ _ _ _ Hlru Hcl Hrec) as (Hj1 & Hj2 & Hj3).
  pose proof (staging_set_up _ _ Hst) as Hs.
  split; cbn [i_mode i_chunk_store i_staging i_jobs i_max_size i_lazy i_upstreams].
  - intros z' ->. destruct cdcEnabled; [|by destruct Hp as (_ & Hno & _); destruct (Hno z')].
    destruct Hp as ([= -> ->] & [= ->] & _). simpl in Hacc. split; [by destruct (accepted env z)|by apply Hz].
  - destruct cdcEnabled; [|apply Hp]. destruct Hp as (_ & Hm & Hc). simpl in *. by rewrite Hm.
  - destruct cdcEnabled; [|apply Hp]. destruct Hp as (_ & Hm & _). simpl in *. by rewrite Hm.
  - intros He. destruct (Hs He) as (? & ? & ?). split_and!; auto.
  - exact Hj1.
  - intros z' ->. destruct cdcEnabled; [by apply Hj2|]. by destruct Hp as (_ & Hno & _); destruct (Hno z').
  - done.
Qed.

Lemma wp_cluster_uuid b uuid s o :
  wp b (getOrSetClusterUUID uuid) (λ _ w', w'.1 !! KeyCDCEnabled = s !! KeyCDCEnabled) (s, o).
Proof.
  unfold getOrSetClusterUUID. apply wp_bind, wp_try, wp_config_of, wp_getConfig; [intros _; by apply wp_throw|].
  destruct (s !! KeyClusterUUID); simpl; [by apply wp_ret|].
  apply wp_bind, wp_config_of, wp_setConfig; intros; [done|..]; simpl; [|apply wp_ret; simpl]; by rewrite lookup_insert_ne.
Qed.

Lemma redis_backend_lockers ping cluster_ping now f locks :
  getLockers ping cluster_ping now f = Ok locks → (determineEffectiveLockBackend f).1 = lockBackendRedis →
  ∃ clients locker rwLocker, locks = RedisLockers clients locker rwLocker.
Proof.
  unfold getLockers. destruct (determineEffectiveLockBackend f) as [backend addrs]. simpl. intros Hl ->.
  rewrite bool_decide_eq_true_2 in Hl by done. case_bool_decide; [done|].
  destruct (Redlock.NewLocker _ _ _ _ _); simpl in Hl; [|done]. destruct (RedisLock.NewRWLocker _ _ _ _); simplify_eq/=. eauto.
Qed.
End starting.

(** ** The properties *)

(** C28. A server that starts is configured consistently, whatever fails and whatever
    earlier boots have stored: each upstream has the credentials of its host name and
    exactly the given keys that are named for its host; new NARs are chunked with sizes
    the chunker takes and the configuration has; a chunk store is open exactly when the
    cache chunks or drains, so always when chunks are left of a cache that chunked;
    staging is on only with Redis lockers, and then with a positive grace period and
    part size and its periodic collection; eviction has the size it evicts to, and lazy
    chunking its cleanup and its recovery. *)
Theorem started_as_configured `{GN : GoNix} {SG : Signing} {NL : NarInfoLib} {CD : Codec} {K : KeyLib} {KL : KeyLibLaws K}
    (Schedule : Type) (ParseStandard : string → option Schedule) (every_minute : Schedule) (known_zone : string → bool)
    (env : surroundings) (ping : string → bool) (cluster_ping : list string → bool) (now : Z) (uuid : string)
    (netrcData : option (string → option (string * string))) (gatherer : option string) (f : command) (w w' : SecretKey.world)
    (locks : lockers) (c : instance Schedule) (srv : Server.Server) :
  serveAction Schedule ParseStandard every_minute known_zone env ping cluster_ping now uuid netrcData gatherer f w = (Ok (locks, c, srv), w') →
  ∃ ucs, ucs ≠ [] ∧ Forall2 (keyed (upstream_of f) netrcData) (upstream_urls (upstream_of f)) ucs ∧
    (∀ i, heap (i_upstreams _ c) !! i = ucs !! i) ∧ upstreamCaches (i_upstreams _ c) = seq 0 (length ucs) ∧
    configured Schedule every_minute env f ucs (cat (db w)) (cat (db w')) c ∧
    (InflightStagingEnabled (i_staging _ c) = true → ∃ clients locker rwLocker, locks = RedisLockers clients locker rwLocker).
Proof.
  intros Hrun.
  assert (wp true (serveAction Schedule ParseStandard every_minute known_zone env ping cluster_ping now uuid netrcData gatherer f)
    (λ r v', ∀ locks c srv, r = Ok (locks, c, srv) →
      ∃ ucs, ucs ≠ [] ∧ Forall2 (keyed (upstream_of f) netrcData) (upstream_urls (upstream_of f)) ucs ∧
        configured Schedule every_minute env f ucs (cat (db w)) v'.1 c ∧
        getLockers ping cluster_ping now (lock_of f) = Ok locks) (cat (db w), cat (old w))) as Hwp.
  { unfold serveAction. apply wp_bind, wp_lift. destruct (getLockers _ _ _ _) as [lk|] eqn:Hlk; [|done].
    apply wp_bind. eapply wp_mono; [apply wp_cluster_uuid|]. intros [u|e] [s1 o1] Hs1; [|done]. simpl in Hs1.
    apply wp_bind, wp_lift. destruct (getStorageConfig _); [|done].
    apply wp_bind, wp_lift. destruct (getUpstreamCaches _ _) as [ucs|] eqn:Hucs; [|done].
    destruct (getUpstreamCaches_keyed _ _ _ Hucs) as [Hne Hk].
    apply wp_bind. eapply wp_mono; [apply (wp_createCache Schedule ParseStandard every_minute known_zone true env f ucs s1 o1)|].
    intros [c1|e] w1 Hc; [|done]. apply wp_ret. intros lk' c' srv' [= <- <- <-]. exists ucs. split_and!; [done..| |done].
    destruct (Hc c1 eq_refl) as [H1 H2 H3 H4 H5 H6 H7]. split; [done..| |done|done|done|done]. by rewrite <- Hs1. }
  destruct (Hwp w eq_refl ltac:(done)) as [_ Hpost]. rewrite Hrun in Hpost.
  destruct (Hpost locks c srv eq_refl) as (ucs & Hne & Hk & Hc & Hl). exists ucs. split_and!; [done|done| | |exact Hc|].
  - intros i. rewrite (cf_upstreams _ _ _ _ _ _ _ _ Hc). apply new_site_lookup.
  - by rewrite (cf_upstreams _ _ _ _ _ _ _ _ Hc).
  - intros Hs. destruct (cf_staging _ _ _ _ _ _ _ _ Hc Hs) as [Hr _]. by eapply redis_backend_lockers.
Qed.

(** C38. A key that is not named for its upstream's host checks nothing: when none of
    the given keys is, the upstream is set up without a key and without an error,
    and any narinfo it answers with that parses is taken, whatever its signatures. *)
Theorem misnamed_key_unchecked `{GN : GoNix} {SG : Signing} {NL : NarInfoLib} {CD : Codec} (f : upstream_flags)
    (netrcData : option (string → option (string * string))) (us : string) (u : go_url) (uc : Upstream.Cache)
    (net : nat → Upstream.request → attempt) (hash : string) (h : http) (ni : NarInfo) :
  Parse us = Ok u → new_upstream f netrcData us = Ok uc →
  (∀ k, k ∈ effective_list (upstream_public_key f) (cache_upstream_public_key f) → key_matches (Host u) k = false) →
  (∀ n r, ∃ resp, answer (net n r) = Ok resp ∧ StatusCode resp = 200%Z ∧ s_breaks (r_body resp) = false ∧
    Upstream.ParseNarInfo (s_bytes (r_body resp)) = Some ni) → CheckNarInfo ni = true →
  (Upstream.GetNarInfo net uc hash h).1 = Ok (fill_file_size ni).
Proof.
  intros Hu Hnew Hno Hnet Hcheck. destruct (new_upstream_keyed _ _ _ _ Hnew) as (u' & Hu' & _ & _ & Hkeys).
  assert (u' = u) as -> by congruence.
  assert (publicKeys uc = []) as Hnone.
  { destruct (publicKeys uc) as [|pk pks] eqn:Hp; [done|]. destruct (proj1 (Hkeys pk)) as (k & Hk & Hm & _); [by left|].
    by rewrite (Hno k Hk) in Hm. }
  unfold Upstream.GetNarInfo, mbind, eff_bind.
  destruct (doRequest net uc "GET" (narinfo_url uc hash) id h) as [r h'] eqn:Hd.
  assert (∃ resp, r = Ok resp ∧ StatusCode resp = 200%Z ∧ s_breaks (r_body resp) = false ∧
    Upstream.ParseNarInfo (s_bytes (r_body resp)) = Some ni) as (resp & -> & H200 & Hb & Hp).
  { unfold doRequest, defaultHTTPRetries in Hd. simpl in Hd. unfold mbind, eff_bind, Do in Hd.
    match type of Hd with context [net ?n ?r] => destruct (Hnet n r) as (resp & Ha & Hr) end.
    rewrite Ha in Hd. simpl in Hd. exists resp. by injection Hd as <- _. }
  rewrite bool_decide_eq_true_2 by done. simpl. unfold lift. rewrite Hb, Hp. simpl. rewrite Hcheck. simpl. by rewrite Hnone.
Qed.

(** ** Examples *)

(** The flag for TLS is read and changes nothing. *)
Theorem redis_tls_ignored (ping : string → bool) (cluster_ping : list string → bool) (now : Z) (backend : string) (addrs : list string)
    (user pw : string) (d : Z) (pool : Z) (prefix : string) (n : nat) (degraded : bool) (ttl poll : Z) :
  let f tls := mkLockFlags backend addrs user pw d tls pool prefix n degraded ttl poll in
  getLockers ping cluster_ping now (f true) = getLockers ping cluster_ping now (f false) ∧
  ∀ clients locker rwLocker, getLockers ping cluster_ping now (f true) = Ok (RedisLockers clients locker rwLocker) →
    ∀ o, o ∈ clients → TLSConfig o = false.
Proof.
  split; [done|]. intros clients locker rwLocker. unfold getLockers. destruct (determineEffectiveLockBackend _) as [b vs].
  case_bool_decide; [|by case_bool_decide]. case_bool_decide; [done|].
  destruct (Redlock.NewLocker _ _ _ _ _); simpl; [|done]. destruct (RedisLock.NewRWLocker _ _ _ _); simpl; [|done].
  intros [= <- _ _] o Ho. by apply list_elem_of_fmap in Ho as (addr & -> & _).
Qed.

Definition sample_storage : storage_flags := mkStorageFlags "" "/data" "" "" "" "" "" false.
Definition sample_locks : lock_flags := mkLockFlags "local" ["redis:6379"; ""] "ncps" "secret" 0 true 10 "" 3 false 300 60.
Definition sample_upstreams : upstream_flags :=
  mkUpstreamFlags ["https://Cache.example.org:8443/main?priority=20"; ""; "http://spare.org"] []
    ["spare.org-1:c3BhcmU="; "Cache.example.org:8443-2:bWFpbg=="; "main-1:b3RoZXI="] [] three_seconds (2 * Second) three_seconds three_seconds.
Definition sample_jobs : job_flags := mkJobFlags "" "@daily" "10G" 24 "@hourly" "@every 5m" 100.
Definition sample_command (z : sizes) : command :=
  mkCommand sample_storage sample_locks sample_upstreams sample_jobs (mkStagingFlags true 60 1024) (mkFlags true true z) true
    "cache.example.org" true [""; "k"] false false true "token".

Definition ordered_sizes (z : sizes) : bool := (minSize z <? avgSize z)%N && (avgSize z <? maxSize z)%N.
Definition sample_env : surroundings := mkSurroundings (λ _, true) true ordered_sizes 0 None 7.
Definition sample_netrc (host : string) : option (string * string) := if bool_decide (host = "spare.org") then Some ("user", "pw") else None.

(** Schedules are their texts. *)
Definition serve_sample (z : sizes) (w : SecretKey.world) : result start_err (lockers * instance (K := sample_keys) string * Server.Server) * SecretKey.world :=
  serveAction string Some "@every 1m" (λ _, true) sample_env (λ _, true) (λ _, true) 0 "uuid" (Some sample_netrc) None (sample_command z) w.

Example urls_parsed :
  (match Parse "https://u%41:p@Cache.example.org:8443/a%2fb/c?q=1#f" with
   | Ok u => Some (Scheme u, User u, Host u, Hostname u, UrlPath u, EscapedPath u, RawQuery u, Fragment u)
   | Err _ => None
   end) = Some ("https", Some ("uA", Some "p"), "Cache.example.org:8443", "Cache.example.org", "/a/b/c", "/a%2fb/c", "q=1", "f") ∧
  is_ok (Parse "cache.nixos.org:443/x") = true ∧ is_ok (Parse "http://[::1]:80/") = true ∧ is_ok (Parse "http://a:b/") = false ∧
  is_ok (Parse "1a:b") = false ∧ is_ok (Parse "http://a%20b/") = false.
Proof. vm_compute. done. Qed.

Lemma started_as_configured_witness :
  ∃ locks c srv, (serve_sample small new_cache).1 = Ok (locks, c, srv) ∧
    (∃ ucs, length ucs = 2 ∧ (publicKeys <$> ucs) = [["Cache.example.org:8443-2:bWFpbg=="]; ["spare.org-1:c3BhcmU="]] ∧
      configured string "@every 1m" sample_env (sample_command small) ucs ∅ (cat (db (serve_sample small new_cache).2)) c) ∧
    i_mode _ c = Full small ∧ i_max_size _ c = Some 10737418240%Z ∧ length (i_jobs _ c) = 4 ∧ InflightStagingEnabled (i_staging _ c) = true.
Proof.
  assert (is_ok (serve_sample small new_cache).1 = true) as Hok by (vm_compute; reflexivity).
  destruct (serve_sample small new_cache) as [[[[locks c] srv]|e] w'] eqn:Hrun; [|discriminate Hok]. clear Hok. cbn [fst snd].
  exists locks, c, srv. split; [reflexivity|].
  pose proof Hrun as Hstart. unfold serve_sample in Hstart. apply (started_as_configured (KL := sample_keys_laws)) in Hstart as (ucs & _ & _ & Hheap & Hups & Hc & _).
  apply (f_equal fst) in Hrun. cbn [fst] in Hrun. vm_compute in Hrun. injection Hrun as <- <- <-.
  split; [|split_and!; reflexivity]. cbn [i_upstreams upstreamCaches] in Hups.
  exists ucs. assert (length ucs = 2) as Hlen by (rewrite <- (length_seq (length ucs) 0); by rewrite <- Hups).
  split; [exact Hlen|]. split; [|exact Hc].
  destruct ucs as [|x [|y [|]]]; try discriminate Hlen.
  pose proof (Hheap 0) as H0. pose proof (Hheap 1) as H1. vm_compute in H0, H1.
  injection H0 as <-. injection H1 as <-. reflexivity.
Defined.

(** A key of [main]'s under the name it signs with, ["main-1"], is not used for it. *)
Lemma misnamed_key_unchecked_witness :
  let f := mkUpstreamFlags ["https://cache.example.org"] [] ["main-1:b3RoZXI="] [] 0 0 0 0 in
  match getUpstreamCaches (NL := tagged_lib) f None with
  | Ok [uc] => publicKeys uc = [] ∧ (Upstream.GetNarInfo (λ _ _, mkAttempt (Ok (mkResponse 200 "" (-1) (plain_stream "hello"))) None) uc "abc" nothing_sent).1 =
      Ok (fill_file_size hello) ∧ VerifyWith (Fingerprint hello) (Signatures hello) ["main-1:b3RoZXI="] = false
  | _ => False
  end.
Proof.
  intros f. destruct (getUpstreamCaches f None) as [ucs|] eqn:Hucs; [|by vm_compute in Hucs].
  vm_compute in Hucs. injection Hucs as <-. split; [reflexivity|]. split; [|vm_compute; reflexivity].
  eapply (misnamed_key_unchecked f None "https://cache.example.org").
  - vm_compute. reflexivity.
  - vm_compute. reflexivity.
  - intros k [->|Hk]%elem_of_cons; [vm_compute; reflexivity|by apply elem_of_nil in Hk].
  - intros n r. eexists. split; [reflexivity|]. by split_and!.
  - vm_compute. reflexivity.
Defined.

(** Sizes the chunker refuses are stored before it is asked: the boot fails, and so does
    the next one with the sizes put right. *)
Theorem refused_sizes_stored :
  let wrong := mkSizes 262144 65536 16384 in
  let first := serve_sample wrong new_cache in
  match first.1, (serve_sample small first.2).1 with
  | Err (ErrCDC ErrChunker), Err (ErrCDC (ErrCDCConfigMismatch keys)) => keys = [KeyCDCMin; KeyCDCMax]
  | _, _ => False
  end.
Proof. vm_compute. reflexivity. Qed.
